(* ===== verification/_CoqProject ===== *)
-Q . S2P
Prelude.v
Effects.v
Text.v
Json.v
Wire.v
ReplayCache.v
PeerAuth.v
Membership.v
Relay.v
EscrowProtocol.v
EscrowState.v
EscrowMesh.v
EscrowRepository.v
EscrowIndex.v
EscrowDurable.v
EscrowReopen.v
EscrowSlots.v
EscrowBudget.v
EscrowHistory.v
EscrowRuns.v
NostrEvent.v
NostrInterest.v
NostrStore.v
NostrQuery.v
NostrLog.v
Schedule.v
Scheduler.v
AuthzPolicy.v
AuthzCap.v
AuthzStore.v
AuthzSafety.v
DmWire.v
DmHistory.v
DmService.v
DmDisk.v
NetAddr.v
TunnelRules.v
TunnelTrust.v
TunnelPending.v
TunnelNegotiation.v
TunnelForward.v
TunnelGraph.v
TunnelStream.v
TunnelChange.v
TunnelStreamSafety.v
TunnelStreamAuth.v
TunnelStreamRuns.v
IdentityDelegation.v
IdentityPairing.v
BotSource.v
BotOutbox.v
BotDelivery.v
StorageDomain.v
StoragePaths.v
StorageLink.v
StorageSync.v
StorageSyncSafety.v
StorageMirror.v
StorageAccess.v
StorageAccessSafety.v
Base64.v
StorageGrant.v
StorageScan.v
StorageWalk.v
StorageIndex.v
StorageFollow.v
StorageSignature.v
StorageOwner.v
StoragePublish.v
StorageReach.v
StorageText.v
StorageShareRuns.v
