(* ===== verification/Prelude.v ===== *)
(** * mistl: a verification development

    mistl is a daemon that gives one user's machine a place in peer-to-peer
    rooms: it proves who its peers are, relays consensus messages, escrows
    repositories, serves as a Nostr relay, tunnels connections, exchanges
    direct messages and runs scheduled jobs. This development models the parts
    of [src/src/] that decide something: who is believed, what is admitted,
    what is kept and what is dropped. Sockets, tasks, files and windows are
    inputs and outcomes of the models.

    ** Conventions

    A function of the source is a Rocq function of the same name; state behind a
    lock is a record passed in and out; [Result] is [result] with the notation
    [let? x := r in k] for the [?] operator; early returns are [if]s in the
    order of the source. Integers are [Z] with their wrap-around, saturation or
    checks written out where the code has them; times are nanoseconds (an
    [Instant]) or milliseconds; text is [string], the bytes of UTF-8. A
    [HashMap] or [BTreeMap] is a [gmap], or a list in key order where the code
    iterates it and the order shows. A write to disk is a boolean: whether it
    succeeded. What the code draws at random or reads from a clock is an
    argument. Interleavings are sequences of steps, one for each section the
    code runs under a lock.

    ** Files

    Foundations
    - this file: results, lists, maps, numbers in text;
    - [Effects]: computations whose calls may fail or be the last before the
      process dies, as a state monad with a program logic;
    - [Text], [Json], [NetAddr]: [str], [serde_json::Value] and [IpAddr] as the
      source uses them;
    - [Wire]: [wiresign.rs] and the codec of [identity/mod.rs]: the canonical
      text of a JSON message, signatures and [did:key]; it declares the class
      [Crypto] of the primitives and [CryptoLaws] of their documented laws;
    - [ReplayCache]: the time-bounded queue beside a set that [net/peer_auth.rs]
      and [dm/limits.rs] both keep.

    Peers and consensus
    - [PeerAuth] ([net/peer_auth.rs]): hello proofs and the registry of proven
      peers. It stays within its caps whatever arrives; a captured proof is
      refused while the nonce cache holds it; a proven binding cannot be taken over while it is fresh.
    - [Membership] ([consensus/membership.rs]): members and their anti-replay
      windows. The 64-bit window accepts exactly what a window that remembers
      everything accepts; a Raft message is accepted at most once.
    - [Relay] ([consensus/mod.rs], [transport.rs]): the control plane around the
      Raft driver, a library whose calls are recorded. The driver knows exactly
      the members, and hears only signed messages of members.

    Escrow
    - [EscrowProtocol] ([escrow/protocol.rs]): signed heads and compare-and-swap;
    - [EscrowState] ([escrow/replication/state.rs]): the state machine of the
      room log. Any log keeps it well-formed and within quota; the history of a
      slot is linear and signed; a snapshot is read back unchanged.
    - [EscrowMesh] ([escrow/admission.rs], [replication/membership.rs],
      [mesh/decision.rs], [mesh/placement.rs]): permits never leak, a holding is
      given up only after its grace, placement is sound and stable.
    - [EscrowRepository] ([escrow/repository.rs], [repository_mesh.rs], the
      escrow section of [config.rs]): the durable copies, as an index and a disk
      whose calls fail or end the process one by one. [EscrowIndex] says what
      the index is a function of, [EscrowDurable] what each publication does to
      the disk, [EscrowReopen] what reads and starts return, [EscrowSlots] which
      operations the locks admit and how each changes the index, [EscrowBudget]
      what the changes take, [EscrowHistory] and [EscrowRuns] what every history
      keeps: after any failures and crashes a start finds all copies intact, the
      quotas hold, nothing panics, and no slot moves back.

    Nostr
    - [NostrEvent] ([nostr/event.rs], [filter.rs]), [NostrInterest]
      ([nostr/interest.rs]), [NostrStore], [NostrQuery], [NostrLog]
      ([nostr/store.rs] and the flush of [nostr/mod.rs]): parsing round trips,
      the merged subscription, the store with its indexes, bounds and deletions
      (which hold while their tombstone is remembered),
      exactness of queries, and the log file that mirrors the store.

    Authorization ([authz/])
    - [AuthzPolicy]: policy, tokens, usage meters; [AuthzCap]: chains of
      delegated capabilities; [AuthzStore]: the book that ties them together;
      [AuthzSafety]: its theorems - the decision on a request, bounds of every
      table, no delegation widens, a revocation is final for the links it
      knew of.

    Direct messages ([dm/])
    - [DmWire], [DmHistory], [DmService], [DmDisk]: a message is accepted once
      and only when authentic, a built message arrives, strangers never evict a
      conversation the user wrote in, and the files follow the history. The code
      takes the locks of the inbox and of the history in separate sections, and
      lets go of the history while it writes; here the handling of a message and
      a flush are one step each.

    Scheduler ([scheduler/])
    - [Schedule]: the expressions and the next fire time, against the class
      [Chrono] of the calendar and cron crates; [Scheduler]: the table of jobs,
      the cache of fire times and the tick. Jobs fire on time; commands, in two
      steps each, keep the cache in line with the table through interleavings
      that do not panic and touch each job once at a time.

    Tunnel ([tunnel/])
    - [TunnelRules] ([proposal_rules.rs]): rules for incoming proposals; a deny
      wins whatever the order, an allow needs a verified peer, and the file is
      read back as what the daemon decides by.
    - [TunnelTrust] ([auth.rs], [auth/trust.rs], [auth/audit.rs]) and
      [TunnelPending] ([auth/pending.rs], the authorizer of [session.rs]): every
      admitted connection has a cause, and nobody waits for nothing.
    - [TunnelNegotiation] ([negotiation.rs]): a proposal is settled once.
    - [TunnelForward] ([forward_args.rs], [forward_store.rs], [controller.rs])
      and [TunnelGraph] ([graph.rs]): what another node may change here.
    - [TunnelStream] ([tcp.rs], [tcp/tunnel.rs], [tcp/local.rs]): the connections
      of a forward, their numbered data, and the loop, tasks and timers that
      interleave over them. [TunnelChange] sorts every step into seven changes;
      [TunnelStreamSafety]: what is written is a prefix of what was read, in
      order; [TunnelStreamAuth]: no socket without an approval, and the bounds;
      [TunnelStreamRuns]: a stream delivered in order arrives whole, and the run
      in which an approval is borrowed.

    Identity ([identity/])
    - [IdentityDelegation] ([delegation.rs]): a wire is attributed to a root
      only under a delegation that root signed; [IdentityPairing] ([pairing.rs]):
      every answer of a pairing code answers an authenticated request received,
      whatever calls interleave.

    Bots ([bot/])
    - [BotSource] ([source.rs]): what is buffered, polled and turned into
      candidates, fairly to senders and without starving a waiting wire;
      [BotOutbox] ([outbox.rs], [persist.rs], the runs of [mod.rs]): delivery to
      the sinks as a state monad that may stop at every call; [BotDelivery]: its
      theorems - nothing imported is lost wherever a run stops, delivery is at least
      once,
      and a backlog drains once everything works.

    Shared folders ([storage/])
    - [StorageDomain] ([domain.rs], [crypto.rs] and the wire and keys of
      [folder_share.rs] and [folder_owner.rs]): records, encrypted payloads,
      signed envelopes and grants, against the classes [Sealing] and [Serde];
      [StoragePaths] ([sandbox.rs] and the paths of [folder_sync.rs]): names,
      paths and the jail over a tree of files; [StorageLink] ([sharelink.rs]):
      a link that is built is read back;
    - [StorageSync] ([folder_sync.rs] with the requester's side of
      [folder_share.rs]): the syncs of remote folders, as computations whose
      calls fail or end the process. [StorageSyncSafety]: a sync touches only the
      directory it was registered with, and the envelopes it obeys are newer ones
      of the owner; [StorageMirror]: a resync that works makes the directory what
      the owner published, where places do not clash, and the runs in which one
      does, a file is skipped or a stranger answers a retry;
    - [StorageAccess] ([folder_owner.rs]): the shares, their allowlists, the
      waiting requests and the commands of the owner. [StorageAccessSafety]: the
      tables are bounded and every grant has a reason, up to a collision of the
      48-bit names of waiting requests; [StorageGrant]: the key
      arrives, and a revocation holds. [Base64] is the concrete base64url their
      witnesses use;
    - [StorageScan], [StorageSignature], [StorageOwner] ([folder_owner.rs],
      [folder_signature] of [folder_sync.rs]): the owner's scan of its directory,
      the signature of the state, and the rounds that publish and announce it.
      [StorageWalk] and [StorageIndex] are the lemmas on the tree and on the
      records; [StorageFollow]: after a scan the records mirror the tree;
      [StoragePublish]: what is published can be fetched; [StorageReach]: after
      rounds that all succeeded a requester ends with the owner's tree. [StorageText] is a concrete text of
      the records for the witness in [StorageShareRuns], which also shows the
      rounds that lose a change.

    ** How they interact

    [Wire] serves every component that signs. [PeerAuth] binds a transport node
    to a DID; [Relay], [AuthzStore], [DmService] and the tunnel take the bound
    DID as an input and check again that it hashes to the node. [Relay] feeds
    [Membership] and takes its verdicts. [EscrowState] applies what
    [EscrowProtocol] validates. [EscrowRepository] takes heads by the rules of
    [EscrowProtocol] and [EscrowMesh]. [StorageSync] asks, [StorageAccess] grants,
    and [StorageGrant] joins the two;
    [StorageReach] joins the rounds of [StorageOwner] to the resync of [StorageSync]. [DmHistory] hands its pending work to the flush
    of [DmDisk], [NostrStore] to that of [NostrLog]. A forward that [TunnelGraph]
    records as planted by another node is one [TunnelPending] never admits by
    policy ([TunnelGraph.planted_forward_asks]). The requests [TunnelStream] has
    decided are those of [TunnelTrust]; what decides them is [TunnelPending].

    ** Parameters

    Third-party code is a class or an argument: [Wire.Crypto] (hashes, base58,
    base64, Ed25519, two text formatters), [EscrowProtocol.EscrowEnv],
    [EscrowRepository.RepoEnv] (the chunk size, the check of a CID, the CBOR of a
    manifest, the length of a state file), [NostrEvent.NostrEnv], [AuthzPolicy.Calendar], [AuthzCap.Serde],
    [AuthzStore.Decoding], [DmWire.JsonText], [Schedule.Chrono],
    [IdentityDelegation.Rfc3339], [IdentityPairing.Hmac], [BotSource.BodyText],
    [BotOutbox.SinkDigest], [StorageDomain.Sealing] (padded base64, PBKDF2, AES-GCM,
    P-256), [StorageDomain.Serde] and [StorageDomain.ShareValues], the
    floating-point score of [EscrowMesh] and the serialization of a
    conversation. Laws are assumed only by the theorems that need them
    ([CryptoLaws], [EscrowLaws], [ChronoLaws], [SealingLaws]), and their witnesses instantiate
    them with concrete functions ([Wire.Toy] and its likes).

    ** Bounds and fuel

    Recursion is structural but for [NostrStore.evict], whose fuel is the number
    of events (each round removes one), and [AuthzCap.parse_link], whose depth
    is the three links the code allows; [EscrowRepository.chunks_of] cuts a blob
    with its length as fuel (each chunk takes a byte);
    [StoragePaths.folder_path_parts] visits each folder once, and has a round
    more than there are folders; [StorageSignature.descendant_ids] has a round
    for each folder and one that finds nothing. Loops that draw random identifiers take
    the list of draws. The bounds of the code (caps, quotas, windows, ages)
    appear under their names, with their values.

    ** Not modelled

    The user interfaces ([cli.rs], [web/], [tray.rs], [agent/tui], [tunnel/tui],
    [control_shell]) render and relay; the AI, chat and stream services and the
    sinks of the bots are clients of external programs and codecs; [install], [update], [daemon],
    [runtime], [statefile] and [child_process] talk to the operating system;
    UDP forwards, proxies and the sessions that carry tunnel messages, and the WebRTC transport under [net/],
    are I/O around the decisions modelled here. The services around the escrow
    state (engine, snapshots, transfer), the service and the index of [storage/],
    the backup of [identity/], the relay service and mesh of [nostr/], and the
    rest of [config.rs] hold more logic of their own and are not modelled.

    In the models kept: a socket one of whose writes failed takes no more; the identity file and key storage, the carrying of
    messages, timers and the spawning of tasks are inputs; the trees of
    [StoragePaths] have the paths of Unix and no symbolic links; the tree
    [StorageScan] walks does not change during a scan, and a hash map is gone
    through in the order of the model's; the one-off
    download of a share, the administrative commands of [authz/mod.rs] on policy
    and tokens, the superseded
    [PolicyAuthorizer] and the attachments of direct messages are left out.
    A write of [statefile.rs] replaces a file atomically, as it says; the
    temporary files it may leave, and their removal at a start, are left out of
    [EscrowRepository], and its state files are the records serde reads back. *)
From stdpp Require Export base tactics list gmap strings sorting fin_maps pretty.
From Stdlib Require Export ZArith Lia.
From Stdlib Require Ascii String.
Export Stdlib.Strings.Ascii(ascii(..), N_of_ascii).
Export (notations) Stdlib.Strings.Ascii.

(** ** Results

    Rust's [Result<T, E>], with the [?] operator as a binding notation. *)
Inductive result (A E : Type) : Type :=
| Ok (a : A)
| Err (e : E).
Arguments Ok {A E} a.
Arguments Err {A E} e.

Definition rbind {A B E} (r : result A E) (k : A → result B E) : result B E :=
  match r with
  | Ok a => k a
  | Err e => Err e
  end.

Definition is_ok {A E} (r : result A E) : bool :=
  match r with Ok _ => true | Err _ => false end.

Definition ok_or {A E} (o : option A) (e : E) : result A E :=
  match o with Some a => Ok a | None => Err e end.

Definition ensure {E} (b : bool) (e : E) : result () E :=
  if b then Ok tt else Err e.

Definition map_err {A E F} (f : E → F) (r : result A E) : result A F :=
  match r with Ok a => Ok a | Err e => Err (f e) end.

(** [iter().map(f).collect::<Result<Vec<_>, _>>()]: stops at the first error. *)
Fixpoint try_map {A B E} (f : A → result B E) (l : list A) : result (list B) E :=
  match l with
  | [] => Ok []
  | x :: l => rbind (f x) (λ y, rbind (try_map f l) (λ ys, Ok (y :: ys)))
  end.

(** [for x in l { f(x)?; }] *)
Fixpoint try_each {A E} (f : A → result () E) (l : list A) : result () E :=
  match l with
  | [] => Ok tt
  | x :: l => rbind (f x) (λ _, try_each f l)
  end.

Declare Scope rust_scope.
Delimit Scope rust_scope with rust.
Notation "'let?' x := r 'in' k" := (rbind r (λ x, k))
  (at level 10, x binder, r at level 100, k at level 200) : rust_scope.
Notation "r ';;?' k" := (rbind r (λ _ : (), k))
  (at level 100, k at level 200, right associativity) : rust_scope.
#[global] Open Scope rust_scope.

Lemma rbind_Ok {A B E} (r : result A E) (k : A → result B E) b :
  rbind r k = Ok b ↔ ∃ a, r = Ok a ∧ k a = Ok b.
Proof. destruct r; simpl; [|naive_solver]. split; [eauto|by intros (? & [= <-] & ?)]. Qed.

Lemma rbind_Err {A B E} (r : result A E) (k : A → result B E) e :
  rbind r k = Err e ↔ r = Err e ∨ ∃ a, r = Ok a ∧ k a = Err e.
Proof.
  destruct r as [a|e']; simpl; split.
  - intros H. right. by exists a.
  - by intros [[=]|(? & [= <-] & ?)].
  - intros [= <-]. by left.
  - by intros [[= <-]|(? & [=] & _)].
Qed.

Lemma ensure_Ok {E} b (e : E) u : ensure b e = Ok u ↔ b = true.
Proof. destruct b, u; naive_solver. Qed.

Lemma ok_or_Ok {A E} (o : option A) (e : E) a : ok_or o e = Ok a ↔ o = Some a.
Proof. destruct o; naive_solver. Qed.

Lemma try_each_Ok {A E} (f : A → result () E) l u :
  try_each f l = Ok u ↔ ∀ x, x ∈ l → f x = Ok tt.
Proof.
  destruct u. induction l as [|x l IH]; simpl.
  - split; [set_solver|done].
  - rewrite rbind_Ok. setoid_rewrite IH. split.
    + intros ([] & Hx & Hl) y [->|Hy]%elem_of_cons; auto.
    + intros H. exists tt. split; [apply H; left|intros y Hy; apply H; by right].
Qed.

Lemma try_map_Ok {A B E} (f : A → result B E) l l' :
  try_map f l = Ok l' ↔ Forall2 (λ x y, f x = Ok y) l l'.
Proof.
  revert l'. induction l as [|x l IH]; intros l'; simpl.
  - split; [by intros [= <-]|by inversion 1].
  - rewrite rbind_Ok. split.
    + intros (y & Hy & (ys & Hys & [= <-])%rbind_Ok). constructor; [done|by apply IH].
    + intros (y & ys & Hy & Hys & ->)%Forall2_cons_inv_l. exists y. split; [done|].
      apply rbind_Ok. exists ys. split; [by apply IH|done].
Qed.

Create Rewrite HintDb rust.
#[export] Hint Rewrite @rbind_Ok @ensure_Ok @ok_or_Ok @try_each_Ok : rust.

(** ** Machine integers

    Unsigned machine integers are [Z] values in range; the wrap-around and the
    saturation are written out where the source has them. The program is built
    for 64-bit targets, so [usize] is [u64]. *)
#[global] Open Scope Z_scope.

Definition U64_MAX : Z := 2 ^ 64 - 1.
Definition U32_MAX : Z := 2 ^ 32 - 1.
Definition wrap (w z : Z) : Z := z mod 2 ^ w.
Definition sat_add (a b : Z) : Z := Z.min (a + b) U64_MAX.
Definition sat_mul (a b : Z) : Z := Z.min (a * b) U64_MAX.
Definition sat_sub (a b : Z) : Z := Z.max 0 (a - b).
Definition checked_add (a b : Z) : option Z :=
  if a + b <=? U64_MAX then Some (a + b) else None.
Definition is_u64 (z : Z) : bool := (0 <=? z) && (z <=? U64_MAX).

(** [Instant]s are nanoseconds on the monotonic clock; [since] is
    [saturating_duration_since]. *)
Definition SECOND : Z := 10 ^ 9.
Definition since (now t : Z) : Z := Z.max 0 (now - t).

(** Map and list sizes, as the [usize] that [len()] returns. *)
Definition zsize {A} (m : gmap string A) : Z := Z.of_nat (size m).
Definition zlen {A} (l : list A) : Z := Z.of_nat (length l).

Lemma sat_add_range a b : 0 ≤ a → 0 ≤ b → 0 ≤ sat_add a b ≤ U64_MAX.
Proof. unfold sat_add, U64_MAX. lia. Qed.

Lemma sat_add_mono a b : 0 ≤ b → a ≤ U64_MAX → a ≤ sat_add a b.
Proof. unfold sat_add. lia. Qed.

Lemma zlen_nonneg {A} (l : list A) : 0 ≤ zlen l.
Proof. unfold zlen. lia. Qed.

Lemma zlen_app {A} (l k : list A) : zlen (l ++ k) = zlen l + zlen k.
Proof. unfold zlen. rewrite length_app. lia. Qed.

Lemma zlen_cons {A} (x : A) (l : list A) : zlen (x :: l) = 1 + zlen l.
Proof. unfold zlen. simpl. lia. Qed.

(** ** Booleans *)

(** Turns boolean guards in hypotheses and goals into propositions. *)
Ltac bools :=
  repeat match goal with
  | H : _ && _ = true |- _ => apply andb_true_iff in H as [? ?]
  | H : _ || _ = false |- _ => apply orb_false_iff in H as [? ?]
  | H : _ || _ = true |- _ => apply orb_true_iff in H
  | H : _ && _ = false |- _ => apply andb_false_iff in H
  | H : negb _ = true |- _ => apply negb_true_iff in H
  | H : negb _ = false |- _ => apply negb_false_iff in H
  | H : bool_decide _ = true |- _ => apply bool_decide_eq_true in H
  | H : bool_decide _ = false |- _ => apply bool_decide_eq_false in H
  | H : (_ <=? _)%Z = true |- _ => apply Z.leb_le in H
  | H : (_ <=? _)%Z = false |- _ => apply Z.leb_gt in H
  | H : (_ <? _)%Z = true |- _ => apply Z.ltb_lt in H
  | H : (_ <? _)%Z = false |- _ => apply Z.ltb_ge in H
  | H : (_ =? _)%Z = true |- _ => apply Z.eqb_eq in H
  | H : (_ =? _)%Z = false |- _ => apply Z.eqb_neq in H
  end.

(** Case analysis on the next [if] or [match] of the goal or of [H]. *)
Ltac case_if :=
  match goal with
  | |- context [if ?b then _ else _] => destruct b eqn:?
  | H : context [if ?b then _ else _] |- _ => destruct b eqn:?
  end.

(** Splits every [if] and [match] of [H], closing the contradictory branches. *)
Ltac cases_in H :=
  repeat match type of H with
  | context [if ?b then _ else _] => destruct b eqn:?; simplify_eq/=
  | context [match ?x with _ => _ end] => destruct x eqn:?; simplify_eq/=
  end; bools.

(** The next check of a chain of [?]s succeeds. *)
Ltac step_ok := apply rbind_Ok; exists tt; split.

(** [Option::is_some_and] and [Option::is_none_or]. *)
Definition is_some_and {A} (f : A → bool) (o : option A) : bool :=
  match o with Some a => f a | None => false end.
Definition is_none_or {A} (f : A → bool) (o : option A) : bool :=
  match o with Some a => f a | None => true end.

Definition is_some {A} (o : option A) : bool :=
  match o with Some _ => true | None => false end.

Lemma is_some_spec {A} (o : option A) : is_some o = true ↔ is_Some o.
Proof. destruct o; split; try done; by intros []. Qed.

Lemma is_none_or_true {A} (f : A → bool) o :
  is_none_or f o = true ↔ ∀ a, o = Some a → f a = true.
Proof. destruct o; naive_solver. Qed.

Lemma is_some_and_true {A} (f : A → bool) o :
  is_some_and f o = true ↔ ∃ a, o = Some a ∧ f a = true.
Proof. destruct o; naive_solver. Qed.

(** [slice.contains(x)] *)
Definition contains {A} `{EqDecision A} (l : list A) (x : A) : bool :=
  bool_decide (x ∈ l).

Lemma contains_true {A} `{EqDecision A} (l : list A) x : contains l x = true ↔ x ∈ l.
Proof. apply bool_decide_eq_true. Qed.

(** [slice.iter().any(f)] and [.all(f)], in the proposition form. *)
Lemma existsb_elem {A} (f : A → bool) l :
  existsb f l = true ↔ ∃ x, x ∈ l ∧ f x = true.
Proof. rewrite existsb_exists. setoid_rewrite list_elem_of_In. done. Qed.

Lemma existsb_elem_false {A} (f : A → bool) l :
  existsb f l = false ↔ ∀ x, x ∈ l → f x = false.
Proof.
  rewrite <-not_true_iff_false, existsb_elem. split.
  - intros H x Hx. apply not_true_iff_false. naive_solver.
  - intros H (x & Hx & Hf). rewrite H in Hf; done.
Qed.

Lemma forallb_elem {A} (f : A → bool) l :
  forallb f l = true ↔ ∀ x, x ∈ l → f x = true.
Proof. rewrite forallb_forall. setoid_rewrite list_elem_of_In. done. Qed.

Lemma find_elem {A} (f : A → bool) l x :
  List.find f l = Some x → x ∈ l ∧ f x = true.
Proof. intros [? ?]%find_some. by rewrite list_elem_of_In. Qed.

Lemma find_none_elem {A} (f : A → bool) l :
  List.find f l = None → ∀ x, x ∈ l → f x = false.
Proof. intros H x Hx%list_elem_of_In. eapply find_none in H; done. Qed.

Lemma elem_of_List_filter {A} (f : A → bool) l x : x ∈ List.filter f l ↔ x ∈ l ∧ f x = true.
Proof. by rewrite !list_elem_of_In, List.filter_In. Qed.

Lemma NoDup_map_filter {A B} (k : A → B) (f : A → bool) l :
  NoDup (map k l) → NoDup (map k (List.filter f l)).
Proof.
  induction l as [|x l IH]; [done|]. intros [Hx Hl]%NoDup_cons. simpl. destruct (f x); [|auto].
  apply NoDup_cons. split; [|auto]. intros (y & Hk & [Hy _]%elem_of_List_filter)%list_elem_of_fmap.
  apply Hx. rewrite Hk. by apply list_elem_of_fmap_2.
Qed.

Lemma filter_zlen {A} (f : A → bool) l : zlen (List.filter f l) ≤ zlen l.
Proof. unfold zlen. induction l as [|x l IH]; simpl; [lia|]. destruct (f x); simpl; lia. Qed.

Lemma List_filter_comm {A} (f g : A → bool) l :
  List.filter f (List.filter g l) = List.filter g (List.filter f l).
Proof.
  induction l as [|x l IH]; [done|]. simpl.
  destruct (f x) eqn:Hf, (g x) eqn:Hg; simpl; rewrite ?Hf, ?Hg, ?IH; done.
Qed.

Lemma NoDup_fst_filter {A B} (f : A * B → bool) (l : list (A * B)) :
  NoDup l.*1 → NoDup (List.filter f l).*1.
Proof.
  induction l as [|x l IH]; simpl; [done|]. intros [Hx Hl]%NoDup_cons.
  destruct (f x); [|by apply IH]. simpl. constructor; [|by apply IH].
  intros (y & Hy & Hin)%list_elem_of_fmap. apply elem_of_List_filter in Hin as [Hin _].
  apply Hx, list_elem_of_fmap. by exists y.
Qed.

Lemma bool_decide_true_if {A} (P : Prop) `{Decision P} (x y : A) :
  P → (if bool_decide P then x else y) = x.
Proof. intros. by rewrite bool_decide_true. Qed.

(** ** Strings

    A Rust [String] is its UTF-8 bytes, one [ascii] per byte, so [len()] is
    [String.length] and the ordering is the bytewise one. *)
Definition slen (s : string) : Z := Z.of_nat (String.length s).

Lemma slen_nonneg s : 0 ≤ slen s.
Proof. unfold slen. lia. Qed.

Fixpoint string_forallb (p : ascii → bool) (s : string) : bool :=
  match s with
  | EmptyString => true
  | String a s => p a && string_forallb p s
  end.

Definition in_range (lo hi c : ascii) : bool :=
  (N_of_ascii lo <=? N_of_ascii c)%N && (N_of_ascii c <=? N_of_ascii hi)%N.

Definition is_ascii_digit : ascii → bool := in_range "0"%char "9"%char.
Definition is_ascii_alphabetic (c : ascii) : bool :=
  in_range "a"%char "z"%char c || in_range "A"%char "Z"%char c.
Definition is_lower_hexdigit (c : ascii) : bool :=
  is_ascii_digit c || in_range "a"%char "f"%char c.
Definition is_ascii_hexdigit (c : ascii) : bool :=
  is_ascii_digit c || in_range "a"%char "f"%char c || in_range "A"%char "F"%char c.

Definition starts_with (p s : string) : bool := String.prefix p s.

(** [str::strip_prefix]. *)
Fixpoint strip_prefix (p s : string) : option string :=
  match p, s with
  | EmptyString, s => Some s
  | String a p, String b s => if bool_decide (a = b) then strip_prefix p s else None
  | String _ _, EmptyString => None
  end.

(** [str::split_once(c)] for a one-byte [c]: the part before the first [c] and
    the part after it. *)
Fixpoint split_once (c : ascii) (s : string) : option (string * string) :=
  match s with
  | EmptyString => None
  | String a s =>
      if bool_decide (a = c) then Some ("", s)
      else match split_once c s with
           | Some (l, r) => Some (String a l, r)
           | None => None
           end
  end.

(** [str::rsplit_once(c)]: splits at the last [c]. *)
Fixpoint rsplit_once (c : ascii) (s : string) : option (string * string) :=
  match s with
  | EmptyString => None
  | String a s =>
      match rsplit_once c s with
      | Some (l, r) => Some (String a l, r)
      | None => if bool_decide (a = c) then Some ("", s) else None
      end
  end.

(** [str::strip_suffix]. *)
Definition strip_suffix (suf s : string) : option string :=
  match strip_prefix (String.rev suf) (String.rev s) with
  | Some r => Some (String.rev r)
  | None => None
  end.

Lemma string_app_assoc (a b c : string) :
  String.append (String.append a b) c = String.append a (String.append b c).
Proof. unfold String.append. induction a as [|x a IH]; simpl; [done|by rewrite IH]. Qed.

Lemma rsplit_once_eq c s l r :
  rsplit_once c s = Some (l, r) → s = String.append l (String c r).
Proof.
  revert l r. induction s as [|a s IH]; intros l r; simpl; [done|].
  destruct (rsplit_once c s) as [[l' r']|] eqn:E.
  - intros [= <- <-]. by rewrite (IH l' r' eq_refl).
  - case_bool_decide; [|done]. intros [= <- <-]. by subst.
Qed.

Lemma split_once_eq c s l r :
  split_once c s = Some (l, r) → s = String.append l (String c r).
Proof.
  revert l r. induction s as [|a s IH]; intros l r; simpl; [done|].
  case_bool_decide; [intros [= <- <-]; by subst|].
  destruct (split_once c s) as [[l' r']|] eqn:E; [|done].
  intros [= <- <-]. by rewrite (IH l' r' eq_refl).
Qed.

(** Sorting strings, as [Vec<String>::sort] does. *)
Definition sort_strings (l : list string) : list string := merge_sort String.le l.

Lemma elem_of_sort_strings l x : x ∈ sort_strings l ↔ x ∈ l.
Proof. unfold sort_strings. by rewrite merge_sort_Permutation. Qed.

Lemma Sorted_sort_strings l : Sorted String.le (sort_strings l).
Proof. apply Sorted_merge_sort, _. Qed.

Lemma NoDup_sort_strings l : NoDup l → NoDup (sort_strings l).
Proof. unfold sort_strings. by rewrite merge_sort_Permutation. Qed.

(** The keys of a hash map, in ascending order. *)
Definition sorted_keys {A} (m : gmap string A) : list string :=
  sort_strings (elements (dom m)).

Lemma elem_of_sorted_keys {A} (m : gmap string A) k : k ∈ sorted_keys m ↔ is_Some (m !! k).
Proof. unfold sorted_keys. by rewrite elem_of_sort_strings, elem_of_elements, elem_of_dom. Qed.

Lemma NoDup_sorted_keys {A} (m : gmap string A) : NoDup (sorted_keys m).
Proof. apply NoDup_sort_strings, NoDup_elements. Qed.

(** Deleting the keys of a list from a map. *)
Definition delete_all {A} (l : list string) (m : gmap string A) : gmap string A :=
  foldr delete m l.

Lemma lookup_delete_all {A} (l : list string) (m : gmap string A) k :
  delete_all l m !! k = if decide (k ∈ l) then None else m !! k.
Proof.
  unfold delete_all. induction l as [|x l IH]; simpl.
  { destruct (decide (k ∈ [])); [set_solver|done]. }
  destruct (decide (x = k)) as [->|Hne].
  - rewrite lookup_delete_eq. destruct (decide (k ∈ k :: l)); [done|set_solver].
  - rewrite lookup_delete_ne, IH by done.
    destruct (decide (k ∈ l)), (decide (k ∈ x :: l)); set_solver.
Qed.

(** ** Numbers in text *)

Definition digit_value (c : ascii) : Z := Z.of_N (N_of_ascii c) - 48.

Fixpoint digits_value (acc : Z) (s : string) : Z :=
  match s with
  | EmptyString => acc
  | String c s => digits_value (acc * 10 + digit_value c) s
  end.

(** [str::parse] for an unsigned integer whose largest value is [max]: an
    optional [+], then at least one digit, no overflow. *)
Definition parse_uint (max : Z) (s : string) : option Z :=
  let body := match strip_prefix "+" s with Some r => r | None => s end in
  if negb (bool_decide (body = "")) && string_forallb is_ascii_digit body then
    let n := digits_value 0 body in
    if n <=? max then Some n else None
  else None.

(** [str::parse] for a signed integer from [-(max + 1)] to [max]. *)
Definition parse_int (max : Z) (s : string) : option Z :=
  match strip_prefix "-" s with
  | Some r =>
      if negb (bool_decide (r = "")) && string_forallb is_ascii_digit r && (digits_value 0 r <=? max + 1)
      then Some (- digits_value 0 r) else None
  | None => parse_uint max s
  end.

Lemma digits_value_nonneg acc s :
  0 ≤ acc → string_forallb is_ascii_digit s = true → 0 ≤ digits_value acc s.
Proof.
  revert acc. induction s as [|c s IH]; simpl; [done|].
  intros acc Hacc [Hc Hs]%andb_true_iff. apply IH; [|done].
  unfold is_ascii_digit, in_range in Hc. apply andb_true_iff in Hc as [Hc _].
  apply N.leb_le in Hc. unfold digit_value.
  change (N_of_ascii "0"%char) with 48%N in Hc. lia.
Qed.

Lemma parse_uint_range max s n : parse_uint max s = Some n → 0 ≤ n ≤ max.
Proof.
  unfold parse_uint. intros H. cases_in H.
  split; [by apply digits_value_nonneg|done].
Qed.

Definition hex_digit (n : N) : ascii :=
  if (n <? 10)%N then Ascii.ascii_of_N (48 + n) else Ascii.ascii_of_N (87 + n).

(** [hex::encode]: two lowercase digits per byte. *)
Fixpoint hex_encode (s : string) : string :=
  match s with
  | EmptyString => EmptyString
  | String c s =>
      String (hex_digit (N_of_ascii c / 16)) (String (hex_digit (N_of_ascii c mod 16)) (hex_encode s))
  end.

(** [s.iter().take(n)] on bytes. *)
Fixpoint string_take (n : nat) (s : string) : string :=
  match n, s with
  | S n, String c s => String c (string_take n s)
  | _, _ => EmptyString
  end.

(** [data.windows(n).any(|w| w == p)] *)
Fixpoint has_window (p s : string) : bool :=
  starts_with p s || match s with EmptyString => false | String _ s => has_window p s end.

(** [chars().count()]: the bytes of UTF-8 text that do not continue a character. *)
Fixpoint chars_count (s : string) : Z :=
  match s with
  | EmptyString => 0
  | String c s =>
      (if (128 <=? N_of_ascii c)%N && (N_of_ascii c <=? 191)%N then 0 else 1) + chars_count s
  end.

Lemma slen_append a b : slen (a +:+ b) = slen a + slen b.
Proof.
  unfold slen. enough (String.length (a +:+ b) = (String.length a + String.length b)%nat) by lia.
  induction a as [|c a IH]; simpl; [done|by rewrite <-IH].
Qed.

Lemma string_forallb_append p a b :
  string_forallb p (a +:+ b) = string_forallb p a && string_forallb p b.
Proof. induction a as [|c a IH]; simpl; [done|by rewrite <-andb_assoc, <-IH]. Qed.

Lemma string_app_nil_r (s : string) : s +:+ "" = s.
Proof. induction s as [|c s IH]; [done|]. by rewrite <-IH at 2. Qed.

Lemma starts_with_append p s : starts_with p (p +:+ s) = true.
Proof.
  unfold starts_with. induction p as [|c p IH]; [by destruct s|].
  simpl. destruct (Ascii.ascii_dec c c); [done|congruence].
Qed.

Lemma strip_prefix_append p s : strip_prefix p (p +:+ s) = Some s.
Proof. induction p as [|c p IH]; simpl; [done|by rewrite bool_decide_true]. Qed.

Lemma strip_prefix_eq p s r : strip_prefix p s = Some r → s = p +:+ r.
Proof.
  revert s. induction p as [|c p IH]; intros s; simpl; [by intros [= ->]|].
  destruct s as [|d s]; [done|]. case_bool_decide; [|done]. subst. by intros ->%IH.
Qed.

(** [String.rev] reverses. *)
Lemma rev_app_eq a b : String.rev_app a b = String.rev a +:+ b.
Proof.
  unfold String.rev. revert b. induction a as [|c a IH]; intros b; simpl; [done|].
  rewrite IH, (IH (String c "")). by rewrite string_app_assoc.
Qed.

Lemma rev_cons c s : String.rev (String c s) = String.rev s +:+ String c "".
Proof. unfold String.rev at 1. simpl. by rewrite rev_app_eq. Qed.

Lemma rev_append a b : String.rev (a +:+ b) = String.rev b +:+ String.rev a.
Proof.
  induction a as [|c a IH].
  - change (EmptyString +:+ b) with b. by rewrite string_app_nil_r.
  - change (String c a +:+ b) with (String c (a +:+ b)).
    by rewrite !rev_cons, IH, string_app_assoc.
Qed.

Lemma rev_rev s : String.rev (String.rev s) = s.
Proof. induction s as [|c s IH]; [done|]. by rewrite rev_cons, rev_append, IH. Qed.

Lemma strip_suffix_Some suf s r : strip_suffix suf s = Some r ↔ s = r +:+ suf.
Proof.
  unfold strip_suffix. split.
  - destruct (strip_prefix _ _) as [x|] eqn:E; [|done]. intros [= <-].
    apply strip_prefix_eq in E. by rewrite <-(rev_rev s), E, rev_append, rev_rev.
  - intros ->. by rewrite rev_append, strip_prefix_append, rev_rev.
Qed.

Lemma rsplit_once_star c a : rsplit_once c (a +:+ String c "*") = Some (a, "*") ∨ c = "*"%char.
Proof.
  destruct (decide (c = "*"%char)) as [|Hne]; [by right|left].
  induction a as [|x a IH].
  - simpl. rewrite (bool_decide_false ("*"%char = c)) by done. by rewrite bool_decide_true.
  - change (String x a +:+ String c "*") with (String x (a +:+ String c "*")). simpl. by rewrite IH.
Qed.

Lemma slen_hex_encode s : slen (hex_encode s) = 2 * slen s.
Proof. unfold slen. induction s as [|c s IH]; simpl; [done|]. unfold slen in IH. lia. Qed.

Lemma hex_digit_lower n : (n < 16)%N → is_lower_hexdigit (hex_digit n) = true.
Proof.
  intros Hn. rewrite <-(N2Nat.id n). assert (Hm : (N.to_nat n < 16)%nat) by lia.
  revert Hm. generalize (N.to_nat n). intros m Hm.
  do 16 (destruct m as [|m]; [done|]). lia.
Qed.

Lemma hex_encode_lower s : string_forallb is_lower_hexdigit (hex_encode s) = true.
Proof.
  induction s as [|c s IH]; [done|]. cbn [hex_encode string_forallb].
  rewrite IH, !hex_digit_lower; [done| |].
  - by apply N.mod_lt.
  - apply N.Div0.div_lt_upper_bound. apply Stdlib.Strings.Ascii.N_ascii_bounded.
Qed.

(** ** Sums and sizes of maps *)

Lemma zsize_insert_le {A} (m : gmap string A) k x : zsize (<[k := x]> m) ≤ zsize m + 1.
Proof. unfold zsize. rewrite map_size_insert. destruct (m !! k); simpl; lia. Qed.

Lemma zsize_insert_Some {A} (m : gmap string A) k x y :
  m !! k = Some y → zsize (<[k := x]> m) = zsize m.
Proof. intros H. unfold zsize. rewrite map_size_insert, H. done. Qed.

Lemma zsize_insert_None {A} (m : gmap string A) k x :
  m !! k = None → zsize (<[k := x]> m) = zsize m + 1.
Proof. intros H. unfold zsize. rewrite map_size_insert, H. simpl. lia. Qed.

Lemma zsize_delete_Some {A} (m : gmap string A) k y :
  m !! k = Some y → zsize (delete k m) = zsize m - 1.
Proof.
  intros H. rewrite <-(insert_delete_id m k y H) at 2.
  rewrite zsize_insert_None by apply lookup_delete_eq. lia.
Qed.


Definition sum_map {A} (f : A → Z) (m : gmap string A) : Z :=
  map_fold (λ _ x acc, f x + acc) 0 m.

Lemma sum_map_empty {A} (f : A → Z) : sum_map f ∅ = 0.
Proof. apply map_fold_empty. Qed.

Lemma sum_map_insert {A} (f : A → Z) m k x :
  m !! k = None → sum_map f (<[k := x]> m) = f x + sum_map f m.
Proof. intros Hk. unfold sum_map. rewrite map_fold_insert_L; [done| |done]. intros. lia. Qed.

Lemma sum_map_delete {A} (f : A → Z) m k x :
  m !! k = Some x → sum_map f m = f x + sum_map f (delete k m).
Proof.
  intros Hk. rewrite <-(insert_delete_id m k x) at 1 by done.
  apply sum_map_insert, lookup_delete_eq.
Qed.

Lemma sum_map_update {A} (f : A → Z) m k x y :
  m !! k = Some x → sum_map f (<[k := y]> m) = sum_map f m - f x + f y.
Proof.
  intros Hk. rewrite (sum_map_delete f m k x Hk), <-insert_delete_eq.
  rewrite sum_map_insert by apply lookup_delete_eq. lia.
Qed.

Lemma sum_map_nonneg {A} (f : A → Z) m : (∀ x, 0 ≤ f x) → 0 ≤ sum_map f m.
Proof.
  intros Hf. induction m as [|k x m Hk IH] using map_ind; [by rewrite sum_map_empty|].
  rewrite sum_map_insert by done. specialize (Hf x). lia.
Qed.

Lemma filter_none {A} (f : A → bool) l : (∀ x, x ∈ l → f x = false) → List.filter f l = [].
Proof.
  induction l as [|x l IH]; intros Hf; [done|]. simpl. rewrite (Hf x) by apply list_elem_of_here.
  apply IH. intros y Hy. apply Hf. by apply list_elem_of_further.
Qed.

(** ** Stable sorting by a key ([sort_by_key]) *)
Section sort_by_key.
Context {A : Type} (key : A → Z).

Fixpoint insert_by_key (x : A) (l : list A) : list A :=
  match l with
  | [] => [x]
  | y :: l => if key y <=? key x then y :: insert_by_key x l else x :: y :: l
  end.
Definition sort_by_key (l : list A) : list A := foldl (λ acc x, insert_by_key x acc) [] l.

Definition key_sorted : list A → Prop := StronglySorted (λ x y, key x ≤ key y).

Lemma insert_by_key_perm x l : insert_by_key x l ≡ₚ x :: l.
Proof.
  induction l as [|y l IH]; [done|]. simpl. destruct (_ <=? _); [|done]. rewrite IH. apply Permutation_swap.
Qed.

Lemma sort_by_key_perm l : sort_by_key l ≡ₚ l.
Proof.
  unfold sort_by_key. rewrite <-(app_nil_l l) at 2. generalize (@nil A). induction l as [|x l IH]; intros acc; simpl.
  - by rewrite app_nil_r.
  - rewrite IH, insert_by_key_perm. simpl. apply Permutation_middle.
Qed.

Lemma insert_by_key_sorted x l : key_sorted l → key_sorted (insert_by_key x l).
Proof.
  induction l as [|y l IH]; intros Hl; simpl; [by repeat constructor|].
  apply StronglySorted_inv in Hl as [Hl Hy]. destruct (key y <=? key x) eqn:E.
  - constructor; [by apply IH|]. rewrite insert_by_key_perm. constructor; [lia|done].
  - constructor; [by constructor|]. constructor; [lia|]. eapply Forall_impl; [exact Hy|]. simpl. lia.
Qed.

Lemma sort_by_key_sorted l : key_sorted (sort_by_key l).
Proof.
  unfold sort_by_key. assert (H : key_sorted []) by constructor. revert H. generalize (@nil A).
  induction l as [|x l IH]; intros acc Hacc; [done|]. by apply IH, insert_by_key_sorted.
Qed.

(** What is cut off comes after everything kept. *)
Lemma sort_by_key_take n l x y :
  x ∈ take n (sort_by_key l) → y ∈ drop n (sort_by_key l) → key x ≤ key y.
Proof.
  pose proof (sort_by_key_sorted l) as Hs. revert Hs. rewrite <-(take_drop n (sort_by_key l)) at 1.
  generalize (take n (sort_by_key l)) as a, (drop n (sort_by_key l)) as b. intros a b Hs Hx Hy.
  induction a as [|z a IH]; [by apply elem_of_nil in Hx|]. apply StronglySorted_inv in Hs as [Hs Hz].
  apply elem_of_cons in Hx as [->|Hx]; [|by apply IH]. rewrite Forall_forall in Hz. apply Hz.
  apply elem_of_app. by right.
Qed.

(** Elements of one key keep their order. *)
Lemma sort_by_key_stable k l :
  List.filter (λ x, key x =? k) (sort_by_key l) = List.filter (λ x, key x =? k) l.
Proof.
  unfold sort_by_key.
  assert (Hins : ∀ x acc, key_sorted acc → List.filter (λ x, key x =? k) (insert_by_key x acc)
    = List.filter (λ x, key x =? k) acc ++ List.filter (λ x, key x =? k) [x]).
  { intros x acc. induction acc as [|y acc IH]; intros Hacc; [done|].
    apply StronglySorted_inv in Hacc as [Hacc Hy]. simpl. destruct (key y <=? key x) eqn:E; simpl.
    - rewrite (IH Hacc). simpl. by destruct (key y =? k).
    - destruct (key x =? k) eqn:Ex; [|by rewrite app_nil_r].
      assert (Hnone : List.filter (λ x, key x =? k) (y :: acc) = []).
      { apply filter_none. intros z Hz. apply Z.eqb_neq. apply elem_of_cons in Hz as [->|Hz]; [lia|].
        rewrite Forall_forall in Hy. specialize (Hy z Hz). simpl in Hy. lia. }
      simpl in Hnone. by rewrite Hnone. }
  assert (Hacc : key_sorted []) by constructor. change (List.filter (λ x, key x =? k) l) with
    (List.filter (λ x, key x =? k) [] ++ List.filter (λ x, key x =? k) l).
  revert Hacc. generalize (@nil A). induction l as [|x l IH]; intros acc Hacc; simpl; [by rewrite app_nil_r|].
  rewrite IH by (by apply insert_by_key_sorted). rewrite Hins by done. rewrite <-app_assoc. f_equal. simpl.
  by destruct (key x =? k).
Qed.
End sort_by_key.
