(* ===== verification/Effects.v ===== *)
(** * Computations that may stop at any call

    A state monad with failure and its program logic, for the parts of the
    program whose calls to the disk or the network take effect one by one: such
    a computation returns, fails, panics, or is cut off where the process dies.
    The inputs of the world are the business of the computation's state. *)
From S2P Require Import Prelude.

Inductive stop (E : Type) : Type :=
| Failed (e : E)
| Panicked
| Crashed.
Arguments Failed {E} e.
Arguments Panicked {E}.
Arguments Crashed {E}.

(** A computation over worlds [W], with errors [E] and results [A]. *)
Definition prog (W E A : Type) : Type := W → W * result A (stop E).

Section monad.
Context {W E : Type}.

Definition ret {A} (a : A) : prog W E A := λ w, (w, Ok a).
Definition fail {A} (e : stop E) : prog W E A := λ w, (w, Err e).
Definition bind {A B} (m : prog W E A) (k : A → prog W E B) : prog W E B := λ w,
  match m w with
  | (w, Ok a) => k a w
  | (w, Err e) => (w, Err e)
  end.
Definition get_state : prog W E W := λ w, (w, Ok w).
Definition modify (f : W → W) : prog W E () := λ w, (f w, Ok tt).
Definition lift {A} (r : result A E) : prog W E A :=
  match r with Ok a => ret a | Err e => fail (Failed e) end.
End monad.

(** An error becomes a value; a panic or the end of the process does not. *)
Definition attempted {W E F A} (m : prog W E A) : prog W F (result A E) := λ w,
  match m w with
  | (w, Ok a) => (w, Ok (Ok a))
  | (w, Err (Failed e)) => (w, Ok (Err e))
  | (w, Err Panicked) => (w, Err Panicked)
  | (w, Err Crashed) => (w, Err Crashed)
  end.

Notation "'let!' x := m 'in' k" := (bind m (λ x, k)) (at level 200, x pattern, right associativity).
Notation "m ;;! k" := (bind m (λ _, k)) (at level 100, k at level 200, right associativity).

(** ** The logic

    From a world where [P] holds: [Q a] holds where the computation returns
    [a], [X e] where it fails with [e], [I] where the process dies in it; it
    does not panic. *)
Definition ends {W E A} (Q : A → W → Prop) (X : E → W → Prop) (I : W → Prop) (r : W * result A (stop E)) : Prop :=
  match r.2 with
  | Ok a => Q a r.1
  | Err (Failed e) => X e r.1
  | Err Panicked => False
  | Err Crashed => I r.1
  end.

Definition hoare {W E A} (P : W → Prop) (m : prog W E A) (Q : A → W → Prop) (X : E → W → Prop) (I : W → Prop) : Prop :=
  ∀ w, P w → ends Q X I (m w).

Section rules.
Context {W E : Type}.
Implicit Types (P I R : W → Prop) (X : E → W → Prop).

Lemma hoare_ret {A} P (Q : A → W → Prop) X I a : (∀ w, P w → Q a w) → hoare P (ret a) Q X I.
Proof. intros H w Hw. by apply H. Qed.

Lemma hoare_fail {A} P (Q : A → W → Prop) X I e : (∀ w, P w → X e w) → hoare P (fail (Failed e)) Q X I.
Proof. intros H w Hw. by apply H. Qed.

Lemma hoare_bind {A B} P (R : A → W → Prop) (Q : B → W → Prop) X I m k :
  hoare P m R X I → (∀ a, hoare (R a) (k a) Q X I) → hoare P (bind m k) Q X I.
Proof.
  intros Hm Hk w Hw. specialize (Hm w Hw). unfold bind, ends in *. destruct (m w) as [w' [a|[e| |]]]; try done.
  by apply Hk.
Qed.

Lemma hoare_conseq {A} P P' (Q Q' : A → W → Prop) X X' I I' m : hoare P' m Q' X' I' →
  (∀ w, P w → P' w) → (∀ a w, Q' a w → Q a w) → (∀ e w, X' e w → X e w) → (∀ w, I' w → I w) → hoare P m Q X I.
Proof.
  intros Hm HP HQ HX HI w Hw. specialize (Hm w (HP w Hw)). unfold ends in *. destruct (m w) as [w' [a|[e| |]]]; cbn in *; auto.
Qed.

Lemma hoare_pre {A} P P' (Q : A → W → Prop) X I m : hoare P' m Q X I → (∀ w, P w → P' w) → hoare P m Q X I.
Proof. intros. eapply hoare_conseq; eauto. Qed.

Lemma hoare_get P (Q : W → W → Prop) X I : (∀ w, P w → Q w w) → hoare P get_state Q X I.
Proof. intros H w Hw. by apply H. Qed.

Lemma hoare_modify P (Q : () → W → Prop) X I f : (∀ w, P w → Q tt (f w)) → hoare P (modify f) Q X I.
Proof. intros H w Hw. by apply H. Qed.

Lemma hoare_lift {A} P (Q : A → W → Prop) X I r :
  (∀ w, P w → match r with Ok a => Q a w | Err e => X e w end) → hoare P (lift r) Q X I.
Proof. intros H. destruct r; [by apply hoare_ret|by apply hoare_fail]. Qed.

(** A fact that does not depend on the world may be moved out. *)
Lemma hoare_pure {A} P (Q : A → W → Prop) X I m (φ : Prop) : (φ → hoare P m Q X I) → hoare (λ w, φ ∧ P w) m Q X I.
Proof. intros H w [Hφ Hw]. by apply H. Qed.

(** The precondition may depend on the world the computation starts in. *)
Lemma hoare_at {A} P (Q : A → W → Prop) X I m : (∀ w0, P w0 → hoare (λ w, w = w0) m Q X I) → hoare P m Q X I.
Proof. intros H w Hw. by apply (H w). Qed.

Lemma hoare_attempted {A F} P (Q : result A E → W → Prop) (X : F → W → Prop) I (m : prog W E A) :
  hoare P m (λ a, Q (Ok a)) (λ e, Q (Err e)) I → hoare P (attempted m) Q X I.
Proof.
  intros Hm w Hw. specialize (Hm w Hw). unfold attempted, ends in *. by destruct (m w) as [w' [a|[e| |]]].
Qed.
End rules.

(** ** What every outcome keeps

    A reflexive and transitive relation that each call keeps relates the world
    before a computation to the world after it, however it ends. *)
Section keeps.
Context {W E : Type} (R : W → W → Prop) `{!PreOrder R}.

Definition keeps {A} (m : prog W E A) : Prop := ∀ w, R w (m w).1.

Lemma keeps_ret {A} (a : A) : keeps (ret a).
Proof. intros w. cbn. reflexivity. Qed.

Lemma keeps_fail {A} (e : stop E) : keeps (A := A) (fail e).
Proof. intros w. cbn. reflexivity. Qed.

Lemma keeps_lift {A} (r : result A E) : keeps (lift r).
Proof. destruct r; [apply keeps_ret|apply keeps_fail]. Qed.

Lemma keeps_bind {A B} (m : prog W E A) (k : A → prog W E B) : keeps m → (∀ a, keeps (k a)) → keeps (bind m k).
Proof.
  intros Hm Hk w. specialize (Hm w). unfold bind. destruct (m w) as [w' [a|e]]; [|done]. cbn in Hm. trans w'; [done|apply Hk].
Qed.
End keeps.

Lemma keeps_attempted {W E F A} (R : W → W → Prop) `{!PreOrder R} (m : prog W E A) :
  keeps R m → keeps (E := F) R (attempted m).
Proof. intros Hm w. specialize (Hm w). unfold attempted. by destruct (m w) as [w' [a|[e| |]]]. Qed.

Create HintDb keeps.

(** Computations built of calls that keep [R]. *)
Ltac keeps :=
  repeat match goal with
  | |- keeps _ (ret _) => apply keeps_ret; apply _
  | |- keeps _ (fail _) => apply keeps_fail; apply _
  | |- keeps _ (lift _) => apply keeps_lift; apply _
  | |- keeps _ (attempted _) => apply keeps_attempted; [apply _|]
  | |- keeps _ (bind _ _) => apply keeps_bind; [apply _| |intros ?]
  | |- keeps _ _ => solve [eauto with keeps]
  | |- keeps _ (match ?x with _ => _ end) => destruct x
  end.
