(* ===== verification/Text.v ===== *)
(** * Text

    The operations of [str] the components share: characters and white space
    of UTF-8 text, trimming, splitting and joining, ASCII case. *)
From S2P Require Import Prelude.

(** [char::is_whitespace] on UTF-8 text: the number of bytes of the white space
    character at the front, or 0. *)
Definition bytes (l : list N) : string := foldr (λ n s, String (Ascii.ascii_of_N n) s) EmptyString l.

Definition wide_spaces : list string := map bytes
  ([[0xC2; 0x85]; [0xC2; 0xA0]; [0xE1; 0x9A; 0x80]; [0xE2; 0x80; 0x80]; [0xE2; 0x80; 0x81];
   [0xE2; 0x80; 0x82]; [0xE2; 0x80; 0x83]; [0xE2; 0x80; 0x84]; [0xE2; 0x80; 0x85];
   [0xE2; 0x80; 0x86]; [0xE2; 0x80; 0x87]; [0xE2; 0x80; 0x88]; [0xE2; 0x80; 0x89];
   [0xE2; 0x80; 0x8A]; [0xE2; 0x80; 0xA8]; [0xE2; 0x80; 0xA9]; [0xE2; 0x80; 0xAF];
   [0xE2; 0x81; 0x9F]; [0xE3; 0x80; 0x80]])%N.

Definition whitespace_len (s : string) : nat :=
  match s with
  | EmptyString => 0
  | String c _ =>
      let n := N_of_ascii c in
      if ((9 <=? n)%N && (n <=? 13)%N) || (n =? 32)%N then 1
      else match List.find (λ w, String.prefix w s) wide_spaces with
           | Some w => String.length w
           | None => 0
           end
  end.

(** [split_whitespace()]: [skip] bytes of a white space character are still to
    be passed over, [cur] is the word being read. *)
Fixpoint words_from (skip : nat) (cur s : string) : list string :=
  let emit rest := if bool_decide (cur = "") then rest else cur :: rest in
  match s with
  | EmptyString => emit []
  | String c s' =>
      match skip with
      | S skip => words_from skip cur s'
      | O =>
          match whitespace_len s with
          | O => words_from 0 (cur +:+ String c "") s'
          | S skip => emit (words_from skip "" s')
          end
      end
  end.
Definition split_whitespace (s : string) : list string := words_from 0 "" s.

(** [s.trim().is_empty()] *)
Definition blank (s : string) : bool := bool_decide (split_whitespace s = []).

Definition ascii_lower (c : ascii) : ascii :=
  if in_range "A"%char "Z"%char c then Ascii.ascii_of_N (N_of_ascii c + 32) else c.
Fixpoint eq_ignore_ascii_case (a b : string) : bool :=
  match a, b with
  | EmptyString, EmptyString => true
  | String x a, String y b => bool_decide (ascii_lower x = ascii_lower y) && eq_ignore_ascii_case a b
  | _, _ => false
  end.

(** [str::to_ascii_lowercase]. *)
Fixpoint to_ascii_lowercase (s : string) : string :=
  match s with
  | EmptyString => EmptyString
  | String c s => String (ascii_lower c) (to_ascii_lowercase s)
  end.

(** [str::trim_start], [str::trim_end] and [str::trim]; [skip] bytes of a white
    space character are still to be passed over. *)
Fixpoint trim_start_from (skip : nat) (s : string) : string :=
  match s with
  | EmptyString => EmptyString
  | String _ s' =>
      match skip with
      | S skip => trim_start_from skip s'
      | O => match whitespace_len s with O => s | S skip => trim_start_from skip s' end
      end
  end.

Fixpoint trim_end_from (skip : nat) (s : string) : string :=
  match s with
  | EmptyString => EmptyString
  | String c s' =>
      let blank_byte skip :=
        let rest := trim_end_from skip s' in
        if bool_decide (rest = "") then "" else String c rest in
      match skip with
      | S skip => blank_byte skip
      | O => match whitespace_len s with O => String c (trim_end_from 0 s') | S skip => blank_byte skip end
      end
  end.

Definition trim_start (s : string) : string := trim_start_from 0 s.
Definition trim (s : string) : string := trim_end_from 0 (trim_start s).

(** [str::chars], each character as its bytes: a continuation byte belongs to
    the character before it. *)
Definition is_continuation (c : ascii) : bool := (128 <=? N_of_ascii c)%N && (N_of_ascii c <=? 191)%N.

Fixpoint chars (s : string) : list string :=
  match s with
  | EmptyString => []
  | String c s =>
      match chars s with
      | String d g :: gs =>
          if is_continuation d then String c (String d g) :: gs else String c "" :: String d g :: gs
      | gs => String c "" :: gs
      end
  end.

(** [s[n..]] *)
Fixpoint string_drop (n : nat) (s : string) : string :=
  match n, s with
  | S n, String _ s => string_drop n s
  | _, s => s
  end.

(** The room ids the escrow and the capabilities accept
    ([escrow::valid_room]). *)
Definition valid_room (room : string) : bool :=
  negb (bool_decide (room = "")) && (slen room <=? 96)
  && string_forallb (λ c, is_ascii_digit c || is_ascii_alphabetic c
       || contains ["_"; "."; "/"; ":"; "-"]%char c) room.

(** [str::split(c)] for a one-byte [c]: at least one part. *)
Fixpoint split_on (c : ascii) (s : string) : list string :=
  match s with
  | EmptyString => [""]
  | String a s =>
      if bool_decide (a = c) then "" :: split_on c s
      else match split_on c s with
           | w :: ws => String a w :: ws
           | [] => [String a ""]
           end
  end.

(** [slice.join(sep)] *)
Definition join (sep : string) (l : list string) : string := String.concat sep l.

(** [u64::to_string] *)
Definition show (n : Z) : string := pretty (Z.to_N n).

(** [char::is_ascii_graphic] *)
Definition is_ascii_graphic (c : ascii) : bool := (33 <=? N_of_ascii c)%N && (N_of_ascii c <=? 126)%N.

(** ** Lemmas *)

Definition emit (w : string) (rest : list string) : list string :=
  if bool_decide (w = "") then rest else w :: rest.

Lemma words_from_0 cur c s :
  words_from 0 cur (String c s) =
    match whitespace_len (String c s) with
    | O => words_from 0 (cur +:+ String c "") s
    | S skip => emit cur (words_from skip "" s)
    end.
Proof. reflexivity. Qed.

Lemma words_from_end cur : words_from 0 cur "" = emit cur [].
Proof. reflexivity. Qed.


Lemma whitespace_len_graphic c s : is_ascii_graphic c = true → whitespace_len (String c s) = 0%nat.
Proof.
  destruct c as [b0 b1 b2 b3 b4 b5 b6 b7].
  destruct b0, b1, b2, b3, b4, b5, b6, b7; intros H; vm_compute in H; (discriminate H || reflexivity).
Qed.

Lemma words_from_plain w cur s :
  string_forallb is_ascii_graphic w = true →
  words_from 0 cur (w +:+ s) = words_from 0 (cur +:+ w) s.
Proof.
  revert cur. induction w as [|c w IH]; intros cur Hw.
  - by rewrite string_app_nil_r.
  - simpl in Hw. bools. change (String c w +:+ s) with (String c (w +:+ s)).
    rewrite words_from_0, whitespace_len_graphic, IH by done.
    by rewrite string_app_assoc.
Qed.

(** Words of graphic characters, separated by single spaces. *)
Lemma split_words l w :
  Forall (λ w, w ≠ "" ∧ string_forallb is_ascii_graphic w = true) (w :: l) →
  split_whitespace (join " " (w :: l)) = w :: l.
Proof.
  unfold split_whitespace, join. revert w. induction l as [|v l IH]; intros w.
  - intros [[Hne Hw] _]%Forall_cons. simpl. rewrite <-(string_app_nil_r w) at 1.
    rewrite words_from_plain, words_from_end by done. change ("" +:+ w) with w.
    unfold emit. by rewrite bool_decide_false.
  - intros [[Hne Hw] Hl]%Forall_cons. specialize (IH v Hl).
    change (String.concat " " (w :: v :: l)) with (w +:+ String " " (String.concat " " (v :: l))).
    rewrite words_from_plain, words_from_0 by done.
    change (whitespace_len (String " " (String.concat " " (v :: l)))) with 1%nat. cbv iota.
    change ("" +:+ w) with w. unfold emit. by rewrite bool_decide_false, IH.
Qed.

Lemma trim_start_graphic c s : is_ascii_graphic c = true → trim_start (String c s) = String c s.
Proof. intros Hc. unfold trim_start. cbn [trim_start_from]. by rewrite whitespace_len_graphic. Qed.

Lemma trim_end_graphic s : string_forallb is_ascii_graphic s = true → trim_end_from 0 s = s.
Proof.
  induction s as [|c s IH]; [done|]. cbn [string_forallb trim_end_from].
  intros [Hc Hs]%andb_true_iff. by rewrite whitespace_len_graphic, IH.
Qed.

Lemma trim_graphic s : string_forallb is_ascii_graphic s = true → trim s = s.
Proof.
  intros Hs. unfold trim. destruct s as [|c s]; [done|].
  rewrite trim_start_graphic; [by apply trim_end_graphic|]. simpl in Hs. by bools.
Qed.

(** The parts of a joined list. *)
Lemma split_on_plain c w : string_forallb (λ a, negb (bool_decide (a = c))) w = true → split_on c w = [w].
Proof.
  induction w as [|a w IH]; [done|]. cbn [string_forallb split_on]. intros [Ha Hw]%andb_true_iff.
  bools. rewrite bool_decide_false, IH; done.
Qed.

Lemma split_on_app c w s :
  string_forallb (λ a, negb (bool_decide (a = c))) w = true →
  split_on c (w +:+ String c s) = w :: split_on c s.
Proof.
  induction w as [|a w IH]; intros Hw.
  - change (split_on c ("" +:+ String c s)) with (split_on c (String c s)). cbn [split_on].
    by rewrite bool_decide_true.
  - cbn [string_forallb] in Hw. bools. change (String a w +:+ String c s) with (String a (w +:+ String c s)).
    cbn [split_on]. rewrite bool_decide_false, IH; done.
Qed.

Lemma split_once_plain c w : string_forallb (λ a, negb (bool_decide (a = c))) w = true → split_once c w = None.
Proof.
  induction w as [|a w IH]; [done|]. cbn [string_forallb split_once]. intros [Ha Hw]%andb_true_iff.
  bools. by rewrite bool_decide_false, IH.
Qed.

Lemma split_once_app c w s :
  string_forallb (λ a, negb (bool_decide (a = c))) w = true → split_once c (w +:+ String c s) = Some (w, s).
Proof.
  induction w as [|a w IH]; intros Hw.
  - change (split_once c ("" +:+ String c s)) with (split_once c (String c s)). cbn [split_once].
    by rewrite bool_decide_true.
  - cbn [string_forallb] in Hw. bools. change (String a w +:+ String c s) with (String a (w +:+ String c s)).
    cbn [split_once]. by rewrite bool_decide_false, IH.
Qed.

Lemma split_on_join c l w :
  Forall (λ w, string_forallb (λ a, negb (bool_decide (a = c))) w = true) (w :: l) →
  split_on c (join (String c "") (w :: l)) = w :: l.
Proof.
  unfold join. revert w. induction l as [|v l IH]; intros w [Hw Hl]%Forall_cons.
  - by apply split_on_plain.
  - change (String.concat (String c "") (w :: v :: l)) with (w +:+ String c (String.concat (String c "") (v :: l))).
    rewrite split_on_app by done. by rewrite IH.
Qed.

(** ** Numbers are read back *)

Lemma digit_char_spec n :
  (n < 10)%N → is_ascii_digit (pretty_N_char n) = true ∧ digit_value (pretty_N_char n) = Z.of_N n.
Proof.
  intros Hn. assert (Hm : (N.to_nat n < 10)%nat) by lia. rewrite <-(N2Nat.id n).
  revert Hm. generalize (N.to_nat n). intros m Hm. do 10 (destruct m as [|m]; [by split|]). lia.
Qed.

Lemma pretty_go_spec n s :
  string_forallb is_ascii_digit (pretty_N_go n s) = string_forallb is_ascii_digit s ∧
  digits_value 0 (pretty_N_go n s) = digits_value (Z.of_N n) s ∧
  (n ≠ 0%N → pretty_N_go n s ≠ "").
Proof.
  revert s. induction (N.lt_wf_0 n) as [n _ IH]. intros s.
  destruct (decide (n = 0%N)) as [->|Hn].
  { rewrite pretty_N_go_0. split_and!; done. }
  rewrite pretty_N_go_step by lia.
  destruct (IH (n / 10)%N (N.div_lt n 10 ltac:(lia) ltac:(lia)) (String (pretty_N_char (n mod 10)) s))
    as (Hd & Hv & Hne).
  destruct (digit_char_spec (n mod 10) (N.mod_lt n 10 ltac:(lia))) as [Hc Hcv].
  rewrite Hd, Hv. cbn [string_forallb digits_value]. rewrite Hc, Hcv. split_and!; [done| |].
  - f_equal. rewrite N2Z.inj_div, N2Z.inj_mod. pose proof (Z.div_mod (Z.of_N n) 10). lia.
  - intros _. destruct (decide (n / 10 = 0)%N) as [->|Hq]; [by rewrite pretty_N_go_0|by apply Hne].
Qed.

Lemma show_spec n :
  0 ≤ n → string_forallb is_ascii_digit (show n) = true ∧ digits_value 0 (show n) = n ∧ show n ≠ "".
Proof.
  intros Hn. unfold show, pretty, pretty_N. case_decide as Hz.
  { assert (n = 0) as -> by lia. done. }
  destruct (pretty_go_spec (Z.to_N n) "") as (Hd & Hv & Hne).
  rewrite Hd, Hv. split_and!; [done|simpl; lia|by apply Hne].
Qed.

Lemma digit_not_plus c : is_ascii_digit c = true → c ≠ "+"%char.
Proof. by intros H ->. Qed.

Lemma parse_show max n : 0 ≤ n ≤ max → parse_uint max (show n) = Some n.
Proof.
  intros [Hn Hm]. destruct (show_spec n Hn) as (Hd & Hv & Hne). unfold parse_uint.
  assert (Hp : strip_prefix "+" (show n) = None).
  { destruct (show n) as [|c s] eqn:E; [done|]. cbn [string_forallb] in Hd. bools.
    cbn [strip_prefix]. rewrite bool_decide_false; [done|]. intros <-. by apply (digit_not_plus "+"). }
  rewrite Hp, Hd, Hv, (bool_decide_false _ Hne). cbn [negb andb]. by rewrite (proj2 (Z.leb_le n max) Hm).
Qed.

Lemma digit_graphic c : is_ascii_digit c = true → is_ascii_graphic c = true.
Proof.
  destruct c as [b0 b1 b2 b3 b4 b5 b6 b7].
  destruct b0, b1, b2, b3, b4, b5, b6, b7; intros H; vm_compute in H; (discriminate H || reflexivity).
Qed.

Lemma string_forallb_impl p q s :
  (∀ c, p c = true → q c = true) → string_forallb p s = true → string_forallb q s = true.
Proof.
  intros Hpq. induction s as [|c s IH]; [done|]. simpl. intros [Hc Hs]%andb_true_iff.
  by rewrite Hpq, IH.
Qed.

Lemma graphic_ascii c : is_ascii_graphic c = true → is_continuation c = false.
Proof.
  destruct c as [b0 b1 b2 b3 b4 b5 b6 b7].
  destruct b0, b1, b2, b3, b4, b5, b6, b7; intros H; vm_compute in H; (discriminate H || reflexivity).
Qed.

Lemma chars_cons c s :
  string_forallb is_ascii_graphic s = true → chars (String c s) = String c "" :: chars s.
Proof.
  intros Hs. cbn [chars]. destruct s as [|d s]; [done|].
  cbn [string_forallb] in Hs. bools. cbn [chars].
  destruct (chars s) as [|[|e g] gs]; try (by rewrite graphic_ascii).
  destruct (is_continuation e); by rewrite graphic_ascii.
Qed.

(** Words separated by one space have nothing to trim. *)
Lemma trim_end_words w s :
  string_forallb is_ascii_graphic w = true → s ≠ "" → trim_end_from 0 s = s →
  trim_end_from 0 (w +:+ String " " s) = w +:+ String " " s.
Proof.
  intros Hw Hne Hs. induction w as [|c w IH].
  - change ("" +:+ String " " s) with (String " " s). cbn [trim_end_from].
    change (whitespace_len (String " " s)) with 1%nat. cbv iota. rewrite Hs. by rewrite bool_decide_false.
  - cbn [string_forallb] in Hw. bools. change (String c w +:+ String " " s) with (String c (w +:+ String " " s)).
    cbn [trim_end_from]. by rewrite whitespace_len_graphic, IH.
Qed.

Lemma trim_end_join l w :
  Forall (λ w, w ≠ "" ∧ string_forallb is_ascii_graphic w = true) (w :: l) →
  trim_end_from 0 (join " " (w :: l)) = join " " (w :: l) ∧ join " " (w :: l) ≠ "".
Proof.
  unfold join. revert w. induction l as [|v l IH]; intros w [[Hne Hw] Hl]%Forall_cons.
  - split; [by apply trim_end_graphic|done].
  - change (String.concat " " (w :: v :: l)) with (w +:+ String " " (String.concat " " (v :: l))).
    destruct (IH v Hl) as [Ht Hn]. split; [by apply trim_end_words|by destruct w].
Qed.

Lemma trim_join l w :
  Forall (λ w, w ≠ "" ∧ string_forallb is_ascii_graphic w = true) (w :: l) →
  trim (join " " (w :: l)) = join " " (w :: l).
Proof.
  intros H. unfold trim. destruct (trim_end_join l w H) as [Ht _].
  assert (Hs : trim_start (join " " (w :: l)) = join " " (w :: l)); [|by rewrite Hs].
  apply Forall_cons in H as [[Hne Hw] _]. destruct w as [|c w]; [done|].
  cbn [string_forallb] in Hw. bools. unfold join. destruct l; by apply trim_start_graphic.
Qed.

(** ** Text without white space *)

(** No white space character starts anywhere. *)
Fixpoint no_space (s : string) : bool :=
  match s with EmptyString => true | String _ s' => (whitespace_len s =? 0)%nat && no_space s' end.

Lemma no_space_trim s : no_space s = true → trim s = s.
Proof.
  intros Hs. assert (He : trim_end_from 0 s = s).
  { induction s as [|c s IH]; [done|]. cbn [no_space] in Hs. apply andb_true_iff in Hs as [Hc Hs].
    apply Nat.eqb_eq in Hc. cbn [trim_end_from]. by rewrite Hc, IH. }
  unfold trim, trim_start. destruct s as [|c s]; [done|]. cbn [no_space] in Hs.
  apply andb_true_iff in Hs as [Hc _]. apply Nat.eqb_eq in Hc. cbn [trim_start_from]. by rewrite Hc.
Qed.

Lemma whitespace_len_cons c s :
  whitespace_len (String c s) =
    if is_ascii_graphic c then 0%nat
    else if ((9 <=? N_of_ascii c)%N && (N_of_ascii c <=? 13)%N) || (N_of_ascii c =? 32)%N then 1%nat
    else match List.find (λ w, String.prefix w (String c s)) wide_spaces with
         | Some w => String.length w | None => 0%nat end.
Proof.
  destruct (is_ascii_graphic c) eqn:E; [by apply whitespace_len_graphic|]. done.
Qed.

Lemma find_ext {A} (f g : A → bool) l : (∀ x, x ∈ l → f x = g x) → List.find f l = List.find g l.
Proof.
  induction l as [|x l IH]; intros H; [done|]. simpl. rewrite H by left. rewrite IH; [done|].
  intros y Hy. apply H. by right.
Qed.

Definition is_wide (c : ascii) : bool := (128 <=? N_of_ascii c)%N.

Lemma wide_spaces_wide w : w ∈ wide_spaces → string_forallb is_wide w = true ∧ w ≠ "".
Proof.
  unfold wide_spaces. intros Hw. simpl in Hw.
  repeat (apply elem_of_cons in Hw as [->|Hw]; [by vm_compute|]). by apply elem_of_nil in Hw.
Qed.

Lemma prefix_wide_app w a c b :
  string_forallb is_wide w = true → is_wide c = false →
  String.prefix w (a +:+ String c b) = String.prefix w a.
Proof.
  revert a. induction w as [|x w IH]; intros a Hw Hc; [by destruct a|].
  cbn [string_forallb] in Hw. apply andb_true_iff in Hw as [Hx Hw]. destruct a as [|y a].
  - change ("" +:+ String c b) with (String c b). cbn [String.prefix].
    destruct (Ascii.ascii_dec x c) as [->|]; [congruence|done].
  - change (String y a +:+ String c b) with (String y (a +:+ String c b)). cbn [String.prefix].
    destruct (Ascii.ascii_dec x y); [by apply IH|done].
Qed.

Lemma whitespace_len_app a c b :
  is_ascii_graphic c = true → a ≠ "" → whitespace_len (a +:+ String c b) = whitespace_len a.
Proof.
  intros Hc Ha. destruct a as [|x a]; [done|].
  change (String x a +:+ String c b) with (String x (a +:+ String c b)). rewrite !whitespace_len_cons.
  destruct (is_ascii_graphic x); [done|]. destruct (_ || _); [done|].
  change (String x (a +:+ String c b)) with (String x a +:+ String c b).
  assert (Hnc : is_wide c = false).
  { revert Hc. clear. destruct c as [b0 b1 b2 b3 b4 b5 b6 b7].
    destruct b0, b1, b2, b3, b4, b5, b6, b7; intros H; vm_compute in H; (discriminate H || reflexivity). }
  erewrite find_ext; [done|]. intros w [Hw _]%wide_spaces_wide. by apply prefix_wide_app.
Qed.

Lemma no_space_app a c b :
  is_ascii_graphic c = true → no_space a = true → no_space b = true → no_space (a +:+ String c b) = true.
Proof.
  intros Hc Ha Hb. induction a as [|x a IH].
  - change ("" +:+ String c b) with (String c b). cbn [no_space]. by rewrite whitespace_len_graphic.
  - cbn [no_space] in Ha. apply andb_true_iff in Ha as [Hx Ha].
    change (String x a +:+ String c b) with (String x (a +:+ String c b)). cbn [no_space].
    change (String x (a +:+ String c b)) with (String x a +:+ String c b).
    rewrite whitespace_len_app by done. by rewrite Hx, IH.
Qed.

Lemma no_space_join c l w :
  is_ascii_graphic c = true → Forall (λ w, no_space w = true) (w :: l) →
  no_space (join (String c "") (w :: l)) = true.
Proof.
  intros Hc. unfold join. revert w. induction l as [|v l IH]; intros w [Hw Hl]%Forall_cons; [done|].
  change (String.concat (String c "") (w :: v :: l)) with (w +:+ String c (String.concat (String c "") (v :: l))).
  apply no_space_app; auto.
Qed.

Lemma no_space_graphic s : string_forallb is_ascii_graphic s = true → no_space s = true.
Proof.
  induction s as [|c s IH]; [done|]. cbn [string_forallb no_space]. intros [Hc Hs]%andb_true_iff.
  by rewrite whitespace_len_graphic, IH.
Qed.

(** A character holds the white space at its front. *)
Lemma whitespace_len_continuation c s : is_continuation c = true → whitespace_len (String c s) = 0%nat.
Proof.
  intros Hc. rewrite whitespace_len_cons.
  assert (Hg : is_ascii_graphic c = false ∧ ((9 <=? N_of_ascii c)%N && (N_of_ascii c <=? 13)%N) || (N_of_ascii c =? 32)%N = false).
  { revert Hc. clear. destruct c as [b0 b1 b2 b3 b4 b5 b6 b7].
    destruct b0, b1, b2, b3, b4, b5, b6, b7; intros H; vm_compute in H; (discriminate H || done). }
  destruct Hg as [-> ->]. destruct (List.find _ wide_spaces) as [w|] eqn:E; [|done]. exfalso.
  apply find_elem in E as [Hw Hp]. unfold wide_spaces in Hw. simpl in Hw.
  assert (Hfirst : ∃ a w', w = String a w' ∧ is_continuation a = false).
  { repeat (apply elem_of_cons in Hw as [->|Hw]; [by eexists _, _|]). by apply elem_of_nil in Hw. }
  destruct Hfirst as (a & w' & -> & Ha). cbn [String.prefix] in Hp.
  destruct (Ascii.ascii_dec a c); [congruence|done].
Qed.

Fixpoint take_continuation (s : string) : string :=
  match s with
  | String c s => if is_continuation c then String c (take_continuation s) else ""
  | EmptyString => ""
  end.
Fixpoint drop_continuation (s : string) : string :=
  match s with
  | String c s' => if is_continuation c then drop_continuation s' else s
  | EmptyString => ""
  end.

Lemma chars_step c s : chars (String c s) = String c (take_continuation s) :: chars (drop_continuation s).
Proof.
  revert c. induction s as [|d s IH]; intros c; [done|].
  change (chars (String c (String d s))) with
    (match chars (String d s) with
     | String e g :: gs => if is_continuation e then String c (String e g) :: gs else String c "" :: String e g :: gs
     | gs => String c "" :: gs
     end).
  rewrite IH. cbn [take_continuation drop_continuation]. destruct (is_continuation d); [done|]. by rewrite <-IH.
Qed.

Lemma take_continuation_prefix w s :
  string_forallb is_continuation w = true → String.prefix w s = true → String.prefix w (take_continuation s) = true.
Proof.
  revert s. induction w as [|x w IH]; intros s Hw Hp; [by destruct (take_continuation s)|].
  cbn [string_forallb] in Hw. apply andb_true_iff in Hw as [Hx Hw].
  destruct s as [|y s]; [done|]. cbn [String.prefix] in Hp. destruct (Ascii.ascii_dec x y) as [<-|]; [|done].
  cbn [take_continuation]. rewrite Hx. cbn [String.prefix].
  destruct (Ascii.ascii_dec x x); [by apply IH|done].
Qed.

Lemma wide_spaces_tail w : w ∈ wide_spaces →
  match w with String a w => is_continuation a = false ∧ string_forallb is_continuation w = true | EmptyString => False end.
Proof.
  unfold wide_spaces. intros Hw. simpl in Hw.
  repeat (apply elem_of_cons in Hw as [->|Hw]; [by vm_compute|]). by apply elem_of_nil in Hw.
Qed.

Lemma whitespace_len_char c s :
  whitespace_len (String c (take_continuation s)) = 0%nat → whitespace_len (String c s) = 0%nat.
Proof.
  rewrite !whitespace_len_cons. destruct (is_ascii_graphic c); [done|]. destruct (_ || _); [done|].
  destruct (List.find _ wide_spaces) as [w|] eqn:E.
  - apply find_elem in E as [Hw _]. destruct (wide_spaces_wide w Hw) as [_ Hne]. by destruct w.
  - intros _. destruct (List.find (λ w, String.prefix w (String c s)) wide_spaces) as [w|] eqn:E'; [|done].
    exfalso. apply find_elem in E' as [Hw Hp]. pose proof (wide_spaces_tail w Hw) as Ht.
    apply (find_none_elem _ _ E) in Hw. cbv beta in Hw. destruct w as [|a w]; [done|]. destruct Ht as [_ Ht].
    cbn [String.prefix] in *. destruct (Ascii.ascii_dec a c); [|done].
    by rewrite take_continuation_prefix in Hw.
Qed.

Definition is_space (c : string) : bool := negb (whitespace_len c =? 0)%nat.

Lemma chars_no_space s : existsb is_space (chars s) = false → no_space s = true.
Proof.
  induction s as [|c s IH]; [done|]. rewrite chars_step. cbn [existsb no_space].
  intros [Hc Hs]%orb_false_iff. unfold is_space in Hc. apply negb_false_iff in Hc.
  apply Nat.eqb_eq, whitespace_len_char in Hc. rewrite Hc. cbn [Nat.eqb andb]. apply IH.
  destruct s as [|d s]; [done|]. rewrite chars_step. cbn [drop_continuation] in Hs.
  destruct (is_continuation d) eqn:Hd.
  - cbn [existsb]. unfold is_space at 1. by rewrite whitespace_len_continuation.
  - by rewrite chars_step in Hs.
Qed.

(** ** Lower case *)

Lemma ascii_lower_idem c : ascii_lower (ascii_lower c) = ascii_lower c.
Proof. destruct c as [b0 b1 b2 b3 b4 b5 b6 b7]. by destruct b0, b1, b2, b3, b4, b5, b6, b7. Qed.

Lemma lower_idem s : to_ascii_lowercase (to_ascii_lowercase s) = to_ascii_lowercase s.
Proof. induction s as [|c s IH]; [done|]. simpl. by rewrite ascii_lower_idem, IH. Qed.

Lemma lower_append a b : to_ascii_lowercase (a +:+ b) = to_ascii_lowercase a +:+ to_ascii_lowercase b.
Proof.
  induction a as [|c a IH]; [done|]. change (to_ascii_lowercase (String c a +:+ b))
    with (String (ascii_lower c) (to_ascii_lowercase (a +:+ b))). by rewrite IH.
Qed.

Lemma lower_length s : slen (to_ascii_lowercase s) = slen s.
Proof. unfold slen. induction s as [|c s IH]; [done|]. simpl. lia. Qed.

Lemma eq_ignore_case_lower a b : eq_ignore_ascii_case a b = bool_decide (to_ascii_lowercase a = to_ascii_lowercase b).
Proof.
  revert b. induction a as [|x a IH]; intros [|y b]; [done..|]. cbn [eq_ignore_ascii_case to_ascii_lowercase].
  rewrite IH. apply eq_true_iff_eq. rewrite andb_true_iff, !bool_decide_eq_true. split.
  - by intros [-> ->].
  - by intros [= -> ->].
Qed.

Lemma lower_forallb p s :
  (∀ c, p (ascii_lower c) = p c) → string_forallb p (to_ascii_lowercase s) = string_forallb p s.
Proof. intros Hp. induction s as [|c s IH]; [done|]. simpl. by rewrite Hp, IH. Qed.

Lemma prefix_wide_lower w s :
  string_forallb is_wide w = true → String.prefix w (to_ascii_lowercase s) = String.prefix w s.
Proof.
  revert s. induction w as [|x w IH]; intros s Hw; [by destruct s|]. cbn [string_forallb] in Hw.
  apply andb_true_iff in Hw as [Hx Hw]. destruct s as [|y s]; [done|]. cbn [to_ascii_lowercase String.prefix].
  assert (Hd : x = ascii_lower y ↔ x = y).
  { unfold ascii_lower. destruct (in_range "A" "Z" y) eqn:E; [|done]. split; intros ->; exfalso; revert Hx E; clear;
      destruct y as [b0 b1 b2 b3 b4 b5 b6 b7]; by destruct b0, b1, b2, b3, b4, b5, b6, b7. }
  destruct (Ascii.ascii_dec x (ascii_lower y)), (Ascii.ascii_dec x y); try tauto. by apply IH.
Qed.

Lemma whitespace_len_lower s : whitespace_len (to_ascii_lowercase s) = whitespace_len s.
Proof.
  destruct s as [|c s]; [done|]. cbn [to_ascii_lowercase]. rewrite !whitespace_len_cons.
  replace (is_ascii_graphic (ascii_lower c)) with (is_ascii_graphic c)
    by (destruct c as [b0 b1 b2 b3 b4 b5 b6 b7]; by destruct b0, b1, b2, b3, b4, b5, b6, b7).
  destruct (is_ascii_graphic c) eqn:E; [done|].
  assert (Hc : ascii_lower c = c).
  { revert E. destruct c as [b0 b1 b2 b3 b4 b5 b6 b7]. by destruct b0, b1, b2, b3, b4, b5, b6, b7. }
  rewrite Hc. destruct (_ || _); [done|].
  rewrite (find_ext (λ w, String.prefix w (String c (to_ascii_lowercase s))) (λ w, String.prefix w (String c s)));
    [done|].
  intros w [Hw _]%wide_spaces_wide. rewrite <-(prefix_wide_lower w (String c s)) by done.
  cbn [to_ascii_lowercase]. by rewrite Hc.
Qed.

Lemma is_continuation_lower c : is_continuation (ascii_lower c) = is_continuation c.
Proof. destruct c as [b0 b1 b2 b3 b4 b5 b6 b7]. by destruct b0, b1, b2, b3, b4, b5, b6, b7. Qed.

Lemma chars_lower s : chars (to_ascii_lowercase s) = map to_ascii_lowercase (chars s).
Proof.
  induction s as [|c s IH]; [done|]. cbn [to_ascii_lowercase chars]. rewrite IH.
  destruct (chars s) as [|[|d g] gs]; [done..|]. cbn [map to_ascii_lowercase].
  rewrite is_continuation_lower. by destruct (is_continuation d).
Qed.

(** ** Trimming is idempotent *)

Lemma trim_start_from_spec k s : trim_start_from k s = "" ∨ whitespace_len (trim_start_from k s) = 0%nat.
Proof.
  revert k. induction s as [|c s IH]; intros k; [by left|]. cbn [trim_start_from].
  destruct k; [|apply IH]. destruct (whitespace_len (String c s)) eqn:E; [by right|apply IH].
Qed.

Lemma trim_end_prefix k s : ∃ t, s = trim_end_from k s +:+ t.
Proof.
  revert k. induction s as [|c s IH]; intros k; [by exists ""|].
  assert (Hb : ∀ k, ∃ t, String c s =
    (if bool_decide (trim_end_from k s = "") then "" else String c (trim_end_from k s)) +:+ t).
  { intros k'. destruct (IH k') as [t Ht]. case_bool_decide; [by exists (String c s)|].
    exists t. change (String c s = String c (trim_end_from k' s +:+ t)). by rewrite <-Ht. }
  cbn [trim_end_from]. destruct k; [|apply Hb].
  destruct (whitespace_len (String c s)); [|apply Hb]. destruct (IH 0%nat) as [t Ht]. exists t.
  change (String c s = String c (trim_end_from 0 s +:+ t)). by rewrite <-Ht.
Qed.

Lemma prefix_app w a t : String.prefix w a = true → String.prefix w (a +:+ t) = true.
Proof.
  revert a. induction w as [|x w IH]; intros a; [by destruct (a +:+ t)|].
  destruct a as [|y a]; [done|]. change (String y a +:+ t) with (String y (a +:+ t)). cbn [String.prefix].
  destruct (Ascii.ascii_dec x y); [apply IH|done].
Qed.

Lemma whitespace_len_prefix a t :
  a ≠ "" → whitespace_len (a +:+ t) = 0%nat → whitespace_len a = 0%nat.
Proof.
  destruct a as [|c a]; [done|]. intros _. change (String c a +:+ t) with (String c (a +:+ t)).
  rewrite !whitespace_len_cons. destruct (is_ascii_graphic c); [done|]. destruct (_ || _); [done|].
  destruct (List.find (λ w, String.prefix w (String c (a +:+ t))) wide_spaces) as [w|] eqn:E.
  - apply find_elem in E as [Hw _]. destruct (wide_spaces_wide w Hw) as [_ Hne]. by destruct w.
  - intros _. destruct (List.find (λ w, String.prefix w (String c a)) wide_spaces) as [w|] eqn:E'; [|done].
    apply find_elem in E' as [Hw Hp]. apply (find_none_elem _ _ E) in Hw. cbv beta in Hw.
    change (String c (a +:+ t)) with (String c a +:+ t) in Hw. by rewrite prefix_app in Hw.
Qed.

Lemma find_first {A} (f g : A → bool) l w :
  List.find f l = Some w → (∀ x, g x = true → f x = true) → g w = true → List.find g l = Some w.
Proof.
  intros Hf Hgf Hw. induction l as [|x l IH]; [done|]. simpl in *.
  destruct (f x) eqn:E; [injection Hf as ->; by rewrite Hw|].
  destruct (g x) eqn:E'; [by rewrite Hgf in E|]. by apply IH.
Qed.

Lemma trim_end_keeps w s :
  String.prefix w s = true → trim_end_from (String.length w) s ≠ "" →
  String.prefix w (trim_end_from (String.length w) s) = true.
Proof.
  revert s. induction w as [|x w IH]; intros s Hp Hne; [by destruct (trim_end_from _ s)|].
  destruct s as [|y s]; [done|]. cbn [String.prefix] in Hp. destruct (Ascii.ascii_dec x y) as [<-|]; [|done].
  cbn [String.length trim_end_from] in *. case_bool_decide as Hr; [done|]. cbn [String.prefix].
  destruct (Ascii.ascii_dec x x); [by apply IH|done].
Qed.

Lemma whitespace_len_kept c s k :
  whitespace_len (String c s) = S k → trim_end_from k s ≠ "" →
  whitespace_len (String c (trim_end_from k s)) = S k.
Proof.
  rewrite !whitespace_len_cons. destruct (is_ascii_graphic c); [done|]. destruct (_ || _); [done|].
  destruct (List.find _ wide_spaces) as [w|] eqn:E; [|done]. intros Hlen Hne.
  rewrite (find_first _ (λ w, String.prefix w (String c (trim_end_from k s))) _ _ E); [done| |].
  - intros x Hx. destruct (trim_end_prefix k s) as [t Ht]. rewrite Ht at 1.
    change (String c (trim_end_from k s +:+ t)) with (String c (trim_end_from k s) +:+ t). by apply prefix_app.
  - apply find_elem in E as [_ Hp]. destruct w as [|x w]; [done|]. cbn [String.prefix] in *.
    destruct (Ascii.ascii_dec x c); [|done]. injection Hlen as <-. by apply trim_end_keeps.
Qed.

Lemma trim_end_idem k s : trim_end_from k (trim_end_from k s) = trim_end_from k s.
Proof.
  revert k. induction s as [|c s IH]; intros k; [done|]. cbn [trim_end_from]. destruct k as [|k].
  - destruct (whitespace_len (String c s)) as [|k] eqn:E.
    + cbn [trim_end_from]. destruct (trim_end_prefix 0 s) as [t Ht].
      rewrite (whitespace_len_prefix (String c (trim_end_from 0 s)) t), IH; [done|done|].
      change (String c (trim_end_from 0 s) +:+ t) with (String c (trim_end_from 0 s +:+ t)). by rewrite <-Ht.
    + case_bool_decide as Hr; [done|]. cbn [trim_end_from].
      rewrite (whitespace_len_kept c s k E Hr), IH. by rewrite bool_decide_false.
  - case_bool_decide as Hr; [done|]. cbn [trim_end_from]. rewrite IH. by rewrite bool_decide_false.
Qed.

Lemma trim_idem s : trim (trim s) = trim s.
Proof.
  unfold trim. set (u := trim_start s). destruct (decide (trim_end_from 0 u = "")) as [->|Hne]; [done|].
  assert (Hs : trim_start (trim_end_from 0 u) = trim_end_from 0 u); [|by rewrite Hs, trim_end_idem].
  destruct (trim_end_prefix 0 u) as [t Ht].
  assert (Hw : whitespace_len (trim_end_from 0 u) = 0%nat).
  { apply (whitespace_len_prefix _ t Hne). rewrite <-Ht. unfold u, trim_start.
    destruct (trim_start_from_spec 0 s) as [He|He]; [|done]. exfalso. apply Hne. unfold u, trim_start. by rewrite He. }
  unfold trim_start. destruct (trim_end_from 0 u) as [|c v]; [done|]. cbn [trim_start_from]. by rewrite Hw.
Qed.

(** The length of a number. *)
Lemma pretty_go_length k n s : (n < 10 ^ N.of_nat k)%N → slen (pretty_N_go n s) ≤ Z.of_nat k + slen s.
Proof.
  revert n s. induction k as [|k IH]; intros n s Hn.
  { assert (n = 0%N) as -> by (simpl in Hn; lia). rewrite pretty_N_go_0. lia. }
  destruct (decide (n = 0%N)) as [->|Hn0]; [rewrite pretty_N_go_0; lia|].
  rewrite pretty_N_go_step by lia.
  assert (Hd : (n / 10 < 10 ^ N.of_nat k)%N).
  { apply N.Div0.div_lt_upper_bound. rewrite Nat2N.inj_succ, N.pow_succ_r' in Hn. lia. }
  specialize (IH _ (String (pretty_N_char (n mod 10)) s) Hd). unfold slen in *. simpl in IH. lia.
Qed.

Lemma show_length k n : (0 < k)%nat → 0 ≤ n < 10 ^ Z.of_nat k → slen (show n) ≤ Z.of_nat k.
Proof.
  intros Hk Hn. unfold show, pretty, pretty_N. case_decide; [unfold slen; simpl; lia|].
  pose proof (pretty_go_length k (Z.to_N n) "") as Hl. change (slen "") with 0 in Hl. rewrite Z.add_0_r in Hl.
  apply Hl. apply N2Z.inj_lt. rewrite N2Z.inj_pow, nat_N_Z, Z2N.id by lia. lia.
Qed.
