(* ===== verification/Json.v ===== *)
(** * JSON values

    The data of [serde_json::Value] as the source uses it: the accessors
    [get], [as_str], [as_u64], [as_i64], [as_bool], [as_array], [as_object]
    and the map operations. Parsing and printing text stay outside the model. *)
From S2P Require Import Prelude.

(** A number is a [u64], a negative [i64] or a double (its bit pattern). *)
Inductive number : Type :=
| PosInt (n : Z)
| NegInt (n : Z)
| Float (bits : Z).

Inductive json : Type :=
| JNull
| JBool (b : bool)
| JNumber (n : number)
| JString (s : string)
| JArray (items : list json)
| JObject (fields : list (string * json)).

Fixpoint assoc {A} (k : string) (l : list (string * A)) : option A :=
  match l with
  | [] => None
  | (k', v) :: l => if bool_decide (k' = k) then Some v else assoc k l
  end.

(** [Map] keeps its keys in ascending order: [insert] replaces or adds. *)
Fixpoint obj_insert (k : string) (v : json) (l : list (string * json)) : list (string * json) :=
  match l with
  | [] => [(k, v)]
  | (k', v') :: l =>
      if bool_decide (k' = k) then (k, v) :: l
      else if bool_decide (String.le k k') then (k, v) :: (k', v') :: l
      else (k', v') :: obj_insert k v l
  end.

Definition obj_remove (k : string) (l : list (string * json)) : list (string * json) :=
  List.filter (λ f, negb (bool_decide (f.1 = k))) l.

(** [json!({..})] *)
Definition obj (l : list (string * json)) : json :=
  JObject (foldr (λ f acc, obj_insert f.1 f.2 acc) [] l).

Definition get (k : string) (v : json) : option json :=
  match v with JObject fields => assoc k fields | _ => None end.

Definition as_object (v : json) : option (list (string * json)) :=
  match v with JObject fields => Some fields | _ => None end.
Definition as_array (v : json) : option (list json) :=
  match v with JArray items => Some items | _ => None end.
Definition as_str (v : json) : option string :=
  match v with JString s => Some s | _ => None end.
Definition as_bool (v : json) : option bool :=
  match v with JBool b => Some b | _ => None end.
Definition as_u64 (v : json) : option Z :=
  match v with JNumber (PosInt n) => Some n | _ => None end.
Definition as_i64 (v : json) : option Z :=
  match v with
  | JNumber (PosInt n) => if n <? 2 ^ 63 then Some n else None
  | JNumber (NegInt n) => Some n
  | _ => None
  end.

Definition get_str (k : string) (v : json) : option string :=
  match get k v with Some v => as_str v | None => None end.
Definition get_u64 (k : string) (v : json) : option Z :=
  match get k v with Some v => as_u64 v | None => None end.
Definition get_bool (k : string) (v : json) : option bool :=
  match get k v with Some v => as_bool v | None => None end.

(** A fieldwise induction principle for the nested type. *)
Fixpoint json_rect_nested (P : json → Prop)
    (Hnull : P JNull) (Hbool : ∀ b, P (JBool b)) (Hnum : ∀ n, P (JNumber n))
    (Hstr : ∀ s, P (JString s))
    (Harr : ∀ l, Forall P l → P (JArray l))
    (Hobj : ∀ l, Forall (λ f : string * json, P f.2) l → P (JObject l))
    (v : json) : P v :=
  let rec := json_rect_nested P Hnull Hbool Hnum Hstr Harr Hobj in
  match v with
  | JNull => Hnull
  | JBool b => Hbool b
  | JNumber n => Hnum n
  | JString s => Hstr s
  | JArray l => Harr l ((fix go l : Forall P l :=
      match l with [] => Forall_nil_2 P | x :: l => Forall_cons_2 P x l (rec x) (go l) end) l)
  | JObject l => Hobj l ((fix go l : Forall (λ f : string * json, P f.2) l :=
      match l with
      | [] => Forall_nil_2 _
      | (k, x) :: l => Forall_cons_2 _ (k, x) l (rec x) (go l)
      end) l)
  end.

Lemma assoc_obj_insert k v l k' :
  assoc k' (obj_insert k v l) = if bool_decide (k = k') then Some v else assoc k' l.
Proof.
  induction l as [|[k1 v1] l IH]; simpl; [done|].
  repeat (case_bool_decide; simpl; try rewrite IH); subst; try done.
Qed.

Lemma obj_remove_insert k v l :
  obj_remove k (obj_insert k v l) = obj_remove k l.
Proof.
  induction l as [|[k1 v1] l IH]; simpl.
  - by case_bool_decide.
  - repeat (case_bool_decide; simpl; subst); try done. by rewrite IH.
Qed.

Lemma assoc_obj_remove_ne k l k' : k ≠ k' → assoc k' (obj_remove k l) = assoc k' l.
Proof.
  intros Hne. induction l as [|[k1 v1] l IH]; simpl; [done|].
  repeat (case_bool_decide; simpl; subst); done.
Qed.
