(* ===== verification/Wire.v ===== *)
(** * Signed wire messages

    [src/src/wiresign.rs] with the parts of [src/src/identity/mod.rs] it uses:
    the canonical JSON text, the signing payload, signing and verification of a
    wire object, and the [did:key] codec. The cryptographic primitives and the
    encoders of the third-party crates are the operations of the class
    [Crypto]; their documented laws are the class [CryptoLaws]. *)
From S2P Require Import Prelude Json.


(** Third-party operations: hashing, base58/base64, Ed25519 and the two text
    formatters ([serde_json::to_string] of a string, [Display] of a double). *)
Class Crypto := {
  sha256 : string → string;
  bs58_decode : string → option string;
  b64url_encode : string → string;
  b64url_decode : string → option string;
  key_from_bytes : string → bool;
  signature_try_from : string → bool;
  ed_verify : string → string → string → bool;
  ed_sign : string → string → string;
  ed_public : string → string;
  json_quote : string → string;
  float_display : Z → string;
}.

Class CryptoLaws (C : Crypto) := {
  b64url_roundtrip s : b64url_decode (b64url_encode s) = Some s;
  b64url_signature_len sk m : slen (b64url_encode (ed_sign sk m)) = 86;
  signature_parses sk m : signature_try_from (ed_sign sk m) = true;
  public_key_valid sk : key_from_bytes (ed_public sk) = true;
  ed_correct sk m : ed_verify (ed_public sk) m (ed_sign sk m) = true;
}.

Section wire.
Context {C : Crypto}.

Definition ED25519_DID_KEY_LEN : Z := 56.
Definition ED25519_SIGNATURE_B64URL_LEN : Z := 86.

(** ** Identities *)

Record Identity := { did : string; signing_key : string }.

(** The first eight bytes of [sha256(did)] in hex. *)
Definition node_id_for_did (did : string) : string := hex_encode (string_take 8 (sha256 did)).
Definition node_id (id : Identity) : string := node_id_for_did (did id).
Definition sign (id : Identity) (data : string) : string := ed_sign (signing_key id) data.

Definition byte_at (n : nat) (s : string) : option Z :=
  (λ c, Z.of_N (N_of_ascii c)) <$> String.get n s.

Definition pubkey_from_did (did : string) : result string string :=
  if negb (slen did =? ED25519_DID_KEY_LEN)
  then Err "DID is not an Ed25519 did:key (unexpected length)" else
  let? multibase := ok_or (strip_prefix "did:key:" did) "not a did:key DID" in
  let? encoded := ok_or (strip_prefix "z" multibase) "expected base58btc multibase ('z' prefix)" in
  let? bytes := ok_or (bs58_decode encoded) "invalid base58btc encoding" in
  if negb (slen bytes =? 34) || negb (bool_decide (byte_at 0 bytes = Some 0xed))
     || negb (bool_decide (byte_at 1 bytes = Some 0x01))
  then Err "DID key is not an Ed25519 public key"
  else Ok (String.substring 2 32 bytes).

Definition verify (did data signature : string) : result bool string :=
  let? pubkey := pubkey_from_did did in
  if negb (key_from_bytes pubkey) then Err "invalid ed25519 public key" else
  if negb (signature_try_from signature) then Err "invalid signature" else
  Ok (ed_verify pubkey data signature).

(** ** The canonical text *)

Fixpoint join (sep : string) (l : list string) : string :=
  match l with
  | [] => ""
  | [x] => x
  | x :: l => x +:+ sep +:+ join sep l
  end.

(** The double whose bits are [bits] equals zero, of either sign. *)
Definition float_is_zero (bits : Z) : bool := (bits =? 0) || (bits =? 2 ^ 63).

Definition format_number (n : number) : string :=
  match n with
  | PosInt i | NegInt i => pretty i
  | Float bits => if float_is_zero bits then "0" else float_display bits
  end.

(** The fields are sorted by key; rendering the values first does not change
    the order, which depends on the keys only. *)
Definition key_le (a b : string * string) : Prop := String.le a.1 b.1.
#[global] Instance key_le_dec : RelDecision key_le.
Proof. intros a b. unfold key_le. apply _. Defined.

Fixpoint stable_stringify (v : json) : string :=
  match v with
  | JNull => "null"
  | JBool b => if b then "true" else "false"
  | JNumber n => format_number n
  | JString s => json_quote s
  | JArray items => "[" +:+ join "," (map stable_stringify items) +:+ "]"
  | JObject fields =>
      let entries := map (λ f, (f.1, stable_stringify f.2)) fields in
      "{" +:+ join "," (map (λ e, json_quote e.1 +:+ ":" +:+ e.2) (merge_sort key_le entries)) +:+ "}"
  end.

Definition signing_payload (wire : list (string * json)) : string :=
  stable_stringify (JObject (obj_remove "signature" wire)).

(** ** Signing and verifying *)

Definition sign_wire (obj : json) (identity : Identity) : result json string :=
  let? map := ok_or (as_object obj) "wire must be a JSON object" in
  let? from_id := ok_or (match assoc "fromId" map with Some v => as_str v | None => None end)
                    "wire is missing a string `fromId` field" in
  if negb (bool_decide (from_id = did identity))
  then Err "wire fromId does not match the local DID identity" else
  let payload := signing_payload map in
  let signature := b64url_encode (sign identity payload) in
  Ok (JObject (obj_insert "signature" (JString signature) map)).

Definition verify_wire (obj : json) : result bool string :=
  match as_object obj with
  | None => Ok false
  | Some map =>
    match get_str "fromId" obj, get_str "signature" obj with
    | Some from_id, Some signature_str =>
      if negb (slen signature_str =? ED25519_SIGNATURE_B64URL_LEN)
         || negb (slen from_id =? ED25519_DID_KEY_LEN) then Ok false else
      match b64url_decode signature_str with
      | None => Ok false
      | Some signature_bytes =>
          match verify from_id (signing_payload map) signature_bytes with
          | Ok valid => Ok valid
          | Err _ => Ok false
          end
      end
    | _, _ => Ok false
    end
  end.

(** [verify_wire(v).unwrap_or(false)], as every caller uses it. *)
Definition wire_ok (v : json) : bool :=
  match verify_wire v with Ok b => b | Err _ => false end.

(** ** Theorems *)

(** A wire that verifies carries a signature by the key its [fromId] encodes,
    over every field but [signature]. *)
Lemma wire_ok_spec v :
  wire_ok v = true →
  ∃ fields from sig bytes key,
    v = JObject fields ∧ get_str "fromId" v = Some from ∧
    get_str "signature" v = Some sig ∧ b64url_decode sig = Some bytes ∧
    pubkey_from_did from = Ok key ∧ ed_verify key (signing_payload fields) bytes = true.
Proof.
  unfold wire_ok, verify_wire, verify. intros H.
  destruct v as [| | | | |fields]; simpl in H; try done.
  destruct (get_str "fromId" (JObject fields)) as [from|] eqn:Hf; [|done].
  destruct (get_str "signature" (JObject fields)) as [sig|] eqn:Hs; [|done].
  case_if; [done|]. destruct (b64url_decode sig) as [bytes|] eqn:Hb; [|done].
  destruct (pubkey_from_did from) as [key|] eqn:Hk; simpl in H; [|done].
  destruct (key_from_bytes key); simpl in H; [|done].
  destruct (signature_try_from bytes); simpl in H; [|done].
  exists fields, from, sig, bytes, key. done.
Qed.

Lemma pubkey_from_did_len d k : pubkey_from_did d = Ok k → slen d = ED25519_DID_KEY_LEN.
Proof. unfold pubkey_from_did. intros H. case_if; [done|]. by bools. Qed.

(** An identity whose DID encodes its own public key. *)
Definition identity_wf (id : Identity) : Prop :=
  pubkey_from_did (did id) = Ok (ed_public (signing_key id)).

(** A wire the local identity signs verifies on every peer: [sign_wire] and
    [verify_wire] agree on the payload although signing adds a field. *)
Lemma sign_verify_roundtrip `{!CryptoLaws C} obj id obj' :
  identity_wf id → sign_wire obj id = Ok obj' → verify_wire obj' = Ok true.
Proof.
  intros Hid. unfold sign_wire.
  destruct obj as [| | | | |fields]; simpl; try done.
  destruct (assoc "fromId" fields) as [v|] eqn:Hf; simpl; [|done].
  destruct (as_str v) as [from|] eqn:Hv; simpl; [|done].
  case_bool_decide as Hd; simpl; [|done]. intros [= <-]. subst from.
  unfold verify_wire, get_str, get. cbn [as_object].
  rewrite !assoc_obj_insert, Hf. rewrite (bool_decide_false _) by done.
  rewrite (bool_decide_true _) by done. rewrite Hv. cbn [as_str].
  unfold ED25519_SIGNATURE_B64URL_LEN, sign.
  rewrite b64url_signature_len, (pubkey_from_did_len _ _ Hid), b64url_roundtrip.
  rewrite !Z.eqb_refl. cbn [negb orb].
  unfold signing_payload at 1. rewrite obj_remove_insert.
  unfold verify. rewrite Hid. cbn [rbind].
  rewrite public_key_valid, signature_parses. cbn [negb].
  unfold signing_payload. by rewrite ed_correct.
Qed.
End wire.

(** ** A concrete instance

    Every operation is an executable stand-in for which the laws hold, so that
    the theorems above can be applied to concrete wires. It has no security. *)
Module Toy.

Fixpoint repeat (n : nat) (c : ascii) : string :=
  match n with O => EmptyString | S n => String c (repeat n c) end.

Definition pad11 : string := "BBBBBBBBBBB".
Definition pad22 : string := "AAAAAAAAAAAAAAAAAAAAAA".

Definition quote : string := String (Ascii.ascii_of_N 34) EmptyString.

Definition signature (sk m : string) : string := string_take 64 (sk +:+ m +:+ repeat 64 "0"%char).

#[global] Instance crypto : Crypto := {|
  sha256 s := string_take 32 (String.rev s +:+ repeat 32 "0"%char);
  bs58_decode s := if slen s =? 47
    then Some (String (Ascii.ascii_of_N 237) (String (Ascii.ascii_of_N 1) (string_take 32 s))) else None;
  b64url_encode s := (if slen s =? 32 then pad11 else pad22) +:+ s;
  b64url_decode s := match strip_prefix pad11 s with
                     | Some r => Some r | None => strip_prefix pad22 s end;
  key_from_bytes := λ _, true;
  signature_try_from s := slen s =? 64;
  ed_verify k m s := bool_decide (s = signature k m);
  ed_sign := signature;
  ed_public sk := sk;
  json_quote s := quote +:+ s +:+ quote;
  float_display := pretty;
|}.

Lemma string_take_len n s : (String.length (string_take n s) = Nat.min n (String.length s))%nat.
Proof. revert s. induction n as [|n IH]; intros [|c s]; simpl; [done..|by rewrite IH]. Qed.

Lemma repeat_len n c : String.length (repeat n c) = n.
Proof. induction n as [|n IH]; simpl; [done|by rewrite IH]. Qed.

Lemma append_len a b : (String.length (a +:+ b) = String.length a + String.length b)%nat.
Proof. unfold String.append. induction a as [|x a IH]; simpl; [done|by rewrite IH]. Qed.

Lemma signature_len sk m : String.length (signature sk m) = 64%nat.
Proof. unfold signature. rewrite string_take_len, !append_len, repeat_len. lia. Qed.

#[global] Instance laws : CryptoLaws crypto.
Proof.
  split; intros; simpl.
  - by destruct (slen s =? 32).
  - unfold slen. cbn [b64url_encode ed_sign crypto].
    unfold slen. rewrite signature_len. simpl (Z.of_nat 64 =? 32).
    rewrite append_len, signature_len. done.
  - unfold slen. by rewrite signature_len.
  - done.
  - by rewrite bool_decide_true.
Qed.

Definition alice : Identity := {|
  signing_key := "0123456789abcdef0123456789abcdef";
  did := "did:key:z0123456789abcdef0123456789abcdefALICEALICEALICE";
|}.
Definition bob : Identity := {|
  signing_key := "fedcba98765432100123456789abcdef";
  did := "did:key:zfedcba98765432100123456789abcdefBOBBOBBOBBOBBOB";
|}.

Lemma alice_wf : identity_wf alice.
Proof. by vm_compute. Qed.

(** [alice]'s wire with the given extra fields, signed. *)
Definition signed (id : Identity) (fields : list (string * json)) : json :=
  match sign_wire (JObject (("fromId", JString (did id)) :: fields)) id with
  | Ok v => v
  | Err _ => JNull
  end.
End Toy.
