(* ===== verification/ReplayCache.v ===== *)
(** * Time-bounded replay caches

    The queue-and-set pair that [src/src/net/peer_auth.rs] (nonces) and
    [src/src/dm/limits.rs] (message ids) both keep: [VecDeque<(Instant, String)>]
    in arrival order beside a [HashSet<String>] of the same keys. This file has
    the popping loop they share and the lemmas about it. *)
From S2P Require Import Prelude.

Abbreviation queue := (list (Z * string)).

(** [while let Some((at, key)) = queue.front() { if !p(len, at) break; pop }]:
    [p] sees the current length of the queue and the time of its front. *)
Fixpoint pop_while (p : Z → Z → bool) (q : queue) (s : gset string) : queue * gset string :=
  match q with
  | [] => ([], s)
  | (t, k) :: q' => if p (zlen q) t then pop_while p q' (s ∖ {[k]}) else (q, s)
  end.

(** The set holds exactly the queue's keys, each queued once. *)
Definition cache_inv (q : queue) (s : gset string) : Prop :=
  NoDup q.*2 ∧ s = list_to_set q.*2.

Definition time_ordered (q : queue) : Prop := StronglySorted Z.le q.*1.

Lemma cache_inv_nil : cache_inv [] ∅.
Proof. split; [constructor|done]. Qed.

Lemma cache_inv_size q s : cache_inv q s → Z.of_nat (size s) = zlen q.
Proof.
  intros [Hnd ->]. unfold zlen. rewrite size_list_to_set by done. by rewrite length_fmap.
Qed.

Lemma cache_inv_elem q s k : cache_inv q s → k ∈ s ↔ ∃ t, (t, k) ∈ q.
Proof.
  intros [_ ->]. rewrite elem_of_list_to_set, list_elem_of_fmap. split.
  - intros ([t k'] & -> & H). by exists t.
  - intros (t & H). by exists (t, k).
Qed.

Lemma cache_inv_push q s k t :
  cache_inv q s → k ∉ s → cache_inv (q ++ [(t, k)]) ({[k]} ∪ s).
Proof.
  intros [Hnd ->] Hk. split.
  - rewrite fmap_app. apply NoDup_app. set_solver by eauto using NoDup_singleton.
  - rewrite fmap_app. set_solver.
Qed.

(** The loop removes a prefix, keeps the invariant, and stops for a reason. *)
Lemma pop_while_spec p q s q' s' :
  cache_inv q s → pop_while p q s = (q', s') →
  cache_inv q' s' ∧ (∃ d, q = d ++ q') ∧
  (q' = [] ∨ ∃ t k r, q' = (t, k) :: r ∧ p (zlen q') t = false).
Proof.
  revert s. induction q as [|[t k] q IH]; simpl; intros s Hinv.
  - intros [= <- <-]. split_and!; [done|by exists []|by left].
  - case_if.
    + intros Hp. destruct Hinv as [Hnd ->]. apply IH in Hp as (? & [d ->] & ?).
      * split_and!; [done|by exists ((t, k) :: d)|done].
      * inversion Hnd as [|?? Hk Hnd']; subst. split; [done|]. simpl. set_solver.
    + intros [= <- <-]. split_and!; [done|by exists []|right; eauto 10].
Qed.

Lemma pop_while_len p q s : zlen (pop_while p q s).1 ≤ zlen q.
Proof.
  revert s. induction q as [|[t k] q IH]; simpl; intros s; [done|].
  case_if; simpl; [|done]. specialize (IH (s ∖ {[k]})). rewrite zlen_cons. lia.
Qed.

(** An entry that the loop's test rejects stays, with everything after it. *)
Lemma pop_while_keeps p d x e s :
  p (zlen (x :: e)) x.1 = false →
  ∃ d', (pop_while p (d ++ x :: e) s).1 = d' ++ x :: e.
Proof.
  intros Hp. revert s. induction d as [|[t k] d IH]; simpl; intros s.
  - destruct x as [t k]. simpl in Hp. rewrite Hp. by exists [].
  - case_if; [apply IH|]. by exists ((t, k) :: d).
Qed.

(** [x] is queued with at most [n] entries behind it. *)
Definition queued (q : queue) (x : Z * string) (n : Z) : Prop :=
  ∃ d e, q = d ++ x :: e ∧ zlen e ≤ n.

Lemma queued_elem q x n : queued q x n → x ∈ q.
Proof. intros (d & e & -> & _). set_solver. Qed.

Lemma queued_push q x n y : queued q x n → queued (q ++ [y]) x (n + 1).
Proof.
  intros (d & e & -> & Hn). exists d, (e ++ [y]). rewrite <-app_assoc. simpl.
  split; [done|]. rewrite zlen_app, zlen_cons. unfold zlen at 2. simpl. lia.
Qed.

Lemma queued_last q y : queued (q ++ [y]) y 0.
Proof. by exists q, []. Qed.

Lemma queued_pop p q s x n :
  queued q x n → (∀ l, 0 < l ≤ n + 1 → p l x.1 = false) →
  queued (pop_while p q s).1 x n.
Proof.
  intros (d & e & -> & Hn) Hp. destruct (pop_while_keeps p d x e s) as [d' ->].
  - apply Hp. rewrite zlen_cons. pose proof (zlen_nonneg e). lia.
  - by exists d', e.
Qed.
