(* ===== verification/PeerAuth.v ===== *)
(** * Peer authentication

    [src/src/net/peer_auth.rs]: the DID hello proofs, the registry of verified
    [(room, node)] pairs with its nonce replay cache, the membership allowlist
    and the reply throttle. The process-wide statics ([REGISTRY], [ALLOWLIST],
    [LAST_REPLY]) are explicit arguments. *)
From S2P Require Import Prelude Json Wire ReplayCache.

Definition MAX_CLOCK_SKEW_MS : Z := 120000.
Definition VERIFIED_TTL : Z := 120 * SECOND.
Definition MAX_VERIFIED : Z := 1024.
Definition MAX_VERIFIED_PER_ROOM : Z := 256.
Definition MAX_NONCES : Z := 4096.
Definition REPLY_THROTTLE : Z := 10 * SECOND.
Definition MAX_REPLY_ENTRIES : Z := 1024.
Definition NONCE_WINDOW : Z := 2 * MAX_CLOCK_SKEW_MS * 10 ^ 6.

Record DidProof := {
  proof_did : string;
  proof_node : string;
  proof_ts_ms : Z;
  proof_nonce : string;
  proof_reply : bool;
}.

Inductive ProofError :=
| NotOurs | Oversized | Malformed | WrongRoom | NodeMismatch | DidMismatch
| Stale | BadSignature | Replay | Full.

#[global] Instance ProofError_eq_dec : EqDecision ProofError.
Proof. solve_decision. Defined.

Section proofs.
Context {C : Crypto}.

Definition check_proof_value (value : json) (tag room from : string) (now_ms : Z)
    : result DidProof ProofError :=
  let? obj := ok_or (as_object value) NotOurs in
  if negb (bool_decide (get_str "t" value = Some tag)) then Err NotOurs else
  let? msg_room := ok_or (get_str "room" value) Malformed in
  if negb (bool_decide (msg_room = room)) then Err WrongRoom else
  let? node := ok_or (get_str "node" value) Malformed in
  if negb (bool_decide (node = from)) then Err NodeMismatch else
  let? did := ok_or (get_str "fromId" value) Malformed in
  if negb (slen did =? ED25519_DID_KEY_LEN)
     || negb (bool_decide (node_id_for_did did = from)) then Err DidMismatch else
  let? ts_ms := ok_or (get_u64 "ts" value) Malformed in
  if MAX_CLOCK_SKEW_MS <? Z.abs (ts_ms - now_ms) then Err Stale else
  let? nonce := ok_or (match get_str "nonce" value with
                       | Some n => if negb (bool_decide (n = "")) && (slen n <=? 64)
                                   then Some n else None
                       | None => None
                       end) Malformed in
  let reply := default false (get_bool "re" value) in
  if negb (wire_ok value) then Err BadSignature else
  Ok {| proof_did := did; proof_node := node; proof_ts_ms := ts_ms;
        proof_nonce := nonce; proof_reply := reply |}.

(** An accepted proof was made for this room by the transport sender, whose
    node id is the hash of the DID that signed it, within the clock skew. *)
Lemma check_proof_value_sound value tag room from now_ms p :
  check_proof_value value tag room from now_ms = Ok p →
  get_str "room" value = Some room ∧ proof_node p = from ∧
  node_id_for_did (proof_did p) = from ∧ get_str "fromId" value = Some (proof_did p) ∧
  Z.abs (proof_ts_ms p - now_ms) ≤ MAX_CLOCK_SKEW_MS ∧ wire_ok value = true.
Proof.
  unfold check_proof_value. intros H.
  apply rbind_Ok in H as (obj & _ & H). case_if; [done|].
  apply rbind_Ok in H as (r & Hr%ok_or_Ok & H). case_if; [done|].
  apply rbind_Ok in H as (n & Hn%ok_or_Ok & H). case_if; [done|].
  apply rbind_Ok in H as (d & Hd%ok_or_Ok & H). case_if; [done|].
  apply rbind_Ok in H as (t & Ht%ok_or_Ok & H). case_if; [done|].
  apply rbind_Ok in H as (nc & _ & H). case_if; [done|].
  injection H as <-. bools. subst. simpl. split_and!; try done; lia.
Qed.
End proofs.

(** ** The registry *)

Record Entry := { entry_did : string; last_seen : Z }.

Record Registry := {
  entries : gmap (string * string) Entry;
  nonces : queue;
  nonce_set : gset string;
}.

Definition empty_registry : Registry := {| entries := ∅; nonces := []; nonce_set := ∅ |}.

Definition in_room (room : string) (m : gmap (string * string) Entry) : Z :=
  Z.of_nat (size (filter (λ kv, kv.1.1 = room) m)).

Definition fresh_entry (now : Z) (e : Entry) : bool := since now (last_seen e) <=? VERIFIED_TTL.

Definition prune (r : Registry) (now : Z) : Registry :=
  let '(q, s) := pop_while (λ _ seen, negb (since now seen <=? NONCE_WINDOW))
                   (nonces r) (nonce_set r) in
  {| entries := filter (λ kv, fresh_entry now kv.2 = true) (entries r); nonces := q; nonce_set := s |}.

Definition remember_nonce (r : Registry) (nonce_key : string) (now : Z) : Registry :=
  let '(q, s) := pop_while (λ len _, MAX_NONCES <=? len) (nonces r) (nonce_set r) in
  {| entries := entries r; nonces := q ++ [(now, nonce_key)]; nonce_set := {[nonce_key]} ∪ s |}.

Definition nonce_key (p : DidProof) : string := proof_node p +:+ ":" +:+ proof_nonce p.

Definition accept (r : Registry) (room : string) (proof : DidProof) (now : Z)
    : Registry * result bool ProofError :=
  let r := prune r now in
  if bool_decide (nonce_key proof ∈ nonce_set r) then (r, Err Replay) else
  let key := (room, proof_node proof) in
  let is_new :=
    match entries r !! key with
    | Some existing =>
        if bool_decide (entry_did existing = proof_did proof) then Ok false else Err DidMismatch
    | None =>
        if (MAX_VERIFIED <=? Z.of_nat (size (entries r)))
           || (MAX_VERIFIED_PER_ROOM <=? in_room room (entries r)) then Err Full else Ok true
    end in
  match is_new with
  | Err e => (r, Err e)
  | Ok is_new =>
      let r := {| entries := <[key := {| entry_did := proof_did proof; last_seen := now |}]> (entries r);
                  nonces := nonces r; nonce_set := nonce_set r |} in
      (remember_nonce r (nonce_key proof) now, Ok is_new)
  end.

Definition did_for (r : Registry) (room node : string) (now : Z) : option string :=
  match entries r !! (room, node) with
  | Some e => if fresh_entry now e then Some (entry_did e) else None
  | None => None
  end.

Definition remove (r : Registry) (room node : string) : Registry * bool :=
  ({| entries := delete (room, node) (entries r); nonces := nonces r; nonce_set := nonce_set r |},
   is_some (entries r !! (room, node))).

Definition remove_room (r : Registry) (room : string) : Registry :=
  {| entries := filter (λ kv, kv.1.1 ≠ room) (entries r);
     nonces := nonces r; nonce_set := nonce_set r |}.

Definition admits (allowlist : option (list string)) (did : string) : bool :=
  is_none_or (λ l, existsb (λ allowed, bool_decide (allowed = did)) l) allowlist.

Definition reply_allowed (table : gmap (string * string) Z) (room node : string) (now : Z)
    : gmap (string * string) Z * bool :=
  let key := (room, node) in
  if is_some_and (λ last, since now last <? REPLY_THROTTLE) (table !! key) then (table, false) else
  if MAX_REPLY_ENTRIES <=? Z.of_nat (size table) then
    let table := filter (λ kv, (since now kv.2 <? REPLY_THROTTLE) = true) table in
    if MAX_REPLY_ENTRIES <=? Z.of_nat (size table) then (table, false)
    else (<[key := now]> table, true)
  else (<[key := now]> table, true).

(** ** The invariant *)

Record registry_inv (r : Registry) : Prop := {
  reg_cache : cache_inv (nonces r) (nonce_set r);
  reg_nonces : zlen (nonces r) ≤ MAX_NONCES;
  reg_total : Z.of_nat (size (entries r)) ≤ MAX_VERIFIED;
  reg_room room : in_room room (entries r) ≤ MAX_VERIFIED_PER_ROOM;
}.

Lemma size_filter_le {K A} `{Countable K} (P : K * A → Prop) `{∀ x, Decision (P x)} (m : gmap K A) :
  (size (filter P m) ≤ size m)%nat.
Proof. apply map_subseteq_size, map_filter_subseteq. Qed.

Lemma in_room_mono room m m' : m' ⊆ m → in_room room m' ≤ in_room room m.
Proof.
  intros Hsub. unfold in_room.
  apply Nat2Z.inj_le, map_subseteq_size, map_filter_subseteq_mono; done.
Qed.

Lemma registry_inv_shrink r m :
  registry_inv r → m ⊆ entries r →
  registry_inv {| entries := m; nonces := nonces r; nonce_set := nonce_set r |}.
Proof.
  intros [Hc Hn Ht Hr] Hsub. pose proof (map_subseteq_size _ _ Hsub).
  split; simpl; [done|done|lia|].
  intros room. etrans; [by apply in_room_mono|done].
Qed.

Lemma registry_inv_cache r q s :
  registry_inv r → cache_inv q s → zlen q ≤ MAX_NONCES →
  registry_inv {| entries := entries r; nonces := q; nonce_set := s |}.
Proof. intros [Hc Hn Ht Hr] ??. by split. Qed.

Lemma prune_inv r now : registry_inv r → registry_inv (prune r now).
Proof.
  intros Hinv. unfold prune.
  destruct (pop_while _ _ _) as [q s] eqn:E.
  pose proof (pop_while_len (λ _ seen, negb (since now seen <=? NONCE_WINDOW)) (nonces r) (nonce_set r)) as Hl.
  rewrite E in Hl. destruct (pop_while_spec _ _ _ _ _ (reg_cache r Hinv) E) as (Hq & _ & _).
  apply (registry_inv_shrink {| entries := entries r; nonces := q; nonce_set := s |}).
  - apply registry_inv_cache; [done|done|]. pose proof (reg_nonces r Hinv). simpl in Hl. lia.
  - apply map_filter_subseteq.
Qed.

Lemma remember_nonce_inv r k now :
  registry_inv r → k ∉ nonce_set r → registry_inv (remember_nonce r k now).
Proof.
  intros Hinv Hk. unfold remember_nonce. destruct (pop_while _ _ _) as [q s] eqn:E.
  destruct (pop_while_spec _ _ _ _ _ (reg_cache r Hinv) E) as (Hq & [d Hd] & Hstop).
  apply registry_inv_cache; [done| |].
  - apply cache_inv_push; [done|]. intros [t Ht]%(cache_inv_elem _ _ _ Hq).
    apply Hk, (cache_inv_elem _ _ _ (reg_cache r Hinv)). exists t. rewrite Hd. set_solver.
  - rewrite zlen_app. change (zlen [(now, k)]) with 1.
    destruct Hstop as [->|(t & k' & q' & -> & Hp)]; [done|]. bools. lia.
Qed.

Lemma in_room_insert room key e m :
  in_room room (<[key := e]> m) ≤
    in_room room m + (if bool_decide (key.1 = room) then match m !! key with Some _ => 0 | None => 1 end else 0).
Proof.
  unfold in_room. case_bool_decide as Hr.
  - rewrite map_filter_insert_True by done. rewrite map_size_insert.
    rewrite map_lookup_filter. destruct (m !! key) as [e'|] eqn:E; simpl; [|lia].
    rewrite option_guard_True by done. simpl. lia.
  - rewrite map_filter_insert_False by done.
    rewrite Z.add_0_r. apply Nat2Z.inj_le, map_subseteq_size.
    apply map_filter_subseteq_mono, delete_subseteq.
Qed.

(** [accept] keeps every bound and the agreement of the nonce queue and set. *)
Lemma accept_inv r room p now : registry_inv r → registry_inv (accept r room p now).1.
Proof.
  intros Hinv%(prune_inv _ now). unfold accept. simpl.
  remember (prune r now) as r' eqn:Hr'. clear Hr'.
  case_bool_decide as Hk; [done|].
  destruct (entries r' !! (room, proof_node p)) as [e|] eqn:He.
  - case_bool_decide; [|done]. simpl. apply remember_nonce_inv; [|done].
    destruct Hinv as [Hc Hn Ht Hm]. split; simpl; [done|done| |].
    + rewrite map_size_insert, He. done.
    + intros room'. etrans; [apply in_room_insert|]. simpl. rewrite He.
      case_bool_decide; rewrite Z.add_0_r; done.
  - case_if; simpl; [done|]. bools. apply remember_nonce_inv; [|done].
    destruct Hinv as [Hc Hn Ht Hm]. split; simpl; [done|done| |].
    + rewrite map_size_insert, He. lia.
    + intros room'. etrans; [apply in_room_insert|]. simpl. rewrite He.
      case_bool_decide; [subst; lia|]. rewrite Z.add_0_r. done.
Qed.

(** ** Reachable registries *)

Inductive op :=
| OpAccept (room : string) (proof : DidProof) (now : Z)
| OpRemove (room node : string)
| OpRemoveRoom (room : string).

Definition step (r : Registry) (o : op) : Registry :=
  match o with
  | OpAccept room proof now => (accept r room proof now).1
  | OpRemove room node => (remove r room node).1
  | OpRemoveRoom room => remove_room r room
  end.

Definition run (r : Registry) (ops : list op) : Registry := foldl step r ops.

Lemma empty_registry_inv : registry_inv empty_registry.
Proof. split; [apply cache_inv_nil|done..]. Qed.

Lemma step_inv r o : registry_inv r → registry_inv (step r o).
Proof.
  intros Hinv. destruct o as [room p now|room node|room]; simpl.
  - by apply accept_inv.
  - apply registry_inv_shrink; [done|apply delete_subseteq].
  - apply registry_inv_shrink; [done|apply map_filter_subseteq].
Qed.

Lemma run_inv r ops : registry_inv r → registry_inv (run r ops).
Proof.
  unfold run. revert r. induction ops as [|o ops IH]; intros r Hinv; simpl; [done|].
  by apply IH, step_inv.
Qed.

(** [x]'s nonce survives an operation no later than the nonce window, as long
    as fewer than [MAX_NONCES] nonces were remembered behind it. *)
Definition op_before (limit : Z) (o : op) : Prop :=
  match o with OpAccept _ _ now => now ≤ limit | _ => True end.

Lemma prune_queued r now x n :
  queued (nonces r) x n → now ≤ x.1 + NONCE_WINDOW → queued (nonces (prune r now)) x n.
Proof.
  intros Hq Hnow. unfold prune.
  pose proof (queued_pop (λ _ seen, negb (since now seen <=? NONCE_WINDOW))
                _ (nonce_set r) x n Hq) as H.
  destruct (pop_while _ _ _) as [q s]. simpl in *. apply H. intros l _.
  apply negb_false_iff, Z.leb_le. unfold since, NONCE_WINDOW, MAX_CLOCK_SKEW_MS in *. lia.
Qed.

Lemma remember_nonce_queued r k now x n :
  queued (nonces r) x n → n + 1 < MAX_NONCES →
  queued (nonces (remember_nonce r k now)) x (n + 1).
Proof.
  intros Hq Hn. unfold remember_nonce.
  pose proof (queued_pop (λ len _, MAX_NONCES <=? len) _ (nonce_set r) x n Hq) as H.
  destruct (pop_while _ _ _) as [q s]. simpl in *. apply queued_push, H.
  intros l Hl. apply Z.leb_gt. lia.
Qed.

Lemma queued_weaken q x n m : queued q x n → n ≤ m → queued q x m.
Proof. intros (d & e & ? & ?) ?. exists d, e. split; [done|lia]. Qed.

(** The nonces an operation records: one for a proof that is accepted. *)
Definition recorded_by (r : Registry) (o : op) : Z :=
  match o with OpAccept room p now => if is_ok (accept r room p now).2 then 1 else 0 | _ => 0 end.

Fixpoint recorded (r : Registry) (ops : list op) : Z :=
  match ops with [] => 0 | o :: ops => recorded_by r o + recorded (step r o) ops end.

Lemma recorded_by_range r o : 0 ≤ recorded_by r o ≤ 1.
Proof. unfold recorded_by. repeat case_match; lia. Qed.

Lemma recorded_nonneg r ops : 0 ≤ recorded r ops.
Proof. revert r. induction ops as [|o ops IH]; intros r; cbn; [done|]. pose proof (recorded_by_range r o). specialize (IH (step r o)). lia. Qed.

Lemma step_queued r o x n :
  queued (nonces r) x n → op_before (x.1 + NONCE_WINDOW) o → n + recorded_by r o < MAX_NONCES →
  queued (nonces (step r o)) x (n + recorded_by r o).
Proof.
  intros Hq Ho Hn. destruct o as [room p now|room node|room]; cbn [recorded_by step] in *;
    [|eapply queued_weaken; [done|lia]..].
  unfold accept in *. apply (prune_queued _ now) in Hq; [|done].
  remember (prune r now) as r' eqn:Hr. clear Hr. cbn zeta in *.
  case_bool_decide; [eapply queued_weaken; [done|cbn; lia]|].
  match goal with |- context [match ?b with Ok _ => _ | Err _ => _ end] => destruct b end;
    cbn in *; [|eapply queued_weaken; [done|lia]].
  apply remember_nonce_queued; done.
Qed.

Lemma run_queued r ops x n :
  queued (nonces r) x n → Forall (op_before (x.1 + NONCE_WINDOW)) ops →
  n + recorded r ops < MAX_NONCES → queued (nonces (run r ops)) x (n + recorded r ops).
Proof.
  unfold run. revert r n. induction ops as [|o ops IH]; intros r n Hq Hops Hn; cbn [foldl recorded] in *.
  - by rewrite Z.add_0_r.
  - pose proof (recorded_nonneg (step r o) ops). apply Forall_cons in Hops as [Ho Hops].
    rewrite Z.add_assoc in *. apply IH; [apply step_queued|..]; (done || lia).
Qed.

(** A successful [accept] leaves its nonce at the back of the queue. *)
Lemma accept_ok_queued r room p now r' b :
  accept r room p now = (r', Ok b) → queued (nonces r') (now, nonce_key p) 0.
Proof.
  unfold accept. cbn zeta. case_bool_decide; [done|].
  match goal with |- context [match ?b with Ok _ => _ | Err _ => _ end] => destruct b end; [|done].
  intros [= <- _]. unfold remember_nonce. destruct (pop_while _ _ _) as [q s].
  apply queued_last.
Qed.

Lemma accept_known_nonce r room p now t n :
  registry_inv r → queued (nonces r) (t, nonce_key p) n → now ≤ t + NONCE_WINDOW →
  (accept r room p now).2 = Err Replay.
Proof.
  intros Hinv Hq Hnow. unfold accept. cbn zeta.
  rewrite bool_decide_true; [done|].
  apply (cache_inv_elem _ _ _ (reg_cache _ (prune_inv r now Hinv))).
  exists t. eapply queued_elem, prune_queued; done.
Qed.

(** ** Concrete inputs *)

Module Samples.
Import Wire.Toy.

Definition hello : json :=
  signed alice [("t", JString "t"); ("room", JString "r"); ("node", JString (node_id alice));
                ("ts", JNumber (PosInt 500)); ("nonce", JString "n1")].

Definition proof_of (id : Identity) (nonce : string) : DidProof :=
  {| proof_did := did id; proof_node := node_id alice; proof_ts_ms := 500;
     proof_nonce := nonce; proof_reply := false |}.

Definition one_peer : Registry := (accept empty_registry "r" (proof_of alice "n1") 0).1.
End Samples.

(** ** Properties *)

(** Every registry the program can reach from the empty one, by any
    sequence of accepted or refused proofs, departures and room leaves, keeps
    its nonce queue and nonce set in agreement and stays within the caps on
    nonces, on verified pairs, and on verified pairs per room. *)
Theorem registry_reachable_bounded (ops : list op) (room : string) :
  let r := run empty_registry ops in
  zlen (nonces r) ≤ MAX_NONCES ∧ Z.of_nat (size (entries r)) ≤ MAX_VERIFIED ∧
  in_room room (entries r) ≤ MAX_VERIFIED_PER_ROOM ∧
  NoDup (nonces r).*2 ∧ nonce_set r = list_to_set (nonces r).*2.
Proof.
  pose proof (run_inv _ ops empty_registry_inv) as [[Hnd Hs] Hn Ht Hr]. by split_and!.
Qed.

(** C2: a captured hello cannot be replayed while the nonce cache holds it. If
    the registry accepted a signed proof at [t1], and the same proof passes the
    checks again at wall time [w2], then presenting it at the corresponding
    monotonic time [t2] yields [Replay], whatever was presented, refused or
    removed in between, as long as fewer than [MAX_NONCES] (4096) other proofs
    were accepted in between. Past that the oldest nonces are evicted, and
    only the clock skew refuses a proof. *)
Theorem captured_proof_rejected {C : Crypto} (v : json) (tag room from : string)
    (w1 w2 t1 t2 : Z) (p p' : DidProof) (r r1 : Registry) (b : bool) (ops : list op) :
  registry_inv r →
  check_proof_value v tag room from w1 = Ok p →
  accept r room p t1 = (r1, Ok b) →
  Forall (op_before t2) ops → recorded r1 ops < MAX_NONCES →
  check_proof_value v tag room from w2 = Ok p' →
  t2 - t1 = (w2 - w1) * 10 ^ 6 →
  (accept (run r1 ops) room p' t2).2 = Err Replay.
Proof.
  intros Hinv H1 Hacc Hops Hlen H2 Ht.
  assert (Hr1 : registry_inv r1) by (pose proof (accept_inv r room p t1 Hinv) as H; by rewrite Hacc in H).
  assert (Hp : p' = p).
  { unfold check_proof_value in H1, H2.
    repeat match goal with
    | H : rbind ?x _ = Ok _ |- _ => let E := fresh in destruct x eqn:E; simpl in H; [|done]
    | H : (if ?x then _ else _) = Ok _ |- _ => let E := fresh in destruct x eqn:E; [done|]
    end. congruence. }
  subst p'.
  apply check_proof_value_sound in H1 as (_ & _ & _ & _ & Hw1 & _).
  apply check_proof_value_sound in H2 as (_ & _ & _ & _ & Hw2 & _).
  assert (Hwin : t2 ≤ t1 + NONCE_WINDOW)
    by (unfold NONCE_WINDOW, MAX_CLOCK_SKEW_MS in *; lia).
  apply accept_ok_queued in Hacc.
  eapply accept_known_nonce with (t := t1); [by apply run_inv| |done].
  apply run_queued; [done| |lia].
  eapply Forall_impl; [exact Hops|]. intros [] ?; simpl in *; (done || lia).
Qed.

Lemma captured_proof_rejected_witness :
  (accept (run Samples.one_peer [OpRemove "r" (node_id Toy.alice)]) "r"
     (Samples.proof_of Toy.alice "n1") (10 ^ 8)).2 = Err Replay.
Proof.
  apply (captured_proof_rejected Samples.hello "t" "r" (node_id Toy.alice) 1000 1100 0 (10 ^ 8)
           (Samples.proof_of Toy.alice "n1") _ empty_registry _ true).
  - apply empty_registry_inv.
  - by vm_compute.
  - by vm_compute.
  - by repeat constructor.
  - by vm_compute.
  - by vm_compute.
  - lia.
Defined.

(** Node ids are short hashes, so the first DID wins: while a verified
    entry is live, a proof for the same room and node under another DID is
    refused and the binding is unchanged. *)
Theorem first_binding_wins (r : Registry) (room : string) (p : DidProof) (now : Z) (d : string) :
  did_for r room (proof_node p) now = Some d → d ≠ proof_did p →
  let (r', res) := accept r room p now in
  (res = Err DidMismatch ∨ res = Err Replay) ∧ did_for r' room (proof_node p) now = Some d.
Proof.
  unfold did_for, accept. intros Hd Hne. cbn zeta.
  destruct (entries r !! (room, proof_node p)) as [e|] eqn:He; [|done].
  destruct (fresh_entry now e) eqn:Hf; [|done]. injection Hd as <-.
  assert (Hp : entries (prune r now) !! (room, proof_node p) = Some e).
  { unfold prune. destruct (pop_while _ _ _). simpl.
    apply map_lookup_filter_Some. done. }
  rewrite Hp. case_bool_decide; simpl.
  - split; [by right|]. by rewrite Hp, Hf.
  - rewrite bool_decide_false by done. split; [by left|]. by rewrite Hp, Hf.
Qed.

Lemma first_binding_wins_witness :
  let (r', res) := accept Samples.one_peer "r" (Samples.proof_of Toy.bob "n2") 5 in
  (res = Err DidMismatch ∨ res = Err Replay) ∧
  did_for r' "r" (node_id Toy.alice) 5 = Some (did Toy.alice).
Proof.
  apply (first_binding_wins Samples.one_peer "r" (Samples.proof_of Toy.bob "n2") 5 (did Toy.alice)).
  - by vm_compute.
  - by vm_compute.
Defined.
