(* ===== verification/Membership.v ===== *)
(** * Relay membership

    [src/src/consensus/membership.rs]: the per-sender anti-replay window and the
    set of DID-verified relay peers behind the Raft control plane. *)
From S2P Require Import Prelude.

Definition HELLO_INTERVAL : Z := 5 * SECOND.
Definition PEER_TIMEOUT : Z := 15 * SECOND.
Definition MAX_PEERS : Z := 64.
Definition REPLAY_WINDOW : Z := 64.

(** ** The replay window *)

Record ReplayWindow := {
  boot : Z;
  max_seq : Z;
  bitmap : Z;
  last_ts_ms : Z;
}.

Definition new_window (boot seq ts_ms : Z) : ReplayWindow :=
  {| boot := boot; max_seq := seq; bitmap := 1; last_ts_ms := ts_ms |}.

(** [self.bitmap << shift] drops the bits above the 64th. *)
Definition window_accept (w : ReplayWindow) (b seq ts_ms : Z) : ReplayWindow * bool :=
  if negb (b =? boot w) then
    if last_ts_ms w <? ts_ms then (new_window b seq ts_ms, true) else (w, false)
  else if max_seq w <? seq then
    let shift := seq - max_seq w in
    ({| boot := boot w; max_seq := seq;
        bitmap := if REPLAY_WINDOW <=? shift then 1
                  else Z.lor (wrap 64 (Z.shiftl (bitmap w) shift)) 1;
        last_ts_ms := Z.max (last_ts_ms w) ts_ms |}, true)
  else
    let offset := max_seq w - seq in
    if (REPLAY_WINDOW <=? offset) || negb (Z.land (bitmap w) (Z.shiftl 1 offset) =? 0)
    then (w, false)
    else ({| boot := boot w; max_seq := max_seq w;
             bitmap := Z.lor (bitmap w) (Z.shiftl 1 offset);
             last_ts_ms := Z.max (last_ts_ms w) ts_ms |}, true).

(** ** The peer set *)

Record Peer := {
  peer_last_seen : Z;
  peer_did : string;
  replay : option ReplayWindow;
}.

Record Membership := {
  self_id : string;
  peers : gmap string Peer;
}.

Definition new (self_id : string) : Membership := {| self_id := self_id; peers := ∅ |}.

Definition set_peers (m : Membership) (p : gmap string Peer) : Membership :=
  {| self_id := self_id m; peers := p |}.

Definition record_hello (m : Membership) (node did : string) (now : Z) : Membership * bool :=
  if bool_decide (node = self_id m) then (m, false) else
  match peers m !! node with
  | Some peer =>
      if bool_decide (peer_did peer = did)
      then (set_peers m (<[node := {| peer_last_seen := now; peer_did := peer_did peer;
                                      replay := replay peer |}]> (peers m)), false)
      else (m, false)
  | None =>
      if MAX_PEERS <=? zsize (peers m) then (m, false) else
      (set_peers m (<[node := {| peer_last_seen := now; peer_did := did; replay := None |}]> (peers m)),
       true)
  end.

Definition set_replay (p : Peer) (w : ReplayWindow) : Peer :=
  {| peer_last_seen := peer_last_seen p; peer_did := peer_did p; replay := Some w |}.

Definition accept_raft (m : Membership) (node did : string) (b seq ts_ms : Z) : Membership * bool :=
  match peers m !! node with
  | None => (m, false)
  | Some peer =>
      if negb (bool_decide (peer_did peer = did)) then (m, false) else
      match replay peer with
      | Some window =>
          let '(w, ok) := window_accept window b seq ts_ms in
          (set_peers m (<[node := set_replay peer w]> (peers m)), ok)
      | None => (set_peers m (<[node := set_replay peer (new_window b seq ts_ms)]> (peers m)), true)
      end
  end.

Definition member (m : Membership) (node : string) : bool := is_some (peers m !! node).

Definition did_of (m : Membership) (node : string) : option string := peer_did <$> peers m !! node.

Definition remove (m : Membership) (node : string) : Membership * bool :=
  (set_peers m (delete node (peers m)), is_some (peers m !! node)).

(** The ids to drop are collected, sorted, and then removed one by one. *)
Definition remove_where (m : Membership) (doomed : Peer → bool) : Membership * list string :=
  let dropped := sort_strings (map fst (List.filter (λ kv, doomed kv.2) (map_to_list (peers m)))) in
  (set_peers m (delete_all dropped (peers m)), dropped).

Definition expire (m : Membership) (now timeout : Z) : Membership * list string :=
  remove_where m (λ peer, timeout <? since now (peer_last_seen peer)).

Definition retain_admitted (m : Membership) (admitted : string → bool) : Membership * list string :=
  remove_where m (λ peer, negb (admitted (peer_did peer))).

Definition peers_with_self (m : Membership) : list string :=
  sort_strings (elements (dom (peers m)) ++ [self_id m]).

(** ** The window refines a set of sequence numbers

    The abstract window of one sender: the boot it is on, every sequence number
    accepted since it moved to that boot, and the latest timestamp. *)
Record Seen := { s_boot : Z; s_seqs : list Z; s_ts : Z }.

Definition seen_max (s : Seen) : Z := foldr Z.max 0 (s_seqs s).

Definition seen_accept (s : Seen) (b seq ts : Z) : Seen * bool :=
  if bool_decide (b = s_boot s) then
    if bool_decide (seq ∈ s_seqs s) || (seq <=? seen_max s - REPLAY_WINDOW) then (s, false)
    else ({| s_boot := b; s_seqs := seq :: s_seqs s; s_ts := Z.max (s_ts s) ts |}, true)
  else if s_ts s <? ts then ({| s_boot := b; s_seqs := [seq]; s_ts := ts |}, true)
  else (s, false).

(** The bitmap answers for the 64 numbers up to the largest one. *)
Record represents (w : ReplayWindow) (s : Seen) : Prop := {
  rep_boot : boot w = s_boot s;
  rep_ts : last_ts_ms w = s_ts s;
  rep_max : max_seq w = seen_max s;
  rep_bits i : 0 ≤ i < 64 → Z.testbit (bitmap w) i = bool_decide (max_seq w - i ∈ s_seqs s);
  rep_range : 0 ≤ bitmap w < 2 ^ 64;
  rep_pos : Forall (λ q, 0 ≤ q) (s_seqs s);
  rep_nonempty : s_seqs s ≠ [];
}.

Lemma seen_max_ge s q : q ∈ s_seqs s → q ≤ seen_max s.
Proof.
  unfold seen_max. induction (s_seqs s) as [|x l IH]; [set_solver|].
  intros [->|H]%elem_of_cons; simpl; [lia|]. specialize (IH H). lia.
Qed.

Lemma foldr_max_mem (l : list Z) :
  l ≠ [] → Forall (λ q, 0 ≤ q) l → foldr Z.max 0 l ∈ l.
Proof.
  induction l as [|x l IH]; [done|]. intros _ [Hx Hl]%Forall_cons. simpl.
  destruct l as [|y l].
  - simpl. rewrite Z.max_l by lia. set_solver.
  - destruct (Z.max_spec x (foldr Z.max 0 (y :: l))) as [[_ ->]|[_ ->]]; [right; by apply IH|left].
Qed.

Lemma land_bit a i : 0 ≤ i → negb (Z.land a (Z.shiftl 1 i) =? 0) = Z.testbit a i.
Proof.
  intros Hi. destruct (Z.testbit a i) eqn:E.
  - apply negb_true_iff, Z.eqb_neq. intros H.
    apply (f_equal (λ z, Z.testbit z i)) in H.
    rewrite Z.land_spec, E, Z.shiftl_spec, Z.sub_diag, Z.bits_0 in H by done. done.
  - apply negb_false_iff, Z.eqb_eq. apply Z.bits_inj'. intros n Hn.
    rewrite Z.land_spec, Z.shiftl_spec, Z.bits_0 by done.
    destruct (decide (n = i)) as [->|Hne]; [by rewrite E|].
    replace (Z.testbit 1 (n - i)) with false; [by rewrite andb_false_r|].
    symmetry. change 1 with (2 ^ 0). apply Z.pow2_bits_false. lia.
Qed.

Lemma testbit_high a n i : 0 ≤ n → 0 ≤ a < 2 ^ n → n ≤ i → Z.testbit a i = false.
Proof.
  intros Hn Ha Hi. rewrite <-(Z.mod_small a (2 ^ n)) by done. by apply Z.mod_pow2_bits_high.
Qed.

Lemma range_of_bits a n :
  0 ≤ n → (∀ i, n ≤ i → Z.testbit a i = false) → 0 ≤ a < 2 ^ n.
Proof.
  intros Hn Hb. assert (Ha : a = a mod 2 ^ n).
  { apply Z.bits_inj'. intros i Hi. destruct (decide (i < n)).
    - by rewrite Z.mod_pow2_bits_low.
    - rewrite Z.mod_pow2_bits_high, Hb by lia. done. }
  rewrite Ha. apply Z.mod_pos_bound. lia.
Qed.

Lemma lor_range a b n : 0 ≤ n → 0 ≤ a < 2 ^ n → 0 ≤ b < 2 ^ n → 0 ≤ Z.lor a b < 2 ^ n.
Proof.
  intros Hn Ha Hb. apply range_of_bits; [done|]. intros i Hi.
  by rewrite Z.lor_spec, !(testbit_high _ n).
Qed.

Lemma testbit_one i : 0 ≤ i → Z.testbit 1 i = bool_decide (i = 0).
Proof.
  intros Hi. change 1 with (2 ^ 0). rewrite Z.pow2_bits_eqb by done.
  case_bool_decide; [apply Z.eqb_eq|apply Z.eqb_neq]; lia.
Qed.

Lemma represents_new b seq ts :
  0 ≤ seq → represents (new_window b seq ts) {| s_boot := b; s_seqs := [seq]; s_ts := ts |}.
Proof.
  intros Hs. split; simpl; try done.
  - unfold seen_max. simpl. lia.
  - intros i Hi. rewrite testbit_one by lia. apply bool_decide_ext. rewrite list_elem_of_singleton. lia.
  - by repeat constructor.
Qed.

(** The bits of the window's three updates. *)
Lemma bit_shifted a n i :
  0 ≤ n → 0 ≤ i < 64 → Z.testbit (wrap 64 (Z.shiftl a n)) i = if n <=? i then Z.testbit a (i - n) else false.
Proof.
  intros Hn Hi. unfold wrap. rewrite Z.mod_pow2_bits_low by lia.
  rewrite Z.shiftl_spec by lia. destruct (Z.leb_spec n i); [done|].
  apply Z.testbit_neg_r. lia.
Qed.

Lemma bit_set a n i :
  0 ≤ n → 0 ≤ i → Z.testbit (Z.lor a (Z.shiftl 1 n)) i = Z.testbit a i || bool_decide (i = n).
Proof.
  intros Hn Hi. rewrite Z.lor_spec, Z.shiftl_spec by done. f_equal.
  destruct (decide (n ≤ i)).
  - rewrite testbit_one by lia. apply bool_decide_ext. lia.
  - rewrite Z.testbit_neg_r by lia. symmetry. apply bool_decide_eq_false. lia.
Qed.

Lemma represents_advance w s seq ts :
  represents w s → seen_max s < seq →
  represents
    {| boot := boot w; max_seq := seq;
       bitmap := if REPLAY_WINDOW <=? seq - max_seq w then 1
                 else Z.lor (wrap 64 (Z.shiftl (bitmap w) (seq - max_seq w))) 1;
       last_ts_ms := Z.max (last_ts_ms w) ts |}
    {| s_boot := s_boot s; s_seqs := seq :: s_seqs s; s_ts := Z.max (s_ts s) ts |}.
Proof.
  intros [Hb Ht Hm Hbits Hr Hp Hne] Hlt.
  assert (Hle : ∀ q, q ∈ s_seqs s → q ≤ seen_max s) by apply seen_max_ge.
  assert (0 ≤ seen_max s) by (unfold seen_max; clear; induction (s_seqs s); simpl; lia).
  split; simpl; try done.
  - by rewrite Ht.
  - unfold seen_max in *. simpl. lia.
  - intros i Hi. destruct (Z.leb_spec REPLAY_WINDOW (seq - max_seq w)).
    + rewrite testbit_one by lia. apply bool_decide_ext. rewrite elem_of_cons.
      split; [intros ->; left; lia|]. intros [?|Hin%Hle]; unfold REPLAY_WINDOW in *; lia.
    + rewrite Z.lor_spec, testbit_one, bit_shifted by lia.
      destruct (Z.leb_spec (seq - max_seq w) i).
      * rewrite Hbits by lia.
        replace (max_seq w - (i - (seq - max_seq w))) with (seq - i) by lia.
        rewrite (bool_decide_false (i = 0)), orb_false_r by lia.
        apply bool_decide_ext. rewrite elem_of_cons. split; [by right|]. intros [?|?]; [lia|done].
      * simpl. apply bool_decide_ext. rewrite elem_of_cons. split; [intros ->; left; lia|].
        intros [?|Hin%Hle]; lia.
  - case_if; [lia|]. apply lor_range; [lia| |lia]. apply Z.mod_pos_bound. lia.
  - constructor; [lia|done].
Qed.

Lemma represents_fill w s seq ts :
  represents w s → 0 ≤ seq → 0 ≤ seen_max s - seq < 64 →
  represents
    {| boot := boot w; max_seq := max_seq w;
       bitmap := Z.lor (bitmap w) (Z.shiftl 1 (max_seq w - seq));
       last_ts_ms := Z.max (last_ts_ms w) ts |}
    {| s_boot := s_boot s; s_seqs := seq :: s_seqs s; s_ts := Z.max (s_ts s) ts |}.
Proof.
  intros [Hb Ht Hm Hbits Hr Hp Hne] Hs Hoff. split; simpl; try done.
  - by rewrite Ht.
  - rewrite Hm. unfold seen_max in *. simpl. lia.
  - intros i Hi. rewrite bit_set, Hbits by lia.
    rewrite <-bool_decide_or. apply bool_decide_ext. rewrite elem_of_cons.
    rewrite Hm. split; intros [?|?]; (left; lia) || (right; lia) || by (left + right).
  - apply lor_range; [lia|done|]. apply range_of_bits; [lia|]. intros i Hi.
    rewrite Z.shiftl_spec by lia. rewrite testbit_one by lia. apply bool_decide_eq_false. lia.
  - constructor; [lia|done].
Qed.

(** One step of the window agrees with the set of sequence numbers. *)
Lemma window_accept_refines w s b seq ts :
  represents w s → 0 ≤ seq →
  (window_accept w b seq ts).2 = (seen_accept s b seq ts).2 ∧
  represents (window_accept w b seq ts).1 (seen_accept s b seq ts).1.
Proof.
  intros Hrep Hs. pose proof Hrep as [Hb Ht Hm Hbits Hr Hp Hne].
  unfold window_accept, seen_accept. rewrite Hb.
  destruct (Z.eqb_spec b (s_boot s)) as [->|Hne']; simpl.
  - rewrite bool_decide_true by done. rewrite Hm.
    destruct (Z.ltb_spec (seen_max s) seq) as [Hlt|Hge].
    + rewrite bool_decide_false by (intros ?%seen_max_ge; lia).
      replace (seq <=? seen_max s - REPLAY_WINDOW) with false
        by (symmetry; apply Z.leb_gt; unfold REPLAY_WINDOW; lia).
      simpl. split; [done|]. pose proof (represents_advance w s seq ts Hrep Hlt) as H.
      by rewrite Hm, Hb in H.
    + rewrite land_bit by lia.
      destruct (Z.leb_spec REPLAY_WINDOW (seen_max s - seq)) as [Hout|Hin]; simpl.
      { replace (seq <=? seen_max s - REPLAY_WINDOW) with true by (symmetry; apply Z.leb_le; lia).
        by rewrite orb_true_r. }
      unfold REPLAY_WINDOW in *. rewrite Hbits by lia.
      replace (max_seq w - (seen_max s - seq)) with seq by lia.
      replace (seq <=? seen_max s - 64) with false by (symmetry; apply Z.leb_gt; lia).
      rewrite orb_false_r. case_bool_decide; simpl; [done|].
      split; [done|]. pose proof (represents_fill w s seq ts Hrep Hs ltac:(lia)) as H'.
      by rewrite Hm, Hb in H'.
  - rewrite bool_decide_false by done. rewrite <-Ht. case_if; simpl; [|done].
    split; [done|]. by apply represents_new.
Qed.

(** ** Runs *)

Inductive event :=
| Hello (node did : string) (now : Z)
| Raft (node did : string) (boot seq ts_ms : Z)
| Leave (node : string)
| Expire (now timeout : Z)
| Retain (allowed : list string).

(** One operation, with whether a Raft message was accepted. *)
Definition step (m : Membership) (e : event) : Membership * bool :=
  match e with
  | Hello node did now => ((record_hello m node did now).1, false)
  | Raft node did b seq ts => accept_raft m node did b seq ts
  | Leave node => ((remove m node).1, false)
  | Expire now timeout => ((expire m now timeout).1, false)
  | Retain allowed => ((retain_admitted m (contains allowed)).1, false)
  end.

(** The messages of [node] accepted along a run, oldest first, as
    [(boot, seq, ts)]. *)
Fixpoint accepted (node : string) (m : Membership) (es : list event) : list (Z * Z * Z) :=
  match es with
  | [] => []
  | e :: es =>
      let '(m', ok) := step m e in
      let rest := accepted node m' es in
      match e with
      | Raft n _ b seq ts => if ok && bool_decide (n = node) then (b, seq, ts) :: rest else rest
      | _ => rest
      end
  end.

Fixpoint run (m : Membership) (es : list event) : Membership :=
  match es with [] => m | e :: es => run (step m e).1 es end.

(** [node] is never dropped along the run. *)
Fixpoint stays (node : string) (m : Membership) (es : list event) : Prop :=
  match es with
  | [] => True
  | e :: es =>
      (is_Some (peers m !! node) → is_Some (peers (step m e).1 !! node)) ∧
      stays node (step m e).1 es
  end.

Lemma lookup_remove_where m doomed node :
  peers (remove_where m doomed).1 !! node =
    match peers m !! node with
    | Some p => if doomed p then None else Some p
    | None => None
    end.
Proof.
  unfold remove_where. simpl. rewrite lookup_delete_all.
  destruct (decide _) as [Hin|Hnin].
  - apply elem_of_sort_strings, list_elem_of_fmap in Hin as ([k p] & -> & Hin).
    apply list_elem_of_In, List.filter_In in Hin as [Hin Hd]. simpl in *.
    apply list_elem_of_In, elem_of_map_to_list in Hin. by rewrite Hin, Hd.
  - destruct (peers m !! node) as [p|] eqn:Hp; [|done].
    destruct (doomed p) eqn:Hd; [|done]. destruct Hnin.
    apply elem_of_sort_strings, list_elem_of_fmap. exists (node, p). split; [done|].
    apply list_elem_of_In, List.filter_In. split; [|done].
    by apply list_elem_of_In, elem_of_map_to_list.
Qed.

Lemma elem_of_dropped m doomed node :
  node ∈ (remove_where m doomed).2 ↔ ∃ p, peers m !! node = Some p ∧ doomed p = true.
Proof.
  unfold remove_where. simpl. rewrite elem_of_sort_strings, list_elem_of_fmap. split.
  - intros ([k p] & -> & Hin). apply list_elem_of_In, List.filter_In in Hin as [Hin Hd].
    exists p. split; [|done]. by apply elem_of_map_to_list, list_elem_of_In.
  - intros (p & Hp & Hd). exists (node, p). split; [done|].
    apply list_elem_of_In, List.filter_In. split; [|done].
    by apply list_elem_of_In, elem_of_map_to_list.
Qed.

(** ** The membership invariant *)

Definition window_wf (w : ReplayWindow) : Prop := ∃ s, represents w s.

Record membership_inv (m : Membership) : Prop := {
  inv_self : peers m !! self_id m = None;
  inv_size : zsize (peers m) ≤ MAX_PEERS;
  inv_windows n p w : peers m !! n = Some p → replay p = Some w → window_wf w;
}.

(** Sequence numbers are [u64], hence never negative. *)
Definition event_ok (e : event) : Prop :=
  match e with Raft _ _ _ seq _ => 0 ≤ seq | _ => True end.

Lemma membership_inv_new self : membership_inv (new self).
Proof. by split. Qed.

Lemma membership_inv_update m node p p' :
  membership_inv m → peers m !! node = Some p →
  (∀ w, replay p' = Some w → window_wf w) →
  membership_inv (set_peers m (<[node := p']> (peers m))).
Proof.
  intros [Hself Hsize Hw] Hp Hp'. split; simpl.
  - rewrite lookup_insert_ne; [done|]. intros ->. congruence.
  - unfold zsize in *. by rewrite map_size_insert, Hp.
  - intros n q w. destruct (decide (node = n)) as [->|?].
    + rewrite lookup_insert_eq. intros [= <-]. apply Hp'.
    + rewrite lookup_insert_ne by done. apply Hw.
Qed.

Lemma membership_inv_subset m p :
  membership_inv m → p ⊆ peers m → membership_inv (set_peers m p).
Proof.
  intros [Hself Hsize Hw] Hsub. split; simpl.
  - eapply lookup_weaken_None; done.
  - unfold zsize in *. apply map_subseteq_size in Hsub. lia.
  - intros n q w Hq. eapply Hw, lookup_weaken; done.
Qed.

Lemma remove_where_inv m doomed : membership_inv m → membership_inv (remove_where m doomed).1.
Proof.
  intros Hinv. apply membership_inv_subset; [done|].
  apply map_subseteq_spec. intros n q. pose proof (lookup_remove_where m doomed n) as H.
  unfold remove_where in H. simpl in H. rewrite H.
  destruct (peers m !! n); [|done]. by case_if.
Qed.

Lemma members_step_inv m e : membership_inv m → event_ok e → membership_inv (step m e).1.
Proof.
  intros Hinv He. destruct e as [node did now|node did b seq ts|node|now timeout|allowed]; simpl.
  - unfold record_hello. case_bool_decide as Hs; [done|].
    destruct (peers m !! node) as [p|] eqn:Hp.
    + case_bool_decide; [|done]. eapply membership_inv_update; [done|exact Hp|].
      simpl. intros w. by apply (inv_windows m Hinv node).
    + case_if; [done|]. bools. destruct Hinv as [Hself Hsize Hw]. split; simpl.
      * rewrite lookup_insert_ne by done. done.
      * unfold zsize in *. rewrite map_size_insert, Hp. lia.
      * intros n q w. destruct (decide (node = n)) as [->|?].
        -- rewrite lookup_insert_eq. by intros [= <-].
        -- rewrite lookup_insert_ne by done. apply Hw.
  - unfold accept_raft. destruct (peers m !! node) as [p|] eqn:Hp; [|done].
    case_if; [done|]. destruct (replay p) as [w|] eqn:Hw.
    + destruct (window_accept w b seq ts) as [w' ok] eqn:E. simpl.
      eapply membership_inv_update; [done|exact Hp|]. simpl. intros ? [= <-].
      destruct (inv_windows m Hinv _ _ _ Hp Hw) as [s Hrep].
      exists (seen_accept s b seq ts).1.
      pose proof (window_accept_refines w s b seq ts Hrep He) as [_ H]. by rewrite E in H.
    + eapply membership_inv_update; [done|exact Hp|]. simpl. intros ? [= <-].
      eexists. by apply represents_new.
  - apply membership_inv_subset; [done|]. apply delete_subseteq.
  - by apply (remove_where_inv m (λ p, timeout <? since now (peer_last_seen p))).
  - by apply (remove_where_inv m (λ p, negb (contains allowed (peer_did p)))).
Qed.

Lemma members_run_inv m es : membership_inv m → Forall event_ok es → membership_inv (run m es).
Proof.
  revert m. induction es as [|e es IH]; intros m Hinv; simpl; [done|].
  intros [He Hes]%Forall_cons. apply IH; [by apply members_step_inv|done].
Qed.

(** ** At most once

    The history of one sender: the messages accepted from it so far, related to
    its current window. *)
Definition msg : Type := Z * Z * Z.
Definition m_boot (x : msg) : Z := x.1.1.
Definition m_seq (x : msg) : Z := x.1.2.
Definition m_ts (x : msg) : Z := x.2.

Record history (h : list msg) (s : Seen) : Prop := {
  hist_seqs x : x ∈ h → m_boot x = s_boot s → m_seq x ∈ s_seqs s;
  hist_ts x : x ∈ h → m_ts x ≤ s_ts s;
  hist_old x : x ∈ h → m_boot x ≠ s_boot s → ∃ y, y ∈ h ∧ m_boot y = s_boot s ∧ m_ts x < m_ts y;
  hist_last : s_seqs s ≠ [] → ∃ y, y ∈ h ∧ m_ts y = s_ts s;
}.

(** Boots occupy disjoint stretches of time: no message of one boot is stamped
    between two messages of another. A sender that restarts draws a new boot id
    and its clock moves on. *)
Definition boots_disjoint (ms : list msg) : Prop :=
  ∀ x y z, x ∈ ms → y ∈ ms → z ∈ ms →
    m_boot x = m_boot z → m_boot y ≠ m_boot x → m_ts x < m_ts y → ¬ m_ts y < m_ts z.

Lemma seen_accept_history h s x all :
  history h s → s_seqs s ≠ [] → boots_disjoint all → x ∈ all → (∀ y, y ∈ h → y ∈ all) →
  (seen_accept s (m_boot x) (m_seq x) (m_ts x)).2 = true →
  let s' := (seen_accept s (m_boot x) (m_seq x) (m_ts x)).1 in
  history (x :: h) s' ∧ s_seqs s' ≠ [] ∧
  (∀ y, y ∈ h → m_boot y = m_boot x → m_seq y ≠ m_seq x).
Proof.
  intros [Hseq Hts Hold Hlast] Hne Hdis Hx Hall. unfold seen_accept.
  case_bool_decide as Hb.
  - case_if; [done|]. bools. simpl. intros _. split_and!; [|done|].
    + split; simpl.
      * intros y [->|Hy]%elem_of_cons Hyb; [left|right; apply Hseq; congruence].
      * intros y [->|Hy%Hts]%elem_of_cons; lia.
      * intros y [->|Hy]%elem_of_cons Hyb; [done|].
        destruct (Hold y Hy) as (z & Hz & ? & ?); [congruence|]. exists z. set_solver by congruence.
      * intros _. destruct (Z.max_spec (s_ts s) (m_ts x)) as [[_ ->]|[_ ->]];
          [exists x; set_solver|]. destruct (Hlast Hne) as (y & ? & ?). exists y. set_solver.
    + intros y Hy Hyb Heq. assert (m_seq x ∈ s_seqs s) by (rewrite <-Heq; apply Hseq; congruence). done.
  - case_if; [|done]. bools. simpl. intros _.
    assert (Hnew : ∀ y, y ∈ h → m_boot y ≠ m_boot x).
    { intros y Hy Hyx. destruct (Hold y Hy) as (z & Hz & Hzb & Hzt); [congruence|].
      eapply (Hdis y z x); eauto; [congruence|]. specialize (Hts z Hz). lia. }
    split_and!; [|done|].
    + split; simpl.
      * intros y [->|Hy]%elem_of_cons Hyb; [left|by destruct (Hnew y Hy)].
      * intros y [->|Hy%Hts]%elem_of_cons; lia.
      * intros y [->|Hy]%elem_of_cons Hyb; [done|]. exists x. specialize (Hts y Hy).
        split_and!; [left|done|lia].
      * intros _. exists x. set_solver.
    + intros y Hy Hyb. by destruct (Hnew y Hy).
Qed.

Lemma history_first x : history [x] {| s_boot := m_boot x; s_seqs := [m_seq x]; s_ts := m_ts x |}.
Proof.
  split; simpl.
  - intros y ->%list_elem_of_singleton. set_solver.
  - by intros y ->%list_elem_of_singleton.
  - by intros y ->%list_elem_of_singleton.
  - intros _. exists x. set_solver.
Qed.

(** What a run knows of [node]: nothing accepted yet, or a window whose
    abstract contents cover everything accepted. *)
Definition tracked (m : Membership) (node : string) (h : list msg) : Prop :=
  match peers m !! node with
  | None => h = []
  | Some p =>
      match replay p with
      | None => h = []
      | Some w => ∃ s, represents w s ∧ history h s
      end
  end.

Definition fresh_pair (h : list msg) (x : msg) : Prop :=
  ∀ y, y ∈ h → m_boot y = m_boot x → m_seq y ≠ m_seq x.

(** The messages a step accepts from [node]. *)
Definition step_msgs (node : string) (m : Membership) (e : event) : list msg :=
  match e with
  | Raft n _ b seq ts => if (step m e).2 && bool_decide (n = node) then [(b, seq, ts)] else []
  | _ => []
  end.

Lemma tracked_raft m node did b seq ts h all :
  tracked m node h → boots_disjoint all → (b, seq, ts) ∈ all → (∀ y, y ∈ h → y ∈ all) → 0 ≤ seq →
  if (accept_raft m node did b seq ts).2
  then tracked (accept_raft m node did b seq ts).1 node ((b, seq, ts) :: h) ∧ fresh_pair h (b, seq, ts)
  else tracked (accept_raft m node did b seq ts).1 node h.
Proof.
  intros Ht Hdis Hx Hall Hs. unfold tracked, accept_raft in *.
  destruct (peers m !! node) as [p|] eqn:Hp; simpl; [|by rewrite Hp].
  destruct (negb (bool_decide (peer_did p = did))); simpl; [by rewrite Hp|].
  destruct (replay p) as [w|] eqn:Hw; simpl.
  - destruct Ht as (s & Hrep & Hh).
    destruct (window_accept_refines w s b seq ts Hrep Hs) as [Hok Hrep'].
    pose proof (seen_accept_history h s (b, seq, ts) all Hh (rep_nonempty _ _ Hrep) Hdis Hx Hall) as Hstep.
    destruct (window_accept w b seq ts) as [w' ok]. simpl in *. subst ok.
    rewrite lookup_insert_eq. simpl.
    destruct (seen_accept s b seq ts) as [s' []] eqn:E; simpl in *.
    + destruct Hstep as (Hh' & _ & Hfresh); [unfold m_boot, m_seq, m_ts; simpl; by rewrite E|].
      unfold m_boot, m_seq, m_ts in Hh'. simpl in Hh'. rewrite E in Hh'.
      split; [by exists s'|done].
    + exists s. assert (s' = s) as -> by (unfold seen_accept in E; repeat case_match; congruence).
      done.
  - subst h. rewrite lookup_insert_eq. simpl. split.
    + eexists. split; [by apply represents_new|]. apply (history_first (b, seq, ts)).
    + intros y. set_solver.
Qed.

Lemma lookup_hello m n did now node :
  peers (record_hello m n did now).1 !! node = peers m !! node ∨
  (∃ p t, peers m !! node = Some p ∧ peers (record_hello m n did now).1 !! node =
     Some {| peer_last_seen := t; peer_did := peer_did p; replay := replay p |}) ∨
  (peers m !! node = None ∧ peers (record_hello m n did now).1 !! node =
     Some {| peer_last_seen := now; peer_did := did; replay := None |}).
Proof.
  unfold record_hello. case_bool_decide; [by left|].
  destruct (peers m !! n) as [p|] eqn:Hp; case_if; simpl; try (by left);
    destruct (decide (n = node)) as [->|];
    rewrite ?lookup_insert_eq, ?lookup_insert_ne by done; naive_solver.
Qed.

Lemma lookup_raft_ne m n did b seq ts node :
  n ≠ node → peers (accept_raft m n did b seq ts).1 !! node = peers m !! node.
Proof.
  intros Hne. unfold accept_raft. destruct (peers m !! n) as [p|]; [|done].
  case_if; [done|]. destruct (replay p); [destruct (window_accept _ _ _ _)|];
    simpl; by rewrite lookup_insert_ne.
Qed.

(** The events that can only drop peers. *)
Definition dropping (e : event) : bool :=
  match e with Leave _ | Expire _ _ | Retain _ => true | _ => false end.

Lemma lookup_dropping m e node :
  dropping e = true → (is_Some (peers m !! node) → is_Some (peers (step m e).1 !! node)) →
  peers (step m e).1 !! node = peers m !! node.
Proof.
  intros He Hstay. destruct (peers m !! node) as [p|] eqn:Hp.
  - specialize (Hstay ltac:(by eexists)).
    destruct e as [| |n|now timeout|allowed]; try done; cbn [step fst] in *.
    + unfold remove in *. simpl in *. destruct (decide (n = node)) as [->|].
      * rewrite lookup_delete_eq in Hstay. by destruct Hstay.
      * by rewrite lookup_delete_ne.
    + unfold expire in *. rewrite lookup_remove_where, Hp in *. case_if; [by destruct Hstay|done].
    + unfold retain_admitted in *. rewrite lookup_remove_where, Hp in *. case_if; [by destruct Hstay|done].
  - destruct e as [| |n|now timeout|allowed]; try done; cbn [step fst] in *.
    + unfold remove. simpl. apply lookup_delete_None. by right.
    + unfold expire. by rewrite lookup_remove_where, Hp.
    + unfold retain_admitted. by rewrite lookup_remove_where, Hp.
Qed.

Lemma step_tracked m e node h all :
  tracked m node h → boots_disjoint all → event_ok e →
  (∀ y, y ∈ h → y ∈ all) → (∀ y, y ∈ step_msgs node m e → y ∈ all) →
  (is_Some (peers m !! node) → is_Some (peers (step m e).1 !! node)) →
  tracked (step m e).1 node (step_msgs node m e ++ h) ∧
  Forall (fresh_pair h) (step_msgs node m e).
Proof.
  intros Ht Hdis He Hall Hnew Hstay.
  destruct (dropping e) eqn:Hd.
  { pose proof (lookup_dropping m e node Hd Hstay) as Hl.
    destruct e; try done; unfold step_msgs; simpl app;
      (split; [unfold tracked in *; by rewrite Hl|constructor]). }
  destruct e as [n did now|n did b seq ts| | |]; try done; cbn [step] in *.
  - unfold step_msgs. simpl app. split; [|constructor]. unfold tracked in *. cbn [fst].
    destruct (lookup_hello m n did now node) as [->|[(p & t & Hp & ->)|[Hp ->]]]; [done|..];
      by rewrite Hp in Ht.
  - destruct (decide (n = node)) as [->|Hne].
    + unfold step_msgs in *. cbn [step] in *. rewrite (bool_decide_true (node = node)) in * by done.
      rewrite andb_true_r in *.
      pose proof (tracked_raft m node did b seq ts h all Ht Hdis) as Hraft.
      destruct (accept_raft m node did b seq ts) as [m' []] eqn:E; simpl in *.
      * destruct Hraft as [? ?]; [apply Hnew; left|done|done|]. by repeat constructor.
      * unfold tracked, accept_raft in *. split; [|constructor].
        destruct (peers m !! node) as [p|] eqn:Hp; [|simplify_eq; by rewrite Hp].
        destruct (negb _); [simplify_eq; by rewrite Hp|].
        destruct (replay p) as [w|] eqn:Hw; [|done].
        destruct Ht as (s & Hrep & Hh).
        destruct (window_accept_refines w s b seq ts Hrep He) as [Hok Hrep'].
        destruct (window_accept w b seq ts) as [w' ok]. simplify_eq/=. rewrite lookup_insert_eq. simpl.
        exists s. split; [|done].
        assert ((seen_accept s b seq ts).1 = s) as <-
          by (unfold seen_accept in *; repeat case_match; simpl in *; congruence). done.
    + unfold step_msgs. rewrite (bool_decide_false (n = node)), andb_false_r by done. simpl app.
      split; [|constructor]. unfold tracked in *. by rewrite lookup_raft_ne.
Qed.

Definition pairs (l : list msg) : list (Z * Z) := map (λ x, (m_boot x, m_seq x)) l.

Lemma accepted_cons node m e es :
  accepted node m (e :: es) = step_msgs node m e ++ accepted node (step m e).1 es.
Proof.
  cbn [accepted]. unfold step_msgs.
  destruct e; destruct (step m _) as [m' ok]; simpl; [done| |done..]. by case_if.
Qed.

Lemma accepted_nodup_from node m es h all :
  tracked m node h → NoDup (pairs h) → boots_disjoint all → Forall event_ok es →
  stays node m es → (∀ y, y ∈ h → y ∈ all) → (∀ y, y ∈ accepted node m es → y ∈ all) →
  NoDup (pairs (h ++ accepted node m es)).
Proof.
  revert m h. induction es as [|e es IH]; intros m h Ht Hnd Hdis Hok Hst Hh Hacc.
  { by rewrite app_nil_r. }
  rewrite accepted_cons in *. apply Forall_cons in Hok as [He Hok]. destruct Hst as [Hst1 Hst].
  destruct (step_tracked m e node h all Ht Hdis He Hh) as [Ht' Hfresh]; [set_solver|done|].
  assert (Hp : h ++ step_msgs node m e ++ accepted node (step m e).1 es
               ≡ₚ (step_msgs node m e ++ h) ++ accepted node (step m e).1 es)
    by (rewrite app_assoc; by apply Permutation_app_tail, Permutation_app_comm).
  unfold pairs. rewrite (Permutation_map _ Hp). apply IH; [done| |done..| |]; [|set_solver..].
  assert (Hlen : step_msgs node m e = [] ∨ ∃ x, step_msgs node m e = [x]).
  { unfold step_msgs. destruct e; eauto. case_if; eauto. }
  destruct Hlen as [->|[x Hx]]; [done|]. rewrite Hx in *. simpl.
  apply Forall_cons in Hfresh as [Hx' _]. constructor; [|done].
  intros (y & Heq & Hy)%list_elem_of_fmap. injection Heq as Hb Hs.
  by destruct (Hx' y Hy).
Qed.

(** ** Concrete inputs *)

Module Samples.
Definition trace : list event :=
  [Hello "peer" "did-peer" 0; Raft "peer" "did-peer" 7 1 100; Raft "peer" "did-peer" 7 3 102;
   Raft "peer" "did-peer" 7 3 102; Raft "peer" "did-peer" 7 2 101; Hello "other" "did-other" 5;
   Raft "other" "did-other" 1 1 100; Raft "peer" "did-peer" 7 200 110;
   Raft "peer" "did-peer" 7 100 105; Expire 100 PEER_TIMEOUT;
   Raft "peer" "did-peer" 8 1 200; Raft "peer" "did-peer" 7 201 199].

Example trace_accepted :
  accepted "peer" (new "self") trace =
    [(7, 1, 100); (7, 3, 102); (7, 2, 101); (7, 200, 110); (8, 1, 200)].
Proof. by vm_compute. Qed.
End Samples.

(** ** Properties *)

(** C4: the 64-bit bitmap implements the sliding window: on every window that
    represents a set of accepted sequence numbers, [accept] answers as the set
    does (new, and not 64 or more behind the largest), and the updated window
    represents the updated set. *)
Theorem replay_window_refines (w : ReplayWindow) (s : Seen) (b seq ts : Z) :
  represents w s → 0 ≤ seq →
  (window_accept w b seq ts).2 = (seen_accept s b seq ts).2 ∧
  represents (window_accept w b seq ts).1 (seen_accept s b seq ts).1.
Proof. apply window_accept_refines. Qed.

Lemma replay_window_refines_witness :
  (window_accept (new_window 7 10 100) 7 9 99).2 = true ∧
  represents (window_accept (new_window 7 10 100) 7 9 99).1
    {| s_boot := 7; s_seqs := [9; 10]; s_ts := 100 |}.
Proof.
  apply (replay_window_refines (new_window 7 10 100)
           {| s_boot := 7; s_seqs := [10]; s_ts := 100 |} 7 9 99).
  - apply represents_new. lia.
  - lia.
Defined.

(** No Raft message is accepted twice. Along any run in which a peer is
    not dropped, and whose boots occupy disjoint stretches of time, the
    accepted [(boot, seq)] pairs of that peer are distinct, whatever is
    replayed, reordered or interleaved with other peers. *)
Theorem raft_accepted_at_most_once (self node : string) (es : list event) :
  stays node (new self) es → Forall event_ok es →
  boots_disjoint (accepted node (new self) es) →
  NoDup (pairs (accepted node (new self) es)).
Proof.
  intros Hst Hok Hdis.
  apply (accepted_nodup_from node (new self) es [] (accepted node (new self) es)); try done.
  - constructor.
  - set_solver.
Qed.

Lemma raft_accepted_at_most_once_witness :
  NoDup (pairs (accepted "peer" (new "self") Samples.trace)).
Proof.
  apply (raft_accepted_at_most_once "self" "peer" Samples.trace).
  - cbv [stays Samples.trace]. repeat split; intros _; vm_compute; by eexists.
  - by repeat constructor.
  - rewrite Samples.trace_accepted. intros x y z Hx Hy Hz.
    unfold m_boot, m_ts.
    repeat match goal with
    | H : _ ∈ _ :: _ |- _ => apply elem_of_cons in H as [->|H]
    | H : _ ∈ [] |- _ => by apply not_elem_of_nil in H
    end; simpl; lia.
Defined.

(** From the empty set, every run keeps at most 64 peers, never tracks this
    node itself, and keeps every window a 64-bit representation of a set. *)
Theorem membership_reachable (self : string) (es : list event) :
  Forall event_ok es →
  let m := run (new self) es in
  peers m !! self_id m = None ∧ zsize (peers m) ≤ MAX_PEERS ∧
  ∀ n p w, peers m !! n = Some p → replay p = Some w → ∃ s, represents w s.
Proof. intros Hes. destruct (members_run_inv _ es (membership_inv_new self) Hes). by split_and!. Qed.

Lemma membership_reachable_witness :
  let m := run (new "self") Samples.trace in
  peers m !! self_id m = None ∧ zsize (peers m) ≤ MAX_PEERS ∧
  ∀ n p w, peers m !! n = Some p → replay p = Some w → ∃ s, represents w s.
Proof. apply (membership_reachable "self" Samples.trace). by repeat constructor. Defined.

(** [expire] drops exactly the peers silent for longer than the timeout,
    keeps the others unchanged, and returns the dropped ids in order, once
    each. *)
Theorem expire_exact (m : Membership) (now timeout : Z) :
  let (m', dropped) := expire m now timeout in
  (∀ n, n ∈ dropped ↔ ∃ p, peers m !! n = Some p ∧ timeout < since now (peer_last_seen p)) ∧
  Sorted String.le dropped ∧ NoDup dropped ∧
  (∀ n, peers m' !! n = if decide (n ∈ dropped) then None else peers m !! n).
Proof.
  unfold expire. destruct (remove_where _ _) as [m' dropped] eqn:E.
  pose proof (elem_of_dropped m (λ p, timeout <? since now (peer_last_seen p))) as Hd.
  rewrite E in Hd. unfold remove_where in E. injection E as <- Hdr.
  split_and!.
  - intros n. rewrite Hd. by setoid_rewrite Z.ltb_lt.
  - rewrite <-Hdr. apply Sorted_sort_strings.
  - rewrite <-Hdr. apply NoDup_sort_strings, NoDup_fmap_fst.
    + intros k p q Hp Hq. apply list_elem_of_In, List.filter_In in Hp as [Hp _].
      apply list_elem_of_In, List.filter_In in Hq as [Hq _].
      rewrite <-list_elem_of_In, elem_of_map_to_list in Hp, Hq. congruence.
    + apply NoDup_ListNoDup, List.NoDup_filter, NoDup_ListNoDup, NoDup_map_to_list.
  - intros n. simpl. rewrite Hdr. apply lookup_delete_all.
Qed.
