(* ===== verification/Relay.v ===== *)
(** * The relay control plane

    [src/src/consensus/mod.rs] and [src/src/consensus/transport.rs]: decoding
    signed Raft envelopes, the admission gate, the reaction to network events,
    and the table of running instances. The Raft driver itself is a library:
    the model records the calls made to it and takes its [role()] and
    [leader_hint()] as inputs. *)
From S2P Require Import Prelude Json Wire ReplayCache PeerAuth Membership.

Inductive Plane := StreamRelay | Nostr.
#[global] Instance Plane_eq_dec : EqDecision Plane.
Proof. solve_decision. Defined.

Definition raft_tag (p : Plane) : string :=
  match p with StreamRelay => "mistl-raft-v2" | Nostr => "mistl-nostr-raft-v1" end.
Definition hello_tag (p : Plane) : string :=
  match p with StreamRelay => "mistl-relay-hello-v2" | Nostr => "mistl-nostr-hello-v1" end.

Definition MAX_RAFT_BYTES : Z := 16 * 1024.

(** The driver's [Role], and this module's [ConsensusRole]. *)
Inductive Role := RLeader | RFollower | RCandidate.
Inductive ConsensusRole := Leader | Follower | Candidate | Unknown.
#[global] Instance ConsensusRole_eq_dec : EqDecision ConsensusRole.
Proof. solve_decision. Defined.

Definition role_of (r : option Role) : ConsensusRole :=
  match r with
  | Some RLeader => Leader
  | Some RFollower => Follower
  | Some RCandidate => Candidate
  | None => Unknown
  end.

Record ConsensusView := { v_role : ConsensusRole; v_leader : option string; v_peers : list string }.
#[global] Instance ConsensusView_eq_dec : EqDecision ConsensusView.
Proof. solve_decision. Defined.

Section relay.
Context {C : Crypto}.

(** What the transport uses of other crates: JSON parsing, standard base64,
    bincode, the driver's message type and the sender id it carries. *)
Context (parse_json : string → option json) (b64_decode : string → option string).
Context {RaftMessage : Type} (bincode_deserialize : string → option RaftMessage).
Context (embedded_sender : RaftMessage → string).

Record SignedRaft := {
  sr_msg : RaftMessage; sr_did : string; sr_boot : Z; sr_seq : Z; sr_ts_ms : Z;
}.

Inductive WireMessage :=
| WRaft (signed : SignedRaft)
| WHello (proof : DidProof).

Definition guard (b : bool) : option () := if b then Some tt else None.

Definition decode_raft (value : json) (room from : string) (now_ms : Z) : option SignedRaft :=
  r ← get_str "room" value;
  _ ← guard (bool_decide (r = room));
  node ← get_str "node" value;
  _ ← guard (bool_decide (node = from));
  did ← get_str "fromId" value;
  _ ← guard ((slen did =? ED25519_DID_KEY_LEN) && bool_decide (node_id_for_did did = from));
  ts_ms ← get_u64 "ts" value;
  _ ← guard (Z.abs (ts_ms - now_ms) <=? MAX_CLOCK_SKEW_MS);
  boot_text ← get_str "boot" value;
  boot ← parse_uint U64_MAX boot_text;
  seq_text ← get_str "seq" value;
  seq ← parse_uint U64_MAX seq_text;
  payload_b64 ← get_str "payload" value;
  _ ← guard (wire_ok value);
  payload ← b64_decode payload_b64;
  msg ← bincode_deserialize payload;
  _ ← guard (bool_decide (embedded_sender msg = from));
  Some {| sr_msg := msg; sr_did := did; sr_boot := boot; sr_seq := seq; sr_ts_ms := ts_ms |}.

Definition decode (plane : Plane) (data room from : string) (now_ms : Z) : option WireMessage :=
  if MAX_RAFT_BYTES <? slen data then None else
  value ← parse_json data;
  tag ← get_str "t" value;
  if bool_decide (tag = raft_tag plane) then WRaft <$> decode_raft value room from now_ms
  else if bool_decide (tag = hello_tag plane) then
    match check_proof_value value tag room from now_ms with
    | Ok proof => Some (WHello proof)
    | Err _ => None
    end
  else None.

Inductive Inbound :=
| Deliver (msg : RaftMessage)
| NewPeer
| Nothing.

(** [accept_proof] updates the process-wide proof registry. *)
Definition gate_inbound (m : Membership) (reg : Registry) (msg : WireMessage) (from : string) (now : Z)
    (admitted : string → bool) (accept_proof : Registry → DidProof → Registry * bool)
    : Membership * Registry * Inbound :=
  match msg with
  | WRaft signed =>
      if admitted (sr_did signed) then
        let '(m, ok) := accept_raft m from (sr_did signed) (sr_boot signed) (sr_seq signed) (sr_ts_ms signed) in
        (m, reg, if ok then Deliver (sr_msg signed) else Nothing)
      else (m, reg, Nothing)
  | WHello proof =>
      if negb (admitted (proof_did proof)) then (m, reg, Nothing) else
      let '(reg, accepted) := accept_proof reg proof in
      if negb accepted then (m, reg, Nothing) else
      let '(m, is_new) := record_hello m from (proof_did proof) now in
      (m, reg, if is_new then NewPeer else Nothing)
  end.

(** ** One running instance *)

Inductive raft_call :=
| CallDeliver (from : string) (msg : RaftMessage)
| CallAddPeer (id : string)
| CallRemovePeer (id : string).

Record Relay := {
  plane : Plane;
  room : string;
  membership : Membership;
  calls : list raft_call;
  view : ConsensusView;
  notifications : Z;
}.

(** The driver's answers at the time of a call. *)
Record driver := { d_role : option Role; d_leader_hint : option string }.

Definition with_membership (c : Relay) (m : Membership) : Relay :=
  {| plane := plane c; room := room c; membership := m; calls := calls c; view := view c;
     notifications := notifications c |}.
Definition call (c : Relay) (l : list raft_call) : Relay :=
  {| plane := plane c; room := room c; membership := membership c; calls := calls c ++ l;
     view := view c; notifications := notifications c |}.

Definition is_verified_leader (c : Relay) (admitted : string → bool) (node : string) : bool :=
  bool_decide (node = self_id (membership c)) || is_some_and admitted (did_of (membership c) node).

Definition leader (c : Relay) (admitted : string → bool) (d : driver) : option string :=
  match d_leader_hint d with
  | Some id => if is_verified_leader c admitted id then Some id else None
  | None => None
  end.

Definition publish_view (c : Relay) (admitted : string → bool) (d : driver) : Relay :=
  let v := {| v_role := role_of (d_role d); v_leader := leader c admitted d;
              v_peers := peers_with_self (membership c) |} in
  if bool_decide (view c = v) then c else
  {| plane := plane c; room := room c; membership := membership c; calls := calls c;
     view := v; notifications := notifications c + 1 |}.

Inductive net_event :=
| EvRaw (data : string)
| EvPeerDisconnected
| EvOther.

(** The clocks and driver answers one handler call observes. *)
Record moment := { now : Z; now_ms : Z; drv : driver }.

Definition accept_proof_in (room : string) (t : Z) (reg : Registry) (proof : DidProof) : Registry * bool :=
  let '(reg, r) := accept reg room proof t in (reg, is_ok r).

Definition on_net_event (c : Relay) (reg : Registry) (allow : option (list string)) (ev : net_event)
    (ev_room from : string) (at_ : moment) : Relay * Registry :=
  match ev with
  | EvRaw data =>
      match decode (plane c) data ev_room from (now_ms at_) with
      | None => (c, reg)
      | Some msg =>
          let '(m, reg, inbound) := gate_inbound (membership c) reg msg from (now at_) (admits allow)
                                      (accept_proof_in ev_room (now at_)) in
          let c := with_membership c m in
          match inbound with
          | Deliver msg => (call c [CallDeliver from msg], reg)
          | NewPeer => (publish_view (call c [CallAddPeer from]) (admits allow) (drv at_), reg)
          | Nothing => (c, reg)
          end
      end
  | EvPeerDisconnected =>
      let '(m, was_known) := Membership.remove (membership c) from in
      let c := with_membership c m in
      if was_known then (publish_view (call c [CallRemovePeer from]) (admits allow) (drv at_), reg)
      else (c, reg)
  | EvOther => (c, reg)
  end.

Definition expire_stale_peers (c : Relay) (allow : option (list string)) (at_ : moment) : Relay :=
  let '(m, stale) := expire (membership c) (now at_) PEER_TIMEOUT in
  let '(m, refused) := retain_admitted m (admits allow) in
  let stale := stale ++ refused in
  let c := with_membership c m in
  if bool_decide (stale = []) then c
  else publish_view (call c (map CallRemovePeer stale)) (admits allow) (drv at_).

(** ** The table of instances

    [INSTANCES] and [CURRENT], with a number standing for each [Arc]. *)
Record World := {
  instances : list (Z * Relay);
  current : option Z;
  next_instance : Z;
}.

Definition start_plane (w : World) (self room : string) (plane : Plane) : World :=
  let m := new self in
  let c := {| plane := plane; room := room; membership := m; calls := [];
              view := {| v_role := Unknown; v_leader := None; v_peers := peers_with_self m |};
              notifications := 0 |} in
  let i := next_instance w in
  {| instances := instances w ++ [(i, c)];
     current := if bool_decide (plane = StreamRelay) then Some i else current w;
     next_instance := i + 1 |}.

Definition shutdown (w : World) (i : Z) : World :=
  {| instances := List.filter (λ e, negb (e.1 =? i)) (instances w);
     current := match current w with
                | Some j => if j =? i then None else Some j
                | None => None
                end;
     next_instance := next_instance w |}.

(** The shared handler: every instance of the room the event arrived in. *)
Fixpoint dispatch (l : list (Z * Relay)) (reg : Registry) (allow : option (list string))
    (ev : net_event) (ev_room from : string) (at_ : moment) : list (Z * Relay) * Registry :=
  match l with
  | [] => ([], reg)
  | (i, c) :: l =>
      let '(c, reg) := if bool_decide (room c = ev_room)
                       then on_net_event c reg allow ev ev_room from at_ else (c, reg) in
      let '(l, reg) := dispatch l reg allow ev ev_room from at_ in
      ((i, c) :: l, reg)
  end.

(** ** Lemmas *)

(** The peers the driver knows after a sequence of calls. *)
Definition apply_call (s : gset string) (k : raft_call) : gset string :=
  match k with
  | CallDeliver _ _ => s
  | CallAddPeer id => {[id]} ∪ s
  | CallRemovePeer id => s ∖ {[id]}
  end.
Definition driver_peers (l : list raft_call) : gset string := foldl apply_call ∅ l.

Lemma driver_peers_app l k : driver_peers (l ++ k) = foldl apply_call (driver_peers l) k.
Proof. apply foldl_app. Qed.

Lemma driver_peers_removes l s :
  foldl apply_call s (map CallRemovePeer l) = s ∖ list_to_set l.
Proof.
  revert s. induction l as [|x l IH]; intros s; simpl; [set_solver|]. rewrite IH. set_solver.
Qed.

Record relay_inv (c : Relay) : Prop := {
  rel_driver : driver_peers (calls c) = dom (peers (membership c));
  rel_view : v_peers (view c) = peers_with_self (membership c);
}.

Lemma publish_membership c f d : membership (publish_view c f d) = membership c.
Proof. unfold publish_view. by case_if. Qed.
Lemma publish_calls c f d : calls (publish_view c f d) = calls c.
Proof. unfold publish_view. by case_if. Qed.
Lemma publish_peers c f d : v_peers (view (publish_view c f d)) = peers_with_self (membership c).
Proof. unfold publish_view. case_bool_decide as H; [by rewrite H|done]. Qed.

Lemma publish_inv c f d :
  driver_peers (calls c) = dom (peers (membership c)) → relay_inv (publish_view c f d).
Proof. intros H. split; rewrite ?publish_calls, ?publish_membership, ?publish_peers; done. Qed.

Lemma peers_with_self_ext m m' :
  self_id m' = self_id m → dom (peers m') = dom (peers m) → peers_with_self m' = peers_with_self m.
Proof. unfold peers_with_self. by intros -> ->. Qed.

Lemma self_id_record_hello m n d t : self_id (record_hello m n d t).1 = self_id m.
Proof. unfold record_hello. by repeat (case_match; simpl). Qed.
Lemma self_id_accept_raft m n d b s t : self_id (accept_raft m n d b s t).1 = self_id m.
Proof. unfold accept_raft. by repeat (case_match; simpl). Qed.

Lemma dom_record_hello m n d t :
  dom (peers (record_hello m n d t).1) =
    if (record_hello m n d t).2 then {[n]} ∪ dom (peers m) else dom (peers m).
Proof.
  unfold record_hello. case_bool_decide; [done|].
  destruct (peers m !! n) as [p|] eqn:Hp; case_if; simpl; try done; rewrite dom_insert_L; [|done].
  apply elem_of_dom_2 in Hp. set_solver.
Qed.

Lemma dom_accept_raft m n d b s t : dom (peers (accept_raft m n d b s t).1) = dom (peers m).
Proof.
  unfold accept_raft. destruct (peers m !! n) as [p|] eqn:Hp; [|done].
  apply elem_of_dom_2 in Hp. case_if; [done|].
  destruct (replay p); [destruct (window_accept _ _ _ _)|]; simpl; rewrite dom_insert_L; set_solver.
Qed.

Lemma dom_remove_where m f :
  dom (peers (remove_where m f).1) = dom (peers m) ∖ list_to_set (remove_where m f).2.
Proof.
  apply set_eq. intros n. rewrite elem_of_difference, !elem_of_dom, lookup_remove_where.
  rewrite elem_of_list_to_set, elem_of_dropped.
  destruct (peers m !! n) as [p|]; [|naive_solver].
  destruct (f p) eqn:E; split; [by intros []|intros [_ []]; eauto|intros _|by eauto].
  split; [by eexists|]. naive_solver congruence.
Qed.

Lemma relay_inv_same c m :
  relay_inv c → self_id m = self_id (membership c) → dom (peers m) = dom (peers (membership c)) →
  relay_inv (with_membership c m).
Proof.
  intros [Hd Hv] Hs Hdom. split; simpl; [congruence|].
  rewrite Hv. symmetry. by apply peers_with_self_ext.
Qed.

Lemma on_net_event_inv c reg allow ev r from at_ :
  relay_inv c → relay_inv (on_net_event c reg allow ev r from at_).1.
Proof.
  intros Hinv. destruct ev as [data| |]; simpl; [| |done].
  - destruct (decode _ _ _ _ _) as [msg|]; [|done].
    unfold gate_inbound. destruct msg as [signed|proof].
    + case_if; [|by apply relay_inv_same].
      pose proof (self_id_accept_raft (membership c) from (sr_did signed) (sr_boot signed) (sr_seq signed) (sr_ts_ms signed)) as Hs.
      pose proof (dom_accept_raft (membership c) from (sr_did signed) (sr_boot signed) (sr_seq signed) (sr_ts_ms signed)) as Hd.
      destruct (accept_raft _ _ _ _ _ _) as [m ok]. simpl in *.
      pose proof (relay_inv_same c m Hinv Hs Hd) as [Hd' Hv']. destruct ok; simpl; [|by split].
      split; simpl; [|done]. rewrite driver_peers_app. done.
    + case_if; [by apply relay_inv_same|].
      destruct (accept_proof_in _ _ _ _) as [reg' acc]. case_if; [by apply relay_inv_same|].
      pose proof (self_id_record_hello (membership c) from (proof_did proof) (now at_)) as Hs.
      pose proof (dom_record_hello (membership c) from (proof_did proof) (now at_)) as Hd.
      destruct (record_hello _ _ _ _) as [m is_new]. simpl in *.
      destruct is_new; simpl; [|by apply relay_inv_same].
      apply publish_inv. simpl. rewrite driver_peers_app, Hd. simpl. by rewrite (rel_driver c Hinv).
  - destruct (peers (membership c) !! from) as [p|] eqn:Hp; simpl.
    + apply publish_inv. simpl. rewrite driver_peers_app. simpl.
      by rewrite (rel_driver c Hinv), dom_delete_L.
    + apply relay_inv_same; simpl; [done|done|]. rewrite dom_delete_L.
      apply not_elem_of_dom in Hp. set_solver.
Qed.

Lemma expire_stale_inv c allow at_ : relay_inv c → relay_inv (expire_stale_peers c allow at_).
Proof.
  intros Hinv. unfold expire_stale_peers, expire, retain_admitted.
  pose proof (dom_remove_where (membership c) (λ p, PEER_TIMEOUT <? since (now at_) (peer_last_seen p))) as H1.
  assert (Hs1 : self_id (remove_where (membership c) (λ p, PEER_TIMEOUT <? since (now at_) (peer_last_seen p))).1
                = self_id (membership c)) by done.
  destruct (remove_where (membership c) _) as [m1 stale]. cbn [fst snd] in *.
  pose proof (dom_remove_where m1 (λ p, negb (admits allow (peer_did p)))) as H2.
  assert (Hs2 : self_id (remove_where m1 (λ p, negb (admits allow (peer_did p)))).1 = self_id m1) by done.
  destruct (remove_where m1 _) as [m2 refused]. cbn [fst snd] in *.
  case_bool_decide as Hnil.
  - apply app_nil in Hnil as [-> ->]. apply relay_inv_same; [done|congruence|].
    rewrite H2, H1. set_solver.
  - apply publish_inv. simpl. rewrite driver_peers_app, driver_peers_removes, (rel_driver c Hinv).
    rewrite H2, H1. set_solver.
Qed.

(** ** Runs of one instance *)

(** The proof registry is shared with the other services of the process, so
    each event may find it in any state. *)
Inductive relay_event :=
| RNet (reg : Registry) (allow : option (list string)) (ev : net_event) (ev_room from : string) (at_ : moment)
| RExpire (allow : option (list string)) (at_ : moment)
| RPoll (allow : option (list string)) (d : driver).

Definition relay_step (c : Relay) (e : relay_event) : Relay :=
  match e with
  | RNet reg allow ev r from at_ => (on_net_event c reg allow ev r from at_).1
  | RExpire allow at_ => expire_stale_peers c allow at_
  | RPoll allow d => publish_view c (admits allow) d
  end.

Definition started (self room : string) (plane : Plane) : Relay :=
  {| plane := plane; room := room; membership := new self; calls := [];
     view := {| v_role := Unknown; v_leader := None; v_peers := peers_with_self (new self) |};
     notifications := 0 |}.

Lemma started_inv self room plane : relay_inv (started self room plane).
Proof. by split. Qed.

Lemma relay_steps_inv c es : relay_inv c → relay_inv (foldl relay_step c es).
Proof.
  revert c. induction es as [|e es IH]; intros c Hinv; simpl; [done|]. apply IH.
  destruct e; simpl; [by apply on_net_event_inv|by apply expire_stale_inv|].
  apply publish_inv, Hinv.
Qed.

(** The table keeps one entry per number, and [CURRENT] names a running
    stream-relay instance. *)
Record world_inv (w : World) : Prop := {
  world_ids : NoDup (instances w).*1;
  world_next i c : (i, c) ∈ instances w → i < next_instance w;
  world_current i : current w = Some i → ∃ c, (i, c) ∈ instances w ∧ plane c = StreamRelay;
}.

Lemma dispatch_ids l reg allow ev r from at_ :
  (dispatch l reg allow ev r from at_).1.*1 = l.*1.
Proof.
  revert reg. induction l as [|[i c] l IH]; intros reg; simpl; [done|].
  destruct (if bool_decide _ then _ else _) as [c' reg'].
  specialize (IH reg'). destruct (dispatch l reg' allow ev r from at_) as [l' reg''].
  simpl in *. by f_equal.
Qed.

Lemma on_net_event_plane c reg allow ev r from at_ :
  plane (on_net_event c reg allow ev r from at_).1 = plane c.
Proof.
  assert (Hp : ∀ c f d, plane (publish_view c f d) = plane c)
    by (intros; unfold publish_view; by case_if).
  destruct ev; simpl; [|destruct (is_some _); simpl; by rewrite ?Hp|done].
  destruct (decode _ _ _ _ _); [|done]. destruct (gate_inbound _ _ _ _ _ _ _) as [[m reg'] []];
    simpl; by rewrite ?Hp.
Qed.

Lemma dispatch_plane l reg allow ev r from at_ i c :
  (i, c) ∈ l → ∃ c', (i, c') ∈ (dispatch l reg allow ev r from at_).1 ∧ plane c' = plane c.
Proof.
  revert reg. induction l as [|[j d] l IH]; intros reg; [set_solver|]. simpl.
  destruct (if bool_decide _ then _ else _) as [d' reg'] eqn:Hd.
  specialize (IH reg'). destruct (dispatch l reg' allow ev r from at_) as [l' reg''].
  simpl in *. intros [[= -> ->]|Hin]%elem_of_cons.
  - exists d'. split; [left|]. case_bool_decide; simplify_eq; [|done].
    pose proof (on_net_event_plane d reg allow ev (room d) from at_) as Hp. by rewrite Hd in Hp.
  - destruct (IH Hin) as (c' & ? & ?). exists c'. set_solver.
Qed.

Inductive world_event :=
| WStart (self room : string) (plane : Plane)
| WShutdown (i : Z)
| WNet (reg : Registry) (allow : option (list string)) (ev : net_event) (ev_room from : string) (at_ : moment).

Definition world_step (w : World) (e : world_event) : World :=
  match e with
  | WStart self room plane => start_plane w self room plane
  | WShutdown i => shutdown w i
  | WNet reg allow ev r from at_ =>
      {| instances := (dispatch (instances w) reg allow ev r from at_).1; current := current w;
         next_instance := next_instance w |}
  end.

Definition no_instances : World := {| instances := []; current := None; next_instance := 0 |}.

Lemma world_step_inv w e : world_inv w → world_inv (world_step w e).
Proof.
  intros [Hids Hnext Hcur]. destruct e as [self r p|i|reg allow ev r from at_]; simpl.
  - split; simpl.
    + rewrite fmap_app. apply NoDup_app. split_and!; [done| |apply NoDup_singleton].
      intros j ([j' c] & Hj & Hin)%list_elem_of_fmap Hj'%list_elem_of_singleton.
      simpl in *. subst. apply Hnext in Hin. lia.
    + intros j c [Hin%Hnext|[= -> _]%list_elem_of_singleton]%elem_of_app; lia.
    + intros j. case_bool_decide as Hp.
      * intros [= <-]. eexists. split; [apply elem_of_app; right; by left|done].
      * intros (c & Hin & Hc)%Hcur. exists c. split; [set_solver|done].
  - split; simpl.
    + by apply NoDup_fst_filter.
    + intros j c Hin. eapply Hnext.
      apply list_elem_of_In, List.filter_In in Hin as [Hin _]. by apply list_elem_of_In.
    + intros j. destruct (current w) as [k|] eqn:Hk; [|done].
      destruct (Z.eqb_spec k i); [done|]. intros [= <-].
      destruct (Hcur k eq_refl) as (c & Hin & Hc). exists c. split; [|done].
      apply list_elem_of_In, List.filter_In. split; [by apply list_elem_of_In|].
      simpl. apply negb_true_iff. by apply Z.eqb_neq.
  - split; simpl.
    + by rewrite dispatch_ids.
    + intros j c Hin. assert (j ∈ (instances w).*1) as ([j' c'] & -> & Hin')%list_elem_of_fmap.
      { rewrite <-(dispatch_ids _ reg allow ev r from at_). apply list_elem_of_fmap.
        by exists (j, c). }
      by eapply Hnext.
    + intros j (c & Hin & Hc)%Hcur.
      destruct (dispatch_plane _ reg allow ev r from at_ _ _ Hin) as (c' & ? & ?).
      exists c'. split; [done|congruence].
Qed.

(** ** Properties *)

(** The Raft driver's peer set mirrors the membership. However network
    events, expiries, allowlist changes and polls interleave, the peers added
    to and removed from the driver are exactly the verified members, this node
    is never one of them, and the published view lists the current members. *)
Theorem driver_mirrors_membership (self room : string) (plane : Plane) (es : list relay_event) :
  let c := foldl relay_step (started self room plane) es in
  driver_peers (calls c) = dom (peers (membership c)) ∧
  v_peers (view c) = peers_with_self (membership c).
Proof. destruct (relay_steps_inv _ es (started_inv self room plane)). done. Qed.

(** C9: only a verified member speaks to Raft. Whatever bytes arrive, a message
    reaches the driver only if it is signed by a DID that hashes to the
    transport sender, names that sender inside the RPC, is fresh, passes the
    allowlist, and the sender is a member under that same DID. *)
Theorem delivered_only_from_members (c : Relay) (reg : Registry) (allow : option (list string))
    (ev : net_event) (r from : string) (at_ : moment) (f : string) (msg : RaftMessage) :
  calls (on_net_event c reg allow ev r from at_).1 = calls c ++ [CallDeliver f msg] →
  f = from ∧ embedded_sender msg = from ∧
  ∃ data value did ts,
    ev = EvRaw data ∧ parse_json data = Some value ∧ wire_ok value = true ∧
    get_str "fromId" value = Some did ∧ node_id_for_did did = from ∧
    get_str "room" value = Some r ∧ get_u64 "ts" value = Some ts ∧
    Z.abs (ts - now_ms at_) ≤ MAX_CLOCK_SKEW_MS ∧
    admits allow did = true ∧ did_of (membership c) from = Some did.
Proof.
  assert (Hne : ∀ (l : list raft_call) x, l = l ++ [x] → False).
  { intros l x H. apply (f_equal length) in H. rewrite length_app in H. simpl in H. lia. }
  destruct ev as [data| |]; simpl; [| |by intros ?%Hne].
  2:{ destruct (is_some _); simpl; rewrite ?publish_calls; simpl; [|by intros ?%Hne].
      intros [_ H]%app_inj_2; done. }
  destruct (decode _ _ _ _ _) as [w|] eqn:Hdec; [|by intros ?%Hne].
  destruct (gate_inbound _ _ _ _ _ _ _) as [[m reg'] inb] eqn:Hg.
  destruct inb as [msg'| |]; simpl; [| |by intros ?%Hne].
  2:{ rewrite publish_calls. simpl. intros [_ H]%app_inj_2; done. }
  intros [_ [= <- <-]]%app_inj_2; [|done].
  destruct w as [signed|proof]; simpl in Hg; [|repeat case_match; simplify_eq].
  destruct (admits allow (sr_did signed)) eqn:Hadm; [|done].
  destruct (accept_raft _ _ _ _ _ _) as [m' ok] eqn:Hacc. destruct ok; [|done]. simplify_eq.
  unfold decode in Hdec. case_if; [done|].
  apply bind_Some in Hdec as (value & Hval & Hdec). apply bind_Some in Hdec as (tag & _ & Hdec).
  case_bool_decide; [|repeat case_match; done].
  apply fmap_Some in Hdec as (s & Hs & [= ->]). unfold decode_raft, guard in Hs.
  repeat (apply bind_Some in Hs as (? & ? & Hs)). injection Hs as <-. simpl in *.
  repeat match goal with H : (if ?b then Some tt else None) = Some _ |- _ =>
    let E := fresh in destruct b eqn:E; [clear H|done] end. bools. subst.
  split_and!; [done|done|]. eexists data, value, _, _. split_and!; try done.
  unfold accept_raft in Hacc. unfold did_of. destruct (peers (membership c) !! _) as [p|]; [|done].
  case_if; [done|]. bools. by subst.
Qed.

(** [consensus.status] never reports a stopped instance. Through starts,
    shutdowns and network events, [CURRENT] always names an instance of the
    table on the stream-relay plane, and no number is listed twice. *)
Theorem current_is_running (es : list world_event) :
  let w := foldl world_step no_instances es in
  NoDup (instances w).*1 ∧
  ∀ i, current w = Some i → ∃ c, (i, c) ∈ instances w ∧ plane c = StreamRelay.
Proof.
  assert (H : world_inv (foldl world_step no_instances es)).
  { assert (H0 : world_inv no_instances) by (split; simpl; [constructor|set_solver|done]).
    revert H0. generalize no_instances. induction es as [|e es IH]; intros w Hw; simpl; [done|].
    by apply IH, world_step_inv. }
  by destruct H.
Qed.

End relay.

(** ** Concrete inputs *)

Module Samples.
Import Wire.Toy.

Definition me : string := node_id bob.
Definition peer : string := node_id alice.

Definition hello : json :=
  signed alice [("t", JString "mistl-relay-hello-v2"); ("room", JString "r");
                ("node", JString peer); ("ts", JNumber (PosInt 500)); ("nonce", JString "n1")].
Definition rpc : json :=
  signed alice [("t", JString "mistl-raft-v2"); ("room", JString "r"); ("node", JString peer);
                ("ts", JNumber (PosInt 600)); ("boot", JString "7"); ("seq", JString "1");
                ("payload", JString peer)].

Definition parse (s : string) : option json := assoc s [("hello", hello); ("rpc", rpc)].
Definition at_ (t : Z) : moment :=
  {| now := t; now_ms := t; drv := {| d_role := Some RFollower; d_leader_hint := Some peer |} |}.

Abbreviation relay := (@Relay string).

Definition handle (c : relay) (data : string) (t : Z) : relay :=
  (on_net_event parse Some Some (λ m : string, m) c empty_registry None (EvRaw data) "r" peer (at_ t)).1.

Definition idle : relay := started me "r" StreamRelay.
Definition joined : relay := handle idle "hello" 500.

Example hello_then_rpc :
  calls (handle joined "rpc" 600) = [CallAddPeer peer; CallDeliver peer peer] ∧
  v_leader (view joined) = Some peer ∧
  calls (handle idle "rpc" 600) = [].
Proof. by vm_compute. Qed.
End Samples.

Lemma delivered_only_from_members_witness :
  ∃ did, admits None did = true ∧ did_of (membership Samples.joined) Samples.peer = Some did.
Proof.
  destruct (delivered_only_from_members Samples.parse Some Some (λ m : string, m)
              Samples.joined empty_registry None (EvRaw "rpc") "r" Samples.peer (Samples.at_ 600)
              Samples.peer Samples.peer)
    as (_ & _ & data & value & did & ts & _ & _ & _ & _ & _ & _ & _ & _ & Hadm & Hdid).
  - by vm_compute.
  - by exists did.
Defined.
