(* ===== verification/EscrowProtocol.v ===== *)
(** * Escrow heads

    [src/src/escrow/protocol.rs]: the signed head of a slot, deletion requests,
    error replies and the compare-and-swap rule. *)
From S2P Require Import Prelude Json Wire.

(** Library code the protocol calls: CID validation, strict Ed25519
    verification and the compact JSON text of [serde_json::to_vec]. *)
Class EscrowEnv := {
  is_valid_cid : string → bool;
  verify_strict : string → string → string → bool;
  json_text : json → string;
}.

(** Letters, digits and underscores need no escape in JSON text. *)
Definition is_plain (c : ascii) : bool :=
  is_ascii_digit c || is_ascii_alphabetic c || bool_decide (c = "_"%char).

(** [serde_json]'s compact text: no white space between tokens. *)
Class EscrowLaws {C : Crypto} (E : EscrowEnv) := {
  json_text_object l :
    slen (json_text (JObject l)) = 1 + Z.max 1 (foldr (λ f acc,
      slen (json_text (JString f.1)) + 1 + slen (json_text f.2) + 1 + acc) 0 l);
  json_text_plain s : string_forallb is_plain s = true → slen (json_text (JString s)) = slen s + 2;
  json_text_bool b : slen (json_text (JBool b)) ≤ 5;
}.

Definition MAX_SAFE : Z := 9007199254740991.

Record Head := {
  version : Z; kind : string; slot : string; seq : Z; parent : option string; cid : string;
  blob_size : Z; sha256_hex : string; comp : string; schema : string; writer : string;
  at_ : Z; sig : string;
}.

#[global] Instance Head_eq_dec : EqDecision Head.
Proof. solve_decision. Defined.

Record Error := { code : string; error_head : option Head }.

Definition error (code : string) : Error := {| code := code; error_head := None |}.
Definition conflict (head : Head) : Error := {| code := "conflict"; error_head := Some head |}.

Definition hex_string (value : string) (len : Z) : bool :=
  (slen value =? len) && string_forallb is_lower_hexdigit value.

Definition num (n : Z) : json := JNumber (PosInt n).

(** [serde_json::to_value(head)]; [kind] and the hash are renamed as on the wire. *)
Definition head_json (h : Head) : json :=
  obj [("v", num (version h)); ("type", JString (kind h)); ("slot", JString (slot h));
       ("seq", num (seq h));
       ("parent", match parent h with Some p => JString p | None => JNull end);
       ("cid", JString (cid h)); ("size", num (blob_size h)); ("sha256", JString (sha256_hex h));
       ("comp", JString (comp h)); ("schema", JString (schema h));
       ("writer", JString (writer h)); ("at", num (at_ h)); ("sig", JString (sig h))].

Section protocol.
Context {C : Crypto} {E : EscrowEnv}.

Definition digest (bytes : string) : string := hex_encode (sha256 bytes).

Definition validate_head (h : Head) (max_blob : Z) : result () Error :=
  if negb (version h =? 1)
     || negb (bool_decide (kind h = "tc-escrow-head"))
     || negb (hex_string (slot h) 32)
     || (seq h =? 0)
     || (MAX_SAFE <? seq h)
     || (MAX_SAFE <? at_ h)
     || is_some_and (λ p, negb (hex_string p 64)) (parent h)
     || negb (is_valid_cid (cid h))
     || negb (hex_string (sha256_hex h) 64)
     || negb (contains ["none"; "gzip"] (comp h))
     || bool_decide (schema h = EmptyString)
     || (256 <? slen (schema h))
     || negb (slen (writer h) =? 43)
     || negb (slen (sig h) =? 86)
  then Err (error "bad_request")
  else if max_blob <? blob_size h then Err (error "too_large")
  else Ok tt.

Definition head_signing_payload (h : Head) : string :=
  "tc-escrow/v1/head" +:+ String "010"%char EmptyString +:+
  stable_stringify (match head_json h with
                    | JObject fields => JObject (obj_remove "sig" fields)
                    | other => other
                    end).

Definition hash (h : Head) : string := digest (stable_stringify (head_json h)).

(** The checks [Head::verify] and [Delete::verify] share, up to the error code. *)
Definition verify_ed (writer payload sig code : string) : result () Error :=
  let? key := ok_or (match b64url_decode writer with
                     | Some k => if slen k =? 32 then Some k else None
                     | None => None
                     end) (error code) in
  let? sig := ok_or (match b64url_decode sig with
                     | Some s => if signature_try_from s then Some s else None
                     | None => None
                     end) (error code) in
  if key_from_bytes key && verify_strict key payload sig then Ok tt else Err (error code).

Definition verify_head (h : Head) : result () Error :=
  verify_ed (writer h) (head_signing_payload h) (sig h) "bad_sig".

Definition ack (h : Head) (id : string) : json :=
  obj [("v", num 1); ("type", JString "escrow_ack"); ("id", JString id);
       ("slot", JString (slot h)); ("seq", num (seq h)); ("hash", JString (hash h))].

Record Delete := { d_slot : string; d_seq : Z; d_head : string; d_sig : string }.

Definition validate_delete (d : Delete) : result () Error :=
  if negb (hex_string (d_slot d) 32) || (d_seq d =? 0) || (MAX_SAFE <? d_seq d)
     || negb (hex_string (d_head d) 64) || negb (slen (d_sig d) =? 86)
  then Err (error "bad_request") else Ok tt.

Definition delete_signing_payload (d : Delete) : string :=
  "tc-escrow/v1/delete" +:+ String "010"%char EmptyString +:+
  stable_stringify (obj [("slot", JString (d_slot d)); ("seq", num (d_seq d)); ("head", JString (d_head d))]).

Definition verify_delete (d : Delete) (writer : string) : result () Error :=
  verify_ed writer (delete_signing_payload d) (d_sig d) "bad_signature".

Definition delete_reply (d : Delete) (id : string) : json :=
  obj [("v", num 1); ("type", JString "escrow_deleted"); ("id", JString id); ("slot", JString (d_slot d))].

Definition error_reply (e : Error) (id : string) : json :=
  let fields := [("v", num 1); ("type", JString "escrow_error"); ("id", JString id);
                 ("code", JString (code e)); ("message", JString (code e))] in
  if contains ["conflict"; "deleted"] (code e)
  then obj (fields ++ [("head", match error_head e with Some h => head_json h | None => JNull end)])
  else obj fields.

(** [Ok true] for a repeated PUT of the current head. *)
Definition check_cas (head : Head) (current : option Head) : result bool Error :=
  match current with
  | Some current =>
      if negb (bool_decide (writer head = writer current)) then Err (error "writer_mismatch") else
      if bool_decide (head = current) then Ok true else
      if negb (bool_decide (parent head = Some (hash current))) || negb (seq head =? seq current + 1)
      then Err (conflict current) else Ok false
  | None => if is_some (parent head) then Err (error "conflict") else Ok false
  end.

(** [head] continues [h]: same writer, next number, linked by hash. *)
Definition continues (h head : Head) : Prop :=
  writer head = writer h ∧ seq head = seq h + 1 ∧ parent head = Some (hash h).

Lemma check_cas_new head cur :
  check_cas head (Some cur) = Ok false → continues cur head ∧ head ≠ cur.
Proof.
  unfold check_cas, continues. intros H. cases_in H. done.
Qed.

Lemma check_cas_first head : check_cas head None = Ok false ↔ parent head = None.
Proof. unfold check_cas, is_some. destruct (parent head); naive_solver. Qed.

Lemma check_cas_same head cur : check_cas head cur = Ok true ↔ cur = Some head.
Proof.
  unfold check_cas, is_some. destruct cur as [cur|].
  - split.
    + intros H. cases_in H; congruence.
    + intros [= ->]. by rewrite !bool_decide_true.
  - destruct (parent head); naive_solver.
Qed.

End protocol.

(** ** A concrete instance *)
Module EscrowToy.
Import Toy.

Fixpoint compact (v : json) : string :=
  match v with
  | JNull => "null"
  | JBool b => if b then "true" else "false"
  | JNumber n => format_number n
  | JString s => json_quote s
  | JArray items => "[" +:+ join "," (map compact items) +:+ "]"
  | JObject fields =>
      "{" +:+ join "," (map (λ f, json_quote f.1 +:+ ":" +:+ compact f.2) fields) +:+ "}"
  end.

#[global] Instance escrow_env : EscrowEnv := {|
  is_valid_cid := λ _, true;
  verify_strict k m s := bool_decide (s = Toy.signature k m);
  json_text := compact;
|}.

Lemma slen_app a b : slen (a +:+ b) = slen a + slen b.
Proof. unfold slen. rewrite append_len. lia. Qed.

Lemma slen_quote s : slen (json_quote s) = slen s + 2.
Proof. cbn [json_quote crypto]. rewrite !slen_app. change (slen quote) with 1. lia. Qed.

Lemma join_len {A} (f : A → string) l :
  slen (join "," (map f l)) = Z.max 1 (foldr (λ x acc, slen (f x) + 1 + acc) 0 l) - 1.
Proof.
  induction l as [|x [|y l] IH]; [done| |].
  - simpl. unfold slen. lia.
  - change (join "," (map f (x :: y :: l))) with (f x +:+ "," +:+ join "," (map f (y :: l))).
    rewrite !slen_app, IH. change (slen ",") with 1. simpl.
    assert (0 ≤ foldr (λ x acc, slen (f x) + 1 + acc) 0 l).
    { clear. induction l as [|x l IH]; simpl; [done|]. pose proof (slen_nonneg (f x)). lia. }
    pose proof (slen_nonneg (f x)). pose proof (slen_nonneg (f y)). lia.
Qed.

#[global] Instance escrow_laws : EscrowLaws escrow_env.
Proof.
  split.
  - intros l. cbn [json_text escrow_env compact]. rewrite !slen_app, join_len.
    change (slen "{") with 1. change (slen "}") with 1.
    enough (foldr (λ (x : string * json) acc, slen (json_quote x.1 +:+ ":" +:+ compact x.2) + 1 + acc) 0 l
      = foldr (λ (f : string * json) acc, slen (json_quote f.1) + 1 + slen (compact f.2) + 1 + acc) 0 l)
      as -> by lia.
    induction l as [|x l IH]; cbn [foldr]; [done|]. rewrite IH, !slen_app. change (slen ":") with 1. lia.
  - intros s _. apply slen_quote.
  - by intros [].
Qed.

Definition writer_key : string := "0123456789abcdef0123456789abcdef".

(** A head of a fixed slot, signed by [writer_key]. *)
Definition signed_head (seq : Z) (parent : option string) : Head :=
  let h sig := {| version := 1; kind := "tc-escrow-head"; slot := "00000000000000000000000000000001";
    seq := seq; parent := parent; cid := "cid"; blob_size := 10;
    sha256_hex := "0000000000000000000000000000000000000000000000000000000000000000";
    comp := "none"; schema := "schema"; writer := b64url_encode writer_key; at_ := 1; sig := sig |} in
  h (b64url_encode (Toy.signature writer_key (head_signing_payload (h EmptyString)))).

Definition first_head : Head := signed_head 1 None.
Definition second_head : Head := signed_head 2 (Some (hash first_head)).

Definition signed_delete (h : Head) : Delete :=
  let d sig := {| d_slot := slot h; d_seq := seq h; d_head := hash h; d_sig := sig |} in
  d (b64url_encode (Toy.signature writer_key (delete_signing_payload (d EmptyString)))).
End EscrowToy.
