(* ===== verification/EscrowState.v ===== *)
(** * The replicated escrow state

    [src/src/escrow/replication/state.rs]: the commands of the room log, their
    validation, and the state machine every replica applies them to. *)
From S2P Require Import Prelude Json Wire EscrowProtocol.

Inductive Command :=
| ReadBarrier (ticket : string)
| Put (ticket : string) (head : Head)
| DeleteSlot (ticket : string) (request : Delete)
| Bootstrap (ticket : string) (heads : list Head)
| BootstrapBegin (ticket : string)
| BootstrapComplete (ticket : string).

Definition ticket (c : Command) : string :=
  match c with
  | ReadBarrier t | Put t _ | DeleteSlot t _ | Bootstrap t _ | BootstrapBegin t
  | BootstrapComplete t => t
  end.

Definition GIB : Z := 1024 * 1024 * 1024.
Definition SNAPSHOT_BYTES : Z := 64 * 1024 * 1024.

Record State := {
  metadata_bytes : Z;
  heads : gmap string Head;
  previous : gmap string Head;
  deleted : gmap string Head;
  migration_started : bool;
  migration_finished : bool;
}.

(** [State::default()] *)
Definition default_state : State := {|
  metadata_bytes := 0; heads := ∅; previous := ∅; deleted := ∅;
  migration_started := false; migration_finished := false;
|}.

Definition migrating (s : State) : bool := migration_started s && negb (migration_finished s).

Definition is_empty (s : State) : bool :=
  bool_decide (heads s = ∅) && bool_decide (deleted s = ∅).

Definition head (s : State) (slot : string) : option Head := heads s !! slot.

Definition slots (s : State) : Z := zsize (heads s).

Definition values {A} (m : gmap string A) : list A := (map_to_list m).*2.

Definition retained_heads (s : State) : list Head := values (heads s) ++ values (previous s).

Definition slot_le (a b : Head) : Prop := String.le (slot a) (slot b).
#[global] Instance slot_le_dec : RelDecision slot_le.
Proof. intros a b. unfold slot_le. apply _. Defined.

Definition current_heads (s : State) : list Head := merge_sort slot_le (values (heads s)).

Definition zsum (l : list Z) : Z := foldr Z.add 0 l.

Definition total_bytes (s : State) : Z := zsum (map blob_size (retained_heads s)).

Section state.
Context {C : Crypto} {E : EscrowEnv}.

(** The bytes of [head] in a snapshot: its JSON text, and 36 for the slot key,
    its quotes, the colon and the comma. *)
Definition head_bytes (h : Head) : Z := slen (json_text (head_json h)) + 36.

(** The loop of [Bootstrap]: every head is valid and signed, no slot twice. *)
Fixpoint validate_heads (max_blob : Z) (slots : gset string) (hs : list Head) : result () Error :=
  match hs with
  | [] => Ok tt
  | h :: hs =>
      validate_head h max_blob ;;?
      verify_head h ;;?
      if bool_decide (slot h ∈ slots) then Err (error "bad_request")
      else validate_heads max_blob ({[slot h]} ∪ slots) hs
  end.

Definition validate (command : Command) (max_blob : Z) : result () Error :=
  if bool_decide (ticket command = EmptyString) || (64 <? slen (ticket command))
  then Err (error "bad_request") else
  match command with
  | ReadBarrier _ | BootstrapBegin _ | BootstrapComplete _ => Ok tt
  | Put _ head => validate_head head max_blob ;;? verify_head head
  | DeleteSlot _ request => validate_delete request
  | Bootstrap _ heads =>
      if 65536 <? zlen heads then Err (error "quota") else validate_heads max_blob ∅ heads
  end.

Definition is_err {A F} (r : result A F) : option F :=
  match r with Ok _ => None | Err e => Some e end.

(** The state after [put] revives the tombstone [tomb]. *)
Definition revive (s : State) (tomb h : Head) : State := {|
  metadata_bytes := metadata_bytes s - head_bytes tomb + head_bytes h;
  heads := <[slot h := h]> (heads s);
  previous := previous s;
  deleted := delete (slot h) (deleted s);
  migration_started := migration_started s;
  migration_finished := migration_finished s |}.

(** The state after [put] stores [h], the replaced head becoming the previous. *)
Definition store (s : State) (h : Head) : State := {|
  metadata_bytes := metadata_bytes s + head_bytes h
    - match previous s !! slot h with Some p => head_bytes p | None => 0 end;
  heads := <[slot h := h]> (heads s);
  previous := match heads s !! slot h with
              | Some p => <[slot h := p]> (previous s)
              | None => previous s
              end;
  deleted := deleted s;
  migration_started := migration_started s;
  migration_finished := migration_finished s |}.

(** [put]: a tombstone is revived by its successor only; otherwise the head
    replaces the current one by compare-and-swap. *)
Definition put (s : State) (h : Head) (id : string) (max_slots : Z) : State * result json Error :=
  match deleted s !! slot h with
  | Some tomb =>
      if negb (bool_decide (writer h = writer tomb)) then (s, Err (error "writer_mismatch")) else
      if negb (seq h =? sat_add (seq tomb) 1) || negb (bool_decide (parent h = Some (hash tomb)))
      then (s, Err {| code := "deleted"; error_head := Some tomb |}) else
      if SNAPSHOT_BYTES <? metadata_bytes (revive s tomb h) + 128 then (s, Err (error "quota"))
      else (revive s tomb h, Ok (ack h id))
  | None =>
      let current := heads s !! slot h in
      match (if bool_decide (previous s !! slot h = Some h) then Ok true
             else check_cas h current) with
      | Err e => (s, Err e)
      | Ok true => (s, Ok (ack h id))
      | Ok false =>
          if negb (is_some current) && (max_slots <=? zsize (heads s) + zsize (deleted s))
          then (s, Err (error "quota")) else
          if SNAPSHOT_BYTES <? metadata_bytes (store s h) + 128 then (s, Err (error "quota"))
          else (store s h, Ok (ack h id))
      end
  end.

(** [State::delete]: the current head becomes the slot's tombstone, if the
    request names it and its writer signed the request. *)
Definition bury (s : State) (k : string) (h : Head) : State := {|
  metadata_bytes := metadata_bytes s
    - match previous s !! k with Some p => head_bytes p | None => 0 end;
  heads := delete k (heads s);
  previous := delete k (previous s);
  deleted := <[k := h]> (deleted s);
  migration_started := migration_started s;
  migration_finished := migration_finished s |}.

Definition delete_slot (s : State) (r : Delete) (id : string) : State * result json Error :=
  match (match heads s !! d_slot r with Some h => Some h | None => deleted s !! d_slot r end) with
  | None => (s, Ok (delete_reply r id))
  | Some current =>
      if negb (d_seq r =? seq current) || negb (bool_decide (d_head r = hash current))
      then (s, Err (conflict current)) else
      match verify_delete r (writer current) with
      | Err e => (s, Err e)
      | Ok _ =>
          match heads s !! d_slot r with
          | None => (s, Ok (delete_reply r id))
          | Some h => (bury s (d_slot r) h, Ok (delete_reply r id))
          end
      end
  end.

Definition read_ready (id : string) : json :=
  obj [("v", num 1); ("type", JString "escrow_read_ready"); ("id", JString id)].
Definition bootstrapped (id : string) : json :=
  obj [("v", num 1); ("type", JString "escrow_bootstrapped"); ("id", JString id)].

(** The heads of a bootstrap batch whose slots are new. *)
Definition fresh_heads (m : gmap string Head) (hs : list Head) : list Head :=
  List.filter (λ h, negb (is_some (m !! slot h))) hs.

Definition insert_heads (hs : list Head) (m : gmap string Head) : gmap string Head :=
  foldl (λ m h, <[slot h := h]> m) m hs.

Definition add_heads (s : State) (hs : list Head) : State := {|
  metadata_bytes := metadata_bytes s + zsum (map head_bytes (fresh_heads (heads s) hs));
  heads := insert_heads hs (heads s);
  previous := previous s;
  deleted := deleted s;
  migration_started := migration_started s;
  migration_finished := migration_finished s |}.

Definition bootstrap (s : State) (hs : list Head) (id : string) (max_slots : Z)
    : State * result json Error :=
  if negb (migration_started s) || migration_finished s then (s, Err (error "conflict")) else
  if existsb (λ h, is_some_and (λ e, negb (bool_decide (e = h))) (heads s !! slot h)) hs
  then (s, Err (error "conflict")) else
  if max_slots <? sat_add (zsize (heads s)) (zlen (fresh_heads (heads s) hs))
  then (s, Err (error "quota")) else
  if SNAPSHOT_BYTES <? metadata_bytes (add_heads s hs) + 128 then (s, Err (error "quota"))
  else (add_heads s hs, Ok (bootstrapped id)).

Definition set_flags (started finished : bool) (s : State) : State := {|
  metadata_bytes := metadata_bytes s; heads := heads s; previous := previous s;
  deleted := deleted s; migration_started := started; migration_finished := finished |}.

Definition blocked_while_migrating (c : Command) : bool :=
  match c with ReadBarrier _ | Put _ _ | DeleteSlot _ _ => true | _ => false end.

(** The closure of [apply], before the error is turned into a reply. *)
Definition run (s : State) (c : Command) (id : string) (max_slots : Z) : State * result json Error :=
  match validate c GIB with
  | Err e => (s, Err e)
  | Ok _ =>
      if migration_started s && negb (migration_finished s) && blocked_while_migrating c
      then (s, Err (error "migrating")) else
      match c with
      | ReadBarrier _ => (s, Ok (read_ready id))
      | Put _ h => put s h id max_slots
      | DeleteSlot _ r => delete_slot s r id
      | Bootstrap _ hs => bootstrap s hs id max_slots
      | BootstrapBegin _ =>
          if migration_finished s || (negb (migration_started s) && negb (is_empty s))
          then (s, Err (error "conflict"))
          else (set_flags true (migration_finished s) s, Ok (bootstrapped id))
      | BootstrapComplete _ =>
          if negb (migration_started s) then (s, Err (error "conflict"))
          else (set_flags (migration_started s) true s, Ok (bootstrapped id))
      end
  end.

Definition apply (s : State) (c : Command) (id : string) (max_slots : Z) : State * json :=
  let '(s', r) := run s c id max_slots in
  (s', match r with Ok v => v | Err e => error_reply e id end).

(** ** Snapshots *)

Definition heads_json (m : gmap string Head) : json :=
  JObject (map (λ p, (p.1, head_json p.2)) (map_to_list m)).

(** What [Serialize] writes: [metadata_bytes] is skipped. *)
Definition state_json (s : State) : json :=
  JObject [("heads", heads_json (heads s)); ("previous", heads_json (previous s));
           ("deleted", heads_json (deleted s));
           ("migration_started", JBool (migration_started s));
           ("migration_finished", JBool (migration_finished s))].

Definition encode (s : State) : result string string :=
  let bytes := json_text (state_json s) in
  ensure (slen bytes <=? SNAPSHOT_BYTES) "oversized escrow snapshot" ;;? Ok bytes.

Definition with_bytes (n : Z) (s : State) : State := {|
  metadata_bytes := n; heads := heads s; previous := previous s; deleted := deleted s;
  migration_started := migration_started s; migration_finished := migration_finished s |}.

Definition check_entry (p : string * Head) : result () string :=
  ensure (bool_decide (p.1 = slot p.2)) "escrow snapshot slot mismatch" ;;?
  map_err code (validate_head p.2 GIB) ;;?
  map_err code (verify_head p.2).

Definition check_previous (s : State) (p : string * Head) : result () string :=
  let? current := ok_or (heads s !! p.1) "orphan previous head" in
  ensure (bool_decide (writer current = writer p.2)
          && bool_decide (checked_add (seq p.2) 1 = Some (seq current))
          && bool_decide (parent current = Some (hash p.2))) "invalid previous head".

(** [from_slice] is [serde_json::from_slice] into a [State], whose skipped field
    is the default. *)
Definition decode (from_slice : string → option State) (bytes : string) (max_slots : Z)
    : result State string :=
  ensure (slen bytes <=? 64 * 1024 * 1024) "oversized escrow snapshot" ;;?
  let? raw := ok_or (from_slice bytes) "invalid json" in
  let s := with_bytes (zsum (map head_bytes
             (values (heads raw) ++ values (previous raw) ++ values (deleted raw)))) raw in
  ensure (metadata_bytes s + 128 <=? SNAPSHOT_BYTES) "escrow snapshot metadata quota" ;;?
  ensure (negb (migration_finished s) || migration_started s) "invalid migration flags" ;;?
  ensure ((sat_add (zsize (heads s)) (zsize (deleted s)) <=? max_slots)
          && (zsize (previous s) <=? zsize (heads s))) "escrow snapshot slot quota" ;;?
  try_each check_entry (map_to_list (heads s) ++ map_to_list (previous s) ++ map_to_list (deleted s)) ;;?
  try_each (check_previous s) (map_to_list (previous s)) ;;?
  ensure (forallb (λ p : string * Head, negb (is_some (heads s !! p.1)) && negb (is_some (previous s !! p.1)))
            (map_to_list (deleted s))) "conflicting tombstone" ;;?
  Ok s.

(** ** The invariant *)

Definition live_or_dead (s : State) (k : string) (h : Head) : Prop :=
  heads s !! k = Some h ∨ previous s !! k = Some h ∨ deleted s !! k = Some h.

Record wf (max_slots : Z) (s : State) : Prop := {
  wf_bytes : metadata_bytes s = sum_map head_bytes (heads s) + sum_map head_bytes (previous s)
                                + sum_map head_bytes (deleted s);
  wf_quota : metadata_bytes s + 128 ≤ SNAPSHOT_BYTES;
  wf_slots : zsize (heads s) + zsize (deleted s) ≤ max_slots;
  wf_heads k h : live_or_dead s k h →
    slot h = k ∧ validate_head h GIB = Ok tt ∧ verify_head h = Ok tt;
  wf_previous k p : previous s !! k = Some p → ∃ cur, heads s !! k = Some cur ∧ continues p cur;
  wf_deleted k t : deleted s !! k = Some t → heads s !! k = None;
  wf_flags : migration_finished s = true → migration_started s = true;
  wf_migrating : migrating s = true → previous s = ∅ ∧ deleted s = ∅;
}.

Lemma head_bytes_pos h : 0 < head_bytes h.
Proof. unfold head_bytes, slen. lia. Qed.

Lemma validate_heads_spec max_blob sl hs :
  validate_heads max_blob sl hs = Ok tt →
  (∀ h, h ∈ hs → validate_head h max_blob = Ok tt ∧ verify_head h = Ok tt ∧ slot h ∉ sl) ∧
  NoDup (map slot hs).
Proof.
  revert sl. induction hs as [|h hs IH]; intros sl; simpl.
  { intros _. split; [set_solver|constructor]. }
  intros ([] & Hv & ([] & Hs & H)%rbind_Ok)%rbind_Ok. case_bool_decide as Hd; [done|].
  apply IH in H as [Hall Hnd]. split.
  - intros h' [->|Hin]%elem_of_cons; [done|]. apply Hall in Hin as (? & ? & ?). set_solver.
  - constructor; [|done]. intros (h' & Heq & Hin)%list_elem_of_In%in_map_iff.
    apply list_elem_of_In, Hall in Hin as (_ & _ & Hnot). set_solver.
Qed.

Lemma sum_map_previous (f : Head → Z) m k h :
  sum_map f (<[k := h]> m) = sum_map f m + f h - match m !! k with Some p => f p | None => 0 end.
Proof.
  destruct (m !! k) as [p|] eqn:Hk.
  - rewrite (sum_map_update f m k p h Hk). lia.
  - rewrite (sum_map_insert f m k h Hk). lia.
Qed.

Lemma sum_map_remove (f : Head → Z) m k :
  sum_map f (delete k m) = sum_map f m - match m !! k with Some p => f p | None => 0 end.
Proof.
  destruct (m !! k) as [p|] eqn:Hk.
  - rewrite (sum_map_delete f m k p Hk). lia.
  - rewrite delete_id by done. lia.
Qed.

(** A batch over pairwise distinct slots that agrees with the map adds its
    fresh heads and nothing else. *)
Lemma insert_heads_spec hs m :
  NoDup (map slot hs) →
  (∀ h e, h ∈ hs → m !! slot h = Some e → e = h) →
  (∀ k, insert_heads hs m !! k
        = match List.find (λ h, bool_decide (slot h = k)) hs with
          | Some h => Some h | None => m !! k end) ∧
  sum_map head_bytes (insert_heads hs m)
    = sum_map head_bytes m + zsum (map head_bytes (fresh_heads m hs)) ∧
  zsize (insert_heads hs m) = zsize m + zlen (fresh_heads m hs).
Proof.
  revert m. induction hs as [|h hs IH]; intros m Hnd Hagree; simpl.
  { unfold zlen. simpl. split_and!; [done|lia|lia]. }
  inversion Hnd as [|? ? Hnot Hnd']; subst.
  assert (∀ h', h' ∈ hs → slot h' ≠ slot h) as Hne.
  { intros h' Hin Heq. apply Hnot. rewrite <-Heq.
    apply list_elem_of_In, in_map, list_elem_of_In, Hin. }
  destruct (IH (<[slot h := h]> m)) as (Hl & Hs & Hz); [done| |].
  { intros h' e Hin. rewrite lookup_insert_ne by (symmetry; by apply Hne).
    apply Hagree. by right. }
  assert (fresh_heads (<[slot h := h]> m) hs = fresh_heads m hs) as Hf.
  { unfold fresh_heads. clear -Hne. induction hs as [|h' hs IH]; simpl; [done|].
    rewrite lookup_insert_ne by (symmetry; apply Hne; by left).
    rewrite IH; [done|]. intros. apply Hne. by right. }
  rewrite Hf in Hs, Hz. split_and!.
  - intros k. rewrite Hl. case_bool_decide as Hk.
    + subst k. destruct (List.find _ hs) as [h'|] eqn:Hfind.
      * apply find_elem in Hfind as [Hin Hb]. bools. by apply Hne in Hin.
      * by rewrite lookup_insert_eq.
    + destruct (List.find _ hs); [done|]. by rewrite lookup_insert_ne.
  - rewrite Hs, sum_map_previous. unfold fresh_heads at 2. simpl.
    destruct (m !! slot h) as [e|] eqn:He; simpl.
    + rewrite (Hagree h e) by (done || by left). unfold fresh_heads. lia.
    + unfold fresh_heads, zsum. lia.
  - rewrite Hz. unfold fresh_heads at 2. simpl. destruct (m !! slot h) as [e|] eqn:He; simpl.
    + by rewrite (zsize_insert_Some m _ h e).
    + rewrite zsize_insert_None, zlen_cons by done. unfold fresh_heads. lia.
Qed.

Lemma wf_default max_slots : 0 ≤ max_slots → wf max_slots default_state.
Proof.
  intros Hm. split; simpl; unfold live_or_dead; simpl; try done.
  all: intros; rewrite ?lookup_empty in *; naive_solver.
Qed.

(** A signed, valid head of the given slot. *)
Definition acceptable (k : string) (h : Head) : Prop :=
  slot h = k ∧ validate_head h GIB = Ok tt ∧ verify_head h = Ok tt.

(** ** What an accepted operation does *)

Lemma put_spec s h id max_slots s' v :
  put s h id max_slots = (s', Ok v) →
  (s' = s ∧ (previous s !! slot h = Some h ∨ heads s !! slot h = Some h)) ∨
  (∃ tomb, deleted s !! slot h = Some tomb ∧ writer h = writer tomb ∧
     seq h = sat_add (seq tomb) 1 ∧ parent h = Some (hash tomb) ∧ s' = revive s tomb h ∧
     metadata_bytes s' + 128 ≤ SNAPSHOT_BYTES) ∨
  (deleted s !! slot h = None ∧ s' = store s h ∧ metadata_bytes s' + 128 ≤ SNAPSHOT_BYTES ∧
     match heads s !! slot h with
     | Some cur => continues cur h
     | None => parent h = None ∧ zsize (heads s) + zsize (deleted s) < max_slots
     end).
Proof.
  unfold put. destruct (deleted s !! slot h) as [tomb|] eqn:Ht.
  - intros H. cases_in H. right; left. exists tomb. done.
  - destruct (if bool_decide _ then _ else _) as [[]|] eqn:Hcas; [|intros H; cases_in H|done].
    + intros [= <- _]. left. split; [done|]. case_bool_decide; [by left|].
      right. by apply check_cas_same.
    + case_bool_decide; [done|]. right; right. split_and!; try done.
      destruct (heads s !! slot h) as [cur|]; simpl in *.
      * by apply check_cas_new.
      * apply check_cas_first in Hcas. bools. destruct Heqb; bools; [done|]. split; [done|lia].
Qed.

Lemma put_Err s h id max_slots s' e : put s h id max_slots = (s', Err e) → s' = s.
Proof. unfold put. intros H. cases_in H; done. Qed.

Lemma delete_spec s r id s' v :
  delete_slot s r id = (s', Ok v) →
  (s' = s ∧ heads s !! d_slot r = None) ∨
  (∃ h, heads s !! d_slot r = Some h ∧ d_seq r = seq h ∧ d_head r = hash h ∧
     verify_delete r (writer h) = Ok tt ∧ s' = bury s (d_slot r) h).
Proof.
  unfold delete_slot. destruct (heads s !! d_slot r) as [h|] eqn:Hh.
  - intros H. cases_in H. destruct a. right. exists h. done.
  - intros H. cases_in H; by left.
Qed.

Lemma delete_Err s r id s' e : delete_slot s r id = (s', Err e) → s' = s.
Proof. unfold delete_slot. intros H. cases_in H; done. Qed.

Lemma bootstrap_spec s hs id max_slots s' v :
  bootstrap s hs id max_slots = (s', Ok v) →
  migrating s = true ∧ s' = add_heads s hs ∧ metadata_bytes s' + 128 ≤ SNAPSHOT_BYTES ∧
  sat_add (zsize (heads s)) (zlen (fresh_heads (heads s) hs)) ≤ max_slots ∧
  (∀ h e, h ∈ hs → heads s !! slot h = Some e → e = h).
Proof.
  unfold bootstrap, migrating. intros H. cases_in H.
  split_and!; try done. { destruct (migration_started s), (migration_finished s); done. }
  intros h e Hin He. rewrite existsb_elem_false in Heqb0. specialize (Heqb0 h Hin).
  rewrite He in Heqb0. simpl in Heqb0. by bools.
Qed.

Lemma bootstrap_Err s hs id max_slots s' e : bootstrap s hs id max_slots = (s', Err e) → s' = s.
Proof. unfold bootstrap. intros H. cases_in H; done. Qed.

(** ** Preservation *)

Lemma revive_wf max_slots s tomb h :
  wf max_slots s → migrating s = false → acceptable (slot h) h →
  deleted s !! slot h = Some tomb → metadata_bytes (revive s tomb h) + 128 ≤ SNAPSHOT_BYTES →
  wf max_slots (revive s tomb h).
Proof.
  intros [Hb Hq Hs Hh Hp Hd Hf Hm] Hmig Hok Ht Hquota. pose proof (Hd _ _ Ht) as Hnone.
  split; simpl; try done.
  - rewrite sum_map_previous, Hnone, sum_map_remove, Ht. lia.
  - rewrite (zsize_insert_None _ _ _ Hnone), (zsize_delete_Some _ _ _ Ht). lia.
  - intros k x [Hx|[Hx|Hx]]; simpl in Hx.
    + apply lookup_insert_Some in Hx as [[<- <-]|[_ Hx]]; [done|]. apply Hh. by left.
    + apply Hh. by right; left.
    + apply lookup_delete_Some in Hx as [_ Hx]. apply Hh. by right; right.
  - intros k p Hk. destruct (decide (slot h = k)) as [<-|Hne].
    + apply Hp in Hk as (? & ? & _). congruence.
    + rewrite lookup_insert_ne by done. by apply Hp.
  - intros k t Hk. apply lookup_delete_Some in Hk as [Hne Hk].
    rewrite lookup_insert_ne by done. by eapply Hd.
  - unfold migrating in *. simpl. intros. congruence.
Qed.

Lemma store_wf max_slots s h :
  wf max_slots s → migrating s = false → acceptable (slot h) h → deleted s !! slot h = None →
  metadata_bytes (store s h) + 128 ≤ SNAPSHOT_BYTES →
  match heads s !! slot h with
  | Some cur => continues cur h
  | None => parent h = None ∧ zsize (heads s) + zsize (deleted s) < max_slots
  end → wf max_slots (store s h).
Proof.
  intros [Hb Hq Hs Hh Hp Hd Hf Hm] Hmig Hok Ht Hquota Hcas.
  assert (heads s !! slot h = None → previous s !! slot h = None) as Hpn.
  { intros Hc. destruct (previous s !! slot h) eqn:E'; [|done].
    apply Hp in E' as (? & ? & _). congruence. }
  split; simpl; try done; destruct (heads s !! slot h) as [cur|] eqn:Hc; simpl in *.
  - rewrite !sum_map_previous, Hc. lia.
  - rewrite sum_map_previous, Hc, Hpn by done. lia.
  - by rewrite (zsize_insert_Some _ _ _ _ Hc).
  - rewrite (zsize_insert_None _ _ _ Hc). lia.
  - intros k x [Hx|[Hx|Hx]]; simpl in Hx; rewrite ?Hc in Hx;
      try apply lookup_insert_Some in Hx as [[<- <-]|[_ Hx]]; try done; apply Hh;
      unfold live_or_dead; auto.
  - intros k x [Hx|[Hx|Hx]]; simpl in Hx; rewrite ?Hc in Hx;
      try apply lookup_insert_Some in Hx as [[<- <-]|[_ Hx]]; try done; apply Hh;
      unfold live_or_dead; auto.
  - intros k p [[<- <-]|[Hne Hk]]%lookup_insert_Some.
    + rewrite lookup_insert_eq. by exists h.
    + rewrite lookup_insert_ne by done. by apply Hp.
  - intros k p Hk. destruct (decide (slot h = k)) as [<-|Hne].
    + rewrite Hpn in Hk; done.
    + rewrite lookup_insert_ne by done. by apply Hp.
  - intros k t Hk. rewrite lookup_insert_ne by congruence. by eapply Hd.
  - intros k t Hk. rewrite lookup_insert_ne by congruence. by eapply Hd.
  - unfold migrating in *. simpl. intros. congruence.
  - unfold migrating in *. simpl. intros. congruence.
Qed.

Lemma bury_wf max_slots s k h :
  wf max_slots s → migrating s = false → heads s !! k = Some h → wf max_slots (bury s k h).
Proof.
  intros [Hb Hq Hs Hh Hp Hd Hf Hm] Hmig Hk.
  assert (deleted s !! k = None) as Hdn.
  { destruct (deleted s !! k) eqn:E'; [|done]. apply Hd in E'. congruence. }
  split; simpl; try done.
  - rewrite sum_map_previous, Hdn, !sum_map_remove, Hk. lia.
  - pose proof (head_bytes_pos h). destruct (previous s !! k) as [p|]; [|lia].
    pose proof (head_bytes_pos p). lia.
  - rewrite (zsize_delete_Some _ _ _ Hk), (zsize_insert_None _ _ _ Hdn). lia.
  - intros k' x [Hx|[Hx|Hx]]; simpl in Hx.
    + apply lookup_delete_Some in Hx as [_ Hx]. apply Hh. by left.
    + apply lookup_delete_Some in Hx as [_ Hx]. apply Hh. by right; left.
    + apply lookup_insert_Some in Hx as [[<- <-]|[_ Hx]]; apply Hh; [by left|by right; right].
  - intros k' p [Hne Hp']%lookup_delete_Some. rewrite lookup_delete_ne by done. by apply Hp.
  - intros k' t [[<- _]|[Hne Ht]]%lookup_insert_Some; [apply lookup_delete_eq|].
    rewrite lookup_delete_ne by done. by eapply Hd.
  - unfold migrating in *. simpl. intros. congruence.
Qed.

Lemma add_heads_wf max_slots s hs :
  max_slots < U64_MAX → wf max_slots s → migrating s = true →
  NoDup (map slot hs) → (∀ h, h ∈ hs → acceptable (slot h) h) →
  metadata_bytes (add_heads s hs) + 128 ≤ SNAPSHOT_BYTES →
  sat_add (zsize (heads s)) (zlen (fresh_heads (heads s) hs)) ≤ max_slots →
  (∀ h e, h ∈ hs → heads s !! slot h = Some e → e = h) →
  wf max_slots (add_heads s hs).
Proof.
  intros Hmax [Hb Hq Hs Hh Hp Hd Hf Hm] Hmig Hnd Hok Hquota Hsz Hagree.
  destruct (Hm Hmig) as [Hpe Hde].
  destruct (insert_heads_spec hs (heads s) Hnd Hagree) as (Hl & Hsum & Hz).
  split; simpl; try done.
  - rewrite Hsum. lia.
  - rewrite Hz, Hde. unfold sat_add in Hsz. unfold zsize at 2. rewrite map_size_empty. lia.
  - intros k x [Hx|Hx]; [|apply Hh; by right]. simpl in Hx. rewrite Hl in Hx.
    destruct (List.find _ hs) as [h|] eqn:Hfind; [|apply Hh; by left].
    simplify_eq. apply find_elem in Hfind as [Hin Hbk]. bools. subst k. by apply Hok.
  - intros k p Hk. by rewrite Hpe, lookup_empty in Hk.
  - intros k t Hk. by rewrite Hde, lookup_empty in Hk.
Qed.

Lemma flags_wf max_slots s a b :
  wf max_slots s → (b = true → a = true) →
  (a && negb b = true → previous s = ∅ ∧ deleted s = ∅) → wf max_slots (set_flags a b s).
Proof. intros [Hb Hq Hs Hh Hp Hd Hf Hm] Hab Hmig. by split. Qed.

Lemma wf_empty max_slots s : wf max_slots s → is_empty s = true → previous s = ∅ ∧ deleted s = ∅.
Proof.
  unfold is_empty. intros Hwf H. bools. split; [|done]. apply map_empty. intros k.
  destruct (previous s !! k) as [p|] eqn:E'; [|done].
  apply (wf_previous _ _ Hwf) in E' as (cur & Hcur & _). replace (heads s) with (∅ : gmap string Head) in Hcur by done.
  by rewrite lookup_empty in Hcur.
Qed.

Lemma run_Err s c id max_slots s' e : run s c id max_slots = (s', Err e) → s' = s.
Proof.
  unfold run. intros H. destruct (validate c GIB); [|by simplify_eq].
  case_if; [by simplify_eq|]. destruct c; simplify_eq; try done.
  - by eapply put_Err.
  - by eapply delete_Err.
  - by eapply bootstrap_Err.
  - cases_in H. done.
  - cases_in H. done.
Qed.

Lemma run_wf max_slots s c id s' r :
  max_slots < U64_MAX → wf max_slots s → run s c id max_slots = (s', r) → wf max_slots s'.
Proof.
  intros Hmax Hwf Hrun. destruct r as [v|e]; [|apply run_Err in Hrun; congruence].
  revert Hrun. unfold run. destruct (validate c GIB) as [[]|] eqn:Hval; [|done].
  fold (migrating s). destruct (migrating s && blocked_while_migrating c) eqn:Hblk; [done|].
  unfold validate in Hval. match type of Hval with (if ?b then _ else _) = _ => destruct b; [done|] end.
  destruct c; simpl in *; rewrite ?andb_true_r in Hblk.
  - by intros [= <- _].
  - apply rbind_Ok in Hval as ([] & Hv & Hs).
    intros [[-> _]|[(tomb & ? & ? & ? & ? & -> & ?)|(? & -> & ? & ?)]]%put_spec; [done| |].
    + by apply revive_wf.
    + by apply store_wf.
  - intros [[-> _]|(h & ? & ? & ? & ? & ->)]%delete_spec; [done|]. by apply bury_wf.
  - destruct (65536 <? zlen heads0); [done|]. apply validate_heads_spec in Hval as [Hall Hnd].
    intros (? & -> & ? & ? & ?)%bootstrap_spec. apply add_heads_wf; try done.
    intros h Hin. apply Hall in Hin as (? & ? & _). done.
  - case_if; [done|]. intros [= <- _]. bools. apply flags_wf; [done|done|]. intros _.
    match goal with H : _ ∨ _ |- _ => destruct H as [Hst|Hem] end; bools.
    + apply (wf_migrating _ _ Hwf). unfold migrating. rewrite Hst. by destruct (migration_finished s).
    + by apply (wf_empty max_slots).
  - case_if; [done|]. intros [= <- _]. bools. apply flags_wf; [done|done|]. rewrite andb_false_r. done.
Qed.

(** ** Snapshots round-trip *)

Lemma sum_map_values (f : Head → Z) m : sum_map f m = zsum (map f (values m)).
Proof.
  unfold sum_map, zsum, values. rewrite map_fold_foldr.
  induction (map_to_list m) as [|[k x] l IH]; simpl; [done|by rewrite IH].
Qed.

Lemma zsum_app l1 l2 : zsum (l1 ++ l2) = zsum l1 + zsum l2.
Proof. unfold zsum. induction l1 as [|x l IH]; simpl; [done|]. rewrite IH. lia. Qed.

Lemma previous_dom max_slots s : wf max_slots s → zsize (previous s) ≤ zsize (heads s).
Proof.
  intros Hwf. unfold zsize. rewrite <-!size_dom. apply inj_le, subseteq_size.
  intros k (p & Hp)%elem_of_dom. apply (wf_previous _ _ Hwf) in Hp as (cur & Hc & _).
  apply elem_of_dom. by exists cur.
Qed.

Lemma checked_add_seq h : validate_head h GIB = Ok tt → checked_add (seq h) 1 = Some (seq h + 1).
Proof.
  unfold validate_head. intros H. cases_in H.
  unfold checked_add, U64_MAX, MAX_SAFE in *. destruct (Z.leb_spec (seq h + 1) (2 ^ 64 - 1)); [done|lia].
Qed.

(** [decode] accepts every state that satisfies the invariant, and restores it. *)
Lemma decode_wf from_slice max_slots s bytes :
  wf max_slots s → slen bytes ≤ SNAPSHOT_BYTES → from_slice bytes = Some (with_bytes 0 s) →
  decode from_slice bytes max_slots = Ok s.
Proof.
  intros Hwf Hlen Hparse. pose proof (previous_dom _ _ Hwf) as Hdom.
  destruct Hwf as [Hb Hq Hs Hh Hp Hd Hf Hm].
  unfold decode. rewrite Hparse. cbn [ok_or rbind].
  change (slen bytes ≤ 64 * 1024 * 1024) in Hlen. apply Z.leb_le in Hlen as ->. cbn [ensure rbind].
  assert (with_bytes (zsum (map head_bytes (values (heads s) ++ values (previous s) ++ values (deleted s))))
            (with_bytes 0 s) = s) as Hs'.
  { rewrite !map_app, !zsum_app, <-!sum_map_values.
    replace (_ + (_ + _)) with (metadata_bytes s) by lia. by destruct s. }
  change (heads (with_bytes 0 s)) with (heads s). change (previous (with_bytes 0 s)) with (previous s).
  change (deleted (with_bytes 0 s)) with (deleted s). rewrite Hs'.
  step_ok; [by apply ensure_Ok, Z.leb_le|].
  step_ok.
  { apply ensure_Ok. destruct (migration_finished s); [|done]. by rewrite Hf. }
  step_ok.
  { apply ensure_Ok, andb_true_iff. unfold sat_add. split; apply Z.leb_le; lia. }
  step_ok.
  { apply try_each_Ok. intros [k h] Hin. unfold check_entry; simpl.
    rewrite !elem_of_app, !elem_of_map_to_list in Hin. apply Hh in Hin as (<- & -> & ->).
    by rewrite bool_decide_true. }
  step_ok.
  { apply try_each_Ok. intros [k p] Hin%elem_of_map_to_list. unfold check_previous; simpl.
    destruct (Hp _ _ Hin) as (cur & -> & Hw & Hseq & Hpar).
    destruct (Hh k p) as (_ & Hv & _); [by right; left|]. simpl.
    rewrite (checked_add_seq _ Hv), !bool_decide_true; [done|done|congruence|done]. }
  step_ok; [|done].
  apply ensure_Ok, forallb_elem. intros [k t] Hin%elem_of_map_to_list; simpl.
  rewrite (Hd _ _ Hin). simpl. destruct (previous s !! k) as [p|] eqn:E'; [|done].
  destruct (Hp _ _ E') as (? & ? & _). specialize (Hd _ _ Hin). congruence.
Qed.

Lemma lower_hex_plain s : string_forallb is_lower_hexdigit s = true → string_forallb is_plain s = true.
Proof.
  induction s as [|c s IH]; simpl; [done|]. intros [Hc Hs]%andb_true_iff.
  rewrite IH, andb_true_r by done. unfold is_plain, is_ascii_alphabetic.
  unfold is_lower_hexdigit in Hc. apply orb_true_iff in Hc as [->|Hc]; [done|].
  unfold in_range in *. apply andb_true_iff in Hc as [H1 H2].
  apply N.leb_le in H1, H2. change (N_of_ascii "f"%char) with 102%N in H2.
  replace (N_of_ascii "a" <=? N_of_ascii c)%N with true by (symmetry; by apply N.leb_le).
  replace (N_of_ascii c <=? N_of_ascii "z")%N with true; [by rewrite !orb_true_r|].
  symmetry. apply N.leb_le. change (N_of_ascii "z"%char) with 122%N. lia.
Qed.

Lemma heads_json_len `{!EscrowLaws E} (m : gmap string Head) :
  (∀ k h, m !! k = Some h → hex_string k 32 = true) →
  slen (json_text (heads_json m)) ≤ 2 + sum_map head_bytes m.
Proof.
  intros Hk. unfold heads_json. rewrite json_text_object, sum_map_values.
  enough (foldr (λ f acc, slen (json_text (JString f.1)) + 1 + slen (json_text f.2) + 1 + acc) 0
            (map (λ p : string * Head, (p.1, head_json p.2)) (map_to_list m))
          = zsum (map head_bytes (values m))) as ->.
  { assert (0 ≤ zsum (map head_bytes (values m))).
    { rewrite <-sum_map_values. apply sum_map_nonneg. intros h. pose proof (head_bytes_pos h). lia. }
    lia. }
  assert (∀ p, p ∈ map_to_list m → hex_string p.1 32 = true) as Hall.
  { intros [k h] Hin%elem_of_map_to_list. by eapply Hk. }
  unfold values, zsum. induction (map_to_list m) as [|[k h] l IH]; cbn [map foldr fmap list_fmap fst snd]; [done|].
  rewrite IH by (intros p Hp; apply Hall; by right).
  assert (hex_string k 32 = true) as Hkh by (apply (Hall (k, h)); left).
  unfold hex_string in Hkh. bools. rewrite json_text_plain by by apply lower_hex_plain.
  assert (head_bytes h = slen (json_text (head_json h)) + 36) as -> by done. lia.
Qed.

Lemma valid_slot h : validate_head h GIB = Ok tt → hex_string (slot h) 32 = true.
Proof. unfold validate_head. intros H. cases_in H. done. Qed.

(** The metadata quota keeps every snapshot below the size limit. *)
Lemma encode_wf `{!EscrowLaws E} max_slots s :
  wf max_slots s → slen (json_text (state_json s)) ≤ SNAPSHOT_BYTES.
Proof.
  intros [Hb Hq _ Hh _ _ _ _].
  assert (∀ m, (∀ k h, m !! k = Some h → live_or_dead s k h) →
    slen (json_text (heads_json m)) ≤ 2 + sum_map head_bytes m) as Hlen.
  { intros m Hm. apply heads_json_len. intros k h Hk.
    destruct (Hh k h) as (<- & Hv & _); [by apply Hm|by apply valid_slot]. }
  pose proof (Hlen (heads s)) as H1. pose proof (Hlen (previous s)) as H2.
  pose proof (Hlen (deleted s)) as H3. unfold live_or_dead in *.
  specialize (H1 ltac:(auto)). specialize (H2 ltac:(auto)). specialize (H3 ltac:(auto)).
  pose proof (json_text_bool (migration_started s)). pose proof (json_text_bool (migration_finished s)).
  unfold state_json. rewrite json_text_object. cbn [foldr fst snd].
  rewrite !json_text_plain by done.
  change (slen "heads") with 5. change (slen "previous") with 8. change (slen "deleted") with 7.
  change (slen "migration_started") with 17. change (slen "migration_finished") with 18. 
  unfold SNAPSHOT_BYTES in *. lia.
Qed.

(** ** A slot as a register

    What a replica promises per slot: a live head, a tombstone, or nothing. A
    step follows the writer's chain; only a bootstrap creates a slot from a
    head in the middle of its chain. *)
Definition view (s : State) (k : string) : option (Head * bool) :=
  match heads s !! k with
  | Some h => Some (h, true)
  | None => match deleted s !! k with Some t => Some (t, false) | None => None end
  end.

Inductive slot_step (boot : bool) : option (Head * bool) → option (Head * bool) → Prop :=
| slot_same v : slot_step boot v v
| slot_create h : parent h = None ∨ boot = true → slot_step boot None (Some (h, true))
| slot_update h h' : continues h h' → slot_step boot (Some (h, true)) (Some (h', true))
| slot_delete h : slot_step boot (Some (h, true)) (Some (h, false))
| slot_revive t h : continues t h → slot_step boot (Some (t, false)) (Some (h, true)).

Lemma valid_seq_succ h : validate_head h GIB = Ok tt → sat_add (seq h) 1 = seq h + 1.
Proof.
  unfold validate_head. intros H. cases_in H. unfold sat_add, U64_MAX, MAX_SAFE in *. lia.
Qed.

Lemma view_other s s' k :
  heads s' !! k = heads s !! k → deleted s' !! k = deleted s !! k → view s' k = view s k.
Proof. unfold view. by intros -> ->. Qed.

Lemma slot_other boot s s' k :
  heads s' !! k = heads s !! k → deleted s' !! k = deleted s !! k →
  slot_step boot (view s k) (view s' k).
Proof. intros H1 H2. rewrite (view_other _ _ _ H1 H2). constructor. Qed.

Lemma put_view max_slots s h id s' v k :
  wf max_slots s → put s h id max_slots = (s', Ok v) → slot_step false (view s k) (view s' k).
Proof.
  intros Hwf [[-> _]|[(tomb & Ht & Hw & Hseq & Hpar & -> & _)|(Hd & -> & _ & Hc)]]%put_spec;
    [constructor| |].
  - destruct (decide (slot h = k)) as [<-|Hne].
    + unfold view; simpl. rewrite (wf_deleted _ _ Hwf _ _ Ht), Ht, lookup_insert_eq.
      constructor. destruct (wf_heads _ _ Hwf (slot h) tomb) as (_ & Hv & _); [by right; right|].
      rewrite (valid_seq_succ _ Hv) in Hseq. done.
    + apply slot_other; simpl.
      * by rewrite lookup_insert_ne.
      * by rewrite lookup_delete_ne.
  - destruct (decide (slot h = k)) as [<-|Hne].
    + unfold view; simpl. rewrite lookup_insert_eq, Hd. destruct (heads s !! slot h) as [cur|].
      * by constructor.
      * constructor. by left; destruct Hc.
    + apply slot_other; simpl; [|done]. by rewrite lookup_insert_ne.
Qed.

Lemma delete_view s r id s' v k :
  delete_slot s r id = (s', Ok v) → slot_step false (view s k) (view s' k).
Proof.
  intros [[-> _]|(h & Hh & _ & _ & _ & ->)]%delete_spec; [constructor|].
  destruct (decide (d_slot r = k)) as [<-|Hne].
  - unfold view; simpl. rewrite lookup_delete_eq, lookup_insert_eq, Hh. constructor.
  - apply slot_other; simpl.
    + by rewrite lookup_delete_ne.
    + by rewrite lookup_insert_ne.
Qed.

Lemma bootstrap_view max_slots s hs id s' v k :
  wf max_slots s → NoDup (map slot hs) → bootstrap s hs id max_slots = (s', Ok v) →
  slot_step true (view s k) (view s' k) ∧
  (view s' k ≠ view s k → view s k = None ∧ ∃ h, h ∈ hs ∧ slot h = k ∧ view s' k = Some (h, true)).
Proof.
  intros Hwf Hnd (Hmig & -> & _ & _ & Hagree)%bootstrap_spec.
  destruct (wf_migrating _ _ Hwf Hmig) as [_ Hde].
  destruct (insert_heads_spec hs (heads s) Hnd Hagree) as (Hl & _ & _).
  unfold view; simpl. rewrite Hl, Hde, lookup_empty.
  destruct (List.find _ hs) as [h|] eqn:Hf; [|split; [constructor|done]].
  apply find_elem in Hf as [Hin Hk]. bools. subst k.
  destruct (heads s !! slot h) as [e|] eqn:He.
  - rewrite (Hagree h e) by done. split; [constructor|done].
  - split; [constructor; by right|]. intros _. split; [done|]. by exists h.
Qed.

Lemma run_view max_slots s c id s' r k :
  wf max_slots s → run s c id max_slots = (s', r) →
  slot_step (migrating s) (view s k) (view s' k).
Proof.
  intros Hwf Hrun. destruct r as [v|e]; [|apply run_Err in Hrun; subst; constructor].
  revert Hrun. unfold run. destruct (validate c GIB) as [[]|] eqn:Hval; [|done].
  fold (migrating s). destruct (migrating s && blocked_while_migrating c) eqn:Hblk; [done|].
  unfold validate in Hval. match type of Hval with (if ?b then _ else _) = _ => destruct b; [done|] end.
  destruct c; simpl in *; rewrite ?andb_true_r in Hblk.
  - intros [= <- _]. constructor.
  - rewrite Hblk. by apply put_view.
  - rewrite Hblk. by apply delete_view.
  - destruct (65536 <? zlen heads0); [done|]. apply validate_heads_spec in Hval as [_ Hnd].
    intros Hb. pose proof (bootstrap_spec _ _ _ _ _ _ Hb) as (-> & _).
    by apply (bootstrap_view max_slots s heads0 id s' v k).
  - case_if; [done|]. intros [= <- _]. constructor.
  - case_if; [done|]. intros [= <- _]. constructor.
Qed.

(** ** Runs of the room log *)

Definition replay (max_slots : Z) (s : State) (log : list (Command * string)) : State :=
  foldl (λ s e, fst (apply s e.1 e.2 max_slots)) s log.

Lemma apply_run s c id max_slots : fst (apply s c id max_slots) = fst (run s c id max_slots).
Proof. unfold apply. by destruct (run s c id max_slots). Qed.

Lemma replay_wf max_slots s log :
  max_slots < U64_MAX → wf max_slots s → wf max_slots (replay max_slots s log).
Proof.
  intros Hm. revert s. induction log as [|[c id] log IH]; intros s Hwf; simpl; [done|].
  apply IH. rewrite apply_run. destruct (run s c id max_slots) eqn:Hr. by eapply run_wf.
Qed.

Lemma rtc_continues_seq h h' :
  rtc continues h h' → writer h' = writer h ∧ seq h ≤ seq h'.
Proof.
  induction 1 as [h|h h1 h' (Hw & Hs & _) _ [IHw IHs]]; [done|]. split; [congruence|lia].
Qed.

(** C11: however the log runs, the state keeps its shape: the metadata count is
    exact and below the snapshot quota, the slot count below its own, every
    head is valid, signed and under its own slot, a previous head is the one
    the current head continues, and a tombstone excludes a live head. *)
Theorem escrow_replay_invariant max_slots log :
  0 ≤ max_slots < U64_MAX → wf max_slots (replay max_slots default_state log).
Proof. intros [? ?]. by apply replay_wf, wf_default. Qed.

(** C12: a slot, once written, is never lost, forked or taken over: whatever
    commands follow, its head (live or tombstone) is reached from the present
    one by heads that each continue the last, so the writer is the same and
    the sequence number never falls. *)
Theorem slot_history_is_linear max_slots log log' k h live :
  0 ≤ max_slots < U64_MAX →
  view (replay max_slots default_state log) k = Some (h, live) →
  ∃ h' live', view (replay max_slots default_state (log ++ log')) k = Some (h', live') ∧
    rtc continues h h' ∧ writer h' = writer h ∧ seq h ≤ seq h'.
Proof.
  intros [Hlo Hhi]. unfold replay. rewrite foldl_app.
  fold (replay max_slots default_state log).
  assert (wf max_slots (replay max_slots default_state log)) as Hwf by by apply replay_wf, wf_default.
  revert Hwf. generalize (replay max_slots default_state log) as s. intros s Hwf Hv.
  enough (∃ h' live', view (replay max_slots s log') k = Some (h', live') ∧ rtc continues h h')
    as (h' & live' & ? & Hr).
  { destruct (rtc_continues_seq _ _ Hr). by exists h', live'. }
  revert s h live Hwf Hv. induction log' as [|[c id] log' IH]; intros s h live Hwf Hv.
  { exists h, live. split; [done|apply rtc_refl]. }
  simpl. rewrite apply_run. destruct (run s c id max_slots) as [s' r] eqn:Hr. simpl.
  pose proof (run_view _ _ _ _ _ _ k Hwf Hr) as Hstep. rewrite Hv in Hstep.
  assert (wf max_slots s') as Hwf' by by eapply run_wf.
  inversion Hstep as [w Hw Hw'|? ? Hw Hw'|? h1 ? Hw Hw'|? Hw Hw'|? h1 ? Hw Hw']; simplify_eq.
  - rewrite <-Hw' in *. by eapply IH.
  - destruct (IH s' h1 true) as (h' & l' & ? & ?); [done|done|]. exists h', l'.
    split; [done|]. by eapply rtc_l.
  - by eapply IH.
  - destruct (IH s' h1 true) as (h' & l' & ? & ?); [done|done|]. exists h', l'.
    split; [done|]. by eapply rtc_l.
Qed.

(** C13: a command changes a slot only with a signature of its writer. A
    [Put] carries a verified head of the slot, by the slot's writer if it has
    one; a [Delete] is signed by the live head's writer; a bootstrap fills
    empty slots with verified heads while the room migrates. Any other command,
    and any command that is refused, changes nothing. *)
Theorem changes_are_signed max_slots s c id s' r k :
  wf max_slots s → run s c id max_slots = (s', r) →
  (∀ e, r = Err e → s' = s) ∧
  (view s' k ≠ view s k →
   match c with
   | Put _ h => slot h = k ∧ verify_head h = Ok tt ∧ view s' k = Some (h, true) ∧
       (∀ h0 live, view s k = Some (h0, live) → writer h = writer h0)
   | DeleteSlot _ req => d_slot req = k ∧ ∃ h0, view s k = Some (h0, true) ∧
       view s' k = Some (h0, false) ∧ verify_delete req (writer h0) = Ok tt
   | Bootstrap _ hs => migrating s = true ∧ view s k = None ∧
       ∃ h, h ∈ hs ∧ slot h = k ∧ verify_head h = Ok tt ∧ view s' k = Some (h, true)
   | _ => False
   end).
Proof.
  intros Hwf Hrun. split; [intros e ->; by eapply run_Err|]. intros Hne.
  destruct r as [v|e]; [|apply run_Err in Hrun; by subst].
  pose proof Hrun as Hrun'. pose proof (run_view _ _ _ _ _ _ k Hwf Hrun) as Hstep.
  revert Hrun. unfold run. destruct (validate c GIB) as [[]|] eqn:Hval; [|done].
  fold (migrating s). destruct (migrating s && blocked_while_migrating c) eqn:Hblk; [done|].
  unfold validate in Hval. match type of Hval with (if ?b then _ else _) = _ => destruct b; [done|] end.
  destruct c; simpl in *; rewrite ?andb_true_r in Hblk.
  - by intros [= <- _].
  - apply rbind_Ok in Hval as ([] & _ & Hs). intros Hput.
    assert (slot head0 = k ∧ view s' k = Some (head0, true)) as [Hk Hv].
    { apply put_spec in Hput as [[-> _]|[(tomb & Ht & _ & _ & _ & -> & _)|(Hd & -> & _)]]; [done| |].
      all: destruct (decide (slot head0 = k)) as [<-|Hn];
        [by unfold view; simpl; rewrite lookup_insert_eq|].
      all: exfalso; apply Hne, view_other; simpl; by rewrite ?lookup_insert_ne, ?lookup_delete_ne. }
    split_and!; try done. intros h0 live Hv0. rewrite Hv0, Hv in *.
    inversion Hstep as [| |? ? [? _]| |? ? [? _]]; simplify_eq; done.
  - intros [[-> _]|(h & Hh & _ & _ & Hs & ->)]%delete_spec; [done|].
    destruct (decide (d_slot request = k)) as [<-|Hn].
    + split; [done|]. exists h. unfold view; simpl.
      by rewrite Hh, lookup_delete_eq, lookup_insert_eq.
    + exfalso. apply Hne, view_other; simpl; by rewrite ?lookup_insert_ne, ?lookup_delete_ne.
  - destruct (65536 <? zlen heads0); [done|]. apply validate_heads_spec in Hval as [Hall Hnd].
    intros Hb. pose proof (bootstrap_spec _ _ _ _ _ _ Hb) as (Hmig & _).
    destruct (bootstrap_view max_slots s heads0 id s' v k) as [_ Hch]; [done..|].
    destruct (Hch Hne) as (Hn & h & Hin & Hk & Hv). split_and!; try done.
    exists h. split_and!; try done. by apply Hall.
  - case_if; [done|]. by intros [= <- _].
  - case_if; [done|]. by intros [= <- _].
Qed.

(** C14: a snapshot of any state the log reaches fits the size limit, so it is
    always written, and another replica that reads it restores the state with
    its metadata count; no check of [decode] refuses it. The hypothesis on
    [from_slice] is that serde reads back what it wrote. *)
Theorem snapshot_roundtrip `{!EscrowLaws E} (from_slice : string → option State) max_slots log :
  0 ≤ max_slots < U64_MAX →
  (let s := replay max_slots default_state log in
   from_slice (json_text (state_json s)) = Some (with_bytes 0 s)) →
  let s := replay max_slots default_state log in
  ∃ bytes, encode s = Ok bytes ∧ decode from_slice bytes max_slots = Ok s.
Proof.
  intros [Hlo Hhi]. assert (wf max_slots (replay max_slots default_state log)) as Hwf
    by by apply replay_wf, wf_default.
  revert Hwf. generalize (replay max_slots default_state log) as s. cbn zeta. intros s Hwf Hparse.
  pose proof (encode_wf _ _ Hwf) as Hlen. exists (json_text (state_json s)). split.
  - unfold encode. apply Z.leb_le in Hlen as ->. done.
  - by apply decode_wf.
Qed.

Lemma put_current s h id max_slots :
  deleted s !! slot h = None → heads s !! slot h = Some h → put s h id max_slots = (s, Ok (ack h id)).
Proof.
  intros Hd Hh. unfold put. rewrite Hd, Hh. case_bool_decide; [done|].
  by rewrite (proj2 (check_cas_same h (Some h))).
Qed.

Lemma put_previous s h id max_slots :
  deleted s !! slot h = None → previous s !! slot h = Some h → put s h id max_slots = (s, Ok (ack h id)).
Proof. intros Hd Hp. unfold put. by rewrite Hd, Hp, bool_decide_true. Qed.

Lemma put_reply s h id max_slots s' v : put s h id max_slots = (s', Ok v) → v = ack h id.
Proof. unfold put. intros H. cases_in H; done. Qed.

(** After an accepted [put], the head is live: current, or the one before it. *)
Lemma put_lands max_slots s h id s' v :
  wf max_slots s → put s h id max_slots = (s', Ok v) →
  deleted s' !! slot h = None ∧ (heads s' !! slot h = Some h ∨ previous s' !! slot h = Some h ∧ s' = s).
Proof.
  intros Hwf [[-> Hin]|[(tomb & Ht & _ & _ & _ & -> & _)|(Hd & -> & _ & _)]]%put_spec.
  - split; [|naive_solver]. destruct (deleted s !! slot h) eqn:E'; [|done].
    apply (wf_deleted _ _ Hwf) in E'.
    destruct Hin as [(cur & ? & _)%(wf_previous _ _ Hwf)|?]; congruence.
  - simpl. rewrite lookup_delete_eq, lookup_insert_eq. auto.
  - simpl. rewrite lookup_insert_eq. auto.
Qed.

(** A [put] may be retried. Once a head is accepted, sending it again gives
    the same reply and changes nothing, and this still holds after the slot
    has moved on by one accepted successor. *)
Theorem put_retry max_slots s h id s1 v :
  wf max_slots s → put s h id max_slots = (s1, Ok v) →
  put s1 h id max_slots = (s1, Ok v) ∧
  (∀ h' id' s2 v', wf max_slots s1 → slot h' = slot h → continues h h' →
    put s1 h' id' max_slots = (s2, Ok v') → put s2 h id max_slots = (s2, Ok v)).
Proof.
  intros Hwf Hput. rewrite (put_reply _ _ _ _ _ _ Hput).
  destruct (put_lands _ _ _ _ _ _ Hwf Hput) as [Hd [Hh|[Hp _]]].
  - split; [by apply put_current|]. intros h' id' s2 v' Hwf1 Hslot Hc Hput'.
    destruct (put_spec _ _ _ _ _ _ Hput') as [[-> _]|[(tomb & Ht & _)|(_ & -> & _)]].
    + by apply put_current.
    + rewrite Hslot in Ht. congruence.
    + apply put_previous; simpl; [done|]. by rewrite Hslot, Hh, lookup_insert_eq.
  - split; [by apply put_previous|]. intros h' id' s2 v' Hwf1 Hslot Hc Hput'.
    destruct (wf_previous _ _ Hwf1 _ _ Hp) as (cur & Hcur & Hcc).
    destruct (put_spec _ _ _ _ _ _ Hput') as [[-> _]|[(tomb & Ht & _)|(_ & -> & _ & Hcas)]].
    + by apply put_previous.
    + rewrite Hslot in Ht. congruence.
    + exfalso. rewrite Hslot, Hcur in Hcas.
      destruct Hcas as (_ & H1 & _), Hc as (_ & H2 & _), Hcc as (_ & H3 & _). lia.
Qed.
End state.

(** ** Witnesses *)

Section witnesses.
Import Toy EscrowToy.

Definition toy_log : list (Command * string) :=
  [(Put "t" first_head, "a"); (Put "t" second_head, "b")].
Definition toy_state : State := replay 10 default_state toy_log.

Lemma escrow_replay_invariant_witness :
  0 ≤ 10 < U64_MAX ∧ view toy_state (slot first_head) = Some (second_head, true) ∧ wf 10 toy_state.
Proof.
  split; [done|]. split; [by vm_compute|]. unfold toy_state.
  by apply (escrow_replay_invariant 10 toy_log).
Defined.

Lemma slot_history_is_linear_witness :
  let del := [(DeleteSlot "t" (signed_delete second_head), "c")] in
  view toy_state (slot first_head) = Some (second_head, true) ∧
  view (replay 10 default_state (toy_log ++ del)) (slot first_head) = Some (second_head, false) ∧
  ∃ h' live', view (replay 10 default_state (toy_log ++ del)) (slot first_head) = Some (h', live') ∧
    rtc continues second_head h' ∧ writer h' = writer second_head ∧ seq second_head ≤ seq h'.
Proof.
  intros del. split; [by vm_compute|]. split; [by vm_compute|].
  apply (slot_history_is_linear 10 toy_log del _ _ true); [done|by vm_compute].
Defined.

Lemma changes_are_signed_witness :
  let c := DeleteSlot "t" (signed_delete second_head) in
  let s' := fst (run toy_state c "c" 10) in
  view s' (slot first_head) ≠ view toy_state (slot first_head) ∧
  ∃ h0, view toy_state (slot first_head) = Some (h0, true) ∧
    verify_delete (signed_delete second_head) (writer h0) = Ok tt.
Proof.
  intros c s'. assert (view s' (slot first_head) ≠ view toy_state (slot first_head)) as Hne.
  { by vm_compute. }
  split; [done|].
  assert (wf 10 toy_state) as Hwf by by apply replay_wf, wf_default.
  destruct (changes_are_signed 10 toy_state c "c" s' (snd (run toy_state c "c" 10)) (slot first_head))
    as [_ Hch]; [done|by destruct (run _ _ _ _)|].
  destruct (Hch Hne) as (_ & h0 & Hv0 & _ & Hs). exact (ex_intro _ h0 (conj Hv0 Hs)).
Defined.

Lemma snapshot_roundtrip_witness :
  ∃ bytes, encode toy_state = Ok bytes ∧
    decode (λ _, Some (with_bytes 0 toy_state)) bytes 10 = Ok toy_state.
Proof. by apply (snapshot_roundtrip (λ _, Some (with_bytes 0 toy_state)) 10 toy_log). Defined.

Lemma put_retry_witness :
  let s1 := replay 10 default_state [(Put "t" first_head, "a")] in
  put default_state first_head "a" 10 = (s1, Ok (ack first_head "a")) ∧
  put s1 first_head "a" 10 = (s1, Ok (ack first_head "a")).
Proof.
  intros s1.
  assert (put default_state first_head "a" 10 = (s1, Ok (ack first_head "a"))) as H by by vm_compute.
  split; [done|].
  apply (put_retry 10 default_state first_head "a" s1 (ack first_head "a")); [by apply wf_default|done].
Defined.
End witnesses.
