(* ===== verification/EscrowMesh.v ===== *)
(** * Escrow admission, configuration and mesh decisions

    [src/src/escrow/admission.rs] (request permits), the voting configurations
    of [src/src/escrow/replication/membership.rs], the holding and convergence
    decisions of [src/src/escrow/mesh/decision.rs] and the placement of
    [src/src/escrow/mesh/placement.rs]. *)
From S2P Require Import Prelude Json Wire EscrowProtocol.

(** ** Admission *)

Definition MAX_PUT_REQUESTS : Z := 20.
Definition MAX_REPLY_REQUESTS : Z := 8.
Definition MAX_BUSY_REQUESTS : Z := 4.
Definition MAX_PEER_REQUESTS : Z := 2.

Inductive RequestClass := CPut | CReply | CBusy.
#[global] Instance RequestClass_eq_dec : EqDecision RequestClass.
Proof. solve_decision. Defined.

(** The arrays of three, indexed by [class as usize]. *)
Record Three := { t_put : Z; t_reply : Z; t_busy : Z }.
#[global] Instance Three_eq_dec : EqDecision Three.
Proof. solve_decision. Defined.

Definition at_class (c : RequestClass) (t : Three) : Z :=
  match c with CPut => t_put t | CReply => t_reply t | CBusy => t_busy t end.
Definition add_class (c : RequestClass) (n : Z) (t : Three) : Three :=
  match c with
  | CPut => {| t_put := t_put t + n; t_reply := t_reply t; t_busy := t_busy t |}
  | CReply => {| t_put := t_put t; t_reply := t_reply t + n; t_busy := t_busy t |}
  | CBusy => {| t_put := t_put t; t_reply := t_reply t; t_busy := t_busy t + n |}
  end.
Definition zero : Three := {| t_put := 0; t_reply := 0; t_busy := 0 |}.

(** [pools] are the permits each semaphore has left. *)
Record Admission := { pools : Three; peer_counts : gmap string Three }.

Definition default_pools : Three :=
  {| t_put := MAX_PUT_REQUESTS; t_reply := MAX_REPLY_REQUESTS; t_busy := MAX_BUSY_REQUESTS |}.
Definition default_admission : Admission := {| pools := default_pools; peer_counts := ∅ |}.

Record Guard := { g_from : string; g_class : RequestClass }.

Definition acquire (a : Admission) (from : string) (c : RequestClass) : Admission * option Guard :=
  if at_class c (pools a) <=? 0 then (a, None) else
  let counts := default zero (peer_counts a !! from) in
  if MAX_PEER_REQUESTS <=? at_class c counts
  then ({| pools := pools a; peer_counts := <[from := counts]> (peer_counts a) |}, None)
  else ({| pools := add_class c (-1) (pools a);
           peer_counts := <[from := add_class c 1 counts]> (peer_counts a) |},
        Some {| g_from := from; g_class := c |}).

(** [Guard::drop], [None] where the [unwrap] or the subtraction panics; the
    permit goes back to its pool afterwards. *)
Definition drop_guard (a : Admission) (g : Guard) : option Admission :=
  match peer_counts a !! g_from g with
  | None => None
  | Some counts =>
      if at_class (g_class g) counts <=? 0 then None else
      let counts := add_class (g_class g) (-1) counts in
      Some {| pools := add_class (g_class g) 1 (pools a);
              peer_counts := if bool_decide (counts = zero) then delete (g_from g) (peer_counts a)
                             else <[g_from g := counts]> (peer_counts a) |}
  end.

(** ** Configurations *)

Definition MAX_VOTERS : Z := 9.
Definition MAX_LEARNERS : Z := 9.

Definition valid_voter (node : string) : bool := hex_string node 16.

Record RaftMembership := {
  voters : list string; joint_voters : option (list string); learners : list string;
}.

(** The loop of [configuration] over [voters] and [learners]. *)
Fixpoint distinct_voters (ids : gset string) (l : list string) : bool :=
  match l with
  | [] => true
  | id :: l => valid_voter id && negb (bool_decide (id ∈ ids)) && distinct_voters ({[id]} ∪ ids) l
  end.

Definition configuration (vs ls : list string) : result RaftMembership string :=
  ensure ((1 <=? zlen vs) && (zlen vs <=? MAX_VOTERS)) "expected 1..9 voters" ;;?
  ensure (zlen ls <=? MAX_LEARNERS) "expected at most 9 learners" ;;?
  ensure (distinct_voters ∅ (vs ++ ls)) "invalid, duplicate or overlapping member id" ;;?
  Ok {| voters := sort_strings vs; joint_voters := None; learners := sort_strings ls |}.

Definition config_peers (m : RaftMembership) : list string :=
  sort_strings (elements (list_to_set (voters m ++ default [] (joint_voters m) ++ learners m) : gset string)).

Definition check_promotion (current : RaftMembership) (committed : Z) (matched : gmap string Z)
    (voter : string) : result () string :=
  if contains (voters current) voter then Ok tt else
  ensure (contains (learners current) voter) "new voters must first join as learners" ;;?
  ensure (is_some_and (λ index, committed <=? index) (matched !! voter))
    "learner has not durably caught up".

Definition change (current : RaftMembership) (vs ls : list string) (committed : Z)
    (matched : gmap string Z) : result RaftMembership string :=
  ensure (negb (is_some (joint_voters current))) "membership change already in progress" ;;?
  let? next := configuration vs ls in
  let simultaneous : gset string := list_to_set (voters current ++ voters next ++ learners next) in
  ensure (Z.of_nat (size simultaneous) <=? MAX_VOTERS + MAX_LEARNERS)
    "joint membership exceeds peer capacity" ;;?
  try_each (check_promotion current committed matched) (voters next) ;;?
  Ok next.

(** ** Mesh decisions *)

Section decisions.
Context {C : Crypto} {E : EscrowEnv}.


Inductive Acceptance := New | Same | Stale | Conflict | WriterMismatch.

Definition acceptance (current : option Head) (incoming : Head) : Acceptance :=
  match current with
  | None => New
  | Some current =>
      if negb (bool_decide (writer current = writer incoming)) then WriterMismatch
      else if bool_decide (current = incoming) then Same
      else if seq incoming <? seq current then Stale
      else if seq incoming =? seq current then Conflict
      else New
  end.

Definition successor (head deleted : Head) : result () Error :=
  if negb (bool_decide (writer head = writer deleted)) then Err (error "writer_mismatch") else
  if negb (bool_decide (checked_add (seq deleted) 1 = Some (seq head)))
     || negb (bool_decide (parent head = Some (hash deleted)))
  then Err {| code := "deleted"; error_head := Some deleted |}
  else Ok tt.

Definition GRACE_MS : Z := 24 * 60 * 60 * 1000.

Definition informed (since now known hello : Z) : bool :=
  (60000 <=? sat_sub now since) || ((0 <? known) && (known =? hello)).

Definition holding (placed held informed all_confirmed : bool) (release : option Z) (now : Z)
    : bool * option Z :=
  if placed then (held || informed, None) else
  if negb held then (false, None) else
  if negb all_confirmed then (true, None) else
  let release := default (sat_add now GRACE_MS) release in
  (now <? release, Some release).

Definition classify (conflict : bool) (confirmed target : Z) (fetching : bool) : string :=
  if conflict then "conflict"
  else if target <=? confirmed then "healthy"
  else if fetching then "replicating"
  else "degraded".

Record MeshEntry := { e_slot : string; e_seq : Z; e_hash : string; e_kind : string; e_held : bool }.

Definition needs_head (local : option MeshEntry) (remote : MeshEntry) : bool :=
  is_none_or (λ local, (e_seq local <? e_seq remote)
    || ((e_seq remote =? e_seq local)
        && (negb (bool_decide (e_hash remote = e_hash local))
            || negb (bool_decide (e_kind remote = e_kind local))))) local.

Record ProviderInput := { p_did : string; p_free : Z; p_last_seen : Z; p_held : bool }.
Record Candidate := { c_did : string; available : Z }.

Definition placement_inputs (providers : list ProviderInput) (now dead_after size replicas : Z)
    (home : option string) : Z * list Candidate * option string :=
  let candidates := map (λ p, {| c_did := p_did p;
                                 available := sat_add (p_free p) (if p_held p then size else 0) |})
    (List.filter (λ p, sat_sub now (p_last_seen p) <=? dead_after) providers) in
  let target := Z.min replicas (zlen candidates) in
  let home := match home with
              | Some h => if existsb (λ p, bool_decide (c_did p = h)) candidates then Some h else None
              | None => None
              end in
  (target, candidates, home).
End decisions.

(** ** Placement

    [score owner did available] is the rank of a member: the total order of
    doubles on [-ln(u) / weight] with [u] from [sha256(owner|did)]. The
    floating-point functions are not modelled, so the rank is a parameter. *)
Section placement.
Variable score : string → string → Z → Z.

Definition add_member (bytes : Z) (home : option string) (c : Candidate) (m : gmap string Z) : gmap string Z :=
  if (available c <? bytes) || bool_decide (home = Some (c_did c)) then m
  else <[c_did c := match m !! c_did c with Some a => Z.max a (available c) | None => available c end]> m.

(** The loop over the candidates; the order does not matter, which is proved. *)
Definition members (bytes : Z) (home : option string) (cs : list Candidate) : gmap string Z :=
  foldl (λ m c, add_member bytes home c m) ∅ cs.

Definition rank_le (a b : Z * string) : Prop :=
  a.1 < b.1 ∨ (a.1 = b.1 ∧ String.le a.2 b.2).
#[global] Instance rank_le_dec : RelDecision rank_le.
Proof. intros a b. unfold rank_le. apply _. Defined.

Definition ranked (owner : string) (m : gmap string Z) : list (Z * string) :=
  merge_sort rank_le (map (λ p, (score owner p.1 p.2, p.1)) (map_to_list m)).

Definition place (owner : string) (bytes replicas : Z) (home : option string) (cs : list Candidate)
    : list string :=
  if replicas =? 0 then [] else
  let first := match home with Some h => [h] | None => [] end in
  let remaining := sat_sub replicas (zlen first) in
  first ++ map snd (take (Z.to_nat remaining) (ranked owner (members bytes home cs))).
End placement.

(** ** Admission is exact *)

Inductive admission_step : Admission * list Guard → Admission * list Guard → Prop :=
| step_acquire a gs from c a' g :
    acquire a from c = (a', Some g) → admission_step (a, gs) (a', g :: gs)
| step_refuse a gs from c a' :
    acquire a from c = (a', None) → admission_step (a, gs) (a', gs)
| step_drop a l1 g l2 a' :
    drop_guard a g = Some a' → admission_step (a, l1 ++ g :: l2) (a', l1 ++ l2).

Definition of_class (c : RequestClass) (g : Guard) : bool := bool_decide (g_class g = c).
Definition of_peer (from : string) (c : RequestClass) (g : Guard) : bool :=
  bool_decide (g_from g = from) && bool_decide (g_class g = c).
Definition held_by (p : Guard → bool) (gs : list Guard) : Z := zlen (List.filter p gs).

Record admission_ok (a : Admission) (gs : list Guard) : Prop := {
  ok_pool c : 0 ≤ at_class c (pools a) ∧
    at_class c (pools a) + held_by (of_class c) gs = at_class c default_pools;
  ok_count from c : at_class c (default zero (peer_counts a !! from)) = held_by (of_peer from c) gs;
  ok_peer from c : held_by (of_peer from c) gs ≤ MAX_PEER_REQUESTS;
  ok_entry from t : peer_counts a !! from = Some t → t ≠ zero;
}.

Lemma at_add_class c c' n t :
  at_class c (add_class c' n t) = at_class c t + (if bool_decide (c' = c) then n else 0).
Proof. destruct c, c', t; simpl; lia. Qed.

Lemma three_zero t : t = zero ↔ ∀ c, at_class c t = 0.
Proof.
  split; [intros -> []; done|]. intros H. destruct t as [a b c].
  pose proof (H CPut). pose proof (H CReply). pose proof (H CBusy). simpl in *. by subst.
Qed.

Lemma held_by_cons p g gs : held_by p (g :: gs) = (if p g then 1 else 0) + held_by p gs.
Proof. unfold held_by, zlen. simpl. destruct (p g); simpl; lia. Qed.

Lemma held_by_remove p l1 g l2 :
  held_by p (l1 ++ g :: l2) = (if p g then 1 else 0) + held_by p (l1 ++ l2).
Proof. unfold held_by, zlen. rewrite !List.filter_app. simpl. destruct (p g); rewrite !length_app; simpl; lia. Qed.

Lemma held_by_nonneg p gs : 0 ≤ held_by p gs.
Proof. unfold held_by. apply zlen_nonneg. Qed.

Lemma admission_ok_default : admission_ok default_admission [].
Proof. split; simpl; [by intros []| |done|]; intros; by rewrite ?lookup_empty in *; try destruct c. Qed.

Lemma acquire_ok a gs from c a' r :
  admission_ok a gs → acquire a from c = (a', r) →
  match r with
  | Some g => g = {| g_from := from; g_class := c |} ∧ admission_ok a' (g :: gs)
  | None => admission_ok a' gs
  end.
Proof.
  intros Hok. pose proof Hok as [Hp Hc Hl He]. unfold acquire.
  destruct (Z.leb_spec (at_class c (pools a)) 0); [by intros [= <- <-]|].
  destruct (Z.leb_spec MAX_PEER_REQUESTS (at_class c (default zero (peer_counts a !! from)))) as [Hfull|Hroom];
    intros [= <- <-].
  - assert (<[from:=default zero (peer_counts a !! from)]> (peer_counts a) = peer_counts a) as ->.
    { apply map_eq. intros k. destruct (decide (from = k)) as [<-|]; [|by rewrite lookup_insert_ne].
      rewrite lookup_insert_eq. destruct (peer_counts a !! from) eqn:E; [done|].
      exfalso. simpl in Hfull. destruct c; simpl in Hfull; done. }
    by destruct a.
  - split; [done|]. split.
    + intros c'. simpl. rewrite at_add_class, held_by_cons. unfold of_class at 1; simpl.
      specialize (Hp c'). case_bool_decide; subst; lia.
    + intros f' c'. simpl. rewrite held_by_cons, <-Hc. unfold of_peer; simpl.
      destruct (decide (from = f')) as [<-|Hne].
      * rewrite lookup_insert_eq. simpl. rewrite at_add_class.
        rewrite (bool_decide_true (from = from)) by done. simpl. case_bool_decide; lia.
      * rewrite lookup_insert_ne, (bool_decide_false (from = f')) by done. done.
    + intros f' c'. rewrite held_by_cons. unfold of_peer at 1; simpl.
      specialize (Hl f' c'). repeat case_bool_decide; simpl; subst; try lia.
      rewrite <-Hc in *. lia.
    + intros f' t. simpl. intros [[<- <-]|[_ Ht]]%lookup_insert_Some; [|by eapply He]. intros Hz. rewrite three_zero in Hz.
      specialize (Hz c). rewrite at_add_class, bool_decide_true, Hc in Hz by done.
      pose proof (held_by_nonneg (of_peer from c) gs). lia.
Qed.

Lemma drop_ok a l1 g l2 :
  admission_ok a (l1 ++ g :: l2) →
  ∃ a', drop_guard a g = Some a' ∧ admission_ok a' (l1 ++ l2).
Proof.
  intros [Hp Hc Hl He]. unfold drop_guard.
  assert (0 < held_by (of_peer (g_from g) (g_class g)) (l1 ++ g :: l2)) as Hpos.
  { rewrite held_by_remove. unfold of_peer at 1. rewrite !bool_decide_true by done. simpl.
    pose proof (held_by_nonneg (of_peer (g_from g) (g_class g)) (l1 ++ l2)). lia. }
  rewrite <-Hc in Hpos.
  destruct (peer_counts a !! g_from g) as [t|] eqn:Ht; simpl in Hpos; [|by destruct (g_class g)].
  destruct (Z.leb_spec (at_class (g_class g) t) 0); [lia|]. eexists. split; [done|]. split; simpl.
  - intros c'. specialize (Hp c'). rewrite held_by_remove in Hp. rewrite at_add_class.
    pose proof (held_by_nonneg (of_class c') (l1 ++ l2)). unfold of_class at 1 in Hp.
    case_bool_decide; lia.
  - intros f' c'. specialize (Hc f' c'). rewrite held_by_remove in Hc. unfold of_peer at 1 in Hc.
    destruct (decide (g_from g = f')) as [<-|Hne].
    + rewrite Ht in Hc. rewrite (bool_decide_true (g_from g = g_from g)) in Hc by done. simpl in Hc.
      destruct (bool_decide (add_class _ _ t = zero)) eqn:Hz; bools.
      * rewrite lookup_delete_eq. simpl. rewrite three_zero in Hz. specialize (Hz c').
        rewrite at_add_class in Hz. destruct c'; simpl in *; case_bool_decide; lia.
      * rewrite lookup_insert_eq. simpl. rewrite at_add_class. case_bool_decide; lia.
    + rewrite (bool_decide_false (g_from g = f')) in Hc by done. simpl in Hc. rewrite Z.add_0_l in Hc. rewrite <-Hc.
      case_bool_decide; by rewrite ?lookup_delete_ne, ?lookup_insert_ne.
  - intros f' c'. specialize (Hl f' c'). rewrite held_by_remove in Hl. case_if; lia.
  - intros f' t'. case_bool_decide as Hz.
    + intros [_ Hk]%lookup_delete_Some. by eapply He.
    + intros [[_ <-]|[_ Hk]]%lookup_insert_Some; [done|]. by eapply He.
Qed.

Lemma admission_reachable a gs :
  rtc admission_step (default_admission, []) (a, gs) → admission_ok a gs.
Proof.
  enough (∀ s s', rtc admission_step s s' → admission_ok s.1 s.2 → admission_ok s'.1 s'.2) as H.
  { intros Hr. by apply (H _ _ Hr), admission_ok_default. }
  induction 1 as [s|s s1 s' Hstep _ IH]; [done|]. intros Hok. apply IH. destruct Hstep; simpl in *.
  - eapply (acquire_ok _ _ _ _ _ (Some _)) in H as [_ ?]; done.
  - by eapply (acquire_ok _ _ _ _ _ None) in H.
  - apply drop_ok in Hok as (a2 & Ha & ?). congruence.
Qed.

(** C16: after any interleaving of acquisitions, refusals and drops, the guards
    in flight respect every pool and peer bound, a request is refused exactly
    when its pool or its peer's share is full, dropping any of them never
    panics, and with no guard in flight the accounting is back at the start. *)
Theorem admission_exact a gs :
  rtc admission_step (default_admission, []) (a, gs) →
  (∀ c, held_by (of_class c) gs ≤ at_class c default_pools) ∧
  (∀ from c, held_by (of_peer from c) gs ≤ MAX_PEER_REQUESTS) ∧
  (∀ from c, snd (acquire a from c) = None ↔
     held_by (of_class c) gs = at_class c default_pools ∨
     held_by (of_peer from c) gs = MAX_PEER_REQUESTS) ∧
  (∀ g, g ∈ gs → is_Some (drop_guard a g)) ∧
  (gs = [] → a = default_admission).
Proof.
  intros Hr. apply admission_reachable in Hr as Hok. pose proof Hok as [Hp Hc Hl He]. split_and!.
  - intros c. specialize (Hp c). lia.
  - done.
  - intros from c. specialize (Hp c). specialize (Hl from c). specialize (Hc from c). unfold acquire.
    destruct (Z.leb_spec (at_class c (pools a)) 0); simpl.
    { split; [intros _; left; lia|done]. }
    destruct (Z.leb_spec MAX_PEER_REQUESTS (at_class c (default zero (peer_counts a !! from)))); simpl.
    { split; [intros _; right; lia|done]. }
    split; [done|]. intros []; lia.
  - intros g (l1 & l2 & ->)%list_elem_of_split.
    destruct (drop_ok _ _ _ _ Hok) as (a' & -> & _). by eexists.
  - intros ->. destruct a as [p m]. unfold default_admission. f_equal.
    + assert (∀ c, at_class c p = at_class c default_pools) as Heq.
      { intros c. specialize (Hp c). change (held_by _ []) with 0 in Hp. simpl in Hp. lia. }
      destruct p as [p1 p2 p3]. specialize (Heq CPut) as H1. specialize (Heq CReply) as H2.
      specialize (Heq CBusy) as H3. simpl in H1, H2, H3. by subst.
    + apply map_empty. intros k. simpl in *. destruct (m !! k) as [t|] eqn:Hk; [|done].
      exfalso. apply (He _ _ Hk), three_zero. intros c. specialize (Hc k c). by rewrite Hk in Hc.
Qed.

Lemma admission_exact_witness :
  let a := fst (acquire default_admission "peer" CBusy) in
  let g := {| g_from := "peer"; g_class := CBusy |} in
  rtc admission_step (default_admission, []) (a, [g]) ∧ is_Some (drop_guard a g).
Proof.
  intros a g.
  assert (rtc admission_step (default_admission, []) (a, [g])) as Hr.
  { apply rtc_once. by apply (step_acquire _ _ "peer" CBusy). }
  split; [done|]. apply (admission_exact a [g] Hr). left.
Defined.

(** ** Configuration changes are gated *)

Lemma distinct_voters_spec ids l :
  distinct_voters ids l = true ↔
  (∀ id, id ∈ l → valid_voter id = true ∧ id ∉ ids) ∧ NoDup l.
Proof.
  revert ids. induction l as [|x l IH]; intros ids; simpl.
  { split; [intros _; split; [set_solver|constructor]|done]. }
  rewrite !andb_true_iff, negb_true_iff, bool_decide_eq_false, IH. split.
  - intros [[Hv Hx] [Hall Hnd]]. split.
    + intros id [->|Hin]%elem_of_cons; [done|]. apply Hall in Hin as [? ?]. set_solver.
    + constructor; [|done]. intros Hin. apply Hall in Hin as [_ ?]. set_solver.
  - intros [Hall [Hx Hnd]%NoDup_cons]. split.
    + apply Hall. by left.
    + split; [|done]. intros id Hin. split; [apply Hall; by right|].
      apply not_elem_of_union. split; [set_solver|apply Hall; by right].
Qed.

Lemma configuration_spec vs ls next :
  configuration vs ls = Ok next ↔
  1 ≤ zlen vs ≤ MAX_VOTERS ∧ zlen ls ≤ MAX_LEARNERS ∧
  (∀ id, id ∈ vs ++ ls → valid_voter id = true) ∧ NoDup (vs ++ ls) ∧
  next = {| voters := sort_strings vs; joint_voters := None; learners := sort_strings ls |}.
Proof.
  unfold configuration. split.
  - intros ([] & Hv%ensure_Ok & ([] & Hl%ensure_Ok & ([] & Hd%ensure_Ok & [= <-])%rbind_Ok)%rbind_Ok)%rbind_Ok.
    apply distinct_voters_spec in Hd as [Hall Hnd]. bools. split_and!; try done.
    intros id Hid. by apply Hall.
  - intros ([Hv1 Hv2] & Hl & Hall & Hnd & ->).
    step_ok. { apply ensure_Ok, andb_true_iff. by rewrite !Z.leb_le. }
    step_ok. { by apply ensure_Ok, Z.leb_le. }
    step_ok; [|done]. apply ensure_Ok, distinct_voters_spec. split; [|done].
    intros id Hid. split; [by apply Hall|set_solver].
Qed.

(** A membership change is accepted exactly when no other change is in
    progress, the new sets are disjoint, valid and within 9 and 9, the joint
    set fits 18 peers, and every voter that is new was a learner whose log has
    durably reached the committed index; the configuration it returns is not
    joint and holds the requested sets in ascending order. *)
Theorem change_gate current vs ls committed matched next :
  change current vs ls committed matched = Ok next ↔
  joint_voters current = None ∧
  (1 ≤ zlen vs ≤ MAX_VOTERS ∧ zlen ls ≤ MAX_LEARNERS) ∧
  (∀ id, id ∈ vs ++ ls → valid_voter id = true) ∧ NoDup (vs ++ ls) ∧
  Z.of_nat (size (list_to_set (voters current ++ vs ++ ls) : gset string)) ≤ MAX_VOTERS + MAX_LEARNERS ∧
  (∀ id, id ∈ vs → id ∉ voters current →
     id ∈ learners current ∧ ∃ index, matched !! id = Some index ∧ committed ≤ index) ∧
  next = {| voters := sort_strings vs; joint_voters := None; learners := sort_strings ls |}.
Proof.
  assert (∀ id, check_promotion current committed matched id = Ok tt ↔
    (id ∉ voters current → id ∈ learners current ∧ ∃ index, matched !! id = Some index ∧ committed ≤ index))
    as Hpro.
  { intros id. unfold check_promotion, contains. case_bool_decide as Hc; [by split; [intros _ ?|]|].
    rewrite rbind_Ok. setoid_rewrite ensure_Ok. setoid_rewrite is_some_and_true.
    setoid_rewrite bool_decide_eq_true. setoid_rewrite Z.leb_le. split.
    - intros ([] & ? & ?). done.
    - intros H. exists tt. by apply H. }
  assert (∀ n : RaftMembership, n = {| voters := sort_strings vs; joint_voters := None; learners := sort_strings ls |} →
    list_to_set (voters current ++ voters n ++ learners n) = (list_to_set (voters current ++ vs ++ ls) : gset string))
    as Hset.
  { intros n ->. simpl. apply set_eq. intros x. rewrite !elem_of_list_to_set, !elem_of_app.
    by rewrite !elem_of_sort_strings. }
  unfold change. split.
  - intros ([] & Hj%ensure_Ok & (n & (Hv & Hl & Hval & Hnd & Hn)%configuration_spec &
      ([] & Hsz%ensure_Ok & ([] & Hall & [= <-])%rbind_Ok)%rbind_Ok)%rbind_Ok)%rbind_Ok.
    rewrite (Hset _ Hn) in Hsz. rewrite try_each_Ok in Hall. bools. split_and!; try done; try lia.
    + by destruct (joint_voters current).
    + intros id Hin. apply Hpro, Hall. rewrite Hn. simpl. by apply elem_of_sort_strings.
  - intros (Hj & [Hv Hl] & Hval & Hnd & Hsz & Hall & Hn).
    step_ok; [by rewrite Hj|]. apply rbind_Ok. exists next. split; [by apply configuration_spec|].
    step_ok; [by apply ensure_Ok, Z.leb_le; rewrite (Hset _ Hn)|]. step_ok; [|done].
    apply try_each_Ok. intros id Hin. apply Hpro, Hall. rewrite Hn in Hin.
    simpl in Hin. by rewrite elem_of_sort_strings in Hin.
Qed.

(** ** Grace before a holding is dropped *)

(** What the maintenance loop sees of one slot: a pass over it, and the store
    gaining or losing the blob. *)
Inductive hold_event :=
| Tick (placed informed all_confirmed : bool) (now : Z)
| Acquired
| Released.

(** The slot's holding flag and its entry in [state.release]. *)
Definition hold_step (st : bool * option Z) (e : hold_event) : bool * option Z :=
  match e with
  | Tick placed informed all_confirmed now =>
      (st.1, snd (holding placed st.1 informed all_confirmed st.2 now))
  | Acquired => (true, st.2)
  | Released => (false, st.2)
  end.

Definition unplaced_tick (e : hold_event) : Prop :=
  match e with Tick placed _ all_confirmed _ => placed = false ∧ all_confirmed = true | _ => True end.

(** The pass at [t0] opened the grace period, and no later one closed it. *)
Definition grace_since (t0 : Z) (tr : list hold_event) : Prop :=
  ∃ tr1 informed tr2, tr = tr1 ++ Tick false informed true t0 :: tr2 ∧ Forall unplaced_tick tr2.

Lemma release_grace tr held r :
  foldl hold_step (false, None) tr = (held, Some r) →
  ∃ t0, grace_since t0 tr ∧ r = sat_add t0 GRACE_MS.
Proof.
  revert held. induction tr as [|e tr IH] using rev_ind; intros held; [done|].
  rewrite foldl_app. simpl. destruct (foldl hold_step (false, None) tr) as [h rel] eqn:Hf.
  assert (rel = Some r → unplaced_tick e →
    ∃ t0, grace_since t0 (tr ++ [e]) ∧ r = sat_add t0 GRACE_MS) as Hext.
  { intros -> He. destruct (IH h eq_refl) as (t0 & (tr1 & i & tr2 & -> & Hall) & ->).
    exists t0. split; [|done]. exists tr1, i, (tr2 ++ [e]). split; [by rewrite <-app_assoc|].
    apply Forall_app. by repeat constructor. }
  destruct e as [placed inf all now| |]; simpl; intros [= <- H]; try by apply Hext.
  unfold holding in H. destruct placed; [done|]. destruct h; [|done]. destruct all; [|done]. simpl in H.
  destruct rel as [r'|]; simpl in H; [by apply Hext|]. simplify_eq.
  exists now. split; [|done]. by exists tr, inf, [].
Qed.

(** A replica that holds a slot gives it up only after a full day in which
    every pass found the slot placed elsewhere and all its holders confirmed;
    one pass that finds otherwise starts the day again, and a slot placed here
    is never given up. *)
Theorem holding_grace tr placed informed all_confirmed now release held release' :
  foldl hold_step (false, None) tr = (true, release) →
  now < U64_MAX →
  holding placed true informed all_confirmed release now = (held, release') →
  held = false →
  placed = false ∧ all_confirmed = true ∧
  ∃ t0, t0 + GRACE_MS ≤ now ∧ (grace_since t0 tr).
Proof.
  intros Htr Hnow Hh ->. unfold holding in Hh.
  destruct placed; [done|]. destruct all_confirmed; simpl in Hh; [|done].
  split_and!; try done. destruct release as [r|]; simpl in Hh.
  - destruct (release_grace _ _ _ Htr) as (t0 & Hg & ->). exists t0. split; [|done].
    simplify_eq. bools. unfold sat_add in *. lia.
  - exfalso. simplify_eq. bools. unfold sat_add, GRACE_MS in *. lia.
Qed.

Lemma holding_grace_witness :
  let tr := [Acquired; Tick false true true 5] in
  foldl hold_step (false, None) tr = (true, Some (5 + GRACE_MS)) ∧
  ∃ t0, t0 + GRACE_MS ≤ 5 + GRACE_MS ∧ grace_since t0 tr.
Proof.
  intros tr. assert (foldl hold_step (false, None) tr = (true, Some (5 + GRACE_MS))) as H by done.
  split; [done|].
  by destruct (holding_grace tr false true true (5 + GRACE_MS) _ false (Some (5 + GRACE_MS)) H)
    as (_ & _ & t0 & ? & ?); [..|exists t0].
Defined.

(** ** Placement *)

#[export] Instance rank_le_trans : Transitive rank_le.
Proof.
  intros [a s] [b t] [c u] [H1|[H1 H1']] [H2|[H2 H2']]; simpl in *; unfold rank_le; simpl.
  1-3: left; lia.
  right. split; [lia|by etrans].
Qed.
#[export] Instance rank_le_antisymm : AntiSymm (=) rank_le.
Proof.
  intros [a s] [b t] [H1|[H1 H1']] [H2|[H2 H2']]; simpl in *; try lia. subst. f_equal. by apply (anti_symm String.le).
Qed.
#[export] Instance rank_le_total : Total rank_le.
Proof.
  intros [a s] [b t]. unfold rank_le; simpl. destruct (Z.lt_trichotomy a b) as [H|[H|H]]; [auto| |auto].
  destruct (total String.le s t); auto.
Qed.

Section placement_theorems.
Variable score : string → string → Z → Z.

Lemma add_member_comm bytes home c1 c2 m :
  add_member bytes home c1 (add_member bytes home c2 m) =
  add_member bytes home c2 (add_member bytes home c1 m).
Proof.
  unfold add_member.
  destruct ((available c1 <? bytes) || bool_decide (home = Some (c_did c1)));
    destruct ((available c2 <? bytes) || bool_decide (home = Some (c_did c2))); try done.
  destruct (decide (c_did c1 = c_did c2)) as [Heq|Hne].
  - rewrite Heq, !lookup_insert_eq, !insert_insert_eq. f_equal. destruct (m !! c_did c2); lia.
  - rewrite !lookup_insert_ne by done. by rewrite insert_insert_ne.
Qed.

Lemma members_perm bytes home cs cs' : cs ≡ₚ cs' → members bytes home cs = members bytes home cs'.
Proof.
  intros Hp. unfold members. generalize (∅ : gmap string Z) as m.
  induction Hp as [|c l l' _ IH|c1 c2 l|l1 l2 l3 _ IH1 _ IH2]; intros m; simpl; auto.
  - by rewrite add_member_comm.
  - by rewrite IH1.
Qed.

Lemma members_snoc bytes home cs c :
  members bytes home (c :: cs) = add_member bytes home c (members bytes home cs).
Proof. rewrite (members_perm bytes home _ (cs ++ [c])) by solve_Permutation. unfold members. by rewrite foldl_app. Qed.

Lemma members_lookup bytes home cs d a :
  members bytes home cs !! d = Some a →
  home ≠ Some d ∧ ∃ c, c ∈ cs ∧ c_did c = d ∧ available c = a ∧ bytes ≤ a.
Proof.
  revert a. induction cs as [|c cs IH]; intros a; [done|]. rewrite members_snoc. unfold add_member.
  destruct ((available c <? bytes) || bool_decide (home = Some (c_did c))) eqn:Hskip.
  { intros Hm. destruct (IH a Hm) as (? & c' & ? & ?). split; [done|]. exists c'. split; [by right|done]. }
  bools. intros [[<- Ha]|[_ Hm]]%lookup_insert_Some.
  - split; [done|]. destruct (members bytes home cs !! c_did c) as [a'|] eqn:Hm.
    + destruct (Z.max_spec a' (available c)) as [[_ Hmax]|[_ Hmax]]; rewrite Hmax in Ha.
      * exists c. subst a. split_and!; [by left|done|done|done].
      * destruct (IH a' eq_refl) as (_ & c' & ? & ? & ? & ?). exists c'. subst a. split_and!; [by right|done..].
    + exists c. subst a. split_and!; [by left|done|done|done].
  - destruct (IH a Hm) as (? & c' & ? & ?). split; [done|]. exists c'. split; [by right|done].
Qed.

Lemma members_eligible bytes home cs c :
  c ∈ cs → bytes ≤ available c → home ≠ Some (c_did c) →
  is_Some (members bytes home cs !! c_did c).
Proof.
  intros Hin Ha Hh. induction cs as [|c' cs IH]; [by apply elem_of_nil in Hin|].
  rewrite members_snoc. unfold add_member.
  apply elem_of_cons in Hin as [->|Hin].
  - rewrite (bool_decide_false (home = _)), (proj2 (Z.ltb_ge _ _)) by done. simpl.
    rewrite lookup_insert_eq. by eexists.
  - destruct (_ || _); [by apply IH|]. destruct (decide (c_did c' = c_did c)) as [->|Hne].
    + rewrite lookup_insert_eq. by eexists.
    + rewrite lookup_insert_ne by done. by apply IH.
Qed.

Lemma ranked_perm owner m :
  ranked score owner m ≡ₚ map (λ p, (score owner p.1 p.2, p.1)) (map_to_list m).
Proof. apply merge_sort_Permutation. Qed.

Lemma elem_of_ranked owner m x :
  x ∈ ranked score owner m ↔ ∃ a, m !! x.2 = Some a ∧ x.1 = score owner x.2 a.
Proof.
  rewrite ranked_perm, list_elem_of_fmap. split.
  - intros ([d a] & -> & Hin%elem_of_map_to_list). by exists a.
  - intros (a & Hm & Hx). exists (x.2, a). split; [destruct x; simpl in *; by subst|].
    by apply elem_of_map_to_list.
Qed.

Lemma ranked_dids_nodup owner m : NoDup (map snd (ranked score owner m)).
Proof.
  rewrite ranked_perm, map_map. simpl. apply (NoDup_fst_map_to_list m).
Qed.

Lemma ranked_sorted owner m : StronglySorted rank_le (ranked score owner m).
Proof. apply StronglySorted_merge_sort; apply _. Qed.

Lemma ranked_length owner m : zlen (ranked score owner m) = zsize m.
Proof. unfold zlen, zsize. by rewrite ranked_perm, length_map, length_map_to_list. Qed.


(** The members [place] chooses besides the home. *)
Definition chosen (owner : string) (bytes replicas : Z) (home : option string) (cs : list Candidate)
    : list (Z * string) :=
  take (Z.to_nat (sat_sub replicas (if home then 1 else 0))) (ranked score owner (members bytes home cs)).

Lemma place_chosen owner bytes replicas home cs :
  replicas ≠ 0 →
  place score owner bytes replicas home cs
  = (match home with Some h => [h] | None => [] end) ++ map snd (chosen owner bytes replicas home cs).
Proof.
  intros Hr. unfold place, chosen. rewrite (proj2 (Z.eqb_neq _ _)) by done. by destruct home.
Qed.

Lemma elem_of_chosen owner bytes replicas home cs x :
  x ∈ chosen owner bytes replicas home cs →
  ∃ a, members bytes home cs !! x.2 = Some a ∧ x.1 = score owner x.2 a.
Proof. intros Hx. by apply elem_of_ranked, (subseteq_take _ _ x Hx). Qed.

(** A sorted list gains one element in place. *)
Lemma sorted_insert_split x (l l' : list (Z * string)) :
  Sorted rank_le l → Sorted rank_le l' → l' ≡ₚ x :: l →
  ∃ l1 l2, l = l1 ++ l2 ∧ l' = l1 ++ x :: l2.
Proof.
  revert l'. induction l as [|y l IH]; intros l' Hl Hl' Hp.
  - exists [], []. split; [done|]. by apply Permutation_singleton_r in Hp.
  - apply Sorted_StronglySorted in Hl as Hs; [|apply _]. inversion Hs as [|? ? Hs' Hy]; subst.
    destruct (decide (rank_le x y)) as [Hle|Hgt].
    + exists [], (y :: l). split; [done|]. apply (Sorted_unique rank_le); [done| |done].
      constructor; [done|]. by constructor.
    + destruct l' as [|z l'].
      { by apply Permutation_nil_l in Hp. }
      assert (z = y) as ->.
      { apply Sorted_StronglySorted in Hl' as Hs2; [|apply _]. inversion Hs2 as [|? ? _ Hz]; subst.
        assert (z ∈ x :: y :: l) as Hin by (rewrite <-Hp; left).
        assert (rank_le z y) as Hzy.
        { assert (y ∈ z :: l') as Hyin by (rewrite Hp; right; left).
          apply elem_of_cons in Hyin as [->|Hyin]; [by destruct (total rank_le z z)|].
          rewrite Forall_forall in Hz. by apply Hz. }
        apply elem_of_cons in Hin as [->|Hin]; [done|].
        apply elem_of_cons in Hin as [->|Hin]; [done|].
        apply (anti_symm rank_le); [done|]. rewrite Forall_forall in Hy. by apply Hy. }
      destruct (IH l') as (l1 & l2 & -> & ->).
      * by inversion Hl.
      * by inversion Hl'.
      * apply (Permutation_cons_inv (a := y)). rewrite Hp. apply Permutation_swap.
      * by exists (y :: l1), l2.
Qed.

Lemma take_insert {A} n (x y : A) l1 l2 :
  y ∈ take n (l1 ++ x :: l2) → y = x ∨ y ∈ take n (l1 ++ l2).
Proof.
  rewrite !take_app. intros [H|H]%elem_of_app; [right; apply elem_of_app; by left|].
  destruct (n - length l1)%nat as [|k] eqn:E; simpl in H; [by apply elem_of_nil in H|].
  apply elem_of_cons in H as [->|H]; [by left|]. right. apply elem_of_app. right.
  replace (take k l2) with (take k (take (S k) l2)) in H by (rewrite take_take; f_equal; lia).
  by apply (subseteq_take k).
Qed.

(** Placement is sound and optimal. It asks for nothing when no replica is
    wanted; otherwise the home comes first, no holder is named twice, every
    other holder advertises room for the data, the number of holders is the
    number wanted or everyone eligible, and no member left out ranks before one
    chosen. The order of the candidates, and which advertisement of a member
    comes first, make no difference. *)
Theorem place_sound owner bytes replicas home cs :
  0 ≤ replicas →
  (replicas = 0 → place score owner bytes replicas home cs = []) ∧
  (∀ cs', cs ≡ₚ cs' → place score owner bytes replicas home cs' = place score owner bytes replicas home cs) ∧
  (0 < replicas →
   (∀ h, home = Some h → hd_error (place score owner bytes replicas home cs) = Some h) ∧
   NoDup (place score owner bytes replicas home cs) ∧
   zlen (place score owner bytes replicas home cs)
     = Z.min replicas ((if home then 1 else 0) + zsize (members bytes home cs)) ∧
   (∀ d, d ∈ place score owner bytes replicas home cs → home ≠ Some d →
      ∃ c, c ∈ cs ∧ c_did c = d ∧ bytes ≤ available c) ∧
   (∀ c d, c ∈ cs → bytes ≤ available c → home ≠ Some d → home ≠ Some (c_did c) →
      d ∈ place score owner bytes replicas home cs → c_did c ∉ place score owner bytes replicas home cs →
      ∃ a b, members bytes home cs !! d = Some a ∧ members bytes home cs !! c_did c = Some b ∧
        rank_le (score owner d a, d) (score owner (c_did c) b, c_did c))).
Proof.
  intros Hr. split; [by intros ->|].
  split; [intros cs' Hp; unfold place; by rewrite (members_perm _ _ _ _ Hp)|].
  intros Hpos. rewrite place_chosen by lia.
  pose proof (ranked_dids_nodup owner (members bytes home cs)) as Hnd.
  assert (∀ d, d ∈ map snd (chosen owner bytes replicas home cs) →
    ∃ a, members bytes home cs !! d = Some a ∧ (score owner d a, d) ∈ chosen owner bytes replicas home cs) as Hc.
  { intros d ([s d'] & -> & Hin)%list_elem_of_fmap. destruct (elem_of_chosen _ _ _ _ _ _ Hin) as (a & ? & Hs).
    simpl in *. exists a. by subst s. }
  split_and!.
  - by intros h ->.
  - apply NoDup_app. split_and!.
    + destruct home; [apply NoDup_singleton|constructor].
    + intros d Hd (a & Hm & _)%Hc. destruct home as [h|]; [|by apply elem_of_nil in Hd].
      apply list_elem_of_singleton in Hd as ->. by apply members_lookup in Hm as [? _].
    + unfold chosen. rewrite <-firstn_map. set (n := Z.to_nat _).
      rewrite <-(take_drop n (map snd _)) in Hnd. by apply NoDup_app in Hnd as [? _].
  - unfold chosen, sat_sub. rewrite zlen_app. unfold zlen at 2. rewrite length_map, length_take.
    pose proof (ranked_length owner (members bytes home cs)) as Hlen. unfold zlen in Hlen.
    destruct home; unfold zlen; simpl; lia.
  - intros d [Hd|(a & Hm & _)%Hc]%elem_of_app Hh.
    { destruct home; [|by apply elem_of_nil in Hd]. apply list_elem_of_singleton in Hd. by subst. }
    apply members_lookup in Hm as (_ & c & ? & ? & ? & ?). exists c. split_and!; [done..|lia].
  - intros c d Hin Ha Hd Hcd Hdin Hout. apply elem_of_app in Hdin as [Hdin|Hdin].
    { destruct home; [|by apply elem_of_nil in Hdin]. apply list_elem_of_singleton in Hdin. by subst. }
    apply Hc in Hdin as (a & Hm & Hdin). destruct (members_eligible _ _ _ _ Hin Ha Hcd) as [b Hb].
    exists a, b. split_and!; [done..|].
    assert ((score owner (c_did c) b, c_did c) ∈ ranked score owner (members bytes home cs)) as Hr'.
    { apply elem_of_ranked. by exists b. }
    unfold chosen in Hdin. set (n := Z.to_nat _) in *.
    rewrite <-(take_drop n (ranked score owner (members bytes home cs))) in Hr'.
    apply elem_of_app in Hr' as [Hr'|Hr'].
    { exfalso. apply Hout, elem_of_app. right. apply list_elem_of_fmap. by exists (score owner (c_did c) b, c_did c). }
    pose proof (ranked_sorted owner (members bytes home cs)) as Hs.
    rewrite <-(take_drop n (ranked score owner (members bytes home cs))) in Hs.
    by eapply StronglySorted_app_1_elem_of.
Qed.

(** Placement is stable. When a member joins, the only change to the
    holders is that it may take one place: every other holder held before, and
    if it is not chosen nothing changes at all. *)
Theorem place_minimal_disruption owner bytes replicas home cs c :
  (∀ c', c' ∈ cs → c_did c' ≠ c_did c) →
  (∀ d, d ∈ place score owner bytes replicas home (c :: cs) →
     d = c_did c ∨ d ∈ place score owner bytes replicas home cs) ∧
  (c_did c ∉ place score owner bytes replicas home (c :: cs) →
   place score owner bytes replicas home (c :: cs) = place score owner bytes replicas home cs).
Proof.
  intros Hnew. destruct (decide (replicas = 0)) as [->|Hr]; [split; [intros d Hd; by right|done]|].
  rewrite !place_chosen by done. unfold chosen. set (n := Z.to_nat _). rewrite members_snoc.
  set (m := members bytes home cs). unfold add_member.
  destruct ((available c <? bytes) || bool_decide (home = Some (c_did c))); [auto|].
  assert (m !! c_did c = None) as Hm.
  { destruct (m !! c_did c) as [a|] eqn:E; [|done].
    apply members_lookup in E as (_ & c' & Hin & Hd & _). by apply Hnew in Hin. }
  rewrite Hm. set (x := (score owner (c_did c) (available c), c_did c)).
  destruct (sorted_insert_split x (ranked score owner m) (ranked score owner (<[c_did c:=available c]> m)))
    as (l1 & l2 & El & El').
  { apply StronglySorted_Sorted, ranked_sorted. }
  { apply StronglySorted_Sorted, ranked_sorted. }
  { rewrite !ranked_perm, map_to_list_insert by done. done. }
  rewrite El, El'. split.
  - intros d [Hd|(y & -> & Hy)%list_elem_of_fmap]%elem_of_app; [right; apply elem_of_app; by left|].
    apply take_insert in Hy as [->|Hy]; [by left|]. right. apply elem_of_app. right.
    apply list_elem_of_fmap. by exists y.
  - intros Hout. f_equal. destruct (decide (n ≤ length l1)%nat) as [Hn|Hn].
    + by rewrite !take_app_le.
    + exfalso. apply Hout, elem_of_app. right. apply list_elem_of_fmap. exists x. split; [done|].
      rewrite take_app. apply elem_of_app. right.
      destruct (n - length l1)%nat eqn:E; [lia|]. simpl. left.
Qed.
End placement_theorems.

Definition toy_candidates : list Candidate :=
  [{| c_did := "a"; available := 10 |}; {| c_did := "b"; available := 20 |}].
Definition toy_score (owner did : string) (a : Z) : Z := - a.

Lemma place_sound_witness :
  place toy_score "o" 5 1 None toy_candidates = ["b"] ∧
  zlen (place toy_score "o" 5 1 None toy_candidates) = Z.min 1 (0 + zsize (members 5 None toy_candidates)).
Proof.
  split; [by vm_compute|].
  by destruct (place_sound toy_score "o" 5 1 None toy_candidates) as (_ & _ & (_ & _ & H & _)); [..|exact H].
Defined.

Lemma place_minimal_disruption_witness :
  let c := {| c_did := "c"; available := 15 |} in
  place toy_score "o" 5 2 None (c :: toy_candidates) = ["b"; "c"] ∧
  (∀ d, d ∈ place toy_score "o" 5 2 None (c :: toy_candidates) →
     d = "c" ∨ d ∈ place toy_score "o" 5 2 None toy_candidates).
Proof.
  intros c. split; [by vm_compute|].
  apply (place_minimal_disruption toy_score "o" 5 2 None toy_candidates c).
  intros c' [->|[->|[]%elem_of_nil]%elem_of_cons]%elem_of_cons; done.
Defined.
