(* ===== verification/EscrowRepository.v ===== *)
(** * The escrow repository

    [src/src/escrow/repository.rs] and [repository_mesh.rs]: the durable copies
    of the heads and their blobs. Memory is an index under one lock; the disk
    holds a state file per slot and a directory per generation of a slot. Each
    call to the disk succeeds, fails, or is the one the process dies in; a
    write that does not return may have happened, since it replaces a file
    atomically and syncs directories afterwards. State files are the records
    serde reads back from them; the temporary files of a write that was cut off
    are not modelled. *)
From S2P Require Import Prelude Effects Text Json Wire EscrowProtocol EscrowMesh.

(** ** Configuration *)

Record EscrowReplication := {
  rep_room : string; rep_voters : list string; rep_learners : list string; migration_seed : option string
}.
Record EscrowConfig := {
  enabled : bool; cfg_rooms : list string; cfg_replication : list EscrowReplication; max_blob_bytes : Z; max_total_bytes : Z;
  max_slots_per_room : Z; auto_replicas : Z; dead_after_secs : Z
}.

Definition default_config : EscrowConfig := {|
  enabled := false; cfg_rooms := []; cfg_replication := []; max_blob_bytes := 32 * 1024 * 1024;
  max_total_bytes := 1024 * 1024 * 1024; max_slots_per_room := 1024; auto_replicas := 3; dead_after_secs := 24 * 60 * 60
|}.

(** The loops that insert into a [HashSet], with the message for what is not
    valid and the one for what is already there. *)
Fixpoint insert_all (check : string → bool) (invalid duplicate : string) (seen : gset string) (l : list string)
    : result (gset string) string :=
  match l with
  | [] => Ok seen
  | x :: l =>
      ensure (check x) invalid ;;?
      ensure (bool_decide (x ∉ seen)) duplicate ;;?
      insert_all check invalid duplicate ({[x]} ∪ seen) l
  end.

Definition validate_cluster (rooms : list string) (replicated : gset string) (c : EscrowReplication) : result () string :=
  ensure (contains rooms (rep_room c)) "escrow.replication: room must be configured" ;;?
  ensure (bool_decide (rep_room c ∉ replicated)) "escrow.replication: duplicate room" ;;?
  ensure ((1 <=? zlen (rep_voters c)) && (zlen (rep_voters c) <=? 9)) "escrow.replication: expected 1..9 genesis voters" ;;?
  let voter := "escrow.replication: invalid or duplicate voter node id" in
  let? voters := insert_all valid_voter voter voter ∅ (rep_voters c) in
  ensure (zlen (rep_learners c) <=? 9) "escrow.replication: at most 9 initial learners" ;;?
  let learner := "escrow.replication: invalid, duplicate or voting learner node id" in
  let? _ := insert_all valid_voter learner learner voters (rep_learners c) in
  ensure (is_none_or (contains (rep_voters c)) (migration_seed c))
    "escrow.replication: migration seed must be a genesis voter".

Fixpoint validate_clusters (rooms : list string) (replicated : gset string) (l : list EscrowReplication)
    : result () string :=
  match l with
  | [] => Ok tt
  | c :: l => validate_cluster rooms replicated c ;;? validate_clusters rooms ({[rep_room c]} ∪ replicated) l
  end.

Definition validate_config (cfg : EscrowConfig) : result () string :=
  ensure (zlen (cfg_rooms cfg) <=? 64) "escrow.rooms: at most 64 rooms" ;;?
  let? _ := insert_all valid_room "escrow.rooms: invalid room id" "escrow.rooms: duplicate room id" ∅ (cfg_rooms cfg) in
  validate_clusters (cfg_rooms cfg) ∅ (cfg_replication cfg) ;;?
  ensure ((1 <=? max_blob_bytes cfg) && (max_blob_bytes cfg <=? 1024 * 1024 * 1024)) "escrow.max_blob_bytes: expected 1..1073741824" ;;?
  ensure ((1 <=? max_total_bytes cfg) && (max_total_bytes cfg <=? 2 ^ 40)) "escrow.max_total_bytes: expected 1..1099511627776" ;;?
  ensure ((1 <=? max_slots_per_room cfg) && (max_slots_per_room cfg <=? 65536)) "escrow.max_slots_per_room: expected 1..65536" ;;?
  ensure ((1 <=? auto_replicas cfg) && (auto_replicas cfg <=? 8)) "escrow.auto_replicas: expected 1..8" ;;?
  ensure (60 <=? dead_after_secs cfg) "escrow.dead_after_secs: expected at least 60".

(** ** Generations *)

Inductive Codec := RAW | DAG_CBOR.

Record SlotRecord := {
  room : string; owner : option string; current : Head; previous : option Head; previous_held : bool;
  home : option string; deleted : option Delete; held : bool
}.

(** The storage library and the encoders: the size of its chunks, the check of
    a CID, the CBOR of a manifest (name, size, the size hint of its sequence,
    its elements up to one that does not decode), and the length of the JSON
    text of a state file. *)
Class RepoEnv := {
  CHUNK_SIZE : Z;
  verify_cid : string → string → Codec → bool;
  decode_manifest : string → option (string * Z * option Z * list (option string));
  record_len : SlotRecord → Z;
}.

Definition MAX_MANIFEST : Z := 128 * 1024.
Definition MAX_BLOB : Z := 1024 * 1024 * 1024.
Definition MAX_RECORDS : Z := 65536.
Definition MAX_STATE_FILE : Z := 32 * 1024.

Record FileManifest := { m_name : string; m_size : Z; m_chunks : list string }.
#[global] Instance FileManifest_eq_dec : EqDecision FileManifest.
Proof. solve_decision. Defined.
#[global] Instance Delete_eq_dec : EqDecision Delete.
Proof. solve_decision. Defined.
#[global] Instance SlotRecord_eq_dec : EqDecision SlotRecord.
Proof. solve_decision. Defined.
#[global] Instance Error_eq_dec : EqDecision Error.
Proof. solve_decision. Defined.

Definition held_heads (r : SlotRecord) : list Head :=
  if is_some (deleted r) then [] else
  (if held r then [current r] else []) ++
  match previous r with Some h => if previous_held r then [h] else [] | None => [] end.

Section generations.
Context {C : Crypto} {E : EscrowEnv} {R : RepoEnv}.

Definition nl : string := String "010"%char EmptyString.
Definition key (room slot : string) : string := digest (room +:+ nl +:+ slot).
Definition generation (k : string) (h : Head) : string := digest (k +:+ nl +:+ hash h).

(** [blob.chunks(CHUNK_SIZE)] *)
Fixpoint chunks_of (fuel : nat) (s : string) : list string :=
  match fuel, s with
  | S fuel, String _ _ => string_take (Z.to_nat CHUNK_SIZE) s :: chunks_of fuel (string_drop (Z.to_nat CHUNK_SIZE) s)
  | _, _ => []
  end.
Definition blob_chunks (blob : string) : list string := chunks_of (String.length blob) blob.

Definition div_ceil (a b : Z) : Z := (a + b - 1) / b.
Definition manifest_limit (size : Z) : Z := Z.min (1024 + div_ceil size CHUNK_SIZE * 128) MAX_MANIFEST.

Definition validate_blob (h : Head) (blob : string) : result () Error :=
  if negb (slen blob =? blob_size h) || negb (bool_decide (digest blob = sha256_hex h))
  then Err (error "hash_mismatch") else Ok tt.

(** [visit_seq]: the elements read so far, in order. *)
Fixpoint visit_chunks (read : list string) (l : list (option string)) : option (list string) :=
  match l with
  | [] => Some read
  | None :: _ => None
  | Some cid :: l =>
      if (1024 <=? zlen read) || negb (is_valid_cid cid) then None else visit_chunks (read ++ [cid]) l
  end.
Definition bounded_chunks (hint : option Z) (l : list (option string)) : option (list string) :=
  if is_some_and (λ n, 1024 <? n) hint then None else visit_chunks [] l.

Definition bounded_manifest (bytes : string) : option FileManifest :=
  match decode_manifest bytes with
  | Some (name, size, hint, l) =>
      (λ chunks, {| m_name := name; m_size := size; m_chunks := chunks |}) <$> bounded_chunks hint l
  | None => None
  end.

Definition validate_manifest (h : Head) (bytes : string) : result FileManifest Error :=
  if (manifest_limit (blob_size h) <? slen bytes) || negb (verify_cid (cid h) bytes DAG_CBOR)
  then Err (error "hash_mismatch") else
  let? m := ok_or (bounded_manifest bytes) (error "fetch_failed") in
  if negb (bool_decide (m_name m = "tc-escrow.bin")) || negb (m_size m =? blob_size h)
     || negb (zlen (m_chunks m) =? div_ceil (blob_size h) CHUNK_SIZE)
     || existsb (λ c, negb (is_valid_cid c)) (m_chunks m)
  then Err (error "hash_mismatch") else Ok m.

(** The loops over the chunks: the CIDs against the pieces of the blob. *)
Definition chunks_verify (m : FileManifest) (blob : string) : bool :=
  forallb (λ p, verify_cid p.1 p.2 RAW) (zip (m_chunks m) (blob_chunks blob)).

(** What [commit], [import] and [read_generation] ask of the bytes of a head. *)
Definition validate_generation (h : Head) (blob bytes : string) : result FileManifest Error :=
  validate_blob h blob ;;?
  let? m := validate_manifest h bytes in
  if chunks_verify m blob then Ok m else Err (error "hash_mismatch").

(** [mesh::validate_delete] *)
Definition validate_tombstone (d : Delete) (h : Head) : result () Error :=
  validate_delete d ;;?
  validate_head h MAX_BLOB ;;?
  verify_head h ;;?
  (if negb (bool_decide (d_slot d = slot h)) || negb (d_seq d =? seq h) || negb (bool_decide (d_head d = hash h))
   then Err (conflict h) else Ok tt) ;;?
  verify_delete d (writer h).
End generations.

(** ** Memory and disk *)

Inductive GenFile := BlobBin | ManifestBin.
Record Block := { b_generation : string; b_file : GenFile; b_offset : Z; b_len : Z }.
Record PendingSlot := { ps_room : string; ps_owner : option string }.

Record Index := {
  records : gmap string SlotRecord;
  blocks : gmap (string * string) Block;
  bytes : Z;
  reserved : Z;
  owner_bytes : gmap string Z;
  owner_reserved : gmap string Z;
  pending_slots : gmap string PendingSlot;
  manifests : gmap (string * string) (FileManifest * Z);
  write_failed : bool;
}.
Definition empty_index : Index :=
  {| records := ∅; blocks := ∅; bytes := 0; reserved := 0; owner_bytes := ∅; owner_reserved := ∅;
     pending_slots := ∅; manifests := ∅; write_failed := false |}.

(** A generation directory, and the state files by their stem. *)
Record Files := { f_blob : option string; f_manifest : option string }.
Record Disk := { heads : gmap string SlotRecord; blobs : gmap string Files }.
Definition empty_disk : Disk := {| heads := ∅; blobs := ∅ |}.

(** One input: whether the process lives to see the call return, whether the
    call succeeds, and whether a call that does not return took effect. *)
Record Input := { alive : bool; io_ok : bool; took : bool }.
Record World := { index : Index; disk : Disk; pos : nat }.

Definition set_records (f : gmap string SlotRecord → gmap string SlotRecord) (i : Index) : Index :=
  {| records := f (records i); blocks := blocks i; bytes := bytes i; reserved := reserved i;
     owner_bytes := owner_bytes i; owner_reserved := owner_reserved i; pending_slots := pending_slots i;
     manifests := manifests i; write_failed := write_failed i |}.
Definition disable_writes (i : Index) : Index :=
  {| records := records i; blocks := blocks i; bytes := bytes i; reserved := reserved i;
     owner_bytes := owner_bytes i; owner_reserved := owner_reserved i; pending_slots := pending_slots i;
     manifests := manifests i; write_failed := true |}.
Definition set_pending (reserved : Z) (owner_reserved : gmap string Z) (pending : gmap string PendingSlot) (i : Index)
    : Index :=
  {| records := records i; blocks := blocks i; bytes := bytes i; reserved := reserved; owner_bytes := owner_bytes i;
     owner_reserved := owner_reserved; pending_slots := pending; manifests := manifests i;
     write_failed := write_failed i |}.
(** What [rebuild_index] recomputes. *)
Definition set_usage (blocks : gmap (string * string) Block) (bytes : Z) (owner_bytes : gmap string Z)
    (manifests : gmap (string * string) (FileManifest * Z)) (i : Index) : Index :=
  {| records := records i; blocks := blocks; bytes := bytes; reserved := reserved i; owner_bytes := owner_bytes;
     owner_reserved := owner_reserved i; pending_slots := pending_slots i; manifests := manifests;
     write_failed := write_failed i |}.
Definition on_index (f : Index → Index) (w : World) : World :=
  {| index := f (index w); disk := disk w; pos := pos w |}.

Definition entry_add (k : string) (n : Z) (m : gmap string Z) : gmap string Z := <[k := default 0 (m !! k) + n]> m.

Definition rooms_of (i : Index) : list string := map room (map_to_list (records i)).*2.
(** The slots of a room, with those a pull is pending for. *)
Definition slots (i : Index) (r : string) : Z :=
  zlen (List.filter (λ x, bool_decide (x = r)) (rooms_of i))
  + zlen (List.filter (λ x, bool_decide (x = r)) (map ps_room (map_to_list (pending_slots i)).*2)).

Section index.
Context {C : Crypto} {E : EscrowEnv} {R : RepoEnv}.

Definition chunk_block (dir : string) (h : Head) (i : nat) : Block :=
  let offset := Z.of_nat i * CHUNK_SIZE in
  {| b_generation := dir; b_file := BlobBin; b_offset := offset; b_len := Z.min (blob_size h - offset) CHUNK_SIZE |}.

Definition index_generation (i : Index) (room k : string) (h : Head) (m : FileManifest) (len : Z) : Index :=
  let dir := generation k h in
  let blocks := <[(room, cid h) := {| b_generation := dir; b_file := ManifestBin; b_offset := 0; b_len := len |}]> (blocks i) in
  let blocks := foldl (λ bs p, <[(room, p.2) := chunk_block dir h p.1]> bs) blocks (imap pair (m_chunks m)) in
  set_usage blocks (bytes i + (blob_size h + len)) (owner_bytes i) (<[(k, hash h) := (m, len)]> (manifests i)) i.

Definition rebuild_head (k : string) (r : SlotRecord) (acc : Index * gset (string * string)) (h : Head)
    : Index * gset (string * string) :=
  let '(i, retained) := acc in
  let retained := {[(k, hash h)]} ∪ retained in
  match manifests i !! (k, hash h) with
  | None => (i, retained)
  | Some (m, len) =>
      let i := index_generation i (room r) k h m len in
      (match owner r with
       | Some o => set_usage (blocks i) (bytes i) (entry_add o (blob_size h + len) (owner_bytes i)) (manifests i) i
       | None => i
       end, retained)
  end.

Definition rebuild_index (i : Index) : Index :=
  let i := set_usage ∅ 0 ∅ (manifests i) i in
  let '(i, retained) :=
    foldl (λ acc p, foldl (rebuild_head p.1 p.2) acc (held_heads p.2)) (i, ∅) (map_to_list (records i)) in
  set_usage (blocks i) (bytes i) (owner_bytes i) (filter (λ p, p.1 ∈ retained) (manifests i)) i.

(** The generations [cleanup] keeps. *)
Definition keep (i : Index) : list string :=
  p ← map_to_list (records i); generation p.1 <$> held_heads p.2.

(** *** Reads of the index *)

Definition head (i : Index) (room slot : string) : option Head :=
  match records i !! key room slot with
  | Some r => if is_some (deleted r) then None else Some (current r)
  | None => None
  end.

Definition by_slot (a b : SlotRecord) : Prop := String.le (slot (current a)) (slot (current b)).
#[global] Instance by_slot_dec : RelDecision by_slot.
Proof. intros a b. unfold by_slot. apply _. Defined.

Definition room_records (i : Index) (r : string) : list SlotRecord :=
  List.filter (λ x, bool_decide (room x = r)) (map_to_list (records i)).*2.
Definition room_heads (i : Index) (r : string) : list Head :=
  map current (merge_sort by_slot (List.filter (λ x, negb (is_some (deleted x))) (room_records i r))).
(** [mesh_records]; a [MeshRecord] is the part of the record the mesh sees. *)
Definition mesh_records (i : Index) (r : string) : list SlotRecord := merge_sort by_slot (room_records i r).

Definition status (i : Index) (r : string) : Z * Z :=
  (zlen (room_records i r), foldr Z.add 0 (map blob_size (room_records i r ≫= held_heads))).
Definition rooms (i : Index) : list string := sort_strings (elements (list_to_set (rooms_of i) : gset string)).

Definition free_bytes (cfg : EscrowConfig) (i : Index) : Z :=
  sat_sub (max_total_bytes cfg) (sat_add (bytes i) (reserved i)).
Definition is_held (i : Index) (room : string) (h : Head) : bool :=
  match records i !! key room (slot h) with
  | Some r => held r && negb (is_some (deleted r)) && bool_decide (current r = h)
  | None => false
  end.

(** [MeshRecord::entry]; [delete_json] is the object serde derives for [Delete]. *)
Definition delete_json (d : Delete) : json :=
  obj [("slot", JString (d_slot d)); ("seq", num (d_seq d)); ("head", JString (d_head d)); ("sig", JString (d_sig d))].
Definition mesh_entry (r : SlotRecord) : MeshEntry :=
  {| e_slot := slot (current r); e_seq := seq (current r);
     e_hash := match deleted r with Some d => digest (stable_stringify (delete_json d)) | None => hash (current r) end;
     e_kind := if is_some (deleted r) then "tombstone" else "head";
     e_held := held r && negb (is_some (deleted r)) |}.
End index.

(** ** Operations *)
Section operations.
Context {C : Crypto} {E : EscrowEnv} {R : RepoEnv} (env : nat → Input) (cfg : EscrowConfig).

Definition M (E A : Type) : Type := prog World E A.

Definition disk_call (f : Disk → Disk) : M string () := λ w,
  let i := env (pos w) in
  ({| index := index w; disk := if io_ok i || took i then f (disk w) else disk w; pos := S (pos w) |},
   if alive i then if io_ok i then Ok () else Err (Failed "io error") else Err Crashed).
Definition sync_dir : M string () := disk_call id.
Definition disk_read : M string Disk := sync_dir ;;! let! w := get_state in ret (disk w).

Definition put_blob (b : string) (f : Files) : Files := {| f_blob := Some b; f_manifest := f_manifest f |}.
Definition put_manifest (b : string) (f : Files) : Files := {| f_blob := f_blob f; f_manifest := Some b |}.
Definition no_files : Files := {| f_blob := None; f_manifest := None |}.
Definition put_file (dir : string) (g : Files → Files) (d : Disk) : Disk :=
  {| heads := heads d; blobs := <[dir := g (default no_files (blobs d !! dir))]> (blobs d) |}.
Definition put_head (k : string) (r : SlotRecord) (d : Disk) : Disk :=
  {| heads := <[k := r]> (heads d); blobs := blobs d |}.
Definition drop_head (k : string) (d : Disk) : Disk := {| heads := delete k (heads d); blobs := blobs d |}.
(** [remove_dir_all] unlinks the files one by one. *)
Definition drop_files (dir : string) (g : Files → option Files) (d : Disk) : Disk :=
  {| heads := heads d; blobs := partial_alter (λ f, f ≫= g) dir (blobs d) |}.

Definition remove_dir_all (dir : string) : M string () :=
  disk_call (drop_files dir (λ f, Some {| f_blob := None; f_manifest := f_manifest f |})) ;;!
  disk_call (drop_files dir (λ f, Some {| f_blob := f_blob f; f_manifest := None |})) ;;!
  disk_call (drop_files dir (λ _, None)).

Definition remove_file (k : string) : M string () :=
  let! d := disk_read in
  match heads d !! k with Some _ => disk_call (drop_head k) | None => fail (Failed "not found") end.

Definition file_of (d : Disk) (dir : string) (file : GenFile) : option string :=
  blobs d !! dir ≫= match file with BlobBin => f_blob | ManifestBin => f_manifest end.
Definition read_bounded (dir : string) (file : GenFile) (max : Z) : M string string :=
  let! d := disk_read in
  match file_of d dir file with
  | Some data => if max <? slen data then fail (Failed "escrow: oversized file") else ret data
  | None => fail (Failed "not found")
  end.

Fixpoint each {A} (f : A → M string ()) (l : list A) : M string () :=
  match l with
  | [] => ret tt
  | x :: l => f x ;;! each f l
  end.

Definition cleanup : M string () :=
  let! w := get_state in
  lift (ensure (negb (write_failed (index w))) "escrow: index requires restart reconciliation") ;;!
  let keep := keep (index w) in
  let! d := disk_read in
  each remove_dir_all (List.filter (λ dir, hex_string dir 64 && negb (contains keep dir)) (map_to_list (blobs d)).*1).

(** [.map_err(|_| e)], and the one that stops all writes until a restart. *)
Definition or_fail {A} (e : Error) (m : M string A) : M Error A :=
  let! r := attempted m in match r with Ok a => ret a | Err _ => fail (Failed e) end.
Definition or_disable {A} (e : Error) (m : M string A) : M Error A :=
  let! r := attempted m in
  match r with Ok a => ret a | Err _ => modify (on_index disable_writes) ;;! fail (Failed e) end.

(** *** Reads *)

Definition read_generation (r : string) (h : Head) : M Error (string * string) :=
  let dir := generation (key r (slot h)) h in
  let! blob := or_fail (error "fetch_failed") (read_bounded dir BlobBin (blob_size h)) in
  let! manifest := or_fail (error "fetch_failed") (read_bounded dir ManifestBin MAX_MANIFEST) in
  let! _ := lift (validate_generation h blob manifest) in
  ret (blob, manifest).

Definition generation_bytes (r : string) (h : Head) : M Error (option (string * string)) :=
  let! w := get_state in
  match records (index w) !! key r (slot h) with
  | None => ret None
  | Some x =>
      if is_some (deleted x)
         || negb (bool_decide (current x = h) && held x || bool_decide (previous x = Some h) && previous_held x)
      then ret None else let! b := read_generation r h in ret (Some b)
  end.

Definition current_bytes (r : string) (h : Head) : M Error (option (string * string)) :=
  let! w := get_state in
  let k := key r (slot h) in
  if is_none_or (λ x, negb (bool_decide (current x = h)) || negb (held x) || is_some (deleted x)) (records (index w) !! k)
  then ret None else
  let! blob := or_fail (error "fetch_failed") (read_bounded (generation k h) BlobBin (blob_size h)) in
  let! manifest := or_fail (error "fetch_failed") (read_bounded (generation k h) ManifestBin MAX_MANIFEST) in
  ret (Some (blob, manifest)).

Definition block (r cid : string) : M string (option string) :=
  let! w := get_state in
  match blocks (index w) !! (r, cid) with
  | None => ret None
  | Some b =>
      let! d := attempted disk_read in
      match (match d with Ok d => file_of d (b_generation b) (b_file b) | Err _ => None end) with
      | Some data =>
          let data := string_drop (Z.to_nat (b_offset b)) data in
          if slen data <? b_len b then ret None else
          let data := string_take (Z.to_nat (b_len b)) data in
          let codec := match b_file b with ManifestBin => DAG_CBOR | BlobBin => RAW end in
          ret (if verify_cid cid data codec then Some data else None)
      | None => ret None
      end
  end.

(** *** Reservations *)

Record Reservation := { rv_key : string; rv_amount : Z; rv_owner : option string; rv_owner_amount : Z }.

(** The previous head a commit of [h] would keep, for a new owner. *)
Definition inherited (i : Index) (k : string) (h : Head) (owner_ : option string) : Z :=
  match records i !! k with
  | Some r =>
      if is_some owner_ && negb (bool_decide (owner r = owner_)) && negb (is_some (deleted r)) then
        let retained := if bool_decide (current r = h)
                        then (if previous_held r then previous r else None)
                        else (if held r then Some (current r) else None) in
        match retained with
        | Some x => match manifests i !! (k, hash x) with Some (_, len) => blob_size x + len | None => 0 end
        | None => 0
        end
      else 0
  | None => 0
  end.

(** Whether [h] may follow the record of its slot; [true] for the current head. *)
Definition may_follow (r : option SlotRecord) (h : Head) : result bool Error :=
  match r with
  | Some r => if is_some (deleted r) then successor h (current r) ;;? Ok false else check_cas h (Some (current r))
  | None => check_cas h None
  end.

Definition full (i : Index) (r : string) : bool :=
  (max_slots_per_room cfg <=? slots i r) || (MAX_RECORDS <=? zsize (records i) + zsize (pending_slots i)).

Definition reserve (r : string) (h : Head) (owner : option string) (owner_limit : option Z)
    : M Error (option Reservation) :=
  lift (validate_head h (max_blob_bytes cfg)) ;;!
  lift (verify_head h) ;;!
  let! w := get_state in
  let i := index w in
  if write_failed i then fail (Failed (error "quota")) else
  let k := key r (slot h) in
  let record := records i !! k in
  if is_some_and (λ x, negb (is_some (deleted x)) && bool_decide (previous x = Some h)) record then ret None else
  let! retry := lift (may_follow record h) in
  if retry && is_some_and held record then ret None else
  if negb (is_some record) && full i r then fail (Failed (error "quota")) else
  let amount := blob_size h + manifest_limit (blob_size h) in
  let owner_amount := sat_add amount (inherited i k h owner) in
  if max_total_bytes cfg <? sat_add (sat_add (bytes i) (reserved i)) amount then fail (Failed (error "quota")) else
  if match owner, owner_limit with
     | Some o, Some limit =>
         limit <? sat_add (sat_add (default 0 (owner_bytes i !! o)) (default 0 (owner_reserved i !! o))) owner_amount
     | _, _ => false
     end then fail (Failed (error "quota")) else
  modify (on_index (set_pending (reserved i + amount)
    (match owner with Some o => entry_add o owner_amount (owner_reserved i) | None => owner_reserved i end)
    (<[k := {| ps_room := r; ps_owner := owner |}]> (pending_slots i)))) ;;!
  ret (Some {| rv_key := k; rv_amount := amount; rv_owner := owner; rv_owner_amount := owner_amount |}).

(** [Reservation::drop]; the subtractions panic below zero. *)
Definition release (v : Reservation) : M Error () :=
  let! w := get_state in
  let i := index w in
  if reserved i <? rv_amount v then fail Panicked else
  let! owned :=
    (match rv_owner v with
     | Some o =>
         match owner_reserved i !! o with
         | Some n =>
             if n <? rv_owner_amount v then fail Panicked else
             if n - rv_owner_amount v =? 0 then ret (delete o (owner_reserved i))
             else ret (<[o := n - rv_owner_amount v]> (owner_reserved i))
         | None => ret (owner_reserved i)
         end
     | None => ret (owner_reserved i)
     end) in
  modify (on_index (set_pending (reserved i - rv_amount v) owned (delete (rv_key v) (pending_slots i)))).

(** *** Publication *)

(** The index takes the record and is rebuilt, without any call that can fail. *)
Definition publish (k : string) (r : SlotRecord) (i : Index) : Index := rebuild_index (set_records (insert k r) i).

Definition commit_inner (rm : string) (h : Head) (prev : option Head) (prev_held : bool) (owner : option string)
    (blob bytes : string) (m : FileManifest) : M string () :=
  let k := key rm (slot h) in
  let dir := generation k h in
  disk_call (put_file dir (put_blob blob)) ;;!
  disk_call (put_file dir (put_manifest bytes)) ;;!
  sync_dir ;;!
  sync_dir ;;!
  let! w := get_state in
  let record := {| room := rm; owner := owner; current := h; previous := prev; previous_held := prev_held;
                   home := records (index w) !! k ≫= home; deleted := None; held := true |} in
  disk_call (put_head k record) ;;!
  modify (on_index (λ i, rebuild_index (index_generation (set_records (insert k record) i) rm k h m (slen bytes)))) ;;!
  let! r := attempted cleanup in
  match r with Ok _ => ret tt | Err _ => modify (on_index disable_writes) end.

(** What [commit] keeps as the previous head, and whether its blob is held. *)
Definition retained (r : option SlotRecord) (h : Head) : option Head * bool :=
  match r with
  | Some r =>
      if is_some (deleted r) then (None, false) else
      if bool_decide (current r = h) then (previous r, previous_held r) else
      match check_cas h (Some (current r)) with
      | Ok false => (Some (current r), held r)
      | _ => (None, false)
      end
  | None => (None, false)
  end.

Definition commit (rm : string) (h : Head) (blob bytes : string) : M Error () :=
  let! m := lift (validate_generation h blob bytes) in
  let! w := get_state in
  if write_failed (index w) then fail (Failed (error "quota")) else
  let k := key rm (slot h) in
  let '(prev, prev_held) := retained (records (index w) !! k) h in
  let owner := pending_slots (index w) !! k ≫= ps_owner in
  or_disable (error "fetch_failed") (commit_inner rm h prev prev_held owner blob bytes m).

Inductive ImportOutcome := Imported | Unchanged | Skipped (why : string).

(** The record an import meets: a reason to stop, or what it keeps of it. *)
Definition import_over (r : SlotRecord) (h : Head) : ImportOutcome + option Head * bool :=
  match (if is_some (deleted r) then successor h (current r) else Ok tt) with
  | Err e => inl (Skipped (code e))
  | Ok _ =>
      if negb (is_some (deleted r)) && held r && (bool_decide (current r = h) || bool_decide (previous r = Some h))
      then inl Unchanged else
      if negb (bool_decide (writer (current r) = writer h)) then inl (Skipped "writer_mismatch") else
      if seq h <? seq (current r) then inl (Skipped "older") else
      if (seq h =? seq (current r)) && negb (bool_decide (current r = h)) then inl (Skipped "conflict") else
      if negb (is_some (deleted r)) && bool_decide (current r = h) then inr (previous r, previous_held r) else
      if negb (is_some (deleted r)) && bool_decide (checked_add (seq (current r)) 1 = Some (seq h))
         && bool_decide (parent h = Some (hash (current r)))
      then inr (Some (current r), held r) else inr (None, false)
  end.

Definition import (rm : string) (h : Head) (blob bytes_ : string) : M Error ImportOutcome :=
  lift (ensure (valid_room rm) (error "bad_request")) ;;!
  lift (validate_head h (max_blob_bytes cfg)) ;;!
  lift (verify_head h) ;;!
  let! m := lift (validate_generation h blob bytes_) in
  let! w := get_state in
  let i := index w in
  if write_failed i then fail (Failed (error "quota")) else
  let over :=
    match records i !! key rm (slot h) with
    | Some r => import_over r h
    | None => if full i rm then inl (Skipped "quota") else inr (None, false)
    end in
  match over with
  | inl o => ret o
  | inr (prev, prev_held) =>
      if max_total_bytes cfg <? sat_add (sat_add (sat_add (bytes i) (reserved i)) (blob_size h)) (slen bytes_)
      then ret (Skipped "quota") else
      or_disable (error "fetch_failed") (commit_inner rm h prev prev_held None blob bytes_ m) ;;!
      ret Imported
  end.

(** *** Deletion *)

Definition delete_inner (k : string) : M string () :=
  remove_file k ;;!
  sync_dir ;;!
  modify (on_index (λ i, rebuild_index (set_records (delete k) i))) ;;!
  cleanup ;;!
  sync_dir.

Definition delete_slot (rm : string) (request : Delete) : M Error () :=
  lift (validate_delete request) ;;!
  let! w := get_state in
  if write_failed (index w) then fail (Failed (error "quota")) else
  let k := key rm (d_slot request) in
  match records (index w) !! k with
  | None => ret tt
  | Some r =>
      if negb (d_seq request =? seq (current r)) || negb (bool_decide (d_head request = hash (current r)))
      then fail (Failed (conflict (current r))) else
      lift (verify_delete request (writer (current r))) ;;!
      or_disable (error "fetch_failed") (delete_inner k)
  end.

Definition retire_room (rm : string) : M Error () :=
  let! w := get_state in
  if write_failed (index w) then fail (Failed (error "legacy repository needs restart reconciliation")) else
  let keys := (List.filter (λ p, bool_decide (room p.2 = rm)) (map_to_list (records (index w)))).*1 in
  or_disable (error "retire") (each delete_inner keys).

(** *** The mesh *)

Definition publish_metadata (k : string) (r : SlotRecord) : M Error () :=
  let! w := get_state in
  if write_failed (index w) then fail (Failed (error "quota")) else
  or_disable (error "fetch_failed")
    (disk_call (put_head k r) ;;! sync_dir ;;! modify (on_index (publish k r)) ;;! cleanup).

Definition with_home (h : option string) (r : SlotRecord) : SlotRecord :=
  {| room := room r; owner := owner r; current := current r; previous := previous r; previous_held := previous_held r;
     home := h; deleted := deleted r; held := held r |}.
Definition with_held (held_ : bool) (r : SlotRecord) : SlotRecord :=
  {| room := room r; owner := owner r; current := current r; previous := previous r; previous_held := previous_held r;
     home := home r; deleted := deleted r; held := held_ |}.
Definition with_previous (p : option Head) (held_ : bool) (r : SlotRecord) : SlotRecord :=
  {| room := room r; owner := owner r; current := current r; previous := p; previous_held := held_;
     home := home r; deleted := deleted r; held := held r |}.

Definition set_home (rm : string) (h : Head) (home_ : string) : M Error () :=
  lift (map_err (λ _, error "bad_request") (pubkey_from_did home_)) ;;!
  let! w := get_state in
  let k := key rm (slot h) in
  match records (index w) !! k with
  | None => fail (Failed (error "conflict"))
  | Some r =>
      if negb (bool_decide (current r = h)) || is_some (deleted r) then fail (Failed (error "conflict")) else
      if bool_decide (home r = Some home_) then ret tt else
      publish_metadata k (with_home (Some home_) r)
  end.

(** Whether the copies of the record are intact, read without the lock. *)
Definition scrub (rm : string) (h : Head) : M Error (option (SlotRecord * bool * bool)) :=
  let! w := get_state in
  match records (index w) !! key rm (slot h) with
  | Some r =>
      if is_some (deleted r) || negb (bool_decide (current r = h)) then ret None else
      let! bad := (if held r then let! x := attempted (read_generation rm h) in ret (negb (is_ok x)) else ret false) in
      let! bad_previous :=
        (match previous r with
         | Some p => if previous_held r then let! x := attempted (read_generation rm p) in ret (negb (is_ok x))
                     else ret false
         | None => ret false
         end) in
      ret (Some (r, bad, bad_previous))
  | None => ret None
  end.

(** What is dropped, when the record is still the one that was read. *)
Definition drop_corrupt (bad bad_previous : bool) (r : SlotRecord) : SlotRecord :=
  let r := if bad then with_held false r else r in
  if bad_previous then with_previous None false r else r.
Definition finish_scrub (rm : string) (h : Head) (snapshot : SlotRecord) (bad bad_previous : bool) : M Error () :=
  if negb bad && negb bad_previous then ret tt else
  let! w := get_state in
  let k := key rm (slot h) in
  match records (index w) !! k with
  | None => ret tt
  | Some r =>
      if is_some (deleted r) || negb (bool_decide (current r = current snapshot))
         || negb (bool_decide (previous r = previous snapshot)) || negb (bool_decide (held r = held snapshot))
         || negb (bool_decide (previous_held r = previous_held snapshot))
      then ret tt else publish_metadata k (drop_corrupt bad bad_previous r)
  end.
Definition verify_holding (rm : string) (h : Head) : M Error () :=
  let! found := scrub rm h in
  match found with Some (r, bad, bad_previous) => finish_scrub rm h r bad bad_previous | None => ret tt end.

Definition drop_holding (rm : string) (h : Head) : M Error () :=
  let! w := get_state in
  let k := key rm (slot h) in
  match records (index w) !! k with
  | None => ret tt
  | Some r =>
      if negb (bool_decide (current r = h)) || negb (held r) then ret tt else
      publish_metadata k (with_previous (previous r) false (with_held false r))
  end.

(** Whether what is learned of a slot adds nothing, when it may be learned at
    all: [same] where it is the current head. *)
Definition already_known (i : Index) (rm : string) (old : option SlotRecord) (h : Head) (deleted_ : option Delete)
    (same : bool) : result bool Error :=
  match old with
  | Some o =>
      if is_some (deleted o) then
        if is_some deleted_ && bool_decide (current o = h) then Ok true else
        if negb (is_some deleted_) && (seq h <=? sat_add (seq (current o)) 1)
        then successor h (current o) ;;? Ok false else Ok false
      else Ok (same && negb (is_some deleted_))
  | None =>
      if (MAX_RECORDS <=? zsize (records i) + zsize (pending_slots i)) || (max_slots_per_room cfg <=? slots i rm)
      then Err (error "quota") else Ok false
  end.

(** The old record, when the head continues it. *)
Definition succeeded (old : option SlotRecord) (h : Head) (deleted_ : option Delete) : option SlotRecord :=
  match old with
  | Some o => if negb (is_some (deleted o)) && negb (is_some deleted_) && (seq h =? sat_add (seq (current o)) 1)
                 && bool_decide (parent h = Some (hash (current o))) then Some o else None
  | None => None
  end.

(** The record of a head that is known but not held. *)
Definition learned (rm : string) (h : Head) (home_ : option string) (deleted_ : option Delete) (old : option SlotRecord)
    : SlotRecord :=
  let prev := succeeded old h deleted_ in
  {| room := rm; owner := None; current := h; previous := current <$> prev;
     previous_held := match prev with Some o => held o | None => false end;
     home := match home_ with Some d => Some d | None => old ≫= home end; deleted := deleted_; held := false |}.

(** Monotonic admission of what another provider knows of a slot. *)
Definition learn (rm : string) (h : Head) (home_ : option string) (deleted_ : option Delete) : M Error Acceptance :=
  lift (ensure (valid_room rm) (error "bad_request")) ;;!
  lift (validate_head h MAX_BLOB) ;;!
  lift (verify_head h) ;;!
  lift (match home_ with
        | Some d => let? _ := map_err (λ _, error "bad_request") (pubkey_from_did d) in Ok tt
        | None => Ok tt
        end) ;;!
  lift (match deleted_ with Some d => validate_tombstone d h | None => Ok tt end) ;;!
  let! w := get_state in
  let i := index w in
  if write_failed i then fail (Failed (error "quota")) else
  let k := key rm (slot h) in
  let old := records i !! k in
  let outcome := acceptance (current <$> old) h in
  match outcome with
  | Stale | Conflict | WriterMismatch => ret outcome
  | New | Same =>
      let! known := lift (already_known i rm old h deleted_ (match outcome with Same => true | _ => false end)) in
      if known then ret Same else
      publish_metadata k (learned rm h home_ deleted_ old) ;;! ret New
  end.

Definition mesh_delete (rm : string) (d : Delete) : M Error () :=
  let! w := get_state in
  match List.find (λ r, bool_decide (slot (current r) = d_slot d)) (mesh_records (index w) rm) with
  | None => ret tt
  | Some r =>
      lift (validate_tombstone d (current r)) ;;!
      learn rm (current r) (home r) (Some d) ;;! ret tt
  end.

(** *** Opening *)

(** The closure of [open]: the copy of a head is read back and checked. *)
Definition load_generation (k : string) (h : Head) : M string (FileManifest * Z) :=
  let dir := generation k h in
  let! blob := read_bounded dir BlobBin (blob_size h) in
  lift (map_err code (validate_blob h blob)) ;;!
  let! bytes := read_bounded dir ManifestBin MAX_MANIFEST in
  let! m := lift (map_err code (validate_manifest h bytes)) in
  lift (ensure (chunks_verify m blob) "invalid retained chunk") ;;!
  ret (m, slen bytes).

Definition load_head (k : string) (r : SlotRecord) (corrupt : bool * bool) (h : Head) : M string (bool * bool) :=
  lift (map_err code (validate_head h MAX_BLOB)) ;;!
  lift (map_err code (verify_head h)) ;;!
  lift (ensure (bool_decide (slot h = slot (current r)) && bool_decide (writer h = writer (current r)))
          "escrow: invalid backup") ;;!
  let is_current := bool_decide (h = current r) in
  if negb (if is_current then held r else previous_held r) || is_some (deleted r) then ret corrupt else
  let! verified := attempted (load_generation k h) in
  match verified with
  | Ok (m, len) => modify (on_index (λ i, index_generation i (room r) k h m len)) ;;! ret corrupt
  | Err e =>
      if is_some (home r) then ret (if is_current then (true, corrupt.2) else (corrupt.1, true))
      else fail (Failed e)
  end.

(** The loop over the current head and the backup. *)
Definition load_heads (k : string) (r : SlotRecord) : M string (bool * bool) :=
  let! corrupt := load_head k r (false, false) (current r) in
  match previous r with Some p => load_head k r corrupt p | None => ret corrupt end.

Definition load_record (k : string) (r : SlotRecord) : M string () :=
  let! w := get_state in
  lift (ensure (zsize (records (index w)) <? MAX_RECORDS) "escrow: too many persisted slots") ;;!
  lift (ensure (record_len r <=? MAX_STATE_FILE) "escrow: oversized state file") ;;!
  sync_dir ;;!
  lift (ensure (valid_room (room r)) "escrow: invalid persisted room") ;;!
  lift (ensure (bool_decide (k = key (room r) (slot (current r)))) "escrow: invalid state filename") ;;!
  let! corrupt := load_heads k r in
  lift (match deleted r with
        | Some d => map_err code (validate_tombstone d (current r)) ;;?
                    ensure (negb (held r) && negb (is_some (previous r))) "invalid tombstone storage"
        | None => Ok tt
        end) ;;!
  lift (match home r with Some d => let? _ := pubkey_from_did d in Ok tt | None => Ok tt end) ;;!
  lift (match previous r with
        | Some p => let? repeated := map_err code (check_cas (current r) (Some p)) in
                    ensure (negb repeated) "escrow: duplicate backup generation"
        | None => Ok tt
        end) ;;!
  let r' := drop_corrupt corrupt.1 corrupt.2 r in
  (if corrupt.1 || corrupt.2 then disk_call (put_head k r') ;;! sync_dir else ret tt) ;;!
  modify (on_index (set_records (insert k r'))).

Definition open : M string () :=
  lift (validate_config cfg) ;;!
  sync_dir ;;! sync_dir ;;! sync_dir ;;! sync_dir ;;!
  modify (on_index (λ _, empty_index)) ;;!
  let! d := disk_read in
  each (λ p, load_record p.1 p.2) (map_to_list (heads d)) ;;!
  modify (on_index rebuild_index) ;;!
  cleanup.
End operations.
