(* ===== verification/EscrowIndex.v ===== *)
(** * The index of the escrow repository

    What [rebuild_index] computes: the space in use, in all and by owner, and
    the blocks that can be read, as functions of the records and of the cached
    manifests; and how one record changes them. *)
From S2P Require Import Prelude Effects Text Json Wire EscrowProtocol EscrowMesh EscrowRepository.

Section index.
Context {C : Crypto} {E : EscrowEnv} {R : RepoEnv}.

(** ** The generations in memory *)

Definition gen : Type := string * SlotRecord * Head.
Definition gens (rs : gmap string SlotRecord) : list gen :=
  p ← map_to_list rs; (λ h, (p.1, p.2, h)) <$> held_heads p.2.

Lemma elem_of_gens rs k r h : (k, r, h) ∈ gens rs ↔ rs !! k = Some r ∧ h ∈ held_heads r.
Proof.
  unfold gens. rewrite list_elem_of_bind. split.
  - intros ([k' r'] & (h' & [= -> -> ->] & Hh)%list_elem_of_fmap & Hr%elem_of_map_to_list). done.
  - intros [Hr Hh]. exists (k, r). split; [|by apply elem_of_map_to_list]. by apply list_elem_of_fmap_2.
Qed.

#[local] Notation cache := (gmap (string * string) (FileManifest * Z)).
Definition cached (mf : cache) (x : gen) : option (FileManifest * Z) := mf !! (x.1.1, hash x.2).
Definition cost (mf : cache) (x : gen) : Z :=
  match cached mf x with Some (_, len) => blob_size x.2 + len | None => 0 end.

(** The blocks of one generation. *)
Definition add_blocks (mf : cache) (bs : gmap (string * string) Block) (x : gen) : gmap (string * string) Block :=
  match cached mf x with
  | Some (m, len) =>
      let dir := generation x.1.1 x.2 in
      let r := room x.1.2 in
      let bs := <[(r, cid x.2) := {| b_generation := dir; b_file := ManifestBin; b_offset := 0; b_len := len |}]> bs in
      foldl (λ bs p, <[(r, p.2) := chunk_block dir x.2 p.1]> bs) bs (imap pair (m_chunks m))
  | None => bs
  end.
Definition add_owner (mf : cache) (ob : gmap string Z) (x : gen) : gmap string Z :=
  match cached mf x, owner x.1.2 with
  | Some (_, len), Some o => entry_add o (blob_size x.2 + len) ob
  | _, _ => ob
  end.

Definition sum_cost (mf : cache) (l : list gen) : Z := foldr (λ x acc, cost mf x + acc) 0 l.
Definition gen_key (x : gen) : string * string := (x.1.1, hash x.2).

(** A rebuild, as functions of the records and the cache. *)
Definition rebuilt (i : Index) : Index :=
  let l := gens (records i) in
  set_usage (foldl (add_blocks (manifests i)) ∅ l) (sum_cost (manifests i) l)
    (foldl (add_owner (manifests i)) ∅ l) (filter (λ p, p.1 ∈ (list_to_set (gen_key <$> l) : gset _)) (manifests i)) i.

Lemma rebuild_fold i rest ret :
  let mf := manifests i in
  foldl (λ acc (x : gen), rebuild_head x.1.1 x.1.2 acc x.2) (i, ret) rest =
  (set_usage (foldl (add_blocks mf) (blocks i) rest) (bytes i + sum_cost mf rest)
     (foldl (add_owner mf) (owner_bytes i) rest) mf i, list_to_set (gen_key <$> rest) ∪ ret).
Proof.
  revert i ret. induction rest as [|x l IH]; intros i ret mf.
  { cbn. rewrite Z.add_0_r, (left_id_L ∅ (∪)). by destruct i. }
  cbn [foldl sum_cost foldr fmap list_fmap list_to_set].
  assert (Hx : rebuild_head x.1.1 x.1.2 (i, ret) x.2 =
    (set_usage (add_blocks mf (blocks i) x) (bytes i + cost mf x) (add_owner mf (owner_bytes i) x) mf i,
     {[gen_key x]} ∪ ret)).
  { unfold rebuild_head, add_blocks, cost, add_owner, cached. fold mf.
    destruct (mf !! (x.1.1, hash x.2)) as [[m len]|] eqn:Hm.
    - unfold index_generation, set_usage; cbn. rewrite (insert_id (manifests i)) by done. by destruct (owner x.1.2).
    - rewrite Z.add_0_r. by destruct i. }
  rewrite Hx, IH. f_equal; [|unfold gen_key; cbn; set_solver]. unfold set_usage; cbn. f_equal. fold (sum_cost mf l). lia.
Qed.

Lemma rebuild_eq i : rebuild_index i = rebuilt i.
Proof.
  unfold rebuild_index, rebuilt.
  assert (Hf : ∀ l acc, foldl (λ acc p, foldl (rebuild_head p.1 p.2) acc (held_heads p.2)) acc l
    = foldl (λ acc (x : gen), rebuild_head x.1.1 x.1.2 acc x.2) acc
        (p ← l; (λ h, (p.1, p.2, h)) <$> held_heads p.2)).
  { induction l as [|p l IH]; intros acc; [done|]. cbn [foldl]. rewrite IH, bind_cons, foldl_app. f_equal.
    generalize (held_heads p.2). clear. intros hs. revert acc. induction hs as [|h hs IH]; intros acc; [done|]. cbn. apply IH. }
  rewrite Hf. fold (gens (records i)). cbn zeta. rewrite rebuild_fold. cbn. by rewrite (right_id_L ∅ (∪)).
Qed.

(** The gens the cache is asked for decide. *)
Lemma foldl_agree {A B} (f g : A → B → A) l a : (∀ a x, x ∈ l → f a x = g a x) → foldl f a l = foldl g a l.
Proof.
  revert a. induction l as [|x l IH]; intros a H; [done|]. cbn. rewrite H by apply list_elem_of_here.
  apply IH. intros. apply H. by apply list_elem_of_further.
Qed.

Definition agree (l : list gen) (mf mf' : cache) : Prop := ∀ x, x ∈ l → cached mf x = cached mf' x.

Lemma sum_cost_agree l mf mf' : agree l mf mf' → sum_cost mf l = sum_cost mf' l.
Proof.
  induction l as [|x l IH]; intros H; [done|]. cbn. fold (sum_cost mf l) (sum_cost mf' l).
  rewrite IH by (intros y Hy; apply H; by apply list_elem_of_further). unfold cost. by rewrite (H x) by apply list_elem_of_here.
Qed.

Definition kept (l : list gen) (mf : cache) : cache :=
  filter (λ p, p.1 ∈ (list_to_set (gen_key <$> l) : gset (string * string))) mf.

Lemma kept_agree l mf : agree l (kept l mf) mf.
Proof.
  intros x Hx. unfold cached, kept. rewrite map_lookup_filter. fold (gen_key x).
  destruct (mf !! gen_key x) as [v|] eqn:Hv; [|done]. cbn. rewrite option_guard_True; [done|].
  apply elem_of_list_to_set. by apply list_elem_of_fmap_2.
Qed.

Lemma kept_idem l mf : kept l (kept l mf) = kept l mf.
Proof. unfold kept. rewrite map_filter_filter. apply map_filter_ext. naive_solver. Qed.

(** A rebuild depends on the records and on the cache of their generations, and
    replaces what it computes. *)
Lemma rebuilt_set_usage i bs b ob mf : agree (gens (records i)) mf (manifests i) → kept (gens (records i)) mf = kept (gens (records i)) (manifests i) →
  rebuilt (set_usage bs b ob mf i) = rebuilt i.
Proof.
  intros Ha Hk. unfold rebuilt, set_usage. cbn. fold (kept (gens (records i)) mf) (kept (gens (records i)) (manifests i)).
  rewrite Hk, (sum_cost_agree _ _ _ Ha). f_equal; apply foldl_agree; intros a x Hx; [unfold add_blocks|unfold add_owner]; by rewrite Ha.
Qed.

Lemma rebuilt_idem i : rebuilt (rebuilt i) = rebuilt i.
Proof. apply rebuilt_set_usage; [apply kept_agree|apply kept_idem]. Qed.

Definition fixed (i : Index) : Prop := rebuilt i = i.

Lemma fixed_rebuild i : fixed (rebuild_index i).
Proof. rewrite rebuild_eq. apply rebuilt_idem. Qed.
Lemma fixed_disable i : fixed i → fixed (disable_writes i).
Proof. unfold fixed. intros H. rewrite <-H at 2. unfold rebuilt, disable_writes, set_usage. done. Qed.
Lemma fixed_pending i n o p : fixed i → fixed (set_pending n o p i).
Proof. unfold fixed. intros H. rewrite <-H at 2. unfold rebuilt, set_pending, set_usage. done. Qed.

(** ** The space in use *)

(** The space of the records [sel] selects. *)
Definition usage_of (sel : SlotRecord → bool) (mf : cache) (l : list gen) : Z :=
  foldr (λ x acc, (if sel x.1.2 then cost mf x else 0) + acc) 0 l.
Definition usage (sel : SlotRecord → bool) (mf : cache) (rs : gmap string SlotRecord) : Z := usage_of sel mf (gens rs).

Lemma usage_app sel mf l l' : usage_of sel mf (l ++ l') = usage_of sel mf l + usage_of sel mf l'.
Proof. induction l as [|x l IH]; [done|]. cbn [app usage_of foldr]. fold (usage_of sel mf (l ++ l')) (usage_of sel mf l). lia. Qed.
Lemma usage_perm sel mf l l' : l ≡ₚ l' → usage_of sel mf l = usage_of sel mf l'.
Proof. unfold usage_of. induction 1; cbn [foldr] in *; lia. Qed.
Lemma usage_agree sel l mf mf' : agree l mf mf' → usage_of sel mf l = usage_of sel mf' l.
Proof.
  induction l as [|x l IH]; intros H; [done|]. cbn. fold (usage_of sel mf l) (usage_of sel mf' l).
  rewrite IH by (intros y Hy; apply H; by apply list_elem_of_further). unfold cost. by rewrite (H x) by apply list_elem_of_here.
Qed.

Lemma fixed_bytes i : fixed i → bytes i = usage (λ _, true) (manifests i) (records i).
Proof. intros H. rewrite <-(H : rebuilt i = i) at 1. cbn. unfold usage. induction (gens (records i)) as [|x l IH]; [done|]. cbn. by f_equal. Qed.

Definition owned_by (o : string) (r : SlotRecord) : bool := bool_decide (owner r = Some o).

Lemma fixed_owner i o : fixed i → default 0 (owner_bytes i !! o) = usage (owned_by o) (manifests i) (records i).
Proof.
  intros H. rewrite <-(H : rebuilt i = i) at 1. cbn. unfold usage. set (mf := manifests i).
  assert (Hgen : ∀ l ob, default 0 (foldl (add_owner mf) ob l !! o) = default 0 (ob !! o) + usage_of (owned_by o) mf l).
  { induction l as [|x l IH]; intros ob; cbn [foldl usage_of foldr]; [lia|]. rewrite IH.
    fold (usage_of (owned_by o) mf l). unfold add_owner, cost, owned_by.
    destruct (cached mf x) as [[m len]|]; [|case_bool_decide; lia].
    destruct (owner x.1.2) as [o'|]; [|case_bool_decide; [done|lia]]. unfold entry_add. case_bool_decide as Ho.
    - injection Ho as ->. rewrite lookup_insert_eq. cbn. lia.
    - rewrite lookup_insert_ne by congruence. lia. }
  rewrite Hgen, lookup_empty. cbn. lia.
Qed.

(** One slot of the whole. *)
Definition slot_gens (k : string) (r : SlotRecord) : list gen := (λ h, (k, r, h)) <$> held_heads r.

Lemma gens_insert_new rs k r : rs !! k = None → gens (<[k := r]> rs) ≡ₚ slot_gens k r ++ gens rs.
Proof. intros Hk. unfold gens. rewrite map_to_list_insert by done. done. Qed.
Lemma gens_delete rs k r : rs !! k = Some r → gens rs ≡ₚ slot_gens k r ++ gens (delete k rs).
Proof.
  intros Hk. rewrite <-(insert_delete_id rs k r Hk) at 1. apply gens_insert_new, lookup_delete_eq.
Qed.
Lemma gens_insert rs k r : gens (<[k := r]> rs) ≡ₚ slot_gens k r ++ gens (delete k rs).
Proof. rewrite <-insert_delete_eq. apply gens_insert_new, lookup_delete_eq. Qed.

Definition old_usage (sel : SlotRecord → bool) (mf : cache) (rs : gmap string SlotRecord) (k : string) : Z :=
  match rs !! k with Some r => usage_of sel mf (slot_gens k r) | None => 0 end.

Lemma usage_split sel mf rs k : usage sel mf rs = old_usage sel mf rs k + usage sel mf (delete k rs).
Proof.
  unfold usage, old_usage. destruct (rs !! k) as [r|] eqn:Hk.
  - by rewrite (usage_perm _ _ _ _ (gens_delete rs k r Hk)), usage_app.
  - by rewrite delete_id.
Qed.
Lemma usage_insert sel mf rs k r : usage sel mf (<[k := r]> rs) = usage_of sel mf (slot_gens k r) + usage sel mf (delete k rs).
Proof. unfold usage. by rewrite (usage_perm _ _ _ _ (gens_insert rs k r)), usage_app. Qed.

(** ** What a change of one record does *)

Lemma rebuild_agree j : agree (gens (records j)) (manifests (rebuild_index j)) (manifests j).
Proof. rewrite rebuild_eq. apply kept_agree. Qed.

Lemma usage_rebuild sel j : usage sel (manifests (rebuild_index j)) (records j) = usage sel (manifests j) (records j).
Proof. apply usage_agree, rebuild_agree. Qed.

Lemma rebuild_records j : records (rebuild_index j) = records j.
Proof. by rewrite rebuild_eq. Qed.

Definition fills (mf : cache) (x : gen) : Prop :=
  ∃ m len, cached mf x = Some (m, len) ∧ 0 ≤ blob_size x.2 ∧ 0 ≤ len ≤ manifest_limit (blob_size x.2).

Lemma fills_cost mf x : fills mf x → 0 ≤ cost mf x.
Proof. intros (m & len & Hc & Hs & Hl). unfold cost. rewrite Hc. lia. Qed.

Lemma usage_submseteq sel mf l l' : l ⊆+ l' → Forall (fills mf) l' → usage_of sel mf l ≤ usage_of sel mf l'.
Proof.
  intros [l2 Hp]%submseteq_Permutation Hf. rewrite (usage_perm _ _ _ _ Hp), usage_app.
  rewrite Hp, Forall_app in Hf. destruct Hf as [_ Hf].
  enough (0 ≤ usage_of sel mf l2) by lia. clear Hp. induction Hf as [|x l2' Hx Hf IH]; [done|].
  unfold usage_of in *. cbn [foldr]. pose proof (fills_cost _ _ Hx). destruct (sel x.1.2); lia.
Qed.

Lemma slot_usage_record sel mf k r r' : (sel r = true → sel r' = true) → Forall (fills mf) (slot_gens k r) →
  usage_of sel mf (slot_gens k r) ≤ usage_of sel mf ((λ h, (k, r', h)) <$> held_heads r).
Proof.
  unfold slot_gens. intros Hs. induction (held_heads r) as [|h hs IH]; intros Hf; [done|]. cbn [fmap list_fmap] in *.
  apply Forall_cons in Hf as [Hh Hf]. specialize (IH Hf). unfold usage_of in *. cbn [foldr].
  change (cost mf (k, r', h)) with (cost mf (k, r, h)). apply fills_cost in Hh. cbn [fst snd].
  destruct (sel r), (sel r'); [lia|by specialize (Hs eq_refl)|lia|lia].
Qed.

Definition old_heads (rs : gmap string SlotRecord) (k : string) : list Head :=
  match rs !! k with Some r => held_heads r | None => [] end.

(** A record that holds no more than the one it replaces. *)
Lemma usage_shrinks sel mf rs k r : Forall (fills mf) (gens rs) → held_heads r ⊆+ old_heads rs k →
  (∀ r0, rs !! k = Some r0 → sel r = true → sel r0 = true) → usage sel mf (<[k := r]> rs) ≤ usage sel mf rs.
Proof.
  intros Hf Hsub Hs. rewrite usage_insert, (usage_split sel mf rs k). unfold old_heads, old_usage in *.
  destruct (rs !! k) as [r0|] eqn:Hk.
  - rewrite (gens_delete rs k r0 Hk), Forall_app in Hf. destruct Hf as [Hf _].
    assert (Hf' : Forall (fills mf) (slot_gens k r)).
    { apply Forall_forall. intros x (h & -> & Hh)%list_elem_of_fmap. eapply elem_of_submseteq in Hh; [|exact Hsub].
      rewrite Forall_forall in Hf. destruct (Hf (k, r0, h)) as (m & len & Hc); [by apply list_elem_of_fmap_2|]. by exists m, len. }
    pose proof (slot_usage_record sel mf k r r0 (Hs r0 eq_refl) Hf') as H1.
    pose proof (usage_submseteq sel mf ((λ h, (k, r0, h)) <$> held_heads r) (slot_gens k r0)
      ltac:(by apply fmap_submseteq) Hf) as H2. lia.
  - apply submseteq_nil_r in Hsub. unfold slot_gens. rewrite Hsub. cbn. lia.
Qed.

Lemma usage_deletes sel mf rs k : Forall (fills mf) (gens rs) → usage sel mf (delete k rs) ≤ usage sel mf rs.
Proof.
  intros Hf. rewrite (usage_split sel mf rs k). unfold old_usage. destruct (rs !! k) as [r0|] eqn:Hk; [|lia].
  rewrite (gens_delete rs k r0 Hk), Forall_app in Hf. destruct Hf as [Hf _].
  pose proof (usage_submseteq sel mf [] (slot_gens k r0) (submseteq_nil_l _) Hf). cbn in *. lia.
Qed.

(** A commit: the head, and the previous one it keeps. *)
Lemma usage_commits (sel : SlotRecord → bool) (mf : gmap (string * string) (FileManifest * Z)) (rs : gmap string SlotRecord) k r h m len extra :
  Forall (fills mf) (gens rs) → held_heads r = h :: extra → 0 ≤ blob_size h → 0 ≤ len →
  Forall (λ p, hash p ≠ hash h) extra →
  usage sel (<[(k, hash h) := (m, len)]> mf) (<[k := r]> rs) =
    (if sel r then blob_size h + len else 0) + usage_of sel mf ((λ p, (k, r, p)) <$> extra) + usage sel mf (delete k rs).
Proof.
  intros Hf Hh Hs Hl He. rewrite usage_insert. unfold slot_gens. rewrite Hh. cbn [fmap list_fmap usage_of foldr].
  fold (usage_of sel (<[(k, hash h) := (m, len)]> mf)). cbn [fst snd]. unfold cost at 1, cached at 1. cbn [fst snd].
  rewrite lookup_insert_eq. f_equal; [f_equal|].
  - change (usage_of sel (<[(k, hash h) := (m, len)]> mf) ((λ p, (k, r, p)) <$> extra) =
      usage_of sel mf ((λ p, (k, r, p)) <$> extra)).
    apply usage_agree. intros x (p & -> & Hp)%list_elem_of_fmap. unfold cached. cbn. rewrite lookup_insert_ne; [done|].
    rewrite Forall_forall in He. specialize (He p Hp). congruence.
  - apply usage_agree. intros [[k' r'] p] [Hr Hp]%elem_of_gens. unfold cached. cbn. rewrite lookup_insert_ne; [done|].
    apply lookup_delete_Some in Hr as [Hne _]. congruence.
Qed.

(** ** The blocks *)

(** The block [b] is the manifest, or a chunk, of a generation in memory. *)
Definition block_of (mf : cache) (x : gen) (rc : string * string) (b : Block) : Prop :=
  ∃ m len, cached mf x = Some (m, len) ∧ rc.1 = room x.1.2 ∧
    ((rc.2 = cid x.2 ∧ b = {| b_generation := generation x.1.1 x.2; b_file := ManifestBin; b_offset := 0; b_len := len |})
     ∨ ∃ j, m_chunks m !! j = Some rc.2 ∧ b = chunk_block (generation x.1.1 x.2) x.2 j).

Lemma foldl_inserts {K A B} `{Countable K} (key_ : A → K) (val : A → B) l (bs : gmap K B) q :
  (∀ b, foldl (λ bs p, <[key_ p := val p]> bs) bs l !! q = Some b → bs !! q = Some b ∨ ∃ p, p ∈ l ∧ q = key_ p ∧ b = val p) ∧
  (is_Some (bs !! q) ∨ (∃ p, p ∈ l ∧ q = key_ p) → is_Some (foldl (λ bs p, <[key_ p := val p]> bs) bs l !! q)).
Proof.
  revert bs. induction l as [|p l IH]; intros bs; cbn [foldl].
  { split; [by left|]. intros [Hb|(p & Hp & _)]; [done|by apply elem_of_nil in Hp]. }
  destruct (IH (<[key_ p := val p]> bs)) as [IH1 IH2]. split.
  - intros b [Hb|(p' & Hp' & Hq & Hv)]%IH1; [|right; exists p'; split; [by apply list_elem_of_further|done]].
    apply lookup_insert_Some in Hb as [[<- <-]|[_ Hb]]; [|by left]. right. exists p. split; [apply list_elem_of_here|done].
  - intros Hor. apply IH2. destruct (decide (key_ p = q)) as [->|Hne]; [left; rewrite lookup_insert_eq; by eexists|].
    destruct Hor as [Hb|(p' & [->|Hp']%elem_of_cons & Hq)]; [left; by rewrite lookup_insert_ne|congruence|].
    right. by exists p'.
Qed.

Lemma add_blocks_spec mf x bs q :
  (∀ b, add_blocks mf bs x !! q = Some b → bs !! q = Some b ∨ block_of mf x q b) ∧
  (is_Some (bs !! q) ∨ (∃ b, block_of mf x q b) → is_Some (add_blocks mf bs x !! q)).
Proof.
  unfold add_blocks, block_of. destruct (cached mf x) as [[m len]|] eqn:Hc; [|split; [by left|]].
  2:{ by intros [?|(b & m & len & [=] & _)]. }
  set (mb := {| b_generation := _; b_file := _; b_offset := _; b_len := _ |}).
  pose proof (foldl_inserts (λ p : nat * string, (room x.1.2, p.2)) (λ p, chunk_block (generation x.1.1 x.2) x.2 p.1)
    (imap pair (m_chunks m)) (<[(room x.1.2, cid x.2) := mb]> bs) q) as [H1 H2]. split.
  - intros b [Hb|([j c] & Hp & -> & ->)]%H1.
    + apply lookup_insert_Some in Hb as [[<- <-]|[_ Hb]]; [|by left]. right. exists m, len. cbn. auto.
    + right. exists m, len. cbn. split_and!; [done..|]. right. exists j. split; [|done].
      apply list_elem_of_lookup in Hp as (i & Hi). rewrite list_lookup_imap in Hi.
      destruct (m_chunks m !! i) as [c'|] eqn:Hci; [|done]. by injection Hi as <- <-.
  - intros Hor. apply H2. destruct Hor as [Hb|(b & m' & len' & [= <- <-] & Hr & [[Hq _]|(j & Hj & _)])].
    + left. destruct (decide ((room x.1.2, cid x.2) = q)) as [->|Hne]; [rewrite lookup_insert_eq; by eexists|].
      by rewrite lookup_insert_ne.
    + left. destruct q as [r c]. cbn in *. subst. rewrite lookup_insert_eq. by eexists.
    + right. exists (j, q.2). destruct q as [r c]. cbn in *. subst. split; [|done].
      apply list_elem_of_lookup. exists j. by rewrite list_lookup_imap, Hj.
Qed.

Lemma fixed_blocks i q : fixed i →
  (∀ b, blocks i !! q = Some b → ∃ x, x ∈ gens (records i) ∧ block_of (manifests i) x q b) ∧
  (∀ x b, x ∈ gens (records i) → block_of (manifests i) x q b → is_Some (blocks i !! q)).
Proof.
  intros H. rewrite <-(H : rebuilt i = i). cbn. set (mf := manifests i).
  assert (Hkept : ∀ x b, x ∈ gens (records i) → block_of (kept (gens (records i)) mf) x q b ↔ block_of mf x q b).
  { intros x b Hx. unfold block_of. by rewrite (kept_agree (gens (records i)) mf x Hx). }
  assert (Hgen : ∀ l bs,
    (∀ b, foldl (add_blocks mf) bs l !! q = Some b → bs !! q = Some b ∨ ∃ x, x ∈ l ∧ block_of mf x q b) ∧
    (is_Some (bs !! q) ∨ (∃ x b, x ∈ l ∧ block_of mf x q b) → is_Some (foldl (add_blocks mf) bs l !! q))).
  { induction l as [|x l IH]; intros bs; cbn [foldl].
    { split; [by left|]. intros [?|(x & b & Hx & _)]; [done|by apply elem_of_nil in Hx]. }
    destruct (IH (add_blocks mf bs x)) as [IH1 IH2], (add_blocks_spec mf x bs q) as [H1 H2]. split.
    - intros b [Hb|(y & Hy & Hb)]%IH1; [|right; exists y; split; [by apply list_elem_of_further|done]].
      apply H1 in Hb as [Hb|Hb]; [by left|]. right. exists x. split; [apply list_elem_of_here|done].
    - intros Hor. apply IH2. destruct Hor as [Hb|(y & b & [->|Hy]%elem_of_cons & Hb)].
      + left. apply H2. by left.
      + left. apply H2. right. by exists b.
      + right. by exists y, b. }
  destruct (Hgen (gens (records i)) ∅) as [H1 H2]. split.
  - intros b [Hb|(x & Hx & Hb)]%H1; [by rewrite lookup_empty in Hb|]. exists x. split; [done|]. by apply Hkept.
  - intros x b Hx Hb. apply H2. right. exists x, b. split; [done|]. by apply Hkept.
Qed.
End index.
