(* ===== verification/EscrowDurable.v ===== *)
(** * The escrow repository on disk

    The calls of [EscrowRepository] in a logic in which any of them may fail or
    be the one the process dies in: what the disk and the index satisfy before
    and after a publication, a deletion and a cleanup. *)
From S2P Require Import Prelude Effects Text Json Wire EscrowProtocol EscrowMesh EscrowRepository EscrowIndex.

(** The heads a run is about have slots and directories of their own: no two of
    the texts it hashes collide. *)
Record distinct {C : Crypto} (play : string → Head → Prop) : Prop := {
  keys_distinct r h r' h' : play r h → play r' h' → key r (slot h) = key r' (slot h') → r = r' ∧ slot h = slot h';
  gens_distinct r h r' h' : play r h → play r' h' →
    generation (key r (slot h)) h = generation (key r' (slot h')) h' → key r (slot h) = key r' (slot h') ∧ h = h';
}.

Section durable.
Context {C : Crypto} {E : EscrowEnv} {R : RepoEnv} (play : string → Head → Prop) (Hplay : distinct play).

(** ** Records and files *)

Definition good_head (h : Head) : Prop := validate_head h MAX_BLOB = Ok tt ∧ verify_head h = Ok tt.

Record record_ok (k : string) (r : SlotRecord) : Prop := {
  ro_key : k = key (room r) (slot (current r));
  ro_room : valid_room (room r) = true;
  ro_play : play (room r) (current r);
  ro_current : good_head (current r);
  ro_previous p : previous r = Some p →
    play (room r) p ∧ slot p = slot (current r) ∧ good_head p ∧ check_cas (current r) (Some p) = Ok false;
  ro_deleted d : deleted r = Some d → validate_tombstone d (current r) = Ok tt ∧ held r = false ∧ previous r = None;
  ro_home d : home r = Some d → is_ok (pubkey_from_did d) = true;
}.
Definition records_ok (rs : gmap string SlotRecord) : Prop := ∀ k r, rs !! k = Some r → record_ok k r.

Lemma held_heads_cases r h : h ∈ held_heads r →
  deleted r = None ∧ (h = current r ∧ held r = true ∨ previous r = Some h ∧ previous_held r = true).
Proof.
  unfold held_heads. destruct (deleted r); cbn; [by intros ?%elem_of_nil|]. intros [Hc|Hp]%elem_of_app.
  - destruct (held r); [|by apply elem_of_nil in Hc]. apply list_elem_of_singleton in Hc. auto.
  - destruct (previous r), (previous_held r); try by apply elem_of_nil in Hp. apply list_elem_of_singleton in Hp as ->. auto.
Qed.

Lemma held_head_play k r h : record_ok k r → h ∈ held_heads r → play (room r) h ∧ k = key (room r) (slot h).
Proof.
  intros Hr [_ [[-> _]|[Hp _]]]%held_heads_cases; [split; apply Hr|].
  destruct (ro_previous k r Hr h Hp) as (? & Hs & _). split; [done|]. rewrite Hs. apply Hr.
Qed.

(** The directory of a generation belongs to it alone. *)
Lemma gens_apart rs rs' x y : records_ok rs → records_ok rs' → x ∈ gens rs → y ∈ gens rs' →
  generation x.1.1 x.2 = generation y.1.1 y.2 → x.1.1 = y.1.1 ∧ x.2 = y.2.
Proof.
  destruct x as [[k r] h], y as [[k' r'] h']. cbn. intros Hrs Hrs' [Hr Hh]%elem_of_gens [Hr' Hh']%elem_of_gens Hg.
  apply Hrs in Hr. apply Hrs' in Hr'. destruct (held_head_play k r h Hr Hh) as [Hp ->].
  destruct (held_head_play k' r' h' Hr' Hh') as [Hp' ->]. by apply (gens_distinct play Hplay) in Hg.
Qed.

(** The files of a generation pass what was asked of them when they came. *)
Definition gen_ok (bl : gmap string Files) (k : string) (h : Head) (m : FileManifest) (len : Z) : Prop :=
  ∃ blob bytes, bl !! generation k h = Some {| f_blob := Some blob; f_manifest := Some bytes |} ∧
    validate_generation h blob bytes = Ok m ∧ len = slen bytes.
Definition stored (rs : gmap string SlotRecord) (bl : gmap string Files) : Prop :=
  ∀ x, x ∈ gens rs → ∃ m len, gen_ok bl x.1.1 x.2 m len.

Definition disk_ok (d : Disk) : Prop := records_ok (heads d) ∧ stored (heads d) (blobs d).
Definition index_ok (i : Index) (bl : gmap string Files) : Prop :=
  fixed i ∧ records_ok (records i) ∧
  ∀ x, x ∈ gens (records i) → ∃ m len, cached (manifests i) x = Some (m, len) ∧ gen_ok bl x.1.1 x.2 m len.

Lemma gen_ok_agree bl bl' k h m len : bl !! generation k h = bl' !! generation k h →
  gen_ok bl k h m len → gen_ok bl' k h m len.
Proof. intros He (b & s & Hb & ?). exists b, s. by rewrite <-He. Qed.

(** Changes to other directories do not matter. *)
Definition same_files (rs : gmap string SlotRecord) (bl bl' : gmap string Files) : Prop :=
  ∀ x, x ∈ gens rs → bl !! generation x.1.1 x.2 = bl' !! generation x.1.1 x.2.

Lemma disk_ok_agree d bl : same_files (heads d) (blobs d) bl → disk_ok d → disk_ok {| heads := heads d; blobs := bl |}.
Proof.
  intros Hs [Hr Hst]. split; [done|]. intros x Hx. destruct (Hst x Hx) as (m & len & Hg). exists m, len.
  eapply gen_ok_agree; [by apply Hs|done].
Qed.
Lemma index_ok_agree i bl bl' : same_files (records i) bl bl' → index_ok i bl → index_ok i bl'.
Proof.
  intros Hs (Hf & Hr & Hst). split; [done|]. split; [done|]. intros x Hx. destruct (Hst x Hx) as (m & len & Hc & Hg).
  exists m, len. split; [done|]. eapply gen_ok_agree; [by apply Hs|done].
Qed.

(** *** The index after a change *)

Lemma index_ok_disable i bl : index_ok i bl → index_ok (disable_writes i) bl.
Proof. intros (Hf & Hr & Hst). split; [by apply fixed_disable|done]. Qed.
Lemma index_ok_pending i bl n o p : index_ok i bl → index_ok (set_pending n o p i) bl.
Proof. intros (Hf & Hr & Hst). split; [by apply fixed_pending|done]. Qed.

Lemma index_ok_rebuild j bl : records_ok (records j) →
  (∀ x, x ∈ gens (records j) → ∃ m len, cached (manifests j) x = Some (m, len) ∧ gen_ok bl x.1.1 x.2 m len) →
  index_ok (rebuild_index j) bl.
Proof.
  intros Hr Hst. split; [apply fixed_rebuild|]. rewrite rebuild_records. split; [done|]. intros x Hx.
  rewrite (rebuild_agree j x Hx). by apply Hst.
Qed.

Lemma records_ok_insert rs k r : records_ok rs → record_ok k r → records_ok (<[k := r]> rs).
Proof. intros Hrs Hr k' r' [[<- <-]|[_ H]]%lookup_insert_Some; [done|by apply Hrs]. Qed.

(** A generation of a map with one record replaced. *)
Lemma gens_insert_inv rs k r x : x ∈ gens (<[k := r]> rs) →
  (x.1.1 = k ∧ x.2 ∈ held_heads r) ∨ (x.1.1 ≠ k ∧ x ∈ gens rs).
Proof.
  destruct x as [[k' r'] h]. cbn. intros [[[<- <-]|[Hne H]]%lookup_insert_Some Hh]%elem_of_gens; [by left|].
  right. split; [done|]. by apply elem_of_gens.
Qed.

Lemma old_heads_gen rs k h : h ∈ old_heads rs k → ∃ r, (k, r, h) ∈ gens rs.
Proof.
  unfold old_heads. destruct (rs !! k) as [r|] eqn:Hk; [|by intros ?%elem_of_nil]. intros. exists r. by apply elem_of_gens.
Qed.

Lemma stored_insert rs bl k r : stored rs bl → (∀ h, h ∈ held_heads r → ∃ m len, gen_ok bl k h m len) →
  stored (<[k := r]> rs) bl.
Proof.
  intros Hst Hh x [[Hk Hx]|[_ Hx]]%gens_insert_inv; [|by apply Hst]. rewrite Hk. by apply Hh.
Qed.

Lemma stored_old rs bl k : stored rs bl → ∀ h, h ∈ old_heads rs k → ∃ m len, gen_ok bl k h m len.
Proof. intros Hst h [r Hr]%old_heads_gen. apply (Hst _ Hr). Qed.

Lemma index_ok_publish i bl k r : index_ok i bl → record_ok k r →
  (∀ h, h ∈ held_heads r → h ∈ old_heads (records i) k) → index_ok (publish k r i) bl.
Proof.
  intros (Hf & Hr & Hst) Hk Hsub. apply index_ok_rebuild; [by apply records_ok_insert|]. cbn.
  intros [[k' r'] h] [[Hkk Hx]|[_ Hx]]%gens_insert_inv; [|by apply Hst]. cbn in *. subst k'.
  apply Hsub in Hx as [r0 Hx]%old_heads_gen. apply (Hst _ Hx).
Qed.

Definition commit_index (k : string) (r : SlotRecord) (h : Head) (m : FileManifest) (len : Z) (i : Index) : Index :=
  rebuild_index (index_generation (set_records (insert k r) i) (room r) k h m len).

Lemma commit_records k r h m len i : records (commit_index k r h m len i) = <[k := r]> (records i).
Proof. unfold commit_index. by rewrite rebuild_records. Qed.

(** Two heads of a slot that are not the same have different hashes. *)
Lemma hash_apart r h p : play r h → play r p → slot p = slot h → p ≠ h → hash p ≠ hash h.
Proof.
  intros Hh Hp Hs Hne Heq. apply Hne. apply (gens_distinct play Hplay r p r h Hp Hh).
  unfold generation. by rewrite Hs, Heq.
Qed.

Lemma index_ok_commit i bl k r h m len extra : index_ok i bl → record_ok k r → h = current r →
  held_heads r = h :: extra → (∀ p, p ∈ extra → p ∈ old_heads (records i) k ∧ p ≠ h) →
  gen_ok bl k h m len → index_ok (commit_index k r h m len i) bl.
Proof.
  intros (Hf & Hr & Hst) Hk Hcur Hh He Hg. apply index_ok_rebuild; [by apply records_ok_insert|]. cbn.
  intros [[k' r'] p] Hx. unfold cached. cbn. apply gens_insert_inv in Hx as [[Hkk Hx]|[Hne Hx]]; cbn in *.
  - subst k'. rewrite Hh in Hx. apply elem_of_cons in Hx as [->|Hx].
    + exists m, len. by rewrite lookup_insert_eq.
    + destruct (He p Hx) as [Hold Hne]. rewrite lookup_insert_ne.
      2:{ intros [= Heq]. symmetry in Heq. revert Heq.
          assert (Hp : p ∈ held_heads r) by (rewrite Hh; by apply list_elem_of_further).
          destruct (held_head_play k r p Hk Hp) as [Hpp Hkp]. rewrite Hcur in *. apply (hash_apart (room r)); [apply Hk|done| |done].
          apply held_heads_cases in Hp as [_ [[-> _]|[Hpr _]]]; [done|]. by apply (ro_previous k r Hk) in Hpr as (_ & ? & _). }
      apply old_heads_gen in Hold as [r0 Hold]. apply (Hst _ Hold).
  - rewrite lookup_insert_ne by congruence. apply (Hst _ Hx).
Qed.

Lemma index_ok_delete i bl k : index_ok i bl → index_ok (rebuild_index (set_records (delete k) i)) bl.
Proof.
  intros (Hf & Hr & Hst). apply index_ok_rebuild; cbn.
  - intros k' r' [_ H]%lookup_delete_Some. by apply Hr.
  - intros [[k' r'] h] [[_ H]%lookup_delete_Some Hh]%elem_of_gens. apply Hst. by apply elem_of_gens.
Qed.

(** ** The calls *)

(** Assertions on the index and the disk. *)
Definition on (φ : Index → Disk → Prop) (w : World) : Prop := φ (index w) (disk w).
Implicit Types (φ ψ χ ι : Index → Disk → Prop).

Section calls.
Context (env : nat → Input).

(** Some call does not return, or fails. *)
Definition sick : Prop := ∃ n, ¬ (alive (env n) = true ∧ io_ok (env n) = true).

Lemma hoare_call φ ψ χ ι f : (∀ i d, φ i d → sick → χ i d ∧ ι i d) →
  (∀ i d, φ i d → ψ i (f d) ∧ (sick → χ i (f d) ∧ ι i (f d))) →
  hoare (on φ) (disk_call env f) (λ _, on ψ) (λ _, on χ) (on ι).
Proof.
  intros H1 H2 w Hw. unfold on, ends, disk_call in *. specialize (H1 _ _ Hw). specialize (H2 _ _ Hw) as [H2 H3].
  assert (Hs : ¬ (alive (env (pos w)) = true ∧ io_ok (env (pos w)) = true) → sick) by (intros; by exists (pos w)).
  destruct (env (pos w)) as [al io tk]. cbn in *. destruct al, io, tk; cbn; [done..| | | | | |]; try (apply H3); try (apply H1);
    apply Hs; by intros [].
Qed.

Lemma hoare_sync φ χ ι : (∀ i d, φ i d → sick → χ i d ∧ ι i d) → hoare (on φ) (sync_dir env) (λ _, on φ) (λ _, on χ) (on ι).
Proof. intros H. apply hoare_call; [done|]. intros i d Hd. split; [done|by apply H]. Qed.

Lemma hoare_read φ χ ι : (∀ i d, φ i d → sick → χ i d ∧ ι i d) →
  hoare (on φ) (disk_read env) (λ v w, on φ w ∧ v = disk w) (λ _, on χ) (on ι).
Proof. intros H. eapply hoare_bind; [by apply hoare_sync|]. intros []. intros w Hw. by split. Qed.

Lemma hoare_each {A} φ χ ι (f : A → prog World string ()) l :
  (∀ a, a ∈ l → hoare (on φ) (f a) (λ _, on φ) (λ _, on χ) (on ι)) → hoare (on φ) (each f l) (λ _, on φ) (λ _, on χ) (on ι).
Proof.
  induction l as [|a l IH]; intros Hf; cbn [each]; [by apply hoare_ret|].
  eapply hoare_bind; [apply Hf, list_elem_of_here|]. intros []. apply IH. intros. apply Hf. by apply list_elem_of_further.
Qed.

(** Errors that stop the writes. *)
Lemma hoare_or_disable {A} φ (ψ : A → Index → Disk → Prop) χ χ' ι e m :
  hoare (on φ) m (λ a, on (ψ a)) (λ _, on χ) (on ι) → (∀ i d, χ i d → χ' (disable_writes i) d) →
  hoare (on φ) (or_disable e m) (λ a, on (ψ a)) (λ _, on χ') (on ι).
Proof.
  intros Hm HX. eapply hoare_bind.
  - apply (hoare_attempted (on φ) (λ r, on (match r with Ok a => ψ a | Err _ => χ end)) (λ _, on χ') (on ι)). exact Hm.
  - intros [a|err]; [by apply hoare_ret|]. eapply hoare_bind with (R := λ _, on χ').
    + apply hoare_modify. intros w Hw. by apply HX.
    + intros []. by apply hoare_fail.
Qed.

(** ** The states around a publication *)

(** The disk is the one of the index [i]. *)
Definition backed (i : Index) (d : Disk) : Prop := heads d = records i ∧ index_ok i (blobs d).

Definition was (i0 : Index) : Index → Disk → Prop := λ i d, i = i0 ∧ backed i0 d.
(** A change from [i0] to [i1]: its call did not return, or the process died. *)
Definition torn (i0 i1 : Index) : Index → Disk → Prop := λ i d,
  i = i0 ∧ index_ok i0 (blobs d) ∧ (backed i0 d ∨ backed i1 d).
Definition lost (i0 i1 : Index) : Index → Disk → Prop := λ _ d, backed i0 d ∨ backed i1 d.
(** The state files are those of [i1]; the index follows. *)
Definition announced (i0 i1 : Index) : Index → Disk → Prop := λ i d, i = i0 ∧ index_ok i0 (blobs d) ∧ backed i1 d.
Definition unsure (i0 i1 : Index) : Index → Disk → Prop := λ i d, torn i0 i1 i d ∨ was i1 i d.
(** Where an operation ends: done, perhaps without its cleanup, or failed. *)
Definition finished (i1 : Index) : Index → Disk → Prop := λ i d, (i = i1 ∨ i = disable_writes i1) ∧ backed i1 d.
Definition failed (i0 i1 : Index) : Index → Disk → Prop := λ i d,
  i = disable_writes i0 ∧ index_ok i0 (blobs d) ∧ (backed i0 d ∨ backed i1 d) ∨ i = disable_writes i1 ∧ backed i1 d.

Lemma backed_disk i d : backed i d → disk_ok d.
Proof.
  intros (Hh & _ & Hr & Hst). rewrite <-Hh in *. split; [done|]. intros x Hx.
  destruct (Hst x Hx) as (m & len & _ & Hg). by exists m, len.
Qed.
Lemma was_torn i0 i1 i d : was i0 i d → torn i0 i1 i d.
Proof. intros (? & Hb). split; [done|]. split; [apply Hb|by left]. Qed.
Lemma was_unsure i0 i1 i d : was i0 i d → unsure i0 i1 i d.
Proof. intros. by left; apply was_torn. Qed.
Lemma was_lost i0 i1 i d : was i0 i d → lost i0 i1 i d.
Proof. intros (_ & ?). by left. Qed.
Lemma was_lost_new i0 i1 i d : was i1 i d → lost i0 i1 i d.
Proof. intros (_ & ?). by right. Qed.
Lemma was_finished i1 i d : was i1 i d → finished i1 i d.
Proof. intros (? & ?). by split; [left|]. Qed.
Lemma announced_torn i0 i1 i d : announced i0 i1 i d → torn i0 i1 i d.
Proof. intros (? & ? & ?). split_and!; auto. Qed.
Lemma announced_lost i0 i1 i d : announced i0 i1 i d → lost i0 i1 i d.
Proof. intros (? & ? & ?). by right. Qed.
Lemma unsure_failed i0 i1 i d : unsure i0 i1 i d → failed i0 i1 (disable_writes i) d.
Proof. intros [(-> & Hi & Hb)|(-> & Hb)]; [by left|by right]. Qed.

(** Directories outside the generations of the index may change. *)
Lemma was_files i0 i d bl : same_files (records i0) (blobs d) bl → was i0 i d → was i0 i {| heads := heads d; blobs := bl |}.
Proof. intros Hs (-> & Hh & Hi). split; [done|]. split; [done|by eapply index_ok_agree]. Qed.

Lemma same_files_other rs bl bl' dir : (∀ x, x ∈ gens rs → generation x.1.1 x.2 ≠ dir) →
  (∀ dir', dir' ≠ dir → bl !! dir' = bl' !! dir') → same_files rs bl bl'.
Proof. intros Hd Hb x Hx. apply Hb, Hd, Hx. Qed.

Lemma keep_gens i x : x ∈ gens (records i) → generation x.1.1 x.2 ∈ keep i.
Proof.
  destruct x as [[k r] h]. intros [Hr Hh]%elem_of_gens. unfold keep. apply list_elem_of_bind. exists (k, r).
  split; [|by apply elem_of_map_to_list]. cbn. by apply list_elem_of_fmap_2.
Qed.

Lemma hoare_drop_files i0 dir g χ ι : (∀ x, x ∈ gens (records i0) → generation x.1.1 x.2 ≠ dir) →
  (∀ i d, was i0 i d → sick → χ i d ∧ ι i d) →
  hoare (on (was i0)) (disk_call env (drop_files dir g)) (λ _, on (was i0)) (λ _, on χ) (on ι).
Proof.
  intros Hd Hs. apply hoare_call; [done|]. intros i d Hw.
  assert (Hn : was i0 i (drop_files dir g d)); [|split; [done|by apply Hs]].
  apply was_files; [|done]. apply same_files_other with (dir := dir); [done|]. intros dir' Hne. by rewrite lookup_partial_alter_ne.
Qed.

(** The cleanup removes nothing that is held. *)
Lemma hoare_cleanup_sick i0 χ ι : (∀ i d, was i0 i d → sick → χ i d ∧ ι i d) →
  (write_failed i0 = true → ∀ i d, was i0 i d → χ i d) →
  hoare (on (was i0)) (cleanup env) (λ _, on (was i0)) (λ _, on χ) (on ι).
Proof.
  intros Hs Hf. unfold cleanup. eapply hoare_bind with (R := λ w0 w, w0 = w ∧ on (was i0) w).
  { apply hoare_get. intros w Hw. exact (conj eq_refl Hw). }
  intros w0. apply hoare_at. intros w [-> Hw]. pose proof Hw as (Hi & _).
  eapply hoare_pre with (P' := on (was i0)); [|by intros ? ->]. eapply hoare_bind with (R := λ _, on (was i0)).
  { apply hoare_lift. intros w' Hw'. rewrite Hi. destruct (write_failed i0) eqn:Hwf; cbn; [by apply Hf|done]. }
  intros []. eapply hoare_bind; [by apply hoare_read|]. intros d. eapply hoare_pre with (P' := on (was i0)); [|by intros ? [? _]].
  apply hoare_each. intros dir [_ [_ Hk]%andb_true_iff]%elem_of_List_filter.
  assert (Hd : ∀ x, x ∈ gens (records i0) → generation x.1.1 x.2 ≠ dir).
  { intros x Hx Heq. rewrite Hi in Hk. apply negb_true_iff, bool_decide_eq_false in Hk. apply Hk. rewrite <-Heq.
    by apply keep_gens. }
  unfold remove_dir_all. eapply hoare_bind; [by apply hoare_drop_files|]. intros [].
  eapply hoare_bind; [by apply hoare_drop_files|]. intros []. by apply hoare_drop_files.
Qed.

Lemma hoare_cleanup i0 : hoare (on (was i0)) (cleanup env) (λ _, on (was i0)) (λ _, on (was i0)) (on (was i0)).
Proof. apply hoare_cleanup_sick; auto. Qed.

(** A new state file, with which the disk is that of [i1]. *)
Lemma hoare_announce i0 i1 k r φ : (∀ i d, φ i d → was i0 i d ∧ index_ok i1 (blobs d)) →
  records i1 = <[k := r]> (records i0) →
  hoare (on φ) (disk_call env (put_head k r)) (λ _, on (announced i0 i1)) (λ _, on (unsure i0 i1)) (on (lost i0 i1)).
Proof.
  intros Hφ Hrec. apply hoare_call; intros i d Hd; destruct (Hφ i d Hd) as [Hw H1].
  { split; [by apply was_unsure|by eapply was_lost]. }
  destruct Hw as (-> & Hh & Hi). assert (Ha : announced i0 i1 i0 (put_head k r d)).
  { split_and!; [done|done|]. split; [|done]. cbn. by rewrite Hh, Hrec. }
  split; [done|]. split; [left; by apply announced_torn|by eapply announced_lost].
Qed.

Lemma hoare_take i0 i1 F (X : string → World → Prop) (I : World → Prop) : F i0 = i1 →
  hoare (on (announced i0 i1)) (modify (on_index F)) (λ _, on (was i1)) X I.
Proof. intros HF. apply hoare_modify. intros w (Hi & _ & Hb). unfold on, was, on_index. cbn. by rewrite Hi. Qed.

Lemma hoare_publish_metadata i0 k r : record_ok k r → write_failed i0 = false →
  held_heads r ⊆+ old_heads (records i0) k →
  let i1 := publish k r i0 in
  hoare (on (was i0)) (publish_metadata env k r) (λ _, on (finished i1)) (λ _, on (failed i0 i1))
    (on (lost i0 i1)).
Proof.
  intros Hr Hwf Hsub i1. assert (Hrec : records i1 = <[k := r]> (records i0)) by apply rebuild_records.
  assert (Hin : ∀ h, h ∈ held_heads r → h ∈ old_heads (records i0) k) by (intros; by eapply elem_of_submseteq).
  unfold publish_metadata. eapply hoare_bind with (R := λ w0 w, w0 = w ∧ on (was i0) w).
  { apply hoare_get. intros w Hw. exact (conj eq_refl Hw). }
  intros w0. apply hoare_at. intros w [-> Hw]. eapply hoare_pre with (P' := on (was i0)); [|by intros ? ->].
  pose proof Hw as (Hi0 & _). rewrite Hi0, Hwf. eapply hoare_or_disable; [|apply unsure_failed].
  eapply hoare_bind; [apply (hoare_announce i0 i1 k r); [|done]|].
  { intros i d Hi. split; [exact Hi|]. by apply index_ok_publish; [apply Hi|..]. }
  intros []. eapply hoare_bind.
  { apply hoare_sync. intros i d Ha _. split; [left; by apply announced_torn|by apply announced_lost in Ha]. }
  intros []. eapply hoare_bind; [by apply hoare_take|]. intros [].
  eapply hoare_conseq; [apply hoare_cleanup|done|intros [] w'; apply was_finished|by right|].
  intros w'. apply was_lost_new.
Qed.

(** A commit, up to the lock: the record [r] of [h], whose copy was validated. *)
Section commit.
Context (i0 : Index) (rm : string) (h : Head) (prev : option Head) (prev_held : bool) (owner_ : option string)
  (blob bytes_ : string) (m : FileManifest).
Let k := key rm (slot h).
Let r := {| room := rm; owner := owner_; current := h; previous := prev; previous_held := prev_held;
            home := records i0 !! k ≫= home; deleted := None; held := true |}.
Let extra : list Head := match prev with Some p => if prev_held then [p] else [] | None => [] end.
Let i1 := commit_index k r h m (slen bytes_) i0.
Context (Hr : record_ok k r) (Hv : validate_generation h blob bytes_ = Ok m)
  (Hextra : ∀ p, p ∈ extra → p ∈ old_heads (records i0) k ∧ p ≠ h) (Hnew : h ∉ old_heads (records i0) k).

Lemma commit_dir_free bl x : index_ok i0 bl → x ∈ gens (records i0) → generation x.1.1 x.2 ≠ generation k h.
Proof.
  destruct x as [[k' r'] p]. intros (_ & Hro & _) Hx Heq. cbn in Heq. apply elem_of_gens in Hx as [Hx Hp].
  destruct (held_head_play k' r' p (Hro _ _ Hx) Hp) as [Hpl Hk']. rewrite Hk' in Heq.
  apply (gens_distinct play Hplay) in Heq as [Hkk ->]; [|done|by apply Hr]. apply Hnew. unfold old_heads.
  fold k in Hkk. rewrite <-Hkk, <-Hk'. by rewrite Hx.
Qed.

(** The directory of the generation fills up, unseen. *)
Lemma hoare_put_file (φ ψ : Files → Prop) g : (∀ f, φ f → ψ (g f)) →
  let at_ (ξ : Files → Prop) : Index → Disk → Prop := λ i d, was i0 i d ∧ ξ (default no_files (blobs d !! generation k h)) in
  hoare (on (at_ φ)) (disk_call env (put_file (generation k h) g)) (λ _, on (at_ ψ)) (λ _, on (unsure i0 i1))
    (on (lost i0 i1)).
Proof.
  intros Hg at_. apply hoare_call; intros i d [Hw Hf].
  { split; [by apply was_unsure|by eapply was_lost]. }
  assert (Hw' : was i0 i (put_file (generation k h) g d)).
  { pose proof Hw as (_ & _ & Hi). apply was_files; [|done]. apply same_files_other with (dir := generation k h);
      [intros x Hx; by apply (commit_dir_free (blobs d))|intros dir' Hne; by rewrite lookup_insert_ne]. }
  split; [split; [done|]|split; [by apply was_unsure|by eapply was_lost]].
  cbn. rewrite lookup_insert_eq. by apply Hg.
Qed.

Lemma held_heads_commit : held_heads r = h :: extra.
Proof. unfold held_heads, extra. cbn. by destruct prev, prev_held. Qed.

Lemma hoare_commit_inner :
  hoare (on (was i0)) (commit_inner env rm h prev prev_held owner_ blob bytes_ m)
    (λ _, on (finished i1)) (λ _, on (unsure i0 i1)) (on (lost i0 i1)).
Proof.
  assert (Hrec : records i1 = <[k := r]> (records i0)) by apply commit_records.
  unfold commit_inner. fold k. cbv zeta.
  set (full_ := λ f, f_blob f = Some blob ∧ f_manifest f = Some bytes_).
  set (stocked := λ i d, was i0 i d ∧ full_ (default no_files (blobs d !! generation k h))).
  assert (Hst : ∀ i d, stocked i d → unsure i0 i1 i d ∧ lost i0 i1 i d).
  { intros i d [Hw _]. split; [by apply was_unsure|by eapply was_lost]. }
  assert (Hgen : ∀ i d, stocked i d → gen_ok (blobs d) k h m (slen bytes_)).
  { intros i d [_ [Hb Hm]]. exists blob, bytes_. split_and!; [|done|done].
    destruct (blobs d !! generation k h) as [[b1 b2]|]; [|done]. cbn in *. by subst. }
  eapply hoare_bind.
  { eapply hoare_pre; [apply (hoare_put_file (λ _, True) (λ f, f_blob f = Some blob)); done|]. intros w Hw. by split. }
  intros []. eapply hoare_bind; [apply (hoare_put_file (λ f, f_blob f = Some blob) full_); by intros f Hf|]. intros [].
  eapply hoare_bind; [apply (hoare_sync stocked (unsure i0 i1) (lost i0 i1) (λ i d H _, Hst i d H))|]. intros [].
  eapply hoare_bind; [apply (hoare_sync stocked (unsure i0 i1) (lost i0 i1) (λ i d H _, Hst i d H))|]. intros [].
  eapply hoare_bind with (R := λ w0 w, w0 = w ∧ on stocked w).
  { apply hoare_get. intros w Hw. exact (conj eq_refl Hw). }
  intros w0. apply hoare_at. intros w [-> Hw]. eapply hoare_pre with (P' := on stocked); [|by intros ? ->].
  pose proof Hw as [(Hi0 & _) _]. rewrite Hi0. fold r.
  eapply hoare_bind; [apply (hoare_announce i0 i1 k r); [|done]|].
  { intros i d Hs. pose proof Hs as [(Hii & Hh & Hi) _]. split; [by split|].
    apply (index_ok_commit i0 (blobs d) k r h m (slen bytes_) extra);
      [done|done|done|apply held_heads_commit|done|by apply (Hgen i)]. }
  intros []. eapply hoare_bind; [by apply hoare_take|]. intros []. eapply hoare_bind.
  - eapply hoare_attempted with (Q := λ _, on (was i1)). eapply hoare_conseq; [apply hoare_cleanup|done..|].
    intros w'. apply was_lost_new.
  - intros [[]|e]; [apply hoare_ret; intros w'; apply was_finished|]. apply hoare_modify.
    intros w' (Hi & Hb). split; [right; cbn; by rewrite Hi|done].
Qed.

Lemma hoare_commit_or_disable e :
  hoare (on (was i0)) (or_disable e (commit_inner env rm h prev prev_held owner_ blob bytes_ m))
    (λ _, on (finished i1)) (λ _, on (failed i0 i1)) (on (lost i0 i1)).
Proof. eapply hoare_or_disable; [apply hoare_commit_inner|apply unsure_failed]. Qed.
End commit.

(** *** Deletions *)

Definition unlisted (k : string) (i : Index) : Index := rebuild_index (set_records (delete k) i).

Lemma unlisted_records k i : records (unlisted k i) = delete k (records i).
Proof. apply rebuild_records. Qed.

Lemma hoare_delete_inner i0 k : let i1 := unlisted k i0 in
  hoare (on (was i0)) (delete_inner env k) (λ _, on (was i1)) (λ _, on (unsure i0 i1))
    (on (lost i0 i1)).
Proof.
  intros i1. assert (Hrec : records i1 = delete k (records i0)) by apply unlisted_records.
  assert (Hw : ∀ i d, was i0 i d → unsure i0 i1 i d ∧ lost i0 i1 i d).
  { intros i d Hw. split; [by apply was_unsure|by eapply was_lost]. }
  assert (Ha : ∀ i d, announced i0 i1 i d → unsure i0 i1 i d ∧ lost i0 i1 i d).
  { intros i d Hd. split; [left; by apply announced_torn|by apply announced_lost]. }
  unfold delete_inner. eapply hoare_bind with (R := λ _, on (announced i0 i1)).
  { unfold remove_file. eapply hoare_bind; [apply (hoare_read (was i0)); intros i d H _; by apply Hw|]. intros d.
    eapply hoare_pre with (P' := on (was i0)); [|by intros w [? _]].
    destruct (heads d !! k); [|apply hoare_fail; intros w; apply Hw]. apply hoare_call; [intros i d' H _; by apply Hw|].
    intros i d' (-> & Hh & Hi). assert (Hd : announced i0 i1 i0 (drop_head k d')).
    - split_and!; [done|done|]. split; [cbn; by rewrite Hh, Hrec|by apply index_ok_delete].
    - split; [done|intros _; by apply Ha]. }
  intros []. eapply hoare_bind; [apply hoare_sync; intros i d Hd _; by apply Ha|].
  intros []. eapply hoare_bind; [by apply hoare_take|].
  assert (Hn : ∀ i d, was i1 i d → unsure i0 i1 i d ∧ lost i0 i1 i d).
  { intros i d Hd. split; [by right|by eapply was_lost_new]. }
  intros []. eapply hoare_bind with (R := λ _, on (was i1)).
  { eapply hoare_conseq; [apply hoare_cleanup|done|done|intros e w; apply Hn|intros w; apply Hn]. }
  intros []. apply hoare_sync. intros i d H _. by apply Hn.
Qed.

(** Several slots, one after the other. *)
Definition retired (i : Index) (ks : list string) : Index := foldl (λ i k, unlisted k i) i ks.
Definition partway (φ : Index → Index → Index → Disk → Prop) (i0 : Index) (ks : list string) : Index → Disk → Prop := λ i d,
  ∃ ks1 k ks2, ks = ks1 ++ k :: ks2 ∧ φ (retired i0 ks1) (retired i0 (ks1 ++ [k])) i d.

Lemma partway_cons (φ' : Index → Index → Index → Disk → Prop) i0 k ks i d :
  partway φ' (unlisted k i0) ks i d → partway φ' i0 (k :: ks) i d.
Proof. intros (ks1 & k' & ks2 & -> & H). by exists (k :: ks1), k', ks2. Qed.

Lemma hoare_retire ks : ∀ i0, hoare (on (was i0)) (each (delete_inner env) ks)
  (λ _, let i1 := retired i0 ks in on (was i1)) (λ _, on (partway unsure i0 ks))
  (on (partway lost i0 ks)).
Proof.
  induction ks as [|k ks IH]; intros i0; cbn [each]; [by apply hoare_ret|].
  eapply hoare_bind with (R := λ _, on (was (unlisted k i0))).
  - eapply hoare_conseq; [apply hoare_delete_inner|done|done|..]; [intros e w Hw|intros w Hw]; by exists [], k, ks.
  - intros []. eapply hoare_conseq; [apply IH|done|done|..]; [intros e w|intros w]; apply partway_cons.
Qed.
End calls.
End durable.
