(* ===== verification/EscrowReopen.v ===== *)
(** * Reading the escrow repository back

    What the reads of [EscrowRepository] return, and what [open] makes of a
    disk: of one that was left in any of the states of [EscrowDurable], the
    index of the same records. *)
From S2P Require Import Prelude Effects Text Json Wire EscrowProtocol EscrowMesh EscrowRepository EscrowIndex EscrowDurable.

Section reads.
Context {C : Crypto} {E : EscrowEnv} {R : RepoEnv} (env : nat → Input).
Implicit Types (φ ψ χ ι : Index → Disk → Prop).

Definition pin (i0 : Index) (d0 : Disk) : Index → Disk → Prop := λ i d, i = i0 ∧ d = d0.

(** It is enough to reason from one index and one disk at a time. *)
Lemma hoare_pin {E' A} φ (Q : A → World → Prop) (X : E' → World → Prop) I m :
  (∀ i0 d0, φ i0 d0 → hoare (on (pin i0 d0)) m Q X I) → hoare (on φ) m Q X I.
Proof. intros H w Hw. apply (H (index w) (disk w) Hw). by split. Qed.

Lemma hoare_read_bounded i0 d0 dir file max χ ι : (sick env → χ i0 d0 ∧ ι i0 d0) →
  ((∀ b, file_of d0 dir file = Some b → max < slen b) → χ i0 d0) →
  hoare (on (pin i0 d0)) (read_bounded env dir file max)
    (λ b, on (λ i d, pin i0 d0 i d ∧ file_of d0 dir file = Some b ∧ slen b ≤ max)) (λ _, on χ) (on ι).
Proof.
  intros Hs Hf. unfold read_bounded. eapply hoare_bind; [apply hoare_read; by intros i d [-> ->]|].
  intros d. cbv beta. eapply hoare_pre with (P' := λ w, d = d0 ∧ on (pin i0 d0) w); [|by intros w [[Hi Hd] ->]; split; [|split]].
  apply hoare_pure. intros ->. destruct (file_of d0 dir file) as [b|] eqn:Hb.
  - destruct (max <? slen b) eqn:Hm.
    + apply hoare_fail. intros w [Hi Hd]. unfold on. rewrite Hi, Hd. apply Hf. intros b' [= <-]. lia.
    + apply hoare_ret. intros w Hw. split_and!; [apply Hw..|done|lia].
  - apply hoare_fail. intros w [Hi Hd]. unfold on. rewrite Hi, Hd. by apply Hf.
Qed.

Lemma validate_generation_sizes h blob bytes m : validate_generation h blob bytes = Ok m →
  slen blob = blob_size h ∧ slen bytes ≤ manifest_limit (blob_size h) ∧ slen bytes ≤ MAX_MANIFEST.
Proof.
  unfold validate_generation. intros ([] & Hb & (m' & Hm & _)%rbind_Ok)%rbind_Ok.
  unfold validate_blob in Hb. unfold validate_manifest in Hm. case_if; [done|]. case_if; [done|]. bools. unfold manifest_limit in *. lia.
Qed.

Lemma validate_generation_parts h blob bytes m : validate_generation h blob bytes = Ok m ↔
  validate_blob h blob = Ok tt ∧ validate_manifest h bytes = Ok m ∧ chunks_verify m blob = true.
Proof.
  unfold validate_generation. split.
  - intros ([] & Hb & (m' & Hm & H)%rbind_Ok)%rbind_Ok. destruct (chunks_verify m' blob) eqn:Hc; [|done]. by injection H as ->.
  - intros (-> & Hm & Hc). cbn. rewrite Hm. cbn. by rewrite Hc.
Qed.

Lemma gen_files d k h m len : gen_ok (blobs d) k h m len ↔
  ∃ blob bytes, file_of d (generation k h) BlobBin = Some blob ∧ file_of d (generation k h) ManifestBin = Some bytes ∧
    validate_generation h blob bytes = Ok m ∧ len = slen bytes.
Proof.
  unfold gen_ok, file_of. split.
  - intros (b & s & -> & Hv & Hl). by exists b, s.
  - intros (b & s & Hb & Hs & Hv & Hl). exists b, s. destruct (blobs d !! _) as [[fb fm]|]; [|done]. cbn in *.
    by simplify_eq.
Qed.

(** [open] reads a copy back exactly when it is one that was committed. *)
Lemma hoare_load_generation i0 d0 k h χ ι : (sick env → χ i0 d0 ∧ ι i0 d0) →
  ((∀ m len, ¬ gen_ok (blobs d0) k h m len) → χ i0 d0) →
  hoare (on (pin i0 d0)) (load_generation env k h)
    (λ v, on (λ i d, pin i0 d0 i d ∧ gen_ok (blobs d0) k h v.1 v.2)) (λ _, on χ) (on ι).
Proof.
  intros Hs Hf. unfold load_generation. cbv zeta. eapply hoare_bind.
  { apply hoare_read_bounded; [done|]. intros Hb. apply Hf. intros m len (b & s & Hfb & _ & Hv & _)%gen_files.
    apply Hb in Hfb. apply validate_generation_sizes in Hv. lia. }
  intros blob. eapply hoare_pre with (P' := λ w, file_of d0 (generation k h) BlobBin = Some blob ∧ on (pin i0 d0) w); [|by intros w (? & ? & ?)].
  apply hoare_pure. intros Hblob.
  assert (Hfail : ∀ w, on (pin i0 d0) w → (∀ m len, ¬ gen_ok (blobs d0) k h m len) → on χ w).
  { intros w [Hi Hd] Hn. unfold on. rewrite Hi, Hd. by apply Hf. }
  eapply hoare_bind with (R := λ _ w, validate_blob h blob = Ok tt ∧ on (pin i0 d0) w).
  { apply hoare_lift. intros w Hw. destruct (validate_blob h blob) as [[]|e] eqn:Hv; [by split|]. cbn. apply Hfail; [done|].
    intros m len (b & s & Hb & _ & (Hv' & _)%validate_generation_parts & _)%gen_files. simplify_eq. congruence. }
  intros []. apply hoare_pure. intros Hvb. eapply hoare_bind.
  { apply hoare_read_bounded; [done|]. intros Hb. apply Hf. intros m len (b & s & _ & Hfs & Hv & _)%gen_files.
    apply Hb in Hfs. apply validate_generation_sizes in Hv. lia. }
  intros bytes. eapply hoare_pre with (P' := λ w, file_of d0 (generation k h) ManifestBin = Some bytes ∧ on (pin i0 d0) w); [|by intros w (? & ? & ?)].
  apply hoare_pure. intros Hbytes. eapply hoare_bind with (R := λ m w, validate_manifest h bytes = Ok m ∧ on (pin i0 d0) w).
  { apply hoare_lift. intros w Hw. destruct (validate_manifest h bytes) as [m|e] eqn:Hv; [by split|]. cbn. apply Hfail; [done|].
    intros m len (b & s & _ & Hs' & (_ & Hv' & _)%validate_generation_parts & _)%gen_files. simplify_eq. congruence. }
  intros m. apply hoare_pure. intros Hvm. eapply hoare_bind with (R := λ _ w, chunks_verify m blob = true ∧ on (pin i0 d0) w).
  { apply hoare_lift. intros w Hw. destruct (chunks_verify m blob) eqn:Hv; cbn; [by split|]. apply Hfail; [done|].
    intros m' len (b & s & Hb & Hs' & (_ & Hv' & Hc)%validate_generation_parts & _)%gen_files. simplify_eq. congruence. }
  intros []. apply hoare_pure. intros Hc. apply hoare_ret. intros w Hw. split; [done|].
  apply gen_files. exists blob, bytes. split_and!; [done|done|by apply validate_generation_parts|done].
Qed.

(** *** Reads of a running repository *)

Lemma hoare_or_fail {A} φ (ψ : A → Index → Disk → Prop) χ ι e m :
  hoare (on φ) m (λ a, on (ψ a)) (λ _, on χ) (on ι) → hoare (on φ) (or_fail e m) (λ a, on (ψ a)) (λ _, on χ) (on ι).
Proof.
  intros Hm. eapply hoare_bind.
  - apply (hoare_attempted (on φ) (λ r, on (match r with Ok a => ψ a | Err _ => χ end)) (λ _, on χ) (on ι)). exact Hm.
  - intros [a|err]; [by apply hoare_ret|by apply hoare_fail].
Qed.

Lemma hoare_read_generation i0 d0 rm h χ ι : let k := key rm (slot h) in (sick env → χ i0 d0 ∧ ι i0 d0) →
  ((∀ m len, ¬ gen_ok (blobs d0) k h m len) → χ i0 d0) →
  hoare (on (pin i0 d0)) (read_generation env rm h)
    (λ v, on (λ i d, pin i0 d0 i d ∧ file_of d0 (generation k h) BlobBin = Some v.1 ∧ ∃ m, validate_generation h v.1 v.2 = Ok m))
    (λ _, on χ) (on ι).
Proof.
  intros k Hs Hf. unfold read_generation. fold k. cbv zeta. eapply hoare_bind.
  { apply hoare_or_fail, hoare_read_bounded; [done|]. intros Hb. apply Hf. intros m len (b & s & Hfb & _ & Hv & _)%gen_files.
    apply Hb in Hfb. apply validate_generation_sizes in Hv. lia. }
  intros blob. eapply hoare_pre with (P' := λ w, file_of d0 (generation k h) BlobBin = Some blob ∧ on (pin i0 d0) w); [|by intros w (? & ? & ?)].
  apply hoare_pure. intros Hblob. eapply hoare_bind.
  { apply hoare_or_fail, hoare_read_bounded; [done|]. intros Hb. apply Hf. intros m len (b & s & _ & Hfs & Hv & _)%gen_files.
    apply Hb in Hfs. apply validate_generation_sizes in Hv. lia. }
  intros bytes. eapply hoare_pre with (P' := λ w, file_of d0 (generation k h) ManifestBin = Some bytes ∧ on (pin i0 d0) w); [|by intros w (? & ? & ?)].
  apply hoare_pure. intros Hbytes. eapply hoare_bind with (R := λ m w, validate_generation h blob bytes = Ok m ∧ on (pin i0 d0) w).
  { apply hoare_lift. intros w [Hi Hd]. destruct (validate_generation h blob bytes) as [m|e] eqn:Hv; [by split|].
    unfold on. rewrite Hi, Hd. apply Hf. intros m len (b & s & Hb & Hs' & Hv' & _)%gen_files. simplify_eq. congruence. }
  intros m. apply hoare_pure. intros Hv. apply hoare_ret. intros w Hw. split_and!; [apply Hw..|done|by exists m].
Qed.

(** ** Blocks *)

Lemma string_take_min n s : string_take (Nat.min (String.length s) n) s = string_take n s.
Proof. revert s. induction n as [|n IH]; intros [|c s]; cbn; [done..|by rewrite IH]. Qed.

Lemma string_drop_length n s : (String.length (string_drop n s) = String.length s - n)%nat.
Proof. revert s. induction n as [|n IH]; intros [|c s]; cbn; [done..|apply IH]. Qed.

Lemma string_drop_drop a b s : string_drop a (string_drop b s) = string_drop (b + a) s.
Proof. revert s. induction b as [|b IH]; intros [|c s]; cbn; [done|done|by destruct a|apply IH]. Qed.

Lemma chunks_lookup fuel s j : 0 < CHUNK_SIZE → (String.length s ≤ fuel)%nat →
  Z.of_nat j * CHUNK_SIZE < slen s →
  chunks_of fuel s !! j = Some (string_take (Z.to_nat CHUNK_SIZE) (string_drop (Z.to_nat (Z.of_nat j * CHUNK_SIZE)) s)).
Proof.
  intros Hc. revert s j. induction fuel as [|fuel IH]; intros s j Hl Hj; destruct s as [|c s].
  - unfold slen in Hj. cbn in Hj. nia.
  - cbn in Hl. lia.
  - unfold slen in Hj. cbn in Hj. nia.
  - destruct j as [|j]; [done|].
    change (chunks_of fuel (string_drop (Z.to_nat CHUNK_SIZE) (String c s)) !! j =
      Some (string_take (Z.to_nat CHUNK_SIZE) (string_drop (Z.to_nat (Z.of_nat (S j) * CHUNK_SIZE)) (String c s)))).
    rewrite IH.
    + rewrite string_drop_drop. do 3 f_equal. nia.
    + rewrite string_drop_length. cbn in *. lia.
    + unfold slen in *. rewrite string_drop_length. lia.
Qed.

Lemma div_ceil_lt a b j : 0 < b → 0 ≤ j → j < div_ceil a b → j * b < a.
Proof.
  unfold div_ceil. intros Hb Hj Hlt. assert (Hm : (a + b - 1) / b * b ≤ a + b - 1) by (rewrite Z.mul_comm; by apply Z.mul_div_le). nia.
Qed.

Lemma file_slice h blob bytes m j c : 0 < CHUNK_SIZE → validate_generation h blob bytes = Ok m → m_chunks m !! j = Some c →
  let data := string_drop (Z.to_nat (Z.of_nat j * CHUNK_SIZE)) blob in
  let len := Z.min (blob_size h - Z.of_nat j * CHUNK_SIZE) CHUNK_SIZE in
  0 ≤ len ∧ len ≤ slen data ∧ verify_cid c (string_take (Z.to_nat len) data) RAW = true.
Proof.
  intros HC Hv Hj. pose proof (validate_generation_sizes _ _ _ _ Hv) as [Hsz _].
  apply validate_generation_parts in Hv as (_ & Hm & Hc). unfold validate_manifest in Hm. case_if; [done|].
  apply rbind_Ok in Hm as (m' & _ & Hm). destruct (_ || _) eqn:Hchk in Hm; [done|]. injection Hm as ->. bools.
  assert (Hlt : Z.of_nat j * CHUNK_SIZE < blob_size h).
  { apply div_ceil_lt; [done|lia|]. apply lookup_lt_Some in Hj. unfold zlen in *. lia. }
  assert (Hch : blob_chunks blob !! j = Some (string_take (Z.to_nat CHUNK_SIZE) (string_drop (Z.to_nat (Z.of_nat j * CHUNK_SIZE)) blob))).
  { apply chunks_lookup; [done|done|lia]. }
  intros data len. assert (Hlen : slen data = blob_size h - Z.of_nat j * CHUNK_SIZE).
  { unfold data, slen. rewrite string_drop_length. unfold slen in Hsz. lia. }
  split; [lia|]. split; [lia|]. unfold chunks_verify in Hc. rewrite forallb_elem in Hc.
  specialize (Hc (c, string_take (Z.to_nat CHUNK_SIZE) data)). cbn in Hc.
  assert (Ht : string_take (Z.to_nat len) data = string_take (Z.to_nat CHUNK_SIZE) data).
  { rewrite <-(string_take_min (Z.to_nat CHUNK_SIZE)). f_equal. unfold len, slen in *. lia. }
  rewrite Ht. apply Hc. apply list_elem_of_lookup. exists j. by rewrite lookup_zip_with, Hj, Hch.
Qed.

Lemma string_take_all n s : (String.length s ≤ n)%nat → string_take n s = s.
Proof. revert n. induction s as [|c s IH]; intros [|n] H; cbn in *; [done|done|lia|]. rewrite IH; [done|lia]. Qed.

Lemma healthy_read w : ¬ sick env →
  disk_read env w = ({| index := index w; disk := disk w; pos := S (pos w) |}, Ok (disk w)).
Proof.
  intros Hs. unfold disk_read, sync_dir, disk_call, bind, get_state, ret.
  assert (alive (env (pos w)) = true ∧ io_ok (env (pos w)) = true) as [-> ->].
  { destruct (alive (env (pos w))) eqn:Ha, (io_ok (env (pos w))) eqn:Hi; try done; exfalso; apply Hs; exists (pos w);
      rewrite Ha, Hi; by intros []. }
  done.
Qed.

(** Every CID of a copy in memory is served, with bytes it names. *)
Lemma block_served play w x m len c : 0 < CHUNK_SIZE → ¬ sick env → index_ok play (index w) (blobs (disk w)) →
  x ∈ gens (records (index w)) → cached (manifests (index w)) x = Some (m, len) → c = cid x.2 ∨ c ∈ m_chunks m →
  ∃ data codec, block env (room x.1.2) c w = ({| index := index w; disk := disk w; pos := S (pos w) |}, Ok (Some data)) ∧
    verify_cid c data codec = true.
Proof.
  intros HC Hs (Hf & _ & Hst) Hx Hc Hin. destruct (fixed_blocks (index w) (room x.1.2, c) Hf) as [H1 H2].
  assert (Hb : is_Some (blocks (index w) !! (room x.1.2, c))).
  { destruct Hin as [->|(j & Hj)%list_elem_of_lookup]; (eapply (H2 x); [done|]); exists m, len; (split; [done|]); (split; [done|]).
    - left. split; [done|reflexivity].
    - right. exists j. split; [done|reflexivity]. }
  destruct Hb as [b Hb]. destruct (H1 b Hb) as (y & Hy & m' & len' & Hcy & Hr & Hor). cbn in Hr.
  destruct (Hst y Hy) as (m1 & len1 & Hc1 & Hg). rewrite Hcy in Hc1. injection Hc1 as <- <-.
  apply gen_files in Hg as (blob & bytes & Hfb & Hfm & Hv & ->).
  unfold block, bind at 1, get_state. rewrite Hb. unfold bind, attempted. rewrite (healthy_read w Hs).
  destruct Hor as [[Hq ->]|(j & Hj & ->)]; cbn [b_generation b_file b_offset b_len chunk_block fst snd] in *.
  - rewrite Hfm. change (Z.to_nat 0) with 0%nat.
    assert (Hd : string_drop 0 bytes = bytes) by (by destruct bytes). rewrite Hd.
    replace (slen bytes <? slen bytes) with false by (symmetry; apply Z.ltb_ge; lia).
    exists bytes, DAG_CBOR. rewrite (string_take_all _ bytes) by (unfold slen; lia).
    assert (Hvc : verify_cid c bytes DAG_CBOR = true).
    { apply validate_generation_parts in Hv as (_ & Hm & _). unfold validate_manifest in Hm. case_if; [done|]. bools. by rewrite Hq. }
    by rewrite Hvc.
  - rewrite Hfb. destruct (file_slice (y.2) blob bytes m' j c HC Hv Hj) as (H0 & Hle & Hvc).
    replace (slen _ <? _) with false by (symmetry; by apply Z.ltb_ge).
    eexists _, RAW. by rewrite Hvc.
Qed.
End reads.

(** ** Opening *)
Section opening.
Context {C : Crypto} {E : EscrowEnv} {R : RepoEnv} (env : nat → Input) (cfg : EscrowConfig).
Context (play : string → Head → Prop) (Hplay : distinct play).
Implicit Types (φ ψ χ ι : Index → Disk → Prop).

(** What a restart may do to a record: give up copies that cannot be read. *)
Definition lowered (r r' : SlotRecord) : Prop := ∃ b b', r' = drop_corrupt b b' r.
Definition lowered_map (hs hs' : gmap string SlotRecord) : Prop := ∀ k, option_relation lowered (λ _, False) (λ _, False) (hs !! k) (hs' !! k).

Lemma lowered_refl r : lowered r r.
Proof. by exists false, false. Qed.
Lemma lowered_map_refl hs : lowered_map hs hs.
Proof. intros k. destruct (hs !! k); [apply lowered_refl|done]. Qed.
Lemma lowered_map_insert hs hs' k r r' : lowered_map hs hs' → hs !! k = Some r → lowered r r' → lowered_map hs (<[k := r']> hs').
Proof.
  intros Hm Hk Hl k'. destruct (decide (k = k')) as [<-|Hne]; [by rewrite lookup_insert_eq, Hk|].
  rewrite lookup_insert_ne by done. apply Hm.
Qed.

Lemma drop_corrupt_ok k r b b' : record_ok play k r → record_ok play k (drop_corrupt b b' r).
Proof.
  intros [H1 H2 H3 H4 H5 H6 H7]. unfold drop_corrupt, with_held, with_previous.
  destruct b, b'; (split; cbn; [done|done|done|done|try done|intros d Hd; destruct (H6 d Hd) as (? & ? & ?); by split_and!|done]).
Qed.

Lemma drop_corrupt_held b b' r : held_heads (drop_corrupt b b' r) ⊆+ held_heads r.
Proof.
  unfold drop_corrupt, with_held, with_previous, held_heads. destruct b, b'; cbn; destruct (deleted r); cbn; try done;
    try (apply submseteq_nil_l); destruct (held r), (previous r), (previous_held r); cbn; try done;
    try apply submseteq_nil_l; try (by apply submseteq_skip, submseteq_nil_l); by apply submseteq_cons.
Qed.

(** The configuration and the state files pass the checks of [open]. *)
Definition fit (hs : gmap string SlotRecord) : Prop :=
  validate_config cfg = Ok tt ∧ zsize hs ≤ MAX_RECORDS ∧ ∀ k r, hs !! k = Some r → record_len r ≤ MAX_STATE_FILE.

(** The index the disk was left by. *)
Context (ib : Index).
Let hs0 := records ib.
Definition bad : Prop := sick env ∨ ¬ fit hs0.

Definition idle (i : Index) : Prop :=
  write_failed i = false ∧ reserved i = 0 ∧ owner_reserved i = ∅ ∧ pending_slots i = ∅.

(** A copy that is read has the manifest the old index had cached. *)
Definition same_cache (i : Index) (x : gen) : Prop := cached (manifests i) x = cached (manifests ib) x.

(** The records of [fin] are loaded; the others are as they were, except for
    [skip]. *)
Record loading (skip : string → Prop) (fin : list string) (i : Index) (d : Disk) : Prop := {
  ld_idle : idle i;
  ld_disk : index_ok play ib (blobs d);
  ld_lowered : lowered_map hs0 (heads d);
  ld_same : ¬ bad → heads d = hs0;
  ld_records k : records i !! k = if decide (k ∈ fin) then heads d !! k else None;
  ld_rest k : k ∉ fin → ¬ skip k → heads d !! k = hs0 !! k;
  ld_cached x : x ∈ gens (records i) → same_cache i x;
}.

(** The index of lowered records. *)
Definition lower_index (hs : gmap string SlotRecord) : Index := rebuild_index (set_records (λ _, hs) ib).

Lemma lowered_gens hs hs' x : lowered_map hs hs' → x ∈ gens hs' → ∃ r, (x.1.1, r, x.2) ∈ gens hs.
Proof.
  intros Hl Hx. destruct x as [[k r'] h]. apply elem_of_gens in Hx as [Hk Hh]. specialize (Hl k). rewrite Hk in Hl.
  destruct (hs !! k) as [r|] eqn:Hr; [|done]. destruct Hl as (b & b' & ->). exists r. apply elem_of_gens. split; [done|].
  eapply elem_of_submseteq; [exact Hh|apply drop_corrupt_held].
Qed.

Lemma lowered_records_ok hs hs' : records_ok play hs → lowered_map hs hs' → records_ok play hs'.
Proof.
  intros Hr Hl k r' Hk. specialize (Hl k). rewrite Hk in Hl. destruct (hs !! k) as [r|] eqn:Hk'; [|done].
  destruct Hl as (b & b' & ->). by apply drop_corrupt_ok, Hr.
Qed.

Lemma lower_index_ok hs bl : index_ok play ib bl → lowered_map hs0 hs → index_ok play (lower_index hs) bl.
Proof.
  intros (Hf & Hr & Hst) Hl. apply index_ok_rebuild; cbn; [by eapply lowered_records_ok|]. intros x Hx.
  destruct (lowered_gens _ _ _ Hl Hx) as [r Hg]. apply (Hst _ Hg).
Qed.

(** Where [open] ends when it does not return. *)
Definition stranded (_ : Index) (d : Disk) : Prop :=
  bad ∧ ∃ hs, lowered_map hs0 hs ∧ backed play (lower_index hs) d.

Lemma loading_stranded skip fin i d : loading skip fin i d → bad → stranded i d.
Proof.
  intros [] ?. split; [done|]. exists (heads d). split; [done|]. split; [by unfold lower_index; rewrite rebuild_records|].
  by apply lower_index_ok.
Qed.

(** The files of a copy decide its manifest. *)
Lemma gen_ok_unique bl k h m len m' len' : gen_ok bl k h m len → gen_ok bl k h m' len' → m = m' ∧ len = len'.
Proof. intros (b & s & Hb & Hv & ->) (b' & s' & Hb' & Hv' & ->). rewrite Hb in Hb'. injection Hb' as <- <-. rewrite Hv in Hv'. by injection Hv' as <-. Qed.

(** The heads of the record at hand whose copies have been read back. *)
Definition loaded (k : string) (r : SlotRecord) (fin : list string) (cs : list Head) (i : Index) (d : Disk) : Prop :=
  loading (eq k) fin i d ∧ heads d !! k = Some r ∧
  ∀ h, h ∈ cs → same_cache i (k, r, h).

Definition wanted (r : SlotRecord) (h : Head) : bool :=
  (if bool_decide (h = current r) then held r else previous_held r) && negb (is_some (deleted r)).

Lemma loaded_generation k r fin cs h m len i d : k ∉ fin → (∀ p, p ∈ cs → p ≠ h → hash p ≠ hash h) → loaded k r fin cs i d →
  cached (manifests ib) (k, r, h) = Some (m, len) → loaded k r fin (h :: cs) (index_generation i (room r) k h m len) d.
Proof.
  intros Hk Hap ([H1 H2 H3 H4 H5 H6 H7] & Hh & Hcs) Hg. split_and!; [split|done|]; try done.
  - intros [[k' r'] p] Hx. cbn in *. pose proof Hx as [Hr _]%elem_of_gens. rewrite H5 in Hr.
    destruct (decide (k' ∈ fin)) as [Hf|]; [|done]. specialize (H7 _ Hx). assert (Hne : k ≠ k') by congruence.
    unfold same_cache, cached in *. cbn in *. rewrite lookup_insert_ne; [done|congruence].
  - intros p Hp. unfold same_cache, cached in *. cbn in *. destruct (decide (p = h)) as [->|Hne]; [by rewrite lookup_insert_eq, Hg|].
    apply elem_of_cons in Hp as [?|Hp]; [done|]. rewrite lookup_insert_ne; [by apply Hcs|].
    intros [= Heq]. by apply (Hap p Hp Hne).
Qed.

Lemma hoare_load_head k r fin cs corrupt h : k ∉ fin → hs0 !! k = Some r → record_ok play k r → (h = current r ∨ previous r = Some h) →
  (∀ p, p ∈ cs → p ≠ h → hash p ≠ hash h) →
  hoare (on (loaded k r fin cs)) (load_head env k r corrupt h)
    (λ c w, (c = corrupt ∧ on (loaded k r fin (if wanted r h then h :: cs else cs)) w) ∨
       (bad ∧ c = (if bool_decide (h = current r) then (true, corrupt.2) else (corrupt.1, true)) ∧ on (loaded k r fin cs) w))
    (λ _, on stranded) (on stranded).
Proof.
  intros Hk Hk0 Hr Hh Hap. unfold load_head, wanted.
  assert (Hgood : good_head h ∧ slot h = slot (current r) ∧ writer h = writer (current r)).
  { destruct Hh as [->|Hp]; [split; [apply Hr|done]|]. destruct (ro_previous _ _ _ Hr h Hp) as (_ & ? & ? & Hc).
    apply check_cas_new in Hc as [(? & _) _]. done. }
  destruct Hgood as ([-> ->] & Hs & Hw). rewrite !bool_decide_true by done. cbn [map_err lift andb].
  eapply hoare_bind; [by apply (hoare_ret (on (loaded k r fin cs)) (λ _, on (loaded k r fin cs)))|]. intros [].
  eapply hoare_bind; [by apply (hoare_ret (on (loaded k r fin cs)) (λ _, on (loaded k r fin cs)))|]. intros [].
  eapply hoare_bind; [by apply (hoare_ret (on (loaded k r fin cs)) (λ _, on (loaded k r fin cs)))|]. intros []. cbv zeta.
  set (want := if bool_decide (h = current r) then held r else previous_held r).
  destruct (negb want || is_some (deleted r)) eqn:Hwant.
  { apply hoare_ret. intros w Hw'. left. split; [done|]. replace (want && negb (is_some (deleted r))) with false; [done|].
    by destruct want, (is_some (deleted r)). }
  assert (Hyes : want && negb (is_some (deleted r)) = true) by (by destruct want, (is_some (deleted r))). rewrite Hyes.
  assert (Hheld : h ∈ held_heads r).
  { apply andb_true_iff in Hyes as [Hy Hd]. unfold want in Hy. unfold held_heads. destruct (is_some (deleted r)); [done|].
    apply elem_of_app. case_bool_decide as Hc; [left; rewrite Hy, Hc; apply list_elem_of_here|].
    destruct Hh as [?|Hp]; [done|]. right. rewrite Hp, Hy. apply list_elem_of_here. }
  apply hoare_pin. intros i0 d0 Hld. pose proof Hld as (Hl & Hhd & _).
  assert (Hg : ∃ m len, cached (manifests ib) (k, r, h) = Some (m, len) ∧ gen_ok (blobs d0) k h m len).
  { destruct (ld_disk _ _ _ _ Hl) as (_ & _ & Hst). apply (Hst (k, r, h)). by apply elem_of_gens. }
  eapply hoare_bind with (R := λ v w, on (pin i0 d0) w ∧ match v with Ok (m, len) => gen_ok (blobs d0) k h m len | Err _ => bad end).
  - eapply hoare_conseq with (X' := λ _ _, False) (I' := on (λ i d, bad ∧ pin i0 d0 i d)).
    + eapply (hoare_attempted _ (λ v w, match v with
         | Ok v => on (λ i d, pin i0 d0 i d ∧ gen_ok (blobs d0) k h v.1 v.2) w
         | Err _ => on (λ i d, bad ∧ pin i0 d0 i d) w end)).
      apply (hoare_load_generation env i0 d0 k h (λ i d, bad ∧ pin i0 d0 i d)).
      * intros Hsick. split; (split; [by left|done]).
      * intros Hno. destruct Hg as (m & len & _ & Hg). by apply Hno in Hg.
    + done.
    + intros [[m len]|e] w Hv; by destruct Hv.
    + by intros e w Hx.
    + intros w [Hb [Hi Hd]]. unfold on. rewrite Hi, Hd. by eapply loading_stranded.
  - intros [[m len]|e].
    + eapply hoare_bind with (R := λ _, on (loaded k r fin (h :: cs))).
      * apply hoare_modify. intros w [[Hi Hd] Hgm]. unfold on, on_index. cbn [index disk]. rewrite Hi, Hd.
        destruct Hg as (m' & len' & Hcm & Hg). destruct (gen_ok_unique _ _ _ _ _ _ _ Hg Hgm) as [<- <-]. by apply loaded_generation.
      * intros []. apply hoare_ret. intros w Hw'. left. by split.
    + destruct (is_some (home r)).
      * apply hoare_ret. intros w [[Hi Hd] Hb]. right. split_and!; [done|done|]. unfold on. by rewrite Hi, Hd.
      * apply hoare_fail. intros w [[Hi Hd] Hb]. unfold on. rewrite Hi, Hd. by eapply loading_stranded.
Qed.

Lemma loading_size skip fin i d k r : loading skip fin i d → k ∉ fin → heads d !! k = Some r → zsize (records i) < zsize hs0.
Proof.
  intros [H1 H2 H3 H4 H5 H6 H7] Hk Hr. assert (Hdom : dom (records i) ⊂ dom hs0).
  { split.
    - intros k' [r' Hr']%elem_of_dom. rewrite H5 in Hr'. destruct (decide (k' ∈ fin)); [|done].
      specialize (H3 k'). rewrite Hr' in H3. apply elem_of_dom. by destruct (hs0 !! k').
    - intros Hsub. specialize (H3 k). rewrite Hr in H3. assert (Hin : k ∈ dom hs0) by (apply elem_of_dom; by destruct (hs0 !! k)).
      apply Hsub, elem_of_dom in Hin as [r' Hr']. rewrite H5 in Hr'. by destruct (decide (k ∈ fin)). }
  apply subset_size in Hdom. rewrite !size_dom in Hdom. unfold zsize. lia.
Qed.

(** A copy that is not loaded was given up. *)
Lemma loaded_all k r (c : bool * bool) (cs : list Head) : record_ok play k r →
  (held r = true → deleted r = None → current r ∈ cs ∨ c.1 = true) →
  (∀ p, previous r = Some p → previous_held r = true → deleted r = None → p ∈ cs ∨ c.2 = true) →
  ∀ h, h ∈ held_heads (drop_corrupt c.1 c.2 r) → h ∈ cs.
Proof.
  intros Hr H1 H2 h [Hd [[-> Hh]|[Hp Hh]]]%held_heads_cases; unfold drop_corrupt, with_held, with_previous in *;
    destruct c as [[] []]; cbn in *; try done.
  - by destruct (H1 Hh Hd).
  - by destruct (H1 Hh Hd).
  - by destruct (H2 h Hp Hh Hd).
  - by destruct (H2 h Hp Hh Hd).
Qed.

(** The record is published in memory, as it is on disk. *)
Lemma loaded_insert k r fin cs i d : k ∉ fin → (∀ h, h ∈ held_heads r → h ∈ cs) →
  loaded k r fin cs i d → loading (λ _, False) (k :: fin) (set_records (insert k r) i) d.
Proof.
  intros Hk Hall ([H1 H2 H3 H4 H5 H6 H7] & Hh & Hcs). split; cbn; try done.
  - intros k'. destruct (decide (k = k')) as [<-|Hne].
    + rewrite lookup_insert_eq, decide_True by apply list_elem_of_here. done.
    + rewrite lookup_insert_ne, H5 by done. destruct (decide (k' ∈ fin)) as [Hf|Hf].
      * rewrite decide_True; [done|]. by apply list_elem_of_further.
      * rewrite decide_False; [done|]. by intros [?|?]%elem_of_cons.
  - intros k' [Hne Hf]%not_elem_of_cons _. apply H6; congruence.
  - intros [[k' r'] h] Hx. cbn in Hx. apply gens_insert_inv in Hx as [[Hkk Hx]|[_ Hx]]; [|by apply H7]. cbn in *. subst.
    apply Hcs. by apply Hall.
Qed.

Lemma loaded_put k r r' fin cs i d : k ∉ fin → hs0 !! k = Some r → lowered r r' → bad → record_ok play k r →
  loaded k r fin cs i d → loaded k r' fin cs i (put_head k r' d).
Proof.
  intros Hk Hk0 Hl Hb Hr ([H1 H2 H3 H4 H5 H6 H7] & Hh & Hcs). destruct Hl as (b & b' & ->). split_and!; [split|..]; cbn.
  - done.
  - done.
  - eapply lowered_map_insert; [done|done|]. by exists b, b'.
  - intros Hnb. by destruct Hnb.
  - intros k'. rewrite H5. destruct (decide (k' ∈ fin)) as [Hf|]; [|done]. rewrite lookup_insert_ne; [done|]. by intros <-.
  - intros k' Hf Hne. rewrite lookup_insert_ne by done. by apply H6.
  - done.
  - by rewrite lookup_insert_eq.
  - done.
Qed.

(** The steps of a program that only checks. *)
Lemma hoare_check {A} φ χ (I : World → Prop) (r : result A string) : (∃ a, r = Ok a) ∨ (∀ i d, φ i d → χ i d) →
  hoare (on φ) (lift r) (λ _, on φ) (λ _, on χ) I.
Proof. intros H. apply hoare_lift. intros w Hw. destruct r; [done|]. destruct H as [[? [=]]|H]. by apply H. Qed.

(** Both heads of a record: every copy is loaded or given up. *)
Definition read_back (k : string) (r : SlotRecord) (fin : list string) (c : bool * bool) (w : World) : Prop :=
  (c.1 || c.2 = true → bad) ∧
  ∃ cs, on (loaded k r fin cs) w ∧ ∀ h, h ∈ held_heads (drop_corrupt c.1 c.2 r) → h ∈ cs.

Lemma previous_apart k r p : record_ok play k r → previous r = Some p → p ≠ current r ∧ hash (current r) ≠ hash p.
Proof.
  intros Hr Hp. destruct (ro_previous _ _ _ Hr p Hp) as (Hpl & Hs & _ & Hc). apply check_cas_new in Hc as [_ Hne].
  split; [congruence|]. apply (hash_apart play Hplay (room r)); [done|apply Hr|done|done].
Qed.

Lemma hoare_load_heads k r fin : k ∉ fin → hs0 !! k = Some r → record_ok play k r →
  hoare (on (loaded k r fin [])) (load_heads env k r) (read_back k r fin) (λ _, on stranded) (on stranded).
Proof.
  intros Hk Hk0 Hr.
  set (mid := λ (c : bool * bool) cs, (c.1 || c.2 = true → bad) ∧ c.2 = false ∧
    (held r = true → deleted r = None → current r ∈ cs ∨ c.1 = true) ∧ cs ⊆ [current r]).
  eapply hoare_bind with (R := λ c w, ∃ cs, mid c cs ∧ on (loaded k r fin cs) w).
  { eapply hoare_conseq; [apply (hoare_load_head k r fin [] (false, false) (current r)); [done|done|done|by left|by intros p ?%elem_of_nil]|done| |done|done].
    unfold wanted. rewrite bool_decide_true by done. intros c w [[-> Hw]|(Hb & -> & Hw)].
    - eexists. split; [|exact Hw]. split; [done|]. split; [done|]. split.
      + intros -> Hd. rewrite Hd. left. apply list_elem_of_here.
      + destruct (held r && _); set_solver.
    - exists []. split; [|done]. split_and!; [done|done|by right|set_solver]. }
  intros c. apply hoare_at. intros w (cs & (Hb & Hc2 & H1 & Hsub) & Hw).
  eapply hoare_pre with (P' := on (loaded k r fin cs)); [|by intros ? ->]. destruct (previous r) as [p|] eqn:Hp.
  - destruct (previous_apart k r p Hr Hp) as [Hne Hhash].
    eapply hoare_conseq; [apply (hoare_load_head k r fin cs c p); [done|done|done|by right|]|done| |done|done].
    { intros q Hq%Hsub _. by apply list_elem_of_singleton in Hq as ->. }
    unfold wanted. rewrite bool_decide_false by done. intros c' w' [[-> Hw']|(Hbad & -> & Hw')].
    + split; [done|]. eexists. split; [exact Hw'|]. eapply loaded_all; [done|..].
      * intros Hh Hd. destruct (H1 Hh Hd); [left|by right]. destruct (_ && _); [by apply list_elem_of_further|done].
      * intros p' [= <-]%(eq_trans (eq_sym Hp)) Hh Hd. left. rewrite Hh, Hd. apply list_elem_of_here.
    + split; [done|]. exists cs. split; [done|]. eapply loaded_all; [done|done|]. by right.
  - apply hoare_ret. intros w' Hw'. split; [done|]. exists cs. split; [done|]. eapply loaded_all; [done|done|].
    intros p. by rewrite Hp.
Qed.

Lemma hoare_load_record k r fin : k ∉ fin → hs0 !! k = Some r →
  hoare (on (loading (λ _, False) fin)) (load_record env k r) (λ _, on (loading (λ _, False) (k :: fin)))
    (λ _, on stranded) (on stranded).
Proof.
  intros Hk Hk0. apply hoare_pin. intros i0 d0 Hld0.
  assert (Hd0 : heads d0 !! k = Some r) by (rewrite (ld_rest _ _ _ _ Hld0 k Hk); [done|tauto]).
  assert (Hr : record_ok play k r) by (by apply (ld_disk _ _ _ _ Hld0)).
  assert (Hfit : ¬ fit hs0 → stranded i0 d0) by (intros Hn; eapply loading_stranded; [done|by right]).
  assert (Hsick : sick env → stranded i0 d0) by (intros Hn; eapply loading_stranded; [done|by left]).
  assert (Hpinned : ∀ (P : Prop) i d, (P → stranded i0 d0) → P → pin i0 d0 i d → stranded i d) by (intros P i d HP p [-> ->]; auto).
  unfold load_record. eapply hoare_bind with (R := λ w0 w, index w0 = i0 ∧ on (pin i0 d0) w).
  { apply hoare_get. intros w Hw. split; [apply Hw|done]. }
  intros w0. apply hoare_pure. intros Hi0. rewrite Hi0.
  eapply hoare_bind; [apply (hoare_check (pin i0 d0) stranded)|intros []].
  { pose proof (loading_size _ _ _ _ k r Hld0 Hk Hd0). destruct (zsize (records i0) <? MAX_RECORDS) eqn:Hz; [left; by eexists|right].
    intros i d. apply (Hpinned (¬ fit hs0)); [done|]. intros (_ & Hmax & _). lia. }
  eapply hoare_bind; [apply (hoare_check (pin i0 d0) stranded)|intros []].
  { destruct (record_len r <=? MAX_STATE_FILE) eqn:Hz; [left; by eexists|right].
    intros i d. apply (Hpinned (¬ fit hs0)); [done|]. intros (_ & _ & Hlen). apply Hlen in Hk0. lia. }
  eapply hoare_bind; [apply (hoare_sync env (pin i0 d0) stranded stranded); intros i d Hp Hs; split; by apply (Hpinned (sick env))|intros []].
  rewrite (ro_room _ _ _ Hr), (bool_decide_true _ (ro_key _ _ _ Hr)). cbn [ensure lift].
  eapply hoare_bind; [by apply (hoare_ret (on (pin i0 d0)) (λ _, on (pin i0 d0)))|intros []].
  eapply hoare_bind; [by apply (hoare_ret (on (pin i0 d0)) (λ _, on (pin i0 d0)))|intros []].
  eapply hoare_pre with (P' := on (loaded k r fin [])).
  2:{ intros w [Hi Hd]. unfold on. rewrite Hi, Hd. split; [|split; [done|by intros h ?%elem_of_nil]].
      destruct Hld0. split; try done. auto. }
  eapply hoare_bind; [by apply hoare_load_heads|]. intros c. apply hoare_at. intros w (Hb & cs & Hw & Hcs).
  eapply hoare_pre with (P' := on (loaded k r fin cs)); [|by intros ? ->].
  assert (Hch : ∀ (x : result () string), x = Ok tt → hoare (on (loaded k r fin cs)) (lift x) (λ _, on (loaded k r fin cs)) (λ _, on stranded) (on stranded)).
  { intros x ->. by apply hoare_ret. }
  eapply hoare_bind; [apply Hch|intros []].
  { destruct (deleted r) as [d|] eqn:Hd; [|done]. by destruct (ro_deleted _ _ _ Hr d Hd) as (-> & -> & ->). }
  eapply hoare_bind; [apply Hch|intros []].
  { destruct (home r) as [d|] eqn:Hd; [|done]. pose proof (ro_home _ _ _ Hr d Hd). by destruct (pubkey_from_did d). }
  eapply hoare_bind; [apply Hch|intros []].
  { destruct (previous r) as [p|] eqn:Hd; [|done]. destruct (ro_previous _ _ _ Hr p Hd) as (_ & _ & _ & Hc). by rewrite Hc. }
  cbv zeta. set (r' := drop_corrupt c.1 c.2 r).
  assert (Hst : ∀ i d, loaded k r' fin cs i d → sick env → stranded i d ∧ stranded i d).
  { intros i d [Hl _] Hs. split; (eapply loading_stranded; [exact Hl|by left]). }
  eapply hoare_bind with (R := λ _, on (loaded k r' fin cs)).
  - destruct (c.1 || c.2) eqn:Hc.
    + eapply hoare_bind with (R := λ _, on (loaded k r' fin cs)).
      * apply hoare_call.
        -- intros i d [Hl _] Hs. split; (eapply loading_stranded; [exact Hl|by left]).
        -- intros i d Hl. assert (Hl' : loaded k r' fin cs i (put_head k r' d)).
           { apply loaded_put with (r := r); [done|done|by exists c.1, c.2|by apply Hb|done|done]. }
           split; [done|by apply Hst].
      * intros []. by apply hoare_sync.
    + apply hoare_ret. intros w' Hw'. unfold r'. by destruct c as [[] []].
  - intros []. apply hoare_modify. intros w' Hw'. by eapply loaded_insert.
Qed.

Lemma hoare_load_all l fin : NoDup (l.*1) → (∀ k, k ∈ l.*1 → k ∉ fin) → (∀ k r, (k, r) ∈ l → hs0 !! k = Some r) →
  hoare (on (loading (λ _, False) fin)) (each (λ p, load_record env p.1 p.2) l)
    (λ _, on (loading (λ _, False) (rev l.*1 ++ fin))) (λ _, on stranded) (on stranded).
Proof.
  revert fin. induction l as [|[k r] l IH]; intros fin Hnd Hf Hl; cbn [each fmap list_fmap rev]; [by apply hoare_ret|].
  cbn in Hnd. apply NoDup_cons in Hnd as [Hk Hnd].
  eapply hoare_bind; [apply hoare_load_record; [apply Hf, list_elem_of_here|apply Hl, list_elem_of_here]|]. intros [].
  rewrite <-app_assoc. apply IH; [done| |intros k' r' Hin; by apply Hl, list_elem_of_further].
  intros k' Hk' [->|Hin]%elem_of_cons; [done|]. eapply Hf; [|done]. by apply list_elem_of_further.
Qed.

(** [open] on a disk whose records and copies are sound: it returns, unless a
    call fails or a file is too large, with the records as they were. *)
Lemma hoare_open :
  hoare (on (λ _, backed play ib)) (EscrowRepository.open env cfg)
    (λ _, on (λ i d, was play i i d ∧ idle i ∧ lowered_map hs0 (records i) ∧ (¬ bad → records i = hs0) ∧
       ∀ x, x ∈ gens (records i) → same_cache i x))
    (λ _, on stranded) (on stranded).
Proof.
  set (start := λ (_ : Index) d, backed play ib d).
  assert (Hload : ∀ d i, backed play ib d → i = empty_index → loading (λ _, False) [] i d).
  { intros d i [Hh Hd] ->. split; try done.
    - rewrite Hh. apply lowered_map_refl.
    - intros k Hk. by rewrite Hh.
    - intros x Hx. by apply elem_of_nil in Hx. }
  assert (Hstart : ∀ i d, start i d → bad → stranded i d).
  { intros i d Hd Hb. apply (loading_stranded (λ _, False) [] empty_index d); [by apply Hload|done]. }
  assert (Hsync : hoare (on start) (sync_dir env) (λ _, on start) (λ _, on stranded) (on stranded)).
  { apply hoare_sync. intros i d Hd Hs. split; (apply Hstart; [done|by left]). }
  unfold EscrowRepository.open. eapply hoare_bind; [apply (hoare_check start stranded)|intros []].
  { destruct (validate_config cfg) as [u|e] eqn:Hc; [left; by exists u|right]. intros i d Hd. apply Hstart; [done|].
    right. intros [Hok _]. congruence. }
  do 4 (eapply hoare_bind; [exact Hsync|intros []]).
  eapply hoare_bind with (R := λ _, on (loading (λ _, False) [])).
  { apply hoare_modify. intros w Hd. by apply Hload. }
  intros []. eapply hoare_bind; [apply hoare_read; intros i d Hd Hs; split; (eapply loading_stranded; [done|by left])|].
  intros d. apply hoare_at. intros w [Hw ->]. eapply hoare_pre with (P' := on (loading (λ _, False) [])); [|by intros ? ->].
  assert (Hhs : ∀ k r, (k, r) ∈ map_to_list (heads (disk w)) → hs0 !! k = Some r).
  { intros k r Hk%elem_of_map_to_list. rewrite <-(ld_rest _ _ _ _ Hw k); [done|apply not_elem_of_nil|tauto]. }
  eapply hoare_bind; [apply hoare_load_all; [apply NoDup_fst_map_to_list|by intros ?? ?%elem_of_nil|exact Hhs]|].
  intros []. rewrite app_nil_r. set (fin := rev _). eapply hoare_bind with
    (R := λ _, on (λ i d, was play i i d ∧ idle i ∧ lowered_map hs0 (records i) ∧ (¬ bad → records i = hs0) ∧
       ∀ x, x ∈ gens (records i) → same_cache i x)).
  { apply hoare_modify. intros w' [H1 H2 H3 H4 H5 H6 H7]. unfold on, on_index. cbn [index disk].
    assert (Hrec : records (rebuild_index (index w')) = heads (disk w')).
    { rewrite rebuild_records. apply map_eq. intros k. rewrite H5. destruct (decide (k ∈ fin)) as [Hf|Hf]; [done|].
      rewrite H6 by tauto. destruct (hs0 !! k) as [r|] eqn:Hk; [|done]. exfalso. apply Hf. unfold fin.
      rewrite list_elem_of_In, <-in_rev, <-list_elem_of_In. specialize (H3 k). rewrite Hk, (H6 k Hf), Hk in H3 by tauto.
      assert (Hk' : heads (disk w) !! k = Some r) by (rewrite (ld_rest _ _ _ _ Hw k); [done|apply not_elem_of_nil|tauto]).
      apply list_elem_of_fmap. exists (k, r). split; [done|]. by apply elem_of_map_to_list. }
    rewrite Hrec. refine (conj _ (conj _ (conj H3 (conj H4 _)))); [|by rewrite rebuild_eq|].
    - split; [done|]. split; [by rewrite Hrec|]. rewrite rebuild_records in Hrec.
      apply index_ok_rebuild; rewrite Hrec; [by eapply lowered_records_ok; [apply H2|]|].
      intros x Hx. destruct (lowered_gens _ _ _ H3 Hx) as [r Hg]. destruct H2 as (_ & _ & Hst). rewrite <-Hrec in Hx.
      rewrite (H7 x Hx). apply (Hst _ Hg).
    - intros x Hx. unfold same_cache. rewrite <-Hrec, rebuild_records in Hx. rewrite (rebuild_agree _ x Hx). by apply H7. }
  intros []. apply hoare_pin. intros i0 d0 (Hwas & Hidle & Hlow & Hsame & Hcache).
  assert (Hstr : ∀ i d, was play i0 i d → bad → stranded i d).
  { intros i d (-> & Hh & Hd) Hb. split; [done|]. exists (records i0). split; [done|].
    split; [by unfold lower_index; rewrite rebuild_records|]. apply index_ok_rebuild; cbn; [apply Hd|].
    intros x Hx. pose proof (Hcache x Hx) as Hc. unfold same_cache in Hc. destruct Hd as (_ & _ & Hst).
    destruct (Hst x Hx) as (m & len & Hcm & Hg). exists m, len. split; [|done]. by rewrite <-Hcm, Hc. }
  eapply hoare_conseq; [apply (hoare_cleanup_sick play env i0 stranded stranded)|..]; [..|done|done].
  - intros i d Hd Hs. split; (apply Hstr; [done|by left]).
  - destruct Hidle as [-> _]. done.
  - intros w' [Hi Hd]. unfold on. by rewrite Hi, Hd.
  - intros [] w' Hw'. pose proof Hw' as (Hi & _). unfold on in *. rewrite Hi in *. by split_and!.
Qed.
End opening.
