(* ===== verification/EscrowSlots.v ===== *)
(** * The escrow repository in service

    The operations of [EscrowRepository] as the service calls them: under the
    lock of a slot, with a lease between the reservation of a pull and its end,
    and with restarts in between. What every such history keeps: the disk can
    be opened again, the quotas hold, and no slot moves back. *)
From S2P Require Import Prelude Effects Text Json Wire EscrowProtocol EscrowMesh EscrowRepository EscrowIndex EscrowDurable EscrowReopen.

(** ** Service *)

(** A reservation, with the head it is for; [l_used] once its commit ran. *)
Record Lease := { l_reservation : Reservation; l_room : string; l_head : Head; l_used : bool }.

Inductive Op :=
| OReserve (rm : string) (h : Head) (owner : option string) (limit : option Z)
| ORelease (k : string)
| OCommit (rm : string) (h : Head) (blob bytes : string)
| OImport (rm : string) (h : Head) (blob bytes : string)
| ODelete (rm : string) (d : Delete)
| ORetire (rm : string)
| OSetHome (rm : string) (h : Head) (home : string)
| OLearn (rm : string) (h : Head) (home : option string) (deleted : option Delete)
| OMeshDelete (rm : string) (d : Delete)
| OScrub (rm : string) (h : Head) (snapshot : SlotRecord) (bad bad_previous : bool)
| ODrop (rm : string) (h : Head).

Notation Leases := (gmap string Lease).

(** A running service, or one whose process ended. *)
Inductive State :=
| Up (w : World) (live : Leases)
| Down (d : Disk).
Definition disk_of (s : State) : Disk := match s with Up w _ => disk w | Down d => d end.

Section service.
Context {C : Crypto} {E : EscrowEnv} {R : RepoEnv} (cfg : EscrowConfig).

Definition quiet {A} (m : prog World Error A) : prog World Error (option Reservation) := m ;;! ret None.

Definition exec (env : nat → Input) (live : Leases) (op : Op) : prog World Error (option Reservation) :=
  match op with
  | OReserve rm h o limit => reserve cfg rm h o limit
  | ORelease k => match live !! k with Some l => quiet (release (l_reservation l)) | None => ret None end
  | OCommit rm h blob bytes => quiet (commit env rm h blob bytes)
  | OImport rm h blob bytes => quiet (import env cfg rm h blob bytes)
  | ODelete rm d => quiet (delete_slot env rm d)
  | ORetire rm => quiet (retire_room env rm)
  | OSetHome rm h d => quiet (set_home env rm h d)
  | OLearn rm h d x => quiet (learn env cfg rm h d x)
  | OMeshDelete rm d => quiet (mesh_delete env cfg rm d)
  | OScrub rm h r b b' => quiet (finish_scrub env rm h r b b')
  | ODrop rm h => quiet (drop_holding env rm h)
  end.

(** What the locks allow: the slots of a stripe are one caller's at a time,
    and a pull holds its slot from the reservation to its end. The size of a
    head is unsigned. *)
Definition allowed (live : Leases) (op : Op) : Prop :=
  match op with
  | OReserve rm h _ _ => live !! key rm (slot h) = None ∧ valid_room rm = true ∧ 0 ≤ blob_size h
  | ORelease k => is_Some (live !! k)
  | OCommit rm h _ _ => ∃ l, live !! key rm (slot h) = Some l ∧ l_room l = rm ∧ l_head l = h ∧ l_used l = false
  | OImport rm h _ _ | OLearn rm h _ _ | OScrub rm h _ _ _ | ODrop rm h => live !! key rm (slot h) = None
  | ODelete rm d | OMeshDelete rm d => live !! key rm (d_slot d) = None
  | ORetire _ => True
  | OSetHome rm h _ => ∀ l, live !! key rm (slot h) = Some l → l_used l = true
  end.

Definition use (l : Lease) : Lease :=
  {| l_reservation := l_reservation l; l_room := l_room l; l_head := l_head l; l_used := true |}.
Definition next_live (live : Leases) (op : Op) (r : result (option Reservation) (stop Error)) : Leases :=
  match op, r with
  | OReserve rm h _ _, Ok (Some v) => <[rv_key v := {| l_reservation := v; l_room := rm; l_head := h; l_used := false |}]> live
  | ORelease k, _ => delete k live
  | OCommit rm h _ _, _ => alter use (key rm (slot h)) live
  | _, _ => live
  end.

(** One operation, under any behaviour of the disk; the end of the process, in
    a call or between calls; a start on what is on disk. *)
Inductive step : State → option Op → State → Prop :=
| step_exec env w live op w' r : allowed live op → exec env live op w = (w', r) → r ≠ Err Crashed →
    step (Up w live) (Some op) (Up w' (next_live live op r))
| step_crash env w live op w' : allowed live op → exec env live op w = (w', Err Crashed) →
    step (Up w live) (Some op) (Down (disk w'))
| step_kill w live : step (Up w live) None (Down (disk w))
| step_open env i n d w' : EscrowRepository.open env cfg {| index := i; disk := d; pos := n |} = (w', Ok tt) →
    step (Down d) None (Up w' ∅)
| step_open_fails env i n d w' e : EscrowRepository.open env cfg {| index := i; disk := d; pos := n |} = (w', Err e) →
    step (Down d) None (Down (disk w')).

Inductive reachable : list Op → State → Prop :=
| reach_empty : reachable [] (Down empty_disk)
| reach_step l s op s' : reachable l s → step s op s' → reachable (l ++ match op with Some op => [op] | None => [] end) s'.

(** The heads the operations name. *)
Definition names (op : Op) (rm : string) (h : Head) : Prop :=
  match op with
  | OReserve rm' h' _ _ | OCommit rm' h' _ _ | OImport rm' h' _ _ | OLearn rm' h' _ _ => rm = rm' ∧ h = h'
  | _ => False
  end.
Definition in_play (l : list Op) (rm : string) (h : Head) : Prop := ∃ op, op ∈ l ∧ names op rm h.
End service.

(** ** How a slot moves *)
Section moves.
Context {C : Crypto} {E : EscrowEnv} {R : RepoEnv}.

(** The state file of a slot, before and after a step. *)
Inductive evolves (op : option Op) : option SlotRecord → option SlotRecord → Prop :=
| ev_absent : evolves op None None
| ev_same r r' : current r' = current r → deleted r' = deleted r → room r' = room r → evolves op (Some r) (Some r')
| ev_create r : good_head (current r) → evolves op None (Some r)
| ev_advance r r' : good_head (current r') → writer (current r') = writer (current r) → seq (current r) < seq (current r') →
    (is_Some (deleted r) → deleted r' = None → seq (current r') = seq (current r) + 1 → parent (current r') = Some (hash (current r))) →
    evolves op (Some r) (Some r')
| ev_tombstone r r' d : current r' = current r → deleted r = None → deleted r' = Some d →
    validate_tombstone d (current r) = Ok tt → evolves op (Some r) (Some r')
| ev_delete r rm d : op = Some (ODelete rm d) → d_seq d = seq (current r) → d_head d = hash (current r) →
    verify_delete d (writer (current r)) = Ok tt → evolves op (Some r) None
| ev_retire r : op = Some (ORetire (room r)) → evolves op (Some r) None.

Lemma evolves_refl op o : evolves op o o.
Proof. destruct o; [by apply ev_same|apply ev_absent]. Qed.
End moves.

Lemma config_bounds cfg : validate_config cfg = Ok tt →
  max_blob_bytes cfg ≤ MAX_BLOB ∧ 1 ≤ max_total_bytes cfg ≤ 2 ^ 40 ∧ 1 ≤ max_slots_per_room cfg ≤ MAX_RECORDS.
Proof.
  unfold validate_config. intros H. repeat (apply rbind_Ok in H as (? & ? & H)). rewrite !ensure_Ok in *. bools.
  unfold MAX_BLOB, MAX_RECORDS. lia.
Qed.

(** ** Operations as changes of the index *)
Section changes.
Context {C : Crypto} {E : EscrowEnv} {R : RepoEnv} (cfg : EscrowConfig).
Context (play : string → Head → Prop) (Hplay : distinct play).

Definition unlocked (live : Leases) (k : string) : Prop := ∀ l, live !! k = Some l → l_used l = true.

(** Where the space of a commit comes from. *)
Inductive paid (i0 : Index) (live : Leases) (op : Op) (k : string) (r : SlotRecord) (len : Z) (extra : list Head) : Prop :=
| paid_free : owner r = None → (records i0 !! k = None → full cfg i0 (room r) = false) → live !! k = None →
    bytes i0 + reserved i0 + blob_size (current r) + len ≤ max_total_bytes cfg → paid i0 live op k r len extra
| paid_lease l blob bytes_ : op = OCommit (room r) (current r) blob bytes_ → live !! k = Some l → l_used l = false → l_head l = current r → l_room l = room r →
    owner r = rv_owner (l_reservation l) →
    (∀ r0 o, records i0 !! k = Some r0 → owner r = Some o → owner r0 ≠ Some o → usage_of (λ _, true) (manifests i0)
       ((λ p, (k, r, p)) <$> extra) ≤ inherited i0 k (current r) (Some o)) →
    paid i0 live op k r len extra.

Inductive change (live : Leases) (op : Op) (i0 : Index) : Index → Prop :=
| change_meta k r : record_ok play k r → held_heads r ⊆+ old_heads (records i0) k →
    (∀ o, owner r = Some o → ∃ r0, records i0 !! k = Some r0 ∧ owner r0 = Some o) →
    (records i0 !! k = None → full cfg i0 (room r) = false) →
    evolves (Some op) (records i0 !! k) (Some r) → unlocked live k → change live op i0 (publish k r i0)
| change_commit k r m len extra : record_ok play k r → held_heads r = current r :: extra →
    extra ⊆+ old_heads (records i0) k → Forall (λ p, hash p ≠ hash (current r)) extra →
    0 ≤ blob_size (current r) → 0 ≤ len ≤ manifest_limit (blob_size (current r)) →
    evolves (Some op) (records i0 !! k) (Some r) → paid i0 live op k r len extra →
    change live op i0 (commit_index k r (current r) m len i0)
| change_delete ks : (∀ k, k ∈ ks → evolves (Some op) (records i0 !! k) None) →
    (∀ k, k ∈ ks → unlocked live k ∨ ∃ rm, op = ORetire rm) → change live op i0 (retired i0 ks).

Lemma index_fills i bl : index_ok play i bl → Forall (fills (manifests i)) (gens (records i)).
Proof.
  intros (_ & _ & Hst). apply Forall_forall. intros x Hx. destruct (Hst x Hx) as (m & len & Hc & b & s & _ & Hv & ->).
  exists m, (slen s). apply validate_generation_sizes in Hv as (<- & Hl & _). pose proof (slen_nonneg b). pose proof (slen_nonneg s).
  split_and!; [done|lia..].
Qed.

Section one.
Context (env : nat → Input) (live : Leases) (op : Op) (i0 : Index) (d0 : Disk).
Context (Hok : index_ok play i0 (blobs d0)) (Hsync : write_failed i0 = false → backed play i0 d0).

Definition reached (i1 : Index) : Prop := i1 = i0 ∨ change live op i0 i1.

Definition op_done : Index → Disk → Prop := λ i d,
  pin i0 d0 i d ∨ write_failed i0 = false ∧ ∃ i1, reached i1 ∧ finished play i1 i d.
Definition op_failed : Index → Disk → Prop := λ i d,
  pin i0 d0 i d ∨ write_failed i0 = false ∧ ∃ ia ib, reached ia ∧ reached ib ∧ failed play ia ib i d.
Definition op_died : Index → Disk → Prop := λ _ d,
  d = d0 ∨ write_failed i0 = false ∧ ∃ i1, reached i1 ∧ backed play i1 d.

(** An operation is sound when it ends in one of these. *)
Definition sound {A} (m : prog World Error A) : Prop :=
  hoare (on (pin i0 d0)) m (λ _, on op_done) (λ _, on op_failed) (on op_died).

Lemma sound_ret {A} (a : A) : sound (ret a).
Proof. apply hoare_ret. by left. Qed.
Lemma sound_fail {A} e : sound (fail (Failed e) : prog World Error A).
Proof. apply hoare_fail. by left. Qed.
Lemma sound_check {A B} (r : result A Error) (k : A → prog World Error B) :
  (∀ a, r = Ok a → sound (k a)) → sound (bind (lift r) k).
Proof.
  intros Hk. destruct r as [a|e].
  - intros w Hw. by apply (Hk a eq_refl).
  - intros w Hw. by left.
Qed.
Lemma sound_get {A} (k : World → prog World Error A) :
  (∀ w, index w = i0 → disk w = d0 → sound (k w)) → sound (bind get_state k).
Proof. intros Hk w Hw. apply (Hk w); [apply Hw..|exact Hw]. Qed.
Lemma sound_then {A B} (m : prog World Error A) (b : B) : sound m → sound (m ;;! ret b).
Proof. intros Hm. eapply hoare_bind; [exact Hm|]. intros a. by apply hoare_ret. Qed.

Lemma sound_change {A} i1 (m : prog World Error A) : write_failed i0 = false → change live op i0 i1 →
  hoare (on (was play i0)) m (λ _, on (finished play i1)) (λ _, on (failed play i0 i1)) (on (lost play i0 i1)) → sound m.
Proof.
  intros Hwf Hc Hm. eapply hoare_conseq; [exact Hm|..].
  - intros w [Hi Hd]. split; [done|]. rewrite Hd. by apply Hsync.
  - intros a w Hw. right. split; [done|]. exists i1. split; [by right|done].
  - intros e w Hw. right. split; [done|]. exists i0, i1. split; [by left|]. split; [by right|done].
  - intros w [Hw|Hw]; right; (split; [done|]); [exists i0; split; [by left|done]|exists i1; split; [by right|done]].
Qed.

Lemma sound_publish k r : (write_failed i0 = false → record_ok play k r ∧ held_heads r ⊆+ old_heads (records i0) k ∧
    change live op i0 (publish k r i0)) → sound (publish_metadata env k r).
Proof.
  intros H. case_eq (write_failed i0); intros Hwf.
  - unfold publish_metadata. apply sound_get. intros w -> _. rewrite Hwf. apply sound_fail.
  - destruct (H Hwf) as (Hr & Hs & Hc). eapply sound_change; [done|exact Hc|]. by apply hoare_publish_metadata.
Qed.

Lemma configured_head h : validate_config cfg = Ok tt → validate_head h (max_blob_bytes cfg) = Ok tt → verify_head h = Ok tt → good_head h.
Proof.
  intros Hcfg Hv1 Hv2. split; [|done]. destruct (config_bounds cfg Hcfg) as (Hb & _). unfold validate_head in *.
  case_if; [done|]. destruct (max_blob_bytes cfg <? blob_size h) eqn:Hs; [done|]. bools.
  replace (MAX_BLOB <? blob_size h) with false; [done|]. symmetry. apply Z.ltb_ge. unfold MAX_BLOB in *. lia.
Qed.

(** *** Metadata *)

Lemma same_room rm h k r : k = key rm (slot h) → play rm h → record_ok play k r → room r = rm ∧ slot (current r) = slot h.
Proof.
  intros Hk Hp Hr. apply (keys_distinct play Hplay); [apply Hr|done|]. by rewrite <-Hk, <-(ro_key _ _ _ Hr).
Qed.

(** A record that keeps its head and its room, and holds no more. *)
Lemma change_same k r r' : records i0 !! k = Some r → record_ok play k r' → held_heads r' ⊆+ held_heads r →
  owner r' = owner r → current r' = current r → deleted r' = deleted r → room r' = room r → unlocked live k →
  change live op i0 (publish k r' i0) ∧ record_ok play k r' ∧ held_heads r' ⊆+ old_heads (records i0) k.
Proof.
  intros Hk Hr Hsub Ho Hc Hd Hrm Hu. assert (Hold : held_heads r' ⊆+ old_heads (records i0) k) by (unfold old_heads; by rewrite Hk).
  split; [|done]. apply change_meta; [done|done| | | |done].
  - intros o Ho'. exists r. split; [done|congruence].
  - by rewrite Hk.
  - rewrite Hk. by apply ev_same.
Qed.

Lemma record_at k r : records i0 !! k = Some r → record_ok play k r.
Proof. apply Hok. Qed.

Lemma sound_set_home rm h d : unlocked live (key rm (slot h)) → sound (set_home env rm h d).
Proof.
  intros Hu. unfold set_home. apply sound_check. intros pk Hpk. apply sound_get. intros w -> _. cbv zeta.
  destruct (records i0 !! key rm (slot h)) as [r|] eqn:Hk; [|apply sound_fail]. case_if; [apply sound_fail|].
  case_if; [apply sound_ret|]. apply sound_publish. intros _. pose proof (record_at _ _ Hk) as Hr.
  edestruct (change_same (key rm (slot h)) r (with_home (Some d) r)) as (Hc & Hr' & Hs); try done.
  destruct Hr as [H1 H2 H3 H4 H5 H6 H7]. split; try done. intros d' [= <-]. by destruct (pubkey_from_did d).
Qed.

Lemma sound_scrub rm h r b b' : live !! key rm (slot h) = None → sound (finish_scrub env rm h r b b').
Proof.
  intros Hu. unfold finish_scrub. case_if; [apply sound_ret|]. apply sound_get. intros w -> _. cbv zeta.
  destruct (records i0 !! key rm (slot h)) as [x|] eqn:Hk; [|apply sound_ret]. case_if; [apply sound_ret|].
  apply sound_publish. intros _. pose proof (record_at _ _ Hk) as Hr.
  edestruct (change_same (key rm (slot h)) x (drop_corrupt b b' x)) as (Hc & Hr' & Hs); try done;
    [by apply drop_corrupt_ok|apply drop_corrupt_held|by destruct b, b'..|intros l; by rewrite Hu].
Qed.

Lemma sound_drop rm h : live !! key rm (slot h) = None → sound (drop_holding env rm h).
Proof.
  intros Hu. unfold drop_holding. apply sound_get. intros w -> _. cbv zeta.
  destruct (records i0 !! key rm (slot h)) as [x|] eqn:Hk; [|apply sound_ret]. case_if; [apply sound_ret|].
  apply sound_publish. intros _. pose proof (record_at _ _ Hk) as Hr.
  edestruct (change_same (key rm (slot h)) x (with_previous (previous x) false (with_held false x))) as (Hc & Hr' & Hs); try done.
  - destruct Hr as [H1 H2 H3 H4 H5 H6 H7]. split; try done. intros d Hd. by destruct (H6 d Hd) as (? & ? & ?).
  - unfold held_heads. cbn. destruct (deleted x), (previous x); cbn; apply submseteq_nil_l.
  - intros l. by rewrite Hu.
Qed.

(** *** Deletions *)

Lemma sound_retired {A} ks (e : Error) (m : prog World string A) : write_failed i0 = false →
  (∀ ks1 ks2, ks = ks1 ++ ks2 → ks1 ≠ [] → change live op i0 (retired i0 ks1)) →
  hoare (on (was play i0)) m (λ _, on (was play (retired i0 ks)))
    (λ _, on (partway (unsure play) i0 ks)) (on (partway (lost play) i0 ks)) → sound (or_disable e m).
Proof.
  intros Hwf Hch Hm.
  assert (Hr : ∀ ks1 ks2, ks = ks1 ++ ks2 → reached (retired i0 ks1)).
  { intros [|k1 ks1] ks2 Hks; [by left|]. right. by eapply Hch. }
  eapply hoare_pre with (P' := on (was play i0)).
  2:{ intros w [Hi Hd]. split; [done|]. rewrite Hd. by apply Hsync. }
  eapply hoare_conseq with (P' := on (was play i0)) (I' := on (partway (lost play) i0 ks)) (X' := λ _, on op_failed)
    (Q' := λ _, on (was play (retired i0 ks))).
  - eapply hoare_or_disable; [exact Hm|]. intros i d (ks1 & k & ks2 & Hks & Hu). right. split; [done|].
    exists (retired i0 ks1), (retired i0 (ks1 ++ [k])). split; [by eapply Hr|].
    split; [eapply (Hr _ ks2); by rewrite <-app_assoc|]. by apply unsure_failed.
  - done.
  - intros a w Hw. right. split; [done|]. exists (retired i0 ks). split; [eapply (Hr _ []); by rewrite app_nil_r|]. by apply was_finished.
  - done.
  - intros w (ks1 & k & ks2 & Hks & [Hb|Hb]); right; (split; [done|]).
    + exists (retired i0 ks1). split; [by eapply Hr|done].
    + exists (retired i0 (ks1 ++ [k])). split; [eapply (Hr _ ks2); by rewrite <-app_assoc|done].
Qed.

Lemma sound_delete rm d : op = ODelete rm d → live !! key rm (d_slot d) = None → sound (delete_slot env rm d).
Proof.
  intros Hop Hu. unfold delete_slot. apply sound_check. intros [] _. apply sound_get. intros w -> _.
  case_eq (write_failed i0); intros Hwf; [apply sound_fail|]. cbv zeta. set (k := key rm (d_slot d)).
  destruct (records i0 !! k) as [r|] eqn:Hk; [|apply sound_ret]. case_if; [apply sound_fail|]. bools.
  apply sound_check. intros [] Hv. apply (sound_retired [k]); [done| |].
  - intros ks1 ks2 Hks Hne. assert (Hin : ∀ k', k' ∈ ks1 → k' = k).
    { intros k' Hk'. assert (k' ∈ [k]) as ?%list_elem_of_singleton by (rewrite Hks; apply elem_of_app; by left). done. }
    apply change_delete; intros k' Hk'%Hin; subst k'; [|left; intros l; unfold k; by rewrite Hu].
    rewrite Hk. by apply (ev_delete _ r rm d); [f_equal|..].
  - eapply hoare_conseq; [apply (hoare_delete_inner play env i0 k)|done|done|..]; [intros e w' Hw'|intros w' Hw']; by exists [], k, [].
Qed.

Lemma sound_retire rm : op = ORetire rm → sound (retire_room env rm).
Proof.
  intros Hop. unfold retire_room. apply sound_get. intros w -> _.
  case_eq (write_failed i0); intros Hwf; [apply sound_fail|]. cbv zeta. set (ks := (List.filter _ _).*1).
  assert (Hks : ∀ k, k ∈ ks → ∃ r, records i0 !! k = Some r ∧ room r = rm).
  { intros k ([k' r] & -> & [Hr Hrm]%elem_of_List_filter)%list_elem_of_fmap. apply elem_of_map_to_list in Hr. bools. by exists r. }
  apply (sound_retired ks); [done| |by apply hoare_retire].
  intros ks1 ks2 He Hne. apply change_delete; intros k Hk.
  - destruct (Hks k) as (r & -> & Hrm); [rewrite He; apply elem_of_app; by left|]. apply ev_retire. by rewrite Hop, Hrm.
  - right. by exists rm.
Qed.

(** *** What the mesh teaches *)

Lemma seq_bound h : good_head h → seq h ≤ MAX_SAFE.
Proof. intros [Hv _]. unfold validate_head in Hv. case_if; [done|]. bools. lia. Qed.

Lemma check_cas_parent h cur : writer h = writer cur → h ≠ cur → seq h = seq cur + 1 → parent h = Some (hash cur) →
  check_cas h (Some cur) = Ok false.
Proof.
  intros Hw Hne Hs Hp. unfold check_cas. rewrite Hw, bool_decide_true, bool_decide_false by done. cbn.
  rewrite Hp, bool_decide_true by done. cbn. by rewrite Hs, Z.eqb_refl.
Qed.

Lemma successor_Ok h cur : successor h cur = Ok tt → writer h = writer cur ∧ seq h = seq cur + 1 ∧ parent h = Some (hash cur).
Proof.
  unfold successor, checked_add. case_if; [done|]. case_if; [done|]. intros _. bools. split; [done|]. split; [|done].
  case_if; [|done]. congruence.
Qed.

Lemma full_room i r : (MAX_RECORDS <=? zsize (records i) + zsize (pending_slots i)) || (max_slots_per_room cfg <=? slots i r) = full cfg i r.
Proof. unfold full. apply orb_comm. Qed.

(** The old record lets [h] in: an older head of the same writer, or [h]
    itself, to be marked as deleted. *)
Definition lets_in (o : SlotRecord) (h : Head) (x : option Delete) : Prop :=
  writer h = writer (current o) ∧
  (current o ≠ h ∧ seq (current o) < seq h ∧
     (is_Some (deleted o) → x = None → seq h = seq (current o) + 1 → parent h = Some (hash (current o)))
   ∨ current o = h ∧ deleted o = None ∧ is_Some x).

Lemma acceptance_cases old h : match acceptance (current <$> old) h with
  | New => ∀ o, old = Some o → writer h = writer (current o) ∧ current o ≠ h ∧ seq (current o) < seq h
  | Same => ∃ o, old = Some o ∧ current o = h
  | _ => True
  end.
Proof.
  unfold acceptance. destruct old as [o|]; cbn; [|done]. case_if; [done|]. case_if; [bools; by exists o|].
  case_if; [done|]. case_if; [done|]. bools. intros o' [= <-]. split; [done|]. split; [done|]. lia.
Qed.

Lemma already_known_false rm old h x : good_head h → let a := acceptance (current <$> old) h in
  a = New ∨ a = Same → already_known cfg i0 rm old h x (match a with Same => true | _ => false end) = Ok false →
  (∀ o, old = Some o → lets_in o h x) ∧ (old = None → full cfg i0 rm = false).
Proof.
  intros Hg a Ha Hk. pose proof (acceptance_cases old h) as Hc. fold a in Hc. unfold already_known in Hk.
  destruct old as [o|]; [split; [|done]|split; [done|]].
  2:{ intros _. rewrite full_room in Hk. by destruct (full cfg i0 rm). }
  intros o' [= <-]. pose proof (seq_bound h Hg) as Hseq.
  destruct Ha as [Ha|Ha]; rewrite Ha in *.
  - destruct (Hc o eq_refl) as (Hw & Hne & Hsq). split; [done|]. left. split; [done|]. split; [done|]. intros [y Hy] -> Hs.
    rewrite Hy in Hk. cbn in Hk. replace (seq h <=? sat_add (seq (current o)) 1) with true in Hk.
    + apply rbind_Ok in Hk as ([] & Hk & _). by apply successor_Ok in Hk as (_ & _ & ?).
    + symmetry. apply Z.leb_le. unfold sat_add, U64_MAX, MAX_SAFE in *. lia.
  - destruct Hc as (o' & [= <-] & Hcur). split; [by rewrite Hcur|]. right. split; [done|].
    destruct (deleted o) as [y|] eqn:Hdo; cbn in Hk; [|by destruct x; split].
    exfalso. destruct x; cbn in Hk; [by rewrite bool_decide_true in Hk|].
    replace (seq h <=? sat_add (seq (current o)) 1) with true in Hk.
    + apply rbind_Ok in Hk as ([] & Hk & _). apply successor_Ok in Hk as (_ & Hs & _). rewrite Hcur in Hs. lia.
    + symmetry. apply Z.leb_le. rewrite Hcur. unfold sat_add, U64_MAX, MAX_SAFE in *. lia.
Qed.

Lemma succeeded_Some old h x o : good_head h → (∀ o, old = Some o → lets_in o h x) → succeeded old h x = Some o →
  old = Some o ∧ deleted o = None ∧ x = None ∧ check_cas h (Some (current o)) = Ok false.
Proof.
  intros Hg Hin Ho. unfold succeeded in Ho. destruct old as [o'|] eqn:Hold; [|done]. case_if; [|done]. injection Ho as ->. bools.
  destruct (Hin o eq_refl) as (Hw & [(Hne & _ & _)|(_ & _ & [x' Hx'])]); [|by subst x].
  split; [done|]. split; [by destruct (deleted o)|]. split; [by destruct x|]. apply check_cas_parent; [done|congruence| |done].
  pose proof (seq_bound h Hg). unfold sat_add, MAX_SAFE, U64_MAX in *. lia.
Qed.

Lemma sound_learned rm h d x : let k := key rm (slot h) in let old := records i0 !! k in
  valid_room rm = true → play rm h → good_head h → (∀ d', d = Some d' → is_ok (pubkey_from_did d') = true) →
  (∀ x', x = Some x' → validate_tombstone x' h = Ok tt) → live !! k = None →
  (∀ o, old = Some o → lets_in o h x) → (old = None → full cfg i0 rm = false) →
  sound (publish_metadata env k (learned rm h d x old)).
Proof.
  intros k old Hrm Hp Hg Hd Hx Hu Hin Hfull. apply sound_publish. intros Hwf.
  pose proof (λ o, succeeded_Some old h x o Hg Hin) as Hprev.
  assert (Hr : record_ok play k (learned rm h d x old)).
  { split; cbn; try done.
    - intros p Hpr. destruct (succeeded old h x) as [o|]; [|done]. injection Hpr as <-. destruct (Hprev o eq_refl) as (Hold & _ & _ & Hc).
      pose proof (record_at k o Hold) as Hro. destruct (same_room rm h k o eq_refl Hp Hro) as [Hroom Hs].
      split; [rewrite <-Hroom; apply Hro|]. split; [done|]. split; [apply Hro|done].
    - intros x' Hx'. split; [by apply Hx|]. split; [done|]. destruct (succeeded old h x) as [o|]; [|done].
      destruct (Hprev o eq_refl) as (_ & _ & ? & _). congruence.
    - intros d' Hd'. destruct d as [d0'|]; [by apply Hd|]. destruct old as [o|] eqn:Hold; [|done]. by eapply (record_at k o). }
  assert (Hs : held_heads (learned rm h d x old) ⊆+ old_heads (records i0) k).
  { unfold held_heads. cbn. destruct x; [apply submseteq_nil_l|]. cbn. destruct (succeeded old h None) as [o|]; [|apply submseteq_nil_l]. cbn.
    destruct (held o) eqn:Hho; [|apply submseteq_nil_l]. destruct (Hprev o eq_refl) as (Hold & Hdel & _).
    unfold old_heads. fold old. rewrite Hold. unfold held_heads. rewrite Hdel, Hho. cbn. apply submseteq_skip, submseteq_nil_l. }
  split; [done|]. split; [done|]. apply change_meta; [done|done|done|done| |intros l; by rewrite Hu].
  fold old. destruct old as [o|] eqn:Hold; [|by apply ev_create]. destruct (Hin o eq_refl) as (Hw & [(Hne & Hsq & Hpar)|(Hc & Hdo & [x' ->])]).
  - by apply ev_advance.
  - apply (ev_tombstone _ _ _ x'); [done|done|done|]. rewrite Hc. by apply Hx.
Qed.

Lemma sound_learn rm h d x : play rm h → live !! key rm (slot h) = None → sound (learn env cfg rm h d x).
Proof.
  intros Hp Hu. unfold learn. apply sound_check. intros [] Hrm%ensure_Ok.
  apply sound_check. intros [] Hv1. apply sound_check. intros [] Hv2.
  apply sound_check. intros [] Hd. apply sound_check. intros [] Hx. apply sound_get. intros w -> _.
  case_eq (write_failed i0); intros Hwf; [apply sound_fail|]. cbv zeta. set (old := records i0 !! _).
  pose proof (already_known_false rm old h x (conj Hv1 Hv2)) as Hin. cbv zeta in Hin.
  destruct (acceptance _ h); try apply sound_ret; apply sound_check; intros [] Hk; try apply sound_ret;
    (apply sound_then, sound_learned; [done|done|done| |by intros x' ->|done|by apply Hin; auto|by apply Hin; auto];
     intros d' ->; by destruct (pubkey_from_did d')).
Qed.

Lemma sound_mesh_delete rm d : live !! key rm (d_slot d) = None → sound (mesh_delete env cfg rm d).
Proof.
  intros Hu. unfold mesh_delete. apply sound_get. intros w -> _.
  destruct (List.find _ (mesh_records i0 rm)) as [r|] eqn:Hf; [|apply sound_ret].
  apply find_elem in Hf as [Hin Hs]. bools. unfold mesh_records in Hin. rewrite merge_sort_Permutation in Hin.
  apply elem_of_List_filter in Hin as [([k r'] & Hr' & Hr)%list_elem_of_fmap Hrm]. bools. cbn in Hr'. subst r'.
  apply elem_of_map_to_list, record_at in Hr.
  apply sound_check. intros [] _. apply sound_then, sound_learn; [rewrite <-Hrm; apply Hr|by rewrite Hs].
Qed.

(** *** Copies *)

(** The record of a slot lets the copy of [h] in. *)
Definition admissible (o : option SlotRecord) (h : Head) : Prop :=
  match o with
  | Some r => (deleted r = None → previous r ≠ Some h) ∧ ∃ b, may_follow (Some r) h = Ok b ∧ (b = true → held r = false)
  | None => True
  end.

(** What a commit keeps: [prev] is the parent of [h], held as before. *)
Record keeps_previous (o : option SlotRecord) (h : Head) (prev : option Head) (ph : bool) : Prop := {
  kp_new : match o with Some r => h ∉ held_heads r | None => True end;
  kp_none : o = None → prev = None;
  kp_prev p : prev = Some p → ∃ r, o = Some r ∧ deleted r = None ∧
    (current r = h ∧ previous r = Some p ∨ current r ≠ h ∧ p = current r ∧ check_cas h (Some p) = Ok false);
  kp_held p : prev = Some p → ph = true → ∃ r, o = Some r ∧ p ∈ held_heads r;
  kp_evolves op' : good_head h → ∀ r', current r' = h → deleted r' = None → (∀ r, o = Some r → room r' = room r) → evolves op' o (Some r');
}.

Lemma not_held_heads r h : (deleted r = None → current r = h → held r = false) →
  (deleted r = None → previous r = Some h → previous_held r = false) → h ∉ held_heads r.
Proof. intros H1 H2 [Hd [[-> Hh]|[Hp Hh]]]%held_heads_cases; [rewrite H1 in Hh|rewrite H2 in Hh]; done. Qed.

Lemma retained_keeps o h : admissible o h → let '(prev, ph) := retained o h in keeps_previous o h prev ph.
Proof.
  destruct o as [r|]; cbn [retained].
  2:{ intros _. split; try done. intros op' Hg r' Hc _ _. apply ev_create. by rewrite Hc. }
  intros [Hpr (b & Hb & Hheld)]. unfold may_follow in Hb. destruct (deleted r) as [y|] eqn:Hd; cbn [is_some] in *.
  - apply rbind_Ok in Hb as ([] & Hsucc & _). apply successor_Ok in Hsucc as (Hw & Hs & Hp). split; try done.
    + by apply not_held_heads; rewrite Hd.
    + intros op' Hg r' Hc Hdel Hrm. apply ev_advance; rewrite Hc; [done|done|lia|done].
  - case_bool_decide as Hcur.
    + subst h. split; try done.
      * apply not_held_heads; intros _ Hx; [|by destruct (Hpr eq_refl)]. apply Hheld. unfold check_cas in Hb.
        rewrite !bool_decide_true in Hb by done. cbn in Hb. by injection Hb as <-.
      * intros p Hp. exists r. split; [done|]. split; [done|]. by left.
      * intros p Hp Hph. exists r. split; [done|]. unfold held_heads. rewrite Hd, Hp, Hph. apply elem_of_app. right. apply list_elem_of_here.
      * intros op' Hg r' Hc Hdel Hrm. apply ev_same; [done|congruence|by apply Hrm].
    + destruct b; [apply check_cas_same in Hb; congruence|]. rewrite Hb. pose proof (check_cas_new _ _ Hb) as [(Hw & Hs & Hp) _]. split; try done.
      * apply not_held_heads; intros _ Hx; [done|by destruct (Hpr eq_refl)].
      * intros p [= <-]. exists r. split; [done|]. split; [done|]. by right.
      * intros p [= <-] Hph. exists r. split; [done|]. unfold held_heads. rewrite Hd, Hph. apply list_elem_of_here.
      * intros op' Hg r' Hc Hdel Hrm. apply ev_advance; rewrite Hc; [done|done|lia|]. intros [? ?]. congruence.
Qed.

Lemma import_keeps k o h prev ph : match o with Some r => record_ok play k r | None => True end →
  match o with Some r => import_over r h | None => inr (None, false) end = inr (prev, ph) → keeps_previous o h prev ph.
Proof.
  destruct o as [r|]; intros Hr Hi.
  2:{ injection Hi as <- <-. split; try done. intros op' Hg r' Hc _ _. apply ev_create. by rewrite Hc. }
  unfold import_over in Hi. destruct (if is_some (deleted r) then _ else _) as [u|e] eqn:Hsucc; [|done].
  destruct (negb (is_some (deleted r)) && held r && _) eqn:Hun; [done|].
  destruct (negb (bool_decide (writer (current r) = writer h))) eqn:Hw; [done|].
  destruct (seq h <? seq (current r)) eqn:Hlt; [done|].
  destruct ((seq h =? seq (current r)) && _) eqn:Heq; [done|].
  apply negb_false_iff, bool_decide_eq_true in Hw. apply Z.ltb_ge in Hlt.
  assert (Hdel : ∀ y, deleted r = Some y → seq h = seq (current r) + 1 ∧ parent h = Some (hash (current r))).
  { intros y Hy. rewrite Hy in Hsucc. cbn in Hsucc. destruct u. by apply successor_Ok in Hsucc as (_ & ? & ?). }
  assert (Hlater : current r ≠ h → seq (current r) < seq h).
  { intros Hne. destruct (decide (seq h = seq (current r))) as [He|]; [|lia]. by rewrite He, Z.eqb_refl, bool_decide_false in Heq. }
  assert (Hnew : h ∉ held_heads r).
  { apply not_held_heads; intros Hd Hx.
    - rewrite Hd in Hun. cbn in Hun. rewrite (bool_decide_true _ Hx) in Hun. by destruct (held r).
    - destruct (ro_previous _ _ _ Hr h Hx) as (_ & _ & _ & Hc). apply check_cas_new in Hc as [(_ & Hs & _) _]. lia. }
  assert (Hev : ∀ op', good_head h → ∀ r', current r' = h → deleted r' = None → (∀ r0, Some r = Some r0 → room r' = room r0) →
    evolves op' (Some r) (Some r')).
  { intros op' Hg r' Hc Hd' Hrm. destruct (decide (current r = h)) as [He|Hne].
    - destruct (deleted r) as [y|] eqn:Hy; [destruct (Hdel y eq_refl) as [Hs _]; rewrite He in Hs; lia|].
      apply ev_same; [congruence|congruence|by apply Hrm].
    - apply ev_advance; rewrite Hc; [done|done|by apply Hlater|intros [y Hy] _ _; by apply (Hdel y)]. }
  destruct (deleted r) as [y|] eqn:Hd; cbn [is_some negb andb] in Hi.
  { injection Hi as <- <-. by split. }
  case_bool_decide as Hcur.
  - injection Hi as <- <-. split; try done.
    + intros p Hp. exists r. split; [done|]. split; [done|]. by left.
    + intros p Hp Hph. exists r. split; [done|]. unfold held_heads. rewrite Hd, Hp, Hph.
      apply elem_of_app. right. apply list_elem_of_here.
  - destruct (_ && _) eqn:Hnext in Hi; injection Hi as <- <-; [|by split]. bools.
    assert (Hs : seq h = seq (current r) + 1) by (unfold checked_add in *; case_if; congruence). split; try done.
    + intros p [= <-]. exists r. split; [done|]. split; [done|]. right. split; [done|]. split; [done|]. by apply check_cas_parent.
    + intros p [= <-] Hph. exists r. split; [done|]. unfold held_heads. rewrite Hd, Hph. apply list_elem_of_here.
Qed.

Definition copy_record (rm : string) (h : Head) (prev : option Head) (ph : bool) (owner_ : option string) : SlotRecord :=
  {| room := rm; owner := owner_; current := h; previous := prev; previous_held := ph;
     home := records i0 !! key rm (slot h) ≫= home; deleted := None; held := true |}.
Definition extra_of (prev : option Head) (ph : bool) : list Head :=
  match prev with Some p => if ph then [p] else [] | None => [] end.

Lemma extra_elem prev ph p : p ∈ extra_of prev ph → prev = Some p ∧ ph = true.
Proof. unfold extra_of. destruct prev, ph; try (by intros ?%elem_of_nil). by intros ->%list_elem_of_singleton. Qed.

Lemma copy_record_ok rm h prev ph owner_ : valid_room rm = true → play rm h → good_head h →
  keeps_previous (records i0 !! key rm (slot h)) h prev ph → record_ok play (key rm (slot h)) (copy_record rm h prev ph owner_).
Proof.
  intros Hrm Hp Hg Hk. split; cbn; try done.
  - intros p Hpr. destruct (kp_prev _ _ _ _ Hk p Hpr) as (r & Hr & Hd & Hor). pose proof (record_at _ _ Hr) as Hro.
    destruct (same_room rm h _ r eq_refl Hp Hro) as [Hroom Hs]. destruct Hor as [[Hc Hpp]|(Hne & -> & Hc)].
    + destruct (ro_previous _ _ _ Hro p Hpp) as (H1 & H2 & H3 & H4). rewrite Hroom in H1. rewrite <-Hc. by split_and!.
    + split; [rewrite <-Hroom; apply Hro|]. split; [done|]. split; [apply Hro|done].
  - intros d Hd. destruct (records i0 !! key rm (slot h)) as [r|] eqn:Hr; [|done]. cbn in Hd. by eapply (record_at _ r Hr).
Qed.

Lemma sound_copy rm h prev ph owner_ blob bytes_ m e : let k := key rm (slot h) in
  valid_room rm = true → play rm h → good_head h → keeps_previous (records i0 !! k) h prev ph →
  validate_generation h blob bytes_ = Ok m → write_failed i0 = false →
  paid i0 live op k (copy_record rm h prev ph owner_) (slen bytes_) (extra_of prev ph) →
  sound (or_disable e (commit_inner env rm h prev ph owner_ blob bytes_ m)).
Proof.
  intros k Hrm Hp Hg Hk Hv Hwf Hpaid. pose proof (copy_record_ok rm h prev ph owner_ Hrm Hp Hg Hk) as Hr.
  assert (Hheld : held_heads (copy_record rm h prev ph owner_) = h :: extra_of prev ph) by (unfold held_heads, extra_of; cbn; by destruct prev, ph).
  assert (Hold : ∀ p, p ∈ extra_of prev ph → p ∈ old_heads (records i0) k).
  { intros p [Hpr Hph]%extra_elem. destruct (kp_held _ _ _ _ Hk p Hpr Hph) as (r & Hrk & Hin). unfold old_heads. by rewrite Hrk. }
  assert (Hne : ∀ p, p ∈ extra_of prev ph → p ≠ h ∧ hash p ≠ hash h).
  { intros p [Hpr Hph]%extra_elem. destruct (previous_apart play Hplay _ _ p Hr Hpr) as [H1 H2]. cbn in *. split; [done|congruence]. }
  assert (Hnew : h ∉ old_heads (records i0) k).
  { unfold old_heads. pose proof (kp_new _ _ _ _ Hk) as Hn. destruct (records i0 !! k); [done|]. apply not_elem_of_nil. }
  pose proof (validate_generation_sizes _ _ _ _ Hv) as (Hsz & Hlim & _).
  eapply sound_change; [done| |].
  2:{ apply (hoare_commit_or_disable play Hplay env i0 rm h prev ph owner_ blob bytes_ m); [exact Hr|done| |done].
      intros p Hpe. split; [by apply Hold|by apply Hne]. }
  apply (change_commit live op i0 k (copy_record rm h prev ph owner_) m (slen bytes_) (extra_of prev ph)); [done|done| | | | | |done].
  - unfold extra_of in *. destruct prev as [p|]; [|apply submseteq_nil_l]. destruct ph; [|apply submseteq_nil_l].
    apply singleton_submseteq_l. apply Hold, list_elem_of_here.
  - apply Forall_forall. intros p Hpe. by apply Hne.
  - cbn. rewrite <-Hsz. apply slen_nonneg.
  - cbn. pose proof (slen_nonneg bytes_). lia.
  - eapply kp_evolves; [exact Hk|done|done|done|]. intros r Hr'. by destruct (same_room rm h k r eq_refl Hp (record_at _ _ Hr')).
Qed.

Lemma sound_import rm h blob bytes_ : validate_config cfg = Ok tt → play rm h → live !! key rm (slot h) = None →
  0 ≤ bytes i0 → 0 ≤ reserved i0 → sound (import env cfg rm h blob bytes_).
Proof.
  intros Hcfg Hp Hu Hb0 Hr0. unfold import. apply sound_check. intros [] Hrm%ensure_Ok.
  apply sound_check. intros [] Hv1. apply sound_check. intros [] Hv2. apply sound_check. intros m Hv.
  apply sound_get. intros w -> _. case_eq (write_failed i0); intros Hwf; [apply sound_fail|]. cbv zeta.
  destruct (match records i0 !! key rm (slot h) with Some r => _ | None => _ end) as [o|[prev ph]] eqn:Hover; [apply sound_ret|].
  case_if; [apply sound_ret|]. apply sound_then.
  pose proof (validate_generation_sizes _ _ _ _ Hv) as (Hsz & _). pose proof (slen_nonneg blob). pose proof (slen_nonneg bytes_).
  destruct (config_bounds cfg Hcfg) as (_ & Hmax & _). pose proof (configured_head h Hcfg Hv1 Hv2) as Hg.
  apply sound_copy; try done.
  - eapply (import_keeps (key rm (slot h))).
    + destruct (records i0 !! key rm (slot h)) eqn:Hr; [by apply record_at|done].
    + destruct (records i0 !! key rm (slot h)); [exact Hover|]. by destruct (full cfg i0 rm).
  - apply paid_free; cbn; try done.
    + intros Hn. rewrite Hn in Hover. by destruct (full cfg i0 rm).
    + bools. unfold sat_add, U64_MAX in *. lia.
Qed.

(** A reservation was made for what its commit takes. *)
Definition lease_ok (k : string) (l : Lease) : Prop :=
  let h := l_head l in let v := l_reservation l in
  k = key (l_room l) (slot h) ∧ valid_room (l_room l) = true ∧ play (l_room l) h ∧ good_head h ∧ rv_key v = k ∧
  pending_slots i0 !! k = Some {| ps_room := l_room l; ps_owner := rv_owner v |} ∧
  rv_amount v = blob_size h + manifest_limit (blob_size h) ∧
  (l_used l = false → admissible (records i0 !! k) h ∧
     ∀ o, rv_owner v = Some o → rv_amount v + inherited i0 k h (Some o) ≤ rv_owner_amount v).

Lemma retained_inherited k h r r0 o : records i0 !! k = Some r0 → owner r0 ≠ Some o →
  usage_of (λ _, true) (manifests i0) ((λ p, (k, r, p)) <$> extra_of (retained (Some r0) h).1 (retained (Some r0) h).2)
  ≤ inherited i0 k h (Some o).
Proof.
  intros Hk Ho. assert (Hc : ∀ p, usage_of (λ _, true) (manifests i0) [(k, r, p)] =
    match manifests i0 !! (k, hash p) with Some (_, len) => blob_size p + len | None => 0 end).
  { intros p. cbn. unfold cost, cached. cbn. destruct (manifests i0 !! _) as [[]|]; lia. }
  unfold inherited. rewrite Hk. cbn [is_some]. rewrite bool_decide_false by done. cbn [andb negb retained].
  destruct (deleted r0) eqn:Hd; cbn [is_some negb]; [done|]. case_bool_decide as Hcur; cbn [fst snd].
  - unfold extra_of. destruct (previous_held r0), (previous r0) as [p|]; try done. cbn [fmap list_fmap]. by rewrite Hc.
  - assert (H0 : 0 ≤ match (if held r0 then Some (current r0) else None) with
      Some x => match manifests i0 !! (k, hash x) with Some (_, len) => blob_size x + len | None => 0 end | None => 0 end).
    { destruct (held r0) eqn:Hh; [|done]. pose proof (index_fills _ _ Hok) as Hf. rewrite Forall_forall in Hf.
      destruct (Hf (k, r0, current r0)) as (m & len & Hcm & Hs & Hl).
      - apply elem_of_gens. split; [done|]. unfold held_heads. rewrite Hd, Hh. apply list_elem_of_here.
      - unfold cached in Hcm. cbn in *. rewrite Hcm. lia. }
    destruct (check_cas h (Some (current r0))) as [[]|e]; cbn [fst snd extra_of fmap list_fmap]; try exact H0.
    destruct (held r0); [|done]. cbn [fmap list_fmap]. by rewrite Hc.
Qed.

Lemma sound_commit rm h blob bytes_ l : op = OCommit rm h blob bytes_ → live !! key rm (slot h) = Some l → l_used l = false → l_room l = rm → l_head l = h →
  lease_ok (key rm (slot h)) l → sound (commit env rm h blob bytes_).
Proof.
  intros Hop Hl Hu Hrm Hh (_ & Hv1 & Hp & Hg & _ & Hpend & _ & Had). rewrite Hh, Hrm in *. unfold commit.
  apply sound_check. intros m Hv. apply sound_get. intros w -> _. case_eq (write_failed i0); intros Hwf; [apply sound_fail|].
  cbv zeta. rewrite Hpend. cbn [mbind option_bind ps_owner]. destruct (Had Hu) as [Hadm Hown].
  pose proof (retained_keeps _ _ Hadm) as Hk. destruct (retained (records i0 !! key rm (slot h)) h) as [prev ph] eqn:Hret.
  apply sound_copy; try done. apply (paid_lease _ _ _ _ _ _ _ l blob bytes_); try done.
  intros r0 o Hr0 Ho Hne. pose proof (retained_inherited (key rm (slot h)) h (copy_record rm h prev ph (rv_owner (l_reservation l))) r0 o Hr0 Hne) as Hi.
  rewrite Hr0 in Hret. rewrite Hret in Hi. exact Hi.
Qed.
End one.

(** *** Reservations *)

Lemma inherited_nonneg i bl k h o : index_ok play i bl → 0 ≤ inherited i k h o.
Proof.
  intros Hok. unfold inherited. destruct (records i !! k) as [r|] eqn:Hk; [|done].
  destruct (_ && negb (is_some (deleted r))) eqn:Hb; [|done]. apply andb_true_iff in Hb as [_ Hd].
  set (x := if bool_decide _ then _ else _). destruct x as [p|] eqn:Hx; [|done].
  assert (Hin : (k, r, p) ∈ gens (records i)).
  { apply elem_of_gens. split; [done|]. unfold held_heads. destruct (is_some (deleted r)); [done|]. apply elem_of_app.
    unfold x in Hx. case_bool_decide.
    - right. destruct (previous_held r); [|done]. rewrite Hx. apply list_elem_of_here.
    - left. destruct (held r); [|done]. injection Hx as ->. apply list_elem_of_here. }
  pose proof (index_fills _ _ Hok) as Hf. rewrite Forall_forall in Hf. destruct (Hf _ Hin) as (m & len & Hc & Hs & Hl).
  unfold cached in Hc. cbn in *. rewrite Hc. lia.
Qed.

(** What a reservation is granted on. *)
Record granted (i : Index) (rm : string) (h : Head) (owner_ : option string) (limit : option Z) (v : Reservation) : Prop := {
  gr_writes : write_failed i = false;
  gr_key : rv_key v = key rm (slot h);
  gr_owner : rv_owner v = owner_;
  gr_amount : rv_amount v = blob_size h + manifest_limit (blob_size h);
  gr_owner_amount : rv_owner_amount v = sat_add (rv_amount v) (inherited i (rv_key v) h owner_);
  gr_head : good_head h;
  gr_admissible : admissible (records i !! rv_key v) h;
  gr_room : records i !! rv_key v = None → full cfg i rm = false;
  gr_total : sat_add (sat_add (bytes i) (reserved i)) (rv_amount v) ≤ max_total_bytes cfg;
  gr_limit o l : owner_ = Some o → limit = Some l →
    sat_add (sat_add (default 0 (owner_bytes i !! o)) (default 0 (owner_reserved i !! o))) (rv_owner_amount v) ≤ l;
}.

Definition lent (rm : string) (v : Reservation) (i : Index) : Index :=
  set_pending (reserved i + rv_amount v)
    (match rv_owner v with Some o => entry_add o (rv_owner_amount v) (owner_reserved i) | None => owner_reserved i end)
    (<[rv_key v := {| ps_room := rm; ps_owner := rv_owner v |}]> (pending_slots i)) i.

Lemma reserve_spec rm h o limit i0 d0 : validate_config cfg = Ok tt →
  hoare (on (pin i0 d0)) (reserve cfg rm h o limit)
    (λ r, on (λ i d, match r with None => pin i0 d0 i d | Some v => granted i0 rm h o limit v ∧ pin (lent rm v i0) d0 i d end))
    (λ _, on (pin i0 d0)) (λ _, False).
Proof.
  intros Hcfg w [Hi Hd]. unfold ends, reserve, bind, lift, get_state, on, pin.
  destruct (validate_head h _) as [[]|e] eqn:Hv1; cbn; [|done]. destruct (verify_head h) as [[]|e] eqn:Hv2; cbn; [|done].
  rewrite Hi. destruct (write_failed i0) eqn:Hwf; cbn; [done|]. case_if; cbn; [done|].
  destruct (may_follow _ h) as [retry|e] eqn:Hm; cbn; [|done]. destruct (retry && _) eqn:Hr; cbn; [done|].
  destruct (negb (is_some _) && full cfg i0 rm) eqn:Hf; cbn; [done|].
  destruct (max_total_bytes cfg <? _) eqn:Ht; cbn; [done|]. destruct (match o with Some _ => _ | None => _ end) eqn:Hl; cbn; [done|].
  split; [|by split; cbn; rewrite ?Hi]. split; cbn; try done.
  - by apply configured_head.
  - destruct (records i0 !! _) as [r|]; [|done]. cbn in *. split.
    + intros Hdel Hp. rewrite Hdel, Hp in Heqb. cbn in Heqb. by rewrite bool_decide_true in Heqb.
    + exists retry. split; [done|]. intros ->. exact Hr.
  - intros Hn. by rewrite Hn in Hf.
  - by apply Z.ltb_ge.
  - intros o' l -> ->. by apply Z.ltb_ge in Hl.
Qed.

Definition unlent (v : Reservation) (i : Index) : Index :=
  set_pending (reserved i - rv_amount v)
    (match rv_owner v with
     | Some o => match owner_reserved i !! o with
                 | Some n => if n - rv_owner_amount v =? 0 then delete o (owner_reserved i)
                             else <[o := n - rv_owner_amount v]> (owner_reserved i)
                 | None => owner_reserved i
                 end
     | None => owner_reserved i
     end) (delete (rv_key v) (pending_slots i)) i.

(** A release does not panic while the sums are those of the live reservations. *)
Lemma release_spec v i0 d0 : rv_amount v ≤ reserved i0 →
  (∀ o n, rv_owner v = Some o → owner_reserved i0 !! o = Some n → rv_owner_amount v ≤ n) →
  hoare (on (pin i0 d0)) (release v) (λ _, on (pin (unlent v i0) d0)) (λ _ _, False) (λ _, False).
Proof.
  intros Hr Ho w [Hi Hd]. unfold ends, release, bind, get_state. rewrite Hi.
  replace (reserved i0 <? rv_amount v) with false by (symmetry; by apply Z.ltb_ge). unfold unlent.
  destruct (rv_owner v) as [o|] eqn:Hvo; [|by split; cbn; [rewrite Hi|]].
  destruct (owner_reserved i0 !! o) as [n|] eqn:Hn; [|by split; cbn; [rewrite Hi|]].
  replace (n <? rv_owner_amount v) with false by (symmetry; apply Z.ltb_ge; by eapply Ho).
  destruct (_ =? 0); split; cbn; by rewrite ?Hi.
Qed.
End changes.
