(* ===== verification/EscrowBudget.v ===== *)
(** * The budget of the escrow repository

    What a change of [EscrowSlots] leaves alone, and what it may take: the
    space in use with the space promised to the live leases, the quotas of the
    owners, the number of slots. *)
From S2P Require Import Prelude Effects Text Json Wire EscrowProtocol EscrowMesh EscrowRepository EscrowIndex EscrowDurable EscrowReopen EscrowSlots.

Section frame.
Context {C : Crypto} {E : EscrowEnv} {R : RepoEnv} (cfg : EscrowConfig) (play : string → Head → Prop).

(** The fields a rebuild leaves alone. *)
Definition same_leases (i i' : Index) : Prop :=
  pending_slots i' = pending_slots i ∧ reserved i' = reserved i ∧ owner_reserved i' = owner_reserved i ∧ write_failed i' = write_failed i.

Lemma same_leases_rebuild i j : same_leases i j → same_leases i (rebuild_index j).
Proof. rewrite rebuild_eq. done. Qed.

Lemma retired_records ks : ∀ i k, records (retired i ks) !! k = if decide (k ∈ ks) then None else records i !! k.
Proof.
  induction ks as [|k0 ks IH]; intros i k; cbn [retired foldl]; [done|]. fold (retired (unlisted k0 i) ks).
  rewrite IH, unlisted_records. destruct (decide (k ∈ ks)) as [Hin|Hin].
  - by rewrite decide_True by (by apply list_elem_of_further).
  - destruct (decide (k0 = k)) as [<-|Hne].
    + rewrite lookup_delete_eq, decide_True by apply list_elem_of_here. done.
    + rewrite lookup_delete_ne, decide_False; [done| |done]. by intros [?|?]%elem_of_cons.
Qed.

Lemma retired_leases ks : ∀ i, same_leases i (retired i ks).
Proof.
  induction ks as [|k0 ks IH]; intros i; [done|]. cbn [retired foldl]. fold (retired (unlisted k0 i) ks).
  assert (H : same_leases i (unlisted k0 i)) by (by apply same_leases_rebuild).
  destruct (IH (unlisted k0 i)) as (H1 & H2 & H3 & H4), H as (G1 & G2 & G3 & G4). split_and!; congruence.
Qed.

(** The generations that stay keep their manifests. *)
Lemma retired_cached ks : ∀ i x, x ∈ gens (records (retired i ks)) → cached (manifests (retired i ks)) x = cached (manifests i) x.
Proof.
  induction ks as [|k0 ks IH]; intros i x Hx; [done|]. cbn [retired foldl] in *. fold (retired (unlisted k0 i) ks) in *.
  rewrite IH by done. unfold unlisted. rewrite (rebuild_agree (set_records (delete k0) i)); [done|].
  destruct x as [[k r] h]. apply elem_of_gens in Hx as [Hk Hh]. apply elem_of_gens. split; [|done].
  rewrite retired_records in Hk. destruct (decide (k ∈ ks)); [done|]. by rewrite unlisted_records in Hk.
Qed.

Lemma usage_retired sel ks : ∀ i, Forall (fills (manifests i)) (gens (records i)) →
  usage sel (manifests (retired i ks)) (records (retired i ks)) ≤ usage sel (manifests i) (records i).
Proof.
  induction ks as [|k0 ks IH]; intros i Hf; [done|]. cbn [retired foldl]. fold (retired (unlisted k0 i) ks).
  etrans; [apply IH|].
  - rewrite unlisted_records. apply Forall_forall. intros [[k r] h] Hx. pose proof Hx as [[_ Hk]%lookup_delete_Some Hh]%elem_of_gens.
    rewrite Forall_forall in Hf. destruct (Hf (k, r, h)) as (m & len & Hc); [by apply elem_of_gens|]. exists m, len.
    unfold unlisted. by rewrite (rebuild_agree (set_records (delete k0) i) (k, r, h) Hx).
  - unfold unlisted at 1. rewrite unlisted_records. etrans; [exact (Z.eq_le_incl _ _ (usage_rebuild sel (set_records (delete k0) i)))|].
    by apply usage_deletes.
Qed.

Definition after (op : Op) (live : Leases) : Leases :=
  match op with OCommit rm h _ _ => alter use (key rm (slot h)) live | _ => live end.

Lemma after_lookup op live k l : after op live !! k = Some l → ∃ l', live !! k = Some l' ∧ (l = l' ∨ l = use l').
Proof.
  unfold after. destruct op as [| |rm h ? ?| | | | | | | |]; try (intros ->; by eauto).
  destruct (decide (key rm (slot h) = k)) as [->|Hne].
  - rewrite lookup_alter_eq. intros (l' & Hl & ->)%fmap_Some. eauto.
  - rewrite lookup_alter_ne by done. eauto.
Qed.

Lemma after_unlocked op live k : unlocked live k → unlocked (after op live) k.
Proof. intros H l Hl. destruct (after_lookup _ _ _ _ Hl) as (l' & Hl' & [->| ->]); [by apply H|done]. Qed.

(** ** What a change leaves alone *)

Lemma change_leases live op i0 i1 : change cfg play live op i0 i1 → same_leases i0 i1.
Proof. intros [k r|k r m len extra|ks]; [by apply same_leases_rebuild..|apply retired_leases]. Qed.

Lemma change_evolves live op i0 i1 : change cfg play live op i0 i1 → ∀ k, evolves (Some op) (records i0 !! k) (records i1 !! k).
Proof.
  intros [k r _ _ _ _ He _|k r m len extra _ _ _ _ _ _ He _|ks He _] k'.
  - unfold publish. rewrite rebuild_records. cbn. destruct (decide (k = k')) as [<-|Hne]; [by rewrite lookup_insert_eq|].
    rewrite lookup_insert_ne by done. apply evolves_refl.
  - rewrite commit_records. destruct (decide (k = k')) as [<-|Hne]; [by rewrite lookup_insert_eq|].
    rewrite lookup_insert_ne by done. apply evolves_refl.
  - rewrite retired_records. destruct (decide (k' ∈ ks)); [by apply He|apply evolves_refl].
Qed.

(** Slots that may be waiting for a commit are as they were, or gone. *)
Lemma change_frame live op i0 i1 : change cfg play live op i0 i1 → ∀ k,
  (records i1 !! k = records i0 !! k ∧ ∀ r p, records i1 !! k = Some r → p ∈ held_heads r → manifests i1 !! (k, hash p) = manifests i0 !! (k, hash p))
  ∨ unlocked (after op live) k ∨ records i1 !! k = None.
Proof.
  assert (Hgen : ∀ j k r p, records j !! k = Some r → p ∈ held_heads r → manifests (rebuild_index j) !! (k, hash p) = manifests j !! (k, hash p)).
  { intros j k r p Hr Hp. apply (rebuild_agree j (k, r, p)). by apply elem_of_gens. }
  intros [k r _ _ _ _ _ Hu|k r m len extra Hr _ _ _ _ _ _ Hpaid|ks _ Hu] k'.
  - destruct (decide (k = k')) as [<-|Hne]; [right; left; by apply after_unlocked|left]. unfold publish. rewrite rebuild_records. cbn.
    rewrite lookup_insert_ne by done. split; [done|]. intros r' p Hr Hp. rewrite (Hgen _ k' r'); [done| |done]. cbn. by rewrite lookup_insert_ne.
  - destruct (decide (k = k')) as [<-|Hne].
    + right. left. destruct Hpaid as [_ _ Hn _|l blob bytes_ -> Hl Hused Hh Hrm Ho _]; [apply after_unlocked; intros l; by rewrite Hn|].
      intros l' Hl'. cbn [after] in Hl'. rewrite <-(ro_key _ _ _ Hr), lookup_alter_eq, Hl in Hl'. by injection Hl' as <-.
    + left. rewrite commit_records, lookup_insert_ne by done. split; [done|]. intros r' p Hr' Hp. unfold commit_index.
      rewrite (Hgen _ k' r'); [|cbn; by rewrite lookup_insert_ne|done]. cbn. rewrite lookup_insert_ne; [done|congruence].
  - rewrite retired_records. destruct (decide (k' ∈ ks)) as [Hin|Hin]; [by right; right|]. left. split; [done|].
    intros r p Hr Hp. apply (retired_cached ks i0 (k', r, p)). apply elem_of_gens. split; [|done]. rewrite retired_records.
    by rewrite decide_False.
Qed.
End frame.

(** ** Space *)
Section budget.
Context {C : Crypto} {E : EscrowEnv} {R : RepoEnv} (cfg : EscrowConfig) (play : string → Head → Prop).

Lemma usage_publish_le sel i k r : Forall (fills (manifests i)) (gens (records i)) → held_heads r ⊆+ old_heads (records i) k →
  (∀ r0, records i !! k = Some r0 → sel r = true → sel r0 = true) →
  usage sel (manifests (publish k r i)) (records (publish k r i)) ≤ usage sel (manifests i) (records i).
Proof.
  intros Hf Hh Hs. unfold publish at 2. rewrite rebuild_records.
  etrans; [exact (Z.eq_le_incl _ _ (usage_rebuild sel (set_records (insert k r) i)))|]. by apply usage_shrinks.
Qed.

(** The previous head a commit keeps was in use before. *)
Lemma extra_usage i k r extra : Forall (fills (manifests i)) (gens (records i)) → extra ⊆+ old_heads (records i) k →
  usage_of (λ _, true) (manifests i) ((λ p, (k, r, p)) <$> extra) ≤ old_usage (λ _, true) (manifests i) (records i) k.
Proof.
  intros Hf Hsub. unfold old_usage, old_heads in *. destruct (records i !! k) as [r0|] eqn:Hk.
  2:{ by apply submseteq_nil_r in Hsub as ->. }
  rewrite (gens_delete _ k r0 Hk), Forall_app in Hf. destruct Hf as [Hf _].
  etrans; [|apply (usage_submseteq (λ _, true) (manifests i) ((λ p, (k, r0, p)) <$> extra) (slot_gens k r0)); [by apply fmap_submseteq|done]].
  apply Z.eq_le_incl. clear. induction extra as [|p extra IH]; [done|]. unfold usage_of in *. cbn [fmap list_fmap foldr]. f_equal. exact IH.
Qed.

Lemma usage_of_sel sel mf k r l : (∀ x, x ∈ l → x.1 = (k, r)) →
  usage_of sel mf l = if sel r then usage_of (λ _, true) mf l else 0.
Proof.
  induction l as [|x l IH]; intros Hl; [by destruct (sel r)|]. cbn [usage_of foldr]. fold (usage_of sel mf l) (usage_of (λ _, true) mf l).
  rewrite IH by (intros; apply Hl; by apply list_elem_of_further). rewrite (Hl x) by apply list_elem_of_here. cbn. destruct (sel r); lia.
Qed.

Lemma usage_commit_le sel live op i k r m len extra : Forall (fills (manifests i)) (gens (records i)) →
  held_heads r = current r :: extra → extra ⊆+ old_heads (records i) k → Forall (λ p, hash p ≠ hash (current r)) extra →
  0 ≤ blob_size (current r) → 0 ≤ len →
  (∀ r0, records i !! k = Some r0 → sel r = true → sel r0 = false →
     usage_of (λ _, true) (manifests i) ((λ p, (k, r, p)) <$> extra) ≤ live) →
  0 ≤ live → op = commit_index k r (current r) m len i →
  usage sel (manifests op) (records op) ≤
  usage sel (manifests i) (records i) + (if sel r then blob_size (current r) + len + live else 0).
Proof.
  intros Hf Hh Hsub Hhash Hs Hl Hinh Hlive ->. rewrite commit_records.
  etrans; [exact (Z.eq_le_incl _ _ (usage_rebuild sel (index_generation (set_records (insert k r) i) (room r) k (current r) m len)))|].
  change (usage sel (<[(k, hash (current r)) := (m, len)]> (manifests i)) (<[k := r]> (records i)) ≤
    usage sel (manifests i) (records i) + (if sel r then blob_size (current r) + len + live else 0)).
  rewrite (usage_commits sel _ _ k r (current r) m len extra Hf Hh Hs Hl Hhash), (usage_split sel (manifests i) (records i) k).
  rewrite (usage_of_sel sel (manifests i) k r) by (intros x (p & -> & _)%list_elem_of_fmap; done).
  pose proof (extra_usage i k r extra Hf Hsub) as Hold. unfold old_usage in *.
  assert (Hnn : 0 ≤ match records i !! k with Some r0 => usage_of sel (manifests i) (slot_gens k r0) | None => 0 end).
  { destruct (records i !! k) as [r0|] eqn:Hk; [|done]. rewrite (gens_delete _ k r0 Hk), Forall_app in Hf. destruct Hf as [Hf _].
    exact (usage_submseteq sel (manifests i) [] (slot_gens k r0) (submseteq_nil_l _) Hf). }
  destruct (sel r) eqn:Hsr; [|lia]. destruct (records i !! k) as [r0|] eqn:Hk; [|lia].
  destruct (sel r0) eqn:Hsr0.
  - assert (Heq : usage_of sel (manifests i) (slot_gens k r0) = usage_of (λ _, true) (manifests i) (slot_gens k r0)).
    { rewrite (usage_of_sel sel _ k r0), Hsr0; [done|]. by intros x (p & -> & _)%list_elem_of_fmap. } lia.
  - specialize (Hinh r0 eq_refl eq_refl Hsr0). lia.
Qed.

(** *** Leases *)

Definition unused_amount (l : Lease) : Z := if l_used l then 0 else rv_amount (l_reservation l).
Definition owner_amount (o : string) (l : Lease) : Z :=
  if bool_decide (rv_owner (l_reservation l) = Some o) then rv_owner_amount (l_reservation l) else 0.
Definition unused_owner (o : string) (l : Lease) : Z := if l_used l then 0 else owner_amount o l.

Context (quota : string → option Z).

(** What is in use, with what is promised, is within the bounds. *)
Definition within (i : Index) (live : Leases) : Prop :=
  bytes i + sum_map unused_amount live ≤ max_total_bytes cfg ∧
  ∀ o q, quota o = Some q → default 0 (owner_bytes i !! o) + sum_map (unused_owner o) live ≤ q.

Record leases_ok (i : Index) (live : Leases) : Prop := {
  lo_lease k l : live !! k = Some l → lease_ok play i k l;
  lo_pending : pending_slots i = (λ l, {| ps_room := l_room l; ps_owner := rv_owner (l_reservation l) |}) <$> live;
  lo_reserved : reserved i = sum_map (λ l, rv_amount (l_reservation l)) live;
  lo_owner o : default 0 (owner_reserved i !! o) = sum_map (owner_amount o) live;
  lo_nonneg k l : live !! k = Some l → 0 ≤ rv_amount (l_reservation l) ∧ 0 ≤ rv_owner_amount (l_reservation l);
}.

Lemma sum_map_le {A} (f g : A → Z) (m : gmap string A) : (∀ k x, m !! k = Some x → f x ≤ g x) → sum_map f m ≤ sum_map g m.
Proof.
  induction m as [|k x m Hk IH] using map_ind; intros H; [by rewrite !sum_map_empty|].
  rewrite !sum_map_insert by done. pose proof (H k x ltac:(by rewrite lookup_insert_eq)).
  assert (sum_map f m ≤ sum_map g m); [|lia]. apply IH. intros k' x' Hx'. apply (H k'). rewrite lookup_insert_ne; [done|congruence].
Qed.

Lemma sum_map_pos {A} (f : A → Z) (m : gmap string A) : (∀ k x, m !! k = Some x → 0 ≤ f x) → 0 ≤ sum_map f m.
Proof.
  intros H. etrans; [|apply (sum_map_le (λ _, 0) f m H)]. induction m as [|k x m Hk IH] using map_ind; [by rewrite sum_map_empty|].
  rewrite sum_map_insert by done. rewrite <-IH; [lia|]. intros k' x' Hx'. apply (H k'). rewrite lookup_insert_ne; [done|congruence].
Qed.

Lemma sum_map_alter {A} (f : A → Z) (g : A → A) (m : gmap string A) k x : m !! k = Some x →
  sum_map f (alter g k m) = sum_map f m - f x + f (g x).
Proof.
  intros Hk. rewrite <-(insert_id m k x Hk) at 1. rewrite alter_insert_eq. by apply sum_map_update.
Qed.

(** A commit that ran promises no more; the reservation itself stays. *)
Lemma sum_after_le op live (f : Lease → Z) : (∀ k l, live !! k = Some l → f (use l) ≤ f l) →
  sum_map f (after op live) ≤ sum_map f live.
Proof.
  intros H. unfold after. destruct op; try done. destruct (live !! key rm (slot h)) as [l|] eqn:Hl.
  - rewrite (sum_map_alter f use live _ l Hl). specialize (H _ _ Hl). lia.
  - rewrite alter_id; [done|]. intros l Hl'. congruence.
Qed.

Lemma sum_after_eq op live (f : Lease → Z) : (∀ l, f (use l) = f l) → sum_map f (after op live) = sum_map f live.
Proof.
  intros H. unfold after. destruct op; try done. destruct (live !! key rm (slot h)) as [l|] eqn:Hl.
  - rewrite (sum_map_alter f use live _ l Hl), H. lia.
  - rewrite alter_id; [done|]. intros l Hl'. congruence.
Qed.

Lemma fmap_after {B} op live (f : Lease → B) : (∀ l, f (use l) = f l) → f <$> after op live = f <$> live.
Proof.
  intros H. apply map_eq. intros k. rewrite !lookup_fmap. destruct (after op live !! k) as [l|] eqn:Hl.
  - destruct (after_lookup op live k l Hl) as (l' & -> & [->| ->]); cbn; by rewrite ?H.
  - destruct (live !! k) as [l|] eqn:Hl'; [|done]. unfold after in Hl. destruct op as [| |rm h ? ?| | | | | | | |]; try congruence.
    destruct (decide (key rm (slot h) = k)) as [<-|Hne].
    + by rewrite lookup_alter_eq, Hl' in Hl.
    + rewrite lookup_alter_ne in Hl by done. congruence.
Qed.

Lemma inherited_frame i0 i1 k h o : records i1 !! k = records i0 !! k →
  (∀ r p, records i1 !! k = Some r → p ∈ held_heads r → manifests i1 !! (k, hash p) = manifests i0 !! (k, hash p)) →
  inherited i1 k h o = inherited i0 k h o.
Proof.
  intros Hk Hm. unfold inherited. rewrite Hk. destruct (records i0 !! k) as [r|] eqn:Hr; [|done].
  destruct (_ && negb (is_some (deleted r))) eqn:Hb; [|done]. apply andb_true_iff in Hb as [_ Hd].
  set (x := if bool_decide _ then _ else _). destruct x as [p|] eqn:Hx; [|done]. rewrite (Hm r p); [done|congruence|].
  unfold held_heads. destruct (is_some (deleted r)); [done|]. apply elem_of_app. unfold x in Hx. case_bool_decide.
  - right. destruct (previous_held r); [|done]. rewrite Hx. apply list_elem_of_here.
  - left. destruct (held r); [|done]. injection Hx as ->. apply list_elem_of_here.
Qed.

Lemma lease_ok_change live op i0 i1 bl k l : index_ok play i0 bl → change cfg play live op i0 i1 →
  live !! k = Some l → lease_ok play i0 k l → ∀ l', (l' = l ∨ l' = use l) → after op live !! k = Some l' → lease_ok play i1 k l'.
Proof.
  intros Hok Hc Hl (H1 & H2 & H3 & H4 & H5 & H6 & H7 & H8) l' Hor Hl'.
  destruct (change_leases _ _ _ _ _ _ Hc) as (Hp & _).
  assert (Hs : l_room l' = l_room l ∧ l_head l' = l_head l ∧ l_reservation l' = l_reservation l) by (by destruct Hor as [->| ->]).
  destruct Hs as (Hs1 & Hs2 & Hs3). unfold lease_ok. rewrite Hs1, Hs2, Hs3, Hp. split_and!; try done. intros Hu.
  assert (Hu0 : l_used l = false) by (destruct Hor as [->| ->]; done). destruct (H8 Hu0) as [Ha Ho].
  destruct (change_frame _ _ _ _ _ _ Hc k) as [[Hk Hm]|[Hun|Hn]].
  - rewrite Hk. split; [done|]. intros o Hro. rewrite (inherited_frame i0 i1 k _ _ Hk Hm). by apply Ho.
  - specialize (Hun _ Hl'). congruence.
  - rewrite Hn. split; [done|]. intros o Hro. specialize (Ho o Hro). pose proof (inherited_nonneg play i0 bl k (l_head l) (Some o) Hok).
    unfold inherited at 1. rewrite Hn. lia.
Qed.

Lemma leases_change live op i0 i1 bl : index_ok play i0 bl → change cfg play live op i0 i1 → leases_ok i0 live →
  leases_ok i1 (after op live).
Proof.
  intros Hok Hc [H1 H2 H3 H4 H5]. destruct (change_leases _ _ _ _ _ _ Hc) as (Hp & Hr & Ho & _). split.
  - intros k l Hl. destruct (after_lookup _ _ _ _ Hl) as (l' & Hl' & Hor). by eapply lease_ok_change; [..|exact Hl]; eauto.
  - rewrite Hp, H2. by rewrite fmap_after.
  - rewrite Hr, H3. by rewrite sum_after_eq.
  - intros o. rewrite Ho, H4. by rewrite sum_after_eq.
  - intros k l Hl. destruct (after_lookup _ _ _ _ Hl) as (l' & Hl' & [->| ->]); by apply (H5 k l').
Qed.

Lemma leases_after live op i0 : leases_ok i0 live → leases_ok i0 (after op live).
Proof.
  intros [H1 H2 H3 H4 H5]. split.
  - intros k l Hl. destruct (after_lookup _ _ _ _ Hl) as (l' & Hl' & [->| ->]); [by apply H1|].
    destruct (H1 k l' Hl') as (G1 & G2 & G3 & G4 & G5 & G6 & G7 & _). by split_and!.
  - by rewrite H2, fmap_after.
  - by rewrite H3, sum_after_eq.
  - intros o. by rewrite H4, sum_after_eq.
  - intros k l Hl. destruct (after_lookup _ _ _ _ Hl) as (l' & Hl' & [->| ->]); by apply (H5 k l').
Qed.

Lemma unused_after_le op live i : leases_ok i live → sum_map unused_amount (after op live) ≤ sum_map unused_amount live ∧
  ∀ o, sum_map (unused_owner o) (after op live) ≤ sum_map (unused_owner o) live.
Proof.
  intros [_ _ _ _ H5]. split; [|intros o]; apply sum_after_le; intros k l Hl; destruct (H5 k l Hl) as [Ha Hb];
    unfold unused_amount, unused_owner, owner_amount; cbn; destruct (l_used l); try case_bool_decide; lia.
Qed.

(** A commit takes at most what was promised. *)
Lemma commit_within live op i0 k r m len extra bl : index_ok play i0 bl → leases_ok i0 live →
  record_ok play k r → held_heads r = current r :: extra →
  extra ⊆+ old_heads (records i0) k → Forall (λ p, hash p ≠ hash (current r)) extra → 0 ≤ blob_size (current r) →
  0 ≤ len ≤ manifest_limit (blob_size (current r)) → paid cfg i0 live op k r len extra →
  let i1 := commit_index k r (current r) m len i0 in
  usage (λ _, true) (manifests i0) (records i0) + sum_map unused_amount live ≤ max_total_bytes cfg →
  (∀ o q, quota o = Some q → usage (owned_by o) (manifests i0) (records i0) + sum_map (unused_owner o) live ≤ q) →
  usage (λ _, true) (manifests i1) (records i1) + sum_map unused_amount (after op live) ≤ max_total_bytes cfg ∧
  ∀ o q, quota o = Some q → usage (owned_by o) (manifests i1) (records i1) + sum_map (unused_owner o) (after op live) ≤ q.
Proof.
  intros Hok Hlo Hr Hh Hsub Hhash Hs Hl Hpaid i1 Hb Ho. pose proof (index_fills _ _ _ Hok) as Hfill.
  destruct (unused_after_le op live i0 Hlo) as [Hu1 Hu2]. pose proof Hok as (Hf0 & _).
  assert (Huse : ∀ sel lv, 0 ≤ lv → (∀ r0, records i0 !! k = Some r0 → sel r = true → sel r0 = false →
      usage_of (λ _, true) (manifests i0) ((λ p, (k, r, p)) <$> extra) ≤ lv) →
      usage sel (manifests i1) (records i1) ≤ usage sel (manifests i0) (records i0) + (if sel r then blob_size (current r) + len + lv else 0)).
  { intros sel lv Hlv Hx. by apply (usage_commit_le sel lv i1 i0 k r m len extra); [done..|apply Hl| | |]. }
  assert (Hother : ∀ o, owner r ≠ Some o → usage (owned_by o) (manifests i1) (records i1) ≤ usage (owned_by o) (manifests i0) (records i0)).
  { intros o Hne. assert (Hno : owned_by o r = false) by (by apply bool_decide_false).
    specialize (Huse (owned_by o) 0 ltac:(done)). rewrite Hno, Z.add_0_r in Huse. by apply Huse. }
  specialize (Huse (λ _, true) 0 ltac:(done) ltac:(done)) as Hall. cbn in Hall.
  destruct Hpaid as [Hno Hroom Hn Hfree|l blob bytes_ Hop Hl0 Hused Hlh Hlr Hown Hinh].
  - rewrite (lo_reserved _ _ Hlo), (fixed_bytes i0 Hf0) in Hfree.
    assert (Hun : sum_map unused_amount live ≤ sum_map (λ l, rv_amount (l_reservation l)) live).
    { apply sum_map_le. intros k' x Hx. destruct (lo_nonneg _ _ Hlo k' x Hx). unfold unused_amount. destruct (l_used x); lia. }
    split; [lia|]. intros o q Hq. specialize (Ho o q Hq). specialize (Hu2 o). specialize (Hother o ltac:(congruence)). lia.
  - destruct (lo_lease _ _ Hlo k l Hl0) as (_ & _ & _ & _ & _ & _ & Ham & Had). destruct (Had Hused) as [_ Hoam]. rewrite Hlh in Ham.
    assert (Hafter : after op live = alter use k live) by (subst op; cbn; by rewrite <-(ro_key _ _ _ Hr)).
    rewrite Hafter in *. split.
    + rewrite (sum_map_alter unused_amount use live k l Hl0). unfold unused_amount at 2 3. rewrite Hused. cbn. lia.
    + intros o q Hq. specialize (Ho o q Hq). specialize (Hu2 o). destruct (decide (owner r = Some o)) as [He|Hne].
      * rewrite (sum_map_alter (unused_owner o) use live k l Hl0). unfold unused_owner at 2 3, owner_amount. rewrite Hused. cbn.
        rewrite bool_decide_true by congruence. specialize (Hoam o ltac:(congruence)). rewrite Hlh in Hoam.
        pose proof (inherited_nonneg play i0 bl k (current r) (Some o) Hok) as Hnn.
        assert (Hx : usage (owned_by o) (manifests i1) (records i1) ≤ usage (owned_by o) (manifests i0) (records i0)
          + (if owned_by o r then blob_size (current r) + len + inherited i0 k (current r) (Some o) else 0)).
        { apply Huse; [done|]. intros r0 Hr0 _ Hro%bool_decide_eq_false. by apply (Hinh r0 o). }
        unfold owned_by in Hx at 3. rewrite bool_decide_true in Hx by done. lia.
      * specialize (Hother o Hne). lia.
Qed.

(** So does every change. *)
Lemma within_change live op i0 i1 bl : index_ok play i0 bl → fixed i1 → change cfg play live op i0 i1 → leases_ok i0 live →
  within i0 live → within i1 (after op live).
Proof.
  intros Hok Hf1 Hc Hlo [Hb Ho]. pose proof (index_fills _ _ _ Hok) as Hfill. pose proof Hok as (Hf0 & _).
  destruct (unused_after_le op live i0 Hlo) as [Hu1 Hu2]. unfold within. rewrite (fixed_bytes i1 Hf1).
  rewrite (fixed_bytes i0 Hf0) in Hb. setoid_rewrite (fixed_owner i1 _ Hf1). setoid_rewrite (fixed_owner i0 _ Hf0) in Ho.
  destruct Hc as [k r Hr Hh How _ _ _|k r m len extra Hr Hh Hsub Hhash Hs Hl _ Hpaid|ks _ _].
  - assert (Hle : ∀ sel, (∀ r0, records i0 !! k = Some r0 → sel r = true → sel r0 = true) →
      usage sel (manifests (publish k r i0)) (records (publish k r i0)) ≤ usage sel (manifests i0) (records i0)) by (intros; by apply usage_publish_le).
    split; [specialize (Hle (λ _, true) ltac:(done)); lia|]. intros o q Hq. specialize (Ho o q Hq). specialize (Hu2 o).
    enough (usage (owned_by o) (manifests (publish k r i0)) (records (publish k r i0)) ≤ usage (owned_by o) (manifests i0) (records i0)) by lia.
    apply Hle. unfold owned_by. intros r0 Hr0 Hro%bool_decide_eq_true. apply bool_decide_eq_true.
    destruct (How o Hro) as (r1 & Hr1 & ?). congruence.
  - by eapply (commit_within live op i0 k r m len extra).
  - pose proof (usage_retired (λ _, true) ks i0 Hfill). split; [lia|]. intros o q Hq. specialize (Ho o q Hq). specialize (Hu2 o).
    pose proof (usage_retired (owned_by o) ks i0 Hfill). lia.
Qed.
End budget.

(** ** Slots *)
Section slot_count.
Context {C : Crypto} {E : EscrowEnv} {R : RepoEnv} (cfg : EscrowConfig) (play : string → Head → Prop) (Hplay : distinct play).
Implicit Types (rs : gmap string SlotRecord) (ps : gmap string PendingSlot) (sel : string → bool).

(** The slots that have a record or a pull, in the rooms [sel] selects. *)
Definition keys_in sel rs ps : gset string :=
  dom (filter (λ p : string * SlotRecord, sel (room p.2) = true) rs) ∪ dom (filter (λ p : string * PendingSlot, sel (ps_room p.2) = true) ps).
Definition count sel rs ps : Z := Z.of_nat (size (keys_in sel rs ps)).
Definition in_room (rm x : string) : bool := bool_decide (x = rm).

Definition fits rs ps : Prop :=
  count (λ _, true) rs ps ≤ MAX_RECORDS ∧ ∀ rm, count (in_room rm) rs ps ≤ max_slots_per_room cfg.

Lemma elem_of_keys_in sel rs ps k : k ∈ keys_in sel rs ps ↔
  (∃ r, rs !! k = Some r ∧ sel (room r) = true) ∨ (∃ p, ps !! k = Some p ∧ sel (ps_room p) = true).
Proof.
  unfold keys_in. rewrite elem_of_union, !elem_of_dom. unfold is_Some. by setoid_rewrite map_lookup_filter_Some.
Qed.

Lemma filter_count {A} (f : A → string) sel (m : gmap string A) :
  Z.of_nat (size (dom (filter (λ p : string * A, sel (f p.2) = true) m))) = zlen (List.filter sel (map f (map_to_list m).*2)).
Proof.
  rewrite size_dom. induction m as [|k x m Hk IH] using map_ind.
  { by rewrite map_filter_empty, map_size_empty, map_to_list_empty. }
  assert (Hp : List.filter sel (map f (map_to_list (<[k:=x]> m)).*2) ≡ₚ List.filter sel (f x :: map f (map_to_list m).*2)).
  { assert (Hl : map f (map_to_list (<[k:=x]> m)).*2 ≡ₚ f x :: map f (map_to_list m).*2).
    { change (map f (map_to_list (<[k:=x]> m)).*2 ≡ₚ map f (((k, x) :: map_to_list m).*2)). by rewrite (map_to_list_insert m k x Hk). }
    induction Hl; cbn; repeat case_match; eauto using perm_trans, perm_swap. }
  unfold zlen. rewrite Hp. cbn [List.filter]. destruct (sel (f x)) eqn:Hs.
  - rewrite map_filter_insert_True by done. rewrite map_size_insert_None; [cbn; unfold zlen in IH; lia|].
    apply map_lookup_filter_None. by left.
  - rewrite map_filter_insert_not' by (cbn; congruence || (intros; simplify_eq)). exact IH.
Qed.

Lemma size_union_le (X Y : gset string) : (size (X ∪ Y) ≤ size X + size Y)%nat.
Proof. rewrite size_union_alt. apply Nat.add_le_mono_l, subseteq_size. set_solver. Qed.

Lemma count_le sel rs ps : count sel rs ps ≤ zlen (List.filter sel (map room (map_to_list rs).*2)) + zlen (List.filter sel (map ps_room (map_to_list ps).*2)).
Proof. unfold count, keys_in. rewrite <-!filter_count. match goal with |- context [size (?X ∪ ?Y)] => pose proof (size_union_le X Y) end. lia. Qed.

Lemma count_sub sel rs ps rs' ps' : keys_in sel rs ps ⊆ keys_in sel rs' ps' → count sel rs ps ≤ count sel rs' ps'.
Proof. intros H%subseteq_size. unfold count. lia. Qed.

Lemma fits_sub rs ps rs' ps' : (∀ sel, keys_in sel rs ps ⊆ keys_in sel rs' ps') → fits rs' ps' → fits rs ps.
Proof. intros Hs [H1 H2]. split; [|intros rm]; (etrans; [apply count_sub, Hs|done]). Qed.

(** A slot that is new was counted before it came. *)
Lemma fits_new i rs ps k rm : full cfg i rm = false → fits (records i) (pending_slots i) →
  (∀ sel, keys_in sel rs ps ⊆ (if sel rm then {[k]} else ∅) ∪ keys_in sel (records i) (pending_slots i)) → fits rs ps.
Proof.
  intros Hfull [H1 H2] Hs. unfold full in Hfull. apply orb_false_iff in Hfull as [Hslots%Z.leb_gt Hmax%Z.leb_gt].
  assert (Hle : ∀ sel, count sel rs ps ≤ (if sel rm then 1 else 0) + count sel (records i) (pending_slots i)).
  { intros sel. unfold count. pose proof (subseteq_size _ _ (Hs sel)) as Hsz.
    pose proof (size_union_le (if sel rm then {[k]} else ∅) (keys_in sel (records i) (pending_slots i))).
    destruct (sel rm); rewrite ?size_singleton, ?size_empty in *; lia. }
  split.
  - etrans; [apply Hle|]. pose proof (count_le (λ _, true) (records i) (pending_slots i)) as Hc.
    enough (count (λ _, true) (records i) (pending_slots i) ≤ zsize (records i) + zsize (pending_slots i)) by (cbn; lia).
    etrans; [exact Hc|]. assert (Hl : ∀ A (f : A → string) (m : gmap string A), zlen (List.filter (λ _, true) (map f (map_to_list m).*2)) = zsize m).
    { intros A f m. rewrite <-(filter_count f (λ _, true)), size_dom. unfold zsize. f_equal. f_equal. apply map_filter_id. done. }
    rewrite !Hl. done.
  - intros rm'. etrans; [apply Hle|]. unfold in_room at 1. case_bool_decide as He; [subst rm'|apply H2].
    pose proof (count_le (in_room rm) (records i) (pending_slots i)) as Hc. change (count (in_room rm) (records i) (pending_slots i) ≤ slots i rm) in Hc. lia.
Qed.
Lemma keys_insert sel rs ps k r : (∀ r0, rs !! k = Some r0 → room r0 = room r) ∨ (∃ p, ps !! k = Some p ∧ ps_room p = room r) →
  keys_in sel (<[k := r]> rs) ps ⊆ (if sel (room r) then if bool_decide (rs !! k = None) then {[k]} else ∅ else ∅) ∪ keys_in sel rs ps ∧
  ((∃ p, ps !! k = Some p ∧ ps_room p = room r) → keys_in sel (<[k := r]> rs) ps ⊆ keys_in sel rs ps).
Proof.
  intros Hroom. split; [|intros (p & Hp & Hpr)]; intros k' Hk'; rewrite ?elem_of_union, !elem_of_keys_in in *.
  - destruct Hk' as [(r' & [[<- <-]|[Hne Hr']]%lookup_insert_Some & Hsel)|Hps]; [|right; left; by exists r'|right; by right].
    rewrite Hsel. case_bool_decide as Hn; [left; by apply elem_of_singleton|]. right.
    destruct (rs !! k) as [r0|] eqn:Hr0; [|done]. destruct Hroom as [Hroom|(p & Hp & Hpr)].
    + left. exists r0. split; [done|]. by rewrite (Hroom r0 eq_refl).
    + right. exists p. split; [done|]. by rewrite Hpr.
  - destruct Hk' as [(r' & [[<- <-]|[Hne Hr']]%lookup_insert_Some & Hsel)|Hps]; [|left; by exists r'|by right].
    right. exists p. split; [done|]. by rewrite Hpr.
Qed.

Lemma rooms_agree rs k r r0 : records_ok play rs → record_ok play k r → rs !! k = Some r0 → room r0 = room r.
Proof.
  intros Hrs Hr Hk. apply Hrs in Hk. apply (keys_distinct play Hplay _ (current r0) _ (current r)); [apply Hk|apply Hr|].
  rewrite <-(ro_key _ _ _ Hk). apply Hr.
Qed.

Lemma fits_insert i k r : records_ok play (records i) → record_ok play k r → (records i !! k = None → full cfg i (room r) = false) →
  fits (records i) (pending_slots i) → fits (<[k := r]> (records i)) (pending_slots i).
Proof.
  intros Hrs Hr Hfull Hf.
  assert (Hroom : ∀ r0, records i !! k = Some r0 → room r0 = room r) by (intros r0; by apply rooms_agree).
  destruct (records i !! k) as [r0|] eqn:Hk.
  - eapply fits_sub; [|exact Hf]. intros sel. destruct (keys_insert sel (records i) (pending_slots i) k r) as [Hs _].
    { left. intros r1. rewrite Hk. apply Hroom. }
    rewrite Hk, bool_decide_false in Hs by done. destruct (sel (room r)); by rewrite (left_id_L ∅ (∪)) in Hs.
  - eapply (fits_new i _ _ k (room r)); [by apply Hfull|exact Hf|]. intros sel.
    destruct (keys_insert sel (records i) (pending_slots i) k r) as [Hs _]; [left; intros r1; by rewrite Hk|].
    by rewrite bool_decide_true in Hs.
Qed.

Lemma fits_change live op i0 i1 bl : index_ok play i0 bl → change cfg play live op i0 i1 → leases_ok play i0 live →
  fits (records i0) (pending_slots i0) → fits (records i1) (pending_slots i1).
Proof.
  intros (_ & Hrs & _) Hc Hlo Hf. destruct (change_leases _ _ _ _ _ _ Hc) as (Hps & _). rewrite Hps. clear Hps.
  destruct Hc as [k r Hr _ _ Hfull _ _|k r m len extra Hr _ _ _ _ _ _ Hpaid|ks _ _].
  - unfold publish. rewrite rebuild_records. by apply fits_insert.
  - rewrite commit_records. destruct Hpaid as [_ Hfull _ _|l blob bytes_ _ Hl _ Hlh Hlr _ _]; [by apply fits_insert|].
    eapply fits_sub; [|exact Hf]. intros sel. eapply keys_insert; [right|];
      (eexists; split; [by rewrite (lo_pending _ _ _ Hlo), lookup_fmap, Hl|done]).
  - eapply fits_sub; [|exact Hf]. intros sel k. rewrite !elem_of_keys_in. intros [(r & Hr & Hs)|Hp]; [left|by right].
    exists r. split; [|done]. rewrite retired_records in Hr. by destruct (decide (k ∈ ks)).
Qed.

(** Without the pulls, and with copies given up, no slot is new. *)
Lemma fits_records rs ps : fits rs ps → fits rs ∅.
Proof. apply fits_sub. intros sel k. rewrite !elem_of_keys_in. by intros [?|(p & Hp & _)]; [left|]. Qed.

Lemma fits_lowered rs rs' : lowered_map rs rs' → fits rs ∅ → fits rs' ∅.
Proof.
  intros Hl. apply fits_sub. intros sel k. rewrite !elem_of_keys_in. intros [(r' & Hr & Hs)|(p & Hp & _)]; [left|done].
  specialize (Hl k). rewrite Hr in Hl. destruct (rs !! k) as [r|]; [|done]. destruct Hl as (b & b' & ->). exists r. split; [done|].
  by destruct b, b'.
Qed.

Lemma fits_zsize rs : fits rs ∅ → zsize rs ≤ MAX_RECORDS.
Proof.
  intros [H _]. etrans; [|exact H]. unfold zsize. rewrite <-size_dom. unfold count. apply inj_le, subseteq_size. intros k [r Hr]%elem_of_dom.
  apply elem_of_keys_in. left. by exists r.
Qed.
End slot_count.

(** ** Reservations *)
Section reservations.
Context {C : Crypto} {E : EscrowEnv} {R : RepoEnv} (cfg : EscrowConfig) (play : string → Head → Prop) (Hplay : distinct play).
Context (quota : string → option Z) (Hcfg : validate_config cfg = Ok tt).

(** What is inherited is in use. *)
Lemma inherited_le i bl k h o : index_ok play i bl → inherited i k h o ≤ bytes i.
Proof.
  intros Hok. pose proof Hok as (Hf & _). pose proof (index_fills play i bl Hok) as Hfill. rewrite (fixed_bytes i Hf).
  assert (H0 : 0 ≤ usage (λ _, true) (manifests i) (records i)) by exact (usage_submseteq _ _ [] _ (submseteq_nil_l _) Hfill).
  unfold inherited. destruct (records i !! k) as [r|] eqn:Hk; [|done].
  destruct (_ && negb (is_some (deleted r))) eqn:Hb; [|done]. apply andb_true_iff in Hb as [_ Hd].
  set (x := if bool_decide _ then _ else _). destruct x as [p|] eqn:Hx; [|done].
  assert (Hin : (k, r, p) ∈ gens (records i)).
  { apply elem_of_gens. split; [done|]. unfold held_heads. destruct (is_some (deleted r)); [done|]. apply elem_of_app.
    unfold x in Hx. case_bool_decide.
    - right. destruct (previous_held r); [|done]. rewrite Hx. apply list_elem_of_here.
    - left. destruct (held r); [|done]. injection Hx as ->. apply list_elem_of_here. }
  pose proof (usage_submseteq (λ _, true) (manifests i) [(k, r, p)] (gens (records i)) ltac:(by apply singleton_submseteq_l) Hfill) as Hle.
  unfold usage_of at 1, cost, cached in Hle. cbn in Hle. unfold usage. destruct (manifests i !! (k, hash p)) as [[m len]|]; lia.
Qed.

Lemma manifest_limit_bounds n : 0 < CHUNK_SIZE → 0 ≤ n → 0 ≤ manifest_limit n ≤ MAX_MANIFEST.
Proof.
  intros HC Hn. unfold manifest_limit, div_ceil. assert (Hd : 0 ≤ (n + CHUNK_SIZE - 1) / CHUNK_SIZE) by (apply Z.div_pos; lia). revert Hd.
  generalize ((n + CHUNK_SIZE - 1) / CHUNK_SIZE). unfold MAX_MANIFEST. lia.
Qed.

Context (HC : 0 < CHUNK_SIZE).

(** Nothing saturates. *)
Lemma granted_amounts i bl rm h o limit v live : index_ok play i bl → leases_ok play i live → 0 ≤ blob_size h →
  granted cfg i rm h o limit v →
  0 ≤ rv_amount v ∧ 0 ≤ rv_owner_amount v ∧ rv_amount v + inherited i (rv_key v) h o ≤ rv_owner_amount v ∧
  bytes i + reserved i + rv_amount v ≤ max_total_bytes cfg.
Proof.
  intros Hok Hlo Hs [_ Hk Hown Ham Hoam Hgood _ _ Htot _]. destruct (config_bounds cfg Hcfg) as (_ & Hmax & _).
  assert (Hsz : blob_size h ≤ MAX_BLOB).
  { destruct Hgood as [Hv _]. unfold validate_head in Hv. case_if; [done|]. by destruct (MAX_BLOB <? blob_size h) eqn:Hb; [|apply Z.ltb_ge in Hb]. }
  pose proof (manifest_limit_bounds _ HC Hs) as Hl. pose proof (inherited_nonneg play i bl (rv_key v) h o Hok) as Hi.
  pose proof (inherited_le i bl (rv_key v) h o Hok) as Hi'.
  assert (Hr : 0 ≤ reserved i) by (rewrite (lo_reserved _ _ _ Hlo); apply sum_map_pos; intros k l Hl'; apply (lo_nonneg _ _ _ Hlo k l Hl')).
  unfold sat_add, U64_MAX, MAX_BLOB, MAX_MANIFEST in *. lia.
Qed.

Lemma lent_ok i bl rm h o limit v live : index_ok play i bl → leases_ok play i live → live !! rv_key v = None →
  0 ≤ blob_size h → valid_room rm = true → play rm h → granted cfg i rm h o limit v →
  leases_ok play (lent rm v i) (<[rv_key v := {| l_reservation := v; l_room := rm; l_head := h; l_used := false |}]> live).
Proof.
  intros Hok Hlo Hn Hs Hrm Hp Hg. destruct (granted_amounts _ _ _ _ _ _ _ _ Hok Hlo Hs Hg) as (H0 & H1 & H2 & H3).
  destruct Hlo as [L1 L2 L3 L4 L5]. split.
  - intros k l [[<- <-]|[Hne Hl]]%lookup_insert_Some.
    + unfold lease_ok. cbn. rewrite lookup_insert_eq. destruct Hg as [_ Hk Hown Ham Hoam Hgood Hadm _ _ _].
      refine (conj Hk (conj Hrm (conj Hp (conj Hgood (conj eq_refl (conj eq_refl (conj Ham _))))))).
      intros _. split; [exact Hadm|]. intros o' Ho'. rewrite <-Ho', Hown. exact H2.
    + destruct (L1 k l Hl) as (G1 & G2 & G3 & G4 & G5 & G6 & G7 & G8). refine (conj G1 (conj G2 (conj G3 (conj G4 (conj G5 (conj _ (conj G7 G8))))))). cbn. by rewrite lookup_insert_ne.
  - cbn. by rewrite L2, fmap_insert.
  - cbn. rewrite L3, sum_map_insert by done. cbn. lia.
  - intros o'. cbn. rewrite sum_map_insert by done. unfold owner_amount at 1. cbn. rewrite <-L4.
    destruct (rv_owner v) as [o1|]; [|by rewrite bool_decide_false]. unfold entry_add. case_bool_decide as He.
    + injection He as ->. rewrite lookup_insert_eq. cbn. lia.
    + rewrite lookup_insert_ne by congruence. lia.
  - intros k l [[<- <-]|[Hne Hl]]%lookup_insert_Some; [done|by apply (L5 k)].
Qed.

Lemma lent_within i bl rm h o limit v live : index_ok play i bl → leases_ok play i live → live !! rv_key v = None →
  0 ≤ blob_size h → granted cfg i rm h o limit v →
  (∀ o' q, o = Some o' → quota o' = Some q → q < U64_MAX ∧ ∃ q', limit = Some q' ∧ q' ≤ q) →
  within cfg quota i live →
  within cfg quota (lent rm v i) (<[rv_key v := {| l_reservation := v; l_room := rm; l_head := h; l_used := false |}]> live).
Proof.
  intros Hok Hlo Hn Hs Hg Hq [Hb Ho]. destruct (granted_amounts _ _ _ _ _ _ _ _ Hok Hlo Hs Hg) as (H0 & H1 & H2 & H3).
  assert (Hun : sum_map unused_amount live ≤ reserved i).
  { rewrite (lo_reserved _ _ _ Hlo). apply sum_map_le. intros k l Hl. destruct (lo_nonneg _ _ _ Hlo k l Hl). unfold unused_amount. destruct (l_used l); lia. }
  split; cbn; [rewrite sum_map_insert by done; unfold unused_amount at 1; cbn; lia|].
  intros o' q Hq'. rewrite sum_map_insert by done. unfold unused_owner at 1, owner_amount. cbn. case_bool_decide as He; [|cbn; by apply Ho].
  rewrite (gr_owner _ _ _ _ _ _ _ Hg) in He. destruct (Hq o' q He Hq') as (Hlt & q' & Hlim & Hle).
  pose proof (gr_limit _ _ _ _ _ _ _ Hg o' q' He Hlim) as Hgr.
  assert (Huo : sum_map (unused_owner o') live ≤ default 0 (owner_reserved i !! o')).
  { rewrite (lo_owner _ _ _ Hlo). apply sum_map_le. intros k l Hl. destruct (lo_nonneg _ _ _ Hlo k l Hl).
    unfold unused_owner, owner_amount. destruct (l_used l); [case_bool_decide; lia|lia]. }
  unfold sat_add, U64_MAX in *. lia.
Qed.

Lemma lent_fits i bl rm h o limit v live : index_ok play i bl → leases_ok play i live → play rm h → granted cfg i rm h o limit v →
  fits cfg (records i) (pending_slots i) → fits cfg (records (lent rm v i)) (pending_slots (lent rm v i)).
Proof.
  intros (_ & Hrs & _) Hlo Hp Hg Hf. cbn. destruct Hg as [_ Hk _ _ _ _ _ Hroom _ _].
  destruct (records i !! rv_key v) as [r|] eqn:Hr.
  - eapply fits_sub; [|exact Hf]. intros sel k. rewrite !elem_of_keys_in. intros [?|(p & [[<- <-]|[_ Hps]]%lookup_insert_Some & Hsel)].
    + by left.
    + left. exists r. split; [done|]. pose proof (Hrs _ _ Hr) as Hro. destruct (keys_distinct play Hplay (room r) (current r) rm h) as [-> _]; try done.
      * apply Hro.
      * rewrite <-(ro_key _ _ _ Hro). congruence.
    + right. by exists p.
  - eapply (fits_new cfg play Hplay i _ _ (rv_key v) rm); [by apply Hroom|done|]. intros sel k. rewrite elem_of_union, !elem_of_keys_in.
    intros [?|(p & [[<- <-]|[_ Hps]]%lookup_insert_Some & Hsel)]; [by right; left| |right; right; by exists p].
    left. cbn in Hsel. rewrite Hsel. by apply elem_of_singleton.
Qed.

(** *** Release *)

Lemma release_enough i live k l : leases_ok play i live → live !! k = Some l → let v := l_reservation l in
  rv_amount v ≤ reserved i ∧ ∀ o n, rv_owner v = Some o → owner_reserved i !! o = Some n → rv_owner_amount v ≤ n.
Proof.
  intros Hlo Hl v. assert (Hnn : ∀ k' x, delete k live !! k' = Some x → 0 ≤ rv_amount (l_reservation x) ∧ 0 ≤ rv_owner_amount (l_reservation x)).
  { intros k' x [_ Hx]%lookup_delete_Some. by apply (lo_nonneg _ _ _ Hlo k'). }
  split.
  - rewrite (lo_reserved _ _ _ Hlo), <-(insert_delete_id live k l Hl), sum_map_insert by apply lookup_delete_eq.
    enough (0 ≤ sum_map (λ l, rv_amount (l_reservation l)) (delete k live)) by (unfold v; lia). apply sum_map_pos. intros. by eapply Hnn.
  - intros o n Ho Hn. pose proof (lo_owner _ _ _ Hlo o) as He. rewrite Hn in He. cbn in He.
    rewrite He, <-(insert_delete_id live k l Hl), sum_map_insert by apply lookup_delete_eq. unfold owner_amount at 1. rewrite bool_decide_true by done.
    enough (0 ≤ sum_map (owner_amount o) (delete k live)) by (unfold v; lia). apply sum_map_pos.
    intros k' x Hx. unfold owner_amount. destruct (Hnn k' x Hx). case_bool_decide; lia.
Qed.

Lemma unlent_ok i live k l : leases_ok play i live → live !! k = Some l → leases_ok play (unlent (l_reservation l) i) (delete k live).
Proof.
  intros Hlo Hl. destruct (lo_lease _ _ _ Hlo k l Hl) as (_ & _ & _ & _ & Hkey & _). destruct Hlo as [L1 L2 L3 L4 L5].
  assert (Hsum : ∀ f, sum_map f live = f l + sum_map f (delete k live)).
  { intros f. by rewrite <-(insert_delete_id live k l Hl) at 1; rewrite sum_map_insert by apply lookup_delete_eq. }
  split.
  - intros k' l' [Hne Hl']%lookup_delete_Some. destruct (L1 k' l' Hl') as (G1 & G2 & G3 & G4 & G5 & G6 & G7 & G8).
    refine (conj G1 (conj G2 (conj G3 (conj G4 (conj G5 (conj _ (conj G7 G8))))))). cbn. rewrite Hkey. by rewrite lookup_delete_ne.
  - cbn. by rewrite L2, Hkey, fmap_delete.
  - cbn. rewrite L3, (Hsum (λ l, rv_amount (l_reservation l))). lia.
  - intros o. cbn. pose proof (L4 o) as Ho. rewrite (Hsum (owner_amount o)) in Ho. unfold owner_amount at 1 in Ho.
    destruct (rv_owner (l_reservation l)) as [o1|] eqn:Hv; [|by rewrite bool_decide_false in Ho].
    case_bool_decide as He.
    + injection He as <-. destruct (owner_reserved i !! o1) as [n|] eqn:Hn; cbn in Ho; [|rewrite Hn; cbn].
      * case_if; [rewrite lookup_delete_eq; cbn; bools; lia|rewrite lookup_insert_eq; cbn; lia].
      * assert (0 ≤ sum_map (owner_amount o1) (delete k live)); [|pose proof (L5 k l Hl); lia].
        apply sum_map_pos. intros k' x [_ Hx]%lookup_delete_Some. unfold owner_amount. destruct (L5 k' x Hx). case_bool_decide; lia.
    + assert (Hne : o1 ≠ o) by congruence. destruct (owner_reserved i !! o1) as [n|]; [|lia].
      case_if; [rewrite lookup_delete_ne by done; lia|rewrite lookup_insert_ne by done; lia].
  - intros k' l' [_ Hl']%lookup_delete_Some. by apply (L5 k').
Qed.

Lemma unlent_within i live k l : leases_ok play i live → live !! k = Some l → within cfg quota i live →
  within cfg quota (unlent (l_reservation l) i) (delete k live).
Proof.
  intros Hlo Hl [Hb Ho]. destruct (lo_nonneg _ _ _ Hlo k l Hl).
  assert (Hsum : ∀ f, sum_map f live = f l + sum_map f (delete k live)).
  { intros f. by rewrite <-(insert_delete_id live k l Hl) at 1; rewrite sum_map_insert by apply lookup_delete_eq. }
  split; cbn.
  - rewrite (Hsum unused_amount) in Hb. unfold unused_amount at 1 in Hb. destruct (l_used l); lia.
  - intros o q Hq. specialize (Ho o q Hq). rewrite (Hsum (unused_owner o)) in Ho. unfold unused_owner at 1, owner_amount in Ho.
    destruct (l_used l); [|case_bool_decide]; lia.
Qed.

Lemma unlent_fits i v : fits cfg (records i) (pending_slots i) → fits cfg (records (unlent v i)) (pending_slots (unlent v i)).
Proof.
  apply fits_sub. intros sel k. rewrite !elem_of_keys_in. cbn. intros [?|(p & [_ Hp]%lookup_delete_Some & Hs)]; [by left|right; by exists p].
Qed.
End reservations.
