(* ===== verification/EscrowHistory.v ===== *)
(** * Histories of the escrow repository

    The theorems on [EscrowSlots]: in every history of operations, crashes and
    restarts the disk can be opened again with all its copies, the quotas hold,
    and a slot moves only as its writer signed. *)
From S2P Require Import Prelude Effects Text Json Wire EscrowProtocol EscrowMesh EscrowRepository EscrowIndex EscrowDurable EscrowReopen EscrowSlots EscrowBudget.

Section history.
Context {C : Crypto} {E : EscrowEnv} {R : RepoEnv} (cfg : EscrowConfig) (quota : string → option Z).
Context (play : string → Head → Prop) (Hplay : distinct play) (Hcfg : validate_config cfg = Ok tt) (HC : 0 < CHUNK_SIZE).
Context (Hquota : ∀ o q, quota o = Some q → 0 ≤ q < U64_MAX).

(** ** The invariant *)

Record good (i : Index) (live : Leases) : Prop := {
  gd_leases : leases_ok play i live;
  gd_within : within cfg quota i live;
  gd_fits : fits cfg (records i) (pending_slots i);
}.

(** The disk is that of an index within its bounds. *)
Definition left_by (ib : Index) (d : Disk) : Prop :=
  backed play ib d ∧ within cfg quota ib ∅ ∧ fits cfg (records ib) ∅.
Definition down_ok (d : Disk) : Prop := ∃ ib, left_by ib d.
Record up_ok (w : World) (live : Leases) : Prop := {
  uo_index : index_ok play (index w) (blobs (disk w));
  uo_good : good (index w) live;
  uo_disk : down_ok (disk w);
  uo_backed : write_failed (index w) = false → backed play (index w) (disk w);
}.
Definition state_ok (s : State) : Prop := match s with Up w live => up_ok w live | Down d => down_ok d end.

Lemma good_left i live d : good i live → backed play i d → left_by i d.
Proof.
  intros [Hlo [Hb Ho] Hf] Hbk. split; [done|]. split; [|by eapply fits_records].
  assert (Hnn : 0 ≤ sum_map unused_amount live ∧ ∀ o, 0 ≤ sum_map (unused_owner o) live).
  { split; [|intros o]; apply sum_map_pos; intros k l Hl; destruct (lo_nonneg _ _ _ Hlo k l Hl); unfold unused_amount, unused_owner, owner_amount;
      destruct (l_used l); try case_bool_decide; lia. }
  destruct Hnn as [H1 H2]. split; rewrite ?sum_map_empty; [lia|]. intros o q Hq. rewrite sum_map_empty. specialize (Ho o q Hq). specialize (H2 o). lia.
Qed.

Lemma good_after op i live : good i live → good i (after op live).
Proof.
  intros [Hlo [Hb Ho] Hf]. destruct (unused_after_le play op live i Hlo) as [H1 H2]. split; [by apply leases_after| |done].
  split; [lia|]. intros o q Hq. specialize (Ho o q Hq). specialize (H2 o). lia.
Qed.

Lemma retired_fixed ks : ∀ i, fixed i → fixed (retired i ks).
Proof. induction ks as [|k ks IH]; intros i Hi; [done|]. apply IH, fixed_rebuild. Qed.

Lemma change_fixed live op i0 i1 : fixed i0 → change cfg play live op i0 i1 → fixed i1.
Proof. intros Hf [k r _ _ _ _ _ _|k r m len extra _ _ _ _ _ _ _ _|ks _ _]; [apply fixed_rebuild..|by apply retired_fixed]. Qed.

Lemma good_reached op i0 i1 live bl : index_ok play i0 bl → good i0 live → reached cfg play live op i0 i1 → good i1 (after op live).
Proof.
  intros Hok Hg [->|Hc]; [by apply good_after|]. destruct Hg as [Hlo Hw Hf]. pose proof Hok as (Hfix & _). split.
  - by eapply leases_change.
  - eapply within_change; [exact Hok| |exact Hc|done|done]. by eapply change_fixed.
  - by eapply fits_change.
Qed.

Lemma good_disable i live : good i live → good (disable_writes i) live.
Proof. intros [[L1 L2 L3 L4 L5] Hw Hf]. split; [split; done|done|done]. Qed.

(** ** Operations *)

Definition moved (op : option Op) (d d' : Disk) : Prop := ∀ k, evolves op (heads d !! k) (heads d' !! k).
Lemma moved_refl op d : moved op d d.
Proof. intros k. apply evolves_refl. Qed.

Definition op_ok (live' : Leases) (op : Op) (d0 : Disk) {A} (r : World * result A (stop Error)) : Prop :=
  moved (Some op) d0 (disk r.1) ∧
  match r.2 with
  | Ok _ | Err (Failed _) => up_ok r.1 live'
  | Err Crashed => down_ok (disk r.1)
  | Err Panicked => False
  end.

Lemma reached_moved live op i0 i1 d0 d : backed play i0 d0 → reached cfg play live op i0 i1 → backed play i1 d → moved (Some op) d0 d.
Proof.
  intros [H0 _] Hr [H1 _] k. rewrite H0, H1. destruct Hr as [->|Hc]; [apply evolves_refl|by eapply change_evolves].
Qed.

Lemma sound_ok {A} live op w (m : prog World Error A) : up_ok w live →
  sound cfg play live op (index w) (disk w) m → op_ok (after op live) op (disk w) (m w).
Proof.
  intros [Hok Hg Hd Hb] Hm. specialize (Hm w (conj eq_refl eq_refl)).
  assert (Hpin : ∀ w', pin (index w) (disk w) (index w') (disk w') → moved (Some op) (disk w) (disk w') ∧ up_ok w' (after op live)).
  { intros w' [Hi Hdk]. split; [rewrite Hdk; apply moved_refl|]. split; rewrite ?Hi, ?Hdk; try done. by apply good_after. }
  unfold op_ok, ends in *. destruct (m w) as [w' [a|[e| |]]]; cbn in *; [..|done|].
  - destruct Hm as [Hp|(Hwf & i1 & Hr & Hi & Hbk)]; [by apply Hpin|]. pose proof (good_reached _ _ _ _ _ Hok Hg Hr) as Hg1.
    split; [by eapply reached_moved; eauto|]. split.
    + destruct Hi as [->| ->]; [apply Hbk|apply index_ok_disable, Hbk].
    + destruct Hi as [->| ->]; [done|by apply good_disable].
    + exists i1. by eapply good_left.
    + destruct Hi as [->| ->]; [by intros|done].
  - destruct Hm as [Hp|(Hwf & ia & ib & Hra & Hrb & Hf)]; [by apply Hpin|].
    pose proof (good_reached _ _ _ _ _ Hok Hg Hra) as Hga. pose proof (good_reached _ _ _ _ _ Hok Hg Hrb) as Hgb.
    destruct Hf as [(Hi & Hia & [Hbk|Hbk])|(Hi & Hbk)].
    + split; [exact (reached_moved _ _ _ _ _ _ (Hb Hwf) Hra Hbk)|]. split; rewrite ?Hi; [by apply index_ok_disable|by apply good_disable| |done].
      exists ia. by eapply good_left.
    + split; [exact (reached_moved _ _ _ _ _ _ (Hb Hwf) Hrb Hbk)|]. split; rewrite ?Hi; [by apply index_ok_disable|by apply good_disable| |done].
      exists ib. by eapply good_left.
    + split; [exact (reached_moved _ _ _ _ _ _ (Hb Hwf) Hrb Hbk)|]. split; rewrite ?Hi; [apply index_ok_disable, Hbk|by apply good_disable| |done].
      exists ib. by eapply good_left.
  - destruct Hm as [Hp|(Hwf & i1 & Hr & Hbk)]; [rewrite Hp; split; [apply moved_refl|done]|].
    split; [by eapply reached_moved; eauto|]. exists i1. eapply good_left; [by eapply good_reached|done].
Qed.
(** A limit that was given for an owner is within its quota. *)
Definition limits (op : Op) : Prop :=
  match op with
  | OReserve _ _ (Some o) limit => ∀ q, quota o = Some q → ∃ q', limit = Some q' ∧ q' ≤ q
  | _ => True
  end.
Definition well_formed (op : Op) : Prop := limits op ∧ ∀ rm h, names op rm h → play rm h.

Lemma reserve_ok live w rm h o limit : up_ok w live → allowed live (OReserve rm h o limit) → well_formed (OReserve rm h o limit) →
  let r := reserve cfg rm h o limit w in
  op_ok (next_live live (OReserve rm h o limit) r.2) (OReserve rm h o limit) (disk w) r.
Proof.
  intros [Hok Hg Hd Hb] (Hn & Hrm & Hs) [Hlim Hnames] r.
  pose proof (reserve_spec cfg rm h o limit (index w) (disk w) Hcfg w (conj eq_refl eq_refl)) as Hr. fold r in Hr.
  unfold op_ok, ends in *. destruct r as [w' [v|[e| |]]]; cbn in Hr |- *; [|..|done|done].
  - destruct v as [v|].
    2:{ destruct Hr as [Hi Hdk]. split; [rewrite Hdk; apply moved_refl|]. split; by rewrite ?Hi, ?Hdk. }
    destruct Hr as [Hgr [Hi Hdk]]. split; [rewrite Hdk; apply moved_refl|]. split; rewrite ?Hi, ?Hdk.
    + by apply index_ok_pending.
    + rewrite <-(gr_key _ _ _ _ _ _ _ Hgr) in Hn. destruct Hg as [Hlo Hw Hf]. split.
      * eapply lent_ok; try done. by apply Hnames.
      * eapply lent_within; try done. intros o' q -> Hq. split; [by eapply Hquota|by apply Hlim].
      * eapply lent_fits; try done. by apply Hnames.
    + done.
    + intros Hwf. destruct (Hb Hwf) as [Hh Hbk]. split; [done|by apply index_ok_pending].
  - destruct Hr as [Hi Hdk]. split; [rewrite Hdk; apply moved_refl|]. split; by rewrite ?Hi, ?Hdk.
Qed.

Lemma release_ok live w op k l : up_ok w live → live !! k = Some l → let r := quiet (release (l_reservation l)) w in
  op_ok (delete k live) op (disk w) r.
Proof.
  intros [Hok Hg Hd Hb] Hl r. destruct Hg as [Hlo Hw Hf]. destruct (release_enough play _ _ _ _ Hlo Hl) as [H1 H2].
  assert (Hr : hoare (on (pin (index w) (disk w))) (quiet (release (l_reservation l)))
    (λ _, on (pin (unlent (l_reservation l) (index w)) (disk w))) (λ _ _, False) (λ _, False)).
  { eapply hoare_bind; [by apply release_spec|]. intros []. by apply hoare_ret. }
  specialize (Hr w (conj eq_refl eq_refl)). fold r in Hr. unfold op_ok, ends in *.
  destruct r as [w' [v|[e| |]]]; cbn in Hr |- *; try done. destruct Hr as [Hi Hdk].
  split; [rewrite Hdk; apply moved_refl|]. split; rewrite ?Hi, ?Hdk.
  - by apply index_ok_pending.
  - split; [by eapply unlent_ok|by eapply unlent_within|by apply unlent_fits].
  - done.
  - intros Hwf. destruct (Hb Hwf) as [Hh Hbk]. split; [done|by apply index_ok_pending].
Qed.

Lemma index_nonneg w live : up_ok w live → 0 ≤ bytes (index w) ∧ 0 ≤ reserved (index w).
Proof.
  intros [Hok [Hlo _ _] _ _]. split.
  - pose proof Hok as (Hf & _). rewrite (fixed_bytes _ Hf). exact (usage_submseteq _ _ [] _ (submseteq_nil_l _) (index_fills _ _ _ Hok)).
  - rewrite (lo_reserved _ _ _ Hlo). apply sum_map_pos. intros k l Hl. apply (lo_nonneg _ _ _ Hlo k l Hl).
Qed.

(** Every operation, whatever the disk does. *)
Lemma exec_ok env live op w : up_ok w live → allowed live op → well_formed op → let r := exec cfg env live op w in
  op_ok (next_live live op r.2) op (disk w) r.
Proof.
  intros Hup Hal Hwf r. assert (Hsound : sound cfg play live op (index w) (disk w) (exec cfg env live op) →
    (∀ x, next_live live op x = after op live) → op_ok (next_live live op r.2) op (disk w) r).
  { intros Hs Hx. rewrite Hx. by apply sound_ok. }
  destruct (index_nonneg w live Hup) as [Hb0 Hr0]. pose proof Hup as [Hok Hg _ Hb].
  destruct op as [rm h o limit|k|rm h blob bs|rm h blob bs|rm d|rm|rm h d|rm h d x|rm d|rm h x b b'|rm h]; cbn [allowed] in Hal.
  - by apply reserve_ok.
  - destruct Hal as [l Hl]. unfold r, exec. rewrite Hl. by apply release_ok.
  - destruct Hal as (l & Hl & Hrm & Hh & Hu). apply Hsound; [|done]. apply sound_then.
    apply (sound_commit cfg play Hplay env live _ _ _ Hok Hb rm h blob bs l); try done. by apply (lo_lease _ _ _ (gd_leases _ _ Hg)).
  - apply Hsound; [|done]. apply sound_then. apply sound_import; try done. by apply Hwf.
  - apply Hsound; [|done]. apply sound_then. by apply sound_delete.
  - apply Hsound; [|done]. apply sound_then. by apply sound_retire.
  - apply Hsound; [|done]. apply sound_then. by apply sound_set_home.
  - apply Hsound; [|done]. apply sound_then. apply sound_learn; try done. by apply Hwf.
  - apply Hsound; [|done]. apply sound_then. by apply sound_mesh_delete.
  - apply Hsound; [|done]. apply sound_then. by apply sound_scrub.
  - apply Hsound; [|done]. apply sound_then. by apply sound_drop.
Qed.
(** ** Starts *)

Lemma lowered_moved op hs d d' : heads d = hs → lowered_map hs (heads d') → moved op d d'.
Proof.
  intros <- Hl k. specialize (Hl k). destruct (heads d !! k) as [r|], (heads d' !! k) as [r'|]; try done; [|constructor].
  destruct Hl as (b & b' & ->). apply ev_same; by destruct b, b'.
Qed.

Lemma usage_lowered sel mf hs : (∀ r b b', sel (drop_corrupt b b' r) = sel r) → ∀ hs', lowered_map hs hs' → Forall (fills mf) (gens hs) →
  usage sel mf hs' ≤ usage sel mf hs.
Proof.
  intros Hsel. induction hs as [|k r hs Hk IH] using map_ind; intros hs' Hl Hf.
  { replace hs' with (∅ : gmap string SlotRecord); [done|]. apply map_eq. intros k. specialize (Hl k). rewrite lookup_empty in Hl.
    rewrite lookup_empty. by destruct (hs' !! k). }
  pose proof (Hl k) as Hk'. rewrite lookup_insert_eq in Hk'. destruct (hs' !! k) as [r'|] eqn:Hr'; [|done]. destruct Hk' as (b & b' & ->).
  rewrite <-(insert_delete_id hs' k _ Hr'), !usage_insert, delete_delete_eq, (delete_id hs k Hk).
  rewrite (gens_insert_new hs k r Hk), Forall_app in Hf. destruct Hf as [Hf1 Hf2].
  assert (Hl' : lowered_map hs (delete k hs')).
  { intros k'. destruct (decide (k = k')) as [<-|Hne]; [by rewrite lookup_delete_eq, Hk|]. specialize (Hl k').
    rewrite lookup_insert_ne in Hl by done. by rewrite lookup_delete_ne. }
  specialize (IH _ Hl' Hf2). assert (Hslot : usage_of sel mf (slot_gens k (drop_corrupt b b' r)) ≤ usage_of sel mf (slot_gens k r)); [|lia].
  pose proof (drop_corrupt_held b b' r) as Hsub. etrans.
  - apply (slot_usage_record sel mf k (drop_corrupt b b' r) r); [by rewrite Hsel|].
    apply Forall_forall. intros x (h & -> & Hh)%list_elem_of_fmap. eapply elem_of_submseteq in Hh; [|exact Hsub].
    rewrite Forall_forall in Hf1. destruct (Hf1 (k, r, h)) as (m & len & Hc); [by apply list_elem_of_fmap_2|]. by exists m, len.
  - apply usage_submseteq; [by apply fmap_submseteq|done].
Qed.

(** The copies that stay, in an index with the same manifests. *)
Lemma within_lowered ib bl i : index_ok play ib bl → fixed i → lowered_map (records ib) (records i) →
  agree (gens (records i)) (manifests i) (manifests ib) → within cfg quota ib ∅ → within cfg quota i ∅.
Proof.
  intros Hok Hf Hl Ha [Hb Ho]. pose proof (index_fills _ _ _ Hok) as Hfill. pose proof Hok as (Hfb & _).
  assert (Hle : ∀ sel, (∀ r b b', sel (drop_corrupt b b' r) = sel r) →
    usage sel (manifests i) (records i) ≤ usage sel (manifests ib) (records ib)).
  { intros sel Hs. unfold usage at 1. rewrite (usage_agree sel _ _ _ Ha). by apply usage_lowered. }
  rewrite (fixed_bytes ib Hfb) in Hb. split; rewrite ?(fixed_bytes i Hf).
  - specialize (Hle (λ _, true) ltac:(done)). lia.
  - intros o q Hq. specialize (Ho o q Hq). rewrite (fixed_owner ib o Hfb) in Ho. rewrite (fixed_owner i o Hf).
    specialize (Hle (owned_by o) ltac:(intros r [] []; done)). lia.
Qed.

Lemma leases_none i : idle i → leases_ok play i ∅.
Proof.
  intros (_ & Hr & Ho & Hp). split; rewrite ?Hr, ?Ho, ?Hp, ?fmap_empty, ?sum_map_empty; try done.
Qed.

Definition start (env : nat → Input) (i : Index) (d : Disk) (n : nat) : World * result () (stop string) :=
  EscrowRepository.open env cfg {| index := i; disk := d; pos := n |}.

Lemma open_ok env i d n ib : left_by ib d → let r := start env i d n in
  moved None d (disk r.1) ∧
  match r.2 with
  | Ok _ => up_ok r.1 ∅ ∧ write_failed (index r.1) = false ∧ (¬ bad env cfg ib → records (index r.1) = heads d)
  | Err Panicked => False
  | Err _ => bad env cfg ib ∧ down_ok (disk r.1)
  end.
Proof.
  intros (Hbk & Hw & Hf) r. pose proof (hoare_open env cfg play Hplay ib {| index := i; disk := d; pos := n |} Hbk) as Hr.
  change (EscrowRepository.open env cfg _) with r in Hr. pose proof Hbk as [Hh Hok]. pose proof (index_fills _ _ _ Hok) as Hfill.
  assert (Hst : ∀ w, on (stranded env cfg play ib) w → moved None d (disk w) ∧ bad env cfg ib ∧ down_ok (disk w)).
  { intros w (Hb & hs & Hl & Hbs). pose proof Hbs as [Hhs Hoks]. unfold lower_index in Hhs. rewrite rebuild_records in Hhs. cbn in Hhs.
    split; [eapply lowered_moved; [exact Hh|by rewrite Hhs]|]. split; [done|]. exists (lower_index ib hs). split; [done|].
    assert (Hrec : records (lower_index ib hs) = hs) by (unfold lower_index; by rewrite rebuild_records). split.
    - eapply within_lowered; [exact Hok|apply fixed_rebuild|by rewrite Hrec| |done]. intros x Hx. rewrite Hrec in Hx.
      exact (rebuild_agree (set_records (λ _, hs) ib) x Hx).
    - rewrite Hrec. by eapply fits_lowered. }
  unfold ends in Hr. destruct r as [w' [[]|[e| |]]]; cbn in Hr |- *; [|by apply Hst|done|by apply Hst].
  destruct Hr as ((Hi & Hb') & Hidle & Hl & Hsame & Hcache). pose proof Hb' as [Hhd Hok'].
  split; [eapply lowered_moved; [exact Hh|by rewrite Hhd]|]. split; [|split; [apply Hidle|intros Hn; by rewrite Hsame, Hh]].
  assert (Hg : good (index w') ∅).
  { split; [by apply leases_none| |].
    - eapply within_lowered; [exact Hok|apply Hok'|done|done|done].
    - destruct Hidle as (_ & _ & _ & ->). by eapply fits_lowered. }
  split; [done|done| |done]. exists (index w'). by eapply good_left.
Qed.

Lemma empty_ok : down_ok empty_disk.
Proof.
  exists empty_index. destruct (config_bounds cfg Hcfg) as (_ & Hm & Hslots).
  split; [split; [done|split; [done|split; [done|]]]; intros x Hx; by apply elem_of_nil in Hx|]. split; [split|].
  - rewrite sum_map_empty. cbn. lia.
  - intros o q Hq. cbn [empty_index owner_bytes]. rewrite sum_map_empty, lookup_empty. destruct (Hquota o q Hq). cbn [default]. lia.
  - split; [|intros rm]; unfold count, keys_in; cbn [empty_index records]; rewrite !map_filter_empty, !dom_empty_L, (left_id_L ∅ (∪)), size_empty;
      unfold MAX_RECORDS; lia.
Qed.
(** ** Histories *)

Lemma history_step s op s' : state_ok s → step cfg s op s' → (∀ o, op = Some o → well_formed o) →
  state_ok s' ∧ moved op (disk_of s) (disk_of s').
Proof.
  intros Hs Hstep Hwf. destruct Hstep as [env w live op w' r Hal Hx Hne|env w live op w' Hal Hx|w live|env i n d w' Hx|env i n d w' e Hx].
  - pose proof (exec_ok env live op w Hs Hal (Hwf op eq_refl)) as [Hm Hr]. rewrite Hx in *. cbn in *. split; [|done].
    by destruct r as [a|[e| |]].
  - pose proof (exec_ok env live op w Hs Hal (Hwf op eq_refl)) as [Hm Hr]. by rewrite Hx in *.
  - split; [apply Hs|apply moved_refl].
  - destruct Hs as [ib Hs]. pose proof (open_ok env i d n ib Hs) as [Hm Hr]. unfold start in *. rewrite Hx in *. cbn in *. by split; [apply Hr|].
  - destruct Hs as [ib Hs]. pose proof (open_ok env i d n ib Hs) as [Hm Hr]. unfold start in *. rewrite Hx in *. cbn in *. split; [|done].
    destruct e as [e| |]; [by destruct Hr|done|by destruct Hr].
Qed.

Lemma reachable_ok l s : reachable cfg l s → (∀ op, op ∈ l → well_formed op) → state_ok s.
Proof.
  induction 1 as [|l s op s' Hr IH Hstep]; intros Hl; [apply empty_ok|].
  apply (history_step s op s'); [|done|].
  - apply IH. intros o Ho. apply Hl, elem_of_app. by left.
  - intros o ->. apply Hl, elem_of_app. right. apply list_elem_of_here.
Qed.
(** ** Reads after a start *)

Lemma healthy_bytes env w k r h : ¬ sick env → index_ok play (index w) (blobs (disk w)) → records (index w) !! k = Some r → h ∈ held_heads r →
  ∃ w' blob bytes_ m, generation_bytes env (room r) h w = (w', Ok (Some (blob, bytes_))) ∧ validate_generation h blob bytes_ = Ok m ∧
    cached (manifests (index w)) (k, r, h) = Some (m, slen bytes_).
Proof.
  intros Hs Hok Hk Hh. pose proof Hok as (_ & Hrs & Hst). destruct (held_head_play play k r h (Hrs _ _ Hk) Hh) as [_ Hkey].
  destruct (Hst (k, r, h)) as (m & len & Hc & Hg); [by apply elem_of_gens|]. cbn [fst snd] in Hg.
  pose proof Hg as (b & s & Hfb & Hfs & Hv & ->)%gen_files.
  assert (Hread : ∀ file max data, file_of (disk w) (generation k h) file = Some data → slen data ≤ max → ∀ p,
    read_bounded env (generation k h) file max {| index := index w; disk := disk w; pos := p |} =
      ({| index := index w; disk := disk w; pos := S p |}, Ok data)).
  { intros file max data Hf Hle p. unfold read_bounded, bind. rewrite (healthy_read env _ Hs). cbn. rewrite Hf.
    by replace (max <? slen data) with false by (symmetry; by apply Z.ltb_ge). }
  pose proof (validate_generation_sizes _ _ _ _ Hv) as (Hsz & _ & Hmx).
  eexists _, b, s, m. split; [|done]. unfold generation_bytes, bind at 1, get_state. rewrite <-Hkey, Hk.
  apply held_heads_cases in Hh as [Hd Hor]. rewrite Hd. cbn [is_some orb].
  replace (_ && held r || _) with true.
  2:{ destruct Hor as [[<- ->]|[Hp ->]]; [by rewrite bool_decide_true|]. rewrite (bool_decide_true (previous r = Some h)) by done. by rewrite orb_true_r. }
  cbn [negb]. unfold bind at 1, read_generation. rewrite <-Hkey. cbv zeta. unfold or_fail, bind, attempted, lift, ret.
  assert (Hw : w = {| index := index w; disk := disk w; pos := pos w |}) by (by destruct w). rewrite Hw at 1.
  rewrite (Hread BlobBin (blob_size h) b Hfb) by lia. rewrite (Hread ManifestBin MAX_MANIFEST s Hfs) by done. rewrite Hv. reflexivity.
Qed.
End history.
