(* ===== verification/EscrowRuns.v ===== *)
(** * Runs of the escrow repository

    The theorems on [EscrowHistory] about any history of operations, failures,
    crashes and restarts, and a concrete history they are applied to. *)
From S2P Require Import Prelude Effects Text Json Wire EscrowProtocol EscrowMesh EscrowRepository EscrowIndex EscrowDurable EscrowReopen EscrowSlots EscrowBudget EscrowHistory.

Section runs.
Context {C : Crypto} {E : EscrowEnv} {R : RepoEnv} (cfg : EscrowConfig).

(** ** What the copies take *)

(** The bytes of the copy of a head on disk, with its manifest. *)
Definition copy_size (d : Disk) (x : gen) : Z :=
  let dir := generation x.1.1 x.2 in
  match file_of d dir BlobBin, file_of d dir ManifestBin with Some b, Some m => slen b + slen m | _, _ => 0 end.
Definition held_bytes (sel : SlotRecord → bool) (d : Disk) (rs : gmap string SlotRecord) : Z :=
  foldr (λ x acc, (if sel x.1.2 then copy_size d x else 0) + acc) 0 (gens rs).

Lemma held_bytes_usage play sel i d : index_ok play i (blobs d) → held_bytes sel d (records i) = usage sel (manifests i) (records i).
Proof.
  intros (_ & _ & Hst). unfold held_bytes, usage, usage_of. induction (gens (records i)) as [|x l IH]; [done|]. cbn [foldr].
  rewrite IH by (intros y Hy; apply Hst; by apply list_elem_of_further). f_equal. destruct (sel x.1.2); [|done].
  destruct (Hst x) as (m & len & Hc & Hg); [apply list_elem_of_here|]. unfold cost, copy_size. rewrite Hc.
  apply gen_files in Hg as (b & s & -> & -> & Hv & ->). apply validate_generation_sizes in Hv as [-> _]. done.
Qed.

Lemma room_records_count rs rm : zlen (List.filter (λ x, bool_decide (room x = rm)) (map_to_list rs).*2) = count (in_room rm) rs ∅.
Proof.
  unfold count, keys_in. rewrite map_filter_empty, dom_empty_L, (right_id_L ∅ (∪)), filter_count. unfold zlen, in_room. f_equal.
  generalize ((map_to_list rs).*2). induction l as [|x l IH]; [done|]. cbn [map List.filter]. case_bool_decide; cbn [length]; [by f_equal|done].
Qed.

(** ** Theorems *)

Lemma names_in_play l op : op ∈ l → ∀ rm h, names op rm h → in_play l rm h.
Proof. intros Hop rm h Hn. by exists op. Qed.

Lemma well_formed_all quota l : (∀ op, op ∈ l → limits quota op) → ∀ op, op ∈ l → well_formed quota (in_play l) op.
Proof. intros Hl op Hop. split; [by apply Hl|by apply names_in_play]. Qed.

Lemma no_limits op : limits (λ _, None) op.
Proof. by destruct op as [? ? [o|] ?| | | | | | | | | |]. Qed.

(** Every copy the records list is read whole, and passes the checks it passed
    when it came; the block of its manifest and of each of its chunks is served. *)
Definition serves (env : nat → Input) (w : World) : Prop := ∀ k r h, records (index w) !! k = Some r → h ∈ held_heads r →
  ∃ w' blob bytes_ m, generation_bytes env (room r) h w = (w', Ok (Some (blob, bytes_))) ∧
    validate_generation h blob bytes_ = Ok m ∧
    ∀ c, c = cid h ∨ c ∈ m_chunks m → ∃ w' data codec, block env (room r) c w = (w', Ok (Some data)) ∧ verify_cid c data codec = true.

(** C19: whatever operations ran, with calls that failed and crashes anywhere
    in between, a start on a disk that answers succeeds: the records are those
    of the state files, and every copy they list is complete, passes the checks
    it passed when it came, and serves the block of its manifest and of each of
    its chunks. *)
Theorem repository_survives l s env n i :
  reachable cfg l s → distinct (in_play l) → validate_config cfg = Ok tt → 0 < CHUNK_SIZE →
  (∀ k r, heads (disk_of s) !! k = Some r → record_len r ≤ MAX_STATE_FILE) → ¬ sick env →
  ∃ w, EscrowRepository.open env cfg {| index := i; disk := disk_of s; pos := n |} = (w, Ok tt) ∧
    records (index w) = heads (disk_of s) ∧
    serves env w.
Proof.
  intros Hr Hd Hcfg HC Hlen Hs. set (quota := λ _ : string, None : option Z).
  assert (Hquota : ∀ o q, quota o = Some q → 0 ≤ q < U64_MAX) by done.
  pose proof (reachable_ok cfg quota (in_play l) Hd Hcfg HC Hquota l s Hr (well_formed_all quota l (λ op _, no_limits op))) as Hok.
  assert (Hdown : down_ok cfg quota (in_play l) (disk_of s)) by (destruct s; [apply Hok|exact Hok]). destruct Hdown as [ib Hleft].
  pose proof (open_ok cfg quota (in_play l) Hd env i (disk_of s) n ib Hleft) as [_ Ho]. unfold start in Ho.
  assert (Hfit : ¬ bad env cfg ib).
  { destruct Hleft as ((Hh & _) & _ & Hf). intros [?|Hn]; [done|]. apply Hn. split; [done|]. split; [by eapply fits_zsize|].
    intros k r. rewrite <-Hh. apply Hlen. }
  destruct (EscrowRepository.open env cfg _) as [w [[]|[e| |]]]; cbn in Ho; try done; try (by destruct Ho).
  destruct Ho as (Hup & _ & Hrec). exists w. split; [done|]. split; [by apply Hrec|]. intros k r h Hk Hh.
  destruct Hup as [Hi _ _ _]. destruct (healthy_bytes (in_play l) env w k r h Hs Hi Hk Hh) as (w' & b & bs & m & Hg & Hv & Hc).
  exists w', b, bs, m. split; [done|]. split; [done|]. intros c Hin.
  destruct (block_served env (in_play l) w (k, r, h) m (slen bs) c HC Hs Hi) as (data & codec & Hb & Hvc); [by apply elem_of_gens|done|done|].
  by exists {| index := index w; disk := disk w; pos := S (pos w) |}, data, codec.
Qed.

(** C30: while it runs, the copies on disk with the space promised to pulls
    stay within the total, those of an owner within any quota its reservations
    were given as a limit, the slots within their numbers; what is reserved is
    the sum of the live reservations, and no operation panics. *)
Theorem quota_kept quota l w live :
  reachable cfg l (Up w live) → distinct (in_play l) → validate_config cfg = Ok tt → 0 < CHUNK_SIZE →
  (∀ o q, quota o = Some q → 0 ≤ q < U64_MAX) → (∀ op, op ∈ l → limits quota op) →
  held_bytes (λ _, true) (disk w) (records (index w)) + sum_map unused_amount live ≤ max_total_bytes cfg ∧
  (∀ o q, quota o = Some q → held_bytes (owned_by o) (disk w) (records (index w)) + sum_map (unused_owner o) live ≤ q) ∧
  zsize (records (index w)) ≤ MAX_RECORDS ∧ (∀ rm, zlen (room_records (index w) rm) ≤ max_slots_per_room cfg) ∧
  bytes (index w) = held_bytes (λ _, true) (disk w) (records (index w)) ∧
  reserved (index w) = sum_map (λ l, rv_amount (l_reservation l)) live ∧
  ∀ env op, allowed live op → distinct (in_play (l ++ [op])) → limits quota op → (exec cfg env live op w).2 ≠ Err Panicked.
Proof.
  intros Hr Hd Hcfg HC Hquota Hlim.
  pose proof (reachable_ok cfg quota (in_play l) Hd Hcfg HC Hquota l _ Hr (well_formed_all quota l Hlim)) as Hok.
  destruct Hok as [Hi [Hlo [Hb Ho] Hf] _ _]. pose proof Hi as (Hfix & _).
  rewrite !(held_bytes_usage (in_play l) _ _ _ Hi), <-(fixed_bytes _ Hfix). split; [done|]. split.
  { intros o q Hq. specialize (Ho o q Hq). by rewrite (held_bytes_usage (in_play l) _ _ _ Hi), <-(fixed_owner _ o Hfix). }
  pose proof (fits_records cfg _ _ Hf) as Hrec. split; [by eapply fits_zsize|]. split.
  { intros rm. unfold room_records. rewrite room_records_count. apply Hrec. }
  split; [done|]. split; [apply Hlo|]. intros env op Hal Hd' Hl'.
  assert (Hlim' : ∀ o, o ∈ l ++ [op] → limits quota o) by (intros o [Hin| ->%list_elem_of_singleton]%elem_of_app; [by apply Hlim|done]).
  pose proof (well_formed_all quota (l ++ [op]) Hlim') as Hwf.
  assert (Hup : state_ok cfg quota (in_play (l ++ [op])) (Up w live)).
  { apply (reachable_ok cfg quota (in_play (l ++ [op])) Hd' Hcfg HC Hquota l); [done|]. intros o Ho'. apply Hwf, elem_of_app. by left. }
  pose proof (exec_ok cfg quota (in_play (l ++ [op])) Hd' Hcfg HC Hquota env live op w Hup Hal) as Hx. cbv zeta in Hx.
  destruct Hx as [_ Hx]; [apply Hwf, elem_of_app; right; apply list_elem_of_here|]. by destruct (exec cfg env live op w) as [? [?|[?| |]]].
Qed.

Definition ops_of (op : option Op) : list Op := match op with Some op => [op] | None => [] end.

(** C34: no step of any history, a failure or a crash within a call included,
    moves a slot back: its state file keeps its head, or takes one of the same
    writer with a higher sequence number (over a tombstone, the next number only as
    its successor), or a tombstone its writer signed for its head; it goes only with a
    deletion its writer signed for its head, or with its room. *)
Theorem slots_move_forward l s op s' :
  reachable cfg l s → step cfg s op s' → let l' := l ++ ops_of op in
  distinct (in_play l') → validate_config cfg = Ok tt → 0 < CHUNK_SIZE →
  ∀ k, evolves op (heads (disk_of s) !! k) (heads (disk_of s') !! k).
Proof.
  intros Hr Hstep l' Hd Hcfg HC. set (quota := λ _ : string, None : option Z).
  assert (Hquota : ∀ o q, quota o = Some q → 0 ≤ q < U64_MAX) by done.
  assert (Hwf : ∀ o, o ∈ l' → well_formed quota (in_play l') o) by (apply well_formed_all; intros; apply no_limits).
  assert (Hok : state_ok cfg quota (in_play l') s).
  { apply (reachable_ok cfg quota (in_play l') Hd Hcfg HC Hquota l); [done|]. intros o Ho. apply Hwf, elem_of_app. by left. }
  destruct (history_step cfg quota (in_play l') Hd Hcfg HC Hquota s op s' Hok Hstep) as [_ Hm]; [|done].
  intros o ->. apply Hwf, elem_of_app. right. apply list_elem_of_here.
Qed.
(** *** Deciding that the heads of a run are apart *)

Definition plays (l : list Op) : list (string * Head) :=
  l ≫= λ op, match op with
             | OReserve rm h _ _ | OCommit rm h _ _ | OImport rm h _ _ | OLearn rm h _ _ => [(rm, h)]
             | _ => []
             end.
Definition apart (x y : string * Head) : bool :=
  let kx := key x.1 (slot x.2) in let ky := key y.1 (slot y.2) in
  (negb (bool_decide (kx = ky)) || bool_decide (x.1 = y.1) && bool_decide (slot x.2 = slot y.2)) &&
  (negb (bool_decide (generation kx x.2 = generation ky y.2)) || bool_decide (kx = ky) && bool_decide (x.2 = y.2)).
Definition all_apart (l : list Op) : bool := forallb (λ x, forallb (apart x) (plays l)) (plays l).

Lemma all_apart_distinct l : all_apart l = true → distinct (in_play l).
Proof.
  intros Hl. assert (Hin : ∀ rm h, in_play l rm h → (rm, h) ∈ plays l).
  { intros rm h (op & Hop & Hn). apply list_elem_of_bind. exists op. split; [|done].
    destruct op; cbn in Hn; try done; destruct Hn as [-> ->]; apply list_elem_of_here. }
  assert (Ha : ∀ r h r' h', in_play l r h → in_play l r' h' → apart (r, h) (r', h') = true).
  { intros r h r' h' H1%Hin H2%Hin. unfold all_apart in Hl. rewrite forallb_elem in Hl. specialize (Hl _ H1). rewrite forallb_elem in Hl. by apply Hl. }
  split; intros r h r' h' H1 H2 Heq; specialize (Ha _ _ _ _ H1 H2); unfold apart in Ha; cbn [fst snd] in Ha.
  - rewrite (bool_decide_true (key _ _ = _)) in Ha by done. apply andb_true_iff in Ha as [Ha _]. cbn [negb orb] in Ha. by bools.
  - rewrite (bool_decide_true (generation _ _ = _)) in Ha by done. apply andb_true_iff in Ha as [_ Ha]. cbn [negb orb] in Ha. by bools.
Qed.

End runs.

(** ** A concrete history

    A checksum in place of the hash, a CID that is the digest of its bytes, and
    a manifest that is the size of its blob followed by the CIDs of its chunks. *)
Module RunToy.
Import Toy EscrowToy.

Fixpoint weave (acc : Z) (s : string) : Z :=
  match s with
  | EmptyString => acc
  | String c s => weave ((acc * 263 + Z.of_N (Ascii.N_of_ascii c) + 1) mod (2 ^ 64 - 59)) s
  end.
Fixpoint octets (n : nat) (z : Z) : string :=
  match n with O => EmptyString | S n => String (Ascii.ascii_of_N (Z.to_N (z mod 256))) (octets n (z / 256)) end.

#[global] Instance checksum : Crypto := {|
  sha256 s := octets 32 (weave 7 s); bs58_decode := @bs58_decode crypto; b64url_encode := @b64url_encode crypto;
  b64url_decode := @b64url_decode crypto; key_from_bytes := @key_from_bytes crypto;
  signature_try_from := @signature_try_from crypto; ed_verify := @ed_verify crypto; ed_sign := @ed_sign crypto;
  ed_public := @ed_public crypto; json_quote := @json_quote crypto; float_display := @float_display crypto;
|}.

Definition cid_of (s : string) : string := string_take 8 (digest (C := checksum) s).
#[global] Instance repo_env : RepoEnv := {|
  CHUNK_SIZE := 8;
  verify_cid c s _ := bool_decide (c = cid_of s);
  decode_manifest s := match s with
    | EmptyString => None
    | String c s => Some ("tc-escrow.bin", Z.of_N (Ascii.N_of_ascii c), None,
        Some <$> map (λ n, string_take 8 (string_drop (8 * n)%nat s)) (List.seq 0 (String.length s / 8)%nat))
    end;
  record_len _ := 1024;
|}.

Definition manifest_of (blob : string) : string :=
  String (Ascii.ascii_of_N (Z.to_N (slen blob))) (foldr (λ c acc, cid_of c +:+ acc) EmptyString (blob_chunks (R := repo_env) blob)).

(** A head over [blob], signed by [writer_key]. *)
Definition head_of (slot_ : string) (n : Z) (before : option string) (blob : string) : Head :=
  let h sig := {| version := 1; kind := "tc-escrow-head"; slot := slot_; seq := n; parent := before; cid := cid_of (manifest_of blob);
    blob_size := slen blob; sha256_hex := digest (C := checksum) blob; comp := "none"; schema := "schema";
    writer := b64url_encode writer_key; at_ := 1; sig := sig |} in
  h (b64url_encode (Toy.signature writer_key (head_signing_payload (C := checksum) (h EmptyString)))).

Definition slot1 : string := "00000000000000000000000000000001".
Definition blob1 : string := "the first blob".
Definition blob2 : string := "another one of nineteen".
Definition head1 : Head := head_of slot1 1 None blob1.
Definition head2 : Head := head_of slot1 2 (Some (hash (C := checksum) head1)) blob2.

Definition config : EscrowConfig := {|
  enabled := true; cfg_rooms := ["room"]; cfg_replication := []; max_blob_bytes := 1000; max_total_bytes := 100000; max_slots_per_room := 4;
  auto_replicas := 1; dead_after_secs := 60 |}.
Definition healthy : nat → Input := λ _, {| alive := true; io_ok := true; took := true |}.
(** The process dies in the call number [n], which took effect. *)
Definition dying (n : nat) : nat → Input := λ m, {| alive := negb (Nat.eqb m n); io_ok := true; took := true |}.

Lemma healthy_not_sick : ¬ sick healthy.
Proof. by intros (n & Hn); apply Hn. Qed.

Definition go (s : World * Leases) (op : Op) : World * Leases :=
  let r := exec config healthy s.2 op s.1 in (r.1, next_live s.2 op r.2).
Definition w0 : World := (EscrowRepository.open healthy config {| index := empty_index; disk := empty_disk; pos := 0 |}).1.
Definition k1 : string := key (C := checksum) "room" slot1.
Definition ops : list Op :=
  [OReserve "room" head1 (Some "owner") (Some 90000); OCommit "room" head1 blob1 (manifest_of blob1); ORelease k1;
   OReserve "room" head2 (Some "owner") (Some 90000)].
Definition before : World * Leases := foldl go (w0, ∅) ops.
Definition commit2 : Op := OCommit "room" head2 blob2 (manifest_of blob2).

Lemma reach_go l s op : reachable config l (Up s.1 s.2) → allowed s.2 op →
  is_ok (exec config healthy s.2 op s.1).2 = true → reachable config (l ++ [op]) (Up (go s op).1 (go s op).2).
Proof.
  intros Hr Hal Hx. apply (reach_step config l (Up s.1 s.2) (Some op) _ Hr). unfold go.
  destruct (exec config healthy s.2 op s.1) as [w r] eqn:He. cbn in *. apply (step_exec config healthy); [done|done|by destruct r].
Qed.

Lemma start_reachable : reachable config [] (Up w0 ∅).
Proof.
  apply (reach_step config [] (Down empty_disk) None _ (reach_empty config)). apply (step_open config healthy empty_index 0).
  assert (Hok : is_ok (EscrowRepository.open healthy config {| index := empty_index; disk := empty_disk; pos := 0 |}).2 = true) by (vm_compute; reflexivity).
  unfold w0. destruct (EscrowRepository.open _ _ _) as [w [[]|e]]; [done|done].
Qed.

Lemma before_reachable : reachable config ops (Up before.1 before.2).
Proof.
  pose proof (reach_go [] (w0, ∅) (OReserve "room" head1 (Some "owner") (Some 90000)) start_reachable) as H1.
  specialize (H1 ltac:(vm_compute; done) ltac:(vm_compute; reflexivity)). 
  pose proof (reach_go _ _ (OCommit "room" head1 blob1 (manifest_of blob1)) H1) as H2. clear H1.
  specialize (H2 ltac:(vm_compute; eexists; done) ltac:(vm_compute; reflexivity)).
  pose proof (reach_go _ _ (ORelease k1) H2) as H3. clear H2.
  specialize (H3 ltac:(vm_compute; eexists; done) ltac:(vm_compute; reflexivity)).
  pose proof (reach_go _ _ (OReserve "room" head2 (Some "owner") (Some 90000)) H3) as H4. clear H3.
  exact (H4 ltac:(vm_compute; done) ltac:(vm_compute; reflexivity)).
Qed.

(** The process dies when the state file of [head2] is in place. *)
Definition crashed : World := (exec config (dying 16) before.2 commit2 before.1).1.

Lemma step_dying (s : World * Leases) n op : allowed s.2 op → (exec config (dying n) s.2 op s.1).2 = Err Crashed →
  step config (Up s.1 s.2) (Some op) (Down (disk (exec config (dying n) s.2 op s.1).1)).
Proof.
  intros Hal Hc. destruct (exec config (dying n) s.2 op s.1) as [w r] eqn:He. cbn in *. subst r. by apply (step_crash config (dying n)).
Qed.

Lemma crash_step : step config (Up before.1 before.2) (Some commit2) (Down (disk crashed)).
Proof. apply (step_dying before 16 commit2); [vm_compute; by eexists|vm_compute; reflexivity]. Qed.
Lemma crash_reachable : reachable config (ops ++ [commit2]) (Down (disk crashed)).
Proof. exact (reach_step config ops _ (Some commit2) _ before_reachable crash_step). Qed.

Lemma runs_apart : distinct (in_play (ops ++ [commit2])).
Proof. apply all_apart_distinct. vm_compute. reflexivity. Qed.
(** A read that fails once at a start, where the slot has a home in the mesh:
    the intact copy is given up, and the cleanup deletes it. *)
Definition shared : World :=
  (exec config healthy ∅ (OSetHome "room" head1 (did alice)) (foldl go (w0, ∅) (take 3 ops)).1).1.
Definition flaky : nat → Input := λ m, {| alive := true; io_ok := negb (Nat.eqb m 6); took := true |}.
Example read_error_drops_copy : let again env := (EscrowRepository.open env config {| index := empty_index; disk := disk shared; pos := 0 |}) in
  (held <$> records (index (again healthy).1) !! k1, size (blobs (disk (again healthy).1))) = (Some true, 1%nat) ∧
  (again flaky).2 = Ok tt ∧ held <$> heads (disk (again flaky).1) !! k1 = Some false ∧ blobs (disk (again flaky).1) = ∅.
Proof. vm_compute. split_and!; reflexivity. Qed.
End RunToy.

(** *** The theorems at this history *)
Import RunToy.

Lemma repository_survives_witness :
  current <$> heads (disk crashed) !! k1 = Some head2 ∧ validate_generation head2 blob2 (manifest_of blob2) ≠ Err (error "hash_mismatch") ∧
  ∃ w, EscrowRepository.open healthy config {| index := empty_index; disk := disk_of (Down (disk crashed)); pos := 0 |} = (w, Ok tt) ∧
    records (index w) = heads (disk_of (Down (disk crashed))) ∧
    serves healthy w.
Proof.
  split; [vm_compute; reflexivity|]. split; [by vm_compute|].
  apply (repository_survives config (ops ++ [commit2])).
  - exact crash_reachable.
  - exact runs_apart.
  - vm_compute. reflexivity.
  - by vm_compute.
  - intros k r _. by vm_compute.
  - exact healthy_not_sick.
Defined.

Definition owner_quota (o : string) : option Z := if bool_decide (o = "owner") then Some 90000 else None.

Lemma quota_kept_witness : let i := index before.1 in
  bytes i = 31 ∧ reserved i = 1431 ∧
  held_bytes (λ _, true) (disk before.1) (records i) + sum_map unused_amount before.2 ≤ max_total_bytes config ∧
  (∀ o q, owner_quota o = Some q → held_bytes (owned_by o) (disk before.1) (records i) + sum_map (unused_owner o) before.2 ≤ q) ∧
  zsize (records i) ≤ MAX_RECORDS ∧ (∀ rm, zlen (room_records i rm) ≤ max_slots_per_room config) ∧
  bytes i = held_bytes (λ _, true) (disk before.1) (records i) ∧
  reserved i = sum_map (λ l, rv_amount (l_reservation l)) before.2 ∧
  ∀ env op, allowed before.2 op → distinct (in_play (ops ++ [op])) → limits owner_quota op → (exec config env before.2 op before.1).2 ≠ Err Panicked.
Proof.
  intros i. split; [vm_compute; reflexivity|]. split; [vm_compute; reflexivity|].
  apply (quota_kept config owner_quota ops before.1 before.2).
  - exact before_reachable.
  - apply all_apart_distinct. vm_compute. reflexivity.
  - vm_compute. reflexivity.
  - by vm_compute.
  - intros o q. unfold owner_quota. case_bool_decide; [|done]. intros [= <-]. by vm_compute.
  - intros op Hop. assert (Hq : ∀ q, owner_quota "owner" = Some q → ∃ q', Some 90000 = Some q' ∧ q' ≤ q).
    { intros q [= <-]. by exists 90000. }
    repeat (apply elem_of_cons in Hop as [->|Hop]; [first [exact Hq|exact I]|]). by apply elem_of_nil in Hop.
Defined.

Lemma slots_move_forward_witness :
  current <$> heads (disk before.1) !! k1 = Some head1 ∧ current <$> heads (disk crashed) !! k1 = Some head2 ∧
  ∀ k, evolves (Some commit2) (heads (disk_of (Up before.1 before.2)) !! k) (heads (disk_of (Down (disk crashed))) !! k).
Proof.
  split; [vm_compute; reflexivity|]. split; [vm_compute; reflexivity|].
  apply (slots_move_forward config ops (Up before.1 before.2) (Some commit2)).
  - exact before_reachable.
  - exact crash_step.
  - exact runs_apart.
  - vm_compute. reflexivity.
  - by vm_compute.
Defined.
