(* ===== verification/NostrEvent.v ===== *)
(** * Nostr events and filters

    [src/src/nostr/event.rs] (the event model, strict parsing, ids and
    signatures) and [src/src/nostr/filter.rs] (subscription filters). *)
From S2P Require Import Prelude Json Wire.

(** Library code: [hex::decode_to_slice] into a buffer of the given length, the
    BIP-340 operations of [k256], and [serde_json::to_string]. *)
Class NostrEnv := {
  hex_decode_to : Z → string → option string;
  schnorr_key : string → bool;
  schnorr_signature : string → bool;
  schnorr_verify_raw : string → string → string → bool;
  json_to_string : json → string;
}.

Record Event := {
  ev_id : string; pubkey : string; created_at : Z; ev_kind : Z;
  tags : list (list string); content : string; ev_sig : string;
}.

#[global] Instance Event_eq_dec : EqDecision Event.
Proof. solve_decision. Defined.

Inductive KindClass := Regular | Replaceable | Ephemeral | Addressable.
#[global] Instance KindClass_eq_dec : EqDecision KindClass.
Proof. solve_decision. Defined.

Inductive EventError := Shape (message : string) | BadId | BadSignature.

Definition is_lower_hex (value : string) (len : Z) : bool :=
  (slen value =? len) && string_forallb is_lower_hexdigit value.

Definition string_field (value : json) (name : string) : result string EventError :=
  ok_or (get_str name value) (Shape (name +:+ " must be a string")).

Definition hex_field (value : json) (name : string) (len : Z) : result string EventError :=
  let? field := string_field value name in
  if negb (is_lower_hex field len)
  then Err (Shape (name +:+ " must be " +:+ pretty len +:+ " lowercase hex characters"))
  else Ok field.

Definition is_object (v : json) : bool := is_some (as_object v).

Definition parse_tag (tag : json) : result (list string) EventError :=
  let? parts := ok_or (as_array tag) (Shape "tags must be arrays of strings") in
  try_map (λ part, ok_or (as_str part) (Shape "tag values must be strings")) parts.

Definition get_array (k : string) (v : json) : option (list json) :=
  match get k v with Some v => as_array v | None => None end.

(** [Option::filter] *)
Definition option_filter {A} (p : A → bool) (o : option A) : option A :=
  match o with Some a => if p a then Some a else None | None => None end.

Definition parse_event (value : json) : result Event EventError :=
  if negb (is_object value) then Err (Shape "event must be an object") else
  let? id := hex_field value "id" 64 in
  let? pubkey := hex_field value "pubkey" 64 in
  let? sig := hex_field value "sig" 128 in
  let? created_at := ok_or (get_u64 "created_at" value)
                       (Shape "created_at must be a non-negative integer") in
  let? kind := ok_or (option_filter (λ kind, kind <=? 65535) (get_u64 "kind" value))
                 (Shape "kind must be an integer from 0 to 65535") in
  let? tags := rbind (ok_or (get_array "tags" value) (Shape "tags must be an array of string arrays"))
                 (try_map parse_tag) in
  let? content := string_field value "content" in
  Ok {| ev_id := id; pubkey := pubkey; created_at := created_at; ev_kind := kind;
        tags := tags; content := content; ev_sig := sig |}.

Definition kind_class (ev : Event) : KindClass :=
  let k := ev_kind ev in
  if (k =? 0) || (k =? 3) || ((10000 <=? k) && (k <? 20000)) then Replaceable
  else if (20000 <=? k) && (k <? 30000) then Ephemeral
  else if (30000 <=? k) && (k <? 40000) then Addressable
  else Regular.

Definition tag_named (name : string) (tag : list string) : bool :=
  is_some_and (λ n, bool_decide (n = name)) (hd_error tag).

Definition d_tag (ev : Event) : string :=
  match List.find (tag_named "d") (tags ev) with
  | Some tag => default EmptyString (tag !! 1%nat)
  | None => EmptyString
  end.

Definition tag_values (ev : Event) (name : string) : list string :=
  omap (λ tag, if tag_named name tag then tag !! 1%nat else None) (tags ev).

Definition expiration (ev : Event) : option Z :=
  match List.find (tag_named "expiration") (tags ev) with
  | Some tag => match tag !! 1%nat with Some value => parse_uint U64_MAX value | None => None end
  | None => None
  end.

Section verify.
Context {C : Crypto} {N : NostrEnv}.

Definition canonical_json (ev : Event) : string :=
  json_to_string (JArray [JNumber (PosInt 0); JString (pubkey ev); JNumber (PosInt (created_at ev));
    JNumber (PosInt (ev_kind ev)); JArray (map (λ t, JArray (map JString t)) (tags ev));
    JString (content ev)]).

Definition compute_id (ev : Event) : string := hex_encode (sha256 (canonical_json ev)).

Definition verify_schnorr (pubkey_hex msg32 sig_hex : string) : bool :=
  match hex_decode_to 32 pubkey_hex, hex_decode_to 64 sig_hex with
  | Some pubkey_bytes, Some sig_bytes =>
      if negb (schnorr_key pubkey_bytes) || negb (schnorr_signature sig_bytes) then false
      else schnorr_verify_raw pubkey_bytes msg32 sig_bytes
  | _, _ => false
  end.

Definition verify_event (ev : Event) : result () EventError :=
  if negb (bool_decide (compute_id ev = ev_id ev)) then Err BadId else
  match hex_decode_to 32 (ev_id ev) with
  | Some id => if verify_schnorr (pubkey ev) id (ev_sig ev) then Ok tt else Err BadSignature
  | None => Err BadSignature
  end.
End verify.

(** ** Filters *)

Definition MAX_FILTER_VALUES : Z := 1000.
Definition MAX_TAG_VALUE_BYTES : Z := 1024.

(** [tags] is keyed by the single letter; the map is ordered by it. *)
Record Filter := {
  ids : option (list string); authors : option (list string); kinds : option (list Z);
  f_tags : gmap ascii (list string);
  f_since : option Z; f_until : option Z; f_limit : option Z;
}.

Definition default_filter : Filter := {|
  ids := None; authors := None; kinds := None; f_tags := ∅;
  f_since := None; f_until := None; f_limit := None |}.

Definition value_list (value : json) (name : string) : result (list json) string :=
  let? values := ok_or (as_array value) (name +:+ " must be an array") in
  if MAX_FILTER_VALUES <? zlen values then Err (name +:+ " has too many values") else Ok values.

Definition hex_list (value : json) (name : string) : result (list string) string :=
  let? l := value_list value name in
  try_map (λ item, ok_or (option_filter (λ t, is_lower_hex t 64) (as_str item))
                     (name +:+ " must contain 64-character lowercase hex strings")) l.

Definition tag_list (value : json) (name : string) : result (list string) string :=
  let? l := value_list value name in
  try_map (λ item, ok_or (option_filter (λ t, slen t <=? MAX_TAG_VALUE_BYTES) (as_str item))
                     (name +:+ " must contain strings of at most 1024 bytes")) l.

Definition kind_list (value : json) (name : string) : result (list Z) string :=
  let? l := value_list value name in
  try_map (λ item, ok_or (option_filter (λ kind, kind <=? 65535) (as_u64 item))
                     "kinds must contain integers from 0 to 65535") l.

Definition non_negative_integer (value : json) (name : string) : result Z string :=
  ok_or (as_u64 value) (name +:+ " must be a non-negative integer").

Definition set_ids v f := {| ids := v; authors := authors f; kinds := kinds f; f_tags := f_tags f;
  f_since := f_since f; f_until := f_until f; f_limit := f_limit f |}.
Definition set_authors v f := {| ids := ids f; authors := v; kinds := kinds f; f_tags := f_tags f;
  f_since := f_since f; f_until := f_until f; f_limit := f_limit f |}.
Definition set_kinds v f := {| ids := ids f; authors := authors f; kinds := v; f_tags := f_tags f;
  f_since := f_since f; f_until := f_until f; f_limit := f_limit f |}.
Definition set_tags v f := {| ids := ids f; authors := authors f; kinds := kinds f; f_tags := v;
  f_since := f_since f; f_until := f_until f; f_limit := f_limit f |}.
Definition set_since v f := {| ids := ids f; authors := authors f; kinds := kinds f; f_tags := f_tags f;
  f_since := v; f_until := f_until f; f_limit := f_limit f |}.
Definition set_until v f := {| ids := ids f; authors := authors f; kinds := kinds f; f_tags := f_tags f;
  f_since := f_since f; f_until := v; f_limit := f_limit f |}.
Definition set_limit v f := {| ids := ids f; authors := authors f; kinds := kinds f; f_tags := f_tags f;
  f_since := f_since f; f_until := f_until f; f_limit := v |}.

(** The letter of a [#x] key. *)
Definition tag_key (name : string) : option ascii :=
  match name with
  | String h (String c EmptyString) =>
      if bool_decide (h = "#"%char) && is_ascii_alphabetic c then Some c else None
  | _ => None
  end.

(** One field of the loop of [parse]; on a 64-bit target [usize::try_from]
    accepts every [limit]. *)
Definition parse_field (f : Filter) (name : string) (value : json) : result Filter string :=
  if bool_decide (name = "ids") then let? l := hex_list value name in Ok (set_ids (Some l) f)
  else if bool_decide (name = "authors") then let? l := hex_list value name in Ok (set_authors (Some l) f)
  else if bool_decide (name = "kinds") then let? l := kind_list value name in Ok (set_kinds (Some l) f)
  else if bool_decide (name = "since") then let? n := non_negative_integer value name in Ok (set_since (Some n) f)
  else if bool_decide (name = "until") then let? n := non_negative_integer value name in Ok (set_until (Some n) f)
  else if bool_decide (name = "limit") then let? n := non_negative_integer value name in Ok (set_limit (Some n) f)
  else match tag_key name with
       | Some letter => let? l := tag_list value name in Ok (set_tags (<[letter := l]> (f_tags f)) f)
       | None => Ok f
       end.

Fixpoint parse_fields (f : Filter) (l : list (string * json)) : result Filter string :=
  match l with
  | [] => Ok f
  | (name, value) :: l => let? f := parse_field f name value in parse_fields f l
  end.

Definition parse_filter (value : json) : result Filter string :=
  let? object := ok_or (as_object value) "filter must be an object" in
  parse_fields default_filter object.

Definition tag_matches (ev : Event) (p : ascii * list string) : bool :=
  existsb (λ tag_value, contains p.2 tag_value) (tag_values ev (String p.1 EmptyString)).

Definition matches (f : Filter) (ev : Event) : bool :=
  is_none_or (λ l, contains l (ev_id ev)) (ids f)
  && is_none_or (λ l, contains l (pubkey ev)) (authors f)
  && is_none_or (λ l, contains l (ev_kind ev)) (kinds f)
  && is_none_or (λ since, since <=? created_at ev) (f_since f)
  && is_none_or (λ until, created_at ev <=? until) (f_until f)
  && forallb (tag_matches ev) (map_to_list (f_tags f)).

(** [filter_json] of [mesh.rs] and [upstream.rs]. *)
Definition jstrings (l : list string) : json := JArray (map JString l).
Definition jnum (n : Z) : json := JNumber (PosInt n).

Definition opt_field (name : string) (v : option json) : list (string * json) :=
  match v with Some v => [(name, v)] | None => [] end.

Definition tag_field (p : ascii * list string) : string * json :=
  (String "#"%char (String p.1 EmptyString), jstrings p.2).

(** The assignments [value[key] = field], in the order of the source. *)
Definition filter_fields (f : Filter) : list (string * json) :=
  opt_field "ids" (jstrings <$> ids f) ++ opt_field "authors" (jstrings <$> authors f)
  ++ opt_field "kinds" ((λ l, JArray (map jnum l)) <$> kinds f)
  ++ opt_field "since" (jnum <$> f_since f) ++ opt_field "until" (jnum <$> f_until f)
  ++ opt_field "limit" (jnum <$> f_limit f)
  ++ map tag_field (map_to_list (f_tags f)).

Definition filter_json (f : Filter) : json :=
  JObject (foldl (λ o p, obj_insert p.1 p.2 o) [] (filter_fields f)).

(** [Serialize] of an event. *)
Definition event_json (ev : Event) : json :=
  JObject [("id", JString (ev_id ev)); ("pubkey", JString (pubkey ev));
           ("created_at", jnum (created_at ev)); ("kind", jnum (ev_kind ev));
           ("tags", JArray (map jstrings (tags ev))); ("content", JString (content ev));
           ("sig", JString (ev_sig ev))].

(** ** Theorems: events *)

Definition event_wf (ev : Event) : Prop :=
  is_lower_hex (ev_id ev) 64 = true ∧ is_lower_hex (pubkey ev) 64 = true ∧
  is_lower_hex (ev_sig ev) 128 = true ∧ ev_kind ev ≤ 65535.

Lemma try_map_map {A B E} (g : B → A) (f : A → result B E) l :
  (∀ x, x ∈ l → f (g x) = Ok x) → try_map f (map g l) = Ok l.
Proof.
  intros H. apply try_map_Ok. apply Forall2_fmap_l, Forall2_same_length_lookup. split; [done|].
  intros i x y Hx Hy. simplify_eq. by eapply H, list_elem_of_lookup_2.
Qed.

Lemma option_filter_Some {A} (p : A → bool) o a :
  option_filter p o = Some a ↔ o = Some a ∧ p a = true.
Proof. destruct o as [b|]; simpl; [|naive_solver]. destruct (p b) eqn:E; naive_solver congruence. Qed.

Lemma hex_field_Ok v name len s : hex_field v name len = Ok s → is_lower_hex s len = true.
Proof. unfold hex_field. intros (x & _ & H)%rbind_Ok. cases_in H. done. Qed.

Lemma hex_field_value v name len s :
  get_str name v = Some s → is_lower_hex s len = true → hex_field v name len = Ok s.
Proof. intros Hs Hl. unfold hex_field, string_field. rewrite Hs. simpl. by rewrite Hl. Qed.

(** A parsed event has lowercase hex of the right widths and a kind that
    fits 16 bits, and every such event is read back unchanged from its own
    JSON: nothing the relay stores or forwards is refused by another relay
    for its shape. *)
Theorem event_parse_roundtrip :
  (∀ v ev, parse_event v = Ok ev → event_wf ev) ∧
  (∀ ev, event_wf ev → parse_event (event_json ev) = Ok ev).
Proof.
  split.
  - intros v ev H. unfold parse_event in H. destruct (is_object v); [|done]. simpl in H.
    apply rbind_Ok in H as (id & Hid & (pk & Hpk & (sg & Hsg & (ca & _ & (k & Hk & H)%rbind_Ok)%rbind_Ok)%rbind_Ok)%rbind_Ok).
    apply rbind_Ok in H as (tg & _ & (ct & _ & [= <-])%rbind_Ok). apply ok_or_Ok, option_filter_Some in Hk as [_ Hk].
    bools. split_and!; simpl; eauto using hex_field_Ok.
  - intros ev (Hid & Hpk & Hsg & Hk). unfold parse_event. cbn [is_object as_object is_some event_json negb].
    rewrite (hex_field_value _ "id" 64 (ev_id ev)), (hex_field_value _ "pubkey" 64 (pubkey ev)) by done.
    rewrite (hex_field_value _ "sig" 128 (ev_sig ev)) by done. cbn [rbind].
    change (get_u64 "created_at" _) with (Some (created_at ev)).
    change (get_u64 "kind" _) with (Some (ev_kind ev)).
    change (get_array "tags" _) with (Some (map jstrings (tags ev))).
    change (string_field _ "content") with (@Ok string EventError (content ev)).
    cbn [ok_or rbind option_filter]. rewrite (proj2 (Z.leb_le _ _) Hk). cbn [ok_or rbind].
    rewrite try_map_map; [by destruct ev|]. intros l _. unfold parse_tag; cbn [jstrings as_array ok_or rbind].
    by apply try_map_map.
Qed.

(** ** Theorems: filters *)

Definition filter_wf (f : Filter) : Prop :=
  (∀ l, ids f = Some l → zlen l ≤ MAX_FILTER_VALUES ∧ ∀ s, s ∈ l → is_lower_hex s 64 = true) ∧
  (∀ l, authors f = Some l → zlen l ≤ MAX_FILTER_VALUES ∧ ∀ s, s ∈ l → is_lower_hex s 64 = true) ∧
  (∀ l, kinds f = Some l → zlen l ≤ MAX_FILTER_VALUES ∧ ∀ k, k ∈ l → k ≤ 65535) ∧
  (∀ c l, f_tags f !! c = Some l → is_ascii_alphabetic c = true ∧ zlen l ≤ MAX_FILTER_VALUES ∧
     ∀ s, s ∈ l → slen s ≤ MAX_TAG_VALUE_BYTES).

Lemma value_list_Ok v name l : value_list v name = Ok l ↔ v = JArray l ∧ zlen l ≤ MAX_FILTER_VALUES.
Proof.
  unfold value_list. rewrite rbind_Ok. split.
  - intros (x & Hx & H). apply ok_or_Ok in Hx. destruct v; simplify_eq/=. cases_in H. by bools.
  - intros [-> Hl]. exists l. split; [done|]. by rewrite (proj2 (Z.ltb_ge _ _) Hl).
Qed.

Lemma hex_list_spec v name l :
  hex_list v name = Ok l → zlen l ≤ MAX_FILTER_VALUES ∧ ∀ s, s ∈ l → is_lower_hex s 64 = true.
Proof.
  intros (x & [-> Hx]%value_list_Ok & H)%rbind_Ok. apply try_map_Ok in H.
  pose proof (Forall2_length _ _ _ H) as Hlen. split; [unfold zlen in *; lia|].
  intros s (i & Hi)%list_elem_of_lookup. destruct (Forall2_lookup_r _ _ _ _ _ H Hi) as (y & _ & Hy).
  apply ok_or_Ok, option_filter_Some in Hy as [_ ?]. done.
Qed.

Lemma tag_list_spec v name l :
  tag_list v name = Ok l → zlen l ≤ MAX_FILTER_VALUES ∧ ∀ s, s ∈ l → slen s ≤ MAX_TAG_VALUE_BYTES.
Proof.
  intros (x & [-> Hx]%value_list_Ok & H)%rbind_Ok. apply try_map_Ok in H.
  pose proof (Forall2_length _ _ _ H) as Hlen. split; [unfold zlen in *; lia|].
  intros s (i & Hi)%list_elem_of_lookup. destruct (Forall2_lookup_r _ _ _ _ _ H Hi) as (y & _ & Hy).
  apply ok_or_Ok, option_filter_Some in Hy as [_ ?]. by bools.
Qed.

Lemma kind_list_spec v name l :
  kind_list v name = Ok l → zlen l ≤ MAX_FILTER_VALUES ∧ ∀ k, k ∈ l → k ≤ 65535.
Proof.
  intros (x & [-> Hx]%value_list_Ok & H)%rbind_Ok. apply try_map_Ok in H.
  pose proof (Forall2_length _ _ _ H) as Hlen. split; [unfold zlen in *; lia|].
  intros s (i & Hi)%list_elem_of_lookup. destruct (Forall2_lookup_r _ _ _ _ _ H Hi) as (y & _ & Hy).
  apply ok_or_Ok, option_filter_Some in Hy as [_ ?]. by bools.
Qed.

Lemma hex_list_json name l :
  zlen l ≤ MAX_FILTER_VALUES → (∀ s, s ∈ l → is_lower_hex s 64 = true) → hex_list (jstrings l) name = Ok l.
Proof.
  intros Hl Hs. unfold hex_list. rewrite (proj2 (value_list_Ok _ _ (map JString l))).
  - apply try_map_map. intros s Hin. simpl. by rewrite Hs.
  - split; [done|]. unfold zlen in *. by rewrite length_map.
Qed.

Lemma tag_list_json name l :
  zlen l ≤ MAX_FILTER_VALUES → (∀ s, s ∈ l → slen s ≤ MAX_TAG_VALUE_BYTES) → tag_list (jstrings l) name = Ok l.
Proof.
  intros Hl Hs. unfold tag_list. rewrite (proj2 (value_list_Ok _ _ (map JString l))).
  - apply try_map_map. intros s Hin. cbn [as_str option_filter]. by rewrite (proj2 (Z.leb_le _ _) (Hs s Hin)).
  - split; [done|]. unfold zlen in *. by rewrite length_map.
Qed.

Lemma kind_list_json name l :
  zlen l ≤ MAX_FILTER_VALUES → (∀ k, k ∈ l → k ≤ 65535) → kind_list (JArray (map jnum l)) name = Ok l.
Proof.
  intros Hl Hs. unfold kind_list. rewrite (proj2 (value_list_Ok _ _ (map jnum l))).
  - apply try_map_map. intros k Hin. cbn [as_u64 jnum option_filter]. by rewrite (proj2 (Z.leb_le _ _) (Hs k Hin)).
  - split; [done|]. unfold zlen in *. by rewrite length_map.
Qed.

Lemma tag_key_Some name c :
  tag_key name = Some c ↔ name = String "#"%char (String c EmptyString) ∧ is_ascii_alphabetic c = true.
Proof.
  split.
  - unfold tag_key. destruct name as [|h [|c' [|]]]; try done. case_bool_decide; [|done].
    simpl. destruct (is_ascii_alphabetic c') eqn:Ha; [|done]. intros [= ->]. by subst.
  - intros [-> Ha]. simpl. by rewrite Ha.
Qed.

Lemma parse_field_wf f name v f' : filter_wf f → parse_field f name v = Ok f' → filter_wf f'.
Proof.
  intros (Hi & Ha & Hk & Ht) H. unfold parse_field in H.
  repeat (case_bool_decide; [apply rbind_Ok in H as (l & Hl & [= <-]); split_and!; simpl; try done;
    intros ? [= <-]; eauto using hex_list_spec, kind_list_spec|]).
  destruct (tag_key name) as [c|] eqn:Hc; [|by simplify_eq].
  apply rbind_Ok in H as (l & Hl & [= <-]). split_and!; simpl; try done.
  intros c' l' [[<- <-]|[_ H']]%lookup_insert_Some; [|by eapply Ht].
  split; [by apply tag_key_Some in Hc as [_ ?]|by eapply tag_list_spec].
Qed.

Lemma parse_fields_wf f l f' : filter_wf f → parse_fields f l = Ok f' → filter_wf f'.
Proof.
  revert f. induction l as [|[k v] l IH]; intros f Hwf; simpl; [by intros [= <-]|].
  intros (f1 & H1 & H)%rbind_Ok. eapply IH, H. by eapply parse_field_wf.
Qed.

(** What a field does to the filter, apart from the filter itself. *)
Inductive update :=
| UIds (l : list string) | UAuthors (l : list string) | UKinds (l : list Z)
| USince (n : Z) | UUntil (n : Z) | ULimit (n : Z) | UTag (c : ascii) (l : list string) | USkip.

Definition apply_update (u : update) (f : Filter) : Filter :=
  match u with
  | UIds l => set_ids (Some l) f | UAuthors l => set_authors (Some l) f
  | UKinds l => set_kinds (Some l) f | USince n => set_since (Some n) f
  | UUntil n => set_until (Some n) f | ULimit n => set_limit (Some n) f
  | UTag c l => set_tags (<[c := l]> (f_tags f)) f | USkip => f
  end.

(** The key an update comes from. *)
Definition target (u : update) : option string :=
  match u with
  | UIds _ => Some "ids" | UAuthors _ => Some "authors" | UKinds _ => Some "kinds"
  | USince _ => Some "since" | UUntil _ => Some "until" | ULimit _ => Some "limit"
  | UTag c _ => Some (String "#"%char (String c EmptyString)) | USkip => None
  end.

Lemma parse_field_update name v f f1 :
  parse_field f name v = Ok f1 →
  ∃ u, (∀ t, target u = Some t → t = name) ∧ ∀ f, parse_field f name v = Ok (apply_update u f).
Proof.
  unfold parse_field. intros H.
  repeat (case_bool_decide; [apply rbind_Ok in H as (l & Hl & _);
    first [by exists (UIds l); split; [intros ? [= <-]|intros; rewrite Hl]
          |by exists (UAuthors l); split; [intros ? [= <-]|intros; rewrite Hl]
          |by exists (UKinds l); split; [intros ? [= <-]|intros; rewrite Hl]
          |by exists (USince l); split; [intros ? [= <-]|intros; rewrite Hl]
          |by exists (UUntil l); split; [intros ? [= <-]|intros; rewrite Hl]
          |by exists (ULimit l); split; [intros ? [= <-]|intros; rewrite Hl]]|]).
  destruct (tag_key name) as [c|] eqn:Hc; [|by exists USkip].
  apply rbind_Ok in H as (l & Hl & _). apply tag_key_Some in Hc as [-> _].
  exists (UTag c l). split; [by intros ? [= <-]|]. intros f'. by rewrite Hl.
Qed.

Lemma update_comm u1 u2 f :
  (∀ t, target u1 = Some t → target u2 ≠ Some t) →
  apply_update u1 (apply_update u2 f) = apply_update u2 (apply_update u1 f).
Proof.
  intros Hne. destruct u1, u2; simpl in *; try done; try (by destruct (Hne _ eq_refl)).
  unfold set_tags; simpl. f_equal. apply insert_insert_ne. intros ->. by destruct (Hne _ eq_refl).
Qed.

(** Distinct fields that parse may come in any order. *)
Lemma parse_fields_perm l l' f f1 :
  l ≡ₚ l' → NoDup l.*1 → parse_fields f l = Ok f1 → parse_fields f l' = Ok f1.
Proof.
  intros Hp. revert f. induction Hp as [|[k v] l l' _ IH|[k1 v1] [k2 v2] l|l1 l2 l3 H1 IH1 _ IH2];
    intros f Hnd; simpl.
  - done.
  - apply NoDup_cons in Hnd as [_ Hnd]. intros (f' & -> & H)%rbind_Ok. simpl. by apply IH.
  - intros (f' & Hf' & (f2 & Hf2 & H)%rbind_Ok)%rbind_Ok.
    assert (k2 ≠ k1) as Hne by (intros ->; simpl in Hnd; apply NoDup_cons in Hnd as [Hin _]; apply Hin; left).
    destruct (parse_field_update _ _ _ _ Hf') as (u2 & Ht2 & Hu2).
    destruct (parse_field_update _ _ _ _ Hf2) as (u1 & Ht1 & Hu1).
    rewrite Hu2 in Hf'. rewrite Hu1 in Hf2. simplify_eq.
    rewrite Hu1. simpl. rewrite Hu2. simpl. rewrite update_comm; [done|].
    intros t Ht Ht'. apply Ht1 in Ht'. apply Ht2 in Ht. congruence.
  - intros H. apply IH2; [|by apply IH1]. by rewrite <-H1.
Qed.

Lemma obj_insert_perm k v l : assoc k l = None → obj_insert k v l ≡ₚ (k, v) :: l.
Proof.
  induction l as [|[k' v'] l IH]; simpl; [done|]. case_bool_decide; [done|]. intros Hl.
  case_bool_decide; [done|]. rewrite IH by done. apply Permutation_swap.
Qed.

Lemma assoc_None {A} k (l : list (string * A)) : k ∉ l.*1 → assoc k l = None.
Proof.
  induction l as [|[k' v] l IH]; simpl; [done|]. intros H. rewrite bool_decide_false by set_solver.
  apply IH. set_solver.
Qed.

(** Assigning distinct keys to an object yields those fields. *)
Lemma obj_of_fields l o :
  NoDup (l.*1 ++ o.*1) → foldl (λ o p, obj_insert p.1 p.2 o) o l ≡ₚ l ++ o.
Proof.
  revert o. induction l as [|[k v] l IH]; intros o Hnd; simpl; [done|].
  simpl in Hnd. apply NoDup_cons in Hnd as [Hk Hnd].
  assert (obj_insert k v o ≡ₚ (k, v) :: o) as Hp by (apply obj_insert_perm, assoc_None; set_solver).
  rewrite IH, Hp; [by rewrite Permutation_middle|]. rewrite Hp. simpl.
  rewrite <-Permutation_middle. by constructor.
Qed.

Lemma parse_fields_app f l1 l2 :
  parse_fields f (l1 ++ l2) = let? f1 := parse_fields f l1 in parse_fields f1 l2.
Proof.
  revert f. induction l1 as [|[k v] l1 IH]; intros f; simpl; [done|].
  destruct (parse_field f k v); simpl; [apply IH|done].
Qed.

Lemma parse_opt f name (o : option json) (g : option Filter) :
  (match o with Some v => ∃ f', g = Some f' ∧ parse_field f name v = Ok f' | None => g = None end) →
  parse_fields f (opt_field name o) = Ok (default f g).
Proof. destruct o; simpl; [intros (f' & -> & ->); done|by intros ->]. Qed.

Lemma parse_tag_field f c l :
  is_ascii_alphabetic c = true → zlen l ≤ MAX_FILTER_VALUES → (∀ s, s ∈ l → slen s ≤ MAX_TAG_VALUE_BYTES) →
  parse_field f (tag_field (c, l)).1 (tag_field (c, l)).2 = Ok (set_tags (<[c := l]> (f_tags f)) f).
Proof.
  intros Hc Hl Hs. unfold parse_field, tag_field. cbn [fst snd].
  repeat (rewrite bool_decide_false by done). rewrite (proj2 (tag_key_Some _ c)) by done.
  by rewrite tag_list_json.
Qed.

Lemma parse_tag_fields f (l : list (ascii * list string)) :
  NoDup l.*1 →
  (∀ p, p ∈ l → is_ascii_alphabetic p.1 = true ∧ zlen p.2 ≤ MAX_FILTER_VALUES ∧
     ∀ s, s ∈ p.2 → slen s ≤ MAX_TAG_VALUE_BYTES) →
  parse_fields f (map tag_field l) = Ok (set_tags (list_to_map l ∪ f_tags f) f).
Proof.
  revert f. induction l as [|[c x] l IH]; intros f Hnd Hall; simpl.
  { rewrite (left_id_L ∅ (∪)). by destruct f. }
  apply NoDup_cons in Hnd as [Hc Hnd]. destruct (Hall (c, x)) as (Ha & Hl & Hs); [left|].
  pose proof (parse_tag_field f c x Ha Hl Hs) as Hpf. simpl in Hpf. rewrite Hpf. simpl.
  rewrite IH; [|done|intros p Hp; apply Hall; by right]. f_equal. unfold set_tags; simpl. f_equal.
  rewrite <-insert_union_l. symmetry. apply insert_union_r. by apply not_elem_of_list_to_map_1.
Qed.

Lemma filter_fields_nodup f : filter_wf f → NoDup (filter_fields f).*1.
Proof.
  intros (_ & _ & _ & Ht). unfold filter_fields. rewrite !fmap_app.
  assert (NoDup (map tag_field (map_to_list (f_tags f))).*1 ∧
    ∀ k, k ∈ (map tag_field (map_to_list (f_tags f))).*1 → ∃ c, k = String "#"%char (String c EmptyString))
    as [Hnd Hk].
  { split.
    - replace (map tag_field (map_to_list (f_tags f))).*1
        with ((λ c, String "#"%char (String c EmptyString)) <$> (map_to_list (f_tags f)).*1).
      + apply NoDup_fmap_2; [intros a b [= ->]; done|apply NoDup_fst_map_to_list].
      + induction (map_to_list (f_tags f)) as [|[c l] m IH]; simpl; [done|]. f_equal. exact IH.
    - intros k ([k' v] & -> & ([c l] & Heq & _)%list_elem_of_fmap)%list_elem_of_fmap. exists c.
      by injection Heq as -> ->. }
  revert Hnd Hk. generalize (map tag_field (map_to_list (f_tags f))).*1 as ts. intros ts Hnd Hk.
  destruct (ids f), (authors f), (kinds f), (f_since f), (f_until f), (f_limit f); simpl;
    repeat (apply NoDup_cons; split; [|]); try done;
    intros Hin; repeat (apply elem_of_cons in Hin as [Hin|Hin]; [done|]);
    by destruct (Hk _ Hin).
Qed.

Lemma parse_filter_fields f : filter_wf f → parse_fields default_filter (filter_fields f) = Ok f.
Proof.
  intros (Hi & Ha & Hk & Ht). unfold filter_fields.
  rewrite parse_fields_app, (parse_opt _ "ids" _ ((λ l, set_ids (Some l) default_filter) <$> ids f)); cbn [rbind].
  2:{ simpl. destruct (ids f) as [l|]; simpl; [|done]. eexists. split; [done|].
      destruct (Hi l eq_refl). unfold parse_field. by rewrite bool_decide_true, hex_list_json. }
  set (f1 := default _ _). rewrite parse_fields_app, (parse_opt _ "authors" _ ((λ l, set_authors (Some l) f1) <$> authors f)); cbn [rbind].
  2:{ simpl. destruct (authors f) as [l|]; simpl; [|done]. eexists. split; [done|].
      destruct (Ha l eq_refl). unfold parse_field.
      rewrite bool_decide_false, bool_decide_true by done. by rewrite hex_list_json. }
  set (f2 := default _ _). rewrite parse_fields_app, (parse_opt _ "kinds" _ ((λ l, set_kinds (Some l) f2) <$> kinds f)); cbn [rbind].
  2:{ simpl. destruct (kinds f) as [l|]; simpl; [|done]. eexists. split; [done|].
      destruct (Hk l eq_refl). unfold parse_field.
      rewrite !bool_decide_false, bool_decide_true by done. by rewrite kind_list_json. }
  set (f3 := default _ _). rewrite parse_fields_app, (parse_opt _ "since" _ ((λ n, set_since (Some n) f3) <$> f_since f)); cbn [rbind].
  2:{ simpl. destruct (f_since f); simpl; [|done]. by eexists. }
  set (f4 := default _ _). rewrite parse_fields_app, (parse_opt _ "until" _ ((λ n, set_until (Some n) f4) <$> f_until f)); cbn [rbind].
  2:{ simpl. destruct (f_until f); simpl; [|done]. by eexists. }
  set (f5 := default _ _). rewrite parse_fields_app, (parse_opt _ "limit" _ ((λ n, set_limit (Some n) f5) <$> f_limit f)); cbn [rbind].
  2:{ simpl. destruct (f_limit f); simpl; [|done]. by eexists. }
  set (f6 := default _ _). rewrite parse_tag_fields; [|apply NoDup_fst_map_to_list|].
  - rewrite list_to_map_to_list. subst f1 f2 f3 f4 f5 f6. destruct f as [[] [] [] m [] [] []]; simpl;
      unfold set_tags; simpl; by rewrite (right_id_L ∅ (∪)).
  - intros [c l] Hin%elem_of_map_to_list. by apply Ht.
Qed.

Lemma parse_filter_wf v f : parse_filter v = Ok f → filter_wf f.
Proof. intros (o & _ & H)%rbind_Ok. eapply parse_fields_wf, H. by split_and!. Qed.

Lemma parse_filter_json f : filter_wf f → parse_filter (filter_json f) = Ok f.
Proof.
  intros Hwf. unfold parse_filter, filter_json. cbn [as_object ok_or rbind].
  pose proof (filter_fields_nodup f Hwf) as Hnd.
  eapply parse_fields_perm; [|exact Hnd|by apply parse_filter_fields].
  rewrite obj_of_fields; [by rewrite app_nil_r|]. simpl. by rewrite app_nil_r.
Qed.

(** A parsed filter is within the relay's bounds (at most 1000 values a
    list, hex ids and authors, 16-bit kinds, tag values of at most 1024
    bytes), and every filter within them is read back unchanged from the JSON
    the mesh and the upstream gateway send, whatever the order of its keys. *)
Theorem filter_roundtrip :
  (∀ v f, parse_filter v = Ok f → filter_wf f) ∧
  (∀ f, filter_wf f → parse_filter (filter_json f) = Ok f).
Proof. split; [apply parse_filter_wf|apply parse_filter_json]. Qed.
