(* ===== verification/NostrInterest.v ===== *)
(** * Merged interest

    [src/src/nostr/interest.rs]: which client filters the gateway mirrors and
    how they are merged into the few filters it subscribes with. *)
From S2P Require Import Prelude Json Wire NostrEvent.

Definition MAX_FILTERS : Z := 8.
Definition MAX_TAG_VALUES : Z := MAX_FILTER_VALUES.

Definition is_nil {A} (l : list A) : bool := match l with [] => true | _ => false end.

Definition mirrored (f : Filter) (mirror_kinds : list Z) : bool :=
  negb (is_some (ids f))
  && is_some_and (λ k, negb (is_nil k) && forallb (contains mirror_kinds) k) (kinds f).

(** Kinds, authors and letters, each in ascending order. *)
Notation GroupKey := (list Z * option (list string) * list ascii)%type.

Definition letter_le (a b : ascii) : Prop := (N_of_ascii a ≤ N_of_ascii b)%N.
#[global] Instance letter_le_dec : RelDecision letter_le.
Proof. intros a b. unfold letter_le. apply _. Defined.

(** [Vec::dedup]: drops an element equal to the one before it. *)
Fixpoint dedup {A} `{EqDecision A} (l : list A) : list A :=
  match l with
  | x :: ((y :: _) as l) => if bool_decide (x = y) then dedup l else x :: dedup l
  | l => l
  end.

Definition group_key (f : Filter) : GroupKey :=
  (dedup (merge_sort Z.le (default [] (kinds f))),
   (λ a, dedup (sort_strings a)) <$> authors f,
   merge_sort letter_le (map_to_list (f_tags f)).*1).

(** The derived [Ord] of the key. *)
Fixpoint lex {A} (cmp : A → A → comparison) (l k : list A) : comparison :=
  match l, k with
  | [], [] => Eq
  | [], _ => Lt
  | _, [] => Gt
  | x :: l, y :: k => match cmp x y with Eq => lex cmp l k | c => c end
  end.

Definition option_cmp {A} (cmp : A → A → comparison) (a b : option A) : comparison :=
  match a, b with
  | None, None => Eq | None, _ => Lt | _, None => Gt | Some a, Some b => cmp a b
  end.

Definition key_cmp (a b : GroupKey) : comparison :=
  match lex Z.compare a.1.1 b.1.1 with
  | Eq => match option_cmp (lex String.compare) a.1.2 b.1.2 with
          | Eq => lex (λ x y, N.compare (N_of_ascii x) (N_of_ascii y)) a.2 b.2
          | c => c
          end
  | c => c
  end.

Notation Group := (gmap ascii (gset string)).
Notation Groups := (gmap GroupKey Group).

Definition entry_le (a b : GroupKey * Group) : Prop := key_cmp a.1 b.1 ≠ Gt.
#[global] Instance entry_le_dec : RelDecision entry_le.
Proof. intros a b. unfold entry_le. destruct (key_cmp a.1 b.1); [left|left|right]; congruence. Defined.

(** The loop over one letter's values: nothing is added beyond the cap. *)
Definition add_values (s : gset string) (values : list string) : gset string :=
  foldl (λ s v, if Z.of_nat (size s) <? MAX_TAG_VALUES then {[v]} ∪ s else s) s values.

Definition add_tags (g : Group) (f : Filter) : Group :=
  map_fold (λ letter values g, <[letter := add_values (default ∅ (g !! letter)) values]> g) g (f_tags f).

Definition add_filter (groups : Groups) (f : Filter) : Groups :=
  <[group_key f := add_tags (default ∅ (groups !! group_key f)) f]> groups.

Definition group_filters (fs : list Filter) : Groups := foldl add_filter ∅ fs.

Definition filter_of (p : GroupKey * Group) : Filter := {|
  ids := None; authors := p.1.1.2; kinds := Some p.1.1.1;
  f_tags := (λ s : gset string, sort_strings (elements s)) <$> p.2;
  f_since := None; f_until := None; f_limit := None |}.

Definition merge (fs : list Filter) : list Filter :=
  map filter_of (take (Z.to_nat MAX_FILTERS) (merge_sort entry_le (map_to_list (group_filters fs)))).

(** ** The groups *)

Definition values_of (f : Filter) (key : GroupKey) (c : ascii) : gset string :=
  if bool_decide (group_key f = key) then list_to_set (default [] (f_tags f !! c)) else ∅.

(** Every value the filters of a group ask for under a letter. *)
Definition all_values (fs : list Filter) (key : GroupKey) (c : ascii) : gset string :=
  ⋃ map (λ f, values_of f key c) fs.

Lemma all_values_snoc fs f key c :
  all_values (fs ++ [f]) key c = all_values fs key c ∪ values_of f key c.
Proof.
  unfold all_values. rewrite map_app, union_list_app_L. simpl. by rewrite (right_id_L ∅ (∪)).
Qed.

Lemma elem_of_all_values fs key c v :
  v ∈ all_values fs key c ↔ ∃ f, f ∈ fs ∧ v ∈ values_of f key c.
Proof.
  unfold all_values. rewrite elem_of_union_list. split.
  - intros (X & (f & -> & Hf)%list_elem_of_fmap & Hv). by exists f.
  - intros (f & Hf & Hv). exists (values_of f key c). split; [|done].
    apply list_elem_of_fmap. by exists f.
Qed.

Lemma add_values_spec s values :
  s ⊆ add_values s values ∧ add_values s values ⊆ s ∪ list_to_set values ∧
  Z.of_nat (size (add_values s values)) ≤ Z.max MAX_TAG_VALUES (Z.of_nat (size s)) ∧
  (Z.of_nat (size (s ∪ list_to_set values)) ≤ MAX_TAG_VALUES → add_values s values = s ∪ list_to_set values).
Proof.
  revert s. induction values as [|v values IH]; intros s; simpl.
  { split_and!; [set_solver|set_solver|lia|intros _; set_solver]. }
  destruct (Z.ltb_spec (Z.of_nat (size s)) MAX_TAG_VALUES) as [Hlt|Hge].
  - destruct (IH ({[v]} ∪ s)) as (H1 & H2 & H3 & H4). split_and!; [set_solver|set_solver| |].
    + assert (size ({[v]} ∪ s) ≤ S (size s))%nat as Hs.
      { change (S (size s)) with (1 + size s)%nat. rewrite <-(size_singleton (C := gset string) v).
        rewrite size_union_alt.
        assert (size (s ∖ {[v]}) ≤ size s)%nat by (apply subseteq_size; set_solver). lia. }
      unfold MAX_TAG_VALUES, MAX_FILTER_VALUES in *. lia.
    + intros Hsz. replace (s ∪ ({[v]} ∪ list_to_set values)) with ({[v]} ∪ s ∪ list_to_set values) in * by set_solver.
      by apply H4.
  - destruct (IH s) as (H1 & H2 & H3 & H4). split_and!; [done|set_solver|done|]. intros Hsz.
    assert (size s ≤ size (s ∪ ({[v]} ∪ list_to_set values)))%nat by (apply subseteq_size; set_solver).
    assert (s = s ∪ ({[v]} ∪ list_to_set values)) as Heq.
    { apply set_subseteq_size_eq; [set_solver|lia]. }
    assert (v ∈ s) by (rewrite Heq; set_solver).
    rewrite H4; [set_solver|]. replace (s ∪ list_to_set values) with (s ∪ ({[v]} ∪ list_to_set values)); [done|set_solver].
Qed.

Lemma add_tags_lookup g f c :
  add_tags g f !! c = match f_tags f !! c with
                      | Some vs => Some (add_values (default ∅ (g !! c)) vs)
                      | None => g !! c
                      end.
Proof.
  unfold add_tags. revert c.
  apply (map_fold_weak_ind (λ r m, ∀ c, r !! c = match m !! c with
    | Some vs => Some (add_values (default ∅ (g !! c)) vs) | None => g !! c end)).
  - intros c. by rewrite lookup_empty.
  - intros c0 vs m r Hm IH c. destruct (decide (c0 = c)) as [<-|Hne].
    + by rewrite !lookup_insert_eq, IH, Hm.
    + by rewrite !lookup_insert_ne, IH by done.
Qed.

(** What the groups hold, and that the caps are the only thing that is lost. *)
Definition group_ok (fs : list Filter) (key : GroupKey) (g : Group) : Prop :=
  (∃ f, f ∈ fs ∧ group_key f = key) ∧
  ∀ c, (is_Some (g !! c) ↔ ∃ f, f ∈ fs ∧ group_key f = key ∧ is_Some (f_tags f !! c)) ∧
    default ∅ (g !! c) ⊆ all_values fs key c ∧
    Z.of_nat (size (default ∅ (g !! c))) ≤ MAX_TAG_VALUES ∧
    (Z.of_nat (size (all_values fs key c)) ≤ MAX_TAG_VALUES → default ∅ (g !! c) = all_values fs key c).

Lemma all_values_nil fs key c : (∀ f, f ∈ fs → group_key f ≠ key) → all_values fs key c = ∅.
Proof.
  intros H. apply set_eq. intros v. rewrite elem_of_all_values. split; [|set_solver].
  intros (f & Hf & Hv). unfold values_of in Hv. rewrite bool_decide_false in Hv by by apply H. done.
Qed.

Lemma group_filters_spec fs key :
  match group_filters fs !! key with
  | Some g => group_ok fs key g
  | None => ∀ f, f ∈ fs → group_key f ≠ key
  end.
Proof.
  induction fs as [|f fs IH] using rev_ind.
  { unfold group_filters. simpl. rewrite lookup_empty. set_solver. }
  unfold group_filters. rewrite foldl_app. simpl. fold (group_filters fs). unfold add_filter.
  destruct (decide (group_key f = key)) as [<-|Hne].
  - assert (f ∈ fs ++ [f]) as Hlast by (apply elem_of_app; right; left).
    rewrite lookup_insert_eq. split; [by exists f|]. intros c.
    set (g := default ∅ (group_filters fs !! group_key f)).
    assert ((is_Some (g !! c) ↔ ∃ f', f' ∈ fs ∧ group_key f' = group_key f ∧ is_Some (f_tags f' !! c)) ∧
      default ∅ (g !! c) ⊆ all_values fs (group_key f) c ∧
      Z.of_nat (size (default ∅ (g !! c))) ≤ MAX_TAG_VALUES ∧
      (Z.of_nat (size (all_values fs (group_key f) c)) ≤ MAX_TAG_VALUES →
         default ∅ (g !! c) = all_values fs (group_key f) c)) as (G1 & G2 & G3 & G4).
    { subst g. destruct (group_filters fs !! group_key f) as [g|]; simpl; [apply IH|].
      rewrite all_values_nil by done. split_and!; try done.
      split; [by intros []|]. intros (f' & Hf' & Hk & _). by apply IH in Hk. }
    rewrite add_tags_lookup, all_values_snoc. unfold values_of. rewrite bool_decide_true by done.
    destruct (f_tags f !! c) as [vs|] eqn:Hc; simpl.
    + destruct (add_values_spec (default ∅ (g !! c)) vs) as (A1 & A2 & A3 & A4). split_and!.
      * split; [intros _; exists f; by rewrite Hc|by eexists].
      * set_solver.
      * lia.
      * intros Hsz. rewrite A4, G4; [done| |].
        -- etrans; [|exact Hsz]. apply inj_le, subseteq_size. set_solver.
        -- etrans; [|exact Hsz]. apply inj_le, subseteq_size. set_solver.
    + rewrite (right_id_L ∅ (∪)). split_and!; try done. rewrite G1. split.
      * intros (f' & ? & ?). exists f'. split; [apply elem_of_app; by left|done].
      * intros (f' & [Hin|Hin]%elem_of_app & Hk & Hs); [by exists f'|].
        apply list_elem_of_singleton in Hin as ->. rewrite Hc in Hs. by destruct Hs.
  - rewrite lookup_insert_ne by done. destruct (group_filters fs !! key) as [g|].
    + destruct IH as [(f' & ? & ?) IH]. split; [exists f'; split; [apply elem_of_app; by left|done]|]. intros c.
      rewrite all_values_snoc. unfold values_of. rewrite bool_decide_false, (right_id_L ∅ (∪)) by done.
      destruct (IH c) as (G1 & G2 & G3 & G4). split_and!; try done. rewrite G1. split.
      * intros (f1 & ? & ?). exists f1. split; [apply elem_of_app; by left|done].
      * intros (f1 & [Hin|Hin]%elem_of_app & Hk & Hs); [by exists f1|].
        apply list_elem_of_singleton in Hin as ->. done.
    + intros f' [Hin|Hin]%elem_of_app; [by apply IH|]. by apply list_elem_of_singleton in Hin as ->.
Qed.

(** ** Theorems *)

Lemma elem_of_dedup {A} `{EqDecision A} (l : list A) x : x ∈ dedup l ↔ x ∈ l.
Proof.
  induction l as [|y l IH]; [done|]. destruct l as [|z l]; [done|].
  change (dedup (y :: z :: l)) with (if bool_decide (y = z) then dedup (z :: l) else y :: dedup (z :: l)).
  case_bool_decide as Hyz; [subst; rewrite IH|]; rewrite !elem_of_cons, ?IH, ?elem_of_cons; tauto.
Qed.

Lemma dedup_length {A} `{EqDecision A} (l : list A) : (length (dedup l) ≤ length l)%nat.
Proof.
  induction l as [|y l IH]; [done|]. destruct l as [|z l]; [done|].
  change (dedup (y :: z :: l)) with (if bool_decide (y = z) then dedup (z :: l) else y :: dedup (z :: l)).
  case_bool_decide; simpl in *; lia.
Qed.

Lemma dedup_sort_zlen {A} `{EqDecision A} (R : relation A) `{!RelDecision R} (l : list A) :
  zlen (dedup (merge_sort R l)) ≤ zlen l.
Proof.
  unfold zlen. apply inj_le. etrans; [apply dedup_length|]. by rewrite merge_sort_Permutation.
Qed.

Lemma key_letters f f' c :
  group_key f = group_key f' → is_Some (f_tags f !! c) → is_Some (f_tags f' !! c).
Proof.
  intros Hk [vs Hv]. injection Hk as _ _ Hl.
  assert (c ∈ (map_to_list (f_tags f)).*1) as Hin.
  { apply list_elem_of_fmap. exists (c, vs). by rewrite elem_of_map_to_list. }
  rewrite <-(merge_sort_Permutation letter_le), Hl, merge_sort_Permutation in Hin.
  apply list_elem_of_fmap in Hin as ([c' vs'] & -> & Hin%elem_of_map_to_list). by eexists.
Qed.

Lemma elem_of_merge fs g :
  g ∈ merge fs → ∃ key grp, group_filters fs !! key = Some grp ∧ g = filter_of (key, grp).
Proof.
  unfold merge. intros ([key grp] & -> & Hin)%list_elem_of_fmap.
  apply subseteq_take in Hin. rewrite merge_sort_Permutation, elem_of_map_to_list in Hin. eauto.
Qed.

(** Below the cap on groups, every group becomes a filter. *)
Lemma merge_complete fs key grp :
  Z.of_nat (size (group_filters fs)) ≤ MAX_FILTERS →
  group_filters fs !! key = Some grp → filter_of (key, grp) ∈ merge fs.
Proof.
  intros Hsz Hg. unfold merge. apply list_elem_of_fmap. exists (key, grp). split; [done|].
  rewrite take_ge; [by rewrite merge_sort_Permutation, elem_of_map_to_list|].
  rewrite merge_sort_Permutation, length_map_to_list. lia.
Qed.

Lemma filter_of_matches fs f grp ev :
  f ∈ fs → group_filters fs !! group_key f = Some grp → is_Some (kinds f) →
  (∀ c, Z.of_nat (size (all_values fs (group_key f) c)) ≤ MAX_TAG_VALUES) →
  matches f ev = true → matches (filter_of (group_key f, grp)) ev = true.
Proof.
  intros Hf Hg [ks Hks] Hcap Hm. pose proof (group_filters_spec fs (group_key f)) as Hok. rewrite Hg in Hok.
  destruct Hok as [_ Hok]. unfold matches in Hm. bools.
  unfold matches, filter_of. simpl. rewrite !andb_true_iff. split_and!; try done.
  - destruct (authors f) as [l|]; simpl in *; [|done]. unfold contains in *. bools.
    apply bool_decide_eq_true. by rewrite elem_of_dedup, elem_of_sort_strings.
  - rewrite Hks in *. simpl in *. unfold contains in *. bools.
    apply bool_decide_eq_true. by rewrite elem_of_dedup, merge_sort_Permutation.
  - apply forallb_elem. intros [c vs] Hin%elem_of_map_to_list.
    rewrite lookup_fmap in Hin. destruct (grp !! c) as [s|] eqn:Hs; [|done]. simplify_eq/=.
    destruct (Hok c) as (G1 & _ & _ & G4).
    assert (is_Some (f_tags f !! c)) as [vs Hvs].
    { rewrite Hs in G1. destruct (proj1 G1) as (f' & _ & Hk & Hsome); [by eexists|].
      by eapply key_letters. }
    match goal with H : forallb _ _ = true |- _ => rewrite forallb_elem in H;
      specialize (H (c, vs) (proj2 (elem_of_map_to_list _ _ _) Hvs)); rename H into Ht end.
    unfold tag_matches in *. rewrite existsb_elem in *. destruct Ht as (v & Hv & Hc).
    exists v. split; [done|]. unfold contains in *. simpl in *. bools. apply bool_decide_eq_true.
    rewrite elem_of_sort_strings, elem_of_elements. specialize (G4 (Hcap c)). rewrite Hs in G4. simpl in G4.
    rewrite G4. apply elem_of_all_values. exists f. split; [done|].
    unfold values_of. rewrite bool_decide_true, Hvs by done. simpl. by apply elem_of_list_to_set.
Qed.

Lemma group_filters_perm fs fs' :
  fs ≡ₚ fs' → (∀ key c, Z.of_nat (size (all_values fs key c)) ≤ MAX_TAG_VALUES) →
  group_filters fs = group_filters fs'.
Proof.
  intros Hp Hcap.
  assert (∀ key c, all_values fs' key c = all_values fs key c) as Hall.
  { intros key c. apply set_eq. intros v. rewrite !elem_of_all_values. by setoid_rewrite Hp. }
  apply map_eq. intros key. pose proof (group_filters_spec fs key) as H1.
  pose proof (group_filters_spec fs' key) as H2.
  destruct (group_filters fs !! key) as [g|], (group_filters fs' !! key) as [g'|]; [|exfalso..|done].
  - f_equal. apply map_eq. intros c. destruct H1 as [_ H1], H2 as [_ H2].
    destruct (H1 c) as (A1 & _ & _ & A4), (H2 c) as (B1 & _ & _ & B4).
    rewrite Hall in B4. specialize (A4 (Hcap key c)). specialize (B4 (Hcap key c)).
    setoid_rewrite <-Hp in B1. rewrite <-A1 in B1.
    destruct (g !! c) as [s|], (g' !! c) as [s'|]; simpl in *; [congruence| | |done].
    + destruct (proj2 B1) as [? ?]; [by eexists|done].
    + destruct (proj1 B1) as [? ?]; [by eexists|done].
  - destruct H1 as [(f & Hf & Hk) _]. rewrite Hp in Hf. by apply H2 in Hk.
  - destruct H2 as [(f & Hf & Hk) _]. rewrite <-Hp in Hf. by apply H1 in Hk.
Qed.

(** While the groups and their values fit the caps, the merged interest is
    a superset that does not depend on the order of the subscriptions: an
    event that matches a mirrored filter matches a merged one, so the gateway
    asks upstream for everything its clients want. *)
Theorem merge_superset fs :
  Z.of_nat (size (group_filters fs)) ≤ MAX_FILTERS →
  (∀ key c, Z.of_nat (size (all_values fs key c)) ≤ MAX_TAG_VALUES) →
  (∀ f mirror ev, f ∈ fs → mirrored f mirror = true → matches f ev = true →
     ∃ g, g ∈ merge fs ∧ matches g ev = true) ∧
  (∀ fs', fs ≡ₚ fs' → merge fs' = merge fs).
Proof.
  intros Hsz Hcap. split.
  - intros f mirror ev Hf Hmir Hm. pose proof (group_filters_spec fs (group_key f)) as Hok.
    destruct (group_filters fs !! group_key f) as [grp|] eqn:Hg; [|by apply Hok in Hf].
    exists (filter_of (group_key f, grp)). split; [by apply merge_complete|].
    eapply filter_of_matches; [done|done| |intros; apply Hcap|done].
    unfold mirrored in Hmir. destruct (kinds f); [by eexists|]. by rewrite andb_false_r in Hmir.
  - intros fs' Hp. unfold merge. by rewrite (group_filters_perm _ _ Hp).
Qed.

(** However many filters clients register, the merged interest is at most
    eight filters, each within the parser's bounds, so the receiver of the
    report, and the upstream relay, read back the very filters that were sent. *)
Theorem merge_bounded fs :
  (∀ f, f ∈ fs → filter_wf f) →
  zlen (merge fs) ≤ MAX_FILTERS ∧
  ∀ g, g ∈ merge fs → filter_wf g ∧ parse_filter (filter_json g) = Ok g.
Proof.
  intros Hall. split.
  { unfold merge, zlen. rewrite length_map, length_take. unfold MAX_FILTERS. lia. }
  intros g (key & grp & Hg & ->)%elem_of_merge. pose proof (group_filters_spec fs key) as Hok.
  rewrite Hg in Hok. destruct Hok as [(f & Hf & <-) Hok].
  enough (filter_wf (filter_of (group_key f, grp))) as Hwf by (split; [done|by apply parse_filter_json]).
  destruct (Hall f Hf) as (_ & Ha & Hk & _). split_and!; simpl; try done.
  - intros l Hl. destruct (authors f) as [a|]; simplify_eq/=. destruct (Ha a eq_refl) as [Hlen Hs].
    split.
    + etrans; [apply dedup_sort_zlen|done].
    + intros s. rewrite elem_of_dedup, elem_of_sort_strings. apply Hs.
  - intros l [= <-]. destruct (kinds f) as [k|]; simpl; [|split; [done|by intros ? ?%elem_of_nil]].
    destruct (Hk k eq_refl) as [Hlen Hs]. split.
    + etrans; [apply dedup_sort_zlen|done].
    + intros s. rewrite elem_of_dedup, merge_sort_Permutation. apply Hs.
  - intros c l. rewrite lookup_fmap. destruct (grp !! c) as [s|] eqn:Hs; [|done]. intros [= <-].
    destruct (Hok c) as (G1 & G2 & G3 & _). rewrite Hs in G1, G2, G3. simpl in G2, G3.
    destruct (proj1 G1) as (f' & Hf' & _ & [vs Hvs]); [by eexists|].
    destruct (Hall f' Hf') as (_ & _ & _ & Ht'). destruct (Ht' c vs Hvs) as [Hc _]. split_and!; [done| |].
    + unfold zlen, sort_strings. rewrite merge_sort_Permutation. exact G3.
    + intros v Hv. rewrite elem_of_sort_strings, elem_of_elements in Hv. apply G2, elem_of_all_values in Hv.
      destruct Hv as (f1 & Hf1 & Hv). unfold values_of in Hv. case_bool_decide; [|done].
      destruct (f_tags f1 !! c) as [vs1|] eqn:Hvs1; [|done]. apply elem_of_list_to_set in Hv. simpl in Hv.
      destruct (Hall f1 Hf1) as (_ & _ & _ & Ht1). by apply (Ht1 c vs1 Hvs1).
Qed.

Definition toy_filter (v : string) : Filter := {|
  ids := None; authors := None; kinds := Some [1]; f_tags := {[ "d"%char := [v] ]};
  f_since := None; f_until := None; f_limit := None |}.

Lemma toy_values key c :
  Z.of_nat (size (all_values [toy_filter "a"; toy_filter "b"] key c)) ≤ MAX_TAG_VALUES.
Proof.
  etrans; [apply inj_le, (subseteq_size _ ({["a"; "b"]} : gset string))|by vm_compute].
  intros v (f & Hf & Hv)%elem_of_all_values. unfold values_of in Hv. case_bool_decide; [|done].
  apply elem_of_cons in Hf as [->|[->|[]%elem_of_nil]%elem_of_cons]; simpl in Hv;
    destruct (decide ("d"%char = c)) as [<-|Hne].
  all: try (rewrite lookup_singleton_ne in Hv by done; set_solver).
  all: rewrite lookup_singleton_eq in Hv; set_solver.
Qed.

Lemma merge_superset_witness :
  let ev := {| ev_id := "i"; pubkey := "p"; created_at := 1; ev_kind := 1; tags := [["d"; "b"]];
               content := EmptyString; ev_sig := EmptyString |} in
  ∃ g, g ∈ merge [toy_filter "a"; toy_filter "b"] ∧ matches g ev = true.
Proof.
  intros ev.
  destruct (merge_superset [toy_filter "a"; toy_filter "b"]) as [H _]; [by vm_compute|apply toy_values|].
  apply (H (toy_filter "b") [1] ev); [right; left|by vm_compute|by vm_compute].
Defined.

Lemma merge_bounded_witness : zlen (merge [toy_filter "a"]) ≤ MAX_FILTERS.
Proof.
  apply (merge_bounded [toy_filter "a"]). intros f ->%list_elem_of_singleton. split_and!; try done.
  - intros l [= <-]. split; [done|]. by intros k ->%list_elem_of_singleton.
  - intros c l Hl. simpl in Hl. apply lookup_singleton_Some in Hl as [<- <-]. split_and!; [done|done|].
    by intros s ->%list_elem_of_singleton.
Defined.
