(* ===== verification/NostrStore.v ===== *)
(** * The relay's event store

    [src/src/nostr/store.rs]: a bounded in-memory store with a chronological
    and an address index, deletion tombstones in bounded FIFOs, and the append
    log that persists it. *)
From S2P Require Import Prelude Json Wire NostrEvent.

Notation Address := (Z * string * string)%type.

(** ** Bounded FIFO maps *)

Record Fifo (K : Type) `{Countable K} (V : Type) := {
  fifo_values : gmap K V;
  fifo_order : list K;
}.
Arguments fifo_values {K _ _ V} _.
Arguments fifo_order {K _ _ V} _.
Arguments Build_Fifo {K _ _ V} _ _.

Definition fifo_new {K} `{Countable K} {V} : Fifo K V := {| fifo_values := ∅; fifo_order := [] |}.

(** [VecDeque::pop_front] and the removal of its value. *)
Definition fifo_pop {K} `{Countable K} {V} (f : Fifo K V) : Fifo K V :=
  match fifo_order f with
  | old :: order => {| fifo_values := delete old (fifo_values f); fifo_order := order |}
  | [] => f
  end.

Definition fifo_insert {K} `{Countable K} {V} (f : Fifo K V) (key : K) (value : V) (cap : Z) : Fifo K V :=
  if is_some (fifo_values f !! key)
  then {| fifo_values := <[key := value]> (fifo_values f); fifo_order := fifo_order f |}
  else if cap =? 0 then f else
  let f := if cap <=? Z.of_nat (size (fifo_values f)) then fifo_pop f else f in
  {| fifo_values := <[key := value]> (fifo_values f); fifo_order := fifo_order f ++ [key] |}.

(** ** The store *)

Inductive Line := Ev (ev : Event) | Del (id : string).

Inductive Insert := Stored | EphemeralEvent | Duplicate | Obsolete | Deleted.
#[global] Instance Insert_eq_dec : EqDecision Insert.
Proof. solve_decision. Defined.

Record Store := {
  events : gmap string Event;
  by_time : gmap Z (gset string);
  addresses : gmap Address string;
  deleted_ids : Fifo (string * string) ();
  deleted_addresses : Fifo Address Z;
  max_events : Z;
  persistent : bool;
  pending : list Line;
  log_lines : Z;
  rewrite_log : bool;
}.

Definition new_store (limit : Z) : Store := {|
  events := ∅; by_time := ∅; addresses := ∅; deleted_ids := fifo_new; deleted_addresses := fifo_new;
  max_events := limit; persistent := false; pending := []; log_lines := 0; rewrite_log := false |}.

(** Replacing the log, the index or the tombstones of a store. *)
Definition set_log (s : Store) (p : bool) (l : list Line) (n : Z) (r : bool) : Store := {|
  events := events s; by_time := by_time s; addresses := addresses s; deleted_ids := deleted_ids s;
  deleted_addresses := deleted_addresses s; max_events := max_events s;
  persistent := p; pending := l; log_lines := n; rewrite_log := r |}.
Definition set_index (s : Store) (e : gmap string Event) (t : gmap Z (gset string))
    (a : gmap Address string) : Store := {|
  events := e; by_time := t; addresses := a; deleted_ids := deleted_ids s;
  deleted_addresses := deleted_addresses s; max_events := max_events s;
  persistent := persistent s; pending := pending s; log_lines := log_lines s;
  rewrite_log := rewrite_log s |}.
Definition set_tombs (s : Store) (d : Fifo (string * string) ()) (a : Fifo Address Z) : Store := {|
  events := events s; by_time := by_time s; addresses := addresses s; deleted_ids := d;
  deleted_addresses := a; max_events := max_events s;
  persistent := persistent s; pending := pending s; log_lines := log_lines s;
  rewrite_log := rewrite_log s |}.

Definition len (s : Store) : Z := zsize (events s).

Definition store_contains (s : Store) (id : string) : bool := is_some (events s !! id).

Definition expired (ev : Event) (now : Z) : bool := is_some_and (λ time, time <=? now) (expiration ev).

Definition address_of (ev : Event) : option Address :=
  match kind_class ev with
  | Replaceable => Some (ev_kind ev, pubkey ev, EmptyString)
  | Addressable => Some (ev_kind ev, pubkey ev, d_tag ev)
  | _ => None
  end.

Definition is_hex_key (value : string) : bool :=
  (slen value =? 64) && string_forallb is_ascii_hexdigit value.

(** [splitn(3, ':')]: three parts, the last one unsplit. *)
Definition parse_address (value : string) : option Address :=
  match split_once ":"%char value with
  | Some (kind, rest) =>
      match parse_uint U32_MAX kind, split_once ":"%char rest with
      | Some kind, Some (pubkey, d) => if negb (is_hex_key pubkey) then None else Some (kind, pubkey, d)
      | _, _ => None
      end
  | None => None
  end.

Definition compaction_threshold (s : Store) : Z := sat_add (sat_mul (len s) 2) 1000.

Definition mark_all_dirty (s : Store) : Store :=
  if persistent s then set_log s (persistent s) [] (log_lines s) true else s.

Definition record (s : Store) (line : Line) : Store :=
  if negb (persistent s) then s else
  let s := set_log s (persistent s) (pending s) (sat_add (log_lines s) 1) (rewrite_log s) in
  if compaction_threshold s <? log_lines s then mark_all_dirty s
  else if negb (rewrite_log s)
       then set_log s (persistent s) (pending s ++ [line]) (log_lines s) (rewrite_log s)
       else s.

Definition remove (s : Store) (id : string) : Store :=
  match events s !! id with
  | None => s
  | Some ev =>
      let by_time := match by_time s !! created_at ev with
                     | Some ids =>
                         if bool_decide (ids ∖ {[id]} = ∅) then delete (created_at ev) (by_time s)
                         else <[created_at ev := ids ∖ {[id]}]> (by_time s)
                     | None => by_time s
                     end in
      let addresses := match address_of ev with
                       | Some a => delete a (addresses s)
                       | None => addresses s
                       end in
      record (set_index s (delete id (events s)) by_time addresses) (Del (ev_id ev))
  end.

(** The stored event at an address. *)
Definition at_address (s : Store) (a : Address) : option Event :=
  match addresses s !! a with Some id => events s !! id | None => None end.

(** One [e] tag of a deletion request. *)
Definition delete_by_id (ev : Event) (s : Store) (id : string) : Store :=
  if negb (is_hex_key id) then s else
  let s := if is_some_and (λ old, bool_decide (pubkey old = pubkey ev) && negb (ev_kind old =? 5))
                (events s !! id)
           then remove s id else s in
  set_tombs s (fifo_insert (deleted_ids s) (id, pubkey ev) tt (max_events s)) (deleted_addresses s).

(** One [a] tag of a deletion request. *)
Definition delete_by_address (ev : Event) (s : Store) (value : string) : Store :=
  match parse_address value with
  | None => s
  | Some address =>
      if negb (bool_decide (address.1.2 = pubkey ev)) then s else
      let s := match at_address s address with
               | Some old => if created_at old <=? created_at ev then remove s (ev_id old) else s
               | None => s
               end in
      let time := Z.max (default 0 (fifo_values (deleted_addresses s) !! address)) (created_at ev) in
      set_tombs s (deleted_ids s) (fifo_insert (deleted_addresses s) address time (max_events s))
  end.

Definition delete_requested (s : Store) (ev : Event) : Store :=
  let s := foldl (delete_by_id ev) s (tag_values ev "e") in
  foldl (delete_by_address ev) s (tag_values ev "a").

Definition min_key (m : gmap Z (gset string)) : option Z := hd_error (merge_sort Z.le (elements (dom m))).

(** [first_key_value] of the time index, then the first id. *)
Definition oldest (s : Store) : option string :=
  match min_key (by_time s) with
  | Some t => match by_time s !! t with
              | Some ids => hd_error (sort_strings (elements ids))
              | None => None
              end
  | None => None
  end.

(** The eviction loop; one step removes an event, so the number of events is
    enough fuel. *)
Fixpoint evict (fuel : nat) (s : Store) : Store :=
  match fuel with
  | O => s
  | S fuel =>
      if len s <=? max_events s then s else
      match oldest s with
      | None => s
      | Some id => evict fuel (remove s id)
      end
  end.

(** The part of [insert] that adds an accepted event to the indexes. *)
Definition add_event (s : Store) (ev : Event) : Store :=
  let ids := default ∅ (by_time s !! created_at ev) in
  let addresses := match address_of ev with
                   | Some a => <[a := ev_id ev]> (addresses s)
                   | None => addresses s
                   end in
  record (set_index s (<[ev_id ev := ev]> (events s))
            (<[created_at ev := {[ev_id ev]} ∪ ids]> (by_time s)) addresses) (Ev ev).

Definition store_accepted (s : Store) (ev : Event) : Store :=
  let s := if ev_kind ev =? 5 then delete_requested s ev else s in
  let s := add_event s ev in
  evict (size (events s)) s.

(** [<] on strings, from the total order. *)
Definition string_lt (a b : string) : bool := negb (bool_decide (String.le b a)).

Definition insert_event (s : Store) (ev : Event) : Store * Insert :=
  if store_contains s (ev_id ev) then (s, Duplicate) else
  if bool_decide (kind_class ev = Ephemeral) then (s, EphemeralEvent) else
  if negb (ev_kind ev =? 5) && is_some (fifo_values (deleted_ids s) !! (ev_id ev, pubkey ev))
  then (s, Deleted) else
  match address_of ev with
  | None => (store_accepted s ev, Stored)
  | Some address =>
      if is_some_and (λ time, created_at ev <=? time) (fifo_values (deleted_addresses s) !! address)
      then (s, Deleted) else
      match at_address s address with
      | None => (store_accepted s ev, Stored)
      | Some old =>
          if (created_at ev <? created_at old)
             || ((created_at old =? created_at ev) && string_lt (ev_id old) (ev_id ev))
          then (s, Obsolete)
          else (store_accepted (remove s (ev_id old)) ev, Stored)
      end
  end.

(** ** Queries *)

(** The key [(Reverse(created_at), id)] of a result. *)
Notation Key := (Z * string)%type.
Definition newer_le (a b : Key) : Prop := b.1 < a.1 ∨ (a.1 = b.1 ∧ String.le a.2 b.2).
#[global] Instance newer_le_dec : RelDecision newer_le.
Proof. intros a b. unfold newer_le. apply _. Defined.
Definition entry_le (a b : Key * Event) : Prop := newer_le a.1 b.1.
#[global] Instance entry_le_dec : RelDecision entry_le.
Proof. intros a b. unfold entry_le. apply _. Defined.

Definition key_of (ev : Event) : Key := (created_at ev, ev_id ev).

(** The values of a [BTreeMap], in the order of its keys. *)
Definition in_order (m : gmap Key Event) : list Event := (merge_sort entry_le (map_to_list m)).*2.

Definition newest_created_at (s : Store) : option Z :=
  last (merge_sort Z.le (elements (dom (by_time s)))).

(** [by_time.range(since..=until).rev()], the ids of each time in order. *)
Definition range_rev (s : Store) (since until : Z) : list string :=
  List.concat (map (λ t, match by_time s !! t with Some ids => sort_strings (elements ids) | None => [] end)
    (reverse (List.filter (λ t, (since <=? t) && (t <=? until)) (merge_sort Z.le (elements (dom (by_time s))))))).

Definition visible (f : Filter) (now : Z) (ev : Event) : bool := negb (expired ev now) && matches f ev.

(** The nested loop ['times], flattened: stops when [limit] matches are in. *)
Fixpoint scan (s : Store) (f : Filter) (now limit contributed : Z) (l : list string)
    (found : gmap Key Event) : gmap Key Event :=
  match l with
  | [] => found
  | id :: l =>
      match events s !! id with
      | None => scan s f now limit contributed l found
      | Some ev =>
          if visible f now ev then
            let found := <[(created_at ev, id) := ev]> found in
            if contributed + 1 =? limit then found
            else scan s f now limit (contributed + 1) l found
          else scan s f now limit contributed l found
      end
  end.

Definition candidates (s : Store) (f : Filter) (now : Z) (l : list string) : gmap Key Event :=
  foldl (λ c id, match events s !! id with
                 | Some ev => if visible f now ev then <[(created_at ev, id) := ev]> c else c
                 | None => c
                 end) ∅ l.

Definition query_filter (s : Store) (cap now newest : Z) (found : gmap Key Event) (f : Filter) : gmap Key Event :=
  let limit := Z.min (default cap (f_limit f)) cap in
  if limit =? 0 then found else
  match ids f with
  | Some l => foldl (λ m ev, <[key_of ev := ev]> m) found
                (take (Z.to_nat limit) (in_order (candidates s f now l)))
  | None =>
      let since := default 0 (f_since f) in
      let until := Z.min (default newest (f_until f)) newest in
      if until <? since then found
      else scan s f now limit 0 (range_rev s since until) found
  end.

Definition query (s : Store) (filters : list Filter) (cap now : Z) : list Event :=
  match newest_created_at s with
  | Some newest =>
      if cap =? 0 then [] else
      take (Z.to_nat cap) (in_order (foldl (query_filter s cap now newest) ∅ filters))
  | None => []
  end.

Definition count (s : Store) (filters : list Filter) (now : Z) : Z :=
  zlen (List.filter (λ ev, negb (expired ev now) && existsb (λ f, matches f ev) filters)
          (map_to_list (events s)).*2).

(** ** The log *)

Record Pending := { p_rewrite : bool; p_lines : list Line }.

(** The stored events in chronological order. *)
Definition snapshot (s : Store) : list Line :=
  omap (λ id, Ev <$> events s !! id)
    (List.concat (map (λ t, match by_time s !! t with Some ids => sort_strings (elements ids) | None => [] end)
      (merge_sort Z.le (elements (dom (by_time s)))))).

Definition take_pending (s : Store) : Store * Pending :=
  if negb (persistent s) then (s, {| p_rewrite := false; p_lines := [] |}) else
  if rewrite_log s || (compaction_threshold s <? log_lines s)
  then (set_log s (persistent s) [] (len s) false, {| p_rewrite := true; p_lines := snapshot s |})
  else (set_log s (persistent s) [] (log_lines s) false, {| p_rewrite := false; p_lines := pending s |}).

(** [Pending::apply] on the lines of the log file. *)
Definition apply_pending (p : Pending) (disk : list Line) : list Line :=
  if negb (p_rewrite p) && match p_lines p with [] => true | _ => false end then disk
  else if p_rewrite p then p_lines p else disk ++ p_lines p.

(** [Store::open]: [read_line] is [serde_json::from_slice] into a [ReadLine],
    an [ev] with its value or a [del] with its id. *)
Section open.
Variable read_line : string → option (json + string).

Definition parse_line (line : string) : option Line :=
  match read_line line with
  | Some (inl value) => match parse_event value with Ok ev => Some (Ev ev) | Err _ => None end
  | Some (inr id) => Some (Del id)
  | None => None
  end.

Definition set_rewrite (s : Store) : Store := set_log s (persistent s) (pending s) (log_lines s) true.

Fixpoint ends_with (c : ascii) (s : string) : bool :=
  match s with
  | EmptyString => false
  | String a EmptyString => bool_decide (a = c)
  | String _ s => ends_with c s
  end.

Definition open_line (now : Z) (s : Store) (line : string) : Store :=
  let s := set_log s (persistent s) (pending s) (sat_add (log_lines s) 1) (rewrite_log s) in
  let s := if ends_with "010"%char line then s else set_rewrite s in
  match parse_line line with
  | Some (Ev ev) =>
      if expired ev now then set_rewrite s else
      let '(s', outcome) := insert_event s ev in
      if negb (bool_decide (outcome = Stored)) || negb (len s' =? sat_add (len s) 1)
      then set_rewrite s' else s'
  | Some (Del id) => set_rewrite (remove s id)
  | None => set_rewrite s
  end.

(** [file] is [None] without a directory; a missing log file has no lines. *)
Definition open_store (file : option (list string)) (limit now : Z) : Store :=
  match file with
  | None => new_store limit
  | Some lines =>
      let s := foldl (open_line now) (new_store limit) lines in
      set_log s true (pending s) (log_lines s) (rewrite_log s)
  end.
End open.

(** ** Invariants *)

(** The three indexes describe the same events. *)
Record index_ok (s : Store) : Prop := {
  ix_event k ev : events s !! k = Some ev → ev_id ev = k ∧ kind_class ev ≠ Ephemeral;
  ix_time t k : (∃ l, by_time s !! t = Some l ∧ k ∈ l) ↔
                ∃ ev, events s !! k = Some ev ∧ created_at ev = t;
  ix_nonempty t l : by_time s !! t = Some l → l ≠ ∅;
  ix_address a k : addresses s !! a = Some k ↔
                   ∃ ev, events s !! k = Some ev ∧ address_of ev = Some a;
}.

Definition fifo_ok {K} `{Countable K} {V} (cap : Z) (f : Fifo K V) : Prop :=
  NoDup (fifo_order f) ∧ (∀ k, k ∈ fifo_order f ↔ is_Some (fifo_values f !! k)) ∧
  zlen (fifo_order f) ≤ cap.

(** No stored event is covered by a tombstone. *)
Record tombs_ok (s : Store) : Prop := {
  tb_id k ev : events s !! k = Some ev → ev_kind ev ≠ 5 →
    fifo_values (deleted_ids s) !! (k, pubkey ev) = None;
  tb_address k ev a time : events s !! k = Some ev → address_of ev = Some a →
    fifo_values (deleted_addresses s) !! a = Some time → time < created_at ev;
  tb_ids_fifo : fifo_ok (max_events s) (deleted_ids s);
  tb_addresses_fifo : fifo_ok (max_events s) (deleted_addresses s);
}.

Definition store_ok (s : Store) : Prop := index_ok s ∧ tombs_ok s ∧ len s ≤ max_events s.

(** ** FIFOs *)

Lemma fifo_lookup_insert {K} `{Countable K} {V} (f : Fifo K V) key v cap k x :
  fifo_values (fifo_insert f key v cap) !! k = Some x →
  (k = key ∧ x = v) ∨ fifo_values f !! k = Some x.
Proof.
  unfold fifo_insert. case_if; simpl.
  { intros [[-> ->]|[_ ?]]%lookup_insert_Some; auto. }
  case_if; [auto|]. simpl. intros [[-> ->]|[_ Hx]]%lookup_insert_Some; [auto|]. right.
  case_if; [|done]. unfold fifo_pop in Hx. destruct (fifo_order f); [done|].
  simpl in Hx. by apply lookup_delete_Some in Hx as [_ ?].
Qed.

Lemma fifo_size {K} `{Countable K} {V} (f : Fifo K V) cap :
  fifo_ok cap f → Z.of_nat (size (fifo_values f)) = zlen (fifo_order f).
Proof.
  intros (Hnd & Hin & _). unfold zlen. f_equal. rewrite <-size_dom, <-(size_list_to_set (C := gset K)) by done.
  f_equal. apply set_eq. intros k. by rewrite elem_of_dom, elem_of_list_to_set, Hin.
Qed.

Lemma fifo_new_ok {K} `{Countable K} {V} cap : 0 ≤ cap → fifo_ok cap (fifo_new : Fifo K V).
Proof.
  intros Hc. split_and!; simpl; [constructor| |done]. intros k. rewrite lookup_empty.
  split; [by intros ?%elem_of_nil|by intros []].
Qed.

Lemma fifo_insert_ok {K} `{Countable K} {V} (f : Fifo K V) key v cap :
  0 ≤ cap → fifo_ok cap f → fifo_ok cap (fifo_insert f key v cap).
Proof.
  intros Hcap Hok. pose proof (fifo_size f cap Hok) as Hsz. destruct Hok as (Hnd & Hin & Hlen).
  unfold fifo_insert. destruct (is_some (fifo_values f !! key)) eqn:Hk.
  { split_and!; simpl; try done. intros k. rewrite Hin. apply is_some_spec in Hk.
    destruct (decide (key = k)) as [<-|Hne]; [rewrite lookup_insert_eq|by rewrite lookup_insert_ne].
    by split. }
  case_if; [by split_and!|]. bools.
  assert (key ∉ fifo_order f) as Hnot.
  { rewrite Hin. intros Hs. apply is_some_spec in Hs. congruence. }
  unfold fifo_pop. destruct (Z.leb_spec cap (Z.of_nat (size (fifo_values f)))) as [Hfull|Hroom].
  - destruct (fifo_order f) as [|old order] eqn:Eo; [unfold zlen in *; simpl in *; lia|].
    apply NoDup_cons in Hnd as [Hold Hnd]. split_and!; simpl.
    + apply NoDup_app. split_and!; [done| |apply NoDup_singleton].
      intros k Hk' ->%list_elem_of_singleton. apply Hnot. by right.
    + intros k. rewrite elem_of_app, list_elem_of_singleton.
      destruct (decide (key = k)) as [<-|Hne].
      { rewrite lookup_insert_eq. split; [by eexists|by right]. }
      rewrite lookup_insert_ne by done. destruct (decide (old = k)) as [<-|Hne'].
      { rewrite lookup_delete_eq. split; [intros []; congruence|by intros []]. }
      rewrite lookup_delete_ne, <-Hin by done. set_solver.
    + rewrite zlen_app. rewrite zlen_cons in Hlen. unfold zlen in *. simpl. lia.
  - split_and!; simpl.
    + apply NoDup_app. split_and!; [done| |apply NoDup_singleton].
      by intros k Hk' ->%list_elem_of_singleton.
    + intros k. rewrite elem_of_app, list_elem_of_singleton.
      destruct (decide (key = k)) as [<-|Hne].
      { rewrite lookup_insert_eq. split; [by eexists|by right]. }
      rewrite lookup_insert_ne, <-Hin by done. naive_solver.
    + rewrite zlen_app. unfold zlen at 2. simpl. lia.
Qed.

(** ** Frames: what the log leaves alone *)

Lemma record_frame s l :
  events (record s l) = events s ∧ by_time (record s l) = by_time s ∧
  addresses (record s l) = addresses s ∧ deleted_ids (record s l) = deleted_ids s ∧
  deleted_addresses (record s l) = deleted_addresses s ∧ max_events (record s l) = max_events s ∧
  persistent (record s l) = persistent s.
Proof.
  unfold record, mark_all_dirty. destruct (persistent s) eqn:Hp; simpl; [|done].
  case_if; [by simpl|]. by case_if.
Qed.

Definition same_store (s s' : Store) : Prop :=
  events s' = events s ∧ by_time s' = by_time s ∧ addresses s' = addresses s ∧
  deleted_ids s' = deleted_ids s ∧ deleted_addresses s' = deleted_addresses s ∧
  max_events s' = max_events s.

Lemma index_ok_same s s' : same_store s s' → index_ok s → index_ok s'.
Proof.
  intros (He & Ht & Ha & _) [H1 H2 H3 H4]. split; intros; rewrite ?He, ?Ht, ?Ha in *; eauto.
Qed.

Lemma index_ok_set_tombs s d a : index_ok s → index_ok (set_tombs s d a).
Proof. intros [H1 H2 H3 H4]. by split. Qed.

Lemma tombs_ok_same s s' : same_store s s' → tombs_ok s → tombs_ok s'.
Proof.
  intros (He & _ & _ & Hd & Hda & Hm) [H1 H2 H3 H4].
  split; intros; rewrite ?He, ?Hd, ?Hda, ?Hm in *; eauto.
Qed.

Lemma record_same s l : same_store s (record s l).
Proof. destruct (record_frame s l) as (? & ? & ? & ? & ? & ? & _). done. Qed.

Lemma set_log_same s p l n r : same_store s (set_log s p l n r).
Proof. done. Qed.

(** ** Removal *)

Lemma remove_frame s id :
  events (remove s id) = delete id (events s) ∧ deleted_ids (remove s id) = deleted_ids s ∧
  deleted_addresses (remove s id) = deleted_addresses s ∧ max_events (remove s id) = max_events s ∧
  persistent (remove s id) = persistent s.
Proof.
  unfold remove. destruct (events s !! id) as [ev|] eqn:He.
  - destruct (record_frame (set_index s (delete id (events s))
      (match by_time s !! created_at ev with
       | Some ids => if bool_decide (ids ∖ {[id]} = ∅) then delete (created_at ev) (by_time s)
                     else <[created_at ev := ids ∖ {[id]}]> (by_time s)
       | None => by_time s end)
      (match address_of ev with Some a => delete a (addresses s) | None => addresses s end))
      (Del (ev_id ev))) as (-> & _ & _ & -> & -> & -> & ->). done.
  - by rewrite delete_id.
Qed.

(** Taking an id out of its bucket of the time index. *)
Definition drop_time (t : gmap Z (gset string)) (c : Z) (id : string) : gmap Z (gset string) :=
  match t !! c with
  | Some l => if bool_decide (l ∖ {[id]} = ∅) then delete c t else <[c := l ∖ {[id]}]> t
  | None => t
  end.

Lemma drop_time_spec t c id c' k :
  (∃ l, drop_time t c id !! c' = Some l ∧ k ∈ l) ↔
  (∃ l, t !! c' = Some l ∧ k ∈ l) ∧ ¬ (c' = c ∧ k = id).
Proof.
  unfold drop_time. destruct (t !! c) as [l|] eqn:Hc.
  - destruct (decide (c' = c)) as [->|Hne].
    + case_bool_decide as Hl; [rewrite lookup_delete_eq|rewrite lookup_insert_eq].
      * split; [by intros (? & ? & _)|]. intros [(l' & Hl' & Hk) Hn]. simplify_eq.
        exfalso. assert (k ∈ l ∖ {[id]}) as Hin by set_solver. rewrite Hl in Hin. set_solver.
      * split.
        -- intros (l' & [= <-] & [Hk Hn]%elem_of_difference). split; [by exists l|]. set_solver.
        -- intros [(l' & Hl' & Hk) Hn]. simplify_eq. eexists. split; [done|]. set_solver.
    + assert (∀ m : gmap Z (gset string), m !! c' = t !! c' →
        (∃ l, m !! c' = Some l ∧ k ∈ l) ↔ (∃ l, t !! c' = Some l ∧ k ∈ l) ∧ ¬ (c' = c ∧ k = id)) as H.
      { intros m ->. split; [intros H; split; [done|by intros []]|by intros []]. }
      apply H. case_bool_decide; by rewrite ?lookup_delete_ne, ?lookup_insert_ne.
  - split; [|by intros []]. intros (l & Hl & Hk). split; [by exists l|]. intros [-> _]. congruence.
Qed.

Lemma drop_time_nonempty t c id :
  (∀ c' l, t !! c' = Some l → l ≠ ∅) → ∀ c' l, drop_time t c id !! c' = Some l → l ≠ ∅.
Proof.
  intros Hne c' l. unfold drop_time. destruct (t !! c) as [l0|] eqn:Hc; [|apply Hne].
  case_bool_decide as Hl.
  - intros [_ ?]%lookup_delete_Some. by eapply Hne.
  - intros [[_ <-]|[_ ?]]%lookup_insert_Some; [done|by eapply Hne].
Qed.

Lemma remove_eq s id ev :
  events s !! id = Some ev →
  remove s id = record (set_index s (delete id (events s)) (drop_time (by_time s) (created_at ev) id)
    (match address_of ev with Some a => delete a (addresses s) | None => addresses s end)) (Del (ev_id ev)).
Proof. intros He. unfold remove. by rewrite He. Qed.

Lemma remove_index s id : index_ok s → index_ok (remove s id).
Proof.
  intros Hok. destruct (events s !! id) as [ev|] eqn:He; [|unfold remove; by rewrite He].
  rewrite (remove_eq _ _ _ He). eapply index_ok_same; [apply record_same|].
  destruct Hok as [H1 H2 H3 H4]. split; simpl.
  - intros k e [_ Hk]%lookup_delete_Some. by apply H1.
  - intros t k. rewrite drop_time_spec, H2. split.
    + intros [(e & Hk & Ht) Hn]. exists e. split; [|done]. rewrite lookup_delete_ne; [done|].
      intros ->. apply Hn. split; [congruence|done].
    + intros (e & [Hne Hk]%lookup_delete_Some & Ht). split; [by exists e|]. by intros [_ ->].
  - by apply drop_time_nonempty.
  - intros a k. split.
    + intros Ha. assert (addresses s !! a = Some k ∧ address_of ev ≠ Some a) as [Ha' Hne].
      { destruct (address_of ev) as [a'|] eqn:Ea; [|done].
        apply lookup_delete_Some in Ha as [? ?]. split; [done|congruence]. }
      apply H4 in Ha' as (e & Hk & Hae). exists e. split; [|done].
      rewrite lookup_delete_ne; [done|]. intros ->. congruence.
    + intros (e & [Hne Hk]%lookup_delete_Some & Hae).
      assert (addresses s !! a = Some k) as Ha by (apply H4; by exists e).
      destruct (address_of ev) as [a'|] eqn:Ea; [|done]. rewrite lookup_delete_ne; [done|].
      intros ->. assert (addresses s !! a = Some id) by (apply H4; by exists ev). congruence.
Qed.

Lemma tombs_ok_shrink s s' :
  tombs_ok s → (∀ k e, events s' !! k = Some e → events s !! k = Some e) →
  deleted_ids s' = deleted_ids s → deleted_addresses s' = deleted_addresses s →
  max_events s' = max_events s → tombs_ok s'.
Proof.
  intros [H1 H2 H3 H4] He Hd Ha Hm. split; rewrite ?Hd, ?Ha, ?Hm; eauto.
Qed.

Lemma remove_tombs s id : tombs_ok s → tombs_ok (remove s id).
Proof.
  intros Hok. destruct (remove_frame s id) as (He & Hd & Ha & Hm & _).
  eapply tombs_ok_shrink; try done. intros k e. rewrite He. by intros [_ ?]%lookup_delete_Some.
Qed.

Lemma lookup_remove s id k : events (remove s id) !! k = if decide (k = id) then None else events s !! k.
Proof.
  destruct (remove_frame s id) as (-> & _). destruct (decide (k = id)) as [->|Hne].
  - apply lookup_delete_eq.
  - by apply lookup_delete_ne.
Qed.

(** ** Deletion requests *)

(** The stored event [e] is covered by the request [ev]. *)
Definition names_id (ev e : Event) (id : string) : Prop :=
  is_hex_key id = true ∧ ev_id e = id ∧ pubkey e = pubkey ev ∧ ev_kind e ≠ 5.
Definition names_address (ev e : Event) (value : string) : Prop :=
  ∃ a, parse_address value = Some a ∧ a.1.2 = pubkey ev ∧ address_of e = Some a ∧ created_at e ≤ created_at ev.
Definition requested (ev e : Event) : Prop :=
  (∃ id, id ∈ tag_values ev "e" ∧ names_id ev e id) ∨
  (∃ v, v ∈ tag_values ev "a" ∧ names_address ev e v).

(** A step of the request keeps the invariants and removes what it names. *)
Definition deletes (s s' : Store) (p : Event → Prop) : Prop :=
  index_ok s' ∧ tombs_ok s' ∧ max_events s' = max_events s ∧ persistent s' = persistent s ∧
  ∀ k e, events s' !! k = Some e ↔ events s !! k = Some e ∧ ¬ p e.

Lemma deletes_by_id ev s id :
  index_ok s → tombs_ok s → 0 ≤ max_events s → deletes s (delete_by_id ev s id) (λ e, names_id ev e id).
Proof.
  intros Hix Htb Hmax. unfold delete_by_id.
  destruct (is_hex_key id) eqn:Hhex; simpl.
  2:{ split_and!; try done. intros k e. split; [intros H; split; [done|]|by intros []].
      intros (? & _). congruence. }
  set (hit := is_some_and _ (events s !! id)). set (s1 := if hit then remove s id else s).
  assert (index_ok s1 ∧ tombs_ok s1 ∧ max_events s1 = max_events s ∧ persistent s1 = persistent s) as (Hi1 & Ht1 & Hm1 & Hp1).
  { subst s1. destruct hit; [|done]. destruct (remove_frame s id) as (_ & _ & _ & -> & ->).
    split_and!; [by apply remove_index|by apply remove_tombs|done|done]. }
  assert (∀ k e, events s1 !! k = Some e ↔ events s !! k = Some e ∧ ¬ names_id ev e id) as Hev.
  { intros k e. subst s1. destruct hit eqn:Hh; subst hit.
    - apply is_some_and_true in Hh as (old & Ho & Hc). bools. rewrite lookup_remove.
      destruct (decide (k = id)) as [->|Hne].
      + split; [done|]. intros [He Hn]. simplify_eq. exfalso. apply Hn.
        split_and!; try done. by apply (ix_event s Hix) in Ho as [? _].
      + split; [intros He; split; [done|]|by intros []]. intros (_ & Hid & _).
        apply (ix_event s Hix) in He as [? _]. congruence.
    - split; [intros H; split; [done|]|by intros []]. intros (_ & Hid & Hpk & Hk).
      pose proof H as H'. apply (ix_event s Hix) in H' as [<- _]. rewrite Hid in H. rewrite H in Hh. simpl in Hh.
      rewrite bool_decide_true in Hh by done. simpl in Hh. by bools. }
  split_and!; try done; [by apply index_ok_set_tombs|].
  destruct Ht1 as [T1 T2 T3 T4]. split; simpl; try done.
  - intros k e Hk Hkind.
    destruct (fifo_values (fifo_insert (deleted_ids s1) (id, pubkey ev) tt (max_events s1)) !! (k, pubkey e))
      as [u|] eqn:Hf; [|done].
    apply fifo_lookup_insert in Hf as [[Heq _]|Hf]; [|by rewrite (T1 k e Hk Hkind) in Hf].
    injection Heq as -> Hpk. apply Hev in Hk as [Hk Hn]. exfalso. apply Hn.
    split_and!; try done. by apply (ix_event s Hix) in Hk as [? _].
  - apply fifo_insert_ok; [by rewrite Hm1|done].
Qed.

Lemma deletes_by_address ev s v :
  0 ≤ created_at ev → index_ok s → tombs_ok s → 0 ≤ max_events s →
  deletes s (delete_by_address ev s v) (λ e, names_address ev e v).
Proof.
  intros Hca Hix Htb Hmax. unfold delete_by_address.
  destruct (parse_address v) as [a|] eqn:Hpa.
  2:{ split_and!; try done. intros k e. split; [intros H; split; [done|]|by intros []].
      intros (? & ? & _). congruence. }
  case_bool_decide as Hpk; simpl.
  2:{ split_and!; try done. intros k e. split; [intros H; split; [done|]|by intros []].
      intros (a' & ? & ? & _). congruence. }
  set (s1 := match at_address s a with Some old => _ | None => s end).
  assert (∀ k e, events s !! k = Some e → address_of e = Some a → at_address s a = Some e) as Hat.
  { intros k e He Ha. unfold at_address. rewrite (proj2 (ix_address s Hix a k)); [done|by exists e]. }
  assert (∀ old, at_address s a = Some old → address_of old = Some a ∧ events s !! ev_id old = Some old) as Hat'.
  { intros old. unfold at_address. destruct (addresses s !! a) as [id|] eqn:Ha; [|done]. intros He.
    apply (ix_address s Hix) in Ha as (e & He' & Hae). simplify_eq. split; [done|].
    pose proof (ix_event s Hix _ _ He') as [-> _]. done. }
  assert (index_ok s1 ∧ tombs_ok s1 ∧ max_events s1 = max_events s ∧ persistent s1 = persistent s) as (Hi1 & Ht1 & Hm1 & Hp1).
  { subst s1. destruct (at_address s a) as [old|]; [|done]. case_if; [|done].
    destruct (remove_frame s (ev_id old)) as (_ & _ & _ & -> & ->).
    split_and!; [by apply remove_index|by apply remove_tombs|done|done]. }
  assert (∀ k e, events s1 !! k = Some e ↔ events s !! k = Some e ∧ ¬ names_address ev e v) as Hev.
  { intros k e. subst s1. destruct (at_address s a) as [old|] eqn:Hold.
    - destruct (Hat' old eq_refl) as [Hao Heo]. destruct (Z.leb_spec (created_at old) (created_at ev)).
      + rewrite lookup_remove. destruct (decide (k = ev_id old)) as [->|Hne].
        * split; [done|]. intros [He Hn]. simplify_eq. exfalso. apply Hn. by exists a.
        * split; [intros H'; split; [done|]|by intros []]. intros (a' & Ha' & _ & Hae & _). simplify_eq.
          specialize (Hat _ _ H' Hae). simplify_eq. apply (ix_event s Hix) in H' as [? _]. congruence.
      + split; [intros H'; split; [done|]|by intros []]. intros (a' & Ha' & _ & Hae & Hle). simplify_eq.
        specialize (Hat _ _ H' Hae). simplify_eq. lia.
    - split; [intros H'; split; [done|]|by intros []]. intros (a' & Ha' & _ & Hae & Hle). simplify_eq.
      by specialize (Hat _ _ H' Hae). }
  split_and!; try done; [by apply index_ok_set_tombs|].
  destruct Ht1 as [T1 T2 T3 T4]. split; simpl; try done.
  - intros k e a' time Hk Hae Hf. apply fifo_lookup_insert in Hf as [[-> ->]|Hf]; [|by eapply T2].
    assert (created_at ev < created_at e) as Hlt.
    { apply Hev in Hk as [_ Hn]. destruct (Z.lt_ge_cases (created_at ev) (created_at e)); [done|].
      exfalso. apply Hn. by exists a. }
    destruct (fifo_values (deleted_addresses s1) !! a) as [t|] eqn:Ht; simpl; [|lia].
    specialize (T2 k e a t Hk Hae Ht). lia.
  - apply fifo_insert_ok; [by rewrite Hm1|done].
Qed.

Lemma deletes_foldl {A} (f : Store → A → Store) (p : A → Event → Prop) l s :
  (∀ s x, index_ok s → tombs_ok s → 0 ≤ max_events s → deletes s (f s x) (p x)) →
  index_ok s → tombs_ok s → 0 ≤ max_events s →
  deletes s (foldl f s l) (λ e, ∃ x, x ∈ l ∧ p x e).
Proof.
  intros Hf. revert s. induction l as [|x l IH]; intros s Hix Htb Hmax; simpl.
  { split_and!; try done. intros k e. split; [intros H; split; [done|]|by intros []].
    by intros (? & ?%elem_of_nil & _). }
  destruct (Hf s x Hix Htb Hmax) as (Hi1 & Ht1 & Hm1 & Hp1 & He1).
  destruct (IH (f s x) Hi1 Ht1) as (Hi2 & Ht2 & Hm2 & Hp2 & He2); [by rewrite Hm1|].
  split_and!; [done|done|congruence|congruence|]. intros k e. rewrite He2, He1. split.
  - intros [[He Hx] Hl]. split; [done|]. intros (y & [->|Hy]%elem_of_cons & Hp); [done|].
    apply Hl. by exists y.
  - intros [He Hn]. split_and!; [done| |].
    + intros Hx. apply Hn. exists x. split; [by left|done].
    + intros (y & Hy & Hp). apply Hn. exists y. split; [by right|done].
Qed.

Lemma delete_requested_spec s ev :
  0 ≤ created_at ev → index_ok s → tombs_ok s → 0 ≤ max_events s →
  deletes s (delete_requested s ev) (requested ev).
Proof.
  intros Hca Hix Htb Hmax. unfold delete_requested.
  destruct (deletes_foldl (delete_by_id ev) (λ id e, names_id ev e id) (tag_values ev "e") s)
    as (Hi1 & Ht1 & Hm1 & Hp1 & He1); [by intros; apply deletes_by_id|done..|].
  destruct (deletes_foldl (delete_by_address ev) (λ v e, names_address ev e v) (tag_values ev "a")
    (foldl (delete_by_id ev) s (tag_values ev "e")))
    as (Hi2 & Ht2 & Hm2 & Hp2 & He2); [by intros; apply deletes_by_address|done|done|by rewrite Hm1|].
  split_and!; [done|done|congruence|congruence|]. intros k e. rewrite He2, He1. unfold requested. tauto.
Qed.

(** ** Adding an event *)

Definition replaced (ev e : Event) : Prop :=
  ∃ a, address_of ev = Some a ∧ address_of e = Some a.

Lemma add_event_frame s ev :
  events (add_event s ev) = <[ev_id ev := ev]> (events s) ∧
  deleted_ids (add_event s ev) = deleted_ids s ∧
  deleted_addresses (add_event s ev) = deleted_addresses s ∧
  max_events (add_event s ev) = max_events s ∧ persistent (add_event s ev) = persistent s.
Proof.
  unfold add_event. match goal with |- context [record ?s ?l] => destruct (record_frame s l)
    as (-> & _ & _ & -> & -> & -> & ->) end. done.
Qed.

Lemma add_time_spec (t : gmap Z (gset string)) c id c' k :
  (∃ l, <[c := {[id]} ∪ default ∅ (t !! c)]> t !! c' = Some l ∧ k ∈ l) ↔
  (c' = c ∧ k = id) ∨ ∃ l, t !! c' = Some l ∧ k ∈ l.
Proof.
  destruct (decide (c = c')) as [<-|Hne]; [|rewrite lookup_insert_ne by done; naive_solver].
  rewrite lookup_insert_eq. split.
  - intros (l & [= <-] & [Hk|Hk]%elem_of_union).
    + apply elem_of_singleton in Hk. by left.
    + right. destruct (t !! c) as [l|]; [by exists l|by apply elem_of_empty in Hk].
  - intros H. eexists. split; [done|]. apply elem_of_union.
    destruct H as [[_ ->]|(l & -> & Hk)]; [left; by apply elem_of_singleton|by right].
Qed.

Lemma add_event_index s ev :
  index_ok s → events s !! ev_id ev = None → kind_class ev ≠ Ephemeral →
  (∀ k e, events s !! k = Some e → ¬ replaced ev e) → index_ok (add_event s ev).
Proof.
  intros [H1 H2 H3 H4] Hnew Hkind Hrep. unfold add_event. eapply index_ok_same; [apply record_same|].
  split; simpl.
  - intros k e [[<- <-]|[_ Hk]]%lookup_insert_Some; [done|by apply H1].
  - intros t k.
    rewrite add_time_spec.
    rewrite H2. split.
    + intros [[-> ->]|(e & He & Ht)].
      * exists ev. by rewrite lookup_insert_eq.
      * exists e. rewrite lookup_insert_ne by congruence. done.
    + intros (e & [[<- <-]|[Hne He]]%lookup_insert_Some & Ht); [by left|right; by exists e].
  - intros t l [[_ <-]|[_ Hl]]%lookup_insert_Some; [set_solver|by eapply H3].
  - intros a k.
    assert ((∃ e, <[ev_id ev:=ev]> (events s) !! k = Some e ∧ address_of e = Some a) ↔
      (k = ev_id ev ∧ address_of ev = Some a) ∨ addresses s !! a = Some k) as ->.
    { rewrite H4. split.
      - intros (e & [[<- <-]|[_ He]]%lookup_insert_Some & Ha); [by left|right; by exists e].
      - intros [[-> Ha]|(e & He & Ha)]; [exists ev; by rewrite lookup_insert_eq|].
        exists e. rewrite lookup_insert_ne by congruence. done. }
    destruct (address_of ev) as [a'|] eqn:Ea; [|naive_solver].
    destruct (decide (a' = a)) as [->|Hne].
    + rewrite lookup_insert_eq. split; [intros [= <-]; by left|].
      intros [[-> _]|Ha]; [done|]. apply H4 in Ha as (e & He & Hae).
      exfalso. apply (Hrep k e He). by exists a.
    + rewrite lookup_insert_ne by done. naive_solver.
Qed.

(** ** Eviction *)

(** [(created_at, id)] in the order of the time index. *)
Definition older_le (a b : Event) : Prop :=
  created_at a < created_at b ∨ (created_at a = created_at b ∧ String.le (ev_id a) (ev_id b)).

Lemma hd_sorted {A} (R : relation A) `{!RelDecision R, !Transitive R, !Total R} (l : list A) x :
  hd_error (merge_sort R l) = Some x → x ∈ l ∧ ∀ y, y ∈ l → R x y.
Proof.
  pose proof (StronglySorted_merge_sort R l) as Hs. pose proof (merge_sort_Permutation R l) as Hp.
  destruct (merge_sort R l) as [|z k]; [done|]. intros [= ->].
  split; [rewrite <-Hp; left|]. intros y Hy. rewrite <-Hp in Hy.
  apply elem_of_cons in Hy as [->|Hy]; [by destruct (total R x x)|].
  apply StronglySorted_cons in Hs as [Hall _]. rewrite Forall_forall in Hall. by apply Hall.
Qed.

Lemma hd_sorted_Some {A} (R : relation A) `{!RelDecision R} (l : list A) y :
  y ∈ l → is_Some (hd_error (merge_sort R l)).
Proof.
  intros Hy. pose proof (merge_sort_Permutation R l) as Hp. rewrite <-Hp in Hy. clear Hp.
  destruct (merge_sort R l); [by apply elem_of_nil in Hy|by eexists].
Qed.

Lemma elem_of_times s t : t ∈ elements (dom (by_time s)) ↔ is_Some (by_time s !! t).
Proof. by rewrite elem_of_elements, elem_of_dom. Qed.

Lemma oldest_spec s id :
  index_ok s → oldest s = Some id →
  ∃ e, events s !! id = Some e ∧ ∀ k e', events s !! k = Some e' → older_le e e'.
Proof.
  intros Hix. unfold oldest, min_key. destruct (hd_error _) as [t|] eqn:Ht; [|done].
  apply (hd_sorted Z.le) in Ht as [_ Hmin]. destruct (by_time s !! t) as [l|] eqn:Hl; [|done].
  intros Hid. apply (hd_sorted String.le) in Hid as [Hid Hfirst]. rewrite elem_of_elements in Hid.
  destruct (proj1 (ix_time s Hix t id)) as (e & He & Hte); [by exists l|].
  exists e. split; [done|]. intros k e' He'.
  destruct (proj2 (ix_time s Hix (created_at e') k)) as (l' & Hl' & Hk); [by exists e'|].
  assert (t ≤ created_at e') as Hle by (apply Hmin, elem_of_times; by eexists).
  destruct (decide (t = created_at e')) as [Heq|]; [|left; lia]. right. split; [lia|].
  pose proof (ix_event s Hix _ _ He) as [-> _]. pose proof (ix_event s Hix _ _ He') as [-> _].
  apply Hfirst, elem_of_elements. congruence.
Qed.

Lemma oldest_Some s k e : index_ok s → events s !! k = Some e → is_Some (oldest s).
Proof.
  intros Hix He. unfold oldest, min_key.
  destruct (proj2 (ix_time s Hix (created_at e) k)) as (l & Hl & Hk); [by exists e|].
  destruct (hd_sorted_Some Z.le (elements (dom (by_time s))) (created_at e)) as [t Ht].
  { apply elem_of_times. by eexists. }
  rewrite Ht. apply (hd_sorted Z.le) in Ht as [Hin _]. apply elem_of_times in Hin as [l' Hl']. rewrite Hl'.
  destruct (set_choose_or_empty l') as [[x Hx]|Hempty].
  - apply (hd_sorted_Some _ _ x). by apply elem_of_elements.
  - apply leibniz_equiv in Hempty. by apply (ix_nonempty s Hix) in Hl'.
Qed.

Lemma len_remove s id e : events s !! id = Some e → len (remove s id) = len s - 1.
Proof.
  intros He. unfold len, zsize. destruct (remove_frame s id) as (-> & _).
  rewrite map_size_delete, He. simpl.
  assert (size (events s) ≠ 0%nat) by (intros H0; apply map_size_empty_inv in H0; rewrite H0, lookup_empty in He; done).
  lia.
Qed.

(** One event too many: the eviction removes exactly the oldest. *)
Lemma evict_spec s fuel :
  index_ok s → 0 ≤ max_events s → len s ≤ max_events s + 1 → (size (events s) ≤ fuel)%nat →
  evict fuel s = s ∧ len s ≤ max_events s ∨
  ∃ id e, evict fuel s = remove s id ∧ events s !! id = Some e ∧ len s = max_events s + 1 ∧
    ∀ k e', events s !! k = Some e' → older_le e e'.
Proof.
  intros Hix Hmax Hlen Hfuel. destruct (Z.leb_spec (len s) (max_events s)) as [Hle|Hgt].
  { left. split; [|done]. destruct fuel; simpl; [done|]. by rewrite (proj2 (Z.leb_le _ _) Hle). }
  right. assert (0 < size (events s))%nat as Hpos by (unfold len, zsize in *; lia).
  destruct fuel as [|fuel]; [lia|]. simpl. rewrite (proj2 (Z.leb_gt _ _) Hgt).
  destruct (map_choose (events s)) as (k0 & e0 & He0).
  { intros Hem. rewrite Hem, map_size_empty in Hpos. lia. }
  destruct (oldest_Some s k0 e0 Hix He0) as [id Hid]. rewrite Hid.
  destruct (oldest_spec s id Hix Hid) as (e & He & Hmin). exists id, e. split_and!; [|done|lia|done].
  pose proof (len_remove s id e He) as Hl.
  destruct fuel as [|fuel]; simpl; [done|].
  destruct (remove_frame s id) as (_ & _ & _ & -> & _). by rewrite (proj2 (Z.leb_le _ _)) by lia.
Qed.

(** ** Accepting an event *)

Definition request_of (ev e : Event) : Prop := ev_kind ev = 5 ∧ requested ev e.

Lemma kind_5 ev : ev_kind ev = 5 → kind_class ev = Regular ∧ address_of ev = None.
Proof. intros H. unfold address_of, kind_class. rewrite H. done. Qed.

Lemma store_accepted_spec s ev :
  0 ≤ created_at ev → 0 ≤ max_events s → index_ok s → tombs_ok s → len s ≤ max_events s →
  events s !! ev_id ev = None → kind_class ev ≠ Ephemeral →
  (∀ k e, events s !! k = Some e → ¬ replaced ev e) →
  (ev_kind ev ≠ 5 → fifo_values (deleted_ids s) !! (ev_id ev, pubkey ev) = None) →
  (∀ a t, address_of ev = Some a → fifo_values (deleted_addresses s) !! a = Some t → t < created_at ev) →
  let s' := store_accepted s ev in
  store_ok s' ∧ max_events s' = max_events s ∧ persistent s' = persistent s ∧
  (∀ k e, events s' !! k = Some e →
     (k = ev_id ev ∧ e = ev) ∨ (events s !! k = Some e ∧ ¬ request_of ev e)) ∧
  (∀ k e, (k = ev_id ev ∧ e = ev) ∨ (events s !! k = Some e ∧ ¬ request_of ev e) →
     events s' !! k = Some e ∨
     (len s' = max_events s ∧ ∀ k' e', events s' !! k' = Some e' → older_le e e')).
Proof.
  intros Hca Hmax Hix Htb Hlen Hnew Hkind Hrep Hid Had s'. unfold s', store_accepted.
  set (s1 := if ev_kind ev =? 5 then delete_requested s ev else s).
  assert (deletes s s1 (request_of ev)) as (Hi1 & Ht1 & Hm1 & Hp1 & He1).
  { subst s1. destruct (Z.eqb_spec (ev_kind ev) 5) as [H5|H5].
    - destruct (delete_requested_spec s ev Hca Hix Htb Hmax) as (? & ? & ? & ? & He).
      split_and!; try done. intros k e. rewrite He. unfold request_of. naive_solver.
    - split_and!; try done. intros k e. unfold request_of. naive_solver. }
  assert (events s1 ⊆ events s) as Hsub.
  { apply map_subseteq_spec. intros k e He. by apply He1 in He as [? _]. }
  assert (index_ok (add_event s1 ev)) as Hi2.
  { apply add_event_index; [done| |done|].
    - eapply lookup_weaken_None; [exact Hnew|done].
    - intros k e He. apply Hrep with k. by eapply lookup_weaken. }
  destruct (add_event_frame s1 ev) as (He2 & Hd2 & Ha2 & Hm2 & Hp2).
  assert (tombs_ok (add_event s1 ev)) as Ht2.
  { destruct Ht1 as [T1 T2 T3 T4]. split; rewrite ?He2, ?Hd2, ?Ha2, ?Hm2; [| |done|done].
    - intros k e [[<- <-]|[_ Hk]]%lookup_insert_Some H5; [|by apply T1].
      specialize (Hid H5). subst s1. by rewrite (proj2 (Z.eqb_neq _ _) H5).
    - intros k e a t [[<- <-]|[_ Hk]]%lookup_insert_Some Ha; [|by eapply T2].
      subst s1. destruct (Z.eqb_spec (ev_kind ev) 5) as [H5|H5]; [|by eapply Had].
      apply kind_5 in H5 as [_ H5]. congruence. }
  assert (len (add_event s1 ev) ≤ max_events (add_event s1 ev) + 1) as Hl2.
  { unfold len, zsize. rewrite He2, Hm2, Hm1. apply map_subseteq_size in Hsub.
    rewrite map_size_insert. unfold len, zsize in Hlen. destruct (events s1 !! ev_id ev); simpl; lia. }
  assert (∀ k e, events (add_event s1 ev) !! k = Some e ↔
    (k = ev_id ev ∧ e = ev) ∨ (events s !! k = Some e ∧ ¬ request_of ev e)) as Hin.
  { intros k e. rewrite He2, lookup_insert_Some, He1. split; [naive_solver|].
    intros [[-> ->]|[Hk Hr]]; [by left|]. right. split; [congruence|done]. }
  destruct (evict_spec (add_event s1 ev) (size (events (add_event s1 ev)))) as [[-> Hle]|(id & e & -> & He & Hfull & Hmin)];
    [done|by rewrite Hm2, Hm1|done|done| |].
  - split_and!; try done; [congruence|congruence| |]; intros k e; rewrite Hin; auto.
  - destruct (remove_frame (add_event s1 ev) id) as (Her & _ & _ & Hmr & Hpr).
    pose proof (len_remove _ _ _ He) as Hlr.
    split; [split_and!; [by apply remove_index|by apply remove_tombs|rewrite Hmr; lia]|].
    split; [congruence|]. split; [congruence|]. split.
    + intros k e'. rewrite Her. intros [_ Hk]%lookup_delete_Some. by apply Hin.
    + intros k e' Hk%Hin. destruct (decide (k = id)) as [->|Hne].
      * right. split; [lia|]. intros k' e2. rewrite Her. intros [_ Hk']%lookup_delete_Some.
        simplify_eq. by eapply Hmin.
      * left. rewrite Her. by rewrite lookup_delete_ne.
Qed.

(** ** Insertion *)

Lemma at_address_Some s a e :
  index_ok s → at_address s a = Some e → events s !! ev_id e = Some e ∧ address_of e = Some a.
Proof.
  intros Hix. unfold at_address. destruct (addresses s !! a) as [k|] eqn:Ha; [|done]. intros He.
  apply (ix_address s Hix) in Ha as (e' & He' & Hae). simplify_eq.
  by pose proof (ix_event s Hix _ _ He') as [-> _].
Qed.

Lemma at_address_unique s a e k e' :
  index_ok s → at_address s a = e → events s !! k = Some e' → address_of e' = Some a → e = Some e'.
Proof.
  intros Hix <- He' Ha. unfold at_address. rewrite (proj2 (ix_address s Hix a k)); [done|by exists e'].
Qed.

(** [old] keeps its address against [ev]. *)
Definition supersedes (old ev : Event) : Prop :=
  created_at ev < created_at old ∨
  (created_at old = created_at ev ∧ ¬ String.le (ev_id ev) (ev_id old)).

(** The event counts as stored unless something removed it. *)
Definition survives (s : Store) (ev : Event) (k : string) (e : Event) : Prop :=
  (k = ev_id ev ∧ e = ev) ∨
  (events s !! k = Some e ∧ ¬ replaced ev e ∧ ¬ request_of ev e).

Definition insert_ok (s : Store) (ev : Event) (s' : Store) (out : Insert) : Prop :=
  match out with
  | Duplicate => s' = s ∧ is_Some (events s !! ev_id ev)
  | EphemeralEvent => s' = s ∧ kind_class ev = Ephemeral
  | Deleted => s' = s ∧
      ((ev_kind ev ≠ 5 ∧ is_Some (fifo_values (deleted_ids s) !! (ev_id ev, pubkey ev))) ∨
       ∃ a t, address_of ev = Some a ∧ fifo_values (deleted_addresses s) !! a = Some t ∧ created_at ev ≤ t)
  | Obsolete => s' = s ∧ ∃ k old, events s !! k = Some old ∧ replaced ev old ∧ supersedes old ev
  | Stored =>
      (∀ k e, events s' !! k = Some e → survives s ev k e) ∧
      (∀ k e, survives s ev k e → events s' !! k = Some e ∨
         (len s' = max_events s ∧ ∀ k' e', events s' !! k' = Some e' → older_le e e')) ∧
      (∀ k old, events s !! k = Some old → replaced ev old → ¬ supersedes old ev)
  end.

Lemma accepted_fresh s ev :
  0 ≤ created_at ev → 0 ≤ max_events s → index_ok s → tombs_ok s → len s ≤ max_events s →
  events s !! ev_id ev = None → kind_class ev ≠ Ephemeral →
  (∀ k e, events s !! k = Some e → ¬ replaced ev e) →
  (ev_kind ev ≠ 5 → fifo_values (deleted_ids s) !! (ev_id ev, pubkey ev) = None) →
  (∀ a t, address_of ev = Some a → fifo_values (deleted_addresses s) !! a = Some t → t < created_at ev) →
  store_ok (store_accepted s ev) ∧ max_events (store_accepted s ev) = max_events s ∧
  insert_ok s ev (store_accepted s ev) Stored.
Proof.
  intros Hca Hmax Hix Htb Hlen Hnew Hkind Hrep Hid Had.
  destruct (store_accepted_spec s ev) as (Hok & Hm & _ & H1 & H2); [done..|].
  simpl. split_and!; [apply Hok..|done| | |].
  - intros k e Hk. destruct (H1 k e Hk) as [?|[He Hr]]; [by left|]. right. split_and!; [done|by eapply Hrep|done].
  - intros k e Hs. apply H2. destruct Hs as [?|(He & _ & Hr)]; [by left|by right].
  - intros k old Ho Hr. exfalso. by eapply Hrep.
Qed.

Lemma insert_event_spec s ev s' out :
  store_ok s → 0 ≤ created_at ev → 0 ≤ max_events s → insert_event s ev = (s', out) →
  store_ok s' ∧ max_events s' = max_events s ∧ insert_ok s ev s' out.
Proof.
  intros Hok Hca Hmax. pose proof Hok as (Hix & Htb & Hlen). unfold insert_event, store_contains.
  destruct (events s !! ev_id ev) as [e0|] eqn:Hnew; simpl; [intros [= <- <-]; simpl; split_and!; try done; by eexists|].
  case_bool_decide as Hkind; [by intros [= <- <-]; simpl|].
  destruct (negb (ev_kind ev =? 5) && is_some _) eqn:Hdel.
  { intros [= <- <-]. simpl. bools. split_and!; try done. left. split; [done|]. by apply is_some_spec. }
  assert (ev_kind ev ≠ 5 → fifo_values (deleted_ids s) !! (ev_id ev, pubkey ev) = None) as Hid.
  { intros H5. rewrite (proj2 (Z.eqb_neq _ _) H5) in Hdel. simpl in Hdel.
    by destruct (fifo_values (deleted_ids s) !! (ev_id ev, pubkey ev)). }
  destruct (address_of ev) as [a|] eqn:Ha.
  2:{ intros [= <- <-]. apply accepted_fresh; try done.
      - intros k e _ (a & ? & _). congruence.
      - intros a t ?. congruence. }
  destruct (is_some_and _ (fifo_values (deleted_addresses s) !! a)) eqn:Hda.
  { intros [= <- <-]. simpl. apply is_some_and_true in Hda as (t & Ht & Hle). bools.
    split_and!; try done. right. by exists a, t. }
  assert (∀ a' t, address_of ev = Some a' → fifo_values (deleted_addresses s) !! a' = Some t → t < created_at ev) as Had.
  { intros a' t Ha' Ht. rewrite Ha in Ha'. simplify_eq. rewrite Ht in Hda. simpl in Hda. by bools. }
  destruct (at_address s a) as [old|] eqn:Hold.
  2:{ intros [= <- <-]. apply accepted_fresh; try done.
      - intros k e He (a' & Ha' & Hae). rewrite Ha in Ha'. simplify_eq.
        by pose proof (at_address_unique _ _ _ _ _ Hix Hold He Hae). }
  destruct (at_address_Some _ _ _ Hix Hold) as [Ho Hao].
  destruct ((created_at ev <? created_at old) || _) eqn:Hsup.
  - intros [= <- <-]. simpl. split_and!; try done. exists (ev_id old), old. split_and!; [done|by exists a|].
    unfold supersedes, string_lt in *. bools. destruct Hsup; bools; auto.
  - intros [= <- <-]. destruct (remove_frame s (ev_id old)) as (Her & Hdr & Har & Hmr & Hpr).
    pose proof (len_remove s _ _ Ho) as Hlr.
    destruct (accepted_fresh (remove s (ev_id old)) ev) as (Hok' & Hm' & H1 & H2 & _); try done.
    { by rewrite Hmr. } { by apply remove_index. } { by apply remove_tombs. } { rewrite Hmr. lia. }
    { rewrite Her. apply lookup_delete_None. auto. }
    { intros k e He (a' & Ha' & Hae). rewrite Ha in Ha'. simplify_eq. rewrite Her in He.
      apply lookup_delete_Some in He as [Hne He].
      pose proof (at_address_unique _ _ _ _ _ Hix Hold He Hae) as Heq. simplify_eq.
      by apply (ix_event s Hix) in He as [? _]. }
    { by rewrite Hdr. } { by rewrite Har. }
    simpl. split; [done|]. split; [by rewrite Hm'|]. split_and!.
    + intros k e Hk. destruct (H1 k e Hk) as [?|(He & Hr)]; [by left|]. right.
      rewrite Her in He. by apply lookup_delete_Some in He as [_ ?].
    + intros k e Hs. rewrite <-Hmr. apply H2. destruct Hs as [?|(He & Hr & Hq)]; [by left|]. right.
      split_and!; [|done|done]. rewrite Her. apply lookup_delete_Some. split; [|done].
      intros <-. simplify_eq. apply Hr. by exists a.
    + intros k old' Ho' (a' & Ha' & Hae). rewrite Ha in Ha'. simplify_eq.
      pose proof (at_address_unique _ _ _ _ _ Hix Hold Ho' Hae) as Heq. simplify_eq.
      unfold supersedes, string_lt in *. bools.
      intros [?|[? Hle]]; [lia|]. match goal with H : _ ∨ _ |- _ => destruct H end; bools; [lia|done].
Qed.

(** ** Histories *)

Inductive StoreOp := OpInsert (ev : Event) | OpTake | OpDirty.

Definition run_op (s : Store) (op : StoreOp) : Store :=
  match op with
  | OpInsert ev => fst (insert_event s ev)
  | OpTake => fst (take_pending s)
  | OpDirty => mark_all_dirty s
  end.

Definition op_wf (op : StoreOp) : Prop :=
  match op with OpInsert ev => 0 ≤ created_at ev | _ => True end.

Lemma store_ok_same s s' : same_store s s' → store_ok s → store_ok s'.
Proof.
  intros Hs (Hix & Htb & Hlen). split_and!; [by eapply index_ok_same|by eapply tombs_ok_same|].
  destruct Hs as (He & _ & _ & _ & _ & Hm). unfold len. by rewrite He, Hm.
Qed.

Lemma take_pending_same s : same_store s (fst (take_pending s)).
Proof. unfold take_pending. case_if; [done|]. by case_if. Qed.

Lemma mark_all_dirty_same s : same_store s (mark_all_dirty s).
Proof. unfold mark_all_dirty. by case_if. Qed.

Lemma new_store_ok limit : 0 ≤ limit → store_ok (new_store limit).
Proof.
  intros Hl. split_and!; [split|split|]; simpl; intros; try (rewrite lookup_empty in *); try done.
  - split; [by intros (? & ? & _)|by intros (? & ? & _)].
  - split; [done|by intros (? & ? & _)].
  - by apply fifo_new_ok.
  - by apply fifo_new_ok.
Qed.

Lemma run_op_ok s op : store_ok s → op_wf op → 0 ≤ max_events s →
  store_ok (run_op s op) ∧ max_events (run_op s op) = max_events s.
Proof.
  intros Hok Hop Hmax. destruct op as [ev| |]; simpl in *.
  - destruct (insert_event s ev) as [s' out] eqn:Hi. simpl.
    by destruct (insert_event_spec s ev s' out) as (? & ? & _).
  - split; [|by destruct (take_pending_same s) as (_ & _ & _ & _ & _ & ?)].
    eapply store_ok_same; [apply take_pending_same|done].
  - split; [|by destruct (mark_all_dirty_same s) as (_ & _ & _ & _ & _ & ?)].
    eapply store_ok_same; [apply mark_all_dirty_same|done].
Qed.

Lemma run_ops_ok s ops : store_ok s → Forall op_wf ops → 0 ≤ max_events s →
  store_ok (foldl run_op s ops) ∧ max_events (foldl run_op s ops) = max_events s.
Proof.
  intros Hok Hops. revert s Hok. induction Hops as [|op ops Hop _ IH]; intros s Hok Hmax; simpl; [done|].
  destruct (run_op_ok s op) as [Hok' Hm]; [done..|]. destruct (IH (run_op s op)) as [? ?]; [done|lia|].
  split; [done|congruence].
Qed.

Lemma remove_store_ok s id : store_ok s → store_ok (remove s id) ∧ max_events (remove s id) = max_events s.
Proof.
  intros (Hix & Htb & Hlen). destruct (remove_frame s id) as (He & _ & _ & Hm & _).
  split; [|done]. split_and!; [by apply remove_index|by apply remove_tombs|].
  rewrite Hm. unfold len, zsize in *. rewrite He, map_size_delete. destruct (events s !! id); simpl; lia.
Qed.

Section open_ok.
Variable read_line : string → option (json + string).
Hypothesis read_unsigned : ∀ line ev, parse_line read_line line = Some (Ev ev) → 0 ≤ created_at ev.

Lemma open_line_ok now s line :
  store_ok s → 0 ≤ max_events s →
  store_ok (open_line read_line now s line) ∧ max_events (open_line read_line now s line) = max_events s.
Proof.
  intros Hok Hmax. unfold open_line.
  set (s1 := set_log s _ _ _ _). set (s2 := if ends_with _ _ then s1 else set_rewrite s1).
  assert (same_store s s2) as Hs by (subst s2; by case_if).
  assert (store_ok s2) as Hok2 by by eapply store_ok_same.
  assert (max_events s2 = max_events s) as Hm2 by by destruct Hs as (_ & _ & _ & _ & _ & ?).
  destruct (parse_line read_line line) as [[ev|id]|] eqn:Hl.
  - case_if; [by eapply (store_ok_same s2) in Hok2|].
    destruct (insert_event s2 ev) as [s' out] eqn:Hi.
    destruct (insert_event_spec s2 ev s' out) as (Hok' & Hm' & _); [done|by eapply read_unsigned|by rewrite Hm2|done|].
    case_if; (split; [by eapply (store_ok_same s')|simpl; congruence]).
  - destruct (remove_store_ok s2 id Hok2) as [Hok' Hm'].
    split; [by eapply store_ok_same, Hok'|simpl; congruence].
  - split; [by eapply store_ok_same, Hok2|done].
Qed.

Lemma open_store_ok file limit now :
  0 ≤ limit → store_ok (open_store read_line file limit now) ∧
  max_events (open_store read_line file limit now) = limit.
Proof.
  intros Hl. unfold open_store. destruct file as [lines|]; [|by split; [apply new_store_ok|]].
  assert (∀ s, store_ok s → max_events s = limit →
    store_ok (foldl (open_line read_line now) s lines) ∧
    max_events (foldl (open_line read_line now) s lines) = limit) as H.
  { induction lines as [|line lines IH]; intros s Hok Hm; simpl; [done|].
    destruct (open_line_ok now s line) as [? ?]; [done|lia|]. apply IH; [done|congruence]. }
  destruct (H (new_store limit)) as [Hok Hm]; [by apply new_store_ok|done|]. split; [|done].
  by eapply store_ok_same, Hok.
Qed.
End open_ok.

(** ** How long a deletion is remembered

    A FIFO forgets the key that has been in it longest, so what counts is how
    many keys were recorded after one. *)
Fixpoint after_key {K} `{EqDecision K} (key : K) (l : list K) : list K :=
  match l with [] => [] | x :: l => if decide (x = key) then l else after_key key l end.

Definition younger {K} `{Countable K} {V} (f : Fifo K V) (key : K) : Z := zlen (after_key key (fifo_order f)).

Lemma younger_nonneg {K} `{Countable K} {V} (f : Fifo K V) key : 0 ≤ younger f key.
Proof. apply zlen_nonneg. Qed.

Lemma after_key_app {K} `{EqDecision K} (key : K) l l' : key ∈ l → after_key key (l ++ l') = after_key key l ++ l'.
Proof.
  induction l as [|x l IH]; [by intros ?%elem_of_nil|]. simpl. destruct (decide (x = key)); [done|].
  intros [->|Hin]%elem_of_cons; [done|by apply IH].
Qed.

Lemma after_key_notin {K} `{EqDecision K} (key : K) l : key ∉ l → after_key key l = [].
Proof.
  induction l as [|x l IH]; [done|]. simpl. intros [Hx Hl]%not_elem_of_cons.
  destruct (decide (x = key)); [congruence|by apply IH].
Qed.

(** [key] is recorded with a value of [P], with at most [n] keys after it. *)
Definition kept {K} `{Countable K} {V} (f : Fifo K V) (key : K) (n : Z) (P : V → Prop) : Prop :=
  (∃ v, fifo_values f !! key = Some v ∧ P v) ∧ younger f key ≤ n.

Section kept.
Context {K} `{Countable K} {V : Type} (cap : Z) (P : V → Prop).
Implicit Types (f : Fifo K V) (key : K).

(** Recording a key leaves it with as many after it as before. *)
Lemma fifo_insert_kept f key v : 0 < cap → fifo_ok cap f → P v → kept (fifo_insert f key v cap) key (younger f key) P.
Proof.
  intros Hcap (Hnd & Hin & Hlen) HP. unfold fifo_insert, kept, younger.
  destruct (is_some (fifo_values f !! key)) eqn:Hk.
  { cbn [fifo_values fifo_order]. split; [|done]. exists v. by rewrite lookup_insert_eq. }
  rewrite (proj2 (Z.eqb_neq _ _)) by lia.
  assert (Hn : key ∉ fifo_order f) by (rewrite Hin; intros ?%is_some_spec; congruence).
  set (g := if cap <=? _ then fifo_pop f else f). cbn [fifo_values fifo_order]. split; [exists v; by rewrite lookup_insert_eq|].
  assert (Hng : key ∉ fifo_order g).
  { unfold g, fifo_pop. case_if; [|done]. destruct (fifo_order f) as [|old order] eqn:Eo; [by rewrite Eo|]. cbn [fifo_order]. by apply not_elem_of_cons in Hn as [_ ?]. }
  rewrite (after_key_notin key (fifo_order f)) by done.
  assert (∀ l : list K, key ∉ l → after_key key (l ++ [key]) = []) as Hl; [|by rewrite Hl].
  induction l as [|x l IH]; simpl; [by rewrite decide_True|]. intros [Hx Hl]%not_elem_of_cons.
  by rewrite decide_False by congruence; apply IH.
Qed.

(** Recording another key adds at most one key after it, and forgets it only
    when that makes [cap] of them. *)
Lemma fifo_insert_keeps f key v k n :
  fifo_ok cap f → kept f key n P → n + 1 < cap → (k = key → P v) → kept (fifo_insert f k v cap) key (n + 1) P.
Proof.
  intros (Hnd & Hin & Hlen) [(w & Hw & HPw) Hn] Hcap HPv. unfold fifo_insert.
  pose proof (fifo_size f cap ltac:(by split_and!)) as Hsz.
  destruct (is_some (fifo_values f !! k)) eqn:Hk.
  { split; [|unfold younger in *; cbn [fifo_order]; lia]. cbn [fifo_values].
    destruct (decide (k = key)) as [->|]; [exists v; rewrite lookup_insert_eq; auto|].
    exists w. by rewrite lookup_insert_ne. }
  case_if; [split; [by exists w|unfold younger in *; lia]|]. bools.
  assert (Hne : k ≠ key) by (intros ->; by rewrite Hw in Hk).
  assert (Hkey : key ∈ fifo_order f) by (apply Hin; by eexists).
  unfold kept, younger in *. cbn [fifo_values fifo_order]. destruct (Z.leb_spec cap (Z.of_nat (size (fifo_values f)))) as [Hfull|_].
  - unfold fifo_pop. destruct (fifo_order f) as [|old order] eqn:Eo; [by apply elem_of_nil in Hkey|].
    cbn [fifo_values fifo_order]. rewrite zlen_cons in *. cbn [after_key] in Hn.
    destruct (decide (old = key)) as [->|Hold]; [lia|].
    assert (key ∈ order) by (by apply elem_of_cons in Hkey as [->|?]).
    rewrite after_key_app, zlen_app by done. change (zlen [k]) with 1. split; [|lia].
    exists w. by rewrite lookup_insert_ne, lookup_delete_ne.
  - rewrite after_key_app, zlen_app by done. change (zlen [k]) with 1. split; [|lia].
    exists w. by rewrite lookup_insert_ne.
Qed.

Lemma kept_mono f key n n' : kept f key n P → n ≤ n' → kept f key n' P.
Proof. intros [Hv Hn] Hle. split; [done|lia]. Qed.

(** A list of steps each of which records at most one key, never lowering the
    value of [key]; [Q] are the items that record [key] itself. *)
Lemma kept_foldl {A} (step : Fifo K V → A → Fifo K V) key l f n :
  (∀ f a, fifo_ok cap f → fifo_ok cap (step f a)) →
  (∀ f a m, fifo_ok cap f → kept f key m P → m + 1 < cap → kept (step f a) key (m + 1) P) →
  fifo_ok cap f → kept f key n P → n + zlen l < cap → kept (foldl step f l) key (n + zlen l) P.
Proof.
  intros Hok Hstep. revert f n. induction l as [|a l IH]; intros f n Hf Hk Hn.
  - eapply kept_mono; [done|]. change (zlen []) with 0. lia.
  - rewrite zlen_cons in *. pose proof (zlen_nonneg l). cbn [foldl].
    replace (n + (1 + zlen l)) with (n + 1 + zlen l) by lia. apply IH; [by apply Hok| |lia]. apply Hstep; [done..|lia].
Qed.

Lemma kept_asked {A} (step : Fifo K V → A → Fifo K V) key a l f :
  (∀ f a, fifo_ok cap f → fifo_ok cap (step f a)) →
  (∀ f a m, fifo_ok cap f → kept f key m P → m + 1 < cap → kept (step f a) key (m + 1) P) →
  (∀ f, fifo_ok cap f → kept (step f a) key (younger f key) P) →
  (∀ f a, younger (step f a) key ≤ younger f key + 1) →
  a ∈ l → fifo_ok cap f → younger f key + zlen l < cap → kept (foldl step f l) key (younger f key + zlen l) P.
Proof.
  intros Hok Hstep Ha Hy Hin. revert f. induction l as [|b l IH]; intros f Hf Hn; [by apply elem_of_nil in Hin|].
  rewrite zlen_cons in *. pose proof (zlen_nonneg l). cbn [foldl]. apply elem_of_cons in Hin as [<-|Hin].
  - eapply kept_mono; [apply (kept_foldl step key l (step f a) (younger f key)); auto; lia|lia].
  - specialize (Hy f b). eapply kept_mono; [apply IH; auto; lia|lia].
Qed.
End kept.

Lemma younger_insert {K} `{Countable K} {V} (f : Fifo K V) k v cap key :
  younger (fifo_insert f k v cap) key ≤ younger f key + 1.
Proof.
  assert (Hpop : zlen (after_key key (fifo_order (fifo_pop f))) ≤ zlen (after_key key (fifo_order f))).
  { unfold fifo_pop. destruct (fifo_order f) as [|old order] eqn:Eo; [by rewrite Eo|]. cbn [fifo_order after_key].
    destruct (decide (old = key)); [|lia]. clear. induction order as [|x l IH]; [done|]. cbn [after_key].
    rewrite zlen_cons. destruct (decide (x = key)); lia. }
  assert (Happ : ∀ l : list K, zlen (after_key key (l ++ [k])) ≤ zlen (after_key key l) + 1).
  { induction l as [|x l IH]; simpl; [by destruct (decide (k = key))|].
    destruct (decide (x = key)); [|done]. rewrite zlen_app. change (zlen [k]) with 1. lia. }
  unfold fifo_insert, younger. case_if; [cbn [fifo_order]; lia|]. case_if; [lia|]. cbn [fifo_order].
  etrans; [apply Happ|]. case_if; lia.
Qed.

(** What one [e] or [a] tag of a request writes into its table. *)
Definition mark_id (cap : Z) (ev : Event) (f : Fifo (string * string) ()) (id : string) : Fifo (string * string) () :=
  if negb (is_hex_key id) then f else fifo_insert f (id, pubkey ev) tt cap.
Definition mark_address (cap : Z) (ev : Event) (f : Fifo Address Z) (value : string) : Fifo Address Z :=
  match parse_address value with
  | None => f
  | Some a =>
      if negb (bool_decide (a.1.2 = pubkey ev)) then f else
      fifo_insert f a (Z.max (default 0 (fifo_values f !! a)) (created_at ev)) cap
  end.

Lemma delete_by_id_marks ev s id :
  deleted_ids (delete_by_id ev s id) = mark_id (max_events s) ev (deleted_ids s) id ∧
  deleted_addresses (delete_by_id ev s id) = deleted_addresses s ∧ max_events (delete_by_id ev s id) = max_events s.
Proof.
  unfold delete_by_id, mark_id. destruct (is_hex_key id); [|done]. cbn [negb].
  destruct (remove_frame s id) as (_ & Hd & Ha & Hm & _). case_if; cbn; by rewrite ?Hd, ?Ha, ?Hm.
Qed.

Lemma delete_by_address_marks ev s v :
  deleted_addresses (delete_by_address ev s v) = mark_address (max_events s) ev (deleted_addresses s) v ∧
  deleted_ids (delete_by_address ev s v) = deleted_ids s ∧ max_events (delete_by_address ev s v) = max_events s.
Proof.
  unfold delete_by_address, mark_address. destruct (parse_address v) as [a|]; [|done]. case_bool_decide; [|done]. cbn [negb].
  destruct (at_address s a) as [old|]; [|done].
  destruct (remove_frame s (ev_id old)) as (_ & Hd & Ha & Hm & _). case_if; cbn; by rewrite ?Hd, ?Ha, ?Hm.
Qed.

Lemma delete_requested_marks s ev :
  deleted_ids (delete_requested s ev) = foldl (mark_id (max_events s) ev) (deleted_ids s) (tag_values ev "e") ∧
  deleted_addresses (delete_requested s ev) = foldl (mark_address (max_events s) ev) (deleted_addresses s) (tag_values ev "a").
Proof.
  assert (Hids : ∀ l s, let s' := foldl (delete_by_id ev) s l in
    deleted_ids s' = foldl (mark_id (max_events s) ev) (deleted_ids s) l ∧
    deleted_addresses s' = deleted_addresses s ∧ max_events s' = max_events s).
  { clear s. induction l as [|id l IH]; intros s; [done|]. cbn [foldl].
    destruct (IH (delete_by_id ev s id)) as (-> & -> & ->). destruct (delete_by_id_marks ev s id) as (-> & -> & ->). done. }
  assert (Hads : ∀ l s, let s' := foldl (delete_by_address ev) s l in
    deleted_addresses s' = foldl (mark_address (max_events s) ev) (deleted_addresses s) l ∧ deleted_ids s' = deleted_ids s).
  { clear s Hids. induction l as [|v l IH]; intros s; [done|]. cbn [foldl].
    destruct (IH (delete_by_address ev s v)) as (-> & ->). destruct (delete_by_address_marks ev s v) as (-> & -> & ->). done. }
  unfold delete_requested. destruct (Hids (tag_values ev "e") s) as (H1 & H2 & H3).
  destruct (Hads (tag_values ev "a") (foldl (delete_by_id ev) s (tag_values ev "e"))) as (-> & ->). by rewrite H1, H2, H3.
Qed.

Lemma store_accepted_marks s ev :
  deleted_ids (store_accepted s ev) = deleted_ids (if ev_kind ev =? 5 then delete_requested s ev else s) ∧
  deleted_addresses (store_accepted s ev) = deleted_addresses (if ev_kind ev =? 5 then delete_requested s ev else s).
Proof.
  assert (Hev : ∀ fuel s, deleted_ids (evict fuel s) = deleted_ids s ∧ deleted_addresses (evict fuel s) = deleted_addresses s).
  { clear. induction fuel as [|fuel IH]; intros s; [done|]. cbn [evict]. case_if; [done|]. destruct (oldest s) as [id|]; [|done].
    destruct (IH (remove s id)) as (-> & ->). by destruct (remove_frame s id) as (_ & -> & -> & _). }
  unfold store_accepted. set (s1 := if ev_kind ev =? 5 then _ else s).
  destruct (Hev (size (events (add_event s1 ev))) (add_event s1 ev)) as (-> & ->).
  by destruct (add_event_frame s1 ev) as (_ & -> & -> & _).
Qed.

(** The deletions an operation asks for: by identifier and by address. *)
Definition asked_ids (op : StoreOp) : list string :=
  match op with OpInsert ev => if ev_kind ev =? 5 then tag_values ev "e" else [] | _ => [] end.
Definition asked_addresses (op : StoreOp) : list string :=
  match op with OpInsert ev => if ev_kind ev =? 5 then tag_values ev "a" else [] | _ => [] end.
(** An operation leaves the tables alone or records what its request names. *)
Lemma run_op_marks s op :
  (deleted_ids (run_op s op) = deleted_ids s ∧ deleted_addresses (run_op s op) = deleted_addresses s) ∨
  ∃ ev, op = OpInsert ev ∧
    deleted_ids (run_op s op) = foldl (mark_id (max_events s) ev) (deleted_ids s) (asked_ids op) ∧
    deleted_addresses (run_op s op) = foldl (mark_address (max_events s) ev) (deleted_addresses s) (asked_addresses op).
Proof.
  destruct op as [ev| |]; [|left; by destruct (take_pending_same s) as (_ & _ & _ & ? & ? & _)
                           |left; by destruct (mark_all_dirty_same s) as (_ & _ & _ & ? & ? & _)].
  cbn [run_op]. unfold insert_event. case_if; [by left|]. case_if; [by left|]. case_if; [by left|].
  assert (Hacc : ∀ s', deleted_ids s' = deleted_ids s → deleted_addresses s' = deleted_addresses s → max_events s' = max_events s →
    ∃ ev0, OpInsert ev = OpInsert ev0 ∧
    deleted_ids (store_accepted s' ev) = foldl (mark_id (max_events s) ev0) (deleted_ids s) (asked_ids (OpInsert ev)) ∧
    deleted_addresses (store_accepted s' ev) = foldl (mark_address (max_events s) ev0) (deleted_addresses s) (asked_addresses (OpInsert ev))).
  { intros s' Hd Ha Hm. exists ev. split; [done|]. destruct (store_accepted_marks s' ev) as (-> & ->).
    destruct (delete_requested_marks s' ev) as (H1 & H2). cbn [asked_ids asked_addresses].
    destruct (ev_kind ev =? 5); [by rewrite H1, H2, Hd, Ha, Hm|done]. }
  destruct (address_of ev) as [a|]; [|right; by apply Hacc]. case_if; [by left|].
  destruct (at_address s a) as [old|]; [|right; by apply Hacc]. case_if; [by left|]. right.
  destruct (remove_frame s (ev_id old)) as (_ & Hd & Ha & Hm & _). by apply Hacc.
Qed.

Section marks.
Variables (cap : Z) (ev : Event).
Hypothesis cap_nonneg : 0 ≤ cap.

Lemma mark_id_ok f id : fifo_ok cap f → fifo_ok cap (mark_id cap ev f id).
Proof. intros Hf. unfold mark_id. case_if; [done|]. apply fifo_insert_ok; [lia|done]. Qed.

Lemma mark_address_ok f v : fifo_ok cap f → fifo_ok cap (mark_address cap ev f v).
Proof.
  intros Hf. unfold mark_address. destruct (parse_address v); [|done]. case_if; [done|]. apply fifo_insert_ok; [lia|done].
Qed.

Lemma mark_id_keeps f id key m :
  fifo_ok cap f → kept f key m (λ _, True) → m + 1 < cap → kept (mark_id cap ev f id) key (m + 1) (λ _, True).
Proof.
  intros Hf Hk Hm. unfold mark_id. case_if; [eapply kept_mono; [done|lia]|]. by apply fifo_insert_keeps.
Qed.

Lemma mark_address_keeps f v key m t :
  fifo_ok cap f → kept f key m (λ x, t ≤ x) → m + 1 < cap → kept (mark_address cap ev f v) key (m + 1) (λ x, t ≤ x).
Proof.
  intros Hf Hk Hm. unfold mark_address. destruct (parse_address v) as [a|]; [|eapply kept_mono; [done|lia]].
  case_if; [eapply kept_mono; [done|lia]|]. apply fifo_insert_keeps; [done..|].
  intros ->. destruct Hk as [(x & -> & Hx) _]. cbn. lia.
Qed.

Lemma mark_ids_kept id l f : is_hex_key id = true → id ∈ l → fifo_ok cap f →
  younger f (id, pubkey ev) + zlen l < cap →
  kept (foldl (mark_id cap ev) f l) (id, pubkey ev) (younger f (id, pubkey ev) + zlen l) (λ _, True).
Proof.
  intros Hid Hl Hf Hn. pose proof (zlen_nonneg l). pose proof (younger_nonneg f (id, pubkey ev)).
  eapply (kept_asked cap); [intros; by apply mark_id_ok|intros; by apply mark_id_keeps| |intros g b|exact Hl|done|done].
  - intros g Hg. unfold mark_id. rewrite Hid. apply fifo_insert_kept; [lia|done..].
  - unfold mark_id. case_if; [lia|apply younger_insert].
Qed.

Lemma mark_addresses_kept v a l f : parse_address v = Some a → a.1.2 = pubkey ev → v ∈ l → fifo_ok cap f →
  younger f a + zlen l < cap →
  kept (foldl (mark_address cap ev) f l) a (younger f a + zlen l) (λ x, created_at ev ≤ x).
Proof.
  intros Ha Hpk Hl Hf Hn. pose proof (zlen_nonneg l). pose proof (younger_nonneg f a).
  eapply (kept_asked cap); [intros; by apply mark_address_ok|intros; by apply mark_address_keeps| |intros g b|exact Hl|done|done].
  - intros g Hg. unfold mark_address. rewrite Ha, bool_decide_true by done. apply fifo_insert_kept; [lia|done|lia].
  - unfold mark_address. destruct (parse_address b); [|lia]. case_if; [lia|apply younger_insert].
Qed.
End marks.

(** What a run still remembers of the deletions made before it. *)
Lemma run_ops_kept s ops key n a m t : store_ok s → Forall op_wf ops →
  (kept (deleted_ids s) key n (λ _, True) → n + zlen (List.concat (map asked_ids ops)) < max_events s →
   kept (deleted_ids (foldl run_op s ops)) key (n + zlen (List.concat (map asked_ids ops))) (λ _, True)) ∧
  (kept (deleted_addresses s) a m (λ x, t ≤ x) → m + zlen (List.concat (map asked_addresses ops)) < max_events s →
   kept (deleted_addresses (foldl run_op s ops)) a (m + zlen (List.concat (map asked_addresses ops))) (λ x, t ≤ x)).
Proof.
  intros Hok Hops. revert s n m Hok. induction Hops as [|op ops Hop _ IH]; intros s n m Hok.
  { cbn. change (zlen []) with 0. split; intros Hk _; (eapply kept_mono; [exact Hk|lia]). }
  cbn [map List.concat foldl]. rewrite !zlen_app. destruct Hok as (Hix & Htb & Hlen).
  assert (Hmax : 0 ≤ max_events s) by (unfold len, zsize in Hlen; lia).
  destruct (run_op_ok s op) as [Hok' Hm']; [by split_and!|done|done|].
  destruct (IH (run_op s op) (n + zlen (asked_ids op)) (m + zlen (asked_addresses op)) Hok') as [IH1 IH2].
  rewrite Hm', <-!Z.add_assoc in IH1, IH2. pose proof (tb_ids_fifo s Htb) as Hf1. pose proof (tb_addresses_fifo s Htb) as Hf2.
  pose proof (zlen_nonneg (List.concat (map asked_ids ops))). pose proof (zlen_nonneg (List.concat (map asked_addresses ops))).
  pose proof (zlen_nonneg (asked_ids op)). pose proof (zlen_nonneg (asked_addresses op)).
  split; intros Hk Hn; [apply IH1; [|lia]|apply IH2; [|lia]];
    (destruct (run_op_marks s op) as [[Hd Ha]|(ev & -> & Hd & Ha)]; rewrite ?Hd, ?Ha; [eapply kept_mono; [exact Hk|lia]|]).
  - apply (kept_foldl (max_events s)); [intros; apply mark_id_ok; [lia|done]|intros; by apply mark_id_keeps|done..|lia].
  - apply (kept_foldl (max_events s)); [intros; apply mark_address_ok; [lia|done]|intros; by apply mark_address_keeps|done..|lia].
Qed.

Lemma insert_marks s ev : store_ok s → 0 ≤ created_at ev → 0 < max_events s → ev_kind ev = 5 → snd (insert_event s ev) = Stored →
  deleted_ids (run_op s (OpInsert ev)) = foldl (mark_id (max_events s) ev) (deleted_ids s) (tag_values ev "e") ∧
  deleted_addresses (run_op s (OpInsert ev)) = foldl (mark_address (max_events s) ev) (deleted_addresses s) (tag_values ev "a").
Proof.
  intros Hok Hca Hmax H5 Hst. destruct (kind_5 ev H5) as [Hkc Hna].
  assert (Heq : run_op s (OpInsert ev) = store_accepted s ev).
  { cbn [run_op]. revert Hst. unfold insert_event. rewrite Hna, H5. case_if; [done|]. by case_if. }
  rewrite Heq. destruct (store_accepted_marks s ev) as (-> & ->). rewrite H5. apply delete_requested_marks.
Qed.


(** An insertion does exactly what NIP-01 and NIP-09 ask. A refused event
    leaves the store as it was, and for the stated reason; an accepted one is
    newer than any version it replaces, and the events that remain are the
    ones that were there and itself, less the version it replaces, the events
    of its author its deletion request names, and, when the store is full,
    the single oldest one. *)
Theorem insert_effect s ev s' out :
  store_ok s → 0 ≤ created_at ev → 0 ≤ max_events s → insert_event s ev = (s', out) →
  insert_ok s ev s' out.
Proof. intros Hok Hca Hmax Hi. by destruct (insert_event_spec s ev s' out) as (_ & _ & ?). Qed.
