(* ===== verification/NostrQuery.v ===== *)
(** * What a query returns

    The theorems about [query] of [src/src/nostr/store.rs]. *)
From S2P Require Import Prelude Json Wire NostrEvent NostrStore.

(** [a] comes before [b] in an answer: newer, or as new with a smaller id. *)
Definition before (a b : Event) : Prop := newer_le (key_of a) (key_of b).

#[export] Instance newer_le_trans : Transitive newer_le.
Proof.
  intros [a s] [b t] [c u] [H1|[H1 H1']] [H2|[H2 H2']]; unfold newer_le in *; simpl in *; try (left; lia).
  right. split; [lia|by etrans].
Qed.
#[export] Instance newer_le_total : Total newer_le.
Proof.
  intros [a s] [b t]. unfold newer_le; simpl. destruct (Z.lt_trichotomy a b) as [H|[H|H]]; [auto| |auto].
  destruct (total String.le s t); auto.
Qed.
#[export] Instance entry_le_trans : Transitive entry_le.
Proof. intros a b c. unfold entry_le. apply transitivity. Qed.
#[export] Instance entry_le_total : Total entry_le.
Proof. intros a b. unfold entry_le. apply total. apply _. Qed.

(** ** Sorted lists *)

Lemma StronglySorted_filter {A} (R : relation A) (p : A → bool) l :
  StronglySorted R l → StronglySorted R (List.filter p l).
Proof.
  induction 1 as [|x l Hl IH Hx]; simpl; [constructor|]. destruct (p x); [|done].
  constructor; [done|]. rewrite Forall_forall in *. intros y Hy.
  apply elem_of_List_filter in Hy as [Hy _]. by apply Hx.
Qed.

Lemma StronglySorted_reverse {A} (R : relation A) l :
  StronglySorted R l → StronglySorted (flip R) (reverse l).
Proof.
  induction 1 as [|x l Hl IH Hx]; [constructor|]. rewrite reverse_cons. apply StronglySorted_app_2.
  - intros y z Hy ->%list_elem_of_singleton. rewrite elem_of_reverse in Hy.
    rewrite Forall_forall in Hx. by apply Hx.
  - done.
  - constructor; constructor.
Qed.

Lemma StronglySorted_strict l : StronglySorted Z.le l → NoDup l → StronglySorted Z.lt l.
Proof.
  induction 1 as [|x l Hl IH Hx]; [constructor|]. intros [Hnot Hnd]%NoDup_cons.
  constructor; [by apply IH|]. rewrite Forall_forall in *. intros y Hy. specialize (Hx y Hy).
  destruct (decide (x = y)) as [->|]; [done|lia].
Qed.

Lemma last_sorted l x y : StronglySorted Z.le l → last l = Some x → y ∈ l → y ≤ x.
Proof.
  intros Hs [l' ->]%last_Some Hy. apply elem_of_app in Hy as [Hy|Hy].
  - by eapply StronglySorted_app_1_elem_of; [exact Hs| |apply list_elem_of_singleton].
  - apply list_elem_of_singleton in Hy. lia.
Qed.

Section query.
Variable s : Store.
Hypothesis Hix : index_ok s.
Variable now : Z.

(** The event is stored, under its own id. *)
Definition stored (e : Event) : Prop := events s !! ev_id e = Some e.

Lemma stored_lookup k e : events s !! k = Some e → k = ev_id e ∧ stored e.
Proof. intros He. pose proof (ix_event s Hix _ _ He) as [<- _]. done. Qed.

Lemma stored_key e e' : stored e → stored e' → key_of e = key_of e' → e = e'.
Proof. unfold stored, key_of. intros He He' [= _ Hk]. congruence. Qed.

(** A result map: events under their own keys. *)
Definition keyed (m : gmap Key Event) : Prop := ∀ k e, m !! k = Some e → k = key_of e ∧ stored e.

Lemma in_order_spec m :
  keyed m → StronglySorted before (in_order m) ∧ NoDup (in_order m) ∧
  ∀ e, e ∈ in_order m ↔ m !! key_of e = Some e.
Proof.
  intros Hm. unfold in_order.
  pose proof (StronglySorted_merge_sort entry_le (map_to_list m)) as Hs.
  pose proof (merge_sort_Permutation entry_le (map_to_list m)) as Hp.
  assert (∀ p, p ∈ merge_sort entry_le (map_to_list m) → p.1 = key_of p.2) as Hk.
  { intros [k e] Hin. rewrite Hp in Hin. apply elem_of_map_to_list in Hin. by apply Hm in Hin as [? _]. }
  split_and!.
  - clear Hp. induction Hs as [|x l Hl IH Hx]; simpl; [constructor|]. constructor.
    + apply IH. intros p Hin. apply Hk. by right.
    + rewrite Forall_forall in Hx. apply Forall_forall. intros e (p & -> & Hin)%list_elem_of_fmap.
      unfold before. rewrite <-!Hk by (by left || by right). by apply Hx.
  - assert (NoDup (merge_sort entry_le (map_to_list m)).*1) as Hnd.
    { rewrite Hp. apply NoDup_fst_map_to_list. }
    clear Hs Hp. induction (merge_sort entry_le (map_to_list m)) as [|p l IH]; simpl; [constructor|].
    simpl in Hnd. apply NoDup_cons in Hnd as [Hnot Hnd]. constructor.
    + intros (q & Heq & Hin)%list_elem_of_fmap. apply Hnot, list_elem_of_fmap. exists q.
      split; [|done]. rewrite !Hk by (by left || by right). congruence.
    + apply IH; [|done]. intros q Hin. apply Hk. by right.
  - intros e. rewrite list_elem_of_fmap. split.
    + intros ([k e'] & -> & Hin). pose proof Hin as Hin'. rewrite Hp, elem_of_map_to_list in Hin.
      specialize (Hk _ Hin'). simpl in *. by subst k.
    + intros He. exists (key_of e, e). split; [done|]. rewrite Hp. by apply elem_of_map_to_list.
Qed.

(** A filter's matches in answer order. *)
Definition match_list (f : Filter) (P : list Event) : Prop :=
  StronglySorted before P ∧ NoDup P ∧ ∀ e, e ∈ P ↔ stored e ∧ visible f now e = true.

Definition insert_all (found : gmap Key Event) (l : list Event) : gmap Key Event :=
  foldl (λ m ev, <[key_of ev := ev]> m) found l.

(** ** The two ways to look for matches *)

Lemma candidates_spec f l :
  keyed (candidates s f now l) ∧
  ∀ e, candidates s f now l !! key_of e = Some e ↔ ev_id e ∈ l ∧ stored e ∧ visible f now e = true.
Proof.
  unfold candidates. induction l as [|id l [IHk IH]] using rev_ind.
  { split; [by intros k e Hk; simpl in Hk; rewrite lookup_empty in Hk|]. intros e. simpl. rewrite lookup_empty.
    split; [done|by intros [?%elem_of_nil _]]. }
  rewrite foldl_app. cbn [foldl]. set (m := foldl _ ∅ l) in *.
  assert (∀ e, ev_id e ∈ l ++ [id] ↔ ev_id e ∈ l ∨ ev_id e = id) as Hin.
  { intros e. by rewrite elem_of_app, list_elem_of_singleton. }
  destruct (events s !! id) as [ev|] eqn:He.
  2:{ split; [done|]. intros e. rewrite Hin, IH. unfold stored. split; [naive_solver|].
      intros [[?| ->] [? ?]]; [done|congruence]. }
  pose proof (stored_lookup _ _ He) as [-> Hst].
  destruct (visible f now ev) eqn:Hv.
  - split.
    + intros k e [[<- <-]|[_ Hk]]%lookup_insert_Some; [done|by apply IHk].
    + intros e. rewrite Hin. destruct (decide (key_of ev = key_of e)) as [Heq|Hne].
      * change (created_at ev, ev_id ev) with (key_of ev). rewrite Heq, lookup_insert_eq. split.
        -- intros [= ->]. split_and!; [by right|done|done].
        -- intros (_ & He' & _). f_equal. by apply stored_key.
      * change (created_at ev, ev_id ev) with (key_of ev). rewrite lookup_insert_ne, IH by done. split; [naive_solver|].
        intros [[?|Hid] [He' ?]]; [done|]. unfold stored in He'. rewrite Hid in He'. congruence.
  - split; [done|]. intros e. rewrite Hin, IH. split; [naive_solver|].
    intros [[?|Hid] [He' ?]]; [done|]. unfold stored in He'. rewrite Hid in He'. congruence.
Qed.

Lemma candidates_match f l :
  (∀ e, stored e → visible f now e = true → ev_id e ∈ l) → match_list f (in_order (candidates s f now l)).
Proof.
  intros Hall. destruct (candidates_spec f l) as [Hk He].
  destruct (in_order_spec _ Hk) as (Hs & Hnd & Hin). split_and!; [done|done|].
  intros e. rewrite Hin, He. naive_solver.
Qed.

Definition bucket (t : Z) : list string :=
  match by_time s !! t with Some ids => sort_strings (elements ids) | None => [] end.

Definition pick (f : Filter) (id : string) : option Event :=
  match events s !! id with Some ev => if visible f now ev then Some ev else None | None => None end.

Lemma elem_of_bucket t id : id ∈ bucket t ↔ ∃ e, events s !! id = Some e ∧ created_at e = t.
Proof.
  rewrite <-(ix_time s Hix). unfold bucket. destruct (by_time s !! t) as [l|].
  - rewrite elem_of_sort_strings, elem_of_elements. naive_solver.
  - split; [by intros ?%elem_of_nil|by intros (? & ? & _)].
Qed.

Lemma bucket_nodup t : NoDup (bucket t).
Proof. unfold bucket. destruct (by_time s !! t); [apply NoDup_sort_strings, NoDup_elements|constructor]. Qed.

Lemma bucket_sorted t : StronglySorted String.le (bucket t).
Proof.
  unfold bucket. destruct (by_time s !! t); [|constructor]. apply StronglySorted_merge_sort; apply _.
Qed.

Lemma pick_Some f id e : pick f id = Some e ↔ id = ev_id e ∧ stored e ∧ visible f now e = true.
Proof.
  unfold pick. split.
  - destruct (events s !! id) as [ev|] eqn:He; [|done]. destruct (visible f now ev) eqn:Hv; [|done].
    intros [= <-]. by apply stored_lookup in He as [-> ?].
  - intros (-> & He & Hv). unfold stored in He. by rewrite He, Hv.
Qed.

Lemma elem_of_picks f (l : list string) e :
  e ∈ omap (pick f) l ↔ ev_id e ∈ l ∧ stored e ∧ visible f now e = true.
Proof.
  rewrite list_elem_of_omap. setoid_rewrite pick_Some. naive_solver.
Qed.

Lemma picks_sorted f ts :
  StronglySorted (flip Z.lt) ts →
  StronglySorted before (omap (pick f) (List.concat (map bucket ts))) ∧
  NoDup (omap (pick f) (List.concat (map bucket ts))).
Proof.
  induction 1 as [|t ts Hts [IHs IHn] Ht]; simpl; [split; constructor|]. rewrite omap_app.
  assert (∀ e, e ∈ omap (pick f) (bucket t) → created_at e = t) as H1.
  { intros e (Hin & He & _)%elem_of_picks. apply elem_of_bucket in Hin as (e' & He' & Ht').
    unfold stored in He. congruence. }
  assert (∀ e, e ∈ omap (pick f) (List.concat (map bucket ts)) → created_at e < t) as H2.
  { intros e (Hin & He & _)%elem_of_picks. apply list_elem_of_In, in_concat in Hin as (l & (t' & <- & Ht')%in_map_iff & Hin).
    apply list_elem_of_In in Ht', Hin. rewrite Forall_forall in Ht. specialize (Ht _ Ht').
    apply elem_of_bucket in Hin as (e' & He' & Hc). unfold stored in He. simplify_eq. done. }
  split.
  - apply StronglySorted_app_2; [|clear IHs IHn H2|done].
    { intros a b Ha Hb. left. simpl. rewrite (H1 a Ha). by apply H2. }
    pose proof (bucket_sorted t) as Hs. induction Hs as [|id l Hl IH Hid]; simpl; [constructor|].
    simpl in H1. destruct (pick f id) as [e|] eqn:Hp; [|by apply IH]. constructor.
    + apply IH. intros e' He'. apply H1. by right.
    + rewrite Forall_forall in Hid. apply Forall_forall. intros e' He'. right. simpl. split.
      * rewrite (H1 e), (H1 e'); [done|by right|by left].
      * apply pick_Some in Hp as (-> & _). apply elem_of_picks in He' as (He' & _). by apply Hid.
  - apply NoDup_app. split_and!; [|intros e He1 He2; specialize (H1 e He1); specialize (H2 e He2); lia|done].
    clear H1 H2. pose proof (bucket_nodup t) as Hnd. induction Hnd as [|id l Hnot Hnd IH]; simpl; [constructor|].
    destruct (pick f id) as [e|] eqn:Hp; [|done]. constructor; [|done].
    apply pick_Some in Hp as (-> & _). by intros (? & _)%elem_of_picks.
Qed.

Lemma range_times_sorted since until :
  StronglySorted (flip Z.lt) (reverse (List.filter (λ t, (since <=? t) && (t <=? until))
    (merge_sort Z.le (elements (dom (by_time s)))))).
Proof.
  apply StronglySorted_reverse, StronglySorted_filter, StronglySorted_strict.
  - apply StronglySorted_merge_sort; apply _.
  - rewrite merge_sort_Permutation. apply NoDup_elements.
Qed.

Lemma elem_of_range since until e :
  stored e → (ev_id e ∈ range_rev s since until ↔ since ≤ created_at e ≤ until).
Proof.
  intros He. unfold range_rev. fold bucket.
  rewrite list_elem_of_In, in_concat. setoid_rewrite in_map_iff. setoid_rewrite <-list_elem_of_In. split.
  - intros (l & (t & <- & Ht) & Hin). apply elem_of_bucket in Hin as (e' & He' & <-).
    unfold stored in He. simplify_eq. rewrite elem_of_reverse, elem_of_List_filter in Ht.
    destruct Ht as [_ Ht]. by bools.
  - intros [H1 H2]. exists (bucket (created_at e)). split; [|apply elem_of_bucket; by exists e].
    exists (created_at e). split; [done|]. rewrite elem_of_reverse, elem_of_List_filter. split.
    + rewrite merge_sort_Permutation. apply elem_of_times.
      destruct (proj2 (ix_time s Hix (created_at e) (ev_id e))) as (l & ? & _); [by exists e|]. by eexists.
    + rewrite andb_true_iff, !Z.leb_le. done.
Qed.

Lemma newest_bound newest e : newest_created_at s = Some newest → stored e → created_at e ≤ newest.
Proof.
  intros Hn He. eapply last_sorted; [|exact Hn|].
  - apply StronglySorted_merge_sort; apply _.
  - rewrite merge_sort_Permutation. apply elem_of_times.
    destruct (proj2 (ix_time s Hix (created_at e) (ev_id e))) as (l & ? & _); [by exists e|]. by eexists.
Qed.

(** The flattened loop inserts the first matches. *)
Lemma scan_spec f limit c (l : list string) found :
  0 ≤ c < limit →
  scan s f now limit c l found = insert_all found (take (Z.to_nat (limit - c)) (omap (pick f) l)).
Proof.
  revert c found. induction l as [|id l IH]; intros c found Hc; simpl; [by rewrite take_nil|].
  unfold pick at 1. destruct (events s !! id) as [ev|] eqn:He; [|by apply IH].
  destruct (visible f now ev); [|by apply IH].
  replace (Z.to_nat (limit - c)) with (S (Z.to_nat (limit - (c + 1)))) by lia.
  pose proof (stored_lookup _ _ He) as [-> _]. cbn [take insert_all foldl].
  destruct (Z.eqb_spec (c + 1) limit) as [Hl|Hl].
  - replace (Z.to_nat (limit - (c + 1))) with 0%nat by lia. done.
  - by rewrite IH by lia.
Qed.

(** ** One filter *)

Definition filter_limit (f : Filter) (cap : Z) : Z := Z.min (default cap (f_limit f)) cap.

Lemma query_filter_spec f cap newest found :
  newest_created_at s = Some newest → 0 ≤ cap → (∀ n, f_limit f = Some n → 0 ≤ n) →
  (∀ e, stored e → 0 ≤ created_at e) →
  ∃ P, match_list f P ∧
    query_filter s cap now newest found f = insert_all found (take (Z.to_nat (filter_limit f cap)) P).
Proof.
  intros Hn Hcap Hlim Hpos. unfold query_filter. fold (filter_limit f cap).
  destruct (Z.eqb_spec (filter_limit f cap) 0) as [H0|H0].
  { exists (in_order (candidates s f now (elements (dom (events s))))). split; [|by rewrite H0].
    apply candidates_match. intros e He _. apply elem_of_elements, elem_of_dom. by exists e. }
  assert (0 < filter_limit f cap) as Hl.
  { unfold filter_limit in *. destruct (f_limit f) as [n|]; simpl in *; [specialize (Hlim n eq_refl)|]; lia. }
  destruct (ids f) as [l|] eqn:Hids.
  { exists (in_order (candidates s f now l)). split; [|done]. apply candidates_match.
    intros e _ Hv. unfold visible, matches in Hv. rewrite Hids in Hv. bools. simpl in *.
    unfold contains in *. by bools. }
  set (since := default 0 (f_since f)). set (until := Z.min (default newest (f_until f)) newest).
  assert (∀ e, stored e → visible f now e = true → since ≤ created_at e ≤ until) as Hrange.
  { intros e He Hv. unfold visible, matches in Hv. bools. subst since until.
    pose proof (newest_bound newest e Hn He). specialize (Hpos e He).
    destruct (f_since f), (f_until f); simpl in *; bools; lia. }
  destruct (Z.ltb_spec until since) as [Hlt|Hge].
  { exists []. split; [|by rewrite take_nil]. split_and!; [constructor|constructor|]. intros e.
    split; [by intros ?%elem_of_nil|]. intros [He Hv]. specialize (Hrange e He Hv). lia. }
  exists (omap (pick f) (range_rev s since until)). split.
  - unfold range_rev. fold bucket.
    destruct (picks_sorted f _ (range_times_sorted since until)) as [Hs Hnd].
    split_and!; [done|done|]. intros e. rewrite elem_of_picks. split; [by intros []|].
    intros [He Hv]. split; [|done]. apply (elem_of_range since until e He). by apply Hrange.
  - rewrite scan_spec by lia. by rewrite Z.sub_0_r.
Qed.

(** The reason a match is left out because of its own filter's limit. *)
Definition outnumbered (f : Filter) (cap : Z) (e : Event) : Prop :=
  ∃ M, NoDup M ∧ zlen M = filter_limit f cap ∧
    ∀ m, m ∈ M → stored m ∧ visible f now m = true ∧ before m e.

Lemma match_list_take f cap P e :
  0 ≤ filter_limit f cap → match_list f P → stored e → visible f now e = true →
  e ∈ take (Z.to_nat (filter_limit f cap)) P ∨ outnumbered f cap e.
Proof.
  intros Hl (Hs & Hnd & Hin) He Hv. set (n := Z.to_nat (filter_limit f cap)).
  assert (e ∈ P) as HeP by by apply Hin. rewrite <-(take_drop n P) in HeP.
  apply elem_of_app in HeP as [?|Hd]; [by left|]. right.
  rewrite <-(take_drop n P) in Hs, Hnd. exists (take n P). split_and!.
  - by apply NoDup_app in Hnd as [? _].
  - unfold zlen. rewrite length_take. assert (n ≤ length P)%nat; [|lia].
    destruct (le_lt_dec n (length P)) as [|Hlt]; [done|]. rewrite drop_ge in Hd by lia. by apply elem_of_nil in Hd.
  - intros m Hm. assert (m ∈ P) as HmP by by eapply subseteq_take.
    apply Hin in HmP as [? ?]. split_and!; [done|done|]. by eapply StronglySorted_app_1_elem_of.
Qed.

Lemma insert_all_spec found l :
  keyed found → (∀ e, e ∈ l → stored e) →
  keyed (insert_all found l) ∧
  ∀ e, insert_all found l !! key_of e = Some e ↔ e ∈ l ∨ found !! key_of e = Some e.
Proof.
  revert found. induction l as [|x l IH]; intros found Hk Hl; simpl.
  { split; [done|]. intros e. split; [by right|by intros [?%elem_of_nil|?]]. }
  assert (stored x) as Hx by (apply Hl; by left).
  destruct (IH (<[key_of x := x]> found)) as [Hk' He].
  { intros k e [[<- <-]|[_ Hf]]%lookup_insert_Some; [done|by apply Hk]. }
  { intros e He. apply Hl. by right. }
  split; [done|]. intros e. rewrite He, elem_of_cons.
  destruct (decide (key_of x = key_of e)) as [Heq|Hne].
  - rewrite Heq, lookup_insert_eq. split; [intros [?|[= ->]]; auto|].
    intros [[-> |?]|Hf]; [by right|by left|]. right. f_equal.
    apply stored_key; [done| |done]. by apply Hk in Hf as [_ ?].
  - rewrite lookup_insert_ne by done. split; [naive_solver|]. intros [[->|?]|?]; [done|auto|auto].
Qed.

Lemma query_fold cap newest fs found :
  newest_created_at s = Some newest → 0 ≤ cap → (∀ f n, f ∈ fs → f_limit f = Some n → 0 ≤ n) →
  (∀ e, stored e → 0 ≤ created_at e) → keyed found →
  let F := foldl (query_filter s cap now newest) found fs in
  keyed F ∧
  (∀ e, F !! key_of e = Some e → found !! key_of e = Some e ∨ ∃ f, f ∈ fs ∧ visible f now e = true) ∧
  (∀ e, found !! key_of e = Some e → F !! key_of e = Some e) ∧
  (∀ e f, f ∈ fs → stored e → visible f now e = true → F !! key_of e = Some e ∨ outnumbered f cap e).
Proof.
  intros Hn Hcap Hlim Hpos. revert found. induction fs as [|f fs IH]; intros found Hk F; subst F; simpl.
  { split_and!; [done|by left|done|by intros ? ? ?%elem_of_nil]. }
  destruct (query_filter_spec f cap newest found) as (P & HP & ->); [done|done| |done|].
  { intros n. apply Hlim. by left. }
  set (n := Z.to_nat (filter_limit f cap)).
  assert (∀ e, e ∈ take n P → stored e ∧ visible f now e = true) as Ht.
  { intros e He. apply HP. by eapply subseteq_take. }
  destruct (insert_all_spec found (take n P) Hk) as [Hk' Hin]; [intros e He; by apply Ht|].
  destruct (IH (λ f' n' Hf', Hlim f' n' (list_elem_of_further _ _ _ Hf')) _ Hk') as (H1 & H2 & H3 & H4).
  split_and!; [done| | |].
  - intros e [He|(f' & ? & ?)]%H2; [|right; exists f'; split; [by right|done]].
    apply Hin in He as [He|He]; [|by left]. right. exists f. split; [by left|by apply Ht].
  - intros e He. apply H3, Hin. by right.
  - intros e f' [->|Hf']%elem_of_cons He Hv; [|by apply H4].
    assert (0 ≤ filter_limit f cap) as Hfl.
    { unfold filter_limit. destruct (f_limit f) as [m|] eqn:Em; simpl; [|lia].
      assert (0 ≤ m) by (eapply Hlim; [by left|done]). lia. }
    destruct (match_list_take f cap P e Hfl HP He Hv) as [Hin'|?]; [|by right]. left.
    apply H3, Hin. by left.
Qed.
End query.

(** A query answers with stored, unexpired events that match one of its
    filters, newest first with ties by id, none twice, at most [cap] of them;
    and it leaves a match out only when [cap] others that come before it fill
    the answer, or as many matches of the same filter as its limit allows come
    before it. *)
Theorem query_exact s fs cap now :
  store_ok s → 0 ≤ cap → (∀ f n, f ∈ fs → f_limit f = Some n → 0 ≤ n) →
  (∀ k e, events s !! k = Some e → 0 ≤ created_at e) →
  let R := query s fs cap now in
  StronglySorted before R ∧ NoDup R ∧ zlen R ≤ cap ∧
  (∀ e, e ∈ R → events s !! ev_id e = Some e ∧ ∃ f, f ∈ fs ∧ visible f now e = true) ∧
  (∀ e f, f ∈ fs → events s !! ev_id e = Some e → visible f now e = true →
     e ∈ R ∨ (zlen R = cap ∧ ∀ r, r ∈ R → before r e) ∨ outnumbered s now f cap e).
Proof.
  intros (Hix & _) Hcap Hlim Hpos R. subst R. unfold query.
  destruct (newest_created_at s) as [newest|] eqn:Hn.
  2:{ split_and!; [constructor|constructor|done|by intros ? ?%elem_of_nil|]. intros e f _ He _. exfalso.
      unfold newest_created_at in Hn. apply last_None in Hn.
      assert (created_at e ∈ merge_sort Z.le (elements (dom (by_time s)))) as Hin.
      { rewrite merge_sort_Permutation. apply elem_of_times.
        destruct (proj2 (ix_time s Hix (created_at e) (ev_id e))) as (l & ? & _); [by exists e|]. by eexists. }
      rewrite Hn in Hin. by apply elem_of_nil in Hin. }
  destruct (Z.eqb_spec cap 0) as [->|H0].
  { split_and!; [constructor|constructor|done|by intros ? ?%elem_of_nil|]. intros e f _ He _. right; left.
    split; [done|by intros ? ?%elem_of_nil]. }
  destruct (query_fold s Hix now cap newest fs ∅) as (Hk & H1 & _ & H3);
    [done|done|done|intros e He; by eapply Hpos|intros k e He; by rewrite lookup_empty in He|].
  set (F := foldl (query_filter s cap now newest) ∅ fs) in *.
  destruct (in_order_spec s F Hk) as (Hs & Hnd & Hin). set (n := Z.to_nat cap).
  pose proof Hs as Hs'. pose proof Hnd as Hnd'. rewrite <-(take_drop n (in_order F)) in Hs', Hnd'.
  split_and!.
  - by apply StronglySorted_app_1_l in Hs'.
  - by apply NoDup_app in Hnd' as [? _].
  - unfold zlen. rewrite length_take. lia.
  - intros e He. assert (e ∈ in_order F) as HeF by by eapply subseteq_take. apply Hin in HeF.
    split; [by apply Hk in HeF as [_ ?]|]. apply H1 in HeF as [HeF|?]; [|done]. by rewrite lookup_empty in HeF.
  - intros e f Hf He Hv. destruct (H3 e f Hf He Hv) as [HeF|?]; [|by right; right].
    apply Hin in HeF. rewrite <-(take_drop n (in_order F)) in HeF.
    apply elem_of_app in HeF as [?|Hd]; [by left|]. right; left. split.
    + unfold zlen. rewrite length_take. assert (n ≤ length (in_order F))%nat; [|lia].
      destruct (le_lt_dec n (length (in_order F))) as [|Hlt]; [done|].
      rewrite drop_ge in Hd by lia. by apply elem_of_nil in Hd.
    + intros r Hr. by eapply StronglySorted_app_1_elem_of.
Qed.
