(* ===== verification/NostrLog.v ===== *)
(** * The event log mirrors the store

    The persistence half of [src/src/nostr/store.rs] with the flush of
    [src/src/nostr/mod.rs]: records are taken out under the lock, written
    without it, and a failed write schedules a snapshot. *)
From S2P Require Import Prelude Json Wire NostrEvent NostrStore NostrQuery.

(** What a log file says is stored. *)
Definition apply_line (m : gmap string Event) (l : Line) : gmap string Event :=
  match l with Ev ev => <[ev_id ev := ev]> m | Del id => delete id m end.
Definition log_events (lines : list Line) : gmap string Event := foldl apply_line ∅ lines.

(** [Relay::flush], split at its [await]: other tasks run while the taken
    records are in flight. *)
Record Persisted := { store : Store; disk : list Line; in_flight : option Pending }.

Inductive flush_step : Persisted → Persisted → Prop :=
| flush_insert s d p ev :
    0 ≤ created_at ev →
    flush_step {| store := s; disk := d; in_flight := p |}
               {| store := fst (insert_event s ev); disk := d; in_flight := p |}
| flush_take s d s' p :
    take_pending s = (s', p) →
    flush_step {| store := s; disk := d; in_flight := None |}
               {| store := s'; disk := d; in_flight := Some p |}
| flush_done s d p :
    flush_step {| store := s; disk := d; in_flight := Some p |}
               {| store := s; disk := apply_pending p d; in_flight := None |}
| flush_failed s d p d' :
    flush_step {| store := s; disk := d; in_flight := Some p |}
               {| store := mark_all_dirty s; disk := d'; in_flight := None |}.

Lemma log_events_snoc l x : log_events (l ++ [x]) = apply_line (log_events l) x.
Proof. unfold log_events. by rewrite foldl_app. Qed.

(** The log on disk with the queued records is the store, unless a snapshot is
    due. *)
Definition ids_ok (s : Store) : Prop := ∀ k ev, events s !! k = Some ev → ev_id ev = k.
Definition log_ok (d : list Line) (s : Store) : Prop :=
  persistent s = true ∧ ids_ok s ∧
  (rewrite_log s = false → log_events (d ++ pending s) = events s).

Lemma record_log d s l s0 :
  persistent s = true → ids_ok s → pending s = pending s0 → rewrite_log s = rewrite_log s0 →
  (rewrite_log s0 = false → log_events (d ++ pending s0) = events s0) →
  events s = apply_line (events s0) l → log_ok d (record s l).
Proof.
  intros Hp Hids Hpe Hrw Hlog He. destruct (record_frame s l) as (Her & _ & _ & _ & _ & _ & Hpr).
  split; [congruence|]. split; [intros k ev; rewrite Her; apply Hids|].
  rewrite Her. unfold record, mark_all_dirty. rewrite Hp. simpl.
  case_if; [simpl; by rewrite ?Hp|]. destruct (rewrite_log s) eqn:Hr; simpl; [done|]. intros _.
  rewrite Hpe, app_assoc, log_events_snoc, Hlog by congruence. done.
Qed.

Lemma remove_log d s id : log_ok d s → log_ok d (remove s id).
Proof.
  intros (Hp & Hids & Hlog). destruct (events s !! id) as [ev|] eqn:He.
  2:{ unfold remove. rewrite He. by split_and!. }
  rewrite (remove_eq _ _ _ He). eapply (record_log d _ _ s); try done.
  - intros k e. simpl. intros [_ Hk]%lookup_delete_Some. by apply Hids.
  - simpl. by rewrite (Hids _ _ He).
Qed.

Lemma set_tombs_log d s a b : log_ok d s → log_ok d (set_tombs s a b).
Proof. done. Qed.

Lemma add_event_log d s ev : log_ok d s → log_ok d (add_event s ev).
Proof.
  intros (Hp & Hids & Hlog). unfold add_event. eapply (record_log d _ _ s); try done.
  intros k e. simpl. intros [[<- <-]|[_ Hk]]%lookup_insert_Some; [done|by apply Hids].
Qed.

(** Insertion is made of three state changes, so what they keep it keeps. *)
Lemma insert_event_ind (P : Store → Prop) :
  (∀ s id, P s → P (remove s id)) → (∀ s a b, P s → P (set_tombs s a b)) →
  (∀ s ev, P s → P (add_event s ev)) →
  ∀ s ev, P s → P (fst (insert_event s ev)).
Proof.
  intros Hrem Htomb Hadd.
  assert (∀ fuel s, P s → P (evict fuel s)) as Hevict.
  { induction fuel as [|fuel IH]; intros s Hs; simpl; [done|]. case_if; [done|]. destruct (oldest s); auto. }
  assert (∀ s ev, P s → P (delete_requested s ev)) as Hdel.
  { intros s ev Hs. unfold delete_requested. set (s1 := foldl (delete_by_id ev) s _).
    assert (P s1) as Hs1.
    { subst s1. revert s Hs. induction (tag_values ev "e") as [|id l IH]; intros s Hs; simpl; [done|].
      apply IH. unfold delete_by_id. case_if; [done|]. apply Htomb. case_if; auto. }
    clearbody s1. clear s Hs. revert s1 Hs1. induction (tag_values ev "a") as [|v l IH]; intros s1 Hs1; simpl; [done|].
    apply IH. unfold delete_by_address. destruct (parse_address v) as [a|]; [|done].
    case_if; [done|]. apply Htomb. destruct (at_address s1 a); [|done]. case_if; auto. }
  assert (∀ s ev, P s → P (store_accepted s ev)) as Hacc.
  { intros s ev Hs. unfold store_accepted. apply Hevict, Hadd. case_if; auto. }
  intros s ev Hs. unfold insert_event. repeat (case_if; [done|]).
  destruct (address_of ev) as [a|]; [|by apply Hacc].
  case_if; [done|]. destruct (at_address s a) as [old|]; [|by apply Hacc].
  case_if; [done|]. by apply Hacc, Hrem.
Qed.

Lemma insert_event_log d s ev : log_ok d s → log_ok d (fst (insert_event s ev)).
Proof. apply insert_event_ind; auto using remove_log, add_event_log. Qed.

(** While the log is being read nothing is recorded. *)
Definition unlogged (r : bool) (s : Store) : Prop :=
  pending s = [] ∧ persistent s = false ∧ rewrite_log s = r.

Lemma record_unlogged r s l : unlogged r s → unlogged r (record s l).
Proof. intros (Hpe & Hp & Hr). unfold record. rewrite Hp. by split_and!. Qed.

Lemma remove_unlogged r s id : unlogged r s → unlogged r (remove s id).
Proof. intros Hs. unfold remove. destruct (events s !! id); [by apply record_unlogged|done]. Qed.

Lemma insert_event_unlogged r s ev : unlogged r s → unlogged r (fst (insert_event s ev)).
Proof.
  apply insert_event_ind; [apply remove_unlogged|done|].
  intros s' ev' Hs. by apply record_unlogged.
Qed.

(** ** Snapshots *)

Lemma log_events_ids (f : string → option Event) l k :
  (∀ id e, f id = Some e → ev_id e = id) →
  log_events (omap (λ id, Ev <$> f id) l) !! k = if decide (k ∈ l) then f k else None.
Proof.
  intros Hf. induction l as [|id l IH] using rev_ind.
  { by destruct (decide (k ∈ [])) as [?%elem_of_nil|]. }
  rewrite omap_app. simpl. destruct (f id) as [e|] eqn:He; simpl.
  - rewrite log_events_snoc. simpl. rewrite (Hf _ _ He). destruct (decide (id = k)) as [<-|Hne].
    + rewrite lookup_insert_eq. destruct (decide (id ∈ l ++ [id])) as [|Hn]; [done|]. set_solver.
    + rewrite lookup_insert_ne, IH by done.
      destruct (decide (k ∈ l)), (decide (k ∈ l ++ [id])); set_solver.
  - rewrite app_nil_r, IH. destruct (decide (k ∈ l)), (decide (k ∈ l ++ [id])); try done; [set_solver|].
    assert (k = id) as -> by set_solver. by rewrite He.
Qed.

Lemma snapshot_log s : index_ok s → log_events (snapshot s) = events s.
Proof.
  intros Hix. apply map_eq. intros k. unfold snapshot. rewrite (log_events_ids (λ id, events s !! id)).
  2:{ intros id e He. by apply (ix_event s Hix) in He as [? _]. }
  destruct (decide _) as [_|Hn]; [done|]. destruct (events s !! k) as [e|] eqn:He; [|done].
  exfalso. apply Hn. rewrite list_elem_of_In, in_concat. exists (bucket s (created_at e)).
  split; [|by apply list_elem_of_In, (elem_of_bucket s Hix); exists e].
  apply in_map_iff. exists (created_at e). split; [done|]. apply list_elem_of_In.
  rewrite merge_sort_Permutation. apply elem_of_times.
  destruct (proj2 (ix_time s Hix (created_at e) k)) as (l & ? & _); [by exists e|]. by eexists.
Qed.

Lemma apply_pending_eq p d : apply_pending p d = if p_rewrite p then p_lines p else d ++ p_lines p.
Proof.
  unfold apply_pending. destruct (p_rewrite p); simpl; [done|]. destruct (p_lines p); [by rewrite app_nil_r|done].
Qed.

(** The disk as it will be once the records in flight are written. *)
Definition settled (x : Persisted) : list Line :=
  match in_flight x with Some p => apply_pending p (disk x) | None => disk x end.

Lemma take_pending_log d s s' p :
  index_ok s → log_ok d s → take_pending s = (s', p) →
  log_events (apply_pending p d) = events s ∧ log_ok (apply_pending p d) s'.
Proof.
  intros Hix (Hp & Hids & Hlog). unfold take_pending. rewrite Hp. simpl.
  destruct (rewrite_log s || (compaction_threshold s <? log_lines s)) eqn:Hr; intros [= <- <-];
    rewrite apply_pending_eq; simpl.
  - rewrite snapshot_log by done. split; [done|]. split_and!; try done. intros _. simpl.
    by rewrite app_nil_r, snapshot_log.
  - bools. rewrite Hlog by done. split; [done|]. split_and!; try done. intros _. simpl.
    by rewrite app_nil_r, Hlog.
Qed.

(** ** Opening *)

Lemma insert_plain s ev s' :
  store_ok s → 0 ≤ created_at ev → 0 ≤ max_events s → insert_event s ev = (s', Stored) →
  len s' = len s + 1 → events s' = <[ev_id ev := ev]> (events s).
Proof.
  intros Hok Hca Hmax Hi Hlen. destruct (insert_event_spec s ev s' Stored Hok Hca Hmax Hi) as (_ & _ & H1 & _).
  assert (events s !! ev_id ev = None) as Hnew.
  { unfold insert_event, store_contains in Hi. by destruct (events s !! ev_id ev). }
  apply map_subseteq_size_eq.
  - apply map_subseteq_spec. intros k e Hk. destruct (H1 k e Hk) as [[-> ->]|(He & _)].
    + apply lookup_insert_eq.
    + rewrite lookup_insert_ne by congruence. done.
  - rewrite map_size_insert_None by done. unfold len, zsize in Hlen. lia.
Qed.

Section open_log.
Variable read_line : string → option (json + string).
Hypothesis read_unsigned : ∀ line ev, parse_line read_line line = Some (Ev ev) → 0 ≤ created_at ev.

(** The records a log file holds; a line that does not parse is none. *)
Definition read_log (lines : list string) : list Line := omap (parse_line read_line) lines.

Lemma open_line_log now s line d :
  store_ok s → 0 ≤ max_events s → pending s = [] → persistent s = false → len s < U64_MAX →
  (rewrite_log s = false → log_events d = events s) →
  let s' := open_line read_line now s line in
  pending s' = [] ∧ persistent s' = false ∧
  (rewrite_log s' = false → log_events (d ++ read_log [line]) = events s').
Proof.
  intros Hok Hmax Hpe Hp Hlen Hlog. unfold open_line, read_log. simpl.
  set (s1 := set_log s _ _ _ _). set (s2 := if ends_with _ line then s1 else set_rewrite s1).
  assert (events s2 = events s ∧ same_store s s2 ∧ pending s2 = [] ∧ persistent s2 = false ∧
    (rewrite_log s2 = false → rewrite_log s = false)) as (He2 & Hs2 & Hpe2 & Hp2 & Hr2) by (subst s2; by case_if).
  destruct (parse_line read_line line) as [[ev|id]|] eqn:Hl; simpl.
  - case_if; [done|]. destruct (insert_event s2 ev) as [s' out] eqn:Hi.
    assert (store_ok s2) as Hok2 by by eapply store_ok_same.
    assert (max_events s2 = max_events s) as Hm2 by by destruct Hs2 as (_ & _ & _ & _ & _ & ?).
    destruct (insert_event_unlogged (rewrite_log s2) s2 ev) as (F1 & F2 & F3); [done|].
    rewrite Hi in F1, F2, F3. simpl in F1, F2, F3.
    case_if; [done|]. split_and!; [done|done|]. rewrite F3. intros Hr.
    bools. rewrite log_events_snoc, Hlog by by apply Hr2. simpl. rewrite <-He2. symmetry.
    apply insert_plain; [done|by eapply read_unsigned|by rewrite Hm2|by subst out|].
    unfold sat_add in *. unfold len in *. rewrite He2 in *. lia.
  - destruct (remove_unlogged (rewrite_log s2) s2 id) as (? & ? & _); done.
  - done.
Qed.

Lemma open_lines_log now lines s d :
  store_ok s → 0 ≤ max_events s < U64_MAX → pending s = [] → persistent s = false →
  (rewrite_log s = false → log_events d = events s) →
  let s' := foldl (open_line read_line now) s lines in
  pending s' = [] ∧ (rewrite_log s' = false → log_events (d ++ read_log lines) = events s').
Proof.
  revert s d. induction lines as [|line lines IH]; intros s d Hok Hmax Hpe Hp Hlog; simpl.
  { by rewrite app_nil_r. }
  pose proof Hok as (_ & _ & Hlen).
  destruct (open_line_log now s line d) as (Hpe' & Hp' & Hlog'); [done|lia|done|done|lia|done|].
  destruct (open_line_ok read_line read_unsigned now s line) as [Hok' Hm']; [done|lia|].
  destruct (IH (open_line read_line now s line) (d ++ read_log [line])) as [? Hr];
    [done|by rewrite Hm'|done|done|done|].
  split; [done|]. intros Hrw. specialize (Hr Hrw). rewrite <-app_assoc in Hr. rewrite <-Hr.
  f_equal. f_equal. unfold read_log. simpl. by destruct (parse_line read_line line).
Qed.

Definition persisted_ok (x : Persisted) : Prop :=
  store_ok (store x) ∧ 0 ≤ max_events (store x) ∧ log_ok (settled x) (store x).

Lemma flush_step_ok x y : flush_step x y → persisted_ok x → persisted_ok y.
Proof.
  intros Hstep (Hok & Hmax & Hlog). destruct Hstep as [s d p ev Hca|s d s' p Ht|s d p|s d p d']; simpl in *.
  - destruct (insert_event s ev) as [s' out] eqn:Hi.
    destruct (insert_event_spec s ev s' out) as (Hok' & Hm' & _); [done..|].
    split_and!; simpl; [done|by rewrite Hm'|].
    pose proof (insert_event_log (settled {| store := s; disk := d; in_flight := p |}) s ev Hlog) as H.
    by rewrite Hi in H.
  - pose proof (take_pending_same s) as Hs. rewrite Ht in Hs. simpl in Hs.
    destruct (take_pending_log d s s' p) as [_ Hlog']; [apply Hok|done|done|].
    split_and!; simpl; [by eapply store_ok_same|by destruct Hs as (_ & _ & _ & _ & _ & ->)|done].
  - by split_and!.
  - pose proof (mark_all_dirty_same s) as Hs. destruct Hlog as (Hp & Hids & _).
    split_and!; simpl; [by eapply store_ok_same|by destruct Hs as (_ & _ & _ & _ & _ & ->)|].
    unfold mark_all_dirty. rewrite Hp. by split_and!.
Qed.

Lemma persisted_reachable limit now lines x :
  0 ≤ limit < U64_MAX →
  rtc flush_step {| store := open_store read_line (Some lines) limit now;
                    disk := read_log lines; in_flight := None |} x →
  persisted_ok x.
Proof.
  intros Hl Hr.
  assert (persisted_ok {| store := open_store read_line (Some lines) limit now;
                          disk := read_log lines; in_flight := None |}) as H0.
  { destruct (open_store_ok read_line read_unsigned (Some lines) limit now) as [Hok Hm]; [lia|].
    split; [exact Hok|]. split; [change (0 ≤ max_events (open_store read_line (Some lines) limit now)); lia|].
    split; [done|split].
    - intros k ev He. destruct Hok as (Hix & _). by apply (ix_event _ Hix) in He as [? _].
    - simpl. destruct (open_lines_log now lines (new_store limit) []) as [Hpe Hlog];
        [apply new_store_ok; lia|exact Hl|done|done|done|].
      rewrite Hpe, app_nil_r. done. }
  revert H0. induction Hr as [|x0 x1 x2 Hs _ IH]; [done|]. intros H0. by eapply IH, flush_step_ok.
Qed.
End open_log.

(** C28: the log never loses an event. Whatever the relay inserted, and however
    flushes interleaved with insertions or failed halfway, the records that a
    flush takes now make the file say exactly what the store holds; and when
    nothing is queued, in flight or due for a snapshot, it already does. *)
Theorem log_mirrors_store read_line limit now lines x :
  0 ≤ limit < U64_MAX →
  (∀ line ev, parse_line read_line line = Some (Ev ev) → 0 ≤ created_at ev) →
  rtc flush_step {| store := open_store read_line (Some lines) limit now;
                    disk := read_log read_line lines; in_flight := None |} x →
  (in_flight x = None →
   log_events (apply_pending (snd (take_pending (store x))) (disk x)) = events (store x)) ∧
  (in_flight x = None → pending (store x) = [] → rewrite_log (store x) = false →
   log_events (disk x) = events (store x)).
Proof.
  intros Hl Hread Hr. destruct (persisted_reachable _ Hread _ _ _ _ Hl Hr) as (Hok & Hmax & Hlog).
  unfold settled in Hlog. split; intros Hf; rewrite Hf in Hlog.
  - destruct (take_pending (store x)) as [s' p] eqn:Ht.
    by destruct (take_pending_log (disk x) (store x) s' p) as [? _]; [apply Hok| | |].
  - intros Hpe Hrw. destruct Hlog as (_ & _ & Hlog). rewrite <-Hlog, Hpe by done. by rewrite app_nil_r.
Qed.

(** ** Witnesses *)

Definition toy_event (id : string) (t kind : Z) (tg : list (list string)) : Event := {|
  ev_id := id; pubkey := "author"; created_at := t; ev_kind := kind; tags := tg;
  content := EmptyString; ev_sig := EmptyString |}.
Definition toy_read (line : string) : option (json + string) := None.
Definition toy_ops : list StoreOp :=
  [OpInsert (toy_event "a" 1 1 []); OpInsert (toy_event "b" 2 0 []); OpInsert (toy_event "c" 3 0 [])].
Definition toy_store : Store := foldl run_op (open_store toy_read (Some []) 2 0) toy_ops.

Lemma toy_store_ok : store_ok toy_store.
Proof.
  destruct (open_store_ok toy_read (λ line ev (H : None = Some (Ev ev)), ltac:(done)) (Some []) 2 0) as [Hok Hm]; [done|].
  unfold toy_store. apply run_ops_ok; [done|by repeat constructor|by rewrite Hm].
Qed.

Definition hex_id : string := "0123456789abcdef0123456789abcdef0123456789abcdef0123456789abcdef".
Definition deletion : Event := toy_event "r" 2 5 [["e"; hex_id]].
Definition deleting_ops : list StoreOp :=
  [OpInsert (toy_event hex_id 1 1 []); OpInsert deletion; OpInsert (toy_event hex_id 1 1 [])].
Definition deleting_store : Store := foldl run_op (open_store toy_read (Some []) 4 0) deleting_ops.


Lemma insert_effect_witness :
  let ev := toy_event "d" 4 1 [] in
  let s' := fst (insert_event toy_store ev) in
  len s' = 2 ∧ events s' !! "a" = None ∧ insert_ok toy_store ev s' Stored.
Proof.
  intros ev s'. split; [by vm_compute|]. split; [by vm_compute|].
  apply (insert_effect toy_store ev s' Stored); [apply toy_store_ok|done|by vm_compute|].
  unfold s'. by assert (snd (insert_event toy_store ev) = Stored) as <- by by vm_compute;
    destruct (insert_event toy_store ev).
Defined.

Lemma query_exact_witness :
  query toy_store [default_filter] 10 0 = [toy_event "c" 3 0 []; toy_event "a" 1 1 []] ∧
  zlen (query toy_store [default_filter] 10 0) ≤ 10.
Proof.
  split; [by vm_compute|].
  apply (query_exact toy_store [default_filter] 10 0); [apply toy_store_ok|done| |].
  - by intros f n ->%list_elem_of_singleton.
  - intros k e He. assert (Forall (λ p, 0 ≤ created_at p.2) (map_to_list (events toy_store))) as Hall.
    { vm_compute. by repeat constructor. }
    rewrite Forall_forall in Hall. by apply (Hall (k, e)), elem_of_map_to_list.
Defined.

Lemma log_mirrors_store_witness :
  let s := fst (insert_event (open_store toy_read (Some []) 2 0) (toy_event "a" 1 1 [])) in
  log_events (apply_pending (snd (take_pending s)) []) = events s.
Proof.
  intros s. destruct (log_mirrors_store toy_read 2 0 [] {| store := s; disk := []; in_flight := None |})
    as [H _]; [done|by intros line ev H| |by apply H].
  apply rtc_once. by apply flush_insert.
Defined.
