(* ===== verification/Schedule.v ===== *)
(** * Schedule expressions

    [src/src/scheduler/schedule.rs]: parsing an expression, and the next time
    it fires. [chrono] and [cron] are parameters ([Chrono]). Operations of
    [chrono] that panic out of range return [Panic]; [i64] arithmetic wraps, as
    it does in the release build. *)
From S2P Require Import Prelude Text.

Definition MINUTE : Z := 60 * SECOND.
Definition HOUR : Z := 60 * MINUTE.
Definition DAY : Z := 24 * HOUR.

Inductive local_result := LocalNone | Single (t : Z) | Ambiguous (earlier later : Z).

(** Instants and durations are nanoseconds, dates count days from 1970-01-01.
    [delta_max] bounds [TimeDelta], [time_min] and [time_max] bound [DateTime]. *)
Class Chrono := {
  delta_max : Z;
  time_min : Z;
  time_max : Z;
  date_naive : Z → Z;
  with_ymd_and_hms : Z → Z → Z → local_result;
  cron : Type;
  cron_from_str : string → option cron;
  cron_after : cron → Z → option Z;
}.

Inductive failure := Fail (message : string) | Panic.

(** The days of the week, Monday first as [num_days_from_monday] counts. *)
Inductive Weekday := Mon | Tue | Wed | Thu | Fri | Sat | Sun.
#[global] Instance Weekday_eq_dec : EqDecision Weekday.
Proof. solve_decision. Defined.

Definition num_days_from_monday (d : Weekday) : Z :=
  match d with Mon => 0 | Tue => 1 | Wed => 2 | Thu => 3 | Fri => 4 | Sat => 5 | Sun => 6 end.

(** 1970-01-01 was a Thursday. *)
Definition weekday_of (date : Z) : Z := (date + 3) mod 7.

(** Two's complement wrap-around of [i64]. *)
Definition wrap_i64 (n : Z) : Z := (n + 2 ^ 63) mod 2 ^ 64 - 2 ^ 63.
Definition I64_MAX : Z := 2 ^ 63 - 1.

Section schedule.
Context {C : Chrono}.

(** [Duration::days], [hours], [minutes], [seconds] and [Duration + Duration]. *)
Definition duration (unit n : Z) : result Z failure :=
  if Z.abs (n * unit) <=? delta_max then Ok (n * unit) else Err Panic.

Definition add_durations (a b : Z) : result Z failure :=
  if Z.abs (a + b) <=? delta_max then Ok (a + b) else Err Panic.

(** [DateTime + Duration] *)
Definition add_time (t d : Z) : result Z failure :=
  if (time_min <=? t + d) && (t + d <=? time_max) then Ok (t + d) else Err Panic.

Inductive Schedule :=
| WeeklyOnDow (weeks : Z) (dow : Weekday) (hour minute : Z)
| IntervalAtTime (interval hour minute : Z)
| Interval (interval : Z)
| Cron (c : cron).

(** [bumps] are the bumps still to try. *)
Fixpoint local_at_from (bumps : list Z) (date hour minute : Z) : option Z :=
  match bumps with
  | [] => None
  | bump :: bumps =>
      let total_minutes := hour * 60 + minute + bump in
      let h := total_minutes / 60 in
      let m := total_minutes mod 60 in
      if 23 <? h then None else
      match with_ymd_and_hms date h m with
      | Single dt => Some dt
      | Ambiguous dt _ => Some dt
      | LocalNone => local_at_from bumps date hour minute
      end
  end.

Definition local_at (date hour minute : Z) : option Z :=
  local_at_from (seqZ 0 180) date hour minute.

Definition next_after_weekly_on_dow (t weeks : Z) (dow : Weekday) (hour minute : Z)
    : result (option Z) failure :=
  let? interval := duration DAY (wrap_i64 (weeks * 7)) in
  let? min_time := add_time t interval in
  match local_at (date_naive min_time) hour minute with
  | None => Ok None
  | Some candidate =>
      let advance := (num_days_from_monday dow - weekday_of (date_naive candidate)) mod 7 in
      let? d := duration DAY advance in
      let? candidate := add_time candidate d in
      if candidate <=? t then
        let? week := duration DAY 7 in
        let? candidate := add_time candidate week in Ok (Some candidate)
      else Ok (Some candidate)
  end.

Definition next_after_interval_at_time (t interval hour minute : Z) : result (option Z) failure :=
  let? base := add_time t interval in
  match local_at (date_naive base) hour minute with
  | None => Ok None
  | Some next =>
      if next <=? t then
        let? d := duration HOUR 24 in
        let? next := add_time next d in Ok (Some next)
      else Ok (Some next)
  end.

Definition next_after (s : Schedule) (t : Z) : result (option Z) failure :=
  match s with
  | WeeklyOnDow weeks dow hour minute => next_after_weekly_on_dow t weeks dow hour minute
  | IntervalAtTime interval hour minute => next_after_interval_at_time t interval hour minute
  | Interval interval => let? next := add_time t interval in Ok (Some next)
  | Cron schedule => Ok (cron_after schedule t)
  end.

(** ** Parsing *)

(** The pairs of [parse_unit_pairs]: [digits] are the digits read so far. *)
Fixpoint unit_pairs (digits : string) (l : list string) : option (list (Z * string)) :=
  match l with
  | [] => if bool_decide (digits = "") then Some [] else None
  | c :: l =>
      if string_forallb is_ascii_digit c then unit_pairs (digits +:+ c) l
      else if bool_decide (digits = "") then None else
        n ← parse_uint I64_MAX digits;
        rest ← unit_pairs "" l;
        Some ((n, to_ascii_lowercase c) :: rest)
  end.

Definition parse_unit_pairs (s : string) : option (list (Z * string)) :=
  let s := trim s in
  if bool_decide (s = "") then None else unit_pairs "" (chars s).

Definition parse_weeks_only (s : string) : option Z :=
  match parse_unit_pairs s with
  | Some [(n, unit)] => if bool_decide (unit = "w") then Some n else None
  | _ => None
  end.

(** The loops over the pairs: each unit of [units] at most once, 0 when absent. *)
Fixpoint collect_units (units : list string) (seen : list (string * Z)) (pairs : list (Z * string))
    : option (list (string * Z)) :=
  match pairs with
  | [] => Some seen
  | (n, unit) :: pairs =>
      if contains units unit && negb (contains seen.*1 unit)
      then collect_units units ((unit, n) :: seen) pairs
      else None
  end.

Definition unit_of (u : string) (seen : list (string * Z)) : Z :=
  match List.find (λ p, bool_decide (p.1 = u)) seen with Some p => p.2 | None => 0 end.

Definition parse_week_day (s : string) : option (Z * Z) :=
  pairs ← parse_unit_pairs s;
  seen ← collect_units ["w"; "d"] [] pairs;
  Some (unit_of "w" seen, unit_of "d" seen).

Definition parse_hms (s : string) : option (Z * Z * Z) :=
  pairs ← parse_unit_pairs s;
  seen ← collect_units ["h"; "m"; "s"] [] pairs;
  Some (unit_of "h" seen, unit_of "m" seen, unit_of "s" seen).

Definition dow_names : list (string * Weekday) :=
  [("sun", Sun); ("mon", Mon); ("tue", Tue); ("wed", Wed); ("thu", Thu); ("fri", Fri); ("sat", Sat)].

Definition parse_dow (s : string) : option Weekday :=
  snd <$> List.find (λ p, bool_decide (p.1 = to_ascii_lowercase s)) dow_names.

Definition parse_hhmm (s : string) : option (Z * Z) :=
  match split_once ":" s with
  | None => None
  | Some (h, m) =>
      if bool_decide (h = "") || negb (slen m =? 2) then None else
      if negb (string_forallb is_ascii_digit h) || negb (string_forallb is_ascii_digit m) then None else
      hour ← parse_uint U32_MAX h;
      minute ← parse_uint U32_MAX m;
      if (23 <? hour) || (59 <? minute) then None else Some (hour, minute)
  end.

Definition days_interval (weeks days : Z) : result Z failure :=
  duration DAY (wrap_i64 (weeks * 7 + days)).

Definition parse_every (rest : string) : result Schedule failure :=
  match split_whitespace rest with
  | [a; b; c] =>
      let? weeks := ok_or (parse_weeks_only a) (Fail "expected a week interval") in
      let? dow := ok_or (parse_dow b) (Fail "expected a weekday") in
      let? hm := ok_or (parse_hhmm c) (Fail "expected a time") in
      Ok (WeeklyOnDow weeks dow hm.1 hm.2)
  | [a; b] =>
      let? wd := ok_or (parse_week_day a) (Fail "expected an interval") in
      let? hm := ok_or (parse_hhmm b) (Fail "expected a time") in
      let? interval := days_interval wd.1 wd.2 in
      Ok (IntervalAtTime interval hm.1 hm.2)
  | [a] =>
      match parse_week_day a with
      | Some (weeks, days) => let? interval := days_interval weeks days in Ok (Interval interval)
      | None =>
          match parse_hms a with
          | Some (h, m, s) =>
              let? h := duration HOUR h in
              let? m := duration MINUTE m in
              let? hm := add_durations h m in
              let? s := duration SECOND s in
              let? interval := add_durations hm s in
              if interval <=? 0 then Err (Fail "duration must be positive") else Ok (Interval interval)
          | None => Err (Fail "could not parse @every interval")
          end
      end
  | [] => Err (Fail "@every needs an interval")
  | _ => Err (Fail "too many fields in @every expression")
  end.

Definition strip_every_prefix (expr : string) : option string :=
  let head := string_take 6 expr in
  let rest := string_drop 6 expr in
  if (slen expr <? 6) || is_some_and is_continuation (String.get 0 rest)
     || negb (eq_ignore_ascii_case head "@every") then None else
  if bool_decide (rest = "") then Some "" else
  match whitespace_len rest with O => None | _ => Some (trim rest) end.

Definition descriptor_cron (lower : string) : option string :=
  if contains ["@hourly"] lower then Some "0 0 * * * *" else
  if contains ["@daily"; "@midnight"] lower then Some "0 0 0 * * *" else
  if contains ["@weekly"] lower then Some "0 0 0 * * SUN" else
  if contains ["@monthly"] lower then Some "0 0 0 1 * *" else
  if contains ["@yearly"; "@annually"] lower then Some "0 0 0 1 1 *" else None.

Definition map_num (tok : string) : string :=
  match parse_uint 255 tok with
  | Some n => if n <=? 7 then show (n mod 7 + 1) else tok
  | None => tok
  end.

Definition map_range (range : string) : string := join "-" (map map_num (split_on "-" range)).

Definition rewrite_part (part : string) : string :=
  match split_once "/" part with
  | Some (range, step) => map_range range +:+ "/" +:+ step
  | None => map_range part
  end.

Definition rewrite_dow_field (field : string) : string :=
  join "," (map rewrite_part (split_on "," field)).

Definition normalize_fields (fields : list string) : list string :=
  let fields := if zlen fields =? 5 then "0" :: fields else fields in
  match fields with
  | [a; b; c; d; e; f] => [a; b; c; d; e; rewrite_dow_field f]
  | _ => fields
  end.

Definition parse_cron (expr : string) : result Schedule failure :=
  let normalized := join " " (normalize_fields (split_whitespace expr)) in
  let? c := ok_or (cron_from_str normalized) (Fail "invalid cron expression") in
  Ok (Cron c).

Definition parse (expr : string) : result Schedule failure :=
  let trimmed := trim expr in
  if bool_decide (trimmed = "") then Err (Fail "empty schedule expression") else
  match strip_every_prefix trimmed with
  | Some rest => parse_every rest
  | None =>
      match descriptor_cron (to_ascii_lowercase trimmed) with
      | Some cron_expr => parse_cron cron_expr
      | None => parse_cron trimmed
      end
  end.
End schedule.

Arguments Schedule : clear implicits.
Arguments Schedule {C}.

(** ** The next fire time lies ahead *)

(** What the code relies on: the offset of the local zone is less than a day,
    dates and times of day are those of the shifted clock, a cron schedule fires
    after the given time. *)
Class ChronoLaws (C : Chrono) := {
  offset : Z → Z;
  offset_bound t : Z.abs (offset t) < DAY;
  date_spec t : date_naive t * DAY ≤ t + offset t < (date_naive t + 1) * DAY;
  hms_single d h m t :
    with_ymd_and_hms d h m = Single t → t + offset t = d * DAY + (h * 60 + m) * MINUTE;
  hms_ambiguous d h m t u :
    with_ymd_and_hms d h m = Ambiguous t u → t + offset t = d * DAY + (h * 60 + m) * MINUTE;
  cron_after_spec c t u : cron_after c t = Some u → t < u;
}.

Section progress.
Context {C : Chrono} {L : ChronoLaws C}.

(** The schedules an expression without zero or wrapped intervals yields; an
    offset that changes by a day or more could undo an interval of one day. *)
Definition progressive (s : Schedule) : Prop :=
  match s with
  | WeeklyOnDow weeks _ hour minute => 0 ≤ weeks * 7 < 2 ^ 63 ∧ 0 ≤ hour ∧ 0 ≤ minute
  | IntervalAtTime interval hour minute =>
      0 ≤ hour ∧ 0 ≤ minute ∧
      (2 * DAY ≤ interval ∨ DAY ≤ interval ∧ ∀ a b, Z.abs (offset a - offset b) < DAY)
  | Interval interval => 0 < interval
  | Cron _ => True
  end.

Lemma wrap_i64_small n : 0 ≤ n < 2 ^ 63 → wrap_i64 n = n.
Proof. intros Hn. unfold wrap_i64. rewrite Z.mod_small by lia. lia. Qed.

Lemma local_at_spec date hour minute t :
  0 ≤ hour → 0 ≤ minute → local_at date hour minute = Some t →
  date * DAY + (hour * 60 + minute) * MINUTE ≤ t + offset t < (date + 1) * DAY.
Proof.
  intros Hh Hm. unfold local_at.
  assert (Hb : Forall (λ b, 0 ≤ b) (seqZ 0 180))
    by (apply Forall_forall; intros b Hb%elem_of_seqZ; lia).
  induction (seqZ 0 180) as [|b bumps IH]; [done|]. apply Forall_cons in Hb as [Hb Hbs].
  cbn [local_at_from]. destruct (Z.ltb_spec 23 ((hour * 60 + minute + b) / 60)) as [|Hlt]; [done|].
  assert (Hdm := Z.div_mod (hour * 60 + minute + b) 60 ltac:(lia)).
  assert (Hmod := Z.mod_pos_bound (hour * 60 + minute + b) 60 ltac:(lia)).
  destruct (with_ymd_and_hms _ _ _) as [|u|u v] eqn:E; [by apply IH| |]; intros [= ->];
    [apply hms_single in E|apply hms_ambiguous in E];
    unfold DAY, HOUR, MINUTE, SECOND in *; lia.
Qed.

Lemma add_time_Ok t d u : add_time t d = Ok u → u = t + d.
Proof. unfold add_time. intros H. by cases_in H. Qed.

Lemma duration_Ok unit n d : duration unit n = Ok d → d = n * unit.
Proof. unfold duration. intros H. by cases_in H. Qed.

(** The clock of a later instant has not fallen a day back. *)
Lemma local_at_after t u date hour minute :
  0 ≤ hour → 0 ≤ minute → local_at date hour minute = Some u → date = date_naive t →
  t < u + 3 * DAY.
Proof.
  intros Hh Hm Hu ->. pose proof (local_at_spec _ _ _ _ Hh Hm Hu) as [Hlo _].
  pose proof (date_spec t) as [_ Hd]. pose proof (offset_bound t). pose proof (offset_bound u).
  assert (0 ≤ (hour * 60 + minute) * MINUTE) by (unfold MINUTE, SECOND; nia). lia.
Qed.

Lemma next_weekly t weeks dow hour minute u :
  0 ≤ weeks * 7 < 2 ^ 63 → 0 ≤ hour → 0 ≤ minute →
  next_after_weekly_on_dow t weeks dow hour minute = Ok (Some u) → t < u.
Proof.
  intros Hw Hh Hm. unfold next_after_weekly_on_dow. rewrite wrap_i64_small by done.
  intros (d & Hd%duration_Ok & H)%rbind_Ok. apply rbind_Ok in H as (b & Hb%add_time_Ok & H).
  destruct (local_at _ _ _) as [c|] eqn:Hc; [|done].
  apply rbind_Ok in H as (e & He%duration_Ok & H). apply rbind_Ok in H as (c' & Hc'%add_time_Ok & H).
  assert (Hadv := Z.mod_pos_bound (num_days_from_monday dow - weekday_of (date_naive c)) 7 ltac:(lia)).
  pose proof (local_at_after b c _ hour minute Hh Hm Hc eq_refl) as Hlt.
  assert (0 < DAY) by done.
  destruct (Z.leb_spec c' t) as [Hle|]; [|by injection H as <-].
  apply rbind_Ok in H as (w & Hw'%duration_Ok & H). apply rbind_Ok in H as (v & Hv%add_time_Ok & H).
  injection H as <-. subst. nia.
Qed.

Lemma next_interval_at_time t interval hour minute u :
  progressive (IntervalAtTime interval hour minute) →
  next_after_interval_at_time t interval hour minute = Ok (Some u) → t < u.
Proof.
  intros (Hh & Hm & Hi). unfold next_after_interval_at_time.
  intros (b & Hb%add_time_Ok & H)%rbind_Ok.
  destruct (local_at _ _ _) as [c|] eqn:Hc; [|done].
  pose proof (local_at_spec _ _ _ _ Hh Hm Hc) as [Hlo _].
  pose proof (date_spec b) as [_ Hd]. pose proof (offset_bound b). pose proof (offset_bound c).
  assert (0 ≤ (hour * 60 + minute) * MINUTE) by (unfold MINUTE, SECOND; nia).
  destruct (Z.leb_spec c t) as [Hle|]; [|by injection H as <-].
  apply rbind_Ok in H as (w & Hw%duration_Ok & H). apply rbind_Ok in H as (v & Hv%add_time_Ok & H).
  injection H as <-. change (24 * HOUR) with DAY in Hw.
  destruct Hi as [Hi|[Hi Hoff]]; [lia|]. specialize (Hoff b c). lia.
Qed.

Lemma next_after_progress s t u : progressive s → next_after s t = Ok (Some u) → t < u.
Proof.
  destruct s as [weeks dow hour minute|interval hour minute|interval|c]; cbn [next_after].
  - intros (Hw & Hh & Hm). by apply next_weekly.
  - apply next_interval_at_time.
  - cbn [progressive]. intros Hi (v & Hv%add_time_Ok & [= <-])%rbind_Ok. lia.
  - intros _ [= H]. by apply (cron_after_spec c).
Qed.
End progress.

(** ** Rewriting the day of week

    The two conventions of a day-of-week field. A part names values, with an
    optional step; [crontab] counts days from Sunday = 0 with 7 as another name
    of Sunday, the [cron] crate from Sunday = 1 and refuses a descending range. *)
Inductive dow_range := Star | One (n : Z) | Span (a b : Z).
Definition dow_part : Type := dow_range * option Z.

Definition print_range (r : dow_range) : string :=
  match r with Star => "*" | One n => show n | Span a b => show a +:+ "-" +:+ show b end.
Definition print_part (p : dow_part) : string :=
  match p.2 with Some step => print_range p.1 +:+ "/" +:+ show step | None => print_range p.1 end.

(** The values a part names when [first..last] are the values of a field. *)
Definition values (first last : Z) (p : dow_part) : option (list Z) :=
  let '(a, b) := match p.1 with
    | Star => (first, last)
    | One n => (n, if is_some p.2 then last else n)
    | Span a b => (a, b)
    end in
  if b <? a then None
  else Some (List.filter (λ v, (v - a) mod default 1 p.2 =? 0) (seqZ a (b - a + 1))).

(** Days, Sunday = 0. *)
Definition crontab_days (p : dow_part) : option (list Z) := map (λ v, v mod 7) <$> values 0 6 p.
Definition crate_days (p : dow_part) : option (list Z) := map (λ v, v - 1) <$> values 1 7 p.

Definition shift_range (r : dow_range) : dow_range :=
  match r with
  | Star => Star
  | One n => One (n mod 7 + 1)
  | Span a b => Span (a mod 7 + 1) (b mod 7 + 1)
  end.
Definition shift (p : dow_part) : dow_part := (shift_range p.1, p.2).

(** Parts with days in range and a positive step. *)
Definition part_wf (p : dow_part) : Prop :=
  match p.1 with
  | Star => True
  | One n => 0 ≤ n ≤ 7
  | Span a b => 0 ≤ a ≤ 7 ∧ 0 ≤ b ≤ 7
  end ∧ is_none_or (Z.ltb 0) p.2 = true.

(** The same part with Sunday written 0. *)
Definition sunday_zero (p : dow_part) : dow_part :=
  (match p.1 with Star => Star | One n => One (n mod 7) | Span a b => Span (a mod 7) (b mod 7) end, p.2).

(** The number 7 occurs as a day of its own at most. *)
Definition below_seven (p : dow_part) : Prop :=
  match p.1 with Star => True | One n => n ≤ 6 ∨ p.2 = None | Span a b => a ≤ 6 ∧ b ≤ 6 end.

Lemma show_no c n : 0 ≤ n → is_ascii_digit c = false →
  string_forallb (λ a, negb (bool_decide (a = c))) (show n) = true.
Proof.
  intros Hn Hc. destruct (show_spec n Hn) as (Hd & _). revert Hd. apply string_forallb_impl.
  intros a Ha. apply negb_true_iff, bool_decide_false. intros ->. by rewrite Ha in Hc.
Qed.

Lemma print_range_no c r :
  is_ascii_digit c = false → c ≠ "*"%char → c ≠ "-"%char →
  part_wf (r, None) → string_forallb (λ a, negb (bool_decide (a = c))) (print_range r) = true.
Proof.
  intros Hd Hs Hm [Hwf _]. destruct r as [|n|a b]; cbn [print_range fst] in *.
  - cbn [string_forallb]. by rewrite bool_decide_false.
  - apply show_no; [lia|done].
  - rewrite !string_forallb_append. rewrite !show_no by (lia || done).
    cbn [string_forallb]. by rewrite bool_decide_false.
Qed.

Lemma map_num_show n : 0 ≤ n ≤ 7 → map_num (show n) = show (n mod 7 + 1).
Proof.
  intros Hn. unfold map_num. rewrite parse_show by lia. by rewrite (proj2 (Z.leb_le n 7) ltac:(lia)).
Qed.

Lemma map_range_print r : part_wf (r, None) → map_range (print_range r) = print_range (shift_range r).
Proof.
  intros [Hwf _]. destruct r as [|n|a b]; cbn [fst print_range shift_range] in *; unfold map_range.
  - done.
  - rewrite split_on_plain by (apply show_no; [lia|done]). cbn [map join String.concat].
    apply map_num_show; lia.
  - change (show a +:+ "-" +:+ show b) with (join "-" [show a; show b]).
    rewrite split_on_join by (repeat constructor; apply show_no; lia || done).
    cbn [map]. by rewrite !map_num_show by lia.
Qed.

Lemma rewrite_part_print p : part_wf p → rewrite_part (print_part p) = print_part (shift p).
Proof.
  destruct p as [r step]. intros [Hr Hs]. assert (Hwf : part_wf (r, None)) by done.
  unfold rewrite_part, print_part, shift. cbn [fst snd] in *.
  destruct step as [s|].
  - change ("/" +:+ show s) with (String "/" (show s)). rewrite split_once_app by (by apply print_range_no).
    by rewrite map_range_print.
  - rewrite split_once_plain by (by apply print_range_no). by apply map_range_print.
Qed.

Lemma print_part_no_comma p : part_wf p →
  string_forallb (λ a, negb (bool_decide (a = ","%char))) (print_part p) = true.
Proof.
  destruct p as [r step]. intros [Hr Hs]. assert (Hwf : part_wf (r, None)) by done.
  unfold print_part. cbn [fst snd] in *. destruct step as [s|]; [|by apply print_range_no].
  simpl in Hs. bools. rewrite !string_forallb_append, print_range_no by done. cbn [string_forallb].
  rewrite bool_decide_false by done. apply show_no; [lia|done].
Qed.

Lemma filter_map_comm {A B} (f : B → bool) (g : A → B) l :
  List.filter f (map g l) = map g (List.filter (λ x, f (g x)) l).
Proof. induction l as [|x l IH]; [done|]. simpl. rewrite IH. by destruct (f (g x)). Qed.

Lemma filter_shift a n s :
  List.filter (λ v, (v - (a + 1)) mod s =? 0) (seqZ (a + 1) n) =
  map (Z.add 1) (List.filter (λ v, (v - a) mod s =? 0) (seqZ a n)).
Proof.
  rewrite (Z.add_comm a 1), <-(fmap_add_seqZ 1 a n).
  change (Z.add 1 <$> seqZ a n) with (map (Z.add 1) (seqZ a n)). rewrite filter_map_comm. f_equal.
  apply List.filter_ext. intros v. do 2 f_equal. lia.
Qed.

Lemma map_mod_small l : Forall (λ v, 0 ≤ v ≤ 6) l → map (λ v, v mod 7) l = l.
Proof. induction 1 as [|v l Hv Hl IH]; [done|]. simpl. by rewrite IH, Z.mod_small by lia. Qed.

Lemma days_shift a b step :
  0 ≤ a → b ≤ 6 →
  map (λ v, v - 1) (List.filter (λ v, (v - (a + 1)) mod step =? 0) (seqZ (a + 1) (b + 1 - (a + 1) + 1))) =
  map (λ v, v mod 7) (List.filter (λ v, (v - a) mod step =? 0) (seqZ a (b - a + 1))).
Proof.
  intros Ha Hb. replace (b + 1 - (a + 1) + 1) with (b - a + 1) by lia.
  rewrite filter_shift, List.map_map, map_mod_small.
  - rewrite <-(List.map_id (List.filter _ (seqZ a _))) at 2. apply List.map_ext. intros v. lia.
  - apply Forall_forall. intros v [Hv%elem_of_seqZ _]%elem_of_List_filter. lia.
Qed.

Lemma part_days p : part_wf p → crate_days (shift p) = crontab_days (sunday_zero p).
Proof.
  destruct p as [r step]. intros [Hr Hs]. unfold crate_days, crontab_days, values, shift, sunday_zero.
  cbn [fst snd] in *. destruct r as [|n|a b]; cbn [shift_range fst snd] in *.
  - apply (f_equal Some). by apply (days_shift 0 6).
  - pose proof (Z.mod_pos_bound n 7 ltac:(lia)) as Hn. destruct (is_some step).
    + assert (Hlt : (7 <? n mod 7 + 1) = false) by lia. assert (Hlt' : (6 <? n mod 7) = false) by lia.
      rewrite Hlt, Hlt'. apply (f_equal Some). by apply (days_shift (n mod 7) 6); lia.
    + rewrite !Z.ltb_irrefl. apply (f_equal Some). apply (days_shift (n mod 7) (n mod 7)); lia.
  - pose proof (Z.mod_pos_bound a 7 ltac:(lia)) as Ha. pose proof (Z.mod_pos_bound b 7 ltac:(lia)) as Hb.
    destruct (Z.ltb_spec (b mod 7 + 1) (a mod 7 + 1)), (Z.ltb_spec (b mod 7) (a mod 7)); try lia; [done|].
    apply (f_equal Some). by apply days_shift; lia.
Qed.

Lemma sunday_zero_days p : part_wf p → below_seven p → crontab_days (sunday_zero p) = crontab_days p.
Proof.
  destruct p as [r step]. intros [Hr Hs] Hb. unfold sunday_zero. cbn [fst snd] in *.
  destruct r as [|n|a b]; cbn [below_seven fst snd] in *; [done| |by rewrite !Z.mod_small by lia].
  destruct (decide (n = 7)) as [->|]; [destruct Hb as [Hb| ->]; [lia|done]|by rewrite Z.mod_small by lia].
Qed.

(** C24. Numeric weekdays keep their meaning where 7 stands alone.
    [rewrite_dow_field] turns a day-of-week field of crontab into one of the
    [cron] crate part by part, and every part - a day, a list, a range, a step -
    names in the crate the days it names in crontab with every 7 read as 0. So a
    part in which 7 does not occur, and a plain 7, keep their days; a range
    written up to 7 does not: from 0 or 7 it then names only Sunday, and from any
    other day it is refused. *)
Theorem dow_rewrite_equiv p0 l :
  Forall part_wf (p0 :: l) →
  rewrite_dow_field (join "," (map print_part (p0 :: l))) = join "," (map print_part (map shift (p0 :: l))) ∧
  (∀ p, p ∈ p0 :: l → crate_days (shift p) = crontab_days (sunday_zero p)) ∧
  (∀ p, p ∈ p0 :: l → below_seven p → crate_days (shift p) = crontab_days p) ∧
  (∀ a step, (Span a 7, step) ∈ p0 :: l →
     crate_days (shift (Span a 7, step)) = if (a =? 0) || (a =? 7) then Some [0] else None).
Proof.
  intros Hwf. assert (Hin : ∀ p, p ∈ p0 :: l → part_wf p) by (by rewrite Forall_forall in Hwf). split_and!.
  - unfold rewrite_dow_field. cbn [map]. rewrite split_on_join.
    + f_equal. change (map rewrite_part (map print_part (p0 :: l)) = map print_part (map shift (p0 :: l))).
      rewrite !List.map_map. apply List.map_ext_in. intros p Hp%list_elem_of_In. by apply rewrite_part_print, Hin.
    + change (Forall (λ w, string_forallb (λ a, negb (bool_decide (a = ","%char))) w = true)
        (map print_part (p0 :: l))). apply Forall_fmap. eapply Forall_impl; [done|].
      intros p Hp. by apply print_part_no_comma.
  - intros p Hp. by apply part_days, Hin.
  - intros p Hp Hb. rewrite part_days by (by apply Hin). by apply sunday_zero_days; [apply Hin|].
  - intros a step Hp. destruct (Hin _ Hp) as [[Ha _] Hs].
    unfold crate_days, values, shift. cbn [fst snd shift_range] in *.
    change (7 mod 7) with 0. change (0 + 1) with 1.
    destruct (Z.eqb_spec a 0) as [->|H0]; [|destruct (Z.eqb_spec a 7) as [->|H7]].
    + change (0 mod 7 + 1) with 1. rewrite Z.ltb_irrefl. by destruct step.
    + change (7 mod 7 + 1) with 1. rewrite Z.ltb_irrefl. by destruct step.
    + rewrite Z.mod_small by lia. by rewrite (proj2 (Z.ltb_lt 1 (a + 1)) ltac:(lia)).
Qed.

Lemma dow_rewrite_equiv_witness :
  rewrite_dow_field "1-5,0-7,*/2,7/2" = "2-6,1-1,*/2,1/2" ∧
  crate_days (shift (Span 1 5, None)) = Some [1; 2; 3; 4; 5] ∧
  crontab_days (Span 0 7, None) = Some [0; 1; 2; 3; 4; 5; 6; 0] ∧
  crate_days (shift (Span 0 7, None)) = Some [0] ∧
  crate_days (shift (One 7, Some 2)) = Some [0; 2; 4; 6].
Proof.
  assert (Hwf : Forall part_wf [(Span 1 5, None); (Span 0 7, None); (Star, Some 2); (One 7, Some 2)])
    by (repeat apply Forall_cons_2; try apply Forall_nil_2; split; simpl; done || lia).
  pose proof (dow_rewrite_equiv (Span 1 5, None) [(Span 0 7, None); (Star, Some 2); (One 7, Some 2)] Hwf) as (Hr & Hs & Hd & H7).
  split; [exact Hr|]. split; [|split; [reflexivity|split]].
  - rewrite Hd; [reflexivity|left|unfold below_seven; cbn [fst]; lia].
  - rewrite H7; [reflexivity|right; left].
  - rewrite Hs; [reflexivity|do 3 right; left].
Defined.

(** ** Expressions are read back *)
Section roundtrip.
Context {C : Chrono}.

Definition pad2 (n : Z) : string := if n <? 10 then "0" +:+ show n else show n.
Definition print_hhmm (hour minute : Z) : string := show hour +:+ ":" +:+ pad2 minute.
Definition print_dow (d : Weekday) : string :=
  default "" (fst <$> List.find (λ p, bool_decide (p.2 = d)) dow_names).

(** The words of an [@every] expression: intervals in days, or in hours,
    minutes and seconds. *)
Inductive every :=
| EveryWeeksOn (weeks : Z) (dow : Weekday) (hour minute : Z)
| EveryDaysAt (days hour minute : Z)
| EveryDays (days : Z)
| EveryTime (hours minutes seconds : Z).

Definition every_words (e : every) : list string :=
  match e with
  | EveryWeeksOn weeks dow hour minute => [show weeks +:+ "w"; print_dow dow; print_hhmm hour minute]
  | EveryDaysAt days hour minute => [show days +:+ "d"; print_hhmm hour minute]
  | EveryDays days => [show days +:+ "d"]
  | EveryTime h m s => [show h +:+ "h" +:+ show m +:+ "m" +:+ show s +:+ "s"]
  end.
Definition print_every (e : every) : string := join " " ("@every" :: every_words e).

Definition time_of_day (hour minute : Z) : Prop := 0 ≤ hour ≤ 23 ∧ 0 ≤ minute ≤ 59.

(** In range for [i64] and [TimeDelta]; an interval of time is positive. *)
Definition every_wf (e : every) : Prop :=
  match e with
  | EveryWeeksOn weeks _ hour minute => 0 ≤ weeks ≤ I64_MAX ∧ time_of_day hour minute
  | EveryDaysAt days hour minute => 0 ≤ days ≤ I64_MAX ∧ days * DAY ≤ delta_max ∧ time_of_day hour minute
  | EveryDays days => 0 ≤ days ≤ I64_MAX ∧ days * DAY ≤ delta_max
  | EveryTime h m s =>
      0 ≤ h ≤ I64_MAX ∧ 0 ≤ m ≤ I64_MAX ∧ 0 ≤ s ≤ I64_MAX ∧
      0 < h * HOUR + m * MINUTE + s * SECOND ≤ delta_max
  end.

Definition schedule_of (e : every) : Schedule :=
  match e with
  | EveryWeeksOn weeks dow hour minute => WeeklyOnDow weeks dow hour minute
  | EveryDaysAt days hour minute => IntervalAtTime (days * DAY) hour minute
  | EveryDays days => Interval (days * DAY)
  | EveryTime h m s => Interval (h * HOUR + m * MINUTE + s * SECOND)
  end.

Lemma graphic_of_digits s : string_forallb is_ascii_digit s = true → string_forallb is_ascii_graphic s = true.
Proof. apply string_forallb_impl, digit_graphic. Qed.

Lemma show_graphic n : 0 ≤ n → string_forallb is_ascii_graphic (show n) = true.
Proof. intros Hn. apply graphic_of_digits. by destruct (show_spec n Hn). Qed.

(** A number and its unit. *)
Lemma unit_pairs_number w dg u s :
  string_forallb is_ascii_digit w = true → is_ascii_digit u = false →
  string_forallb is_ascii_graphic (String u s) = true → dg +:+ w ≠ "" →
  unit_pairs dg (chars (w +:+ String u s)) =
    n ← parse_uint I64_MAX (dg +:+ w); rest ← unit_pairs "" (chars s);
    Some ((n, to_ascii_lowercase (String u "")) :: rest).
Proof.
  revert dg. induction w as [|c w IH]; intros dg Hw Hu Hs Hne.
  - rewrite string_app_nil_r in *. cbn [string_forallb] in Hs. bools.
    change ("" +:+ String u s) with (String u s). rewrite chars_cons by done. cbn [unit_pairs string_forallb].
    by rewrite Hu, bool_decide_false.
  - cbn [string_forallb] in Hw. bools. change (String c w +:+ String u s) with (String c (w +:+ String u s)).
    rewrite chars_cons.
    + cbn [unit_pairs string_forallb]. rewrite H. cbn [andb].
      rewrite IH; rewrite ?string_app_assoc; try done.
    + rewrite string_forallb_append, graphic_of_digits by done. done.
Qed.

Lemma pairs_number n u s :
  0 ≤ n ≤ I64_MAX → is_ascii_digit u = false → string_forallb is_ascii_graphic (String u s) = true →
  unit_pairs "" (chars (show n +:+ String u s)) =
    rest ← unit_pairs "" (chars s); Some ((n, to_ascii_lowercase (String u "")) :: rest).
Proof.
  intros Hn Hu Hs. destruct (show_spec n ltac:(lia)) as (Hd & _ & Hne).
  rewrite unit_pairs_number by done. change ("" +:+ show n) with (show n). by rewrite parse_show.
Qed.

Lemma parse_pairs s : s ≠ "" → string_forallb is_ascii_graphic s = true →
  parse_unit_pairs s = unit_pairs "" (chars s).
Proof. intros Hne Hs. unfold parse_unit_pairs. by rewrite trim_graphic, bool_decide_false. Qed.

Lemma one_unit n u : 0 ≤ n ≤ I64_MAX → is_ascii_digit u = false → is_ascii_graphic u = true →
  parse_unit_pairs (show n +:+ String u "") = Some [(n, to_ascii_lowercase (String u ""))] ∧
  show n +:+ String u "" ≠ "" ∧ string_forallb is_ascii_graphic (show n +:+ String u "") = true.
Proof.
  intros Hn Hu Hg. assert (Hgs : string_forallb is_ascii_graphic (show n +:+ String u "") = true).
  { rewrite string_forallb_append, show_graphic by lia. cbn [string_forallb]. by rewrite Hg. }
  assert (Hne : show n +:+ String u "" ≠ "") by (by destruct (show n)).
  split_and!; [|done|done]. rewrite parse_pairs by done. rewrite pairs_number; [done|done|done|].
  cbn [string_forallb]. by rewrite Hg.
Qed.

Lemma hms_units h m s :
  0 ≤ h ≤ I64_MAX → 0 ≤ m ≤ I64_MAX → 0 ≤ s ≤ I64_MAX →
  let w := show h +:+ "h" +:+ show m +:+ "m" +:+ show s +:+ "s" in
  parse_unit_pairs w = Some [(h, "h"); (m, "m"); (s, "s")] ∧ w ≠ "" ∧
  string_forallb is_ascii_graphic w = true.
Proof.
  intros Hh Hm Hs. cbv zeta.
  change ("s") with (String "s" "") at 1. set (w := _ +:+ _).
  assert (Hg3 : string_forallb is_ascii_graphic (show s +:+ String "s" "") = true)
    by (rewrite string_forallb_append, show_graphic by lia; done).
  assert (Hg2 : string_forallb is_ascii_graphic (show m +:+ String "m" (show s +:+ String "s" "")) = true)
    by (rewrite string_forallb_append, show_graphic by lia; cbn [string_forallb]; by rewrite Hg3).
  assert (Hg : string_forallb is_ascii_graphic w = true).
  { subst w. rewrite string_forallb_append, show_graphic by lia. cbn [andb]. done. }
  assert (Hne : w ≠ "") by (subst w; by destruct (show h)).
  split_and!; [|done|done]. rewrite parse_pairs by done. subst w.
  change ("h" +:+ show m +:+ "m" +:+ show s +:+ String "s" "")
    with (String "h" (show m +:+ String "m" (show s +:+ String "s" ""))).
  rewrite pairs_number; [|done|done|done]. rewrite pairs_number; [|done|done|done].
  rewrite pairs_number; done.
Qed.

Lemma parse_week_day_d n : 0 ≤ n ≤ I64_MAX → parse_week_day (show n +:+ "d") = Some (0, n).
Proof. intros Hn. unfold parse_week_day. by destruct (one_unit n "d" Hn eq_refl eq_refl) as (-> & _). Qed.

Lemma parse_weeks_w n : 0 ≤ n ≤ I64_MAX → parse_weeks_only (show n +:+ "w") = Some n.
Proof. intros Hn. unfold parse_weeks_only. by destruct (one_unit n "w" Hn eq_refl eq_refl) as (-> & _). Qed.

Lemma pad2_spec m : 0 ≤ m ≤ 59 →
  slen (pad2 m) = 2 ∧ string_forallb is_ascii_digit (pad2 m) = true ∧ parse_uint U32_MAX (pad2 m) = Some m.
Proof.
  intros Hm. rewrite <-(Z2Nat.id m) by lia. assert (Hn : (Z.to_nat m < 60)%nat) by lia.
  revert Hn. generalize (Z.to_nat m). intros n Hn. do 60 (destruct n as [|n]; [by vm_compute|]). lia.
Qed.

Lemma parse_hhmm_print hour minute :
  time_of_day hour minute → parse_hhmm (print_hhmm hour minute) = Some (hour, minute).
Proof.
  intros [Hh Hm]. unfold parse_hhmm, print_hhmm.
  destruct (show_spec hour ltac:(lia)) as (Hd & _ & Hne). destruct (pad2_spec minute Hm) as (Hl & Hpd & Hp).
  change (":" +:+ pad2 minute) with (String ":" (pad2 minute)).
  rewrite split_once_app by (apply show_no; lia || done). cbv iota beta.
  rewrite bool_decide_false, Hl, Hd, Hpd by done. cbn [negb orb Z.eqb Pos.eqb].
  rewrite parse_show by (unfold U32_MAX; lia). rewrite Hp. cbn [mbind option_bind].
  rewrite (proj2 (Z.ltb_ge 23 hour)), (proj2 (Z.ltb_ge 59 minute)) by lia. done.
Qed.

Lemma parse_print_dow d : parse_dow (print_dow d) = Some d.
Proof. by destruct d. Qed.

Lemma hhmm_graphic hour minute : time_of_day hour minute →
  print_hhmm hour minute ≠ "" ∧ string_forallb is_ascii_graphic (print_hhmm hour minute) = true.
Proof.
  intros [Hh Hm]. unfold print_hhmm. destruct (pad2_spec minute Hm) as (_ & Hpd & _).
  split; [by destruct (show hour)|]. rewrite !string_forallb_append, show_graphic by lia.
  by rewrite (graphic_of_digits _ Hpd).
Qed.

Lemma every_words_graphic e : every_wf e →
  Forall (λ w, w ≠ "" ∧ string_forallb is_ascii_graphic w = true) (every_words e) ∧ every_words e ≠ [].
Proof.
  intros Hwf. destruct e as [weeks dow hour minute|d hour minute|d|h m s]; cbn [every_words every_wf] in *;
    (split; [|done]); repeat apply Forall_cons_2; try apply Forall_nil_2.
  - by destruct (one_unit weeks "w" ltac:(tauto) eq_refl eq_refl) as (_ & ?).
  - by destruct dow.
  - apply hhmm_graphic; tauto.
  - by destruct (one_unit d "d" ltac:(tauto) eq_refl eq_refl) as (_ & ?).
  - apply hhmm_graphic; tauto.
  - by destruct (one_unit d "d" ltac:(tauto) eq_refl eq_refl) as (_ & ?).
  - by destruct (hms_units h m s ltac:(tauto) ltac:(tauto) ltac:(tauto)) as (_ & ?).
Qed.

Lemma strip_every_join w l :
  Forall (λ w, w ≠ "" ∧ string_forallb is_ascii_graphic w = true) (w :: l) →
  strip_every_prefix (join " " ("@every" :: w :: l)) = Some (join " " (w :: l)).
Proof.
  intros Hw. change (join " " ("@every" :: w :: l)) with ("@every" +:+ String " " (join " " (w :: l))).
  unfold strip_every_prefix.
  assert (Hl : (slen ("@every" +:+ String " " (join " " (w :: l))) <? 6) = false)
    by (rewrite slen_append; apply Z.ltb_ge; pose proof (slen_nonneg (String " " (join " " (w :: l)))); change (slen "@every") with 6; lia).
  rewrite Hl. cbn -[join trim]. f_equal. rewrite <-(trim_join l w Hw) at 2.
  unfold trim, trim_start. done.
Qed.

Lemma parse_every_words e : every_wf e → parse_every (join " " (every_words e)) = Ok (schedule_of e).
Proof.
  intros Hwf. destruct (every_words_graphic e Hwf) as [Hw Hne]. unfold parse_every.
  assert (Hs : split_whitespace (join " " (every_words e)) = every_words e)
    by (destruct (every_words e); [done|by apply split_words]).
  rewrite Hs. clear Hs Hw Hne.
  destruct e as [w dow hour minute|d hour minute|d|h m s]; cbn [every_words every_wf schedule_of] in *.
  - destruct Hwf as [Hw Ht]. rewrite parse_weeks_w, parse_print_dow, parse_hhmm_print by done. done.
  - destruct Hwf as (Hd & Hm & Ht). rewrite parse_week_day_d, parse_hhmm_print by done.
    cbn [ok_or rbind fst snd]. unfold days_interval, duration. rewrite wrap_i64_small by (unfold I64_MAX in *; lia).
    rewrite (proj2 (Z.leb_le _ _)); [done|]. assert (0 < DAY) by done. nia.
  - destruct Hwf as (Hd & Hm). rewrite parse_week_day_d by done.
    unfold days_interval, duration. rewrite wrap_i64_small by (unfold I64_MAX in *; lia).
    rewrite (proj2 (Z.leb_le _ _)); [done|]. assert (0 < DAY) by done. nia.
  - destruct Hwf as (Hh & Hm & Hs & Hpos & Hmax). destruct (hms_units h m s Hh Hm Hs) as (Hp & _).
    assert (Hw : parse_week_day (show h +:+ "h" +:+ show m +:+ "m" +:+ show s +:+ "s") = None)
      by (unfold parse_week_day; by rewrite Hp).
    assert (Ht : parse_hms (show h +:+ "h" +:+ show m +:+ "m" +:+ show s +:+ "s") = Some (h, m, s))
      by (unfold parse_hms; by rewrite Hp).
    rewrite Hw, Ht.
    assert (0 < HOUR) by done. assert (0 < MINUTE) by done. assert (0 < SECOND) by done.
    unfold duration, add_durations.
    rewrite (proj2 (Z.leb_le (Z.abs (h * HOUR)) _)) by nia. cbn [rbind].
    rewrite (proj2 (Z.leb_le (Z.abs (m * MINUTE)) _)) by nia. cbn [rbind].
    rewrite (proj2 (Z.leb_le (Z.abs (h * HOUR + m * MINUTE)) _)) by nia. cbn [rbind].
    rewrite (proj2 (Z.leb_le (Z.abs (s * SECOND)) _)) by nia. cbn [rbind].
    rewrite (proj2 (Z.leb_le (Z.abs (h * HOUR + m * MINUTE + s * SECOND)) _)) by nia. cbn [rbind].
    by rewrite (proj2 (Z.leb_gt _ 0)) by lia.
Qed.

Lemma parse_print_every e : every_wf e → parse (print_every e) = Ok (schedule_of e).
Proof.
  intros Hwf. destruct (every_words_graphic e Hwf) as [Hw Hne]. unfold parse, print_every.
  assert (Hall : Forall (λ w, w ≠ "" ∧ string_forallb is_ascii_graphic w = true) ("@every" :: every_words e))
    by (apply Forall_cons_2; [by split|done]).
  rewrite trim_join by done. destruct (trim_end_join _ _ Hall) as [_ Hn]. rewrite bool_decide_false by done.
  destruct (every_words e) as [|w l] eqn:El; [done|]. rewrite strip_every_join by done. rewrite <-El.
  by apply parse_every_words.
Qed.
End roundtrip.

(** Expressions that promise progress: the interval is not zero, and one day at
    a fixed time needs a zone that never changes its offset by a whole day. *)
Definition advancing {C : Chrono} {L : ChronoLaws C} (e : every) : Prop :=
  match e with
  | EveryWeeksOn weeks _ _ _ => weeks * 7 < 2 ^ 63
  | EveryDaysAt days _ _ => 2 ≤ days ∨ days = 1 ∧ ∀ a b, Z.abs (offset a - offset b) < DAY
  | EveryDays days => 0 < days
  | EveryTime _ _ _ => True
  end.

Lemma advancing_progressive {C : Chrono} {L : ChronoLaws C} e :
  every_wf e → advancing e → progressive (schedule_of e).
Proof.
  assert (0 < DAY) by done.
  destruct e as [weeks dow hour minute|d hour minute|d|h m s]; cbn [every_wf advancing schedule_of progressive];
    unfold time_of_day, I64_MAX.
  - lia.
  - intros (Hd & _ & Ht) Ha. split_and!; [lia..|]. destruct Ha as [Ha|[-> Ha]]; [left; nia|right].
    split; [lia|done].
  - nia.
  - lia.
Qed.

(** Every expression written by [print_every] - each form of [@every] the
    parser knows, in range - is read back as the schedule it stands for. And
    unless its interval is zero, the next time it fires after any time [t], when
    there is one, lies strictly after [t], whatever daylight saving the local
    zone has; so the times [sched.next] lists ascend and a job that has just
    fired is not due again at the same instant. *)
Theorem every_fires_forward {C : Chrono} {L : ChronoLaws C} e :
  every_wf e →
  parse (print_every e) = Ok (schedule_of e) ∧
  (advancing e → ∀ t u, next_after (schedule_of e) t = Ok (Some u) → t < u).
Proof.
  intros Hwf. split; [by apply parse_print_every|].
  intros Ha t u. by apply next_after_progress, advancing_progressive.
Qed.

(** ** Concrete zones *)
Module ScheduleToy.

(** A zone one hour ahead until [switch], on standard time from then on. *)
Section zone.
Variable switch : Z.

Definition zone_offset (t : Z) : Z := if t <? switch then HOUR else 0.
Definition zone_at (date h m : Z) : local_result :=
  let local := date * DAY + (h * 60 + m) * MINUTE in
  if local - HOUR <? switch
  then if switch <=? local then Ambiguous (local - HOUR) local else Single (local - HOUR)
  else Single local.

#[local] Instance zone : Chrono := {|
  delta_max := (2 ^ 63 - 1) * 1000000; time_min := - (262143 * 366 * DAY); time_max := 262143 * 365 * DAY;
  date_naive := λ t, (t + zone_offset t) / DAY; with_ymd_and_hms := zone_at;
  cron := Z; cron_from_str := λ s, if bool_decide (s = "0 0 0 * * *") then Some DAY else None;
  cron_after := λ period t, if period <=? 0 then None else Some ((t / period + 1) * period) |}.

#[local] Instance zone_laws : ChronoLaws zone.
Proof.
  refine {| offset := zone_offset |}.
  - intros t. unfold zone_offset. by destruct (t <? switch).
  - intros t. cbn [date_naive zone]. assert (H : DAY ≠ 0) by done.
    pose proof (Z.div_mod (t + zone_offset t) DAY H).
    pose proof (Z.mod_pos_bound (t + zone_offset t) DAY ltac:(done)). lia.
  - intros d h m t. cbn [with_ymd_and_hms zone]. unfold zone_at, zone_offset. intros H.
    assert (0 < HOUR) by done.
    destruct (Z.ltb_spec (d * DAY + (h * 60 + m) * MINUTE - HOUR) switch) as [Hl|Hl];
      [destruct (Z.leb_spec switch (d * DAY + (h * 60 + m) * MINUTE)) as [Hs|Hs]; [done|]|];
      injection H as <-;
      match goal with |- context [?x <? switch] => destruct (Z.ltb_spec x switch) end; lia.
  - intros d h m t u. cbn [with_ymd_and_hms zone]. unfold zone_at, zone_offset. intros H.
    destruct (Z.ltb_spec (d * DAY + (h * 60 + m) * MINUTE - HOUR) switch) as [Hl|Hl]; [|done].
    destruct (Z.leb_spec switch (d * DAY + (h * 60 + m) * MINUTE)) as [Hs|Hs]; [|done].
    injection H as <- <-. destruct (Z.ltb_spec (d * DAY + (h * 60 + m) * MINUTE - HOUR) switch); lia.
  - intros c t u. cbn [cron_after zone]. destruct (Z.leb_spec c 0) as [|Hc]; [done|]. intros [= <-].
    pose proof (Z.div_mod t c ltac:(lia)). pose proof (Z.mod_pos_bound t c Hc). nia.
Defined.
End zone.

(** Friday 2026-10-30 at 03:00: day 20756. *)
Definition friday : Z := 20756.
Definition autumn : Chrono := zone (friday * DAY + 2 * HOUR).
Definition every_sunday : every := EveryWeeksOn 0 Sun 0 30.
Definition thursday_night : Z := (friday - 1) * DAY - 30 * MINUTE.
End ScheduleToy.
Import ScheduleToy.

Lemma every_fires_forward_witness :
  let C := autumn in let L := zone_laws (friday * DAY + 2 * HOUR) in
  every_wf every_sunday ∧ parse (print_every every_sunday) = Ok (WeeklyOnDow 0 Sun 0 30) ∧
  ∃ u, next_after (schedule_of every_sunday) thursday_night = Ok (Some u) ∧ thursday_night < u.
Proof.
  cbv zeta. set (L := zone_laws (friday * DAY + 2 * HOUR)).
  assert (Hwf : @every_wf autumn every_sunday)
    by (unfold every_sunday, every_wf, time_of_day, I64_MAX; lia).
  destruct (@every_fires_forward autumn L every_sunday Hwf) as [Hp Hn].
  split; [exact Hwf|]. split; [exact Hp|].
  exists 1793489400000000000.
  assert (Hu : @next_after autumn (schedule_of every_sunday) thursday_night = Ok (Some 1793489400000000000))
    by (vm_compute; reflexivity).
  split; [exact Hu|]. apply Hn; [|exact Hu]. unfold every_sunday, advancing. lia.
Defined.

(** The day and the time are not kept when the clock changes on the way: adding
    days adds 24 hours each, so a job for Sunday at 00:30 runs on Saturday. *)
Lemma weekly_runs_on_another_day :
  let C := autumn in
  ∃ u, next_after (schedule_of every_sunday) thursday_night = Ok (Some u) ∧
       weekday_of (date_naive u) = num_days_from_monday Sat.
Proof. exists 1793489400000000000. split; vm_compute; reflexivity. Qed.

(** Zero days are accepted and fire at the same instant again and again; a large
    number of days is accepted and cannot be added to any time. *)
Lemma zero_days_fire_at_once (C : Chrono) t :
  0 ≤ delta_max → time_min ≤ t ≤ time_max →
  parse (print_every (EveryDays 0)) = Ok (Interval 0) ∧ next_after (Interval 0) t = Ok (Some t).
Proof.
  intros Hd Ht. split.
  - apply (parse_print_every (EveryDays 0)). unfold every_wf, I64_MAX. lia.
  - cbn [next_after]. unfold add_time. rewrite Z.add_0_r.
    by rewrite (proj2 (Z.leb_le _ _) (proj1 Ht)), (proj2 (Z.leb_le _ _) (proj2 Ht)).
Qed.

Lemma long_interval_panics :
  let C := autumn in
  parse (print_every (EveryDays 1000000000)) = Ok (Interval (1000000000 * DAY)) ∧
  next_after (Interval (1000000000 * DAY)) thursday_night = Err Panic.
Proof.
  cbv zeta. split; [|by vm_compute].
  apply (@parse_print_every autumn (EveryDays 1000000000)).
  unfold every_wf. split; [unfold I64_MAX; lia|]. vm_compute. discriminate.
Qed.
