(* ===== verification/Scheduler.v ===== *)
(** * The job scheduler

    [src/src/scheduler/mod.rs] and the output ring of [runner.rs]: the table of
    jobs, the cache of next fire times, the commands - each in the two steps the
    code takes, the table first and the cache after - the tick, and the run log.
    Running a command and the files are I/O: a flag tells whether they succeed. *)
From S2P Require Import Prelude Text Json Schedule.

Record Job := {
  job_id : string; name : string; schedule : string; command : string; enabled : bool;
  created_at : string; updated_at : string;
}.

Record RunRecord := {
  run_job_id : string; job_name : string; started_at : string; ended_at : string;
  exit_code : Z; ok : bool; output : string;
}.

Definition RUN_LOG_CAP : Z := 200.

(** Whether the table can be read and written. *)
Record Io := { reads : bool; writes : bool }.

(** [with_jobs_at]: the table is replaced only when [f] and the write succeed. *)
Definition with_jobs {R} (io : Io) (table : list Job)
    (f : list Job → result (list Job * R) failure) : list Job * result R failure :=
  if negb (reads io) then (table, Err (Fail "reading the job table")) else
  match f table with
  | Err e => (table, Err e)
  | Ok (jobs, r) => if writes io then (jobs, Ok r) else (table, Err (Fail "writing the job table"))
  end.

Definition append_run_record {A} (lines : list A) (record : A) : list A :=
  let lines := lines ++ [record] in
  if RUN_LOG_CAP <? zlen lines then drop (Z.to_nat (zlen lines - RUN_LOG_CAP)) lines else lines.

Record JobState := { job : Job; next_fire : option Z }.

Section scheduler.
Context {C : Chrono}.

Definition compute_next_fire (j : Job) (now : Z) : result (option Z) failure :=
  if negb (enabled j) then Ok None else
  match parse (schedule j) with
  | Ok parsed => next_after parsed now
  | Err Panic => Err Panic
  | Err (Fail _) => Ok None
  end.

(** The first entry with the job's id is replaced, or the job is appended. *)
Fixpoint put_state (s : JobState) (cache : list JobState) : list JobState :=
  match cache with
  | [] => [s]
  | x :: cache =>
      if bool_decide (job_id (job x) = job_id (job s)) then s :: cache else x :: put_state s cache
  end.

Definition sync_job_state (cache : list JobState) (j : Job) (now : Z) : result (list JobState) failure :=
  let? next := compute_next_fire j now in
  Ok (put_state {| job := j; next_fire := next |} cache).

Definition remove_job_state (cache : list JobState) (id : string) : list JobState :=
  List.filter (λ s, negb (bool_decide (job_id (job s) = id))) cache.

Definition is_due (now : Z) (s : JobState) : bool := is_some_and (λ t, t <=? now) (next_fire s).

(** [None] when the loop panics: the entries before are already advanced. *)
Fixpoint take_due_jobs (cache : list JobState) (now : Z) : list JobState * option (list Job) :=
  match cache with
  | [] => ([], Some [])
  | s :: rest =>
      if is_due now s then
        match compute_next_fire (job s) now with
        | Err _ => (s :: rest, None)
        | Ok next =>
            let '(rest, due) := take_due_jobs rest now in
            ({| job := job s; next_fire := next |} :: rest, cons (job s) <$> due)
        end
      else
        let '(rest, due) := take_due_jobs rest now in (s :: rest, due)
  end.

(** [init_service]. *)
Definition init_service (table : list Job) (now : Z) : result (list JobState) failure :=
  try_map (λ j, let? next := compute_next_fire j now in Ok {| job := j; next_fire := next |}) table.

(** ** Commands *)

Fixpoint zeros (n : nat) : string := match n with O => "" | S n => String "0" (zeros n) end.
Definition job_id_of (n : Z) : string :=
  "job-" +:+ zeros (6 - String.length (show n)) +:+ show n.

(** The loop of [new_job_id] over the random numbers it draws; [None] while it
    has drawn no free one. *)
Definition new_job_id (draws : list Z) (existing : list Job) : option string :=
  List.find (λ id, negb (existsb (λ j, bool_decide (job_id j = id)) existing)) (map job_id_of draws).

Definition find_job (id : string) (jobs : list Job) : option Job :=
  List.find (λ j, bool_decide (job_id j = id)) jobs.

(** [jobs.iter_mut().find(..)]: the first match is changed. *)
Fixpoint update_job (id : string) (f : Job → Job) (jobs : list Job) : list Job :=
  match jobs with
  | [] => []
  | j :: jobs => if bool_decide (job_id j = id) then f j :: jobs else j :: update_job id f jobs
  end.

(** What the second step does to the cache. *)
Inductive sync := SyncJob (j : Job) | RemoveJob (id : string).

(** Random draws, the wire time and the state of the disk. *)
Record Env := { draws : list Z; now_wire : string; io : Io }.

Definition required (args : json) (key : string) : result string failure :=
  ok_or (get_str key args) (Fail ("missing `" +:+ key +:+ "`")).

Definition check_schedule (expr : string) : result () failure := let? _ := parse expr in Ok tt.

Definition edit (id : string) (f : Job → Job) (jobs : list Job) : result (list Job * sync) failure :=
  let? entry := ok_or (find_job id jobs) (Fail "no job with this id") in
  Ok (update_job id f jobs, SyncJob (f entry)).

Definition sched_add (args : json) (env : Env) (table : list Job) : list Job * result sync failure :=
  match
    let? name := required args "name" in
    let? expr := required args "schedule" in
    let? command := required args "command" in
    check_schedule expr ;;? Ok (name, expr, command)
  with
  | Err e => (table, Err e)
  | Ok (name, expr, command) =>
      with_jobs (io env) table (λ jobs,
        let? id := ok_or (new_job_id (draws env) jobs) (Fail "still drawing") in
        let j := {| job_id := id; name := name; schedule := expr; command := command;
          enabled := default true (get_bool "enabled" args);
          created_at := now_wire env; updated_at := now_wire env |} in
        Ok (jobs ++ [j], SyncJob j))
  end.

Definition sched_set (args : json) (env : Env) (table : list Job) : list Job * result sync failure :=
  match
    let? id := required args "id" in
    match get_str "schedule" args with Some expr => check_schedule expr | None => Ok tt end ;;? Ok id
  with
  | Err e => (table, Err e)
  | Ok id =>
      with_jobs (io env) table (edit id (λ j,
        {| job_id := job_id j; name := default (name j) (get_str "name" args);
           schedule := default (schedule j) (get_str "schedule" args);
           command := default (command j) (get_str "command" args);
           enabled := default (enabled j) (get_bool "enabled" args);
           created_at := created_at j; updated_at := now_wire env |}))
  end.

Definition sched_rm (args : json) (env : Env) (table : list Job) : list Job * result sync failure :=
  match required args "id" with
  | Err e => (table, Err e)
  | Ok id =>
      with_jobs (io env) table (λ jobs,
        let kept := List.filter (λ j, negb (bool_decide (job_id j = id))) jobs in
        if zlen kept =? zlen jobs then Err (Fail "no job with this id") else Ok (kept, RemoveJob id))
  end.

Definition sched_enable (args : json) (env : Env) (table : list Job) : list Job * result sync failure :=
  match
    let? id := required args "id" in
    let? enabled := ok_or (get_bool "enabled" args) (Fail "missing `enabled`") in Ok (id, enabled)
  with
  | Err e => (table, Err e)
  | Ok (id, enabled) =>
      with_jobs (io env) table (edit id (λ j,
        {| job_id := job_id j; name := name j; schedule := schedule j; command := command j;
           enabled := enabled; created_at := created_at j; updated_at := now_wire env |}))
  end.

(** [sched.next]: the times that follow [cursor]. *)
Fixpoint next_times (n : nat) (s : Schedule) (cursor : Z) : result (list Z) failure :=
  match n with
  | O => Ok []
  | S n =>
      let? next := next_after s cursor in
      match next with
      | None => Ok []
      | Some t => let? rest := next_times n s t in Ok (t :: rest)
      end
  end.

Definition sched_next (args : json) (now : Z) : result (list Z) failure :=
  let? expr := required args "schedule" in
  let? parsed := parse expr in
  next_times (Z.to_nat (default 5 (get_u64 "n" args))) parsed now.

(** [sched.logs]: newest first. *)
Definition sched_logs (args : json) (runs : list RunRecord) : list RunRecord :=
  let runs := List.rev runs in
  let runs := match get_str "id" args with
    | Some id => List.filter (λ r, bool_decide (run_job_id r = id)) runs
    | None => runs
    end in
  take (Z.to_nat (default 50 (get_u64 "limit" args))) runs.

(** [sched.run]: the job it starts. *)
Definition sched_run (args : json) (cache : list JobState) : result Job failure :=
  let? id := required args "id" in
  ok_or (find_job id (map job cache)) (Fail "no job with this id").

(** [job_json] and [sched.ls]; [rfc3339] and [to_value] are those of [chrono]
    and [serde]. *)
Definition job_json (to_value : Job → list (string * json)) (rfc3339 : Z → string) (s : JobState) : json :=
  JObject (obj_insert "next_run"
    (match next_fire s with Some t => JString (rfc3339 t) | None => JNull end) (to_value (job s))).

Definition by_name (a b : JobState) : Prop := String.le (name (job a)) (name (job b)).
#[local] Instance by_name_dec : RelDecision by_name.
Proof. intros a b. unfold by_name. apply _. Defined.

Definition sched_ls (to_value : Job → list (string * json)) (rfc3339 : Z → string)
    (cache : list JobState) : json :=
  obj [("jobs", JArray (map (job_json to_value rfc3339) (merge_sort by_name cache)))].

Inductive Command := Add | Set_ | Rm | Enable.

Definition persist (c : Command) : json → Env → list Job → list Job * result sync failure :=
  match c with Add => sched_add | Set_ => sched_set | Rm => sched_rm | Enable => sched_enable end.

Definition apply_sync (cache : list JobState) (s : sync) (now : Z) : result (list JobState) failure :=
  match s with
  | SyncJob j => sync_job_state cache j now
  | RemoveJob id => Ok (remove_job_state cache id)
  end.

Record Service := { table : list Job; cache : list JobState }.

(** A command from start to end, when no other one interleaves. *)
Definition handle (c : Command) (args : json) (env : Env) (now : Z) (s : Service)
    : Service * result sync failure :=
  match persist c args env (table s) with
  | (t, Err e) => ({| table := t; cache := cache s |}, Err e)
  | (t, Ok act) =>
      match apply_sync (cache s) act now with
      | Err e => ({| table := t; cache := cache s |}, Err e)
      | Ok c => ({| table := t; cache := c |}, Ok act)
      end
  end.
End scheduler.

(** ** The tail of the output *)

Definition OUTPUT_CAP : Z := 64 * 1024.

Record OutputTail := { ring : list Byte.byte; truncated : bool }.

Definition push (cap : Z) (o : OutputTail) (chunk : list Byte.byte) : OutputTail :=
  let excess := sat_sub (zlen (ring o) + zlen chunk) cap in
  {| ring := drop (Z.to_nat (Z.min excess (zlen (ring o)))) (ring o)
             ++ drop (Z.to_nat (sat_sub (zlen chunk) cap)) chunk;
     truncated := (0 <? excess) || truncated o |}.

(** ** The cache mirrors the table *)

Section mirror.
Context {C : Chrono}.

Lemma next_after_no_fail s t m : next_after s t ≠ Err (Fail m).
Proof.
  assert (Ha : ∀ a b e, add_time a b = Err e → e = Panic)
    by (unfold add_time; intros a b e H; by cases_in H).
  assert (Hd : ∀ a b e, duration a b = Err e → e = Panic)
    by (unfold duration; intros a b e H; by cases_in H).
  intros H. destruct s as [w dow h mi|i h mi|i|c]; cbn [next_after] in H;
    unfold next_after_weekly_on_dow, next_after_interval_at_time in H;
    repeat match type of H with
    | rbind _ _ = Err _ => apply rbind_Err in H as [H|(? & _ & H)];
        [first [apply Ha in H; done|apply Hd in H; done]|]
    | match ?x with _ => _ end = _ => destruct x
    | (if ?x then _ else _) = _ => destruct x
    end; done.
Qed.

Lemma compute_no_fail j now m : compute_next_fire j now ≠ Err (Fail m).
Proof.
  unfold compute_next_fire. destruct (negb (enabled j)); [done|].
  destruct (parse (schedule j)) as [s|[]]; [apply next_after_no_fail|done..].
Qed.

Lemma with_jobs_spec {R} io table (f : list Job → result (list Job * R) failure) table' r :
  with_jobs io table f = (table', r) →
  (∃ v, r = Ok v ∧ f table = Ok (table', v)) ∨ (table' = table ∧ ∃ e, r = Err e).
Proof.
  unfold with_jobs. intros H. destruct (negb (reads io)); [simplify_eq; right; eauto|].
  destruct (f table) as [[jobs v]|e] eqn:Hf; [|simplify_eq; right; eauto].
  destruct (writes io); simplify_eq; [left|right]; eauto.
Qed.

Lemma update_job_ids id f jobs j :
  find_job id jobs = Some j → job_id (f j) = id →
  map job_id (update_job id f jobs) = map job_id jobs.
Proof.
  unfold find_job. induction jobs as [|x jobs IH]; [done|]. simpl.
  case_bool_decide as Hx; [intros [= ->] Hj; simpl; by rewrite Hj, Hx|].
  intros Hf Hj. simpl. by rewrite IH.
Qed.

Lemma put_state_update id f cache j next :
  find_job id (map job cache) = Some j → job_id (f j) = id →
  map job (put_state {| job := f j; next_fire := next |} cache) = update_job id f (map job cache).
Proof.
  unfold find_job. induction cache as [|x cache IH]; [done|]. simpl.
  intros Hf Hj. rewrite Hj. revert Hf. case_bool_decide as Hx; [by intros [= <-]|].
  intros Hf. simpl. by rewrite IH.
Qed.

Lemma put_state_new s cache :
  (∀ x, x ∈ cache → job_id (job x) ≠ job_id (job s)) → put_state s cache = cache ++ [s].
Proof.
  induction cache as [|x cache IH]; [done|]. intros H. simpl.
  rewrite bool_decide_false by (apply H; left). rewrite IH; [done|]. intros y Hy. apply H. by right.
Qed.

Definition other_job (id : string) (j : Job) : bool := negb (bool_decide (job_id j = id)).

Lemma map_filter_jobs p cache :
  map job (List.filter (λ s, p (job s)) cache) = List.filter p (map job cache).
Proof. induction cache as [|x cache IH]; [done|]. simpl. destruct (p (job x)); simpl; by rewrite IH. Qed.

Definition mirror (s : Service) : Prop := map job (cache s) = table s ∧ NoDup (map job_id (table s)).

(** What the first step leaves for the second. *)
Definition pending_ok (old new : list Job) (act : sync) : Prop :=
  match act with
  | SyncJob j =>
      (new = old ++ [j] ∧ job_id j ∉ map job_id old) ∨
      (∃ f entry, find_job (job_id entry) old = Some entry ∧ j = f entry ∧ job_id j = job_id entry ∧
         new = update_job (job_id entry) f old)
  | RemoveJob id => new = List.filter (λ j, negb (bool_decide (job_id j = id))) old
  end.

Lemma edit_pending id f jobs jobs' act :
  (∀ j, job_id (f j) = job_id j) → edit id f jobs = Ok (jobs', act) → pending_ok jobs jobs' act.
Proof.
  intros Hf. unfold edit. intros (j & Hj%ok_or_Ok & [= <- <-])%rbind_Ok.
  assert (Hid : job_id j = id).
  { apply find_elem in Hj as [_ Hj]. by bools. }
  right. exists f, j. rewrite Hid. split_and!; [done..| |done]. by rewrite Hf.
Qed.

Lemma persist_spec c args env t t' r :
  persist c args env t = (t', r) →
  (∃ act, r = Ok act ∧ pending_ok t t' act) ∨ (t' = t ∧ ∃ e, r = Err e).
Proof.
  intros H. destruct c; cbn [persist] in H;
    [unfold sched_add in H|unfold sched_set in H|unfold sched_rm in H|unfold sched_enable in H];
    match type of H with match ?x with _ => _ end = _ => destruct x as [v|e] end;
    try (simplify_eq; right; by eauto); try destruct v as [[? ?] ?]; try destruct v as [? ?];
    (apply with_jobs_spec in H as [(act & -> & H)|H]; [left; exists act; split; [done|]|by right]).
  - apply rbind_Ok in H as (id & Hid%ok_or_Ok & [= <- <-]). left. split; [done|].
    apply find_elem in Hid as [_ Hid]. bools. rewrite existsb_elem_false in Hid.
    intros (j & Hj & Hin)%list_elem_of_fmap. specialize (Hid j Hin). bools. by apply Hid.
  - by eapply edit_pending; [|exact H].
  - case_if; [done|]. by injection H as <- <-.
  - by eapply edit_pending; [|exact H].
Qed.

Lemma apply_sync_mirror old new act cache now cache' :
  map job cache = old → NoDup (map job_id old) → pending_ok old new act →
  apply_sync cache act now = Ok cache' → map job cache' = new ∧ NoDup (map job_id new).
Proof.
  intros <- Hnd Hp. destruct act as [j|id]; cbn [apply_sync pending_ok] in *.
  - intros (next & _ & [= <-])%rbind_Ok. destruct Hp as [[-> Hj]|(f & e & He & -> & Hid & ->)].
    + split.
      * rewrite put_state_new; [by rewrite List.map_app|]. simpl. intros x Hx Hxj. apply Hj.
        rewrite <-Hxj. apply list_elem_of_fmap. exists (job x). split; [done|].
        apply list_elem_of_fmap. by exists x.
      * rewrite List.map_app. simpl. apply NoDup_app. split_and!; [done| |apply NoDup_singleton].
        intros x Hx ->%list_elem_of_singleton. done.
    + split; [by apply put_state_update|]. by rewrite (update_job_ids _ _ _ e).
  - intros [= <-]. subst new. split; [apply (map_filter_jobs (other_job id))|].
    induction (map job cache) as [|x l IH]; [done|]. apply NoDup_cons in Hnd as [Hx Hl]. simpl.
    destruct (negb _); [|by apply IH]. simpl. apply NoDup_cons. split; [|by apply IH].
    intros (y & Hy & [Hin _]%elem_of_List_filter)%list_elem_of_fmap. apply Hx, list_elem_of_fmap. by exists y.
Qed.

Lemma handle_spec c args env now s s' r :
  mirror s → handle c args env now s = (s', r) →
  match r with
  | Ok _ => mirror s'
  | Err (Fail _) => s' = s
  | Err Panic => True
  end.
Proof.
  intros [Hm Hnd] H. unfold handle in H.
  destruct (persist c args env (table s)) as [t r0] eqn:Hp.
  apply persist_spec in Hp as [(act & -> & Hp)|[-> [e ->]]].
  - destruct (apply_sync (cache s) act now) as [c'|e] eqn:Ha.
    + injection H as <- <-. by eapply apply_sync_mirror.
    + injection H as <- <-. destruct e as [m|]; [|done]. exfalso.
      destruct act; cbn [apply_sync] in Ha; [|done]. unfold sync_job_state in Ha.
      apply rbind_Err in Ha as [Ha|(? & _ & Ha)]; [by apply compute_no_fail in Ha|done].
  - injection H as <- <-. destruct e; [|done]. by destruct s.
Qed.

(** ** Ticks *)

Lemma take_due_spec cache now cache' due :
  take_due_jobs cache now = (cache', Some due) →
  due = map job (List.filter (is_due now) cache) ∧
  Forall2 (λ s s', job s' = job s ∧
    if is_due now s then compute_next_fire (job s) now = Ok (next_fire s')
    else next_fire s' = next_fire s) cache cache'.
Proof.
  revert cache' due. induction cache as [|s rest IH]; intros cache' due; simpl.
  { by intros [= <- <-]. }
  destruct (is_due now s) eqn:Hd.
  - destruct (compute_next_fire (job s) now) as [next|e] eqn:Hn; [|done].
    destruct (take_due_jobs rest now) as [rest' [due'|]]; [|done]. intros [= <- <-].
    destruct (IH _ _ eq_refl) as [-> H]. split; [done|]. constructor; [|done]. by rewrite Hd.
  - destruct (take_due_jobs rest now) as [rest' due'] eqn:E. intros [= <- ->].
    destruct (IH _ _ eq_refl) as [-> H]. split; [done|]. constructor; [|done]. by rewrite Hd.
Qed.

Lemma take_due_jobs_same cache now cache' due :
  take_due_jobs cache now = (cache', Some due) → map job cache' = map job cache.
Proof.
  intros [_ H]%take_due_spec. induction H as [|x y l l' [Hxy _] _ IH]; [done|]. simpl. by rewrite Hxy, IH.
Qed.
End mirror.

(** ** Commands and ticks that interleave *)

Section interleaving.
Context {C : Chrono}.

(** A service with the second steps of commands that have done their first. *)
Record Running := { service : Service; in_flight : list sync }.

Inductive Step :=
| Begin (c : Command) (args : json) (env : Env)  (* the table is edited *)
| Finish (i : nat) (now : Z)                     (* the cache follows *)
| Tick (now : Z).

(** [None] is a panic. *)
Definition run_step (st : Step) (r : Running) : option Running :=
  let s := service r in
  match st with
  | Begin c args env =>
      let '(t, res) := persist c args env (table s) in
      Some {| service := {| table := t; cache := cache s |};
              in_flight := in_flight r ++ match res with Ok act => [act] | Err _ => [] end |}
  | Finish i now =>
      match in_flight r !! i with
      | None => Some r
      | Some act =>
          match apply_sync (cache s) act now with
          | Ok c => Some {| service := {| table := table s; cache := c |}; in_flight := delete i (in_flight r) |}
          | Err _ => None
          end
      end
  | Tick now =>
      match take_due_jobs (cache s) now with
      | (c, Some _) => Some {| service := {| table := table s; cache := c |}; in_flight := in_flight r |}
      | (_, None) => None
      end
  end.

Definition about (act : sync) : string := match act with SyncJob j => job_id j | RemoveJob id => id end.

(** The steps run without a panic, and no two commands in flight are about the
    same job. *)
Inductive runs : Running → list Step → Running → Prop :=
| runs_nil r : runs r [] r
| runs_snoc r steps r1 st r2 :
    runs r steps r1 → run_step st r1 = Some r2 → NoDup (map about (in_flight r2)) → runs r (steps ++ [st]) r2.

(** The same, computed. *)
Fixpoint replayed (steps : list Step) (r : Running) : option Running :=
  match steps with
  | [] => Some r
  | st :: steps =>
      match run_step st r with
      | Some r => if bool_decide (NoDup (map about (in_flight r))) then replayed steps r else None
      | None => None
      end
  end.

Lemma replayed_runs r0 before r steps r' : runs r0 before r → replayed steps r = Some r' → runs r0 (before ++ steps) r'.
Proof.
  revert before r. induction steps as [|st steps IH]; intros before r Hb; cbn [replayed].
  - intros [= <-]. by rewrite app_nil_r.
  - destruct (run_step st r) as [r1|] eqn:Hst; [|done]. case_bool_decide; [|done]. intros Hr.
    rewrite (cons_middle st before steps), app_assoc. eapply IH; [|done]. by econstructor.
Qed.

(** The clock of a step. *)
Definition step_time (st : Step) : list Z := match st with Begin _ _ _ => [] | Finish _ now | Tick now => [now] end.

(** The next time of a cached job is what its schedule says from one of [ts]. *)
Definition timed (ts : list Z) (c : list JobState) : Prop :=
  Forall (λ s, ∃ t, t ∈ ts ∧ compute_next_fire (job s) t = Ok (next_fire s)) c.

(** The table and the cache: distinct jobs; where no command is in flight, the
    cache holds the job of the table; a command in flight holds what the table
    says by now. *)
Record coherent (r : Running) : Prop := {
  co_table : NoDup (map job_id (table (service r)));
  co_cache : NoDup (map job_id (map job (cache (service r))));
  co_same id : id ∉ map about (in_flight r) → find_job id (map job (cache (service r))) = find_job id (table (service r));
  co_flight act : act ∈ in_flight r → match act with
    | SyncJob j => find_job (job_id j) (table (service r)) = Some j
    | RemoveJob id => find_job id (table (service r)) = None
    end;
}.

Lemma find_put_state i s c :
  find_job i (map job (put_state s c)) = if bool_decide (job_id (job s) = i) then Some (job s) else find_job i (map job c).
Proof.
  unfold find_job. induction c as [|x c IH]; [done|]. cbn [put_state].
  destruct (decide (job_id (job x) = job_id (job s))) as [Hx|Hx].
  - rewrite (bool_decide_true (_ = job_id (job s))) by done. cbn [map List.find]. rewrite Hx. by destruct (bool_decide _).
  - rewrite (bool_decide_false (_ = job_id (job s))) by done. cbn [map List.find]. rewrite IH.
    destruct (decide (job_id (job s) = i)) as [Hi|Hi].
    + rewrite (bool_decide_true (job_id (job s) = i)), bool_decide_false by congruence. done.
    + by rewrite (bool_decide_false (job_id (job s) = i)) by done.
Qed.

Lemma find_filter i id l :
  find_job i (List.filter (other_job id) l) = if bool_decide (id = i) then None else find_job i l.
Proof.
  unfold find_job, other_job. induction l as [|x l IH]; cbn [List.filter List.find]; [by case_bool_decide|].
  destruct (bool_decide (job_id x = id)) eqn:Hx; cbn [negb List.find]; bools; rewrite IH.
  - rewrite Hx. by case_bool_decide.
  - case_bool_decide as Hi; [subst id; by rewrite bool_decide_false|done].
Qed.

Lemma find_job_app i l j : find_job i (l ++ [j]) = match find_job i l with Some x => Some x | None => if bool_decide (job_id j = i) then Some j else None end.
Proof. unfold find_job. induction l as [|x l IH]; cbn; [done|]. by destruct (bool_decide (job_id x = i)). Qed.

Lemma find_job_update i id f l :
  (∀ j, find_job id l = Some j → job_id (f j) = id) →
  find_job i (update_job id f l) = if bool_decide (id = i) then f <$> find_job i l else find_job i l.
Proof.
  unfold find_job. induction l as [|x l IH]; intros Hf; cbn [update_job List.find]; [by case_bool_decide|].
  cbn [List.find] in Hf. destruct (bool_decide (job_id x = id)) eqn:Hx; cbn [List.find]; bools.
  - rewrite (Hf x eq_refl), Hx. by case_bool_decide.
  - rewrite (IH Hf). destruct (decide (id = i)) as [Hi|Hi].
    + subst i. by rewrite (bool_decide_false (job_id x = id)), bool_decide_true by done.
    + by rewrite (bool_decide_false (id = i)) by done.
Qed.

Lemma find_None id l : find_job id l = None ↔ id ∉ map job_id l.
Proof.
  unfold find_job. split.
  - intros Hf (j & -> & Hj)%list_elem_of_fmap. apply (find_none_elem _ _ Hf) in Hj. by bools.
  - intros Hid. destruct (List.find _ l) as [j|] eqn:E; [|done]. apply find_elem in E as [Hj Hb]. bools.
    destruct Hid. apply list_elem_of_fmap. by exists j.
Qed.

Lemma find_self l j : NoDup (map job_id l) → j ∈ l → find_job (job_id j) l = Some j.
Proof.
  unfold find_job. intros Hnd Hj. induction Hj as [j l|j x l Hj IH]; cbn [List.find].
  - by rewrite bool_decide_true.
  - apply NoDup_cons in Hnd as [Hx Hnd]. rewrite bool_decide_false; [by apply IH|].
    intros Heq. apply Hx, list_elem_of_fmap. by exists j.
Qed.

Lemma find_perm l k : NoDup (map job_id l) → NoDup (map job_id k) → (∀ i, find_job i l = find_job i k) → l ≡ₚ k.
Proof.
  intros Hl Hk Hf. apply NoDup_Permutation; [by eapply NoDup_fmap_1|by eapply NoDup_fmap_1|]. intros j. split; intros Hj.
  - apply (find_self _ _ Hl) in Hj. rewrite Hf in Hj. by apply find_elem in Hj as [? _].
  - apply (find_self _ _ Hk) in Hj. rewrite <-Hf in Hj. by apply find_elem in Hj as [? _].
Qed.

(** What the first step of a command does to the table, by lookups. *)
Lemma pending_find old new act :
  NoDup (map job_id old) → pending_ok old new act →
  NoDup (map job_id new) ∧ (∀ i, i ≠ about act → find_job i new = find_job i old) ∧
  match act with SyncJob j => find_job (job_id j) new = Some j | RemoveJob id => find_job id new = None end.
Proof.
  intros Hnd Hp. destruct act as [j|id]; cbn [pending_ok about] in *.
  - destruct Hp as [[-> Hj]|(f & e & He & -> & Hid & ->)].
    + split_and!.
      * rewrite List.map_app. apply NoDup_app. split_and!; [done| |apply NoDup_singleton]. intros x Hx ->%list_elem_of_singleton. done.
      * intros i Hi. rewrite find_job_app, bool_decide_false by done. by destruct (find_job i old).
      * rewrite find_job_app, (proj2 (find_None _ _) Hj), bool_decide_true by done. done.
    + assert (Hf : ∀ x, find_job (job_id e) old = Some x → job_id (f x) = job_id e) by (intros x; rewrite He; by intros [= <-]).
      split_and!.
      * by rewrite (update_job_ids _ _ _ e).
      * intros i Hi. rewrite find_job_update, bool_decide_false by congruence. done.
      * rewrite Hid, find_job_update, bool_decide_true, He by done. done.
  - subst new. split_and!.
    + fold (other_job id). induction old as [|x l IH]; [done|]. apply NoDup_cons in Hnd as [Hx Hl]. cbn [List.filter].
      destruct (other_job id x); [|by apply IH]. cbn [map]. apply NoDup_cons. split; [|by apply IH].
      intros (y & Hy & [Hin _]%elem_of_List_filter)%list_elem_of_fmap. apply Hx, list_elem_of_fmap. by exists y.
    + intros i Hi. fold (other_job id). rewrite find_filter, bool_decide_false by congruence. done.
    + fold (other_job id). by rewrite find_filter, bool_decide_true.
Qed.

(** What the second step does to the cache. *)
Lemma apply_find c act now c' :
  NoDup (map job_id (map job c)) → apply_sync c act now = Ok c' →
  NoDup (map job_id (map job c')) ∧ (∀ i, i ≠ about act → find_job i (map job c') = find_job i (map job c)) ∧
  find_job (about act) (map job c') = match act with SyncJob j => Some j | RemoveJob _ => None end.
Proof.
  intros Hnd H. destruct act as [j|id]; cbn [apply_sync about] in *.
  - apply rbind_Ok in H as (next & _ & [= <-]). split_and!.
    + set (s := {| job := j; next_fire := next |}).
      destruct (find_job (job_id j) (map job c)) as [e|] eqn:He.
      * pose proof (put_state_update (job_id j) (λ _, j) c e next He eq_refl) as E. cbn beta in E. fold s in E. rewrite E.
        by rewrite (update_job_ids _ _ _ e).
      * rewrite find_None in He. rewrite put_state_new.
        -- rewrite !List.map_app. apply NoDup_app. split_and!; [done| |apply NoDup_singleton].
           intros x Hx ->%list_elem_of_singleton. by apply He.
        -- intros x Hx Heq. apply He. change (job_id j) with (job_id (job s)). rewrite <-Heq.
           apply list_elem_of_fmap. exists (job x). split; [done|]. apply list_elem_of_fmap. by exists x.
    + intros i Hi. rewrite find_put_state. cbn [job]. by rewrite bool_decide_false.
    + rewrite find_put_state. cbn [job]. by rewrite bool_decide_true.
  - injection H as <-.
    assert (E : map job (remove_job_state c id) = List.filter (other_job id) (map job c)) by apply (map_filter_jobs (other_job id)).
    rewrite E. destruct (pending_find (map job c) _ (RemoveJob id) Hnd eq_refl) as (? & ? & ?). by split_and!.
Qed.

Lemma coherent_step st r r' :
  coherent r → run_step st r = Some r' → NoDup (map about (in_flight r')) → coherent r'.
Proof.
  intros [Ht Hc Hs Hf] Hst Hnd. destruct st as [c args env|i now|now]; cbn [run_step] in Hst.
  - destruct (persist c args env (table (service r))) as [t res] eqn:Hp. injection Hst as <-.
    apply persist_spec in Hp as [(act & -> & Hp)|[-> [e ->]]]; cbn [service in_flight table cache] in *.
    + destruct (pending_find _ _ _ Ht Hp) as (Hnt & Hother & Hown). rewrite List.map_app in Hnd. cbn in Hnd.
      apply NoDup_app in Hnd as (_ & Hfresh & _). split; cbn [service in_flight table cache]; [done|done|..].
      * intros id Hid. rewrite List.map_app, not_elem_of_app in Hid. destruct Hid as [Hid Hne].
        rewrite (Hs id Hid), Hother; [done|]. intros ->. apply Hne. apply list_elem_of_here.
      * intros act' [Hact| ->%list_elem_of_singleton]%elem_of_app; [|by destruct act].
        assert (about act' ≠ about act).
        { intros Heq. apply (Hfresh (about act')); [apply list_elem_of_fmap; by exists act'|]. rewrite Heq. apply list_elem_of_here. }
        pose proof (Hf _ Hact) as Hx. destruct act'; cbn [about] in *; by rewrite Hother.
    + rewrite app_nil_r. by split.
  - destruct (in_flight r !! i) as [act|] eqn:Hi; [|injection Hst as <-; by split].
    destruct (apply_sync _ act now) as [c|] eqn:Ha; [|done]. injection Hst as <-.
    destruct (apply_find _ _ _ _ Hc Ha) as (Hnc & Hother & Hown). split; cbn [service in_flight table cache]; [done|done|..].
    + intros id Hid. destruct (decide (id = about act)) as [->|Hne].
      * rewrite Hown. pose proof (Hf act) as Hx. specialize (Hx ltac:(by eapply list_elem_of_lookup_2)). by destruct act.
      * rewrite Hother by done. apply Hs. intros (a & -> & Hin)%list_elem_of_fmap. apply Hid, list_elem_of_fmap. exists a.
        split; [done|]. rewrite (delete_Permutation _ _ _ Hi), elem_of_cons in Hin. destruct Hin as [->|]; done.
    + intros act' Hact. apply Hf. eapply elem_of_sublist; [exact Hact|apply sublist_delete].
  - destruct (take_due_jobs _ now) as [c [due|]] eqn:Hd; [|done]. injection Hst as <-.
    apply take_due_jobs_same in Hd. split; cbn [service in_flight table cache]; try rewrite Hd; done.
Qed.

Lemma timed_mono ts ts' c : timed ts c → timed (ts ++ ts') c.
Proof. intros H. eapply Forall_impl; [exact H|]. intros s (t & Ht & ?). exists t. split; [apply elem_of_app; by left|done]. Qed.

Lemma timed_put ts s c : (∃ t, t ∈ ts ∧ compute_next_fire (job s) t = Ok (next_fire s)) → timed ts c → timed ts (put_state s c).
Proof.
  intros Hs Hc. induction Hc as [|x c Hx Hc IH]; cbn [put_state]; [by constructor|]. case_bool_decide; by constructor.
Qed.

Lemma timed_step ts st r r' :
  timed ts (cache (service r)) → run_step st r = Some r' → timed (ts ++ step_time st) (cache (service r')).
Proof.
  intros Ht Hst. destruct st as [c args env|i now|now]; cbn [run_step step_time] in *.
  - destruct (persist _ _ _ _) as [t res]. injection Hst as <-. cbn. by rewrite app_nil_r.
  - destruct (in_flight r !! i) as [act|]; [|injection Hst as <-; by apply timed_mono].
    destruct (apply_sync _ act now) as [c|] eqn:Ha; [|done]. injection Hst as <-. cbn [service cache].
    apply (timed_mono _ [now]) in Ht. destruct act as [j|id]; cbn [apply_sync] in Ha.
    + apply rbind_Ok in Ha as (next & Hn & [= <-]). apply timed_put; [|done]. exists now. split; [|done].
      apply elem_of_app. right. apply list_elem_of_here.
    + injection Ha as <-. unfold timed, remove_job_state in *. rewrite Forall_forall in *. intros s [Hs _]%elem_of_List_filter. by apply Ht.
  - destruct (take_due_jobs _ now) as [c [due|]] eqn:Hd; [|done]. injection Hst as <-. cbn [service cache].
    apply take_due_spec in Hd as [_ Hd]. apply (timed_mono _ [now]) in Ht. unfold timed in *.
    induction Hd as [|x y l l' [Hj Hif] _ IH]; [done|]. apply Forall_cons in Ht as [Hx Ht]. constructor; [|by apply IH].
    rewrite Hj. destruct (is_due now x); [|by rewrite Hif]. exists now. split; [|done]. apply elem_of_app. right. apply list_elem_of_here.
Qed.
End interleaving.

Lemma init_coherent {C : Chrono} t0 now0 c0 :
  NoDup (map job_id t0) → init_service t0 now0 = Ok c0 →
  coherent {| service := {| table := t0; cache := c0 |}; in_flight := [] |} ∧ timed [now0] c0.
Proof.
  unfold init_service. intros Hnd Hc%try_map_Ok.
  assert (map job c0 = t0 ∧ timed [now0] c0) as [Hj Ht].
  { clear Hnd. induction Hc as [|j s t c Hs _ [IH1 IH2]]; [split; [done|apply Forall_nil; exact I]|].
    apply rbind_Ok in Hs as (next & Hn & [= <-]). split; [cbn; by rewrite IH1|]. apply Forall_cons. split; [|done].
    exists now0. split; [apply list_elem_of_here|done]. }
  split; [|done]. split; cbn; rewrite ?Hj; [done..|]. by intros act ?%elem_of_nil.
Qed.

(** C17. Commands of the scheduler. A command takes two steps, the table on disk
    first and the cache after, and other commands and ticks may come between
    them. From the start of the service over a table of distinct jobs, through
    any such interleaving that does not panic and in which no two commands in
    flight are about the same job, whatever the arguments, the disk and the
    clock: when no command is in flight the cache holds exactly the jobs of the
    table; at all times every cached job has a next time that its schedule gives
    from some moment a step happened, and ids are distinct; a command that is
    refused leaves the service as it was; the second step of a command fails
    only by a panic; and a job is added at the end of the table under a new id.
    Both conditions are needed: see [removed_job_comes_back] and
    [long_interval_bricks]. *)
Theorem commands_atomic {C : Chrono} t0 now0 c0 steps r :
  NoDup (map job_id t0) → init_service t0 now0 = Ok c0 →
  runs {| service := {| table := t0; cache := c0 |}; in_flight := [] |} steps r →
  let s := service r in
  (in_flight r = [] → map job (cache s) ≡ₚ table s) ∧
  NoDup (map job_id (table s)) ∧ NoDup (map job_id (map job (cache s))) ∧
  timed (now0 :: concat (map step_time steps)) (cache s) ∧
  (∀ c args env t e, persist c args env (table s) = (t, Err e) → run_step (Begin c args env) r = Some r) ∧
  (∀ act now e, apply_sync (cache s) act now = Err e → e = Panic) ∧
  (∀ args env t j, persist Add args env (table s) = (t, Ok (SyncJob j)) → t = table s ++ [j] ∧ job_id j ∉ map job_id (table s)).
Proof.
  intros Hnd Hinit Hruns s. destruct (init_coherent _ _ _ Hnd Hinit) as [Hco Ht].
  assert (coherent r ∧ timed (now0 :: concat (map step_time steps)) (cache s)) as [[H1 H2 H3 _] H4].
  { subst s. remember {| service := _; in_flight := [] |} as r0 eqn:Hr0.
    induction Hruns as [r|r steps r1 st r2 _ IH Hst Hfl]; [by subst|].
    destruct (IH Hr0) as [Hco1 Ht1]; [by subst..|]. split; [by eapply coherent_step|].
    rewrite List.map_app, concat_app. cbn [map concat]. rewrite app_nil_r, app_comm_cons. by eapply timed_step. }
  split_and!; [|done|done|done|..].
  - intros Hnil. apply find_perm; [done|done|]. intros id. apply H3. rewrite Hnil. apply not_elem_of_nil.
  - intros c args env t e Hp. cbn [run_step]. fold s. rewrite Hp. rewrite app_nil_r.
    apply persist_spec in Hp as [(act & ? & _)|[-> _]]; [done|]. subst s. by destruct r as [[] ?].
  - intros act now e Ha. destruct e as [m|]; [|done]. destruct act as [j|]; [|done]. cbn [apply_sync] in Ha.
    apply rbind_Err in Ha as [Ha|(? & _ & Ha)]; [by apply compute_no_fail in Ha|done].
  - intros args env t j Hp. cbn [persist] in Hp. unfold sched_add in Hp.
    destruct (let? name := _ in _) as [[[? ?] ?]|] in Hp; [|done].
    apply with_jobs_spec in Hp as [(v & [= <-] & Hp)|[_ [? ?]]]; [|done].
    apply rbind_Ok in Hp as (id & Hid%ok_or_Ok & [= <- <-]). split; [done|]. cbn [job_id].
    apply find_elem in Hid as [_ Hid]. bools. rewrite existsb_elem_false in Hid.
    intros (x & Hx & Hin)%list_elem_of_fmap. specialize (Hid x Hin). by bools.
Qed.

(** ** Jobs fire on time *)

Section cadence.
Context {C : Chrono}.

Fixpoint run_ticks (cache : list JobState) (ts : list Z) : list JobState * option (list (list Job)) :=
  match ts with
  | [] => (cache, Some [])
  | now :: ts =>
      match take_due_jobs cache now with
      | (cache, None) => (cache, None)
      | (cache, Some due) =>
          let '(cache, dues) := run_ticks cache ts in (cache, cons due <$> dues)
      end
  end.

(** The ticks at which a job is started. *)
Fixpoint fires_of (j : Job) (ts : list Z) (dues : list (list Job)) : list Z :=
  match ts, dues with
  | now :: ts, due :: dues =>
      if existsb (λ x, bool_decide (job_id x = job_id j)) due then now :: fires_of j ts dues else fires_of j ts dues
  | _, _ => []
  end.

(** Ticks that ascend from [t], at most [g] apart. *)
Fixpoint paced (g t : Z) (ts : list Z) : Prop :=
  match ts with [] => True | now :: ts => t < now ≤ t + g ∧ paced g now ts end.

(** A job due at [f]: it fires less than [g] late, is due again [d] after, and
    nothing is outstanding at the end. *)
Fixpoint on_schedule (d g f : Z) (fires : list Z) (end_ : Z) : Prop :=
  match fires with
  | [] => end_ < f
  | x :: fires => f ≤ x < f + g ∧ on_schedule d g (x + d) fires end_
  end.

Lemma due_has_job cache i s now :
  NoDup (map job_id (map job cache)) → cache !! i = Some s →
  existsb (λ x, bool_decide (job_id x = job_id (job s))) (map job (List.filter (is_due now) cache)) = is_due now s.
Proof.
  intros Hnd Hi. apply eq_true_iff_eq. rewrite existsb_elem. split.
  - intros (x & (y & -> & [Hy Hdue]%elem_of_List_filter)%list_elem_of_fmap & Hid). bools.
    apply list_elem_of_lookup in Hy as [k Hk]. enough (k = i) as -> by congruence.
    apply (NoDup_lookup (map job_id (map job cache)) k i (job_id (job s)) Hnd).
    + rewrite !list_lookup_fmap, Hk. simpl. by rewrite Hid.
    + by rewrite !list_lookup_fmap, Hi.
  - intros Hdue. exists (job s). split; [|by apply bool_decide_true].
    apply list_elem_of_fmap. exists s. split; [done|]. apply elem_of_List_filter. split; [|done].
    by apply list_elem_of_lookup_2 in Hi.
Qed.

Lemma last_cons {A} (l : list A) a b : List.last (a :: l) b = List.last l a.
Proof.
  revert a b. induction l as [|x l IH]; intros a b; [done|].
  change (List.last (a :: x :: l) b) with (List.last (x :: l) b). by rewrite !IH.
Qed.

Lemma cadence ts : ∀ cache cache' dues i s d f t0 g,
  NoDup (map job_id (map job cache)) → cache !! i = Some s →
  enabled (job s) = true → parse (schedule (job s)) = Ok (Interval d) →
  0 < d → 0 < g → next_fire s = Some f → t0 < f → paced g t0 ts →
  run_ticks cache ts = (cache', Some dues) →
  on_schedule d g f (fires_of (job s) ts dues) (List.last ts t0).
Proof.
  induction ts as [|now ts IH]; intros cache cache' dues i s d f t0 g Hnd Hi He Hp Hd Hg Hf Ht Hpace Hrun.
  { injection Hrun as <- <-. done. }
  cbn [run_ticks] in Hrun. destruct (take_due_jobs cache now) as [c1 [due|]] eqn:Htake; [|done].
  destruct (run_ticks c1 ts) as [c2 [dues'|]] eqn:Hrest; [|done]. injection Hrun as <- <-.
  pose proof (take_due_spec _ _ _ _ Htake) as [-> Hall]. destruct Hpace as [Hnow Hpace].
  destruct (Forall2_lookup_l _ _ _ _ _ Hall Hi) as (s1 & Hi1 & Hjob & Hnext).
  assert (Hnd1 : NoDup (map job_id (map job c1))).
  { by rewrite (take_due_jobs_same _ _ _ _ Htake). }
  rewrite last_cons. cbn [fires_of]. rewrite (due_has_job cache i s now Hnd Hi).
  unfold is_due in *. rewrite Hf in *. cbn [is_some_and] in *.
  rewrite <-Hjob in He, Hp |- *. destruct (Z.leb_spec f now) as [Hle|Hlt].
  - assert (Hn : next_fire s1 = Some (now + d)).
    { rewrite <-Hjob in Hnext. unfold compute_next_fire in Hnext. rewrite He, Hp in Hnext. cbn [negb next_after] in Hnext.
      apply rbind_Ok in Hnext as (u & Hu%add_time_Ok & [= <-]). by rewrite Hu. }
    cbn [on_schedule]. split; [lia|].
    apply (IH c1 c2 dues' i s1 d (now + d) now g); auto; lia.
  - apply (IH c1 c2 dues' i s1 d f now g); auto.
Qed.
End cadence.

(** C10. Jobs fire on time. For an enabled job whose expression is a plain
    interval [d], in a cache of distinct jobs: while ticks come at most [g]
    apart and no command interferes, the job is started at the first tick at or
    after the time it is due - so less than [g] late -, is due again exactly [d]
    after that tick, never twice in between, and at the end nothing is
    outstanding: no tick, however slow, loses a run or repeats one. Every tick
    starts exactly the jobs that are due, in the order of the table. *)
Theorem jobs_fire_on_time {C : Chrono} cache ts cache' dues i s d f t0 g :
  NoDup (map job_id (map job cache)) → cache !! i = Some s →
  enabled (job s) = true → parse (schedule (job s)) = Ok (Interval d) → 0 < d →
  next_fire s = Some f → t0 < f → 0 < g → paced g t0 ts →
  run_ticks cache ts = (cache', Some dues) →
  on_schedule d g f (fires_of (job s) ts dues) (List.last ts t0) ∧
  map job cache' = map job cache ∧
  ∀ now c2 due, take_due_jobs cache' now = (c2, Some due) →
    due = map job (List.filter (is_due now) cache').
Proof.
  intros Hnd Hi He Hp Hd Hf Ht Hg Hpace Hrun. split_and!.
  - by apply (cadence ts cache cache' dues i).
  - clear -Hrun. revert cache dues Hrun. induction ts as [|now ts IH]; intros cache dues Hrun; simpl in Hrun.
    { by injection Hrun as <- _. }
    destruct (take_due_jobs cache now) as [c1 [due|]] eqn:Htake; [|done].
    destruct (run_ticks c1 ts) as [c2 [dues'|]] eqn:Hrest; [|done]. injection Hrun as <- _.
    rewrite (IH _ _ Hrest). by eapply take_due_jobs_same.
  - intros now c2 due H. by apply take_due_spec in H as [-> _].
Qed.

(** ** New identifiers *)

Lemma digits_zeros k s : digits_value 0 (zeros k +:+ s) = digits_value 0 s.
Proof. induction k as [|k IH]; [done|]. exact IH. Qed.

Lemma job_id_of_inj a b : 0 ≤ a → 0 ≤ b → job_id_of a = job_id_of b → a = b.
Proof.
  intros Ha Hb H. apply (f_equal (string_drop 4)) in H. unfold job_id_of in H.
  assert (Hs : ∀ x, string_drop 4 ("job-" +:+ x) = x) by done. rewrite !Hs in H.
  apply (f_equal (digits_value 0)) in H. rewrite !digits_zeros in H.
  destruct (show_spec a Ha) as (_ & Hav & _), (show_spec b Hb) as (_ & Hbv & _). congruence.
Qed.

(** The loop ends once the numbers drawn cover a range larger than the table. *)
Lemma new_job_id_terminates draws existing n :
  zlen existing < n → (∀ k, 0 ≤ k < n → k ∈ draws) → is_Some (new_job_id draws existing).
Proof.
  intros Hn Hd. destruct (new_job_id draws existing) as [id|] eqn:E; [by eexists|]. exfalso.
  assert (Hall : ∀ k, 0 ≤ k < n → job_id_of k ∈ map job_id existing).
  { intros k Hk. assert (Hin : job_id_of k ∈ map job_id_of draws)
      by (apply list_elem_of_fmap; exists k; split; [done|by apply Hd]).
    pose proof (find_none_elem _ _ E _ Hin) as Hf. cbv beta in Hf. apply negb_false_iff in Hf.
    apply existsb_elem in Hf as (j & Hj & Hid). bools. apply list_elem_of_fmap. by exists j. }
  assert (Hlen : (length (map job_id_of (seqZ 0 n)) ≤ length (map job_id existing))%nat).
  { apply submseteq_length, NoDup_submseteq.
    - apply NoDup_fmap_2_strong; [|apply NoDup_seqZ]. intros a b Ha%elem_of_seqZ Hb%elem_of_seqZ.
      apply job_id_of_inj; lia.
    - intros x (k & -> & Hk%elem_of_seqZ)%list_elem_of_fmap. apply Hall. lia. }
  rewrite !length_map, length_seqZ in Hlen. unfold zlen in Hn. lia.
Qed.

(** ** The tail of the output is exact *)

Definition last_n {A} (n : Z) (l : list A) : list A := drop (Z.to_nat (zlen l - n)) l.

Lemma drop_same {A} (l : list A) n m :
  (n `min` length l = m `min` length l)%nat → drop n l = drop m l.
Proof.
  intros H. destruct (decide (n ≤ length l)%nat), (decide (m ≤ length l)%nat).
  - f_equal. lia.
  - rewrite !drop_ge by lia. done.
  - rewrite !drop_ge by lia. done.
  - rewrite !drop_ge by lia. done.
Qed.

Lemma push_last cap o chunk stream :
  0 ≤ cap → ring o = last_n cap stream → ring (push cap o chunk) = last_n cap (stream ++ chunk).
Proof.
  intros Hc Hr. assert (Hlen : zlen (ring o) = Z.min cap (zlen stream)).
  { rewrite Hr. unfold last_n, zlen. rewrite length_drop. lia. }
  unfold push, last_n. cbn [ring]. rewrite Hlen, Hr. unfold last_n. rewrite zlen_app, drop_app, drop_drop.
  pose proof (zlen_nonneg stream). pose proof (zlen_nonneg chunk). unfold sat_sub, zlen in *.
  f_equal; apply drop_same; lia.
Qed.

Lemma pushes_exact cap chunks o stream :
  0 ≤ cap → ring o = last_n cap stream → truncated o = (cap <? zlen stream) →
  let o' := foldl (push cap) o chunks in
  ring o' = last_n cap (stream ++ concat chunks) ∧ truncated o' = (cap <? zlen (stream ++ concat chunks)).
Proof.
  intros Hc. revert o stream. induction chunks as [|c chunks IH]; intros o stream Hr Ht; simpl.
  { by rewrite app_nil_r. }
  rewrite app_assoc. apply IH; [by apply push_last|].
  unfold push. cbn [truncated]. rewrite Ht, zlen_app.
  assert (Hlen : zlen (ring o) = Z.min cap (zlen stream)).
  { rewrite Hr. unfold last_n, zlen. rewrite length_drop. lia. }
  rewrite Hlen. pose proof (zlen_nonneg c). unfold sat_sub.
  apply eq_true_iff_eq. rewrite orb_true_iff, !Z.ltb_lt. lia.
Qed.

(** However the output arrives, the ring holds its last bytes and tells whether
    any were dropped. *)
Lemma output_tail_exact chunks :
  let o := foldl (push OUTPUT_CAP) {| ring := []; truncated := false |} chunks in
  ring o = last_n OUTPUT_CAP (concat chunks) ∧ truncated o = (OUTPUT_CAP <? zlen (concat chunks)).
Proof. by apply (pushes_exact OUTPUT_CAP chunks _ []). Qed.

Lemma run_log_bounded {A} (records : list A) :
  foldl append_run_record [] records = last_n RUN_LOG_CAP records.
Proof.
  induction records as [|r records IH] using rev_ind; [done|].
  rewrite foldl_snoc, IH. unfold append_run_record, last_n.
  assert (Hlen : zlen (drop (Z.to_nat (zlen records - RUN_LOG_CAP)) records) = Z.min RUN_LOG_CAP (zlen records)).
  { unfold zlen, RUN_LOG_CAP. rewrite length_drop. lia. }
  rewrite !zlen_app, Hlen. change (zlen [r]) with 1. pose proof (zlen_nonneg records).
  rewrite !drop_app. unfold zlen, RUN_LOG_CAP in *. rewrite !length_drop.
  destruct (Z.ltb_spec 200 (Z.min 200 (Z.of_nat (length records)) + 1)).
  - rewrite drop_drop. f_equal; apply drop_same; simpl; lia.
  - rewrite <-(drop_0 [r]) at 1. f_equal; apply drop_same; simpl; lia.
Qed.

(** ** Concrete services *)
Module SchedulerToy.
Import ScheduleToy.
#[export] Instance utc : Chrono := autumn.

Definition works : Io := {| reads := true; writes := true |}.
Definition env (draw : Z) (wire : string) : Env := {| draws := [draw]; now_wire := wire; io := works |}.
Definition add_args (expr : string) : json :=
  obj [("name", JString "backup"); ("schedule", JString expr); ("command", JString "true")].
Definition id_args : json := obj [("id", JString "job-000007")].
Definition empty : Service := {| table := []; cache := [] |}.
Definition backup : Job :=
  {| job_id := "job-000007"; name := "backup"; schedule := "@every 10s"; command := "true";
     enabled := true; created_at := "t0"; updated_at := "t0" |}.
Definition start : Z := 20000 * DAY.
Definition one_job : list JobState := [{| job := backup; next_fire := Some (start + 10 * SECOND) |}].
Definition seconds (l : list Z) : list Z := map (λ n, start + n * SECOND) l.
Definition edited : Job :=
  {| job_id := "job-000007"; name := "backup"; schedule := "@every 10s"; command := "true";
     enabled := true; created_at := "t0"; updated_at := "t1" |}.
Definition huge : Job :=
  {| job_id := "job-000007"; name := "backup"; schedule := "@every 1000000000d"; command := "true";
     enabled := true; created_at := "t0"; updated_at := "t0" |}.
End SchedulerToy.
Import SchedulerToy.

(** Two jobs are added, each while the other is in flight, with a tick between. *)
Definition overlapping : list Step :=
  [Begin Add (add_args "@every 10s") (env 7 "t0"); Begin Add (add_args "@every 10s") (env 8 "t1"); Finish 1 start;
   Tick (start + 5 * SECOND); Finish 0 (start + 6 * SECOND)].

Lemma commands_atomic_witness :
  ∃ r, replayed overlapping {| service := empty; in_flight := [] |} = Some r ∧
    map job_id (table (service r)) = ["job-000007"; "job-000008"] ∧
    map job_id (map job (cache (service r))) = ["job-000008"; "job-000007"] ∧
    map job (cache (service r)) ≡ₚ table (service r).
Proof.
  assert (Hall : match replayed overlapping {| service := empty; in_flight := [] |} with
    | Some r => map job_id (table (service r)) = ["job-000007"; "job-000008"] ∧
        map job_id (map job (cache (service r))) = ["job-000008"; "job-000007"] ∧ in_flight r = []
    | None => False end) by (vm_compute; split_and!; reflexivity).
  destruct (replayed overlapping {| service := empty; in_flight := [] |}) as [r|] eqn:Hr; [|destruct Hall].
  exists r. destruct Hall as (Ht & Hc & Hf). split; [reflexivity|]. split; [exact Ht|]. split; [exact Hc|].
  assert (Hruns : runs {| service := empty; in_flight := [] |} ([] ++ overlapping) r) by (eapply replayed_runs; [constructor|exact Hr]).
  destruct (commands_atomic [] start [] overlapping r) as (Hm & _); [constructor|reflexivity|exact Hruns|].
  exact (Hm Hf).
Defined.

Lemma jobs_fire_on_time_witness :
  let ts := seconds [1; 9; 12; 13; 21; 23; 31; 34] in
  let dues := [[]; []; [backup]; []; []; [backup]; []; [backup]] in
  (run_ticks one_job ts).2 = Some dues ∧
  fires_of backup ts dues = seconds [12; 23; 34] ∧
  on_schedule (10 * SECOND) (9 * SECOND) (start + 10 * SECOND) (seconds [12; 23; 34]) (start + 34 * SECOND).
Proof.
  cbv zeta.
  assert (Hdues : (run_ticks one_job (seconds [1; 9; 12; 13; 21; 23; 31; 34])).2 =
    Some [[]; []; [backup]; []; []; [backup]; []; [backup]]) by (vm_compute; reflexivity).
  assert (Hp : parse (schedule backup) = Ok (Interval (10 * SECOND))).
  { assert (H : match parse (schedule backup) with Ok (Interval i) => i =? 10 * SECOND | _ => false end = true)
      by (vm_compute; reflexivity).
    destruct (parse (schedule backup)) as [[]|]; try discriminate H. by apply Z.eqb_eq in H as ->. }
  assert (Hpace : paced (9 * SECOND) start (seconds [1; 9; 12; 13; 21; 23; 31; 34]))
    by (repeat split; vm_compute; congruence).
  assert (Hnd : NoDup (map job_id (map job one_job))) by apply NoDup_singleton.
  split; [exact Hdues|]. split; [vm_compute; reflexivity|].
  destruct (run_ticks one_job (seconds [1; 9; 12; 13; 21; 23; 31; 34])) as [c r] eqn:Hrun.
  cbn [snd] in Hdues. subst r.
  exact (proj1 (jobs_fire_on_time one_job _ c _ 0%nat
    {| job := backup; next_fire := Some (start + 10 * SECOND) |} (10 * SECOND) (start + 10 * SECOND) start
    (9 * SECOND) Hnd eq_refl eq_refl Hp eq_refl eq_refl eq_refl eq_refl Hpace Hrun)).
Defined.

(** The two steps of concurrent commands can interleave: a job edited while it
    is removed is put back into the cache, which then starts a job the table no
    longer has. *)
Lemma removed_job_comes_back :
  let ghost := [{| job := edited; next_fire := Some (start + 10 * SECOND) |}] in
  persist Set_ id_args (env 8 "t1") [backup] = ([edited], Ok (SyncJob edited)) ∧
  persist Rm id_args (env 9 "t2") [edited] = ([], Ok (RemoveJob "job-000007")) ∧
  apply_sync one_job (RemoveJob "job-000007") start = Ok [] ∧
  apply_sync [] (SyncJob edited) start = Ok ghost ∧
  (take_due_jobs ghost (start + 10 * SECOND)).2 = Some [edited].
Proof. cbv zeta. split_and!; vm_compute; reflexivity. Qed.

(** A large number of days is accepted and written to the table; computing its
    next time panics then, and again whenever the service starts. *)
Lemma long_interval_bricks :
  handle Add (add_args "@every 1000000000d") (env 7 "t0") start empty =
    ({| table := [huge]; cache := [] |}, Err Panic) ∧
  init_service [huge] start = Err Panic.
Proof. split; vm_compute; reflexivity. Qed.
