(* ===== verification/AuthzPolicy.v ===== *)
(** * Authorization: policy, tokens and usage

    [src/src/authz/policy.rs], [tokens.rs] and [usage.rs], with [Principal] and
    [Denied] of [mod.rs]: who may use a service, API tokens found by the hash
    of their secret, and the bounded table of usage meters. A [DateTime<Utc>]
    is its nanoseconds since the epoch; the civil calendar of the chrono crate
    is the class [Calendar]. *)
From S2P Require Import Prelude Text Json Wire.

(** Year, month and day of an instant, and the instant of a civil date and time. *)
Class Calendar := {
  year : Z → Z;
  month : Z → Z;
  day : Z → Z;
  with_ymd_and_hms : Z → Z → Z → Z → Z → Z → Z;
}.

Definition UNIX_EPOCH : Z := 0.

(** ** Policy *)

Inductive Service := Ai | Escrow.
Inductive Action := Infer | Read | Write.
Inductive AccessMode := Open_ | Allowlist.
Inductive Period := Day | Month | Total.

#[global] Instance Service_eq_dec : EqDecision Service.
Proof. solve_decision. Defined.
#[global] Instance Action_eq_dec : EqDecision Action.
Proof. solve_decision. Defined.
#[global] Instance AccessMode_eq_dec : EqDecision AccessMode.
Proof. solve_decision. Defined.
#[global] Instance Period_eq_dec : EqDecision Period.
Proof. solve_decision. Defined.

Record Principal := { node : string; did : option string }.

Definition account_of (p : Principal) : string := "node:" +:+ node p.

Record Denied := { code : string; message : string }.

Definition forbidden : Denied := {| code := "forbidden"; message := "Access denied" |}.
Definition unauthorized : Denied :=
  {| code := "unauthorized"; message := "A valid API token is required" |}.
Definition usage_limit : Denied :=
  {| code := "usage_limit_exceeded"; message := "Usage limit exceeded" |}.

Definition http_status (d : Denied) : Z :=
  if bool_decide (code d = "unauthorized") then 401
  else if bool_decide (code d = "usage_limit_exceeded") then 429 else 403.

Record Rule := { subject : string; expires_at : option Z; note : option string }.

Definition active (r : Rule) (now : Z) : bool :=
  is_none_or (λ expiry, now <? expiry) (expires_at r).

Record Limits := {
  period : Period;
  max_requests : option Z;
  max_output_chars : option Z;
  max_stored_bytes : option Z;
}.

Definition default_limits : Limits :=
  {| period := Day; max_requests := None; max_output_chars := None; max_stored_bytes := None |}.

Record LimitOverride := { ov_subject : string; ov_limits : Limits }.

Record ServicePolicy := {
  mode : AccessMode;
  allow : list Rule;
  deny : list Rule;
  limits : Limits;
  overrides : list LimitOverride;
  issuers : list string;
}.

Record Policy := { p_ai : ServicePolicy; p_escrow : ServicePolicy; require_token : bool }.

Definition policy_service (p : Policy) (s : Service) : ServicePolicy :=
  match s with Ai => p_ai p | Escrow => p_escrow p end.

Definition subject_matches (subject : string) (p : Principal) : bool :=
  bool_decide (subject = node p) || bool_decide (did p = Some subject).

Definition denied (sp : ServicePolicy) (p : Principal) (now : Z) : bool :=
  existsb (λ r, active r now && subject_matches (subject r) p) (deny sp).

Definition explicitly_allowed (sp : ServicePolicy) (p : Principal) (now : Z) : bool :=
  is_some (did p)
  && existsb (λ r, active r now && subject_matches (subject r) p) (allow sp).

Definition access_allowed (sp : ServicePolicy) (p : Principal) (now : Z) : bool :=
  negb (denied sp p now)
  && (explicitly_allowed sp p now || bool_decide (mode sp = Open_)).

Definition limits_for (sp : ServicePolicy) (p : Principal) : Limits :=
  match List.find (λ r, subject_matches (ov_subject r) p) (overrides sp) with
  | Some r => ov_limits r
  | None => limits sp
  end.

Definition MAX_ENTRIES : Z := 1024.

Section policy.
Context {C : Crypto}.

Definition validate_subject (subject : string) : result () string :=
  if (slen subject =? 16) && string_forallb is_lower_hexdigit subject then Ok tt else
  map_err (λ _, "subject must be a 16-character lowercase hex node id or an Ed25519 did:key")
    (rbind (pubkey_from_did subject) (λ _, Ok tt)).

Definition validate_rules (rules : list Rule) : result () string :=
  ensure (zlen rules <=? MAX_ENTRIES) "too many policy rules" ;;?
  try_each (λ rule,
    validate_subject (subject rule) ;;?
    ensure (is_none_or (λ n, chars_count n <=? 200) (note rule)) "note exceeds 200 characters")
    rules.

Definition validate_service (sp : ServicePolicy) : result () string :=
  validate_rules (allow sp) ;;?
  validate_rules (deny sp) ;;?
  ensure (zlen (overrides sp) <=? MAX_ENTRIES) "too many limit overrides" ;;?
  ensure (zlen (issuers sp) <=? MAX_ENTRIES) "too many capability issuers" ;;?
  try_each (λ entry, validate_subject (ov_subject entry)) (overrides sp) ;;?
  try_each (λ issuer, rbind (pubkey_from_did issuer) (λ _, Ok tt)) (issuers sp).

Definition validate_policy (p : Policy) : result () string :=
  validate_service (p_ai p) ;;? validate_service (p_escrow p).
End policy.

Definition prune_service (sp : ServicePolicy) (now : Z) : ServicePolicy :=
  {| mode := mode sp; allow := List.filter (λ r, active r now) (allow sp);
     deny := List.filter (λ r, active r now) (deny sp); limits := limits sp;
     overrides := overrides sp; issuers := issuers sp |}.

Definition prune_policy (p : Policy) (now : Z) : Policy :=
  {| p_ai := prune_service (p_ai p) now; p_escrow := prune_service (p_escrow p) now;
     require_token := require_token p |}.

(** ** API tokens *)

Definition bearer (header : string) : option string :=
  match split_whitespace header with
  | scheme :: secret :: rest =>
      if eq_ignore_ascii_case scheme "bearer" && bool_decide (rest = []) then Some secret else None
  | _ => None
  end.

Definition MAX_TOKENS : Z := 256.

Record ApiToken := {
  id : string; name : string; hash : string; hint : string; created_at : Z;
  tok_expires_at : option Z; revoked_at : option Z; last_used_at : option Z;
  models : list string; tok_limits : Limits;
}.

Definition live (t : ApiToken) (now : Z) : bool :=
  negb (is_some (revoked_at t)) && is_none_or (λ expiry, now <? expiry) (tok_expires_at t).

Definition validate_name (name : string) : result () string :=
  ensure (negb (blank name) && (chars_count name <=? 64))
    "token name must contain 1 to 64 characters".

Definition validate_models (models : list string) : result () string :=
  ensure (zlen models <=? MAX_ENTRIES) "too many model restrictions" ;;?
  ensure (forallb (λ m, negb (blank m) && (slen m <=? 256)) models)
    "model names must contain 1 to 256 bytes".

Definition validate_token (t : ApiToken) : result () string :=
  validate_name (name t) ;;?
  validate_models (models t) ;;?
  ensure ((slen (hash t) =? 64) && string_forallb is_lower_hexdigit (hash t)) "invalid token hash" ;;?
  ensure (bool_decide (id t = string_take 12 (hash t))) "invalid token id".

Section tokens.
Context {C : Crypto}.

Definition hash_secret (secret : string) : string := hex_encode (sha256 secret).

(** [random] is what [OsRng] filled the 32 bytes with. *)
Definition create (book : list ApiToken) (name : string) (models : list string) (limits : Limits)
    (expires_at : option Z) (now : Z) (random : string)
    : result (list ApiToken * (string * ApiToken)) string :=
  ensure (zlen book <? MAX_TOKENS) "too many API tokens" ;;?
  validate_name name ;;?
  validate_models models ;;?
  let encoded := b64url_encode random in
  let secret := "mst_" +:+ encoded in
  let hash := hash_secret secret in
  let token := {|
    id := string_take 12 hash; name := name; hash := hash;
    hint := "mst_" +:+ string_take 4 encoded +:+ bytes [0xE2; 0x80; 0xA6]%N;
    created_at := now; tok_expires_at := expires_at; revoked_at := None; last_used_at := None;
    models := models; tok_limits := limits |} in
  ensure (negb (existsb (λ t, bool_decide (id t = id token)) book))
    "token id collision; please retry" ;;?
  Ok (book ++ [token], (secret, token)).

Definition lookup (book : list ApiToken) (authorization : option string) (required : bool) (now : Z)
    : result (option ApiToken) Denied :=
  let secret := match authorization with Some h => bearer h | None => None end in
  match secret with
  | Some secret =>
      if starts_with "mst_" secret then
        if negb (slen secret =? 47) then Err unauthorized else
        let hash_ := hash_secret secret in
        match List.find (λ t, bool_decide (hash t = hash_) && live t now) book with
        | Some t => Ok (Some t)
        | None => Err unauthorized
        end
      else if required then Err unauthorized else Ok None
  | None => if required then Err unauthorized else Ok None
  end.
End tokens.

Definition validate_tokens (book : list ApiToken) : result () string :=
  ensure (zlen book <=? MAX_TOKENS) "too many API tokens" ;;?
  rbind (foldl (λ acc t,
    let? ids := acc in
    validate_token t ;;?
    ensure (negb (contains ids (id t))) "duplicate API token id" ;;?
    Ok (id t :: ids)) (Ok []) book) (λ _, Ok tt).

(** ** Usage *)

Definition MAX_ACCOUNTS : Z := 4096.

Record Meter := {
  period_start_ : Z; requests : Z; output_chars : Z; last_seen : Z; overflow_period : option Period;
}.

Definition default_meter : Meter :=
  {| period_start_ := UNIX_EPOCH; requests := 0; output_chars := 0; last_seen := UNIX_EPOCH;
     overflow_period := None |}.

Section usage.
Context {K : Calendar}.

Definition period_start (p : Period) (now : Z) : Z :=
  match p with
  | Day => with_ymd_and_hms (year now) (month now) (day now) 0 0 0
  | Month => with_ymd_and_hms (year now) (month now) 1 0 0 0
  | Total => UNIX_EPOCH
  end.

Definition rollover (m : Meter) (p : Period) (now : Z) : Meter :=
  let start := period_start p now in
  if period_start_ m =? start then m else
  {| period_start_ := start; requests := 0; output_chars := 0; last_seen := last_seen m;
     overflow_period := overflow_period m |}.

Definition rank (p : Period) : Z := match p with Day => 0 | Month => 1 | Total => 2 end.

Definition rollover_account (m : Meter) (account : string) (p : Period) (now : Z) : Meter :=
  if negb (bool_decide (account = "*")) then rollover m p now else
  let grow start := {| period_start_ := start; requests := requests m;
    output_chars := output_chars m; last_seen := last_seen m; overflow_period := Some p |} in
  match overflow_period m with
  | Some old => if rank old <? rank p then grow (period_start p now) else rollover m old now
  | None => rollover (grow (period_start_ m)) p now
  end.

Definition meters := gmap string Meter.
Record UsageBook := { u_ai : meters; u_escrow : meters }.

Definition meters_of (b : UsageBook) (s : Service) : gmap string Meter :=
  match s with Ai => u_ai b | Escrow => u_escrow b end.
Definition set_meters (b : UsageBook) (s : Service) (m : gmap string Meter) : UsageBook :=
  match s with
  | Ai => {| u_ai := m; u_escrow := u_escrow b |}
  | Escrow => {| u_ai := u_ai b; u_escrow := m |}
  end.

(** [meters.len() - usize::from(meters.contains_key("*"))] *)
Definition own_accounts (m : gmap string Meter) : Z :=
  zsize m - (if is_some (m !! "*") then 1 else 0).

Definition account (b : UsageBook) (s : Service) (requested : string) : string :=
  let m := meters_of b s in
  if is_some (m !! requested) || (own_accounts m <? MAX_ACCOUNTS) then requested else "*".

(** [max.is_some_and(|max| used >= max)] *)
Definition reached (max : option Z) (used : Z) : bool := is_some_and (λ max, max <=? used) max.

Definition check (b : UsageBook) (s : Service) (account : string) (l : Limits) (now : Z)
    : UsageBook * result () Denied :=
  let m := default default_meter (meters_of b s !! account) in
  let m := rollover_account m account (period l) now in
  let m := {| period_start_ := period_start_ m; requests := requests m;
    output_chars := output_chars m; last_seen := now; overflow_period := overflow_period m |} in
  (set_meters b s (<[account := m]> (meters_of b s)),
   if reached (max_requests l) (requests m) || reached (max_output_chars l) (output_chars m)
   then Err usage_limit else Ok tt).

Definition record (b : UsageBook) (s : Service) (requested : string) (l : Limits)
    (n chars now : Z) : UsageBook :=
  let account := account b s requested in
  let m := default default_meter (meters_of b s !! account) in
  let m := rollover_account m account (period l) now in
  let m := {| period_start_ := period_start_ m; requests := sat_add (requests m) n;
    output_chars := sat_add (output_chars m) chars; last_seen := now;
    overflow_period := overflow_period m |} in
  set_meters b s (<[account := m]> (meters_of b s)).

Definition snapshot (b : UsageBook) (s : Service) (account : string) (l : Limits) (now : Z) : Meter :=
  rollover_account (default default_meter (meters_of b s !! account)) account (period l) now.
End usage.

(** The names an account may have in the usage file. *)
Definition valid_account {C : Crypto} (account : string) : bool :=
  bool_decide (account = "*")
  || is_some_and (λ n, is_ok (validate_subject n) && (slen n =? 16)) (strip_prefix "node:" account)
  || existsb (λ prefix, is_some_and (λ id, negb (bool_decide (id = "")) && (slen id <=? 64)
       && string_forallb is_ascii_hexdigit id) (strip_prefix prefix account)) ["token:"; "cap:"].

Definition validate_usage {C : Crypto} (b : UsageBook) : result () string :=
  try_each (λ m, ensure (own_accounts m <=? MAX_ACCOUNTS) "too many usage accounts" ;;?
    try_each (λ account, ensure (valid_account account) "invalid usage account")
      (map_to_list m).*1)
    [u_ai b; u_escrow b].

(** ** Tokens are found by their secret *)

Definition is_b64url (c : ascii) : bool :=
  is_ascii_digit c || is_ascii_alphabetic c || bool_decide (c = "-"%char) || bool_decide (c = "_"%char).

Lemma b64url_graphic s : string_forallb is_b64url s = true → string_forallb is_ascii_graphic s = true.
Proof.
  apply string_forallb_impl. intros [b0 b1 b2 b3 b4 b5 b6 b7].
  destruct b0, b1, b2, b3, b4, b5, b6, b7; intros H; vm_compute in H; (discriminate H || reflexivity).
Qed.

Lemma bearer_spec secret :
  string_forallb is_b64url secret = true → secret ≠ "" → bearer ("Bearer " +:+ secret) = Some secret.
Proof.
  intros Hs%b64url_graphic Hne. unfold bearer.
  change ("Bearer " +:+ secret) with (join " " ["Bearer"; secret]).
  rewrite split_words; [done|]. repeat constructor; done.
Qed.

Lemma foldl_Err {A B E} (f : result A E → B → result A E) (l : list B) e :
  (∀ b, f (Err e) b = Err e) → foldl f (Err e) l = Err e.
Proof. intros Hf. induction l as [|b l IH]; simpl; [done|by rewrite Hf]. Qed.

Lemma validate_tokens_spec book :
  validate_tokens book = Ok tt ↔
    zlen book ≤ MAX_TOKENS ∧ (∀ t, t ∈ book → validate_token t = Ok tt) ∧ NoDup (id <$> book).
Proof.
  unfold validate_tokens. rewrite rbind_Ok. setoid_rewrite ensure_Ok. setoid_rewrite Z.leb_le.
  set (step := λ _ _, _). assert (Hfold : ∀ ids r, foldl step (Ok ids) book = Ok r ↔
    ((∀ t, t ∈ book → validate_token t = Ok tt) ∧ NoDup (id <$> book) ∧
     (∀ t, t ∈ book → id t ∉ ids)) ∧ r = reverse (id <$> book) ++ ids).
  { induction book as [|t book IH]; intros ids r; simpl.
    { split; [intros [= <-]|by intros [_ ->]].
      split; [|done]. split; [set_solver|]. split; [constructor|set_solver]. }
    destruct (validate_token t) as [[]|e] eqn:Ht; simpl.
    2:{ rewrite foldl_Err by done. split; [done|].
        intros [[H _] _]. rewrite (H t) in Ht by left. done. }
    unfold ensure, contains. case_bool_decide as Hin; simpl.
    { rewrite foldl_Err by done. split; [done|]. intros [(_ & _ & H) _].
      exfalso. apply (H t); [left|done]. }
    rewrite IH, NoDup_cons. split.
    - intros [(H1 & H2 & H3) ->]. split_and!.
      + intros x [->|Hx]%elem_of_cons; auto.
      + intros (y & Hy & Hin')%list_elem_of_fmap. apply (H3 y Hin'). rewrite Hy. left.
      + done.
      + intros x [->|Hx]%elem_of_cons; [done|]. specialize (H3 x Hx). set_solver.
      + by rewrite reverse_cons, <-app_assoc.
    - intros [(H1 & [H2 H2'] & H3) ->]. split_and!.
      + intros x Hx. apply H1. by right.
      + done.
      + intros x Hx Hxi. apply elem_of_cons in Hxi as [Hxi|Hxi].
        * apply H2. rewrite <-Hxi. apply list_elem_of_fmap. by exists x.
        * apply (H3 x); [by right|done].
      + by rewrite reverse_cons, <-app_assoc. }
  split.
  - intros ([] & Hlen & (ids & Hf & _)%rbind_Ok). apply Hfold in Hf as [(? & ? & _) _]. done.
  - intros (Hlen & Hv & Hnd). exists tt. split; [done|]. apply rbind_Ok.
    exists (reverse (id <$> book) ++ []). split; [|done]. apply Hfold. set_solver.
Qed.

(** What a random secret looks like: 43 characters for 32 bytes, all of the
    url-safe alphabet, and a hash of 32 bytes. *)
Record secret_shape {C : Crypto} (random : string) : Prop := {
  shape_len : slen (b64url_encode random) = 43;
  shape_chars : string_forallb is_b64url (b64url_encode random) = true;
  shape_hash : slen (sha256 ("mst_" +:+ b64url_encode random)) = 32;
}.

Lemma create_spec {C : Crypto} book name models limits exp now random book' secret tok :
  create book name models limits exp now random = Ok (book', (secret, tok)) →
  zlen book < MAX_TOKENS ∧ validate_name name = Ok tt ∧ validate_models models = Ok tt ∧
  secret = "mst_" +:+ b64url_encode random ∧ hash tok = hash_secret secret ∧
  id tok = string_take 12 (hash tok) ∧ revoked_at tok = None ∧ tok_expires_at tok = exp ∧
  AuthzPolicy.name tok = name ∧ AuthzPolicy.models tok = models ∧
  book' = book ++ [tok] ∧ (∀ t, t ∈ book → id t ≠ id tok).
Proof.
  unfold create. intros H. autorewrite with rust in H.
  destruct H as ([] & Hlen%ensure_Ok & H). apply rbind_Ok in H as ([] & Hn & H).
  apply rbind_Ok in H as ([] & Hm & H). apply rbind_Ok in H as ([] & Hid%ensure_Ok & [= <- <- <-]).
  bools. rewrite existsb_elem_false in Hid. split_and!; try done.
  intros t Ht. specialize (Hid t Ht). by bools.
Qed.

Lemma lookup_sound {C : Crypto} book auth required now t :
  lookup book auth required now = Ok (Some t) →
  t ∈ book ∧ live t now = true ∧
  ∃ header secret, auth = Some header ∧ bearer header = Some secret ∧ hash t = hash_secret secret.
Proof.
  unfold lookup. intros H. destruct auth as [header|]; [|by cases_in H].
  destruct (bearer header) as [secret|] eqn:Hb; [|by cases_in H].
  cases_in H.
  match goal with Hf : List.find _ _ = Some _ |- _ => apply find_elem in Hf as [? Hf]; bools end.
  split_and!; eauto.
Qed.

(** A created token stays findable: creation keeps the token file valid,
    the secret it returns authenticates as that token, whole and unchanged, from any
    later request until the token expires; and nobody is ever authenticated as a token of the book
    unless it is unexpired, unrevoked, and the header carries a secret with
    its hash. *)
Theorem token_create_lookup {C : Crypto} book name models limits exp now random book' secret tok :
  secret_shape random →
  validate_tokens book = Ok tt →
  create book name models limits exp now random = Ok (book', (secret, tok)) →
  validate_tokens book' = Ok tt ∧
  (∀ required t, is_none_or (λ e, t <? e) exp = true →
     lookup book' (Some ("Bearer " +:+ secret)) required t = Ok (Some tok)) ∧
  (∀ auth required t tok', lookup book' auth required t = Ok (Some tok') →
     tok' ∈ book' ∧ live tok' t = true ∧
     ∃ header s, auth = Some header ∧ bearer header = Some s ∧ hash tok' = hash_secret s).
Proof.
  intros [Hlen Hchars Hhash] (Hmax & Hval & Hnd)%validate_tokens_spec Hc.
  apply create_spec in Hc as (Hroom & Hname & Hmodels & Hsec & Hh & Hid & Hrev & Hexp & <- & <- & -> & Hnew).
  split; [|split; [|intros ????; apply lookup_sound]].
  - apply validate_tokens_spec. split; [|split].
    + rewrite zlen_app. unfold zlen in *. simpl. lia.
    + intros t [Ht| ->%list_elem_of_singleton]%elem_of_app; [by apply Hval|].
      unfold validate_token, hash_secret in *. rewrite Hname, Hmodels, Hh. cbn [rbind].
      rewrite slen_hex_encode, hex_encode_lower, Hsec, Hhash. simpl.
      rewrite bool_decide_true by (by rewrite Hid, Hh, Hsec). done.
    + rewrite fmap_app. apply NoDup_app. split; [done|]. split; [|apply NoDup_singleton].
      intros x (t & -> & Ht)%list_elem_of_fmap Hx%list_elem_of_singleton.
      by apply (Hnew t).
  - intros required t Ht. unfold lookup.
    assert (Hs : string_forallb is_b64url secret = true)
      by (rewrite Hsec, string_forallb_append; by rewrite Hchars).
    rewrite bearer_spec by (done || by rewrite Hsec).
    rewrite Hsec at 1. rewrite Hsec at 1. rewrite starts_with_append, slen_append, Hlen. simpl (negb _).
    destruct (List.find _ _) as [t'|] eqn:Hf.
    + apply find_elem in Hf as [Hin Hf]. bools.
      apply elem_of_app in Hin as [Hin| ->%list_elem_of_singleton]; [|done].
      exfalso. apply (Hnew t' Hin). specialize (Hval t' Hin). unfold validate_token in Hval.
      autorewrite with rust in Hval. destruct Hval as (_ & _ & (_ & _ & Hval)%rbind_Ok).
      apply rbind_Ok in Hval as (_ & _ & Hval%ensure_Ok). bools. congruence.
    + exfalso. eapply find_none_elem in Hf; [|apply elem_of_app; right; left].
      rewrite bool_decide_true in Hf by done. unfold live in Hf.
      rewrite Hrev, Hexp in Hf. simpl in Hf. congruence.
Qed.

Definition demo_random : string := "0123456789abcdef0123456789abcdef".
Definition demo_create : result (list ApiToken * (string * ApiToken)) string :=
  create [] "laptop" ["llama"] default_limits (Some 1000) 10 demo_random.

Lemma demo_shape : secret_shape demo_random.
Proof. split; by vm_compute. Qed.

Lemma token_create_lookup_witness :
  ∃ book secret tok, demo_create = Ok (book, (secret, tok)) ∧
    lookup book (Some ("Bearer " +:+ secret)) true 999 = Ok (Some tok).
Proof.
  destruct demo_create as [[book [secret tok]]|e] eqn:He; [|by vm_compute in He].
  exists book, secret, tok. split; [done|].
  destruct (token_create_lookup _ _ _ _ _ _ _ _ _ _ demo_shape (eq_refl : validate_tokens [] = Ok tt) He)
    as (_ & H & _).
  by apply H.
Defined.

(** ** Meters *)

Section usage_laws.
Context {K : Calendar}.

(** A request as [Store] makes it: the account is resolved first, then checked
    or charged. *)
Inductive usage_op :=
| UCheck (req : string) (l : Limits) (now : Z)
| URecord (req : string) (l : Limits) (n chars now : Z).

Definition op_req (op : usage_op) : string :=
  match op with UCheck req _ _ | URecord req _ _ _ _ => req end.
Definition op_limits (op : usage_op) : Limits :=
  match op with UCheck _ l _ | URecord _ l _ _ _ => l end.
Definition op_now (op : usage_op) : Z :=
  match op with UCheck _ _ now | URecord _ _ _ _ now => now end.
Definition op_cost (op : usage_op) : Z * Z :=
  match op with UCheck _ _ _ => (0, 0) | URecord _ _ n chars _ => (n, chars) end.

Definition usage_step (s : Service) (b : UsageBook) (op : usage_op) : UsageBook :=
  match op with
  | UCheck req l now => (check b s (account b s req) l now).1
  | URecord req l n chars now => record b s req l n chars now
  end.

(** What the operations of a trace charge to one account. *)
Fixpoint charged (s : Service) (a : string) (b : UsageBook) (ops : list usage_op) : Z * Z :=
  match ops with
  | [] => (0, 0)
  | op :: ops =>
      let rest := charged s a (usage_step s b op) ops in
      if bool_decide (account b s (op_req op) = a)
      then ((op_cost op).1 + rest.1, (op_cost op).2 + rest.2) else rest
  end.

Definition book_bounded (b : UsageBook) : Prop :=
  own_accounts (u_ai b) ≤ MAX_ACCOUNTS ∧ own_accounts (u_escrow b) ≤ MAX_ACCOUNTS.

Lemma meters_set_eq b s m : meters_of (set_meters b s m) s = m.
Proof. by destruct s. Qed.

(** The meter an operation leaves in its account. *)
Definition step_meter (m : Meter) (a : string) (op : usage_op) : Meter :=
  let m := rollover_account m a (period (op_limits op)) (op_now op) in
  match op with
  | UCheck _ _ now => {| period_start_ := period_start_ m; requests := requests m;
      output_chars := output_chars m; last_seen := now; overflow_period := overflow_period m |}
  | URecord _ _ n chars now => {| period_start_ := period_start_ m;
      requests := sat_add (requests m) n; output_chars := sat_add (output_chars m) chars;
      last_seen := now; overflow_period := overflow_period m |}
  end.

Lemma usage_step_eq s b op :
  let a := account b s (op_req op) in
  usage_step s b op =
    set_meters b s (<[a := step_meter (default default_meter (meters_of b s !! a)) a op]> (meters_of b s)).
Proof. by destruct op. Qed.

Lemma own_accounts_insert (ms : gmap string Meter) a m :
  (a = "*" ∨ is_Some (ms !! a) ∨ own_accounts ms < MAX_ACCOUNTS) →
  own_accounts ms ≤ MAX_ACCOUNTS → own_accounts (<[a := m]> ms) ≤ MAX_ACCOUNTS.
Proof.
  unfold own_accounts. intros Ha Hle. destruct (decide (a = "*")) as [->|Hne].
  - rewrite lookup_insert_eq. simpl. destruct (ms !! "*") as [x|] eqn:E; simpl in *.
    + by rewrite (zsize_insert_Some _ _ _ _ E).
    + rewrite (zsize_insert_None _ _ _ E). lia.
  - rewrite lookup_insert_ne by done. destruct (ms !! a) as [x|] eqn:E.
    + by rewrite (zsize_insert_Some _ _ _ _ E).
    + rewrite (zsize_insert_None _ _ _ E). destruct Ha as [?|[[? ?]|?]]; [done..|].
      destruct (ms !! "*"); simpl in *; lia.
Qed.

Lemma account_cases b s req :
  (account b s req = req ∧ (is_Some (meters_of b s !! req) ∨ own_accounts (meters_of b s) < MAX_ACCOUNTS))
  ∨ account b s req = "*".
Proof.
  unfold account. case_if; [|by right]. left. split; [done|].
  bools. rewrite is_some_spec in *. destruct Heqb0 as [?|?]; [by left|]. bools. by right.
Qed.

Lemma usage_step_bounded s b op : book_bounded b → book_bounded (usage_step s b op).
Proof.
  rewrite usage_step_eq. intros [Ha He].
  assert (Hi : ∀ m, own_accounts (meters_of b s) ≤ MAX_ACCOUNTS →
    own_accounts (<[account b s (op_req op) := m]> (meters_of b s)) ≤ MAX_ACCOUNTS).
  { intros m. apply own_accounts_insert.
    destruct (account_cases b s (op_req op)) as [[-> ?]| ->]; auto. }
  destruct s; split; simpl in *; auto.
Qed.

Lemma account_exists b s a : is_Some (meters_of b s !! a) → account b s a = a.
Proof. intros H. unfold account. apply is_some_spec in H. by rewrite H. Qed.

Section one_day.
Context (a : string) (p : Period) (start : Period → Z).

(** The meter of [a] belongs to the current period of the trace. *)
Definition aligned (m : Meter) : Prop :=
  (if decide (a = "*") then ∃ q, overflow_period m = Some q ∧ period_start_ m = start q
   else period_start_ m = start p) ∧
  0 ≤ requests m ≤ U64_MAX ∧ 0 ≤ output_chars m ≤ U64_MAX.

(** The operation happens within the day the trace is about; an account of its
    own is always metered over one period. *)
Definition within (op : usage_op) : Prop :=
  (∀ q, period_start q (op_now op) = start q) ∧ 0 ≤ (op_cost op).1 ∧ 0 ≤ (op_cost op).2 ∧
  (a ≠ "*" → op_req op = a → period (op_limits op) = p).

Lemma rollover_start m q now : period_start_ m = period_start q now → rollover m q now = m.
Proof. intros H. unfold rollover. by rewrite H, Z.eqb_refl. Qed.

Lemma rollover_aligned m q now :
  aligned m → (∀ q, period_start q now = start q) → (a ≠ "*" → q = p) →
  let m' := rollover_account m a q now in
  aligned m' ∧ requests m' = requests m ∧ output_chars m' = output_chars m.
Proof.
  intros Hm Hnow Hq. unfold rollover_account.
  destruct (decide (a = "*")) as [Ha|Ha].
  - rewrite bool_decide_true by done. cbn [negb]. unfold aligned in Hm.
    rewrite decide_True in Hm by done. destruct Hm as ((old & Hold & Hs) & Hr & Ho).
    rewrite Hold. case_if.
    + split; [|done]. unfold aligned. rewrite decide_True by done. simpl.
      split; [eauto|done].
    + rewrite rollover_start by (by rewrite Hs, Hnow). split; [|done].
      unfold aligned. rewrite decide_True by done. eauto.
  - rewrite bool_decide_false by done. cbn [negb]. rewrite Hq by done.
    rewrite rollover_start; [split; [exact Hm|done]|].
    unfold aligned in Hm. rewrite decide_False in Hm by done. destruct Hm as [Hs _].
    by rewrite Hnow, Hs.
Qed.

Lemma step_meter_spec m op :
  aligned m → within op → (a ≠ "*" → op_req op = a) →
  let m' := step_meter m a op in
  aligned m' ∧ requests m' = Z.min U64_MAX (requests m + (op_cost op).1) ∧
  output_chars m' = Z.min U64_MAX (output_chars m + (op_cost op).2).
Proof.
  intros Hm (Hnow & Hn & Hc & Hp) Hreq.
  destruct (rollover_aligned m (period (op_limits op)) (op_now op) Hm Hnow) as (Ha & Hr & Ho); [auto|].
  unfold step_meter. destruct Ha as (Hal & Hrb & Hob).
  destruct op as [req l now|req l n chars now]; cbn [op_limits op_now op_cost fst snd] in *.
  - split; [by split|]. cbn [requests output_chars]. rewrite Hr, Ho in *. lia.
  - cbn [requests output_chars]. rewrite Hr, Ho in *.
    split; [|unfold sat_add; lia]. split; [exact Hal|].
    cbn [requests output_chars]. split; apply sat_add_range; lia.
Qed.

Lemma usage_trace s b m ops :
  meters_of b s !! a = Some m → aligned m → Forall within ops →
  ∃ m', meters_of (foldl (usage_step s) b ops) s !! a = Some m' ∧ aligned m' ∧
    requests m' = Z.min U64_MAX (requests m + (charged s a b ops).1) ∧
    output_chars m' = Z.min U64_MAX (output_chars m + (charged s a b ops).2) ∧
    0 ≤ (charged s a b ops).1 ∧ 0 ≤ (charged s a b ops).2.
Proof.
  revert b m. induction ops as [|op ops IH]; intros b m Hm Hal Hops.
  { exists m. destruct Hal as (? & ? & ?). unfold aligned. simpl. split_and!; (done || lia). }
  inversion_clear Hops as [|?? Hop Hops']. cbn [foldl charged].
  pose proof (usage_step_eq s b op) as Hstep. cbv zeta in Hstep.
  destruct (decide (account b s (op_req op) = a)) as [Ha|Ha].
  - rewrite (bool_decide_true _ Ha). rewrite Ha, Hm in Hstep. cbn [default] in Hstep.
    destruct (step_meter_spec m op Hal Hop) as (Hal' & Hr & Ho).
    { intros Hne. destruct (account_cases b s (op_req op)) as [[? _]|?]; congruence. }
    destruct (IH (usage_step s b op) (step_meter m a op)) as (m' & ? & ? & Hr' & Ho' & ? & ?); [|done..|].
    { rewrite Hstep, meters_set_eq. apply lookup_insert_eq. }
    exists m'. destruct Hop as (_ & ? & ? & _). cbn [fst snd]. split_and!; (done || lia).
  - rewrite (bool_decide_false _ Ha). apply IH; [|done..].
    rewrite Hstep, meters_set_eq. by rewrite lookup_insert_ne.
Qed.
End one_day.
End usage_laws.

Definition max_in_range (max : option Z) : Prop := ∀ x, max = Some x → 0 ≤ x ≤ U64_MAX.

Lemma reached_min max used :
  max_in_range max → reached max (Z.min U64_MAX used) = reached max used.
Proof.
  intros Hr. destruct max as [x|]; [|done]. simpl. specialize (Hr x eq_refl).
  destruct (Z.leb_spec x used), (Z.leb_spec x (Z.min U64_MAX used)); (done || lia).
Qed.

(** Usage is metered exactly, the shared overflow account included. Take
    an account that is in the table, and any sequence of checks and charges
    (its own, other principals', those that fall into the overflow account
    ["*"] because the table is full) whose times lie in one calendar day,
    an account of its own being always metered over one period, the overflow
    account over any mix of periods. Then the meter holds what it held plus all
    that was charged to it, up to the saturation of 64 bits: no switching of
    periods ever clears it; a check refuses exactly when a limit has been
    reached; and the table never exceeds 4096 accounts beside ["*"]. *)
Theorem usage_metered_exactly `{Calendar} s b a m p start ops :
  book_bounded b → meters_of b s !! a = Some m → aligned a p start m →
  Forall (within a p start) ops →
  let b' := foldl (usage_step s) b ops in
  let total := charged s a b ops in
  book_bounded b' ∧
  (∃ m', meters_of b' s !! a = Some m' ∧
     requests m' = Z.min U64_MAX (requests m + total.1) ∧
     output_chars m' = Z.min U64_MAX (output_chars m + total.2)) ∧
  ∀ l now, (∀ q, period_start q now = start q) → (a ≠ "*" → period l = p) →
    max_in_range (max_requests l) → max_in_range (max_output_chars l) →
    (check b' s (account b' s a) l now).2 =
      if reached (max_requests l) (requests m + total.1)
         || reached (max_output_chars l) (output_chars m + total.2)
      then Err usage_limit else Ok tt.
Proof.
  intros Hb Hm Hal Hops. cbv zeta.
  destruct (usage_trace a p start s b m ops Hm Hal Hops) as (m' & Hm' & Hal' & Hr & Ho & _).
  split; [|split; [by exists m'|]].
  - clear -Hb. revert b Hb. induction ops as [|op ops IH]; intros b Hb; [done|].
    apply IH, usage_step_bounded, Hb.
  - intros l now Hnow Hp Hmr Hmo. rewrite account_exists by eauto.
    unfold check. rewrite Hm'. cbn [from_option Datatypes.id fst snd requests output_chars].
    destruct (rollover_aligned a p start m' (period l) now Hal' Hnow Hp) as (_ & Hr' & Ho').
    by rewrite Hr', Ho', Hr, Ho, !reached_min.
Qed.

(** Months of thirty days. *)
#[global] Instance toy_calendar : Calendar := {|
  year := λ _, 0;
  month now := now / (30 * 86400 * SECOND);
  day now := now / (86400 * SECOND) mod 30 + 1;
  with_ymd_and_hms _ m d h mi s := ((m * 30 + (d - 1)) * 86400 + h * 3600 + mi * 60 + s) * SECOND;
|}.

Definition monthly (max : Z) : Limits := {| period := Month; max_requests := Some max;
  max_output_chars := None; max_stored_bytes := None |}.
Definition daily (max : Z) : Limits := {| period := Day; max_requests := Some max;
  max_output_chars := None; max_stored_bytes := None |}.

Definition overflow_meter : Meter := {| period_start_ := 30 * 86400 * SECOND; requests := 5;
  output_chars := 9; last_seen := 0; overflow_period := Some Month |}.
Definition demo_book : UsageBook := {| u_ai := {["*" := overflow_meter]}; u_escrow := ∅ |}.
Definition demo_now : Z := 40 * 86400 * SECOND + 7.

(** The overflow account, charged over days and months alternately. *)
Lemma usage_metered_exactly_witness :
  let ops := [URecord "*" (daily 9) 2 10 demo_now; UCheck "*" (monthly 9) demo_now;
              URecord "*" (monthly 9) 1 10 (demo_now + SECOND)] in
  (check (foldl (usage_step Ai) demo_book ops) Ai "*" (daily 9) demo_now).2 = Ok tt ∧
  (check (foldl (usage_step Ai) demo_book ops) Ai "*" (daily 8) demo_now).2 = Err usage_limit.
Proof.
  intros ops.
  assert (Hops : Forall (within "*" Day (λ q, period_start q demo_now)) ops).
  { repeat constructor; try (intros q; by destruct q); try done; simpl; try lia. }
  destruct (usage_metered_exactly Ai demo_book "*" overflow_meter Day
    (λ q, period_start q demo_now) ops) as (_ & _ & H).
  - split; by vm_compute.
  - reflexivity.
  - split; [|by vm_compute]. exists Month. by vm_compute.
  - exact Hops.
  - split.
    + refine (eq_trans (H (daily 9) demo_now (λ _, eq_refl) _ _ _) _); try done;
        intros x [= <-]; by vm_compute.
    + refine (eq_trans (H (daily 8) demo_now (λ _, eq_refl) _ _ _) _); try done;
        intros x [= <-]; by vm_compute.
Defined.
