(* ===== verification/AuthzCap.v ===== *)
(** * Authorization: capabilities

    [src/src/authz/capability.rs]: signed chains of delegation. A capability is
    parsed whole, at most three links deep, and verified link by link: each
    link is issued to the holder (or to the issuer of the link before it),
    covers the request, is in time, unrevoked, signed, and no wider than its
    parent; the root must be trusted by the verifier. What serde derives for
    the field types, and the size of the JSON text, are the class [Serde]. *)
From S2P Require Import Prelude Text Json Wire PeerAuth AuthzPolicy.

Class Serde := {
  service_from_value : json → option Service;
  actions_from_value : json → option (list Action);
  strings_from_value : json → option (list string);
  limits_from_value : json → option Limits;
  to_vec : json → string;
}.

Definition MAX_BYTES : Z := 8 * 1024.
Definition MAX_DEPTH : nat := 3.
Definition MAX_LIFETIME_MS : Z := 366 * 24 * 60 * 60 * 1000.

Inductive CapError :=
| Oversize | Depth | Shape | Signature | Time | Audience | Coverage | Verifier | Attenuation
| UntrustedRoot | RevokedCap.

#[global] Instance CapError_eq_dec : EqDecision CapError.
Proof. solve_decision. Defined.

Inductive Capability := {
  wire : json;
  cap_id : string;
  issuer : string;
  aud : string;
  service : Service;
  actions : list Action;
  resource : string;
  to : option (list string);
  nbf : Z;
  exp : Z;
  cap_limits : option Limits;
  parent : option Capability;
}.

Fixpoint root (c : Capability) : Capability :=
  match parent c with Some p => root p | None => c end.

Fixpoint chain (c : Capability) : list Capability :=
  c :: match parent c with Some p => chain p | None => [] end.

Definition contains_id (c : Capability) (id : string) : bool :=
  existsb (λ link, bool_decide (cap_id link = id)) (chain c).

Definition valid_id (id : string) : bool := (slen id =? 32) && string_forallb is_lower_hexdigit id.

Definition exact_resource (resource : string) : option (string * string) :=
  match rsplit_once "/" resource with
  | Some (room, slot) =>
      if valid_room room && (slen slot =? 32) && string_forallb is_lower_hexdigit slot
      then Some (room, slot) else None
  | None => None
  end.

Definition valid_resource (resource : string) : bool :=
  bool_decide (resource = "*")
  || is_some_and valid_room (strip_suffix "/*" resource)
  || is_some (exact_resource resource).

Definition covers (parent child : string) : bool :=
  bool_decide (parent = "*") || bool_decide (parent = child)
  || is_some_and (λ room,
       is_some_and (λ r, bool_decide (r.1 = room)) (rsplit_once "/" child))
       (strip_suffix "/*" parent).

Definition limit_narrows (child parent : option Z) : bool :=
  is_none_or (λ p, is_some_and (λ c, c <=? p) child) parent.

(** The clause of [attenuates] on limits: a parent without a [lim] object
    bounds nothing. *)
Definition limits_narrow (child parent : option Limits) : bool :=
  is_none_or (λ p,
    let c := default default_limits child in
    let bounded := is_some (max_requests p) || is_some (max_output_chars p)
                   || is_some (max_stored_bytes p) in
    (negb bounded || bool_decide (period c = period p))
    && limit_narrows (max_requests c) (max_requests p)
    && limit_narrows (max_output_chars c) (max_output_chars p)
    && limit_narrows (max_stored_bytes c) (max_stored_bytes p)) parent.

Definition to_narrows (child parent : option (list string)) : bool :=
  is_none_or (λ p, is_some_and (forallb (contains p)) child) parent.

Definition attenuates (child parent : Capability) : bool :=
  bool_decide (issuer child = aud parent)
  && bool_decide (service child = service parent)
  && forallb (contains (actions parent)) (actions child)
  && covers (resource parent) (resource child)
  && (exp child <=? exp parent)
  && (nbf parent <=? nbf child)
  && to_narrows (to child) (to parent)
  && limits_narrow (cap_limits child) (cap_limits parent).

(** What the request asks for and what the verifier knows. *)
Record Context_ := {
  now_ms : Z;
  holder : string;
  local_did : string;
  c_service : Service;
  c_action : Action;
  c_resource : string;
  trusted_root : string → bool;
  is_revoked : string → bool;
}.

Section capability.
Context {C : Crypto} {S : Serde}.

(** [writer_did]: tc-escrow heads carry the raw key as base64url. *)
Definition writer_did (bs58_encode : string → string) (writer : string) : option string :=
  if negb (slen writer =? 43) then None else
  match b64url_decode writer with
  | None => None
  | Some key =>
      if negb (slen key =? 32) then None else
      Some ("did:key:z" +:+ bs58_encode (bytes [0xed; 0x01]%N +:+ key))
  end.

Definition valid_did (did : string) : bool := is_ok (pubkey_from_did did).

(** [wire[key].as_str().ok_or(Shape)] *)
Definition string_of (wire : json) (key : string) : result string CapError :=
  ok_or (get_str key wire) Shape.

Definition index (key : string) (v : json) : json := default JNull (get key v).

(** [wire.get(key).map(f).transpose()] *)
Definition optional {A} (wire : json) (key : string) (f : json → result A CapError)
    : result (option A) CapError :=
  match get key wire with
  | Some v => rbind (f v) (λ a, Ok (Some a))
  | None => Ok None
  end.

Definition action_allowed (s : Service) (a : Action) : bool :=
  match s with
  | Ai => bool_decide (a = Infer)
  | Escrow => negb (bool_decide (a = Infer))
  end.

(** The big condition of [parse_link], negated. *)
Definition well_shaped (id issuer aud resource : string) (s : Service) (acts : list Action)
    (nbf exp : Z) : bool :=
  valid_id id && valid_did issuer && valid_did aud && valid_resource resource
  && (negb (bool_decide (s = Ai)) || bool_decide (resource = "*"))
  && (0 <=? nbf) && (nbf <? exp) && (exp - nbf <=? MAX_LIFETIME_MS)
  && negb (bool_decide (acts = [])) && (zlen acts <=? 2)
  && forallb (action_allowed s) acts
  && negb ((zlen acts =? 2) && bool_decide (acts !! 0%nat = acts !! 1%nat)).

(** [links] is how many links may still be parsed: [MAX_DEPTH + 1 - depth]. *)
Fixpoint parse_link (links : nat) (wire : json) : result Capability CapError :=
  match links with
  | O => Err Depth
  | Datatypes.S links =>
      let? t := string_of wire "t" in
      if negb (bool_decide (t = "mistl-cap-v1"))
         || existsb (λ key, is_some (get key wire)) ["type"; "v"; "kind"]
      then Err Shape else
      let? id := string_of wire "id" in
      let? issuer := string_of wire "fromId" in
      let? aud := string_of wire "aud" in
      let? resource := string_of wire "res" in
      let? service := ok_or (service_from_value (index "svc" wire)) Shape in
      let? actions := ok_or (actions_from_value (index "act" wire)) Shape in
      let? nbf := ok_or (as_i64 (index "nbf" wire)) Shape in
      let? exp := ok_or (as_i64 (index "exp" wire)) Shape in
      if negb (well_shaped id issuer aud resource service actions nbf exp) then Err Shape else
      let? to := optional wire "to" (λ v, ok_or (strings_from_value v) Shape) in
      if is_some_and (λ to, (8 <? zlen to) || existsb (λ did, negb (valid_did did)) to) to
      then Err Shape else
      let? limits := optional wire "lim" (λ v,
        if negb (is_some (as_object v)) then Err Shape else ok_or (limits_from_value v) Shape) in
      let? parent := optional wire "prf" (parse_link links) in
      Ok {| wire := wire; cap_id := id; issuer := issuer; aud := aud; service := service;
            actions := actions; resource := resource; to := to; nbf := nbf; exp := exp;
            cap_limits := limits; parent := parent |}
  end.

Definition parse (wire : json) : result Capability CapError :=
  if MAX_BYTES <? slen (to_vec wire) then Err Oversize else parse_link MAX_DEPTH wire.

(** [i64::saturating_sub] *)
Definition i64_saturating_sub (a b : Z) : Z := Z.max (- 2 ^ 63) (a - b).

(** One round of the loop of [verify], without the change of [holder]. *)
Definition verify_link (ctx : Context_) (holder : string) (link : Capability) : result () CapError :=
  if (now_ms ctx <? i64_saturating_sub (nbf link) MAX_CLOCK_SKEW_MS) || (exp link <=? now_ms ctx)
  then Err Time else
  if negb (bool_decide (aud link = holder)) then Err Audience else
  if negb (bool_decide (service link = c_service ctx))
     || negb (contains (actions link) (c_action ctx))
     || negb (covers (resource link) (c_resource ctx))
  then Err Coverage else
  if is_some_and (λ to, negb (existsb (λ d, bool_decide (d = local_did ctx)) to)) (to link)
  then Err Verifier else
  if is_revoked ctx (cap_id link) then Err RevokedCap else
  if is_some_and (λ p, negb (attenuates link p)) (parent link) then Err Attenuation else
  if negb (wire_ok (wire link)) then Err Signature else Ok tt.

Fixpoint verify_chain (ctx : Context_) (holder : string) (links : list Capability)
    : result () CapError :=
  match links with
  | [] => Ok tt
  | link :: links => verify_link ctx holder link ;;? verify_chain ctx (issuer link) links
  end.

Definition verify (w : json) (ctx : Context_) : result Capability CapError :=
  let? cap := parse w in
  verify_chain ctx (holder ctx) (chain cap) ;;?
  if negb (trusted_root ctx (issuer (root cap))) then Err UntrustedRoot else Ok cap.
End capability.

(** ** Attenuation is transitive *)

Lemma covers_spec p c :
  covers p c = true ↔
    p = "*" ∨ p = c ∨ ∃ room slot, p = room +:+ "/*" ∧ rsplit_once "/" c = Some (room, slot).
Proof.
  unfold covers. rewrite !orb_true_iff, !bool_decide_eq_true, is_some_and_true.
  split.
  - intros [[->| ->]|(room & Hp%strip_suffix_Some & H)]; [by left|by right; left|].
    apply is_some_and_true in H as ([r slot] & Hr & Hb). simpl in Hb. bools. subst.
    right; right. eauto.
  - intros [->|[->|(room & slot & Hp & Hc)]]; [by left; left|by left; right|right].
    exists room. split; [by apply strip_suffix_Some|]. rewrite Hc. simpl. by apply bool_decide_true.
Qed.

Lemma covers_trans a b c : covers a b = true → covers b c = true → covers a c = true.
Proof.
  rewrite !covers_spec.
  intros [->|[->|(r1 & s1 & -> & H1)]]; [by left|done|].
  intros [->|[->|(r2 & s2 & -> & H2)]]; [done|by right; right; eauto|].
  destruct (rsplit_once_star "/" r2) as [Hs|Hs]; [|done].
  change (String "/" "*") with "/*" in Hs. rewrite Hs in H1. simplify_eq.
  right; right. eauto.
Qed.

Lemma limit_narrows_trans a b c :
  limit_narrows b a = true → limit_narrows c b = true → limit_narrows c a = true.
Proof.
  destruct a as [a|]; [|done]. destruct b as [b|]; [|done]. destruct c as [c|]; [|done].
  simpl. rewrite !Z.leb_le. lia.
Qed.

Lemma limits_narrow_trans a b c :
  limits_narrow b a = true → limits_narrow c b = true → limits_narrow c a = true.
Proof.
  destruct a as [a|]; [|done]. unfold limits_narrow at 1 3. cbn [is_none_or].
  rewrite !andb_true_iff. intros (((Hp & Hr) & Ho) & Hs) Hc.
  destruct b as [b|]; cbn [from_option Datatypes.id] in *.
  - cbn [limits_narrow is_none_or] in Hc. rewrite !andb_true_iff in Hc.
    destruct Hc as (((Hp' & Hr') & Ho') & Hs'). split_and!; [|by eapply limit_narrows_trans..].
    rewrite orb_true_iff in *. destruct Hp as [Hp|Hp]; [by left|].
    destruct Hp' as [Hb|Hp']; [left|right; bools; apply bool_decide_eq_true; congruence].
    bools. destruct (max_requests b), (max_output_chars b), (max_stored_bytes b); try done.
    destruct (max_requests a), (max_output_chars a), (max_stored_bytes a); done.
  - assert (Hn : max_requests a = None ∧ max_output_chars a = None ∧ max_stored_bytes a = None).
    { by destruct (max_requests a), (max_output_chars a), (max_stored_bytes a). }
    destruct Hn as (-> & -> & ->). done.
Qed.

Lemma to_narrows_trans a b c :
  to_narrows b a = true → to_narrows c b = true → to_narrows c a = true.
Proof.
  destruct a as [a|]; [|done]. destruct b as [b|]; [|done]. destruct c as [c|]; [|done].
  unfold to_narrows. simpl. rewrite !forallb_elem. setoid_rewrite contains_true. auto.
Qed.

(** [c] grants no request, no time, no recipient and no quota that [a] does not. *)
Record narrower (c a : Capability) : Prop := {
  nar_service : service c = service a;
  nar_actions : ∀ x, x ∈ actions c → x ∈ actions a;
  nar_resource : ∀ r, covers (resource c) r = true → covers (resource a) r = true;
  nar_exp : exp c ≤ exp a;
  nar_nbf : nbf a ≤ nbf c;
  nar_to : to_narrows (to c) (to a) = true;
  nar_limits : limits_narrow (cap_limits c) (cap_limits a) = true;
}.

#[global] Instance narrower_trans : Transitive narrower.
Proof.
  intros c b a [] []. split.
  - congruence.
  - auto.
  - auto.
  - lia.
  - lia.
  - by eapply to_narrows_trans.
  - by eapply limits_narrow_trans.
Qed.

Lemma limits_narrow_refl l : limits_narrow l l = true.
Proof.
  destruct l as [[p r o s]|]; [|done]. unfold limits_narrow. cbn.
  rewrite bool_decide_true, orb_true_r by done.
  destruct r, o, s; cbn; rewrite ?Z.leb_refl; done.
Qed.

#[global] Instance narrower_refl : Reflexive narrower.
Proof.
  intros c. split; try done; try lia; [|apply limits_narrow_refl].
  destruct (to c) as [l|]; [|done]. simpl. apply forallb_elem. intros x Hx. by apply contains_true.
Qed.

Lemma attenuates_spec c p :
  attenuates c p = true → issuer c = aud p ∧ narrower c p.
Proof.
  unfold attenuates. intros H. bools. split; [done|]. split; try done.
  - intros x Hx. apply contains_true. by eapply forallb_elem.
  - intros r. by apply covers_trans.
Qed.

(** ** Verification *)

Lemma chain_eq c : chain c = c :: match parent c with Some p => chain p | None => [] end.
Proof. by destruct c. Qed.

Lemma root_eq c : root c = match parent c with Some p => root p | None => c end.
Proof. by destruct c. Qed.

(** Induction along the parents. *)
Lemma capability_parents (P : Capability → Prop) :
  (∀ c, (∀ p, parent c = Some p → P p) → P c) → ∀ c, P c.
Proof.
  intros H c. induction c as [c IH] using (induction_ltof1 _ (λ c, length (chain c))).
  apply H. intros p Hp. apply IH. unfold ltof. rewrite (chain_eq c), Hp. simpl. lia.
Qed.

Section verification.
Context {C : Crypto} {S : Serde}.

Lemma optional_Ok {A} w k (f : json → result A CapError) o :
  optional w k f = Ok o ↔
    (get k w = None ∧ o = None) ∨ ∃ v a, get k w = Some v ∧ f v = Ok a ∧ o = Some a.
Proof.
  unfold optional. destruct (get k w) as [v|].
  - rewrite rbind_Ok. split.
    + intros (a & Ha & [= <-]). right. eauto 10.
    + intros [[? _]|(? & a & [= <-] & Ha & ->)]; [done|eauto].
  - split; [intros [= <-]; by left|by intros [[_ ->]|(? & ? & ? & _)]].
Qed.

(** What parsing guarantees of one link. *)
Record link_parsed (c : Capability) : Prop := {
  lp_from : get_str "fromId" (wire c) = Some (issuer c);
  lp_id : valid_id (cap_id c) = true;
  lp_time : 0 ≤ nbf c < exp c ∧ exp c - nbf c ≤ MAX_LIFETIME_MS;
  lp_actions : actions c ≠ [];
}.

Lemma parse_link_spec n w c :
  parse_link n w = Ok c →
  wire c = w ∧ (length (chain c) ≤ n)%nat ∧ ∀ l, l ∈ chain c → link_parsed l.
Proof.
  revert w c. induction n as [|n IH]; intros w c; cbn [parse_link]; [done|].
  intros (t & _ & H)%rbind_Ok. case_if; [done|].
  apply rbind_Ok in H as (id & Hid & H). apply rbind_Ok in H as (from & Hfrom & H).
  apply rbind_Ok in H as (a & _ & H). apply rbind_Ok in H as (res & _ & H).
  apply rbind_Ok in H as (s & _ & H). apply rbind_Ok in H as (acts & _ & H).
  apply rbind_Ok in H as (nb & _ & H). apply rbind_Ok in H as (ex & _ & H).
  case_if; [done|]. apply rbind_Ok in H as (tos & _ & H). case_if; [done|].
  apply rbind_Ok in H as (lim & _ & H). apply rbind_Ok in H as (par & Hpar & [= <-]).
  unfold well_shaped in *. bools. unfold string_of in *. rewrite ok_or_Ok in Hfrom.
  set (link := {| wire := w |}).
  assert (Hlink : link_parsed link) by (split; simpl; (done || lia)).
  rewrite chain_eq. simpl parent. simpl wire. split; [done|].
  apply optional_Ok in Hpar as [[_ ->]|(v & p & _ & Hp & ->)].
  - split; [simpl; lia|]. by intros l ->%list_elem_of_singleton.
  - apply IH in Hp as (_ & Hlen & Hall). split; [simpl; lia|].
    intros l [->|Hl]%elem_of_cons; auto.
Qed.

Lemma parse_spec w c :
  parse w = Ok c →
  wire c = w ∧ (length (chain c) ≤ MAX_DEPTH)%nat ∧ ∀ l, l ∈ chain c → link_parsed l.
Proof. unfold parse. case_if; [done|]. apply parse_link_spec. Qed.

(** One link authorizes its holder for the request. *)
Record link_grants (ctx : Context_) (holder : string) (c : Capability) : Prop := {
  lg_aud : aud c = holder;
  lg_time : nbf c - MAX_CLOCK_SKEW_MS ≤ now_ms ctx < exp c;
  lg_service : service c = c_service ctx;
  lg_action : c_action ctx ∈ actions c;
  lg_resource : covers (resource c) (c_resource ctx) = true;
  lg_to : ∀ l, to c = Some l → local_did ctx ∈ l;
  lg_live : is_revoked ctx (cap_id c) = false;
  lg_signed : wire_ok (wire c) = true;
}.

(** [granted ctx holder c]: a chain of links leads from [holder] to a root the
    verifier trusts; every link grants the request and narrows its parent. *)
Inductive granted (ctx : Context_) : string → Capability → Prop :=
| granted_root h c :
    link_grants ctx h c → parent c = None → trusted_root ctx (issuer c) = true → granted ctx h c
| granted_delegated h c p :
    link_grants ctx h c → parent c = Some p → attenuates c p = true →
    granted ctx (issuer c) p → granted ctx h c.

Lemma verify_link_spec ctx h c :
  0 ≤ nbf c →
  verify_link ctx h c = Ok tt ↔
    link_grants ctx h c ∧ ∀ p, parent c = Some p → attenuates c p = true.
Proof.
  intros Hnbf. unfold verify_link, i64_saturating_sub. change MAX_CLOCK_SKEW_MS with 120000.
  split.
  - intros H. cases_in H. split.
    + split; try done.
      * change MAX_CLOCK_SKEW_MS with 120000. lia.
      * by apply contains_true.
      * intros l Hl. rewrite Hl in *. simpl in *. bools. rewrite existsb_elem in *.
        match goal with He : ∃ x, _ |- _ => destruct He as (d & Hd & He) end. bools. by subst.
    + intros p Hp. rewrite Hp in *. simpl in *. by bools.
  - intros [[Ha Ht Hs Hact Hres Hto Hrev Hsig] Hpar].
    change MAX_CLOCK_SKEW_MS with 120000 in Ht.
    rewrite (proj2 (Z.ltb_ge _ _)), (proj2 (Z.leb_gt _ _)) by lia.
    rewrite Ha, Hs, Hres, Hrev, Hsig, !bool_decide_true by done.
    rewrite (proj2 (contains_true _ _)) by done. simpl.
    destruct (to c) as [l|]; simpl.
    + assert (Hl : existsb (λ d, bool_decide (d = local_did ctx)) l = true).
      { apply existsb_elem. exists (local_did ctx). split; [by apply Hto|by apply bool_decide_true]. }
      rewrite Hl. simpl.
      destruct (parent c) as [p|]; simpl; [|done]. by rewrite Hpar.
    + destruct (parent c) as [p|]; simpl; [|done]. by rewrite Hpar.
Qed.

Lemma verify_chain_spec ctx h c :
  (∀ l, l ∈ chain c → 0 ≤ nbf l) →
  (verify_chain ctx h (chain c) = Ok tt ∧ trusted_root ctx (issuer (root c)) = true) ↔ granted ctx h c.
Proof.
  revert h. induction c as [c IH] using capability_parents. intros h Hnbf.
  assert (Hc : 0 ≤ nbf c) by (apply Hnbf; rewrite chain_eq; left).
  rewrite chain_eq, root_eq. cbn [verify_chain]. rewrite rbind_Ok. split.
  - intros [([] & Hl & Hrest) Hroot]. apply (verify_link_spec _ _ _ Hc) in Hl as [Hl Hpar].
    destruct (parent c) as [p|] eqn:Hp; [|by apply granted_root].
    eapply granted_delegated; [done..|by apply Hpar|]. apply IH; [done| |done].
    intros l Hin. apply Hnbf. rewrite chain_eq, Hp. by right.
  - intros Hg. destruct Hg as [h c Hl Hp Ht|h c p Hl Hp Hatt Hg']; rewrite Hp.
    + split; [|done]. exists tt. split; [|done]. apply verify_link_spec; [done|].
      split; [done|]. by rewrite Hp.
    + apply (IH p Hp) in Hg' as [Hv Ht].
      2:{ intros l Hin. apply Hnbf. rewrite chain_eq, Hp. by right. }
      split; [|done]. exists tt. split; [|done]. apply verify_link_spec; [done|].
      split; [done|]. intros q. rewrite Hp. by intros [= <-].
Qed.

Lemma verify_spec w ctx cap :
  verify w ctx = Ok cap ↔ parse w = Ok cap ∧ granted ctx (holder ctx) cap.
Proof.
  unfold verify. rewrite rbind_Ok. split.
  - intros (c & Hp & H). apply rbind_Ok in H as ([] & Hv & H).
    destruct (trusted_root ctx _) eqn:Ht; [|done]. injection H as <-.
    split; [done|]. apply verify_chain_spec; [|done].
    intros l Hl. by apply parse_spec in Hp as (_ & _ & [_ _ [[? _] _] _]%(λ H, H l Hl)).
  - intros [Hp Hg]. exists cap. split; [done|].
    apply verify_chain_spec in Hg as [Hv Ht];
      [|intros l Hl; by apply parse_spec in Hp as (_ & _ & [_ _ [[? _] _] _]%(λ H, H l Hl))].
    apply rbind_Ok. exists tt. split; [done|]. by rewrite Ht.
Qed.
End verification.

(** Verification accepts exactly the chains of authority: the capability
    parses, and from the presenting holder a chain of links, each issued to the
    one before it, in time, for the request's service, action and resource, for
    this verifier, unrevoked, signed and no wider than its parent, leads to a
    root the verifier trusts. Nothing else is accepted, and every such chain
    is. *)
Theorem verify_exact {C : Crypto} {S : Serde} w ctx cap :
  verify w ctx = Ok cap ↔ parse w = Ok cap ∧ granted ctx (holder ctx) cap.
Proof. apply verify_spec. Qed.

(** The wire carries a signature by the key its issuer's DID encodes. *)
Definition signed_by {C : Crypto} (issuer : string) (w : json) : Prop :=
  get_str "fromId" w = Some issuer ∧
  ∃ fields sig bytes key,
    w = JObject fields ∧ get_str "signature" w = Some sig ∧ b64url_decode sig = Some bytes ∧
    pubkey_from_did issuer = Ok key ∧ ed_verify key (signing_payload fields) bytes = true.

Lemma granted_chain {C : Crypto} ctx h c :
  granted ctx h c →
  aud c = h ∧ trusted_root ctx (issuer (root c)) = true ∧
  ∀ a, a ∈ chain c → narrower c a ∧ now_ms ctx < exp a ∧
    is_revoked ctx (cap_id a) = false ∧ wire_ok (wire a) = true.
Proof.
  induction 1 as [h c Hl Hp Ht|h c p Hl Hp Hatt Hg (Haud & Hroot & IH)]; rewrite root_eq, Hp;
    split; try (by destruct Hl); (split; [done|]); intros a; rewrite chain_eq, Hp; destruct Hl.
  - intros ->%list_elem_of_singleton. split; [reflexivity|]. split_and!; (done || lia).
  - intros [->|Ha]%elem_of_cons; [split; [reflexivity|]; split_and!; (done || lia)|].
    destruct (IH a Ha) as [Hn ?]. split; [|done].
    apply attenuates_spec in Hatt as [_ Hcp]. by transitivity p.
Qed.

(** C32. Delegation never widens authority: whatever an accepted capability
    grants, every issuer above it up to the trusted root has granted in a link
    it signed itself, with at least the same actions, resources, recipients,
    time and quotas; the chain has at most three links, and none of them is
    revoked or expired. *)
Theorem delegation_never_widens {C : Crypto} {S : Serde} w ctx cap :
  verify w ctx = Ok cap →
  aud cap = holder ctx ∧ (length (chain cap) ≤ 3)%nat ∧
  trusted_root ctx (issuer (root cap)) = true ∧
  ∀ a, a ∈ chain cap →
    narrower cap a ∧ signed_by (issuer a) (wire a) ∧ is_revoked ctx (cap_id a) = false ∧
    0 ≤ nbf a ∧ now_ms ctx < exp a ∧ exp a - nbf a ≤ MAX_LIFETIME_MS.
Proof.
  intros [Hp Hg]%verify_spec. apply parse_spec in Hp as (_ & Hlen & Hall).
  apply granted_chain in Hg as (Haud & Hroot & Hg). split_and!; [done..|].
  intros a Ha. destruct (Hg a Ha) as (? & ? & ? & Hsig). destruct (Hall a Ha) as [Hfrom _ [[??] ?] _].
  apply wire_ok_spec in Hsig as (fields & from & sig & bytes & key & Hw & Hf & Hs & Hb & Hk & Hv).
  rewrite Hf in Hfrom. injection Hfrom as ->.
  split; [done|]. split; [|split_and!; (done || lia)]. split; [done|].
  by exists fields, sig, bytes, key.
Qed.

(** ** A concrete chain *)
Module CapToy.

Definition action_from_value (v : json) : option Action :=
  match v with
  | JString s => if bool_decide (s = "infer") then Some Infer else
      if bool_decide (s = "read") then Some Read else
      if bool_decide (s = "write") then Some Write else None
  | _ => None
  end.

#[global] Instance serde : Serde := {|
  service_from_value v := match v with
    | JString s => if bool_decide (s = "ai") then Some Ai else
        if bool_decide (s = "escrow") then Some Escrow else None
    | _ => None
    end;
  actions_from_value v := match v with JArray l => mapM action_from_value l | _ => None end;
  strings_from_value v := match v with JArray l => mapM as_str l | _ => None end;
  limits_from_value v := Some {| period := Day; max_requests := get_u64 "max_requests" v;
    max_output_chars := get_u64 "max_output_chars" v; max_stored_bytes := get_u64 "max_stored_bytes" v |};
  to_vec := stable_stringify;
|}.

Definition carol : string := "did:key:z0011223344556677001122334455667CAROLCAROLCAROLC".

Definition num (n : Z) : json := JNumber (PosInt n).

(** [alice], the provider, lets [bob] write everywhere; he lets [carol] write
    in one room, with a quota. *)
Definition root_wire : json := Toy.signed Toy.alice
  [("t", JString "mistl-cap-v1"); ("id", JString "00000000000000000000000000000001");
   ("aud", JString (Wire.did Toy.bob)); ("svc", JString "escrow");
   ("act", JArray [JString "read"; JString "write"]); ("res", JString "*");
   ("nbf", num 1000); ("exp", num 9000000)].

Definition leaf_wire : json := Toy.signed Toy.bob
  [("t", JString "mistl-cap-v1"); ("id", JString "00000000000000000000000000000002");
   ("aud", JString carol); ("svc", JString "escrow"); ("act", JArray [JString "write"]);
   ("res", JString "room/*"); ("lim", JObject [("max_requests", num 5)]);
   ("nbf", num 2000); ("exp", num 8000000); ("prf", root_wire)].

Definition context (resource : string) (revoked : string → bool) : Context_ := {|
  now_ms := 3000; holder := carol; local_did := Wire.did Toy.alice; c_service := Escrow;
  c_action := Write; c_resource := resource; trusted_root d := bool_decide (d = Wire.did Toy.alice);
  is_revoked := revoked |}.

Definition room_slot : string := "room/0123456789abcdef0123456789abcdef".
End CapToy.

Lemma delegation_never_widens_witness :
  ∃ cap, verify CapToy.leaf_wire (CapToy.context CapToy.room_slot (λ _, false)) = Ok cap ∧
    ∀ a, a ∈ chain cap → narrower cap a.
Proof.
  destruct (verify CapToy.leaf_wire (CapToy.context CapToy.room_slot (λ _, false))) as [cap|e] eqn:Hv;
    [|by vm_compute in Hv].
  exists cap. split; [reflexivity|]. intros a Ha.
  by destruct (delegation_never_widens _ _ _ Hv) as (_ & _ & _ & H); destruct (H a Ha).
Defined.

(** The same chain with its root revoked. *)
Example revoked_root_refused :
  verify CapToy.leaf_wire (CapToy.context CapToy.room_slot
    (λ id, bool_decide (id = "00000000000000000000000000000001"))) = Err RevokedCap.
Proof. by vm_compute. Qed.
