(* ===== verification/AuthzStore.v ===== *)
(** * Authorization: the store

    [src/src/authz/delegation.rs] and the [Store] of [mod.rs]: capabilities
    this node issued, holds, was presented with or knows to be revoked; the
    handler of capability messages; the commands on capabilities; and the
    decision on a request of a peer or of the local API, with the usage it
    charges. The store sits behind one lock, so every operation is a function
    of the whole store. Writing it to disk is I/O: [saved] is its outcome. *)
From S2P Require Import Prelude Json Wire PeerAuth AuthzPolicy AuthzCap.

Definition MAX_HELD : Z := 256.
Definition MAX_DELIVERED_PER_ISSUER : Z := 16.
Definition MAX_ISSUED : Z := 1024.
Definition MAX_PRESENTED : Z := 1024.
Definition MAX_PER_NODE : Z := 8.
Definition MAX_REVOKED : Z := 4096.
Definition MAX_THROTTLES : Z := 1024.
Definition PRESENT : string := "mistl-cap-present-v1".
Definition DELIVER : string := "mistl-cap-deliver-v1".
Definition REVOKE : string := "mistl-cap-revoke-v1".

(** [Value::eq]: numbers by value, objects by their sorted entries. *)
Definition number_eqb (a b : number) : bool :=
  match a, b with
  | PosInt a, PosInt b | NegInt a, NegInt b => a =? b
  | Float a, Float b => (a =? b) || (float_is_zero a && float_is_zero b)
  | _, _ => false
  end.

Fixpoint list_eqb {A} (eqb : A → A → bool) (a b : list A) : bool :=
  match a, b with
  | [], [] => true
  | x :: a, y :: b => eqb x y && list_eqb eqb a b
  | _, _ => false
  end.

Fixpoint value_eqb (a b : json) : bool :=
  match a, b with
  | JNull, JNull => true
  | JBool a, JBool b => Bool.eqb a b
  | JNumber a, JNumber b => number_eqb a b
  | JString a, JString b => bool_decide (a = b)
  | JArray a, JArray b => list_eqb value_eqb a b
  | JObject a, JObject b =>
      list_eqb (λ f g : string * json, bool_decide (f.1 = g.1) && value_eqb f.2 g.2) a b
  | _, _ => false
  end.

(** ** The book of capabilities *)

Record Issued := { iss_cap : json; iss_revoked : bool }.
Record Revoked := { rev_id : string; rev_exp : Z; rev_at : Z }.
Record Presented := {
  pr_node : string; pr_did : string; pr_cap : Capability; pr_at : Z; pr_trusted : bool;
}.

Record Book := {
  issued : list Issued;
  held : list json;
  revoked : list Revoked;
  presented : list Presented;
  receive : gmap string Z;
  sequence : Z;
  dirty : bool;
}.

Definition empty_book : Book :=
  {| issued := []; held := []; revoked := []; presented := []; receive := ∅; sequence := 0;
     dirty := false |}.

Definition set_issued (b : Book) l : Book := {| issued := l; held := held b; revoked := revoked b;
  presented := presented b; receive := receive b; sequence := sequence b; dirty := dirty b |}.
Definition set_held (b : Book) l : Book := {| issued := issued b; held := l; revoked := revoked b;
  presented := presented b; receive := receive b; sequence := sequence b; dirty := dirty b |}.
Definition set_revoked (b : Book) l : Book := {| issued := issued b; held := held b; revoked := l;
  presented := presented b; receive := receive b; sequence := sequence b; dirty := dirty b |}.
Definition set_presented (b : Book) l : Book := {| issued := issued b; held := held b;
  revoked := revoked b; presented := l; receive := receive b; sequence := sequence b; dirty := dirty b |}.
Definition set_receive (b : Book) r : Book := {| issued := issued b; held := held b;
  revoked := revoked b; presented := presented b; receive := r; sequence := sequence b; dirty := dirty b |}.
Definition set_sequence (b : Book) n : Book := {| issued := issued b; held := held b;
  revoked := revoked b; presented := presented b; receive := receive b; sequence := n; dirty := dirty b |}.
Definition set_dirty (b : Book) d : Book := {| issued := issued b; held := held b;
  revoked := revoked b; presented := presented b; receive := receive b; sequence := sequence b; dirty := d |}.

(** [iter().enumerate().filter(sel).min_by_key(key).map(|(i, _)| i)]: the index
    of the first of the smallest, with its key. *)
Fixpoint min_index {A} (sel : A → bool) (key : A → Z) (l : list A) : option (nat * Z) :=
  match l with
  | [] => None
  | x :: l =>
      let rest := (λ r : nat * Z, (S r.1, r.2)) <$> min_index sel key l in
      if sel x then
        match rest with
        | Some (_, k) => if key x <=? k then Some (0%nat, key x) else rest
        | None => Some (0%nat, key x)
        end
      else rest
  end.

(** [vec.remove(oldest)] for the index found, if any. *)
Definition remove_oldest {A} (sel : A → bool) (key : A → Z) (l : list A) : list A :=
  match min_index sel key l with Some (i, _) => delete i l | None => l end.

Definition mark_trusted (b : Book) (node id : string) : Book :=
  set_presented b (map (λ p,
    if bool_decide (pr_node p = node) && bool_decide (cap_id (pr_cap p) = id)
    then {| pr_node := pr_node p; pr_did := pr_did p; pr_cap := pr_cap p; pr_at := pr_at p;
            pr_trusted := true |}
    else p) (presented b)).

Definition is_revoked (b : Book) (id : string) (now : Z) : bool :=
  existsb (λ r, bool_decide (rev_id r = id) && (now <? rev_exp r)) (revoked b)
  || existsb (λ i, iss_revoked i && bool_decide (get_str "id" (iss_cap i) = Some id)) (issued b).

Definition live (b : Book) (c : Capability) (now : Z) : bool :=
  forallb (λ l, (now <? exp l) && negb (is_revoked b (cap_id l) now)) (chain c).

Section book.
Context {C : Crypto} {S : Serde}.

(** [filter_map(|v| parse(v).ok())] *)
Definition parsed (l : list json) : list Capability :=
  omap (λ v, match parse v with Ok c => Some c | Err _ => None end) l.

Definition validate_caps (caps : list json) (max : Z) : result () string :=
  ensure (zlen caps <=? max) "too many capabilities" ;;?
  try_each (λ v, match parse v with Ok _ => Ok tt | Err _ => Err "invalid capability" end) caps.

Definition book_limits_for (b : Book) (id : string) : option Limits :=
  let known := List.find (λ p, bool_decide (cap_id (pr_cap p) = id)) (presented b) in
  match (match known with Some p => cap_limits (pr_cap p) | None => None end) with
  | Some l => Some l
  | None =>
      match List.find (λ c, bool_decide (cap_id c = id)) (parsed (map iss_cap (issued b) ++ held b)) with
      | Some c => cap_limits c
      | None => None
      end
  end.

Definition prune (b : Book) (now : Z) : Book :=
  let held' := List.filter (λ v, match parse v with Ok c => now <? exp c | Err _ => false end) (held b) in
  let issued' := List.filter (λ i,
    is_some_and (λ exp, now <? exp) (as_i64 (index "exp" (iss_cap i)))) (issued b) in
  let revoked' := List.filter (λ r, now <? rev_exp r) (revoked b) in
  let presented' := List.filter (λ p, forallb (λ c,
    (now <? exp c) && negb (contains (map rev_id revoked') (cap_id c))) (chain (pr_cap p)))
    (presented b) in
  {| issued := issued'; held := held'; revoked := revoked'; presented := presented';
     receive := receive b; sequence := sequence b;
     dirty := dirty b || negb ((zlen (held b) =? zlen held') && (zlen (revoked b) =? zlen revoked')
       && (zlen (issued b) =? zlen issued')) |}.

(** The expiry times of every known link with the id: presented, issued, held,
    already revoked. *)
Definition known_expiries (b : Book) (id : string) : list Z :=
  let links caps := List.filter (λ c, bool_decide (cap_id c = id)) (concat (map chain caps)) in
  map exp (links (map pr_cap (presented b)))
  ++ map exp (links (parsed (map iss_cap (issued b) ++ held b)))
  ++ map rev_exp (List.filter (λ r, bool_decide (rev_id r = id)) (revoked b)).

Definition max_of (l : list Z) : option Z :=
  match l with [] => None | x :: l => Some (foldl Z.max x l) end.

Definition forget (b : Book) (id : string) : Book :=
  set_presented b (List.filter (λ p, negb (contains_id (pr_cap p) id)) (presented b)).

(** [i64::saturating_add] of a non-negative amount. *)
Definition i64_saturating_add (a b : Z) : Z := Z.min (2 ^ 63 - 1) (a + b).

(** [if let Some(old) = iter_mut().find(p) { *old = f(old) }] *)
Fixpoint update_first {A} (p : A → bool) (f : A → A) (l : list A) : list A :=
  match l with
  | [] => []
  | x :: l => if p x then f x :: l else x :: update_first p f l
  end.

Definition revoke (b : Book) (id : string) (now : Z) : Book :=
  let exp := default (i64_saturating_add now MAX_LIFETIME_MS) (max_of (known_expiries b id)) in
  if exp <=? now then forget b id else
  let revoked' :=
    if existsb (λ r, bool_decide (rev_id r = id)) (revoked b) then
      update_first (λ r, bool_decide (rev_id r = id))
        (λ r, {| rev_id := rev_id r; rev_exp := Z.max (rev_exp r) exp; rev_at := rev_at r |})
        (revoked b)
    else
      (if MAX_REVOKED <=? zlen (revoked b)
       then remove_oldest (λ _, true) rev_at (revoked b) else revoked b)
      ++ [{| rev_id := id; rev_exp := exp; rev_at := now |}] in
  set_dirty (forget (set_revoked b revoked') id) true.

(** [now] and the times are on the monotonic clock. *)
Definition take_receive (b : Book) (from : string) (now : Z) : Book * bool :=
  let recent := filter (λ e : string * Z, since now e.2 < SECOND) (receive b) in
  if is_some (recent !! from) || (MAX_THROTTLES <=? zsize recent)
  then (set_receive b recent, false)
  else (set_receive b (<[from := now]> recent), true).

Definition insert_presented (b : Book) (node did : string) (cap : Capability) (trusted : bool) : Book :=
  let here p := bool_decide (pr_node p = node) in
  let l := List.filter (λ p, negb (here p && bool_decide (cap_id (pr_cap p) = cap_id cap)))
    (presented b) in
  let l := if MAX_PER_NODE <=? zlen (List.filter here l) then remove_oldest here pr_at l else l in
  let l := if MAX_PRESENTED <=? zlen l then remove_oldest (λ _, true) pr_at l else l in
  let seq := sat_add (sequence b) 1 in
  set_presented (set_sequence b seq)
    (l ++ [{| pr_node := node; pr_did := did; pr_cap := cap; pr_at := seq; pr_trusted := trusted |}]).
End book.

(** ** The store *)

Record Store := {
  policy : Policy;
  tokens : list ApiToken;
  usage : UsageBook;
  usage_dirty : bool;
  tokens_dirty : bool;
  caps : Book;
  store_did : option string;
}.

Definition set_caps (s : Store) (b : Book) : Store :=
  {| policy := policy s; tokens := tokens s; usage := usage s; usage_dirty := usage_dirty s;
     tokens_dirty := tokens_dirty s; caps := b; store_did := store_did s |}.
Definition set_usage (s : Store) (u : UsageBook) (dirty : bool) : Store :=
  {| policy := policy s; tokens := tokens s; usage := u; usage_dirty := dirty;
     tokens_dirty := tokens_dirty s; caps := caps s; store_did := store_did s |}.

Record Authorized := {
  au_principal : option Principal;
  au_token : option string;
  accounts : list string;
  au_service : Service;
  au_limits : Limits;
  cap_accounts : list (string * Limits);
}.

Definition anonymous : Authorized :=
  {| au_principal := None; au_token := None; accounts := []; au_service := Ai;
     au_limits := default_limits; cap_accounts := [] |}.

(** [now.timestamp_millis()] *)
Definition millis (now : Z) : Z := now / 10 ^ 6.

Section store.
Context {C : Crypto} {S : Serde} {K : Calendar}.

Definition trusts (s : Store) (service : Service) (resource : string) (owner : option string)
    (did : string) : bool :=
  bool_decide (did = default "" (store_did s))
  || contains (issuers (policy_service (policy s) service)) did
  || (bool_decide (service = Escrow) && is_some (exact_resource resource)
      && bool_decide (owner = Some did)).

Definition verify_cap (s : Store) (wire : json) (holder : string) (service : Service)
    (action : Action) (resource : string) (owner : option string) (now : Z)
    : result Capability CapError :=
  verify wire {|
    now_ms := millis now; holder := holder; local_did := default "" (store_did s);
    c_service := service; c_action := action; c_resource := resource;
    trusted_root := trusts s service resource owner;
    AuthzCap.is_revoked := λ id, is_revoked (caps s) id (millis now) |}.

(** [iter().filter(f).find_map(|p| g(p).ok())] *)
Fixpoint find_ok {A B E} (g : A → result B E) (l : list A) : option B :=
  match l with
  | [] => None
  | x :: l => match g x with Ok b => Some b | Err _ => find_ok g l end
  end.

Definition presented_by (s : Store) (node did : string) : list Presented :=
  List.filter (λ p, bool_decide (pr_node p = node) && bool_decide (pr_did p = did))
    (presented (caps s)).

Definition presented_cap (s : Store) (service : Service) (action : Action) (p : Principal)
    (resource owner : option string) (now : Z) : option Capability :=
  match did p with
  | None => None
  | Some did =>
      find_ok (λ pr, verify_cap s (wire (pr_cap pr)) did service action
                       (default "*" resource) owner now)
        (presented_by s (node p) did)
  end.

(** [cap.actions[0]]; parsing refuses an empty list. *)
Definition first_action (c : Capability) : Action := default Infer (head (actions c)).

Definition presented_access_allowed (s : Store) (service : Service) (p : Principal) (now : Z) : bool :=
  match did p with
  | None => false
  | Some did =>
      existsb (λ pr, bool_decide (AuthzCap.service (pr_cap pr) = service)
        && is_ok (verify_cap s (wire (pr_cap pr)) did service (first_action (pr_cap pr))
                    (resource (pr_cap pr)) None now))
        (presented_by s (node p) did)
  end.

(** [access_allowed] of [mod.rs]. *)
Definition store_access_allowed (s : Store) (service : Service) (p : Principal) (now : Z) : bool :=
  let sp := policy_service (policy s) service in
  negb (denied sp p now)
  && (access_allowed sp p now || presented_access_allowed s service p now).

(** The second half of [authorize_peer_owned]: the accounts the request will be
    charged to, after the access decision. *)
Definition charge_peer (s : Store) (service : Service) (p : Principal) (cap : option Capability)
    (now : Z) : Store * result Authorized Denied :=
  let sp := policy_service (policy s) service in
  if bool_decide (service = Escrow) && is_none_or (λ c, negb (is_some (cap_limits c))) cap then
    (s, Ok {| au_principal := Some p; au_token := None; accounts := []; au_service := service;
              au_limits := default_limits; cap_accounts := [] |})
  else
  let acc := account (usage s) service (account_of p) in
  let limits := if bool_decide (acc = "*") then AuthzPolicy.limits sp else limits_for sp p in
  let authorized cap_accounts :=
    {| au_principal := Some p; au_token := None; accounts := [acc]; au_service := service;
       au_limits := limits; cap_accounts := cap_accounts |} in
  let '(u, checked) := if bool_decide (service = Ai) then check (usage s) service acc limits now
                       else (usage s, Ok tt) in
  match checked with
  | Err e => (set_usage s u true, Err e)
  | Ok _ =>
      match cap with
      | Some {| cap_id := id; cap_limits := Some lim |} =>
          let cap_acc := account u service ("cap:" +:+ id) in
          let '(u, checked) := check u service cap_acc lim now in
          (set_usage s u true, match checked with
            | Err e => Err e
            | Ok _ => Ok (authorized [(cap_acc, lim)])
            end)
      | _ => (set_usage s u true, Ok (authorized []))
      end
  end.

Definition authorize_peer_owned (s : Store) (service : Service) (action : Action) (p : Principal)
    (resource owner : option string) (now : Z) : Store * result Authorized Denied :=
  let sp := policy_service (policy s) service in
  if denied sp p now then (s, Err forbidden) else
  let cap := if explicitly_allowed sp p now then None
             else presented_cap s service action p resource owner now in
  if negb (explicitly_allowed sp p now) && negb (is_some cap) && negb (bool_decide (mode sp = Open_))
  then (s, Err forbidden) else
  let s := match cap with
           | Some cap => set_caps s (mark_trusted (caps s) (node p) (cap_id cap))
           | None => s
           end in
  charge_peer s service p cap now.

Definition touch_token (s : Store) (id_ : string) (now : Z) : Store :=
  if existsb (λ t, bool_decide (id t = id_)) (tokens s) then
    {| policy := policy s;
       tokens := update_first (λ t, bool_decide (id t = id_)) (λ t,
         {| id := id t; name := name t; hash := hash t; hint := hint t; created_at := created_at t;
            tok_expires_at := tok_expires_at t; revoked_at := revoked_at t;
            last_used_at := Some now; models := models t; tok_limits := tok_limits t |}) (tokens s);
       usage := usage s; usage_dirty := usage_dirty s; tokens_dirty := true; caps := caps s;
       store_did := store_did s |}
  else s.

Definition model_not_allowed : Denied :=
  {| code := "model_not_allowed"; message := "Model is not allowed by this API token" |}.

Definition authorize_api (s : Store) (authorization model : option string) (now : Z)
    : Store * result Authorized Denied :=
  match lookup (tokens s) authorization (require_token (policy s)) now with
  | Err e => (s, Err e)
  | Ok None => (s, Ok anonymous)
  | Ok (Some token) =>
      if negb (bool_decide (models token = []))
         && negb (is_some_and (contains (models token)) model)
      then (s, Err model_not_allowed) else
      let acc := account (usage s) Ai ("token:" +:+ id token) in
      let '(u, checked) := check (usage s) Ai acc (tok_limits token) now in
      let s := set_usage s u true in
      match checked with
      | Err e => (s, Err e)
      | Ok _ =>
          (touch_token s (id token) now,
           Ok {| au_principal := None; au_token := Some (id token); accounts := [acc];
                 au_service := Ai; au_limits := tok_limits token; cap_accounts := [] |})
      end
  end.

Definition model_filter (s : Store) (authorization : option string) (now : Z)
    : Store * result (option (list string)) Denied :=
  match lookup (tokens s) authorization (require_token (policy s)) now with
  | Err e => (s, Err e)
  | Ok None => (s, Ok None)
  | Ok (Some token) =>
      (touch_token s (id token) now,
       Ok (if bool_decide (models token = []) then None else Some (models token)))
  end.

Definition record_authorized (s : Store) (a : Authorized) (requests output_chars now : Z) : Store :=
  let u := foldl (λ u acc, record u (au_service a) acc (au_limits a) requests output_chars now)
             (usage s) (accounts a) in
  let u := foldl (λ u al, record u (au_service a) al.1 al.2 requests output_chars now)
             u (cap_accounts a) in
  set_usage s u (usage_dirty s || negb (bool_decide (accounts a = []))
                 || negb (bool_decide (cap_accounts a = []))).

(** ** Messages *)

Definition import_cap (s : Store) (w : json) (identity : Identity) (now : Z)
    : Store * result json string :=
  match parse w with
  | Err _ => (s, Err "invalid capability")
  | Ok cap =>
      match verify w {|
          now_ms := millis now; holder := Wire.did identity;
          local_did := default (Wire.did identity) (to cap ≫= head);
          c_service := AuthzCap.service cap; c_action := first_action cap;
          c_resource := resource cap; trusted_root := λ _, true;
          AuthzCap.is_revoked := λ id, is_revoked (caps s) id (millis now) |} with
      | Err _ => (s, Err "capability refused")
      | Ok _ =>
          match List.find (λ v, value_eqb (index "id" v) (index "id" w)) (held (caps s)) with
          | Some old =>
              if value_eqb old w then (set_caps s (set_dirty (caps s) true), Ok w)
              else (s, Err "capability id collides with a different held capability")
          | None =>
              if zlen (held (caps s)) <? MAX_HELD
              then (set_caps s (set_dirty (set_held (caps s) (held (caps s) ++ [w])) true), Ok w)
              else (s, Err "too many held capabilities")
          end
      end
  end.

Definition receive_present (s : Store) (from : string) (holder : option string) (msg : json)
    (now : Z) : Store :=
  match holder, parse (index "cap" msg) with
  | Some holder, Ok cap =>
      let r := verify_cap s (wire cap) holder (AuthzCap.service cap) (first_action cap)
                 (resource cap) None now in
      let trusted := is_ok r in
      let owner_candidate :=
        match r with Err e => bool_decide (e = UntrustedRoot) | Ok _ => false end
        && bool_decide (AuthzCap.service cap = Escrow) && is_some (exact_resource (resource cap)) in
      if negb trusted && negb owner_candidate then s
      else set_caps s (insert_presented (caps s) from holder cap trusted)
  | _, _ => s
  end.

(** How many held capabilities of the issuer, other than the one delivered,
    are kept. *)
Definition held_from (b : Book) (issuer : string) (id : json) : Z :=
  zlen (List.filter (λ v, bool_decide (get_str "fromId" v = Some issuer)
                      && negb (value_eqb (index "id" v) id)) (held b)).

Definition receive_deliver (s : Store) (holder : option string) (msg : json) (identity : Identity)
    (now : Z) : Store * bool :=
  match get_str "fromId" (index "cap" msg) with
  | None => (s, false)
  | Some issuer =>
      if negb (bool_decide (holder = Some issuer)) then (s, false) else
      if MAX_DELIVERED_PER_ISSUER <=? held_from (caps s) issuer (index "id" (index "cap" msg))
      then (s, false) else
      let '(s, r) := import_cap s (index "cap" msg) identity now in (s, is_ok r)
  end.

(** The sender may revoke: the local identity, a trusted issuer, or an issuer
    in a live trusted chain a peer presented. *)
Definition may_revoke (s : Store) (did : string) (identity : Identity) (now : Z) : bool :=
  bool_decide (did = Wire.did identity)
  || contains (issuers (p_ai (policy s)) ++ issuers (p_escrow (policy s))) did
  || existsb (λ p, pr_trusted p && live (caps s) (pr_cap p) (millis now)
       && existsb (λ c, bool_decide (issuer c = did)) (chain (pr_cap p))) (presented (caps s)).

(** The ids of a well-formed revocation, [None] where the handler returns. *)
Definition revocation_ids (from : string) (holder : option string) (msg : json) (now : Z)
    : option (string * list string) :=
  did ← get_str "fromId" msg;
  if negb (bool_decide (node_id_for_did did = from)) || negb (bool_decide (holder = Some did))
  then None else
  ts ← as_i64 (index "ts" msg);
  if MAX_CLOCK_SKEW_MS <? Z.abs (ts - millis now) then None else
  ids ← as_array (index "ids" msg);
  if (64 <? zlen ids) || bool_decide (ids = []) then None else
  if existsb (λ v, negb (is_some_and valid_id (as_str v))) ids then None else
  Some (did, omap as_str ids).

Definition receive_revoke (s : Store) (from : string) (holder : option string) (msg : json)
    (identity : Identity) (now : Z) : Store :=
  match revocation_ids from holder msg now with
  | Some (did, ids) =>
      if negb (may_revoke s did identity now) || negb (wire_ok msg) then s
      else set_caps s (foldl (λ b id, revoke b id (millis now)) (caps s) ids)
  | None => s
  end.

Definition receive_cap (s : Store) (from : string) (holder : option string) (msg : json)
    (identity : Identity) (now : Z) : Store * bool :=
  match get_str "t" msg with
  | Some t =>
      if bool_decide (t = PRESENT) then (receive_present s from holder msg now, false)
      else if bool_decide (t = DELIVER) then receive_deliver s holder msg identity now
      else if bool_decide (t = REVOKE) then (receive_revoke s from holder msg identity now, false)
      else (s, false)
  | None => (s, false)
  end.
End store.

(** ** Commands on capabilities *)

(** The JSON parser, dates in arguments, and the end of chrono's calendar. *)
Class Decoding := {
  from_slice : string → option json;
  datetime_from_value : json → option Z;
  datetime_max : Z;
}.

(** An [i64] in a [json!]. *)
Definition int (n : Z) : json := JNumber (if 0 <=? n then PosInt n else NegInt n).

Definition service_json (s : Service) : json :=
  JString match s with Ai => "ai" | Escrow => "escrow" end.
Definition action_json (a : Action) : json :=
  JString match a with Infer => "infer" | Read => "read" | Write => "write" end.

(** [value[key] = v] on an object. *)
Definition set_index (key : string) (v : json) (obj : json) : json :=
  match obj with JObject l => JObject (obj_insert key v l) | v => v end.

Definition field {A} (from_value : json → option A) (args : json) (key : string) : result A string :=
  let? v := ok_or (get key args) "missing field" in
  ok_or (from_value v) "invalid field".

Definition optional_field {A} (from_value : json → option A) (args : json) (key : string)
    : result (option A) string :=
  match get key args with
  | None | Some JNull => Ok None
  | Some v => let? a := ok_or (from_value v) "invalid field" in Ok (Some a)
  end.

Section commands.
Context {C : Crypto} {S : Serde} {D : Decoding}.

Definition MAX_TTL : Z := 10 * 366 * 24 * 60 * 60.

Definition expiry (args : json) (now : Z) : result (option Z) string :=
  let? expires_at := optional_field datetime_from_value args "expires_at" in
  let? ttl := optional_field as_i64 args "ttl_secs" in
  ensure (negb (is_some expires_at) || negb (is_some ttl)) "use either expires_at or ttl_secs" ;;?
  match ttl with
  | Some ttl =>
      ensure ((60 <=? ttl) && (ttl <=? MAX_TTL))
        "ttl_secs must be between 60 seconds and 10 years" ;;?
      ensure (now + ttl * SECOND <=? datetime_max) "expiry is out of range" ;;?
      Ok (Some (now + ttl * SECOND))
  | None =>
      ensure (is_none_or (λ e, (0 <? e - now) && (e - now <=? MAX_TTL * SECOND)) expires_at)
        "expires_at must be in the future within 10 years" ;;?
      Ok expires_at
  end.

Definition show {A} (r : result A CapError) : result A string :=
  map_err (λ _, "invalid capability") r.

(** [authz.cap.issue]; [nonce] is the fresh id. *)
Definition cap_issue (s : Store) (args : json) (identity : Identity) (nonce : string) (now : Z)
    : result (Store * json) string :=
  ensure (zlen (issued (caps s)) <? MAX_ISSUED) "too many issued capabilities" ;;?
  let? aud := field as_str args "aud" in
  let? service := field service_from_value args "service" in
  let? actions := field actions_from_value args "actions" in
  let? parent_id := optional_field as_str args "parent" in
  let? parent := match parent_id with
    | None => Ok None
    | Some id =>
        let? p := ok_or (List.find (λ v, bool_decide (get_str "id" v = Some id)) (held (caps s)))
                    "unknown held parent capability" in
        Ok (Some p)
    end in
  let? parent_cap := match parent with
    | None => Ok None
    | Some p => let? c := show (parse p) in Ok (Some c)
    end in
  ensure (is_none_or (λ p, bool_decide (AuthzCap.aud p = Wire.did identity)
                           && live (caps s) p (millis now)) parent_cap)
    "parent is not a live held capability" ;;?
  let? exp_at := expiry args now in
  let exp_at := default (now + 7 * 86400 * SECOND) exp_at in
  let? resource := optional_field as_str args "resource" in
  let cap := obj [("t", JString "mistl-cap-v1"); ("id", JString nonce);
    ("fromId", JString (Wire.did identity)); ("aud", JString aud); ("svc", service_json service);
    ("act", JArray (map action_json actions)); ("res", JString (default "*" resource));
    ("nbf", int (millis now)); ("exp", int (millis exp_at))] in
  let cap := match get "to" args with Some v => set_index "to" v cap | None => cap end in
  let cap := match get "limits" args with Some v => set_index "lim" v cap | None => cap end in
  let cap := match parent with Some p => set_index "prf" p cap | None => cap end in
  let? parsed := show (parse cap) in
  ensure (is_none_or (attenuates parsed) (AuthzCap.parent parsed)) "delegation widens parent authority" ;;?
  let? cap := sign_wire cap identity in
  let? parsed := show (parse cap) in
  let? _ := show (verify cap {|
    now_ms := millis now; holder := AuthzCap.aud parsed;
    local_did := default (Wire.did identity) (to parsed ≫= head); c_service := service;
    c_action := first_action parsed; c_resource := AuthzCap.resource parsed;
    trusted_root := λ _, true;
    AuthzCap.is_revoked := λ id, is_revoked (caps s) id (millis now) |}) in
  Ok (set_caps s (set_issued (caps s) (issued (caps s) ++ [{| iss_cap := cap; iss_revoked := false |}])),
      cap).

(** [authz.cap.remove] *)
Definition cap_remove (s : Store) (args : json) : result (Store * json) string :=
  let? id := field as_str args "id" in
  let kept := List.filter (λ v, negb (bool_decide (get_str "id" v = Some id))) (held (caps s)) in
  Ok (set_caps s (set_held (caps s) kept),
      obj [("removed", JBool (negb (zlen (held (caps s)) =? zlen kept)))]).

(** [authz.cap.revoke] *)
Definition cap_revoke (s : Store) (args : json) (identity : Identity) (now : Z)
    : result (Store * json) string :=
  let? id := field as_str args "id" in
  ensure (valid_id id) "invalid capability id" ;;?
  let? local := optional_field as_bool args "local" in
  let mine i := bool_decide (get_str "id" (iss_cap i) = Some id)
                && bool_decide (get_str "fromId" (iss_cap i) = Some (Wire.did identity)) in
  let? s := if default false local then Ok s else
    ensure (existsb mine (issued (caps s)))
      "capability was not issued by this node; use local:true for a local revocation" ;;?
    Ok (set_caps s (set_issued (caps s) (update_first mine
      (λ i, {| iss_cap := iss_cap i; iss_revoked := true |}) (issued (caps s))))) in
  Ok (set_caps s (revoke (caps s) id (millis now)),
      obj [("revoked", JBool true); ("broadcast", JBool false)]).

Definition cap_arg (args : json) : result json string :=
  let? cap := ok_or (get "cap" args) "missing `cap`" in
  match as_str cap with
  | Some text =>
      ensure (slen text <=? MAX_BYTES) "capability exceeds 8 KiB" ;;?
      ok_or (from_slice text) "invalid capability JSON"
  | None => Ok cap
  end.

Inductive cap_cmd := Issue | Import | Remove | RevokeCmd.

(** [cap_command]: works on a copy, replaced only when everything succeeded and
    was saved. [authz.cap.list] and [authz.cap.verify] only report. *)
Definition cap_command (s : Store) (cmd : cap_cmd) (args : json) (identity : Identity)
    (nonce : string) (saved : bool) (now : Z) : Store * result json string :=
  let next := {| policy := policy s; tokens := tokens s; usage := usage s;
    usage_dirty := usage_dirty s; tokens_dirty := tokens_dirty s;
    caps := prune (caps s) (millis now); store_did := Some (Wire.did identity) |} in
  let r :=
    ensure (is_some (as_object args)) "arguments must be an object" ;;?
    let? nr := match cmd with
      | Issue => cap_issue next args identity nonce now
      | Import =>
          let? w := cap_arg args in
          match import_cap next w identity now with
          | (next, Ok v) => Ok (next, v)
          | (_, Err e) => Err e
          end
      | Remove => cap_remove next args
      | RevokeCmd => cap_revoke next args identity now
      end in
    ensure saved "not saved" ;;?
    Ok nr in
  match r with
  | Ok (next, v) => (set_caps next (set_dirty (caps next) false), Ok v)
  | Err e => (s, Err e)
  end.

(** ** The message handler *)

(** The closure registered by [start]: [raw] is [event == EVENT_RAW], [mono]
    the monotonic clock. *)
Definition on_room_event (s : Store) (raw : bool)
    (from : string) (holder : option string) (data : string) (identity : Identity) (now mono : Z)
    : Store * bool :=
  if negb raw || negb (slen from =? 16) || bool_decide (from = node_id identity)
     || (MAX_BYTES + 128 <? slen data) || negb (has_window "mistl-cap-" data)
  then (s, false) else
  let '(b, allowed) := take_receive (caps s) from mono in
  let s := set_caps s b in
  if negb allowed then (s, false) else
  match from_slice data with
  | None => (s, false)
  | Some msg =>
      if existsb (λ key, is_some (get key msg)) ["type"; "v"; "kind"] then (s, false)
      else receive_cap s from holder msg identity now
  end.
End commands.
