(* ===== verification/AuthzSafety.v ===== *)
(** * Authorization: what the store guarantees

    The theorems on [AuthzStore]: the decision on a request, the bounds of
    every table under any sequence of messages, commands and requests, the
    quota on delivered capabilities, and the finality of revocations. *)
From S2P Require Import Prelude Json Wire PeerAuth AuthzPolicy AuthzCap AuthzStore.

(** ** Lists *)

Lemma List_filter_sublist {A} (f : A → bool) l : sublist (List.filter f l) l.
Proof.
  induction l as [|x l IH]; simpl; [constructor|]. destruct (f x); by constructor.
Qed.

Lemma sublist_List_filter {A} (f : A → bool) l k :
  sublist l k → sublist (List.filter f l) (List.filter f k).
Proof.
  induction 1 as [|x l k H IH|x l k H IH]; simpl; [constructor|..]; destruct (f x);
    try constructor; done.
Qed.

Lemma sublist_zlen {A} (l k : list A) : sublist l k → zlen l ≤ zlen k.
Proof. intros H%sublist_length. unfold zlen. lia. Qed.

Lemma sublist_Forall {A} (P : A → Prop) l k : sublist l k → Forall P k → Forall P l.
Proof.
  intros Hs. rewrite !Forall_forall. intros H x Hx. apply H. by eapply elem_of_sublist.
Qed.

Lemma zlen_snoc {A} (l : list A) x : zlen (l ++ [x]) = zlen l + 1.
Proof. by rewrite zlen_app. Qed.

Lemma List_filter_app {A} (f : A → bool) l k :
  List.filter f (l ++ k) = List.filter f l ++ List.filter f k.
Proof. induction l as [|x l IH]; simpl; [done|]. rewrite IH. by destruct (f x). Qed.

Lemma min_index_Some {A} (sel : A → bool) key l i k :
  min_index sel key l = Some (i, k) →
  ∃ x, l !! i = Some x ∧ sel x = true ∧ key x = k ∧ ∀ y, y ∈ l → sel y = true → k ≤ key y.
Proof.
  revert i k. induction l as [|x l IH]; intros i k; cbn [min_index]; [done|].
  destruct (min_index sel key l) as [[j kj]|] eqn:Hm; simpl.
  - destruct (IH j kj eq_refl) as (y & Hy & Hs & Hk & Hmin).
    destruct (sel x) eqn:Hx; [destruct (Z.leb_spec (key x) kj)|]; intros [= <- <-].
    + exists x. split_and!; [done..|]. intros z [->|Hz]%elem_of_cons Hsz; [done|].
      specialize (Hmin z Hz Hsz). lia.
    + exists y. split_and!; [done..|]. intros z [->|Hz]%elem_of_cons Hsz; [lia|auto].
    + exists y. split_and!; [done..|]. intros z [->|Hz]%elem_of_cons Hsz; [congruence|auto].
  - destruct (sel x) eqn:Hx; [|done]. intros [= <- <-]. exists x. split_and!; [done..|].
    intros z [->|Hz]%elem_of_cons Hsz; [done|]. exfalso. clear -Hm Hz Hsz.
    induction l as [|w l IH]; [by apply elem_of_nil in Hz|]. cbn [min_index] in Hm.
    apply elem_of_cons in Hz as [->|Hz].
    + rewrite Hsz in Hm. destruct (_ <$> _) as [[]|]; [case_if|]; done.
    + apply IH; [|done]. destruct (min_index sel key l) as [[]|]; [|done].
      simpl in Hm. destruct (sel w); [case_if|]; done.
Qed.

Lemma min_index_None {A} (sel : A → bool) key l :
  min_index sel key l = None → ∀ x, x ∈ l → sel x = false.
Proof.
  induction l as [|w l IH]; [set_solver|]. cbn [min_index].
  destruct (min_index sel key l) as [[]|]; simpl.
  { destruct (sel w); [case_if|]; done. }
  destruct (sel w) eqn:Hw; [done|]. intros _ x [->|Hx]%elem_of_cons; auto.
Qed.

Lemma remove_oldest_sublist {A} (sel : A → bool) key l : sublist (remove_oldest sel key l) l.
Proof.
  unfold remove_oldest. destruct (min_index _ _ _) as [[i k]|]; [apply sublist_delete|done].
Qed.

(** Removing makes room among the selected. *)
Lemma remove_oldest_count {A} (sel : A → bool) key l n :
  0 < n → zlen (List.filter sel l) ≤ n →
  zlen (List.filter sel (if n <=? zlen (List.filter sel l) then remove_oldest sel key l else l)) < n.
Proof.
  intros Hn Hle. case_if; [|by bools]. unfold remove_oldest.
  destruct (min_index sel key l) as [[i k]|] eqn:Hm.
  - apply min_index_Some in Hm as (x & Hx & Hs & _).
    rewrite delete_take_drop, List_filter_app, zlen_app.
    rewrite <-(take_drop_middle l i x Hx), List_filter_app, zlen_app in Hle. simpl in Hle.
    rewrite Hs, zlen_cons in Hle. lia.
  - assert (Hnil : List.filter sel l = []).
    { apply elem_of_nil_inv. intros x [Hx Hs]%elem_of_List_filter.
      eapply min_index_None in Hm; [|done]. congruence. }
    rewrite Hnil. unfold zlen. simpl. lia.
Qed.

Lemma filter_all {A} (l : list A) : List.filter (λ _, true) l = l.
Proof. induction l as [|x l IH]; simpl; [done|by rewrite IH]. Qed.

Lemma remove_oldest_len {A} key (l : list A) n :
  0 < n → zlen l ≤ n → zlen (if n <=? zlen l then remove_oldest (λ _, true) key l else l) < n.
Proof.
  intros Hn Hle. rewrite <-(filter_all l) in Hle at 1.
  pose proof (remove_oldest_count (λ _, true) key l n Hn Hle) as H. by rewrite !filter_all in H.
Qed.

(** ** The invariant of the book *)

Section invariant.
Context {C : Crypto} {S : Serde}.

Definition presented_key (p : Presented) : string * string := (pr_node p, cap_id (pr_cap p)).
Definition of_node (node : string) (p : Presented) : bool := bool_decide (pr_node p = node).

Record presented_ok (l : list Presented) : Prop := {
  po_len : zlen l ≤ MAX_PRESENTED;
  po_node : ∀ n, zlen (List.filter (of_node n) l) ≤ MAX_PER_NODE;
  po_unique : NoDup (presented_key <$> l);
  po_parsed : Forall (λ p, parse (wire (pr_cap p)) = Ok (pr_cap p)) l;
}.

Record book_inv (b : Book) : Prop := {
  bi_presented : presented_ok (presented b);
  bi_held : zlen (held b) ≤ MAX_HELD ∧ Forall (λ v, is_ok (parse v) = true) (held b);
  bi_revoked : zlen (revoked b) ≤ MAX_REVOKED ∧ NoDup (rev_id <$> revoked b);
  bi_issued : zlen (issued b) ≤ MAX_ISSUED;
  bi_receive : zsize (receive b) ≤ MAX_THROTTLES;
}.

Lemma presented_ok_sublist l k : sublist l k → presented_ok k → presented_ok l.
Proof.
  intros Hs [Hl Hn Hu Hp]. split.
  - apply sublist_zlen in Hs. lia.
  - intros n. etrans; [|apply (Hn n)]. by apply sublist_zlen, sublist_List_filter.
  - eapply sublist_NoDup; [done|]. by apply fmap_sublist.
  - by eapply sublist_Forall.
Qed.

Lemma book_inv_set_presented b l : book_inv b → presented_ok l → book_inv (set_presented b l).
Proof. intros [] ?. by split. Qed.

Lemma forget_inv b id : book_inv b → book_inv (forget b id).
Proof.
  intros Hb. apply book_inv_set_presented; [done|].
  eapply presented_ok_sublist; [apply List_filter_sublist|apply Hb].
Qed.

Lemma mark_trusted_inv b node id : book_inv b → book_inv (mark_trusted b node id).
Proof.
  intros Hb. apply book_inv_set_presented; [done|]. destruct Hb as [[Hl Hn Hu Hp] _ _ _ _].
  set (f := λ p, _).
  assert (Hf : ∀ p, pr_node (f p) = pr_node p ∧ pr_cap (f p) = pr_cap p)
    by (intros p; unfold f; by case_if).
  split.
  - unfold zlen. by rewrite length_map.
  - intros n. assert (Hfl : List.filter (of_node n) (map f (presented b))
        = map f (List.filter (of_node n) (presented b))).
    { clear -Hf. induction (presented b) as [|p l IH]; simpl; [done|].
      assert (Hp : of_node n (f p) = of_node n p) by (unfold of_node; by rewrite (proj1 (Hf p))).
      rewrite Hp, IH. by destruct (of_node n p). }
    rewrite Hfl. etrans; [|apply (Hn n)]. unfold zlen. by rewrite length_map.
  - change (map f (presented b)) with (f <$> presented b). rewrite <-list_fmap_compose.
    erewrite list_fmap_ext; [exact Hu|]. intros i p _. unfold presented_key, compose.
    by destruct (Hf p) as [-> ->].
  - change (map f (presented b)) with (f <$> presented b). apply Forall_fmap.
    eapply Forall_impl; [exact Hp|]. intros p Hpp. unfold compose. by rewrite (proj2 (Hf p)).
Qed.

Lemma insert_presented_inv b node did cap trusted :
  book_inv b → parse (wire cap) = Ok cap → book_inv (insert_presented b node did cap trusted).
Proof.
  intros Hb Hparse. destruct (bi_presented _ Hb) as [Hl Hn Hu Hp].
  unfold insert_presented. change (λ p, bool_decide (pr_node p = node)) with (of_node node).
  set (l1 := List.filter _ (presented b)).
  assert (Hs1 : sublist l1 (presented b)) by apply List_filter_sublist.
  assert (Hnew : ∀ p, p ∈ l1 → presented_key p ≠ (node, cap_id cap)).
  { intros p [_ Hk]%elem_of_List_filter [= H1 H2]. bools. unfold of_node in Hk.
    rewrite !bool_decide_true in Hk by done. destruct Hk; done. }
  set (l2 := if MAX_PER_NODE <=? _ then _ else _).
  assert (Hs2 : sublist l2 l1)
    by (unfold l2; case_if; [apply remove_oldest_sublist|done]).
  assert (Hn2 : zlen (List.filter (of_node node) l2) < MAX_PER_NODE).
  { assert (Hle : zlen (List.filter (of_node node) l1) ≤ MAX_PER_NODE)
      by (etrans; [by apply sublist_zlen, sublist_List_filter|apply Hn]).
    pose proof (remove_oldest_count (of_node node) pr_at l1 MAX_PER_NODE) as Hr.
    specialize (Hr ltac:(done) Hle). by case_if. }
  set (l3 := if MAX_PRESENTED <=? _ then _ else _).
  assert (Hs3 : sublist l3 l2)
    by (unfold l3; case_if; [apply remove_oldest_sublist|done]).
  assert (Hl3 : zlen l3 < MAX_PRESENTED).
  { apply remove_oldest_len; [done|]. etrans; [|exact Hl]. apply sublist_zlen. by transitivity l1. }
  assert (Hs : sublist l3 (presented b)) by (transitivity l2; [done|by transitivity l1]).
  destruct (presented_ok_sublist _ _ Hs (bi_presented _ Hb)) as [_ Hn3 Hu3 Hp3].
  destruct Hb. split; try done. simpl. split.
  - rewrite zlen_snoc. lia.
  - intros n. rewrite List_filter_app, zlen_app. simpl.
    destruct (of_node n _) eqn:Hof; [|specialize (Hn3 n); unfold zlen in *; simpl; lia].
    unfold of_node in Hof. simpl in Hof. bools. subst n.
    apply (sublist_List_filter (of_node node)), sublist_zlen in Hs3.
    unfold zlen in *. simpl. lia.
  - rewrite fmap_app. apply NoDup_app. split; [done|]. split; [|apply NoDup_singleton].
    intros k (p & -> & Hin)%list_elem_of_fmap Hk%list_elem_of_singleton.
    apply (Hnew p); [|done]. eapply elem_of_sublist; [done|]. by transitivity l2.
  - apply Forall_app. split; [done|]. by repeat constructor.
Qed.

Lemma book_prune_inv b now : book_inv b → book_inv (prune b now).
Proof.
  intros [Hp [Hh Hhp] [Hr Hrn] Hi Hrec]. split; simpl.
  - eapply presented_ok_sublist; [apply List_filter_sublist|done].
  - split; [etrans; [apply sublist_zlen, List_filter_sublist|done]|].
    eapply sublist_Forall; [apply List_filter_sublist|done].
  - split; [etrans; [apply sublist_zlen, List_filter_sublist|done]|].
    eapply sublist_NoDup; [done|]. apply fmap_sublist, List_filter_sublist.
  - etrans; [apply sublist_zlen, List_filter_sublist|done].
  - done.
Qed.

Lemma length_update_first {A} (p : A → bool) f (l : list A) : zlen (update_first p f l) = zlen l.
Proof.
  unfold zlen. induction l as [|x l IH]; simpl; [done|]. destruct (p x); simpl; lia.
Qed.

Lemma fmap_update_first {A B} (g : A → B) (p : A → bool) f (l : list A) :
  (∀ x, g (f x) = g x) → g <$> update_first p f l = g <$> l.
Proof.
  intros Hg. induction l as [|x l IH]; simpl; [done|].
  destruct (p x); simpl; [by rewrite Hg|by f_equal].
Qed.

Lemma revoke_inv b id now : book_inv b → book_inv (revoke b id now).
Proof.
  intros Hb. unfold revoke. case_if; [by apply forget_inv|].
  set (l := if existsb _ _ then _ else _).
  assert (Hl : zlen l ≤ MAX_REVOKED ∧ NoDup (rev_id <$> l)).
  { destruct (bi_revoked _ Hb) as [Hr Hn]. unfold l. destruct (existsb _ _) eqn:He.
    - rewrite length_update_first, fmap_update_first; done.
    - set (k := if MAX_REVOKED <=? _ then _ else _).
      assert (Hk : sublist k (revoked b))
        by (unfold k; case_if; [apply remove_oldest_sublist|done]).
      assert (Hlen : zlen k < MAX_REVOKED) by (by apply remove_oldest_len).
      split; [rewrite zlen_snoc; lia|]. rewrite fmap_app. apply NoDup_app. split_and!.
      + eapply sublist_NoDup; [done|]. by apply fmap_sublist.
      + intros x (r & -> & Hr')%list_elem_of_fmap Hx%list_elem_of_singleton.
        rewrite existsb_elem_false in He. specialize (He r). rewrite Hx in He. simpl in He.
        rewrite bool_decide_true in He by done. discriminate He. by eapply elem_of_sublist.
      + apply NoDup_singleton. }
  assert (Hf : book_inv (forget (set_revoked b l) id))
    by (apply forget_inv; destruct Hb; by split).
  destruct Hf. by split.
Qed.

Lemma take_receive_inv b from now : book_inv b → book_inv (take_receive b from now).1.
Proof.
  intros [Hp Hh Hr Hi Hrec]. unfold take_receive. set (m := filter _ _).
  assert (Hm : zsize m ≤ MAX_THROTTLES).
  { etrans; [|exact Hrec]. unfold zsize, m. apply inj_le, map_subseteq_size, map_filter_subseteq. }
  case_if; split; simpl; try done. bools. etrans; [apply zsize_insert_le|]. lia.
Qed.

Lemma import_cap_spec s w identity now s' r :
  import_cap s w identity now = (s', r) →
  policy s' = policy s ∧ tokens s' = tokens s ∧ usage s' = usage s ∧
  issued (caps s') = issued (caps s) ∧ revoked (caps s') = revoked (caps s) ∧
  presented (caps s') = presented (caps s) ∧ receive (caps s') = receive (caps s) ∧
  (held (caps s') = held (caps s) ∨
   held (caps s') = held (caps s) ++ [w] ∧ r = Ok w ∧ zlen (held (caps s)) < MAX_HELD ∧
   (∀ v, v ∈ held (caps s) → value_eqb (index "id" v) (index "id" w) = false) ∧
   ∃ cap ctx, parse w = Ok cap ∧ holder ctx = Wire.did identity ∧ now_ms ctx = millis now ∧
     granted ctx (Wire.did identity) cap).
Proof.
  unfold import_cap. intros H.
  destruct (parse w) as [cap|e] eqn:Hp; [|simplify_eq; by auto 10].
  set (ctx := {| now_ms := _ |}) in H.
  destruct (verify w ctx) as [cap'|e] eqn:Hv; [|simplify_eq; by auto 10].
  destruct (List.find _ _) as [old|] eqn:Hf; [destruct (value_eqb old w); simplify_eq; by auto 10|].
  destruct (Z.ltb_spec (zlen (held (caps s))) MAX_HELD); simplify_eq; [|by auto 10].
  simpl. do 7 (split; [done|]). right. apply verify_spec in Hv as [Hp' Hg].
  rewrite Hp in Hp'. injection Hp' as <-. split_and!; [done..| |].
  - intros v Hin. by eapply find_none_elem in Hf.
  - by exists cap, ctx.
Qed.

Lemma import_inv s w identity now :
  book_inv (caps s) → book_inv (caps (import_cap s w identity now).1).
Proof.
  intros [Hp [Hh Hhp] Hr Hi Hrec]. destruct (import_cap _ _ _ _) as [s' r] eqn:H.
  apply import_cap_spec in H as (_ & _ & _ & Hi' & Hr' & Hp' & Hrec' & Hheld). simpl.
  split; rewrite ?Hi', ?Hr', ?Hp', ?Hrec'; try done.
  destruct Hheld as [->|(-> & _ & Hlt & _ & cap & ? & Hpc & _)]; [done|].
  split; [rewrite zlen_snoc; lia|]. apply Forall_app. split; [done|].
  constructor; [by rewrite Hpc|constructor].
Qed.
End invariant.

(** Inverts a chain of [?]s that ended in [Ok], keeping the first check. *)
Ltac last_step H :=
  repeat (let x := fresh "x" in apply rbind_Ok in H as (x & ? & H)).

(** ** Every operation of the store *)

Section events.
Context {C : Crypto} {S : Serde} {K : Calendar} {D : Decoding}.

Inductive event :=
| EvMessage (raw : bool) (from : string) (holder : option string) (data : string)
    (identity : Identity) (now mono : Z)
| EvTick (now : Z)
| EvCommand (cmd : cap_cmd) (args : json) (identity : Identity) (nonce : string) (saved : bool) (now : Z)
| EvPeer (service : Service) (action : Action) (p : Principal) (resource owner : option string) (now : Z)
| EvApi (authorization model : option string) (now : Z)
| EvModels (authorization : option string) (now : Z)
| EvRecord (a : Authorized) (requests chars now : Z).

Definition event_step (s : Store) (e : event) : Store :=
  match e with
  | EvMessage raw from holder data identity now mono =>
      (on_room_event s raw from holder data identity now mono).1
  | EvTick now => set_caps s (prune (caps s) (millis now))
  | EvCommand cmd args identity nonce saved now => (cap_command s cmd args identity nonce saved now).1
  | EvPeer service action p resource owner now =>
      (authorize_peer_owned s service action p resource owner now).1
  | EvApi authorization model now => (authorize_api s authorization model now).1
  | EvModels authorization now => (model_filter s authorization now).1
  | EvRecord a requests chars now => record_authorized s a requests chars now
  end.

Definition store_inv (s : Store) : Prop := book_inv (caps s) ∧ book_bounded (usage s).

Lemma receive_present_caps s from holder msg now :
  let s' := receive_present s from holder msg now in
  usage s' = usage s ∧ policy s' = policy s ∧
  (caps s' = caps s ∨ ∃ h cap t, holder = Some h ∧ parse (index "cap" msg) = Ok cap ∧
     caps s' = insert_presented (caps s) from h cap t).
Proof.
  unfold receive_present. destruct holder as [h|]; [|by auto].
  destruct (parse _) as [cap|] eqn:Hp; [|by auto]. cbv zeta. case_if; [by auto|]. simpl.
  split_and!; [done..|]. right. eauto 10.
Qed.

Lemma receive_deliver_cases s holder msg identity now s' r :
  receive_deliver s holder msg identity now = (s', r) →
  s' = s ∨ ∃ issuer, get_str "fromId" (index "cap" msg) = Some issuer ∧ holder = Some issuer ∧
    held_from (caps s) issuer (index "id" (index "cap" msg)) < MAX_DELIVERED_PER_ISSUER ∧
    s' = (import_cap s (index "cap" msg) identity now).1.
Proof.
  unfold receive_deliver. intros H. destruct (get_str "fromId" _) as [issuer|]; [|simplify_eq; by left].
  case_bool_decide; simpl in H; [|simplify_eq; by left].
  destruct (Z.leb_spec MAX_DELIVERED_PER_ISSUER
    (held_from (caps s) issuer (index "id" (index "cap" msg)))); [simplify_eq; by left|].
  destruct (import_cap _ _ _ _) as [s1 r1] eqn:Hi. injection H as <- <-. right.
  by exists issuer.
Qed.

Lemma receive_revoke_caps s from holder msg identity now :
  let s' := receive_revoke s from holder msg identity now in
  usage s' = usage s ∧ policy s' = policy s ∧
  (caps s' = caps s ∨ ∃ did ids, revocation_ids from holder msg now = Some (did, ids) ∧
     caps s' = foldl (λ b id, revoke b id (millis now)) (caps s) ids).
Proof.
  unfold receive_revoke. destruct (revocation_ids _ _ _ _) as [[did ids]|]; [|by auto].
  cbv zeta. case_if; [by auto|]. simpl. split_and!; [done..|]. right. eauto.
Qed.

Lemma foldl_inv {A B} (P : A → Prop) (f : A → B → A) l a :
  (∀ a b, P a → P (f a b)) → P a → P (foldl f a l).
Proof. intros Hf. revert a. induction l as [|b l IH]; simpl; auto. Qed.

Lemma receive_cap_inv s from holder msg identity now :
  store_inv s → store_inv (receive_cap s from holder msg identity now).1.
Proof.
  intros [Hb Hu]. unfold receive_cap. destruct (get_str "t" msg); [|by split].
  case_if; [|case_if; [|case_if; [|by split]]]; simpl.
  - destruct (receive_present_caps s from holder msg now)
      as (Hu' & _ & [Hc|(h & cap & t & _ & Hp & Hc)]); split; rewrite ?Hu', ?Hc; try done.
    pose proof (parse_spec _ _ Hp) as (Hw & _). apply insert_presented_inv; [done|]. by rewrite Hw.
  - destruct (receive_deliver _ _ _ _ _) as [s' r] eqn:H. simpl.
    apply receive_deliver_cases in H as [->|(issuer & _ & _ & _ & ->)]; [by split|].
    split; [by apply import_inv|]. destruct (import_cap _ _ _ _) as [s1 r1] eqn:Hi.
    apply import_cap_spec in Hi as (_ & _ & Hus & _). simpl. by rewrite Hus.
  - destruct (receive_revoke_caps s from holder msg identity now)
      as (Hu' & _ & [Hc|(did & ids & _ & Hc)]); split; rewrite ?Hu', ?Hc; try done.
    apply foldl_inv; [|done]. intros. by apply revoke_inv.
Qed.

Lemma cap_issue_Ok s args identity nonce now s' v :
  cap_issue s args identity nonce now = Ok (s', v) →
  zlen (issued (caps s)) < MAX_ISSUED ∧
  ∃ i, s' = set_caps s (set_issued (caps s) (issued (caps s) ++ [i])).
Proof.
  unfold cap_issue. intros H. apply rbind_Ok in H as ([] & Hl%ensure_Ok & H). bools.
  split; [done|]. last_step H. simplify_eq. eauto.
Qed.

Lemma cap_revoke_Ok s args identity now s' v :
  cap_revoke s args identity now = Ok (s', v) →
  ∃ l id, zlen l = zlen (issued (caps s)) ∧
    s' = set_caps s (revoke (set_issued (caps s) l) id (millis now)).
Proof.
  unfold cap_revoke. intros H. apply rbind_Ok in H as (id & _ & H).
  apply rbind_Ok in H as ([] & _ & H). apply rbind_Ok in H as (local & _ & H).
  apply rbind_Ok in H as (s1 & Hs1 & H). simplify_eq. case_if.
  - simplify_eq. exists (issued (caps s1)), id. split; [done|]. by destruct s1 as [?????[] ?].
  - apply rbind_Ok in Hs1 as ([] & _ & Hs1). simplify_eq.
    eexists _, id. split; [|reflexivity]. apply length_update_first.
Qed.

Lemma cap_command_inv s cmd args identity nonce saved now :
  store_inv s → store_inv (cap_command s cmd args identity nonce saved now).1.
Proof.
  intros [Hb Hu]. unfold cap_command. set (next := {| policy := _ |}).
  assert (Hn : store_inv next) by (split; [by apply book_prune_inv|done]).
  destruct (rbind _ _) as [[s' v]|e] eqn:H; [|by split].
  apply rbind_Ok in H as ([] & _ & H). apply rbind_Ok in H as ([s1 v1] & H1 & H).
  apply rbind_Ok in H as ([] & _ & H). simplify_eq. simpl.
  enough (Hs1 : store_inv s') by (destruct Hs1 as [[] ?]; by split).
  clearbody next. clear Hb Hu. destruct Hn as [Hb Hu]. destruct cmd.
  - apply cap_issue_Ok in H1 as (Hl & i & ->). split; [|done].
    destruct Hb. split; try done. simpl. rewrite zlen_snoc. lia.
  - apply rbind_Ok in H1 as (w & _ & H1).
    pose proof (import_inv next w identity now Hb) as Hi.
    destruct (import_cap _ _ _ _) as [s2 [v2|e]] eqn:Him; simplify_eq.
    apply import_cap_spec in Him as (_ & _ & Hus & _). split; [done|]. by rewrite Hus.
  - apply rbind_Ok in H1 as (id & _ & H1). injection H1 as <- _. split; [|done].
    destruct Hb as [? [Hh Hhp] ???]. split; try done. simpl.
    split; [etrans; [apply sublist_zlen, List_filter_sublist|done]|].
    eapply sublist_Forall; [apply List_filter_sublist|done].
  - apply cap_revoke_Ok in H1 as (l & id & Hl & ->). split; [|done].
    apply revoke_inv. destruct Hb. split; try done. simpl. by rewrite Hl.
Qed.

Lemma check_bounded b sv req l now :
  book_bounded b → book_bounded (check b sv (account b sv req) l now).1.
Proof. apply (usage_step_bounded sv b (UCheck req l now)). Qed.

Lemma charge_peer_inv s service p cap now :
  store_inv s → store_inv (charge_peer s service p cap now).1.
Proof.
  intros [Hb Hu]. unfold charge_peer. case_if; [by split|].
  set (acc := account _ _ _). set (lim := if bool_decide (acc = "*") then _ else _).
  assert (Hcap : ∀ u id l, book_bounded u →
    store_inv (set_usage s (check u service (account u service id) l now).1 true))
    by (intros u id l Hu'; split; [done|]; by apply check_bounded).
  set (uc := if bool_decide (service = Ai) then _ else _).
  assert (Huc : book_bounded uc.1) by (unfold uc; case_if; [by apply check_bounded|done]).
  destruct uc as [u [[]|e]]; cbn [fst] in Huc; [|by split].
  destruct cap as [[? id ???????? [l|] ?]|]; [|by split..].
  specialize (Hcap u ("cap:" +:+ id) l Huc). by destruct (check u _ _ _ _).
Qed.

Lemma authorize_peer_inv s service action p resource owner now :
  store_inv s → store_inv (authorize_peer_owned s service action p resource owner now).1.
Proof.
  intros [Hb Hu]. unfold authorize_peer_owned. case_if; [by split|]. case_if; [by split|].
  apply charge_peer_inv. destruct (if explicitly_allowed _ _ _ then _ else _); [|by split].
  split; [by apply mark_trusted_inv|done].
Qed.

Lemma touch_token_inv s id now : store_inv s → store_inv (touch_token s id now).
Proof. intros [Hb Hu]. unfold touch_token. case_if; by split. Qed.

Lemma authorize_api_inv s auth model now :
  store_inv s → store_inv (authorize_api s auth model now).1.
Proof.
  intros [Hb Hu]. unfold authorize_api. destruct (lookup _ _ _ _) as [[t|]|e]; [|by split..].
  case_if; [by split|]. destruct (check _ _ _ _ _) as [u c] eqn:Hc.
  apply (f_equal fst) in Hc. cbn [fst] in Hc.
  assert (H1 : store_inv (set_usage s u true))
    by (split; [done|]; cbn [set_usage usage]; rewrite <-Hc; by apply check_bounded).
  destruct c; [by apply touch_token_inv|done].
Qed.

Lemma record_fold_bounded sv (f : UsageBook → string * Limits → UsageBook) l u n c now :
  (∀ u al, f u al = record u sv al.1 al.2 n c now) →
  book_bounded u → book_bounded (foldl f u l).
Proof.
  intros Hf. apply foldl_inv. intros u' al Hu'. rewrite Hf.
  apply (usage_step_bounded sv u' (URecord al.1 al.2 n c now)), Hu'.
Qed.

Lemma record_authorized_inv s a n c now : store_inv s → store_inv (record_authorized s a n c now).
Proof.
  intros [Hb Hu]. split; [done|]. simpl.
  eapply record_fold_bounded; [done|].
  apply foldl_inv; [|done]. intros u acc Hu'.
  apply (usage_step_bounded (au_service a) u (URecord acc (au_limits a) n c now)), Hu'.
Qed.

Lemma on_room_event_cases s raw from holder data identity now mono :
  let s' := (on_room_event s raw from holder data identity now mono).1 in
  s' = s ∨
  let s1 := set_caps s (take_receive (caps s) from mono).1 in
  s' = s1 ∨ ∃ msg, from_slice data = Some msg ∧ s' = (receive_cap s1 from holder msg identity now).1.
Proof.
  unfold on_room_event. cbv zeta. case_if; [by left|]. right.
  destruct (take_receive _ _ _) as [b []]; simpl; [|by left].
  destruct (from_slice data) as [msg|]; [|by left]. case_if; [by left|]. right. eauto.
Qed.

Lemma event_step_inv s e : store_inv s → store_inv (event_step s e).
Proof.
  intros Hs. destruct e as [raw from holder data identity now mono|now|cmd args identity nonce saved now
    |service action p resource owner now|auth model now|auth now|a n c now]; simpl.
  - destruct (on_room_event_cases s raw from holder data identity now mono) as [->|H]; [done|].
    assert (H1 : store_inv (set_caps s (take_receive (caps s) from mono).1))
      by (destruct Hs; split; [by apply take_receive_inv|done]).
    destruct H as [->|(msg & _ & ->)]; [done|]. by apply receive_cap_inv.
  - destruct Hs. split; [by apply book_prune_inv|done].
  - by apply cap_command_inv.
  - by apply authorize_peer_inv.
  - by apply authorize_api_inv.
  - unfold model_filter. destruct (lookup _ _ _ _) as [[t|]|e]; simpl; try done.
    by apply touch_token_inv.
  - by apply record_authorized_inv.
Qed.
End events.

(** The store of a new node. *)
Definition initial_store (p : Policy) (tokens : list ApiToken) (local : option string) : Store :=
  {| policy := p; tokens := tokens; usage := {| u_ai := ∅; u_escrow := ∅ |}; usage_dirty := false;
     tokens_dirty := false; caps := empty_book; store_did := local |}.

Lemma initial_store_inv {C : Crypto} {S : Serde} p tokens local :
  store_inv (initial_store p tokens local).
Proof.
  split; [|by split].
  split; simpl; try done; try (split; (done || constructor)).
Qed.

(** Whatever arrives - messages from any peer with any content, commands,
    requests, charges, ticks of the clock, in any order and at any times - the
    tables of the authorization store stay bounded: at most 1024 presented
    capabilities, 8 per node, each stored once per node and exactly as its wire
    parses; at most 256 held, all well-formed; at most 4096 revocations, one
    per id; at most 1024 issued; at most 1024 throttled senders; at most 4096
    usage accounts per service beside the shared one. *)
Theorem store_bounded {C : Crypto} {S : Serde} {K : Calendar} {D : Decoding} p tokens local events :
  store_inv (foldl event_step (initial_store p tokens local) events).
Proof. apply foldl_inv; [intros; by apply event_step_inv|apply initial_store_inv]. Qed.

(** ** Who is authorized *)

Section decision.
Context {C : Crypto} {S : Serde} {K : Calendar}.

(** The context in which [verify_cap] checks a capability. *)
Definition request_context (s : Store) (holder : string) (service : Service) (action : Action)
    (resource : string) (owner : option string) (now : Z) : Context_ := {|
  now_ms := millis now; holder := holder; local_did := default "" (store_did s);
  c_service := service; c_action := action; c_resource := resource;
  trusted_root := trusts s service resource owner;
  AuthzCap.is_revoked := λ id, is_revoked (caps s) id (millis now) |}.

(** The peer has presented, from this node and under its proven DID, a
    capability that grants the request. *)
Definition chain_grants (s : Store) (service : Service) (action : Action) (p : Principal)
    (resource owner : option string) (now : Z) : Prop :=
  ∃ d pr cap, did p = Some d ∧ pr ∈ presented (caps s) ∧ pr_node pr = node p ∧ pr_did pr = d ∧
    parse (wire (pr_cap pr)) = Ok cap ∧
    granted (request_context s d service action (default "*" resource) owner now) d cap.

Lemma find_ok_Some {A B E} (g : A → result B E) l b :
  find_ok g l = Some b → ∃ x, x ∈ l ∧ g x = Ok b.
Proof.
  induction l as [|x l IH]; simpl; [done|]. destruct (g x) eqn:Hg.
  - intros [= <-]. exists x. split; [left|done].
  - intros (y & Hy & ?)%IH. exists y. split; [by right|done].
Qed.

Lemma find_ok_None {A B E} (g : A → result B E) l x b :
  find_ok g l = None → x ∈ l → g x ≠ Ok b.
Proof.
  induction l as [|y l IH]; simpl; [set_solver|]. destruct (g y) eqn:Hg; [done|].
  intros H [->|Hx]%elem_of_cons; [congruence|auto].
Qed.

Lemma presented_cap_spec s service action p resource owner now :
  is_some (presented_cap s service action p resource owner now) = true ↔
  chain_grants s service action p resource owner now.
Proof.
  unfold presented_cap, chain_grants. destruct (did p) as [d|]; [|naive_solver].
  rewrite is_some_spec. split.
  - intros (cap & (pr & Hin & Hv)%find_ok_Some). unfold presented_by in Hin.
    apply elem_of_List_filter in Hin as [Hin Hb]. bools.
    apply verify_spec in Hv as [Hp Hg]. exists d, pr, cap. done.
  - intros (d' & pr & cap & [= <-] & Hin & Hn & Hd & Hp & Hg).
    destruct (find_ok _ _) eqn:Hf; [eauto|]. exfalso.
    eapply (find_ok_None _ _ pr cap) in Hf.
    + apply Hf. apply verify_spec. done.
    + unfold presented_by. apply elem_of_List_filter. split; [done|].
      by rewrite !bool_decide_true.
Qed.

Lemma check_result b sv a l now :
  (check b sv a l now).2 = Ok tt ∨ (check b sv a l now).2 = Err usage_limit.
Proof. unfold check. cbn [snd]. case_if; auto. Qed.

(** Charging refuses only for a usage limit, and changes only the usage. *)
Lemma charge_peer_spec s service p cap now :
  let r := charge_peer s service p cap now in
  policy r.1 = policy s ∧ tokens r.1 = tokens s ∧ caps r.1 = caps s ∧
  (r.2 = Err usage_limit ∨ ∃ a, r.2 = Ok a ∧ au_principal a = Some p ∧ au_service a = service).
Proof.
  cbv zeta. unfold charge_peer. case_if; [split_and!; [done..|right; eauto]|].
  set (acc := account _ _ _). set (lim := if bool_decide (acc = "*") then _ else _).
  set (uc := if bool_decide (service = Ai) then _ else _).
  assert (Huc : uc.2 = Ok tt ∨ uc.2 = Err usage_limit)
    by (unfold uc; case_if; [apply check_result|by left]).
  destruct uc as [u c]. cbn [snd] in Huc. destruct Huc as [->| ->]; [|split_and!; by try left].
  destruct cap as [[? id ???????? [l|] ?]|]; [|split_and!; [done..|right; eauto]..].
  pose proof (check_result u service (account u service ("cap:" +:+ id)) l now) as Hr.
  destruct (check u _ _ _ _) as [u' c']. cbn [snd] in Hr.
  destruct Hr as [->| ->]; split_and!; try done; [right; eauto|by left].
Qed.

Lemma authorize_spec s service action p resource owner now :
  let sp := policy_service (policy s) service in
  let r := authorize_peer_owned s service action p resource owner now in
  if denied sp p now
     || (negb (explicitly_allowed sp p now) && negb (bool_decide (mode sp = Open_))
         && negb (is_some (presented_cap s service action p resource owner now)))
  then r = (s, Err forbidden)
  else policy r.1 = policy s ∧ tokens r.1 = tokens s ∧
    (r.2 = Err usage_limit ∨ ∃ a, r.2 = Ok a ∧ au_principal a = Some p ∧ au_service a = service).
Proof.
  cbv zeta. unfold authorize_peer_owned. destruct (denied _ _ _); [done|]. simpl orb.
  destruct (explicitly_allowed _ _ _); cbn [negb andb is_some].
  { destruct (charge_peer_spec s service p None now) as (? & ? & ? & ?). done. }
  rewrite (andb_comm (negb (is_some _))). case_if; [done|].
  set (s1 := match presented_cap _ _ _ _ _ _ _ with Some _ => _ | None => _ end).
  assert (Hs1 : policy s1 = policy s ∧ tokens s1 = tokens s) by (unfold s1; by case_match).
  destruct (charge_peer_spec s1 service p (presented_cap s service action p resource owner now) now)
    as (-> & -> & _ & ?). by destruct Hs1 as [-> ->].
Qed.
End decision.

(** The decision on a peer's request. It is forbidden exactly when a deny
    rule in force matches the node or its DID, or the service is on an
    allowlist and neither a rule nor a chain of capabilities, presented from
    this node under its proven DID and reaching a trusted root, allows it. Past
    that only an exhausted usage limit refuses. In particular a peer without a
    proven DID is authorized only in open mode. Policy and tokens are never
    changed by a request. *)
Theorem authorize_decision {C : Crypto} {S : Serde} {K : Calendar}
    s service action p resource owner now :
  let sp := policy_service (policy s) service in
  let r := authorize_peer_owned s service action p resource owner now in
  (r.2 = Err forbidden ↔
     denied sp p now = true ∨
     (mode sp = Allowlist ∧ explicitly_allowed sp p now = false ∧
      ¬ chain_grants s service action p resource owner now)) ∧
  (∀ e, r.2 = Err e → e = forbidden ∨ e = usage_limit) ∧
  (∀ a, r.2 = Ok a → au_principal a = Some p ∧ au_service a = service ∧
     (did p = None → mode sp = Open_)) ∧
  policy r.1 = policy s ∧ tokens r.1 = tokens s.
Proof.
  cbv zeta. pose proof (authorize_spec s service action p resource owner now) as H. cbv zeta in H.
  rewrite <-presented_cap_spec.
  assert (Hmode : bool_decide (mode (policy_service (policy s) service) = Open_) = false ↔
    mode (policy_service (policy s) service) = Allowlist)
    by (rewrite bool_decide_eq_false; by destruct (mode _)).
  destruct (_ || _) eqn:Hc in H.
  - rewrite H. simpl. assert (Hf : denied (policy_service (policy s) service) p now = true ∨
      mode (policy_service (policy s) service) = Allowlist ∧
      explicitly_allowed (policy_service (policy s) service) p now = false ∧
      is_some (presented_cap s service action p resource owner now) ≠ true).
    { bools. destruct Hc as [Hc|Hc]; [by left|]. right. bools. rewrite <-Hmode.
      split_and!; [by apply bool_decide_eq_false|done|congruence]. }
    split; [by split|]. split; [intros e [= <-]; by left|]. by split.
  - destruct H as (-> & -> & H). bools.
    assert (Hadm : explicitly_allowed (policy_service (policy s) service) p now = true ∨
      bool_decide (mode (policy_service (policy s) service) = Open_) = true ∨
      is_some (presented_cap s service action p resource owner now) = true).
    { destruct (explicitly_allowed _ _ _), (bool_decide _), (is_some _); auto. naive_solver. }
    split_and!; try done.
    + split.
      * intros Hf. destruct H as [H|(? & H & _)]; [|congruence]. rewrite Hf in H. discriminate H.
      * intros [?|(Hm & He & Hn)]; [congruence|]. rewrite <-Hmode in Hm. naive_solver congruence.
    + intros e He. destruct H as [H|(? & H & _)]; [|congruence]. right. congruence.
    + intros a Ha. destruct H as [H|(a' & H & ? & ?)]; [congruence|].
      rewrite Ha in H. injection H as <-. split_and!; try done.
      intros Hd. unfold explicitly_allowed, presented_cap in Hadm. rewrite Hd in Hadm. simpl in Hadm.
      destruct Hadm as [?|[?|?]]; [done| |done]. by bools.
Qed.

(** ** Deliveries *)

Definition count_from (issuer : string) (l : list json) : Z :=
  zlen (List.filter (λ v, bool_decide (get_str "fromId" v = Some issuer)) l).

Lemma held_from_all b issuer id :
  (∀ v, v ∈ held b → value_eqb (index "id" v) id = false) →
  held_from b issuer id = count_from issuer (held b).
Proof.
  unfold held_from, count_from. intros H. f_equal. induction (held b) as [|v l IH]; [done|].
  simpl. rewrite H by left. rewrite andb_true_r, IH; [done|]. intros w Hw. apply H. by right.
Qed.

Lemma revokes_held {C : Crypto} {S : Serde} ids b now :
  held (foldl (λ b id, revoke b id now) b ids) = held b.
Proof.
  revert b. induction ids as [|id ids IH]; intros b; simpl; [done|]. rewrite IH.
  unfold revoke. by case_if.
Qed.

(** A message adds at most one held capability, and only when it is the
    proven issuer's own delivery of a capability that a whole chain of
    authority grants to this node; after it the issuer's deliveries number at
    most 16 and all held capabilities at most 256. Nothing held is ever
    replaced or dropped by a message. *)
Theorem deliveries_bounded {C : Crypto} {S : Serde} {K : Calendar} s from holder msg identity now :
  let s' := (receive_cap s from holder msg identity now).1 in
  held (caps s') = held (caps s) ∨
  ∃ issuer w cap ctx,
    holder = Some issuer ∧ get_str "fromId" w = Some issuer ∧
    held (caps s') = held (caps s) ++ [w] ∧
    (∀ v, v ∈ held (caps s) → value_eqb (index "id" v) (index "id" w) = false) ∧
    count_from issuer (held (caps s')) ≤ MAX_DELIVERED_PER_ISSUER ∧
    zlen (held (caps s')) ≤ MAX_HELD ∧
    parse w = Ok cap ∧ now_ms ctx = millis now ∧ granted ctx (Wire.did identity) cap.
Proof.
  cbv zeta. unfold receive_cap. destruct (get_str "t" msg); [|by left].
  case_if; [|case_if; [|case_if; [|by left]]]; simpl.
  - left. destruct (receive_present_caps s from holder msg now)
      as (_ & _ & [->|(h & cap & t & _ & _ & ->)]); done.
  - destruct (receive_deliver _ _ _ _ _) as [s' r] eqn:H. simpl.
    apply receive_deliver_cases in H as [->|(issuer & Hi & -> & Hlt & ->)]; [by left|].
    destruct (import_cap _ _ _ _) as [s1 r1] eqn:Him.
    apply import_cap_spec in Him as (_ & _ & _ & _ & _ & _ & _ & [?|Him]); [by left|right].
    destruct Him as (Hh & _ & Hroom & Hnew & cap & ctx & Hp & _ & Hnow & Hg). simpl.
    exists issuer, (index "cap" msg), cap, ctx. rewrite held_from_all in Hlt by done.
    rewrite Hh. split_and!; try done.
    + unfold count_from in *. rewrite List_filter_app, zlen_app. simpl.
      rewrite bool_decide_true by done. unfold zlen in *. simpl. lia.
    + rewrite zlen_snoc. lia.
  - left. destruct (receive_revoke_caps s from holder msg identity now)
      as (_ & _ & [->|(did & ids & _ & ->)]); [done|]. apply revokes_held.
Qed.

(** ** Revocations *)

Section revocation.
Context {C : Crypto} {S : Serde} {K : Calendar} {D : Decoding}.

(** How many revocations an event may record. *)
Definition revocations (e : event) : Z :=
  match e with
  | EvMessage _ _ _ data _ _ _ =>
      match from_slice data with
      | Some msg => zlen (default [] (as_array (index "ids" msg)))
      | None => 0
      end
  | EvCommand RevokeCmd _ _ _ _ _ => 1
  | _ => 0
  end.

Definition event_now (e : event) : option Z :=
  match e with
  | EvMessage _ _ _ _ _ now _ | EvTick now | EvCommand _ _ _ _ _ now => Some now
  | _ => None
  end.

(** The book refuses the id up to [until]. *)
Definition refuses (b : Book) (id : string) (until : Z) : Prop :=
  ∃ r, r ∈ revoked b ∧ rev_id r = id ∧ until ≤ rev_exp r.

Lemma refuses_prune b id until now :
  now < until → refuses b id until → refuses (prune b now) id until.
Proof.
  intros Hnow (r & Hr & Hid & He). exists r. split; [|done]. simpl.
  apply elem_of_List_filter. split; [done|]. apply Z.ltb_lt. lia.
Qed.

Lemma update_first_elem {A} (p : A → bool) f l x :
  x ∈ l → x ∈ update_first p f l ∨ (p x = true ∧ f x ∈ update_first p f l).
Proof.
  induction l as [|y l IH]; simpl; [set_solver|]. intros [->|Hx]%elem_of_cons.
  - destruct (p y); [right; split; [done|left]|left; left].
  - destruct (p y); [left; by right|]. destruct (IH Hx) as [?|[? ?]]; [left; by right|right].
    split; [done|by right].
Qed.

Lemma refuses_revoke b id until id' now :
  zlen (revoked b) < MAX_REVOKED → refuses b id until → refuses (revoke b id' now) id until.
Proof.
  intros Hroom (r & Hr & Hid & He). unfold revoke. case_if; [by exists r|].
  unfold refuses. simpl revoked. case_if.
  - destruct (update_first_elem (λ r, bool_decide (rev_id r = id'))
      (λ r, {| rev_id := rev_id r; rev_exp := Z.max (rev_exp r) (default (i64_saturating_add now
        MAX_LIFETIME_MS) (max_of (known_expiries b id'))); rev_at := rev_at r |}) _ _ Hr)
      as [?|[_ ?]]; [by exists r|]. eexists. split; [done|]. simpl. split; [done|lia].
  - exists r. split; [|done]. rewrite (proj2 (Z.leb_gt _ _)) by lia.
    apply elem_of_app. by left.
Qed.

Lemma revoke_len b id now : zlen (revoked (revoke b id now)) ≤ zlen (revoked b) + 1.
Proof.
  unfold revoke. case_if; [simpl; lia|]. simpl. case_if; [rewrite length_update_first; lia|].
  rewrite zlen_snoc. case_if; [|lia].
  pose proof (sublist_zlen _ _ (remove_oldest_sublist (λ _, true) rev_at (revoked b))). lia.
Qed.

Lemma refuses_revokes ids b id until now :
  zlen (revoked b) + zlen ids ≤ MAX_REVOKED → refuses b id until →
  let b' := foldl (λ b id, revoke b id now) b ids in
  refuses b' id until ∧ zlen (revoked b') ≤ zlen (revoked b) + zlen ids.
Proof.
  cbv zeta. revert b. induction ids as [|i ids IH]; intros b Hroom Hr; simpl.
  { split; [done|]. unfold zlen. simpl. lia. }
  rewrite zlen_cons in *. pose proof (revoke_len b i now). pose proof (zlen_nonneg ids).
  destruct (IH (revoke b i now)); [lia|apply refuses_revoke; [lia|done]|]. split; [done|lia].
Qed.

Lemma zlen_omap {A B} (f : A → option B) l : zlen (omap f l) ≤ zlen l.
Proof.
  unfold zlen. apply inj_le. induction l as [|x l IH]; [done|].
  change (omap f (x :: l)) with (match f x with Some y => y :: omap f l | None => omap f l end).
  destruct (f x); cbn [length]; lia.
Qed.

Lemma revocation_ids_len from holder msg now did ids :
  revocation_ids from holder msg now = Some (did, ids) →
  zlen ids ≤ zlen (default [] (as_array (index "ids" msg))).
Proof.
  unfold revocation_ids. intros H.
  destruct (get_str "fromId" msg) as [d|]; [|done]. cbn [mbind option_bind] in H.
  case_if; [done|]. destruct (as_i64 _) as [ts|]; [|done]. cbn [mbind option_bind] in H.
  case_if; [done|]. destruct (as_array _) as [l|]; [|done]. cbn [mbind option_bind] in H.
  case_if; [done|]. case_if; [done|]. injection H as <- <-. simpl.
  apply zlen_omap.
Qed.

(** An event keeps refusing what the book refuses. *)
Definition keeps_refusing (s s' : Store) (id : string) (until n : Z) : Prop :=
  refuses (caps s') id until ∧ zlen (revoked (caps s')) ≤ zlen (revoked (caps s)) + n.

Lemma keeps_same s s' id until n :
  0 ≤ n → refuses (caps s) id until → revoked (caps s') = revoked (caps s) →
  keeps_refusing s s' id until n.
Proof. intros Hn Hr He. unfold keeps_refusing, refuses. rewrite He. split; [done|lia]. Qed.

Lemma receive_cap_refuses s from holder msg identity now id until :
  zlen (revoked (caps s)) + zlen (default [] (as_array (index "ids" msg))) ≤ MAX_REVOKED →
  refuses (caps s) id until →
  keeps_refusing s (receive_cap s from holder msg identity now).1 id until
    (zlen (default [] (as_array (index "ids" msg)))).
Proof.
  intros Hroom Hr. pose proof (zlen_nonneg (default [] (as_array (index "ids" msg)))) as H0.
  unfold receive_cap. destruct (get_str "t" msg); [|by apply keeps_same].
  case_if; [|case_if; [|case_if; [|by apply keeps_same]]]; simpl.
  - apply keeps_same; [done..|].
    by destruct (receive_present_caps s from holder msg now)
      as (_ & _ & [->|(h & cap & t & _ & _ & ->)]).
  - apply keeps_same; [done..|]. destruct (receive_deliver _ _ _ _ _) as [s' r] eqn:H. simpl.
    apply receive_deliver_cases in H as [->|(issuer & _ & _ & _ & ->)]; [done|].
    destruct (import_cap _ _ _ _) as [s1 r1] eqn:Him.
    by apply import_cap_spec in Him as (_ & _ & _ & _ & ? & _).
  - destruct (receive_revoke_caps s from holder msg identity now)
      as (_ & _ & [Hc|(did & ids & Hids & Hc)]); [by apply keeps_same; rewrite ?Hc|].
    apply revocation_ids_len in Hids. unfold keeps_refusing. rewrite Hc.
    destruct (refuses_revokes ids (caps s) id until (millis now)) as [? ?]; [lia|done|].
    split; [done|lia].
Qed.

Lemma cap_command_refuses s cmd args identity nonce saved now id until :
  zlen (revoked (caps s)) + revocations (EvCommand cmd args identity nonce saved now) ≤ MAX_REVOKED →
  millis now < until → refuses (caps s) id until →
  keeps_refusing s (cap_command s cmd args identity nonce saved now).1 id until
    (revocations (EvCommand cmd args identity nonce saved now)).
Proof.
  intros Hroom Hnow Hr. unfold cap_command. set (next := {| policy := _ |}).
  assert (Hn : refuses (caps next) id until) by (by apply refuses_prune).
  assert (Hlen : zlen (revoked (caps next)) ≤ zlen (revoked (caps s)))
    by (apply sublist_zlen, List_filter_sublist).
  assert (H0 : 0 ≤ revocations (EvCommand cmd args identity nonce saved now)) by (by destruct cmd).
  clearbody next. destruct (rbind _ _) as [[s' v]|e] eqn:H; [|by apply keeps_same].
  apply rbind_Ok in H as ([] & _ & H). apply rbind_Ok in H as ([s1 v1] & H1 & H).
  apply rbind_Ok in H as ([] & _ & H). injection H as <- <-. simpl.
  enough (Hs1 : keeps_refusing next s1 id until (revocations (EvCommand cmd args identity nonce saved now)))
    by (destruct Hs1 as [[r ?] ?]; split; [by exists r|simpl in *; lia]).
  destruct cmd.
  - apply cap_issue_Ok in H1 as (_ & i & ->). by apply keeps_same.
  - apply rbind_Ok in H1 as (w & _ & H1).
    destruct (import_cap _ _ _ _) as [s2 [v2|e]] eqn:Him; [|done]. injection H1 as <- <-.
    apply import_cap_spec in Him as (_ & _ & _ & _ & ? & _). by apply keeps_same.
  - apply rbind_Ok in H1 as (i & _ & H1). injection H1 as <- _. by apply keeps_same.
  - apply cap_revoke_Ok in H1 as (l & i & _ & ->). cbn [revocations] in *.
    split; cbn [caps set_caps].
    + apply refuses_revoke; [simpl; lia|done].
    + apply (revoke_len (set_issued (caps next) l)).
Qed.

Lemma event_refuses s e id until :
  zlen (revoked (caps s)) + revocations e ≤ MAX_REVOKED →
  (∀ now, event_now e = Some now → millis now < until) →
  refuses (caps s) id until → keeps_refusing s (event_step s e) id until (revocations e).
Proof.
  intros Hroom Hnow Hr.
  destruct e as [raw from holder data identity now mono|now|cmd args identity nonce saved now
    |service action p resource owner now|auth model now|auth now|a n c now]; simpl event_step.
  - cbn [revocations] in *. set (n := match from_slice data with Some _ => _ | None => 0 end) in *.
    assert (Hn : 0 ≤ n) by (unfold n; destruct (from_slice data); [apply zlen_nonneg|done]).
    destruct (on_room_event_cases s raw from holder data identity now mono) as [->|H];
      [by apply keeps_same|].
    assert (Hrev : revoked (take_receive (caps s) from mono).1 = revoked (caps s))
      by (unfold take_receive; by case_if).
    set (s1 := set_caps s _) in *.
    destruct H as [->|(msg & Hm & ->)]; [by apply keeps_same|].
    destruct (receive_cap_refuses s1 from holder msg identity now id until) as [? Hl].
    + unfold n in Hroom. rewrite Hm in Hroom. unfold s1. simpl. by rewrite Hrev.
    + unfold refuses, s1. simpl. by rewrite Hrev.
    + split; [done|]. unfold n. rewrite Hm. unfold s1 in Hl. simpl in Hl. by rewrite Hrev in Hl.
  - split; [apply refuses_prune; [by apply Hnow|done]|]. simpl.
    pose proof (sublist_zlen _ _ (List_filter_sublist (λ r, millis now <? rev_exp r) (revoked (caps s)))).
    lia.
  - apply cap_command_refuses; [done|by apply Hnow|done].
  - apply keeps_same; [done..|]. unfold authorize_peer_owned. case_if; [done|]. case_if; [done|].
    match goal with |- context [charge_peer ?s1 ?a ?b ?c ?d] =>
      destruct (charge_peer_spec s1 a b c d) as (_ & _ & -> & _) end.
    by destruct (if explicitly_allowed _ _ _ then _ else _).
  - apply keeps_same; [done..|]. unfold authorize_api, touch_token.
    destruct (lookup _ _ _ _) as [[t|]|e]; try done. case_if; [done|].
    destruct (check _ _ _ _ _) as [u [|]]; [|done]. by case_if.
  - apply keeps_same; [done..|]. unfold model_filter, touch_token.
    destruct (lookup _ _ _ _) as [[t|]|e]; try done. simpl. by case_if.
  - by apply keeps_same.
Qed.

Lemma events_refuse s events id until :
  zlen (revoked (caps s)) + foldr (λ e n, revocations e + n) 0 events ≤ MAX_REVOKED →
  Forall (λ e, ∀ now, event_now e = Some now → millis now < until) events →
  refuses (caps s) id until → refuses (caps (foldl event_step s events)) id until.
Proof.
  revert s. induction events as [|e events IH]; intros s Hroom Hnow Hr; simpl in *; [done|].
  inversion_clear Hnow as [|?? He Hes].
  assert (H0 : ∀ l, 0 ≤ foldr (λ e n, revocations e + n) 0 l).
  { induction l as [|x l IHl]; simpl; [done|]. enough (0 ≤ revocations x) by lia.
    destruct x as [| |[]| | | |]; simpl; try done.
    destruct (from_slice _); [apply zlen_nonneg|done]. }
  specialize (H0 events).
  destruct (event_refuses s e id until) as [Hr' Hl]; [lia|done..|]. apply IH; [lia|done..].
Qed.

(** Until when a revocation at [now] refuses the id. *)
Definition revoked_until (b : Book) (id : string) (now : Z) : Z :=
  default (i64_saturating_add now MAX_LIFETIME_MS) (max_of (known_expiries b id)).

Lemma foldl_max_le l x y : y ≤ x → y ≤ foldl Z.max x l.
Proof. revert x. induction l as [|z l IH]; intros x Hx; simpl; [done|]. apply IH. lia. Qed.

Lemma foldl_max_elem l x y : y ∈ l → y ≤ foldl Z.max x l.
Proof.
  revert x. induction l as [|z l IH]; intros x; [set_solver|].
  intros [->|Hy]%elem_of_cons; simpl; [apply foldl_max_le; lia|by apply IH].
Qed.

Lemma known_expiry_le b id now e : e ∈ known_expiries b id → e ≤ revoked_until b id now.
Proof.
  unfold revoked_until. destruct (known_expiries b id) as [|x l]; [set_solver|]. simpl.
  intros [->|He]%elem_of_cons; [by apply foldl_max_le|by apply foldl_max_elem].
Qed.

Lemma revoke_refuses b id now :
  now < revoked_until b id now → refuses (revoke b id now) id (revoked_until b id now).
Proof.
  intros Hnow. unfold revoke. fold (revoked_until b id now).
  rewrite (proj2 (Z.leb_gt _ _)) by lia. unfold refuses. simpl revoked.
  destruct (existsb _ _) eqn:He.
  - apply existsb_elem in He as (r & Hr & Hid). bools.
    assert (Hex : ∀ l, r ∈ l → ∃ r', r' ∈ update_first (λ r, bool_decide (rev_id r = id))
      (λ r, {| rev_id := rev_id r; rev_exp := Z.max (rev_exp r) (revoked_until b id now);
               rev_at := rev_at r |}) l ∧ rev_id r' = id ∧ revoked_until b id now ≤ rev_exp r').
    { induction l as [|x l IH]; [set_solver|]. simpl. case_bool_decide as Hx.
      - intros _. eexists. split; [left|]. simpl. split; [done|lia].
      - intros [->|Hin]%elem_of_cons; [done|]. destruct (IH Hin) as (r' & ? & ?).
        exists r'. split; [by right|done]. }
    by apply Hex.
  - eexists. split; [apply elem_of_app; right; left|]. simpl. split; [done|lia].
Qed.

Lemma revoke_presented b id now p :
  p ∈ presented (revoke b id now) → contains_id (pr_cap p) id = false.
Proof.
  unfold revoke. case_if; simpl; intros [_ H]%elem_of_List_filter; by bools.
Qed.

Lemma millis_mono a b : a ≤ b → millis a ≤ millis b.
Proof. intros H. by apply Z.div_le_mono. Qed.
End revocation.

(** C36. A revocation is final, for the capabilities it knew of. Once an id is
    revoked no presented capability has it anywhere in its chain, and after any
    further messages, commands, requests and ticks during which the table of 4096
    revocations does not overflow, no capability with a link of that id verifies
    for any request, whoever presents it - except under a link that outlives
    every link of that id the node knew of. When it knew none, the revocation
    holds for 366 days, so that such a link started after it. *)
Theorem revocation_is_final {C : Crypto} {S : Serde} {K : Calendar} {D : Decoding}
    s id t0 events now :
  let s0 := set_caps s (revoke (caps s) id (millis t0)) in
  let s1 := foldl event_step s0 events in
  let until := revoked_until (caps s) id (millis t0) in
  t0 ≤ now → Forall (λ e, ∀ t, event_now e = Some t → t ≤ now) events →
  zlen (revoked (caps s0)) + foldr (λ e n, revocations e + n) 0 events ≤ MAX_REVOKED →
  (∀ e, e ∈ known_expiries (caps s) id → e ≤ until) ∧
  (∀ p, p ∈ presented (caps s0) → contains_id (pr_cap p) id = false) ∧
  ∀ w holder service action resource owner cap link,
    verify_cap s1 w holder service action resource owner now = Ok cap →
    link ∈ chain cap → cap_id link = id →
    until < exp link ∧
    (known_expiries (caps s) id = [] → millis t0 + MAX_LIFETIME_MS < 2 ^ 63 → millis t0 < nbf link).
Proof.
  cbv zeta. intros Ht0 Hev Hroom. split; [|split].
  - intros e. apply known_expiry_le.
  - intros p. apply revoke_presented.
  - intros w holder service action resource owner cap link Hv Hl Hid.
    apply verify_spec in Hv as [Hparse Hg]. apply granted_chain in Hg as (_ & _ & Hg).
    destruct (Hg link Hl) as (_ & Hexp & Hrev & _). simpl in Hexp, Hrev.
    enough (Hlate : revoked_until (caps s) id (millis t0) < exp link).
    { split; [done|]. intros Hnone Hmax.
      apply parse_spec in Hparse as (_ & _ & Hp). destruct (Hp link Hl) as [_ _ [_ Hlife] _].
      unfold revoked_until in Hlate. rewrite Hnone in Hlate. cbn in Hlate. unfold i64_saturating_add in Hlate. lia. }
    destruct (decide (millis now < revoked_until (caps s) id (millis t0))) as [Hlt|]; [|lia].
    exfalso. apply (events_refuse _ _ id (revoked_until (caps s) id (millis t0))) in Hroom.
    + destruct Hroom as (r & Hr & Hri & Hre). unfold is_revoked in Hrev. bools.
      match goal with H : existsb _ (revoked _) = false |- _ =>
        pose proof (proj1 (existsb_elem_false _ _) H r Hr) as Hno end.
      simpl in Hno. rewrite bool_decide_true in Hno by congruence. simpl in Hno. bools. lia.
    + eapply Forall_impl; [exact Hev|]. intros e He t Ht. specialize (He t Ht).
      apply millis_mono in He. lia.
    + apply revoke_refuses. apply millis_mono in Ht0. lia.
Qed.

(** ** A concrete store *)
Module StoreToy.

#[global] Instance decoding : Decoding :=
  {| from_slice := λ _, None; datetime_from_value := λ _, None; datetime_max := 2 ^ 62 |}.

Definition open_service : ServicePolicy := {| mode := Allowlist; allow := []; deny := [];
  limits := default_limits; overrides := []; issuers := [] |}.
Definition open_policy : Policy :=
  {| p_ai := open_service; p_escrow := open_service; require_token := false |}.

(** [alice] was presented [carol]'s capability. *)
Definition store : Store :=
  receive_present (initial_store open_policy [] (Some (Wire.did Toy.alice))) "00000000000000cc"
    (Some CapToy.carol) (JObject [("cap", CapToy.leaf_wire)]) (3 * SECOND).
Definition root_id : string := "00000000000000000000000000000001".
Definition carol_peer : Principal := {| node := "00000000000000cc"; did := Some CapToy.carol |}.

Example carol_may_write :
  is_ok (authorize_peer_owned store Escrow Write carol_peer (Some CapToy.room_slot) None (4 * SECOND)).2
    = true.
Proof. by vm_compute. Qed.
End StoreToy.

Lemma revocation_is_final_witness :
  let s0 := set_caps StoreToy.store (revoke (caps StoreToy.store) StoreToy.root_id (millis (4 * SECOND))) in
  let s1 := foldl event_step s0 [EvTick (5 * SECOND);
    EvPeer Escrow Write StoreToy.carol_peer (Some CapToy.room_slot) None (5 * SECOND)] in
  ¬ ∃ service action resource owner cap,
    verify_cap s1 CapToy.leaf_wire CapToy.carol service action resource owner (6 * SECOND) = Ok cap.
Proof.
  intros s0 s1 (service & action & resource & owner & cap & Hv).
  destruct (revocation_is_final StoreToy.store StoreToy.root_id (4 * SECOND)
    [EvTick (5 * SECOND); EvPeer Escrow Write StoreToy.carol_peer (Some CapToy.room_slot) None (5 * SECOND)]
    (6 * SECOND)) as (_ & _ & H).
  - by vm_compute.
  - apply Forall_forall. intros e He t Ht.
    apply elem_of_cons in He as [->|[->|He]%elem_of_cons]; [|done|by apply elem_of_nil in He].
    injection Ht as <-. by vm_compute.
  - by vm_compute.
  - specialize (H _ _ _ _ _ _ _ (root cap) Hv).
    apply verify_spec in Hv as [Hp _].
    destruct (parse CapToy.leaf_wire) as [cap'|e] eqn:Hc; [|discriminate Hp]. injection Hp as <-.
    assert (Hroot : root cap' ∈ chain cap' ∧ cap_id (root cap') = StoreToy.root_id ∧
      (exp (root cap') <=? revoked_until (caps StoreToy.store) StoreToy.root_id (millis (4 * SECOND)))%Z = true).
    { assert (Hok : match parse CapToy.leaf_wire with
        | Ok c => (length (chain c) =? 2)%nat && bool_decide (cap_id (root c) = StoreToy.root_id) &&
            (exp (root c) <=? revoked_until (caps StoreToy.store) StoreToy.root_id (millis (4 * SECOND)))
        | Err _ => false end = true) by (vm_compute; reflexivity).
      rewrite Hc in Hok. bools. split; [|split; [assumption|apply Z.leb_le; assumption]].
      clear. induction cap' as [c IH] using capability_parents.
      rewrite root_eq, chain_eq. destruct (parent c) as [p|] eqn:Hp; [right; by apply IH|left]. }
    destruct Hroot as (Hin & Hid & Hle). apply Z.leb_le in Hle. specialize (H Hin Hid).
    destruct H as [H _]. apply Z.lt_nge in H. exact (H Hle).
Defined.
