(* ===== verification/DmWire.v ===== *)
(** * Direct messages: wire format and limits

    [src/src/dm/wire.rs] and [src/src/dm/limits.rs]: building a signed message
    or receipt, the stateless checks of an incoming one, the replay cache and
    the rate limiter. JSON text is the class [JsonText]. *)
From S2P Require Import Prelude Json Wire ReplayCache.

Class JsonText := {
  to_vec : json → string;
  from_slice : string → option json;
}.

Definition MSG_TAG : string := "mistl-dm-v1".
Definition ACK_TAG : string := "mistl-dm-ack-v1".
Definition TAG_PREFIX : string := "mistl-dm-".
Definition MAX_WIRE_BYTES : Z := 16 * 1024.
Definition MAX_TEXT_CHARS : Z := 4000.
Definition MAX_NAME_CHARS : Z := 200.
Definition MAX_MIME_CHARS : Z := 100.
Definition MAX_CID_CHARS : Z := 128.
Definition MAX_KEY_CHARS : Z := 128.
Definition MAX_FILE_BYTES : Z := 64 * 1024 * 1024.
Definition MAX_SKEW_MS : Z := 10 * 60 * 1000.

Record FileMeta := { cid : string; name : string; size : Z; mime : string; key : string }.

Record DmMessage := {
  from_did : string; id : string; ts : Z; text : option string; file : option FileMeta;
}.
Record DmAck := { ack_from_did : string; ack_id : string; ack_ts : Z }.

Inductive Incoming := Message (m : DmMessage) | Ack (a : DmAck).

Inductive Reject :=
| NotOurs | Oversized | Malformed | NodeMismatch | DidMismatch | WrongRecipient | SelfSend | Stale
| BadSignature.

Inductive Kind := KMessage | KAck.
#[global] Instance Kind_eq_dec : EqDecision Kind.
Proof. solve_decision. Defined.

Record Prechecked := {
  kind : Kind; value : json; pre_from : string; pre_id : string; pre_ts : Z;
  pre_text : option string; pre_file : option FileMeta;
}.

Definition is_ack (p : Prechecked) : bool := bool_decide (kind p = KAck).

Definition is_valid_id (id : string) : bool := (slen id =? 32) && string_forallb is_lower_hexdigit id.

(** [chars().any(is_control ...)] on UTF-8: the controls are the bytes below
    0x20, 0x7f, and U+0080 to U+009F, encoded as 0xC2 0x80 to 0xC2 0x9F. *)
Fixpoint has_forbidden_control (s : string) (allow_whitespace : bool) : bool :=
  match s with
  | EmptyString => false
  | String c s' =>
      let n := N_of_ascii c in
      (((n <? 32) || (n =? 127))%N
        && negb (allow_whitespace && ((n =? 9) || (n =? 10) || (n =? 13))%N))
      || ((n =? 0xC2)%N && match s' with
            | String d _ => ((128 <=? N_of_ascii d) && (N_of_ascii d <=? 159))%N
            | EmptyString => false
            end)
      || has_forbidden_control s' allow_whitespace
  end.

Definition is_cid_like (s : string) : bool :=
  negb (bool_decide (s = "")) && (slen s <=? MAX_CID_CHARS)
  && string_forallb (λ c, is_ascii_digit c || is_ascii_alphabetic c) s.

Definition is_ascii_printable (s : string) : bool :=
  string_forallb (λ c, (32 <=? N_of_ascii c)%N && (N_of_ascii c <? 127)%N) s.

Definition validate_text (text : string) : result () string :=
  ensure (chars_count text <=? MAX_TEXT_CHARS) "text is longer than 4000 characters" ;;?
  ensure (negb (has_forbidden_control text true)) "text contains control characters".

Definition validate_content (text : option string) (file : option FileMeta) : result () string :=
  ensure (is_some text || is_some file) "a message needs text or a file" ;;?
  match text with
  | None => Ok tt
  | Some text =>
      validate_text text ;;?
      ensure (negb (bool_decide (text = "") && negb (is_some file))) "empty message"
  end ;;?
  match file with
  | None => Ok tt
  | Some f =>
      ensure (is_cid_like (cid f)) "invalid file cid" ;;?
      ensure (negb ((chars_count (name f) =? 0) || (MAX_NAME_CHARS <? chars_count (name f))
                    || has_forbidden_control (name f) false)) "invalid file name" ;;?
      ensure (negb ((MAX_MIME_CHARS <? chars_count (mime f)) || negb (is_ascii_printable (mime f))))
        "invalid file mime type" ;;?
      ensure (size f <=? MAX_FILE_BYTES) "file is larger than 64 MiB" ;;?
      ensure (negb (bool_decide (key f = "") || (MAX_KEY_CHARS <? slen (key f))
                    || negb (is_ascii_printable (key f)))) "invalid file key"
  end.

Section wire.
Context {C : Crypto} {T : JsonText}.

Definition num (n : Z) : json := JNumber (PosInt n).

Definition file_json (f : FileMeta) : json :=
  obj [("cid", JString (cid f)); ("name", JString (name f)); ("size", num (size f));
       ("mime", JString (mime f)); ("key", JString (key f))].

(** [map.insert(key, v)] on the object of a wire. *)
Definition insert_opt (key : string) (v : option json) (w : json) : json :=
  match w, v with
  | JObject l, Some v => JObject (obj_insert key v l)
  | w, _ => w
  end.

Definition base_wire (tag : string) (identity : Identity) (to id : string) (ts : Z) : json :=
  obj [("t", JString tag); ("node", JString (node_id identity)); ("fromId", JString (did identity));
       ("to", JString to); ("id", JString id); ("ts", num ts)].

Definition build_message (identity : Identity) (to id : string) (ts : Z) (text : option string)
    (file : option FileMeta) : result string string :=
  validate_content text file ;;?
  let wire := base_wire MSG_TAG identity to id ts in
  let wire := insert_opt "text" (JString <$> text) wire in
  let wire := insert_opt "file" (file_json <$> file) wire in
  let? wire := sign_wire wire identity in
  let bytes := to_vec wire in
  ensure (slen bytes <=? MAX_WIRE_BYTES) "message is too large to send" ;;?
  Ok bytes.

(** [sign_wire] cannot fail here: [fromId] is the identity's DID. *)
Definition build_ack (identity : Identity) (to id : string) (ts : Z) : result string string :=
  let? wire := sign_wire (base_wire ACK_TAG identity to id ts) identity in
  Ok (to_vec wire).

Definition looks_like_dm (data : string) : bool :=
  (slen data <=? MAX_WIRE_BYTES) && has_window TAG_PREFIX data.

Definition str_field (obj : json) (key : string) : result string Reject :=
  ok_or (get_str key obj) Malformed.

Definition parse_file (f : json) : result FileMeta Reject :=
  match as_object f with
  | None => Err Malformed
  | Some _ =>
      let? cid := str_field f "cid" in
      let? name := str_field f "name" in
      let? size := ok_or (get_u64 "size" f) Malformed in
      let? mime := str_field f "mime" in
      let? key := str_field f "key" in
      Ok {| cid := cid; name := name; size := size; mime := mime; key := key |}
  end.

Definition parse_content (value : json) : result (option string * option FileMeta) Reject :=
  let? text := match get "text" value with
    | None => Ok None
    | Some t => let? s := ok_or (as_str t) Malformed in Ok (Some s)
    end in
  let? file := match get "file" value with
    | None => Ok None
    | Some f => let? f := parse_file f in Ok (Some f)
    end in
  map_err (λ _, Malformed) (validate_content text file) ;;?
  Ok (text, file).

Definition precheck (data from our_did : string) (now_ms : Z) : result Prechecked Reject :=
  if MAX_WIRE_BYTES <? slen data then Err Oversized else
  if negb (looks_like_dm data) then Err NotOurs else
  let? value := ok_or (from_slice data) NotOurs in
  let? _ := ok_or (as_object value) NotOurs in
  let? kind := match get_str "t" value with
    | Some t => if bool_decide (t = MSG_TAG) then Ok KMessage
                else if bool_decide (t = ACK_TAG) then Ok KAck else Err NotOurs
    | None => Err NotOurs
    end in
  let? node := str_field value "node" in
  if negb (bool_decide (node = from)) then Err NodeMismatch else
  let? did := str_field value "fromId" in
  if negb (slen did =? ED25519_DID_KEY_LEN) || negb (bool_decide (node_id_for_did did = from))
  then Err DidMismatch else
  let? to := str_field value "to" in
  if negb (bool_decide (to = our_did)) then Err WrongRecipient else
  if bool_decide (did = our_did) then Err SelfSend else
  let? ts := ok_or (get_u64 "ts" value) Malformed in
  if MAX_SKEW_MS <? Z.abs (ts - now_ms) then Err Stale else
  let? id := str_field value "id" in
  if negb (is_valid_id id) then Err Malformed else
  let? content := match kind with KMessage => parse_content value | KAck => Ok (None, None) end in
  Ok {| kind := kind; value := value; pre_from := did; pre_id := id; pre_ts := ts;
        pre_text := content.1; pre_file := content.2 |}.

Definition verify_pre (p : Prechecked) : result Incoming Reject :=
  if negb (wire_ok (value p)) then Err BadSignature else
  Ok match kind p with
     | KMessage => Message {| from_did := pre_from p; id := pre_id p; ts := pre_ts p;
                              text := pre_text p; file := pre_file p |}
     | KAck => Ack {| ack_from_did := pre_from p; ack_id := pre_id p; ack_ts := pre_ts p |}
     end.
End wire.

(** ** Limits *)

Definition DEDUPE_TTL : Z := 25 * 60 * SECOND.
Definition DEDUPE_MAX : Z := 16384.
Definition WINDOW : Z := 60 * SECOND.
Definition PER_SENDER_PER_WINDOW : Z := 30.
Definition GLOBAL_PER_WINDOW : Z := 300.
Definition MAX_SENDERS : Z := 2048.

Record Dedupe := { order : queue; seen : gset string }.
Definition empty_dedupe : Dedupe := {| order := []; seen := ∅ |}.

Definition dedupe_key (from_did id : string) : string :=
  from_did +:+ String (Ascii.ascii_of_N 10) id.

Definition prune (d : Dedupe) (now : Z) : Dedupe :=
  let '(order, seen) := pop_while
    (λ len at_, negb ((since now at_ <=? DEDUPE_TTL) && (len <? DEDUPE_MAX))) (order d) (seen d) in
  {| order := order; seen := seen |}.

Definition dedupe_contains (d : Dedupe) (from_did id : string) : bool :=
  bool_decide (dedupe_key from_did id ∈ seen d).

Definition dedupe_insert (d : Dedupe) (from_did id : string) (now : Z) : Dedupe * bool :=
  let d := prune d now in
  let key := dedupe_key from_did id in
  if bool_decide (key ∈ seen d) then (d, false)
  else ({| order := order d ++ [(now, key)]; seen := {[key]} ∪ seen d |}, true).

Record Window := { start : Z; count : Z }.
Definition fresh (now : Z) : Window := {| start := now; count := 0 |}.
Definition expired (w : Window) (now : Z) : bool := WINDOW <=? since now (start w).

Record RateLimiter := { senders : gmap string Window; global : Window }.
Definition new_limiter (now : Z) : RateLimiter := {| senders := ∅; global := fresh now |}.

Definition bump (w : Window) : Window := {| start := start w; count := count w + 1 |}.

Definition allow (r : RateLimiter) (from : string) (now : Z) : RateLimiter * bool :=
  let g := if expired (global r) now then fresh now else global r in
  let r := {| senders := senders r; global := g |} in
  if GLOBAL_PER_WINDOW <=? count g then (r, false) else
  let full := negb (is_some (senders r !! from)) && (MAX_SENDERS <=? zsize (senders r)) in
  let m := if full then filter (λ e : string * Window, expired e.2 now = false) (senders r)
           else senders r in
  if full && (MAX_SENDERS <=? zsize m) then ({| senders := m; global := g |}, false) else
  let w := default (fresh now) (m !! from) in
  let w := if expired w now then fresh now else w in
  if PER_SENDER_PER_WINDOW <=? count w
  then ({| senders := <[from := w]> m; global := g |}, false)
  else ({| senders := <[from := bump w]> m; global := bump g |}, true).
