(* ===== verification/DmHistory.v ===== *)
(** * Direct messages: history

    [src/src/dm/history.rs]: the bounded table of conversations, its eviction
    rule, and the pending disk work. Where the code iterates a [HashMap] and
    the order matters (the least recently updated conversation among equals),
    the order is an argument: any list of the table's keys. The serialization
    of a conversation is a parameter. *)
From S2P Require Import Prelude Json Wire DmWire.

Definition MAX_MESSAGES : Z := 500.
Definition MAX_CONVERSATIONS : Z := 200.
Definition MAX_CONV_BYTES : Z := 256 * 1024.
Definition MAX_UNREAD : Z := 9999.

Inductive Status := Sent | Delivered | Failed | Received.
#[global] Instance Status_eq_dec : EqDecision Status.
Proof. solve_decision. Defined.

Definition status_str (s : Status) : string :=
  match s with Sent => "sent" | Delivered => "delivered" | Failed => "failed" | Received => "received" end.

Record StoredMsg := {
  msg_id : string; mine : bool; ts_ms : Z; msg_text : option string; msg_file : option FileMeta;
  status : Status;
}.

(** The message as shown to the UI. *)
Definition ui (m : StoredMsg) : json :=
  let out := obj [("id", JString (msg_id m)); ("mine", JBool (mine m)); ("ts_ms", num (ts_ms m));
                  ("status", JString (status_str (status m)))] in
  let out := insert_opt "text" (JString <$> msg_text m) out in
  insert_opt "file" ((λ f, obj [("cid", JString (cid f)); ("name", JString (name f));
                                ("size", num (size f)); ("mime", JString (mime f))]) <$> msg_file m) out.

Definition weight (m : StoredMsg) : Z :=
  64 + match msg_text m with Some t => slen t | None => 0 end
  + match msg_file m with
    | Some f => slen (cid f) + slen (name f) + slen (mime f) + slen (key f)
    | None => 0
    end.

Record Conversation := { conv_did : string; unread : Z; updated_ms : Z; messages : list StoredMsg }.

Definition sum_weight (l : list StoredMsg) : Z := foldr (λ m n, weight m + n) 0 l.
Definition conv_bytes (c : Conversation) : Z := sum_weight (messages c).
Definition solicited (c : Conversation) : bool := existsb mine (messages c).

(** [while len > MAX { pop_front }] *)
Fixpoint trim_count (l : list StoredMsg) : list StoredMsg :=
  match l with
  | [] => []
  | _ :: r => if MAX_MESSAGES <? zlen l then trim_count r else l
  end.

(** [while bytes > MAX && len > 1 { bytes -= pop_front().weight() }] *)
Fixpoint trim_bytes (bytes : Z) (l : list StoredMsg) : list StoredMsg :=
  match l with
  | [] => []
  | m :: r => if (MAX_CONV_BYTES <? bytes) && (1 <? zlen l) then trim_bytes (bytes - weight m) r else l
  end.

Definition set_messages (c : Conversation) (l : list StoredMsg) : Conversation :=
  {| conv_did := conv_did c; unread := unread c; updated_ms := updated_ms c; messages := l |}.

Definition trim (c : Conversation) : Conversation :=
  let c := set_messages c (trim_count (messages c)) in
  set_messages c (trim_bytes (conv_bytes c) (messages c)).

Inductive AddError := Duplicate | Full.

Record History := { convs : gmap string Conversation; dirty : gset string; removed : gset string }.
Definition empty_history : History := {| convs := ∅; dirty := ∅; removed := ∅ |}.

(** [convs.iter().filter(..).min_by_key(updated_ms)] over the iteration order
    [keys]: the first of the least recently updated. *)
Fixpoint lru (convs : gmap string Conversation) (only_unsolicited : bool) (keys : list string)
    : option (string * Z) :=
  match keys with
  | [] => None
  | k :: keys =>
      let rest := lru convs only_unsolicited keys in
      match convs !! k with
      | Some c =>
          if negb only_unsolicited || negb (solicited c) then
            match rest with
            | Some (_, best) => if updated_ms c <=? best then Some (k, updated_ms c) else rest
            | None => Some (k, updated_ms c)
            end
          else rest
      | None => rest
      end
  end.

Definition make_room (h : History) (keys : list string) (for_remote : bool) : option History :=
  let victim := match lru (convs h) true keys with
    | Some v => Some v
    | None => if for_remote then None else lru (convs h) false keys
    end in
  match victim with
  | None => None
  | Some (victim, _) =>
      Some {| convs := delete victim (convs h); dirty := dirty h ∖ {[victim]};
              removed := {[victim]} ∪ removed h |}
  end.

Definition add (h : History) (keys : list string) (did : string) (msg : StoredMsg) (now_ms : Z)
    (remote : bool) : History * result () AddError :=
  let duplicate := match convs h !! did with
    | Some c => existsb (λ m, bool_decide (msg_id m = msg_id msg)) (messages c)
    | None => false
    end in
  if duplicate then (h, Err Duplicate) else
  let room := if negb (is_some (convs h !! did)) && (MAX_CONVERSATIONS <=? zsize (convs h))
              then make_room h keys remote else Some h in
  match room with
  | None => (h, Err Full)
  | Some h =>
      let c := default {| conv_did := did; unread := 0; updated_ms := 0; messages := [] |} (convs h !! did) in
      let c := {| conv_did := conv_did c;
                  unread := if remote then Z.min (unread c + 1) MAX_UNREAD else unread c;
                  updated_ms := Z.max now_ms (updated_ms c);
                  messages := messages c ++ [msg] |} in
      ({| convs := <[did := trim c]> (convs h); dirty := {[did]} ∪ dirty h;
          removed := removed h ∖ {[did]} |}, Ok tt)
  end.

Definition find_msg (id : string) (l : list StoredMsg) : option StoredMsg :=
  List.find (λ m, bool_decide (msg_id m = id)) l.

Definition set_status (s : Status) (m : StoredMsg) : StoredMsg :=
  {| msg_id := msg_id m; mine := mine m; ts_ms := ts_ms m; msg_text := msg_text m;
     msg_file := msg_file m; status := s |}.

Fixpoint update_msg (id : string) (f : StoredMsg → StoredMsg) (l : list StoredMsg) : list StoredMsg :=
  match l with
  | [] => []
  | m :: l => if bool_decide (msg_id m = id) then f m :: l else m :: update_msg id f l
  end.

Definition mark_delivered (h : History) (did id : string) : History * bool :=
  match convs h !! did with
  | None => (h, false)
  | Some c =>
      match find_msg id (messages c) with
      | None => (h, false)
      | Some m =>
          if negb (mine m) || negb (bool_decide (status m = Sent)) then (h, false) else
          ({| convs := <[did := set_messages c (update_msg id (set_status Delivered) (messages c))]> (convs h);
              dirty := {[did]} ∪ dirty h; removed := removed h |}, true)
      end
  end.

Definition mark_all_dirty (h : History) : History :=
  {| convs := convs h; dirty := dom (convs h) ∪ dirty h; removed := removed h |}.

Definition mark_read (h : History) (did : string) : History :=
  match convs h !! did with
  | Some c =>
      if unread c =? 0 then h else
      {| convs := <[did := {| conv_did := conv_did c; unread := 0; updated_ms := updated_ms c;
                              messages := messages c |}]> (convs h);
         dirty := {[did]} ∪ dirty h; removed := removed h |}
  | None => h
  end.

Definition clear (h : History) (did : string) : History :=
  match convs h !! did with
  | Some _ => {| convs := delete did (convs h); dirty := dirty h ∖ {[did]};
                 removed := {[did]} ∪ removed h |}
  | None => h
  end.

Definition message (h : History) (did id : string) : option StoredMsg :=
  c ← convs h !! did; find_msg id (messages c).

(** [limit.clamp(1, MAX_MESSAGES)], then the newest [limit] messages. *)
Definition recent (h : History) (did : string) (limit : Z) : list json :=
  let limit := Z.max 1 (Z.min limit MAX_MESSAGES) in
  match convs h !! did with
  | None => []
  | Some c => map ui (drop (Z.to_nat (sat_sub (zlen (messages c)) limit)) (messages c))
  end.

(** Most recently updated first, then by DID; a DID occurs once, so the order
    is total. *)
Definition list_before (a b : Conversation) : Prop :=
  updated_ms b < updated_ms a ∨ (updated_ms a = updated_ms b ∧ String.le (conv_did a) (conv_did b)).
#[global] Instance list_before_dec : RelDecision list_before.
Proof. intros a b. unfold list_before. apply _. Defined.

Definition list_convs (h : History) : list json :=
  map (λ c, obj [("did", JString (conv_did c)); ("unread", num (unread c));
                 ("updated_ms", num (updated_ms c));
                 ("last", match last (messages c) with Some m => ui m | None => JNull end)])
    (merge_sort list_before (map_to_list (convs h)).*2).

Definition has_sent_files (h : History) : bool :=
  existsb (λ c, existsb (λ m, mine m && is_some (msg_file m)) (messages c)) (map_to_list (convs h)).*2.

Section disk.
Context {C : Crypto}.

(** The name of a conversation's file: sixteen bytes of the hash of its DID. *)
Definition file_name_for (did : string) : string := hex_encode (string_take 16 (sha256 did)) +:+ ".json".

(** [serialize] is [serde_json::to_vec] of a conversation, which cannot fail on
    this type; the two sets are drained in some order. *)
Definition take_pending (serialize : Conversation → string) (h : History)
    : History * list (string * option string) :=
  let deletes := map (λ did, (file_name_for did, None)) (elements (removed h)) in
  let writes := omap (λ did, c ← convs h !! did; Some (file_name_for did, Some (serialize c)))
                  (elements (dirty h)) in
  ({| convs := convs h; dirty := ∅; removed := ∅ |}, deletes ++ writes).

(** The files of the directory. [ok] tells which operation of the file system
    fails: [apply_pending] stops there. *)
Fixpoint apply_pending (ok : nat → bool) (n : nat) (disk : gmap string string)
    (pending : list (string * option string)) : gmap string string * bool :=
  match pending with
  | [] => (disk, true)
  | (name, bytes) :: rest =>
      if ok n then
        apply_pending ok (S n)
          (match bytes with Some b => <[name := b]> disk | None => delete name disk end) rest
      else (disk, false)
  end.

(** [Service::flush] of [mod.rs]. *)
Definition flush (serialize : Conversation → string) (ok : nat → bool) (h : History)
    (disk : gmap string string) : History * gmap string string :=
  let '(h, pending) := take_pending serialize h in
  if bool_decide (pending = []) then (h, disk) else
  let '(disk, done) := apply_pending ok 0 disk pending in
  (if done then h else mark_all_dirty h, disk).

(** The files [load] reads: name, whether it is a regular file of at most 4 MiB,
    and its conversation when it parses. *)
Definition load_file (e : string * bool * option Conversation) : option Conversation :=
  match e with
  | (name, true, Some c) =>
      if is_some (strip_suffix ".json" name)
         && (slen (conv_did c) =? ED25519_DID_KEY_LEN) && bool_decide (name = file_name_for (conv_did c))
      then Some (trim (set_messages c (List.filter (λ m, is_valid_id (msg_id m)
             && is_none_or (λ t, chars_count t <=? MAX_TEXT_CHARS) (msg_text m)) (messages c))))
      else None
  | _ => None
  end.

Definition newest_first (a b : Conversation) : Prop := updated_ms b ≤ updated_ms a.
#[global] Instance newest_first_dec : RelDecision newest_first.
Proof. intros a b. unfold newest_first. apply _. Defined.

Definition load (entries : list (string * bool * option Conversation)) : History :=
  let loaded := take (Z.to_nat MAX_CONVERSATIONS) (merge_sort newest_first (omap load_file entries)) in
  {| convs := foldl (λ m c, <[conv_did c := c]> m) ∅ loaded; dirty := ∅; removed := ∅ |}.
End disk.

(** ** The table of conversations *)

(** What the user and the peers do to the history; [keys] is the iteration
    order, should a conversation have to be evicted. *)
Inductive hist_op :=
| OpAdd (keys : list string) (did : string) (msg : StoredMsg) (now_ms : Z) (remote : bool)
| OpDelivered (did id : string)
| OpRead (did : string)
| OpClear (did : string).

Definition hist_step (h : History) (op : hist_op) : History :=
  match op with
  | OpAdd keys did msg now remote => (add h keys did msg now remote).1
  | OpDelivered did id => (mark_delivered h did id).1
  | OpRead did => mark_read h did
  | OpClear did => clear h did
  end.

Record conv_ok (did : string) (c : Conversation) : Prop := {
  co_did : conv_did c = did;
  co_len : zlen (messages c) ≤ MAX_MESSAGES;
  co_bytes : conv_bytes c ≤ MAX_CONV_BYTES ∨ zlen (messages c) ≤ 1;
  co_ids : NoDup (msg_id <$> messages c);
  co_unread : unread c ≤ MAX_UNREAD;
}.

Record history_inv (h : History) : Prop := {
  hi_size : zsize (convs h) ≤ MAX_CONVERSATIONS;
  hi_convs : map_Forall conv_ok (convs h);
  hi_dirty : dirty h ⊆ dom (convs h);
  hi_removed : removed h ## dom (convs h);
}.

Lemma trim_count_spec l : sublist (trim_count l) l ∧ zlen (trim_count l) ≤ MAX_MESSAGES.
Proof.
  induction l as [|m l [IH IH']]; [by split|]. cbn [trim_count]. case_if.
  - split; [by constructor|done].
  - bools. by split.
Qed.

Lemma trim_bytes_spec n l :
  n = sum_weight l →
  sublist (trim_bytes n l) l ∧
  (sum_weight (trim_bytes n l) ≤ MAX_CONV_BYTES ∨ zlen (trim_bytes n l) ≤ 1).
Proof.
  revert n. induction l as [|m l IH]; intros n Hn.
  { split; [done|]. left. done. }
  cbn [trim_bytes]. case_if.
  - destruct (IH (n - weight m)) as [Hs Hb]; [rewrite Hn; simpl; lia|].
    split; [by constructor|done].
  - split; [done|]. bools. destruct Heqb as [?|?]; bools; [left; lia|right; lia].
Qed.

Lemma trim_ok did c :
  conv_did c = did → NoDup (msg_id <$> messages c) → unread c ≤ MAX_UNREAD → conv_ok did (trim c).
Proof.
  intros Hd Hn Hu. unfold trim. simpl.
  destruct (trim_count_spec (messages c)) as [Hs Hl].
  destruct (trim_bytes_spec (conv_bytes (set_messages c (trim_count (messages c))))
    (trim_count (messages c)) eq_refl) as [Hs' Hb].
  split; simpl; try done.
  - apply sublist_length in Hs'. unfold zlen in *. lia.
  - eapply sublist_NoDup; [exact Hn|]. apply fmap_sublist. by etrans.
Qed.

Lemma lru_Some convs b keys k n :
  lru convs b keys = Some (k, n) →
  k ∈ keys ∧ ∃ c, convs !! k = Some c ∧ (b = true → solicited c = false).
Proof.
  revert k n. induction keys as [|x keys IH]; intros k n; simpl; [done|].
  assert (Hrest : lru convs b keys = Some (k, n) → k ∈ x :: keys ∧
    ∃ c, convs !! k = Some c ∧ (b = true → solicited c = false)).
  { intros H. destruct (IH _ _ H) as [? ?]. split; [by right|done]. }
  destruct (convs !! x) as [c|] eqn:Hc; [|done].
  destruct (negb b || negb (solicited c)) eqn:Hb; [|done].
  assert (Hx : x ∈ x :: keys ∧ ∃ c, convs !! x = Some c ∧ (b = true → solicited c = false)).
  { split; [left|]. exists c. split; [done|]. intros ->. simpl in Hb. by bools. }
  destruct (lru convs b keys) as [[k' n']|]; [case_if|]; [|done|]; by intros [= <- <-].
Qed.

Lemma lru_None convs b keys :
  lru convs b keys = None →
  ∀ k c, k ∈ keys → convs !! k = Some c → b = true ∧ solicited c = true.
Proof.
  induction keys as [|x keys IH]; simpl; [set_solver|]. intros H k c Hk Hc.
  destruct (convs !! x) as [cx|] eqn:Hx.
  - destruct (negb b || negb (solicited cx)) eqn:Hb.
    { destruct (lru convs b keys) as [[]|]; [case_if|]; done. }
    apply elem_of_cons in Hk as [->|Hk]; [|by eapply IH].
    rewrite Hx in Hc. injection Hc as <-. by bools.
  - apply elem_of_cons in Hk as [->|Hk]; [congruence|by eapply IH].
Qed.

Lemma make_room_spec h keys remote h' :
  make_room h keys remote = Some h' →
  ∃ v c, convs h !! v = Some c ∧ (remote = true → solicited c = false) ∧
    h' = {| convs := delete v (convs h); dirty := dirty h ∖ {[v]}; removed := {[v]} ∪ removed h |}.
Proof.
  unfold make_room. intros H. destruct (lru (convs h) true keys) as [[v n]|] eqn:Hl.
  - injection H as <-. apply lru_Some in Hl as [_ (c & Hc & Hs)]. exists v, c. auto.
  - destruct remote; [done|]. destruct (lru (convs h) false keys) as [[v n]|] eqn:Hl'; [|done].
    injection H as <-. apply lru_Some in Hl' as [_ (c & Hc & _)]. by exists v, c.
Qed.

Lemma insert_inv h did c :
  history_inv h → conv_ok did c → (is_Some (convs h !! did) ∨ zsize (convs h) < MAX_CONVERSATIONS) →
  history_inv {| convs := <[did := c]> (convs h); dirty := {[did]} ∪ dirty h;
                 removed := removed h ∖ {[did]} |}.
Proof.
  intros [Hs Hc Hd Hr] Hok Hroom. split; simpl.
  - destruct (convs h !! did) as [x|] eqn:Hx.
    + by rewrite (zsize_insert_Some _ _ _ _ Hx).
    + rewrite (zsize_insert_None _ _ _ Hx). destruct Hroom as [[? ?]|?]; [done|lia].
  - by apply map_Forall_insert_2.
  - rewrite dom_insert_L. set_solver.
  - rewrite dom_insert_L. set_solver.
Qed.

Lemma update_inv h did c c' d :
  history_inv h → convs h !! did = Some c → conv_ok did c' → d = {[did]} ∪ dirty h →
  history_inv {| convs := <[did := c']> (convs h); dirty := d; removed := removed h |}.
Proof.
  intros Hi Hc Hok ->. assert (Hr : removed h ∖ {[did]} = removed h).
  { destruct Hi as [_ _ _ Hr]. apply elem_of_dom_2 in Hc. set_solver. }
  rewrite <-Hr. apply insert_inv; eauto.
Qed.

Lemma delete_inv h v c :
  history_inv h → convs h !! v = Some c →
  history_inv {| convs := delete v (convs h); dirty := dirty h ∖ {[v]}; removed := {[v]} ∪ removed h |}.
Proof.
  intros [Hs Hc Hd Hr] Hv. split; simpl.
  - rewrite (zsize_delete_Some _ _ _ Hv). lia.
  - by apply map_Forall_delete.
  - rewrite dom_delete_L. set_solver.
  - rewrite dom_delete_L. set_solver.
Qed.

(** [add] in one equation: refused, or inserted after at most one eviction. *)
Lemma add_spec h keys did msg now remote h' r :
  add h keys did msg now remote = (h', r) →
  (h' = h ∧ (r = Err Duplicate ∨
     r = Err Full ∧ convs h !! did = None ∧ MAX_CONVERSATIONS ≤ zsize (convs h) ∧
     make_room h keys remote = None)) ∨
  r = Ok tt ∧ ∃ h0 c,
    (h0 = h ∧ (is_Some (convs h !! did) ∨ zsize (convs h) < MAX_CONVERSATIONS) ∨
     convs h !! did = None ∧ MAX_CONVERSATIONS ≤ zsize (convs h) ∧ make_room h keys remote = Some h0) ∧
    (map_Forall conv_ok (convs h) → conv_ok did c) ∧
    h' = {| convs := <[did := c]> (convs h0); dirty := {[did]} ∪ dirty h0; removed := removed h0 ∖ {[did]} |}.
Proof.
  unfold add. intros H. destruct (match convs h !! did with Some _ => _ | None => _ end) eqn:Hdup;
    [injection H as <- <-; auto|].
  set (room := if negb (is_some (convs h !! did)) && _ then _ else _) in H.
  assert (Hroom : match room with
    | None => convs h !! did = None ∧ MAX_CONVERSATIONS ≤ zsize (convs h) ∧ make_room h keys remote = None
    | Some h0 => (h0 = h ∧ (is_Some (convs h !! did) ∨ zsize (convs h) < MAX_CONVERSATIONS) ∨
        convs h !! did = None ∧ MAX_CONVERSATIONS ≤ zsize (convs h) ∧ make_room h keys remote = Some h0)
    end).
  { unfold room. destruct (convs h !! did); simpl; [by eauto|].
    destruct (Z.leb_spec MAX_CONVERSATIONS (zsize (convs h))); [|by auto].
    destruct (make_room h keys remote); by auto. }
  destruct room as [h0|]; injection H as <- <-; [right|left; by auto].
  split; [done|]. eexists h0, _. split; [exact Hroom|]. split; [|reflexivity].
  intros Hall. set (c := default _ (convs h0 !! did)).
  assert (Hc : c = default {| conv_did := did; unread := 0; updated_ms := 0; messages := [] |} (convs h !! did)).
  { unfold c. destruct Hroom as [[-> _]|(Hn & _ & Hm)]; [done|].
    apply make_room_spec in Hm as (v & cv & _ & _ & ->). simpl. rewrite Hn.
    by rewrite (proj2 (lookup_delete_None _ _ _)) by auto. }
  assert (Hck : conv_did c = did ∧ NoDup (msg_id <$> messages c) ∧ unread c ≤ MAX_UNREAD ∧
    existsb (λ m, bool_decide (msg_id m = msg_id msg)) (messages c) = false).
  { rewrite Hc. destruct (convs h !! did) as [x|] eqn:Hx; simpl.
    - specialize (Hall _ _ Hx). by destruct Hall.
    - split_and!; [done|constructor|done|done]. }
  destruct Hck as (Hd & Hnd & Hu & Hno). apply trim_ok; simpl.
  - done.
  - rewrite fmap_app. apply NoDup_app. split; [done|]. split; [|apply NoDup_singleton].
    intros i (m & -> & Hm)%list_elem_of_fmap Hi%list_elem_of_singleton.
    rewrite existsb_elem_false in Hno. specialize (Hno m Hm). by bools.
  - case_if; lia.
Qed.

Lemma update_msg_ids i s l : msg_id <$> update_msg i (set_status s) l = msg_id <$> l.
Proof.
  induction l as [|m l IH]; [done|]. cbn [update_msg]. case_bool_decide; [done|].
  rewrite !fmap_cons. by f_equal.
Qed.

Lemma update_msg_shape i s l :
  zlen (update_msg i (set_status s) l) = zlen l ∧ sum_weight (update_msg i (set_status s) l) = sum_weight l.
Proof.
  unfold zlen. induction l as [|m l [IH1 IH2]]; simpl; [done|].
  case_bool_decide; simpl; [done|]. split; lia.
Qed.

Lemma hist_step_inv h op : history_inv h → history_inv (hist_step h op).
Proof.
  intros Hi. destruct op as [keys did msg now remote|did i|did|did]; simpl.
  - destruct (add h keys did msg now remote) as [h' r] eqn:Ha. simpl.
    apply add_spec in Ha as [[-> _]|(_ & h0 & c & Hh0 & Hc & ->)]; [done|].
    specialize (Hc (hi_convs _ Hi)). destruct Hh0 as [[-> Hroom]|(Hn & _ & Hm)].
    + by apply insert_inv.
    + apply make_room_spec in Hm as (v & cv & Hv & _ & ->). apply insert_inv; [by eapply delete_inv|done|].
      right. simpl. rewrite (zsize_delete_Some _ _ _ Hv). destruct Hi. lia.
  - unfold mark_delivered. destruct (convs h !! did) as [c|] eqn:Hc; [|done].
    destruct (find_msg i (messages c)) as [m|]; [|done]. case_if; [done|]. simpl.
    eapply update_inv; [done..| |done]. destruct (hi_convs _ Hi _ _ Hc) as [Hd Hl Hb Hn Hu].
    destruct (update_msg_shape i Delivered (messages c)) as [Hlen Hw].
    split; simpl; [done|by rewrite Hlen| |by rewrite update_msg_ids|done].
    unfold conv_bytes in *. simpl. by rewrite Hw, Hlen.
  - unfold mark_read. destruct (convs h !! did) as [c|] eqn:Hc; [|done]. case_if; [done|].
    eapply update_inv; [done..| |done]. destruct (hi_convs _ Hi _ _ Hc) as [Hd Hl Hb Hn Hu].
    by split.
  - unfold clear. destruct (convs h !! did) as [c|] eqn:Hc; [|done]. by eapply delete_inv.
Qed.

Lemma empty_history_inv : history_inv empty_history.
Proof. split; simpl; [done|apply map_Forall_empty|set_solver|set_solver]. Qed.

Lemma foldl_hist_inv ops h : history_inv h → history_inv (foldl hist_step h ops).
Proof. revert h. induction ops as [|op ops IH]; simpl; [done|]. intros h Hh. by apply IH, hist_step_inv. Qed.

(** An incoming message for another conversation. *)
Definition from_stranger (d : string) (op : hist_op) : Prop :=
  match op with OpAdd _ did _ _ remote => remote = true ∧ did ≠ d | _ => False end.

Lemma strangers_keep ops h d c :
  convs h !! d = Some c → solicited c = true → Forall (from_stranger d) ops →
  convs (foldl hist_step h ops) !! d = Some c.
Proof.
  revert h. induction ops as [|op ops IH]; intros h Hc Hs Hops; [done|].
  inversion_clear Hops as [|?? Hop Hops']. simpl. apply IH; [|done..].
  destruct op as [keys did msg now remote| | |]; [|done..]. destruct Hop as [-> Hne]. simpl.
  destruct (add h keys did msg now true) as [h' r] eqn:Ha. simpl.
  apply add_spec in Ha as [[-> _]|(_ & h0 & c' & Hh0 & _ & ->)]; [done|]. simpl.
  rewrite lookup_insert_ne by done. destruct Hh0 as [[-> _]|(_ & _ & Hm)]; [done|].
  apply make_room_spec in Hm as (v & cv & Hv & Hu & ->). simpl.
  rewrite lookup_delete_ne; [done|]. intros ->. rewrite Hc in Hv. injection Hv as <-.
  rewrite Hu in Hs; done.
Qed.

(** C39. The history stays bounded and fair under anything the peers send and
    the user does: at most 200 conversations, each under its own DID, with at
    most 500 messages of distinct ids and 256 KiB (or one message), and the
    disk work pending is consistent with the table. Messages of other peers,
    however many and from however many minted identities, never remove or touch
    a conversation the user has written in. And a message is refused for lack of
    room only when it is an unsolicited newcomer and every conversation of a
    full table is one the user wrote in. *)
Theorem dm_history_fair ops strangers d c keys did msg now remote :
  let h := foldl hist_step empty_history ops in
  history_inv h ∧
  (convs h !! d = Some c → solicited c = true → Forall (from_stranger d) strangers →
     convs (foldl hist_step h strangers) !! d = Some c) ∧
  ((∀ k, is_Some (convs h !! k) → k ∈ keys) →
     (add h keys did msg now remote).2 = Err Full →
     remote = true ∧ convs h !! did = None ∧ zsize (convs h) = MAX_CONVERSATIONS ∧
     map_Forall (λ _ c, solicited c = true) (convs h)).
Proof.
  cbv zeta. assert (Hi : history_inv (foldl hist_step empty_history ops))
    by apply foldl_hist_inv, empty_history_inv.
  set (h := foldl _ _ _) in *. split_and!; [done|apply strangers_keep|].
  intros Hkeys Hfull. destruct (add h keys did msg now remote) as [h' r] eqn:Ha. simpl in Hfull. subst r.
  apply add_spec in Ha as [[_ [?|(_ & Hn & Hl & Hm)]]|[? _]]; [done| |done].
  assert (Hsize := hi_size _ Hi).
  assert (Hne : lru (convs h) true keys = None)
    by (unfold make_room in Hm; by destruct (lru (convs h) true keys) as [[]|]).
  assert (Hall : map_Forall (λ _ c, solicited c = true) (convs h)).
  { intros k x Hx. assert (Hk : k ∈ keys) by (apply Hkeys; by exists x).
    by destruct (lru_None _ _ _ Hne k x Hk Hx). }
  split_and!; [|done|lia|done].
  destruct remote; [done|]. exfalso. unfold make_room in Hm. rewrite Hne in Hm.
  destruct (lru (convs h) false keys) as [[v n]|] eqn:Hl'; [done|].
  assert (Hpos : 0 < zsize (convs h)) by (change MAX_CONVERSATIONS with 200 in Hl; lia).
  destruct (map_choose (convs h)) as (k & x & Hx).
  { intros He. rewrite He in Hpos. done. }
  assert (Hk : k ∈ keys) by (apply Hkeys; by exists x).
  by destruct (lru_None _ _ _ Hl' k x Hk Hx).
Qed.
