(* ===== verification/DmService.v ===== *)
(** * Direct messages: the service

    [src/src/dm/mod.rs]: every check of an incoming message in order, the
    message a send leaves in the history, and the theorems: a message is
    accepted at most once and only when it is authentic; a built message and
    its receipt arrive. *)
From S2P Require Import Prelude Json Wire ReplayCache DmWire DmHistory.

Inductive Outcome :=
| Ignored
| Rejected (r : Reject)
| NotAdmitted
| DuplicateMsg
| RateLimited
| HistoryFull
| Accepted (from_did id : string)
| AckApplied (upgraded : bool).

Record Inbox := { dedupe : Dedupe; limiter : RateLimiter }.
Record Service := { history : History; inbox : Inbox }.

Definition new_service (now : Z) (h : History) : Service :=
  {| history := h; inbox := {| dedupe := empty_dedupe; limiter := new_limiter now |} |}.

Section service.
Context {C : Crypto} {T : JsonText}.

Definition stored (m : DmMessage) : StoredMsg :=
  {| msg_id := id m; mine := false; ts_ms := ts m; msg_text := text m; msg_file := file m;
     status := Received |}.

(** [process_inbound]; [keys] is the iteration order of the table of
    conversations, should one have to be evicted. *)
Definition process_inbound (our_did : string) (s : Service) (from data : string) (now_ms now : Z)
    (allowed_did : string → bool) (keys : list string) : Service * Outcome :=
  match precheck data from our_did now_ms with
  | Err NotOurs | Err Oversized => (s, Ignored)
  | Err r => (s, Rejected r)
  | Ok pre =>
      if negb (allowed_did (pre_from pre)) then (s, NotAdmitted) else
      if negb (is_ack pre) && dedupe_contains (dedupe (inbox s)) (pre_from pre) (pre_id pre)
      then (s, DuplicateMsg) else
      let '(l, allowed) := allow (limiter (inbox s)) from now in
      let s := {| history := history s; inbox := {| dedupe := dedupe (inbox s); limiter := l |} |} in
      if negb allowed then (s, RateLimited) else
      match verify_pre pre with
      | Err r => (s, Rejected r)
      | Ok (Message msg) =>
          let '(d, new) := dedupe_insert (dedupe (inbox s)) (from_did msg) (id msg) now in
          let s := {| history := history s; inbox := {| dedupe := d; limiter := limiter (inbox s) |} |} in
          if negb new then (s, DuplicateMsg) else
          let '(h, r) := add (history s) keys (from_did msg) (stored msg) now_ms true in
          ({| history := h; inbox := inbox s |},
           match r with
           | Ok _ => Accepted (from_did msg) (id msg)
           | Err Duplicate => DuplicateMsg
           | Err Full => HistoryFull
           end)
      | Ok (Ack ack) =>
          let '(h, upgraded) := mark_delivered (history s) (ack_from_did ack) (ack_id ack) in
          ({| history := h; inbox := inbox s |}, AckApplied upgraded)
      end
  end.

(** The message [send] records after trying to deliver it: its own copy has no
    file key. *)
Definition sent_message (id : string) (ts : Z) (text : option string) (file : option FileMeta)
    (sent : bool) : StoredMsg :=
  {| msg_id := id; mine := true; ts_ms := ts; msg_text := text;
     msg_file := (λ f, {| cid := cid f; name := name f; size := size f; mime := mime f; key := "" |}) <$> file;
     status := if sent then Sent else Failed |}.

(** ** What an accepted message proves *)

(** The wire is signed by the sender's key, addressed to us, and fresh. *)
Record authentic (our_did from : string) (now_ms : Z) (w : json) (m : DmMessage) : Prop := {
  au_signed : wire_ok w = true;
  au_from : get_str "fromId" w = Some (from_did m);
  au_node : node_id_for_did (from_did m) = from;
  au_to : get_str "to" w = Some our_did;
  au_other : from_did m ≠ our_did;
  au_ts : get_u64 "ts" w = Some (ts m) ∧ Z.abs (ts m - now_ms) ≤ MAX_SKEW_MS;
  au_id : get_str "id" w = Some (id m) ∧ is_valid_id (id m) = true;
  au_tag : get_str "t" w = Some MSG_TAG;
  au_content : validate_content (text m) (file m) = Ok tt;
}.

Lemma map_err_Ok {A E F} (f : E → F) (r : result A E) a : map_err f r = Ok a ↔ r = Ok a.
Proof. destruct r; naive_solver. Qed.

Lemma precheck_spec data from our_did now_ms pre :
  precheck data from our_did now_ms = Ok pre →
  from_slice data = Some (value pre) ∧
  (∀ m, kind pre = KMessage → wire_ok (value pre) = true → 
     m = {| from_did := pre_from pre; id := pre_id pre; ts := pre_ts pre; text := pre_text pre;
            file := pre_file pre |} → authentic our_did from now_ms (value pre) m).
Proof.
  unfold precheck. intros H. case_if; [done|]. case_if; [done|].
  apply rbind_Ok in H as (v & Hv & H). apply ok_or_Ok in Hv.
  apply rbind_Ok in H as (l & _ & H). apply rbind_Ok in H as (k & Hk & H).
  apply rbind_Ok in H as (nd & Hn & H). case_if; [done|].
  apply rbind_Ok in H as (d & Hd & H). case_if; [done|].
  apply rbind_Ok in H as (t & Ht & H). case_if; [done|]. case_if; [done|].
  apply rbind_Ok in H as (z & Hz & H). case_if; [done|].
  apply rbind_Ok in H as (i & Hi & H). case_if; [done|].
  apply rbind_Ok in H as ([tx fl] & Hc & [= <-]). unfold str_field in *.
  apply ok_or_Ok in Hn, Hd, Ht, Hz, Hi. bools. subst.
  split; [done|]. intros m Hkm Hs ->. simpl in *. subst k.
  split; simpl; try done.
  - destruct (get_str "t" v) as [tag|]; [|done]. case_bool_decide; [by subst|].
    by case_bool_decide.
  - unfold parse_content in Hc. apply rbind_Ok in Hc as (tx' & _ & Hc).
    apply rbind_Ok in Hc as (fl' & _ & Hc). apply rbind_Ok in Hc as ([] & Hval & [= <- <-]).
    by apply map_err_Ok in Hval.
Qed.

Lemma accepted_inv our_did s from data now_ms now allowed_did keys s' d i :
  process_inbound our_did s from data now_ms now allowed_did keys = (s', Accepted d i) →
  ∃ w m, from_slice data = Some w ∧ authentic our_did from now_ms w m ∧ from_did m = d ∧ id m = i ∧
    allowed_did d = true ∧ dedupe_contains (dedupe (inbox s)) d i = false ∧
    (allow (limiter (inbox s)) from now).2 = true ∧
    inbox s' = {| dedupe := (dedupe_insert (dedupe (inbox s)) d i now).1;
                  limiter := (allow (limiter (inbox s)) from now).1 |} ∧
    (dedupe_insert (dedupe (inbox s)) d i now).2 = true ∧
    add (history s) keys d (stored m) now_ms true = (history s', Ok tt).
Proof.
  unfold process_inbound. intros H.
  destruct (precheck _ _ _ _) as [pre|r] eqn:Hp; [|by destruct r].
  apply precheck_spec in Hp as [Hw Hauth].
  destruct (allowed_did (pre_from pre)) eqn:Had; [|done]. simpl in H. case_if; [done|].
  destruct (allow _ _ _) as [l allowed] eqn:Hl. destruct allowed; [|done]. simpl in H.
  unfold verify_pre in H. destruct (wire_ok (value pre)) eqn:Hok; [|done]. simpl in H.
  destruct (kind pre) eqn:Hk; simpl in H.
  2:{ by destruct (mark_delivered _ _ _). }
  destruct (dedupe_insert _ _ _ _) as [d' new] eqn:Hd. destruct new; [|done]. simpl in H.
  destruct (add _ _ _ _ _ _) as [h r] eqn:Ha. destruct r as [[]|[]]; simplify_eq.
  eexists (value pre), _. split; [done|]. split; [by apply (Hauth _ eq_refl eq_refl eq_refl)|]. simpl.
  rewrite Hd. simpl. split_and!; try done.
  unfold is_ack in *. by rewrite Hk in *.
Qed.

(** ** Once *)

(** What happens to the service: an incoming message, or anything the local
    user does to the history. *)
Inductive dm_event :=
| Inbound (from data : string) (now_ms now : Z) (allowed_did : string → bool) (keys : list string)
| Local (h : History).

Definition dm_step (our_did : string) (s : Service) (e : dm_event) : Service :=
  match e with
  | Inbound from data now_ms now allowed_did keys => (process_inbound our_did s from data now_ms now allowed_did keys).1
  | Local h => {| history := h; inbox := inbox s |}
  end.

(** The monotonic clock only advances, and no event is later than [until]. *)
Fixpoint advancing (t until : Z) (es : list dm_event) : Prop :=
  match es with
  | [] => t ≤ until
  | Inbound _ _ _ now _ _ :: es => t ≤ now ∧ advancing now until es
  | Local _ :: es => advancing t until es
  end.

Lemma advancing_le t until es : advancing t until es → t ≤ until.
Proof.
  revert t. induction es as [|[] es IH]; simpl; [done| |auto].
  intros t [? ?%IH]. lia.
Qed.

(** The inbox at time [t]. *)
Record inbox_inv (b : Inbox) (t : Z) : Prop := {
  ii_cache : cache_inv (order (dedupe b)) (seen (dedupe b));
  ii_start : start (global (limiter b)) ≤ t;
  ii_count : 0 ≤ count (global (limiter b)) ≤ GLOBAL_PER_WINDOW;
}.

(** [allow] counts in the current window, or opens one that starts a whole
    window later. *)
Lemma allow_global r from now r' b :
  allow r from now = (r', b) →
  let g := global r in let g' := global r' in
  0 ≤ count g ≤ GLOBAL_PER_WINDOW → start g ≤ now →
  (start g' = start g ∧ count g' = count g + (if b then 1 else 0) ∨
   start g + WINDOW ≤ start g' ∧ start g' = now ∧ count g' = if b then 1 else 0) ∧
  0 ≤ count g' ≤ GLOBAL_PER_WINDOW.
Proof.
  unfold allow. set (g := if expired (global r) now then fresh now else global r).
  assert (Hg : start (global r) ≤ now → (g = global r ∨ g = fresh now ∧ start (global r) + WINDOW ≤ now)).
  { intros Hs. unfold g, expired, since. destruct (Z.leb_spec WINDOW (Z.max 0 (now - start (global r)))) as [Hw|];
      [right|by left]. split; [done|]. unfold WINDOW, SECOND in *. lia. }
  intros H. cbv zeta. intros Hc Hs. specialize (Hg Hs). change GLOBAL_PER_WINDOW with 300 in *.
  assert (Hcase : global r' = if b then bump g else g)
    by (cases_in H; done).
  assert (Hroom : b = true → count g < 300) by (intros ->; cases_in H; lia).
  rewrite Hcase. destruct b; [specialize (Hroom eq_refl)|clear Hroom];
    destruct Hg as [->|[-> Hw]]; simpl in *; lia.
Qed.

Lemma prune_cache d now :
  cache_inv (order d) (seen d) → cache_inv (order (prune d now)) (seen (prune d now)).
Proof.
  intros Hc. unfold prune. destruct (pop_while _ _ _) as [q s] eqn:Hp.
  by destruct (pop_while_spec _ _ _ _ _ Hc Hp).
Qed.

Lemma insert_cache d f i now :
  cache_inv (order d) (seen d) →
  let d' := (dedupe_insert d f i now).1 in cache_inv (order d') (seen d').
Proof.
  intros Hc. unfold dedupe_insert. cbv zeta. case_bool_decide; [by apply prune_cache|].
  simpl. apply cache_inv_push; [by apply prune_cache|done].
Qed.

(** The inbox after an incoming message: unchanged, charged, or charged and
    remembering its key. *)
Lemma inbox_after our_did s from data now_ms now allowed_did keys :
  let b := inbox s in
  let b' := inbox (process_inbound our_did s from data now_ms now allowed_did keys).1 in
  let r := allow (limiter b) from now in
  b' = b ∨ (limiter b' = r.1 ∧
    (dedupe b' = dedupe b ∨
     r.2 = true ∧ ∃ d i, dedupe b' = (dedupe_insert (dedupe b) d i now).1)).
Proof.
  cbv zeta. unfold process_inbound. destruct (precheck _ _ _ _) as [pre|r]; [|left; by destruct r].
  case_if; [by left|]. case_if; [by left|].
  destruct (allow _ _ _) as [l allowed]. destruct allowed; simpl; [|right; eauto].
  destruct (verify_pre pre) as [[m|a]|r]; simpl; [| |right; eauto].
  - destruct (dedupe_insert _ _ _ _) as [d new] eqn:Hd. right.
    assert (Hd' : ∃ d0 i, d = (dedupe_insert (dedupe (inbox s)) d0 i now).1)
      by (exists (from_did m), (id m); by rewrite Hd).
    destruct new; simpl; [|by eauto]. destruct (add _ _ _ _ _ _) as [h []]; simpl; eauto.
  - destruct (mark_delivered _ _ _). simpl. right. eauto.
Qed.

Lemma inbound_inv our_did s from data now_ms now allowed_did keys t :
  inbox_inv (inbox s) t → t ≤ now →
  inbox_inv (inbox (process_inbound our_did s from data now_ms now allowed_did keys).1) now.
Proof.
  intros [Hc Hs Hn] Ht.
  destruct (inbox_after our_did s from data now_ms now allowed_did keys) as [->|[Hl Hd]].
  { split; [done|lia|done]. }
  destruct (allow (limiter (inbox s)) from now) as [r' b] eqn:Ha.
  apply allow_global in Ha as [Hcase Hcount]; [|done|lia]. cbn [fst snd] in *.
  split; rewrite ?Hl; [|lia|done].
  destruct Hd as [->|(_ & d & i & ->)]; [done|]. by apply insert_cache.
Qed.

(** [x] was remembered in the window that started at [g0], [j] windows have
    been opened since, and no more than their budget is queued behind it. *)
Definition remembered (b : Inbox) (x : Z * string) (g0 : Z) : Prop :=
  ∃ n j, queued (order (dedupe b)) x n ∧ 0 ≤ j ∧
    n ≤ GLOBAL_PER_WINDOW * j + count (global (limiter b)) ∧
    g0 + j * WINDOW ≤ start (global (limiter b)).

Lemma queued_le q x n m : queued q x n → n ≤ m → queued q x m.
Proof. intros (d & e & -> & ?) ?. exists d, e. split; [done|lia]. Qed.

(** Within the retention time, the capacity of the cache never evicts an entry
    while at most 8100 are behind it. *)
Lemma insert_queued d x n f i now :
  queued (order d) x n → x.1 ≤ now ≤ x.1 + DEDUPE_TTL → n < 16000 →
  queued (order (dedupe_insert d f i now).1) x (n + 1).
Proof.
  intros Hq Hnow Hn. unfold dedupe_insert, prune.
  pose proof (queued_pop (λ len at_, negb ((since now at_ <=? DEDUPE_TTL) && (len <? DEDUPE_MAX)))
    (order d) (seen d) x n Hq) as Hp.
  destruct (pop_while _ _ _) as [q s]. simpl in Hp.
  assert (Hq' : queued q x n).
  { apply Hp. intros l Hl. apply negb_false_iff, andb_true_iff. unfold since, DEDUPE_TTL, DEDUPE_MAX in *.
    rewrite Z.leb_le, Z.ltb_lt. lia. }
  case_bool_decide; simpl; [by eapply queued_le; [done|lia]|]. by apply queued_push.
Qed.

Lemma remembered_inbound our_did s from data now_ms now allowed_did keys t x g0 :
  inbox_inv (inbox s) t → t ≤ now → x.1 - WINDOW < g0 → x.1 ≤ now ≤ x.1 + DEDUPE_TTL →
  remembered (inbox s) x g0 →
  remembered (inbox (process_inbound our_did s from data now_ms now allowed_did keys).1) x g0.
Proof.
  intros [Hc Hs Hn] Ht Hg0 Hnow (n & j & Hq & Hj & Hnj & Hg).
  destruct (inbox_after our_did s from data now_ms now allowed_did keys) as [->|[Hl Hd]]; [by exists n, j|].
  destruct (allow (limiter (inbox s)) from now) as [r' b] eqn:Ha. cbn [fst snd] in *.
  apply allow_global in Ha as [Hcase Hcount]; [|done|lia].
  change GLOBAL_PER_WINDOW with 300 in *. change WINDOW with (60 * SECOND) in *.
  change DEDUPE_TTL with (1500 * SECOND) in *.
  assert (HS : 0 < SECOND) by done.
  assert (Hj26 : j ≤ 26) by nia.
  assert (Hn' : ∃ n', queued (order (dedupe (inbox (process_inbound our_did s from data now_ms now allowed_did keys).1))) x n' ∧
    n' ≤ n + (if b then 1 else 0)).
  { destruct Hd as [->|(-> & d & i & ->)].
    - exists n. split; [done|]. destruct b; lia.
    - exists (n + 1). split; [|lia]. apply insert_queued; [done|exact Hnow|lia]. }
  destruct Hn' as (n' & Hq' & Hn'). unfold remembered. rewrite Hl.
  change GLOBAL_PER_WINDOW with 300. change WINDOW with (60 * SECOND).
  destruct Hcase as [[Hst Hct]|(Hst & Hstn & Hct)]; rewrite Hct.
  - exists n', j. split_and!; (done || lia).
  - exists n', (j + 1). split_and!; (done || lia).
Qed.

Lemma remembered_contains b x g0 f i :
  cache_inv (order (dedupe b)) (seen (dedupe b)) → x.2 = dedupe_key f i → remembered b x g0 →
  dedupe_contains (dedupe b) f i = true.
Proof.
  intros Hc Hx (n & j & Hq & _). apply bool_decide_eq_true.
  apply (cache_inv_elem _ _ _ Hc). exists x.1. rewrite <-Hx. apply queued_elem in Hq. by destruct x.
Qed.

Lemma events_remember our_did s es t until x g0 :
  inbox_inv (inbox s) t → advancing t until es → x.1 ≤ t → until ≤ x.1 + DEDUPE_TTL →
  x.1 - WINDOW < g0 → remembered (inbox s) x g0 →
  remembered (inbox (foldl (dm_step our_did) s es)) x g0 ∧
  ∃ t', inbox_inv (inbox (foldl (dm_step our_did) s es)) t' ∧ t' ≤ until.
Proof.
  revert s t. induction es as [|e es IH]; intros s t Hinv Hadv Hxt Hu Hg Hr; simpl in *.
  { split; [done|]. by exists t. }
  destruct e as [from data now_ms now allowed_did keys|h]; [|by apply (IH _ t)].
  destruct Hadv as [Htn Hadv]. pose proof (advancing_le _ _ _ Hadv) as Hle.
  apply (IH _ now); try done; [|lia|].
  - by apply (inbound_inv _ _ _ _ _ _ _ _ t).
  - apply (remembered_inbound _ _ _ _ _ _ _ _ t); (done || lia).
Qed.

Lemma accepted_remembered our_did s from data now_ms now allowed_did keys s' d i t :
  inbox_inv (inbox s) t → t ≤ now →
  process_inbound our_did s from data now_ms now allowed_did keys = (s', Accepted d i) →
  ∃ g0, now - WINDOW < g0 ∧ remembered (inbox s') (now, dedupe_key d i) g0 ∧ inbox_inv (inbox s') now.
Proof.
  intros Hinv Ht Hp. pose proof (inbound_inv our_did s from data now_ms now allowed_did keys t Hinv Ht) as Hinv'.
  rewrite Hp in Hinv'. cbn [fst] in Hinv'.
  apply accepted_inv in Hp as (w & m & _ & _ & _ & _ & _ & _ & Hal & Hb & Hnew & _).
  destruct (allow _ _ _) as [r' b] eqn:Ha. cbn [snd fst] in *. subst b.
  destruct Hinv as [Hc Hs Hn]. pose proof Ha as Ha'.
  apply allow_global in Ha as [Hcase Hcount]; [|done|lia].
  exists (start (global r')). split_and!; [|exists 0, 0|done].
  - unfold allow in Ha'. set (g := if expired (global (limiter (inbox s))) now then _ else _) in Ha'.
    assert (Hg : start (global r') = start g) by (cases_in Ha'; done).
    rewrite Hg. unfold g, expired, since. change WINDOW with (60 * SECOND).
    assert (0 < SECOND) by done. case_if; simpl; bools; lia.
  - rewrite Hb. simpl. split_and!; try lia. unfold dedupe_insert in *.
    case_bool_decide; [done|]. simpl. apply queued_last.
Qed.
End service.

Lemma new_inbox_inv t : inbox_inv {| dedupe := empty_dedupe; limiter := new_limiter t |} t.
Proof. split; simpl; [apply cache_inv_nil|lia|done]. Qed.

Lemma events_inbox {C : Crypto} {T : JsonText} our_did s es t until :
  inbox_inv (inbox s) t → advancing t until es →
  ∃ t', inbox_inv (inbox (foldl (dm_step our_did) s es)) t' ∧ t' ≤ until.
Proof.
  revert s t. induction es as [|e es IH]; intros s t Hinv Hadv; simpl in *; [by exists t|].
  destruct e as [from data now_ms now allowed_did keys|h]; [|by apply (IH _ t)].
  destruct Hadv as [Htn Hadv]. apply (IH _ now); [|done]. by apply (inbound_inv _ _ _ _ _ _ _ _ t).
Qed.

(** C37. A direct message is accepted at most once, and only when it is
    authentic. Whatever has been received before, an accepted message is
    signed by the sender's key, comes from the node of that key, is addressed
    to our DID, is fresh, admitted and well-formed. After it, whatever else is
    received and whatever the user does, no message of the same sender with the
    same id is accepted for 25 minutes, and the same bytes are never accepted
    again: by the time the cache has forgotten them their timestamp is stale,
    as long as the wall clock lags the monotonic clock by at most five
    minutes. The rate limits alone keep the cache from overflowing. *)
Theorem dm_accepted_once {C : Crypto} {T : JsonText} our_did t0 h es1 from data ms1 now1 allowed_did keys
    s2 d i es2 from2 data2 ms2 now2 admit2 keys2 :
  let s1 := foldl (dm_step our_did) (new_service t0 h) es1 in
  let s3 := foldl (dm_step our_did) s2 es2 in
  advancing t0 now1 es1 → advancing now1 now2 es2 →
  now2 - now1 ≤ (ms2 - ms1) * 10 ^ 6 + 300 * SECOND →
  process_inbound our_did s1 from data ms1 now1 allowed_did keys = (s2, Accepted d i) →
  (∃ w m, from_slice data = Some w ∧ authentic our_did from ms1 w m ∧ from_did m = d ∧ id m = i ∧
     allowed_did d = true) ∧
  ∀ d' i', data2 = data ∨ (d' = d ∧ i' = i ∧ now2 ≤ now1 + DEDUPE_TTL) →
    (process_inbound our_did s3 from2 data2 ms2 now2 admit2 keys2).2 ≠ Accepted d' i'.
Proof.
  cbv zeta. intros Hadv1 Hadv2 Hclock Hacc.
  destruct (events_inbox our_did (new_service t0 h) es1 t0 now1 (new_inbox_inv t0) Hadv1)
    as (t1 & Hinv1 & Ht1).
  destruct (accepted_remembered _ _ _ _ _ _ _ _ _ _ _ _ Hinv1 Ht1 Hacc) as (g0 & Hg0 & Hrem & Hinv2).
  destruct (accepted_inv _ _ _ _ _ _ _ _ _ _ _ Hacc) as (w & m & Hw & Hauth & Hd & Hi & Hadm & _).
  split; [by exists w, m|].
  intros d' i' Hsame Hout.
  destruct (process_inbound our_did _ from2 data2 ms2 now2 admit2 keys2) as [s4 o] eqn:Hacc2.
  simpl in Hout. subst o. apply accepted_inv in Hacc2 as (w' & m' & Hw' & Hauth' & Hd' & Hi' & _ & Hno & _).
  assert (Hkey : d' = d ∧ i' = i ∧ now2 ≤ now1 + DEDUPE_TTL).
  { destruct Hsame as [->|?]; [|done]. rewrite Hw in Hw'. injection Hw' as <-.
    destruct Hauth as [_ Hf _ _ _ [Hts Hsk] [Hid _] _ _], Hauth' as [_ Hf' _ _ _ [Hts' Hsk'] [Hid' _] _ _].
    rewrite Hf in Hf'. rewrite Hid in Hid'. rewrite Hts in Hts'. simplify_eq.
    split; [done|]. split; [done|]. rewrite <-Hts' in Hsk'.
    change MAX_SKEW_MS with 600000 in *. change DEDUPE_TTL with (1500 * SECOND).
    change (10 ^ 6) with 1000000 in Hclock. change SECOND with 1000000000 in *. lia. }
  destruct Hkey as (-> & -> & Httl). apply advancing_le in Hadv2 as Hle.
  destruct (events_remember our_did s2 es2 now1 now2 (now1, dedupe_key d i) g0
    Hinv2 Hadv2 (Z.le_refl _) Httl Hg0 Hrem) as [Hr (t' & [Hc _ _] & _)].
  rewrite (remembered_contains _ (now1, dedupe_key d i) g0 d i Hc eq_refl Hr) in Hno. discriminate Hno.
Qed.

(** ** A concrete message *)
Module DmToy.

Definition msg_id : string := "00112233445566778899aabbccddeeff".
Definition wire : json :=
  match sign_wire (insert_opt "text" (Some (JString "hello"))
      (base_wire MSG_TAG Toy.alice (did Toy.bob) msg_id 1000000)) Toy.alice with
  | Ok w => w
  | Err _ => JNull
  end.

Definition ack_wire : json :=
  match sign_wire (base_wire ACK_TAG Toy.bob (did Toy.alice) msg_id 1000700) Toy.bob with
  | Ok w => w
  | Err _ => JNull
  end.

(** A parser that knows these two texts. *)
#[global] Instance text : JsonText := {|
  to_vec := stable_stringify;
  from_slice s := if bool_decide (s = stable_stringify wire) then Some wire
                  else if bool_decide (s = stable_stringify ack_wire) then Some ack_wire else None;
|}.

Definition data : string := to_vec wire.
Definition alice_node : string := node_id Toy.alice.
Definition everyone : string → bool := λ _, true.
Definition first : Service * Outcome :=
  process_inbound (did Toy.bob) (new_service 0 empty_history) alice_node data 1000500 SECOND everyone [].
End DmToy.

Lemma dm_accepted_once_witness :
  DmToy.first.2 = Accepted (did Toy.alice) DmToy.msg_id ∧
  (process_inbound (did Toy.bob) DmToy.first.1 DmToy.alice_node DmToy.data 1001500 (2 * SECOND)
     DmToy.everyone []).2 ≠ Accepted (did Toy.alice) DmToy.msg_id.
Proof.
  assert (Hacc : DmToy.first.2 = Accepted (did Toy.alice) DmToy.msg_id) by (by vm_compute).
  split; [done|].
  refine (proj2 (dm_accepted_once (did Toy.bob) 0 empty_history [] DmToy.alice_node DmToy.data 1000500
    SECOND DmToy.everyone [] DmToy.first.1 (did Toy.alice) DmToy.msg_id [] DmToy.alice_node DmToy.data
    1001500 (2 * SECOND) DmToy.everyone [] _ _ _ _) _ _ (or_introl eq_refl)).
  - by vm_compute.
  - by vm_compute.
  - by vm_compute.
  - rewrite <-Hacc. apply surjective_pairing.
Defined.

(** ** Delivery *)

Section delivery.
Context {C : Crypto} {T : JsonText}.

(** What the JSON printer and parser do with a wire: the text is parsed back,
    and shows the tag. *)
Record text_faithful (w : json) : Prop := {
  tf_parses : from_slice (to_vec w) = Some w;
  tf_tagged : has_window TAG_PREFIX (to_vec w) = true;
  tf_small : slen (to_vec w) ≤ MAX_WIRE_BYTES;
}.

Definition message_wire (identity : Identity) (to id : string) (ts : Z) (text : option string)
    (file : option FileMeta) : json :=
  insert_opt "file" (file_json <$> file)
    (insert_opt "text" (JString <$> text) (base_wire MSG_TAG identity to id ts)).

Lemma sign_get w identity w' k :
  sign_wire w identity = Ok w' → k ≠ "signature" → get k w' = get k w.
Proof.
  unfold sign_wire. intros H Hk. apply rbind_Ok in H as (l & Hl & H). apply ok_or_Ok in Hl.
  apply rbind_Ok in H as (f & _ & H). case_if; [done|]. injection H as <-.
  destruct w; simplify_eq/=. rewrite assoc_obj_insert. by rewrite bool_decide_false.
Qed.

Lemma get_insert_opt k key v w :
  is_Some (as_object w) →
  get k (insert_opt key v w) = if bool_decide (key = k) then match v with Some v => Some v | None => get k w end else get k w.
Proof.
  intros [l Hl]. destruct w; simplify_eq/=. destruct v as [v|]; simpl.
  - rewrite assoc_obj_insert. by case_bool_decide.
  - by case_bool_decide.
Qed.

Lemma message_wire_get identity to id ts text file k :
  get k (message_wire identity to id ts text file) =
    if bool_decide ("file" = k) then file_json <$> file
    else if bool_decide ("text" = k) then JString <$> text
    else get k (base_wire MSG_TAG identity to id ts).
Proof.
  unfold message_wire. rewrite !get_insert_opt; [|by eexists|by destruct text; eexists].
  case_bool_decide as Hf; [subst k|case_bool_decide as Ht; [subst k|done]].
  - change (get "file" (base_wire MSG_TAG identity to id ts)) with (@None json).
    simpl. by destruct file.
  - change (get "text" (base_wire MSG_TAG identity to id ts)) with (@None json). by destruct text.
Qed.

Lemma parse_file_json f : parse_file (file_json f) = Ok f.
Proof. by destruct f. Qed.

Lemma parse_content_message v text file :
  get "text" v = JString <$> text → get "file" v = file_json <$> file →
  validate_content text file = Ok tt → parse_content v = Ok (text, file).
Proof.
  intros Ht Hf Hv. unfold parse_content. rewrite Ht, Hf.
  destruct text as [t|]; cbn [fmap option_fmap option_map as_str ok_or rbind];
    (destruct file as [f|]; cbn [fmap option_fmap option_map rbind];
     [rewrite parse_file_json; cbn [rbind]|]); by rewrite Hv.
Qed.

(** A wire with the base fields passes every check of [precheck] but those on
    its content. *)
Lemma precheck_ok tag k identity our_did id ts now_ms v content :
  (tag = MSG_TAG ∧ k = KMessage ∨ tag = ACK_TAG ∧ k = KAck) →
  text_faithful v → is_Some (as_object v) →
  (∀ key, key ∈ ["t"; "node"; "fromId"; "to"; "id"; "ts"] →
     get key v = get key (base_wire tag identity our_did id ts)) →
  identity_wf identity → did identity ≠ our_did → is_valid_id id = true →
  Z.abs (ts - now_ms) ≤ MAX_SKEW_MS →
  match k with KMessage => parse_content v | KAck => Ok (None, None) end = Ok content →
  precheck (to_vec v) (node_id identity) our_did now_ms =
    Ok {| kind := k; value := v; pre_from := did identity; pre_id := id; pre_ts := ts;
          pre_text := content.1; pre_file := content.2 |}.
Proof.
  intros Htag [Hp Hw Hs] [l Hl] Hget Hwf Hne Hid Hts Hc.
  assert (Hg : get_str "t" v = Some tag ∧ get_str "node" v = Some (node_id identity) ∧
    get_str "fromId" v = Some (did identity) ∧ get_str "to" v = Some our_did ∧
    get_str "id" v = Some id ∧ get_u64 "ts" v = Some ts)
    by (unfold get_str, get_u64; rewrite !Hget by set_solver; done).
  destruct Hg as (H1 & H2 & H3 & H4 & H5 & H6).
  unfold precheck, looks_like_dm, str_field.
  rewrite (proj2 (Z.ltb_ge _ _) Hs), (proj2 (Z.leb_le _ _) Hs), Hw, Hp. cbn [negb andb ok_or rbind].
  rewrite Hl, H1, H2, H3, H4, H5, H6. cbn [ok_or rbind].
  assert (Hk : (if bool_decide (tag = MSG_TAG) then Ok KMessage
    else if bool_decide (tag = ACK_TAG) then Ok KAck else Err NotOurs) = (Ok k : result Kind Reject))
    by (destruct Htag as [[-> ->]|[-> ->]]; done).
  rewrite Hk. cbn [rbind].
  rewrite bool_decide_true by done. cbn [negb].
  rewrite (pubkey_from_did_len _ _ Hwf), Z.eqb_refl, bool_decide_true by done. cbn [negb orb].
  rewrite bool_decide_true, (bool_decide_false _ Hne) by done. cbn [negb].
  rewrite (proj2 (Z.ltb_ge _ _) Hts), Hid. cbn [negb]. by rewrite Hc.
Qed.

Lemma pop_while_subset p q s : (pop_while p q s).2 ⊆ s.
Proof.
  revert s. induction q as [|[t k] q IH]; intros s; simpl; [done|].
  case_if; [|done]. etrans; [apply IH|set_solver].
Qed.

Lemma insert_new d f i now :
  dedupe_contains d f i = false → (dedupe_insert d f i now).2 = true.
Proof.
  unfold dedupe_contains, dedupe_insert, prune. intros Hc. bools.
  pose proof (pop_while_subset
    (λ len at_, negb ((since now at_ <=? DEDUPE_TTL) && (len <? DEDUPE_MAX))) (order d) (seen d)) as Hs.
  destruct (pop_while _ _ _) as [q s]. simpl in *. case_bool_decide; [set_solver|done].
Qed.

(** *** The history *)

Lemma trim_count_last l m : ∃ l', trim_count (l ++ [m]) = l' ++ [m] ∧ sublist l' l.
Proof.
  induction l as [|x l IH]; simpl.
  - exists []. by split.
  - case_if.
    + destruct IH as (l' & -> & Hs). exists l'. split; [done|by constructor].
    + exists (x :: l). by split.
Qed.

Lemma trim_bytes_last n l m : ∃ l', trim_bytes n (l ++ [m]) = l' ++ [m] ∧ sublist l' l.
Proof.
  revert n. induction l as [|x l IH]; intros n; simpl.
  - exists []. rewrite andb_false_r. by split.
  - case_if.
    + destruct (IH (n - weight x)) as (l' & -> & Hs). exists l'. split; [done|by constructor].
    + exists (x :: l). by split.
Qed.

Lemma find_msg_last id l m :
  existsb (λ x, bool_decide (DmHistory.msg_id x = id)) l = false → DmHistory.msg_id m = id →
  find_msg id (l ++ [m]) = Some m.
Proof.
  intros Hno Hm. unfold find_msg. induction l as [|x l IH]; simpl in *.
  - by rewrite bool_decide_true.
  - bools. rewrite bool_decide_false by done. by apply IH.
Qed.

Lemma existsb_sublist {A} (f : A → bool) l k :
  sublist l k → existsb f k = false → existsb f l = false.
Proof.
  intros Hs. rewrite !existsb_elem_false. intros H x Hx. apply H. by eapply elem_of_sublist.
Qed.

(** An added message is found, whatever had to be trimmed. *)
Lemma add_message h keys d m now r h' :
  add h keys d m now r = (h', Ok tt) → message h' d (DmHistory.msg_id m) = Some m.
Proof.
  unfold add. intros H. case_if; [done|].
  set (room := if negb (is_some (convs h !! d)) && _ then _ else _) in H.
  assert (Hroom : ∀ h0, room = Some h0 → convs h0 !! d = convs h !! d).
  { unfold room. destruct (convs h !! d) as [c|] eqn:Hc; simpl; [by intros h0 [= <-]|].
    case_if; [|by intros h0 [= <-]]. intros h0. unfold make_room. intros Hm. cases_in Hm; simpl.
    all: rewrite lookup_delete_None; by right. }
  destruct room as [h0|]; [|done]. specialize (Hroom h0 eq_refl). injection H as <-.
  unfold message. simpl. rewrite lookup_insert_eq. cbn [mbind option_bind]. rewrite Hroom.
  set (c := default _ (convs h !! d)). set (ms := messages c).
  assert (Hno : existsb (λ x, bool_decide (DmHistory.msg_id x = DmHistory.msg_id m)) ms = false).
  { unfold ms, c. by destruct (convs h !! d). }
  unfold trim. simpl.
  destruct (trim_count_last ms m) as (l1 & Hl1 & Hs1). fold ms. rewrite Hl1.
  match goal with |- context [trim_bytes ?n _] => destruct (trim_bytes_last n l1 m) as (l2 & -> & Hs2) end.
  apply find_msg_last; [|done]. eapply existsb_sublist; [|exact Hno]. by transitivity l1.
Qed.

Lemma find_update id l m s :
  find_msg id l = Some m → find_msg id (update_msg id (set_status s) l) = Some (set_status s m).
Proof.
  unfold find_msg. induction l as [|x l IH]; simpl; [done|].
  case_bool_decide as Hx; simpl.
  - intros [= <-]. by rewrite bool_decide_true.
  - rewrite (bool_decide_false _ Hx). done.
Qed.

Lemma mark_delivered_found h d i m :
  message h d i = Some m → mine m = true → status m = Sent →
  ∃ h', mark_delivered h d i = (h', true) ∧ message h' d i = Some (set_status Delivered m).
Proof.
  unfold message, mark_delivered. intros Hm Hmine Hst.
  destruct (convs h !! d) as [c|] eqn:Hc; [|done]. cbn [mbind option_bind] in Hm. rewrite Hm, Hmine, Hst.
  simpl. eexists. split; [reflexivity|]. simpl. rewrite lookup_insert_eq.
  cbn [mbind option_bind]. by apply find_update.
Qed.
End delivery.

(** C38. Delivery end to end. When [a] builds a message for [b] the text it
    sends is accepted by [b] - who admits [a], is within its rate limits and
    has room - stored under [a]'s DID with exactly the text and the file that
    were sent; and the receipt [b] builds turns [a]'s copy from sent to
    delivered. *)
Theorem dm_delivered {C : Crypto} {T : JsonText} `{!CryptoLaws C} a b id ts text file wm wa ts2
    sa sb now_b nb now_a na admit_a admit_b keys sent :
  identity_wf a → identity_wf b → did a ≠ did b → is_valid_id id = true →
  validate_content text file = Ok tt →
  sign_wire (message_wire a (did b) id ts text file) a = Ok wm → text_faithful wm →
  sign_wire (base_wire ACK_TAG b (did a) id ts2) b = Ok wa → text_faithful wa →
  Z.abs (ts - now_b) ≤ MAX_SKEW_MS → admit_b (did a) = true →
  dedupe_contains (dedupe (inbox sb)) (did a) id = false →
  (allow (limiter (inbox sb)) (node_id a) nb).2 = true →
  let m := {| from_did := did a; DmWire.id := id; DmWire.ts := ts; DmWire.text := text;
              DmWire.file := file |} in
  (add (history sb) keys (did a) (stored m) now_b true).2 = Ok tt →
  message (history sa) (did b) id = Some sent → mine sent = true → status sent = Sent →
  Z.abs (ts2 - now_a) ≤ MAX_SKEW_MS → admit_a (did b) = true →
  (allow (limiter (inbox sa)) (node_id b) na).2 = true →
  build_message a (did b) id ts text file = Ok (to_vec wm) ∧
  build_ack b (did a) id ts2 = Ok (to_vec wa) ∧
  (let rb := process_inbound (did b) sb (node_id a) (to_vec wm) now_b nb admit_b keys in
   rb.2 = Accepted (did a) id ∧ message (history rb.1) (did a) id = Some (stored m)) ∧
  (let ra := process_inbound (did a) sa (node_id b) (to_vec wa) now_a na admit_a keys in
   ra.2 = AckApplied true ∧ message (history ra.1) (did b) id = Some (set_status Delivered sent)).
Proof.
  intros Ha Hb Hne Hid Hval Hwm [Hpm Htm Hsm] Hwa [Hpa Hta Hsa] Hts Hadm Hnew Hallow m Hadd
    Hsent Hmine Hst Hts2 Hadm2 Hallow2.
  assert (Hokm : wire_ok wm = true)
    by (unfold wire_ok; by rewrite (sign_verify_roundtrip _ _ _ Ha Hwm)).
  assert (Hoka : wire_ok wa = true)
    by (unfold wire_ok; by rewrite (sign_verify_roundtrip _ _ _ Hb Hwa)).
  assert (Hobj : ∀ w idn w', sign_wire w idn = Ok w' → is_Some (as_object w')).
  { intros w idn w' H. unfold sign_wire in H. apply rbind_Ok in H as (l & _ & H).
    apply rbind_Ok in H as (f & _ & H). case_if; [done|]. injection H as <-. by eexists. }
  split; [|split; [|split]].
  - unfold build_message. rewrite Hval. cbn [rbind]. fold (message_wire a (did b) id ts text file).
    rewrite Hwm. cbn [rbind]. by rewrite (proj2 (Z.leb_le _ _) Hsm).
  - unfold build_ack. by rewrite Hwa.
  - assert (Hpre : precheck (to_vec wm) (node_id a) (did b) now_b = Ok {| kind := KMessage; value := wm;
      pre_from := did a; pre_id := id; pre_ts := ts; pre_text := text; pre_file := file |}).
    { apply (precheck_ok MSG_TAG KMessage a (did b) id ts now_b wm (text, file)); auto.
      - by split.
      - by eapply Hobj.
      - intros key Hk. rewrite (sign_get _ _ _ _ Hwm) by set_solver.
        rewrite message_wire_get, !bool_decide_false by set_solver. done.
      - apply parse_content_message; [| |done];
          rewrite (sign_get _ _ _ _ Hwm) by done; by rewrite message_wire_get. }
    unfold process_inbound. rewrite Hpre. cbn [pre_from pre_id is_ack kind value]. rewrite Hadm, Hnew.
    cbn [negb]. rewrite andb_false_r. destruct (allow _ _ _) as [l al]. cbn [snd] in Hallow. subst al.
    cbn [negb]. unfold verify_pre. cbn [value kind]. rewrite Hokm. cbn [negb inbox dedupe limiter history].
    fold m. change (from_did m) with (did a). change (DmWire.id m) with id.
    pose proof (insert_new _ _ _ nb Hnew) as Hi. destruct (dedupe_insert _ _ _ _) as [d new].
    cbn [snd] in Hi. subst new. cbn [negb].
    destruct (add _ _ _ _ _ _) as [h r] eqn:Hadd'. cbn [snd] in Hadd. subst r. cbn [fst snd history].
    split; [done|]. by apply (add_message _ _ _ (stored m)) in Hadd'.
  - assert (Hpre : precheck (to_vec wa) (node_id b) (did a) now_a = Ok {| kind := KAck; value := wa;
      pre_from := did b; pre_id := id; pre_ts := ts2; pre_text := None; pre_file := None |}).
    { apply (precheck_ok ACK_TAG KAck b (did a) id ts2 now_a wa (None, None)); auto.
      - by split.
      - by eapply Hobj.
      - intros key Hk. by rewrite (sign_get _ _ _ _ Hwa) by set_solver. }
    unfold process_inbound. rewrite Hpre. cbn [pre_from pre_id is_ack kind value]. rewrite Hadm2.
    cbn [negb]. cbn [andb].
    destruct (allow (limiter (inbox sa)) (node_id b) na) as [l al] eqn:Hal. cbn [snd] in Hallow2. subst al. cbn [negb].
    unfold verify_pre. cbn [value kind]. rewrite Hoka. cbn [negb history].
    cbn [ack_from_did ack_id pre_from pre_id].
    destruct (mark_delivered_found _ _ _ _ Hsent Hmine Hst) as (h' & -> & Hm). by split.
Qed.

(** [alice] has recorded the message she sent. *)
Definition alice_service : Service :=
  {| history := (add empty_history [] (did Toy.bob)
       (sent_message DmToy.msg_id 1000000 (Some "hello") None true) 1000000 false).1;
     inbox := inbox (new_service 0 empty_history) |}.

Lemma dm_delivered_witness :
  let r := process_inbound (did Toy.alice) alice_service (node_id Toy.bob) (to_vec DmToy.ack_wire)
    1000900 SECOND DmToy.everyone [] in
  r.2 = AckApplied true ∧
  message (history r.1) (did Toy.bob) DmToy.msg_id =
    Some (set_status Delivered (sent_message DmToy.msg_id 1000000 (Some "hello") None true)).
Proof.
  refine (proj2 (proj2 (proj2 (dm_delivered Toy.alice Toy.bob DmToy.msg_id 1000000 (Some "hello") None
    DmToy.wire DmToy.ack_wire 1000700 alice_service (new_service 0 empty_history) 1000500 SECOND
    1000900 SECOND DmToy.everyone DmToy.everyone []
    (sent_message DmToy.msg_id 1000000 (Some "hello") None true)
    _ _ _ _ _ _ _ _ _ _ _ _ _ _ _ _ _ _ _ _)))).
  all: try (split; vm_compute; (reflexivity || discriminate)).
  all: vm_compute; (reflexivity || discriminate).
Defined.
