(* ===== verification/DmDisk.v ===== *)
(** * Direct messages: the files of the history

    The theorem on [flush] of [src/src/dm/mod.rs] and [take_pending] of
    [history.rs]: what the directory holds after flushes that may fail at any
    file operation; and the deletion a failed flush forgets. *)
From S2P Require Import Prelude Json Wire DmWire DmHistory.

Section disk.
Context {C : Crypto} (serialize : Conversation → string).

(** An operation on the history, or a flush whose file operations succeed as
    [ok] says. *)
Inductive disk_event := Op (op : hist_op) | Flush (ok : nat → bool).

Definition disk_step (s : History * gmap string string) (e : disk_event) : History * gmap string string :=
  match e with
  | Op op => (hist_step s.1 op, s.2)
  | Flush ok => flush serialize ok s.1 s.2
  end.

(** What the pending work does to one file. *)
Definition effect (pending : list (string * option string)) (name : string) (before : option string)
    : option string :=
  foldl (λ v e, if bool_decide (e.1 = name) then e.2 else v) before pending.

Lemma apply_pending_done ok n disk pending disk' :
  apply_pending ok n disk pending = (disk', true) →
  ∀ name, disk' !! name = effect pending name (disk !! name).
Proof.
  revert n disk. induction pending as [|[k v] pending IH]; intros n disk; simpl; [by intros [= <-]|].
  case_if; [|done]. intros H name. rewrite (IH _ _ H). unfold effect. simpl. f_equal.
  destruct v as [b|]; case_bool_decide as Hk.
  - subst. apply lookup_insert_eq.
  - by apply lookup_insert_ne.
  - subst. apply lookup_delete_eq.
  - by apply lookup_delete_ne.
Qed.

Lemma effect_app l k name v : effect (l ++ k) name v = effect k name (effect l name v).
Proof. apply foldl_app. Qed.

Lemma effect_none l name v : (∀ e, e ∈ l → e.1 ≠ name) → effect l name v = v.
Proof.
  unfold effect. revert v. induction l as [|e l IH]; intros v H; simpl; [done|].
  rewrite bool_decide_false by (apply H; left). apply IH. intros e' He. apply H. by right.
Qed.

Lemma effect_all l name v x :
  (∀ e, e ∈ l → e.1 = name → e.2 = x) → (∃ e, e ∈ l ∧ e.1 = name) → effect l name v = x.
Proof.
  unfold effect. revert v. induction l as [|e l IH]; intros v Hall [e' [He Hn]]; simpl.
  { by apply elem_of_nil in He. }
  assert (Hall' : ∀ e, e ∈ l → e.1 = name → e.2 = x) by (intros; apply Hall; [by right|done]).
  case_bool_decide as Hk.
  - rewrite (Hall e) by (done || left).
    destruct (decide (Exists (λ e, e.1 = name) l)) as [Hex|Hno].
    + apply Exists_exists in Hex as (e2 & ? & ?). apply IH; [done|by exists e2].
    + apply effect_none. intros e2 He2 Hn2. apply Hno, Exists_exists. by exists e2.
  - apply elem_of_cons in He as [->|He]; [done|]. apply IH; [done|by exists e'].
Qed.

(** The DIDs in play have files of their own: no collision of the truncated
    hash among them. *)
Definition distinct_names (dids : gset string) : Prop :=
  ∀ a b, a ∈ dids → b ∈ dids → file_name_for a = file_name_for b → a = b.

Context (dids : gset string) (Hinj : distinct_names dids).

(** The history mentions only the DIDs in play. *)
Definition within (h : History) : Prop := dom (convs h) ⊆ dids ∧ removed h ⊆ dids.

Definition op_within (op : hist_op) : Prop :=
  match op with
  | OpAdd _ did _ _ _ => did ∈ dids
  | _ => True
  end.

(** A complete flush writes every dirty conversation, deletes every removed
    one, and touches nothing else. *)
Lemma flush_effect h d v :
  history_inv h → within h → d ∈ dids →
  effect (take_pending serialize h).2 (file_name_for d) v =
    if decide (d ∈ dirty h) then serialize <$> convs h !! d
    else if decide (d ∈ removed h) then None else v.
Proof.
  intros Hi [Hdom Hrem] Hdd. pose proof (hi_dirty _ Hi) as Hdirty. unfold take_pending. cbn [snd]. set (dels := map _ _). set (writes := omap _ _).
  assert (Hdels : ∀ e, e ∈ dels ↔ ∃ d, e = (file_name_for d, None) ∧ d ∈ removed h).
  { intros e. unfold dels. rewrite list_elem_of_fmap. by setoid_rewrite elem_of_elements. }
  assert (Hwrites : ∀ e, e ∈ writes ↔ ∃ d c, convs h !! d = Some c ∧
    e = (file_name_for d, Some (serialize c)) ∧ d ∈ dirty h).
  { intros e. unfold writes. rewrite list_elem_of_omap. setoid_rewrite elem_of_elements. split.
    - intros (x & Hx & He). destruct (convs h !! x) as [c|] eqn:Hc; [|done].
      injection He as <-. by exists x, c.
    - intros (x & c & Hc & -> & Hx). exists x. split; [done|]. by rewrite Hc. }
  rewrite effect_app. destruct (decide (d ∈ dirty h)) as [Hd|Hd].
  - assert (Hc : is_Some (convs h !! d)) by (apply elem_of_dom, (hi_dirty _ Hi), Hd).
    destruct Hc as [c Hc]. rewrite Hc. apply effect_all.
    + intros e (x & cx & Hx & -> & Hxd)%Hwrites Hn. apply Hinj in Hn; [|set_solver|done].
      subst x. simpl. congruence.
    + eexists. split; [apply Hwrites; exists d, c; done|done].
  - rewrite effect_none.
    2:{ intros e (x & cx & _ & -> & Hx)%Hwrites Hn. apply Hinj in Hn; [|set_solver|done]. by subst. }
    destruct (decide (d ∈ removed h)) as [Hr|Hr].
    + apply effect_all; [by intros e (x & -> & _)%Hdels|].
      eexists. split; [apply Hdels; by exists d|done].
    + apply effect_none. intros e (x & -> & Hx)%Hdels Hn. apply Hinj in Hn; [|set_solver|done]. by subst.
Qed.

(** Every clean conversation is in its file; and when [all], nothing else is:
    a conversation that is gone has no file, unless its removal is pending. *)
Record mirrored (all : bool) (h : History) (disk : gmap string string) : Prop := {
  mi_inv : history_inv h;
  mi_within : within h;
  mi_convs : ∀ d c, convs h !! d = Some c → d ∉ dirty h → disk !! file_name_for d = Some (serialize c);
  mi_gone : all = true → ∀ d, d ∈ dids → convs h !! d = None → d ∉ removed h → disk !! file_name_for d = None;
}.

(** An operation marks what it changes. *)
Lemma hist_step_marks h op d :
  history_inv h →
  let h' := hist_step h op in
  (d ∉ dirty h' → d ∈ dom (convs h') → convs h' !! d = convs h !! d ∧ d ∉ dirty h) ∧
  (convs h' !! d = None → d ∉ removed h' → convs h !! d = None ∧ d ∉ removed h).
Proof.
  intros Hi. cbv zeta.
  assert (Hins : ∀ h0 did c, (∀ x, x ≠ did → x ∉ dirty h0 → x ∈ dom (convs h0) →
        convs h0 !! x = convs h !! x ∧ x ∉ dirty h) →
    (convs h0 !! d = None → d ∉ removed h0 → convs h !! d = None ∧ d ∉ removed h) →
    let h' := {| convs := <[did := c]> (convs h0); dirty := {[did]} ∪ dirty h0;
                 removed := removed h0 ∖ {[did]} |} in
    (d ∉ dirty h' → d ∈ dom (convs h') → convs h' !! d = convs h !! d ∧ d ∉ dirty h) ∧
    (convs h' !! d = None → d ∉ removed h' → convs h !! d = None ∧ d ∉ removed h)).
  { clear Hi. intros h0 did c H1 H2. simpl. destruct (decide (d = did)) as [->|Hne].
    - rewrite lookup_insert_eq. split; [set_solver|done].
    - rewrite lookup_insert_ne, dom_insert_L by done. split; [|set_solver].
      intros Hd Hdom. apply H1; set_solver. }
  assert (Hdel : ∀ v, let h' := {| convs := delete v (convs h); dirty := dirty h ∖ {[v]};
      removed := {[v]} ∪ removed h |} in
    (∀ x, x ∉ dirty h' → x ∈ dom (convs h') → convs h' !! x = convs h !! x ∧ x ∉ dirty h) ∧
    ∀ x, convs h' !! x = None → x ∉ removed h' → convs h !! x = None ∧ x ∉ removed h).
  { intros v. simpl. split; intros x.
    - intros Hd Hx. rewrite dom_delete_L in Hx. rewrite lookup_delete_ne by set_solver. set_solver.
    - intros Hx Hr. rewrite lookup_delete_ne in Hx by set_solver. set_solver. }
  assert (Hsame : (d ∉ dirty h → d ∈ dom (convs h) → convs h !! d = convs h !! d ∧ d ∉ dirty h) ∧
    (convs h !! d = None → d ∉ removed h → convs h !! d = None ∧ d ∉ removed h)) by done.
  assert (Hupd : ∀ did c c', convs h !! did = Some c →
    let h' := {| convs := <[did := c']> (convs h); dirty := {[did]} ∪ dirty h; removed := removed h |} in
    (d ∉ dirty h' → d ∈ dom (convs h') → convs h' !! d = convs h !! d ∧ d ∉ dirty h) ∧
    (convs h' !! d = None → d ∉ removed h' → convs h !! d = None ∧ d ∉ removed h)).
  { intros did c c' Hc. apply elem_of_dom_2 in Hc. pose proof (hi_removed _ Hi) as Hr.
    assert (Hrd : removed h ∖ {[did]} = removed h) by (clear -Hc Hr; set_solver).
    pose proof (Hins h did c' (λ _ _ a _, conj eq_refl a) (λ a b, conj a b)) as HH.
    by rewrite Hrd in HH. }
  destruct op as [keys did msg now remote|did i|did|did]; simpl.
  - destruct (add h keys did msg now remote) as [h' r] eqn:Ha. simpl.
    apply add_spec in Ha as [[-> _]|(_ & h0 & c & Hh0 & _ & ->)]; [done|].
    destruct Hh0 as [[-> _]|(_ & _ & Hm)]; [by apply Hins|].
    apply make_room_spec in Hm as (v & cv & _ & _ & ->). destruct (Hdel v) as [H1 H2].
    apply Hins; [intros x _; apply H1|apply H2].
  - unfold mark_delivered. destruct (convs h !! did) as [c|] eqn:Hc; [|done].
    destruct (find_msg i (messages c)) as [m|]; [|done]. case_if; [done|].
    cbn [fst]. by apply (Hupd did c).
  - unfold mark_read. destruct (convs h !! did) as [c|] eqn:Hc; [|done]. case_if; [done|].
    by apply (Hupd did c).
  - unfold clear. destruct (convs h !! did) as [c|] eqn:Hc; [|done].
    destruct (Hdel did) as [H1 H2]. split; [apply H1|apply H2].
Qed.

Lemma hist_step_within h op : op_within op → within h → within (hist_step h op).
Proof.
  intros Hop [Hd Hr].
  assert (Hins : ∀ h0 did c D, dom (convs h0) ⊆ dids → removed h0 ⊆ dids → did ∈ dids → ∀ R, R ⊆ removed h0 →
    within {| convs := <[did := c]> (convs h0); dirty := D; removed := R |}).
  { intros h0 did c D H1 H2 H3 R HR. split; simpl; [rewrite dom_insert_L|]; set_solver. }
  assert (Hin : ∀ did c, convs h !! did = Some c → did ∈ dids).
  { intros did c Hc%elem_of_dom_2. set_solver. }
  assert (Hdel : ∀ v c D, convs h !! v = Some c →
    within {| convs := delete v (convs h); dirty := D; removed := {[v]} ∪ removed h |}).
  { intros v c D Hv%Hin. split; simpl; [rewrite dom_delete_L|]; set_solver. }
  destruct op as [keys did msg now remote|did i|did|did]; simpl in *.
  - destruct (add h keys did msg now remote) as [h' r] eqn:Ha. simpl.
    apply add_spec in Ha as [[-> _]|(_ & h0 & c & Hh0 & _ & ->)]; [by split|].
    destruct Hh0 as [[-> _]|(_ & _ & Hm)]; [apply Hins; (done || set_solver)|].
    apply make_room_spec in Hm as (v & cv & Hv & _ & ->). destruct (Hdel v cv (dirty h ∖ {[v]}) Hv).
    apply Hins; (done || set_solver).
  - unfold mark_delivered. destruct (convs h !! did) as [c|] eqn:Hc; [|by split].
    destruct (find_msg i (messages c)) as [m|]; [|by split]. case_if; [by split|].
    apply Hins; (done || by eapply Hin).
  - unfold mark_read. destruct (convs h !! did) as [c|] eqn:Hc; [|by split]. case_if; [by split|].
    apply Hins; (done || by eapply Hin).
  - unfold clear. destruct (convs h !! did) as [c|] eqn:Hc; [|by split]. by eapply Hdel.
Qed.

Lemma op_mirrored all h disk op :
  op_within op → mirrored all h disk → mirrored all (hist_step h op) disk.
Proof.
  intros Hop [Hi Hw Hc Hg]. split; [by apply hist_step_inv|by apply hist_step_within| |].
  - intros d c Hd Hn. destruct (hist_step_marks h op d Hi) as [H _].
    destruct H as [Heq Hn']; [done|by apply elem_of_dom_2 in Hd|]. apply Hc; [congruence|done].
  - intros Ha d Hdd Hd Hr. destruct (hist_step_marks h op d Hi) as [_ H].
    destruct (H Hd Hr) as [? ?]. by apply Hg.
Qed.

(** Whether a flush completes. *)
Definition completes (h : History) (disk : gmap string string) (ok : nat → bool) : bool :=
  (apply_pending ok 0 disk (take_pending serialize h).2).2.

Lemma flush_mirrored all h disk ok :
  mirrored all h disk →
  let r := flush serialize ok h disk in
  mirrored (all && completes h disk ok) r.1 r.2 ∧
  (completes h disk ok = true → dirty r.1 = ∅ ∧ removed r.1 = ∅).
Proof.
  intros [Hi Hw Hc Hg]. unfold flush, completes.
  pose proof (λ d, flush_effect h d (disk !! file_name_for d) Hi Hw) as Hef.
  destruct (take_pending serialize h) as [h1 pending] eqn:Htp.
  assert (Hh1 : h1 = {| convs := convs h; dirty := ∅; removed := ∅ |}) by (by injection Htp as <- _).
  cbn [snd] in *.
  assert (Hi1 : history_inv h1) by (rewrite Hh1; destruct Hi; by split).
  assert (Hw1 : within h1) by (rewrite Hh1; destruct Hw; by split).
  assert (Hdone : ∀ disk', (∀ name, disk' !! name = effect pending name (disk !! name)) →
    mirrored all h1 disk').
  { intros disk' Hd'. rewrite Hh1 in *. split; [done|done|..]; simpl.
    - intros d c Hd _. assert (Hdd : d ∈ dids) by (apply elem_of_dom_2 in Hd; destruct Hw; set_solver).
      rewrite Hd', Hef by done. destruct (decide (d ∈ dirty h)); [by rewrite Hd|].
      rewrite decide_False; [by apply Hc|]. apply elem_of_dom_2 in Hd. pose proof (hi_removed _ Hi).
      set_solver.
    - intros Ha d Hdd Hd _. rewrite Hd', Hef by done. rewrite Hd. destruct (decide (d ∈ dirty h)); [done|].
      destruct (decide (d ∈ removed h)); [done|]. by apply Hg. }
  case_bool_decide as Hnil; simpl.
  - subst pending. simpl. rewrite andb_true_r. rewrite Hh1 in *. split; [by apply Hdone|done].
  - destruct (apply_pending ok 0 disk pending) as [disk' done] eqn:Hap. cbn [fst snd]. destruct done.
    + rewrite andb_true_r. split; [|by rewrite Hh1]. apply Hdone. by apply (apply_pending_done ok 0).
    + rewrite andb_false_r. split; [|done]. rewrite Hh1 in *. split; simpl.
      * destruct Hi. split; simpl; set_solver.
      * done.
      * intros d c Hd%elem_of_dom_2 Hn. set_solver.
      * done.
Qed.

(** Whether every flush of a run completed. *)
Fixpoint all_complete (s : History * gmap string string) (es : list disk_event) : bool :=
  match es with
  | [] => true
  | e :: es =>
      match e with Op _ => true | Flush ok => completes s.1 s.2 ok end && all_complete (disk_step s e) es
  end.

Lemma events_mirrored es all h disk :
  Forall (λ e, match e with Op op => op_within op | Flush _ => True end) es → mirrored all h disk →
  let r := foldl disk_step (h, disk) es in
  mirrored (all && all_complete (h, disk) es) r.1 r.2.
Proof.
  revert all h disk. induction es as [|e es IH]; intros all h disk Hes Hm; simpl.
  { by rewrite andb_true_r. }
  inversion_clear Hes as [|?? He Hes']. destruct e as [op|ok]; simpl.
  - apply IH; [done|]. by apply op_mirrored.
  - destruct (flush_mirrored all h disk ok Hm) as [Hm' _].
    destruct (flush serialize ok h disk) as [h' disk'] eqn:Hf. cbn [fst snd] in *.
    rewrite andb_assoc. by apply IH.
Qed.
End disk.

(** C40. Starting from an empty directory, whatever the peers and the user do
    and wherever earlier flushes have failed, a flush that completes leaves
    every conversation of the history in its file; and when no flush has
    failed, the directory holds the file of no other DID. The DIDs in play are
    those whose truncated hashes do not collide. *)
Theorem dm_disk_mirrors {C : Crypto} serialize (dids : gset string) es ok :
  distinct_names dids →
  Forall (λ e, match e with Op op => op_within dids op | Flush _ => True end) es →
  let s := foldl (disk_step serialize) (empty_history, ∅) es in
  let r := flush serialize ok s.1 s.2 in
  completes serialize s.1 s.2 ok = true →
  (∀ d c, convs r.1 !! d = Some c → r.2 !! file_name_for d = Some (serialize c)) ∧
  (all_complete serialize (empty_history, ∅) es = true →
     ∀ d, d ∈ dids → convs r.1 !! d = None → r.2 !! file_name_for d = None).
Proof.
  intros Hinj Hes. cbv zeta. intros Hok.
  assert (H0 : mirrored serialize dids true empty_history ∅)
    by (split; [apply empty_history_inv|split; simpl; set_solver|done|done]).
  pose proof (events_mirrored serialize dids Hinj es true empty_history ∅ Hes H0) as Hm.
  cbv zeta in Hm. rewrite andb_true_l in Hm.
  destruct (flush_mirrored serialize dids Hinj _ _ _ ok Hm) as [[_ _ Hc Hg] Hclean].
  destruct (Hclean Hok) as [Hd Hr]. rewrite Hok, andb_true_r in Hg. split.
  - intros d c Hdc. apply Hc; [done|]. rewrite Hd. set_solver.
  - intros Ha d Hdd Hn. apply Hg; [done..|]. rewrite Hr. set_solver.
Qed.

(** ** A concrete run *)
Module DiskToy.

Definition peer : string := did Toy.bob.
Definition hello : StoredMsg :=
  {| msg_id := "00112233445566778899aabbccddeeff"; mine := false; ts_ms := 1; msg_text := Some "hello";
     msg_file := None; status := Received |}.
Definition render (c : Conversation) : string := pretty (zlen (messages c)).
Definition works : nat → bool := λ _, true.
Definition fails : nat → bool := λ _, false.
Definition received : list disk_event := [Op (OpAdd [] peer hello 1 true); Flush works].

(** The user clears the conversation, and the next flush fails. *)
Definition cleared : list disk_event := received ++ [Op (OpClear peer); Flush fails; Flush works; Flush works].
Definition after : History * gmap string string := foldl (disk_step render) (empty_history, ∅) cleared.
End DiskToy.

Lemma dm_disk_mirrors_witness :
  let r := foldl (disk_step DiskToy.render) (empty_history, ∅) (DiskToy.received ++ [Flush DiskToy.works]) in
  r.2 !! file_name_for DiskToy.peer = Some "1".
Proof.
  destruct (dm_disk_mirrors DiskToy.render {[DiskToy.peer]} DiskToy.received DiskToy.works) as [H _].
  - intros a b Ha Hb _. set_solver.
  - repeat constructor.
  - by vm_compute.
  - destruct (convs (flush DiskToy.render DiskToy.works
        (foldl (disk_step DiskToy.render) (empty_history, ∅) DiskToy.received).1
        (foldl (disk_step DiskToy.render) (empty_history, ∅) DiskToy.received).2).1 !! DiskToy.peer)
      as [c|] eqn:Hc; [|by vm_compute in Hc].
    rewrite foldl_app. simpl foldl at 1. refine (eq_trans (H _ _ Hc) _).
    assert (Hr : DiskToy.render <$> convs (flush DiskToy.render DiskToy.works
        (foldl (disk_step DiskToy.render) (empty_history, ∅) DiskToy.received).1
        (foldl (disk_step DiskToy.render) (empty_history, ∅) DiskToy.received).2).1 !! DiskToy.peer
      = Some "1") by (by vm_compute).
    rewrite Hc in Hr. exact Hr.
Defined.

(** A failed flush forgets what it should have deleted: [take_pending] has
    drained the removals, and [mark_all_dirty] brings back only the
    conversations that exist. The cleared conversation is gone from the history
    and nothing is pending, but its file stays, and is loaded at the next
    start. *)
Lemma failed_flush_keeps_cleared :
  convs DiskToy.after.1 !! DiskToy.peer = None ∧
  dirty DiskToy.after.1 = ∅ ∧ removed DiskToy.after.1 = ∅ ∧
  DiskToy.after.2 !! file_name_for DiskToy.peer = Some "1".
Proof. by vm_compute. Qed.
