(* ===== verification/NetAddr.v ===== *)
(** * IP addresses in text

    [str::parse::<IpAddr>()] of the standard library, as the tunnel uses it: the
    parser reads an IPv4 address or else an IPv6 address and must consume the
    whole text. *)
From S2P Require Import Prelude Text.

Inductive IpAddr := V4 (octets : list Z) | V6 (segments : list Z).

(** A parser returns what it read and the rest. *)
Definition parser (A : Type) : Type := string → option (A * string).

Definition hex_value (c : ascii) : option Z :=
  let n := Z.of_N (N_of_ascii c) in
  if is_ascii_digit c then Some (n - 48)
  else if in_range "a"%char "f"%char c then Some (n - 87)
  else if in_range "A"%char "F"%char c then Some (n - 55) else None.

Definition digit_of (radix : Z) (c : ascii) : option Z :=
  match hex_value c with Some d => if d <? radix then Some d else None | None => None end.

(** The digits at the front, and the rest. *)
Fixpoint take_digits (radix : Z) (s : string) : list Z * string :=
  match s with
  | EmptyString => ([], s)
  | String c s' =>
      match digit_of radix c with
      | Some d => let '(ds, rest) := take_digits radix s' in (d :: ds, rest)
      | None => ([], s)
      end
  end.

(** [read_number]: at most [max_digits] digits, at most [max], a leading zero
    only when allowed or alone. *)
Definition read_number (radix max_digits max : Z) (allow_zero_prefix : bool) : parser Z := λ s,
  let '(ds, rest) := take_digits radix s in
  let n := foldl (λ acc d, acc * radix + d) 0 ds in
  let zero_prefix := bool_decide (hd_error ds = Some 0) && (1 <? zlen ds) in
  if bool_decide (ds = []) || (max_digits <? zlen ds) || (max <? n)
     || (zero_prefix && negb allow_zero_prefix)
  then None else Some (n, rest).

Definition read_char (c : ascii) : parser () := λ s,
  match s with String d s => if bool_decide (c = d) then Some (tt, s) else None | EmptyString => None end.

(** [read_separator]: nothing is consumed when the inner parser fails. *)
Definition read_separator {A} (sep : ascii) (index : nat) (inner : parser A) : parser A := λ s,
  match index with
  | O => inner s
  | S _ => match read_char sep s with Some (_, s) => inner s | None => None end
  end.

Fixpoint read_octets (index : nat) (n : nat) : parser (list Z) := λ s,
  match n with
  | O => Some ([], s)
  | S n =>
      match read_separator "." index (read_number 10 3 255 false) s with
      | None => None
      | Some (o, s) =>
          match read_octets (S index) n s with Some (os, s) => Some (o :: os, s) | None => None end
      end
  end.
Definition read_ipv4_addr : parser (list Z) := read_octets 0 4.

Definition embedded (octets : list Z) : list Z :=
  match octets with [a; b; c; d] => [a * 256 + b; c * 256 + d] | _ => [] end.

(** [read_groups]: at most [limit] groups; the flag tells that the last two came
    from an IPv4 address. *)
Fixpoint read_groups (limit index : nat) (s : string) : list Z * bool * string :=
  match limit with
  | O => ([], false, s)
  | S limit =>
      match (if (1 <=? limit)%nat then read_separator ":" index read_ipv4_addr s else None) with
      | Some (octets, s) => (embedded octets, true, s)
      | None =>
          match read_separator ":" index (read_number 16 4 65535 true) s with
          | None => ([], false, s)
          | Some (g, s) => let '(gs, v4, s) := read_groups limit (S index) s in (g :: gs, v4, s)
          end
      end
  end.

Definition read_ipv6_addr : parser (list Z) := λ s,
  let '(head, head_ipv4, s) := read_groups 8 0 s in
  if zlen head =? 8 then Some (head, s) else
  if head_ipv4 then None else
  match read_char ":" s with
  | None => None
  | Some (_, s) =>
      match read_char ":" s with
      | None => None
      | Some (_, s) =>
          let '(tail, _, s) := read_groups (7 - length head) 0 s in
          Some (head ++ replicate (8 - length head - length tail) 0 ++ tail, s)
      end
  end.

Definition parse_ip (s : string) : option IpAddr :=
  match read_ipv4_addr s with
  | Some (octets, rest) => if bool_decide (rest = "") then Some (V4 octets) else None
  | None =>
      match read_ipv6_addr s with
      | Some (segments, rest) => if bool_decide (rest = "") then Some (V6 segments) else None
      | None => None
      end
  end.

Definition is_ipv6 (s : string) : bool := match parse_ip s with Some (V6 _) => true | _ => false end.

(** [IpAddr::is_loopback]: [127.0.0.0/8] and [::1]. *)
Definition ip_is_loopback (ip : IpAddr) : bool :=
  match ip with
  | V4 octets => bool_decide (hd_error octets = Some 127)
  | V6 segments => bool_decide (segments = [0; 0; 0; 0; 0; 0; 0; 1])
  end.

Example ip_examples :
  parse_ip "127.0.0.1" = Some (V4 [127; 0; 0; 1]) ∧ parse_ip "01.0.0.1" = None ∧
  parse_ip "::1" = Some (V6 [0; 0; 0; 0; 0; 0; 0; 1]) ∧ parse_ip "::" = Some (V6 [0; 0; 0; 0; 0; 0; 0; 0]) ∧
  parse_ip "1:2:3:4:5:6:7:8" = Some (V6 [1; 2; 3; 4; 5; 6; 7; 8]) ∧ parse_ip "1:2:3:4:5:6:7::" = Some (V6 [1; 2; 3; 4; 5; 6; 7; 0]) ∧
  parse_ip "::ffff:10.0.0.1" = Some (V6 [0; 0; 0; 0; 0; 65535; 2560; 1]) ∧ parse_ip "1::2::3" = None ∧
  parse_ip "12345::" = None ∧ parse_ip "a.b:c" = None ∧ parse_ip "1:2:3:4:5:6:7:8:9" = None.
Proof. vm_compute. done. Qed.

(** ** Case does not matter *)

Lemma ascii_lower_digit radix c : digit_of radix (ascii_lower c) = digit_of radix c.
Proof.
  unfold digit_of. replace (hex_value (ascii_lower c)) with (hex_value c); [done|].
  destruct c as [b0 b1 b2 b3 b4 b5 b6 b7]. by destruct b0, b1, b2, b3, b4, b5, b6, b7.
Qed.

Lemma take_digits_lower radix s :
  take_digits radix (to_ascii_lowercase s) =
    ((take_digits radix s).1, to_ascii_lowercase (take_digits radix s).2).
Proof.
  induction s as [|c s IH]; [done|]. cbn [to_ascii_lowercase take_digits].
  rewrite ascii_lower_digit. destruct (digit_of radix c); [|done].
  rewrite IH. by destruct (take_digits radix s).
Qed.

Definition lowers {A} (p : parser A) : Prop :=
  ∀ s, p (to_ascii_lowercase s) = prod_map id to_ascii_lowercase <$> p s.

Lemma read_number_lowers radix max_digits max zero : lowers (read_number radix max_digits max zero).
Proof.
  intros s. unfold read_number. rewrite take_digits_lower. destruct (take_digits radix s) as [ds rest].
  cbn [fst snd]. by destruct (_ || _).
Qed.

Lemma read_char_lowers c : is_ascii_alphabetic c = false → lowers (read_char c).
Proof.
  intros Hc [|d s]; [done|]. cbn [read_char to_ascii_lowercase].
  assert (Hd : c = ascii_lower d ↔ c = d).
  { unfold ascii_lower. destruct (in_range "A" "Z" d) eqn:E; [|done]. split; intros ->.
    - revert Hc E. clear. destruct d as [b0 b1 b2 b3 b4 b5 b6 b7].
      by destruct b0, b1, b2, b3, b4, b5, b6, b7.
    - revert Hc E. clear. destruct d as [b0 b1 b2 b3 b4 b5 b6 b7].
      by destruct b0, b1, b2, b3, b4, b5, b6, b7. }
  rewrite (bool_decide_ext _ _ Hd). by case_bool_decide.
Qed.

Lemma read_separator_lowers {A} sep index (p : parser A) :
  is_ascii_alphabetic sep = false → lowers p → lowers (read_separator sep index p).
Proof.
  intros Hsep Hp s. unfold read_separator. destruct index; [apply Hp|].
  rewrite read_char_lowers by done. destruct (read_char sep s) as [[[] r]|]; [|done]. apply Hp.
Qed.

Lemma read_octets_lowers n index : lowers (read_octets index n).
Proof.
  revert index. induction n as [|n IH]; intros index s; [done|]. cbn [read_octets].
  rewrite read_separator_lowers by (done || apply read_number_lowers).
  destruct (read_separator _ _ _ s) as [[o r]|]; [|done]. cbn [fmap option_fmap option_map prod_map fst snd id].
  rewrite IH. by destruct (read_octets (S index) n r) as [[]|].
Qed.

Lemma read_groups_lower limit index s :
  read_groups limit index (to_ascii_lowercase s) =
    ((read_groups limit index s).1, to_ascii_lowercase (read_groups limit index s).2).
Proof.
  revert index s. induction limit as [|limit IH]; intros index s; [done|]. cbn [read_groups].
  assert (H4 := read_separator_lowers ":" index read_ipv4_addr eq_refl (read_octets_lowers 4 0) s).
  assert (H6 := read_separator_lowers ":" index _ eq_refl (read_number_lowers 16 4 65535 true) s).
  rewrite H4, H6. destruct (1 <=? limit)%nat.
  - destruct (read_separator ":" index read_ipv4_addr s) as [[os r]|]; [done|].
    cbn [fmap option_fmap option_map]. destruct (read_separator _ _ (read_number _ _ _ _) s) as [[g r]|]; [|done].
    cbn [fmap option_fmap option_map prod_map fst snd id]. rewrite IH.
    by destruct (read_groups limit (S index) r) as [[gs v4] r'].
  - destruct (read_separator _ _ (read_number _ _ _ _) s) as [[g r]|]; [|done].
    cbn [fmap option_fmap option_map prod_map fst snd id]. rewrite IH.
    by destruct (read_groups limit (S index) r) as [[gs v4] r'].
Qed.

Lemma read_ipv6_lowers : lowers read_ipv6_addr.
Proof.
  intros s. unfold read_ipv6_addr. rewrite read_groups_lower.
  destruct (read_groups 8 0 s) as [[h v4] r]. cbn [fst snd].
  destruct (zlen h =? 8); [done|]. destruct v4; [done|].
  rewrite read_char_lowers by done. destruct (read_char ":" r) as [[[] r1]|]; [|done].
  cbn [fmap option_fmap option_map prod_map fst snd id].
  rewrite read_char_lowers by done. destruct (read_char ":" r1) as [[[] r2]|]; [|done].
  cbn [fmap option_fmap option_map prod_map fst snd id]. rewrite read_groups_lower.
  by destruct (read_groups (7 - length h) 0 r2) as [[t b] r3].
Qed.

Lemma parse_ip_lower s : parse_ip (to_ascii_lowercase s) = parse_ip s.
Proof.
  assert (He : ∀ r, to_ascii_lowercase r = "" ↔ r = "") by (intros []; naive_solver).
  unfold parse_ip. rewrite (read_octets_lowers 4 0 : lowers read_ipv4_addr), read_ipv6_lowers.
  destruct (read_ipv4_addr s) as [[os r]|]; cbn [fmap option_fmap option_map prod_map fst snd id].
  - by rewrite (bool_decide_ext _ _ (He r)).
  - destruct (read_ipv6_addr s) as [[ss r]|]; [|done].
    cbn [fmap option_fmap option_map prod_map fst snd id]. by rewrite (bool_decide_ext _ _ (He r)).
Qed.
