(* ===== verification/TunnelRules.v ===== *)
(** * Forward proposal rules

    [src/src/tunnel/proposal_rules.rs]: the rules a user keeps for incoming
    forward proposals, their normal form, the decision on a proposal, and the
    store of rules with its file. *)
From S2P Require Import Prelude Text Json Wire NetAddr.

Definition MAX_RULES : Z := 256.

Inductive Action := Allow | Deny.
#[global] Instance Action_eq_dec : EqDecision Action.
Proof. solve_decision. Defined.

Record Rule := {
  id : string; action : Action; peer : string; proto : string; ports : string; hosts : string;
  note : string; created_ms : Z;
}.

Record RulePatch := {
  patch_action : option string; patch_peer : option string; patch_proto : option string;
  patch_ports : option string; patch_hosts : option string; patch_note : option string;
}.

(** ** Normal form *)

Definition is_base58 (c : ascii) : bool :=
  (is_ascii_digit c || is_ascii_alphabetic c) && negb (contains ["0"%char; "O"%char; "I"%char; "l"%char] c).

Definition normalize_peer (p : string) : result string string :=
  let peer := trim p in
  if bool_decide (peer = "*") then Ok peer
  else if (slen peer =? 16) && string_forallb is_ascii_hexdigit peer then Ok (to_ascii_lowercase peer)
  else if (slen peer <=? 256)
          && is_some_and (λ key, negb (bool_decide (key = "")) && string_forallb is_base58 key)
               (strip_prefix "did:key:z" peer) then Ok peer
  else Err "peer must be *, a 16-hex node id, or a did:key:z identifier (at most 256 chars)".

Definition port_number (text : string) : result Z string :=
  if bool_decide (text = "") || negb (string_forallb is_ascii_digit text)
  then Err "ports must contain numbers in 1..=65535 or ranges A-B" else
  match parse_uint 65535 text with
  | Some port => if port =? 0 then Err "port must be in 1..=65535" else Ok port
  | None => Err "port must be in 1..=65535"
  end.

Definition port_range (text : string) : result (Z * Z) string :=
  match split_once "-" text with
  | Some (first, last) =>
      let? a := port_number (trim first) in
      let? b := port_number (trim last) in
      if b <? a then Err "port range start must not exceed end" else Ok (a, b)
  | None => let? port := port_number (trim text) in Ok (port, port)
  end.

Definition port_item (item : string) : result string string :=
  let? r := port_range item in
  Ok (if is_some (split_once "-" item) then show r.1 +:+ "-" +:+ show r.2 else show r.1).

(** The loop over the parts of a list: at most [max] of them. *)
Fixpoint map_items (f : string → result string string) (max : nat) (error : string) (items : list string)
    {struct items} : result (list string) string :=
  match items with
  | [] => Ok []
  | item :: items =>
      match max with
      | O => Err error
      | S max => let? x := f item in let? xs := map_items f max error items in Ok (x :: xs)
      end
  end.

Definition normalize_ports (text : string) : result string string :=
  let text := trim text in
  if bool_decide (text = "*") then Ok text else
  if 4096 <? slen text then Err "ports specification is too long" else
  let? items := map_items port_item 32 "ports must contain at most 32 items" (split_on "," text) in
  Ok (join "," items).

(** [char::is_control] on a character of UTF-8 text: C0, DEL and C1. *)
Definition is_control (c : string) : bool :=
  match c with
  | String a EmptyString => (N_of_ascii a <? 32)%N || (N_of_ascii a =? 127)%N
  | String a (String b EmptyString) =>
      (N_of_ascii a =? 0xC2)%N && (128 <=? N_of_ascii b)%N && (N_of_ascii b <=? 159)%N
  | _ => false
  end.

(** [s.contains(c)] *)
Definition has_char (cs : list ascii) (s : string) : bool :=
  negb (string_forallb (λ a, negb (contains cs a)) s).

Definition host_forbidden : list ascii :=
  ["["; "]"; "/"; "\"; "@"; "*"; "?"; "#"; ","]%char.

Definition strip_brackets (host : string) : option string :=
  match strip_prefix "[" host with Some rest => strip_suffix "]" rest | None => None end.

Definition check_host (host : string) : result string string :=
  if bool_decide (host = "") || (253 <? slen host)
     || existsb (λ c, is_space c || is_control c) (chars host)
     || has_char host_forbidden host || (has_char [":"%char] host && negb (is_ipv6 host))
  then Err "hosts must be host names or IP addresses (at most 253 chars, no whitespace)"
  else Ok (to_ascii_lowercase host).

Definition normalize_host (host : string) : result string string :=
  let host := trim host in
  match strip_brackets host with
  | Some inner =>
      if is_ipv6 inner then check_host inner else Err "bracketed host must be an IPv6 address"
  | None => check_host host
  end.

Definition normalize_hosts (text : string) : result string string :=
  let text := trim text in
  if eq_ignore_ascii_case text "loopback" || bool_decide (text = "*") then Ok (to_ascii_lowercase text) else
  if 8192 <? slen text then Err "hosts specification is too long" else
  let? items := map_items normalize_host 16 "hosts must contain at most 16 items" (split_on "," text) in
  Ok (join "," items).

Definition normalize (r : Rule) : result Rule string :=
  let? p := normalize_peer (peer r) in
  let pr := to_ascii_lowercase (trim (proto r)) in
  ensure (contains ["*"; "tcp"; "udp"] pr) "proto must be *, tcp, or udp" ;;?
  let? po := normalize_ports (ports r) in
  let? h := normalize_hosts (hosts r) in
  let n := trim (note r) in
  if 200 <? chars_count n then Err "note must be at most 200 chars" else
  Ok {| id := id r; action := action r; peer := p; proto := pr; ports := po; hosts := h; note := n;
        created_ms := created_ms r |}.

Definition parse_action (a : string) : result Action string :=
  if bool_decide (trim a = "allow") then Ok Allow
  else if bool_decide (trim a = "deny") then Ok Deny
  else Err "action must be allow or deny".

Definition apply (r : Rule) (p : RulePatch) : result Rule string :=
  let? a := match patch_action p with Some a => parse_action a | None => Ok (action r) end in
  normalize {| id := id r; action := a; peer := default (peer r) (patch_peer p);
    proto := default (proto r) (patch_proto p); ports := default (ports r) (patch_ports p);
    hosts := default (hosts r) (patch_hosts p); note := default (note r) (patch_note p);
    created_ms := created_ms r |}.

(** ** The decision *)

Definition remote_host_port (addr : string) : option (string * Z) :=
  match rsplit_once ":" addr with
  | None => None
  | Some (host, port) =>
      if has_char [":"%char] host && negb (is_some (strip_brackets host)) then None else
      match normalize_host host, port_number port with
      | Ok h, Ok p => Some (h, p)
      | _, _ => None
      end
  end.

Definition is_loopback (host : string) : bool :=
  eq_ignore_ascii_case host "localhost" || is_some_and ip_is_loopback (parse_ip host).

Inductive Decision := AutoAllow (rule : string) | AutoDeny (rule : string) | Ask.

Section evaluate.
Context {C : Crypto}.

Definition peer_matches (r : Rule) (peer_id : string) (did : option string) : bool :=
  bool_decide (peer r = "*")
  || (starts_with "did:key:" (peer r) && bool_decide (did = Some (peer r)))
  || (negb (starts_with "did:" (peer r)) && bool_decide (peer r = peer_id)).

Definition rule_matches (peer_id : string) (did : option string) (p host : string) (port : Z) (r : Rule) : bool :=
  peer_matches r peer_id did
  && (bool_decide (proto r = "*") || eq_ignore_ascii_case (proto r) p)
  && (bool_decide (ports r = "*")
      || existsb (λ item, match port_range item with Ok (a, b) => (a <=? port) && (port <=? b) | Err _ => false end)
           (split_on "," (ports r)))
  && (bool_decide (hosts r = "*") || (bool_decide (hosts r = "loopback") && is_loopback host)
      || (negb (bool_decide (hosts r = "loopback"))
          && existsb (λ item, eq_ignore_ascii_case item host) (split_on "," (hosts r)))).

(** The loop over the rules: a deny ends it, the first allow is kept. *)
Fixpoint evaluate_from (rules : list Rule) (did_ok : bool) (matches : Rule → bool) (allow : option string)
    : Decision :=
  match rules with
  | [] => match allow with Some rule => AutoAllow rule | None => Ask end
  | r :: rules =>
      if negb (matches r) then evaluate_from rules did_ok matches allow else
      if bool_decide (action r = Deny) then AutoDeny (id r) else
      evaluate_from rules did_ok matches
        (if did_ok && negb (is_some allow) then Some (id r) else allow)
  end.

Definition own_did (peer_id : string) (verified_did : option string) : option string :=
  match verified_did with
  | Some did => if bool_decide (node_id_for_did did = peer_id) then Some did else None
  | None => None
  end.

Definition evaluate (rules : list Rule) (peer_id : string) (verified_did : option string)
    (p remote_addr : string) : Decision :=
  match remote_host_port remote_addr with
  | None => Ask
  | Some (host, port) =>
      let did := own_did peer_id verified_did in
      evaluate_from rules (is_some did) (rule_matches peer_id did p host port) None
  end.
End evaluate.

(** ** The store *)

Definition rule_before (a b : Rule) : Prop :=
  created_ms a < created_ms b ∨ (created_ms a = created_ms b ∧ String.le (id a) (id b)).
#[global] Instance rule_before_dec : RelDecision rule_before.
Proof. intros a b. unfold rule_before. apply _. Defined.

Definition sort_rules (rules : list Rule) : list Rule := merge_sort rule_before rules.

(** [format!("r-{:08x}", n)] *)
Definition rule_id (n : Z) : string :=
  "r-" +:+ hex_encode (bytes (map Z.to_N [n / 2 ^ 24 mod 256; n / 2 ^ 16 mod 256; n / 2 ^ 8 mod 256; n mod 256])).

(** The loop over the random numbers it draws; [None] while none is free. *)
Definition new_rule_id (draws : list Z) (rules : list Rule) : option string :=
  List.find (λ i, negb (existsb (λ r, bool_decide (id r = i)) rules)) (map rule_id draws).

(** [persisted] tells whether the write of the file succeeded. *)
Definition add (rules : list Rule) (patch : RulePatch) (draws : list Z) (now : Z) (persisted : bool)
    : list Rule * result Rule string :=
  match
    ensure (is_some (patch_action patch)) "action is required" ;;?
    ensure (zlen rules <? MAX_RULES) "at most 256 proposal rules are allowed" ;;?
    let? i := ok_or (new_rule_id draws rules) "still drawing" in
    let? rule := apply {| id := i; action := Deny; peer := "*"; proto := "*"; ports := "*";
      hosts := "loopback"; note := ""; created_ms := now |} patch in
    ensure persisted "writing the rules" ;;? Ok rule
  with
  | Ok rule => (sort_rules (rules ++ [rule]), Ok rule)
  | Err e => (rules, Err e)
  end.

Fixpoint replace_rule (i : string) (new : Rule) (rules : list Rule) : list Rule :=
  match rules with
  | [] => []
  | r :: rules => if bool_decide (id r = i) then new :: rules else r :: replace_rule i new rules
  end.

Definition update (rules : list Rule) (i : string) (patch : RulePatch) (persisted : bool)
    : list Rule * result Rule string :=
  match
    let? r := ok_or (List.find (λ r, bool_decide (id r = i)) rules) "proposal rule not found" in
    let? new := apply r patch in
    ensure persisted "writing the rules" ;;? Ok new
  with
  | Ok new => (replace_rule i new rules, Ok new)
  | Err e => (rules, Err e)
  end.

Definition remove (rules : list Rule) (i : string) (persisted : bool) : list Rule * result bool string :=
  let next := List.filter (λ r, negb (bool_decide (id r = i))) rules in
  if zlen next =? zlen rules then (rules, Ok false)
  else if persisted then (next, Ok true) else (rules, Err "writing the rules").

(** [load] of a file that parses: rejected as a whole, or normalized and sorted. *)
Definition valid_rule_id (i : string) : bool :=
  (slen i =? 10) && is_some_and (string_forallb is_ascii_hexdigit) (strip_prefix "r-" i).

Fixpoint load_rules (seen : list string) (rules : list Rule) : result (list Rule) string :=
  match rules with
  | [] => Ok []
  | r :: rules =>
      ensure (valid_rule_id (id r) && negb (contains seen (id r))) "invalid or duplicate proposal rule id" ;;?
      let? r := normalize r in
      let? rest := load_rules (id r :: seen) rules in
      Ok (r :: rest)
  end.

Definition load (rules : list Rule) : result (list Rule) string :=
  ensure (zlen rules <=? MAX_RULES) "at most 256 proposal rules are allowed" ;;?
  let? rules := load_rules [] rules in
  Ok (sort_rules rules).

(** ** The decision is the first match, a deny before any allow *)

Lemma evaluate_from_spec rules did_ok matches allow :
  evaluate_from rules did_ok matches allow =
    let m := List.filter matches rules in
    match List.find (λ r, bool_decide (action r = Deny)) m with
    | Some r => AutoDeny (id r)
    | None =>
        match allow with
        | Some rule => AutoAllow rule
        | None => if did_ok then match m with r :: _ => AutoAllow (id r) | [] => Ask end else Ask
        end
    end.
Proof.
  revert allow. induction rules as [|r rules IH]; intros allow; simpl; [by destruct allow, did_ok|].
  destruct (matches r); [|apply IH]. cbn [negb List.find]. case_bool_decide; [done|]. rewrite IH.
  cbv zeta. destruct (List.find _ _); [done|]. by destruct did_ok, allow.
Qed.

Lemma port_number_range text p : port_number text = Ok p → 1 ≤ p ≤ 65535.
Proof.
  unfold port_number. intros H. cases_in H.
  match goal with H : parse_uint _ _ = Some _ |- _ => apply parse_uint_range in H end. lia.
Qed.

Lemma check_host_Ok h h' :
  check_host h = Ok h' ↔
    h' = to_ascii_lowercase h ∧ h ≠ "" ∧ slen h ≤ 253 ∧
    existsb (λ c, is_space c || is_control c) (chars h) = false ∧ has_char host_forbidden h = false ∧
    (has_char [":"%char] h = true → is_ipv6 h = true).
Proof.
  unfold check_host. split.
  - intros H. destruct (_ || _) eqn:E in H; [done|]. injection H as <-. bools.
    split_and!; [done..|lia|done|done|]. intros Hc.
    match goal with H : _ ∨ negb _ = false |- _ => destruct H as [H|H] end; [congruence|by apply negb_false_iff].
  - intros (-> & H1 & H2 & H3 & H4 & H5). rewrite bool_decide_false, H3, H4 by done.
    rewrite (proj2 (Z.ltb_ge 253 _)) by done. destruct (has_char [":"%char] h); [by rewrite H5|done].
Qed.

Lemma rule_kind_permutation {A} (f : A → bool) l l' : l ≡ₚ l' → is_some (List.find f l) = is_some (List.find f l').
Proof.
  intros Hp. apply eq_true_iff_eq. assert (H : ∀ l, is_some (List.find f l) = true ↔ ∃ x, x ∈ l ∧ f x = true).
  { clear. intros l. destruct (List.find f l) eqn:E; split; try done.
    - intros _. apply find_elem in E. eauto.
    - intros (x & Hx & Hf). by rewrite (find_none_elem _ _ E x Hx) in Hf. }
  rewrite !H. by setoid_rewrite Hp.
Qed.

Lemma List_filter_permutation {A} (f : A → bool) l k : l ≡ₚ k → List.filter f l ≡ₚ List.filter f k.
Proof.
  induction 1 as [|x l k _ IH|x y l|l1 l2 l3 _ IH1 _ IH2]; simpl; [done| | |by etrans].
  - destruct (f x); [by constructor|done].
  - destruct (f x), (f y); by constructor || done.
Qed.

(** The decision on a forward proposal, with the rules of the user in any
    state. It concerns the address the node would connect to: a valid host and a
    port from 1 to 65535. Among the rules that match it, the first deny decides;
    without one, the first allow, but only for a peer whose DID is verified and
    hashes to the very node that sent the proposal; otherwise a human is asked.
    So an allow never overrides a deny, whatever the order of the rules, and
    reordering them changes at most which rule is named. *)
Theorem evaluate_exact {C : Crypto} rules peer_id did p addr :
  (remote_host_port addr = None → evaluate rules peer_id did p addr = Ask) ∧
  ∀ host port, remote_host_port addr = Some (host, port) →
    let own := own_did peer_id did in
    let m := List.filter (rule_matches peer_id own p host port) rules in
    (host ≠ "" ∧ slen host ≤ 253 ∧ 1 ≤ port ≤ 65535) ∧
    evaluate rules peer_id did p addr =
      match List.find (λ r, bool_decide (action r = Deny)) m with
      | Some r => AutoDeny (id r)
      | None => match own, m with Some _, r :: _ => AutoAllow (id r) | _, _ => Ask end
      end ∧
    (∀ i, evaluate rules peer_id did p addr = AutoAllow i →
       (∃ d, did = Some d ∧ node_id_for_did d = peer_id) ∧
       (∃ r, r ∈ rules ∧ id r = i ∧ action r = Allow ∧ rule_matches peer_id own p host port r = true) ∧
       ∀ r, r ∈ rules → rule_matches peer_id own p host port r = true → action r = Allow) ∧
    (∀ rules', rules' ≡ₚ rules →
       match evaluate rules' peer_id did p addr, evaluate rules peer_id did p addr with
       | AutoAllow _, AutoAllow _ | AutoDeny _, AutoDeny _ | Ask, Ask => True
       | _, _ => False
       end).
Proof.
  split; [intros H; unfold evaluate; by rewrite H|].
  intros host port Haddr. cbv zeta. set (own := own_did peer_id did).
  assert (Hspec : ∀ rules, evaluate rules peer_id did p addr =
    let m := List.filter (rule_matches peer_id own p host port) rules in
    match List.find (λ r, bool_decide (action r = Deny)) m with
    | Some r => AutoDeny (id r)
    | None => match own, m with Some _, r :: _ => AutoAllow (id r) | _, _ => Ask end
    end).
  { intros rs. unfold evaluate. rewrite Haddr. fold own. rewrite evaluate_from_spec. cbv zeta.
    destruct (List.find _ _); [done|]. by destruct own. }
  split; [|split; [|split]].
  - unfold remote_host_port in Haddr. destruct (rsplit_once ":" addr) as [[h po]|]; [|done].
    cases_in Haddr. assert (Hc : ∃ x, check_host x = Ok host).
    { match goal with H : normalize_host _ = _ |- _ => unfold normalize_host in H; cases_in H; eauto end. }
    destruct Hc as (x & (-> & Hx & Hl & _)%check_host_Ok). split; [by destruct x|]. split; [by rewrite lower_length|].
    by eapply port_number_range.
  - apply Hspec.
  - intros i. rewrite Hspec. cbv zeta. destruct (List.find _ _) eqn:Hd; [done|].
    destruct own as [d|] eqn:Ho; [|done].
    destruct (List.filter _ rules) as [|r m] eqn:Hm; [done|]. intros [= <-].
    assert (Hall : ∀ x, x ∈ rules → rule_matches peer_id (Some d) p host port x = true → action x = Allow).
    { intros x Hx Hxm. assert (Hin : x ∈ r :: m) by (rewrite <-Hm; by apply elem_of_List_filter).
      pose proof (find_none_elem _ _ Hd x Hin) as Hf. cbv beta in Hf. bools. by destruct (action x). }
    assert (Hr : r ∈ rules ∧ rule_matches peer_id (Some d) p host port r = true)
      by (apply elem_of_List_filter; rewrite Hm; left).
    split; [|split; [exists r; naive_solver|done]].
    unfold own, own_did in Ho. destruct did as [d'|]; [|done]. case_bool_decide; [|done]. injection Ho as ->. eauto.
  - intros rules' Hperm. rewrite !Hspec. cbv zeta.
    assert (Hp : List.filter (rule_matches peer_id own p host port) rules'
      ≡ₚ List.filter (rule_matches peer_id own p host port) rules).
    { by apply List_filter_permutation. }
    pose proof (rule_kind_permutation (λ r, bool_decide (action r = Deny)) _ _ Hp) as Hk.
    destruct (List.find _ (List.filter _ rules')), (List.find _ (List.filter _ rules)); try done.
    destruct own; [|done].
    destruct (List.filter _ rules'), (List.filter _ rules); try done;
      [by apply Permutation_nil_l in Hp|by apply Permutation_nil_r in Hp].
Qed.

(** ** Normalizing again changes nothing *)

Lemma hexdigit_lower c : is_ascii_hexdigit (ascii_lower c) = is_ascii_hexdigit c.
Proof. destruct c as [b0 b1 b2 b3 b4 b5 b6 b7]. by destruct b0, b1, b2, b3, b4, b5, b6, b7. Qed.

Lemma hexdigit_graphic c : is_ascii_hexdigit c = true → is_ascii_graphic c = true.
Proof.
  destruct c as [b0 b1 b2 b3 b4 b5 b6 b7].
  destruct b0, b1, b2, b3, b4, b5, b6, b7; intros H; vm_compute in H; (discriminate H || reflexivity).
Qed.

Lemma normalize_peer_idem p q : normalize_peer p = Ok q → normalize_peer q = Ok q.
Proof.
  unfold normalize_peer at 1. intros H.
  destruct (bool_decide (trim p = "*")) eqn:Es; [bools; injection H as <-; by rewrite Es|].
  destruct (_ && _) eqn:Eh in H.
  - injection H as <-. bools. unfold normalize_peer.
    assert (Hh : string_forallb is_ascii_hexdigit (to_ascii_lowercase (trim p)) = true)
      by (rewrite lower_forallb; [done|apply hexdigit_lower]).
    rewrite trim_graphic by (revert Hh; apply string_forallb_impl, hexdigit_graphic).
    rewrite bool_decide_false.
    + rewrite lower_length, Hh, lower_idem. by rewrite (proj2 (Z.eqb_eq _ _)) by done.
    + intros He. apply (f_equal slen) in He. rewrite lower_length in He. change (slen "*") with 1 in He. lia.
  - destruct (_ && _) eqn:Ed in H; [|done]. injection H as <-. unfold normalize_peer.
    rewrite trim_idem. rewrite Es, Eh, Ed. done.
Qed.

Lemma map_items_idem f max e l l' :
  (∀ x y, x ∈ l → f x = Ok y → f y = Ok y) → map_items f max e l = Ok l' →
  map_items f max e l' = Ok l' ∧ length l' = length l ∧ Forall (λ y, ∃ x, f x = Ok y) l' ∧ (length l' ≤ max)%nat.
Proof.
  revert max l'. induction l as [|x l IH]; intros max l' Hf; simpl; [intros [= <-]; split_and!; [done|done|constructor|simpl; lia]|].
  destruct max as [|max]; [done|]. intros (y & Hy & (ys & Hys & [= <-])%rbind_Ok)%rbind_Ok.
  destruct (IH max ys) as (Hi & Hl & Hall & Hm); [intros a b Ha; apply Hf; by right|done|].
  split_and!; simpl; [|by rewrite Hl|constructor; eauto|lia].
  rewrite (Hf x y) by (done || left). cbn [rbind]. by rewrite Hi.
Qed.

Lemma split_on_nonempty c s : ∃ w l, split_on c s = w :: l.
Proof.
  induction s as [|a s IH]; [by eexists _, _|]. cbn [split_on]. case_bool_decide; [by eexists _, _|].
  destruct IH as (w & l & ->). by eexists _, _.
Qed.

(** *** Ports *)

Definition printed_item (item : string) (a b : Z) : Prop :=
  1 ≤ a ≤ b ∧ b ≤ 65535 ∧ (item = show a ∧ a = b ∨ item = show a +:+ "-" +:+ show b).

Lemma port_range_spec text a b : port_range text = Ok (a, b) →
  1 ≤ a ≤ b ∧ b ≤ 65535 ∧ (split_once "-" text = None → a = b).
Proof.
  unfold port_range. destruct (split_once "-" text) as [[x y]|].
  - intros (u & Hu%port_number_range & (v & Hv%port_number_range & H)%rbind_Ok)%rbind_Ok.
    destruct (Z.ltb_spec v u); [done|]. injection H as <- <-. split_and!; lia || done.
  - intros (u & Hu%port_number_range & [= <- <-])%rbind_Ok. split_and!; lia || done.
Qed.

Lemma port_item_printed x y : port_item x = Ok y → ∃ a b, printed_item y a b.
Proof.
  unfold port_item. intros ([a b] & Hr%port_range_spec & [= <-])%rbind_Ok. destruct Hr as (H1 & H2 & H3).
  exists a, b. split; [done|]. split; [done|]. cbn [fst snd].
  destruct (split_once "-" x); [by right|left]. by rewrite H3.
Qed.

Lemma port_number_show n : 1 ≤ n ≤ 65535 → port_number (trim (show n)) = Ok n.
Proof.
  intros Hn. destruct (show_spec n ltac:(lia)) as (Hd & _ & Hne). unfold port_number.
  rewrite trim_graphic by (revert Hd; apply string_forallb_impl, digit_graphic).
  rewrite bool_decide_false, Hd, parse_show by (done || lia). cbn [negb orb].
  by rewrite (proj2 (Z.eqb_neq n 0)) by lia.
Qed.

Lemma digits_no c s : is_ascii_digit c = false → string_forallb is_ascii_digit s = true →
  string_forallb (λ a, negb (bool_decide (a = c))) s = true.
Proof.
  intros Hc. apply string_forallb_impl. intros a Ha. apply negb_true_iff, bool_decide_false. intros ->.
  by rewrite Ha in Hc.
Qed.

Lemma printed_item_again item a b : printed_item item a b →
  port_item item = Ok item ∧ slen item ≤ 11 ∧ string_forallb is_ascii_graphic item = true ∧
  string_forallb (λ a, negb (bool_decide (a = ","%char))) item = true ∧ item ≠ "*".
Proof.
  intros (Ha & Hb & Hi).
  destruct (show_spec a ltac:(lia)) as (Hda & _ & Hna), (show_spec b ltac:(lia)) as (Hdb & _ & Hnb).
  assert (Hla : slen (show a) ≤ 5) by (apply (show_length 5); simpl; lia).
  assert (Hlb : slen (show b) ≤ 5) by (apply (show_length 5); simpl; lia).
  assert (Hga : string_forallb is_ascii_graphic (show a) = true) by (revert Hda; apply string_forallb_impl, digit_graphic).
  assert (Hgb : string_forallb is_ascii_graphic (show b) = true) by (revert Hdb; apply string_forallb_impl, digit_graphic).
  destruct Hi as [[-> <-]| ->].
  - split_and!; [|lia|done|by apply digits_no|intros He; by rewrite He in Hda].
    unfold port_item, port_range. rewrite split_once_plain by (by apply digits_no).
    by rewrite port_number_show by lia.
  - split_and!.
    + unfold port_item, port_range. change (show a +:+ "-" +:+ show b) with (show a +:+ String "-" (show b)).
      rewrite split_once_app by (by apply digits_no). rewrite !port_number_show by lia. cbn [rbind].
      by rewrite (proj2 (Z.ltb_ge b a)) by lia.
    + rewrite !slen_append. change (slen "-") with 1. lia.
    + by rewrite !string_forallb_append, Hga, Hgb.
    + rewrite !string_forallb_append, (digits_no "," (show a)), (digits_no "," (show b)) by done. done.
    + intros He. destruct (show a) as [|x s]; [done|]. destruct s; [|done]. by injection He as ->.
Qed.

Lemma slen_join c l w n :
  0 ≤ n → Forall (λ w, slen w ≤ n) (w :: l) → slen (join (String c "") (w :: l)) ≤ (n + 1) * zlen (w :: l).
Proof.
  intros Hn. unfold join. revert w. induction l as [|v l IH]; intros w [Hw Hl]%Forall_cons.
  - simpl. unfold zlen. simpl. lia.
  - change (String.concat (String c "") (w :: v :: l)) with (w +:+ String c "" +:+ String.concat (String c "") (v :: l)).
    rewrite !slen_append, zlen_cons. specialize (IH v Hl). change (slen (String c "")) with 1. lia.
Qed.

Lemma join_not_star c l w : c ≠ "*"%char → w ≠ "*" → join (String c "") (w :: l) ≠ "*".
Proof.
  intros Hc Hw. unfold join. destruct l as [|v l]; [done|].
  change (String.concat (String c "") (w :: v :: l)) with (w +:+ String c (String.concat (String c "") (v :: l))).
  destruct w as [|x w]; [by intros [= ->]|]. change (String x w +:+ ?r) with (String x (w +:+ r)).
  intros [= _ He]. by destruct w.
Qed.

Lemma normalize_ports_idem t t' : normalize_ports t = Ok t' → normalize_ports t' = Ok t'.
Proof.
  unfold normalize_ports at 1. intros H.
  destruct (bool_decide (trim t = "*")) eqn:Es; [bools; injection H as <-; by rewrite Es|].
  destruct (4096 <? slen (trim t)); [done|]. apply rbind_Ok in H as (items & Hitems & [= <-]).
  destruct (split_on_nonempty "," (trim t)) as (w & l & Hs).
  apply map_items_idem in Hitems as (Hagain & Hlen & Hall & Hmax).
  2:{ intros x y _ (a & b & Hp)%port_item_printed. by apply printed_item_again in Hp as [? _]. }
  rewrite Hs in Hlen. destruct items as [|i items]; [done|].
  assert (Hp : Forall (λ item, ∃ a b, printed_item item a b) (i :: items)).
  { eapply Forall_impl; [exact Hall|]. intros y [x Hx]. by apply port_item_printed in Hx. }
  unfold normalize_ports. rewrite no_space_trim.
  2:{ apply no_space_join; [done|]. eapply Forall_impl; [exact Hp|]. intros y (a & b & Hy).
      apply printed_item_again in Hy as (_ & _ & Hg & _). by apply no_space_graphic. }
  rewrite bool_decide_false.
  2:{ apply join_not_star; [done|]. apply Forall_cons in Hp as [(a & b & Hy) _].
      by apply printed_item_again in Hy as (_ & _ & _ & _ & ?). }
  rewrite (proj2 (Z.ltb_ge 4096 _)).
  2:{ etrans; [apply (slen_join _ _ _ 11); [done|]|unfold zlen; simpl in *; lia].
      eapply Forall_impl; [exact Hp|]. intros y (a & b & Hy). by apply printed_item_again in Hy as (_ & ? & _). }
  rewrite split_on_join; [by rewrite Hagain|].
  eapply Forall_impl; [exact Hp|]. intros y (a & b & Hy). by apply printed_item_again in Hy as (_ & _ & _ & ? & _).
Qed.

(** *** Hosts *)

Lemma is_space_lower c : is_space (to_ascii_lowercase c) = is_space c.
Proof. unfold is_space. by rewrite whitespace_len_lower. Qed.

Lemma ascii_lower_low c n : (n <= 64)%N → (N_of_ascii (ascii_lower c) <? n)%N = (N_of_ascii c <? n)%N.
Proof.
  intros Hn. unfold ascii_lower. destruct (in_range "A" "Z" c) eqn:E; [|done].
  unfold in_range in E. apply andb_true_iff in E as [E1 E2]. apply N.leb_le in E1, E2.
  change (N_of_ascii "A") with 65%N in E1. change (N_of_ascii "Z") with 90%N in E2.
  rewrite Stdlib.Strings.Ascii.N_ascii_embedding by lia.
  rewrite (proj2 (N.ltb_ge (N_of_ascii c + 32) n)) by lia. by rewrite (proj2 (N.ltb_ge (N_of_ascii c) n)) by lia.
Qed.

Lemma is_control_lower c : is_control (to_ascii_lowercase c) = is_control c.
Proof.
  destruct c as [|a [|b [|d c]]]; [done| | |done].
  - cbn [to_ascii_lowercase is_control]. destruct a as [b0 b1 b2 b3 b4 b5 b6 b7].
    by destruct b0, b1, b2, b3, b4, b5, b6, b7.
  - cbn [to_ascii_lowercase is_control].
    replace (N_of_ascii (ascii_lower a) =? 194)%N with (N_of_ascii a =? 194)%N
      by (destruct a as [b0 b1 b2 b3 b4 b5 b6 b7]; by destruct b0, b1, b2, b3, b4, b5, b6, b7).
    destruct (N_of_ascii a =? 194)%N; [|done]. cbn [andb].
    destruct b as [b0 b1 b2 b3 b4 b5 b6 b7]. by destruct b0, b1, b2, b3, b4, b5, b6, b7.
Qed.

Lemma has_char_lower cs h :
  forallb (λ c, negb (is_ascii_alphabetic c)) cs = true → has_char cs (to_ascii_lowercase h) = has_char cs h.
Proof.
  intros Hcs. unfold has_char. rewrite lower_forallb; [done|]. intros c. f_equal.
  unfold contains. apply bool_decide_ext. rewrite forallb_elem in Hcs.
  assert (Hl : is_ascii_alphabetic (ascii_lower c) = is_ascii_alphabetic c ∧ (ascii_lower c ≠ c → is_ascii_alphabetic c = true)).
  { clear. destruct c as [b0 b1 b2 b3 b4 b5 b6 b7]. by destruct b0, b1, b2, b3, b4, b5, b6, b7. }
  destruct Hl as [Hl Hne]. destruct (decide (ascii_lower c = c)) as [->|Hd]; [done|]. specialize (Hne Hd).
  split; intros Hin; specialize (Hcs _ Hin); rewrite ?Hl in Hcs; by rewrite Hne in Hcs.
Qed.

Definition host_ok (h : string) : Prop := check_host h = Ok h.

Lemma check_host_idem h h' : check_host h = Ok h' → host_ok h'.
Proof.
  intros (-> & H1 & H2 & H3 & H4 & H5)%check_host_Ok. apply check_host_Ok.
  rewrite lower_idem, lower_length, chars_lower, !has_char_lower by done. split_and!; [done|by destruct h|done| |done|].
  - rewrite <-H3. clear. induction (chars h) as [|c l IH]; [done|]. simpl.
    by rewrite is_space_lower, is_control_lower, IH.
  - intros Hc. unfold is_ipv6. rewrite parse_ip_lower. by apply H5.
Qed.

Lemma normalize_host_ok x h : normalize_host x = Ok h → host_ok h.
Proof. unfold normalize_host. intros H. cases_in H; by eapply check_host_idem. Qed.

Lemma strip_brackets_char s r : strip_brackets s = Some r → has_char ["["%char] s = true.
Proof.
  unfold strip_brackets. destruct (strip_prefix "[" s) as [t|] eqn:E; [|done]. intros _.
  by apply strip_prefix_eq in E as ->.
Qed.

Lemma has_char_sub cs ds s : (∀ c, c ∈ cs → c ∈ ds) → has_char cs s = true → has_char ds s = true.
Proof.
  intros Hsub. unfold has_char. induction s as [|c s IH]; [done|]. cbn [string_forallb].
  intros H. apply negb_true_iff, andb_false_iff in H as [H|H].
  - apply negb_true_iff, andb_false_iff. left. apply negb_false_iff. apply negb_false_iff in H.
    unfold contains in *. bools. apply bool_decide_true. auto.
  - apply negb_true_iff, andb_false_iff. right. apply negb_true_iff, IH, negb_true_iff, H.
Qed.

Lemma host_ok_facts h : host_ok h →
  normalize_host h = Ok h ∧ no_space h = true ∧ slen h ≤ 253 ∧
  string_forallb (λ a, negb (bool_decide (a = ","%char))) h = true ∧ h ≠ "*" ∧ has_char ["["%char] h = false.
Proof.
  intros Hh. pose proof Hh as (_ & H1 & H2 & H3 & H4 & H5)%check_host_Ok.
  assert (Hs : no_space h = true).
  { apply chars_no_space. apply existsb_elem_false. intros c Hc. rewrite existsb_elem_false in H3.
    by apply H3, orb_false_iff in Hc as [? _]. }
  assert (Hb : ∀ c, c ∈ host_forbidden → has_char [c] h = false).
  { intros c Hc. destruct (has_char [c] h) eqn:E; [|done]. rewrite (has_char_sub [c] host_forbidden) in H4; [done| |done].
    intros d ->%list_elem_of_singleton. done. }
  assert (Hbr : strip_brackets h = None).
  { destruct (strip_brackets h) eqn:E; [|done]. apply strip_brackets_char in E. rewrite Hb in E; [done|by left]. }
  split_and!; [|done|done| | |by apply Hb; left].
  - unfold normalize_host. by rewrite (no_space_trim h Hs), Hbr.
  - assert (Hc : has_char [","%char] h = false) by (apply Hb; unfold host_forbidden; set_solver).
    unfold has_char in Hc. apply negb_false_iff in Hc. revert Hc. apply string_forallb_impl. intros a Ha.
    unfold contains in Ha. bools. apply negb_true_iff, bool_decide_false. set_solver.
  - intros ->. by vm_compute in H4.
Qed.

Lemma loopback_lower t : eq_ignore_ascii_case t "loopback" = bool_decide (to_ascii_lowercase t = "loopback").
Proof. apply (eq_ignore_case_lower t "loopback"). Qed.

Lemma normalize_hosts_idem t t' : normalize_hosts t = Ok t' → normalize_hosts t' = Ok t'.
Proof.
  unfold normalize_hosts at 1. rewrite loopback_lower. intros H. destruct (_ || _) eqn:Es in H.
  { injection H as <-. apply orb_true_iff in Es as [Es|Es]; bools; by rewrite Es. }
  destruct (8192 <? slen (trim t)); [done|]. apply rbind_Ok in H as (items & Hitems & [= <-]).
  destruct (split_on_nonempty "," (trim t)) as (w & l & Hs).
  apply map_items_idem in Hitems as (Hagain & Hlen & Hall & Hmax).
  2:{ intros x y _ Hy%normalize_host_ok. by apply host_ok_facts in Hy as [? _]. }
  rewrite Hs in Hlen. destruct items as [|i items]; [done|].
  assert (Hp : Forall host_ok (i :: items)).
  { eapply Forall_impl; [exact Hall|]. intros y [x Hx]. by apply normalize_host_ok in Hx. }
  set (joined := join (String "," "") (i :: items)).
  assert (Hlow : to_ascii_lowercase joined = joined).
  { assert (Hone : ∀ h, host_ok h → to_ascii_lowercase h = h) by (intros h (He & _)%check_host_Ok; done).
    subst joined. clear Hall Hagain Hlen Hmax. revert i Hp. unfold join.
    induction items as [|j items IH]; intros i [Hi Hrest]%Forall_cons; [by apply Hone|].
    change (String.concat (String "," "") (i :: j :: items))
      with (i +:+ "," +:+ String.concat (String "," "") (j :: items)). rewrite !lower_append, IH by done. by rewrite Hone. }
  unfold normalize_hosts. fold joined. rewrite no_space_trim.
  2:{ apply no_space_join; [done|]. eapply Forall_impl; [exact Hp|]. intros y Hy. by apply host_ok_facts in Hy as (_ & ? & _). }
  rewrite loopback_lower, Hlow. destruct (_ || _); [done|].
  rewrite (proj2 (Z.ltb_ge 8192 _)).
  2:{ etrans; [apply (slen_join _ _ _ 253); [done|]|unfold zlen; simpl in *; lia].
      eapply Forall_impl; [exact Hp|]. intros y Hy. by apply host_ok_facts in Hy as (_ & _ & ? & _). }
  unfold joined. rewrite split_on_join; [rewrite Hagain; by case_if|].
  eapply Forall_impl; [exact Hp|]. intros y Hy. by apply host_ok_facts in Hy as (_ & _ & _ & ? & _).
Qed.

Lemma normalize_idem r r' : normalize r = Ok r' →
  normalize r' = Ok r' ∧ id r' = id r ∧ created_ms r' = created_ms r ∧ action r' = action r.
Proof.
  unfold normalize at 1. intros (p & Hp%normalize_peer_idem & H)%rbind_Ok.
  apply rbind_Ok in H as ([] & Hpr%ensure_Ok & H). apply rbind_Ok in H as (po & Hpo%normalize_ports_idem & H).
  apply rbind_Ok in H as (h & Hh%normalize_hosts_idem & H).
  destruct (200 <? chars_count (trim (note r))) eqn:Hn; [done|]. injection H as <-.
  split; [|done]. unfold normalize. cbn [peer proto ports hosts note id action created_ms].
  rewrite Hp. cbn [rbind].
  assert (Hpr' : to_ascii_lowercase (trim (to_ascii_lowercase (trim (proto r)))) = to_ascii_lowercase (trim (proto r))).
  { unfold contains in Hpr. bools. revert Hpr. generalize (to_ascii_lowercase (trim (proto r))). intros s Hs.
    repeat (apply elem_of_cons in Hs as [->|Hs]; [done|]). by apply elem_of_nil in Hs. }
  rewrite Hpr', Hpr. cbn [ensure rbind]. rewrite Hpo. cbn [rbind]. rewrite Hh. cbn [rbind].
  by rewrite trim_idem, Hn.
Qed.

(** ** The store keeps its rules in order and in normal form *)

Definition normal (r : Rule) : Prop := normalize r = Ok r ∧ valid_rule_id (id r) = true.

Record rules_ok (rules : list Rule) : Prop := {
  ok_count : zlen rules <= MAX_RULES;
  ok_ids : NoDup (map id rules);
  ok_sorted : Sorted rule_before rules;
  ok_normal : Forall normal rules;
}.

#[export] Instance rule_before_total : Total rule_before.
Proof.
  intros a b. unfold rule_before. destruct (Z.lt_trichotomy (created_ms a) (created_ms b)) as [?|[He|?]]; [tauto| |tauto].
  rewrite He. destruct (total String.le (id a) (id b)); tauto.
Qed.

#[export] Instance rule_before_trans : Transitive rule_before.
Proof.
  intros a b c [H1|[E1 H1]] [H2|[E2 H2]]; unfold rule_before; [left; lia..|].
  right. split; [lia|by etrans].
Qed.

Lemma rule_before_antisym rules a b :
  NoDup (map id rules) → a ∈ rules → b ∈ rules → rule_before a b → rule_before b a → a = b.
Proof.
  intros Hnd Ha Hb [H1|[E1 H1]] [H2|[E2 H2]]; [lia..|].
  assert (Hid : id a = id b) by (by apply (anti_symm String.le)).
  apply list_elem_of_lookup in Ha as [i Hi], Hb as [j Hj].
  assert (i = j) as <-; [|congruence]. eapply NoDup_lookup; [exact Hnd| |].
  - rewrite list_lookup_fmap, Hi. done.
  - rewrite list_lookup_fmap, Hj. by rewrite Hid.
Qed.

(** A sorted store is determined by which rules it holds. *)
Lemma sort_rules_unique rules l :
  NoDup (map id rules) → Sorted rule_before rules → l ≡ₚ rules → sort_rules l = rules.
Proof.
  intros Hnd Hs Hp. assert (Hm : sort_rules l ≡ₚ rules) by (unfold sort_rules; by rewrite merge_sort_Permutation).
  apply (Sorted_unique_strong rule_before); [|apply (Sorted_merge_sort _)|done|done].
  intros a b Ha Hb. rewrite Hm in Ha. by apply rule_before_antisym with rules.
Qed.

Lemma rules_ok_sort l :
  zlen l <= MAX_RULES → NoDup (map id l) → Forall normal l → rules_ok (sort_rules l).
Proof.
  intros Hl Hnd Hf. pose proof (merge_sort_Permutation rule_before l) as Hp. fold (sort_rules l) in Hp.
  split; [unfold zlen; by rewrite Hp| |apply (Sorted_merge_sort _)|by rewrite Hp].
  by rewrite Hp.
Qed.

Lemma lower_hexdigit c : is_lower_hexdigit c = true → is_ascii_hexdigit c = true.
Proof.
  destruct c as [b0 b1 b2 b3 b4 b5 b6 b7].
  destruct b0, b1, b2, b3, b4, b5, b6, b7; intros H; vm_compute in H; (discriminate H || reflexivity).
Qed.

Lemma rule_id_valid n : valid_rule_id (rule_id n) = true.
Proof.
  unfold valid_rule_id, rule_id. generalize (n / 2 ^ 24 mod 256) (n / 2 ^ 16 mod 256) (n / 2 ^ 8 mod 256) (n mod 256).
  intros a b c d. set (s := bytes _). assert (Hs : slen s = 4) by done.
  rewrite slen_append, slen_hex_encode, Hs. cbn [andb]. change (slen "r-" + 2 * 4 =? 10) with true.
  change (strip_prefix "r-" ("r-" +:+ hex_encode s)) with (Some (hex_encode s)). cbn [is_some_and andb].
  generalize (hex_encode_lower s). apply string_forallb_impl, lower_hexdigit.
Qed.

Lemma apply_Ok r p r' : apply r p = Ok r' →
  normalize r' = Ok r' ∧ id r' = id r ∧ created_ms r' = created_ms r ∧
  (∀ a, patch_action p = Some a → parse_action a = Ok (action r')).
Proof.
  unfold apply. intros (a & Ha & (Hn & Hi & Hc & Hact)%normalize_idem)%rbind_Ok. cbn [id created_ms action] in *.
  split_and!; [done..|]. intros x Hx. rewrite Hx in Ha. by rewrite Hact.
Qed.

Lemma new_rule_id_fresh draws rules i :
  new_rule_id draws rules = Some i → valid_rule_id i = true ∧ i ∉ map id rules.
Proof.
  unfold new_rule_id. intros [Hin Hf]%find_elem. apply list_elem_of_fmap in Hin as (n & -> & _).
  split; [apply rule_id_valid|]. apply negb_true_iff in Hf. rewrite existsb_elem_false in Hf.
  intros (r & Hr & Hr')%list_elem_of_fmap. specialize (Hf r Hr'). bools. by rewrite Hr in Hf.
Qed.

Lemma add_exact rules patch draws now persisted rules' o :
  add rules patch draws now persisted = (rules', o) → rules_ok rules →
  rules_ok rules' ∧
  match o with
  | Ok r => rules' ≡ₚ r :: rules ∧ id r ∉ map id rules ∧ created_ms r = now ∧
            (∃ a, patch_action patch = Some a ∧ parse_action a = Ok (action r)) ∧ persisted = true
  | Err _ => rules' = rules
  end.
Proof.
  unfold add. intros H Hok. destruct (ensure _ _ ;;? _) as [r|e] eqn:E; injection H as <- <-; [|done].
  apply rbind_Ok in E as ([] & Ha%ensure_Ok & E). apply rbind_Ok in E as ([] & Hl%ensure_Ok & E).
  apply rbind_Ok in E as (i & Hi & E). apply rbind_Ok in E as (r' & Hr & E).
  apply rbind_Ok in E as ([] & Hp%ensure_Ok & [= ->]).
  destruct (new_rule_id draws rules) as [i'|] eqn:Hnew; [injection Hi as ->|done].
  apply new_rule_id_fresh in Hnew as [Hv Hfresh].
  apply apply_Ok in Hr as (Hn & Hid & Hc & Hact). cbn [id created_ms] in *.
  destruct Hok as [Hcnt Hids _ Hall]. bools. split.
  - apply rules_ok_sort.
    + unfold zlen in *. rewrite length_app. simpl. lia.
    + rewrite map_app. apply NoDup_app. split; [done|]. split; [|apply NoDup_singleton].
      intros x Hx ->%list_elem_of_singleton. by rewrite Hid in Hx.
    + apply Forall_app. split; [done|]. constructor; [|done]. split; [done|by rewrite Hid].
  - split_and!; [|by rewrite Hid|done| |done].
    + unfold sort_rules. rewrite merge_sort_Permutation. by rewrite Permutation_app_comm.
    + destruct (patch_action patch) as [a|]; [|done]. eauto.
Qed.

(** A rule replaced by one with its id and time keeps the order and the ids. *)
Lemma replace_rule_spec i new rules r :
  List.find (λ r, bool_decide (id r = i)) rules = Some r → id new = id r →
  ∃ l1 l2, rules = l1 ++ r :: l2 ∧ replace_rule i new rules = l1 ++ new :: l2.
Proof.
  intros Hf Hid. induction rules as [|x rules IH]; [done|]. simpl in *. case_bool_decide.
  - injection Hf as ->. by exists [], rules.
  - destruct (IH Hf) as (l1 & l2 & -> & ->). by exists (x :: l1), l2.
Qed.

Lemma Sorted_rekey l l' :
  Forall2 (λ a b, id a = id b ∧ created_ms a = created_ms b) l l' → Sorted rule_before l → Sorted rule_before l'.
Proof.
  induction 1 as [|a b l l' [Hi Hc] Hl IH]; intros Hs; [constructor|].
  apply Sorted_inv in Hs as [Hs Hd]. constructor; [by apply IH|].
  destruct Hl as [|x y l l' [Hi' Hc'] Hl]; [constructor|]. apply HdRel_inv in Hd. constructor.
  unfold rule_before in *. by rewrite <-Hi, <-Hc, <-Hi', <-Hc'.
Qed.

Lemma update_exact rules i patch persisted rules' o :
  update rules i patch persisted = (rules', o) → rules_ok rules →
  rules_ok rules' ∧
  match o with
  | Ok new => persisted = true ∧ ∃ r l1 l2, rules = l1 ++ r :: l2 ∧ id r = i ∧ apply r patch = Ok new ∧
                rules' = l1 ++ new :: l2 ∧ id new = i ∧ created_ms new = created_ms r
  | Err _ => rules' = rules
  end.
Proof.
  unfold update. intros H Hok. destruct (rbind _ _) as [new|e] eqn:E; injection H as <- <-; [|done].
  apply rbind_Ok in E as (r & Hf & E). apply rbind_Ok in E as (r' & Hr & E).
  apply rbind_Ok in E as ([] & Hp%ensure_Ok & [= ->]).
  destruct (List.find _ rules) as [r0|] eqn:Hfind; [injection Hf as ->|done].
  pose proof Hr as (Hn & Hid & Hc & _)%apply_Ok. pose proof (find_elem _ _ _ Hfind) as [Hin Hi]. bools.
  destruct (replace_rule_spec i new rules r Hfind Hid) as (l1 & l2 & Hl & Hl'). rewrite Hl'.
  destruct Hok as [Hcnt Hids Hs Hall]. split.
  - assert (Hf2 : Forall2 (λ a b, id a = id b ∧ created_ms a = created_ms b) rules (l1 ++ new :: l2)).
    { rewrite Hl. apply Forall2_app; [by apply Forall_Forall2_diag, Forall_forall|].
      constructor; [done|]. by apply Forall_Forall2_diag, Forall_forall. }
    assert (Hmap : map id (l1 ++ new :: l2) = map id rules)
      by (rewrite Hl, !map_app; simpl; by rewrite Hid).
    split.
    + revert Hcnt. rewrite Hl. unfold zlen. by rewrite !length_app.
    + by rewrite Hmap.
    + by apply Sorted_rekey with rules.
    + rewrite Hl in Hall. apply Forall_app in Hall as [H1 [H2 H3]%Forall_cons].
      apply Forall_app. split; [done|]. constructor; [|done]. split; [done|]. rewrite Hid. apply H2.
  - split; [done|]. exists r, l1, l2. split_and!; congruence || done.
Qed.

Lemma Sorted_filter (f : Rule → bool) l : Sorted rule_before l → Sorted rule_before (List.filter f l).
Proof.
  intros Hs. apply StronglySorted_Sorted. apply Sorted_StronglySorted in Hs; [|apply _].
  induction Hs as [|x l Hl IH Hx]; [constructor|]. simpl. destruct (f x); [|done]. constructor; [done|].
  rewrite Forall_forall in *. intros y [Hy _]%elem_of_List_filter. by apply Hx.
Qed.

Lemma filter_same_all {A} (f : A → bool) l : zlen (List.filter f l) = zlen l → ∀ x, x ∈ l → f x = true.
Proof.
  induction l as [|y l IH]; intros Hl x Hx; [by apply elem_of_nil in Hx|].
  pose proof (filter_zlen f l). unfold zlen in *. simpl in Hl. destruct (f y) eqn:Hy; simpl in Hl; [|lia].
  apply elem_of_cons in Hx as [->|Hx]; [done|]. apply IH; [lia|done].
Qed.

Lemma remove_exact rules i persisted rules' o :
  remove rules i persisted = (rules', o) → rules_ok rules →
  rules_ok rules' ∧
  match o with
  | Ok true => i ∈ map id rules ∧ persisted = true ∧
               rules' = List.filter (λ r, negb (bool_decide (id r = i))) rules ∧ i ∉ map id rules'
  | Ok false => i ∉ map id rules ∧ rules' = rules
  | Err _ => rules' = rules
  end.
Proof.
  unfold remove. intros H Hok. set (f := λ r, negb (bool_decide (id r = i))) in *.
  destruct (zlen (List.filter f rules) =? zlen rules) eqn:Hz.
  - injection H as <- <-. split; [done|]. split; [|done]. apply Z.eqb_eq in Hz.
    intros (r & -> & Hr)%list_elem_of_fmap. pose proof (filter_same_all f rules Hz r Hr) as Hf. unfold f in Hf. by bools.
  - destruct persisted; injection H as <- <-; [|done]. destruct Hok as [Hcnt Hids Hs Hall]. split.
    + split; [pose proof (filter_zlen f rules); lia|by apply NoDup_map_filter|by apply Sorted_filter|].
      rewrite Forall_forall in *. intros r [Hr _]%elem_of_List_filter. by apply Hall.
    + split_and!; [|done..|].
      * destruct (decide (i ∈ map id rules)) as [|Hni]; [done|]. exfalso. apply Z.eqb_neq in Hz. apply Hz.
        clear -Hni. unfold zlen. induction rules as [|r rules IH]; [done|]. simpl in *.
        apply not_elem_of_cons in Hni as [Hi Hni]. unfold f at 1. rewrite bool_decide_false by congruence. simpl.
        specialize (IH Hni). lia.
      * intros (r & -> & [_ Hf]%elem_of_List_filter)%list_elem_of_fmap. unfold f in Hf. by bools.
Qed.

Lemma load_rules_Ok seen l l' : load_rules seen l = Ok l' →
  Forall normal l' ∧ map id l' = map id l ∧ NoDup (map id l) ∧ (∀ i, i ∈ seen → i ∉ map id l) ∧ length l' = length l.
Proof.
  revert seen l'. induction l as [|r l IH]; intros seen l'; cbn [load_rules].
  { intros [= <-]. split_and!; [constructor|done|constructor| |done]. intros i _. apply not_elem_of_nil. }
  intros ([] & Hi%ensure_Ok & (r' & Hr & (rest & Hrest & [= <-])%rbind_Ok)%rbind_Ok)%rbind_Ok. bools.
  apply normalize_idem in Hr as (Hn & Hid & _).
  destruct (IH _ _ Hrest) as (Hall & Hids & Hnd & Hseen & Hlen).
  match goal with H : contains seen _ = false |- _ => unfold contains in H end. bools. rewrite Hid in Hseen. split_and!.
  - constructor; [|done]. split; [done|by rewrite Hid].
  - simpl. by rewrite Hid, Hids.
  - simpl. apply NoDup_cons. split; [|done]. apply Hseen. by left.
  - intros i Hin. simpl. apply not_elem_of_cons. split; [by intros ->|]. apply Hseen. by right.
  - simpl. by rewrite Hlen.
Qed.

Lemma load_rules_normal seen l :
  Forall normal l → NoDup (map id l) → (∀ i, i ∈ seen → i ∉ map id l) → load_rules seen l = Ok l.
Proof.
  revert seen. induction l as [|r l IH]; intros seen Hall Hnd Hseen; [done|].
  apply Forall_cons in Hall as [[Hn Hv] Hall]. simpl in Hnd. apply NoDup_cons in Hnd as [Hr Hnd].
  cbn [load_rules]. rewrite Hv. unfold contains. rewrite bool_decide_false.
  2:{ intros Hin. apply (Hseen _ Hin). by left. }
  cbn [negb andb ensure rbind]. rewrite Hn. cbn [rbind]. rewrite IH; [done|done|done|].
  intros i [->|Hi]%elem_of_cons; [done|]. specialize (Hseen i Hi). simpl in Hseen. by apply not_elem_of_cons in Hseen as [_ ?].
Qed.

Lemma load_Ok l rules : load l = Ok rules → rules_ok rules.
Proof.
  unfold load. intros ([] & Hc%ensure_Ok & (l' & Hl & [= <-])%rbind_Ok)%rbind_Ok. bools.
  apply load_rules_Ok in Hl as (Hall & Hids & Hnd & _ & Hlen).
  apply rules_ok_sort; [unfold zlen in *; lia|by rewrite Hids|done].
Qed.

(** What the daemon keeps is what it would read back. *)
Lemma load_kept rules : rules_ok rules → load rules = Ok rules.
Proof.
  intros [Hc Hids Hs Hall]. unfold load. rewrite (proj2 (Z.leb_le _ _)) by done. cbn [ensure rbind].
  rewrite load_rules_normal; [cbn [rbind]|done|done|intros i []%elem_of_nil].
  by rewrite sort_rules_unique with (rules := rules).
Qed.

(** The edits of a run, with what they draw and whether their write succeeds. *)
Inductive Edit :=
  | EAdd (patch : RulePatch) (draws : list Z) (now : Z) (persisted : bool)
  | EUpdate (i : string) (patch : RulePatch) (persisted : bool)
  | ERemove (i : string) (persisted : bool).

Definition edit (rules : list Rule) (e : Edit) : list Rule * bool :=
  match e with
  | EAdd patch draws now persisted =>
      let '(rules', o) := add rules patch draws now persisted in
      (rules', match o with Ok _ => true | Err _ => false end)
  | EUpdate i patch persisted =>
      let '(rules', o) := update rules i patch persisted in
      (rules', match o with Ok _ => true | Err _ => false end)
  | ERemove i persisted =>
      let '(rules', o) := remove rules i persisted in
      (rules', match o with Ok b => b | Err _ => false end)
  end.

Definition edits (rules : list Rule) (es : list Edit) : list Rule := fold_left (λ rs e, (edit rs e).1) es rules.

Lemma edit_ok rules e : rules_ok rules → rules_ok (edit rules e).1 ∧ ((edit rules e).2 = false → (edit rules e).1 = rules).
Proof.
  intros Hok. destruct e as [patch draws now per|i patch per|i per]; simpl.
  - destruct (add _ _ _ _ _) as [rs o] eqn:E. apply add_exact in E as [? Ho]; [|done]. by destruct o.
  - destruct (update _ _ _ _) as [rs o] eqn:E. apply update_exact in E as [? Ho]; [|done]. by destruct o.
  - destruct (remove _ _ _) as [rs o] eqn:E. apply remove_exact in E as [? Ho]; [|done]. destruct o as [[]|]; naive_solver.
Qed.

(** C15. Whatever file the store starts from, and whatever is added, updated and
    removed, with writes that succeed or fail, the rules stay at most 256, in
    the order of their creation, with distinct well-formed ids and in normal
    form; so the file a write leaves is read back as exactly the rules the
    daemon decides by, and an edit that fails changes nothing. *)
Theorem store_reloads l start es :
  load l = Ok start →
  let rules := edits start es in
  rules_ok rules ∧ load rules = Ok rules ∧
  (∀ e, (edit rules e).2 = false → (edit rules e).1 = rules) ∧
  (∀ i r, List.find (λ r, bool_decide (id r = i)) rules = Some r → normalize r = Ok r ∧ id r = i).
Proof.
  intros Hl. cbv zeta. assert (Hok : rules_ok (edits start es)).
  { apply load_Ok in Hl. clear l. unfold edits. revert start Hl. induction es as [|e es IH]; intros start Hl; [done|].
    simpl. by apply IH, edit_ok. }
  split_and!; [done|by apply load_kept|by intros e; apply edit_ok|].
  intros i r [Hin Hi]%find_elem. bools. destruct Hok as [_ _ _ Hall]. rewrite Forall_forall in Hall. by apply Hall in Hin as [? _].
Qed.

(** ** Concrete runs *)

Definition stored_rule : Rule :=
  {| id := "r-0000002a"; action := Deny; peer := " * "; proto := "TCP"; ports := " 22 , 8000-8010"; hosts := "Example.ORG";
     note := " ssh "; created_ms := 5 |}.
Definition kept_rule : Rule :=
  {| id := "r-0000002a"; action := Deny; peer := "*"; proto := "tcp"; ports := "22,8000-8010"; hosts := "example.org";
     note := "ssh"; created_ms := 5 |}.

Lemma store_reloads_witness :
  load [stored_rule] = Ok [kept_rule] ∧
  load (edits [kept_rule] [ERemove "r-0000002a" true]) = Ok (edits [kept_rule] [ERemove "r-0000002a" true]).
Proof.
  assert (Hl : load [stored_rule] = Ok [kept_rule]) by (vm_compute; reflexivity).
  split; [exact Hl|]. exact (proj1 (proj2 (store_reloads [stored_rule] [kept_rule] [ERemove "r-0000002a" true] Hl))).
Defined.

Example remote_example : remote_host_port "[::1]:8080" = Some ("::1", 8080).
Proof. reflexivity. Qed.
Example remote_ambiguous : remote_host_port "::1:8080" = None.
Proof. reflexivity. Qed.
Example loopback_example : is_loopback "127.9.9.9" = true ∧ is_loopback "localhost.example" = false.
Proof. by split. Qed.
