(* ===== verification/TunnelTrust.v ===== *)
(** * Remembered decisions

    [src/src/tunnel/auth.rs], [src/src/tunnel/auth/trust.rs] and
    [src/src/tunnel/auth/audit.rs]: requests, the decisions remembered for a
    peer on a forward, the configured policy and the audit log. *)
From S2P Require Import Prelude Wire.

(** ** Requests and decisions *)

Record AuthRequest := {
  peer_id : string; forward_key : string; target_addr : string; request_proto : string; request_did : option string;
}.
#[global] Instance AuthRequest_eq_dec : EqDecision AuthRequest.
Proof. solve_decision. Defined.

Inductive AuthDecision := Allow | Deny | AllowAlways | DenyAlways.
#[global] Instance AuthDecision_eq_dec : EqDecision AuthDecision.
Proof. solve_decision. Defined.

Definition is_allowed (d : AuthDecision) : bool :=
  match d with Allow | AllowAlways => true | Deny | DenyAlways => false end.

Definition downgrade_unremembered (d : AuthDecision) : AuthDecision :=
  match d with AllowAlways => Allow | DenyAlways => Deny | other => other end.

Inductive TrustDecision := TrustAllow | TrustDeny.
#[global] Instance TrustDecision_eq_dec : EqDecision TrustDecision.
Proof. solve_decision. Defined.

Definition auth_decision (d : TrustDecision) : AuthDecision :=
  match d with TrustAllow => Allow | TrustDeny => Deny end.

Definition trust_decision (d : AuthDecision) : option TrustDecision :=
  match d with AllowAlways => Some TrustAllow | DenyAlways => Some TrustDeny | Allow | Deny => None end.

(** A row is keyed by a peer (its DID, or its node id in old files) and a forward. *)
Definition TrustKey : Type := string * string.
Definition TrustEntry : Type := TrustKey * TrustDecision.

Section trust.
Context {C : Crypto}.

(** [did.filter(|did| node_id_for_did(did) == peer_id)] *)
Definition bound_did (peer : string) (did : option string) : option string :=
  match did with
  | Some d => if bool_decide (node_id_for_did d = peer) then Some d else None
  | None => None
  end.

Definition verified_did (req : AuthRequest) : option string := bound_did (peer_id req) (request_did req).

Definition policy_allows (auto_accept : bool) (allow_peers : gset string) (req : AuthRequest) : bool :=
  match verified_did req with
  | None => false
  | Some did => auto_accept || bool_decide (did ∈ allow_peers) || bool_decide (peer_id req ∈ allow_peers)
  end.

(** ** The trust store and its file *)

Record TrustStore := { trust_entries : gmap TrustKey TrustDecision; trust_file : list TrustEntry }.

Definition entry_before (a b : TrustEntry) : Prop :=
  (a.1.1 ≠ b.1.1 ∧ String.le a.1.1 b.1.1) ∨ (a.1.1 = b.1.1 ∧ String.le a.1.2 b.1.2).
#[global] Instance entry_before_dec : RelDecision entry_before.
Proof. intros a b. unfold entry_before. apply _. Defined.

Definition list_entries (m : gmap TrustKey TrustDecision) : list TrustEntry :=
  merge_sort entry_before (map_to_list m).

(** A file that parses; [None] stands for a missing or an unreadable one. *)
Definition load (file : option (list TrustEntry)) : TrustStore :=
  match file with
  | Some l => {| trust_entries := foldl (λ m e, <[e.1 := e.2]> m) ∅ l; trust_file := l |}
  | None => {| trust_entries := ∅; trust_file := [] |}
  end.

(** [ok] tells whether the write succeeds. *)
Definition persist (t : TrustStore) (ok : bool) : TrustStore * result () string :=
  if ok then ({| trust_entries := trust_entries t; trust_file := list_entries (trust_entries t) |}, Ok ())
  else (t, Err "writing the trust store").

Definition remember (t : TrustStore) (key : TrustKey) (d : TrustDecision) (ok : bool)
    : TrustStore * result () string :=
  persist {| trust_entries := <[key := d]> (trust_entries t); trust_file := trust_file t |} ok.

Definition remove (t : TrustStore) (key : TrustKey) (ok : bool) : TrustStore * result bool string :=
  let removed := is_some (trust_entries t !! key) in
  let t := {| trust_entries := delete key (trust_entries t); trust_file := trust_file t |} in
  if removed then
    let '(t, r) := persist t ok in (t, let? _ := r in Ok removed)
  else (t, Ok removed).

(** [w1] and [w2] tell whether the two writes of a migration succeed. *)
Definition lookup (t : TrustStore) (peer : string) (did : option string) (key : string) (w1 w2 : bool)
    : TrustStore * option TrustDecision :=
  let legacy := (peer, key) in
  let legacy_ok := negb (starts_with "did:" peer) in
  match bound_did peer did with
  | None =>
      if negb legacy_ok then (t, None) else
      match trust_entries t !! legacy with
      | Some TrustDeny => (t, Some TrustDeny)
      | _ => (t, None)
      end
  | Some did =>
      match trust_entries t !! (did, key) with
      | Some d => (t, Some d)
      | None =>
          if negb legacy_ok then (t, None) else
          match trust_entries t !! legacy with
          | None => (t, None)
          | Some d =>
              let '(t, r) := remember t (did, key) d w1 in
              ((if is_ok r then (remove t legacy w2).1 else t), Some d)
          end
      end
  end.

Definition remember_for (t : TrustStore) (peer : string) (did : option string) (key : string)
    (d : TrustDecision) (ok : bool) : TrustStore * result bool string :=
  match bound_did peer did with
  | None => (t, Ok false)
  | Some did => let '(t, r) := remember t (did, key) d ok in (t, let? _ := r in Ok true)
  end.

(** ** The audit log *)

Inductive AuthEventSource := SourcePolicy | SourceTrustStore | SourcePending.

Record AuthEvent := {
  sequence : Z; timestamp_ms : Z; event_request : AuthRequest; decision : AuthDecision; source : AuthEventSource;
}.
Record AuthAuditLog := { next_sequence : Z; capacity : Z; audit_events : list AuthEvent }.

Definition with_capacity (n : Z) : AuthAuditLog := {| next_sequence := 1; capacity := n; audit_events := [] |}.

(** The loop that drops the oldest events beyond the capacity. *)
Fixpoint pop_front (cap : Z) (events : list AuthEvent) : list AuthEvent :=
  match events with
  | [] => []
  | e :: rest => if cap <? zlen events then pop_front cap rest else events
  end.

Definition record (log : AuthAuditLog) (req : AuthRequest) (d : AuthDecision) (src : AuthEventSource) (now : Z)
    : AuthAuditLog :=
  if capacity log =? 0 then log else
  let event := {| sequence := next_sequence log; timestamp_ms := now; event_request := req; decision := d;
                  source := src |} in
  {| next_sequence := next_sequence log + 1; capacity := capacity log;
     audit_events := pop_front (capacity log) (audit_events log ++ [event]) |}.

(** ** What a lookup answers *)

Definition answer (m : gmap TrustKey TrustDecision) (peer : string) (did : option string) (key : string)
    : option TrustDecision :=
  let legacy := if starts_with "did:" peer then None else m !! (peer, key) in
  match bound_did peer did with
  | Some d => match m !! (d, key) with Some x => Some x | None => legacy end
  | None => match legacy with Some TrustDeny => Some TrustDeny | _ => None end
  end.

Lemma bound_did_Some peer did d : bound_did peer did = Some d ↔ did = Some d ∧ node_id_for_did d = peer.
Proof.
  unfold bound_did. destruct did as [x|]; [|naive_solver]. case_bool_decide; naive_solver.
Qed.

Lemma bound_did_idem peer did : bound_did peer (bound_did peer did) = bound_did peer did.
Proof.
  destruct (bound_did peer did) as [d|] eqn:E; [|done]. apply bound_did_Some in E as [_ E]. by apply bound_did_Some.
Qed.

Lemma lookup_answer t peer did key w1 w2 : (lookup t peer did key w1 w2).2 = answer (trust_entries t) peer did key.
Proof.
  unfold lookup, answer. destruct (bound_did peer did) as [d|].
  - destruct (trust_entries t !! (d, key)) as [x|]; [done|]. destruct (starts_with "did:" peer); [done|].
    cbn [negb]. destruct (trust_entries t !! (peer, key)) as [x|]; [|done]. by destruct (remember _ _ _ _).
  - destruct (starts_with "did:" peer); [done|]. cbn [negb]. by destruct (trust_entries t !! _) as [[]|].
Qed.

(** A lookup changes the entries only by moving a row of the node id to the
    verified DID of that node. *)
Lemma lookup_entries t peer did key w1 w2 :
  let t' := (lookup t peer did key w1 w2).1 in
  trust_entries t' = trust_entries t ∨
  ∃ d x, bound_did peer did = Some d ∧ starts_with "did:" peer = false ∧
    trust_entries t !! (d, key) = None ∧ trust_entries t !! (peer, key) = Some x ∧
    trust_entries t' = if w1 then delete (peer, key) (<[(d, key) := x]> (trust_entries t))
                       else <[(d, key) := x]> (trust_entries t).
Proof.
  cbv zeta. unfold lookup. destruct (bound_did peer did) as [d|].
  - destruct (trust_entries t !! (d, key)) as [x|] eqn:Hd; [by left|].
    destruct (starts_with "did:" peer) eqn:Hs; [by left|]. cbn [negb].
    destruct (trust_entries t !! (peer, key)) as [x|] eqn:Hp; [|by left]. right. exists d, x. split_and!; [done..|].
    unfold remember, persist. destruct w1; cbn [is_ok fst]; [|done]. unfold remove. cbn [trust_entries].
    by case_if; [destruct w2|].
  - left. destruct (starts_with "did:" peer); [done|]. cbn [negb]. by destruct (trust_entries t !! _) as [[]|].
Qed.

(** The answer for a verified peer survives the migration the lookup does. *)
Lemma lookup_stable t peer did d key w1 w2 :
  bound_did peer did = Some d → starts_with "did:" d = true →
  answer (trust_entries (lookup t peer did key w1 w2).1) peer did key = answer (trust_entries t) peer did key.
Proof.
  intros Hb Hd. pose proof (lookup_entries t peer did key w1 w2) as [->|(d' & x & Hb' & Hs & Hn & Hx & Ht)]; [done|].
  rewrite Hb in Hb'. injection Hb' as <-. unfold answer. rewrite Hb, Hs, Hn, Hx.
  assert (Hne : (peer, key) ≠ (d, key)) by (intros [= ->]; congruence).
  replace (trust_entries (lookup t peer did key w1 w2).1 !! (d, key)) with (Some x); [done|].
  rewrite Ht. symmetry. destruct w1; [rewrite lookup_delete_ne by done|]; by rewrite lookup_insert_eq.
Qed.

Lemma remember_for_entries t peer did key x ok :
  let '(t', r) := remember_for t peer did key x ok in
  match bound_did peer did with
  | None => t' = t ∧ r = Ok false
  | Some d => trust_entries t' = <[(d, key) := x]> (trust_entries t) ∧ (r = Ok true ↔ ok = true) ∧ r ≠ Ok false
  end.
Proof.
  unfold remember_for, remember, persist. destruct (bound_did peer did) as [d|]; [|done].
  destruct ok; cbn; split_and!; naive_solver.
Qed.

(** An unverified peer is never allowed from memory. *)
Lemma answer_unverified m peer did key : bound_did peer did = None → answer m peer did key ≠ Some TrustAllow.
Proof.
  unfold answer. intros ->. destruct (starts_with "did:" peer); [done|]. by destruct (m !! _) as [[]|].
Qed.

#[export] Instance entry_before_total : Total entry_before.
Proof.
  intros a b. unfold entry_before. destruct (decide (a.1.1 = b.1.1)) as [->|Hne].
  - destruct (total String.le a.1.2 b.1.2); tauto.
  - destruct (total String.le a.1.1 b.1.1); [tauto|]. right. left. split; [congruence|done].
Qed.

Lemma foldl_insert_lookup (l : list TrustEntry) (m : gmap TrustKey TrustDecision) k x :
  NoDup l.*1 → foldl (λ m e, <[e.1 := e.2]> m) m l !! k = Some x ↔
    (k, x) ∈ l ∨ (k ∉ l.*1 ∧ m !! k = Some x).
Proof.
  revert m. induction l as [|[k' x'] l IH]; intros m Hnd.
  { simpl. split; [intros H; right; split; [apply not_elem_of_nil|done]|intros [H|[_ H]]; [by apply elem_of_nil in H|done]]. }
  rewrite fmap_cons in Hnd |- *. apply NoDup_cons in Hnd as [Hk Hnd]. cbn [foldl fst snd]. rewrite IH by done.
  rewrite (elem_of_cons l), (not_elem_of_cons l.*1). split.
  - intros [H|[Hn H]]; [tauto|]. apply lookup_insert_Some in H as [[-> ->]|[Hne H]]; [tauto|]. right. naive_solver.
  - intros [[[= -> ->]|H]|[[Hne Hn] H]]; [|tauto|].
    + right. split; [done|]. by rewrite lookup_insert_eq.
    + right. split; [done|]. by rewrite lookup_insert_ne.
Qed.

(** The file written for a map is read back as that map. *)
Lemma load_list_entries (m : gmap TrustKey TrustDecision) : trust_entries (load (Some (list_entries m))) = m.
Proof.
  assert (Hp : list_entries m ≡ₚ map_to_list m) by apply merge_sort_Permutation.
  assert (Hnd : NoDup (list_entries m).*1) by (rewrite Hp; apply NoDup_fst_map_to_list).
  apply map_eq. intros k. apply option_eq. intros x. simpl. rewrite foldl_insert_lookup by done.
  rewrite Hp, elem_of_map_to_list. rewrite lookup_empty. naive_solver.
Qed.

(** ** The audit log keeps the newest events, numbered without gaps *)

Lemma pop_front_drop cap events :
  pop_front cap events = drop (length events - Z.to_nat cap) events.
Proof.
  induction events as [|e rest IH]; [done|]. cbn [pop_front].
  destruct (cap <? zlen (e :: rest)) eqn:Hc; [apply Z.ltb_lt in Hc|apply Z.ltb_ge in Hc].
  - rewrite IH. destruct (decide (cap < 0)) as [?|?].
    + replace (Z.to_nat cap) with 0%nat by lia. rewrite !Nat.sub_0_r. cbn [length drop]. done.
    + unfold zlen in *. cbn [length] in *. by replace (S (length rest) - Z.to_nat cap)%nat with (S (length rest - Z.to_nat cap)) by lia.
  - unfold zlen in *. cbn [length] in *. by replace (S (length rest) - Z.to_nat cap)%nat with 0%nat by lia.
Qed.

Definition record_all (log : AuthAuditLog) (l : list (AuthRequest * AuthDecision * AuthEventSource * Z)) :=
  foldl (λ log e, let '(r, d, s, now) := e in record log r d s now) log l.

Definition numbered (i : nat) (l : list (AuthRequest * AuthDecision * AuthEventSource * Z)) : list AuthEvent :=
  imap (λ n e, let '(r, d, s, now) := e in
    {| sequence := Z.of_nat (i + n); timestamp_ms := now; event_request := r; decision := d; source := s |}) l.

Lemma length_numbered i l : length (numbered i l) = length l.
Proof. apply length_imap. Qed.

Lemma numbered_app i l r d s now :
  numbered i (l ++ [(r, d, s, now)]) = numbered i l ++
    [{| sequence := Z.of_nat (i + length l); timestamp_ms := now; event_request := r; decision := d; source := s |}].
Proof. unfold numbered. rewrite imap_app. cbn [imap]. by rewrite Nat.add_0_r. Qed.

Lemma record_all_exact cap l : 0 < cap →
  record_all (with_capacity cap) l =
    {| next_sequence := 1 + zlen l; capacity := cap;
       audit_events := drop (length l - Z.to_nat cap) (numbered 1 l) |}.
Proof.
  intros Hcap. induction l as [|e l IH] using rev_ind; [done|].
  unfold record_all in *. rewrite foldl_app, IH. destruct e as [[[r d] s] now]. cbn [foldl].
  unfold record. cbn [capacity next_sequence audit_events]. rewrite (proj2 (Z.eqb_neq cap 0)) by lia. f_equal.
  - unfold zlen. rewrite length_app. simpl. lia.
  - rewrite numbered_app, pop_front_drop, !length_app, length_drop, length_numbered. cbn [length].
    replace (1 + zlen l) with (Z.of_nat (1 + length l)) by (unfold zlen; lia).
    rewrite !drop_app, drop_drop, length_drop, length_numbered. f_equal; f_equal; lia.
Qed.
End trust.
