(* ===== verification/TunnelPending.v ===== *)
(** * Requests that wait for a human

    [src/src/tunnel/auth/pending.rs] and the authorizer of
    [src/src/tunnel/session.rs]: the queue of parked requests, the calls that
    wait on it, and their interleaving with answers, disconnects and timeouts. *)
From S2P Require Import Prelude Wire TunnelTrust.

Definition MAX_PENDING_PER_PEER : Z := 8.
Definition MAX_PENDING_TOTAL : Z := 64.
Definition MAX_WAITERS_PER_REQUEST : Z := 32.

Inductive PendingEvent := Parked | Allowed | Denied.

(** A row: the request and the callers that wait for its answer. *)
Record PendingItem := { request : AuthRequest; responders : list Z }.

(** The rows in the order of their ids, as the [BTreeMap] lists them. *)
Record Inner := { next_id : Z; pending : list (Z * PendingItem) }.

Definition set_pending (q : Inner) (rows : list (Z * PendingItem)) : Inner :=
  {| next_id := next_id q; pending := rows |}.

Definition new : Inner := {| next_id := 1; pending := [] |}.

Fixpoint get_row (id : Z) (rows : list (Z * PendingItem)) : option PendingItem :=
  match rows with
  | [] => None
  | (i, item) :: rows => if i =? id then Some item else get_row id rows
  end.

Definition remove_row (id : Z) (rows : list (Z * PendingItem)) : list (Z * PendingItem) :=
  List.filter (λ row, negb (row.1 =? id)) rows.

Definition update_row (id : Z) (item : PendingItem) (rows : list (Z * PendingItem)) : list (Z * PendingItem) :=
  map (λ row, if row.1 =? id then (id, item) else row) rows.

(** [closed] tells which receivers are gone. *)
Definition prune (closed : Z → bool) (item : PendingItem) : PendingItem :=
  {| request := request item; responders := List.filter (λ w, negb (closed w)) (responders item) |}.

(** [enqueue] for the caller [w]: the row it waits on and whether it is new. *)
Definition enqueue (q : Inner) (closed : Z → bool) (req : AuthRequest) (w : Z) : Inner * option (Z * bool) :=
  match List.find (λ row, bool_decide (request row.2 = req)) (pending q) with
  | Some (id, item) =>
      let item := prune closed item in
      if MAX_WAITERS_PER_REQUEST <=? zlen (responders item)
      then (set_pending q (update_row id item (pending q)), None)
      else (set_pending q (update_row id {| request := request item; responders := responders item ++ [w] |}
              (pending q)), Some (id, false))
  | None =>
      let from_peer := zlen (List.filter (λ row, bool_decide (peer_id (request row.2) = peer_id req)) (pending q)) in
      if (MAX_PENDING_PER_PEER <=? from_peer) || (MAX_PENDING_TOTAL <=? zlen (pending q)) then (q, None) else
      ({| next_id := next_id q + 1;
          pending := pending q ++ [(next_id q, {| request := req; responders := [w] |})] |},
       Some (next_id q, true))
  end.

Definition take_row (q : Inner) (id : Z) : Inner * option PendingItem :=
  match get_row id (pending q) with
  | Some item => (set_pending q (remove_row id (pending q)), Some item)
  | None => (q, None)
  end.

(** The rows of a peer that left, and the others. *)
Definition purge (q : Inner) (peer : string) : Inner * list PendingItem :=
  (set_pending q (List.filter (λ row, negb (bool_decide (peer_id (request row.2) = peer))) (pending q)),
   map snd (List.filter (λ row, bool_decide (peer_id (request row.2) = peer)) (pending q))).

Definition drop_waiters (q : Inner) (closed : Z → bool) (id : Z) : Inner * option PendingItem :=
  match get_row id (pending q) with
  | None => (q, None)
  | Some item =>
      let item := prune closed item in
      if zlen (responders item) =? 0
      then (set_pending q (remove_row id (pending q)), Some item)
      else (set_pending q (update_row id item (pending q)), None)
  end.

Definition listed (q : Inner) : list (Z * AuthRequest) := map (λ row, (row.1, request row.2)) (pending q).

(** ** The calls of the authorizer *)

Inductive CallState :=
  | Asking                                   (* between the policy and the queue *)
  | Waiting (id : Z) (sent : option AuthDecision)  (* on the receiver of a row *)
  | TimedOut (id : Z).                       (* the receiver is dropped, the row not yet cleaned *)

Record Call := { call_request : AuthRequest; call_state : CallState }.

Record System := {
  trust : TrustStore; queue : Inner; audit_log : AuthAuditLog; calls : gmap Z Call;
  notices : list (AuthRequest * PendingEvent); outcomes : list (Z * AuthRequest * AuthDecision);
}.

(** [None] is an authorizer without a policy: the queue alone. *)
Record Policy := { auto_accept : bool; allow_peers : gset string }.

Definition configured (p : Policy) : bool := auto_accept p || negb (bool_decide (allow_peers p = ∅)).

(** Whether the receiver of the caller [w] is gone. *)
Definition is_closed (cs : gmap Z Call) (w : Z) : bool :=
  match cs !! w with Some {| call_state := Waiting _ _ |} => false | _ => true end.

Definition send (d : AuthDecision) (cs : gmap Z Call) (w : Z) : gmap Z Call :=
  match cs !! w with
  | Some {| call_request := req; call_state := Waiting id None |} =>
      <[w := {| call_request := req; call_state := Waiting id (Some d) |}]> cs
  | _ => cs
  end.

Definition answer_item (cs : gmap Z Call) (d : AuthDecision) (item : PendingItem) : gmap Z Call :=
  foldl (send d) cs (responders item).

Section system.
Context {C : Crypto} (policy : Policy).

Definition with_trust (s : System) (t : TrustStore) : System :=
  {| trust := t; queue := queue s; audit_log := audit_log s; calls := calls s; notices := notices s;
     outcomes := outcomes s |}.
Definition with_queue (s : System) (q : Inner) : System :=
  {| trust := trust s; queue := q; audit_log := audit_log s; calls := calls s; notices := notices s;
     outcomes := outcomes s |}.
Definition with_calls (s : System) (cs : gmap Z Call) : System :=
  {| trust := trust s; queue := queue s; audit_log := audit_log s; calls := cs; notices := notices s;
     outcomes := outcomes s |}.
Definition notify (s : System) (req : AuthRequest) (e : PendingEvent) : System :=
  {| trust := trust s; queue := queue s; audit_log := audit_log s; calls := calls s;
     notices := notices s ++ [(req, e)]; outcomes := outcomes s |}.
Definition log (s : System) (req : AuthRequest) (d : AuthDecision) (src : AuthEventSource) (now : Z) : System :=
  {| trust := trust s; queue := queue s; audit_log := record (audit_log s) req d src now; calls := calls s;
     notices := notices s; outcomes := outcomes s |}.
Definition set_state (s : System) (w : Z) (req : AuthRequest) (st : CallState) : System :=
  with_calls s (<[w := {| call_request := req; call_state := st |}]> (calls s)).
(** The call returns. *)
Definition return_ (s : System) (w : Z) (req : AuthRequest) (d : AuthDecision) : System :=
  {| trust := trust s; queue := queue s; audit_log := audit_log s; calls := delete w (calls s);
     notices := notices s; outcomes := outcomes s ++ [(w, req, d)] |}.

(** [ConfiguredAuthorizer::authorize] up to the call of the inner authorizer;
    [remote] is what the graph says of the forward. *)
Definition authorize (s : System) (w : Z) (req : AuthRequest) (remote w1 w2 : bool) (now : Z) : System :=
  if negb (configured policy) then set_state s w req Asking else
  let '(t, remembered) := lookup (trust s) (peer_id req) (verified_did req) (forward_key req) w1 w2 in
  let s := with_trust s t in
  if negb (is_some remembered) && policy_allows (auto_accept policy) (allow_peers policy) req && negb remote
  then return_ (log s req Allow SourcePolicy now) w req Allow
  else set_state s w req Asking.

(** [PendingAuthorizer::decide] up to its wait. *)
Definition decide_begin (s : System) (w : Z) (req : AuthRequest) (w1 w2 : bool) (now : Z) : System :=
  let '(t, remembered) := lookup (trust s) (peer_id req) (verified_did req) (forward_key req) w1 w2 in
  let s := with_trust s t in
  match remembered with
  | Some d =>
      let d := auth_decision d in
      let s := log s req d SourceTrustStore now in
      let s := if bool_decide (d = Deny) then notify s req Denied else s in
      return_ s w req d
  | None =>
      let '(q, parked) := enqueue (queue s) (is_closed (calls s)) req w in
      let s := with_queue s q in
      match parked with
      | None => return_ (notify (log s req Deny SourcePending now) req Denied) w req Deny
      | Some (id, is_new) =>
          let s := if is_new then notify s req Parked else s in
          set_state s w req (Waiting id None)
      end
  end.

(** [PendingAuthorizer::decide] after its wait. *)
Definition decide_end (s : System) (w : Z) (req : AuthRequest) (d : AuthDecision) (ok : bool) (now : Z) : System :=
  let '(s, d) :=
    match trust_decision d with
    | Some t =>
        let '(store, r) := remember_for (trust s) (peer_id req) (verified_did req) (forward_key req) t ok in
        (with_trust s store, if match r with Ok b => b | Err _ => false end then d else downgrade_unremembered d)
    | None => (s, d)
    end in
  return_ (log s req d SourcePending now) w req d.

Definition resolve (s : System) (id : Z) (d : AuthDecision) : System * bool :=
  let '(q, item) := take_row (queue s) id in
  match item with
  | None => (s, false)
  | Some item =>
      let s := notify (with_queue s q) (request item) (if is_allowed d then Allowed else Denied) in
      (with_calls s (answer_item (calls s) d item), true)
  end.

Definition purge_peer (s : System) (peer : string) : System * Z :=
  let '(q, items) := purge (queue s) peer in
  (with_calls (with_queue s q) (foldl (λ cs item, answer_item cs Deny item) (calls s) items), zlen items).

Definition remove_unresolved (s : System) (id : Z) : System :=
  let '(q, expired) := drop_waiters (queue s) (is_closed (calls s)) id in
  let s := with_queue s q in
  match expired with Some item => notify s (request item) Denied | None => s end.

(** What can happen, each step under the locks the code takes in it. A caller
    [w] is one call; it arrives once. *)
Inductive Op :=
  | OArrive (w : Z) (req : AuthRequest) (remote w1 w2 : bool) (now : Z)
  | OBegin (w : Z) (w1 w2 : bool) (now : Z)
  | OResolve (id : Z) (d : AuthDecision)
  | OPurge (peer : string)
  | OTimeout (w : Z)
  | OCleanup (w : Z) (ok : bool) (now : Z)
  | OReceive (w : Z) (ok : bool) (now : Z).

Definition step (s : System) (o : Op) : System :=
  match o with
  | OArrive w req remote w1 w2 now =>
      if is_some (calls s !! w) then s else authorize s w req remote w1 w2 now
  | OBegin w w1 w2 now =>
      match calls s !! w with
      | Some {| call_request := req; call_state := Asking |} => decide_begin s w req w1 w2 now
      | _ => s
      end
  | OResolve id d => (resolve s id d).1
  | OPurge peer => (purge_peer s peer).1
  | OTimeout w =>
      match calls s !! w with
      | Some {| call_request := req; call_state := Waiting id None |} => set_state s w req (TimedOut id)
      | _ => s
      end
  | OCleanup w ok now =>
      match calls s !! w with
      | Some {| call_request := req; call_state := TimedOut id |} =>
          decide_end (remove_unresolved s id) w req Deny ok now
      | _ => s
      end
  | OReceive w ok now =>
      match calls s !! w with
      | Some {| call_request := req; call_state := Waiting id (Some d) |} => decide_end s w req d ok now
      | _ => s
      end
  end.

Definition run (s : System) (ops : list Op) : System := foldl step s ops.

Definition start (t : TrustStore) : System :=
  {| trust := t; queue := new; audit_log := with_capacity 256; calls := ∅; notices := []; outcomes := [] |}.
End system.

(** ** The queue *)

Record queue_ok (q : Inner) : Prop := {
  ids_sorted : StronglySorted Z.lt (map fst (pending q));
  ids_below : Forall (λ row, row.1 < next_id q) (pending q);
  requests_distinct : NoDup (map (λ row, request row.2) (pending q));
  total_bounded : zlen (pending q) <= MAX_PENDING_TOTAL;
  peers_bounded : ∀ peer, zlen (List.filter (λ row, bool_decide (peer_id (request row.2) = peer)) (pending q))
                    <= MAX_PENDING_PER_PEER;
  waiters_bounded : Forall (λ row, responders row.2 ≠ [] ∧ NoDup (responders row.2) ∧
                      zlen (responders row.2) <= MAX_WAITERS_PER_REQUEST) (pending q);
}.

(** A row lists the calls that wait on it, and a call that waits is listed. *)
Record linked (q : Inner) (cs : gmap Z Call) : Prop := {
  row_calls : ∀ id item w, (id, item) ∈ pending q → w ∈ responders item →
    ∃ st, cs !! w = Some {| call_request := request item; call_state := st |} ∧
          (st = Waiting id None ∨ st = TimedOut id);
  call_rows : ∀ w req id, cs !! w = Some {| call_request := req; call_state := Waiting id None |} →
    ∃ item, (id, item) ∈ pending q ∧ w ∈ responders item ∧ request item = req;
}.

Definition in_rows (q : Inner) (w : Z) : Prop := ∃ id item, (id, item) ∈ pending q ∧ w ∈ responders item.

Lemma ids_nodup l : StronglySorted Z.lt l → NoDup l.
Proof.
  induction 1 as [|x l Hl IH Hx]; [constructor|]. constructor; [|done]. intros Hin.
  rewrite Forall_forall in Hx. specialize (Hx x Hin). lia.
Qed.

Lemma get_row_Some id rows item : get_row id rows = Some item → (id, item) ∈ rows.
Proof.
  induction rows as [|[i x] rows IH]; [done|]. cbn [get_row]. case_if; [|intros; right; auto].
  intros [= ->]. replace i with id by (symmetry; by apply Z.eqb_eq). left.
Qed.

Lemma get_row_None id rows item : get_row id rows = None → (id, item) ∉ rows.
Proof.
  induction rows as [|[i x] rows IH]; [intros _; apply not_elem_of_nil|]. cbn [get_row].
  destruct (i =? id) eqn:E; [done|]. intros H [[= -> ->]|Hin]%elem_of_cons; [by rewrite Z.eqb_refl in E|]. by apply IH.
Qed.

Lemma row_unique q id item item' :
  queue_ok q → (id, item) ∈ pending q → (id, item') ∈ pending q → item = item'.
Proof.
  intros [Hs _ _ _ _ _] H H'. apply ids_nodup in Hs. apply list_elem_of_lookup in H as [i Hi], H' as [j Hj].
  assert (i = j) as <-; [|congruence].
  eapply NoDup_lookup; [exact Hs|by rewrite list_lookup_fmap, Hi|by rewrite list_lookup_fmap, Hj].
Qed.

Lemma elem_of_update_row id item rows i x :
  (i, x) ∈ update_row id item rows ↔ (i ≠ id ∧ (i, x) ∈ rows) ∨ (i = id ∧ x = item ∧ id ∈ map fst rows).
Proof.
  unfold update_row. rewrite list_elem_of_fmap. split.
  - intros ([j y] & Heq & Hin). cbn [fst] in Heq. destruct (j =? id) eqn:E.
    + apply Z.eqb_eq in E as ->. injection Heq as -> ->. right. split_and!; [done..|].
      by apply (list_elem_of_fmap_2 fst _ (id, y)).
    + apply Z.eqb_neq in E. injection Heq as -> ->. by left.
  - intros [[Hne Hin]|(-> & -> & Hin)].
    + exists (i, x). cbn [fst]. by rewrite (proj2 (Z.eqb_neq i id)).
    + apply list_elem_of_fmap in Hin as ([j y] & -> & Hin). exists (j, y). cbn [fst]. by rewrite Z.eqb_refl.
Qed.

Lemma update_row_ids id item rows : map fst (update_row id item rows) = map fst rows.
Proof.
  unfold update_row. rewrite map_map. apply map_ext. intros [i x]. cbn [fst].
  destruct (i =? id) eqn:E; [|done]. by apply Z.eqb_eq in E.
Qed.

(** Fewer rows keep the queue well-formed. *)
Lemma queue_ok_filter q f : queue_ok q → queue_ok (set_pending q (List.filter f (pending q))).
Proof.
  intros [Hs Hb Hr Ht Hp Hw]. split; cbn [pending next_id set_pending].
  - clear -Hs. induction (pending q) as [|r rows IH]; [done|]. apply StronglySorted_inv in Hs as [Hs Hr].
    simpl. destruct (f r); [|auto]. simpl. constructor; [auto|]. rewrite Forall_forall in *.
    intros i (x & -> & [Hx _]%elem_of_List_filter)%list_elem_of_fmap. apply Hr. by apply list_elem_of_fmap_2.
  - rewrite Forall_forall in *. intros r [Hr' _]%elem_of_List_filter. auto.
  - by apply NoDup_map_filter.
  - etrans; [apply filter_zlen|done].
  - intros peer. rewrite List_filter_comm. etrans; [apply filter_zlen|apply Hp].
  - rewrite Forall_forall in *. intros r [Hr' _]%elem_of_List_filter. auto.
Qed.

Lemma zlen_filter_map {A B} (f : B → bool) (g : A → B) l :
  zlen (List.filter (λ x, f (g x)) l) = zlen (List.filter f (map g l)).
Proof. unfold zlen. f_equal. induction l as [|x l IH]; [done|]. simpl. destruct (f (g x)); simpl; by rewrite IH. Qed.

Definition waiters_ok (item : PendingItem) : Prop :=
  responders item ≠ [] ∧ NoDup (responders item) ∧ zlen (responders item) <= MAX_WAITERS_PER_REQUEST.

Lemma queue_ok_update q id item item' :
  queue_ok q → (id, item) ∈ pending q → request item' = request item → waiters_ok item' →
  queue_ok (set_pending q (update_row id item' (pending q))).
Proof.
  intros Hok Hin Hreq Hw'.
  assert (Hreqs : map (λ row, request row.2) (update_row id item' (pending q)) = map (λ row, request row.2) (pending q)).
  { unfold update_row. rewrite map_map. apply map_ext_in. intros [i x] Hx%list_elem_of_In. cbn [fst].
    destruct (i =? id) eqn:E; [|done]. apply Z.eqb_eq in E as ->. cbn [snd].
    by rewrite (row_unique q id x item Hok Hx Hin). }
  pose proof Hok as [Hs Hb Hr Ht Hp Hw]. split; cbn [pending next_id set_pending].
  - by rewrite update_row_ids.
  - rewrite Forall_forall in *. intros [i x] [[_ H]|(-> & _ & H)]%elem_of_update_row; cbn [fst].
    + apply (Hb (i, x) H).
    + apply (Hb (id, item) Hin).
  - by rewrite Hreqs.
  - unfold zlen, update_row in *. by rewrite length_map.
  - intros peer. specialize (Hp peer).
    pose proof (zlen_filter_map (λ r, bool_decide (peer_id r = peer)) (λ row : Z * PendingItem, request row.2)) as Hz.
    cbv beta in Hz. rewrite Hz in Hp |- *. by rewrite Hreqs.
  - rewrite Forall_forall in *. intros [i x] [[_ H]|(-> & -> & H)]%elem_of_update_row; [apply (Hw (i, x) H)|done].
Qed.

Lemma prune_spec closed item :
  request (prune closed item) = request item ∧
  (∀ w, w ∈ responders (prune closed item) ↔ w ∈ responders item ∧ closed w = false).
Proof.
  split; [done|]. intros w. cbn [prune responders]. rewrite elem_of_List_filter. by rewrite negb_true_iff.
Qed.

Lemma prune_ok closed item : NoDup (responders item) → zlen (responders item) <= MAX_WAITERS_PER_REQUEST →
  NoDup (responders (prune closed item)) ∧ zlen (responders (prune closed item)) <= MAX_WAITERS_PER_REQUEST.
Proof.
  intros Hn Hl. cbn [prune responders]. split; [|etrans; [apply filter_zlen|done]].
  rewrite <-(map_id (List.filter _ _)). apply NoDup_map_filter. by rewrite map_id.
Qed.

Lemma row_waiters q id item : queue_ok q → (id, item) ∈ pending q → waiters_ok item.
Proof. intros [_ _ _ _ _ Hw] Hin. rewrite Forall_forall in Hw. apply (Hw _ Hin). Qed.

(** What [enqueue] does on each of its branches. *)
Lemma enqueue_spec q closed req w q' o :
  queue_ok q → ¬ in_rows q w → enqueue q closed req w = (q', o) →
  queue_ok q' ∧
  match o with
  | Some (id, false) => ∃ item, (id, item) ∈ pending q ∧ request item = req ∧
      pending q' = update_row id {| request := req; responders := responders (prune closed item) ++ [w] |} (pending q)
  | Some (id, true) => id = next_id q ∧ (∀ i item, (i, item) ∈ pending q → request item ≠ req) ∧
      pending q' = pending q ++ [(id, {| request := req; responders := [w] |})]
  | None => pending q' = pending q ∨
      ∃ id item, (id, item) ∈ pending q ∧ responders (prune closed item) ≠ [] ∧
        pending q' = update_row id (prune closed item) (pending q)
  end.
Proof.
  intros Hok Hw. unfold enqueue. destruct (List.find _ (pending q)) as [[id item]|] eqn:Hf.
  - apply find_elem in Hf as [Hin Hreq]. cbn [snd] in Hreq. bools.
    pose proof (row_waiters q id item Hok Hin) as (Hne & Hnd & Hlen).
    pose proof (prune_ok closed item Hnd Hlen) as [Hnd' Hlen'].
    destruct (MAX_WAITERS_PER_REQUEST <=? zlen (responders (prune closed item))) eqn:Hmax; intros [= <- <-].
    + assert (Hne' : responders (prune closed item) ≠ []) by (intros E; rewrite E in Hmax; done).
      split; [by apply queue_ok_update with item|]. right. by exists id, item.
    + apply Z.leb_gt in Hmax. rewrite ?(proj1 (prune_spec closed item)), ?Hreq. split; [|by exists item].
      apply queue_ok_update with item; [done..|]. split_and!; cbn [responders].
      * by intros [_ [=]]%app_eq_nil.
      * apply NoDup_app. split_and!; [done| |apply NoDup_singleton].
        intros x Hx ->%list_elem_of_singleton. apply Hw. exists id, item. split; [done|].
        by apply prune_spec in Hx as [? _].
      * rewrite zlen_app. change (zlen [w]) with 1. cbn [prune responders] in Hmax |- *. lia.
  - case_if; intros [= <- <-]; [split; [done|by left]|].
    assert (Hnew : ∀ i item, (i, item) ∈ pending q → request item ≠ req).
    { intros i item Hin Hr. pose proof (find_none_elem _ _ Hf _ Hin) as Hn. cbn [snd] in Hn. by bools. }
    split; [|done]. destruct Hok as [Hs Hb Hr Ht Hp Hwt]. bools. split; cbn [pending next_id].
    + rewrite map_app. apply StronglySorted_app. split_and!; [|done|by repeat constructor].
      intros x y (r & -> & Hx)%list_elem_of_fmap ->%list_elem_of_singleton. rewrite Forall_forall in Hb. apply (Hb _ Hx).
    + apply Forall_app. split; [|by repeat constructor; cbn; lia].
      eapply Forall_impl; [exact Hb|]. cbv beta. intros r. lia.
    + rewrite map_app. apply NoDup_app. split_and!; [done| |apply NoDup_singleton].
      intros x ([i item] & -> & Hx)%list_elem_of_fmap Hq%list_elem_of_singleton. by eapply Hnew.
    + rewrite zlen_app. change (zlen [_]) with 1. lia.
    + intros peer. rewrite List.filter_app, zlen_app. specialize (Hp peer). cbn [List.filter snd request].
      case_bool_decide; [subst; change (zlen [_]) with 1; lia|change (zlen []) with 0; lia].
    + apply Forall_app. split; [done|]. constructor; [|constructor]. cbn [snd responders].
      split_and!; [done|apply NoDup_singleton|done].
Qed.

(** ** The calls and the rows *)

Lemma send_all d cs ws w :
  foldl (send d) cs ws !! w =
    match cs !! w with
    | Some {| call_request := req; call_state := Waiting id None |} =>
        if bool_decide (w ∈ ws) then Some {| call_request := req; call_state := Waiting id (Some d) |} else cs !! w
    | other => other
    end.
Proof.
  revert cs. induction ws as [|v ws IH]; intros cs.
  { simpl. by destruct (cs !! w) as [[req [|id [x|]|id]]|]. }
  simpl. rewrite IH. unfold send. destruct (decide (w = v)) as [->|Hne].
  - rewrite (bool_decide_true (v ∈ v :: ws)) by (left; done).
    destruct (cs !! v) as [[req [|id [x|]|id]]|] eqn:E; rewrite ?E; try done. by rewrite lookup_insert_eq.
  - rewrite (bool_decide_ext (w ∈ v :: ws) (w ∈ ws)) by (rewrite elem_of_cons; tauto).
    destruct (cs !! v) as [[req [|id [x|]|id]]|] eqn:E; try done. by rewrite lookup_insert_ne.
Qed.

Lemma answer_items cs d items :
  foldl (λ cs item, answer_item cs d item) cs items = foldl (send d) cs (concat (map responders items)).
Proof.
  revert cs. induction items as [|item items IH]; intros cs; [done|]. cbn [map concat foldl].
  by rewrite foldl_app, IH.
Qed.

Lemma in_rows_state q cs w :
  linked q cs → in_rows q w → ∃ req st, cs !! w = Some {| call_request := req; call_state := st |} ∧
    (∃ id, st = Waiting id None ∨ st = TimedOut id).
Proof. intros [Hr _] (id & item & Hin & Hw). destruct (Hr id item w Hin Hw) as (st & H & Hst). eauto 10. Qed.

(** Answering the callers of the rows that are taken out. *)
Lemma linked_answer q cs f d :
  queue_ok q → linked q cs →
  linked (set_pending q (List.filter (λ row, negb (f row)) (pending q)))
    (foldl (send d) cs (concat (map (λ row, responders row.2) (List.filter f (pending q))))).
Proof.
  intros Hok [Hr Hc]. set (ws := concat _).
  assert (Hws : ∀ w, w ∈ ws ↔ ∃ id item, (id, item) ∈ pending q ∧ f (id, item) = true ∧ w ∈ responders item).
  { intros w. unfold ws. rewrite list_elem_of_In, in_concat. setoid_rewrite <-list_elem_of_In.
    split.
    - intros (l & ([id item] & -> & Hin)%list_elem_of_fmap & Hw). apply elem_of_List_filter in Hin as [? ?]. eauto.
    - intros (id & item & Hin & Hf & Hw). exists (responders item). split; [|done].
      apply (list_elem_of_fmap_2 (λ row, responders row.2) _ (id, item)). by apply elem_of_List_filter. }
  assert (Hown : ∀ id item w st req, (id, item) ∈ pending q → w ∈ responders item →
    cs !! w = Some {| call_request := req; call_state := st |} → w ∈ ws → st = Waiting id None ∨ st = TimedOut id →
    f (id, item) = true).
  { intros id item w st req Hin Hw Hst (id' & item' & Hin' & Hf & Hw')%Hws Hst'.
    destruct (Hr _ _ _ Hin' Hw') as (st' & Hs & Hs'). rewrite Hst in Hs. injection Hs as Hq <-.
    assert (id' = id) as -> by (destruct Hst' as [->| ->]; naive_solver).
    by rewrite (row_unique q id item item'). }
  split; cbn [pending set_pending].
  - intros id item w [Hin Hf]%elem_of_List_filter Hw. destruct (Hr _ _ _ Hin Hw) as (st & Hs & Hst).
    exists st. split; [|done]. rewrite send_all, Hs. destruct Hst as [->| ->]; [|done].
    rewrite bool_decide_false; [done|]. intros Hx. rewrite (Hown id item w _ _ Hin Hw Hs Hx) in Hf; [done|by left].
  - intros w req id. rewrite send_all. destruct (cs !! w) as [[req' [|id' [x|]|id']]|] eqn:E; [done|naive_solver| |done|done].
    case_bool_decide as Hn; [done|]. intros [= -> ->]. destruct (Hc _ _ _ E) as (item & Hin & Hw & Hq).
    exists item. split; [|done]. apply elem_of_List_filter. split; [done|]. apply negb_true_iff.
    destruct (f (id, item)) eqn:Hf; [|done]. destruct Hn. apply Hws. eauto.
Qed.

(** A row whose gone callers are dropped. *)
Lemma linked_prune q cs id item :
  queue_ok q → linked q cs → (id, item) ∈ pending q →
  linked (set_pending q (update_row id (prune (is_closed cs) item) (pending q))) cs.
Proof.
  intros Hok [Hr Hc] Hin. split; cbn [pending set_pending].
  - intros i x w [[Hne H]|(-> & -> & _)]%elem_of_update_row Hw; [eauto|].
    apply prune_spec in Hw as [Hw _]. destruct (Hr _ _ _ Hin Hw) as (st & Hs & Hst). by exists st.
  - intros w req i Hs. destruct (Hc _ _ _ Hs) as (x & Hx & Hw & Hq).
    destruct (decide (i = id)) as [->|Hne].
    + rewrite (row_unique q id x item Hok Hx Hin) in Hw, Hq. exists (prune (is_closed cs) item).
      split_and!; [apply elem_of_update_row; right; split_and!; [done..|by apply (list_elem_of_fmap_2 fst _ (id, item))]| |done].
      apply prune_spec. split; [done|]. unfold is_closed. by rewrite Hs.
    + exists x. split_and!; [|done..]. apply elem_of_update_row. by left.
Qed.

(** Changing a call that no row lists. *)
Lemma linked_delete q cs w : linked q cs → ¬ in_rows q w → linked q (delete w cs).
Proof.
  intros [Hr Hc] Hn. split.
  - intros id item v Hin Hv. rewrite lookup_delete_ne; [by apply Hr|]. intros ->. apply Hn. by exists id, item.
  - intros v req id [_ Hs]%lookup_delete_Some. by apply Hc.
Qed.

Lemma linked_insert q cs w req st : linked q cs → ¬ in_rows q w → (∀ id, st ≠ Waiting id None) →
  linked q (<[w := {| call_request := req; call_state := st |}]> cs).
Proof.
  intros [Hr Hc] Hn Hst. split.
  - intros id item v Hin Hv. rewrite lookup_insert_ne; [by apply Hr|]. intros ->. apply Hn. by exists id, item.
  - intros v req' id [[-> [= -> ->]]|[_ Hs]]%lookup_insert_Some; [by destruct (Hst id)|by apply Hc].
Qed.

Lemma linked_timeout q cs w req id :
  linked q cs → cs !! w = Some {| call_request := req; call_state := Waiting id None |} →
  linked q (<[w := {| call_request := req; call_state := TimedOut id |}]> cs).
Proof.
  intros [Hr Hc] Hw. split.
  - intros i item v Hin Hv. destruct (Hr _ _ _ Hin Hv) as (st & Hs & Hst). destruct (decide (v = w)) as [->|Hne].
    + exists (TimedOut i). rewrite lookup_insert_eq. rewrite Hw in Hs. injection Hs as -> <-.
      destruct Hst as [[= ->]|[=]]. auto.
    + exists st. by rewrite lookup_insert_ne.
  - intros v req' i [[-> [=]]|[_ Hs]]%lookup_insert_Some. by apply Hc.
Qed.

Lemma linked_enqueue q cs req w q' o :
  queue_ok q → linked q cs → ¬ in_rows q w → enqueue q (is_closed cs) req w = (q', o) →
  queue_ok q' ∧
  match o with
  | Some (id, _) => linked q' (<[w := {| call_request := req; call_state := Waiting id None |}]> cs)
  | None => linked q' cs ∧ ¬ in_rows q' w
  end.
Proof.
  intros Hok Hl Hw He. destruct (enqueue_spec _ _ _ _ _ _ Hok Hw He) as [Hok' Hs]. split; [done|].
  destruct o as [[id []]|].
  - destruct Hs as (-> & Hnew & Hp). destruct Hl as [Hr Hc]. split; rewrite Hp.
    + intros i item v [Hin|[= -> ->]%list_elem_of_singleton]%elem_of_app Hv.
      * rewrite lookup_insert_ne; [by apply Hr|]. intros ->. apply Hw. by exists i, item.
      * cbn [responders] in Hv. apply list_elem_of_singleton in Hv as ->. rewrite lookup_insert_eq. eauto.
    + intros v req' i [[-> [= -> ->]]|[_ Hs]]%lookup_insert_Some.
      * eexists. split_and!; [apply elem_of_app; right; by left|by left|done].
      * destruct (Hc _ _ _ Hs) as (item & ? & ?). exists item. split; [apply elem_of_app; by left|done].
  - destruct Hs as (item & Hin & <- & Hp). destruct (linked_prune q cs id item Hok Hl Hin) as [Hr Hc].
    cbn [pending set_pending] in *. split; rewrite Hp.
    + intros i x v [[Hne H]|(-> & -> & Hi)]%elem_of_update_row Hv.
      * rewrite lookup_insert_ne; [apply Hr; [by apply elem_of_update_row; left|done]|].
        intros ->. apply Hw. by exists i, x.
      * cbn [responders request] in *. apply elem_of_app in Hv as [Hv| ->%list_elem_of_singleton].
        -- rewrite lookup_insert_ne.
           ++ apply (Hr id (prune (is_closed cs) item)); [apply elem_of_update_row; by right|done].
           ++ intros ->. apply Hw. exists id, item. split; [done|]. by apply prune_spec in Hv as [? _].
        -- rewrite lookup_insert_eq. eauto.
    + intros v req' i [[-> [= Hq1 Hq2]]|[_ Hs]]%lookup_insert_Some; [subst req' i|].
      * eexists. split_and!; [apply elem_of_update_row; right; split_and!; [done..|]| |done].
        -- by apply (list_elem_of_fmap_2 fst _ (id, item)).
        -- cbn [responders]. apply elem_of_app. right. by left.
      * destruct (Hc _ _ _ Hs) as (x & Hx & Hv & Hq). apply elem_of_update_row in Hx as [[Hne Hx]|(-> & -> & Hi)].
        -- exists x. split_and!; [apply elem_of_update_row; by left|done..].
        -- eexists. split_and!; [apply elem_of_update_row; right; split_and!; done| |done].
           cbn [responders]. apply elem_of_app. by left.
  - destruct Hs as [Hp|(id & item & Hin & _ & Hp)].
    + split; [destruct Hl as [Hr Hc]; split; by rewrite Hp|]. intros (i & x & Hx & Hv). rewrite Hp in Hx.
      apply Hw. by exists i, x.
    + pose proof (linked_prune q cs id item Hok Hl Hin) as [Hr Hc]. cbn [pending set_pending] in *.
      split; [split; by rewrite Hp|]. intros (i & x & Hx & Hv). rewrite Hp in Hx. apply Hw.
      apply elem_of_update_row in Hx as [[_ Hx]|(-> & -> & _)]; [by exists i, x|].
      exists id, item. split; [done|]. by apply prune_spec in Hv as [? _].
Qed.

Lemma linked_drop_waiters q cs id q' o :
  queue_ok q → linked q cs → drop_waiters q (is_closed cs) id = (q', o) →
  queue_ok q' ∧ linked q' cs ∧
  ∀ w req, cs !! w = Some {| call_request := req; call_state := TimedOut id |} → ¬ in_rows q' w.
Proof.
  intros Hok Hl. pose proof Hl as [Hr Hc].
  assert (Hid : ∀ i item w req, (i, item) ∈ pending q → w ∈ responders item →
    cs !! w = Some {| call_request := req; call_state := TimedOut id |} → i = id).
  { intros i item w req Hin Hw Hs. destruct (Hr _ _ _ Hin Hw) as (st & Hs' & Hst). naive_solver. }
  unfold drop_waiters. destruct (get_row id (pending q)) as [item|] eqn:Hg.
  - apply get_row_Some in Hg. pose proof (row_waiters q id item Hok Hg) as (Hne & Hnd & Hlen).
    pose proof (prune_ok (is_closed cs) item Hnd Hlen) as [Hnd' Hlen'].
    destruct (zlen (responders (prune (is_closed cs) item)) =? 0) eqn:Hz; intros [= <- <-].
    + assert (Hempty : responders (prune (is_closed cs) item) = []).
      { apply Z.eqb_eq in Hz. unfold zlen in Hz. by apply length_zero_iff_nil; lia. }
      split; [apply queue_ok_filter, Hok|]. split; [split; cbn [pending set_pending remove_row]|].
      * intros i x w [Hin _]%elem_of_List_filter Hw. eauto.
      * intros w req i Hs. destruct (Hc _ _ _ Hs) as (x & Hx & Hw & Hq). exists x. split_and!; [|done..].
        apply elem_of_List_filter. split; [done|]. cbn [fst]. destruct (Z.eqb_spec i id) as [->|]; [|done].
        rewrite (row_unique q id x item Hok Hx Hg) in Hw. exfalso.
        assert (Hin : w ∈ responders (prune (is_closed cs) item)); [|rewrite Hempty in Hin; by apply elem_of_nil in Hin].
        apply prune_spec. split; [done|]. unfold is_closed. by rewrite Hs.
      * intros w req Hs (i & x & [Hin Hf]%elem_of_List_filter & Hw). cbn [fst] in Hf.
        rewrite (Hid _ _ _ _ Hin Hw Hs), Z.eqb_refl in Hf. done.
    + apply Z.eqb_neq in Hz. split; [|split].
      * apply queue_ok_update with item; [done..|]. split_and!; [|done..]. intros E. by rewrite E in Hz.
      * by apply linked_prune.
      * intros w req Hs (i & x & Hin & Hw). cbn [pending set_pending] in Hin.
        apply elem_of_update_row in Hin as [[Hi Hin]|(-> & -> & _)]; [by apply Hi, (Hid _ _ _ _ Hin Hw Hs)|].
        apply prune_spec in Hw as [_ Hw]. unfold is_closed in Hw. by rewrite Hs in Hw.
  - intros [= <- <-]. split_and!; [done..|]. intros w req Hs (i & x & Hin & Hw).
    rewrite (Hid _ _ _ _ Hin Hw Hs) in Hin. by apply (get_row_None id (pending q) x).
Qed.

(** ** The system *)

Section invariant.
Context {C : Crypto} (policy : Policy).

Definition sys_ok (s : System) : Prop := queue_ok (queue s) ∧ linked (queue s) (calls s).

Lemma start_ok t : sys_ok (start t).
Proof.
  split; split; try (by constructor); try done.
  intros id item w H. by apply elem_of_nil in H.
Qed.

Lemma not_in_rows q cs w :
  linked q cs → (∀ req st, cs !! w = Some {| call_request := req; call_state := st |} →
    match st with Waiting _ None | TimedOut _ => False | _ => True end) → ¬ in_rows q w.
Proof.
  intros Hl Hn Hin. destruct (in_rows_state q cs w Hl Hin) as (req & st & Hs & id & Hst). specialize (Hn _ _ Hs).
  by destruct Hst as [->| ->].
Qed.

Lemma decide_end_ok s w req d ok now :
  sys_ok s → ¬ in_rows (queue s) w → sys_ok (decide_end s w req d ok now).
Proof.
  intros [Hq Hl] Hn. unfold decide_end. destruct (trust_decision d) as [t|].
  - destruct (remember_for _ _ _ _ _ _) as [store r]. split; [done|]. by apply linked_delete.
  - split; [done|]. by apply linked_delete.
Qed.

Lemma resolve_spec s id d : sys_ok s →
  match get_row id (pending (queue s)) with
  | None => resolve s id d = (s, false)
  | Some item =>
      (resolve s id d).2 = true ∧ queue (resolve s id d).1 = set_pending (queue s) (remove_row id (pending (queue s))) ∧
      calls (resolve s id d).1 = foldl (send d) (calls s) (responders item) ∧
      List.filter (λ row, row.1 =? id) (pending (queue s)) = [(id, item)]
  end.
Proof.
  intros [Hq _]. unfold resolve, take_row. destruct (get_row id _) as [item|] eqn:Hg; [|done].
  split_and!; [done..|]. destruct Hq as [Hs _ _ _ _ _]. apply ids_nodup in Hs. clear -Hs Hg.
  induction (pending (queue s)) as [|[i x] rows IH]; [done|]. cbn [get_row List.filter fst] in *.
  simpl in Hs. apply NoDup_cons in Hs as [Hi Hs]. destruct (Z.eqb_spec i id) as [->|]; [|auto].
  injection Hg as ->. f_equal. clear IH. induction rows as [|[j y] rows IH]; [done|]. cbn [List.filter fst].
  simpl in Hi. apply not_elem_of_cons in Hi as [Hj Hi]. simpl in Hs. apply NoDup_cons in Hs as [_ Hs].
  rewrite (proj2 (Z.eqb_neq j id)) by congruence. auto.
Qed.

Lemma step_ok s o : sys_ok s → sys_ok (step policy s o).
Proof.
  intros Hs. pose proof Hs as [Hq Hl]. destruct o as [w req remote w1 w2 now|w w1 w2 now|id d|peer|w|w ok now|w ok now]; cbn [step].
  - destruct (calls s !! w) as [c|] eqn:E; [done|]. cbn [is_some].
    assert (Hn : ¬ in_rows (queue s) w) by (apply (not_in_rows _ _ _ Hl); intros ? ?; by rewrite E).
    unfold authorize. case_if; [by split; [|apply linked_insert]|].
    destruct (lookup _ _ _ _ _ _) as [t r]. case_if; [by split; [|apply linked_delete]|by split; [|apply linked_insert]].
  - destruct (calls s !! w) as [[req [| |]]|] eqn:E; try done.
    assert (Hn : ¬ in_rows (queue s) w) by (apply (not_in_rows _ _ _ Hl); intros ? ?; rewrite E; by intros [= <- <-]).
    unfold decide_begin. destruct (lookup _ _ _ _ _ _) as [t [r|]]; [by split; [|apply linked_delete]; case_if|].
    cbn [with_trust queue calls]. destruct (enqueue _ _ _ _) as [q o] eqn:He.
    destruct (linked_enqueue _ _ _ _ _ _ Hq Hl Hn He) as [Hq' Ho].
    destruct o as [[id []]|]; [done|done|]. destruct Ho. by split; [|apply linked_delete].
  - pose proof (resolve_spec s id d Hs) as Hr. destruct (get_row id _) as [item|]; [|by rewrite Hr].
    destruct Hr as (_ & Hq' & Hc & Hf). unfold sys_ok. rewrite Hq', Hc. split; [by apply queue_ok_filter|].
    pose proof (linked_answer _ _ (λ row, row.1 =? id) d Hq Hl) as Ha. rewrite Hf in Ha. cbn [map concat snd] in Ha.
    by rewrite app_nil_r in Ha.
  - unfold purge_peer, purge. split; [by apply queue_ok_filter|]. cbn [queue calls with_calls with_queue].
    pose proof (linked_answer _ _ (λ row, bool_decide (peer_id (request row.2) = peer)) Deny Hq Hl) as Ha.
    by rewrite answer_items, map_map.
  - destruct (calls s !! w) as [[req [|id [d|]|]]|] eqn:E; try done. split; [done|]. by apply linked_timeout.
  - destruct (calls s !! w) as [[req [| |id]]|] eqn:E; try done. unfold remove_unresolved.
    destruct (drop_waiters _ _ _) as [q o] eqn:Hd.
    destruct (linked_drop_waiters _ _ _ _ _ Hq Hl Hd) as (Hq' & Hl' & Hn).
    apply decide_end_ok; destruct o; first [by split|by apply (Hn w req)].
  - destruct (calls s !! w) as [[req [|id [d|]|]]|] eqn:E; try done. apply decide_end_ok; [done|].
    apply (not_in_rows _ _ _ Hl). intros ? ?. rewrite E. by intros [= <- <-].
Qed.

Lemma run_ok s ops : sys_ok s → sys_ok (run policy s ops).
Proof. revert s. induction ops as [|o ops IH]; intros s Hs; [done|]. apply IH, step_ok, Hs. Qed.

(** ** What a step changes *)

Lemma lookup_rows t req w1 w2 k x :
  trust_entries (lookup t (peer_id req) (verified_did req) (forward_key req) w1 w2).1 !! k = Some x →
  trust_entries t !! k = Some x ∨
  (verified_did req = Some k.1 ∧ starts_with "did:" (peer_id req) = false ∧
   trust_entries t !! (peer_id req, k.2) = Some x).
Proof.
  intros Hk. destruct (lookup_entries t (peer_id req) (verified_did req) (forward_key req) w1 w2)
    as [E|(d & y & Hb & Hs & _ & Hy & E)]; rewrite E in Hk; [by left|].
  unfold verified_did in Hb. rewrite bound_did_idem in Hb. fold (verified_did req) in Hb.
  assert (Hk' : <[(d, forward_key req) := y]> (trust_entries t) !! k = Some x).
  { destruct w1; [|done]. by apply lookup_delete_Some in Hk as [_ ?]. }
  apply lookup_insert_Some in Hk' as [[<- ->]|[_ ?]]; [by right|by left].
Qed.

Definition current (s : System) (o : Op) (req : AuthRequest) : Prop :=
  (∃ w remote w1 w2 now, o = OArrive w req remote w1 w2 now) ∨ (∃ w st, calls s !! w = Some {| call_request := req; call_state := st |}).

(** The answer a call has received, and why one it returns may allow. *)
Definition received (s : System) (w : Z) (req : AuthRequest) (d : AuthDecision) : Prop :=
  ∃ id, calls s !! w = Some {| call_request := req; call_state := Waiting id (Some d) |}.

Definition because (s : System) (o : Op) (w : Z) (req : AuthRequest) : Prop :=
  ((∃ w1 w2 now, o = OArrive w req false w1 w2 now) ∧
     answer (trust_entries (trust s)) (peer_id req) (verified_did req) (forward_key req) = None ∧
     policy_allows (auto_accept policy) (allow_peers policy) req = true)
  ∨ (answer (trust_entries (trust s)) (peer_id req) (verified_did req) (forward_key req) = Some TrustAllow ∧ current s o req)
  ∨ (∃ d, received s w req d ∧ is_allowed d = true).

Definition rows_from (s : System) (o : Op) (m : gmap TrustKey TrustDecision) : Prop :=
  ∀ k x, m !! k = Some x →
    trust_entries (trust s) !! k = Some x
    ∨ (∃ req, current s o req ∧ verified_did req = Some k.1 ∧ starts_with "did:" (peer_id req) = false ∧
         trust_entries (trust s) !! (peer_id req, k.2) = Some x)
    ∨ (∃ w req d, received s w req d ∧ trust_decision d = Some x ∧ verified_did req = Some k.1 ∧ forward_key req = k.2).

(** The effect of a step on the answers, the remembered rows and the outcomes. *)
Record effect (s : System) (o : Op) (s' : System) : Prop := {
  effect_calls : ∀ w c, calls s' !! w = Some c → current s o (call_request c) ∧
    ∀ id d, call_state c = Waiting id (Some d) → calls s !! w = Some c ∨ d = Deny ∨
      (o = OResolve id d ∧ (id, call_request c) ∈ listed (queue s));
  effect_trust : rows_from s o (trust_entries (trust s'));
  effect_outcomes : ∀ w req d, (w, req, d) ∈ outcomes s' → (w, req, d) ∈ outcomes s ∨
    (is_allowed d = true → because s o w req);
}.

Lemma rows_same s o : rows_from s o (trust_entries (trust s)).
Proof. intros k x H. by left. Qed.

Lemma rows_lookup s o req w1 w2 : current s o req →
  rows_from s o (trust_entries (lookup (trust s) (peer_id req) (verified_did req) (forward_key req) w1 w2).1).
Proof. intros Hc k x [?|(?&?&?)]%lookup_rows; [by left|]. right. left. eauto. Qed.

(** Only the state of the call [w] changes, to one that has no answer. *)
Lemma calls_set s o w req st cs : current s o req → (∀ id d, st ≠ Waiting id (Some d)) →
  cs = <[w := {| call_request := req; call_state := st |}]> (calls s) →
  ∀ v c, cs !! v = Some c → current s o (call_request c) ∧
    ∀ id d, call_state c = Waiting id (Some d) → calls s !! v = Some c ∨ d = Deny ∨
      (o = OResolve id d ∧ (id, call_request c) ∈ listed (queue s)).
Proof.
  intros Hc Hst -> v c [[<- <-]|[_ H]]%lookup_insert_Some.
  - split; [done|]. intros id d E. cbn [call_state] in E. by destruct (Hst id d).
  - split; [right; destruct c; eauto|]. intros id d _. by left.
Qed.

Lemma calls_delete s o w cs : cs = delete w (calls s) →
  ∀ v c, cs !! v = Some c → current s o (call_request c) ∧
    ∀ id d, call_state c = Waiting id (Some d) → calls s !! v = Some c ∨ d = Deny ∨
      (o = OResolve id d ∧ (id, call_request c) ∈ listed (queue s)).
Proof.
  intros -> v c [_ H]%lookup_delete_Some. split; [right; destruct c; eauto|]. intros id d _. by left.
Qed.

Lemma effect_refl s o : effect s o s.
Proof.
  split; [|exact (rows_same s _)|by left]. intros v c H. split; [right; destruct c; eauto|]. intros id d _. by left.
Qed.

Lemma outcomes_app s w req d v req' d' :
  (v, req', d') ∈ outcomes s ++ [(w, req, d)] → (v, req', d') ∈ outcomes s ∨ (v = w ∧ req' = req ∧ d' = d).
Proof. intros [?|[= -> -> ->]%list_elem_of_singleton]%elem_of_app; tauto. Qed.

Lemma decide_end_effect s s1 o w req d ok now :
  trust s1 = trust s → calls s1 = calls s → outcomes s1 = outcomes s →
  (∃ st, calls s !! w = Some {| call_request := req; call_state := st |}) →
  received s w req d ∨ d = Deny →
  effect s o (decide_end s1 w req d ok now).
Proof.
  intros Ht Hc Ho [st Hw] Hd.
  assert (Hout : ∀ d', (is_allowed d' = true → is_allowed d = true) → ∀ v r d'', (v, r, d'') ∈ outcomes s1 ++ [(w, req, d')] →
    (v, r, d'') ∈ outcomes s ∨ (is_allowed d'' = true → because s o v r)).
  { intros d' Hd' v r d''. rewrite Ho. intros [?|(-> & -> & ->)]%outcomes_app; [by left|right]. intros Ha.
    right. right. exists d. destruct Hd as [?| ->]; [auto|]. by apply Hd' in Ha. }
  unfold decide_end. destruct (trust_decision d) as [x|] eqn:Hx.
  - pose proof (remember_for_entries (trust s1) (peer_id req) (verified_did req) (forward_key req) x ok) as Hr.
    destruct (remember_for _ _ _ _ _ _) as [store r]. split.
    + apply (calls_delete s o w). cbn. by rewrite Hc.
    + cbn [trust return_ log with_trust]. unfold verified_did in Hr. rewrite bound_did_idem in Hr.
      fold (verified_did req) in Hr. destruct (verified_did req) as [did|] eqn:Hv.
      * destruct Hr as [-> _]. intros k y [[<- <-]|[_ H]]%lookup_insert_Some; [|left; by rewrite <-Ht].
        right. right. exists w, req, d. destruct Hd as [?| ->]; done.
      * destruct Hr as [-> _]. rewrite Ht. apply rows_same.
    + cbn [outcomes return_ log with_trust]. apply Hout.
      intros Ha. destruct d; cbn in *; try done; destruct r as [[]|]; done.
  - split; [apply (calls_delete s o w); cbn; by rewrite Hc|cbn; rewrite Ht; apply rows_same|].
    cbn [outcomes return_ log]. by apply Hout.
Qed.

Lemma calls_send s o d cs ws q :
  (∀ w req id, calls s !! w = Some {| call_request := req; call_state := Waiting id None |} → w ∈ ws →
     d = Deny ∨ (o = OResolve id d ∧ (id, req) ∈ listed q)) →
  cs = foldl (send d) (calls s) ws → q = queue s →
  ∀ v c, cs !! v = Some c → current s o (call_request c) ∧
    ∀ id d', call_state c = Waiting id (Some d') → calls s !! v = Some c ∨ d' = Deny ∨
      (o = OResolve id d' ∧ (id, call_request c) ∈ listed (queue s)).
Proof.
  intros Hw -> -> v c. rewrite send_all.
  destruct (calls s !! v) as [[req [|id [x|]|id]]|] eqn:E; [| | | |done].
  1,2,4: intros [= <-]; split; [right; eauto|by left].
  case_bool_decide as Hv; intros [= <-]; (split; [right; eauto|]); cbn [call_state call_request]; [|done].
  intros i d' [= <- <-]. right. by apply (Hw v).
Qed.

Lemma step_effect s o : sys_ok s → effect s o (step policy s o).
Proof.
  intros Hs. pose proof Hs as [Hq Hl].
  destruct o as [w req remote w1 w2 now|w w1 w2 now|id d|peer|w|w ok now|w ok now]; cbn [step].
  - assert (Hcur : current s (OArrive w req remote w1 w2 now) req) by (left; eauto 10).
    destruct (calls s !! w) as [c|] eqn:E; [apply effect_refl|]. cbn [is_some]. unfold authorize.
    case_if; [split; [eapply calls_set; cycle 2; [reflexivity|done..]|exact (rows_same s _)|by left]|].
    pose proof (lookup_answer (trust s) (peer_id req) (verified_did req) (forward_key req) w1 w2) as Ha.
    pose proof (rows_lookup s _ req w1 w2 Hcur) as Hrows.
    destruct (lookup _ _ _ _ _ _) as [t r]. cbn [fst snd] in *. case_if; [|by split; [eapply calls_set; cycle 2; [reflexivity|done..]|done|left]].
    split; [by apply (calls_delete s _ w)|done|]. cbn. intros v r' d' [?|(-> & -> & ->)]%outcomes_app; [by left|].
    right. intros _. left. bools. destruct r; [done|]. split; [|done]. destruct remote; [done|]. eauto.
  - destruct (calls s !! w) as [[req [| |]]|] eqn:E; try apply effect_refl.
    assert (Hcur : current s (OBegin w w1 w2 now) req) by (right; eauto). unfold decide_begin.
    pose proof (lookup_answer (trust s) (peer_id req) (verified_did req) (forward_key req) w1 w2) as Ha.
    pose proof (rows_lookup s _ req w1 w2 Hcur) as Hrows.
    destruct (lookup _ _ _ _ _ _) as [t [r|]]; cbn [fst snd] in *.
    + split; [apply (calls_delete s _ w); by destruct r|by destruct r|].
      intros v r' d' Hin. replace (outcomes _) with (outcomes s ++ [(w, req, auth_decision r)]) in Hin by (by destruct r).
      apply outcomes_app in Hin as [?|(-> & -> & ->)]; [by left|right]. intros Hal. right. left. by destruct r.
    + cbn [with_trust queue calls]. destruct (enqueue _ _ _ _) as [q o]. destruct o as [[id []]|].
      1,2: split; [eapply calls_set; cycle 2; [reflexivity|done..]|done|by left].
      split; [by apply (calls_delete s _ w)|done|]. cbn. intros v r' d' [?|(-> & -> & ->)]%outcomes_app; [by left|by right].
  - pose proof (resolve_spec s id d Hs) as Hr. destruct (get_row id _) as [item|] eqn:Hg; [|rewrite Hr; apply effect_refl].
    destruct Hr as (_ & _ & Hc & _). apply get_row_Some in Hg.
    assert (Ht : trust (resolve s id d).1 = trust s ∧ outcomes (resolve s id d).1 = outcomes s).
    { unfold resolve, take_row. by destruct (get_row id (pending (queue s))). }
    destruct Ht as [Ht Ho]. split; [|rewrite Ht; apply rows_same|rewrite Ho; by left].
    eapply calls_send; [|exact Hc|done]. intros w req i Hw Hin. right.
    destruct Hl as [Hrow _]. destruct (Hrow _ _ _ Hg Hin) as (st & Hst & Hst'). rewrite Hw in Hst. injection Hst as -> <-.
    destruct Hst' as [[= ->]|[=]]. split; [done|]. unfold listed.
    by apply (list_elem_of_fmap_2 (λ row : Z * PendingItem, (row.1, request row.2)) _ (id, item)).
  - unfold purge_peer, purge. split; [|exact (rows_same s _)|by left]. cbn [calls with_calls with_queue fst].
    rewrite answer_items, map_map. by eapply (calls_send s _ Deny); [left| |].
  - destruct (calls s !! w) as [[req [|id [d|]|]]|] eqn:E; try apply effect_refl.
    split; [eapply calls_set; cycle 2; [reflexivity|right; eauto|done]|exact (rows_same s _)|by left].
  - destruct (calls s !! w) as [[req [| |id]]|] eqn:E; try apply effect_refl. unfold remove_unresolved.
    destruct (drop_waiters _ _ _) as [q [item|]]; apply decide_end_effect; eauto.
  - destruct (calls s !! w) as [[req [|id [d|]|]]|] eqn:E; try apply effect_refl.
    apply decide_end_effect; eauto. left. by exists id.
Qed.
End invariant.

(** ** Every admission has a cause *)

Section history.
Context {C : Crypto} (policy : Policy) (t0 : TrustStore).

Definition after (ops : list Op) : System := run policy (start t0) ops.

(** A human answered a row that listed the request. *)
Definition answered (ops : list Op) (req : AuthRequest) (d : AuthDecision) : Prop :=
  ∃ pre post id, ops = pre ++ OResolve id d :: post ∧ (id, req) ∈ listed (queue (after pre)).

(** A row for a DID: from the file, from the file under the node id of the DID,
    or because a human said so for good. *)
Definition remembered (ops : list Op) (k : TrustKey) (x : TrustDecision) : Prop :=
  trust_entries t0 !! k = Some x
  ∨ (starts_with "did:" k.1 = true ∧ trust_entries t0 !! (node_id_for_did k.1, k.2) = Some x)
  ∨ ∃ req d, answered ops req d ∧ trust_decision d = Some x ∧ verified_did req = Some k.1 ∧ forward_key req = k.2.

(** The policy admitted the request on arrival, when nothing was remembered. *)
Definition by_policy (ops : list Op) (w : Z) (req : AuthRequest) : Prop :=
  ∃ pre post w1 w2 now, ops = pre ++ OArrive w req false w1 w2 now :: post ∧
    answer (trust_entries (trust (after pre))) (peer_id req) (verified_did req) (forward_key req) = None ∧
    policy_allows (auto_accept policy) (allow_peers policy) req = true.

Definition justified (ops : list Op) (w : Z) (req : AuthRequest) : Prop :=
  by_policy ops w req
  ∨ (∃ did, verified_did req = Some did ∧ remembered ops (did, forward_key req) TrustAllow)
  ∨ (∃ d, answered ops req d ∧ is_allowed d = true).

(** The DIDs of requests are those the peers proved, which are [did:key] strings. *)
Definition did_ok (req : AuthRequest) : Prop := ∀ d, request_did req = Some d → starts_with "did:" d = true.
Definition op_ok (o : Op) : Prop := match o with OArrive _ req _ _ _ _ => did_ok req | _ => True end.

Lemma after_app ops o : after (ops ++ [o]) = step policy (after ops) o.
Proof. unfold after, run. by rewrite foldl_app. Qed.

Lemma after_ok ops : sys_ok (after ops).
Proof. apply run_ok, start_ok. Qed.

Lemma answered_app ops o req d : answered ops req d → answered (ops ++ [o]) req d.
Proof. intros (pre & post & id & -> & H). exists pre, (post ++ [o]), id. by rewrite <-app_assoc. Qed.

Lemma remembered_app ops o k x : remembered ops k x → remembered (ops ++ [o]) k x.
Proof. intros [H|[H|(req & d & H & ?)]]; [by left|right; by left|]. right. right. exists req, d. split; [by apply answered_app|done]. Qed.

Lemma justified_app ops o w req : justified ops w req → justified (ops ++ [o]) w req.
Proof.
  intros [(pre & post & w1 & w2 & now & -> & H)|[(did & H & Hr)|(d & H & Ha)]].
  - left. exists pre, (post ++ [o]), w1, w2, now. by rewrite <-app_assoc.
  - right. left. exists did. split; [done|by apply remembered_app].
  - right. right. exists d. split; [by apply answered_app|done].
Qed.

Lemma calls_did ops w c : Forall op_ok ops → calls (after ops) !! w = Some c → did_ok (call_request c).
Proof.
  revert w c. induction ops as [|o ops IH] using rev_ind; intros w c; [done|].
  intros [Hops Ho]%Forall_app Hw. apply Forall_cons in Ho as [Ho _]. rewrite after_app in Hw.
  destruct (step_effect policy (after ops) o (after_ok ops)) as [Hc _ _].
  destruct (Hc _ _ Hw) as [[(v & remote & w1 & w2 & now & ->)|(v & st & Hv)] _]; [exact Ho|].
  by apply IH in Hv.
Qed.

Lemma current_did ops o req : Forall op_ok ops → op_ok o → current (after ops) o req → did_ok req.
Proof. intros Hops Ho [(v & remote & w1 & w2 & now & ->)|(v & st & Hv)]; [exact Ho|]. by apply calls_did in Hv. Qed.

Lemma listed_call s id req : sys_ok s → (id, req) ∈ listed (queue s) → ∃ w st, calls s !! w = Some {| call_request := req; call_state := st |}.
Proof.
  intros [Hq [Hr _]] ([i item] & [= -> ->] & Hin)%list_elem_of_fmap.
  destruct (row_waiters _ _ _ Hq Hin) as (Hne & _). destruct (responders item) as [|w ws] eqn:E; [done|].
  destruct (Hr _ _ w Hin) as (st & Hs & _); [rewrite E; by left|eauto].
Qed.

Lemma answered_did ops req d : Forall op_ok ops → answered ops req d → did_ok req.
Proof.
  intros Hops (pre & post & id & -> & Hl). apply Forall_app in Hops as [Hpre _].
  destruct (listed_call _ _ _ (after_ok pre) Hl) as (w & st & Hw). by apply calls_did in Hw.
Qed.

Lemma verified_did_Some req d : verified_did req = Some d ↔ request_did req = Some d ∧ node_id_for_did d = peer_id req.
Proof. apply bound_did_Some. Qed.

(** A row whose name is not a DID comes from the file. *)
Lemma remembered_legacy ops k x : Forall op_ok ops → starts_with "did:" k.1 = false →
  remembered ops k x → trust_entries t0 !! k = Some x.
Proof.
  intros Hops Hs [?|[[H _]|(req & d & Ha & _ & Hv & _)]]; [done|congruence|].
  apply answered_did in Ha; [|done]. apply verified_did_Some in Hv as [Hd _]. apply Ha in Hd. congruence.
Qed.

Lemma received_answered ops w req d : received (after ops) w req d → d = Deny ∨ answered ops req d.
Proof.
  revert w req d. induction ops as [|o ops IH] using rev_ind; intros w req d [id Hw]; [done|].
  rewrite after_app in Hw. destruct (step_effect policy (after ops) o (after_ok ops)) as [Hc _ _].
  destruct (Hc _ _ Hw) as [_ H]. destruct (H id d eq_refl) as [Hold|[->|[-> Hl]]]; [|by left|].
  - destruct (IH w req d) as [->|Ha]; [by exists id|by left|]. right. by apply answered_app.
  - right. by exists ops, [], id.
Qed.

Lemma trust_remembered ops k x : Forall op_ok ops →
  trust_entries (trust (after ops)) !! k = Some x → remembered ops k x.
Proof.
  revert k x. induction ops as [|o ops IH] using rev_ind; intros k x; [by left|].
  intros [Hops Ho]%Forall_app Hk. apply Forall_cons in Ho as [Ho _]. rewrite after_app in Hk.
  destruct (step_effect policy (after ops) o (after_ok ops)) as [_ Ht _].
  destruct (Ht _ _ Hk) as [H|[(req & Hcur & Hv & Hs & H)|(w & req & d & Hr & Hd & Hv & Hf)]].
  - by apply remembered_app, IH.
  - apply IH in H; [|done]. apply remembered_legacy in H; [|done..]. right. left.
    pose proof (current_did ops o req Hops Ho Hcur) as Hok. apply verified_did_Some in Hv as [Hv Hn].
    split; [by apply Hok|]. by rewrite Hn.
  - destruct (received_answered _ _ _ _ Hr) as [->|Ha]; [done|]. right. right. exists req, d.
    split; [by apply answered_app|done].
Qed.

Lemma because_justified ops o w req : Forall op_ok ops → op_ok o →
  because policy (after ops) o w req → justified (ops ++ [o]) w req.
Proof.
  intros Hops Ho [((w1 & w2 & now & ->) & Ha & Hp)|[[Ha Hcur]|(d & Hr & Hd)]].
  - left. exists ops, [], w1, w2, now. done.
  - right. left. unfold answer, verified_did in Ha. rewrite bound_did_idem in Ha. fold (verified_did req) in Ha.
    destruct (verified_did req) as [did|] eqn:Hv.
    + exists did. split; [done|]. apply remembered_app.
      destruct (trust_entries (trust (after ops)) !! (did, forward_key req)) as [x|] eqn:Hx.
      * injection Ha as ->. by apply trust_remembered.
      * destruct (starts_with "did:" (peer_id req)) eqn:Hs; [done|]. apply trust_remembered in Ha; [|done].
        apply remembered_legacy in Ha; [|done..]. right. left. cbn [fst snd].
        apply verified_did_Some in Hv as [Hv Hn]. rewrite Hn. split; [|done].
        by apply (current_did ops o req Hops Ho Hcur).
    + destruct (starts_with "did:" (peer_id req)); [done|]. by destruct (trust_entries _ !! _) as [[]|].
  - destruct (received_answered _ _ _ _ Hr) as [->|Ha]; [done|]. right. right. exists d. split; [by apply answered_app|done].
Qed.

Lemma outcomes_justified ops w req d : Forall op_ok ops →
  (w, req, d) ∈ outcomes (after ops) → is_allowed d = true → justified ops w req.
Proof.
  revert w req d. induction ops as [|o ops IH] using rev_ind; intros w req d; [intros _ H; by apply elem_of_nil in H|].
  intros [Hops Ho]%Forall_app Hin Ha. apply Forall_cons in Ho as [Ho _]. rewrite after_app in Hin.
  destruct (step_effect policy (after ops) o (after_ok ops)) as [_ _ Hout].
  destruct (Hout _ _ _ Hin) as [H|H]; [by eapply justified_app, IH|]. by apply because_justified; [..|apply H].
Qed.
End history.

(** C20. Every admission has a cause. Whatever requests arrive, whoever answers,
    leaves or times out, in any interleaving, and whether or not the writes of
    the trust store succeed: a call that returns an allow had it from the policy
    (for a verified DID, when nothing was remembered and no remote peer chose
    the target), from a remembered decision for the verified DID (of the file,
    or because a human said so for good about that DID and forward), or from a
    human who allowed a row that listed this very request. A peer without a
    verified DID is admitted only in the last way. *)
Theorem allow_justified {C : Crypto} policy t0 ops w req d :
  Forall op_ok ops → (w, req, d) ∈ outcomes (after policy t0 ops) → is_allowed d = true →
  justified policy t0 ops w req ∧
  (verified_did req = None → ∃ d', answered policy t0 ops req d' ∧ is_allowed d' = true).
Proof.
  intros Hops Hin Ha. pose proof (outcomes_justified policy t0 ops w req d Hops Hin Ha) as Hj. split; [done|].
  intros Hn. destruct Hj as [(pre & post & w1 & w2 & now & _ & _ & Hp)|[(did & Hv & _)|Hd]]; [|congruence|done].
  unfold policy_allows in Hp. by rewrite Hn in Hp.
Qed.

(** C18. Nobody waits for nothing, and nobody floods the queue. After any run
    at most 64 rows are parked, at most 8 of one peer, with distinct requests
    and distinct ids, and each has between 1 and 32 callers; a caller that waits
    is in the row of its own request, so the answer of a human reaches it, and
    the disconnect of its peer denies it; answering an id that is not listed
    does nothing; and once no call waits, no row is left. *)
Theorem queue_serves_all {C : Crypto} policy t0 ops :
  let s := after policy t0 ops in
  let rows := pending (queue s) in
  (zlen rows <= 64 ∧ NoDup (map fst rows) ∧ NoDup (map (λ row, request row.2) rows) ∧
   (∀ peer, zlen (List.filter (λ row, bool_decide (peer_id (request row.2) = peer)) rows) <= 8) ∧
   ∀ id item, (id, item) ∈ rows → 1 <= zlen (responders item) <= 32 ∧ NoDup (responders item)) ∧
  (∀ w req id, calls s !! w = Some {| call_request := req; call_state := Waiting id None |} →
     (id, req) ∈ listed (queue s) ∧
     (∀ d, calls (resolve s id d).1 !! w = Some {| call_request := req; call_state := Waiting id (Some d) |}) ∧
     calls (purge_peer s (peer_id req)).1 !! w = Some {| call_request := req; call_state := Waiting id (Some Deny) |}) ∧
  (∀ id d, (∀ req, (id, req) ∉ listed (queue s)) → resolve s id d = (s, false)) ∧
  ((∀ w c, calls s !! w = Some c → call_state c = Asking) → rows = []).
Proof.
  cbv zeta. pose proof (after_ok policy t0 ops) as Hs. set (s := after policy t0 ops) in *.
  pose proof Hs as [Hq Hl]. pose proof Hq as [Hsort _ Hreq Htot Hpeer Hwait]. pose proof Hl as [Hrows Hcalls].
  split; [|split; [|split]].
  - split_and!; [done|by apply ids_nodup|done|done|]. intros id item Hin.
    destruct (row_waiters _ _ _ Hq Hin) as (Hne & Hnd & Hmax). unfold MAX_WAITERS_PER_REQUEST in Hmax.
    split; [|done]. split; [|done]. destruct (responders item); [done|]. unfold zlen. cbn [length]. lia.
  - intros w req id Hw. destruct (Hcalls _ _ _ Hw) as (item & Hin & Hr & <-). split_and!.
    + by apply (list_elem_of_fmap_2 (λ row : Z * PendingItem, (row.1, request row.2)) _ (id, item)).
    + intros d. pose proof (resolve_spec s id d Hs) as Hres. destruct (get_row id _) as [x|] eqn:Hg.
      * destruct Hres as (_ & _ & -> & _). rewrite send_all, Hw. apply get_row_Some in Hg.
        by rewrite (row_unique _ _ _ _ Hq Hg Hin), bool_decide_true.
      * by destruct (get_row_None _ _ item Hg).
    + unfold purge_peer, purge. cbn [calls with_calls with_queue fst]. rewrite answer_items, send_all, Hw.
      rewrite bool_decide_true; [done|]. rewrite list_elem_of_In, in_concat. exists (responders item).
      rewrite <-!list_elem_of_In. split; [|done]. rewrite map_map.
      apply (list_elem_of_fmap_2 (λ row : Z * PendingItem, responders row.2) _ (id, item)).
      apply elem_of_List_filter. by rewrite bool_decide_true.
  - intros id d Hn. pose proof (resolve_spec s id d Hs) as Hres. destruct (get_row id _) as [x|] eqn:Hg; [|done].
    apply get_row_Some in Hg. destruct (Hn (request x)).
    by apply (list_elem_of_fmap_2 (λ row : Z * PendingItem, (row.1, request row.2)) _ (id, x)).
  - intros Hask. destruct (pending (queue s)) as [|[id item] rows] eqn:E; [done|].
    assert (Hin : (id, item) ∈ pending (queue s)) by (rewrite E; by left).
    destruct (listed_call s id (request item) Hs) as (w & st & Hw).
    { by apply (list_elem_of_fmap_2 (λ row : Z * PendingItem, (row.1, request row.2)) _ (id, item)). }
    destruct (row_waiters _ _ _ Hq Hin) as (Hne & _). destruct (responders item) as [|v ws] eqn:Er; [done|].
    rewrite <-E in Hrows. destruct (Hrows id item v Hin) as (st' & Hv & Hst); [rewrite Er; by left|].
    apply Hask in Hv. cbn in Hv. subst. naive_solver.
Qed.

(** A decision whose write fails is reported as one-off, but stays in memory. *)
Lemma failed_write_still_trusts {C : Crypto} t peer did key x :
  bound_did peer did ≠ None →
  let '(t', r) := remember_for t peer did key x false in
  r = Err "writing the trust store" ∧ answer (trust_entries t') peer did key = Some x ∧ trust_file t' = trust_file t.
Proof.
  intros Hb. unfold remember_for, remember, persist, answer. destruct (bound_did peer did) as [d|]; [|done].
  cbn. split_and!; [done| |done]. by rewrite lookup_insert_eq.
Qed.

(** ** A concrete run *)

Definition stranger : AuthRequest :=
  {| peer_id := "a stranger"; forward_key := "web"; target_addr := "127.0.0.1:80"; request_proto := "tcp"; request_did := None |}.
Definition open_policy : Policy := {| auto_accept := true; allow_peers := ∅ |}.
Definition asked : list Op :=
  [OArrive 7 stranger false true true 1; OBegin 7 true true 2; OResolve 1 AllowAlways; OReceive 7 true 3].

Lemma allow_justified_witness :
  outcomes (after (C := Toy.crypto) open_policy (load None) asked) = [(7, stranger, Allow)] ∧
  ∃ d', answered (C := Toy.crypto) open_policy (load None) asked stranger d' ∧ is_allowed d' = true.
Proof.
  assert (Ho : outcomes (after (C := Toy.crypto) open_policy (load None) asked) = [(7, stranger, Allow)])
    by (vm_compute; reflexivity).
  split; [exact Ho|].
  refine (proj2 (allow_justified (C := Toy.crypto) open_policy (load None) asked 7 stranger Allow _ _ eq_refl) eq_refl).
  - repeat constructor. intros d [=].
  - rewrite Ho. left.
Defined.

(** Two connections for the same target share a row; the disconnect answers both. *)
Example purge_denies_both :
  outcomes (after (C := Toy.crypto) open_policy (load None)
    [OArrive 1 stranger false true true 0; OBegin 1 true true 0; OArrive 2 stranger false true true 0;
     OBegin 2 true true 0; OPurge "a stranger"; OReceive 1 true 1; OReceive 2 true 1])
  = [(1, stranger, Deny); (2, stranger, Deny)].
Proof. vm_compute. reflexivity. Qed.
