(* ===== verification/TunnelNegotiation.v ===== *)
(** * Forward negotiation

    [src/src/tunnel/negotiation.rs]: the proposals of peers that wait for an
    answer, the proposals this node sent, and their outcomes. The maps are
    [BTreeMap]s: the incoming proposals are kept in the order of their ids, the
    outgoing ones are listed by request id. *)
From S2P Require Import Prelude.

Definition MAX_INCOMING_PER_PEER : Z := 32.
Definition MAX_INCOMING_TOTAL : Z := 128.
Definition INCOMING_TTL : Z := 5 * 60 * SECOND.
Definition OUTGOING_TTL : Z := 5 * 60 * SECOND.
Definition REASON_TIMEOUT : string := "no answer from the peer (timed out)".
Definition REASON_PEER_LEFT : string := "peer disconnected".
Definition MAX_OUTGOING : Z := 64.

Record IncomingForward := {
  in_id : Z; in_req_id : string; in_peer : string; in_proto : string; in_remote_addr : string; in_target : string;
}.
Record OutgoingForward := {
  out_req_id : string; sent_at_ms : Z; out_peer : string; out_proto : string; listen_port : Z;
  out_local_addr : string; out_remote_addr : string; out_target : string;
}.
Record ForwardOutcome := { outgoing_of : OutgoingForward; accepted : bool; reason : option string }.

Record Inner := {
  next_id : Z; incoming : list IncomingForward; incoming_at : gmap Z Z;
  outgoing : gmap string OutgoingForward; outgoing_at : gmap string Z; outcomes : list ForwardOutcome;
}.
Definition new : Inner :=
  {| next_id := 0; incoming := []; incoming_at := ∅; outgoing := ∅; outgoing_at := ∅; outcomes := [] |}.

Definition set_incoming (n : Inner) (l : list IncomingForward) (at_ : gmap Z Z) : Inner :=
  {| next_id := next_id n; incoming := l; incoming_at := at_; outgoing := outgoing n; outgoing_at := outgoing_at n;
     outcomes := outcomes n |}.
Definition set_outgoing (n : Inner) (m : gmap string OutgoingForward) (at_ : gmap string Z)
    (os : list ForwardOutcome) : Inner :=
  {| next_id := next_id n; incoming := incoming n; incoming_at := incoming_at n; outgoing := m; outgoing_at := at_;
     outcomes := os |}.

(** The proposals older than the limit are swept. *)
Definition expired (n : Inner) (now : Z) (id : Z) : bool :=
  match incoming_at n !! id with Some t => INCOMING_TTL <? since now t | None => false end.
Definition sweep (n : Inner) (now : Z) : Inner :=
  set_incoming n (List.filter (λ f, negb (expired n now (in_id f))) (incoming n))
    (filter (λ p, expired n now p.1 = false) (incoming_at n)).

Definition proposal_of (peer req_id : string) (f : IncomingForward) : bool :=
  bool_decide (in_peer f = peer) && bool_decide (in_req_id f = req_id).

Definition record_incoming (n : Inner) (req_id peer proto remote_addr target : string) (now : Z)
    : Inner * option Z :=
  let n := sweep n now in
  match List.find (proposal_of peer req_id) (incoming n) with
  | Some existing => (n, Some (in_id existing))
  | None =>
      let from_peer := zlen (List.filter (λ f, bool_decide (in_peer f = peer)) (incoming n)) in
      if (MAX_INCOMING_PER_PEER <=? from_peer) || (MAX_INCOMING_TOTAL <=? zlen (incoming n)) then (n, None) else
      let id := next_id n + 1 in
      ({| next_id := id;
          incoming := incoming n ++ [{| in_id := id; in_req_id := req_id; in_peer := peer; in_proto := proto;
                                        in_remote_addr := remote_addr; in_target := target |}];
          incoming_at := <[id := now]> (incoming_at n); outgoing := outgoing n; outgoing_at := outgoing_at n;
          outcomes := outcomes n |}, Some id)
  end.

Definition list_incoming (n : Inner) : list IncomingForward := incoming n.

Definition take_incoming (n : Inner) (id : Z) : Inner * option IncomingForward :=
  (set_incoming n (List.filter (λ f, negb (in_id f =? id)) (incoming n)) (delete id (incoming_at n)),
   List.find (λ f, in_id f =? id) (incoming n)).

Definition cancel_incoming (n : Inner) (peer req_id : string) : Inner * bool :=
  match List.find (proposal_of peer req_id) (incoming n) with
  | None => (n, false)
  | Some f => ((take_incoming n (in_id f)).1, true)
  end.

Definition record_outgoing (n : Inner) (req_id : string) (o : OutgoingForward) (now now_ms : Z) : Inner * bool :=
  if MAX_OUTGOING <=? zsize (outgoing n) then (n, false) else
  let o := {| out_req_id := req_id; sent_at_ms := now_ms; out_peer := out_peer o; out_proto := out_proto o;
              listen_port := listen_port o; out_local_addr := out_local_addr o;
              out_remote_addr := out_remote_addr o; out_target := out_target o |} in
  (set_outgoing n (<[req_id := o]> (outgoing n)) (<[req_id := now]> (outgoing_at n)) (outcomes n), true).

Definition list_outgoing (n : Inner) : list OutgoingForward := omap (λ k, outgoing n !! k) (sorted_keys (outgoing n)).

Definition remove_outgoing (n : Inner) (req_id : string) : Inner * option OutgoingForward :=
  (set_outgoing n (delete req_id (outgoing n)) (delete req_id (outgoing_at n)) (outcomes n), outgoing n !! req_id).
Definition cancel_outgoing := remove_outgoing.

Definition record_response (n : Inner) (req_id from : string) (yes : bool) : Inner :=
  match outgoing n !! req_id with
  | None => n
  | Some o =>
      if negb (bool_decide (out_peer o = from)) then n else
      set_outgoing n (delete req_id (outgoing n)) (delete req_id (outgoing_at n))
        (outcomes n ++ [{| outgoing_of := o; accepted := yes; reason := None |}])
  end.

(** One proposal that nobody answers any more. *)
Definition fail_outgoing (why : string) (n : Inner) (req_id : string) : Inner :=
  set_outgoing n (delete req_id (outgoing n)) (delete req_id (outgoing_at n))
    (match outgoing n !! req_id with
     | Some o => outcomes n ++ [{| outgoing_of := o; accepted := false; reason := Some why |}]
     | None => outcomes n
     end).

Definition stale (n : Inner) (now : Z) : list string :=
  List.filter (λ k, match outgoing_at n !! k with Some t => OUTGOING_TTL <? since now t | None => false end)
    (sorted_keys (outgoing_at n)).

Definition drain_outcomes (n : Inner) (now : Z) : Inner * list ForwardOutcome :=
  let n := foldl (fail_outgoing REASON_TIMEOUT) n (stale n now) in
  (set_outgoing n (outgoing n) (outgoing_at n) [], outcomes n).

Definition addressed_to (n : Inner) (peer : string) : list string :=
  List.filter (λ k, match outgoing n !! k with Some o => bool_decide (out_peer o = peer) | None => false end)
    (sorted_keys (outgoing n)).

Definition purge_peer (n : Inner) (peer : string) : Inner * (Z * Z) :=
  let kept := List.filter (λ f, negb (bool_decide (in_peer f = peer))) (incoming n) in
  let removed := zlen (incoming n) - zlen kept in
  let n := set_incoming n kept (filter (λ p, p.1 ∈ map in_id kept) (incoming_at n)) in
  let gone := addressed_to n peer in
  (foldl (fail_outgoing REASON_PEER_LEFT) n gone, (removed, zlen gone)).

Inductive Op :=
  | RecordIncoming (req_id peer proto remote_addr target : string) (now : Z)
  | TakeIncoming (id : Z)
  | CancelIncoming (peer req_id : string)
  | RecordOutgoing (req_id : string) (o : OutgoingForward) (now now_ms : Z)
  | CancelOutgoing (req_id : string)
  | RecordResponse (req_id from : string) (yes : bool)
  | Drain (now : Z)
  | Purge (peer : string).

Definition step (n : Inner) (o : Op) : Inner :=
  match o with
  | RecordIncoming r p pr ra t now => (record_incoming n r p pr ra t now).1
  | TakeIncoming id => (take_incoming n id).1
  | CancelIncoming p r => (cancel_incoming n p r).1
  | RecordOutgoing r o now ms => (record_outgoing n r o now ms).1
  | CancelOutgoing r => (cancel_outgoing n r).1
  | RecordResponse r f y => record_response n r f y
  | Drain now => (drain_outcomes n now).1
  | Purge p => (purge_peer n p).1
  end.

(** A run, with the outcomes handed to the session, the proposals sent and
    those the user withdrew. *)
Record Ledger := { node : Inner; delivered : list ForwardOutcome; sent : list string; withdrawn : list string }.

Definition ledger_step (l : Ledger) (o : Op) : Ledger :=
  {| node := step (node l) o;
     delivered := delivered l ++ (match o with Drain now => (drain_outcomes (node l) now).2 | _ => [] end);
     sent := sent l ++ (match o with
       | RecordOutgoing r out now ms => if (record_outgoing (node l) r out now ms).2 then [r] else []
       | _ => [] end);
     withdrawn := withdrawn l ++ (match o with
       | CancelOutgoing r => if is_some (cancel_outgoing (node l) r).2 then [r] else []
       | _ => [] end) |}.

Definition run (ops : list Op) : Ledger :=
  foldl ledger_step {| node := new; delivered := []; sent := []; withdrawn := [] |} ops.

Definition outcome_id (oc : ForwardOutcome) : string := out_req_id (outgoing_of oc).
Definition settled (l : Ledger) : list string := map outcome_id (delivered l ++ outcomes (node l)).

(** The ids of the proposals the session sends. *)
Definition requested (o : Op) : option string := match o with RecordOutgoing r _ _ _ => Some r | _ => None end.

(** ** Incoming proposals *)

Record incoming_ok (n : Inner) : Prop := {
  in_sorted : StronglySorted Z.lt (map in_id (incoming n));
  in_below : Forall (λ f, in_id f <= next_id n) (incoming n);
  in_distinct : NoDup (map (λ f, (in_peer f, in_req_id f)) (incoming n));
  in_total : zlen (incoming n) <= MAX_INCOMING_TOTAL;
  in_peers : ∀ peer, zlen (List.filter (λ f, bool_decide (in_peer f = peer)) (incoming n)) <= MAX_INCOMING_PER_PEER;
  in_timed : ∀ id, is_Some (incoming_at n !! id) ↔ id ∈ map in_id (incoming n);
}.

Lemma StronglySorted_map_filter (f : IncomingForward → bool) l :
  StronglySorted Z.lt (map in_id l) → StronglySorted Z.lt (map in_id (List.filter f l)).
Proof.
  induction l as [|x l IH]; [done|]. intros [Hl Hx]%StronglySorted_inv. simpl. destruct (f x); [|auto].
  simpl. constructor; [auto|]. rewrite Forall_forall in *. intros i (y & -> & [Hy _]%elem_of_List_filter)%list_elem_of_fmap.
  apply Hx. by apply list_elem_of_fmap_2.
Qed.

Lemma incoming_ok_filter n f at_ :
  incoming_ok n → (∀ id, is_Some (at_ !! id) ↔ id ∈ map in_id (List.filter f (incoming n))) →
  incoming_ok (set_incoming n (List.filter f (incoming n)) at_).
Proof.
  intros [Hs Hb Hd Ht Hp _] Hat. split; cbn [incoming incoming_at next_id set_incoming].
  - by apply StronglySorted_map_filter.
  - rewrite Forall_forall in *. intros x [Hx _]%elem_of_List_filter. auto.
  - by apply NoDup_map_filter.
  - etrans; [apply filter_zlen|done].
  - intros peer. rewrite List_filter_comm. etrans; [apply filter_zlen|apply Hp].
  - done.
Qed.

Lemma in_id_unique n f g : incoming_ok n → f ∈ incoming n → g ∈ incoming n → in_id f = in_id g → f = g.
Proof.
  intros [Hs _ _ _ _ _] Hf Hg He. apply list_elem_of_lookup in Hf as [i Hi], Hg as [j Hj].
  assert (Hnd : NoDup (map in_id (incoming n))).
  { clear -Hs. induction Hs as [|x l _ IH Hx]; [constructor|]. constructor; [|done]. intros Hin.
    rewrite Forall_forall in Hx. specialize (Hx x Hin). lia. }
  assert (i = j) as <-; [|congruence].
  eapply NoDup_lookup; [exact Hnd| |]; rewrite list_lookup_fmap; [by rewrite Hi|rewrite Hj; simpl; by rewrite He].
Qed.

Lemma elem_of_ids_filter n (g : Z → bool) id :
  id ∈ map in_id (List.filter (λ f, g (in_id f)) (incoming n)) ↔ id ∈ map in_id (incoming n) ∧ g id = true.
Proof.
  rewrite !list_elem_of_fmap. setoid_rewrite elem_of_List_filter. naive_solver.
Qed.

Lemma sweep_ok n now : incoming_ok n → incoming_ok (sweep n now).
Proof.
  intros Hn. apply incoming_ok_filter; [done|]. intros id. destruct Hn as [_ _ _ _ _ Hat].
  rewrite (elem_of_ids_filter n (λ id, negb (expired n now id))), <-Hat. unfold is_Some.
  setoid_rewrite map_lookup_filter_Some. cbn [fst]. rewrite negb_true_iff. naive_solver.
Qed.

Lemma take_ok n id : incoming_ok n → incoming_ok (take_incoming n id).1.
Proof.
  intros Hn. apply incoming_ok_filter; [done|]. intros i. destruct Hn as [_ _ _ _ _ Hat].
  rewrite (elem_of_ids_filter n (λ i, negb (i =? id))), <-Hat. destruct (Z.eqb_spec i id) as [->|Hne].
  - rewrite lookup_delete_eq. split; [by intros [? ?]|by intros [_ ?]].
  - rewrite lookup_delete_ne by done. naive_solver.
Qed.

Lemma record_incoming_ok n r p pr ra t now :
  incoming_ok n → incoming_ok (record_incoming n r p pr ra t now).1.
Proof.
  intros Hn. apply (sweep_ok n now) in Hn. unfold record_incoming. set (m := sweep n now) in *.
  destruct (List.find (proposal_of p r) (incoming m)) as [f|] eqn:Hf; [done|].
  case_if; [done|]. bools. destruct Hn as [Hs Hb Hd Ht Hp Hat]. cbn [fst].
  split; cbn [incoming incoming_at next_id]; rewrite ?map_app.
  - apply StronglySorted_app. split_and!; [|done|by repeat constructor].
    intros x y (f & -> & Hx)%list_elem_of_fmap ->%list_elem_of_singleton. rewrite Forall_forall in Hb.
    specialize (Hb f Hx). cbn [in_id]. lia.
  - apply Forall_app. split; [|by repeat constructor]. eapply Forall_impl; [exact Hb|]. cbv beta. intros f. lia.
  - apply NoDup_app. split_and!; [done| |apply NoDup_singleton].
    intros x (f & -> & Hx)%list_elem_of_fmap [= Hq Hr]%list_elem_of_singleton.
    pose proof (find_none_elem _ _ Hf f Hx) as Hnone. unfold proposal_of in Hnone.
    by rewrite !bool_decide_true in Hnone.
  - rewrite zlen_app. change (zlen [_]) with 1. lia.
  - intros peer. rewrite List.filter_app, zlen_app. specialize (Hp peer). cbn [List.filter in_peer].
    case_bool_decide; [subst; change (zlen [_]) with 1; lia|change (zlen []) with 0; lia].
  - intros id. cbn [map in_id]. rewrite elem_of_app, list_elem_of_singleton, <-Hat.
    destruct (decide (id = next_id m + 1)) as [->|Hne]; [rewrite lookup_insert_eq; naive_solver|].
    rewrite lookup_insert_ne by done. naive_solver.
Qed.

Lemma fail_incoming why n r :
  incoming (fail_outgoing why n r) = incoming n ∧ incoming_at (fail_outgoing why n r) = incoming_at n ∧
  next_id (fail_outgoing why n r) = next_id n.
Proof. done. Qed.

Lemma fail_all_incoming why rs n : incoming_ok n → incoming_ok (foldl (fail_outgoing why) n rs).
Proof. revert n. induction rs as [|r rs IH]; intros n Hn; [done|]. apply IH. by destruct Hn; split. Qed.

Lemma step_incoming_ok n o : incoming_ok n → incoming_ok (step n o).
Proof.
  intros Hn. destruct o as [r p pr ra t now|id|p r|r out now ms|r|r f y|now|p]; cbn [step].
  - by apply record_incoming_ok.
  - by apply take_ok.
  - unfold cancel_incoming. destruct (List.find _ _); [by apply take_ok|done].
  - unfold record_outgoing. case_if; [done|]. by destruct Hn; split.
  - by destruct Hn; split.
  - unfold record_response. destruct (outgoing n !! r); [|done]. case_if; [done|]. by destruct Hn; split.
  - unfold drain_outcomes. cbn [fst]. by destruct (fail_all_incoming REASON_TIMEOUT (stale n now) n Hn); split.
  - unfold purge_peer. cbn [fst]. apply fail_all_incoming. apply incoming_ok_filter; [done|]. intros id.
    destruct Hn as [_ _ _ _ _ Hat]. unfold is_Some. setoid_rewrite map_lookup_filter_Some. cbn [fst]. split.
    + by intros (x & _ & Hin).
    + intros Hin. assert (Hid : id ∈ map in_id (incoming n)).
      { apply list_elem_of_fmap in Hin as (f & -> & [Hf _]%elem_of_List_filter). by apply list_elem_of_fmap_2. }
      apply Hat in Hid as [x Hx]. by exists x.
Qed.

(** ** Outgoing proposals *)

(** What the ledger says of the proposals of a state: [ds] are the outcomes
    handed over, [st] the proposals sent, [wd] those withdrawn. *)
Record ledger_ok (n : Inner) (ds : list ForwardOutcome) (st wd : list string) : Prop := {
  out_ids : ∀ r o, outgoing n !! r = Some o → out_req_id o = r ∧ r ∈ st;
  out_timed : ∀ r, is_Some (outgoing_at n !! r) ↔ is_Some (outgoing n !! r);
  out_bounded : zsize (outgoing n) <= MAX_OUTGOING;
  settled_once : NoDup (map outcome_id (ds ++ outcomes n) ++ wd);
  settled_gone : ∀ r, r ∈ map outcome_id (ds ++ outcomes n) ++ wd → outgoing n !! r = None ∧ r ∈ st;
  sent_known : ∀ r, r ∈ st → is_Some (outgoing n !! r) ∨ r ∈ map outcome_id (ds ++ outcomes n) ++ wd;
}.

(** A pending proposal is settled. *)
Lemma ledger_settle n ds st wd r o oc :
  ledger_ok n ds st wd → outgoing n !! r = Some o → outgoing_of oc = o →
  ledger_ok (set_outgoing n (delete r (outgoing n)) (delete r (outgoing_at n)) (outcomes n ++ [oc])) ds st wd.
Proof.
  intros [Hid Hat Hb Hnd Hgone Hsent] Hr <-. destruct (Hid _ _ Hr) as [Hoc Hst].
  assert (Hp : map outcome_id (ds ++ outcomes n ++ [oc]) ++ wd ≡ₚ r :: map outcome_id (ds ++ outcomes n) ++ wd).
  { rewrite !map_app. cbn [map]. unfold outcome_id at 3. rewrite Hoc. solve_Permutation. }
  split; cbn [outgoing outgoing_at outcomes set_outgoing].
  - intros k x [_ H]%lookup_delete_Some. auto.
  - intros k. destruct (decide (k = r)) as [->|Hne]; [by rewrite !lookup_delete_eq|by rewrite !lookup_delete_ne].
  - unfold zsize in *. rewrite map_size_delete, Hr. simpl. lia.
  - rewrite Hp. apply NoDup_cons. split; [|done]. intros H. apply Hgone in H as [H _]. congruence.
  - intros k. rewrite Hp. intros [->|H]%elem_of_cons; [by rewrite lookup_delete_eq|].
    apply Hgone in H as [H1 H2]. split; [|done]. apply lookup_delete_None. by right.
  - intros k Hk. rewrite Hp. destruct (decide (k = r)) as [->|Hne]; [right; by left|].
    rewrite lookup_delete_ne by done. destruct (Hsent k Hk); [by left|right; by right].
Qed.

Lemma ledger_fail n ds st wd why r : ledger_ok n ds st wd → ledger_ok (fail_outgoing why n r) ds st wd.
Proof.
  intros Hl. unfold fail_outgoing. destruct (outgoing n !! r) as [o|] eqn:Hr; [by eapply ledger_settle|].
  assert (Hr' : outgoing_at n !! r = None).
  { destruct Hl as [_ Hat _ _ _ _]. destruct (outgoing_at n !! r) eqn:E; [|done].
    assert (H : is_Some (outgoing n !! r)) by (apply Hat; eauto). rewrite Hr in H. by destruct H. }
  rewrite !delete_id by done. by destruct n.
Qed.

Lemma ledger_fails n ds st wd why rs : ledger_ok n ds st wd → ledger_ok (foldl (fail_outgoing why) n rs) ds st wd.
Proof. revert n. induction rs as [|r rs IH]; intros n Hl; [done|]. by apply IH, ledger_fail. Qed.

Lemma ledger_same n m ds st wd : outgoing m = outgoing n → outgoing_at m = outgoing_at n → outcomes m = outcomes n →
  ledger_ok n ds st wd → ledger_ok m ds st wd.
Proof. intros H1 H2 H3 [Hid Hat Hb Hnd Hgone Hsent]. split; rewrite ?H1, ?H2, ?H3; done. Qed.

Lemma ledger_step_ok l o :
  (∀ r, requested o = Some r → r ∉ sent l) →
  ledger_ok (node l) (delivered l) (sent l) (withdrawn l) →
  ledger_ok (node (ledger_step l o)) (delivered (ledger_step l o)) (sent (ledger_step l o)) (withdrawn (ledger_step l o)).
Proof.
  destruct l as [n ds st wd]. cbn [node delivered sent withdrawn]. intros Hfresh Hl.
  unfold ledger_step. cbn [node delivered sent withdrawn].
  destruct o as [r p pr ra t now|id|p r|r out now ms|r|r f y|now|p]; cbn [step]; rewrite ?app_nil_r.
  - eapply ledger_same; [..|exact Hl]; unfold record_incoming; destruct (List.find _ _); try done; by case_if.
  - by eapply ledger_same; [..|exact Hl].
  - eapply ledger_same; [..|exact Hl]; unfold cancel_incoming; by destruct (List.find _ _).
  - unfold record_outgoing. destruct (MAX_OUTGOING <=? zsize (outgoing n)) eqn:Hmax; [by rewrite app_nil_r|].
    apply Z.leb_gt in Hmax. cbn [fst snd]. specialize (Hfresh r eq_refl).
    destruct Hl as [Hid Hat Hb Hnd Hgone Hsent]. split; cbn [outgoing outgoing_at outcomes set_outgoing].
    + intros k x [[<- <-]|[_ H]]%lookup_insert_Some.
      * split; [done|]. apply elem_of_app. right. by left.
      * apply Hid in H as [? ?]. split; [done|]. apply elem_of_app. by left.
    + intros k. destruct (decide (k = r)) as [->|Hne]; [by rewrite !lookup_insert_eq|by rewrite !lookup_insert_ne].
    + etrans; [apply zsize_insert_le|lia].
    + done.
    + intros k Hk. apply Hgone in Hk as [H1 H2]. split; [|apply elem_of_app; by left].
      rewrite lookup_insert_ne; [done|]. by intros ->.
    + intros k [Hk| ->%list_elem_of_singleton]%elem_of_app; [|left; by rewrite lookup_insert_eq].
      destruct (Hsent k Hk) as [H|H]; [|by right]. left. rewrite lookup_insert_ne; [done|]. by intros ->.
  - unfold cancel_outgoing, remove_outgoing. cbn [fst snd]. destruct (outgoing n !! r) as [o|] eqn:Hr; cbn [is_some].
    + destruct Hl as [Hid Hat Hb Hnd Hgone Hsent]. destruct (Hid _ _ Hr) as [_ Hst].
      split; cbn [outgoing outgoing_at outcomes set_outgoing].
      * intros k x [_ H]%lookup_delete_Some. auto.
      * intros k. destruct (decide (k = r)) as [->|Hne]; [by rewrite !lookup_delete_eq|by rewrite !lookup_delete_ne].
      * unfold zsize in *. rewrite map_size_delete, Hr. simpl. lia.
      * rewrite app_assoc. apply NoDup_app. split_and!; [done| |apply NoDup_singleton].
        intros k Hk ->%list_elem_of_singleton. apply Hgone in Hk as [Hk _]. congruence.
      * intros k. rewrite app_assoc. intros [Hk| ->%list_elem_of_singleton]%elem_of_app.
        -- apply Hgone in Hk as [H1 H2]. split; [|done]. apply lookup_delete_None. by right.
        -- by rewrite lookup_delete_eq.
      * intros k Hk. rewrite app_assoc, elem_of_app, list_elem_of_singleton.
        destruct (decide (k = r)) as [->|Hne]; [by auto|]. rewrite lookup_delete_ne by done.
        destruct (Hsent k Hk); auto.
    + rewrite app_nil_r. pose proof (ledger_fail n ds st wd REASON_TIMEOUT r Hl) as Hf.
      unfold fail_outgoing in Hf. by rewrite Hr in Hf.
  - unfold record_response. destruct (outgoing n !! r) as [o|] eqn:Hr; [|done]. case_if; [done|].
    by eapply ledger_settle.
  - pose proof (ledger_fails n ds st wd REASON_TIMEOUT (stale n now) Hl) as Hf. unfold drain_outcomes. cbn [fst snd].
    destruct Hf as [Hid Hat Hb Hnd Hgone Hsent]. by split; cbn [outgoing outgoing_at outcomes set_outgoing]; rewrite ?app_nil_r.
  - apply ledger_fails. by eapply ledger_same; [..|exact Hl].
Qed.

(** Where the pending proposals and the outcomes of a run come from. *)
Definition was_sent (ops : list Op) (r peer : string) : Prop :=
  ∃ o now ms, RecordOutgoing r o now ms ∈ ops ∧ out_peer o = peer.

Definition honest (ops : list Op) (oc : ForwardOutcome) : Prop :=
  was_sent ops (outcome_id oc) (out_peer (outgoing_of oc)) ∧
  match reason oc with
  | None => RecordResponse (outcome_id oc) (out_peer (outgoing_of oc)) (accepted oc) ∈ ops
  | Some _ => accepted oc = false
  end.

Record origin_ok (ops : list Op) (n : Inner) (ds : list ForwardOutcome) : Prop := {
  pending_sent : ∀ r o, outgoing n !! r = Some o → out_req_id o = r ∧ was_sent ops r (out_peer o);
  outcomes_honest : ∀ oc, oc ∈ ds ++ outcomes n → honest ops oc;
}.

Lemma was_sent_app ops o r p : was_sent ops r p → was_sent (ops ++ [o]) r p.
Proof. intros (x & now & ms & H & ?). exists x, now, ms. split; [apply elem_of_app; by left|done]. Qed.

Lemma origin_app ops o n ds : origin_ok ops n ds → origin_ok (ops ++ [o]) n ds.
Proof.
  intros [H1 H2]. split.
  - intros r x Hx. apply H1 in Hx as [? ?]. split; [done|by apply was_sent_app].
  - intros oc Hoc. apply H2 in Hoc as [Hs Hr]. split; [by apply was_sent_app|].
    destruct (reason oc); [done|apply elem_of_app; by left].
Qed.

Lemma origin_settle ops n ds r oc at_ : origin_ok ops n ds → honest ops oc →
  origin_ok ops (set_outgoing n (delete r (outgoing n)) at_ (outcomes n ++ [oc])) ds.
Proof.
  intros [H1 H2] Hoc. split; cbn [outgoing outcomes set_outgoing].
  - intros k x [_ Hx]%lookup_delete_Some. auto.
  - intros x. rewrite app_assoc. intros [Hx| ->%list_elem_of_singleton]%elem_of_app; auto.
Qed.

Lemma origin_fails ops n ds why rs : origin_ok ops n ds → origin_ok ops (foldl (fail_outgoing why) n rs) ds.
Proof.
  revert n. induction rs as [|r rs IH]; intros n Hn; [done|]. apply IH. unfold fail_outgoing.
  destruct (outgoing n !! r) as [o|] eqn:Hr.
  - apply origin_settle; [done|]. destruct Hn as [H1 _]. apply H1 in Hr as [Hid Hs]. split; [|done].
    unfold outcome_id. cbn [outgoing_of]. by rewrite Hid.
  - destruct Hn as [H1 H2]. split; [|done]. cbn [outgoing set_outgoing]. intros k x [_ Hx]%lookup_delete_Some. auto.
Qed.

Lemma origin_step ops l o : origin_ok ops (node l) (delivered l) →
  origin_ok (ops ++ [o]) (node (ledger_step l o)) (delivered (ledger_step l o)).
Proof.
  intros Hl. apply (origin_app ops o) in Hl. assert (Ho : o ∈ ops ++ [o]) by (apply elem_of_app; right; by left).
  revert Hl Ho. generalize (ops ++ [o]). clear ops. intros ops Hl Ho.
  assert (Hsame : ∀ m, outgoing m = outgoing (node l) → outcomes m = outcomes (node l) → origin_ok ops m (delivered l)).
  { intros m H1 H2. destruct Hl as [H3 H4]. split; rewrite ?H1, ?H2; done. }
  destruct l as [n ds st wd]. unfold ledger_step. cbn [node delivered] in *.
  destruct o as [r p pr ra t now|id|p r|r out now ms|r|r f y|now|p]; cbn [step]; rewrite ?app_nil_r.
  - apply Hsame; unfold record_incoming; destruct (List.find _ _); try done; by case_if.
  - by apply Hsame.
  - apply Hsame; unfold cancel_incoming; by destruct (List.find _ _).
  - unfold record_outgoing. case_if; [done|]. destruct Hl as [H1 H2]. split; [|done]. cbn [outgoing set_outgoing fst].
    intros k x [[<- <-]|[_ Hx]]%lookup_insert_Some; [|auto]. split; [done|]. by exists out, now, ms.
  - destruct Hl as [H1 H2]. split; [|done]. unfold cancel_outgoing, remove_outgoing.
    cbn [outgoing set_outgoing fst]. intros k x [_ Hx]%lookup_delete_Some. auto.
  - unfold record_response. destruct (outgoing n !! r) as [o|] eqn:Hr; [|done].
    destruct (bool_decide (out_peer o = f)) eqn:Hf; [|done]. bools. cbn [negb]. apply origin_settle; [done|].
    destruct Hl as [H1 _]. apply H1 in Hr as [Hid Hs]. unfold honest, outcome_id. cbn [outgoing_of reason accepted].
    rewrite Hid. by subst f.
  - pose proof (origin_fails ops n ds REASON_TIMEOUT (stale n now) Hl) as [H1 H2]. unfold drain_outcomes. cbn [fst snd].
    split; cbn [outgoing outcomes set_outgoing]; [done|by rewrite app_nil_r].
  - apply origin_fails. by apply Hsame.
Qed.

Lemma fails_lookup why rs n r :
  outgoing (foldl (fail_outgoing why) n rs) !! r = if bool_decide (r ∈ rs) then None else outgoing n !! r.
Proof.
  revert n. induction rs as [|k rs IH]; intros n; [done|]. cbn [foldl]. rewrite IH. cbn [fail_outgoing outgoing set_outgoing].
  destruct (decide (r = k)) as [->|Hne].
  - rewrite (bool_decide_true (k ∈ k :: rs)) by (by left). rewrite lookup_delete_eq. by case_bool_decide.
  - rewrite lookup_delete_ne by done. rewrite (bool_decide_ext (r ∈ k :: rs) (r ∈ rs)); [done|].
    rewrite elem_of_cons. tauto.
Qed.

Lemma run_app ops o : run (ops ++ [o]) = ledger_step (run ops) o.
Proof. unfold run. by rewrite foldl_app. Qed.

Lemma run_incoming ops : incoming_ok (node (run ops)).
Proof.
  induction ops as [|o ops IH] using rev_ind; [|rewrite run_app; by apply step_incoming_ok].
  split; try (by constructor); try done.
  intros id. change (incoming_at (node (run []))) with (∅ : gmap Z Z). rewrite lookup_empty.
  split; [by intros [? ?]|intros H; by apply elem_of_nil in H].
Qed.

Lemma run_origin ops : origin_ok ops (node (run ops)) (delivered (run ops)).
Proof.
  induction ops as [|o ops IH] using rev_ind; [|rewrite run_app; by apply origin_step].
  split; [intros r x H|intros x H; by apply elem_of_nil in H].
  change (outgoing (node (run []))) with (∅ : gmap string OutgoingForward) in H. by rewrite lookup_empty in H.
Qed.

Lemma sent_requested ops r : r ∈ sent (run ops) → r ∈ omap requested ops.
Proof.
  induction ops as [|o ops IH] using rev_ind; [intros H; by apply elem_of_nil in H|].
  rewrite run_app, omap_app. cbn [ledger_step sent]. rewrite !elem_of_app. intros [H|H]; [left; auto|right].
  destruct o; try (by apply elem_of_nil in H). destruct (record_outgoing _ _ _ _ _) as [n []];
    [|by apply elem_of_nil in H]. apply list_elem_of_singleton in H as ->. by left.
Qed.

Lemma run_ledger ops : NoDup (omap requested ops) →
  ledger_ok (node (run ops)) (delivered (run ops)) (sent (run ops)) (withdrawn (run ops)).
Proof.
  induction ops as [|o ops IH] using rev_ind; intros Hnd.
  - split; try done.
    + intros r. change (outgoing_at (node (run []))) with (∅ : gmap string Z).
      change (outgoing (node (run []))) with (∅ : gmap string OutgoingForward). rewrite !lookup_empty.
      split; by intros [? ?].
    + intros r H. by apply elem_of_nil in H.
  - rewrite omap_app in Hnd. apply NoDup_app in Hnd as (Hnd & Hdis & _). rewrite run_app.
    apply ledger_step_ok; [|by apply IH]. intros r Hr Hin. apply sent_requested in Hin. apply (Hdis r Hin).
    apply list_elem_of_omap. exists o. split; [by left|done].
Qed.

(** C6. A forward proposal is settled once. Whatever is sent, answered,
    cancelled, left or drained, with request ids that are not reused: every
    proposal sent either still waits, or has exactly one outcome, or was
    withdrawn by the user, and never two of these; an outcome carries the
    proposal as it was sent, and says accepted only when the very peer it was
    addressed to answered so; at most 64 wait, and five minutes after they were
    sent a drain settles them all. Of the incoming ones at most 128 wait, 32 of
    one peer, each with its own id and at most one per peer and request id. *)
Theorem proposals_settle_once ops :
  NoDup (omap requested ops) →
  let l := run ops in
  let n := node l in
  (NoDup (settled l ++ withdrawn l) ∧
   ∀ r, (r ∈ sent l ↔ is_Some (outgoing n !! r) ∨ r ∈ settled l ++ withdrawn l) ∧
        ¬ (is_Some (outgoing n !! r) ∧ r ∈ settled l ++ withdrawn l)) ∧
  (∀ oc, oc ∈ delivered l ++ outcomes n → was_sent ops (outcome_id oc) (out_peer (outgoing_of oc)) ∧
     (accepted oc = true → RecordResponse (outcome_id oc) (out_peer (outgoing_of oc)) true ∈ ops)) ∧
  (zsize (outgoing n) <= 64 ∧
   ∀ now, (∀ r t, outgoing_at n !! r = Some t → t + 5 * 60 * SECOND < now) →
     outgoing (drain_outcomes n now).1 = ∅) ∧
  (zlen (incoming n) <= 128 ∧ NoDup (map (λ f, (in_peer f, in_req_id f)) (incoming n)) ∧
   ∀ peer, zlen (List.filter (λ f, bool_decide (in_peer f = peer)) (incoming n)) <= 32).
Proof.
  intros Hnd. cbv zeta. destruct (run_ledger ops Hnd) as [Hid Hat Hb Hs Hgone Hsent].
  destruct (run_origin ops) as [_ Hoc]. destruct (run_incoming ops) as [_ _ Hd Ht Hp _].
  split; [split; [done|]|split; [|split; [split; [done|]|done]]].
  - intros r. split.
    + split; [apply Hsent|]. intros [[o Ho]|Hr]; [by apply Hid in Ho as [_ ?]|by apply Hgone in Hr as [_ ?]].
    + intros [[o Ho] Hr]. apply Hgone in Hr as [Hr _]. congruence.
  - intros oc [Hw Hr]%Hoc. split; [done|]. intros Ha. destruct (reason oc); [congruence|]. by rewrite Ha in Hr.
  - intros now Hnow. apply map_eq. intros r. rewrite lookup_empty. unfold drain_outcomes. cbn [fst outgoing set_outgoing].
    rewrite fails_lookup. case_bool_decide as Hin; [done|]. apply eq_None_not_Some. intros Hr. apply Hin.
    unfold stale. apply elem_of_List_filter. apply Hat in Hr as [t Hr]. rewrite Hr. split.
    + apply elem_of_sorted_keys. by exists t.
    + apply Z.ltb_lt. unfold OUTGOING_TTL, since. specialize (Hnow r t Hr). lia.
Qed.

(** An old proposal of a peer can still be taken: only the next proposal sweeps. *)
Lemma stale_incoming_taken n f now :
  incoming_ok n → f ∈ incoming n → expired n now (in_id f) = true →
  list_incoming n = incoming n ∧ (take_incoming n (in_id f)).2 = Some f.
Proof.
  intros Hok Hin _. split; [done|]. unfold take_incoming. cbn [snd].
  destruct (List.find _ (incoming n)) as [g|] eqn:E.
  - apply find_elem in E as [Hg He]. apply Z.eqb_eq in He. f_equal. by apply (in_id_unique n).
  - pose proof (find_none_elem _ _ E f Hin) as H. cbv beta in H. by rewrite Z.eqb_refl in H.
Qed.

Definition sample_outgoing : OutgoingForward :=
  {| out_req_id := ""; sent_at_ms := 0; out_peer := "p1"; out_proto := "tcp"; listen_port := 8080;
     out_local_addr := "127.0.0.1:8080"; out_remote_addr := "127.0.0.1:80"; out_target := "web" |}.
Definition sample_ops : list Op :=
  [RecordOutgoing "a" sample_outgoing 0 0; RecordOutgoing "b" sample_outgoing 1 0; RecordResponse "a" "p2" true;
   RecordResponse "a" "p1" true; Purge "p1"; Drain 5].

(** The answer of another peer is ignored; the disconnect fails what is left. *)
Lemma proposals_settle_once_witness :
  map (λ oc, (outcome_id oc, accepted oc)) (delivered (run sample_ops)) = [("a", true); ("b", false)] ∧
  NoDup (settled (run sample_ops) ++ withdrawn (run sample_ops)).
Proof.
  split; [vm_compute; reflexivity|].
  refine (proj1 (proj1 (proposals_settle_once sample_ops _))). cbn. repeat constructor; set_solver.
Defined.
