(* ===== verification/TunnelForward.v ===== *)
(** * Forwards

    [src/src/tunnel/forward_args.rs], [forward_store.rs] and [controller.rs]:
    the text of forwards and targets, their persisted form, and the table of
    running forwards. The tasks that move data are I/O. *)
From S2P Require Import Prelude Text NetAddr.

Inductive Direction := Serve | Connect.
#[global] Instance Direction_eq_dec : EqDecision Direction.
Proof. solve_decision. Defined.
Inductive Proto := Tcp | Udp.
#[global] Instance Proto_eq_dec : EqDecision Proto.
Proof. solve_decision. Defined.

Definition direction_str (d : Direction) : string := match d with Serve => "serve" | Connect => "connect" end.
Definition from_name (name : string) : result Proto string :=
  if bool_decide (name = "tcp") then Ok Tcp else if bool_decide (name = "udp") then Ok Udp
  else Err ("unsupported protocol: " +:+ name).
Definition proto_str (p : Proto) : string := match p with Tcp => "tcp" | Udp => "udp" end.

Record ForwardSpec := { direction : Direction; proto : Proto; addr : string; listen_port : Z; target : string }.

(** ** Arguments *)

(** [str::parse::<i32>()] *)
Definition parse_i32 : string → option Z := parse_int (2 ^ 31 - 1).

(** [s.rsplit(c).next()] *)
Definition after_last (c : ascii) (s : string) : string :=
  match rsplit_once c s with Some (_, r) => r | None => s end.

Fixpoint trim_start_matches (c : ascii) (s : string) : string :=
  match s with
  | String a r => if bool_decide (a = c) then trim_start_matches c r else s
  | EmptyString => s
  end.
Definition trim_end_matches (c : ascii) (s : string) : string := String.rev (trim_start_matches c (String.rev s)).

Definition parse_forward (f : string) : string * string * Z :=
  let '(proto, addr) :=
    match strip_prefix "tcp://" f with
    | Some rest => ("tcp", rest)
    | None => match strip_prefix "udp://" f with Some rest => ("udp", rest) | None => ("tcp", f) end
    end in
  let port := match parse_i32 addr with Some p => p | None => default (-1) (parse_i32 (after_last ":" addr)) end in
  (proto, addr, port).

Definition split_node_scope (t : string) : string * option string :=
  match rsplit_once "@" t with
  | Some (base, scope) =>
      if negb (bool_decide (scope = "")) && negb (bool_decide (base = "")) then (base, Some scope) else (t, None)
  | None => (t, None)
  end.

Definition node_scoped_target (base peer : string) : string := (split_node_scope base).1 +:+ "@" +:+ peer.

(** [Display] of an [i32]. *)
Definition show_i32 (n : Z) : string := if n <? 0 then "-" +:+ show (- n) else show n.

Definition parse_connect_forward (f : string) : string * Z * string :=
  let '(f, scope) := split_node_scope f in
  let '(proto, addr, fallback) := parse_forward f in
  let addr := trim_start_matches ":" addr in
  let '(listen, remote) :=
    match split_once ":" addr with
    | Some (l, r) =>
        let listen := default fallback (parse_i32 l) in
        (listen, default listen (parse_i32 r))
    | None => (fallback, fallback)
    end in
  let t := proto +:+ ":" +:+ show_i32 remote in
  (proto, listen, match scope with Some peer => node_scoped_target t peer | None => t end).

Definition forward_key (proto addr : string) : string :=
  proto +:+ ":" +:+ show_i32 (default (-1) (parse_i32 (after_last ":" addr))).

Definition unbracket (host : string) : string := trim_end_matches "]" (trim_start_matches "[" (trim host)).

Definition listen_host (a : string) : string :=
  let host := unbracket (match rsplit_once ":" a with Some (h, _) => h | None => "" end) in
  if bool_decide (host = "") then "127.0.0.1" else host.

Definition contains_char (c : ascii) (s : string) : bool := is_some (split_once c s).

Definition listen_bind_addr (host : string) (port : Z) : string :=
  if contains_char ":" host then "[" +:+ host +:+ "]:" +:+ show_i32 port else host +:+ ":" +:+ show_i32 port.

(** 169.254.0.0/16, its IPv4-mapped form, and fe80::/10. *)
Definition is_link_local_ip (ip : IpAddr) : bool :=
  match ip with
  | V4 (a :: b :: _) => (a =? 169) && (b =? 254)
  | V4 _ => false
  | V6 segments =>
      (bool_decide (take 6 segments = [0; 0; 0; 0; 0; 0xffff]) && (nth 6 segments 0 =? 0xa9fe))
      || (Z.land (nth 0 segments 0) 0xffc0 =? 0xfe80)
  end.

Definition is_link_local_host (a : string) : bool :=
  let host := unbracket (match rsplit_once ":" a with Some (h, _) => h | None => a end) in
  let parsed := match parse_ip host with Some ip => Some ip | None => parse_ip (trim a) end in
  is_some_and is_link_local_ip parsed.

Definition has_whitespace (s : string) : bool := existsb is_space (chars s).

Definition is_valid_remote_target (t : string) : bool :=
  if 300 <? slen t then false else
  let '(base, scope) := split_node_scope t in
  if is_some_and (λ s, (256 <? slen s) || has_whitespace s) scope then false else
  match split_once ":" base with
  | None => false
  | Some (p, port) =>
      (bool_decide (p = "tcp") || bool_decide (p = "udp"))
      && negb (bool_decide (port = "")) && (slen port <=? 5) && string_forallb is_ascii_digit port
      && is_some_and (λ n, (1 <=? n) && (n <=? 65535)) (parse_uint U32_MAX port)
  end.

(** ** Persisted forwards *)

Inductive ForwardOrigin := Local | Remote.
#[global] Instance ForwardOrigin_eq_dec : EqDecision ForwardOrigin.
Proof. solve_decision. Defined.

Record PersistedForward := {
  p_direction : string; p_proto : string; p_addr : string; p_listen_port : Z; p_target : string; origin : ForwardOrigin;
}.

Definition from_spec (spec : ForwardSpec) : PersistedForward :=
  {| p_direction := match direction spec with Serve => "serve" | Connect => "connect" end;
     p_proto := proto_str (proto spec); p_addr := addr spec; p_listen_port := listen_port spec;
     p_target := target spec; origin := Local |}.

Definition with_origin (f : PersistedForward) (o : ForwardOrigin) : PersistedForward :=
  {| p_direction := p_direction f; p_proto := p_proto f; p_addr := p_addr f; p_listen_port := p_listen_port f;
     p_target := p_target f; origin := o |}.

Definition to_spec (f : PersistedForward) : result ForwardSpec string :=
  let? d := if bool_decide (p_direction f = "serve") then Ok Serve
            else if bool_decide (p_direction f = "connect") then Ok Connect
            else Err ("unknown direction: " +:+ p_direction f) in
  let? p := from_name (p_proto f) in
  Ok {| direction := d; proto := p; addr := p_addr f; listen_port := p_listen_port f; target := p_target f |}.

Record ForwardStore := { store_entries : list PersistedForward; store_file : list PersistedForward }.

Definition store_persist (s : ForwardStore) (ok : bool) : ForwardStore * result () string :=
  if ok then ({| store_entries := store_entries s; store_file := store_entries s |}, Ok ())
  else (s, Err "writing the forwards").

Definition store_add (s : ForwardStore) (spec : ForwardSpec) (ok : bool) : ForwardStore * result () string :=
  let entry := from_spec spec in
  store_persist {| store_entries := List.filter (λ e, negb (bool_decide (p_target e = p_target entry))) (store_entries s)
                     ++ [entry]; store_file := store_file s |} ok.

Definition store_remove (s : ForwardStore) (t : string) (ok : bool) : ForwardStore * result bool string :=
  let kept := List.filter (λ e, negb (bool_decide (p_target e = t))) (store_entries s) in
  let removed := negb (zlen kept =? zlen (store_entries s)) in
  let s := {| store_entries := kept; store_file := store_file s |} in
  if removed then let '(s, r) := store_persist s ok in (s, let? _ := r in Ok true) else (s, Ok false).

(** ** The controller *)

(** The running forwards by key. *)
Abbreviation Controller := (gmap string ForwardSpec).

Definition add_forward (c : Controller) (spec : ForwardSpec) : Controller * result string string :=
  let key := target spec in
  if bool_decide (key = "") then (c, Err "forward target must not be empty")
  else if is_some (c !! key) then (c, Err ("forward already exists: " +:+ key))
  else (<[key := spec]> c, Ok key).

Definition remove_forward (c : Controller) (key : string) : Controller * result () string :=
  match c !! key with
  | None => (c, Err ("forward not found: " +:+ key))
  | Some _ => (delete key c, Ok ())
  end.

Definition list_forwards (c : Controller) : list ForwardSpec := omap (λ k, c !! k) (sorted_keys c).

(** [bindable] tells whether the port could be bound. *)
Definition check_listen_port (port : Z) (bindable : bool) : result () string :=
  if port <=? 0 then Ok () else ensure bindable "cannot listen".

(** ** Round trips *)

Lemma to_spec_from_spec spec o : to_spec (with_origin (from_spec spec) o) = Ok spec.
Proof. destruct spec as [[] [] a p t]; done. Qed.

Definition no_char (c : ascii) (s : string) : bool := string_forallb (λ a, negb (bool_decide (a = c))) s.

Lemma rsplit_once_last c l r : no_char c r = true → rsplit_once c (l +:+ String c r) = Some (l, r).
Proof.
  intros Hr. assert (Hnone : rsplit_once c r = None).
  { unfold no_char in Hr. induction r as [|a r IH]; [done|]. cbn [string_forallb] in Hr.
    apply andb_true_iff in Hr as [Ha Hr]. simpl. rewrite (IH Hr). apply negb_true_iff in Ha. by rewrite Ha. }
  induction l as [|a l IH].
  - change ("" +:+ String c r) with (String c r). simpl. by rewrite Hnone, bool_decide_true.
  - change (String a l +:+ String c r) with (String a (l +:+ String c r)). simpl. by rewrite IH.
Qed.

(** Scoping a target to a node and splitting it gives the base and the node. *)
Lemma split_node_scope_scoped base peer :
  (split_node_scope base).1 ≠ "" → peer ≠ "" → no_char "@" peer = true →
  split_node_scope (node_scoped_target base peer) = ((split_node_scope base).1, Some peer).
Proof.
  intros Hb Hp Hn. unfold node_scoped_target. set (b := (split_node_scope base).1) in *.
  unfold split_node_scope at 1. change ("@" +:+ peer) with (String "@" peer).
  by rewrite rsplit_once_last, !bool_decide_false.
Qed.

(** Scoping replaces a scope. *)
Lemma node_scoped_twice base p q :
  (split_node_scope base).1 ≠ "" → p ≠ "" → no_char "@" p = true →
  node_scoped_target (node_scoped_target base p) q = node_scoped_target base q.
Proof. intros Hb Hp Hn. unfold node_scoped_target at 1. by rewrite split_node_scope_scoped. Qed.

Lemma store_add_remove s spec : 
  (∀ e, e ∈ store_entries s → p_target e ≠ target spec) →
  store_entries (store_remove (store_add s spec true).1 (target spec) true).1 = store_entries s.
Proof.
  intros Hn. unfold store_add, store_persist. cbn [fst store_entries]. unfold store_remove. cbn [store_entries].
  assert (Hf : ∀ l, (∀ e, e ∈ l → p_target e ≠ target spec) →
    List.filter (λ e, negb (bool_decide (p_target e = target spec))) l = l).
  { clear. induction l as [|e l IH]; intros H; [done|]. simpl. rewrite bool_decide_false by (apply H; by left).
    simpl. rewrite IH; [done|]. intros x Hx. apply H. by right. }
  change (p_target (from_spec spec)) with (target spec).
  rewrite List.filter_app, (Hf _ Hn), (Hf _ Hn). cbn [List.filter p_target from_spec]. rewrite bool_decide_true, app_nil_r by done.
  cbn. by destruct (negb _).
Qed.

Example link_local_example :
  is_link_local_host "169.254.169.254:80" = true ∧ is_link_local_host "[fe80::1]:80" = true ∧
  is_link_local_host "[::ffff:169.254.1.2]:80" = true ∧ is_link_local_host "10.0.0.1:80" = false.
Proof. by vm_compute. Qed.

Example connect_example :
  parse_connect_forward "udp://19000:9000" = ("udp", 19000, "udp:9000") ∧
  parse_connect_forward "10022:22@node-a" = ("tcp", 10022, "tcp:22@node-a").
Proof. by vm_compute. Qed.

Example reserved_key_refused : is_valid_remote_target "stdio" = false ∧ is_valid_remote_target "tcp:22@n" = true.
Proof. by vm_compute. Qed.
