(* ===== verification/TunnelGraph.v ===== *)
(** * The graph of nodes

    [src/src/tunnel/graph.rs]: the policy of a node on who may exchange traffic
    with it and who may edit it, the commands of its owner and of other nodes,
    the forwards they add and remove, and the authorizer that guards a
    connection while its decision is pending. Messages are delivered by the
    transport, a file write has an outcome, and a v4 UUID is drawn. *)
From S2P Require Import Prelude Text Json Wire NetAddr TunnelForward TunnelTrust TunnelPending.

Record Permissions := { edit_links : bool; add_forwards : bool; remove_forwards : bool }.
Definition no_permissions : Permissions := {| edit_links := false; add_forwards := false; remove_forwards := false |}.

Record Policy := { broadcast : bool; locked : bool; links : gset string; permissions : gmap string Permissions }.
Definition default_policy : Policy := {| broadcast := true; locked := false; links := ∅; permissions := ∅ |}.

Definition allows (p : Policy) (peer : string) : bool := broadcast p || bool_decide (peer ∈ links p).

Inductive Action :=
  | ALink (peer : string) (connect : bool)
  | ABroadcast (enabled : bool)
  | ALock (lock : bool)
  | APermission (peer : string) (grants : Permissions)
  | AAddForward (direction proto addr target : string)
  | ARemoveForward (target : string).

Definition granted (g : Permissions) (a : Action) : bool :=
  match a with
  | ALink _ _ => edit_links g
  | AAddForward _ _ _ _ => add_forwards g
  | ARemoveForward _ => remove_forwards g
  | ABroadcast _ | ALock _ | APermission _ _ => false
  end.

Definition authorize (p : Policy) (actor owner : string) (a : Action) : result () string :=
  if bool_decide (actor = owner) then Ok () else
  ensure (negb (locked p)) "node is locked by its owner" ;;?
  ensure (granted (default no_permissions (permissions p !! actor)) a)
    "node owner has not granted permission for this operation" ;;? Ok ().

Record NodeView := {
  v_broadcast : bool; v_locked : bool; v_links : gset string; v_permissions : Permissions; v_forwards : list json;
}.

Inductive Message :=
  | MState (node : NodeView)
  | MCommand (id : string) (action : Action)
  | MReply (id : string) (error : option string).

Record Saved := { policy : Policy; forwards : list PersistedForward }.
Definition set_policy (s : Saved) (p : Policy) : Saved := {| policy := p; forwards := forwards s |}.
Definition set_forwards (s : Saved) (l : list PersistedForward) : Saved := {| policy := policy s; forwards := l |}.

(** [file] is what the file of the room says; [has_path] whether there is one. *)
Record GraphState := {
  suspended : bool; closed : bool; epoch : Z; saved : Saved; has_path : bool; file : option Saved;
  remote : gmap string NodeView; inbox : list (string * string * Action); waiters : gmap string string; tick : Z;
}.

Definition with_saved (g : GraphState) (s : Saved) (f : option Saved) : GraphState :=
  {| suspended := suspended g; closed := closed g; epoch := epoch g; saved := s; has_path := has_path g; file := f;
     remote := remote g; inbox := inbox g; waiters := waiters g; tick := tick g |}.
Definition with_remote (g : GraphState) (m : gmap string NodeView) : GraphState :=
  {| suspended := suspended g; closed := closed g; epoch := epoch g; saved := saved g; has_path := has_path g;
     file := file g; remote := m; inbox := inbox g; waiters := waiters g; tick := tick g |}.
Definition with_inbox (g : GraphState) (l : list (string * string * Action)) : GraphState :=
  {| suspended := suspended g; closed := closed g; epoch := epoch g; saved := saved g; has_path := has_path g;
     file := file g; remote := remote g; inbox := l; waiters := waiters g; tick := tick g |}.
Definition with_waiters (g : GraphState) (m : gmap string string) : GraphState :=
  {| suspended := suspended g; closed := closed g; epoch := epoch g; saved := saved g; has_path := has_path g;
     file := file g; remote := remote g; inbox := inbox g; waiters := m; tick := tick g |}.
Definition next_tick (g : GraphState) : GraphState :=
  {| suspended := suspended g; closed := closed g; epoch := epoch g; saved := saved g; has_path := has_path g;
     file := file g; remote := remote g; inbox := inbox g; waiters := waiters g; tick := tick g + 1 |}.

Definition allows_traffic (g : GraphState) (peer : string) : bool :=
  negb (suspended g) && negb (closed g) && allows (policy (saved g)) peer.

(** A message of [peer]; the result a waiter gets, if one does. *)
Definition receive (g : GraphState) (peer : string) (m : Message) : GraphState * option (string * result () string) :=
  match m with
  | MState node => (with_remote g (<[peer := node]> (remote g)), None)
  | MCommand id action =>
      if (zlen (inbox g) <? 256) && (slen id <=? 128) then (with_inbox g (inbox g ++ [(peer, id, action)]), None)
      else (g, None)
  | MReply id error =>
      match waiters g !! id with
      | Some expected =>
          if bool_decide (expected = peer)
          then (with_waiters g (delete id (waiters g)),
                Some (id, match error with Some e => Err e | None => Ok () end))
          else (g, None)
      | None => (g, None)
      end
  end.

Definition install_room (g : GraphState) (f : option Saved) : GraphState :=
  {| suspended := suspended g; closed := closed g; epoch := wrap 64 (epoch g + 1);
     saved := default {| policy := default_policy; forwards := [] |} f; has_path := true; file := f;
     remote := ∅; inbox := []; waiters := ∅; tick := tick g |}.

Definition is_remote_forward (g : GraphState) (t : string) : bool :=
  existsb (λ f, bool_decide (p_target f = t) && negb (bool_decide (origin f = Local))) (forwards (saved g)).

Definition forget_peer (g : GraphState) (peer : string) : GraphState :=
  with_waiters (with_remote g (delete peer (remote g))) (filter (λ p, p.2 ≠ peer) (waiters g)).

Definition persist (g : GraphState) (next : Saved) (ok : bool) : GraphState * result () string :=
  if has_path g then if ok then (with_saved g next (Some next), Ok ()) else (g, Err "writing the graph")
  else (with_saved g next (file g), Ok ()).

Definition validate_peer (peer owner : string) : result () string :=
  ensure (negb (bool_decide (trim peer = "")) && (slen peer <=? 256) && negb (bool_decide (peer = owner))
          && negb (contains_char "@" peer)) "invalid peer id".

Definition forward_spec (direction proto a t owner uuid : string) : result ForwardSpec string :=
  let? p := from_name proto in
  ensure ((slen a <=? 512) && negb (has_whitespace a)) "invalid host:port" ;;?
  let? hp := ok_or (rsplit_once ":" a) "address must be host:port" in
  let? port := ok_or (parse_uint 65535 hp.2) "invalid port" in
  ensure ((0 <? port) && negb (bool_decide (hp.1 = ""))) "port must be 1-65535" ;;?
  if bool_decide (direction = "serve") then
    Ok {| direction := Serve; proto := p; addr := a; listen_port := -1; target := "graph:" +:+ uuid +:+ "@" +:+ owner |}
  else if bool_decide (direction = "connect") then
    ensure (bool_decide (hp.1 = "127.0.0.1")) "local listeners use 127.0.0.1; enter 127.0.0.1:port" ;;?
    ensure (negb (bool_decide (t = "")) && (slen t <=? 1024)) "select a published service" ;;?
    Ok {| direction := Connect; proto := p; addr := a; listen_port := port; target := t |}
  else Err "direction must be serve or connect".

(** ** Commands *)

(** What a command meets outside: the UUID it draws, whether the port can be
    bound, and whether its writes succeed. *)
Record Env := { uuid : string; bindable : bool; write1 : bool; write2 : bool }.

Record World := { graph : GraphState; controller : Controller; connected : list string; self_id : string; room : string }.
Definition with_graph (w : World) (g : GraphState) : World :=
  {| graph := g; controller := controller w; connected := connected w; self_id := self_id w; room := room w |}.
Definition with_controller (w : World) (c : Controller) : World :=
  {| graph := graph w; controller := c; connected := connected w; self_id := self_id w; room := room w |}.

(** [f[key] == text] *)
Definition field_is (key text : string) (f : json) : bool :=
  match get key f with Some (JString s) => bool_decide (s = text) | _ => false end.

(** The checks on a forward before it runs. *)
Definition check_forward (w : World) (actor : string) (p : Policy) (pr t : string) (spec : ForwardSpec) (env : Env)
    : result () string :=
  ensure (bool_decide (actor = self_id w) || negb (bool_decide (direction spec = Serve))
          || negb (is_link_local_host (addr spec))) "link-local targets cannot be proposed remotely" ;;?
  (if bool_decide (direction spec = Connect) then
     let? peer := ok_or (split_node_scope t).2 "direct forwards require a node-scoped target" in
     ensure (allows p peer) "connect the nodes first" ;;?
     let? node := ok_or (remote (graph w) !! peer) "peer graph is unavailable" in
     ensure (v_broadcast node || bool_decide (self_id w ∈ v_links node)) "peer must allow this connection first" ;;?
     ensure (existsb (λ f, field_is "target" t f && field_is "proto" pr f && field_is "direction" "serve" f)
               (v_forwards node)) "published service is no longer available"
   else Ok ()) ;;?
  ensure (negb (existsb (λ f, (0 <? listen_port spec) && bool_decide (proto f = proto spec)
                              && (listen_port f =? listen_port spec)) (list_forwards (controller w))))
    "local port already configured" ;;?
  check_listen_port (listen_port spec) (bindable env).

Definition graph_add (w : World) (actor d pr a t : string) (env : Env) : World * result () string :=
  let next := saved (graph w) in
  match
    let? spec := forward_spec d pr a t (self_id w) (uuid env) in
    check_forward w actor (policy next) pr t spec env ;;? Ok spec
  with
  | Err e => (w, Err e)
  | Ok spec =>
      match add_forward (controller w) spec with
      | (_, Err e) => (w, Err e)
      | (c, Ok _) =>
          let o := if bool_decide (actor = self_id w) then Local else Remote in
          match persist (graph w) (set_forwards next (forwards next ++ [with_origin (from_spec spec) o])) (write1 env) with
          | (g, Ok _) => (with_graph (with_controller w c) g, Ok ())
          | (_, Err e) => (with_controller w (remove_forward c (target spec)).1, Err e)
          end
      end
  end.

Definition graph_remove (w : World) (t : string) (env : Env) : World * result () string :=
  let old := saved (graph w) in
  if negb (existsb (λ f, bool_decide (p_target f = t)) (forwards old))
  then (w, Err "only graph-managed forwards can be removed here; use the existing forward list for legacy rules") else
  match persist (graph w) (set_forwards old (List.filter (λ f, negb (bool_decide (p_target f = t))) (forwards old)))
          (write1 env) with
  | (_, Err e) => (w, Err e)
  | (g, Ok _) =>
      match remove_forward (controller w) t with
      | (c, Ok _) => (with_controller (with_graph w g) c, Ok ())
      | (_, Err e) =>
          match persist g old (write2 env) with
          | (g, Ok _) => (with_graph w g, Err e)
          | (_, Err e) => (with_graph w g, Err e)
          end
      end
  end.

(** The policy an action that edits it leaves. *)
Definition edit_policy (p : Policy) (owner : string) (a : Action) : result Policy string :=
  match a with
  | ALink peer connect =>
      validate_peer peer owner ;;?
      Ok {| broadcast := broadcast p; locked := locked p;
            links := if connect then {[peer]} ∪ links p else links p ∖ {[peer]}; permissions := permissions p |}
  | ABroadcast enabled =>
      Ok {| broadcast := enabled; locked := locked p; links := links p; permissions := permissions p |}
  | ALock lock => Ok {| broadcast := broadcast p; locked := lock; links := links p; permissions := permissions p |}
  | APermission peer grants =>
      validate_peer peer owner ;;?
      Ok {| broadcast := broadcast p; locked := locked p; links := links p;
            permissions := <[peer := grants]> (permissions p) |}
  | AAddForward _ _ _ _ | ARemoveForward _ => Ok p
  end.

(** The connections a change of policy opens and closes. *)
Definition changed (before after : Policy) (peers : list string) : list (string * bool) :=
  omap (λ peer, if bool_decide (allows before peer = allows after peer) then None else Some (peer, allows after peer))
    peers.

Definition graph_edit (w : World) (a : Action) (env : Env) : World * result () string * list (string * bool) :=
  let next := saved (graph w) in
  match edit_policy (policy next) (self_id w) a with
  | Err e => (w, Err e, [])
  | Ok p =>
      match persist (graph w) (set_policy next p) (write1 env) with
      | (_, Err e) => (w, Err e, [])
      | (g, Ok _) => (with_graph w g, Ok (), changed (policy next) p (connected w))
      end
  end.

Definition graph_apply (w : World) (actor : string) (a : Action) (env : Env)
    : World * result () string * list (string * bool) :=
  match authorize (policy (saved (graph w))) actor (self_id w) a with
  | Err e => (w, Err e, [])
  | Ok _ =>
      match a with
      | AAddForward d pr ad t => (graph_add w actor d pr ad t env, [])
      | ARemoveForward t => (graph_remove w t env, [])
      | _ => graph_edit w a env
      end
  end.

(** A command of the user for this node. *)
Definition owner_command (w : World) (a : Action) (expected_room : string) (env : Env) : World * result () string :=
  match
    ensure (negb (closed (graph w))) "tunnel session stopped" ;;?
    ensure (bool_decide (room w = expected_room)) "room changed; refresh before editing"
  with
  | Err e => (w, Err e)
  | Ok _ => (graph_apply w (self_id w) a env).1
  end.

(** A command of the user for another node, up to its wait for the reply; [id]
    is the drawn identifier and [sent] whether the message could be sent. *)
Definition send_command (w : World) (node expected_room id : string) (sent : bool) : World * result () string :=
  match
    ensure (negb (closed (graph w))) "tunnel session stopped" ;;?
    ensure (bool_decide (room w = expected_room)) "room changed; refresh before editing" ;;?
    ensure (contains (connected w) node) "peer is offline" ;;?
    ensure (is_some (remote (graph w) !! node)) "peer does not support graph editing" ;;?
    ensure sent "sending the command"
  with
  | Err e => (w, Err e)
  | Ok _ => (with_graph w (with_waiters (graph w) (<[id := node]> (waiters (graph w)))), Ok ())
  end.

(** The end of that wait: the answer, or none within ten seconds. *)
Definition command_done (w : World) (id : string) (answer : option (result () string)) : World * result () string :=
  (with_graph w (with_waiters (graph w) (delete id (waiters (graph w)))),
   default (Err "peer did not confirm the change; refresh the graph before retrying") answer).

(** The commands of other nodes, in the order they arrived; a reply for each. *)
Fixpoint run_commands (w : World) (commands : list (string * string * Action)) (envs : list Env)
    : World * list (string * string * result () string) :=
  match commands, envs with
  | (peer, id, a) :: commands, env :: envs =>
      if negb (contains (connected w) peer) then run_commands w commands envs else
      let '(w, r, _) := graph_apply w peer a env in
      let '(w, replies) := run_commands w commands envs in
      (w, (peer, id, r) :: replies)
  | _, _ => (w, [])
  end.

(** [envs] has an environment for every command of the inbox. *)
Definition graph_tick (w : World) (envs : list Env) : World * list (string * string * result () string) * bool :=
  let commands := inbox (graph w) in
  let '(w, replies) := run_commands (with_graph w (with_inbox (graph w) [])) commands envs in
  let g := next_tick (graph w) in
  (with_graph w g, replies, negb (bool_decide (commands = [])) || (tick g mod 4 =? 1)).

(** What a node tells [peer] of itself; [describe] renders a running forward. *)
Definition node_view (w : World) (describe : ForwardSpec → bool → json) (peer : string) : NodeView :=
  let s := saved (graph w) in
  {| v_broadcast := broadcast (policy s); v_locked := locked (policy s); v_links := links (policy s);
     v_permissions := default no_permissions (permissions (policy s) !! peer);
     v_forwards := map (λ f, describe f (existsb (λ e, bool_decide (p_target e = target f)) (forwards s)))
                     (list_forwards (controller w)) |}.

(** The forwards of the file start running again. *)
Definition restore_graph_forwards (w : World) : World :=
  with_controller w
    (foldl (λ c f, match to_spec f with Ok spec => (add_forward c spec).1 | Err _ => c end) (controller w)
       (forwards (saved (graph w)))).

Definition graph_remove_room_forwards (w : World) : World :=
  with_controller w (foldl (λ c f, (remove_forward c (p_target f)).1) (controller w) (forwards (saved (graph w)))).

(** [GraphAuthorizer]: the graph before the inner decision, and after it. *)
Definition guard (before after : GraphState) (peer : string) (inner : AuthDecision) : AuthDecision :=
  if negb (allows_traffic before peer) then Deny else
  if (epoch after =? epoch before) && allows_traffic after peer then inner else Deny.

(** ** Who may change what *)

Lemma authorize_Ok p actor owner a u :
  authorize p actor owner a = Ok u ↔
    actor = owner ∨ (locked p = false ∧ granted (default no_permissions (permissions p !! actor)) a = true).
Proof.
  unfold authorize. destruct u. case_bool_decide as H; [tauto|].
  destruct (locked p), (granted _ _); cbn; split; try done; try tauto; intros [?|[? ?]]; done.
Qed.

(** What a step leaves alone, whoever takes it. *)
Definition frame (w w' : World) : Prop :=
  self_id w' = self_id w ∧ connected w' = connected w ∧ room w' = room w ∧
  has_path (graph w') = has_path (graph w) ∧ remote (graph w') = remote (graph w) ∧
  inbox (graph w') = inbox (graph w) ∧ epoch (graph w') = epoch (graph w).

Lemma frame_refl w : frame w w.
Proof. done. Qed.

(** The file of the room says what the node keeps. *)
Definition in_step (w : World) : Prop := has_path (graph w) = true → file (graph w) = Some (saved (graph w)).

Lemma graph_persist_spec g next ok g' r : persist g next ok = (g', r) →
  match r with
  | Ok _ => g' = with_saved g next (file g') ∧ (has_path g = true → file g' = Some next ∧ ok = true)
  | Err _ => g' = g ∧ has_path g = true ∧ ok = false
  end.
Proof. unfold persist. destruct (has_path g) eqn:E; [destruct ok|]; intros [= <- <-]; done. Qed.

(** A forward that a command of [actor] started. *)
Definition started (w w' : World) (actor : string) (f : PersistedForward) : Prop :=
  ∃ spec, f = with_origin (from_spec spec) (if bool_decide (actor = self_id w) then Local else Remote) ∧
    controller w !! target spec = None ∧ controller w' !! target spec = Some spec ∧
    (actor ≠ self_id w → direction spec = Serve → is_link_local_host (addr spec) = false) ∧
    (direction spec = Connect → ∃ port, rsplit_once ":" (addr spec) = Some ("127.0.0.1", port) ∧ 0 < listen_port spec <= 65535).

Lemma forward_spec_Ok d pr a t owner u spec : forward_spec d pr a t owner u = Ok spec →
  addr spec = a ∧
  (direction spec = Connect → ∃ port, rsplit_once ":" a = Some ("127.0.0.1", port) ∧ 0 < listen_port spec <= 65535).
Proof.
  unfold forward_spec. intros (p & _ & H)%rbind_Ok. apply rbind_Ok in H as ([] & _ & H).
  apply rbind_Ok in H as ([h po] & Hhp%ok_or_Ok & H). apply rbind_Ok in H as (port & Hport%ok_or_Ok & H).
  apply rbind_Ok in H as ([] & Hpos%ensure_Ok & H). cbn [fst snd] in *. case_bool_decide.
  { injection H as <-. done. }
  case_bool_decide; [|done]. apply rbind_Ok in H as ([] & Hl%ensure_Ok & H). apply rbind_Ok in H as ([] & _ & [= <-]).
  bools. split; [done|]. intros _. exists po. split; [by rewrite Hhp; subst|]. cbn.
  apply parse_uint_range in Hport. lia.
Qed.

Lemma graph_add_spec w actor d pr a t env w' r : graph_add w actor d pr a t env = (w', r) →
  frame w w' ∧ policy (saved (graph w')) = policy (saved (graph w)) ∧ (in_step w → in_step w') ∧
  match r with
  | Ok _ => ∃ f, forwards (saved (graph w')) = forwards (saved (graph w)) ++ [f] ∧ started w w' actor f
  | Err _ => w' = w
  end.
Proof.
  unfold graph_add. cbv zeta. destruct (rbind _ _) as [spec|e] eqn:E; [|by intros [= <- <-]].
  apply rbind_Ok in E as (spec' & Hspec%forward_spec_Ok & E). apply rbind_Ok in E as ([] & Hchk & [= ->]).
  destruct Hspec as [Ha Hconn]. unfold add_forward.
  destruct (bool_decide (target spec = "")); [by intros [= <- <-]|].
  destruct (controller w !! target spec) as [x|] eqn:Hc; [by intros [= <- <-]|]. cbn [is_some].
  set (f := with_origin _ _). destruct (persist _ _ _) as [g [u|e]] eqn:Hp; apply graph_persist_spec in Hp; intros [= <- <-].
  - destruct Hp as [-> Hf]. cbn in Hf. split; [done|]. split; [done|]. split.
    + intros _ H. cbn in *. by apply Hf.
    + exists f. split; [done|]. exists spec. split_and!; [done..| | |].
      * cbn. by rewrite lookup_insert_eq.
      * intros Hact Hd. unfold check_forward in Hchk. apply rbind_Ok in Hchk as ([] & Hl%ensure_Ok & _).
        rewrite bool_decide_false, Hd, bool_decide_true in Hl by done. by destruct (is_link_local_host _).
      * intros Hd. rewrite Ha. by apply Hconn.
  - destruct Hp as [-> _]. unfold remove_forward. rewrite lookup_insert_eq. cbn [fst].
    rewrite delete_insert_id by done. by destruct w.
Qed.

Lemma graph_remove_spec w t env w' r : graph_remove w t env = (w', r) →
  let kept := List.filter (λ f, negb (bool_decide (p_target f = t))) (forwards (saved (graph w))) in
  frame w w' ∧ policy (saved (graph w')) = policy (saved (graph w)) ∧ (in_step w → in_step w') ∧
  match r with
  | Ok _ => forwards (saved (graph w')) = kept ∧ controller w' = delete t (controller w) ∧ is_Some (controller w !! t)
  | Err _ => controller w' = controller w ∧
      (saved (graph w') = saved (graph w) ∨
       ((controller w !! t = None ∧ has_path (graph w) = true ∧ write1 env = true ∧ write2 env = false) ∧
        saved (graph w') = set_forwards (saved (graph w)) kept))
  end.
Proof.
  unfold graph_remove. cbv zeta. destruct (negb (existsb _ _)); [intros [= <- <-]; split_and!; auto using frame_refl|].
  destruct (persist (graph w) _ _) as [g [u|e]] eqn:Hp; apply graph_persist_spec in Hp;
    [|destruct Hp as [-> _]; intros [= <- <-]; split_and!; auto using frame_refl].
  destruct Hp as [-> Hf]. cbn in Hf. unfold remove_forward. destruct (controller w !! t) as [x|] eqn:Hc.
  - intros [= <- <-]. split_and!; try done. intros _ Hp. by apply Hf.
  - match goal with |- context [persist ?g ?old ?ok] => destruct (persist g old ok) as [g' [u'|e]] eqn:Hp' end; apply graph_persist_spec in Hp'; intros [= <- <-].
    + destruct Hp' as [-> Hf']. cbn in Hf'. split_and!; try done; [|by left]. intros _ Hp. by apply Hf'.
    + destruct Hp' as (-> & Hpath & Hw). cbn in Hpath. split_and!; try done; [|right].
      * intros _ Hp. by apply Hf.
      * split; [|done]. split_and!; try done. by apply Hf.
Qed.

Lemma edit_policy_owner p owner a p' actor g : actor ≠ owner → edit_policy p owner a = Ok p' → granted g a = true →
  broadcast p' = broadcast p ∧ locked p' = locked p ∧ permissions p' = permissions p.
Proof.
  intros Hne. destruct a; cbn [edit_policy granted]; intros H Hg; try done; [|injection H as <-; done..].
  apply rbind_Ok in H as ([] & _ & [= <-]). done.
Qed.

Lemma changed_same p peers : changed p p peers = [].
Proof. unfold changed. induction peers as [|x peers IH]; [done|]. simpl. by rewrite bool_decide_true. Qed.

Lemma graph_edit_spec w a env w' r ch : graph_edit w a env = (w', r, ch) →
  frame w w' ∧ controller w' = controller w ∧ forwards (saved (graph w')) = forwards (saved (graph w)) ∧
  (in_step w → in_step w') ∧ ch = changed (policy (saved (graph w))) (policy (saved (graph w'))) (connected w) ∧
  match r with
  | Ok _ => edit_policy (policy (saved (graph w))) (self_id w) a = Ok (policy (saved (graph w')))
  | Err _ => w' = w
  end.
Proof.
  unfold graph_edit. cbv zeta. destruct (edit_policy _ _ _) as [p|e]; [|intros [= <- <- <-]; rewrite changed_same; split_and!; auto using frame_refl].
  destruct (persist _ _ _) as [g [u|e]] eqn:Hp; apply graph_persist_spec in Hp; intros [= <- <- <-].
  - destruct Hp as [-> Hf]. cbn in Hf. split_and!; try done. intros _ Hp. by apply Hf.
  - rewrite changed_same. split_and!; try done; auto.
Qed.

Lemma graph_frame w actor a env w' r ch : graph_apply w actor a env = (w', r, ch) → frame w w'.
Proof.
  unfold graph_apply. destruct (authorize _ _ _ _); [|by intros [= <- _ _]].
  destruct a; try (intros H; by apply graph_edit_spec in H as [? _]).
  - destruct (graph_add _ _ _ _ _ _ _) eqn:E. intros [= <- _ _]. by apply graph_add_spec in E as [? _].
  - destruct (graph_remove _ _ _) eqn:E. intros [= <- _ _]. by apply graph_remove_spec in E as [? _].
Qed.

(** C23. What a command may change in the graph of a node, whoever sends it.
    Another node changes nothing unless the owner has granted that very kind of
    edit to it and has not locked the node, and even then never the broadcast
    flag, the lock or the grants; a forward it adds is marked as remote, never
    listens beyond 127.0.0.1 and never serves a link-local literal, and only a
    command on forwards touches them. A command that fails changes nothing, with
    one exception: removing a forward that was not running fails after the list
    without it was written, and when writing the old list back fails too the
    forward stays forgotten. The file of
    the room keeps saying what the node keeps; and the connections that open
    and close are those whose traffic the change allows or forbids. *)
Theorem graph_authority w actor a env w' r ch :
  graph_apply w actor a env = (w', r, ch) →
  let s := saved (graph w) in
  let s' := saved (graph w') in
  (actor ≠ self_id w →
     (broadcast (policy s') = broadcast (policy s) ∧ locked (policy s') = locked (policy s) ∧
      permissions (policy s') = permissions (policy s)) ∧
     (w' ≠ w → locked (policy s) = false ∧ granted (default no_permissions (permissions (policy s) !! actor)) a = true)) ∧
  ((∀ f, f ∈ forwards s' → f ∈ forwards s ∨ started w w' actor f) ∧
   (forwards s' ≠ forwards s → (∃ d pr ad t, a = AAddForward d pr ad t) ∨ ∃ t, a = ARemoveForward t)) ∧
  (∀ e, r = Err e → controller w' = controller w ∧
     (s' = s ∨ ∃ t, a = ARemoveForward t ∧ controller w !! t = None ∧
        (has_path (graph w) = true ∧ write1 env = true ∧ write2 env = false) ∧
        s' = set_forwards s (List.filter (λ f, negb (bool_decide (p_target f = t))) (forwards s)))) ∧
  (in_step w → in_step w') ∧ frame w w' ∧ ch = changed (policy s) (policy s') (connected w).
Proof.
  unfold graph_apply. intros H. cbv zeta.
  destruct (authorize _ _ _ _) as [u|e] eqn:Hauth.
  2:{ injection H as <- <- <-. rewrite changed_same. split_and!; try done; try tauto; eauto. }
  apply authorize_Ok in Hauth.
  destruct a as [peer c|b|b|peer g|d pr ad t|t].
  1-4: apply graph_edit_spec in H as (Hfr & Hc & Hf & Hin & Hch & Hr); rewrite Hf;
    (split; [|split; [split; [by left|done]|split; [|done]]]);
    [intros Hne; destruct Hauth as [?|[Hl Hg]]; [done|]; split; [|done];
     destruct r; [by eapply edit_policy_owner|by rewrite Hr]
    |intros e ->; rewrite Hr; auto].
  - destruct (graph_add _ _ _ _ _ _ _) as [w1 r1] eqn:Hadd. injection H as <- <- <-.
    apply graph_add_spec in Hadd as (Hfr & Hp & Hin & Hr). rewrite Hp, changed_same.
    split; [|split; [split|split; [|done]]].
    + intros Hne. destruct Hauth as [?|Hg]; done.
    + destruct r1 as [u1|e]; [|by rewrite Hr; left]. destruct Hr as (f & -> & Hst).
      intros x [?| ->%list_elem_of_singleton]%elem_of_app; [by left|by right].
    + intros _. left. by eexists _, _, _, _.
    + intros e ->. rewrite Hr. auto.
  - destruct (graph_remove _ _ _) as [w1 r1] eqn:Hrem. injection H as <- <- <-.
    apply graph_remove_spec in Hrem as (Hfr & Hp & Hin & Hr). rewrite Hp, changed_same.
    split; [|split; [split|split; [|done]]].
    + intros Hne. destruct Hauth as [?|Hg]; done.
    + intros f Hf. left. destruct r1 as [u1|e].
      * destruct Hr as (Hr & _). rewrite Hr in Hf. by apply elem_of_List_filter in Hf as [? _].
      * destruct Hr as [_ [Hr|[_ Hr]]]; rewrite Hr in Hf; [done|]. cbn in Hf. by apply elem_of_List_filter in Hf as [? _].
    + intros _. right. by exists t.
    + intros e ->. destruct Hr as [Hc [Hr|[(Hn & Hw) Hr]]]; (split; [done|]); [by left|right]. by exists t.
Qed.

(** A forward that another node planted goes to the human queue, whatever the
    policy of the authorizer. *)
Lemma planted_forward_asks {C : Crypto} w actor pr ad t env w' ch :
  graph_apply w actor (AAddForward "serve" pr ad t) env = (w', Ok (), ch) → actor ≠ self_id w →
  ∃ key, is_Some (controller w' !! key) ∧ is_remote_forward (graph w') key = true ∧
    ∀ pol s v req w1 w2 now, forward_key req = key → calls s !! v = None →
      calls (step pol s (OArrive v req (is_remote_forward (graph w') key) w1 w2 now)) !! v
        = Some {| call_request := req; call_state := Asking |}.
Proof.
  intros H Hne. unfold graph_apply in H. destruct (authorize _ _ _ _); [|done].
  destruct (graph_add _ _ _ _ _ _ _) as [w1 r] eqn:Hadd. injection H as <- -> <-.
  apply graph_add_spec in Hadd as (_ & _ & _ & f & Hf & spec & -> & _ & Hc & _).
  rewrite bool_decide_false in Hf by done.
  assert (Hr : is_remote_forward (graph w1) (target spec) = true).
  { unfold is_remote_forward. apply existsb_elem. eexists. split; [rewrite Hf; apply elem_of_app; right; by left|].
    by rewrite bool_decide_true. }
  exists (target spec). split_and!; [by rewrite Hc|done|]. rewrite Hr. intros pol s v req b1 b2 now _ Hv.
  cbn [step]. rewrite Hv. cbn [is_some]. unfold TunnelPending.authorize.
  case_if; [by cbn; rewrite lookup_insert_eq|]. destruct (lookup _ _ _ _ _ _) as [tr o].
  rewrite andb_false_r. cbn. by rewrite lookup_insert_eq.
Qed.

(** The inbox is bounded, and a tick answers each command of a connected node
    once, in the order they came. *)
Lemma receive_bounded g peer m : zlen (inbox g) <= 256 → zlen (inbox (receive g peer m).1) <= 256.
Proof.
  intros Hi. destruct m as [node|id a|id e]; cbn [receive]; [done| |].
  - case_if; [|done]. bools. cbn [fst inbox with_inbox]. rewrite zlen_app. change (zlen [_]) with 1. lia.
  - destruct (waiters g !! id); [|done]. by case_if.
Qed.

(** Only the node a command was sent to can answer it, and only once. *)
Lemma reply_once g peer id e res : receive g peer (MReply id e) = (res, Some (id, match e with Some x => Err x | None => Ok () end)) →
  waiters g !! id = Some peer ∧ (∀ p e', (receive res p (MReply id e')).2 = None).
Proof.
  cbn [receive]. destruct (waiters g !! id) as [x|] eqn:E; [|done]. case_if; [|done]. bools. intros [= <-]. subst x.
  split; [done|]. intros p e'. cbn [receive waiters with_waiters]. by rewrite lookup_delete_eq.
Qed.

Lemma run_commands_replies w commands envs w' replies :
  run_commands w commands envs = (w', replies) → length envs = length commands →
  frame w w' ∧ map fst replies = map fst (List.filter (λ c, contains (connected w) c.1.1) commands).
Proof.
  revert w envs w' replies. induction commands as [|[[peer id] a] commands IH]; intros w envs w' replies.
  { by intros [= <- <-] _. }
  destruct envs as [|env envs]; [done|]. cbn [run_commands List.filter fst]. intros H [= Hlen].
  destruct (contains (connected w) peer); cbn [negb] in H; [|by apply (IH w envs)].
  destruct (graph_apply w peer a env) as [[w1 r] ch] eqn:Ha.
  destruct (run_commands w1 commands envs) as [w2 rs] eqn:Hrun. injection H as <- <-.
  assert (Hfr : frame w w1) by (by apply graph_frame in Ha).
  apply IH in Hrun as [Hfr2 Hrs]; [|done]. destruct Hfr as (? & Hconn & ?). rewrite Hconn in Hrs.
  split; [unfold frame in *; destruct_and!; split_and!; congruence|]. cbn [map fst]. by rewrite Hrs.
Qed.

Lemma tick_replies w envs w' replies b :
  graph_tick w envs = (w', replies, b) → length envs = length (inbox (graph w)) →
  inbox (graph w') = [] ∧
  map fst replies = map fst (List.filter (λ c, contains (connected w) c.1.1) (inbox (graph w))).
Proof.
  unfold graph_tick. destruct (run_commands _ _ _) as [w1 rs] eqn:Hrun. intros [= <- <- <-] Hlen.
  apply run_commands_replies in Hrun as [(_ & Hc & _ & _ & _ & Hi & _) Hrs]; [|done]. by split.
Qed.

(** A human who approves late approves nothing: the guard asks again. *)
Lemma guard_allowed before after peer inner :
  is_allowed (guard before after peer inner) = true →
  is_allowed inner = true ∧ allows_traffic before peer = true ∧ allows_traffic after peer = true ∧ epoch after = epoch before.
Proof.
  unfold guard. destruct (allows_traffic before peer); [|done]. cbn [negb].
  destruct (Z.eqb_spec (epoch after) (epoch before)), (allows_traffic after peer); done.
Qed.

Definition editor_world : World :=
  {| graph := {| suspended := false; closed := false; epoch := 0;
       saved := {| policy := {| broadcast := false; locked := false; links := ∅;
                                permissions := {["editor" := {| edit_links := true; add_forwards := false; remove_forwards := false |}]} |};
                   forwards := [] |};
       has_path := true; file := None; remote := ∅; inbox := []; waiters := ∅; tick := 0 |};
     controller := ∅; connected := ["editor"; "other"]; self_id := "self"; room := "r" |}.
Definition some_env : Env := {| uuid := "u"; bindable := true; write1 := true; write2 := true |}.
Definition linked_world : World := (graph_apply editor_world "editor" (ALink "other" true) some_env).1.1.

Lemma graph_authority_witness :
  (graph_apply editor_world "editor" (ALink "other" true) some_env).2 = [("other", true)] ∧
  permissions (policy (saved (graph linked_world))) = permissions (policy (saved (graph editor_world))).
Proof.
  split; [vm_compute; reflexivity|].
  destruct (graph_apply editor_world "editor" (ALink "other" true) some_env) as [[w' r] ch] eqn:E.
  pose proof (graph_authority editor_world "editor" (ALink "other" true) some_env w' r ch E) as [H _].
  unfold linked_world. rewrite E. cbn [fst]. apply (proj1 (H ltac:(done))).
Defined.
