(* ===== verification/TunnelStream.v ===== *)
(** * Tunnelled TCP connections

    [src/src/tunnel/tcp.rs] with [tcp/tunnel.rs], [tcp/local.rs] and
    [tcp/retry.rs]: the connections of one forward, their numbered data, the
    authorization that runs beside them and the grace of a peer that left. The
    loop that takes messages, the tasks that authorize and the timers interleave
    where the code awaits. *)
From S2P Require Import Prelude Wire TunnelTrust.

Definition PENDING_DATA_BUFFER_MAX_MSGS : Z := 256.
Definition PENDING_DATA_BUFFER_MAX_BYTES : Z := 1024 * 1024.
Definition MAX_PENDING_CONNS_PER_PEER : Z := 8.
Definition MAX_CONNS_PER_PEER : Z := 64.
Definition MSG_TYPE_CONNECT : string := "connect".
Definition MSG_TYPE_DATA : string := "data".
Definition MSG_TYPE_CLOSE : string := "close".
Definition MSG_TYPE_PING : string := "ping".

Record TunnelMessage := { tm_type : string; tm_conn_id : string; tm_target : string; tm_payload : option string; tm_seq : option Z }.

(** ** Sequence numbers *)
Record SeqState := { next_expected : Z; seq_seen : bool }.
Inductive SeqDecision := Accept | Duplicate (received : Z) | Gap (expected received : Z) | Inconsistent.

Definition new_seq : SeqState := {| next_expected := 1; seq_seen := false |}.

(** A [u64]; its overflow wraps as in a release build. *)
Definition next_u64 (n : Z) : Z := (n + 1) `mod` 2 ^ 64.

Definition observe (s : SeqState) (seq : option Z) : SeqState * SeqDecision :=
  match seq with
  | None => (s, if seq_seen s then Inconsistent else Accept)
  | Some received =>
      let s' next := {| next_expected := next; seq_seen := true |} in
      if received <? next_expected s then (s' (next_expected s), Duplicate received)
      else if received =? next_expected s then (s' (next_u64 (next_expected s)), Accept)
      else (s' (next_expected s), Gap (next_expected s) received)
  end.

(** ** Connections

    A writer is the number of its socket. *)
Inductive ConnState := Pending (buffered : list string) (buffered_bytes : Z) | Active (writer : nat).

Record TunnelConn := { tc_state : ConnState; tc_peer : string; tc_notify : bool; tc_seq : SeqState; tc_did : option string }.

Definition set_state (st : ConnState) (c : TunnelConn) : TunnelConn :=
  {| tc_state := st; tc_peer := tc_peer c; tc_notify := tc_notify c; tc_seq := tc_seq c; tc_did := tc_did c |}.
Definition set_seq (q : SeqState) (c : TunnelConn) : TunnelConn :=
  {| tc_state := tc_state c; tc_peer := tc_peer c; tc_notify := tc_notify c; tc_seq := q; tc_did := tc_did c |}.
Definition is_pending (c : TunnelConn) : bool := match tc_state c with Pending _ _ => true | Active _ => false end.

(** A socket: the connection its writer belongs to, whether it was accepted
    here or opened for a peer, what was written, and whether a write has
    failed; one that failed writes nothing more. *)
Record Socket := { sk_conn : nat; sk_local : bool; sk_written : string; sk_failed : bool }.

(** [write_all]: all of the data, or some bytes of it and an error. *)
Definition write_all (fails : option nat) (data : string) (s : Socket) : Socket * bool :=
  let s' written failed := {| sk_conn := sk_conn s; sk_local := sk_local s; sk_written := written; sk_failed := failed |} in
  if sk_failed s then (s, false) else
  match fails with
  | None => (s' (sk_written s +:+ data) false, true)
  | Some n => (s' (sk_written s +:+ string_take n data) true, false)
  end.

(** What the loop has decided about a message. *)
Inductive DataOutcome :=
| ODuplicate | OGap | OInconsistent
| OWrite (writer : nat)
| OBuffered | OOverflow.

(** Where the loop is: between messages, with the connection of a message in
    hand, or about to act on its decision. *)
Inductive Loop :=
| Idle
| Deciding (conn : nat) (msg : TunnelMessage)
| Acting (outcome : DataOutcome) (msg : TunnelMessage).

(** Tasks beside the loop: waiting for an authorization, connecting to the
    target, about to promote a connection, about to close one. *)
Inductive Task :=
| Authorizing (conn_id : string) (req : AuthRequest)
| Connecting (conn_id : string) (peer : string)
| Promoting (conn_id : string) (peer : string) (conn : nat)
| Closing (conn_id : string) (notify : bool).

(** The map of connections by id; connections themselves, each with the id it
    was tracked under, live on in the hands of tasks. *)
Record Manager := {
  conns : gmap string nat; made : list (string * TunnelConn); sockets : list Socket; loop : Loop; tasks : list Task;
  sent : list (string * TunnelMessage); epochs : gmap string Z; timers : list (string * Z); cancelled : bool;
}.

Definition set_conns x m := {| conns := x; made := made m; sockets := sockets m; loop := loop m; tasks := tasks m; sent := sent m; epochs := epochs m; timers := timers m; cancelled := cancelled m |}.
Definition set_made x m := {| conns := conns m; made := x; sockets := sockets m; loop := loop m; tasks := tasks m; sent := sent m; epochs := epochs m; timers := timers m; cancelled := cancelled m |}.
Definition set_sockets x m := {| conns := conns m; made := made m; sockets := x; loop := loop m; tasks := tasks m; sent := sent m; epochs := epochs m; timers := timers m; cancelled := cancelled m |}.
Definition set_loop x m := {| conns := conns m; made := made m; sockets := sockets m; loop := x; tasks := tasks m; sent := sent m; epochs := epochs m; timers := timers m; cancelled := cancelled m |}.
Definition set_tasks x m := {| conns := conns m; made := made m; sockets := sockets m; loop := loop m; tasks := x; sent := sent m; epochs := epochs m; timers := timers m; cancelled := cancelled m |}.
Definition set_sent x m := {| conns := conns m; made := made m; sockets := sockets m; loop := loop m; tasks := tasks m; sent := x; epochs := epochs m; timers := timers m; cancelled := cancelled m |}.
Definition set_epochs x m := {| conns := conns m; made := made m; sockets := sockets m; loop := loop m; tasks := tasks m; sent := sent m; epochs := x; timers := timers m; cancelled := cancelled m |}.
Definition set_timers x m := {| conns := conns m; made := made m; sockets := sockets m; loop := loop m; tasks := tasks m; sent := sent m; epochs := epochs m; timers := x; cancelled := cancelled m |}.
Definition cancel m := {| conns := conns m; made := made m; sockets := sockets m; loop := loop m; tasks := tasks m; sent := sent m; epochs := epochs m; timers := timers m; cancelled := true |}.

Definition conn_at (m : Manager) (o : nat) : option TunnelConn := snd <$> made m !! o.
Definition update_conn (o : nat) (f : TunnelConn → TunnelConn) (m : Manager) : Manager :=
  set_made (alter (λ e, (e.1, f e.2)) o (made m)) m.

Section manager.
Context (target remote_addr : string).

Definition close_message (conn_id : string) : TunnelMessage :=
  {| tm_type := MSG_TYPE_CLOSE; tm_conn_id := conn_id; tm_target := target; tm_payload := None; tm_seq := None |}.

Definition close_conn (conn_id : string) (notify_remote : bool) (m : Manager) : Manager :=
  match conns m !! conn_id with
  | None => m
  | Some o =>
      let m := set_conns (delete conn_id (conns m)) m in
      match conn_at m o with
      | Some c => if notify_remote && tc_notify c then set_sent (sent m ++ [(tc_peer c, close_message conn_id)]) m else m
      | None => m
      end
  end.

(** A connection opened here: the stream of a program that connected. *)
Definition track_conn (conn_id peer_id : string) (m : Manager) : Manager :=
  let o := length (made m) in
  let c := {| tc_state := Active (length (sockets m)); tc_peer := peer_id; tc_notify := true; tc_seq := new_seq; tc_did := None |} in
  set_conns (<[conn_id := o]> (conns m)) (set_sockets (sockets m ++ [{| sk_conn := o; sk_local := true; sk_written := ""; sk_failed := false |}])
    (set_made (made m ++ [(conn_id, c)]) m)).

Definition of_peer (peer_id : string) (c : TunnelConn) : bool := bool_decide (tc_peer c = peer_id).

(** [busy]: the connections whose lock is held now. Beside the loop only a
    promotion holds one, so they are active ones; they count for every peer. *)
Definition total_for (busy : nat → bool) (peer_id : string) (m : Manager) : Z :=
  zlen (List.filter (λ e, match conn_at m e.2 with
                          | Some c => of_peer peer_id c || (busy e.2 && negb (is_pending c))
                          | None => false
                          end) (map_to_list (conns m))).

Definition pending_for (peer_id : string) (m : Manager) : Z :=
  zlen (List.filter (λ e, match conn_at m e.2 with Some c => of_peer peer_id c && is_pending c | None => false end)
                    (map_to_list (conns m))).

Definition track_pending_conn (busy : nat → bool) (conn_id peer_id : string) (did : option string) (m : Manager) : option Manager :=
  if (MAX_CONNS_PER_PEER <=? total_for busy peer_id m) || (MAX_PENDING_CONNS_PER_PEER <=? pending_for peer_id m) then None else
  let c := {| tc_state := Pending [] 0; tc_peer := peer_id; tc_notify := true; tc_seq := new_seq; tc_did := did |} in
  Some (set_conns (<[conn_id := length (made m)]> (conns m)) (set_made (made m ++ [(conn_id, c)]) m)).

(** [did]: the verified DID of the peer. *)
Definition handle_remote_connect (busy : nat → bool) (peer_id : string) (did : option string) (msg : TunnelMessage) (m : Manager) : Manager :=
  match conns m !! tm_conn_id msg with
  | Some _ => m
  | None =>
      match track_pending_conn busy (tm_conn_id msg) peer_id did m with
      | None => set_sent (sent m ++ [(peer_id, close_message (tm_conn_id msg))]) m
      | Some m => set_tasks (tasks m ++ [Authorizing (tm_conn_id msg) {|
          peer_id := peer_id; forward_key := target; target_addr := remote_addr; request_proto := "tcp"; request_did := did |}]) m
      end
  end.

(** [did]: what [verified_did_for_peer] says now. *)
Definition binding_holds (bound_did did : option string) : bool :=
  match bound_did with None => true | Some d => bool_decide (did = Some d) end.

(** [handle_remote_data] up to the lock of the connection. *)
Definition receive_data (peer_id : string) (did : option string) (msg : TunnelMessage) (m : Manager) : Manager :=
  match conns m !! tm_conn_id msg with
  | None => m
  | Some o =>
      match conn_at m o with
      | None => m
      | Some c =>
          if negb (bool_decide (tc_peer c = peer_id)) then m else
          if negb (binding_holds (tc_did c) did) then m else set_loop (Deciding o msg) m
      end
  end.

Definition close_conn_from_peer (conn_id peer_id : string) (m : Manager) : Manager :=
  match conns m !! conn_id with
  | None => m
  | Some o =>
      match conn_at m o with
      | Some c => if bool_decide (tc_peer c = peer_id) then close_conn conn_id false m else m
      | None => m
      end
  end.

Definition on_tunnel_message (busy : nat → bool) (peer_id : string) (did : option string) (msg : TunnelMessage) (m : Manager) : Manager :=
  if bool_decide (tm_type msg = MSG_TYPE_CONNECT) then handle_remote_connect busy peer_id did msg m
  else if bool_decide (tm_type msg = MSG_TYPE_DATA) then receive_data peer_id did msg m
  else if bool_decide (tm_type msg = MSG_TYPE_CLOSE) then close_conn_from_peer (tm_conn_id msg) peer_id m
  else if bool_decide (tm_type msg = MSG_TYPE_PING) then m
  else m.

(** The decision, under the lock of the connection. *)
Definition decide_data (c : TunnelConn) (msg : TunnelMessage) : TunnelConn * DataOutcome :=
  let '(q, d) := observe (tc_seq c) (tm_seq msg) in
  let c := set_seq q c in
  match d with
  | Duplicate _ => (c, ODuplicate)
  | Gap _ _ => (c, OGap)
  | Inconsistent => (c, OInconsistent)
  | Accept =>
      match tc_state c with
      | Active writer => (c, OWrite writer)
      | Pending buffered bytes =>
          let payload := default "" (tm_payload msg) in
          if (PENDING_DATA_BUFFER_MAX_MSGS <=? zlen buffered) || (PENDING_DATA_BUFFER_MAX_BYTES <? bytes + slen payload)
          then (c, OOverflow)
          else (set_state (Pending (buffered ++ [payload]) (bytes + slen payload)) c, OBuffered)
      end
  end.

Definition decide_step (m : Manager) : Manager :=
  match loop m with
  | Deciding o msg =>
      match conn_at m o with
      | Some c => let '(c', outcome) := decide_data c msg in set_loop (Acting outcome msg) (update_conn o (λ _, c') m)
      | None => m
      end
  | _ => m
  end.

(** The decision is acted on; [fails] is what becomes of a write. *)
Definition act_step (fails : option nat) (m : Manager) : Manager :=
  match loop m with
  | Acting outcome msg =>
      let m := set_loop Idle m in
      match outcome with
      | ODuplicate | OBuffered => m
      | OGap | OInconsistent | OOverflow => close_conn (tm_conn_id msg) true m
      | OWrite w =>
          match tm_payload msg, sockets m !! w with
          | Some payload, Some s =>
              if bool_decide (payload = "") then m else
              let '(s', ok) := write_all fails payload s in
              let m := set_sockets (<[w := s']> (sockets m)) m in
              if ok then m else close_conn (tm_conn_id msg) true m
          | _, _ => m
          end
      end
  | _ => m
  end.

(** ** Authorization *)

(** The decision of the authorizer for a task. *)
Definition authorized (conn_id : string) (req : AuthRequest) (decision : AuthDecision) (m : Manager) : Manager :=
  if cancelled m then m else
  match conns m !! conn_id with
  | None => m
  | Some _ =>
      if negb (is_allowed decision) then set_tasks (tasks m ++ [Closing conn_id true]) m
      else set_tasks (tasks m ++ [Connecting conn_id (peer_id req)]) m
  end.

(** The target was connected to, or not; then the connection is looked up. *)
Definition connected (conn_id peer : string) (ok : bool) (m : Manager) : Manager :=
  if negb ok then set_tasks (tasks m ++ [Closing conn_id true]) m else
  if cancelled m then m else
  match conns m !! conn_id with
  | None => m
  | Some o => set_tasks (tasks m ++ [Promoting conn_id peer o]) m
  end.

(** What was buffered is written; [fails] for each write. *)
Fixpoint replay (fails : nat → option nat) (buffered : list string) (s : Socket) : Socket * bool :=
  match buffered with
  | [] => (s, true)
  | payload :: buffered =>
      if bool_decide (payload = "") then replay (λ n, fails (S n)) buffered s else
      let '(s, ok) := write_all (fails 0%nat) payload s in
      if ok then replay (λ n, fails (S n)) buffered s else (s, false)
  end.

(** [promote_pending_conn] under the lock of the connection. *)
Definition promote_pending_conn (conn_id : string) (o : nat) (fails : nat → option nat) (m : Manager) : Manager :=
  match conn_at m o with
  | Some c =>
      match tc_state c with
      | Active _ => m
      | Pending buffered _ =>
          let w := length (sockets m) in
          let '(s, ok) := replay fails buffered {| sk_conn := o; sk_local := false; sk_written := ""; sk_failed := false |} in
          let m := set_sockets (sockets m ++ [s]) (update_conn o (set_state (Active w)) m) in
          if ok then m else set_tasks (tasks m ++ [Closing conn_id true]) m
      end
  | None => m
  end.

(** ** Peers that leave *)

Definition schedule_close_all_for_peer (peer : string) (m : Manager) : Manager :=
  let e := (default 0 (epochs m !! peer) + 1) `mod` 2 ^ 64 in
  set_timers (timers m ++ [(peer, e)]) (set_epochs (<[peer := e]> (epochs m)) m).

Definition cancel_pending_close (peer : string) (m : Manager) : Manager :=
  match epochs m !! peer with
  | Some e => set_epochs (<[peer := (e + 1) `mod` 2 ^ 64]> (epochs m)) m
  | None => m
  end.

(** The connections are listed under the lock of the map and closed one by one
    after it. *)
Definition close_all_for_peer (peer : string) (m : Manager) : Manager :=
  let closing e := match conn_at m e.2 with Some c => if of_peer peer c then Some (Closing e.1 false) else None | None => None end in
  set_tasks (tasks m ++ omap closing (map_to_list (conns m))) m.

(** ** Steps *)
Inductive Event :=
| Message (busy : nat → bool) (peer : string) (did : option string) (msg : TunnelMessage)  (* the loop takes the next message *)
| Decide
| Act (fails : option nat)
| Authorized (n : nat) (decision : AuthDecision)
| Connected (n : nat) (ok : bool)
| Promoted (n : nat) (fails : nat → option nat)
| Closed (n : nat)
| LocalOpen (conn_id peer : string)
| ReaderEnds (conn_id : string) (notify : bool)  (* the task that reads a socket stops *)
| PeerLeft (peer : string)
| PeerBack (peer : string)
| GraceOver (n : nat)
| Cancel.

Definition drop_task (n : nat) (m : Manager) : Manager := set_tasks (delete n (tasks m)) m.

Definition step (ev : Event) (m : Manager) : Manager :=
  match ev with
  | Message busy peer did msg => match loop m with Idle => if cancelled m then m else on_tunnel_message busy peer did msg m | _ => m end
  | Decide => decide_step m
  | Act fails => act_step fails m
  | Authorized n decision =>
      match tasks m !! n with Some (Authorizing conn_id req) => authorized conn_id req decision (drop_task n m) | _ => m end
  | Connected n ok =>
      match tasks m !! n with Some (Connecting conn_id peer) => connected conn_id peer ok (drop_task n m) | _ => m end
  | Promoted n fails =>
      match tasks m !! n with Some (Promoting conn_id _ o) => promote_pending_conn conn_id o fails (drop_task n m) | _ => m end
  | Closed n => match tasks m !! n with Some (Closing conn_id notify) => close_conn conn_id notify (drop_task n m) | _ => m end
  | LocalOpen conn_id peer => track_conn conn_id peer m
  | ReaderEnds conn_id notify => close_conn conn_id notify m
  | PeerLeft peer => schedule_close_all_for_peer peer m
  | PeerBack peer => cancel_pending_close peer m
  | GraceOver n =>
      match timers m !! n with
      | Some (peer, e) =>
          let m := set_timers (delete n (timers m)) m in
          if bool_decide (epochs m !! peer = Some e) then close_all_for_peer peer m else m
      | None => m
      end
  | Cancel => cancel m
  end.

Definition run (evs : list Event) (m : Manager) : Manager := foldl (λ m ev, step ev m) m evs.
End manager.

Definition started : Manager := {|
  conns := ∅; made := []; sockets := []; loop := Idle; tasks := []; sent := []; epochs := ∅; timers := []; cancelled := false |}.

(** ** The sender

    [forward_tcp_to_dc]: each read is one message with the next number; a send
    is retried until it is known to be out, and may have gone out more than
    once. It stops at the first that is given up. *)
Definition data_message (conn_id target : string) (seq : Z) (chunk : string) : TunnelMessage :=
  {| tm_type := MSG_TYPE_DATA; tm_conn_id := conn_id; tm_target := target; tm_payload := Some chunk; tm_seq := Some seq |}.

Fixpoint forward_tcp_to_dc (conn_id target : string) (next_seq : Z) (reads : list string) (sends : nat → nat * bool) : list TunnelMessage :=
  match reads with
  | [] => []
  | chunk :: reads =>
      let '(copies, ok) := sends 0%nat in
      repeat (data_message conn_id target next_seq chunk) copies
      ++ (if ok then forward_tcp_to_dc conn_id target (next_u64 next_seq) reads (λ n, sends (S n)) else [])
  end.
