(* ===== verification/TunnelChange.v ===== *)
(** * How a step changes the tunnelled connections

    Every step of [TunnelStream] is one of seven changes; the invariants of
    [TunnelStreamSafety] are proved once for each change. *)
From S2P Require Import Prelude Wire TunnelTrust TunnelStream.

(** What a step may do to connections, sockets and the loop; the promotions
    that wait are those that waited and those of a tracked connection. *)
Definition promotions_from (m m' : Manager) : Prop :=
  ∀ id p o, Promoting id p o ∈ tasks m' → Promoting id p o ∈ tasks m ∨ conns m !! id = Some o.

Record same_loop_and_tasks (m m' : Manager) : Prop := {
  same_loop : loop m' = loop m; same_promotions : promotions_from m m';
}.

Definition acted_away (outcome : DataOutcome) : bool :=
  match outcome with OGap | OInconsistent | OOverflow => true | ODuplicate | OBuffered | OWrite _ => false end.

Inductive change (ev : Event) (m m' : Manager) : Prop :=
| Quiet :
    conns m' ⊆ conns m → made m' = made m → sockets m' = sockets m → same_loop_and_tasks m m' → change ev m m'
| Tracked busy peer did msg :
    ev = Message busy peer did msg → tm_type msg = MSG_TYPE_CONNECT → loop m = Idle →
    total_for busy peer m < MAX_CONNS_PER_PEER → pending_for peer m < MAX_PENDING_CONNS_PER_PEER →
    conns m !! tm_conn_id msg = None → conns m' = <[tm_conn_id msg := length (made m)]> (conns m) →
    made m' = made m ++ [(tm_conn_id msg, {| tc_state := Pending [] 0; tc_peer := peer; tc_notify := true;
                                             tc_seq := new_seq; tc_did := did |})] →
    sockets m' = sockets m → same_loop_and_tasks m m' → change ev m m'
| Opened id peer :
    ev = LocalOpen id peer → conns m' = <[id := length (made m)]> (conns m) →
    made m' = made m ++ [(id, {| tc_state := Active (length (sockets m)); tc_peer := peer; tc_notify := true;
                                 tc_seq := new_seq; tc_did := None |})] →
    sockets m' = sockets m ++ [{| sk_conn := length (made m); sk_local := true; sk_written := ""; sk_failed := false |}] →
    same_loop_and_tasks m m' → change ev m m'
| Taken busy peer did msg o c :
    ev = Message busy peer did msg → tm_type msg = MSG_TYPE_DATA → loop m = Idle →
    conns m !! tm_conn_id msg = Some o → conn_at m o = Some c → tc_peer c = peer → binding_holds (tc_did c) did = true →
    conns m' = conns m → made m' = made m → sockets m' = sockets m → loop m' = Deciding o msg → tasks m' = tasks m →
    change ev m m'
| Decided o msg c c' outcome :
    loop m = Deciding o msg → conn_at m o = Some c → decide_data c msg = (c', outcome) →
    conns m' = conns m → made m' = alter (λ e, (e.1, c')) o (made m) → sockets m' = sockets m →
    loop m' = Acting outcome msg → tasks m' = tasks m → change ev m m'
| Acted outcome msg :
    loop m = Acting outcome msg → loop m' = Idle → conns m' ⊆ conns m →
    (acted_away outcome = true → conns m' !! tm_conn_id msg = None) →
    made m' = made m → tasks m' = tasks m →
    (sockets m' = sockets m ∧ (∀ w, outcome = OWrite w → default "" (tm_payload msg) = "" ∨ sockets m !! w = None) ∨
     ∃ w s s' ok fails, outcome = OWrite w ∧ sockets m !! w = Some s ∧
       write_all fails (default "" (tm_payload msg)) s = (s', ok) ∧ sockets m' = <[w := s']> (sockets m) ∧
       (ok = false → conns m' !! tm_conn_id msg = None)) →
    change ev m m'
| Replayed n id p o c buffered bytes fails s ok :
    ev = Promoted n fails → tasks m !! n = Some (Promoting id p o) → conn_at m o = Some c → tc_state c = Pending buffered bytes →
    replay fails buffered {| sk_conn := o; sk_local := false; sk_written := ""; sk_failed := false |} = (s, ok) →
    conns m' = conns m → made m' = alter (λ e, (e.1, set_state (Active (length (sockets m))) e.2)) o (made m) →
    sockets m' = sockets m ++ [s] → same_loop_and_tasks m m' → change ev m m'.

Section changes.
Context (target remote_addr : string).
Implicit Types (m : Manager) (ev : Event).
Local Abbreviation step := (step target remote_addr).
Local Abbreviation close_conn := (close_conn target).

Lemma same_refl m m' : loop m' = loop m → tasks m' = tasks m → same_loop_and_tasks m m'.
Proof. intros Hl Ht. split; [done|]. intros id p o. rewrite Ht. by left. Qed.

(** What closing a connection leaves alone. *)
Lemma close_conn_fields id notify m :
  conns (close_conn id notify m) = delete id (conns m) ∧ made (close_conn id notify m) = made m ∧
  sockets (close_conn id notify m) = sockets m ∧ loop (close_conn id notify m) = loop m ∧
  tasks (close_conn id notify m) = tasks m.
Proof.
  unfold TunnelStream.close_conn. destruct (conns m !! id) eqn:E; [|by rewrite delete_id].
  by repeat case_match.
Qed.

Lemma close_conn_tasks id notify m : tasks (close_conn id notify m) = tasks m.
Proof. apply close_conn_fields. Qed.

Lemma close_all_tasks peer m t :
  t ∈ tasks (close_all_for_peer peer m) → t ∈ tasks m ∨ ∃ id, t = Closing id false.
Proof.
  cbn. rewrite elem_of_app. intros [?|(e & _ & He)%list_elem_of_omap]; [by left|right]. destruct (conn_at m e.2) as [c|]; [|done].
  destruct (of_peer peer c); [|done]. injection He as <-. eauto.
Qed.

Lemma quiet_close ev id notify m m0 :
  conns m0 = conns m → made m0 = made m → sockets m0 = sockets m → loop m0 = loop m →
  (∀ t, t ∈ tasks m0 → t ∈ tasks m) → change ev m (close_conn id notify m0).
Proof.
  intros Hc Hm Hs Hl Ht. destruct (close_conn_fields id notify m0) as (Ec & Em & Es & El & Et).
  apply Quiet; rewrite ?Ec, ?Em, ?Es; [rewrite Hc; apply delete_subseteq|done..|].
  split; [by rewrite El|]. intros ???. rewrite Et. eauto.
Qed.

Lemma elem_of_drop_task n m t : t ∈ tasks (drop_task n m) → t ∈ tasks m.
Proof. intros Ht. eapply elem_of_sublist; [exact Ht|apply sublist_delete]. Qed.

(** A step that only takes a task, or sets one that is no promotion. *)
Lemma quiet_tasks ev m m' :
  conns m' = conns m → made m' = made m → sockets m' = sockets m → loop m' = loop m →
  promotions_from m m' → change ev m m'.
Proof. intros Hc Hm Hs Hl Ht. apply Quiet; rewrite ?Hc; done. Qed.

Lemma quiet_refl ev m : change ev m m.
Proof. apply quiet_tasks; try done. intros ???. by left. Qed.

Lemma connect_change busy peer did msg m :
  loop m = Idle → tm_type msg = MSG_TYPE_CONNECT →
  change (Message busy peer did msg) m (handle_remote_connect target remote_addr busy peer did msg m).
Proof.
  intros Hl Hty. unfold handle_remote_connect. destruct (conns m !! tm_conn_id msg) eqn:Hfree; [apply quiet_refl|].
  unfold track_pending_conn. case_if; bools; [apply quiet_tasks; try done; intros ???; by left|].
  eapply Tracked; try done. split; [done|]. intros id p o. cbn. rewrite elem_of_app, list_elem_of_singleton. naive_solver.
Qed.

Lemma message_change busy peer did msg m :
  change (Message busy peer did msg) m (step (Message busy peer did msg) m).
Proof.
  cbn [TunnelStream.step]. destruct (loop m) eqn:Hl; [|apply quiet_refl..]. case_if; [apply quiet_refl|].
  unfold on_tunnel_message. case_bool_decide as Hty; [by apply connect_change|].
  case_bool_decide as Hdata; [|case_bool_decide; [|case_bool_decide; apply quiet_refl]].
  - unfold receive_data. destruct (conns m !! _) as [o|] eqn:Ho; [|apply quiet_refl].
    destruct (conn_at m o) as [c|] eqn:Hc; [|apply quiet_refl].
    case_if; [apply quiet_refl|]. case_if; [apply quiet_refl|]. bools. by eapply Taken.
  - unfold close_conn_from_peer. destruct (conns m !! _) as [o|]; [|apply quiet_refl].
    destruct (conn_at m o) as [c|]; [|apply quiet_refl].
    case_bool_decide; [|apply quiet_refl]. by apply quiet_close.
Qed.

Lemma decide_change m : change Decide m (decide_step m).
Proof.
  unfold decide_step. destruct (loop m) as [|o msg|] eqn:Hl; [apply quiet_refl| |apply quiet_refl].
  destruct (conn_at m o) as [c|] eqn:Hc.
  - destruct (decide_data c msg) as [c' outcome] eqn:Hd. by eapply Decided.
  - apply quiet_refl.
Qed.

Lemma write_change fails w msg m :
  loop m = Acting (OWrite w) msg → change (Act fails) m (act_step target fails m).
Proof.
  intros Hl. unfold act_step. rewrite Hl.
  destruct (tm_payload msg) as [payload|] eqn:Hp; [destruct (sockets m !! w) as [s|] eqn:Hs|];
    cbn; rewrite ?Hs; [case_bool_decide as He| |].
  - eapply Acted; try done. left. split; [done|]. intros ? [= <-]. left. by rewrite Hp.
  - destruct (write_all fails payload s) as [s' ok] eqn:Hw.
    destruct (close_conn_fields (tm_conn_id msg) true (set_sockets (<[w:=s']> (sockets m)) (set_loop Idle m)))
      as (Ec & Em & Es & El & Et).
    assert (∃ x, x = (if ok then set_sockets (<[w:=s']> (sockets m)) (set_loop Idle m)
                      else close_conn (tm_conn_id msg) true (set_sockets (<[w:=s']> (sockets m)) (set_loop Idle m))))
      as [x Hx] by eauto. rewrite <-Hx.
    assert (conns x ⊆ conns m ∧ made x = made m ∧ sockets x = <[w:=s']> (sockets m) ∧ loop x = Idle ∧ tasks x = tasks m ∧
            (ok = false → conns x !! tm_conn_id msg = None)) as (Hc & Hm & Hsx & Hlx & Ht & Hok).
    { subst x. destruct ok; [by split_and!|]. rewrite Ec, Em, Es, El, Et.
      split_and!; try done; [apply delete_subseteq|]. intros _. apply lookup_delete_eq. }
    eapply Acted; try done. right. exists w, s, s', ok, fails. rewrite Hp. by split_and!.
  - eapply Acted; try done. left. split; [done|]. intros ? [= <-]. by right.
  - eapply Acted; try done. left. split; [done|]. intros ? [= <-]. left. by rewrite Hp.
Qed.

Lemma act_change fails m : change (Act fails) m (act_step target fails m).
Proof.
  destruct (loop m) as [| |outcome msg] eqn:Hl; [unfold act_step; rewrite Hl; apply quiet_refl..|].
  destruct outcome as [| | |w| |] eqn:Ho; [..|by eapply write_change| |]; unfold act_step; rewrite Hl;
  destruct (close_conn_fields (tm_conn_id msg) true (set_loop Idle m)) as (Ec & Em & Es & El & Et);
    (eapply Acted; [exact Hl|..]); cbn; rewrite ?Ec, ?Em, ?Es, ?El, ?Et; cbn; try done; try apply delete_subseteq;
    try (intros _; apply lookup_delete_eq); by left.
Qed.

(** A task is taken: what it leaves behind is no promotion, or one of a
    connection that is tracked. *)
Lemma task_change ev n m (new : list Task) m' :
  conns m' = conns m → made m' = made m → sockets m' = sockets m → loop m' = loop m →
  tasks m' = delete n (tasks m) ++ new → (∀ id p o, Promoting id p o ∈ new → conns m !! id = Some o) →
  change ev m m'.
Proof.
  intros Hc Hm Hs Hl Ht Hnew. apply quiet_tasks; try done. intros id p o. rewrite Ht, elem_of_app.
  intros [?%(elem_of_drop_task n m)|?%Hnew]; [by left|by right].
Qed.

Lemma promote_change n fails m : change (Promoted n fails) m (step (Promoted n fails) m).
Proof.
  cbn [TunnelStream.step]. destruct (tasks m !! n) as [[| |id p o|]|] eqn:Ht; [apply quiet_refl..| |apply quiet_refl|apply quiet_refl].
  assert (Hdrop : change (Promoted n fails) m (drop_task n m)).
  { eapply (task_change _ n _ []); try done; cbn; [by rewrite app_nil_r|]. by intros ??? ?%not_elem_of_nil. }
  unfold promote_pending_conn. change (conn_at (drop_task n m) o) with (conn_at m o).
  destruct (conn_at m o) as [c|] eqn:Hc; [|done]. destruct (tc_state c) as [buffered bytes|] eqn:Hst; [|done].
  destruct (replay _ _ _) as [s ok] eqn:Hr.
  destruct ok; (eapply Replayed; [done|exact Ht|exact Hc|exact Hst|exact Hr|done..|]); (split; [done|]); intros id' p' o'; cbn;
    rewrite ?elem_of_app, ?list_elem_of_singleton; intros Hin; left; [by apply (elem_of_drop_task n m)|].
  destruct Hin as [Hin|?]; [by apply (elem_of_drop_task n m)|done].
Qed.

(** Every step is one of the changes. *)
Lemma step_change ev m : change ev m (step ev m).
Proof.
  destruct ev as [busy peer did msg| |fails|n decision|n ok|n fails|n|id peer|id notify|peer|peer|n| ].
  - apply message_change.
  - apply decide_change.
  - apply act_change.
  - cbn [TunnelStream.step]. destruct (tasks m !! n) as [[id req| | |]|] eqn:Ht; try apply quiet_refl. unfold authorized.
    cbn. repeat case_match; eapply (task_change _ n _ _); try done; cbn; rewrite ?app_nil_r; try done;
      [..|]; intros ???; rewrite ?list_elem_of_singleton, ?elem_of_nil; naive_solver.
  - cbn [TunnelStream.step]. destruct (tasks m !! n) as [[|id p| |]|] eqn:Ht; try apply quiet_refl. unfold connected.
    cbn. repeat case_match; eapply (task_change _ n _ _); try done; cbn; rewrite ?app_nil_r; try done;
      [..|]; intros ???; rewrite ?list_elem_of_singleton, ?elem_of_nil; naive_solver.
  - apply promote_change.
  - cbn [TunnelStream.step]. destruct (tasks m !! n) as [[| | |id notify]|] eqn:Ht; try apply quiet_refl.
    apply quiet_close; try done. apply elem_of_drop_task.
  - cbn. eapply Opened; try done. by apply same_refl.
  - by apply quiet_close.
  - apply quiet_tasks; try done; intros ???; by left.
  - cbn. unfold cancel_pending_close. destruct (epochs m !! peer); [|apply quiet_refl].
    apply quiet_tasks; try done; intros ???; by left.
  - cbn. destruct (timers m !! n) as [[peer e]|]; [|apply quiet_refl].
    case_bool_decide; [|apply quiet_tasks; try done; intros ???; by left].
    apply quiet_tasks; try done. intros ??? [Hin|[id Hid]]%close_all_tasks; [by left|done].
  - apply quiet_tasks; try done; intros ???; by left.
Qed.
End changes.
