(* ===== verification/TunnelStreamSafety.v ===== *)
(** * Tunnelled streams arrive in order

    Theorems about [TunnelStream]: what is written to the sockets, how much is
    kept for connections that wait, and which sockets are opened at all. *)
From S2P Require Import Prelude Wire TunnelTrust TunnelStream TunnelChange.

(** ** Text in pieces *)
Definition joined (l : list string) : string := foldr String.append "" l.
Definition begins (a b : string) : Prop := ∃ r, b = a +:+ r.

Lemma joined_app l k : joined (l ++ k) = joined l +:+ joined k.
Proof. induction l as [|a l IH]; [done|]. cbn [app joined foldr]. unfold joined in IH. by rewrite IH, string_app_assoc. Qed.

Lemma joined_snoc l a : joined (l ++ [a]) = joined l +:+ a.
Proof. rewrite joined_app. cbn. by rewrite string_app_nil_r. Qed.

Lemma joined_take k l : begins (joined (take k l)) (joined l).
Proof. exists (joined (drop k l)). by rewrite <-joined_app, take_drop. Qed.

Lemma joined_take_S k l a : l !! k = Some a → joined (take (S k) l) = joined (take k l) +:+ a.
Proof. intros Ha. by rewrite (take_S_r _ _ a), joined_snoc. Qed.

Lemma begins_trans a b c : begins a b → begins b c → begins a c.
Proof. intros [r ->] [s ->]. exists (r +:+ s). by rewrite string_app_assoc. Qed.

Lemma begins_refl a : begins a a.
Proof. exists "". by rewrite string_app_nil_r. Qed.

Lemma begins_app a b c : begins b c → begins (a +:+ b) (a +:+ c).
Proof. intros [r ->]. exists r. by rewrite string_app_assoc. Qed.

Lemma begins_l a b : begins a (a +:+ b).
Proof. by exists b. Qed.

Lemma string_take_begins n s : begins (string_take n s) s.
Proof.
  revert n. induction s as [|c s IH]; intros [|n]; try by eexists. destruct (IH n) as [r Hr]. exists r.
  change (String c s = String c (string_take n s +:+ r)). congruence.
Qed.

(** ** Sockets *)
Lemma write_all_spec fails data s s' ok :
  write_all fails data s = (s', ok) →
  sk_conn s' = sk_conn s ∧ sk_local s' = sk_local s ∧
  (ok = true ∧ sk_failed s = false ∧ sk_failed s' = false ∧ sk_written s' = sk_written s +:+ data ∨
   ok = false ∧ sk_failed s = false ∧ sk_failed s' = true ∧ begins (sk_written s') (sk_written s +:+ data) ∨
   ok = false ∧ sk_failed s = true ∧ s' = s).
Proof.
  unfold write_all. destruct (sk_failed s) eqn:Hf; [intros [= <- <-]; naive_solver|].
  destruct fails as [n|]; intros [= <- <-]; cbn; split_and!; try done.
  - right. left. split_and!; try done. apply begins_app, string_take_begins.
  - by left.
Qed.

Lemma replay_spec fails buffered s s' ok :
  sk_failed s = false → replay fails buffered s = (s', ok) →
  sk_conn s' = sk_conn s ∧ sk_local s' = sk_local s ∧
  (sk_failed s' = false ∧ sk_written s' = sk_written s +:+ joined buffered ∨
   sk_failed s' = true ∧ begins (sk_written s') (sk_written s +:+ joined buffered)).
Proof.
  revert fails s. induction buffered as [|data buffered IH]; intros fails s Hf; cbn [replay joined foldr].
  - intros [= <- <-]. split_and!; try done. left. by rewrite string_app_nil_r.
  - case_bool_decide as He; [subst data; by apply IH|].
    destruct (write_all (fails 0%nat) data s) as [s1 ok1] eqn:Hw.
    apply write_all_spec in Hw as (Hc & Hl & [(-> & _ & Hf1 & Hw)|[(-> & _ & Hf1 & Hw)|(_ & ? & _)]]); [..|congruence].
    + intros (Hc' & Hl' & Hr)%IH; [|done]. rewrite Hc', Hl', Hc, Hl. split_and!; try done.
      rewrite Hw, string_app_assoc in Hr. done.
    + intros [= <- <-]. split_and!; try done. right. split; [done|].
      eapply begins_trans; [exact Hw|]. apply begins_app, begins_l.
Qed.

(** ** Well-formed states *)

(** Connections and sockets know each other; the loop and the tasks hold
    connections under the id they were tracked under. *)
Record wf (m : Manager) : Prop := {
  wf_conns id o : conns m !! id = Some o → ∃ c, made m !! o = Some (id, c);
  wf_sockets w s : sockets m !! w = Some s → ∃ id c, made m !! sk_conn s = Some (id, c) ∧ tc_state c = Active w;
  wf_active o id c w : made m !! o = Some (id, c) → tc_state c = Active w → ∃ s, sockets m !! w = Some s ∧ sk_conn s = o;
  wf_deciding o msg : loop m = Deciding o msg → ∃ c, made m !! o = Some (tm_conn_id msg, c);
  wf_acting w msg : loop m = Acting (OWrite w) msg → is_Some (sockets m !! w);
  wf_promoting id p o : Promoting id p o ∈ tasks m → ∃ c, made m !! o = Some (id, c);
}.

Lemma lookup_snoc_cases {A} (l : list A) a i b :
  (l ++ [a]) !! i = Some b → l !! i = Some b ∨ i = length l ∧ a = b.
Proof. intros [?|[? Hi]]%lookup_app_Some; [by left|]. apply list_lookup_singleton_Some in Hi as [? <-]. right. split; [lia|done]. Qed.

Lemma lookup_snoc {A} (l : list A) a : (l ++ [a]) !! length l = Some a.
Proof. by apply list_lookup_middle. Qed.

Lemma lookup_snoc_l {A} (l : list A) a i b : l !! i = Some b → (l ++ [a]) !! i = Some b.
Proof. intros Hi. by apply lookup_app_l_Some. Qed.

(** What an updated connection looks like afterwards. *)
Lemma lookup_update (l : list (string * TunnelConn)) f i j id c :
  alter (λ e, (e.1, f e.2)) i l !! j = Some (id, c) →
  ∃ c0, l !! j = Some (id, c0) ∧ (i = j ∧ c = f c0 ∨ i ≠ j ∧ c = c0).
Proof.
  destruct (decide (i = j)) as [<-|Hne].
  - rewrite list_lookup_alter_eq. intros ([id' c']&Hl&[= -> ->])%fmap_Some. eexists. split; [done|]. by left.
  - rewrite list_lookup_alter_ne by done. eauto.
Qed.

Lemma lookup_update_eq (l : list (string * TunnelConn)) f i j id c :
  l !! j = Some (id, c) → alter (λ e, (e.1, f e.2)) i l !! j = Some (id, if decide (i = j) then f c else c).
Proof.
  intros Hl. case_decide as Hij; [subst j; rewrite list_lookup_alter_eq|rewrite list_lookup_alter_ne by done]; by rewrite Hl.
Qed.

Lemma conn_at_Some m o c : conn_at m o = Some c ↔ ∃ id, made m !! o = Some (id, c).
Proof. unfold conn_at. rewrite fmap_Some. split; [intros ([id c']&?&->); eauto|intros [id ?]; by exists (id, c)]. Qed.

Lemma decide_data_state c msg c' outcome :
  decide_data c msg = (c', outcome) →
  tc_peer c' = tc_peer c ∧ tc_did c' = tc_did c ∧
  (∀ w, tc_state c' = Active w ↔ tc_state c = Active w) ∧
  (∀ w, outcome = OWrite w → tc_state c = Active w).
Proof.
  unfold decide_data. destruct (observe _ _) as [q []]; repeat case_match; intros [= <- <-]; cbn in *; split_and!; try done;
    intros w; try split; congruence.
Qed.

Section safety.
Context (target remote_addr : string).
Implicit Types m : Manager.

(** A connection keeps its id and its peer; a connection once active keeps its
    socket. *)
Definition keeps (m m' : Manager) : Prop :=
  ∀ o id c, made m !! o = Some (id, c) → ∃ c', made m' !! o = Some (id, c') ∧ tc_peer c' = tc_peer c ∧
    ∀ w, tc_state c = Active w → tc_state c' = Active w.

Lemma change_keeps ev m m' : change ev m m' → keeps m m'.
Proof.
  intros Hch o id c Ho.
  destruct Hch as [_ Hm _ _|? ? ? ? _ _ _ _ _ _ _ Hm _ _|? ? _ _ Hm _ _|? ? ? ? ? ? _ _ _ _ _ _ _ _ Hm _ _ _
                  |o' msg c0 c' outcome _ Hc Hd _ Hm _ _ _|? ? _ _ _ _ Hm _ _|? ? ? o' c0 ? ? ? ? ? _ _ Hc Hst _ _ Hm _ _];
    rewrite Hm; eauto using lookup_snoc_l.
  - eexists. split; [by apply (lookup_update_eq _ (λ _, c'))|]. case_decide as Heq; [|done]. subst o'.
    apply conn_at_Some in Hc as [id' Hc]. rewrite Ho in Hc. simplify_eq.
    apply decide_data_state in Hd as (? & _ & Hiff & _). split; [done|]. intros w. apply Hiff.
  - eexists. split; [by apply lookup_update_eq|]. case_decide as Heq; [|done]. subst o'.
    apply conn_at_Some in Hc as [id' Hc]. rewrite Ho in Hc. simplify_eq. split; [done|]. intros w. congruence.
Qed.

(** A change keeps a state well-formed if what is new is. *)
Lemma wf_keeps m m' :
  wf m → keeps m m' →
  (∀ id o, conns m' !! id = Some o → conns m !! id = Some o ∨ ∃ c, made m' !! o = Some (id, c)) →
  (∀ w s, sockets m !! w = Some s → ∃ s', sockets m' !! w = Some s' ∧ sk_conn s' = sk_conn s) →
  (∀ w s, sockets m' !! w = Some s → (∃ s0, sockets m !! w = Some s0 ∧ sk_conn s0 = sk_conn s) ∨
     ∃ id c, made m' !! sk_conn s = Some (id, c) ∧ tc_state c = Active w) →
  (∀ o id c w, made m' !! o = Some (id, c) → tc_state c = Active w →
     (∃ c0, made m !! o = Some (id, c0) ∧ tc_state c0 = Active w) ∨ ∃ s, sockets m' !! w = Some s ∧ sk_conn s = o) →
  (∀ o msg, loop m' = Deciding o msg → loop m = Deciding o msg ∨ conns m !! tm_conn_id msg = Some o) →
  (∀ w msg, loop m' = Acting (OWrite w) msg → loop m = Acting (OWrite w) msg ∨ is_Some (sockets m !! w)) →
  promotions_from m m' → wf m'.
Proof.
  intros Hwf Hk Hconns Hsock Hsock' Hact Hdec Hacting Htasks.
  assert (Hkeep : ∀ o id, (∃ c, made m !! o = Some (id, c)) → ∃ c, made m' !! o = Some (id, c)).
  { intros o id (c & Hc). destruct (Hk _ _ _ Hc) as (c' & ? & _). eauto. }
  split.
  - intros id o [Hc|?]%Hconns; [|done]. apply Hkeep. by eapply wf_conns.
  - intros w s [(s0 & Hs & <-)|?]%Hsock'; [|done]. destruct (wf_sockets _ Hwf _ _ Hs) as (id & c & Ho & Hst).
    destruct (Hk _ _ _ Ho) as (c' & ? & _ & ?). eauto.
  - intros o id c w Ho [(c0 & Ho0 & Hst)|?]%(Hact _ _ _ _ Ho); [|done].
    destruct (wf_active _ Hwf _ _ _ _ Ho0 Hst) as (s & Hs & Hcn). destruct (Hsock _ _ Hs) as (s' & ? & ?). exists s'. split; congruence.
  - intros o msg [?|Hc]%Hdec; apply Hkeep; [by eapply wf_deciding|by eapply wf_conns].
  - intros w msg Hl. apply Hacting in Hl as [Hl|[s Hs]].
    + apply wf_acting in Hl as [s Hs]; [|done]. destruct (Hsock _ _ Hs) as (? & ? & _). eauto.
    + destruct (Hsock _ _ Hs) as (? & ? & _). eauto.
  - intros id p o [?|?]%Htasks; apply Hkeep; [by eapply wf_promoting|by eapply wf_conns].
Qed.

Lemma wf_change ev m m' : wf m → change ev m m' → wf m'.
Proof.
  intros Hwf Hch. pose proof (change_keeps _ _ _ Hch) as Hk.
  destruct Hch as [Hc Hm Hs [Hl Ht]|? peer did msg _ _ Hl0 _ _ _ Hc Hm Hs [Hl Ht]|id peer _ Hc Hm Hs [Hl Ht]
                  |? ? ? msg o c _ _ Hl0 Ho _ _ _ Hc Hm Hs Hl Ht
                  |o msg c c' outcome Hl0 Ho Hd Hc Hm Hs Hl Ht|outcome msg Hl0 Hl Hc Haway Hm Ht Hs
                  |n id p o c buffered bytes fails s ok _ Htask Ho Hst Hr Hc Hm Hs [Hl Ht]];
    apply (wf_keeps m m'); try done; try (intros ???; rewrite Ht; by left).
  all: try (rewrite Hs; by eauto). all: try (rewrite Hm; by eauto). all: try (rewrite Hl; by eauto).
  all: try (rewrite Hc; by eauto).
  - intros id o Ho. left. by eapply lookup_weaken.
  - rewrite Hc. intros id o [[<- <-]|[_ ?]]%lookup_insert_Some; [right|by left]. rewrite Hm, lookup_snoc. eauto.
  - rewrite Hm. intros o id c w [?|[-> [= <- <-]]]%lookup_snoc_cases; [eauto|done].
  - rewrite Hc. intros id' o [[<- <-]|[_ ?]]%lookup_insert_Some; [right|by left]. rewrite Hm, lookup_snoc. eauto.
  - rewrite Hs. eauto using lookup_snoc_l.
  - rewrite Hs, Hm. intros w s [?|[-> <-]]%lookup_snoc_cases; [by eauto|right]. cbn. rewrite lookup_snoc. eauto.
  - rewrite Hm, Hs. intros o id' c w [?|[-> [= <- <-]]]%lookup_snoc_cases; [eauto|]. intros [= <-]. right.
    rewrite lookup_snoc. eauto.
  - rewrite Hl. intros ?? [= <- <-]. by right.
  - rewrite Hm. intros o' id c1 w (c0 & Ho' & [[<- ->]|[_ ->]])%(lookup_update _ (λ _, c')) Hst; [|by eauto].
    apply conn_at_Some in Ho as [id' Ho]. rewrite Ho' in Ho. simplify_eq.
    apply decide_data_state in Hd as (_ & _ & Hiff & _). left. eexists. split; [done|]. by apply Hiff.
  - rewrite Hl. intros w ? [= -> <-]. right. apply conn_at_Some in Ho as [id Ho].
    apply decide_data_state in Hd as (_ & _ & _ & Hw). destruct (wf_active _ Hwf _ _ _ w Ho) as (s & -> & _); [by apply Hw|done].
  - intros id o Ho. left. by eapply lookup_weaken.
  - destruct Hs as [[-> _]|(w & s & s' & ok & fails & _ & Hs & Hw & -> & _)]; [eauto|]. intros w' s0 Hs0.
    apply write_all_spec in Hw as (Hcn & _). destruct (decide (w = w')) as [<-|].
    + rewrite list_lookup_insert_eq by (by eapply lookup_lt_Some). exists s'. split; [done|]. congruence.
    + rewrite list_lookup_insert_ne by done. eauto.
  - destruct Hs as [[-> _]|(w & s & s' & ok & fails & _ & Hs & Hw & -> & _)]; [eauto|]. intros w' s0 Hs0. left.
    apply write_all_spec in Hw as (Hcn & _). apply list_lookup_insert_Some in Hs0 as [(<- & <- & _)|[_ ?]]; eauto.
  - rewrite Hs. eauto using lookup_snoc_l.
  - rewrite Hs, Hm. intros w s0 [?|[-> <-]]%lookup_snoc_cases; [by eauto|right].
    apply replay_spec in Hr as (-> & _); [|done]. apply conn_at_Some in Ho as [id' Ho].
    do 2 eexists. split; [by apply lookup_update_eq|]. by rewrite decide_True.
  - rewrite Hm, Hs. intros o' id' c1 w (c0 & Ho' & [[<- ->]|[_ ->]])%lookup_update Hst'; [|by eauto]. injection Hst' as <-.
    right. exists s. rewrite lookup_snoc. split; [done|]. by apply replay_spec in Hr as (-> & _).
Qed.

(** ** One stream

    The stream of one connection id of one peer, against which every socket of
    theirs is held. *)
Section stream.
Context (x p : string) (chunks : list string).
Hypothesis short : Z.of_nat (length chunks) < U64_MAX.

(** A data message that carries the chunk its number names. *)
Definition carries (msg : TunnelMessage) : Prop :=
  ∃ n, tm_seq msg = Some n ∧ 1 ≤ n ∧ chunks !! Z.to_nat (n - 1) = Some (default "" (tm_payload msg)).

(** Everything the peer sends for the connection is of the stream; other peers
    may send anything, for this connection id too. *)
Definition honest (ev : Event) : Prop :=
  match ev with
  | Message _ peer _ msg => peer = p → tm_conn_id msg = x → tm_type msg = MSG_TYPE_DATA → carries msg
  | _ => True
  end.

(** What the loop has decided to write to a socket. *)
Definition in_flight (m : Manager) (w : nat) : string :=
  match loop m with
  | Acting (OWrite w') msg => if decide (w = w') then default "" (tm_payload msg) else ""
  | _ => ""
  end.

(** What a connection has received: buffered, written or about to be. *)
Definition content (m : Manager) (c : TunnelConn) : string :=
  match tc_state c with
  | Pending buffered _ => joined buffered
  | Active w =>
      match sockets m !! w with
      | Some s => sk_written s +:+ (if sk_failed s then "" else in_flight m w)
      | None => ""
      end
  end.

Definition broken (m : Manager) (c : TunnelConn) : Prop :=
  ∃ w s, tc_state c = Active w ∧ sockets m !! w = Some s ∧ sk_failed s = true.

(** A connection that gets no more data. *)
Definition done_with (m : Manager) (o : nat) : Prop :=
  conns m !! x ≠ Some o ∧ (∀ msg, loop m ≠ Deciding o msg) ∨
  ∃ msg, loop m = Acting OOverflow msg ∧ tm_conn_id msg = x.

Definition in_order (m : Manager) (o : nat) (c : TunnelConn) : Prop :=
  ∃ k, (k <= length chunks)%nat ∧ next_expected (tc_seq c) = Z.of_nat k + 1 ∧
    begins (content m c) (joined chunks) ∧
    (content m c = joined (take k chunks) ∨ broken m c ∨ done_with m o).

Record in_order_all (m : Manager) : Prop := {
  io_wf : wf m;
  io_conns o c : made m !! o = Some (x, c) → tc_peer c = p → in_order m o c;
  io_deciding o msg c : loop m = Deciding o msg → made m !! o = Some (x, c) → tc_peer c = p → carries msg;
}.

(** What carries [in_order] from a connection before a change to it after. *)
Lemma in_order_mono m m' o c c' :
  in_order m o c → next_expected (tc_seq c') = next_expected (tc_seq c) →
  (content m' c' = content m c ∨ broken m' c' ∧ begins (content m' c') (content m c)) →
  (broken m c → broken m' c') → (done_with m o → done_with m' o) → in_order m' o c'.
Proof.
  intros (k & Hk & Hn & Hb & Hx) Hseq Hc Hbr Hdone. exists k. split_and!; [done|congruence|..].
  - destruct Hc as [->|[_ Hc]]; [done|]. by eapply begins_trans.
  - destruct Hc as [->|[? _]]; [|by auto]. naive_solver.
Qed.

Lemma done_with_mono m m' o :
  conns m' ⊆ conns m → loop m' = loop m → done_with m o → done_with m' o.
Proof.
  intros Hc Hl [[Hx Hd]|Hcl]; [left|right; by rewrite Hl]. split; [|by setoid_rewrite Hl].
  intros Ho. apply Hx. by eapply lookup_weaken.
Qed.

(** A connection just made. *)
Lemma in_order_new m o c : tc_seq c = new_seq → content m c = "" → in_order m o c.
Proof.
  intros Hs Hc. exists 0%nat. rewrite Hs, Hc. split_and!; [lia|done|by exists (joined chunks)|by left].
Qed.

Lemma not_done m o msg : loop m = Deciding o msg → ¬ done_with m o.
Proof. intros Hl [[_ Hd]|(? & Hd & _)]; [by eapply Hd|congruence]. Qed.

Lemma observe_carried c msg k :
  carries msg → (k <= length chunks)%nat → next_expected (tc_seq c) = Z.of_nat k + 1 →
  let '(q, d) := observe (tc_seq c) (tm_seq msg) in
  match d with
  | Accept => next_expected q = Z.of_nat (S k) + 1 ∧ chunks !! k = Some (default "" (tm_payload msg))
  | _ => next_expected q = Z.of_nat k + 1
  end.
Proof.
  intros (n & Hs & Hn & Hch) Hk Hnext. unfold observe. rewrite Hs, Hnext.
  destruct (n <? _) eqn:Hlt; [done|]. destruct (n =? _) eqn:Heq; [|done]. bools. subst n.
  replace (Z.to_nat (Z.of_nat k + 1 - 1)) with k in Hch by lia. split; [|done]. cbn. unfold next_u64.
  apply lookup_lt_Some in Hch. unfold U64_MAX in short. rewrite Z.mod_small; lia.
Qed.

Lemma content_same m m' c c' :
  tc_state c' = tc_state c →
  (∀ w, tc_state c = Active w → sockets m' !! w = sockets m !! w ∧ (broken m c ∨ in_flight m' w = in_flight m w)) →
  content m' c' = content m c.
Proof.
  intros Hst Hw. unfold content. rewrite Hst. destruct (tc_state c) as [|w] eqn:Hc; [done|].
  destruct (Hw w eq_refl) as [-> [(w' & s & Hc' & Hs & Hf)| ->]]; [|done].
  rewrite Hc in Hc'. injection Hc' as <-. by rewrite Hs, Hf.
Qed.

Lemma broken_same m m' c c' : tc_state c' = tc_state c → sockets m' = sockets m → broken m c → broken m' c'.
Proof. intros Hc Hs (w & s & ? & ? & ?). exists w, s. by rewrite Hc, Hs. Qed.

(** The decision on a message of the stream keeps the connection in order. *)
Lemma in_order_decided m m' o msg c c' outcome :
  wf m → made m !! o = Some (x, c) → loop m = Deciding o msg → tm_conn_id msg = x → in_order m o c → carries msg →
  decide_data c msg = (c', outcome) → sockets m' = sockets m → loop m' = Acting outcome msg → in_order m' o c'.
Proof.
  intros Hwf Ho Hl Hid (k & Hk & Hnext & Hb & Hx) Hcar Hd Hs Hl'.
  assert (Hx' : content m c = joined (take k chunks) ∨ broken m c).
  { destruct Hx as [?|[?|Hd0]]; [by left|by right|]. by eapply not_done in Hd0. }
  pose proof (observe_carried c msg k Hcar Hk Hnext) as Hobs. unfold decide_data in Hd.
  assert (Hidle : ∀ w, in_flight m w = "") by (intros w; unfold in_flight; by rewrite Hl).
  destruct (observe (tc_seq c) (tm_seq msg)) as [q d]. set (payload := default "" (tm_payload msg)) in *.
  destruct d as [|r|e r|]; cycle 1.
  1-3: injection Hd as <- <-; exists k; rewrite (content_same m m' c);
    [by split_and!; try done; destruct Hx' as [?|?]; [left|right; left; apply (broken_same m m' c)]|done|];
    intros w _; rewrite Hs, Hidle; unfold in_flight; rewrite Hl'; split; [done|by right].
  destruct Hobs as [Hn Hch]. pose proof (joined_take_S _ _ _ Hch) as HS.
  assert (Hk' : (S k <= length chunks)%nat) by (apply lookup_lt_Some in Hch; lia).
  change (tc_state (set_seq q c)) with (tc_state c) in Hd. destruct (tc_state c) as [buffered bytes|w] eqn:Hst.
  - assert (Hbuf : joined buffered = joined (take k chunks)).
    { destruct Hx' as [Hx'|(w & s & Hw & _)]; [|congruence]. unfold content in Hx'. by rewrite Hst in Hx'. }
    case_if; injection Hd as <- <-; exists (S k); (split; [done|]); (split; [done|]); unfold content; cbn [tc_state set_seq set_state].
    + rewrite Hst. split; [rewrite Hbuf; apply joined_take|]. right. right. right. by exists msg.
    + rewrite joined_snoc, Hbuf. fold payload. rewrite <-HS. split; [apply joined_take|by left].
  - injection Hd as <- <-. exists (S k). split; [done|]. split; [done|].
    destruct (wf_active _ Hwf _ _ _ _ Ho Hst) as (s & Hsw & _).
    unfold content in *. cbn [tc_state set_seq]. rewrite Hst, Hsw, Hidle in *. rewrite Hs, Hsw.
    destruct (sk_failed s) eqn:Hf; [split; [done|right; left; exists w, s; by rewrite Hs]|].
    assert (Hc : sk_written s = joined (take k chunks)).
    { destruct Hx' as [Hx'|(w' & s' & Hw' & Hs' & Hf')]; [by rewrite string_app_nil_r in Hx'|congruence]. }
    unfold in_flight. rewrite Hl', decide_True by done. fold payload. rewrite Hc, <-HS. split; [apply joined_take|by left].
Qed.

(** A connection the step does not touch. *)
Lemma in_order_frame m m' o c :
  wf m → made m !! o = Some (x, c) → in_order m o c → (∀ w s, sockets m !! w = Some s → sockets m' !! w = Some s) →
  (∀ w s, sockets m !! w = Some s → sk_conn s = o → in_flight m' w = in_flight m w) →
  (done_with m o → done_with m' o) → in_order m' o c.
Proof.
  intros Hwf Ho Hio Hs Hf Hd. apply (in_order_mono m m' o c c); try done.
  - left. apply content_same; [done|]. intros w Hst. destruct (wf_active _ Hwf _ _ _ _ Ho Hst) as (s & Hsw & Hcn).
    rewrite Hsw, (Hs _ _ Hsw). split; [done|right]. by eapply Hf.
  - intros (w & s & ? & ? & ?). exists w, s. auto.
Qed.

Lemma in_flight_loop m m' w : loop m' = loop m → in_flight m' w = in_flight m w.
Proof. unfold in_flight. by intros ->. Qed.

Lemma in_flight_new m : wf m → in_flight m (length (sockets m)) = "".
Proof.
  intros Hwf. unfold in_flight. destruct (loop m) as [| |[| | |w| |] msg] eqn:Hl; try done. case_decide as Hw; [|done].
  apply wf_acting in Hl as [s Hs]; [|done]. subst w. apply lookup_lt_Some in Hs. lia.
Qed.

(** A connection is tracked under a number no older one has. *)
Lemma done_with_insert m m' o id :
  (o < length (made m))%nat → conns m' = <[id := length (made m)]> (conns m) → loop m' = loop m →
  done_with m o → done_with m' o.
Proof.
  intros Ho Hc Hl [[Hx Hd]|Hcl]; [left|right; by rewrite Hl]. split; [|by setoid_rewrite Hl].
  rewrite Hc. intros [[-> <-]|[_ ?]]%lookup_insert_Some; [lia|done].
Qed.

(** A write to the socket of a connection. *)
Lemma written_content m m' c w s s' fails msg ok :
  tc_state c = Active w → sockets m !! w = Some s → sockets m' !! w = Some s' →
  loop m = Acting (OWrite w) msg → loop m' = Idle →
  write_all fails (default "" (tm_payload msg)) s = (s', ok) →
  (content m' c = content m c ∨ broken m' c ∧ begins (content m' c) (content m c)) ∧ (broken m c → broken m' c).
Proof.
  intros Hst Hs Hs' Hl Hl' (_ & _ & Hw)%write_all_spec.
  assert (Hbr : broken m c → sk_failed s = true) by (intros (w' & s0 & ? & ? & ?); congruence).
  unfold content at 1 2 3 4. rewrite Hst, Hs, Hs'. unfold in_flight. rewrite Hl, Hl', decide_True by done.
  destruct Hw as [(_ & Hf & Hf' & ->)|[(_ & Hf & Hf' & Hb)|(_ & Hf & ->)]]; rewrite ?Hf, ?Hf', ?string_app_nil_r.
  - split; [by left|]. intros ?%Hbr. congruence.
  - assert (broken m' c) by (exists w, s'; done). split; [by right|done].
  - split; [by left|]. intros _. by exists w, s.
Qed.

(** The write that was decided is made, or fails. *)
Lemma in_order_acted m m' o c outcome msg :
  wf m → made m !! o = Some (x, c) → in_order m o c → loop m = Acting outcome msg → loop m' = Idle →
  conns m' ⊆ conns m → (acted_away outcome = true → conns m' !! tm_conn_id msg = None) →
  (sockets m' = sockets m ∧ (∀ w, outcome = OWrite w → default "" (tm_payload msg) = "" ∨ sockets m !! w = None) ∨
   ∃ w s s' ok fails, outcome = OWrite w ∧ sockets m !! w = Some s ∧
     write_all fails (default "" (tm_payload msg)) s = (s', ok) ∧ sockets m' = <[w := s']> (sockets m) ∧
     (ok = false → conns m' !! tm_conn_id msg = None)) →
  in_order m' o c.
Proof.
  intros Hwf Ho Hio Hl Hl' Hc Haway Hs.
  assert (Hdone : done_with m o → done_with m' o).
  { left. split; [|by rewrite Hl']. destruct H as [[Hx _]|(msg' & Hm & Hid)].
    - intros Hx'. apply Hx. by eapply lookup_weaken.
    - rewrite Hl in Hm. injection Hm as -> ->. rewrite <-Hid, Haway by done. done. }
  assert (Hidle : ∀ w, in_flight m' w = "") by (intros w; unfold in_flight; by rewrite Hl').
  destruct Hs as [[Hs Hempty]|(w & s & s' & ok & fails & -> & Hsw & Hw & Hs & _)].
  - apply (in_order_frame m); try done; [by rewrite Hs|]. intros w s Hsw _. rewrite Hidle. unfold in_flight. rewrite Hl.
    destruct outcome; try done. case_decide as Heq; [subst w|done]. by destruct (Hempty _ eq_refl); simplify_eq.
  - assert (Hlt : (w < length (sockets m))%nat) by by eapply lookup_lt_Some.
    assert (Hdec : tc_state c = Active w ∨ tc_state c ≠ Active w).
      { destruct (tc_state c) as [|w0]; [by right|]. destruct (decide (w0 = w)); [left|right]; congruence. }
    destruct Hdec as [Hst|Hst].
    + destruct (written_content m m' c w s s' fails msg ok) as [Hcon Hbr]; try done;
        [by rewrite Hs, list_lookup_insert_eq|]. by apply (in_order_mono m m' o c c).
    + apply (in_order_mono m m' o c c); try done.
      * left. apply content_same; [done|]. intros w' Hst'. assert (w ≠ w') by congruence.
        rewrite Hs, list_lookup_insert_ne by done. split; [done|right]. rewrite Hidle. unfold in_flight.
        by rewrite Hl, decide_False by done.
      * intros (w' & s0 & Hst' & Hs0 & ?). exists w', s0. rewrite Hs, list_lookup_insert_ne by congruence. done.
Qed.

(** What was buffered is written to the new socket. *)
Lemma in_order_replayed m m' o c buffered bytes fails s ok :
  wf m → in_order m o c → tc_state c = Pending buffered bytes →
  replay fails buffered {| sk_conn := o; sk_local := false; sk_written := ""; sk_failed := false |} = (s, ok) →
  conns m' = conns m → sockets m' = sockets m ++ [s] → loop m' = loop m →
  in_order m' o (set_state (Active (length (sockets m))) c).
Proof.
  intros Hwf Hio Hst (_ & _ & Hr)%replay_spec Hc Hs Hl; [|done]. cbn in Hr.
  apply (in_order_mono m m' o c); try done.
  - unfold content. cbn [tc_state set_state]. rewrite Hst, Hs, lookup_snoc, (in_flight_loop m m'), in_flight_new by done.
    destruct Hr as [[-> ->]|[Hf Hb]]; rewrite ?string_app_nil_r; [by left|right]. rewrite Hf, string_app_nil_r.
    split; [|done]. exists (length (sockets m)), s. by rewrite Hs, lookup_snoc.
  - intros (w & s0 & ? & _). congruence.
  - apply done_with_mono; [by rewrite Hc|done].
Qed.

(** Connections older than the one just tracked. *)
Lemma in_order_older m m' o c id c1 :
  in_order_all m → made m !! o = Some (x, c) → tc_peer c = p →
  conns m' = <[id := length (made m)]> (conns m) → made m' = made m ++ [(id, c1)] →
  (∀ w s, sockets m !! w = Some s → sockets m' !! w = Some s) → loop m' = loop m → in_order m' o c.
Proof.
  intros Hall Ho Hp Hc Hm Hs Hl. apply (in_order_frame m); try done; [apply Hall|by eapply io_conns|..].
  - intros w s _ _. by apply in_flight_loop.
  - eapply done_with_insert; try done. by eapply lookup_lt_Some.
Qed.

Lemma in_order_conns ev m m' o c :
  in_order_all m → change ev m m' → made m' !! o = Some (x, c) → tc_peer c = p → in_order m' o c.
Proof.
  intros Hall Hch Ho Hp. pose proof (io_wf _ Hall) as Hwf.
  destruct Hch as [Hc Hm Hs [Hl Ht]|? peer did msg _ _ Hl0 _ _ _ Hc Hm Hs [Hl Ht]|id peer _ Hc Hm Hs [Hl Ht]
                  |? ? ? msg o' c0 _ _ Hl0 Ho' _ _ _ Hc Hm Hs Hl Ht
                  |o' msg c0 c' outcome Hl0 Ho' Hd Hc Hm Hs Hl Ht|outcome msg Hl0 Hl Hc Haway Hm Ht Hs
                  |n id pr o' c0 buffered bytes fails s ok _ Htask Ho' Hst Hr Hc Hm Hs [Hl Ht]];
    rewrite Hm in Ho.
  - apply (in_order_frame m); try done; [by eapply io_conns|by rewrite Hs|by intros; apply in_flight_loop|by apply done_with_mono].
  - apply lookup_snoc_cases in Ho as [Ho|[-> [= Hid <-]]]; [|by apply in_order_new].
    eapply in_order_older; try done. by rewrite Hs.
  - apply lookup_snoc_cases in Ho as [Ho|[-> [= Hid <-]]].
    + eapply in_order_older; try done. rewrite Hs. intros. by apply lookup_snoc_l.
    + apply in_order_new; [done|]. unfold content. cbn [tc_state]. rewrite Hs, lookup_snoc. cbn.
      by rewrite (in_flight_loop m), in_flight_new.
  - apply (in_order_frame m); try done; [by eapply io_conns|by rewrite Hs| |].
    + intros w s _ _. unfold in_flight. by rewrite Hl, Hl0.
    + intros [[Hx Hd]|(? & ? & _)]; [|congruence]. left. rewrite Hc. split; [done|]. rewrite Hl. intros ? [= -> ->].
      destruct (wf_conns _ Hwf _ _ Ho') as [c1 Ho1]. rewrite Ho in Ho1. injection Ho1 as -> ->. done.
  - apply (lookup_update _ (λ _, c')) in Ho as (c1 & Ho & [[<- ->]|[Hne ->]]).
    + apply conn_at_Some in Ho' as [id' Ho']. rewrite Ho in Ho'. injection Ho' as <- <-.
      destruct (wf_deciding _ Hwf _ _ Hl0) as [c2 Ho2]. rewrite Ho in Ho2. injection Ho2 as Hid _.
      pose proof (decide_data_state _ _ _ _ Hd) as [Hpe _]. rewrite Hp in Hpe.
      eapply in_order_decided; try done; [by eapply io_conns|by eapply io_deciding].
    + apply (in_order_frame m); try done; [by eapply io_conns|by rewrite Hs| |].
      * intros w s Hw Hcn. unfold in_flight. rewrite Hl, Hl0. destruct outcome; try done. case_decide as Heq; [subst w|done].
        apply conn_at_Some in Ho' as [id' Ho']. apply decide_data_state in Hd as (_ & _ & _ & Hst).
        destruct (wf_active _ Hwf _ _ _ _ Ho' (Hst _ eq_refl)) as (s' & ? & ?). congruence.
      * intros [[Hx Hd']|(? & ? & _)]; [|congruence]. left. rewrite Hc, Hl. done.
  - by eapply in_order_acted; [..|by eapply io_conns| | | | |].
  - apply lookup_update in Ho as (c1 & Ho & [[<- ->]|[Hne ->]]).
    + apply conn_at_Some in Ho' as [id' Ho']. rewrite Ho in Ho'. injection Ho' as <- <-.
      eapply in_order_replayed; try done. by eapply io_conns.
    + apply (in_order_frame m); try done; [by eapply io_conns| |by intros; apply in_flight_loop|].
      * rewrite Hs. intros. by apply lookup_snoc_l.
      * apply done_with_mono; [by rewrite Hc|done].
Qed.

Lemma in_order_step ev m : honest ev → in_order_all m → in_order_all (step target remote_addr ev m).
Proof.
  intros Hev Hall. pose proof (step_change target remote_addr ev m) as Hch. split.
  - eapply wf_change; [apply Hall|done].
  - intros o c. by eapply in_order_conns.
  - intros o msg c Hl Ho Hp. generalize dependent (step target remote_addr ev m). intros m' Hch Hl Ho.
    assert (Hold : loop m = Deciding o msg → carries msg).
    { intros Hl0. destruct (wf_deciding _ (io_wf _ Hall) _ _ Hl0) as [c0 Ho0].
      destruct (change_keeps _ _ _ Hch _ _ _ Ho0) as (c' & Ho' & Hpe & _). rewrite Ho in Ho'. injection Ho' as Hid ->.
      rewrite <-Hid in Ho0. eapply io_deciding; try done. congruence. }
    destruct Hch as [_ _ _ [Hl' _]|? ? ? ? _ _ _ _ _ _ _ _ _ [Hl' _]|? ? _ _ _ _ [Hl' _]
                    |? peer did msg' o' c0 -> Hty _ Hc Ho' Hpe _ _ Hm _ Hl' _|? ? ? ? ? _ _ _ _ _ _ Hl' _|? ? _ Hl' _ _ _ _ _
                    |? ? ? ? ? ? ? ? ? ? _ _ _ _ _ _ _ _ [Hl' _]]; try (apply Hold; congruence); try congruence.
    rewrite Hl in Hl'. injection Hl' as -> ->. rewrite Hm in Ho.
    destruct (wf_conns _ (io_wf _ Hall) _ _ Hc) as [c1 Ho1]. rewrite Ho in Ho1. injection Ho1 as Hid _.
    apply conn_at_Some in Ho' as [? Ho']. rewrite Ho in Ho'. injection Ho' as _ ->.
    apply Hev; [congruence|done|done].
Qed.

Lemma in_order_started : in_order_all started.
Proof. split; try done. split; try done. intros ??? ?%elem_of_nil. done. Qed.

Lemma in_order_run evs m : Forall honest evs → in_order_all m → in_order_all (run target remote_addr evs m).
Proof.
  intros Hevs. revert m. induction Hevs as [|ev evs Hev _ IH]; intros m Hm; [done|]. by apply IH, in_order_step.
Qed.
End stream.

(** ** The sender *)
Lemma forward_carries conn_id pre reads sends msg :
  Z.of_nat (length (pre ++ reads)) < U64_MAX →
  msg ∈ forward_tcp_to_dc conn_id target (Z.of_nat (length pre) + 1) reads sends →
  tm_conn_id msg = conn_id ∧ tm_type msg = MSG_TYPE_DATA ∧ carries (pre ++ reads) msg.
Proof.
  revert pre sends. induction reads as [|chunk reads IH]; intros pre sends Hlen; cbn [forward_tcp_to_dc]; [by intros ?%elem_of_nil|].
  destruct (sends 0%nat) as [copies ok]. rewrite elem_of_app. intros [Hin|Hin].
  - apply list_elem_of_In, repeat_spec in Hin as ->. split_and!; [done..|]. eexists. split_and!; [done|lia|].
    cbn. rewrite list_lookup_middle by lia. done.
  - destruct ok; [|by apply elem_of_nil in Hin]. revert Hin. rewrite (cons_middle chunk pre reads), app_assoc in *.
    intros Hin. apply (IH (pre ++ [chunk]) (λ n, sends (S n))); [done|]. rewrite length_app in *. cbn in *.
    unfold next_u64 in Hin. unfold U64_MAX in Hlen. rewrite length_app in Hlen. cbn in Hlen.
    rewrite Z.mod_small in Hin by lia.
    replace (Z.of_nat (length pre + 1) + 1) with (Z.of_nat (length pre) + 1 + 1) by lia. done.
Qed.

(** What [forward_tcp_to_dc] sends, delivered or not, once or many times, in
    any order. *)
Definition sent_by (x p : string) (reads : list string) (sends : nat → nat * bool) (ev : Event) : Prop :=
  match ev with
  | Message _ peer _ msg =>
      peer = p → tm_conn_id msg = x → tm_type msg = MSG_TYPE_DATA → msg ∈ forward_tcp_to_dc x target 1 reads sends
  | _ => True
  end.

(** C1: what is written for a tunnelled connection is what its peer read. Let
    the data messages that are handled for connection [x] of peer [p] be among
    those [forward_tcp_to_dc] sends for [reads], delivered in any order, any
    number of times or never, while other peers send anything, for [x] too, and
    approvals, promotions, failing writes, closes and timers come when they
    like. Then every socket of such a connection holds a prefix of the bytes
    read, each once and in order; and one that is tracked and has not failed
    holds, between messages, all that was received so far. *)
Theorem stream_in_order x p reads sends evs w s c :
  Z.of_nat (length reads) < U64_MAX → Forall (sent_by x p reads sends) evs →
  let m := run target remote_addr evs started in
  sockets m !! w = Some s → made m !! sk_conn s = Some (x, c) → tc_peer c = p →
  begins (sk_written s) (joined reads) ∧
  (conns m !! x = Some (sk_conn s) → loop m = Idle → sk_failed s = false →
   sk_written s = joined (take (Z.to_nat (next_expected (tc_seq c) - 1)) reads)).
Proof.
  intros Hlen Hevs m Hs Ho Hp.
  assert (Hall : in_order_all x p reads m).
  { apply in_order_run; [done| |apply in_order_started]. eapply Forall_impl; [exact Hevs|].
    intros [] Hev; try done. cbn in *. intros Hpe Hid Hty. apply (forward_carries x [] reads sends); auto. }
  destruct (io_conns _ _ _ _ Hall _ _ Ho Hp) as (k & Hk & Hnext & Hb & Hx).
  destruct (wf_sockets _ (io_wf _ _ _ _ Hall) _ _ Hs) as (id & c' & Ho' & Hst). rewrite Ho in Ho'. injection Ho' as <- <-.
  assert (Hcon : content m c = sk_written s +:+ (if sk_failed s then "" else in_flight m w)) by (unfold content; by rewrite Hst, Hs).
  split.
  - eapply begins_trans; [|exact Hb]. rewrite Hcon. apply begins_l.
  - intros Hconn Hidle Hf. rewrite Hnext. replace (Z.to_nat (Z.of_nat k + 1 - 1)) with k by lia.
    rewrite Hf in Hcon. unfold in_flight in Hcon. rewrite Hidle, string_app_nil_r in Hcon. rewrite <-Hcon.
    destruct Hx as [?|[(w' & s' & Hst' & Hs' & Hf')|[[? _]|(? & ? & _)]]]; [done|congruence|done|congruence].
Qed.
End safety.
