(* ===== verification/TunnelStreamAuth.v ===== *)
(** * Tunnelled connections are authorized and bounded

    Theorems about [TunnelStream]: a socket is opened for a peer only on an
    approval, the finding that the approval is kept by connection id alone, and
    how much a peer can make a manager keep. *)
From S2P Require Import Prelude Wire TunnelTrust TunnelStream TunnelChange TunnelStreamSafety.

Section authorization.
Context (target remote_addr : string).
Local Abbreviation step := (step target remote_addr).
Local Abbreviation run := (run target remote_addr).

Lemma run_snoc evs ev m : run (evs ++ [ev]) m = step ev (run evs m).
Proof. unfold TunnelStream.run. by rewrite foldl_app. Qed.

(** The request [req] for the connection [id] was decided, and allowed. *)
Definition allowed_in (evs : list Event) (id : string) (req : AuthRequest) : Prop :=
  ∃ evs1 n d evs2, evs = evs1 ++ Authorized n d :: evs2 ∧ is_allowed d = true ∧
    tasks (run evs1 started) !! n = Some (Authorizing id req).

Lemma allowed_in_app evs evs' id req : allowed_in evs id req → allowed_in (evs ++ evs') id req.
Proof.
  intros (evs1 & n & d & evs2 & -> & Hd & Ht). exists evs1, n, d, (evs2 ++ evs'). by rewrite <-app_assoc.
Qed.

Section owner.
Context (owner : string → string).

(** Each connection id is asked for by one peer only. *)
Definition asked_by_owner (ev : Event) : Prop :=
  match ev with
  | Message _ peer _ msg => tm_type msg = MSG_TYPE_CONNECT → peer = owner (tm_conn_id msg)
  | _ => True
  end.

Definition request_of (id : string) (req : AuthRequest) : Prop :=
  peer_id req = owner id ∧ forward_key req = target ∧ target_addr req = remote_addr ∧ request_proto req = "tcp".

Definition approved (evs : list Event) (id : string) : Prop := ∃ req, request_of id req ∧ allowed_in evs id req.

Definition task_ok (evs : list Event) (t : Task) : Prop :=
  match t with
  | Authorizing id req => request_of id req
  | Connecting id _ | Promoting id _ _ => approved evs id
  | Closing _ _ => True
  end.

Record authorized_all (evs : list Event) (m : Manager) : Prop := {
  au_wf : wf m;
  au_tasks t : t ∈ tasks m → task_ok evs t;
  au_pending o id c : made m !! o = Some (id, c) → is_pending c = true → tc_peer c = owner id;
  au_sockets w s id c : sockets m !! w = Some s → sk_local s = false → made m !! sk_conn s = Some (id, c) →
                        tc_peer c = owner id ∧ approved evs id;
}.

Lemma approved_app evs evs' id : approved evs id → approved (evs ++ evs') id.
Proof. intros (req & ? & ?). exists req. split; [done|by apply allowed_in_app]. Qed.

Lemma task_ok_app evs evs' t : task_ok evs t → task_ok (evs ++ evs') t.
Proof. destruct t; cbn; auto using approved_app. Qed.

(** The tasks a step leaves: the old ones, and those that follow from them. *)
Lemma step_tasks evs ev t :
  let m := run evs started in
  asked_by_owner ev → (∀ t, t ∈ tasks m → task_ok evs t) → t ∈ tasks (step ev m) → task_ok (evs ++ [ev]) t.
Proof.
  intros m Hev Hok.
  assert (Hold : ∀ t, t ∈ tasks m → task_ok (evs ++ [ev]) t) by auto using task_ok_app.
  assert (Hdrop : ∀ n, t ∈ tasks (drop_task n m) → task_ok (evs ++ [ev]) t) by (intros n ?%(elem_of_drop_task n m); auto).
  destruct ev as [busy peer did msg| |fails|n decision|n ok|n fails|n|id peer|id notify|peer|peer|n| ];
    cbn [TunnelStream.step]; try (by auto).
  - destruct (loop m); [|by auto..]. case_if; [by auto|]. unfold on_tunnel_message.
    case_bool_decide as Hty; [|case_bool_decide; [|case_bool_decide; [|by case_bool_decide; auto]]].
    + unfold handle_remote_connect. destruct (conns m !! _); [by auto|]. unfold track_pending_conn.
      case_if; [by auto|]. cbn. rewrite elem_of_app, list_elem_of_singleton. intros [?| ->]; [by auto|].
      split_and!; try done. by apply Hev.
    + unfold receive_data. repeat (case_match; try by auto).
    + unfold close_conn_from_peer. repeat (case_match; try by auto).
      destruct (close_conn_fields target (tm_conn_id msg) false m) as (_ & _ & _ & _ & ->). auto.
  - unfold decide_step. repeat (case_match; try by auto).
  - unfold act_step. destruct (loop m) as [| |outcome msg]; [by auto..|].
    destruct outcome; repeat case_match; rewrite ?close_conn_tasks; apply Hold.
  - destruct (tasks m !! n) as [[id req| | |]|] eqn:Ht; try by auto. unfold authorized.
    destruct (cancelled _); [by eauto|]. destruct (conns _ !! id); [|by eauto].
    destruct (is_allowed decision) eqn:Hd; cbn; rewrite elem_of_app, list_elem_of_singleton; (intros [?| ->]; [by apply (Hdrop n)|]); [|done].
    exists req. split; [apply (Hok (Authorizing id req)); by eapply list_elem_of_lookup_2|]. by exists evs, n, decision, [].
  - destruct (tasks m !! n) as [[|id p| |]|] eqn:Ht; try by auto. unfold connected.
    assert (approved (evs ++ [Connected n ok]) id).
    { apply approved_app, (Hok (Connecting id p)). by eapply list_elem_of_lookup_2. }
    destruct ok; cbn [negb]; [destruct (cancelled _); [by eauto|]; destruct (conns _ !! id); [|by eauto]|];
      cbn; rewrite elem_of_app, list_elem_of_singleton; (intros [?| ->]; [by apply (Hdrop n)|done]).
  - destruct (tasks m !! n) as [[| |id p o|]|] eqn:Ht; try by auto. unfold promote_pending_conn.
    destruct (conn_at _ o) as [c|]; [|by apply Hdrop]. destruct (tc_state c); [|by apply Hdrop].
    destruct (replay _ _ _) as [s []]; [by apply Hdrop|].
    cbn. rewrite elem_of_app, list_elem_of_singleton; (intros [?| ->]; [by apply (Hdrop n)|done]).
  - destruct (tasks m !! n) as [[| | |id]|] eqn:Ht; try by auto. rewrite ?close_conn_tasks. by apply Hdrop.
  - rewrite ?close_conn_tasks. auto.
  - unfold cancel_pending_close. case_match; auto.
  - destruct (timers m !! n) as [[peer e]|]; [|by auto]. case_bool_decide; [|by auto].
    intros [?|[id ->]]%close_all_tasks; [by auto|done].
Qed.

Lemma pending_decided c msg c' outcome : decide_data c msg = (c', outcome) → is_pending c' = is_pending c.
Proof.
  intros (_ & _ & Hiff & _)%decide_data_state. unfold is_pending.
  destruct (tc_state c') as [|w] eqn:E, (tc_state c) as [|w'] eqn:E'; try done.
  - by discriminate (proj2 (Hiff w') eq_refl).
  - by discriminate (proj1 (Hiff w) eq_refl).
Qed.

Lemma pending_owned ev m m' :
  asked_by_owner ev → change ev m m' →
  (∀ o id c, made m !! o = Some (id, c) → is_pending c = true → tc_peer c = owner id) →
  ∀ o id c, made m' !! o = Some (id, c) → is_pending c = true → tc_peer c = owner id.
Proof.
  intros Hev Hch Hall o id c.
  destruct Hch as [_ Hm _ _|? peer did msg -> Hty _ _ _ _ _ Hm _ _|? ? _ _ Hm _ _|? ? ? ? ? ? _ _ _ _ _ _ _ _ Hm _ _ _
                  |o' msg c0 c' outcome _ Hc Hd _ Hm _ _ _|? ? _ _ _ _ Hm _ _|? ? ? o' c0 ? ? ? ? ? _ _ Hc Hst _ _ Hm _ _];
    rewrite Hm; try apply Hall.
  - intros [Ho|[_ [= <- <-]]]%lookup_snoc_cases; [by eapply Hall|]. intros _. by apply Hev.
  - intros [Ho|[_ [= <- <-]]]%lookup_snoc_cases; [by eapply Hall|done].
  - intros (c1 & Ho & [[<- ->]|[_ ->]])%(lookup_update _ (λ _, c')) Hp; [|by eapply Hall].
    apply conn_at_Some in Hc as [id' Hc]. rewrite Ho in Hc. injection Hc as <- <-.
    rewrite (pending_decided _ _ _ _ Hd) in Hp. apply decide_data_state in Hd as (-> & _). by eapply Hall.
  - by intros (c1 & Ho & [[<- ->]|[_ ->]])%lookup_update Hp; [|by eapply Hall].
Qed.

(** A socket is older than the step, or made by it. *)
Lemma sockets_after ev m m' w s :
  change ev m m' → sockets m' !! w = Some s →
  (∃ s0, sockets m !! w = Some s0 ∧ sk_conn s0 = sk_conn s ∧ sk_local s0 = sk_local s) ∨ sk_local s = true ∨
  ∃ n id p c, tasks m !! n = Some (Promoting id p (sk_conn s)) ∧ conn_at m (sk_conn s) = Some c ∧ is_pending c = true.
Proof.
  intros Hch Hs.
  destruct Hch as [_ _ E _|? ? ? ? _ _ _ _ _ _ _ _ E _|? ? _ _ _ E _|? ? ? ? ? ? _ _ _ _ _ _ _ _ _ E _ _
                  |? ? ? ? ? _ _ _ _ _ E _ _|? ? _ _ _ _ _ _ E|? ? ? o' c0 ? ? ? s' ? _ Ht Hc Hst Hr _ _ E _];
    try (rewrite E in Hs; by eauto 6).
  - rewrite E in Hs. apply lookup_snoc_cases in Hs as [?|[-> <-]]; [by eauto 6|]. right. by left.
  - destruct E as [[E _]|(w' & s1 & s2 & ok & fails & _ & Hs1 & Hw & E & _)]; left; [rewrite E in Hs; by eauto|].
    rewrite E in Hs. apply list_lookup_insert_Some in Hs as [(<- & <- & _)|[_ ?]]; [|by eauto].
    apply write_all_spec in Hw as (-> & -> & _). eauto.
  - rewrite E in Hs. apply lookup_snoc_cases in Hs as [?|[-> <-]]; [by eauto 6|]. right. right.
    apply replay_spec in Hr as (-> & _); [|done]. do 4 eexists. split_and!; [done..|]. unfold is_pending. by rewrite Hst.
Qed.

Lemma authorized_step evs ev :
  asked_by_owner ev → authorized_all evs (run evs started) → authorized_all (evs ++ [ev]) (step ev (run evs started)).
Proof.
  intros Hev Hall. pose proof (step_change target remote_addr ev (run evs started)) as Hch.
  pose proof (change_keeps _ _ _ Hch) as Hk. pose proof (au_wf _ _ Hall) as Hwf.
  split; [by eapply wf_change| |by eapply pending_owned; [..|apply Hall]|].
  - intros t. apply step_tasks; [done|]. apply (au_tasks _ _ Hall).
  - intros w s id c Hs Hloc Ho.
    destruct (sockets_after _ _ _ _ _ Hch Hs) as [(s0 & Hs0 & Hcn & Hl0)|[?|(n & id' & pe & c0 & Ht & Hc & Hpend)]]; [|congruence|].
    + destruct (wf_sockets _ Hwf _ _ Hs0) as (id0 & c0 & Ho0 & _). destruct (Hk _ _ _ Ho0) as (c' & Ho' & Hpe & _).
      rewrite Hcn, Ho in Ho'. injection Ho' as <- <-. destruct (au_sockets _ _ Hall w s0 id c0) as [? ?]; try congruence.
      split; [congruence|by apply approved_app].
    + apply list_elem_of_lookup_2 in Ht. destruct (wf_promoting _ Hwf _ _ _ Ht) as [c1 Ho1].
      destruct (Hk _ _ _ Ho1) as (c' & Ho' & Hpe & _). rewrite Ho in Ho'. injection Ho' as <- <-.
      apply conn_at_Some in Hc as [id2 Hc]. rewrite Ho1 in Hc. injection Hc as <- ->.
      rewrite Hpe. split; [by eapply au_pending|]. apply approved_app. by apply (au_tasks _ _ Hall) in Ht.
Qed.

Lemma authorized_run evs : Forall asked_by_owner evs → authorized_all evs (run evs started).
Proof.
  induction evs as [|ev evs IH] using rev_ind; intros Hevs.
  - split; [apply in_order_started with (x := "") (p := "") (chunks := [])|by intros ? ?%elem_of_nil|done|done].
  - apply Forall_app in Hevs as [Hevs Hev]. rewrite run_snoc. apply authorized_step; [by apply Forall_inv in Hev|auto].
Qed.
End owner.

(** C5: no connection to the target without an approval. If each connection id
    is asked for by one peer, then for every socket that was opened for a peer,
    at some step before an answer of the authorizer allowed a request of that
    very peer, for this forward and this connection. [Runs.approval_borrowed]
    of [TunnelStreamRuns] shows that the condition is needed. *)
Theorem sockets_authorized owner evs w s id c :
  Forall (asked_by_owner owner) evs →
  let m := run evs started in
  sockets m !! w = Some s → sk_local s = false → made m !! sk_conn s = Some (id, c) →
  ∃ req, peer_id req = tc_peer c ∧ forward_key req = target ∧ target_addr req = remote_addr ∧
    request_proto req = "tcp" ∧ allowed_in evs id req.
Proof.
  intros Hevs m Hs Hl Ho. pose proof (authorized_run owner evs Hevs) as Hall.
  destruct (au_sockets _ _ _ Hall _ _ _ _ Hs Hl Ho) as (-> & req & (? & ? & ? & ?) & ?). by exists req.
Qed.

(** ** Bounds *)

(** How many tracked connections satisfy [f]. *)
Definition count (f : TunnelConn → bool) (m : Manager) : Z :=
  zlen (List.filter (λ e, match conn_at m e.2 with Some c => f c | None => false end) (map_to_list (conns m))).

Lemma filter_zlen_imp {A} (f g : A → bool) l : (∀ x, x ∈ l → f x = true → g x = true) → zlen (List.filter f l) ≤ zlen (List.filter g l).
Proof.
  induction l as [|a l IH]; intros Hfg; [done|]. assert (zlen (List.filter f l) ≤ zlen (List.filter g l)).
  { apply IH. intros x Hx. apply Hfg. by right. }
  cbn. destruct (f a) eqn:Hf; [rewrite (Hfg a) by (done || left); rewrite !zlen_cons; lia|].
  destruct (g a); [rewrite zlen_cons|]; lia.
Qed.

Lemma filter_zlen_submseteq {A} (f : A → bool) l k : l ⊆+ k → zlen (List.filter f l) ≤ zlen (List.filter f k).
Proof.
  induction 1 as [|x l k _ IH|x y l|x l k _ IH|l k j _ IH1 _ IH2]; cbn; [done| | | |lia].
  - destruct (f x); rewrite ?zlen_cons; lia.
  - destruct (f x), (f y); rewrite ?zlen_cons; lia.
  - destruct (f x); rewrite ?zlen_cons; lia.
Qed.

(** Connections go, or become what is not counted. *)
Lemma tracked_count_le f m m' :
  conns m' ⊆ conns m →
  (∀ id o c', conns m !! id = Some o → conn_at m' o = Some c' → f c' = true → ∃ c, conn_at m o = Some c ∧ f c = true) →
  count f m' ≤ count f m.
Proof.
  intros Hc Hf. unfold count. etrans; [apply filter_zlen_submseteq, map_to_list_submseteq, Hc|].
  apply filter_zlen_imp. intros [id o] Ho%elem_of_map_to_list. cbn. destruct (conn_at m' o) as [c'|] eqn:Hc'; [|done].
  intros Hfc. destruct (Hf _ _ _ Ho Hc' Hfc) as (c & -> & ?). done.
Qed.

(** A connection is tracked, in the place of one with its id if there is one. *)
Lemma count_insert f m m' id c :
  wf m → conns m' = <[id := length (made m)]> (conns m) → made m' = made m ++ [(id, c)] →
  count f m' ≤ count f m + (if f c then 1 else 0).
Proof.
  intros Hwf Hc Hm. unfold count. rewrite Hc, <-insert_delete_eq.
  set (g := λ e : string * nat, match conn_at m' e.2 with Some c => f c | None => false end).
  assert (Hp : map_to_list (<[id:=length (made m)]> (delete id (conns m))) ≡ₚ (id, length (made m)) :: map_to_list (delete id (conns m))).
  { apply map_to_list_insert. apply lookup_delete_eq. }
  assert (zlen (List.filter g (map_to_list (<[id:=length (made m)]> (delete id (conns m))))) ≤
          zlen (List.filter g ((id, length (made m)) :: map_to_list (delete id (conns m))))) as Hle.
  { apply filter_zlen_submseteq. by rewrite Hp. }
  assert (zlen (List.filter g (map_to_list (delete id (conns m)))) ≤
          zlen (List.filter (λ e, match conn_at m e.2 with Some c => f c | None => false end) (map_to_list (conns m)))) as Hle2.
  { etrans; [apply filter_zlen_submseteq, map_to_list_submseteq, delete_subseteq|]. apply filter_zlen_imp.
    intros [id' o] Ho%elem_of_map_to_list. unfold g. cbn. destruct (wf_conns _ Hwf _ _ Ho) as [c0 Ho0].
    unfold conn_at. rewrite Hm, (lookup_snoc_l _ _ _ _ Ho0), Ho0. done. }
  assert (Hnew : g (id, length (made m)) = f c) by (unfold g, conn_at; cbn; by rewrite Hm, lookup_snoc).
  cbn [List.filter] in Hle. rewrite Hnew in Hle. destruct (f c); rewrite ?zlen_cons in Hle; lia.
Qed.

(** A count that a promotion does not raise. *)
Definition settles (f : TunnelConn → bool) : Prop :=
  ∀ c c', tc_peer c' = tc_peer c → (is_pending c' = true → is_pending c = true) → f c' = true → f c = true.

Lemma count_same f m m' : settles f → conns m' ⊆ conns m → made m' = made m → count f m' ≤ count f m.
Proof. intros Hf Hc Hm. apply tracked_count_le; [done|]. intros id o c' _. unfold conn_at. rewrite Hm. eauto. Qed.

Lemma count_update f m m' o g c0 :
  settles f → conns m' = conns m → made m' = alter (λ e, (e.1, g e.2)) o (made m) → conn_at m o = Some c0 →
  tc_peer (g c0) = tc_peer c0 → (is_pending (g c0) = true → is_pending c0 = true) → count f m' ≤ count f m.
Proof.
  intros Hf Hc Hm Ho Hpe Hpend. apply tracked_count_le; [by rewrite Hc|]. intros id o' c' _ Hc' Hfc.
  apply conn_at_Some in Hc' as [id' Hc']. rewrite Hm in Hc'. apply lookup_update in Hc' as (c1 & Ho1 & [[<- ->]|[_ ->]]).
  - exists c1. split; [apply conn_at_Some; eauto|]. apply conn_at_Some in Ho as [? Ho]. rewrite Ho1 in Ho. injection Ho as _ <-.
    by eapply Hf.
  - exists c1. split; [apply conn_at_Some; eauto|done].
Qed.

(** A step adds at most one to a count, and only when it tracks a connection. *)
Lemma count_change f ev m m' :
  wf m → settles f → change ev m m' →
  count f m' ≤ count f m ∨
  (∃ busy peer did msg, ev = Message busy peer did msg ∧ total_for busy peer m < MAX_CONNS_PER_PEER ∧
     pending_for peer m < MAX_PENDING_CONNS_PER_PEER ∧
     count f m' ≤ count f m + (if f {| tc_state := Pending [] 0; tc_peer := peer; tc_notify := true; tc_seq := new_seq; tc_did := did |} then 1 else 0)) ∨
  (∃ id peer w, ev = LocalOpen id peer ∧
     count f m' ≤ count f m + (if f {| tc_state := Active w; tc_peer := peer; tc_notify := true; tc_seq := new_seq; tc_did := None |} then 1 else 0)).
Proof.
  intros Hwf Hf Hch.
  destruct Hch as [Hc Hm _ _|? ? ? ? -> _ _ Ht Hp _ Hc Hm _ _|? ? -> Hc Hm _ _|? ? ? ? ? ? _ _ _ _ _ _ _ Hc Hm _ _ _
                  |o' msg c0 c' outcome _ Ho Hd Hc Hm _ _ _|? ? _ _ Hc _ Hm _ _|? ? ? o' c0 ? ? ? ? ? _ _ Ho Hst _ Hc Hm _ _].
  - left. by apply count_same.
  - right. left. do 4 eexists. split_and!; [done..|]. by eapply count_insert.
  - right. right. do 3 eexists. split; [done|]. by eapply count_insert.
  - left. apply count_same; [done|by rewrite Hc|done].
  - left. eapply (count_update f m m' o' (λ _, c')); try done; [by apply decide_data_state in Hd as (-> & _)|].
    by rewrite (pending_decided _ _ _ _ Hd).
  - left. by apply count_same.
  - left. by eapply count_update.
Qed.

Definition pending_of (peer : string) (c : TunnelConn) : bool := of_peer peer c && is_pending c.

Lemma pending_of_settles peer : settles (pending_of peer).
Proof. intros c c' Hp Hpend. unfold pending_of, of_peer. rewrite Hp. intros [-> ?]%andb_true_iff. auto. Qed.

Lemma of_peer_settles peer : settles (of_peer peer).
Proof. intros c c' Hp _. unfold of_peer. by rewrite Hp. Qed.

Lemma total_for_le busy peer m : count (of_peer peer) m ≤ total_for busy peer m.
Proof. apply filter_zlen_imp. intros [id o] _. cbn. destruct (conn_at m o); [|done]. by intros ->. Qed.

(** What a waiting connection keeps. *)
Definition buffer_ok (c : TunnelConn) : Prop :=
  match tc_state c with
  | Pending buffered bytes =>
      zlen buffered ≤ PENDING_DATA_BUFFER_MAX_MSGS ∧ bytes = slen (joined buffered) ∧ bytes ≤ PENDING_DATA_BUFFER_MAX_BYTES
  | Active _ => True
  end.

Lemma buffer_decided c msg c' outcome : decide_data c msg = (c', outcome) → buffer_ok c → buffer_ok c'.
Proof.
  unfold decide_data. destruct (observe _ _) as [q []]; try (by intros [= <- <-]).
  destruct (tc_state (set_seq q c)) as [buffered bytes|w] eqn:Hst; cbn in Hst; [|by intros [= <- <-]].
  case_if; intros [= <- <-]; unfold buffer_ok; cbn; rewrite Hst; [done|]. bools. intros (Hn & Hb & Hm).
  rewrite zlen_app, joined_snoc, slen_append. change (zlen [_]) with 1. lia.
Qed.

Record bounded_all (no_local : string → Prop) (m : Manager) : Prop := {
  bd_wf : wf m;
  bd_pending peer : count (pending_of peer) m ≤ MAX_PENDING_CONNS_PER_PEER;
  bd_total peer : no_local peer → count (of_peer peer) m ≤ MAX_CONNS_PER_PEER;
  bd_buffers o id c : made m !! o = Some (id, c) → buffer_ok c;
}.

(** Nothing is opened here to the peer. *)
Definition not_opened_to (no_local : string → Prop) (ev : Event) : Prop :=
  match ev with LocalOpen _ peer => ¬ no_local peer | _ => True end.

Lemma bounded_step no_local ev m : not_opened_to no_local ev → bounded_all no_local m → bounded_all no_local (step ev m).
Proof.
  intros Hev [Hwf Hpend Htot Hbuf]. generalize (step_change target remote_addr ev m).
  generalize (step ev m). intros m' Hch. split; [by eapply wf_change|..].
  - intros peer. destruct (count_change _ _ _ _ Hwf (pending_of_settles peer) Hch) as
      [Hle|[(busy & peer' & did & msg & _ & _ & Hp & Hle)|(id & peer' & w & _ & Hle)]]; [etrans; [exact Hle|apply Hpend]| |].
    + unfold pending_of at 3 in Hle. unfold of_peer in Hle. cbn in Hle. case_bool_decide as Heq; cbn in Hle.
      * subst peer'. change (pending_for peer m) with (count (pending_of peer) m) in Hp. lia.
      * specialize (Hpend peer). lia.
    + unfold pending_of at 3 in Hle. cbn in Hle. rewrite andb_false_r in Hle. specialize (Hpend peer). lia.
  - intros peer Hno. specialize (Htot peer Hno).
    destruct (count_change _ _ _ _ Hwf (of_peer_settles peer) Hch) as
      [Hle|[(busy & peer' & did & msg & _ & Ht & _ & Hle)|(id & peer' & w & -> & Hle)]]; [lia| |].
    + unfold of_peer at 3 in Hle. cbn in Hle. case_bool_decide as Heq; [|lia].
      subst peer'. pose proof (total_for_le busy peer m). lia.
    + unfold of_peer at 3 in Hle. cbn in Hle. case_bool_decide as Heq; [|lia]. by subst peer'.
  - intros o id c.
    destruct Hch as [_ Hm _ _|? ? ? ? _ _ _ _ _ _ _ Hm _ _|? ? _ _ Hm _ _|? ? ? ? ? ? _ _ _ _ _ _ _ _ Hm _ _ _
                    |o' msg c0 c' outcome _ Hc Hd _ Hm _ _ _|? ? _ _ _ _ Hm _ _|? ? ? o' c0 ? ? ? ? ? _ _ Hc Hst _ _ Hm _ _];
      rewrite Hm; try apply Hbuf.
    + intros [Ho|[_ [= _ <-]]]%lookup_snoc_cases; [by eapply Hbuf|done].
    + intros [Ho|[_ [= _ <-]]]%lookup_snoc_cases; [by eapply Hbuf|done].
    + intros (c1 & Ho & [[<- ->]|[_ ->]])%(lookup_update _ (λ _, c')); [|by eapply Hbuf].
      apply conn_at_Some in Hc as [id' Hc]. by eapply buffer_decided, Hbuf.
    + intros (c1 & Ho & [[<- ->]|[_ ->]])%lookup_update; [done|by eapply Hbuf].
Qed.

(** Whatever arrives, a peer has at most eight connections that wait and, if none
    is opened to it from here, at most 64 in all; what waits for an approval is
    bounded in messages and bytes. *)
Theorem tunnel_bounded evs peer :
  let m := run evs started in
  count (pending_of peer) m ≤ MAX_PENDING_CONNS_PER_PEER ∧
  ((∀ id, LocalOpen id peer ∉ evs) → count (of_peer peer) m ≤ MAX_CONNS_PER_PEER) ∧
  (∀ o id c, made m !! o = Some (id, c) → buffer_ok c).
Proof.
  intros m. set (no_local := λ q, q = peer ∧ ∀ id, LocalOpen id peer ∉ evs).
  assert (Hall : bounded_all no_local m).
  { assert (Hevs : Forall (not_opened_to no_local) evs).
    { apply Forall_forall. intros [] Hin; try done. cbn. intros [-> Hno]. by eapply Hno. }
    clearbody no_local. subst m. induction evs as [|ev evs' IH] using rev_ind.
    - split; try done. apply in_order_started with (x := "") (p := "") (chunks := []).
    - apply Forall_app in Hevs as [Hevs Hev]. rewrite run_snoc. apply bounded_step; [by apply Forall_inv in Hev|auto]. }
  split_and!; [apply Hall| |apply Hall]. intros Hno. by apply Hall.
Qed.
End authorization.
