(* ===== verification/TunnelStreamRuns.v ===== *)
(** * Runs of tunnelled connections

    A stream that is delivered in order arrives whole; concrete runs at which
    the theorems of [TunnelStreamSafety] and [TunnelStreamAuth] apply; and the
    run in which an approval serves another peer. *)
From S2P Require Import Prelude Wire TunnelTrust TunnelStream TunnelChange TunnelStreamSafety TunnelStreamAuth.

Section delivery.
Context (target remote_addr : string) (busy : nat → bool) (x p : string) (did : option string).
Local Abbreviation step := (step target remote_addr).
Local Abbreviation run := (run target remote_addr).

(** The messages of a stream from number [n] on, each handled before the next
    arrives. *)
Fixpoint deliver (n : Z) (chunks : list string) : list Event :=
  match chunks with
  | [] => []
  | chunk :: chunks => Message busy p did (data_message x target n chunk) :: Decide :: Act None :: deliver (n + 1) chunks
  end.

(** The loop is idle and the connection is tracked, bound to the peer, and has
    received all before [n]. *)
Record receiving (m : Manager) (o : nat) (n : Z) (st : ConnState) (ts : list Task) : Prop := {
  rc_loop : loop m = Idle;
  rc_cancelled : cancelled m = false;
  rc_conns : conns m !! x = Some o;
  rc_tasks : tasks m = ts;
  rc_made : ∃ c, made m !! o = Some (x, c) ∧ tc_peer c = p ∧ tc_state c = st ∧ next_expected (tc_seq c) = n ∧ binding_holds (tc_did c) did = true;
}.

Lemma run_cons ev evs m : run (ev :: evs) m = run evs (step ev m).
Proof. done. Qed.

(** A message is taken and decided. *)
Lemma deliver_decided m o n st ts chunk :
  receiving m o n st ts → 1 ≤ n → n < U64_MAX →
  ∃ c outcome, tc_peer c = p ∧ binding_holds (tc_did c) did = true ∧ tc_state c = st ∧ next_expected (tc_seq c) = n ∧
    made m !! o = Some (x, c) ∧ decide_data c (data_message x target n chunk) = outcome ∧
    step Decide (step (Message busy p did (data_message x target n chunk)) m) =
      set_loop (Acting outcome.2 (data_message x target n chunk))
        (update_conn o (λ _, outcome.1) (set_loop (Deciding o (data_message x target n chunk)) m)).
Proof.
  intros [Hl Hc Hx Ht (c & Ho & Hp & Hst & Hn & Hb)] H1 H2. exists c. eexists. split_and!; try done.
  cbn [TunnelStream.step]. rewrite Hl, Hc. unfold on_tunnel_message.
  rewrite bool_decide_eq_false_2, bool_decide_eq_true_2 by done. unfold receive_data. cbn [tm_conn_id data_message].
  assert (Hat : conn_at m o = Some c) by (apply conn_at_Some; eauto).
  rewrite Hx, Hat, bool_decide_eq_true_2, Hb by done. cbn [negb]. unfold decide_step. cbn [loop set_loop].
  change (conn_at (set_loop _ m) o) with (conn_at m o). rewrite Hat. by destruct (decide_data _ _).
Qed.

Lemma observe_next q n :
  next_expected q = n → n < U64_MAX → 1 ≤ n → observe q (Some n) = ({| next_expected := n + 1; seq_seen := true |}, Accept).
Proof.
  intros Hn H1 H2. unfold observe. rewrite Hn, Z.ltb_irrefl, Z.eqb_refl. unfold next_u64, U64_MAX in *.
  by rewrite Z.mod_small by lia.
Qed.

(** The connection after its state and number changed. *)
Lemma receiving_update m m' o n st ts c c' n' st' :
  receiving m o n st ts → made m !! o = Some (x, c) → tc_peer c' = tc_peer c → tc_did c' = tc_did c →
  tc_state c' = st' → next_expected (tc_seq c') = n' →
  loop m' = Idle → cancelled m' = cancelled m → conns m' = conns m → tasks m' = tasks m →
  made m' = alter (λ e, (e.1, c')) o (made m) → receiving m' o n' st' ts.
Proof.
  intros [Hl Hc Hx Ht (c0 & Ho & Hp & Hst & Hn & Hb)] Ho' Hp' Hd' Hst' Hn' ? Hc' Hx' Ht' Hm'.
  rewrite Ho' in Ho. injection Ho as ->. split; [done|congruence..|].
  exists c'. rewrite Hm', (lookup_update_eq _ (λ _, c') _ _ _ _ Ho'), decide_True by done. rewrite Hd'. split_and!; try done. congruence.
Qed.

Lemma deliver_active m o n w s ts chunks :
  receiving m o n (Active w) ts → 1 ≤ n → n + zlen chunks ≤ U64_MAX → sockets m !! w = Some s → sk_failed s = false →
  let m' := run (deliver n chunks) m in
  receiving m' o (n + zlen chunks) (Active w) ts ∧
  ∃ s', sockets m' !! w = Some s' ∧ sk_local s' = sk_local s ∧ sk_failed s' = false ∧ sk_written s' = sk_written s +:+ joined chunks.
Proof.
  revert m n s. induction chunks as [|chunk chunks IH]; intros m n s Hrc H1 Hlen Hs Hf.
  - cbn. rewrite Z.add_0_r, string_app_nil_r. eauto 6.
  - rewrite zlen_cons in *. pose proof (zlen_nonneg chunks).
    destruct (deliver_decided m o n _ ts chunk Hrc) as (c & outcome & Hp & Hb & Hst & Hn & Ho & Hd & Hstep); [lia..|].
    cbn [deliver]. rewrite !run_cons, Hstep. unfold decide_data in Hd. cbn [tm_seq data_message] in Hd.
    rewrite (observe_next _ n) in Hd by (done || lia). change (tc_state (set_seq _ c)) with (tc_state c) in Hd.
    rewrite Hst in Hd. subst outcome. cbn [fst snd].
    set (m1 := step (Act None) _).
    assert (Hm1 : receiving m1 o (n + 1) (Active w) ts ∧ ∃ s1, sockets m1 !! w = Some s1 ∧ sk_local s1 = sk_local s ∧ sk_failed s1 = false ∧
                  sk_written s1 = sk_written s +:+ chunk).
    { subst m1. cbn [TunnelStream.step]. unfold act_step. cbn [loop set_loop tm_payload data_message].
      change (sockets (set_loop _ _)) with (sockets m). rewrite Hs. case_bool_decide as He.
      - subst chunk. split; [by apply (receiving_update m _ o n (Active w) ts c (set_seq {| next_expected := n + 1; seq_seen := true |} c))|]. rewrite string_app_nil_r. eauto 6.
      - unfold write_all. rewrite Hf. split; [by apply (receiving_update m _ o n (Active w) ts c (set_seq {| next_expected := n + 1; seq_seen := true |} c))|]. cbn.
        rewrite list_lookup_insert_eq by (by eapply lookup_lt_Some). eauto 6. }
    destruct Hm1 as (Hrc1 & s1 & Hs1 & Hl1 & Hf1 & Hw1). destruct (IH m1 (n + 1) s1) as (Hr & s' & ? & Hl' & ? & Hw'); try done; [lia..|].
    split; [by replace (n + (1 + zlen chunks)) with (n + 1 + zlen chunks) by lia|].
    exists s'. split_and!; [done|congruence|done|]. rewrite Hw', Hw1. cbn [joined foldr]. by rewrite string_app_assoc.
Qed.

Lemma deliver_pending m o n buffered bytes ts chunks :
  receiving m o n (Pending buffered bytes) ts → 1 ≤ n → n + zlen chunks ≤ U64_MAX →
  zlen (buffered ++ chunks) ≤ PENDING_DATA_BUFFER_MAX_MSGS → bytes + slen (joined chunks) ≤ PENDING_DATA_BUFFER_MAX_BYTES →
  let m' := run (deliver n chunks) m in
  receiving m' o (n + zlen chunks) (Pending (buffered ++ chunks) (bytes + slen (joined chunks))) ts ∧ sockets m' = sockets m.
Proof.
  revert m n buffered bytes. induction chunks as [|chunk chunks IH]; intros m n buffered bytes Hrc H1 Hlen Hmsgs Hbytes.
  - cbn. change (slen "") with 0. rewrite !Z.add_0_r, app_nil_r. done.
  - rewrite zlen_cons in *. pose proof (zlen_nonneg chunks). cbn [joined foldr] in Hbytes. fold (joined chunks) in Hbytes.
    rewrite slen_append in Hbytes. pose proof (slen_nonneg (joined chunks)).
    destruct (deliver_decided m o n _ ts chunk Hrc) as (c & outcome & Hp & Hb & Hst & Hn & Ho & Hd & Hstep); [lia..|].
    cbn [deliver]. rewrite !run_cons, Hstep. unfold decide_data in Hd. cbn [tm_seq tm_payload data_message default] in Hd.
    rewrite (observe_next _ n) in Hd by (done || lia). change (tc_state (set_seq _ c)) with (tc_state c) in Hd.
    rewrite Hst in Hd. rewrite zlen_app, zlen_cons in Hmsgs.
    destruct (_ || _) eqn:Hfull in Hd; [bools; cbn in *; lia|]. subst outcome. cbn [fst snd].
    set (m1 := step (Act None) _).
    assert (Hrc1 : receiving m1 o (n + 1) (Pending (buffered ++ [chunk]) (bytes + slen chunk)) ts) 
      by by apply (receiving_update m _ o n (Pending buffered bytes) ts c
           (set_state (Pending (buffered ++ [chunk]) (bytes + slen chunk)) (set_seq {| next_expected := n + 1; seq_seen := true |} c))).
    destruct (IH m1 (n + 1) (buffered ++ [chunk]) (bytes + slen chunk)) as [Hr Hs]; try done; [lia..| | |].
    + rewrite !zlen_app. change (zlen [chunk]) with 1. lia.
    + lia.
    + rewrite <-app_assoc in Hr. cbn [joined foldr]. fold (joined chunks). rewrite slen_append.
      replace (n + (1 + zlen chunks)) with (n + 1 + zlen chunks) by lia. by rewrite Z.add_assoc.
Qed.

Definition connect_message : TunnelMessage :=
  {| tm_type := MSG_TYPE_CONNECT; tm_conn_id := x; tm_target := target; tm_payload := None; tm_seq := None |}.

Definition connect_request : AuthRequest :=
  {| peer_id := p; forward_key := target; target_addr := remote_addr; request_proto := "tcp"; request_did := did |}.

Lemma binding_self (d : option string) : binding_holds d d = true.
Proof. destruct d; [|done]. by apply bool_decide_eq_true. Qed.

Lemma connect_receiving :
  receiving (step (Message busy p did connect_message) started) 0 1 (Pending [] 0) [Authorizing x connect_request] ∧
  sockets (step (Message busy p did connect_message) started) = [].
Proof.
  split; [|done]. split; try done; [cbn; apply lookup_insert_eq|]. eexists. split; [done|]. split_and!; try done. apply binding_self.
Qed.

(** The approval arrives and the target answers. *)
Lemma approve_promoting m o n st d :
  is_allowed d = true → receiving m o n st [Authorizing x connect_request] →
  let m' := run [Authorized 0 d; Connected 0 true] m in
  receiving m' o n st [Promoting x p o] ∧ sockets m' = sockets m.
Proof.
  intros Hd [Hl Hc Hx Ht Hm].
  assert (E1 : step (Authorized 0 d) m = set_tasks [Connecting x p] m).
  { cbn [TunnelStream.step]. rewrite Ht. change ([Authorizing x connect_request] !! 0%nat) with (Some (Authorizing x connect_request)).
    cbv iota beta. unfold authorized, drop_task. cbn [cancelled conns tasks set_tasks].
    by rewrite Hc, Hx, Hd, Ht. }
  assert (E2 : step (Connected 0 true) (set_tasks [Connecting x p] m) = set_tasks [Promoting x p o] m).
  { cbn [TunnelStream.step]. change (tasks (set_tasks [Connecting x p] m) !! 0%nat) with (Some (Connecting x p)).
    cbv iota beta. unfold connected, drop_task. cbn [negb cancelled conns tasks set_tasks]. by rewrite Hc, Hx. }
  rewrite !run_cons, E1, E2. done.
Qed.

Lemma replay_all buffered s :
  sk_failed s = false →
  replay (λ _, None) buffered s =
    ({| sk_conn := sk_conn s; sk_local := sk_local s; sk_written := sk_written s +:+ joined buffered; sk_failed := false |}, true).
Proof.
  revert s. induction buffered as [|data buffered IH]; intros [cn loc w f] Hf; cbn in Hf; subst f; cbn [replay joined foldr].
  - cbn. by rewrite string_app_nil_r.
  - case_bool_decide as He; [subst data; by apply IH|]. unfold write_all. cbn [sk_failed sk_written sk_conn sk_local].
    rewrite IH by done. cbn. by rewrite string_app_assoc.
Qed.

Lemma promote_receiving m o n buffered bytes :
  receiving m o n (Pending buffered bytes) [Promoting x p o] →
  let m' := step (Promoted 0 (λ _, None)) m in
  receiving m' o n (Active (length (sockets m))) [] ∧
  ∃ s, sockets m' !! length (sockets m) = Some s ∧ sk_local s = false ∧ sk_failed s = false ∧ sk_written s = joined buffered.
Proof.
  intros Hrc m'. pose proof Hrc as [Hl Hc Hx Ht (c & Ho & Hp & Hst & Hn & Hb)].
  assert (Hat : conn_at m o = Some c) by (apply conn_at_Some; eauto).
  assert (Em : m' = set_sockets (sockets m ++ [{| sk_conn := o; sk_local := false; sk_written := joined buffered; sk_failed := false |}])
                      (update_conn o (set_state (Active (length (sockets m)))) (drop_task 0 m))).
  { subst m'. cbn [TunnelStream.step]. rewrite Ht. change ([Promoting x p o] !! 0%nat) with (Some (Promoting x p o)).
    cbv iota beta. unfold promote_pending_conn.
    change (conn_at (drop_task 0 m) o) with (conn_at m o). rewrite Hat, Hst. by rewrite replay_all. }
  rewrite Em. split.
  - split; [done..| |]; [cbn; by rewrite Ht|]. eexists. split; [cbn; by apply lookup_update_eq|]. rewrite decide_True by done. done.
  - cbn. rewrite lookup_snoc. eauto.
Qed.
End delivery.

Lemma run_events_app target remote_addr evs1 evs2 m :
  run target remote_addr (evs1 ++ evs2) m = run target remote_addr evs2 (run target remote_addr evs1 m).
Proof. apply foldl_app. Qed.

(** A stream whose messages arrive in order is written whole, those before the
    approval within the bounds of the buffer and the others after it. *)
Theorem stream_delivered target remote_addr busy x p did d pre post :
  is_allowed d = true → zlen pre ≤ PENDING_DATA_BUFFER_MAX_MSGS → slen (joined pre) ≤ PENDING_DATA_BUFFER_MAX_BYTES →
  1 + zlen (pre ++ post) ≤ U64_MAX →
  let m := run target remote_addr
    (Message busy p did (connect_message target x) :: deliver target busy x p did 1 pre
     ++ [Authorized 0 d; Connected 0 true; Promoted 0 (λ _, None)]
     ++ deliver target busy x p did (1 + zlen pre) post) started in
  ∃ s, sockets m !! 0%nat = Some s ∧ sk_local s = false ∧ sk_failed s = false ∧ sk_written s = joined (pre ++ post).
Proof.
  intros Hd Hmsgs Hbytes Hlen. rewrite zlen_app in Hlen. pose proof (zlen_nonneg post). pose proof (zlen_nonneg pre).
  destruct (connect_receiving target remote_addr busy x p did) as [Hc S0].
  cbn zeta. rewrite run_cons, !run_events_app.
  destruct (deliver_pending target remote_addr busy x p did _ _ _ _ _ _ pre Hc) as [Hr1 S1]; [lia..|done|done|].
  rewrite S0 in S1. revert Hr1 S1. generalize (run target remote_addr (deliver target busy x p did 1 pre)
    (step target remote_addr (Message busy p did (connect_message target x)) started)). intros m1 Hr1 S1.
  destruct (approve_promoting _ _ _ _ _ _ _ _ _ d Hd Hr1) as [Hr2 S2].
  change [Authorized 0 d; Connected 0 true; Promoted 0 (λ _, None)]
    with ([Authorized 0 d; Connected 0 true] ++ [Promoted 0 (λ _, None)]).
  rewrite run_events_app. revert Hr2 S2. generalize (run target remote_addr [Authorized 0 d; Connected 0 true] m1). intros m2 Hr2 S2.
  destruct (promote_receiving target remote_addr _ _ _ _ _ _ _ _ Hr2) as [Hr3 (s & Hs & Hloc & Hf & Hw)].
  rewrite S2, S1 in Hr3, Hs. cbn [length] in Hr3, Hs.
  change (run target remote_addr [Promoted 0 (λ _, None)] m2) with (step target remote_addr (Promoted 0 (λ _, None)) m2).
  revert Hr3 Hs. generalize (step target remote_addr (Promoted 0 (λ _, None)) m2). intros m3 Hr3 Hs.
  destruct (deliver_active target remote_addr busy x p did _ _ _ _ s _ post Hr3) as [_ (s' & ? & ? & ? & ?)]; [lia..|done|done|].
  exists s'. rewrite joined_app. cbn [app] in Hw. split_and!; congruence.
Qed.

(** ** Concrete runs *)
Module Runs.
Definition target : string := "tcp:22".
Definition addr : string := "127.0.0.1:22".
Definition quiet (o : nat) : bool := false.
Definition close_from (x : string) : TunnelMessage :=
  {| tm_type := MSG_TYPE_CLOSE; tm_conn_id := x; tm_target := target; tm_payload := None; tm_seq := None |}.

(** A message arrives and is handled. *)
Definition handled (peer did : string) (msg : TunnelMessage) : list Event :=
  [Message quiet peer (Some did) msg; Decide; Act None].

(** What alice reads from her program, each piece sent twice. *)
Definition reads : list string := ["hello "; "world"; "!"].
Definition twice (n : nat) : nat * bool := (2%nat, true).

(** Her pieces arrive before and after the approval, more than once; mallory
    sends data and a close for her connection; the last piece comes after a
    program was accepted here too. *)
Definition busy_run : list Event :=
  [Message quiet "alice" (Some "did:a") (connect_message target "x")]
  ++ handled "alice" "did:a" (data_message "x" target 1 "hello ")
  ++ handled "mallory" "did:m" (data_message "x" target 2 "rm -rf /")
  ++ [Authorized 0 Allow; Connected 0 true; Message quiet "mallory" (Some "did:m") (close_from "x")]
  ++ handled "alice" "did:a" (data_message "x" target 1 "hello ")
  ++ [Promoted 0 (λ _, None); LocalOpen "y" "bob"]
  ++ handled "alice" "did:a" (data_message "x" target 2 "world")
  ++ handled "alice" "did:a" (data_message "x" target 2 "world")
  ++ handled "alice" "did:a" (data_message "x" target 3 "!").

Local Abbreviation after := (run target addr busy_run started).

Definition alice_conn : TunnelConn :=
  {| tc_state := Active 0; tc_peer := "alice"; tc_notify := true; tc_seq := {| next_expected := 4; seq_seen := true |}; tc_did := Some "did:a" |}.

Definition alice_socket : Socket := {| sk_conn := 0; sk_local := false; sk_written := "hello world!"; sk_failed := false |}.

Lemma after_facts :
  sockets after !! 0%nat = Some alice_socket ∧ made after !! sk_conn alice_socket = Some ("x", alice_conn) ∧
  conns after !! "x" = Some 0%nat ∧ loop after = Idle.
Proof. split_and!; vm_compute; reflexivity. Qed.

Lemma busy_sent : Forall (sent_by target "x" "alice" reads twice) busy_run.
Proof.
  unfold busy_run, handled. cbn [app]. repeat constructor; cbn; try done; intros _ _ _; rewrite ?elem_of_cons; naive_solver.
Qed.

Lemma stream_in_order_witness :
  begins "hello world!" (joined reads) ∧ "hello world!" = joined (take 3 reads).
Proof.
  destruct after_facts as (Hs & Hm & Hc & Hl).
  destruct (stream_in_order target addr "x" "alice" reads twice busy_run 0 alice_socket alice_conn) as [Hb Hw];
    [reflexivity|exact busy_sent|exact Hs|exact Hm|reflexivity|].
  split; [exact Hb|]. exact (Hw Hc Hl eq_refl).
Defined.

Definition owner (id : string) : string := if bool_decide (id = "x") then "alice" else "bob".

Lemma sockets_authorized_witness :
  ∃ req, peer_id req = "alice" ∧ forward_key req = target ∧ target_addr req = addr ∧ request_proto req = "tcp" ∧
    allowed_in target addr busy_run "x" req.
Proof.
  destruct after_facts as (Hs & Hm & _ & _).
  apply (sockets_authorized target addr owner busy_run 0 alice_socket "x" alice_conn); [|exact Hs|reflexivity|exact Hm].
  unfold busy_run, handled. cbn [app]. repeat constructor; cbn; intros ?; done.
Defined.

Lemma stream_delivered_witness :
  ∃ s, sockets (run target addr
    (Message quiet "alice" (Some "did:a") (connect_message target "x") :: deliver target quiet "x" "alice" (Some "did:a") 1 ["hello "]
     ++ [Authorized 0 Allow; Connected 0 true; Promoted 0 (λ _, None)]
     ++ deliver target quiet "x" "alice" (Some "did:a") (1 + zlen ["hello "]) ["world"; "!"]) started) !! 0%nat = Some s ∧
    sk_local s = false ∧ sk_failed s = false ∧ sk_written s = "hello world!".
Proof.
  apply (stream_delivered target addr quiet "x" "alice" (Some "did:a") Allow ["hello "] ["world"; "!"]); [reflexivity|..];
    vm_compute; discriminate.
Defined.

Lemma tunnel_bounded_witness :
  count (of_peer "alice") after ≤ MAX_CONNS_PER_PEER.
Proof.
  destruct (tunnel_bounded target addr busy_run "alice") as (_ & Ht & _). apply Ht.
  intros id. unfold busy_run, handled. cbn [app]. intros Hin.
  repeat (apply elem_of_cons in Hin as [Hin|Hin]; [discriminate Hin|]). by apply elem_of_nil in Hin.
Defined.

(** Alice asks, and gives up before she is answered; mallory asks with the id of
    her connection. The answer to alice comes. *)
Definition borrowed_run : list Event :=
  [Message quiet "alice" (Some "did:a") (connect_message target "x");
   Message quiet "alice" (Some "did:a") (close_from "x");
   Message quiet "mallory" (Some "did:m") (connect_message target "x");
   Authorized 0 Allow; Connected 1 true; Promoted 1 (λ _, None)]
  ++ handled "mallory" "did:m" (data_message "x" target 1 "whoami").

(** What mallory sends is written to the target, and the request for mallory is
    still undecided. *)
Theorem approval_borrowed :
  let m := run target addr borrowed_run started in
  sockets m = [{| sk_conn := 1; sk_local := false; sk_written := "whoami"; sk_failed := false |}] ∧
  (tc_peer <$> conn_at m 1) = Some "mallory" ∧
  tasks m = [Authorizing "x" {| peer_id := "mallory"; forward_key := target; target_addr := addr; request_proto := "tcp";
                                request_did := Some "did:m" |}].
Proof. split_and!; vm_compute; reflexivity. Qed.
End Runs.
