(* ===== verification/IdentityDelegation.v ===== *)
(** * Delegated identities

    [src/src/identity/delegation.rs]: a root identity signs that a leaf key
    speaks for it for a while; a receiver attributes a signed wire to the root
    when the attached delegation verifies. Times are nanoseconds; the RFC 3339
    text of chrono is the class [Rfc3339]. *)
From S2P Require Import Prelude Text Json Wire Schedule.

Definition MAX_TTL_DAYS : Z := 400.
Definition CLOCK_SKEW : Z := 5 * MINUTE.
Definition MAX_RECORDED : Z := 200.
Definition MILLI : Z := 10 ^ 6.
Definition YEAR_10000 : Z := 253402300800 * SECOND.

(** [to_rfc3339_opts(Millis, true)] and [parse_from_rfc3339]. *)
Class Rfc3339 := {
  rfc3339_millis : Z → string;
  parse_rfc3339 : string → option Z;
}.
(** A time of the common era is read back to the millisecond. *)
Class Rfc3339Laws (R : Rfc3339) := {
  rfc3339_roundtrip t : 0 ≤ t < YEAR_10000 → parse_rfc3339 (rfc3339_millis t) = Some (t - t mod MILLI);
}.

Record DelegationV1 := { d_v : Z; d_root : string; d_leaf : string; d_iat : string; d_exp : string; d_sig : string }.

(** [serde_json::to_value] *)
Definition delegation_fields (d : DelegationV1) : list (string * json) :=
  [("exp", JString (d_exp d)); ("iat", JString (d_iat d)); ("leaf", JString (d_leaf d)); ("root", JString (d_root d));
   ("sig", JString (d_sig d)); ("v", JNumber (PosInt (d_v d)))].
Definition delegation_json (d : DelegationV1) : json := JObject (delegation_fields d).

(** [serde_json::from_value]: an object with the fields, or their sequence. *)
Definition as_u8 (v : json) : option Z :=
  match v with JNumber (PosInt n) => if n <=? 255 then Some n else None | _ => None end.
Definition delegation_of_values (v root leaf iat exp sig : json) : option DelegationV1 :=
  match as_u8 v, as_str root, as_str leaf, as_str iat, as_str exp, as_str sig with
  | Some v, Some root, Some leaf, Some iat, Some exp, Some sig =>
      Some {| d_v := v; d_root := root; d_leaf := leaf; d_iat := iat; d_exp := exp; d_sig := sig |}
  | _, _, _, _, _, _ => None
  end.
Definition delegation_of_json (j : json) : option DelegationV1 :=
  match j with
  | JObject fields =>
      match assoc "v" fields, assoc "root" fields, assoc "leaf" fields, assoc "iat" fields, assoc "exp" fields,
            assoc "sig" fields with
      | Some v, Some root, Some leaf, Some iat, Some exp, Some sig => delegation_of_values v root leaf iat exp sig
      | _, _, _, _, _, _ => None
      end
  | JArray [v; root; leaf; iat; exp; sig] => delegation_of_values v root leaf iat exp sig
  | _ => None
  end.

Section delegation.
Context {C : Crypto} {Ch : Chrono} {R : Rfc3339}.

Definition delegation_payload (d : DelegationV1) : string :=
  stable_stringify (JObject (obj_remove "sig" (delegation_fields d))).

Definition set_sig (d : DelegationV1) (sig : string) : DelegationV1 :=
  {| d_v := d_v d; d_root := d_root d; d_leaf := d_leaf d; d_iat := d_iat d; d_exp := d_exp d; d_sig := sig |}.

Definition issue (identity : Identity) (leaf : string) (ttl now : Z) : result DelegationV1 failure :=
  let root := did identity in
  ensure (negb (bool_decide (leaf = root)))
    (Fail "cannot delegate to the root identity itself (root == leaf)") ;;?
  let? _ := map_err (λ _, Fail "leaf is not a well-formed Ed25519 did:key") (pubkey_from_did leaf) in
  ensure (0 <? ttl) (Fail "ttl must be positive") ;;?
  ensure (ttl <=? MAX_TTL_DAYS * DAY) (Fail "ttl exceeds the 400-day sanity cap") ;;?
  let? exp_at := add_time now ttl in
  let d := {| d_v := 1; d_root := root; d_leaf := leaf; d_iat := rfc3339_millis now; d_exp := rfc3339_millis exp_at;
              d_sig := "" |} in
  Ok (set_sig d (b64url_encode (sign identity (delegation_payload d)))).

Definition verify_delegation (d : DelegationV1) (now : Z) (expect_leaf : option string) : bool :=
  if negb (d_v d =? 1) then false else
  if negb (is_ok (pubkey_from_did (d_root d))) || negb (is_ok (pubkey_from_did (d_leaf d))) then false else
  if bool_decide (d_root d = d_leaf d) then false else
  match parse_rfc3339 (d_iat d) with
  | None => false
  | Some iat =>
      match parse_rfc3339 (d_exp d) with
      | None => false
      | Some exp =>
          if exp <=? iat then false else
          if MAX_TTL_DAYS * DAY <? exp - iat then false else
          if (now <? iat - CLOCK_SKEW) || (exp + CLOCK_SKEW <? now) then false else
          match b64url_decode (d_sig d) with
          | None => false
          | Some sig =>
              match verify (d_root d) (delegation_payload d) sig with
              | Ok true =>
                  match expect_leaf with Some l => bool_decide (d_leaf d = l) | None => true end
              | _ => false
              end
          end
      end
  end.

Record ResolvedSender := { sender_id : string; sender_leaf : string; sender_root : option string }.

Definition delegated (s : ResolvedSender) : bool := is_some (sender_root s).

Definition resolve_verified_sender (wire : json) (leaf : string) (now : Z) : ResolvedSender :=
  let root :=
    match get "delegation" wire with
    | Some j =>
        match delegation_of_json j with
        | Some d => if verify_delegation d now (Some leaf) then Some (d_root d) else None
        | None => None
        end
    | None => None
    end in
  {| sender_id := default leaf root; sender_leaf := leaf; sender_root := root |}.

Definition resolve_wire_sender (wire : json) (now : Z) : option ResolvedSender :=
  if negb (wire_ok wire) then None else
  match get_str "fromId" wire with
  | Some leaf => Some (resolve_verified_sender wire leaf now)
  | None => None
  end.

(** ** Durations in text *)

(** The number and the unit, days without one. *)
Definition split_unit (s : string) : string * ascii :=
  match String.rev s with
  | String c r => if is_ascii_alphabetic c then (String.rev r, ascii_lower c) else (s, "d"%char)
  | EmptyString => (s, "d"%char)
  end.

Definition parse_duration (s : string) : result Z failure :=
  let s := trim s in
  ensure (negb (bool_decide (s = ""))) (Fail "duration string is empty") ;;?
  let '(number, unit) := split_unit s in
  let? n := ok_or (parse_int I64_MAX number) (Fail "invalid duration") in
  ensure (0 <? n) (Fail "duration must be positive") ;;?
  if bool_decide (unit = "s"%char) then duration SECOND n
  else if bool_decide (unit = "m"%char) then duration MINUTE n
  else if bool_decide (unit = "h"%char) then duration HOUR n
  else if bool_decide (unit = "d"%char) then duration DAY n
  else Err (Fail "unknown duration unit").

Definition parse_ttl (s : string) : result Z failure :=
  let? d := parse_duration s in
  if (d <? DAY) || (365 * DAY <? d) then Err (Fail "ttl must be between 1 and 365 days") else Ok d.

(** ** The issued delegations *)

(** The entries of the file after another one is recorded. *)
Definition record_entry (l : list DelegationV1) (d : DelegationV1) : list DelegationV1 :=
  let l := List.filter (λ e, negb (bool_decide (d_leaf e = d_leaf d))) l ++ [d] in
  drop (length l - Z.to_nat MAX_RECORDED) l.

(** The file: [None] when it cannot be read; [ok] tells whether the write
    succeeds. *)
Definition record_delegation (file : option (list DelegationV1)) (d : DelegationV1) (ok : bool)
    : option (list DelegationV1) * result () string :=
  match file with
  | None => (None, Err "reading the delegations")
  | Some l => if ok then (Some (record_entry l d), Ok ()) else (Some l, Err "writing the delegations")
  end.

(** ** Round trips *)

Lemma delegation_json_roundtrip d : 0 ≤ d_v d ≤ 255 → delegation_of_json (delegation_json d) = Some d.
Proof.
  intros Hv. destruct d as [v root leaf iat exp sig]. unfold delegation_json, delegation_of_json, delegation_fields.
  cbn [assoc d_v d_root d_leaf d_iat d_exp d_sig] in *. rewrite !(bool_decide_false (_ = _)) by done.
  rewrite !bool_decide_true by done. unfold delegation_of_values. cbn [as_u8 as_str].
  by rewrite (proj2 (Z.leb_le v 255)) by lia.
Qed.

Lemma payload_set_sig d sig : delegation_payload (set_sig d sig) = delegation_payload d.
Proof. done. Qed.

(** The signature, the parties and the times of a delegation that verifies. *)
Definition authentic (d : DelegationV1) (now : Z) : Prop :=
  ∃ key sig iat exp, pubkey_from_did (d_root d) = Ok key ∧ b64url_decode (d_sig d) = Some sig ∧
    ed_verify key (delegation_payload d) sig = true ∧ d_v d = 1 ∧ d_root d ≠ d_leaf d ∧
    parse_rfc3339 (d_iat d) = Some iat ∧ parse_rfc3339 (d_exp d) = Some exp ∧
    iat < exp ≤ iat + MAX_TTL_DAYS * DAY ∧ iat - CLOCK_SKEW ≤ now ≤ exp + CLOCK_SKEW.

Lemma verify_delegation_true d now expect : verify_delegation d now expect = true →
  authentic d now ∧ (∀ l, expect = Some l → d_leaf d = l).
Proof.
  unfold verify_delegation. intros H.
  destruct (negb (d_v d =? 1)) eqn:Hv; [done|].
  destruct (negb (is_ok (pubkey_from_did (d_root d))) || _) eqn:Hk; [done|].
  case_bool_decide as Hne; [done|].
  destruct (parse_rfc3339 (d_iat d)) as [iat|] eqn:Hiat; [|done].
  destruct (parse_rfc3339 (d_exp d)) as [exp|] eqn:Hexp; [|done].
  destruct (exp <=? iat) eqn:H1; [done|]. destruct (_ <? exp - iat) eqn:H2; [done|].
  destruct ((now <? _) || _) eqn:H3; [done|].
  destruct (b64url_decode (d_sig d)) as [sig|] eqn:Hs; [|done].
  destruct (verify (d_root d) (delegation_payload d) sig) as [[]|] eqn:Hver; [|done..].
  unfold verify in Hver. destruct (pubkey_from_did (d_root d)) as [key|] eqn:Hkey; [|done]. cbn [rbind] in Hver.
  destruct (negb (key_from_bytes key)); [done|]. destruct (negb (signature_try_from sig)); [done|].
  injection Hver as Hver. apply Z.leb_gt in H1. apply Z.ltb_ge in H2. apply orb_false_iff in H3 as [H3 H4].
  apply Z.ltb_ge in H3, H4. apply negb_false_iff, Z.eqb_eq in Hv. split.
  - exists key, sig, iat, exp. split_and!; try done; lia.
  - intros l ->. by bools.
Qed.

(** What [issue] produces verifies from five minutes before its time to five
    minutes after its end, and at no other time. *)
Lemma issue_verifies `{!CryptoLaws C, !Rfc3339Laws R} identity leaf ttl now d t expect :
  identity_wf identity → issue identity leaf ttl now = Ok d →
  0 ≤ now → now + ttl < YEAR_10000 → MILLI ≤ ttl →
  d_root d = did identity ∧ d_leaf d = leaf ∧ d_v d = 1 ∧
  verify_delegation d t expect =
    (now - now mod MILLI - CLOCK_SKEW <=? t) && (t <=? now + ttl - (now + ttl) mod MILLI + CLOCK_SKEW)
    && match expect with Some l => bool_decide (leaf = l) | None => true end.
Proof.
  intros Hid Hiss Hnow Hend Httl. unfold issue in Hiss.
  apply rbind_Ok in Hiss as ([] & Hne%ensure_Ok & H). apply rbind_Ok in H as (k & Hk & H).
  apply rbind_Ok in H as ([] & Hpos%ensure_Ok & H). apply rbind_Ok in H as ([] & Hcap%ensure_Ok & H).
  apply rbind_Ok in H as (e & He & H).
  assert (e = now + ttl) as ->.
  { unfold add_time in He. destruct (_ && _); [by injection He as <-|done]. }
  injection H as <-. split; [done|]. split; [done|]. split; [done|].
  unfold verify_delegation. rewrite payload_set_sig. cbn [set_sig d_v d_root d_leaf d_iat d_exp d_sig].
  bools. unfold MILLI in *.
  assert (Hleaf : is_ok (pubkey_from_did leaf) = true).
  { destruct (pubkey_from_did leaf); [done|]. done. }
  unfold identity_wf in Hid. rewrite Hid, Hleaf. cbn [is_ok negb orb Z.eqb].
  rewrite bool_decide_false by congruence.
  rewrite !rfc3339_roundtrip by (unfold MILLI in *; lia). unfold MILLI, MAX_TTL_DAYS, DAY, HOUR, MINUTE, SECOND in *.
  pose proof (Z.mod_pos_bound now (10 ^ 6) ltac:(lia)). pose proof (Z.mod_pos_bound (now + ttl) (10 ^ 6) ltac:(lia)).
  pose proof (Z.div_mod now (10 ^ 6) ltac:(lia)). pose proof (Z.div_mod (now + ttl) (10 ^ 6) ltac:(lia)).
  rewrite (proj2 (Z.leb_gt _ _)) by lia. rewrite (proj2 (Z.ltb_ge _ _)) by lia.
  destruct ((t <? _) || _) eqn:Hwin.
  - symmetry. apply orb_true_iff in Hwin as [Hw|Hw]; apply Z.ltb_lt in Hw.
    + by rewrite (proj2 (Z.leb_gt _ t)).
    + rewrite (proj2 (Z.leb_gt t _)) by lia. by rewrite andb_false_r.
  - apply orb_false_iff in Hwin as [Hw1 Hw2]. apply Z.ltb_ge in Hw1, Hw2.
    rewrite (proj2 (Z.leb_le _ t)), (proj2 (Z.leb_le t _)) by lia.
    rewrite b64url_roundtrip. unfold verify, sign. rewrite Hid. cbn [rbind].
    by rewrite public_key_valid, signature_parses, ed_correct.
Qed.
End delegation.

(** C22. Who a signed wire is attributed to. The leaf is always the key that
    signed the wire; a root is named only when the wire carries a delegation,
    signed by that root for that leaf, in time (with five minutes of skew) and
    for at most 400 days, so nobody speaks for a root that did not sign for it;
    what [issue] produced is honored from five minutes before its time to five
    minutes after its end, for its leaf only; and a delegation, however broken,
    never makes a wire invalid. *)
Theorem sender_exact {C : Crypto} {Ch : Chrono} {R : Rfc3339} `{!CryptoLaws C, !Rfc3339Laws R} :
  (∀ wire leaf now, let s := resolve_verified_sender wire leaf now in
     sender_leaf s = leaf ∧ sender_id s = default leaf (sender_root s) ∧
     ∀ r, sender_root s = Some r → ∃ j d, get "delegation" wire = Some j ∧ delegation_of_json j = Some d ∧
       d_root d = r ∧ d_leaf d = leaf ∧ authentic d now) ∧
  (∀ identity leaf ttl now d wire leaf' t,
     identity_wf identity → issue identity leaf ttl now = Ok d → 0 ≤ now → now + ttl < YEAR_10000 → MILLI ≤ ttl →
     get "delegation" wire = Some (delegation_json d) →
     sender_root (resolve_verified_sender wire leaf' t) =
       if (now - now mod MILLI - CLOCK_SKEW <=? t) && (t <=? now + ttl - (now + ttl) mod MILLI + CLOCK_SKEW)
          && bool_decide (leaf = leaf')
       then Some (did identity) else None) ∧
  (∀ wire now, resolve_wire_sender wire now = None ↔ wire_ok wire = false).
Proof.
  split; [|split].
  - intros wire leaf now. cbv zeta. unfold resolve_verified_sender. cbn [sender_leaf sender_id sender_root].
    split_and!; [done..|]. intros r. destruct (get "delegation" wire) as [j|]; [|done].
    destruct (delegation_of_json j) as [d|] eqn:Hd; [|done].
    destruct (verify_delegation d now (Some leaf)) eqn:Hv; [|done]. intros [= <-].
    apply verify_delegation_true in Hv as [Ha Hl]. exists j, d. split_and!; auto.
  - intros identity leaf ttl now d wire leaf' t Hid Hiss H1 H2 H3 Hget.
    destruct (issue_verifies identity leaf ttl now d t (Some leaf') Hid Hiss H1 H2 H3) as (Hr & Hl & Hv & Hver).
    unfold resolve_verified_sender. cbn [sender_root]. rewrite Hget, delegation_json_roundtrip by (rewrite Hv; lia).
    by rewrite Hver, Hr.
  - intros wire now. unfold resolve_wire_sender. destruct (wire_ok wire) eqn:Hw; [|done]. cbn [negb].
    apply wire_ok_spec in Hw as (fields & from & sig & bytes & key & -> & Hf & _). by rewrite Hf.
Qed.

Lemma digit_not_alphabetic c : is_ascii_digit c = true → is_ascii_alphabetic c = false.
Proof.
  destruct c as [b0 b1 b2 b3 b4 b5 b6 b7].
  destruct b0, b1, b2, b3, b4, b5, b6, b7; intros H; vm_compute in H; (discriminate H || reflexivity).
Qed.

Section durations.
Context {Ch : Chrono}.

Lemma parse_ttl_range s d : parse_ttl s = Ok d → DAY ≤ d ≤ 365 * DAY.
Proof.
  unfold parse_ttl. intros (x & _ & H)%rbind_Ok. destruct (_ || _) eqn:E; [done|]. injection H as ->.
  apply orb_false_iff in E as [E1 E2]. apply Z.ltb_ge in E1, E2. lia.
Qed.

(** A day count is read back, and without a unit it counts days. *)
Lemma parse_ttl_days n unit : 1 ≤ n ≤ 365 → unit = "" ∨ unit = "d" ∨ unit = "D" → 365 * DAY ≤ delta_max →
  parse_ttl (show n +:+ unit) = Ok (n * DAY).
Proof.
  intros Hn Hunit Hmax. unfold parse_ttl, parse_duration.
  destruct (show_spec n ltac:(lia)) as (Hdig & Hval & _).
  assert (Hg : string_forallb is_ascii_graphic (show n +:+ unit) = true).
  { rewrite string_forallb_append. rewrite (string_forallb_impl _ _ (show n) digit_graphic Hdig).
    by destruct Hunit as [->|[->| ->]]. }
  rewrite (trim_graphic _ Hg).
  assert (Hne' : show n +:+ unit ≠ "").
  { intros E. destruct (show n); [|done]. cbn in Hval. lia. }
  rewrite bool_decide_false by done. cbn [negb ensure rbind].
  assert (Hsplit : split_unit (show n +:+ unit) = (show n, "d"%char)).
  { unfold split_unit. destruct Hunit as [->|Hunit].
    - rewrite string_app_nil_r. destruct (String.rev (show n)) as [|c r] eqn:Er.
      { apply (f_equal String.rev) in Er. rewrite rev_rev in Er. by rewrite Er in Hval; cbn in Hval; lia. }
      assert (Hc : is_ascii_digit c = true).
      { assert (Hr : string_forallb is_ascii_digit (String.rev (show n)) = true).
        { clear -Hdig. induction (show n) as [|a s IH]; [done|]. rewrite rev_cons, string_forallb_append.
          cbn [string_forallb] in Hdig |- *. apply andb_true_iff in Hdig as [Ha Hs]. by rewrite (IH Hs), Ha. }
        rewrite Er in Hr. cbn [string_forallb] in Hr. by apply andb_true_iff in Hr as [? _]. }
      by rewrite (digit_not_alphabetic c Hc).
    - rewrite rev_append. pose proof (rev_rev (show n)) as Hr. revert Hr. generalize (String.rev (show n)). intros r Hr.
      destruct Hunit as [->| ->]; [change (String.rev "d" +:+ r) with (String "d" r)|change (String.rev "D" +:+ r) with (String "D" r)];
        cbv beta iota; rewrite Hr; reflexivity. }
  rewrite Hsplit. unfold parse_int.
  assert (Hminus : strip_prefix "-" (show n) = None).
  { destruct (show n) as [|a s] eqn:E; [done|]. cbn [string_forallb] in Hdig. apply andb_true_iff in Hdig as [Ha _].
    cbn. rewrite bool_decide_false; [done|]. intros <-. done. }
  rewrite Hminus, parse_show by (unfold I64_MAX; lia). cbn [ok_or rbind].
  rewrite (proj2 (Z.ltb_lt 0 n)) by lia. cbn [ensure rbind].
  rewrite !(bool_decide_false (_ = _)) by done. rewrite bool_decide_true by done. unfold duration.
  assert (HD : 0 < DAY) by done. rewrite Z.abs_eq by nia. rewrite (proj2 (Z.leb_le _ _)) by nia. cbn [rbind].
  rewrite (proj2 (Z.ltb_ge _ _)), (proj2 (Z.ltb_ge _ _)) by nia. done.
Qed.

(** A count beyond the range of [TimeDelta] does not fail: it panics. *)
Lemma long_ttl_panics : delta_max < 10 ^ 13 * DAY → parse_ttl "10000000000000" = Err Panic.
Proof.
  intros H. unfold parse_ttl, parse_duration.
  replace (trim "10000000000000") with "10000000000000" by done.
  rewrite bool_decide_false by done. cbn [negb ensure rbind].
  change (split_unit "10000000000000") with ("10000000000000", "d"%char). cbv beta iota.
  replace (parse_int I64_MAX "10000000000000") with (Some (10 ^ 13)) by (vm_compute; reflexivity).
  cbn [ok_or rbind]. rewrite (proj2 (Z.ltb_lt 0 _)) by lia. cbn [ensure rbind].
  rewrite !(bool_decide_false (_ = _)) by done. rewrite bool_decide_true by done. unfold duration.
  rewrite (proj2 (Z.leb_gt _ _)); [done|]. unfold DAY, HOUR, MINUTE, SECOND in *. lia.
Qed.
End durations.

(** The file holds the newest 200 delegations, one for a leaf, the last at the end. *)
Lemma record_entry_spec l d :
  NoDup (map d_leaf l) → zlen l ≤ MAX_RECORDED →
  let l' := record_entry l d in
  NoDup (map d_leaf l') ∧ zlen l' ≤ MAX_RECORDED ∧ last l' = Some d ∧
  (∀ e, e ∈ l' → e = d ∨ (e ∈ l ∧ d_leaf e ≠ d_leaf d)).
Proof.
  intros Hnd Hlen. cbv zeta. unfold record_entry.
  set (k := List.filter _ l). assert (Hk : zlen k ≤ zlen l) by apply filter_zlen.
  assert (Hkin : ∀ e, e ∈ k → e ∈ l ∧ d_leaf e ≠ d_leaf d).
  { intros e [? He]%elem_of_List_filter. by bools. }
  assert (Hnd' : NoDup (map d_leaf (k ++ [d]))).
  { rewrite map_app. apply NoDup_app. split_and!; [by apply NoDup_map_filter| |apply NoDup_singleton].
    intros x (e & -> & He)%list_elem_of_fmap Hd%list_elem_of_singleton. by apply Hkin in He as [_ ?]. }
  assert (Hdrop : (length (k ++ [d]) - Z.to_nat MAX_RECORDED ≤ length k)%nat).
  { unfold zlen, MAX_RECORDED in *. rewrite length_app. simpl. lia. }
  split_and!.
  - rewrite <-(take_drop (length (k ++ [d]) - Z.to_nat MAX_RECORDED) (k ++ [d])), map_app in Hnd'.
    by apply NoDup_app in Hnd' as (_ & _ & ?).
  - unfold zlen, MAX_RECORDED in *. rewrite length_drop. lia.
  - rewrite drop_app_le by done. by rewrite last_snoc.
  - intros e He. assert (He' : e ∈ k ++ [d]).
    { rewrite <-(take_drop (length (k ++ [d]) - Z.to_nat MAX_RECORDED) (k ++ [d])). apply elem_of_app. by right. }
    apply elem_of_app in He' as [?| ->%list_elem_of_singleton]; [right; auto|by left].
Qed.

(** ** A concrete delegation *)

Module DelegationSamples.
Import Wire.Toy.

#[export] Instance toy_rfc3339 : Rfc3339 := {|
  rfc3339_millis t := show (t / MILLI);
  parse_rfc3339 s := (λ n, n * MILLI) <$> parse_uint U64_MAX s;
|}.

#[export] Instance toy_rfc3339_laws : Rfc3339Laws toy_rfc3339.
Proof.
  split. intros t Ht. cbn [rfc3339_millis parse_rfc3339 toy_rfc3339].
  unfold YEAR_10000, MILLI, U64_MAX, SECOND in *. pose proof (Z.div_mod t (10 ^ 6) ltac:(lia)).
  pose proof (Z.mod_pos_bound t (10 ^ 6) ltac:(lia)).
  rewrite parse_show by (split; [apply Z.div_pos; lia|apply Z.div_le_upper_bound; lia]).
  simpl. f_equal. lia.
Qed.

#[export] Instance toy_chrono : Chrono := {|
  delta_max := (2 ^ 63 - 1) * 1000000; time_min := - (262143 * 366 * DAY); time_max := 262143 * 365 * DAY;
  date_naive t := t / DAY; with_ymd_and_hms d h m := Single (d * DAY + (h * 60 + m) * MINUTE);
  cron := Z; cron_from_str _ := None; cron_after _ _ := None;
|}.

Definition issued : DelegationV1 :=
  match issue alice (did bob) (60 * DAY) (1000 * DAY) with
  | Ok d => d
  | Err _ => {| d_v := 0; d_root := ""; d_leaf := ""; d_iat := ""; d_exp := ""; d_sig := "" |}
  end.
Definition delegated_wire : json := JObject [("delegation", delegation_json issued)].
End DelegationSamples.

Lemma sender_exact_witness :
  sender_root (resolve_verified_sender (C := Toy.crypto) (R := DelegationSamples.toy_rfc3339)
    DelegationSamples.delegated_wire (did Toy.bob) (1001 * DAY)) = Some (did Toy.alice) ∧
  sender_root (resolve_verified_sender (C := Toy.crypto) (R := DelegationSamples.toy_rfc3339)
    DelegationSamples.delegated_wire (did Toy.bob) (1061 * DAY)) = None.
Proof.
  pose proof (sender_exact (C := Toy.crypto) (Ch := DelegationSamples.toy_chrono)
    (Rfc3339Laws0 := DelegationSamples.toy_rfc3339_laws))
    as (_ & H & _).
  assert (Hiss : issue (C := Toy.crypto) (Ch := DelegationSamples.toy_chrono) (R := DelegationSamples.toy_rfc3339)
    Toy.alice (did Toy.bob) (60 * DAY) (1000 * DAY) = Ok DelegationSamples.issued) by (vm_compute; reflexivity).
  split; rewrite (H Toy.alice (did Toy.bob) (60 * DAY) (1000 * DAY) DelegationSamples.issued
    DelegationSamples.delegated_wire (did Toy.bob) _ Toy.alice_wf Hiss); done.
Defined.
