(* ===== verification/IdentityPairing.v ===== *)
(** * Pairing a browser with the root identity

    [src/src/identity/pairing.rs]: the one-time codes, the messages and their
    MACs, and the session of a code with the calls that work on it, in any
    interleaving: every section the code runs under the session lock, and every
    call to the network or to the disk between two of them, is one step. *)
From S2P Require Import Prelude Text Json Wire Schedule IdentityDelegation.

Definition CODE_ALPHABET : string := "0123456789ABCDEFGHJKMNPQRSTVWXYZ".
Definition CODE_LEN : Z := 16.
Definition WIRE_REQUEST : string := "tc-did-pair:request".
Definition WIRE_RESPONSE : string := "tc-did-pair:response".

(** [Hmac<Sha256>]: key, text. *)
Class Hmac := { hmac_sha256 : string → string → string }.

(** ** Codes *)

(** [CODE_ALPHABET[(b & 0x1f) as usize]], which is always in range. *)
Definition code_char (b : Z) : ascii := default "0"%char (String.get (Z.to_nat (Z.land b 31)) CODE_ALPHABET).

(** [bytes] are the [CODE_LEN] bytes drawn. *)
Definition generate_code (bytes : list Z) : string := foldr (λ b s, String (code_char b) s) "" bytes.

(** [as_bytes().chunks(4)], with [from_utf8(..).unwrap_or("")]: a chunk of valid
    text is itself valid when no character straddles its ends. *)
Definition starts_inside (s : string) : bool := match s with String c _ => is_continuation c | "" => false end.
Fixpoint chunks (s : string) : list string :=
  match s with
  | String a (String b (String c (String d r))) =>
      let chunk := String a (String b (String c (String d ""))) in
      (if is_continuation a || starts_inside r then "" else chunk) :: chunks r
  | "" => []
  | s => [if starts_inside s then "" else s]
  end.
Definition format_code (code : string) : string := Text.join "-" (chunks code).

(** Characters outside ASCII are skipped, and so are their bytes. *)
Definition is_ascii_alphanumeric (c : ascii) : bool := is_ascii_alphabetic c || is_ascii_digit c.
Definition ascii_upper (c : ascii) : ascii :=
  if in_range "a"%char "z"%char c then Ascii.ascii_of_N (N_of_ascii c - 32) else c.
Definition map_confusable (c : ascii) : ascii :=
  if bool_decide (c = "I"%char ∨ c = "L"%char) then "1"%char
  else if bool_decide (c = "O"%char) then "0"%char else c.
Fixpoint has_char (c : ascii) (s : string) : bool :=
  match s with "" => false | String a s => bool_decide (a = c) || has_char c s end.
Fixpoint normalize_chars (input : string) : string :=
  match input with
  | "" => ""
  | String ch rest =>
      if negb (is_ascii_alphanumeric ch) then normalize_chars rest else
      let mapped := map_confusable (ascii_upper ch) in
      if has_char mapped CODE_ALPHABET then String mapped (normalize_chars rest) else normalize_chars rest
  end.
Definition normalize_code (input : string) : option string :=
  let result := normalize_chars input in
  if slen result =? CODE_LEN then Some result else None.

Section pairing.
Context {C : Crypto} {Ch : Chrono} {R : Rfc3339} {H : Hmac}.

Definition room_id (code : string) : string :=
  "tc-did-pair-" +:+ string_take 32 (hex_encode (sha256 ("tc-did-pair-v1|room|" +:+ code))).
Definition mac_key (code : string) : string := sha256 ("tc-did-pair-v1|mac|" +:+ code).

(** ** Messages *)

Definition mac_for (msg : json) (key : string) : string :=
  let map := obj_remove "mac" (match as_object msg with Some map => map | None => [] end) in
  hmac_sha256 key (stable_stringify (JObject map)).
Definition compute_mac (msg : json) (key : string) : string := b64url_encode (mac_for msg key).
Definition verify_mac (msg : json) (key claimed : string) : bool :=
  match b64url_decode claimed with
  | Some bytes => bool_decide (mac_for msg key = bytes)
  | None => false
  end.

Definition response_fields (nonce : string) (d : DelegationV1) : list (string * json) :=
  [("delegation", delegation_json d); ("nonce", JString nonce); ("type", JString WIRE_RESPONSE); ("v", JNumber (PosInt 1))].
Definition pair_response (nonce : string) (d : DelegationV1) (key : string) : json :=
  let response := response_fields nonce d in
  JObject (obj_insert "mac" (JString (compute_mac (JObject response) key)) response).

(** ** The session *)

Inductive PairingStatus :=
| Waiting
| Issued (delegation : DelegationV1) (leaf app : string)
| Expired
| Cancelled.

Record PairingSession := { code : string; room : string; ttl : Z; started_at : Z; expires_at : Z; status : PairingStatus }.

Definition is_waiting (st : PairingStatus) : bool := match st with Waiting => true | _ => false end.
Definition set_status (s : PairingSession) (st : PairingStatus) : PairingSession :=
  {| code := code s; room := room s; ttl := ttl s; started_at := started_at s; expires_at := expires_at s; status := st |}.

Definition status_json (session : option PairingSession) : json :=
  match session with
  | None => JObject [("status", JString "none")]
  | Some s =>
      match status s with
      | Waiting => JObject [("code", JString (code s)); ("expires_at", JString (rfc3339_millis (expires_at s)));
                            ("started_at", JString (rfc3339_millis (started_at s))); ("status", JString "waiting")]
      | Issued d leaf app => JObject [("app", JString app); ("delegation", delegation_json d); ("leaf", JString leaf);
                                      ("status", JString "issued")]
      | Expired => JObject [("status", JString "expired")]
      | Cancelled => JObject [("status", JString "cancelled")]
      end
  end.

(** What a request that passed every check is answered with. *)
Record Pairing := {
  p_room : string; p_code : string; p_leaf : string; p_app : string; p_delegation : DelegationV1; p_response : json
}.

(** [handle_pair_request] from the MAC to the response; [me] is [current], which
    fails when the identity cannot be loaded. *)
Definition answer (me : option Identity) (now : Z) (code : string) (ttl : Z) (room : string) (msg : json) : option Pairing :=
  let key := mac_key code in
  match get_str "mac" msg with
  | None => None
  | Some mac =>
      if negb (verify_mac msg key mac) then None else
      match get_str "leaf" msg with
      | None => None
      | Some leaf =>
          match get_str "nonce" msg with
          | None => None
          | Some nonce =>
              if negb (is_ok (pubkey_from_did leaf)) then None else
              let app := default "unknown" (get_str "app" msg) in
              match me with
              | None => None
              | Some identity =>
                  match issue identity leaf ttl now with
                  | Err _ => None
                  | Ok d => Some {| p_room := room; p_code := code; p_leaf := leaf; p_app := app; p_delegation := d;
                                    p_response := pair_response nonce d key |}
                  end
              end
          end
      end
  end.

(** ** The calls in flight *)

(** The section a call runs next. *)
Inductive Task :=
| Replace (ttl timeout : Z)                                (* [start_pairing] *)
| Vacate (ttl timeout : Z) (room : string)
| Join (ttl timeout : Z)
| Install (ttl timeout : Z) (code room : string)
| Leave (room : string)                                    (* the end of [cancel] and [expire_session] *)
| Handle (room : string) (msg : json)                      (* [handle_pair_request] *)
| Broadcast (p : Pairing)
| Save (p : Pairing)
| Release (p : Pairing)
| Finish (p : Pairing).

(** What happened that others can see. *)
Inductive Entry :=
| Started (s : PairingSession)
| Sent (p : Pairing).

Record System := {
  session : option PairingSession;
  rooms : gmap string Z;                        (* [ROOMS] of [net/mod.rs] *)
  registered : bool;                            (* [HANDLER_REGISTERED] *)
  timers : list string;                         (* the armed timeouts, by room *)
  delegations : option (list DelegationV1);     (* [delegations.json] *)
  tasks : list Task;
  log : list Entry;
}.

(** [io_ok]: whether the call to the network or to the disk succeeds. *)
Record Outcome := { io_ok : bool; now : Z; drawn : list Z; me : option Identity }.

Definition with_session (v : option PairingSession) (s : System) : System :=
  {| session := v; rooms := rooms s; registered := registered s; timers := timers s; delegations := delegations s;
     tasks := tasks s; log := log s |}.
Definition with_rooms (v : gmap string Z) (s : System) : System :=
  {| session := session s; rooms := v; registered := registered s; timers := timers s; delegations := delegations s;
     tasks := tasks s; log := log s |}.
Definition with_registered (v : bool) (s : System) : System :=
  {| session := session s; rooms := rooms s; registered := v; timers := timers s; delegations := delegations s;
     tasks := tasks s; log := log s |}.
Definition with_timers (v : list string) (s : System) : System :=
  {| session := session s; rooms := rooms s; registered := registered s; timers := v; delegations := delegations s;
     tasks := tasks s; log := log s |}.
Definition with_delegations (v : option (list DelegationV1)) (s : System) : System :=
  {| session := session s; rooms := rooms s; registered := registered s; timers := timers s; delegations := v;
     tasks := tasks s; log := log s |}.
Definition with_tasks (v : list Task) (s : System) : System :=
  {| session := session s; rooms := rooms s; registered := registered s; timers := timers s; delegations := delegations s;
     tasks := v; log := log s |}.
Definition with_log (v : list Entry) (s : System) : System :=
  {| session := session s; rooms := rooms s; registered := registered s; timers := timers s; delegations := delegations s;
     tasks := tasks s; log := v |}.

Definition waiting_in (r : string) (s : PairingSession) : bool := bool_decide (room s = r) && is_waiting (status s).
(** The session waits in the room. *)
Definition waits (s : System) (r : string) : bool := is_some_and (waiting_in r) (session s).

(** [net::ensure_started] and [net::leave_room]: joins are counted, and a room is
    left by the last holder. *)
Definition join_room (r : string) (ok : bool) (m : gmap string Z) : option (gmap string Z) :=
  let count := default 0 (m !! r) in
  if (count =? 0) && negb ok then None else Some (<[r := count + 1]> m).
Definition leave_room (r : string) (ok : bool) (m : gmap string Z) : gmap string Z :=
  match m !! r with
  | None => m
  | Some count => if 1 <? count then <[r := count - 1]> m else if ok then delete r m else m
  end.

(** [leave_waiting_session_room], then the rest of [start_pairing]. *)
Definition leave_waiting (ttl timeout : Z) (s : System) : list Task :=
  match session s with
  | Some x => if is_waiting (status x) then [Vacate ttl timeout (room x)] else [Join ttl timeout]
  | None => [Join ttl timeout]
  end.

Definition start_join (ttl timeout : Z) (o : Outcome) (s : System) : System * list Task :=
  let code := generate_code (drawn o) in
  match join_room (room_id code) (io_ok o) (rooms s) with
  | None => (s, [])
  | Some m => (with_registered true (with_rooms m s), [Install ttl timeout code (room_id code)])
  end.

Definition start_install (ttl timeout : Z) (code room : string) (o : Outcome) (s : System) : System :=
  match add_time (now o) timeout with
  | Err _ => s
  | Ok expires =>
      let x := {| code := code; room := room; ttl := ttl; started_at := now o; expires_at := expires;
                  status := Waiting |} in
      with_log (log s ++ [Started x]) (with_timers (room :: timers s) (with_session (Some x) s))
  end.

Definition handle_begin (r : string) (msg : json) (o : Outcome) (s : System) : list Task :=
  match session s with
  | Some x =>
      if waiting_in r x
      then match answer (me o) (now o) (code x) (ttl x) r msg with Some p => [Broadcast p] | None => [] end
      else []
  | None => []
  end.

Definition handle_finish (p : Pairing) (s : System) : System :=
  match session s with
  | Some x =>
      if bool_decide (room x = p_room p)
      then with_session (Some (set_status x (Issued (p_delegation p) (p_leaf p) (p_app p)))) s
      else s
  | None => s
  end.

(** The next section of a call: the new state, and what the call runs next. *)
Definition run_task (t : Task) (o : Outcome) (s : System) : System * list Task :=
  match t with
  | Replace ttl timeout => (s, leave_waiting ttl timeout s)
  | Vacate ttl timeout r => (with_rooms (leave_room r (io_ok o) (rooms s)) s, [Join ttl timeout])
  | Join ttl timeout => start_join ttl timeout o s
  | Install ttl timeout code room => (start_install ttl timeout code room o s, [])
  | Leave r => (with_rooms (leave_room r (io_ok o) (rooms s)) s, [])
  | Handle r msg => (s, handle_begin r msg o s)
  | Broadcast p => if io_ok o then (with_log (log s ++ [Sent p]) s, [Save p]) else (s, [])
  | Save p => (with_delegations (record_delegation (delegations s) (p_delegation p) (io_ok o)).1 s, [Release p])
  | Release p => (with_rooms (leave_room (p_room p) (io_ok o) (rooms s)) s, [Finish p])
  | Finish p => (handle_finish p s, [])
  end.

Definition expire_session (r : string) (s : System) : System :=
  match session s with
  | Some x =>
      if waiting_in r x
      then with_tasks (tasks s ++ [Leave r]) (with_session (Some (set_status x Expired)) s)
      else s
  | None => s
  end.

(** Whether there was a session to cancel. *)
Definition cancel (s : System) : System * bool :=
  match session s with
  | Some x =>
      if is_waiting (status x)
      then (with_tasks (tasks s ++ [Leave (room x)]) (with_session (Some (set_status x Cancelled)) s), true)
      else (s, false)
  | None => (s, false)
  end.

(** The handler of [register_handler]: [data] is [None] when it is not JSON. *)
Definition receive (is_raw : bool) (r : string) (data : option json) (s : System) : System :=
  if negb (registered s) then s else
  if negb is_raw then s else
  if negb (waits s r) then s else
  match data with
  | None => s
  | Some value =>
      if negb (bool_decide (get_str "type" value = Some WIRE_REQUEST)) then s else
      with_tasks (tasks s ++ [Handle r value]) s
  end.

Inductive Event :=
| EStart (ttl timeout : Z)
| ECancel
| ETimeout (i : nat)
| EReceive (is_raw : bool) (room : string) (data : option json)
| ERun (i : nat) (o : Outcome).

Definition step (s : System) (e : Event) : System :=
  match e with
  | EStart ttl timeout => with_tasks (tasks s ++ [Replace ttl timeout]) s
  | ECancel => (cancel s).1
  | ETimeout i =>
      match timers s !! i with
      | Some r => expire_session r (with_timers (delete i (timers s)) s)
      | None => s
      end
  | EReceive is_raw r data => receive is_raw r data s
  | ERun i o =>
      match tasks s !! i with
      | None => s
      | Some t => let '(s', next) := run_task t o s in with_tasks (delete i (tasks s') ++ next) s'
      end
  end.

Definition run (es : list Event) (s : System) : System := fold_left step es s.

(** A daemon that has just started, with the file of an earlier one. *)
Definition initial (file : option (list DelegationV1)) : System :=
  {| session := None; rooms := ∅; registered := false; timers := []; delegations := file; tasks := []; log := [] |}.
End pairing.

(** ** Codes *)

Definition ascii_all : list ascii := map (λ n, Ascii.ascii_of_N (N.of_nat n)) (seq 0 256).
Lemma ascii_all_spec (f : ascii → bool) : forallb f ascii_all = true → ∀ c, f c = true.
Proof.
  intros Hf c. rewrite forallb_elem in Hf. apply Hf. apply list_elem_of_fmap.
  exists (N.to_nat (N_of_ascii c)). rewrite N2Nat.id, Ascii.ascii_N_embedding. split; [done|].
  apply elem_of_seq. pose proof (Ascii.N_ascii_bounded c). lia.
Qed.

(** A symbol of the alphabet is read back as itself, in either case. *)
Definition read_char (c : ascii) : option ascii :=
  if negb (is_ascii_alphanumeric c) then None else
  let mapped := map_confusable (ascii_upper c) in
  if has_char mapped CODE_ALPHABET then Some mapped else None.

Lemma normalize_cons c s : normalize_chars (String c s) =
  match read_char c with Some a => String a (normalize_chars s) | None => normalize_chars s end.
Proof. cbn [normalize_chars]. unfold read_char. destruct (is_ascii_alphanumeric c); [|done]. cbn [negb]. by destruct (has_char _ _). Qed.

Lemma normalize_append a b : normalize_chars (a +:+ b) = normalize_chars a +:+ normalize_chars b.
Proof.
  induction a as [|c a IH]; [done|]. change (String c a +:+ b) with (String c (a +:+ b)).
  rewrite !normalize_cons, IH. by destruct (read_char c).
Qed.

Lemma read_char_lower c : read_char (ascii_lower c) = read_char c.
Proof.
  apply (bool_decide_eq_true_1 _). revert c. apply ascii_all_spec. by vm_compute.
Qed.

Lemma normalize_lower s : normalize_chars (to_ascii_lowercase s) = normalize_chars s.
Proof.
  induction s as [|c s IH]; [done|]. cbn [to_ascii_lowercase]. by rewrite !normalize_cons, read_char_lower, IH.
Qed.

Definition code_charset : list ascii := map (λ n, code_char (Z.of_nat n)) (seq 0 32).

Lemma code_char_in b : code_char b ∈ code_charset.
Proof.
  unfold code_char. pose proof (Z.land_ones b 5 ltac:(lia)) as E. change (Z.ones 5) with 31 in E.
  pose proof (Z.mod_pos_bound b (2 ^ 5) ltac:(lia)). rewrite E. apply list_elem_of_fmap.
  exists (Z.to_nat (b mod 2 ^ 5)). split; [|apply elem_of_seq; lia].
  unfold code_char. f_equal. f_equal. rewrite Z2Nat.id by lia.
  pose proof (Z.land_ones (b mod 2 ^ 5) 5 ltac:(lia)) as E'. change (Z.ones 5) with 31 in E'.
  by rewrite E', Z.mod_mod by lia.
Qed.

Lemma code_char_read b : read_char (code_char b) = Some (code_char b) ∧ is_continuation (code_char b) = false.
Proof.
  assert (Hall : forallb (λ c, bool_decide (read_char c = Some c) && negb (is_continuation c)) code_charset = true)
    by (vm_compute; reflexivity).
  rewrite forallb_elem in Hall. specialize (Hall _ (code_char_in b)). apply andb_true_iff in Hall as [Hr Hc].
  split; [by apply bool_decide_eq_true in Hr|by apply negb_true_iff].
Qed.

(** Every symbol is drawn from eight of the 256 bytes. *)
Lemma code_char_uniform c : c ∈ code_charset →
  zlen (List.filter (λ b, bool_decide (code_char b = c)) (seqZ 0 256)) = 8.
Proof.
  intros Hc. apply Z.eqb_eq. revert c Hc. apply forallb_elem. by vm_compute.
Qed.

Lemma generate_normal bytes : normalize_chars (generate_code bytes) = generate_code bytes.
Proof.
  induction bytes as [|b l IH]; [done|]. cbn [generate_code foldr]. rewrite normalize_cons.
  rewrite (proj1 (code_char_read b)). f_equal. exact IH.
Qed.

Lemma generate_length bytes : slen (generate_code bytes) = zlen bytes.
Proof.
  induction bytes as [|b l IH]; [done|]. cbn [generate_code foldr]. fold (generate_code l).
  rewrite zlen_cons. unfold slen in *. cbn [String.length]. lia.
Qed.

Lemma normalize_join l : normalize_chars (Text.join "-" l) = foldr (λ w s, normalize_chars w +:+ s) "" l.
Proof.
  unfold Text.join. induction l as [|w l IH]; [done|]. destruct l as [|v l].
  - cbn. by rewrite string_app_nil_r.
  - change (String.concat "-" (w :: v :: l)) with (w +:+ "-" +:+ String.concat "-" (v :: l)).
    by rewrite !normalize_append, IH.
Qed.

Lemma starts_inside_plain s : string_forallb (λ c, negb (is_continuation c)) s = true → starts_inside s = false.
Proof. destruct s as [|c s]; [done|]. cbn. by intros [H%negb_true_iff _]%andb_true_iff. Qed.

Lemma normalize_chunks n : ∀ s, (String.length s ≤ n)%nat → string_forallb (λ c, negb (is_continuation c)) s = true →
  foldr (λ w s, normalize_chars w +:+ s) "" (chunks s) = normalize_chars s.
Proof.
  induction n as [|n IH]; intros s Hn Hs; [destruct s; [done|cbn in Hn; lia]|].
  destruct s as [|a [|b [|c [|d r]]]]; [done| | | |].
  1-3: cbn [chunks]; rewrite starts_inside_plain by done; cbn [foldr]; by rewrite string_app_nil_r.
  assert (Hr : string_forallb (λ c, negb (is_continuation c)) r = true ∧ is_continuation a = false).
  { cbn [string_forallb] in Hs. repeat (apply andb_true_iff in Hs as [?%negb_true_iff Hs]). done. }
  destruct Hr as [Hr Ha]. cbn [chunks]. rewrite Ha, (starts_inside_plain r Hr). cbn [orb foldr].
  rewrite IH by (done || cbn in Hn; lia). by rewrite <-normalize_append.
Qed.

Lemma format_normal s : string_forallb (λ c, negb (is_continuation c)) s = true →
  normalize_chars (format_code s) = normalize_chars s.
Proof. intros Hs. unfold format_code. rewrite normalize_join. by eapply normalize_chunks. Qed.

(** A code is read back from its display, with the hyphens and in any case. *)
Lemma code_roundtrip bytes : zlen bytes = CODE_LEN →
  normalize_code (format_code (generate_code bytes)) = Some (generate_code bytes) ∧
  normalize_code (to_ascii_lowercase (format_code (generate_code bytes))) = Some (generate_code bytes).
Proof.
  intros Hlen. unfold normalize_code. rewrite normalize_lower, format_normal, generate_normal, generate_length, Hlen.
  - done.
  - clear. induction bytes as [|b l IH]; [done|]. cbn [generate_code foldr string_forallb].
    rewrite (proj2 (code_char_read b)). exact IH.
Qed.

Section properties.
Context {C : Crypto} {Ch : Chrono} {R : Rfc3339} {H : Hmac}.

(** ** Messages *)

Lemma compute_mac_excludes_mac fields v key :
  compute_mac (JObject (obj_insert "mac" v fields)) key = compute_mac (JObject fields) key.
Proof. unfold compute_mac, mac_for. cbn [as_object]. by rewrite obj_remove_insert. Qed.

Lemma pair_response_spec `{!CryptoLaws C} nonce d key :
  get_str "nonce" (pair_response nonce d key) = Some nonce ∧
  get "delegation" (pair_response nonce d key) = Some (delegation_json d) ∧
  ∃ mac, get_str "mac" (pair_response nonce d key) = Some mac ∧ verify_mac (pair_response nonce d key) key mac = true.
Proof.
  unfold pair_response, get_str, get. cbn [as_object]. rewrite !assoc_obj_insert.
  rewrite !(bool_decide_false (_ = _)) by done. rewrite bool_decide_true by done. split; [done|]. split; [done|].
  eexists. split; [reflexivity|]. unfold verify_mac, compute_mac. rewrite b64url_roundtrip.
  unfold mac_for. cbn [as_object]. rewrite obj_remove_insert. by rewrite bool_decide_true.
Qed.

(** A request the holder of the code sends for its key, and what it is answered with. *)
Record request_for (identity : Identity) (now : Z) (x : PairingSession) (msg : json) (p : Pairing) : Prop := {
  rf_mac : ∃ mac, get_str "mac" msg = Some mac ∧ verify_mac msg (mac_key (code x)) mac = true;
  rf_leaf : get_str "leaf" msg = Some (p_leaf p);
  rf_issue : issue identity (p_leaf p) (ttl x) now = Ok (p_delegation p);
  rf_response : ∃ nonce, get_str "nonce" msg = Some nonce ∧
    p_response p = pair_response nonce (p_delegation p) (mac_key (code x));
  rf_room : p_room p = room x;
}.

Lemma answer_spec identity now x msg p :
  answer identity now (code x) (ttl x) (room x) msg = Some p →
  ∃ id, identity = Some id ∧ request_for id now x msg p.
Proof.
  unfold answer. destruct (get_str "mac" msg) as [mac|] eqn:Hm; [|done].
  destruct (verify_mac _ _ _) eqn:Hv; [|done]. cbn [negb].
  destruct (get_str "leaf" msg) as [leaf|] eqn:Hl; [|done]. destruct (get_str "nonce" msg) as [nonce|] eqn:Hn; [|done].
  destruct (negb _); [done|]. destruct identity as [id|]; [|done]. destruct (issue _ _ _ _) as [d|] eqn:Hi; [|done].
  intros [= <-]. exists id. split; [done|]. split; cbn; eauto.
Qed.

(** ** The invariant *)

(** The events [all] that happen: what was received and what the calls met. *)
Section invariant.
Context (all : list Event).

(** A message that was received in the room of a session, while it was answered
    with the identity and the clock of that moment. *)
Definition justified (l : list Entry) (p : Pairing) : Prop :=
  ∃ x msg i o identity, Started x ∈ l ∧ EReceive true (room x) (Some msg) ∈ all ∧
    get_str "type" msg = Some WIRE_REQUEST ∧ ERun i o ∈ all ∧ me o = Some identity ∧
    request_for identity (now o) x msg p.

Definition task_ok (l : list Entry) (t : Task) : Prop :=
  match t with
  | Install _ _ code room => room = room_id code
  | Handle r msg => EReceive true r (Some msg) ∈ all ∧ get_str "type" msg = Some WIRE_REQUEST
  | Broadcast p => justified l p
  | Save p | Release p | Finish p => justified l p ∧ Sent p ∈ l
  | _ => True
  end.

Definition entry_ok (l : list Entry) (e : Entry) : Prop :=
  match e with
  | Started x => room x = room_id (code x) ∧ status x = Waiting
  | Sent p => justified l p
  end.

(** A session is one that was started, and says [Issued] only of a delegation
    that was sent in its room. *)
Definition session_ok (l : list Entry) (x : PairingSession) : Prop :=
  Started (set_status x Waiting) ∈ l ∧
  match status x with
  | Issued d leaf app => ∃ p, Sent p ∈ l ∧ p_room p = room x ∧ p_delegation p = d ∧ p_leaf p = leaf
  | _ => True
  end.

Record inv (s : System) : Prop := {
  inv_session : ∀ x, session s = Some x → session_ok (log s) x;
  inv_log : Forall (entry_ok (log s)) (log s);
  inv_tasks : Forall (task_ok (log s)) (tasks s);
}.

Lemma justified_mono l l' p : justified l p → justified (l ++ l') p.
Proof. intros (x & m & i & o & id & Hx & Hr). exists x, m, i, o, id. split; [apply elem_of_app; by left|done]. Qed.
Lemma entry_ok_mono l l' e : entry_ok l e → entry_ok (l ++ l') e.
Proof. destruct e; [done|apply justified_mono]. Qed.
Lemma task_ok_mono l l' t : task_ok l t → task_ok (l ++ l') t.
Proof.
  destruct t; cbn; try done; [apply justified_mono|..]; intros [? ?]; (split; [by apply justified_mono|apply elem_of_app; by left]).
Qed.
Lemma session_ok_mono l l' x : session_ok l x → session_ok (l ++ l') x.
Proof.
  intros [Hs Hi]. split; [apply elem_of_app; by left|]. destruct (status x); try done.
  destruct Hi as (p & ? & ?). exists p. split; [apply elem_of_app; by left|done].
Qed.

Lemma session_ok_terminal l x st : session_ok l x → match st with Waiting | Issued _ _ _ => False | _ => True end →
  session_ok l (set_status x st).
Proof. intros [Hs _] Hst. split; [done|]. by destruct st. Qed.

(** A section of a call, by what it may do. *)
Lemma run_task_inv i t o s s' next : ERun i o ∈ all → inv s → task_ok (log s) t → run_task t o s = (s', next) →
  tasks s' = tasks s ∧ (∃ l, log s' = log s ++ l) ∧ Forall (task_ok (log s')) next ∧
  Forall (entry_ok (log s')) (log s') ∧ ∀ x, session s' = Some x → session_ok (log s') x.
Proof.
  intros Ho [Hs Hl _] Ht Hrun.
  assert (Hkeep : ∀ v, log v = log s → session v = session s → ∀ x, session v = Some x → session_ok (log v) x).
  { intros v -> ->. done. }
  assert (Hnil : ∃ l, log s = log s ++ l) by (exists []; by rewrite app_nil_r).
  destruct t; cbn [run_task] in Hrun;
    unfold leave_waiting, start_join, start_install, handle_begin, handle_finish in Hrun.
  - injection Hrun as <- <-. split_and!; try done.
    destruct (session s) as [x|]; [destruct (is_waiting (status x))|]; by repeat constructor.
  - injection Hrun as <- <-. split_and!; try done. by repeat constructor.
  - destruct (join_room _ _ _); injection Hrun as <- <-; split_and!; try done; by repeat constructor.
  - destruct (add_time _ _) as [e|]; injection Hrun as <- <-; [|by split_and!].
    cbn [with_log with_session with_timers log tasks session]. cbn in Ht. split_and!; [done|by eexists|constructor| |].
    + apply Forall_app. split; [eapply Forall_impl; [exact Hl|intros; by apply entry_ok_mono]|]. by repeat constructor.
    + intros x [= <-]. split; [|done]. apply elem_of_app. right. by apply list_elem_of_singleton.
  - injection Hrun as <- <-. split_and!; try done.
  - destruct (session s) as [x|] eqn:E; [|injection Hrun as <- <-; split_and!; try done; by rewrite E].
    destruct (waiting_in room0 x) eqn:Hw; [|injection Hrun as <- <-; split_and!; try done; by rewrite E].
    apply andb_true_iff in Hw as [Hr%bool_decide_eq_true _]. subst room0.
    destruct (answer _ _ _ _ _ _) as [p|] eqn:Ha; injection Hrun as <- <-; split_and!; try done; try by rewrite E.
    apply answer_spec in Ha as (id & Hid & Hreq). constructor; [|done]. destruct Ht as [Hrec Hty].
    exists (set_status x Waiting), msg, i, o, id. split; [by apply (Hs x eq_refl)|]. split_and!; try done. by destruct Hreq; split.
  - destruct (io_ok o); injection Hrun as <- <-; [|by split_and!].
    cbn [with_log log tasks session]. cbn in Ht. split_and!; [done|by eexists| | |].
    + constructor; [|done]. split; [by apply justified_mono|]. apply elem_of_app. right. by apply list_elem_of_singleton.
    + apply Forall_app. split; [eapply Forall_impl; [exact Hl|intros; by apply entry_ok_mono]|].
      constructor; [by apply justified_mono|done].
    + intros x Hx. by apply session_ok_mono, Hs.
  - injection Hrun as <- <-. split_and!; try done. by constructor.
  - injection Hrun as <- <-. split_and!; try done. by constructor.
  - destruct (session s) as [x|] eqn:E; [|injection Hrun as <- <-; split_and!; try done; by rewrite E].
    case_bool_decide as Hr; injection Hrun as <- <-; split_and!; try done; try by rewrite E.
    intros y [= <-]. split; [apply (Hs x eq_refl)|]. exists p. by destruct Ht.
Qed.

Lemma pairing_step_inv s e : e ∈ all → inv s → inv (step s e) ∧ ∃ l, log (step s e) = log s ++ l.
Proof.
  intros He Hinv. pose proof Hinv as [Hs Hl Ht].
  assert (Hsame : inv s ∧ ∃ l, log s = log s ++ l) by (split; [done|]; exists []; by rewrite app_nil_r).
  assert (Hadd : ∀ t, task_ok (log s) t → Forall (task_ok (log s)) (tasks s ++ [t])).
  { intros t Hok. apply Forall_app. by split; [|constructor]. }
  assert (Hterm : ∀ x r st ts, session s = Some x → st = Expired ∨ st = Cancelled →
    let s' := with_tasks (tasks s ++ [Leave r]) (with_session (Some (set_status x st)) (with_timers ts s)) in
    inv s' ∧ ∃ l, log s' = log s ++ l).
  { intros x r st ts E Hst. split; [|by exists []; rewrite app_nil_r]. split; cbn; [|done|by apply Hadd].
    intros y [= <-]. apply session_ok_terminal; [by apply Hs|]. by destruct Hst as [-> | ->]. }
  destruct e as [ttl timeout| |i|is_raw r data|i o]; cbn [step].
  - split; [|by exists []; rewrite app_nil_r]. split; cbn; [done|done|by apply Hadd].
  - unfold cancel. destruct (session s) as [x|] eqn:E; [|done]. destruct (is_waiting _); [|done].
    by apply (Hterm x (room x) Cancelled (timers s)); [|right].
  - destruct (timers s !! i) as [r|]; [|done]. unfold expire_session. cbn [with_timers session].
    destruct (session s) as [x|] eqn:E.
    + destruct (waiting_in r x).
      * by apply (Hterm x r Expired (delete i (timers s))); [|left].
      * split; [|by exists []; rewrite app_nil_r]. by split; cbn; rewrite ?E.
    + split; [|by exists []; rewrite app_nil_r]. by split; cbn; rewrite ?E.
  - unfold receive. destruct (registered s); [|done]. destruct is_raw; [|done]. destruct (waits s r); [|done].
    destruct data as [v|]; [|done]. case_bool_decide; [|done]. cbn [negb].
    split; [|by exists []; rewrite app_nil_r]. split; cbn; [done|done|by apply Hadd].
  - destruct (tasks s !! i) as [t|] eqn:Hi; [|done].
    destruct (run_task t o s) as [s' next] eqn:Hrun.
    destruct (run_task_inv i t o s s' next He Hinv) as (Htasks & (l & Hlog) & Hnext & Hent & Hses); [|done|].
    { rewrite Forall_lookup in Ht. by eapply Ht. }
    split; [|by exists l]. split; cbn; [done|done|].
    rewrite Htasks. apply Forall_app. split; [|done]. apply Forall_delete.
    eapply Forall_impl; [exact Ht|]. intros u Hu. rewrite Hlog. by apply task_ok_mono.
Qed.

Lemma pairing_run_inv es s : (∀ e, e ∈ es → e ∈ all) → inv s → inv (run es s).
Proof.
  revert s. induction es as [|e es IH]; intros s Hall Hs; [done|]. apply IH; [intros e' ?; apply Hall; by right|].
  apply pairing_step_inv; [apply Hall; by left|done].
Qed.

Lemma initial_inv file : inv (initial file).
Proof. by split. Qed.
End invariant.

Lemma reachable_inv es file : inv es (run es (initial file)).
Proof. apply pairing_run_inv; [done|apply initial_inv]. Qed.

(** The log only grows. *)
Lemma step_log s e : ∃ l, log (step s e) = log s ++ l.
Proof.
  assert (Hnil : ∃ l, log s = log s ++ l) by (exists []; by rewrite app_nil_r).
  destruct e as [ttl timeout| |i|is_raw r data|i o]; cbn [step]; [done| | | |].
  - unfold cancel. by repeat case_match.
  - unfold expire_session. by repeat case_match.
  - unfold receive. by repeat case_match.
  - destruct (tasks s !! i) as [t|]; [|done]. destruct (run_task t o s) as [s' next] eqn:Hrun. cbn.
    destruct t; cbn [run_task] in Hrun; unfold start_join, start_install, handle_finish in Hrun;
      repeat case_match; injection Hrun as <- <-; cbn; eauto.
Qed.

(** ** What a spent code still yields *)

Definition count {A} (f : A → bool) (l : list A) : Z := zlen (List.filter f l).
Definition sent_in (r : string) (e : Entry) : bool := match e with Sent p => bool_decide (p_room p = r) | _ => false end.
Definition started_in (r : string) (e : Entry) : bool := match e with Started x => bool_decide (room x = r) | _ => false end.
Definition answering_in (r : string) (t : Task) : bool :=
  match t with Broadcast p => bool_decide (p_room p = r) | _ => false end.
(** The answers sent in a room, and those about to be. *)
Definition answers (r : string) (s : System) : Z := count (sent_in r) (log s) + count (answering_in r) (tasks s).

Lemma count_app {A} (f : A → bool) l k : count f (l ++ k) = count f l + count f k.
Proof. unfold count. by rewrite List.filter_app, zlen_app. Qed.
Lemma count_one {A} (f : A → bool) x : count f [x] = if f x then 1 else 0.
Proof. unfold count. cbn. by destruct (f x). Qed.
Lemma count_nonneg {A} (f : A → bool) l : 0 ≤ count f l.
Proof. apply zlen_nonneg. Qed.
Lemma count_delete {A} (f : A → bool) l i x : l !! i = Some x → count f l = (if f x then 1 else 0) + count f (delete i l).
Proof.
  revert i. induction l as [|y l IH]; intros [|i] Hi; try done.
  - injection Hi as ->. unfold count. cbn. destruct (f x); [by rewrite zlen_cons|done].
  - specialize (IH i Hi). unfold count in *. change (delete (S i) (y :: l)) with (y :: delete i l).
    cbn [List.filter]. destruct (f y); [rewrite !zlen_cons|]; lia.
Qed.

(** A section of a call in a room whose session no longer waits. *)
Lemma run_task_spent t o s s' next r : waits s r = false → run_task t o s = (s', next) →
  count (started_in r) (log s') ≤ count (started_in r) (log s) →
  waits s' r = false ∧
  count (sent_in r) (log s') + count (answering_in r) next
    ≤ count (sent_in r) (log s) + (if answering_in r t then 1 else 0).
Proof.
  intros Hw Hrun Hst. unfold waits in *.
  assert (Hc : count (sent_in r) (log s) + count (answering_in r) [] ≤ count (sent_in r) (log s) + 0)
    by (change (count (answering_in r) []) with 0; lia).
  destruct t; cbn [run_task answering_in] in *;
    unfold leave_waiting, start_join, start_install, handle_begin, handle_finish in Hrun.
  - injection Hrun as <- <-. split; [done|].
    destruct (session s) as [x|]; [destruct (is_waiting (status x))|]; done.
  - by injection Hrun as <- <-.
  - destruct (join_room _ _ _); by injection Hrun as <- <-.
  - destruct (add_time _ _) as [e|]; injection Hrun as <- <-; [|done]. cbn [with_log log with_session with_timers] in *.
    rewrite count_app, count_one in Hst. cbn [started_in room] in Hst. case_bool_decide as Hr; [lia|].
    split; [by cbn; unfold waiting_in; cbn; rewrite bool_decide_false|]. rewrite count_app, count_one. cbn. lia.
  - by injection Hrun as <- <-.
  - destruct (session s) as [x|] eqn:E; [|injection Hrun as <- <-; by rewrite E].
    destruct (waiting_in room0 x) eqn:Hx; [|injection Hrun as <- <-; by rewrite E].
    destruct (answer _ _ _ _ _ _) as [p|] eqn:Ha; injection Hrun as <- <-; rewrite E; (split; [done|]); [|done].
    rewrite count_one. cbn [answering_in]. case_bool_decide as Hp; [|lia]. exfalso. subst r.
    apply andb_true_iff in Hx as [Hr%bool_decide_eq_true Hwait]. subst room0.
    apply answer_spec in Ha as (id & _ & Hreq). cbn in Hw. unfold waiting_in in Hw.
    rewrite (rf_room _ _ _ _ _ Hreq), Hwait, bool_decide_true in Hw by done. done.
  - destruct (io_ok o); injection Hrun as <- <-; (split; [done|]).
    + cbn [with_log log]. rewrite count_app, !count_one. cbn [sent_in answering_in]. lia.
    + change (count (answering_in r) []) with 0. destruct (bool_decide _); lia.
  - by injection Hrun as <- <-.
  - by injection Hrun as <- <-.
  - destruct (session s) as [x|] eqn:E; [|injection Hrun as <- <-; by rewrite E].
    case_bool_decide as Hr; injection Hrun as <- <-; [|by rewrite E]. split; [|done].
    cbn. unfold waiting_in. cbn. by rewrite andb_false_r.
Qed.

Lemma answers_keep r s s' : log s' = log s → count (answering_in r) (tasks s') = count (answering_in r) (tasks s) →
  answers r s' = answers r s.
Proof. unfold answers. by intros -> ->. Qed.

Lemma step_spent s e r : waits s r = false →
  count (started_in r) (log (step s e)) ≤ count (started_in r) (log s) →
  waits (step s e) r = false ∧ answers r (step s e) ≤ answers r s.
Proof.
  intros Hw Hst.
  assert (Hadd : ∀ t ses ts, answering_in r t = false → waits (with_session ses s) r = false →
    let s' := with_tasks (tasks s ++ [t]) (with_session ses (with_timers ts s)) in
    waits s' r = false ∧ answers r s' ≤ answers r s).
  { intros t ses ts Ht Hses. split; [done|]. apply Z.eq_le_incl, answers_keep; [done|]. cbn. rewrite count_app, count_one, Ht. lia. }
  assert (Hterm : ∀ x st, st = Expired ∨ st = Cancelled → waits (with_session (Some (set_status x st)) s) r = false).
  { intros x st Hc. cbn. unfold waiting_in. cbn. destruct Hc as [-> | ->]; apply andb_false_r. }
  destruct e as [ttl timeout| |i|is_raw r' data|i o]; cbn [step] in *.
  - by apply (Hadd (Replace ttl timeout) (session s) (timers s)).
  - unfold cancel in *. destruct (session s) as [x|] eqn:E; [|done]. destruct (is_waiting _); [|done].
    apply (Hadd (Leave (room x)) (Some (set_status x Cancelled)) (timers s)); [done|]. apply Hterm. by right.
  - destruct (timers s !! i) as [q|]; [|done]. unfold expire_session in *. cbn [with_timers session] in *.
    destruct (session s) as [x|] eqn:E.
    + destruct (waiting_in q x).
      * apply (Hadd (Leave q) (Some (set_status x Expired)) (delete i (timers s))); [done|]. apply Hterm. by left.
      * split; [|done]. unfold waits in *. cbn. by rewrite E in *.
    + split; [|done]. unfold waits in *. cbn. by rewrite E in *.
  - unfold receive in *. destruct (registered s); [|done]. destruct is_raw; [|done]. destruct (waits s r'); [|done].
    destruct data as [v|]; [|done]. case_bool_decide; [|done]. cbn [negb] in *.
    by apply (Hadd (Handle r' v) (session s) (timers s)).
  - destruct (tasks s !! i) as [t|] eqn:Hi; [|done].
    destruct (run_task t o s) as [s' next] eqn:Hrun.
    assert (Htasks : tasks s' = tasks s).
    { clear -Hrun. destruct t; cbn [run_task] in Hrun;
      unfold start_join, start_install, handle_finish in Hrun; repeat case_match; by injection Hrun as <- <-. }
    destruct (run_task_spent t o s s' next r Hw Hrun Hst) as [Hw' Hc]. split; [done|].
    unfold answers. cbn [with_tasks log tasks]. rewrite Htasks, count_app, (count_delete _ _ _ _ Hi). lia.
Qed.

Lemma step_started s e r : count (started_in r) (log s) ≤ count (started_in r) (log (step s e)).
Proof. destruct (step_log s e) as [l ->]. rewrite count_app. pose proof (count_nonneg (started_in r) l). lia. Qed.

Lemma run_started es s r : count (started_in r) (log s) ≤ count (started_in r) (log (run es s)).
Proof.
  revert s. induction es as [|e es IH]; intros s; [done|]. cbn [run fold_left].
  pose proof (step_started s e r). pose proof (IH (step s e)). unfold run in *. lia.
Qed.

Lemma run_spent es s r : waits s r = false →
  count (started_in r) (log (run es s)) ≤ count (started_in r) (log s) →
  waits (run es s) r = false ∧ answers r (run es s) ≤ answers r s.
Proof.
  revert s. induction es as [|e es IH]; intros s Hw Hst; [done|]. cbn [run fold_left] in *.
  pose proof (run_started es (step s e) r). pose proof (step_started s e r). unfold run in *.
  destruct (step_spent s e r Hw) as [Hw' Ha]; [lia|]. destruct (IH (step s e) Hw') as [? ?]; [lia|]. split; [done|lia].
Qed.

(** ** A request is answered *)

Lemma answer_request `{!CryptoLaws C} identity now x fields leaf nonce d :
  get_str "leaf" (JObject fields) = Some leaf → get_str "nonce" (JObject fields) = Some nonce →
  is_ok (pubkey_from_did leaf) = true → issue identity leaf (ttl x) now = Ok d →
  let msg := JObject (obj_insert "mac" (JString (compute_mac (JObject fields) (mac_key (code x)))) fields) in
  answer (Some identity) now (code x) (ttl x) (room x) msg =
    Some {| p_room := room x; p_code := code x; p_leaf := leaf; p_app := default "unknown" (get_str "app" msg);
            p_delegation := d; p_response := pair_response nonce d (mac_key (code x)) |}.
Proof.
  intros Hl Hn Hk Hi msg. unfold answer.
  assert (Hget : ∀ k, k ≠ "mac" → get_str k msg = get_str k (JObject fields)).
  { intros k Hk'. unfold msg, get_str, get. cbn [as_object]. rewrite assoc_obj_insert. by rewrite bool_decide_false. }
  assert (Hm : get_str "mac" msg = Some (compute_mac (JObject fields) (mac_key (code x)))).
  { unfold msg, get_str, get. cbn [as_object]. rewrite assoc_obj_insert. by rewrite bool_decide_true. }
  rewrite Hm, (Hget "leaf"), (Hget "nonce"), Hl, Hn by done.
  assert (Hv : verify_mac msg (mac_key (code x)) (compute_mac (JObject fields) (mac_key (code x))) = true).
  { unfold msg, verify_mac, compute_mac. rewrite b64url_roundtrip. apply bool_decide_eq_true_2.
    unfold mac_for. cbn [as_object]. by rewrite obj_remove_insert. }
  by rewrite Hv, Hk, Hi.
Qed.

(** The last call in flight runs its next section. *)
Lemma run_last s ts t o s' next :
  run_task t o (with_tasks (ts ++ [t]) s) = (s', next) → tasks s' = ts ++ [t] →
  step (with_tasks (ts ++ [t]) s) (ERun (length ts) o) = with_tasks (ts ++ next) s'.
Proof.
  intros Hrun Htasks. cbn [step]. cbn [with_tasks tasks]. rewrite lookup_app_r by done. rewrite Nat.sub_diag.
  cbn [lookup list_lookup]. unfold with_tasks in Hrun at 1. fold (with_tasks (ts ++ [t]) s).
  change ({| session := session s; rooms := rooms s; registered := registered s; timers := timers s;
    delegations := delegations s; tasks := ts ++ [t]; log := log s |}) with (with_tasks (ts ++ [t]) s) in *.
  rewrite Hrun, Htasks, delete_middle. by rewrite app_nil_r.
Qed.

Lemma handle_completes s x msg o p : session s = Some x → status x = Waiting → registered s = true →
  get_str "type" msg = Some WIRE_REQUEST → io_ok o = true →
  answer (me o) (now o) (code x) (ttl x) (room x) msg = Some p →
  let s' := run (EReceive true (room x) (Some msg) :: replicate 5 (ERun (length (tasks s)) o)) s in
  session s' = Some (set_status x (Issued (p_delegation p) (p_leaf p) (p_app p))) ∧ log s' = log s ++ [Sent p] ∧
  tasks s' = tasks s ∧ rooms s' = leave_room (room x) true (rooms s) ∧
  delegations s' = (record_delegation (delegations s) (p_delegation p) true).1.
Proof.
  intros Hs Hw Hreg Hty Ho Ha.
  assert (Hroom : p_room p = room x) by (apply answer_spec in Ha as (? & _ & Hr); apply Hr).
  assert (Hwx : waiting_in (room x) x = true) by (unfold waiting_in; by rewrite bool_decide_true, Hw).
  destruct s as [ses rms reg tim del ts lg]. cbn [session registered tasks log rooms delegations] in *. subst ses reg.
  cbn [run fold_left replicate].
  match goal with |- context [step ?s0 (EReceive _ _ _)] =>
    assert (Hrec : step s0 (EReceive true (room x) (Some msg)) = with_tasks (ts ++ [Handle (room x) msg]) s0) end.
  { cbn [step]. unfold receive, waits. cbn [registered negb session is_some_and].
    by rewrite Hwx, (bool_decide_true (_ = _)). }
  rewrite Hrec. clear Hrec.
  erewrite run_last; [|cbn [run_task]; unfold leave_waiting, start_join, start_install, handle_begin, handle_finish; cbn [with_tasks session]; by rewrite Hwx, Ha|done].
  erewrite run_last; [|cbn [run_task]; unfold leave_waiting, start_join, start_install, handle_begin, handle_finish; by rewrite Ho|done].
  do 2 (erewrite run_last; [|reflexivity|done]).
  erewrite run_last; [|cbn [run_task]; unfold leave_waiting, start_join, start_install, handle_begin, handle_finish; cbn [with_tasks with_rooms with_delegations with_log session]; by rewrite Hroom, bool_decide_true|done].
  cbn. by rewrite Ho, app_nil_r.
Qed.
End properties.

(** C33. What pairing gives away, whatever calls interleave. Every response sent
    answers a request that was received, in the room of a session that was
    started, and whose MAC proves the code of that session; it names the key of
    that request and no other, carries the lifetime chosen for the session from
    the time it is issued, and is itself authenticated. A session
    that says it issued a delegation did send it. Once a session no longer
    waits, its code yields nothing beyond the answers already under way, until
    a session is started in the same room. And the request of a code holder,
    when nothing fails, is answered and closes the session. *)
Theorem pairing_safe {C : Crypto} {Ch : Chrono} {R : Rfc3339} {H : Hmac} `{!CryptoLaws C} :
  (∀ es file p, let s := run es (initial file) in Sent p ∈ log s →
     ∃ x msg i o identity, Started x ∈ log s ∧ room x = room_id (code x) ∧
       EReceive true (room x) (Some msg) ∈ es ∧ get_str "type" msg = Some WIRE_REQUEST ∧
       ERun i o ∈ es ∧ me o = Some identity ∧ request_for identity (now o) x msg p ∧
       ∃ mac, get_str "mac" (p_response p) = Some mac ∧ verify_mac (p_response p) (mac_key (code x)) mac = true) ∧
  (∀ es file x d leaf app, let s := run es (initial file) in
     session s = Some x → status x = Issued d leaf app →
     ∃ p, Sent p ∈ log s ∧ p_room p = room x ∧ p_delegation p = d ∧ p_leaf p = leaf) ∧
  (∀ es es' file r, let s := run es (initial file) in let s' := run es' s in
     waits s r = false → count (started_in r) (log s') = count (started_in r) (log s) →
     waits s' r = false ∧ count (sent_in r) (log s') ≤ answers r s) ∧
  (∀ s x fields leaf nonce d o identity,
     session s = Some x → status x = Waiting → registered s = true → io_ok o = true → me o = Some identity →
     get_str "type" (JObject fields) = Some WIRE_REQUEST →
     get_str "leaf" (JObject fields) = Some leaf → get_str "nonce" (JObject fields) = Some nonce →
     is_ok (pubkey_from_did leaf) = true → issue identity leaf (ttl x) (now o) = Ok d →
     let msg := JObject (obj_insert "mac" (JString (compute_mac (JObject fields) (mac_key (code x)))) fields) in
     let s' := run (EReceive true (room x) (Some msg) :: replicate 5 (ERun (length (tasks s)) o)) s in
     (∃ p, log s' = log s ++ [Sent p] ∧ p_delegation p = d ∧
        p_response p = pair_response nonce d (mac_key (code x))) ∧
     waits s' (room x) = false ∧ rooms s' = leave_room (room x) true (rooms s)).
Proof.
  split_and!.
  - intros es file p s Hp. destruct (reachable_inv es file) as [_ Hl _]. fold s in Hl.
    rewrite Forall_forall in Hl. destruct (Hl _ Hp) as (x & m & i & o & id & Hx & Hrec & Hty & Ho & Hid & Hr).
    destruct (Hl _ Hx) as [Hroom _]. exists x, m, i, o, id. split_and!; [done..|].
    destruct (rf_response _ _ _ _ _ Hr) as (nonce & _ & ->). by apply pair_response_spec.
  - intros es file x d leaf app s Hx Hst. destruct (reachable_inv es file) as [Hs _ _]. fold s in Hs.
    destruct (Hs x Hx) as [_ Hi]. by rewrite Hst in Hi.
  - intros es es' file r s s' Hw Hst.
    destruct (run_spent es' s r Hw) as [Hw' Ha]; [fold s'; lia|].
    split; [done|]. fold s' in Ha. unfold answers in Ha at 1. pose proof (count_nonneg (answering_in r) (tasks s')). lia.
  - intros s x fields leaf nonce d o identity Hs Hw Hreg Ho Hme Hty Hl Hn Hk Hi msg s'.
    pose proof (answer_request identity (now o) x fields leaf nonce d Hl Hn Hk Hi) as Ha. cbv zeta in Ha. fold msg in Ha.
    rewrite <-Hme in Ha.
    assert (Hty' : get_str "type" msg = Some WIRE_REQUEST).
    { unfold msg, get_str, get in *. cbn [as_object] in *. rewrite assoc_obj_insert. by rewrite bool_decide_false. }
    destruct (handle_completes s x msg o _ Hs Hw Hreg Hty' Ho Ha) as (Hses & Hlog & _ & Hrooms & _). fold s' in Hses, Hlog, Hrooms.
    split_and!; [|unfold waits; rewrite Hses; cbn; unfold waiting_in; cbn; apply andb_false_r|done].
    eexists. split; [exact Hlog|]. done.
Qed.

(** ** Concrete runs *)

Module PairingSamples.
Import Wire.Toy DelegationSamples.

#[export] Instance toy_hmac : Hmac := {| hmac_sha256 k m := string_take 32 (String.rev k +:+ m +:+ repeat 32 "0"%char) |}.

Definition sixteen : list Z := [7; 250; 33; 90; 161; 12; 63; 200; 5; 128; 255; 0; 77; 31; 64; 19].
Definition the_code : string := generate_code sixteen.
Definition outcome (ok : bool) : Outcome := {| io_ok := ok; now := 1000 * DAY; drawn := sixteen; me := Some alice |}.

Definition request_fields (leaf nonce : string) : list (string * json) :=
  [("leaf", JString leaf); ("nonce", JString nonce); ("type", JString WIRE_REQUEST); ("v", JNumber (PosInt 1))].
Definition request (leaf nonce : string) : json :=
  JObject (obj_insert "mac" (JString (compute_mac (C := crypto) (H := toy_hmac) (JObject (request_fields leaf nonce)) (mac_key (C := crypto) the_code)))
    (request_fields leaf nonce)).

(** A session for sixty days waits for five minutes. *)
Definition started : list Event :=
  [EStart (60 * DAY) (5 * MINUTE); ERun 0 (outcome true); ERun 0 (outcome true); ERun 0 (outcome true)].
Definition the_room : string := room_id (C := crypto) the_code.
Definition run_toy (es : list Event) : System := run (C := crypto) (R := toy_rfc3339) (Ch := toy_chrono) (H := toy_hmac) es (initial (Some [])).
Definition leaves_sent (s : System) : list string :=
  omap (λ e, match e with Sent p => Some (p_leaf p) | _ => None end) (log s).
Definition status_name (s : System) : option string := get_str "status" (status_json (R := toy_rfc3339) (session s)).
Definition carol : string := "did:key:z00000000000000000000000000000000CAROLCAROLCAROL".
End PairingSamples.

Lemma pairing_safe_witness :
  let s := PairingSamples.run_toy (PairingSamples.started ++ [ECancel]) in
  let s' := run (C := Toy.crypto) (Ch := DelegationSamples.toy_chrono) (R := DelegationSamples.toy_rfc3339)
    (H := PairingSamples.toy_hmac)
    [EReceive true PairingSamples.the_room (Some (PairingSamples.request (did Toy.bob) "n"));
     ERun 0 (PairingSamples.outcome true); ERun 0 (PairingSamples.outcome true)] s in
  waits s' PairingSamples.the_room = false ∧ count (sent_in PairingSamples.the_room) (log s') ≤ 0.
Proof.
  pose proof (pairing_safe (C := Toy.crypto) (Ch := DelegationSamples.toy_chrono) (R := DelegationSamples.toy_rfc3339)
    (H := PairingSamples.toy_hmac)) as (_ & _ & Hspent & _).
  apply (Hspent (PairingSamples.started ++ [ECancel])
    [EReceive true PairingSamples.the_room (Some (PairingSamples.request (did Toy.bob) "n"));
     ERun 0 (PairingSamples.outcome true); ERun 0 (PairingSamples.outcome true)] (Some []) PairingSamples.the_room);
    vm_compute; reflexivity.
Defined.

(** Two requests that arrive before the first is answered are both answered,
    although a code is said to be spent by one. *)
Lemma one_code_two_keys :
  PairingSamples.leaves_sent (PairingSamples.run_toy (PairingSamples.started ++
    [EReceive true PairingSamples.the_room (Some (PairingSamples.request (did Toy.bob) "n"));
     EReceive true PairingSamples.the_room (Some (PairingSamples.request PairingSamples.carol "m"));
     ERun 0 (PairingSamples.outcome true); ERun 0 (PairingSamples.outcome true);
     ERun 0 (PairingSamples.outcome true); ERun 0 (PairingSamples.outcome true)]))
  = [did Toy.bob; PairingSamples.carol].
Proof. vm_compute. reflexivity. Qed.

(** A session that was cancelled while a request was being answered ends up
    issued: [cancel] reports success, and the delegation is sent all the same. *)
Lemma cancelled_yet_issued :
  let s := PairingSamples.run_toy (PairingSamples.started ++
    [EReceive true PairingSamples.the_room (Some (PairingSamples.request (did Toy.bob) "n"));
     ERun 0 (PairingSamples.outcome true)]) in
  (cancel s).2 = true ∧ PairingSamples.leaves_sent s = [] ∧
  let s' := run (C := Toy.crypto) (Ch := DelegationSamples.toy_chrono) (R := DelegationSamples.toy_rfc3339)
    (H := PairingSamples.toy_hmac) [ECancel; ERun 0 (PairingSamples.outcome true); ERun 1 (PairingSamples.outcome true);
      ERun 1 (PairingSamples.outcome true); ERun 1 (PairingSamples.outcome true)] s in
  PairingSamples.leaves_sent s' = [did Toy.bob] ∧ PairingSamples.status_name s' = Some "issued".
Proof. vm_compute. split_and!; reflexivity. Qed.

(** When the room of a new session cannot be joined, the old session still says
    it waits, in a room that was left. *)
Lemma failed_start_strands_session :
  let s := PairingSamples.run_toy (PairingSamples.started ++
    [EStart (60 * DAY) (5 * MINUTE); ERun 0 (PairingSamples.outcome true); ERun 0 (PairingSamples.outcome true);
     ERun 0 (PairingSamples.outcome false)]) in
  tasks s = [] ∧ PairingSamples.status_name s = Some "waiting" ∧ rooms s !! PairingSamples.the_room = None.
Proof. vm_compute. split_and!; reflexivity. Qed.
