(* ===== verification/BotSource.v ===== *)
(** * Sources of the bot pipelines

    [src/src/bot/source.rs]: the buffers of announced articles and chat posts,
    the order in which a pipeline resolves them, and what becomes of their
    bodies. The rooms, the fetch of a body and the decoders serde derives are
    inputs. *)
From S2P Require Import Prelude Text Json Wire Schedule IdentityDelegation.

Definition GLOBAL_ARTICLES_ROOM_ID : string := "tc-global-articles".
Definition WIRE_ARTICLE : string := "tc-news:article".
Definition BUFFER_CAP_PER_ROOM : Z := 500.
Definition MAX_BUFFERED_PER_SENDER : Z := 50.
Definition MAX_FUTURE_SKEW_MS : Z := 10 * 60 * 1000.
Definition POLL_CANDIDATE_LIMIT : Z := 10.
Definition WIRE_CHAT_POST : string := "tc-chat:post".
Definition CHAT_POST_SURFACE : string := "chat".
Definition CHAT_BUFFER_CAP_PER_ROOM : Z := 500.
Definition CHAT_TITLE_FALLBACK_MAX_CHARS : nat := 80.

Definition timestamp_too_far_ahead (timestamp_ms now_ms : Z) : bool :=
  Z.min (now_ms + MAX_FUTURE_SKEW_MS) I64_MAX <? timestamp_ms.

(** ** Announcements *)

Record BufferedWire := { bw_id : string; bw_from_id : string; bw_root : option string; bw_cid : string; bw_timestamp : Z }.
Record BufferedChatWire := {
  cw_id : string; cw_from_id : string; cw_root : option string; cw_from_name : string; cw_cid : string; cw_timestamp : Z
}.

(** What the buffers and the polls use of an announcement. *)
Class Announced (W : Type) := {
  wire_id : W → string;
  wire_from : W → string;
  wire_root : W → option string;
  wire_time : W → Z;
}.
#[global] Instance article_announced : Announced BufferedWire :=
  {| wire_id := bw_id; wire_from := bw_from_id; wire_root := bw_root; wire_time := bw_timestamp |}.
#[global] Instance chat_announced : Announced BufferedChatWire :=
  {| wire_id := cw_id; wire_from := cw_from_id; wire_root := cw_root; wire_time := cw_timestamp |}.

Section receive.
Context {C : Crypto} {Ch : Chrono} {R : Rfc3339}.

(** [entry.trim()] is compared with both names and both node ids. *)
Definition author_trusted (trusted : list string) (from_id : string) (root : option string) : bool :=
  if bool_decide (trusted = []) then true else
  existsb (λ entry, let entry := trim entry in
    bool_decide (entry = from_id) || eq_ignore_ascii_case entry (node_id_for_did from_id)
    || is_some_and (λ root, bool_decide (entry = root)) root
    || is_some_and (λ root, eq_ignore_ascii_case entry (node_id_for_did root)) root) trusted.

Definition buffered_article_wire (value : json) (now : Z) : option BufferedWire :=
  if negb (bool_decide (get_str "type" value = Some WIRE_ARTICLE)) || negb (wire_ok value) then None else
  match get_str "id" value, get_str "fromId" value, get_str "cid" value with
  | Some id, Some from_id, Some cid =>
      let timestamp := default 0 (match get "timestamp" value with Some v => as_i64 v | None => None end) in
      if timestamp_too_far_ahead timestamp (now / MILLI) then None else
      Some {| bw_id := id; bw_from_id := from_id; bw_root := sender_root (resolve_verified_sender value from_id now);
              bw_cid := cid; bw_timestamp := timestamp |}
  | _, _, _ => None
  end.

Definition buffered_chat_wire (value : json) (now : Z) : option BufferedChatWire :=
  if negb (bool_decide (get_str "type" value = Some WIRE_CHAT_POST)) || negb (wire_ok value)
     || negb (bool_decide (get_str "kind" value = Some "text"))
     || negb (bool_decide (get_str "surface" value = Some CHAT_POST_SURFACE)) then None else
  match get_str "id" value, get_str "fromId" value, get_str "cid" value with
  | Some id, Some from_id, Some cid =>
      let timestamp := default 0 (match get "timestamp" value with Some v => as_i64 v | None => None end) in
      if timestamp_too_far_ahead timestamp (now / MILLI) then None else
      Some {| cw_id := id; cw_from_id := from_id; cw_root := sender_root (resolve_verified_sender value from_id now);
              cw_from_name := default "" (get_str "fromName" value); cw_cid := cid; cw_timestamp := timestamp |}
  | _, _, _ => None
  end.
End receive.

(** ** Buffers *)
Section buffers.
Context {W : Type} {AW : Announced W}.

Definition from (s : string) (w : W) : bool := bool_decide (wire_from w = s).

(** [buf.iter().position(..)], then [buf.remove(pos)]. *)
Fixpoint remove_first (f : W → bool) (buf : list W) : option (list W) :=
  match buf with
  | [] => None
  | w :: buf => if f w then Some buf else cons w <$> remove_first f buf
  end.

(** [while count >= MAX_BUFFERED_PER_SENDER]; every round removes an entry. *)
Fixpoint evict_sender (fuel : nat) (sender : string) (count : Z) (buf : list W) : list W :=
  match fuel with
  | O => buf
  | S fuel =>
      if MAX_BUFFERED_PER_SENDER <=? count
      then match remove_first (from sender) buf with
           | Some buf => evict_sender fuel sender (count - 1) buf
           | None => buf
           end
      else buf
  end.

(** [while buf.len() > cap { buf.pop_front(); }] *)
Fixpoint trim_front (cap : Z) (buf : list W) : list W :=
  match buf with
  | [] => []
  | _ :: rest => if cap <? zlen buf then trim_front cap rest else buf
  end.

Definition push_capped (cap : Z) (buf : list W) (wire : W) : list W :=
  let sender := wire_from wire in
  let count := zlen (List.filter (from sender) buf) in
  trim_front cap (evict_sender (length buf) sender count buf ++ [wire]).

(** The handlers of [register_handler] and [register_chat_handler], for an
    announcement that was accepted. *)
Definition buffer_wire (cap : Z) (wire : W) (buf : list W) : list W :=
  if existsb (λ w, bool_decide (wire_id w = wire_id wire)) buf then buf else push_capped cap buf wire.

Definition handle_wire (cap : Z) (room : string) (wire : W) (buffers : gmap string (list W)) : gmap string (list W) :=
  <[room := buffer_wire cap wire (default [] (buffers !! room))]> buffers.
End buffers.

(** ** The order of resolution *)

Record PollOrder := { generation : Z; attempted : gmap string Z }.
Definition new_poll_order : PollOrder := {| generation := 0; attempted := ∅ |}.

Section select.
Context {T : Type} (id : T → string).

Definition last_attempted (p : PollOrder) (x : T) : Z := default 0 (attempted p !! id x).

Definition select (p : PollOrder) (items : list T) : list T * PollOrder :=
  let live := map id items in
  let kept := {| generation := generation p; attempted := filter (λ kv, kv.1 ∈ live) (attempted p) |} in
  let chosen := take (Z.to_nat POLL_CANDIDATE_LIMIT) (sort_by_key (last_attempted kept) items) in
  let generation := generation p + 1 in
  (chosen, {| generation := generation;
              attempted := foldl (λ m x, <[id x := generation]> m) (attempted kept) chosen |}).
End select.

(** ** Bodies *)

Record SourceLink := { sl_title : string; sl_url : string }.
Record Article := {
  a_id : string; a_title : string; a_excerpt : string; a_body : string; a_source_links : list SourceLink;
  a_author_name : string; a_created_at : Z
}.
Record Candidate := { c_id : string; c_article : option Article }.

Record NewsArticleJson := {
  n_id : string; n_title : string; n_excerpt : string; n_body : string; n_author_did : string; n_author_name : string;
  n_created_at : Z; n_source_links : list SourceLink; n_lang : option string
}.
Record ChatPostBody := { pb_title : option string; pb_text : option string }.

(** The decoders serde derives for the two bodies. *)
Class BodyText := {
  news_article_json : string → option NewsArticleJson;
  chat_post_body : string → option ChatPostBody;
}.

Section candidates.
Context {C : Crypto} {B : BodyText}.

Definition parse_and_filter (bytes announced_from_id : string) (langs : list string) : option Article :=
  match news_article_json bytes with
  | None => None
  | Some raw =>
      if bool_decide (n_id raw = "") || bool_decide (n_author_did raw = "") then None else
      if negb (bool_decide (n_author_did raw = announced_from_id)) then None else
      if negb (bool_decide (langs = [])) && negb (contains langs (default "" (n_lang raw))) then None else
      Some {| a_id := n_id raw; a_title := n_title raw; a_excerpt := n_excerpt raw; a_body := n_body raw;
              a_source_links := n_source_links raw; a_author_name := n_author_name raw; a_created_at := n_created_at raw |}
  end.

(** [text.lines().next().unwrap_or("")] *)
Definition newline : ascii := Ascii.ascii_of_N 10.
Definition carriage_return : string := String (Ascii.ascii_of_N 13) "".
Definition first_line (text : string) : string :=
  match split_once newline text with
  | Some (line, _) => default line (strip_suffix carriage_return line)
  | None => text
  end.
Definition first_line_truncated (text : string) (max_chars : nat) : string :=
  Text.join "" (take max_chars (chars (trim (first_line text)))).

Definition chat_body_to_article (bytes : string) (wire : BufferedChatWire) : option Article :=
  match chat_post_body bytes with
  | None => None
  | Some body =>
      let text := default "" (pb_text body) in
      if bool_decide (trim text = "") then None else
      let title :=
        match trim <$> pb_title body with
        | Some title => if negb (bool_decide (title = "")) then title
                        else first_line_truncated text CHAT_TITLE_FALLBACK_MAX_CHARS
        | None => first_line_truncated text CHAT_TITLE_FALLBACK_MAX_CHARS
        end in
      Some {| a_id := cw_id wire; a_title := title; a_excerpt := ""; a_body := text; a_source_links := [];
              a_author_name := cw_from_name wire; a_created_at := cw_timestamp wire |}
  end.

Definition effective_rooms (rooms : list string) : list string :=
  let trimmed := List.filter (λ room, negb (bool_decide (room = ""))) (map trim rooms) in
  if bool_decide (trimmed = []) then [GLOBAL_ARTICLES_ROOM_ID] else trimmed.

(** The wires a pipeline may still resolve, an id once, oldest first. *)
Section unresolved.
Context {W : Type} {AW : Announced W}.
Definition wanted (processed : list string) (own_did : string) (trusted : list string) (w : W) : bool :=
  if contains processed (wire_id w) then false else
  if bool_decide (wire_from w = own_did) then false else
  author_trusted trusted (wire_from w) (wire_root w).

Definition add_unresolved (processed : list string) (own_did : string) (trusted : list string) (room : string)
    (l : list (string * W)) (w : W) : list (string * W) :=
  if negb (wanted processed own_did trusted w) then l else
  if existsb (λ p, bool_decide (wire_id p.2 = wire_id w)) l then l else l ++ [(room, w)].

Definition unresolved (buffers : gmap string (list W)) (rooms processed : list string) (own_did : string)
    (trusted : list string) : list (string * W) :=
  sort_by_key (λ p, wire_time p.2)
    (foldl (λ l room, foldl (add_unresolved processed own_did trusted room) l (default [] (buffers !! room))) [] rooms).

(** [fetch] yields the body of a content id from a room, unless it times out. *)
Definition resolve (fetch : string → string → option string) (cid : W → string) (article : string → W → option Article)
    (l : list (string * W)) : list Candidate :=
  omap (λ '(room, w), (λ bytes, {| c_id := wire_id w; c_article := article bytes w |}) <$> fetch (cid w) room) l.
End unresolved.

Definition poll_candidates (buffers : gmap string (list BufferedWire)) (rooms langs processed : list string)
    (own_did : string) (trusted : list string) (order : PollOrder) (fetch : string → string → option string)
    : list Candidate * PollOrder :=
  let l := unresolved buffers (effective_rooms rooms) processed own_did trusted in
  let '(chosen, order) := select (λ p, wire_id p.2) order l in
  (resolve fetch bw_cid (λ bytes w, parse_and_filter bytes (bw_from_id w) langs) chosen, order).

(** One room; the ids of its buffer are distinct. *)
Definition poll_chat_candidates (buffers : gmap string (list BufferedChatWire)) (room : string) (processed : list string)
    (own_did : string) (trusted : list string) (order : PollOrder) (fetch : string → string → option string)
    : result (list Candidate * PollOrder) string :=
  let room := trim room in
  ensure (negb (bool_decide (room = ""))) "source.room is not set" ;;?
  let l := sort_by_key wire_time (List.filter (wanted processed own_did trusted) (default [] (buffers !! room))) in
  let '(chosen, order) := select wire_id order l in
  Ok (resolve fetch cw_cid chat_body_to_article (map (λ w, (room, w)) chosen), order).
End candidates.

(** ** Buffers stay bounded and fair *)

Lemma zlen_single {A} (x : A) : zlen [x] = 1.
Proof. done. Qed.

Section buffer_lemmas.
Context {W : Type} {AW : Announced W}.
Implicit Types (buf : list W) (w : W) (s : string).

Definition own s buf : list W := List.filter (from s) buf.
Definition others s buf : list W := List.filter (λ w, negb (from s w)) buf.

Record buffer_wf (cap : Z) buf : Prop := {
  wf_len : zlen buf ≤ cap;
  wf_sender : ∀ s, zlen (own s buf) ≤ MAX_BUFFERED_PER_SENDER;
  wf_ids : NoDup (map wire_id buf);
}.

Lemma own_others s buf : zlen buf = zlen (own s buf) + zlen (others s buf).
Proof.
  unfold own, others. induction buf as [|w buf IH]; [done|]. rewrite zlen_cons, IH. simpl.
  destruct (from s w); simpl; rewrite zlen_cons; lia.
Qed.

Lemma own_app s a b : own s (a ++ b) = own s a ++ own s b.
Proof. apply List.filter_app. Qed.
Lemma others_app s a b : others s (a ++ b) = others s a ++ others s b.
Proof. apply List.filter_app. Qed.

Lemma remove_first_spec s buf :
  match remove_first (from s) buf with
  | Some buf' => zlen (own s buf) = 1 + zlen (own s buf') ∧ others s buf' = others s buf ∧ sublist buf' buf
  | None => zlen (own s buf) = 0
  end.
Proof.
  induction buf as [|w buf IH]; [done|]. cbn [remove_first]. unfold own, others in *. simpl.
  destruct (from s w) eqn:E.
  - rewrite zlen_cons. split_and!; [done|done|by constructor].
  - destruct (remove_first (from s) buf) as [buf'|]; [|done]. simpl. rewrite E. simpl.
    destruct IH as (? & -> & ?). split_and!; [done|done|by constructor].
Qed.

Lemma evict_sender_spec fuel s buf : (length buf ≤ fuel)%nat →
  let e := evict_sender fuel s (zlen (own s buf)) buf in
  zlen (own s e) = Z.min (zlen (own s buf)) (MAX_BUFFERED_PER_SENDER - 1) ∧ others s e = others s buf ∧ sublist e buf.
Proof.
  revert buf. induction fuel as [|fuel IH]; intros buf Hf; cbn [evict_sender]; cbv zeta.
  - destruct buf; [|simpl in Hf; lia]. done.
  - unfold MAX_BUFFERED_PER_SENDER in *. destruct (50 <=? zlen (own s buf)) eqn:E; [|split_and!; [lia|done|done]].
    pose proof (remove_first_spec s buf) as Hr. destruct (remove_first (from s) buf) as [buf'|]; [|lia].
    destruct Hr as (Hc & Ho & Hsub). replace (zlen (own s buf) - 1) with (zlen (own s buf')) by lia.
    pose proof (own_others s buf) as L. pose proof (own_others s buf') as L'. rewrite Ho in L'.
    destruct (IH buf') as (H1 & H2 & H3); [unfold zlen in *; lia|]. split_and!; [lia|by rewrite H2|by etrans].
Qed.

Lemma trim_front_eq cap buf : 0 ≤ cap → trim_front cap buf = drop (length buf - Z.to_nat cap) buf.
Proof.
  intros Hcap. induction buf as [|w buf IH]; [done|]. cbn [trim_front]. rewrite zlen_cons.
  destruct (cap <? 1 + zlen buf) eqn:E.
  - rewrite IH. unfold zlen in *. cbn [length]. by replace (S (length buf) - Z.to_nat cap)%nat
      with (S (length buf - Z.to_nat cap)) by lia.
  - unfold zlen in *. cbn [length]. by replace (S (length buf) - Z.to_nat cap)%nat with 0%nat by lia.
Qed.

Lemma own_single s w : wire_from w = s → own s [w] = [w] ∧ others s [w] = [].
Proof. intros <-. unfold own, others, from. simpl. by rewrite bool_decide_true. Qed.

(** An announcement displaces entries of other senders only as its sender's
    share grows. *)
Lemma push_capped_spec cap buf w : 0 < cap → buffer_wf cap buf →
  let s := wire_from w in let r := push_capped cap buf w in
  sublist r (buf ++ [w]) ∧ zlen r ≤ cap ∧ zlen (own s r) ≤ MAX_BUFFERED_PER_SENDER ∧
  ∃ k, others s r = drop k (others s buf) ∧ Z.of_nat k + zlen (own s buf) ≤ zlen (own s r).
Proof.
  intros Hcap [Hlen Hown _]. cbv zeta. unfold push_capped. fold (own (wire_from w) buf).
  destruct (evict_sender_spec (length buf) (wire_from w) buf ltac:(done)) as (Ho & He & Hsub). cbv zeta in *.
  revert Ho He Hsub. generalize (evict_sender (length buf) (wire_from w) (zlen (own (wire_from w) buf)) buf) as e.
  intros e Ho He Hsub. specialize (Hown (wire_from w)). set (s := wire_from w) in *.
  destruct (own_single s w eq_refl) as [Hw1 Hw2].
  pose proof (own_others s e) as L. pose proof (own_others s buf) as L'. rewrite He in L.
  assert (Hsub' : sublist (e ++ [w]) (buf ++ [w])) by (by apply sublist_app).
  rewrite trim_front_eq by lia. unfold MAX_BUFFERED_PER_SENDER in *.
  destruct (decide (zlen e < cap)) as [Hlt|Hge].
  - replace (length (e ++ [w]) - Z.to_nat cap)%nat with 0%nat by (rewrite length_app; unfold zlen in *; simpl; lia).
    rewrite drop_0. split_and!; [done|rewrite zlen_app, zlen_single; lia| |].
    + rewrite own_app, Hw1, zlen_app, zlen_single. lia.
    + exists 0%nat. rewrite others_app, Hw2, app_nil_r, He. split; [done|]. rewrite own_app, Hw1, zlen_app, zlen_single. lia.
  - replace (length (e ++ [w]) - Z.to_nat cap)%nat with 1%nat by (rewrite length_app; unfold zlen in *; simpl; lia).
    destruct e as [|x e]; [unfold zlen in *; cbn in *; lia|].
    change (drop 1 ((x :: e) ++ [w])) with (e ++ [w]). rewrite zlen_cons in L, Hge.
    assert (Hx : own s (x :: e) = own s [x] ++ own s e ∧ others s (x :: e) = others s [x] ++ others s e)
      by (split; [by rewrite <-own_app|by rewrite <-others_app]).
    destruct Hx as [Hx1 Hx2]. rewrite Hx1, zlen_app in Ho, L. rewrite Hx2 in He.
    split_and!; [etrans; [|exact Hsub']; by constructor|rewrite zlen_app, zlen_single; lia| |].
    + rewrite own_app, Hw1, zlen_app, zlen_single. pose proof (zlen_nonneg (own s [x])). lia.
    + rewrite own_app, others_app, Hw1, Hw2, zlen_app, zlen_single, app_nil_r, <-He. unfold own, others in *. cbn [List.filter] in *.
      destruct (from s x); cbn in *.
      * exists 0%nat. split; [done|]. unfold zlen in *; simpl in *. lia.
      * exists 1%nat. split; [done|]. unfold zlen in *; simpl in *. lia.
Qed.

Lemma sublist_filter (f : W → bool) a b : sublist a b → zlen (List.filter f a) ≤ zlen (List.filter f b).
Proof. induction 1; simpl; repeat case_match; rewrite ?zlen_cons; lia. Qed.

Lemma buffer_wire_wf cap buf w : 0 < cap → buffer_wf cap buf → buffer_wf cap (buffer_wire cap w buf).
Proof.
  intros Hcap Hwf. unfold buffer_wire. destruct (existsb _ buf) eqn:Hex; [done|].
  destruct (push_capped_spec cap buf w Hcap Hwf) as (Hsub & Hlen & Hown & _). split; [done| |].
  - intros s. destruct (decide (s = wire_from w)) as [->|Hs]; [done|].
    etrans; [apply (sublist_filter _ _ _ Hsub)|]. rewrite List.filter_app. cbn. unfold from at 2.
    rewrite bool_decide_false by done. rewrite app_nil_r. apply Hwf.
  - eapply sublist_NoDup; [|exact (fmap_sublist wire_id _ _ Hsub)]. rewrite fmap_app. apply NoDup_app. split_and!; [apply Hwf| |apply NoDup_singleton].
    intros i Hi%list_elem_of_fmap ->%list_elem_of_singleton. destruct Hi as (v & Hv & Hin).
    rewrite existsb_elem_false in Hex. specialize (Hex v Hin). by bools.
Qed.

(** What a sender who floods a room displaces. *)
Lemma flood_bound cap s ws buf : 0 < cap → buffer_wf cap buf → Forall (λ w, wire_from w = s) ws →
  let r := foldl (λ b w, buffer_wire cap w b) buf ws in
  buffer_wf cap r ∧ ∃ k, others s r = drop k (others s buf) ∧ Z.of_nat k + zlen (own s buf) ≤ zlen (own s r).
Proof.
  intros Hcap Hwf Hws. revert buf Hwf. induction Hws as [|w ws Hw Hws IH]; intros buf Hwf; cbn [foldl]; cbv zeta.
  - split; [done|]. exists 0%nat. by rewrite drop_0.
  - destruct (IH _ (buffer_wire_wf cap buf w Hcap Hwf)) as (Hr & k & Hk & Hle). split; [done|].
    unfold buffer_wire in *. destruct (existsb _ buf); [by exists k|].
    destruct (push_capped_spec cap buf w Hcap Hwf) as (_ & _ & _ & k' & Hk' & Hle'). rewrite Hw in *.
    exists (k' + k)%nat. rewrite Hk, Hk', drop_drop. split; [done|lia].
Qed.
End buffer_lemmas.

(** ** No candidate starves *)
Section poll_lemmas.
Context {T : Type} (id : T → string).
Implicit Types (p : PollOrder) (items : list T).

Definition poll_wf p : Prop := map_Forall (λ _ g, g ≤ generation p) (attempted p) ∧ 0 ≤ generation p.

(** The polls of a pipeline over the lists of unresolved wires. *)
Fixpoint polls p (rounds : list (list T)) : list (list T) :=
  match rounds with
  | [] => []
  | items :: rounds => let '(chosen, p) := select id p items in chosen :: polls p rounds
  end.

Lemma select_length p items : length (select id p items).1 = Nat.min 10 (length items).
Proof. unfold select. cbn. rewrite length_take. by rewrite sort_by_key_perm. Qed.

Lemma select_subseteq p items x : x ∈ (select id p items).1 → x ∈ items.
Proof.
  unfold select. cbn. intros Hx. rewrite <-(sort_by_key_perm (last_attempted id
    {| generation := generation p; attempted := filter (λ kv, kv.1 ∈ map id items) (attempted p) |}) items).
  by eapply elem_of_sublist, sublist_take.
Qed.

Lemma select_nodup p items : NoDup (map id items) → NoDup (map id (select id p items).1).
Proof.
  intros Hnd. unfold select. cbn. eapply sublist_NoDup; [|apply (fmap_sublist id), sublist_take].
  change (NoDup (map id (sort_by_key (last_attempted id
    {| generation := generation p; attempted := filter (λ kv, kv.1 ∈ map id items) (attempted p) |}) items))).
  by rewrite sort_by_key_perm.
Qed.

Lemma select_all p items x : (length items ≤ 10)%nat → x ∈ items → x ∈ (select id p items).1.
Proof.
  intros Hlen Hx. unfold select. cbn. set (k := last_attempted id _).
  rewrite take_ge by (rewrite sort_by_key_perm; exact Hlen). by rewrite sort_by_key_perm.
Qed.

(** What was chosen was attempted no later than what was passed over. *)
Lemma select_order p items x y : y ∈ items → id y ∉ map id (select id p items).1 →
  x ∈ (select id p items).1 → last_attempted id p x ≤ last_attempted id p y.
Proof.
  intros Hy Hny Hx. pose proof (select_subseteq p items x Hx) as Hxi. unfold select in *. cbn in Hx, Hny.
  set (kept := {| generation := generation p; attempted := _ |}) in *.
  assert (Hkept : ∀ z, z ∈ items → last_attempted id kept z = last_attempted id p z).
  { intros z Hz. unfold last_attempted, kept. cbn. rewrite map_lookup_filter.
    assert (id z ∈ map id items) by (apply list_elem_of_fmap; by exists z).
    destruct (attempted p !! id z); simpl; [|done]. by rewrite option_guard_True. }
  rewrite <-(Hkept x Hxi), <-(Hkept y Hy). eapply sort_by_key_take; [exact Hx|].
  assert (Hy' : y ∈ sort_by_key (last_attempted id kept) items) by (by rewrite sort_by_key_perm).
  rewrite <-(take_drop 10 (sort_by_key _ items)) in Hy'. apply elem_of_app in Hy' as [Hy'|Hy']; [|exact Hy'].
  exfalso. apply Hny. apply list_elem_of_fmap. by exists y.
Qed.

Lemma marked_lookup (l : list T) g (m : gmap string Z) k :
  foldl (λ m x, <[id x := g]> m) m l !! k = if decide (k ∈ map id l) then Some g else m !! k.
Proof.
  revert m. induction l as [|x l IH]; intros m; cbn [foldl map].
  - case_decide as Hk; [by apply elem_of_nil in Hk|done].
  - rewrite IH. case_decide as Hk; case_decide as Hk'; try done.
    + exfalso. apply Hk'. by apply list_elem_of_further.
    + apply elem_of_cons in Hk' as [->|?]; [by rewrite lookup_insert_eq|done].
    + rewrite lookup_insert_ne; [done|]. intros <-. apply Hk'. apply list_elem_of_here.
Qed.

Lemma select_wf p items : poll_wf p → poll_wf (select id p items).2.
Proof.
  intros [Hp H0]. unfold select. cbn. split; cbn; [|lia]. intros k g. rewrite marked_lookup.
  case_decide; [intros [= <-]; lia|]. intros [Hk _]%map_lookup_filter_Some. specialize (Hp k g Hk). simpl in Hp. lia.
Qed.

Lemma select_marks p items y : poll_wf p → y ∈ items →
  last_attempted id (select id p items).2 y =
    if decide (id y ∈ map id (select id p items).1) then generation p + 1 else last_attempted id p y.
Proof.
  intros Hp Hy. unfold select, last_attempted. cbn. rewrite marked_lookup. case_decide; [done|].
  rewrite map_lookup_filter. assert (id y ∈ map id items) by (apply list_elem_of_fmap; by exists y).
  destruct (attempted p !! id y); simpl; [|done]. by rewrite option_guard_True.
Qed.

(** The items not attempted after [g]. *)
Definition pending (g : Z) p items : list T := List.filter (λ x, last_attempted id p x <=? g) items.

Inductive shrinking : list (list T) → Prop :=
| shrinking_nil : shrinking []
| shrinking_one items : NoDup (map id items) → shrinking [items]
| shrinking_cons items items' rounds : NoDup (map id items) → (∀ x, x ∈ items' → x ∈ items) →
    shrinking (items' :: rounds) → shrinking (items :: items' :: rounds).

(** A poll that passes over an item chooses ten that were no less overdue. *)
Lemma pass_over p items x g (k : list T) :
  NoDup (map id items) → x ∈ items → id x ∉ map id (select id p items).1 → last_attempted id p x ≤ g →
  NoDup (map id k) → (∀ y, y ∈ k → y ∈ pending g p items ∧ id y ∉ map id (select id p items).1) →
  (length k + 10 ≤ length (pending g p items))%nat.
Proof.
  intros Hnd Hx Hnx Hlast Hk Hin.
  assert (Hten : length (select id p items).1 = 10%nat).
  { rewrite select_length. destruct (decide (10 ≤ length items)%nat); [lia|]. exfalso. apply Hnx.
    apply list_elem_of_fmap. exists x. split; [done|]. apply select_all; [lia|done]. }
  assert (Hsub : map id k ++ map id (select id p items).1 ⊆+ map id (pending g p items)).
  { apply NoDup_submseteq.
    - apply NoDup_app. split_and!; [done| |by apply select_nodup].
      intros i (y & -> & Hy)%list_elem_of_fmap. by apply Hin.
    - intros i [Hi|Hi]%elem_of_app; apply list_elem_of_fmap in Hi as (y & -> & Hy); apply list_elem_of_fmap; exists y;
        (split; [done|]); [by apply Hin|].
      apply elem_of_List_filter. split; [by eapply select_subseteq|]. apply Z.leb_le. etrans; [|exact Hlast].
      by apply (select_order p items). }
  apply submseteq_length in Hsub. rewrite length_app, !length_map in Hsub. lia.
Qed.

Lemma starved_pending rounds : ∀ p items x g,
  shrinking (items :: rounds) → poll_wf p → g ≤ generation p →
  Forall (λ items, x ∈ items) (items :: rounds) → last_attempted id p x ≤ g →
  Forall (λ chosen, id x ∉ map id chosen) (polls p (items :: rounds)) →
  (10 * length (items :: rounds) + 1 ≤ length (pending g p items))%nat.
Proof.
  induction rounds as [|items' rounds IH]; intros p items x g Hsh Hp Hg Hx Hlast Hno;
    cbn [polls] in Hno; rewrite (surjective_pairing (select id p items)) in Hno;
    apply Forall_cons in Hno as [Hnx Hno]; apply Forall_cons in Hx as [Hxi Hx].
  - assert (NoDup (map id items)) by (by inversion Hsh).
    assert (length [x] + 10 ≤ length (pending g p items))%nat.
    { apply (pass_over p items x g); try done; [apply NoDup_singleton|]. intros y ->%list_elem_of_singleton.
      split; [|done]. apply elem_of_List_filter. split; [done|lia]. }
    simpl in *. lia.
  - inversion Hsh as [| |? ? ? Hnd Hin Hsh']; subst.
    assert (Hnd' : NoDup (map id items')) by (by inversion Hsh').
    assert (Hmark := select_marks p items). set (p' := (select id p items).2) in *.
    assert (Hrest : (10 * length (items' :: rounds) + 1 ≤ length (pending g p' items'))%nat).
    { apply (IH p' items' x g Hsh'); [by apply select_wf|unfold p', select; cbn; lia|done| |done].
      rewrite Hmark by done. by rewrite decide_False. }
    assert (length (pending g p' items') + 10 ≤ length (pending g p items))%nat.
    { apply (pass_over p items x g); try done; [by apply NoDup_map_filter|].
      intros y [Hy Hyg%Z.leb_le]%elem_of_List_filter. rewrite Hmark in Hyg by auto. case_decide as Hc; [lia|].
      split; [|done]. apply elem_of_List_filter. split; [auto|by apply Z.leb_le]. }
    simpl in *. lia.
Qed.

(** A wire that stays unresolved is attempted within one round of polls of the
    whole list, as long as no other wire arrives. *)
Lemma polled_in_turn p rounds items x :
  shrinking (items :: rounds) → poll_wf p → Forall (λ items, x ∈ items) (items :: rounds) →
  (length items ≤ 10 * length (items :: rounds))%nat →
  Exists (λ chosen, id x ∈ map id chosen) (polls p (items :: rounds)).
Proof.
  intros Hsh Hp Hx Hlen. destruct (decide (Exists (λ chosen, id x ∈ map id chosen) (polls p (items :: rounds)))) as [|Hno]; [done|].
  exfalso. apply not_Exists_Forall in Hno; [|intros; apply _].
  assert (Hlast : last_attempted id p x ≤ generation p).
  { destruct Hp as [Hp H0]. unfold last_attempted. destruct (attempted p !! id x) as [g|] eqn:E; simpl; [by apply (Hp _ _ E)|done]. }
  pose proof (starved_pending rounds p items x (generation p) Hsh Hp ltac:(lia) Hx Hlast Hno) as Hpend.
  pose proof (filter_zlen (λ x, last_attempted id p x <=? generation p) items) as Hf. unfold pending, zlen in *. lia.
Qed.
End poll_lemmas.

(** ** Candidates *)
Section candidate_lemmas.
Context {C : Crypto} {B : BodyText} {W : Type} {AW : Announced W}.

Definition unresolved_ok (buffers : gmap string (list W)) (rooms processed : list string) (own_did : string)
    (trusted : list string) (l : list (string * W)) : Prop :=
  NoDup (map (λ q, wire_id q.2) l) ∧
  ∀ q, q ∈ l → q.1 ∈ rooms ∧ q.2 ∈ default [] (buffers !! q.1) ∧ wanted processed own_did trusted q.2 = true.

Lemma add_unresolved_ok buffers rooms processed own_did trusted room l w :
  unresolved_ok buffers rooms processed own_did trusted l → room ∈ rooms → w ∈ default [] (buffers !! room) →
  unresolved_ok buffers rooms processed own_did trusted (add_unresolved processed own_did trusted room l w).
Proof.
  intros [Hnd Hl] Hroom Hw. unfold add_unresolved. destruct (wanted _ _ _ w) eqn:Hwant; [|done]. cbn [negb].
  destruct (existsb _ l) eqn:Hex; [done|]. split.
  - rewrite map_app. apply NoDup_app. split_and!; [done| |apply NoDup_singleton].
    intros i (q & -> & Hq)%list_elem_of_fmap Hi%list_elem_of_singleton. rewrite existsb_elem_false in Hex.
    specialize (Hex q Hq). cbn in Hi. by bools.
  - intros q [Hq| ->%list_elem_of_singleton]%elem_of_app; [by apply Hl|done].
Qed.

Lemma unresolved_spec buffers rooms processed own_did trusted :
  unresolved_ok buffers rooms processed own_did trusted (unresolved buffers rooms processed own_did trusted).
Proof.
  unfold unresolved. set (l := foldl _ [] rooms).
  enough (Hl : unresolved_ok buffers rooms processed own_did trusted l).
  { destruct Hl as [Hnd Hl]. split.
    - by rewrite sort_by_key_perm.
    - intros q Hq. rewrite sort_by_key_perm in Hq. by apply Hl. }
  unfold l. clear l. assert (H0 : unresolved_ok buffers rooms processed own_did trusted []).
  { split; [constructor|]. intros q Hq. by apply elem_of_nil in Hq. }
  revert H0. generalize (@nil (string * W)). assert (Hsub : ∀ r, r ∈ rooms → r ∈ rooms) by done. revert Hsub.
  generalize rooms at 1 5 as rs. induction rs as [|room rs IH]; intros Hsub l Hl; [done|].
  cbn [foldl]. apply IH; [intros r Hr; apply Hsub; by apply list_elem_of_further|].
  assert (Hroom : room ∈ rooms) by (apply Hsub, list_elem_of_here).
  assert (Hin : ∀ w, w ∈ default [] (buffers !! room) → w ∈ default [] (buffers !! room)) by done. revert l Hl Hin.
  generalize (default [] (buffers !! room)) at 1 3 as ws. induction ws as [|w ws IHw]; intros l Hl Hin; [done|].
  cbn [foldl]. apply IHw; [|intros v Hv; apply Hin; by apply list_elem_of_further].
  apply add_unresolved_ok; [done|done|]. apply Hin, list_elem_of_here.
Qed.

Lemma resolve_ids fetch cid article (l : list (string * W)) c :
  c ∈ resolve fetch cid article l → ∃ q, q ∈ l ∧ wire_id q.2 = c_id c.
Proof.
  unfold resolve. intros ([room w] & Hq & Hc)%list_elem_of_omap. exists (room, w). split; [done|].
  destruct (fetch _ _); [|done]. by injection Hc as <-.
Qed.

Lemma resolve_length fetch cid article (l : list (string * W)) : (length (resolve fetch cid article l) ≤ length l)%nat.
Proof.
  unfold resolve. induction l as [|q l IH]; [done|]. destruct q as [room w].
  unfold omap in *. cbn [list_omap]. destruct (fetch (cid w) room); cbn [fmap option_fmap option_map length]; lia.
Qed.
End candidate_lemmas.

Lemma select_most {T} (id : T → string) p items : (length (select id p items).1 ≤ 10)%nat.
Proof. rewrite select_length. lia. Qed.

(** Who may put an item into a pipeline. *)
Lemma author_trusted_spec {C : Crypto} trusted from_id root : trusted ≠ [] → author_trusted trusted from_id root = true →
  ∃ entry, entry ∈ trusted ∧
    (trim entry = from_id ∨ eq_ignore_ascii_case (trim entry) (node_id_for_did from_id) = true ∨
     ∃ r, root = Some r ∧ (trim entry = r ∨ eq_ignore_ascii_case (trim entry) (node_id_for_did r) = true)).
Proof.
  intros Hne H. unfold author_trusted in H. rewrite bool_decide_false in H by done.
  apply existsb_elem in H as (entry & Hin & H). exists entry. split; [done|].
  apply orb_true_iff in H as [H|H]; [apply orb_true_iff in H as [H|H]; [apply orb_true_iff in H as [H|H]|]|].
  - left. by bools.
  - by right; left.
  - apply is_some_and_true in H as (r & -> & H). right; right. exists r. split; [done|]. left. by bools.
  - apply is_some_and_true in H as (r & -> & H). right; right. exists r. split; [done|]. by right.
Qed.

(** The sources of the bots. Whatever is announced, a buffer stays within
    its cap, holds an id once and at most fifty announcements of a sender, and
    a sender who floods a room displaces, for all it sends, at most fifty
    announcements of others less those it had, oldest first. A poll yields at most ten candidates, each announced
    in a room of the pipeline, not yet processed, not the daemon's own and by a
    trusted author. And a wire whose body cannot be fetched does not hold up
    the others: each waiting wire is attempted within one turn of the whole
    list when nothing new arrives. *)
Theorem source_fair {C : Crypto} {B : BodyText} :
  (∀ {W : Type} {AW : Announced W} cap (ws buf : list W) s, 0 < cap → buffer_wf cap buf →
     buffer_wf cap (foldl (λ b w, buffer_wire cap w b) buf ws) ∧
     (Forall (λ w, wire_from w = s) ws →
        ∃ k, others s (foldl (λ b w, buffer_wire cap w b) buf ws) = drop k (others s buf) ∧
             Z.of_nat k ≤ MAX_BUFFERED_PER_SENDER - zlen (own s buf))) ∧
  (∀ buffers rooms langs processed own_did trusted order fetch,
     let cs := (poll_candidates buffers rooms langs processed own_did trusted order fetch).1 in
     zlen cs ≤ POLL_CANDIDATE_LIMIT ∧
     ∀ c, c ∈ cs → c_id c ∉ processed ∧ ∃ room w, room ∈ effective_rooms rooms ∧ w ∈ default [] (buffers !! room) ∧
       bw_id w = c_id c ∧ bw_from_id w ≠ own_did ∧ author_trusted trusted (bw_from_id w) (bw_root w) = true) ∧
  (∀ {T : Type} (id : T → string) p rounds items x,
     shrinking id (items :: rounds) → poll_wf p → Forall (λ items, x ∈ items) (items :: rounds) →
     (length items ≤ 10 * length (items :: rounds))%nat →
     Exists (λ chosen, id x ∈ map id chosen) (polls id p (items :: rounds))).
Proof.
  split_and!; [| |intros; by apply polled_in_turn].
  - intros W AW cap ws buf s Hcap Hwf.
    assert (Hall : buffer_wf cap (foldl (λ b w, buffer_wire cap w b) buf ws)).
    { revert buf Hwf. induction ws as [|w ws IH]; intros buf Hwf; [done|]. by apply IH, buffer_wire_wf. }
    split; [done|]. intros Hws. destruct (flood_bound cap s ws buf Hcap Hwf Hws) as (_ & k & Hk & Hle).
    exists k. split; [done|]. pose proof (wf_sender _ _ Hall s). lia.
  - intros buffers rooms langs processed own_did trusted order fetch. unfold poll_candidates.
    pose proof (unresolved_spec buffers (effective_rooms rooms) processed own_did trusted) as [_ Hl].
    set (l := unresolved _ _ _ _ _) in *. rewrite (surjective_pairing (select _ order l)). cbn [fst]. cbv zeta. split.
    + pose proof (resolve_length fetch bw_cid (λ bytes w, parse_and_filter bytes (bw_from_id w) langs)
        (select (λ p : string * BufferedWire, wire_id p.2) order l).1).
      pose proof (select_most (λ p : string * BufferedWire, wire_id p.2) order l). unfold zlen, POLL_CANDIDATE_LIMIT. lia.
    + intros c Hc. apply resolve_ids in Hc as ([room w] & Hq & Hid). apply select_subseteq in Hq.
      destruct (Hl _ Hq) as (Hroom & Hw & Hwant). cbn in Hroom, Hw, Hid, Hwant. unfold wanted in Hwant.
      destruct (contains processed _) eqn:Hp; [done|]. case_bool_decide as Hown; [done|].
      split; [|by exists room, w]. intros Hin. rewrite <-Hid in Hin. unfold contains in Hp.
      by apply bool_decide_eq_false in Hp.
Qed.

(** ** Concrete announcements *)

Module SourceSamples.
#[export] Instance toy_bodies : BodyText := {| news_article_json _ := None; chat_post_body _ := None |}.

Definition wire (id from : string) (t : Z) : BufferedWire :=
  {| bw_id := id; bw_from_id := from; bw_root := None; bw_cid := "cid-" +:+ id; bw_timestamp := t |}.
Definition flood (n : nat) : list BufferedWire := map (λ i, wire ("m" +:+ show (Z.of_nat i)) "mallory" 0) (seq 0 n).
Definition quiet : list BufferedWire := [wire "a" "alice" 1; wire "b" "alice" 2; wire "c" "bob" 3].
End SourceSamples.

Lemma source_fair_witness :
  buffer_wf 60 (foldl (λ b w, buffer_wire 60 w b) SourceSamples.quiet (SourceSamples.flood 200)) ∧
  Exists (λ chosen, "b" ∈ map bw_id chosen)
    (polls bw_id new_poll_order [SourceSamples.quiet; SourceSamples.quiet]).
Proof.
  pose proof (source_fair (C := Toy.crypto) (B := SourceSamples.toy_bodies)) as (Hb & _ & Hp). split.
  - refine (proj1 (Hb _ _ 60 (SourceSamples.flood 200) SourceSamples.quiet "mallory" _ _)); [done|].
    split; [by vm_compute| |by apply (bool_decide_unpack _); vm_compute].
    intros s. unfold own. etrans; [apply filter_zlen|]. by vm_compute.
  - apply (Hp _ bw_id new_poll_order _ _ (SourceSamples.wire "b" "alice" 2)).
    + constructor; [by apply (bool_decide_unpack _); vm_compute|done|].
      constructor. by apply (bool_decide_unpack _); vm_compute.
    + split; [apply map_Forall_empty|done].
    + repeat constructor.
    + simpl. lia.
Defined.

(** An announcement is a duplicate by its id alone: whoever announces an id
    first, trusted or not, keeps the article of a trusted author out. *)
Lemma squatted_id_blocks_author :
  let mallory := SourceSamples.wire "story" (did Toy.bob) 0 in
  let alice := SourceSamples.wire "story" (did Toy.alice) 1 in
  let buffers := handle_wire BUFFER_CAP_PER_ROOM "news" alice
    (handle_wire BUFFER_CAP_PER_ROOM "news" mallory ∅) in
  unresolved (C := Toy.crypto) (handle_wire BUFFER_CAP_PER_ROOM "news" alice ∅) ["news"] [] "me" [did Toy.alice]
    = [("news", alice)] ∧
  unresolved (C := Toy.crypto) buffers ["news"] [] "me" [did Toy.alice] = [].
Proof. split; vm_compute; reflexivity. Qed.
