(* ===== verification/BotOutbox.v ===== *)
(** * Delivery of the bot pipelines

    [src/src/bot/outbox.rs], [persist.rs] and the run of a pipeline in
    [mod.rs]. A run works on an in-memory queue and on files; it may stop at
    every input or output. Effects are a state monad with failure: each call to
    the disk, to a sink or to the clock takes the next input of the
    environment, which also says whether the process is still alive. *)
From S2P Require Import Prelude Effects Text BotSource.

Definition CAPACITY : Z := 100.
Definition RUN_LOG_CAP : Z := 200.
Definition ITEMS_LOG_CAP : Z := 200.
Definition PROCESSED_IDS_CAP : Z := 5000.
Definition MAX_ITEMS_PER_RUN : nat := 5.

(** ** Data *)

Record AudioOutcome := { au_cid : string; au_mime : string; au_size : Z }.
Record TransformOutcome := {
  t_script : option string; t_title : option string; t_lang : option string; t_audio : option AudioOutcome
}.
Record SinkOutcome := { so_kind : string; so_target : string; so_ok : bool; so_error : option string }.

Record WebhookHeader := { wh_name : string; wh_value : string }.
Inductive SinkConfig :=
| ChatPost (room : string)
| Webhook (url : string) (include_audio : bool) (max_audio_bytes : option Z) (method body_template : option string)
    (sign include_body : bool) (headers : list WebhookHeader)
| ArticlePublish (room : string).

(** The digest of a sink: SHA-256 of the JSON text serde derives, in hex. *)
Class SinkDigest := { sink_digest : SinkConfig → string }.

Record PendingDelivery := {
  source_id : string; article : Article; outcome : TransformOutcome; succeeded : gmap string SinkOutcome; last_attempt : Z
}.
Record DeliveredItem := {
  i_pipeline_id : string; i_item_id : string; i_title : string; i_delivered_at : Z; i_sinks : list SinkOutcome
}.
Record RunRecord := {
  r_pipeline_id : string; r_started_at : Z; r_ended_at : Z; r_ok : bool; r_error : option string;
  r_fetched_count : Z; r_delivered_count : Z
}.

(** ** Effects *)

(** The files of one pipeline. *)
Record Disk := {
  queue_file : list PendingDelivery;      (* [bot-outbox-<digest>.json] *)
  imported : list string;                 (* [bot-imported-<id>.json] *)
  items_file : list DeliveredItem;        (* [bot-items.jsonl] *)
  runs_file : list RunRecord;             (* [bot-runs.jsonl] *)
}.

(** What the world can tell of a run. *)
Inductive Event :=
| Enqueued (id : string) (a : Article) (o : TransformOutcome)
| Delivered (id key : string) (a : Article) (o : TransformOutcome) (ok : bool)
| Completed (id : string) (keys : list string)
| Skipped (id : string).

(** One input: whether the process lives to see the call return, whether the
    call succeeds, what the sink replies ([None]: it timed out), the time. *)
Record Input := { alive : bool; io_ok : bool; reply : option SinkOutcome; time : Z }.

Record World := { disk : Disk; pos : nat; fetched_count : Z; delivered_count : Z; trace : list Event }.

Definition M (A : Type) : Type := prog World string A.

(** The call at the current position took its effect. *)
Definition effect (d : Disk) (es : list Event) (w : World) : World :=
  {| disk := d; pos := S (pos w); fetched_count := fetched_count w; delivered_count := delivered_count w;
     trace := trace w ++ es |}.
Definition count_fetched : M () := λ w,
  ({| disk := disk w; pos := pos w; fetched_count := fetched_count w + 1; delivered_count := delivered_count w;
      trace := trace w |}, Ok ()).
Definition count_delivered : M () := λ w,
  ({| disk := disk w; pos := pos w; fetched_count := fetched_count w; delivered_count := delivered_count w + 1;
      trace := trace w |}, Ok ()).
Definition reset_counts : M () := λ w,
  ({| disk := disk w; pos := pos w; fetched_count := 0; delivered_count := 0; trace := trace w |}, Ok ()).
Definition get_counts : M (Z * Z) := λ w, (w, Ok (fetched_count w, delivered_count w)).
(** An error becomes a value; a panic or the end of the process does not. *)
Definition catch (m : M ()) : M (option string) := λ w,
  match m w with
  | (w, Ok _) => (w, Ok None)
  | (w, Err (Failed e)) => (w, Ok (Some e))
  | (w, Err Panicked) => (w, Err Panicked)
  | (w, Err Crashed) => (w, Err Crashed)
  end.
Definition get_disk : M Disk := λ w, (w, Ok (disk w)).

Definition set_queue (q : list PendingDelivery) (d : Disk) : Disk :=
  {| queue_file := q; imported := imported d; items_file := items_file d; runs_file := runs_file d |}.
Definition set_imported (l : list string) (d : Disk) : Disk :=
  {| queue_file := queue_file d; imported := l; items_file := items_file d; runs_file := runs_file d |}.
Definition set_items (l : list DeliveredItem) (d : Disk) : Disk :=
  {| queue_file := queue_file d; imported := imported d; items_file := l; runs_file := runs_file d |}.
Definition set_runs (l : list RunRecord) (d : Disk) : Disk :=
  {| queue_file := queue_file d; imported := imported d; items_file := items_file d; runs_file := l |}.

(** [queue\[index\]] is updated. *)
Definition set_last_attempt (t : Z) (e : PendingDelivery) : PendingDelivery :=
  {| source_id := source_id e; article := article e; outcome := outcome e; succeeded := succeeded e; last_attempt := t |}.
Definition set_succeeded (k : string) (o : SinkOutcome) (e : PendingDelivery) : PendingDelivery :=
  {| source_id := source_id e; article := article e; outcome := outcome e; succeeded := <[k := o]> (succeeded e);
     last_attempt := last_attempt e |}.

(** The newest [cap] lines. *)
Definition append_capped {A} (cap : Z) (l : list A) (x : A) : list A :=
  let l := l ++ [x] in drop (length l - Z.to_nat cap) l.

(** [mark_processed]: the ids of the file with the new ones. *)
Definition add_ids (ids new : list string) : list string :=
  let ids := foldl (λ ids id, if contains ids id then ids else ids ++ [id]) ids new in
  drop (length ids - Z.to_nat PROCESSED_IDS_CAP) ids.

Section outbox.
Context {D : SinkDigest} (env : nat → Input).

Definition next : M Input := λ w,
  let i := env (pos w) in (effect (disk w) [] w, if alive i then Ok i else Err Crashed).
Definition clock : M Z := let! i := next in ret (time i).

Definition disk_read : M Disk :=
  let! i := next in if io_ok i then get_disk else fail (Failed "reading").

(** An atomic write, with what others see of it; when the process dies in it,
    it may have happened. *)
Definition disk_write (f : Disk → Disk) (es : list Event) : M () := λ w,
  let i := env (pos w) in
  (if io_ok i then effect (f (disk w)) es w else effect (disk w) [] w,
   if alive i then if io_ok i then Ok () else Err (Failed "writing") else Err Crashed).

Definition save (queue : list PendingDelivery) : M () := disk_write (set_queue queue) [].
Definition load : M (list PendingDelivery) := let! d := disk_read in ret (queue_file d).
Definition load_processed : M (list string) := let! d := disk_read in ret (imported d).
Definition append_item (item : DeliveredItem) : M () :=
  disk_write (λ d, set_items (append_capped ITEMS_LOG_CAP (items_file d) item) d) [].
Definition append_run (r : RunRecord) : M () :=
  disk_write (λ d, set_runs (append_capped RUN_LOG_CAP (runs_file d) r) d) [].
Definition mark_processed (new : list string) (es : list Event) : M () :=
  if bool_decide (new = []) then ret () else
  disk_read ;;! disk_write (λ d, set_imported (add_ids (imported d) new) d) es.

(** ** The outbox *)

Definition enqueue (queue : list PendingDelivery) (id : string) (a : Article) (o : TransformOutcome)
    : M (list PendingDelivery) :=
  if existsb (λ e, bool_decide (source_id e = id)) queue then ret queue else
  if CAPACITY <=? zlen queue then fail (Failed "bot delivery queue is full") else
  let queue := queue ++ [{| source_id := id; article := a; outcome := o; succeeded := ∅; last_attempt := 0 |}] in
  disk_write (set_queue queue) [Enqueued id a o] ;;! ret queue.

(** Two equal sinks are told apart by their occurrence. *)
Definition sink_key (occurrences : gmap string Z) (sink : SinkConfig) : string :=
  sink_digest sink +:+ ":" +:+ show (default 0 (occurrences !! sink_digest sink)).
Definition count_sink (occurrences : gmap string Z) (sink : SinkConfig) : gmap string Z :=
  <[sink_digest sink := default 0 (occurrences !! sink_digest sink) + 1]> occurrences.
Fixpoint sink_keys (occurrences : gmap string Z) (sinks : list SinkConfig) : list string :=
  match sinks with
  | [] => []
  | sink :: sinks => sink_key occurrences sink :: sink_keys (count_sink occurrences sink) sinks
  end.

Definition timed_out (sink : SinkConfig) : SinkOutcome :=
  let '(kind, target) :=
    match sink with
    | ChatPost room => ("chat-post", room)
    | ArticlePublish room => ("article-publish", room)
    | Webhook url _ _ _ _ _ _ _ => ("webhook", url)
    end in
  {| so_kind := kind; so_target := trim target; so_ok := false;
     so_error := Some "delivery timed out after 120 seconds; retained for retry" |}.

(** The call of [deliver] under its timeout; it may have taken effect although
    the process dies before it returns. *)
Definition deliver (e : PendingDelivery) (key : string) (sink : SinkConfig) : M SinkOutcome := λ w,
  let i := env (pos w) in
  let o := default (timed_out sink) (reply i) in
  (effect (disk w) [Delivered (source_id e) key (article e) (outcome e) (so_ok o)] w,
   if alive i then Ok o else Err Crashed).

Fixpoint deliver_sinks (queue : list PendingDelivery) (index : nat) (occurrences : gmap string Z)
    (sinks : list SinkConfig) (outcomes : list SinkOutcome) : M (list PendingDelivery * list SinkOutcome) :=
  match sinks with
  | [] => ret (queue, outcomes)
  | sink :: sinks =>
      let key := sink_key occurrences sink in
      let occurrences := count_sink occurrences sink in
      match queue !! index with
      | None => fail Panicked
      | Some e =>
          match succeeded e !! key with
          | Some previous => deliver_sinks queue index occurrences sinks (outcomes ++ [previous])
          | None =>
              let! o := deliver e key sink in
              if so_ok o
              then let queue := alter (set_succeeded key o) index queue in
                   save queue ;;! deliver_sinks queue index occurrences sinks (outcomes ++ [o])
              else deliver_sinks queue index occurrences sinks (outcomes ++ [o])
          end
      end
  end.

Definition attempt (pipeline_id : string) (queue : list PendingDelivery) (index : nat) (sinks : list SinkConfig)
    : M (list PendingDelivery * DeliveredItem) :=
  if bool_decide (sinks = []) then fail (Failed "bot pipeline has no delivery sinks") else
  let! t := clock in
  match queue !! index with
  | None => fail Panicked
  | Some _ =>
      let queue := alter (set_last_attempt t) index queue in
      save queue ;;!
      let! (queue, outcomes) := deliver_sinks queue index ∅ sinks [] in
      match queue !! index with
      | None => fail Panicked
      | Some e =>
          let! t := clock in
          let item := {| i_pipeline_id := pipeline_id; i_item_id := source_id e; i_title := a_title (article e);
                         i_delivered_at := t; i_sinks := outcomes |} in
          if forallb so_ok outcomes
          then mark_processed [source_id e] [Completed (source_id e) (sink_keys ∅ sinks)] ;;!
               let queue := delete index queue in
               save queue ;;! ret (queue, item)
          else ret (queue, item)
      end
  end.

(** ** A run of a pipeline *)

Record Pipeline := { p_id : string; p_sinks : list SinkConfig }.

(** What a run asks of the other parts: whether the transforms resolve, the
    candidates of the source given the processed ids, the transforms. *)
Record Services := {
  check_transforms_resolve : result () string;
  poll : list string → result (list Candidate) string;
  run_chain : Article → result TransformOutcome string;
}.

Definition deliver_queued (p : Pipeline) (queue : list PendingDelivery) (index : nat) : M (list PendingDelivery * bool) :=
  let! (queue, item) := attempt (p_id p) queue index (p_sinks p) in
  let complete := forallb so_ok (i_sinks item) in
  append_item item ;;! ret (queue, complete).

Fixpoint position (id : string) (queue : list PendingDelivery) : option nat :=
  match queue with
  | [] => None
  | e :: queue => if bool_decide (source_id e = id) then Some O else S <$> position id queue
  end.

Fixpoint retry (p : Pipeline) (ids : list string) (queue : list PendingDelivery) (failed : bool)
    : M (list PendingDelivery * bool) :=
  match ids with
  | [] => ret (queue, failed)
  | id :: ids =>
      match position id queue with
      | None => fail Panicked
      | Some index =>
          let! (queue, complete) := deliver_queued p queue index in
          if complete then count_delivered ;;! retry p ids queue failed else retry p ids queue true
      end
  end.

Fixpoint import (p : Pipeline) (s : Services) (candidates : list Candidate) (attempted : nat)
    (queue : list PendingDelivery) (failed : bool) : M (list PendingDelivery * bool) :=
  match candidates with
  | [] => ret (queue, failed)
  | c :: candidates =>
      if (MAX_ITEMS_PER_RUN <=? attempted)%nat || (CAPACITY <=? zlen queue) then ret (queue, failed) else
      if existsb (λ e, bool_decide (source_id e = c_id c)) queue then import p s candidates attempted queue failed else
      match c_article c with
      | Some a =>
          count_fetched ;;!
          let! o := lift (run_chain s a) in
          let! queue := enqueue queue (c_id c) a o in
          let! (queue, complete) := deliver_queued p queue (length queue - 1) in
          if complete then count_delivered ;;! import p s candidates (S attempted) queue failed
          else import p s candidates (S attempted) queue true
      | None =>
          mark_processed [c_id c] [Skipped (c_id c)] ;;! import p s candidates (S attempted) queue failed
      end
  end.

(** [run_pipeline_work] up to its last check. *)
Definition run_items (p : Pipeline) (s : Services) : M (list PendingDelivery * bool) :=
  if bool_decide (p_sinks p = []) then fail (Failed "bot pipeline has no delivery sinks") else
  let! queue := load in
  let! processed := load_processed in
  let queue := List.filter (λ e, negb (contains processed (source_id e))) queue in
  let queue := sort_by_key last_attempt queue in
  save queue ;;!
  let retry_ids := map source_id (take (MAX_ITEMS_PER_RUN - 2) queue) in
  let! (queue, failed) := retry p retry_ids queue false in
  if CAPACITY <=? zlen queue then fail (Failed "bot delivery queue is full") else
  lift (check_transforms_resolve s) ;;!
  let! processed := load_processed in
  let! candidates := lift (poll s processed) in
  import p s candidates (length retry_ids) queue failed.

Definition run_pipeline_work (p : Pipeline) (s : Services) : M () :=
  let! (queue, failed) := run_items p s in
  if failed || negb (bool_decide (queue = [])) then fail (Failed "item(s) pending delivery") else ret ().

(** [run_pipeline]; the record is appended by its callers. *)
Definition run_pipeline (p : Pipeline) (s : Services) : M RunRecord :=
  let! started := clock in
  reset_counts ;;!
  let! error := catch (run_pipeline_work p s) in
  let! ended := clock in
  let! (fetched, delivered) := get_counts in
  ret {| r_pipeline_id := p_id p; r_started_at := started; r_ended_at := ended; r_ok := negb (is_some error);
         r_error := error; r_fetched_count := fetched; r_delivered_count := delivered |}.
Definition run_recorded (p : Pipeline) (s : Services) : M () :=
  let! r := run_pipeline p s in append_run r.
End outbox.
