(* ===== verification/BotDelivery.v ===== *)
(** * What the bots deliver

    The theorems on [BotOutbox]: a logic for computations that may stop at any
    call, the invariant of the files of a pipeline, and the runs in which
    everything works. *)
From S2P Require Import Prelude Effects Text BotSource BotOutbox.

(** ** Reasoning about runs that may stop anywhere *)

Definition Assertion := Disk → list Event → Prop.
Definition holds (P : Assertion) (w : World) : Prop := P (disk w) (trace w).

(** From a world where [P] holds, the computation never panics, [I] holds
    wherever it stops, and [Q] when it returns. *)
Definition triple {A} (P : Assertion) (m : M A) (I : Assertion) (Q : A → Assertion) : Prop :=
  hoare (holds P) m (λ a w, holds I w ∧ holds (Q a) w) (λ _, holds I) (holds I).

Lemma triple_iff {A} P (m : M A) I Q : triple P m I Q ↔
  ∀ w, holds P w → holds I (m w).1 ∧
    match (m w).2 with Ok a => holds (Q a) (m w).1 | Err Panicked => False | Err _ => True end.
Proof.
  split; intros H w Hw; specialize (H w Hw); unfold ends in *; destruct (m w) as [w' [a|[e| |]]]; cbn in *;
    try done; by destruct H.
Qed.

Section rules.
Context {A B : Type}.
Implicit Types (P I R : Assertion).

Lemma triple_bind P I (R : A → Assertion) (Q : B → Assertion) m k :
  triple P m I R → (∀ a, triple (R a) (k a) I Q) → triple P (bind m k) I Q.
Proof.
  intros Hm Hk. eapply hoare_bind; [exact Hm|]. intros a. eapply hoare_pre; [apply Hk|]. by intros w [_ ?].
Qed.

Lemma triple_ret P I (Q : A → Assertion) a : (∀ d tr, P d tr → I d tr ∧ Q a d tr) → triple P (ret a) I Q.
Proof. intros H. apply hoare_ret. intros w Hw. apply H, Hw. Qed.

Lemma triple_fail P I (Q : A → Assertion) e : (∀ d tr, P d tr → I d tr) → triple P (fail (Failed e)) I Q.
Proof. intros H. apply hoare_fail. intros w Hw. by apply H. Qed.

Lemma triple_pre P P' I (Q : A → Assertion) m : triple P' m I Q → (∀ d tr, P d tr → P' d tr) → triple P m I Q.
Proof. intros Hm H. eapply hoare_pre; [exact Hm|]. intros w. apply H. Qed.

Lemma triple_post P I (Q Q' : A → Assertion) m :
  triple P m I Q' → (∀ a d tr, Q' a d tr → Q a d tr) → triple P m I Q.
Proof. intros Hm H. eapply hoare_conseq; [exact Hm|done| |done|done]. intros a w [HI HQ]. split; [done|by apply H]. Qed.

(** A fact that does not depend on the state may be moved out. *)
Lemma triple_pure P I (Q : A → Assertion) m (φ : Prop) : (φ → triple P m I Q) → triple (λ d tr, φ ∧ P d tr) m I Q.
Proof. apply (hoare_pure (holds P)). Qed.
End rules.

Section calls.
Context {D : SinkDigest} (env : nat → Input).
Implicit Types (P I : Assertion).

Lemma triple_next P I : (∀ d tr, P d tr → I d tr) → triple P (next env) I (λ _, P).
Proof.
  intros H. apply triple_iff. intros w Hw. unfold next, holds, effect in *. cbn. rewrite app_nil_r. split; [by apply H|]. by destruct (alive _).
Qed.

Lemma triple_clock P I : (∀ d tr, P d tr → I d tr) → triple P (clock env) I (λ _, P).
Proof.
  intros H. eapply triple_bind; [by apply triple_next|]. intros i. apply triple_ret. auto.
Qed.

Lemma triple_read P I : (∀ d tr, P d tr → I d tr) → triple P (disk_read env) I (λ v d tr, P d tr ∧ v = d).
Proof.
  intros H. eapply triple_bind; [by apply triple_next|]. intros i. destruct (io_ok i).
  - apply triple_iff. intros w Hw. split; [by apply H|]. by split.
  - by apply triple_fail.
Qed.

Lemma triple_write P I (Q : () → Assertion) f es :
  (∀ d tr, P d tr → I d tr) → (∀ d tr, P d tr → I (f d) (tr ++ es) ∧ Q tt (f d) (tr ++ es)) →
  triple P (disk_write env f es) I Q.
Proof.
  intros H Hw. apply triple_iff. intros w Hp. unfold disk_write, holds, effect in *. cbn. destruct (alive _), (io_ok _); cbn; rewrite ?app_nil_r;
    split; try done; try (by apply H); by apply Hw.
Qed.

Lemma triple_mark P I (Q : () → Assertion) ids es : ids ≠ [] →
  (∀ d tr, P d tr → I d tr) →
  (∀ d tr, P d tr → I (set_imported (add_ids (imported d) ids) d) (tr ++ es) ∧
                    Q tt (set_imported (add_ids (imported d) ids) d) (tr ++ es)) →
  triple P (mark_processed env ids es) I Q.
Proof.
  intros Hne H Hw. unfold mark_processed. rewrite bool_decide_false by done.
  eapply triple_bind; [by apply triple_read|]. intros v. apply triple_write; intros d tr [Hp _]; auto.
Qed.
End calls.

(** ** The invariant *)

Definition acked (tr : list Event) (id key : string) : Prop := ∃ a o, Delivered id key a o true ∈ tr.
Definition handled (tr : list Event) (id : string) : Prop := (∃ keys, Completed id keys ∈ tr) ∨ Skipped id ∈ tr.

(** An entry is what was enqueued, and its receipts are acknowledgements. *)
Definition entry_ok (tr : list Event) (e : PendingDelivery) : Prop :=
  Enqueued (source_id e) (article e) (outcome e) ∈ tr ∧
  ∀ k o, succeeded e !! k = Some o → so_ok o = true ∧ acked tr (source_id e) k.

Definition event_ok (tr : list Event) (ev : Event) : Prop :=
  match ev with
  | Delivered id k a o _ => Enqueued id a o ∈ tr
  | Completed id keys => Forall (acked tr id) keys
  | _ => True
  end.

Definition ids (q : list PendingDelivery) : list string := map source_id q.

Record outbox_ok (d : Disk) (tr : list Event) : Prop := {
  ok_nodup : NoDup (ids (queue_file d));
  ok_cap : zlen (queue_file d) ≤ CAPACITY;
  ok_entries : Forall (entry_ok tr) (queue_file d);
  ok_kept : ∀ id a o, Enqueued id a o ∈ tr → id ∈ ids (queue_file d) ∨ handled tr id;
  ok_imported : Forall (handled tr) (imported d);
  ok_events : Forall (event_ok tr) tr;
}.

Lemma acked_mono tr es id k : acked tr id k → acked (tr ++ es) id k.
Proof. intros (a & o & H). exists a, o. apply elem_of_app. by left. Qed.
Lemma handled_mono tr es id : handled tr id → handled (tr ++ es) id.
Proof. intros [[keys H]|H]; [left; exists keys|right]; apply elem_of_app; by left. Qed.
Lemma pending_entry_mono tr es e : entry_ok tr e → entry_ok (tr ++ es) e.
Proof.
  intros [H1 H2]. split; [apply elem_of_app; by left|]. intros k o Hk. destruct (H2 k o Hk). split; [done|by apply acked_mono].
Qed.
Lemma event_ok_mono tr es ev : event_ok tr ev → event_ok (tr ++ es) ev.
Proof.
  destruct ev; cbn; try done.
  - intros H. apply elem_of_app. by left.
  - intros H. eapply Forall_impl; [exact H|]. intros. by apply acked_mono.
Qed.

(** What follows from new events, and from a new queue. *)
Lemma outbox_ok_events d tr es : outbox_ok d tr → Forall (event_ok (tr ++ es)) es →
  (∀ id a o, Enqueued id a o ∉ es) → outbox_ok d (tr ++ es).
Proof.
  intros [H1 H2 H3 H4 H5 H6] Hes Hno. split; try done.
  - eapply Forall_impl; [exact H3|]. intros. by apply pending_entry_mono.
  - intros id a o [H|H]%elem_of_app; [|by apply Hno in H]. destruct (H4 id a o H); [by left|]. right. by apply handled_mono.
  - eapply Forall_impl; [exact H5|]. intros. by apply handled_mono.
  - apply Forall_app. split; [|done]. eapply Forall_impl; [exact H6|]. intros. by apply event_ok_mono.
Qed.

Lemma outbox_ok_queue d tr q : outbox_ok d tr → NoDup (ids q) → zlen q ≤ CAPACITY → Forall (entry_ok tr) q →
  (∀ id, id ∈ ids (queue_file d) → id ∈ ids q ∨ handled tr id) → outbox_ok (set_queue q d) tr.
Proof.
  intros [H1 H2 H3 H4 H5 H6] Hnd Hcap He Hkept. split; try done.
  intros id a o H. destruct (H4 id a o H) as [Hin|]; [by apply Hkept|by right].
Qed.

Lemma outbox_ok_same_ids d tr q : outbox_ok d tr → ids q = ids (queue_file d) → Forall (entry_ok tr) q →
  outbox_ok (set_queue q d) tr.
Proof.
  intros Hok Hids He. apply outbox_ok_queue; try done; [rewrite Hids; apply Hok| |rewrite Hids; by left].
  apply (f_equal length) in Hids. unfold ids in Hids. rewrite !length_map in Hids.
  pose proof (ok_cap _ _ Hok). unfold zlen in *. lia.
Qed.

Lemma ids_alter f q i : (∀ e, source_id (f e) = source_id e) → ids (alter f i q) = ids q.
Proof.
  intros Hf. unfold ids. revert i. induction q as [|e q IH]; intros [|i]; cbn [alter list_alter map]; [done..|by rewrite Hf|].
  f_equal. apply IH.
Qed.

Lemma entry_alter tr f q i : Forall (entry_ok tr) q → (∀ e, q !! i = Some e → entry_ok tr e → entry_ok tr (f e)) →
  Forall (entry_ok tr) (alter f i q).
Proof.
  intros Hq Hf. apply Forall_lookup. intros j e Hj. destruct (decide (i = j)) as [<-|Hne].
  - rewrite list_lookup_alter_eq in Hj. destruct (q !! i) as [e'|] eqn:E; [|done]. injection Hj as <-.
    apply Hf; [done|]. by eapply Forall_lookup_1.
  - rewrite list_lookup_alter_ne in Hj by done. by eapply Forall_lookup_1.
Qed.

Lemma entry_last_attempt tr t e : entry_ok tr e → entry_ok tr (set_last_attempt t e).
Proof. done. Qed.

Lemma add_ids_elem ids new id : id ∈ add_ids ids new → id ∈ ids ∨ id ∈ new.
Proof.
  unfold add_ids. intros H. eapply elem_of_sublist in H; [|apply sublist_drop]. revert ids H.
  induction new as [|x new IH]; intros ids H; cbn [foldl] in H; [by left|].
  apply IH in H as [H|H]; [|right; by apply list_elem_of_further]. destruct (contains ids x); [by left|].
  apply elem_of_app in H as [H| ->%list_elem_of_singleton]; [by left|right; apply list_elem_of_here].
Qed.

Section delivery.
Context {D : SinkDigest} (env : nat → Input).

(** The memory of a run agrees with the file between two statements. *)
Definition synced (q : list PendingDelivery) : Assertion := λ d tr, outbox_ok d tr ∧ queue_file d = q.

Lemma save_triple P (q : list PendingDelivery) :
  (∀ d tr, P d tr → outbox_ok d tr) → (∀ d tr, P d tr → outbox_ok (set_queue q d) tr) →
  triple P (save env q) outbox_ok (λ _, synced q).
Proof. intros H Hw. apply triple_write; [done|]. intros d tr HP. rewrite app_nil_r. split; [by apply Hw|]. split; [by apply Hw|done]. Qed.

Lemma deliver_triple q e key sink : e ∈ q →
  triple (synced q) (deliver env e key sink) outbox_ok (λ o d tr, synced q d tr ∧ (so_ok o = true → acked tr (source_id e) key)).
Proof.
  intros He. apply triple_iff. intros w [Hok Hq]. unfold deliver, holds, effect. cbn. set (o := default _ _).
  assert (Hok' : outbox_ok (disk w) (trace w ++ [Delivered (source_id e) key (article e) (outcome e) (so_ok o)])).
  { apply outbox_ok_events; [done| |by intros ??? ?%list_elem_of_singleton]. constructor; [|done]. cbn.
    apply elem_of_app. left. pose proof (ok_entries _ _ Hok) as Hent. rewrite Forall_forall in Hent. apply Hent.
    by rewrite Hq. }
  split; [done|]. destruct (alive _); [|done]. split; [by split|]. intros Hso. exists (article e), (outcome e).
  apply elem_of_app. right. rewrite Hso. apply list_elem_of_here.
Qed.

(** A receipt that was acknowledged may be filed. *)
Lemma receipt_ok q d tr index id k o : outbox_ok d tr → queue_file d = q → source_id <$> q !! index = Some id →
  so_ok o = true → acked tr id k → outbox_ok (set_queue (alter (set_succeeded k o) index q) d) tr.
Proof.
  intros Hok Hq Hid Ho Ha. apply outbox_ok_same_ids; [done|rewrite Hq; by apply ids_alter|].
  apply entry_alter; [rewrite <-Hq; apply Hok|]. intros e He [H1 H2]. split; [done|]. cbn. intros k' o'.
  rewrite He in Hid. injection Hid as Hid. destruct (decide (k' = k)) as [->|Hne].
  - rewrite lookup_insert_eq. intros [= <-]. by rewrite Hid.
  - rewrite lookup_insert_ne by done. apply H2.
Qed.

Lemma deliver_sinks_triple sinks : ∀ q index occ outcomes id done_keys, ids q !! index = Some id →
  triple (λ d tr, synced q d tr ∧ (forallb so_ok outcomes = true → Forall (acked tr id) done_keys))
    (deliver_sinks env q index occ sinks outcomes) outbox_ok
    (λ r d tr, synced r.1 d tr ∧ ids r.1 = ids q ∧
       (forallb so_ok r.2 = true → Forall (acked tr id) (done_keys ++ sink_keys occ sinks))).
Proof.
  induction sinks as [|sink sinks IH]; intros q index occ outcomes id done_keys Hid; cbn [deliver_sinks].
  { apply triple_ret. intros d tr [Hs Hd]. split; [apply Hs|]. cbn [fst snd sink_keys]. by rewrite app_nil_r. }
  assert (Hassoc : ∀ l, (done_keys ++ [sink_key occ sink]) ++ l = done_keys ++ sink_key occ sink :: l) by (intros l; by rewrite <-app_assoc).
  assert (Hnext : ∀ q' outcomes', ids q' = ids q → triple
    (λ d tr, synced q' d tr ∧ (forallb so_ok outcomes' = true → Forall (acked tr id) (done_keys ++ [sink_key occ sink])))
    (deliver_sinks env q' index (count_sink occ sink) sinks outcomes') outbox_ok
    (λ r d tr, synced r.1 d tr ∧ ids r.1 = ids q ∧
       (forallb so_ok r.2 = true → Forall (acked tr id) (done_keys ++ sink_keys occ (sink :: sinks))))).
  { intros q' outcomes' Hq'. eapply triple_post; [apply (IH q' index _ outcomes' id (done_keys ++ [sink_key occ sink])); by rewrite Hq'|].
    intros r d tr (Hs & Hr & Hk). rewrite Hr, Hq'. split_and!; [done|done|]. cbn [sink_keys]. by rewrite <-Hassoc. }
  unfold ids in Hid. rewrite list_lookup_fmap in Hid. destruct (q !! index) as [e|] eqn:He; [|done]. injection Hid as <-.
  assert (Hin : e ∈ q) by (by eapply list_elem_of_lookup_2).
  destruct (succeeded e !! sink_key occ sink) as [prev|] eqn:Hprev.
  - eapply triple_pre; [by apply Hnext|]. intros d tr [Hs Hd]. split; [done|].
    rewrite forallb_app. intros [Ho Hp]%andb_true_iff. apply Forall_app. split; [by apply Hd|]. constructor; [|done].
    destruct Hs as [Hok Hq]. pose proof (ok_entries _ _ Hok) as Hent. rewrite Forall_forall in Hent. rewrite Hq in Hent.
    by apply (Hent e Hin) in Hprev as [_ ?].
  - eapply triple_bind with (R := λ o d tr, synced q d tr ∧ (so_ok o = true → acked tr (source_id e) (sink_key occ sink))
        ∧ (forallb so_ok outcomes = true → Forall (acked tr (source_id e)) done_keys)).
    { apply triple_iff. intros w [Hs Hd]. destruct (proj1 (triple_iff _ _ _ _) (deliver_triple q e (sink_key occ sink) sink Hin) w Hs) as [HI HQ]. split; [done|].
      unfold deliver in *. cbn in *. destruct (alive _); [|done]. destruct HQ as [Hs' Ha]. split_and!; [done|done|].
      intros Ho. eapply Forall_impl; [by apply Hd|]. intros k Hk. by apply acked_mono. }
    intros o. destruct (so_ok o) eqn:Ho.
    + eapply triple_bind with (R := λ _ d tr, synced (alter (set_succeeded (sink_key occ sink) o) index q) d tr ∧
        acked tr (source_id e) (sink_key occ sink) ∧
        (forallb so_ok outcomes = true → Forall (acked tr (source_id e)) done_keys)).
      { apply triple_write; intros d tr ([Hok Hq] & Ha & Hd); [done|]. rewrite app_nil_r.
        assert (Hok' : outbox_ok (set_queue (alter (set_succeeded (sink_key occ sink) o) index q) d) tr)
          by (apply receipt_ok with (id := source_id e); [done|done|by rewrite He|done|by apply Ha]).
        split; [done|]. split_and!; [by split|by apply Ha|done]. }
      intros _. eapply triple_pre; [apply Hnext; by apply ids_alter|]. intros d tr (Hs & Ha & Hd). split; [done|].
      rewrite forallb_app. intros [Hoc _]%andb_true_iff. apply Forall_app. split; [by apply Hd|by constructor].
    + eapply triple_pre; [by apply Hnext|]. intros d tr (Hs & _ & _). split; [done|].
      rewrite forallb_app. intros [_ Hf]%andb_true_iff. cbn in Hf. by rewrite Ho in Hf.
Qed.

Lemma ids_delete i q : ids (delete i q) = delete i (ids q).
Proof. revert i. induction q as [|e q IH]; intros [|i]; cbn; [done..|]. f_equal. apply IH. Qed.

Lemma outbox_ok_imported d tr l : outbox_ok d tr → Forall (handled tr) l → outbox_ok (set_imported l d) tr.
Proof. intros [H1 H2 H3 H4 H5 H6] Hl. by split. Qed.

(** Marking an id for which the new events are a reason. *)
Lemma mark_triple P (Q : () → Assertion) id es :
  (∀ d tr, P d tr → outbox_ok d tr ∧ Forall (event_ok (tr ++ es)) es ∧ (∀ i a o, Enqueued i a o ∉ es) ∧
     handled (tr ++ es) id ∧
     ∀ l, outbox_ok (set_imported l d) (tr ++ es) → Q tt (set_imported l d) (tr ++ es)) →
  triple P (mark_processed env [id] es) outbox_ok Q.
Proof.
  intros H. apply triple_mark; [done|intros d tr HP; by destruct (H d tr HP)|].
  intros d tr HP. destruct (H d tr HP) as (Hok & Hes & Hno & Hh & HQ).
  assert (Hok' : outbox_ok (set_imported (add_ids (imported d) [id]) d) (tr ++ es)).
  { apply outbox_ok_imported; [by apply outbox_ok_events|]. apply Forall_forall. intros i Hi.
    apply add_ids_elem in Hi as [Hi| ->%list_elem_of_singleton]; [|done]. apply handled_mono.
    pose proof (ok_imported _ _ Hok) as Him. rewrite Forall_forall in Him. by apply Him. }
  split; [done|by apply HQ].
Qed.

Lemma stamp_ok q d tr index t : outbox_ok d tr → queue_file d = q →
  outbox_ok (set_queue (alter (set_last_attempt t) index q) d) tr.
Proof.
  intros Hok Hq. apply outbox_ok_same_ids; [done|rewrite Hq; by apply ids_alter|].
  apply entry_alter; [rewrite <-Hq; apply Hok|]. intros e _. apply entry_last_attempt.
Qed.

Definition after_attempt (q : list PendingDelivery) (index : nat) (id : string) (complete : bool) (q' : list PendingDelivery)
    (tr : list Event) : Prop :=
  if complete then ids q' = delete index (ids q) ∧ handled tr id else ids q' = ids q.

Lemma attempt_triple pipeline q index sinks id : ids q !! index = Some id →
  triple (synced q) (attempt env pipeline q index sinks) outbox_ok
    (λ r d tr, synced r.1 d tr ∧ after_attempt q index id (forallb so_ok (i_sinks r.2)) r.1 tr).
Proof.
  intros Hid. unfold attempt. case_bool_decide; [apply triple_fail; by intros d tr [Hok _]|].
  eapply triple_bind; [apply triple_clock; by intros d tr [Hok _]|]. intros t. cbv beta.
  assert (Hq : is_Some (q !! index)).
  { unfold ids in Hid. rewrite list_lookup_fmap in Hid. destruct (q !! index); [by eexists|done]. }
  destruct Hq as [e0 He0]. rewrite He0. set (q1 := alter _ index q).
  assert (Hq1 : ids q1 = ids q) by (by apply ids_alter).
  eapply triple_bind.
  { apply save_triple; intros d tr [Hok Hq]; [done|]. by apply stamp_ok. }
  intros []. cbv beta. eapply triple_bind.
  { eapply triple_pre; [apply (deliver_sinks_triple sinks q1 index ∅ [] id []); by rewrite Hq1|].
    intros d tr Hs. by split. }
  intros [q2 outs]. cbn [fst snd app].
  apply triple_pre with (P' := λ d tr, ids q2 = ids q ∧ synced q2 d tr ∧
    (forallb so_ok outs = true → Forall (acked tr id) (sink_keys ∅ sinks)));
    [|intros d tr (Hs & Hi & Hk); split_and!; [by rewrite Hi|done|done]].
  apply triple_pure. intros Hq2.
  assert (Hid2 : ids q2 !! index = Some id) by (by rewrite Hq2).
  unfold ids in Hid2. rewrite list_lookup_fmap in Hid2. destruct (q2 !! index) as [e|] eqn:He; [|done]. injection Hid2 as Hid2.
  eapply triple_bind; [apply triple_clock; by intros d tr [[Hok _] _]|]. intros t'. cbv beta zeta.
  destruct (forallb so_ok outs) eqn:Hall.
  - eapply triple_bind.
    { apply mark_triple with (Q := λ _ d tr, synced q2 d tr ∧ handled tr id). intros d tr [[Hok Hsync] Hk].
      assert (Hh : handled (tr ++ [Completed (source_id e) (sink_keys ∅ sinks)]) id).
      { left. exists (sink_keys ∅ sinks). apply elem_of_app. right. rewrite Hid2. apply list_elem_of_here. }
      split_and!; [done| |by intros ??? ?%list_elem_of_singleton|by rewrite Hid2 in Hh |- *|].
      - constructor; [|done]. cbn. rewrite Hid2. eapply Forall_impl; [by apply Hk|]. intros k. apply acked_mono.
      - intros l Hl. by split. }
    intros []. cbv beta. eapply triple_bind.
    { apply triple_write with (Q := λ _ d tr, synced (delete index q2) d tr ∧ handled tr id);
        intros d tr [[Hok Hsync] Hh]; [done|]. rewrite app_nil_r.
      assert (Hok' : outbox_ok (set_queue (delete index q2) d) tr).
      { apply outbox_ok_queue; [done|..].
        - rewrite ids_delete. eapply sublist_NoDup; [|apply sublist_delete]. rewrite <-Hsync. apply Hok.
        - pose proof (ok_cap _ _ Hok) as Hcap. rewrite Hsync in Hcap. unfold zlen in *.
          pose proof (sublist_length _ _ (sublist_delete q2 index)). lia.
        - apply Forall_delete. rewrite <-Hsync. apply Hok.
        - intros i Hi. rewrite Hsync in Hi. destruct (decide (i = id)) as [->|Hne]; [by right|]. left.
          rewrite ids_delete. rewrite (delete_Permutation (ids q2) index id) in Hi; [by apply elem_of_cons in Hi as [?|?]|].
          by rewrite Hq2. }
      split; [done|by split]. }
    intros []. cbv beta. apply triple_ret. intros d tr [Hs Hh]. split; [apply Hs|]. split; [done|]. cbn [fst snd i_sinks].
    unfold after_attempt. rewrite Hall. split; [|done]. by rewrite ids_delete, Hq2.
  - apply triple_ret. intros d tr [Hs _]. split; [apply Hs|]. split; [done|]. cbn [fst snd i_sinks]. unfold after_attempt.
    by rewrite Hall.
Qed.

Lemma deliver_queued_triple p q index id : ids q !! index = Some id →
  triple (synced q) (deliver_queued env p q index) outbox_ok
    (λ r d tr, synced r.1 d tr ∧ after_attempt q index id r.2 r.1 tr).
Proof.
  intros Hid. unfold deliver_queued. eapply triple_bind; [by apply attempt_triple|]. intros [q' item]. cbn [fst snd].
  eapply triple_bind.
  { apply triple_write with (Q := λ _ d tr, synced q' d tr ∧ after_attempt q index id (forallb so_ok (i_sinks item)) q' tr);
      intros d tr [[Hok Hs] Ha]; [done|]. rewrite app_nil_r.
    assert (outbox_ok (set_items (append_capped ITEMS_LOG_CAP (items_file d) item) d) tr) by (destruct Hok; by split).
    by split_and!. }
  intros []. cbv beta. apply triple_ret. intros d tr [Hs Ha]. split; [apply Hs|by split].
Qed.

Lemma position_spec id q : id ∈ ids q → ∃ i, position id q = Some i ∧ ids q !! i = Some id.
Proof.
  unfold ids. induction q as [|e q IH]; cbn [position map]; intros H; [by apply elem_of_nil in H|].
  case_bool_decide as He; [by exists 0%nat; rewrite He|].
  apply elem_of_cons in H as [->|H]; [done|]. destruct (IH H) as (i & -> & Hi). by exists (S i).
Qed.

(** What an attempt leaves of the other ids. *)
Lemma after_attempt_others q index id c q' tr : ids q !! index = Some id → after_attempt q index id c q' tr →
  (∀ i, i ∈ ids q → i ≠ id → i ∈ ids q').
Proof.
  unfold after_attempt. intros Hid Ha i Hi Hne. destruct c; [destruct Ha as [-> _]|by rewrite Ha].
  rewrite (delete_Permutation _ _ _ Hid) in Hi. by apply elem_of_cons in Hi as [?|?].
Qed.

Lemma retry_triple p l : ∀ q failed, NoDup l → Forall (λ i, i ∈ ids q) l →
  triple (synced q) (retry env p l q failed) outbox_ok (λ r, synced r.1).
Proof.
  induction l as [|id l IH]; intros q failed Hnd Hl; cbn [retry]; [apply triple_ret; by intros d tr [Hok Hs]|].
  apply NoDup_cons in Hnd as [Hni Hnd]. apply Forall_cons in Hl as [Hid Hl].
  destruct (position_spec id q Hid) as (index & -> & Hi).
  eapply triple_bind; [by apply deliver_queued_triple|]. intros [q' c]. cbn [fst snd].
  apply triple_pre with (P' := λ d tr, Forall (λ i, i ∈ ids q') l ∧ synced q' d tr).
  - apply triple_pure. intros Hl'. destruct c; [|by apply IH].
    eapply triple_bind with (R := λ _, synced q'); [|intros _; by apply IH]. intros w Hw. split; [apply Hw|done].
  - intros d tr [Hs Ha]. split; [|done]. rewrite Forall_forall in Hl |- *. intros i Hil.
    eapply after_attempt_others; [exact Hi|exact Ha|by apply Hl|]. by intros ->.
Qed.

Lemma enqueue_triple q id a o : id ∉ ids q →
  triple (synced q) (enqueue env q id a o) outbox_ok
    (λ q' d tr, synced q' d tr ∧ ids q' = ids q ++ [id] ∧ length q' = S (length q)).
Proof.
  intros Hni. unfold enqueue.
  assert (existsb (λ e, bool_decide (source_id e = id)) q = false) as ->.
  { apply existsb_elem_false. intros e He. apply bool_decide_eq_false. intros <-. apply Hni. apply list_elem_of_fmap. by exists e. }
  destruct (CAPACITY <=? zlen q) eqn:Hcap; [apply triple_fail; by intros d tr [Hok _]|]. cbv zeta.
  set (e := {| source_id := id; article := a; outcome := o; succeeded := ∅; last_attempt := 0 |}).
  assert (Hids : ids (q ++ [e]) = ids q ++ [id]) by apply map_app.
  eapply triple_bind.
  { apply triple_write with (Q := λ _, synced (q ++ [e])); intros d tr [Hok Hq]; [done|].
    assert (Hin : Enqueued id a o ∈ tr ++ [Enqueued id a o]) by (apply elem_of_app; right; apply list_elem_of_here).
    assert (Hok' : outbox_ok (set_queue (q ++ [e]) d) (tr ++ [Enqueued id a o])).
    { destruct Hok as [H1 H2 H3 H4 H5 H6]. rewrite Hq in *. split; cbn [set_queue queue_file imported].
      - rewrite Hids. apply NoDup_app. split_and!; [done| |apply NoDup_singleton]. by intros i Hi ->%list_elem_of_singleton.
      - unfold zlen, CAPACITY in *. rewrite length_app. cbn [length]. lia.
      - apply Forall_app. split; [eapply Forall_impl; [exact H3|]; intros; by apply pending_entry_mono|].
        constructor; [|done]. split; [exact Hin|]. intros k x Hk. cbn in Hk. by apply lookup_empty_Some in Hk.
      - intros i a' o' [Hi|Hi]%elem_of_app.
        + destruct (H4 i a' o' Hi) as [Hi'|Hi']; [left; rewrite Hids; apply elem_of_app; by left|right; by apply handled_mono].
        + apply list_elem_of_singleton in Hi. injection Hi as -> _ _. left. rewrite Hids. apply elem_of_app. right. apply list_elem_of_here.
      - eapply Forall_impl; [exact H5|]. intros. by apply handled_mono.
      - apply Forall_app. split; [|by repeat constructor]. eapply Forall_impl; [exact H6|]. intros. by apply event_ok_mono. }
    split; [done|by split]. }
  intros []. cbv beta. apply triple_ret. intros d tr Hs. split; [apply Hs|]. split_and!; [done|done|].
  rewrite length_app. cbn. lia.
Qed.

Lemma count_triple (m : M ()) P : (∀ w, disk (m w).1 = disk w ∧ trace (m w).1 = trace w ∧ (m w).2 = Ok ()) →
  (∀ d tr, P d tr → outbox_ok d tr) → triple P m outbox_ok (λ _, P).
Proof.
  intros Hm HP. apply triple_iff. intros w Hw. destruct (Hm w) as (Hd & Ht & ->). unfold holds in *. rewrite Hd, Ht. split; [by apply HP|done].
Qed.

Lemma lift_triple {A} (r : result A string) P : (∀ d tr, P d tr → outbox_ok d tr) → triple P (lift r) outbox_ok (λ _, P).
Proof. intros HP. destruct r; [apply triple_ret; auto|by apply triple_fail]. Qed.

Lemma synced_ok q d tr : synced q d tr → outbox_ok d tr.
Proof. by intros [? _]. Qed.
Hint Resolve synced_ok : core.

Lemma import_triple p s cs : ∀ attempted q failed,
  triple (synced q) (import env p s cs attempted q failed) outbox_ok (λ r, synced r.1).
Proof.
  induction cs as [|c cs IH]; intros attempted q failed; cbn [import]; [apply triple_ret; by intros d tr [Hok Hs]|].
  destruct (_ || _); [apply triple_ret; by intros d tr [Hok Hs]|].
  destruct (existsb _ q) eqn:Hex; [apply IH|].
  assert (Hni : c_id c ∉ ids q).
  { rewrite existsb_elem_false in Hex. intros (e & He & Hin)%list_elem_of_fmap. specialize (Hex e Hin).
    by apply bool_decide_eq_false in Hex. }
  destruct (c_article c) as [a|].
  - eapply triple_bind; [by apply count_triple; eauto|]. intros []. cbv beta.
    eapply triple_bind; [apply lift_triple; eauto|]. intros o. cbv beta.
    eapply triple_bind; [by apply enqueue_triple|]. intros q1. cbv beta.
    apply triple_pre with (P' := λ d tr, ids q1 !! (length q1 - 1)%nat = Some (c_id c) ∧ synced q1 d tr).
    + apply triple_pure. intros Hl. eapply triple_bind; [by apply deliver_queued_triple|]. intros [q2 complete]. cbn [fst snd].
      apply triple_pre with (P' := synced q2); [|by intros d tr [? _]].
      destruct complete; [|apply IH]. eapply triple_bind; [by apply count_triple; eauto|]. intros []. apply IH.
    + intros d tr (Hs & Hids & Hlen). split; [|done]. rewrite Hids, lookup_app_r by (unfold ids; rewrite length_map; lia).
      unfold ids. rewrite length_map. by replace (length q1 - 1 - length q)%nat with 0%nat by lia.
  - eapply triple_bind.
    { apply mark_triple with (Q := λ _, synced q). intros d tr [Hok Hs]. split_and!; [done|by repeat constructor| | |].
      - by intros ??? ?%list_elem_of_singleton.
      - right. apply elem_of_app. right. apply list_elem_of_here.
      - intros l Hl. by split. }
    intros []. apply IH.
Qed.

(** The queue a run starts from. *)
Definition start_queue (d : Disk) : list PendingDelivery :=
  sort_by_key last_attempt (List.filter (λ e, negb (contains (imported d) (source_id e))) (queue_file d)).

Lemma start_queue_sub d : ∀ e, e ∈ start_queue d → e ∈ queue_file d.
Proof. intros e He. unfold start_queue in He. rewrite sort_by_key_perm in He. by apply elem_of_List_filter in He as [? _]. Qed.

Lemma start_queue_ok d tr : outbox_ok d tr → outbox_ok (set_queue (start_queue d) d) tr.
Proof.
  intros Hok. apply outbox_ok_queue; [done|..].
  - unfold start_queue, ids. rewrite sort_by_key_perm. apply NoDup_map_filter. apply Hok.
  - assert (Hl : zlen (start_queue d) ≤ zlen (queue_file d)).
    { unfold start_queue, zlen. rewrite sort_by_key_perm. apply filter_zlen. }
    pose proof (ok_cap _ _ Hok). lia.
  - apply Forall_forall. intros e He. pose proof (ok_entries _ _ Hok) as Hent. rewrite Forall_forall in Hent.
    by apply Hent, start_queue_sub.
  - intros id (e & -> & He)%list_elem_of_fmap. unfold start_queue, ids. rewrite sort_by_key_perm.
    destruct (contains (imported d) (source_id e)) eqn:Hc.
    + right. apply bool_decide_eq_true in Hc. pose proof (ok_imported _ _ Hok) as Him. rewrite Forall_forall in Him. by apply Him.
    + left. apply list_elem_of_fmap. exists e. split; [done|]. apply elem_of_List_filter. by rewrite Hc.
Qed.

Lemma run_items_triple p s : triple outbox_ok (run_items env p s) outbox_ok (λ r, synced r.1).
Proof.
  unfold run_items. case_bool_decide; [by apply triple_fail|].
  eapply triple_bind with (R := λ q d tr, outbox_ok d tr ∧ q = queue_file d).
  { eapply triple_bind; [by apply triple_read|]. intros v. apply triple_ret. by intros d tr [Hok ->]. }
  intros q. eapply triple_bind with (R := λ l d tr, outbox_ok d tr ∧ q = queue_file d ∧ l = imported d).
  { eapply triple_bind; [apply triple_read; by intros d tr [Hok _]|]. intros v. apply triple_ret. by intros d tr [[Hok ?] ->]. }
  intros l. cbv zeta. set (q1 := sort_by_key last_attempt _).
  eapply triple_bind with (R := λ _ d tr, NoDup (ids q1) ∧ synced q1 d tr).
  { apply triple_write; intros d tr (Hok & Hq & Hl); [done|]. rewrite app_nil_r.
    assert (Hq1 : q1 = start_queue d) by (unfold q1, start_queue; by rewrite Hq, Hl).
    pose proof (start_queue_ok d tr Hok) as Hok'. rewrite <-Hq1 in Hok'. split; [done|]. split; [apply Hok'|by split]. }
  intros []. apply triple_pure. intros Hnd. eapply triple_bind.
  { apply retry_triple.
    - eapply sublist_NoDup; [exact Hnd|]. unfold ids. apply (fmap_sublist source_id), sublist_take.
    - apply Forall_forall. intros i (e & -> & He)%list_elem_of_fmap. apply list_elem_of_fmap. exists e. split; [done|].
      by eapply elem_of_sublist, sublist_take. }
  intros [q2 failed]. cbn [fst]. destruct (CAPACITY <=? zlen q2); [apply triple_fail; eauto|].
  eapply triple_bind; [apply lift_triple; eauto|]. intros []. cbv beta.
  eapply triple_bind with (R := λ _, synced q2).
  { eapply triple_bind; [apply triple_read; eauto|]. intros v. apply triple_ret. by intros d tr [[Hok ?] ->]. }
  intros l'. eapply triple_bind; [apply lift_triple; eauto|]. intros cs. apply import_triple.
Qed.

Lemma run_work_triple p s : triple outbox_ok (run_pipeline_work env p s) outbox_ok (λ _, outbox_ok).
Proof.
  eapply triple_bind; [apply run_items_triple|]. intros [q failed]. cbn [fst].
  destruct (_ || _); [apply triple_fail; eauto|]. apply triple_ret. eauto.
Qed.
End delivery.

(** ** Runs in which everything works *)

(** The process lives, the disk works and every sink accepts. *)
Definition healthy (env : nat → Input) : Prop :=
  ∀ n, alive (env n) = true ∧ io_ok (env n) = true ∧ ∃ o, reply (env n) = Some o ∧ so_ok o = true.

(** The computation returns, and then [Q] holds. *)
Definition returns {A} (P : Assertion) (m : M A) (Q : A → Assertion) : Prop :=
  ∀ w, holds P w → ∃ a w', m w = (w', Ok a) ∧ holds (Q a) w'.

Section healthy.
Context {D : SinkDigest} (env : nat → Input) (Henv : healthy env).

Lemma returns_bind {A B} P (R : A → Assertion) (Q : B → Assertion) m k :
  returns P m R → (∀ a, returns (R a) (k a) Q) → returns P (bind m k) Q.
Proof. intros Hm Hk w Hw. destruct (Hm w Hw) as (a & w' & E & HR). unfold bind. rewrite E. by apply Hk. Qed.

Lemma returns_ret {A} P (Q : A → Assertion) a : (∀ d tr, P d tr → Q a d tr) → returns P (ret a) Q.
Proof. intros H w Hw. exists a, w. split; [done|]. by apply H. Qed.

Lemma returns_pure {A} P (Q : A → Assertion) m (φ : Prop) : (φ → returns P m Q) → returns (λ d tr, φ ∧ P d tr) m Q.
Proof. intros H w [Hφ Hw]. by apply H. Qed.

Lemma returns_pre {A} P P' (Q : A → Assertion) m : returns P' m Q → (∀ d tr, P d tr → P' d tr) → returns P m Q.
Proof. intros Hm H w Hw. apply Hm, H, Hw. Qed.

(** What a computation guarantees wherever it stops also holds when it returns. *)
Lemma returns_and {A} P I (Q Q' : A → Assertion) m :
  triple P m I Q → returns P m Q' → returns P m (λ a d tr, Q a d tr ∧ Q' a d tr).
Proof.
  intros Ht Hr w Hw. destruct (Hr w Hw) as (a & w' & E & HQ'). exists a, w'. split; [done|].
  destruct (proj1 (triple_iff _ _ _ _) Ht w Hw) as [_ HQ]. rewrite E in HQ. by split.
Qed.

Lemma returns_next P : returns P (next env) (λ i d tr, (∃ n, i = env n) ∧ P d tr).
Proof.
  intros w Hw. unfold next. destruct (Henv (pos w)) as (Ha & _ & _). rewrite Ha. eexists _, _. split; [done|].
  unfold holds in *. cbn. rewrite app_nil_r. split; [by eexists|done].
Qed.

Lemma returns_clock P : returns P (clock env) (λ _, P).
Proof. eapply returns_bind; [apply returns_next|]. intros i. apply returns_ret. by intros d tr [_ ?]. Qed.

Lemma returns_read P : returns P (disk_read env) (λ v d tr, P d tr ∧ v = d).
Proof.
  eapply returns_bind; [apply returns_next|]. intros i. apply returns_pure. intros [n ->].
  destruct (Henv n) as (_ & Hio & _). rewrite Hio. intros w Hw. by eexists _, _.
Qed.

Lemma returns_write P f es (Q : () → Assertion) : (∀ d tr, P d tr → Q tt (f d) (tr ++ es)) → returns P (disk_write env f es) Q.
Proof.
  intros H w Hw. unfold disk_write. destruct (Henv (pos w)) as (Ha & Hio & _). rewrite Ha, Hio. eexists _, _. split; [done|].
  by apply H.
Qed.

Lemma sinks_accept sinks : ∀ q index occ outcomes, is_Some (q !! index) → forallb so_ok outcomes = true →
  returns (synced q) (deliver_sinks env q index occ sinks outcomes) (λ r _ _, forallb so_ok r.2 = true).
Proof.
  induction sinks as [|sink sinks IH]; intros q index occ outcomes [e He] Ho; cbn [deliver_sinks]; [by apply returns_ret|].
  rewrite He. assert (Hin : e ∈ q) by (by eapply list_elem_of_lookup_2).
  destruct (succeeded e !! sink_key occ sink) as [prev|] eqn:Hprev.
  - apply returns_pre with (P' := λ d tr, so_ok prev = true ∧ synced q d tr).
    + apply returns_pure. intros Hp. apply IH; [by eexists|]. rewrite forallb_app, Ho. cbn. by rewrite Hp.
    + intros d tr [Hok Hq]. split; [|done]. pose proof (ok_entries _ _ Hok) as Hent. rewrite Forall_forall in Hent.
      rewrite Hq in Hent. by apply (Hent e Hin) in Hprev as [? _].
  - eapply returns_bind with (R := λ o d tr, so_ok o = true ∧ synced q d tr ∧ acked tr (source_id e) (sink_key occ sink)).
    { intros w Hw. destruct (proj1 (triple_iff _ _ _ _) (deliver_triple env q e (sink_key occ sink) sink Hin) w Hw) as [_ HQ]. unfold deliver in *. cbn in *.
      destruct (Henv (pos w)) as (Ha & _ & o & Hr & Hso). rewrite Ha, Hr in *. cbn in *.
      eexists _, _. split; [done|]. destruct HQ as [Hs Hack]. split; [done|]. split; [done|by apply Hack]. }
    intros o. apply returns_pure. intros Hso. rewrite Hso.
    eapply returns_bind with (R := λ _, synced (alter (set_succeeded (sink_key occ sink) o) index q)).
    { apply returns_write. intros d tr [[Hok Hq] Hack]. rewrite app_nil_r. split; [|done].
      apply receipt_ok with (id := source_id e); try done. by rewrite He. }
    intros []. apply IH; [rewrite list_lookup_alter_eq, He; by eexists|]. rewrite forallb_app, Ho. cbn. by rewrite Hso.
Qed.

Lemma ids_lookup q index id : ids q !! index = Some id → is_Some (q !! index).
Proof. unfold ids. rewrite list_lookup_fmap. destruct (q !! index); [by eexists|done]. Qed.

Lemma attempt_accepts pipeline q index sinks id : ids q !! index = Some id → sinks ≠ [] →
  returns (synced q) (attempt env pipeline q index sinks) (λ r _ _, forallb so_ok (i_sinks r.2) = true).
Proof.
  intros Hid Hne. unfold attempt. rewrite bool_decide_false by done.
  eapply returns_bind; [apply returns_clock|]. intros t. cbv beta.
  destruct (ids_lookup _ _ _ Hid) as [e0 He0]. rewrite He0. cbv zeta. set (q1 := alter _ index q).
  assert (Hq1 : ids q1 !! index = Some id) by (unfold q1; by rewrite ids_alter).
  eapply returns_bind with (R := λ _, synced q1).
  { apply returns_write. intros d tr [Hok Hq]. rewrite app_nil_r. split; [by apply stamp_ok|done]. }
  intros []. eapply returns_bind.
  { eapply returns_and; [|apply sinks_accept; [by eapply ids_lookup|done]].
    eapply triple_pre; [by apply (deliver_sinks_triple env sinks q1 index ∅ [] id [])|]. intros d tr Hs. by split. }
  intros [q2 outs]. cbn [fst snd].
  apply returns_pre with (P' := λ d tr, (ids q2 = ids q1 ∧ forallb so_ok outs = true) ∧ True); [|by intros d tr [(_ & ? & _) ?]].
  apply returns_pure. intros [Hq2 Ho]. rewrite <-Hq2 in Hq1. destruct (ids_lookup _ _ _ Hq1) as [e He]. rewrite He.
  eapply returns_bind; [apply returns_clock|]. intros t'. cbv beta zeta. rewrite Ho.
  eapply returns_bind with (R := λ _ _ _, True).
  { unfold mark_processed. rewrite bool_decide_false by done. eapply returns_bind; [apply returns_read|]. intros v.
    by apply returns_write. }
  intros []. eapply returns_bind with (R := λ _ _ _, True); [by apply returns_write|]. intros []. by apply returns_ret.
Qed.

(** An attempt delivers the entry and removes it. *)
Lemma delivers p q index id : ids q !! index = Some id → p_sinks p ≠ [] →
  returns (synced q) (deliver_queued env p q index)
    (λ r d tr, synced r.1 d tr ∧ r.2 = true ∧ ids r.1 = delete index (ids q)).
Proof.
  intros Hid Hne.
  assert (Hr : returns (synced q) (deliver_queued env p q index) (λ r _ _, r.2 = true)).
  { unfold deliver_queued. eapply returns_bind; [by eapply attempt_accepts|]. intros [q' item]. cbn [fst snd].
    eapply returns_bind with (R := λ _ _ _, forallb so_ok (i_sinks item) = true).
    { apply returns_write. intros d tr H. exact H. }
    intros []. by apply returns_ret. }
  intros w Hw. destruct (returns_and _ _ _ _ _ (deliver_queued_triple env p q index id Hid) Hr w Hw) as (r & w' & E & (Hs & Ha) & Hc).
  exists r, w'. split; [done|]. split; [done|]. split; [done|]. cbn beta in Ha. rewrite Hc in Ha. apply Ha.
Qed.

Lemma length_ids q : length (ids q) = length q.
Proof. apply length_map. Qed.

(** The first [n] entries are delivered and removed. *)
Lemma retries_deliver p n : ∀ q failed, NoDup (ids q) → p_sinks p ≠ [] →
  returns (synced q) (retry env p (take n (ids q)) q failed)
    (λ r d tr, synced r.1 d tr ∧ r.2 = failed ∧ ids r.1 = drop n (ids q)).
Proof.
  induction n as [|n IH]; intros q failed Hnd Hne.
  { cbn [take retry]. apply returns_ret. by intros d tr Hs. }
  destruct q as [|e q]; [cbn [ids map take retry]; by apply returns_ret|]. change (ids (e :: q)) with (source_id e :: ids q) in *.
  cbn [take retry drop position]. rewrite bool_decide_true by done. apply NoDup_cons in Hnd as [_ Hnd].
  eapply returns_bind; [by apply (delivers p (e :: q) 0 (source_id e))|]. intros [q' c]. cbn [fst snd].
  apply returns_pre with (P' := λ d tr, (c = true ∧ ids q' = ids q) ∧ synced q' d tr); [|by intros d tr (? & ? & ?)].
  apply returns_pure. intros [-> Hids].
  eapply returns_bind with (R := λ _, synced q'); [intros w Hw; by eexists _, _|].
  intros []. rewrite <-Hids. apply IH; [by rewrite Hids|done].
Qed.

(** The services of a run work as well. *)
Definition services_work (s : Services) : Prop :=
  is_ok (check_transforms_resolve s) = true ∧ (∀ l, is_ok (poll s l) = true) ∧ (∀ a, is_ok (run_chain s a) = true).

Lemma enqueues q id a o : id ∉ ids q → zlen q < CAPACITY → returns (synced q) (enqueue env q id a o) (λ _ _ _, True).
Proof.
  intros Hni Hcap. unfold enqueue.
  assert (existsb (λ e, bool_decide (source_id e = id)) q = false) as ->.
  { apply existsb_elem_false. intros e He. apply bool_decide_eq_false. intros <-. apply Hni. apply list_elem_of_fmap. by exists e. }
  rewrite (proj2 (Z.leb_gt _ _)) by done. eapply returns_bind with (R := λ _ _ _, True); [by apply returns_write|].
  intros []. by apply returns_ret.
Qed.

Lemma imports_deliver p s cs : ∀ attempted q failed, p_sinks p ≠ [] → services_work s →
  returns (synced q) (import env p s cs attempted q failed)
    (λ r d tr, synced r.1 d tr ∧ r.2 = failed ∧ ids r.1 = ids q).
Proof.
  induction cs as [|c cs IH]; intros attempted q failed Hne Hs; cbn [import]; [by apply returns_ret|].
  destruct (_ <=? attempted)%nat; [by apply returns_ret|]. destruct (CAPACITY <=? zlen q) eqn:Hcap; [by apply returns_ret|].
  cbn [orb]. destruct (existsb _ q) eqn:Hex; [by apply IH|].
  assert (Hni : c_id c ∉ ids q).
  { rewrite existsb_elem_false in Hex. intros (e & He & Hin)%list_elem_of_fmap. specialize (Hex e Hin).
    by apply bool_decide_eq_false in Hex. }
  destruct (c_article c) as [a|].
  - eapply returns_bind with (R := λ _, synced q); [intros w Hw; by eexists _, _|]. intros [].
    destruct Hs as (Hc & Hp & Hr). pose proof (Hr a) as Ha. destruct (run_chain s a) as [o|]; [|done]. cbn [lift].
    eapply returns_bind with (R := λ _, synced q); [by apply returns_ret|]. intros o'.
    eapply returns_bind; [eapply returns_and; [by apply enqueue_triple|apply enqueues; [done|lia]]|]. intros q1. cbv beta.
    apply returns_pre with (P' := λ d tr, (ids q1 = ids q ++ [c_id c] ∧ length q1 = S (length q)) ∧ synced q1 d tr);
      [|by intros d tr ((? & ? & ?) & _)].
    apply returns_pure. intros [Hids Hlen].
    assert (Hl : ids q1 !! (length q1 - 1)%nat = Some (c_id c)).
    { rewrite Hids, lookup_app_r by (rewrite length_ids; lia). rewrite length_ids.
      by replace (length q1 - 1 - length q)%nat with 0%nat by lia. }
    eapply returns_bind; [by apply (delivers p q1 _ (c_id c))|]. intros [q2 complete]. cbn [fst snd].
    apply returns_pre with (P' := λ d tr, (complete = true ∧ ids q2 = delete (length q1 - 1)%nat (ids q1)) ∧ synced q2 d tr);
      [|by intros d tr (? & ? & ?)].
    apply returns_pure. intros [-> Hq2].
    assert (Hq : ids q2 = ids q).
    { rewrite Hq2, Hids. replace (length q1 - 1)%nat with (length (ids q)) by (rewrite length_ids; lia).
      by rewrite delete_middle, app_nil_r. }
    eapply returns_bind with (R := λ _, synced q2); [intros w Hw; by eexists _, _|]. intros []. rewrite <-Hq. by apply IH.
  - eapply returns_bind with (R := λ _, synced q).
    { unfold mark_processed. rewrite bool_decide_false by done. eapply returns_bind; [apply returns_read|]. intros v.
      apply returns_write. intros d tr [[Hok Hq] _]. split; [|done].
      apply outbox_ok_imported; [apply outbox_ok_events; [done|by repeat constructor|by intros ??? ?%list_elem_of_singleton]|].
      apply Forall_forall. intros i Hi. apply add_ids_elem in Hi as [Hi| ->%list_elem_of_singleton].
      - apply handled_mono. pose proof (ok_imported _ _ Hok) as Him. rewrite Forall_forall in Him. by apply Him.
      - right. apply elem_of_app. right. apply list_elem_of_here. }
    intros []. by apply IH.
Qed.

(** A run delivers the three entries attempted longest ago, and every new one it
    takes on. *)
Lemma run_items_deliver p s q0 : p_sinks p ≠ [] → services_work s →
  returns (λ d tr, outbox_ok d tr ∧ start_queue d = q0) (run_items env p s)
    (λ r d tr, synced r.1 d tr ∧ r.2 = false ∧ ids r.1 = drop 3 (ids q0)).
Proof.
  intros Hne Hs. unfold run_items. rewrite bool_decide_false by done.
  eapply returns_bind with (R := λ q d tr, (outbox_ok d tr ∧ start_queue d = q0) ∧ q = queue_file d).
  { eapply returns_bind; [apply returns_read|]. intros v. apply returns_ret. by intros d tr [Hok ->]. }
  intros q. eapply returns_bind with (R := λ l d tr, outbox_ok d tr ∧ start_queue d = q0 ∧ q = queue_file d ∧ l = imported d).
  { eapply returns_bind; [apply returns_read|]. intros v. apply returns_ret. by intros d tr [((? & ?) & ?) ->]. }
  intros l. cbv zeta. set (q1 := sort_by_key last_attempt _).
  eapply returns_bind with (R := λ _ d tr, (NoDup (ids q1) ∧ q1 = q0 ∧ zlen q1 ≤ CAPACITY) ∧ synced q1 d tr).
  { apply returns_write; intros d tr (Hok & Hq0 & Hq & Hl). rewrite app_nil_r.
    assert (Hq1 : q1 = start_queue d) by (unfold q1, start_queue; by rewrite Hq, Hl).
    pose proof (start_queue_ok d tr Hok) as Hok'. rewrite <-Hq1 in Hok'.
    split; [|by split]. split_and!; [apply Hok'|by rewrite Hq1|apply Hok']. }
  intros []. apply returns_pure. intros (Hnd & Hq0 & Hcap). eapply returns_bind.
  { assert (Ht : map source_id (take (MAX_ITEMS_PER_RUN - 2) q1) = take (MAX_ITEMS_PER_RUN - 2) (ids q1)) by (symmetry; apply firstn_map).
    rewrite Ht. by apply (retries_deliver p (MAX_ITEMS_PER_RUN - 2) q1 false). }
  intros [q2 failed]. cbn [fst snd].
  apply returns_pre with (P' := λ d tr, (failed = false ∧ ids q2 = drop 3 (ids q1)) ∧ synced q2 d tr); [|by intros d tr (? & ? & ?)].
  apply returns_pure. intros [-> Hids2]. rewrite Hq0 in *.
  assert (Hlen : (length q2 = length q0 - 3)%nat) by (apply (f_equal length) in Hids2; by rewrite length_drop, !length_ids in Hids2).
  rewrite (proj2 (Z.leb_gt _ _)) by (unfold zlen, CAPACITY in *; lia).
  pose proof Hs as (Hc & Hp & _). destruct (check_transforms_resolve s) as [[]|]; [|done]. cbn [lift].
  eapply returns_bind with (R := λ _, synced q2); [by apply returns_ret|]. intros [].
  eapply returns_bind with (R := λ _, synced q2).
  { eapply returns_bind; [apply returns_read|]. intros v. apply returns_ret. by intros d tr [? _]. }
  intros l'. pose proof (Hp l') as Hl'. destruct (poll s l') as [cs|]; [|done]. cbn [lift].
  eapply returns_bind with (R := λ _, synced q2); [by apply returns_ret|]. intros cs'.
  intros w Hw. destruct (imports_deliver p s cs' (length (map source_id (take (MAX_ITEMS_PER_RUN - 2) q0))) q2 false Hne Hs w Hw)
    as (r & w' & E & Hsy & Hf & Hids).
  exists r, w'. split; [done|]. split_and!; [done|done|]. by rewrite Hids.
Qed.
End healthy.

(** ** What a run tells the world *)

Definition emits {A} (φ : Event → Prop) (m : M A) : Prop :=
  ∀ w, ∃ es, trace (m w).1 = trace w ++ es ∧ Forall φ es.

Section emits.
Context {D : SinkDigest} (env : nat → Input) (φ : Event → Prop).

Lemma emits_none {A} (m : M A) : (∀ w, trace (m w).1 = trace w) → emits φ m.
Proof. intros H w. exists []. by rewrite H, app_nil_r. Qed.
Lemma emits_ret {A} (a : A) : emits φ (ret a).
Proof. by apply emits_none. Qed.
Lemma emits_fail {A} e : emits φ (fail (A := A) e).
Proof. by apply emits_none. Qed.
Lemma emits_lift {A} (r : result A string) : emits φ (lift r).
Proof. destruct r; [apply emits_ret|apply emits_fail]. Qed.
Lemma emits_bind {A B} (m : M A) (k : A → M B) : emits φ m → (∀ a, emits φ (k a)) → emits φ (bind m k).
Proof.
  intros Hm Hk w. unfold bind. destruct (Hm w) as (es & He & Hf). destruct (m w) as [w' [a|e]]; cbn [fst] in *.
  - destruct (Hk a w') as (es' & He' & Hf'). exists (es ++ es'). rewrite He', He, app_assoc. split; [done|by apply Forall_app].
  - by exists es.
Qed.
Lemma emits_next : emits φ (next env).
Proof. apply emits_none. intros w. unfold next. cbn. apply app_nil_r. Qed.
Lemma emits_clock : emits φ (clock env).
Proof. apply emits_bind; [apply emits_next|]. intros i. apply emits_ret. Qed.
Lemma emits_read : emits φ (disk_read env).
Proof. apply emits_bind; [apply emits_next|]. intros i. destruct (io_ok i); [by apply emits_none|apply emits_fail]. Qed.
Lemma emits_write f es : Forall φ es → emits φ (disk_write env f es).
Proof.
  intros Hes w. unfold disk_write. cbn. destruct (io_ok _); cbn; [by exists es|]. by exists [].
Qed.
Lemma emits_mark l es : Forall φ es → emits φ (mark_processed env l es).
Proof.
  intros Hes. unfold mark_processed. case_bool_decide; [apply emits_ret|]. apply emits_bind; [apply emits_read|].
  intros _. by apply emits_write.
Qed.
Lemma emits_deliver e k sink : (∀ ok, φ (Delivered (source_id e) k (article e) (outcome e) ok)) → emits φ (deliver env e k sink).
Proof. intros H w. unfold deliver. cbn. eexists. split; [done|]. by constructor. Qed.

(** Every event of a run but its completions may be ruled out by kind. *)
Lemma emits_sinks sinks : ∀ q index occ outcomes,
  (∀ e k, q !! index = Some e → succeeded e !! k = None → ∀ a o ok, φ (Delivered (source_id e) k a o ok)) →
  emits φ (deliver_sinks env q index occ sinks outcomes).
Proof.
  induction sinks as [|sink sinks IH]; intros q index occ outcomes Hφ; cbn [deliver_sinks]; [apply emits_ret|].
  destruct (q !! index) as [e|] eqn:He; [|apply emits_fail].
  destruct (succeeded e !! sink_key occ sink) eqn:Hs; [apply IH; by rewrite He|].
  apply emits_bind; [apply emits_deliver; intros ok; by apply Hφ|]. intros o. destruct (so_ok o); [|apply IH; by rewrite He].
  apply emits_bind; [by apply emits_write|]. intros _. apply IH. intros e' k He' Hk.
  rewrite list_lookup_alter_eq, He in He'. injection He' as <-. cbn in *. intros. apply (Hφ e k eq_refl).
  destruct (decide (k = sink_key occ sink)) as [->|Hne]; [by rewrite lookup_insert_eq in Hk|by rewrite lookup_insert_ne in Hk].
Qed.

Lemma emits_attempt pipeline q index sinks :
  (∀ e k, q !! index = Some e → succeeded e !! k = None → ∀ a o ok, φ (Delivered (source_id e) k a o ok)) →
  (∀ id, φ (Completed id (sink_keys ∅ sinks))) → emits φ (attempt env pipeline q index sinks).
Proof.
  intros Hφ Hc. unfold attempt. case_bool_decide; [apply emits_fail|]. apply emits_bind; [apply emits_clock|]. intros t.
  destruct (q !! index) as [e|] eqn:He; [|apply emits_fail]. apply emits_bind; [by apply emits_write|]. intros _.
  apply emits_bind.
  { apply emits_sinks. intros e' k He' Hk. rewrite list_lookup_alter_eq, He in He'. injection He' as <-. by apply (Hφ e k eq_refl). }
  intros [q2 outs]. destruct (q2 !! index); [|apply emits_fail]. apply emits_bind; [apply emits_clock|]. intros t'.
  destruct (forallb _ _); [|apply emits_ret]. apply emits_bind; [apply emits_mark; by constructor|]. intros _.
  apply emits_bind; [by apply emits_write|]. intros _. apply emits_ret.
Qed.
End emits.

Section emits_run.
Context {D : SinkDigest} (env : nat → Input) (φ : Event → Prop) (p : Pipeline) (s : Services).
Hypothesis Hcompleted : ∀ id, φ (Completed id (sink_keys ∅ (p_sinks p))).
Hypothesis Hrest : ∀ ev, match ev with Completed _ _ => True | _ => φ ev end.

Lemma emits_deliver_queued q index : emits φ (deliver_queued env p q index).
Proof.
  apply emits_bind; [apply emits_attempt; [intros; apply (Hrest (Delivered _ _ _ _ _))|done]|].
  intros [q' item]. apply emits_bind; [by apply emits_write|]. intros _. apply emits_ret.
Qed.

Lemma emits_retry l : ∀ q failed, emits φ (retry env p l q failed).
Proof.
  induction l as [|id l IH]; intros q failed; cbn [retry]; [apply emits_ret|]. destruct (position id q); [|apply emits_fail].
  apply emits_bind; [apply emits_deliver_queued|]. intros [q' c]. destruct c; [|apply IH].
  apply emits_bind; [by apply emits_none|]. intros _. apply IH.
Qed.

Lemma emits_enqueue q id a o : emits φ (enqueue env q id a o).
Proof.
  unfold enqueue. destruct (existsb _ q); [apply emits_ret|]. destruct (_ <=? _); [apply emits_fail|].
  apply emits_bind; [|intros _; apply emits_ret]. apply emits_write. constructor; [apply (Hrest (Enqueued _ _ _))|done].
Qed.

Lemma emits_import cs : ∀ attempted q failed, emits φ (import env p s cs attempted q failed).
Proof.
  induction cs as [|c cs IH]; intros attempted q failed; cbn [import]; [apply emits_ret|].
  destruct (_ || _); [apply emits_ret|]. destruct (existsb _ q); [apply IH|]. destruct (c_article c).
  - apply emits_bind; [by apply emits_none|]. intros _. apply emits_bind; [apply emits_lift|]. intros o.
    apply emits_bind; [apply emits_enqueue|]. intros q1. apply emits_bind; [apply emits_deliver_queued|]. intros [q2 complete].
    destruct complete; [|apply IH]. apply emits_bind; [by apply emits_none|]. intros _. apply IH.
  - apply emits_bind; [apply emits_mark; constructor; [apply (Hrest (Skipped _))|done]|]. intros _. apply IH.
Qed.

Lemma emits_run_work : emits φ (run_pipeline_work env p s).
Proof.
  apply emits_bind.
  - unfold run_items. case_bool_decide; [apply emits_fail|].
    apply emits_bind; [apply emits_bind; [apply emits_read|intros; apply emits_ret]|]. intros q.
    apply emits_bind; [apply emits_bind; [apply emits_read|intros; apply emits_ret]|]. intros l.
    apply emits_bind; [by apply emits_write|]. intros _. apply emits_bind; [apply emits_retry|]. intros [q2 failed].
    destruct (_ <=? _); [apply emits_fail|]. apply emits_bind; [apply emits_lift|]. intros _.
    apply emits_bind; [apply emits_bind; [apply emits_read|intros; apply emits_ret]|]. intros l'.
    apply emits_bind; [apply emits_lift|]. intros cs. apply emits_import.
  - intros [q failed]. destruct (_ || _); [apply emits_fail|apply emits_ret].
Qed.
End emits_run.

(** ** Histories *)

Record Run := { run_env : nat → Input; run_p : Pipeline; run_s : Services }.

Definition fresh : World :=
  {| disk := {| queue_file := []; imported := []; items_file := []; runs_file := [] |}; pos := 0; fetched_count := 0;
     delivered_count := 0; trace := [] |}.

Section histories.
Context {D : SinkDigest}.

Definition one_run (w : World) (r : Run) : World := (run_recorded (run_env r) (run_p r) (run_s r) w).1.
Definition history (l : list Run) : World := foldl one_run fresh l.

Lemma triple_catch m : triple outbox_ok m outbox_ok (λ _, outbox_ok) →
  triple outbox_ok (catch m) outbox_ok (λ _, outbox_ok).
Proof. intros Hm. apply triple_iff. intros w Hw. destruct (proj1 (triple_iff _ _ _ _) Hm w Hw) as [HI HQ]. unfold catch. by destruct (m w) as [w' [u|[e| |]]]. Qed.

Lemma run_pipeline_triple env p s : triple outbox_ok (run_pipeline env p s) outbox_ok (λ _, outbox_ok).
Proof.
  eapply triple_bind; [by apply triple_clock|]. intros t.
  eapply triple_bind; [by apply count_triple|]. intros [].
  eapply triple_bind; [apply triple_catch, run_work_triple|]. intros e.
  eapply triple_bind; [by apply triple_clock|]. intros t'. intros w Hw. done.
Qed.

Lemma run_recorded_triple env p s w : outbox_ok (disk w) (trace w) →
  outbox_ok (disk (run_recorded env p s w).1) (trace (run_recorded env p s w).1) ∧
  match (run_recorded env p s w).2 with
  | Ok _ => outbox_ok (disk (run_recorded env p s w).1) (trace (run_recorded env p s w).1)
  | Err Panicked => False
  | Err _ => True
  end.
Proof.
  revert w. refine (proj1 (triple_iff outbox_ok (run_recorded env p s) outbox_ok (λ _, outbox_ok)) _).
  eapply triple_bind; [apply run_pipeline_triple|]. intros r. apply triple_write; [done|].
  intros d tr Hok. rewrite app_nil_r.
  assert (outbox_ok (set_runs (append_capped RUN_LOG_CAP (runs_file d) r) d) tr) by (destruct Hok; by split). done.
Qed.

Lemma emits_recorded env p s φ : (∀ id, φ (Completed id (sink_keys ∅ (p_sinks p)))) →
  (∀ ev, match ev with Completed _ _ => True | _ => φ ev end) → emits φ (run_recorded env p s).
Proof.
  intros Hc Hr. apply emits_bind; [|intros r; by apply emits_write].
  apply emits_bind; [apply emits_clock|]. intros t. apply emits_bind; [by apply emits_none|]. intros _.
  apply emits_bind; [|intros e; apply emits_bind; [apply emits_clock|]; intros t'; by apply emits_none].
  intros w. destruct (emits_run_work env φ p s Hc Hr w) as (es & He & Hf). exists es. split; [|done].
  unfold catch. destruct (run_pipeline_work _ _ _ _) as [w' [u|[m| |]]]; exact He.
Qed.

Lemma history_ok l : outbox_ok (disk (history l)) (trace (history l)) ∧
  ∀ id keys, Completed id keys ∈ trace (history l) → ∃ r, r ∈ l ∧ keys = sink_keys ∅ (p_sinks (run_p r)).
Proof.
  unfold history. induction l as [|r l IH] using rev_ind.
  - split; [|by intros ?? ?%elem_of_nil]. split; cbn; [constructor|done|constructor|by intros ??? ?%elem_of_nil|constructor|constructor].
  - rewrite foldl_app. cbn [foldl]. destruct IH as [Hok Hkeys]. set (w := foldl one_run fresh l) in *. unfold one_run.
    split; [exact (proj1 (run_recorded_triple _ _ _ w Hok))|]. intros id keys Hin.
    destruct (emits_recorded (run_env r) (run_p r) (run_s r)
      (λ ev, match ev with Completed _ keys => keys = sink_keys ∅ (p_sinks (run_p r)) | _ => True end)
      (λ _, eq_refl) ltac:(by intros []) w) as (es & Htr & Hes).
    rewrite Htr in Hin. apply elem_of_app in Hin as [Hin|Hin].
    + destruct (Hkeys id keys Hin) as (r' & Hr' & ->). exists r'. split; [apply elem_of_app; by left|done].
    + rewrite Forall_forall in Hes. apply Hes in Hin. exists r. split; [apply elem_of_app; right; apply list_elem_of_here|done].
Qed.

(** Healthy runs shorten the queue. *)
Lemma run_drains env p s w : healthy env → p_sinks p ≠ [] → services_work s → outbox_ok (disk w) (trace w) →
  ∃ rec w', run_pipeline env p s w = (w', Ok rec) ∧ outbox_ok (disk w') (trace w') ∧
    ids (queue_file (disk w')) = drop 3 (ids (start_queue (disk w))) ∧
    (r_ok rec = true ↔ queue_file (disk w') = []).
Proof.
  intros Henv Hne Hs Hok.
  assert (Hwork : returns (λ d tr, outbox_ok d tr ∧ start_queue d = start_queue (disk w)) (catch (run_pipeline_work env p s))
    (λ e d tr, outbox_ok d tr ∧ ids (queue_file d) = drop 3 (ids (start_queue (disk w))) ∧ (e = None ↔ queue_file d = []))).
  { intros v Hv. destruct (run_items_deliver env Henv p s (start_queue (disk w)) Hne Hs v Hv)
      as ([q failed] & w' & E & [Hok' Hq] & Hf & Hids). cbn [fst snd] in *. subst failed.
    unfold catch, run_pipeline_work, bind. rewrite E. cbn [orb]. rewrite <-Hq in *.
    case_bool_decide as Hempty; cbn; eexists _, w'; (split; [reflexivity|]); by split_and!. }
  assert (Hrun : returns (λ d tr, outbox_ok d tr ∧ start_queue d = start_queue (disk w)) (run_pipeline env p s)
    (λ rec d tr, outbox_ok d tr ∧ ids (queue_file d) = drop 3 (ids (start_queue (disk w)))
       ∧ (r_ok rec = true ↔ queue_file d = []))).
  { eapply returns_bind; [by apply returns_clock|]. intros t.
    eapply returns_bind with (R := λ _ d tr, outbox_ok d tr ∧ start_queue d = start_queue (disk w));
      [intros v Hv; by eexists _, _|]. intros [].
    eapply returns_bind; [exact Hwork|]. intros e. eapply returns_bind; [by apply returns_clock|]. intros t'.
    intros v (H1 & H2 & H3). eexists _, v. split; [reflexivity|]. split; [done|]. split; [done|]. cbn.
    destruct e; cbn; [|by rewrite <-H3]. split; [done|]. by intros ?%H3. }
  destruct (Hrun w) as (rec & w' & E & H1 & H2 & H3); [by split|]. by exists rec, w'.
Qed.

(** What a run was to deliver is handled. *)
Lemma drained_handled env p s w rec w' : outbox_ok (disk w) (trace w) →
  run_pipeline env p s w = (w', Ok rec) → outbox_ok (disk w') (trace w') →
  ids (queue_file (disk w')) = drop 3 (ids (start_queue (disk w))) →
  ∀ e, e ∈ take 3 (start_queue (disk w)) → handled (trace w') (source_id e).
Proof.
  intros Hok Hrun Hok' Hids e He.
  assert (Hgrow : ∃ es, trace w' = trace w ++ es).
  { assert (Hem : emits (λ _, True) (run_pipeline env p s)).
    { apply emits_bind; [apply emits_clock|]. intros t. apply emits_bind; [by apply emits_none|]. intros _.
      apply emits_bind; [|intros x; apply emits_bind; [apply emits_clock|]; intros t'; by apply emits_none].
      intros v. destruct (emits_run_work env (λ _, True) p s (λ _, I) ltac:(by intros []) v) as (es & Hes & Hf).
      exists es. split; [|done]. unfold catch. destruct (run_pipeline_work _ _ _ _) as [v' [u|[m| |]]]; exact Hes. }
    destruct (Hem w) as (es & Hes & _). rewrite Hrun in Hes. eauto. }
  destruct Hgrow as [es Hes].
  assert (Hin : e ∈ queue_file (disk w)) by (eapply start_queue_sub, elem_of_sublist, sublist_take; exact He).
  pose proof (ok_entries _ _ Hok) as Hent. rewrite Forall_forall in Hent. destruct (Hent e Hin) as [Henq _].
  destruct (ok_kept _ _ Hok' (source_id e) (article e) (outcome e)) as [Hq|]; [rewrite Hes; apply elem_of_app; by left| |done].
  exfalso. rewrite Hids in Hq.
  assert (Hnd : NoDup (ids (start_queue (disk w)))) by apply (start_queue_ok _ _ Hok).
  rewrite <-(take_drop 3 (ids (start_queue (disk w)))) in Hnd. apply NoDup_app in Hnd as (_ & Hdis & _).
  apply (Hdis (source_id e)); [|done]. unfold ids. rewrite firstn_map. apply list_elem_of_fmap. by exists e.
Qed.

Lemma start_queue_length d : (length (start_queue d) ≤ length (queue_file d))%nat.
Proof.
  unfold start_queue. rewrite sort_by_key_perm.
  pose proof (filter_zlen (λ e, negb (contains (imported d) (source_id e))) (queue_file d)). unfold zlen in *. lia.
Qed.

Lemma recorded_drains env p s w : healthy env → p_sinks p ≠ [] → services_work s → outbox_ok (disk w) (trace w) →
  let w' := (run_recorded env p s w).1 in
  outbox_ok (disk w') (trace w') ∧ (length (queue_file (disk w')) ≤ length (queue_file (disk w)) - 3)%nat.
Proof.
  intros Henv Hne Hs Hok. destruct (run_drains env p s w Henv Hne Hs Hok) as (rec & w1 & E & Hok1 & Hids & _). cbv zeta.
  assert (Hlen : length (queue_file (disk w1)) = (length (start_queue (disk w)) - 3)%nat).
  { apply (f_equal length) in Hids. by rewrite length_drop, !length_ids in Hids. }
  split; [by apply run_recorded_triple|]. unfold run_recorded, bind. rewrite E. unfold append_run, disk_write.
  pose proof (start_queue_length (disk w)). destruct (io_ok _); cbn; lia.
Qed.
End histories.

(** C21. Delivery survives any stop. Whatever runs there were, with whatever
    pipelines, and wherever each of them failed or the process died, no run
    panics, and: an imported item is in the queue on disk until it is completed
    or skipped; it is completed only when every sink of the pipeline then
    configured has acknowledged it; a receipt on disk is an acknowledgement;
    what is delivered is, unchanged, what was enqueued; the queue holds at most
    a hundred items, an item once. Delivery is at least once: an attempt never
    calls a sink whose receipt the entry holds, but a sink that acknowledged and
    whose receipt was not written before the run stopped is called again
    ([death_repeats_delivery]). *)
Theorem outbox_safe {D : SinkDigest} :
  (∀ l, let w := history l in
     (∀ id a o, Enqueued id a o ∈ trace w → id ∈ ids (queue_file (disk w)) ∨ handled (trace w) id) ∧
     (∀ id keys, Completed id keys ∈ trace w →
        Forall (acked (trace w) id) keys ∧ ∃ r, r ∈ l ∧ keys = sink_keys ∅ (p_sinks (run_p r))) ∧
     (∀ e k so, e ∈ queue_file (disk w) → succeeded e !! k = Some so → acked (trace w) (source_id e) k) ∧
     (∀ id k a o ok, Delivered id k a o ok ∈ trace w → Enqueued id a o ∈ trace w) ∧
     NoDup (ids (queue_file (disk w))) ∧ zlen (queue_file (disk w)) ≤ CAPACITY ∧
     ∀ env p s, (run_recorded env p s w).2 ≠ Err Panicked) ∧
  (∀ env pipeline q index sinks e k so w, q !! index = Some e → succeeded e !! k = Some so →
     ∃ es, trace (attempt env pipeline q index sinks w).1 = trace w ++ es ∧
       ∀ a o ok, Delivered (source_id e) k a o ok ∉ es).
Proof.
  split.
  - intros l w. destruct (history_ok l) as [[H1 H2 H3 H4 H5 H6] Hkeys]. fold w in H1, H2, H3, H4, H5, H6, Hkeys.
    rewrite Forall_forall in H3. rewrite Forall_forall in H6.
    split; [done|]. split; [intros id keys Hin; split; [apply (H6 _ Hin)|by eapply Hkeys]|].
    split; [intros e k so He Hk; by apply (H3 e He) in Hk as [_ ?]|]. split; [intros id k a o ok Hin; apply (H6 _ Hin)|].
    split; [done|]. split; [done|]. intros env p s Hp.
    destruct (run_recorded_triple env p s w (proj1 (history_ok l))) as [_ HQ]. rewrite Hp in HQ. exact HQ.
  - intros env pipeline q index sinks e k so w He Hk.
    destruct (emits_attempt env (λ ev, ∀ a o ok, ev ≠ Delivered (source_id e) k a o ok) pipeline q index sinks) with (w := w)
      as (es & Htr & Hes); [|done|].
    + intros e' k' He' Hk' a o ok a' o' ok' [= Heq -> -> -> ->]. rewrite He in He'. injection He' as <-. by rewrite Hk in Hk'.
    + exists es. split; [done|]. intros a o ok Hin. rewrite Forall_forall in Hes. by apply (Hes _ Hin a o ok).
Qed.

(** C29. A pipeline recovers. As long as the disk, the sinks and the services
    of a pipeline work, each run delivers the three pending items whose last
    attempt was longest ago (all when there are fewer), keeps the others in their
    order, and leaves no new item pending: of the new ones it takes on as many as
    make five attempts in all, and delivers them. So a backlog of [n] items, whatever left it behind, is gone after
    [n / 3] runs rounded up, every item of it handled; and a run reports success
    exactly when it leaves nothing pending. *)
Theorem backlog_drains {D : SinkDigest} :
  (∀ env p s w, healthy env → p_sinks p ≠ [] → services_work s → outbox_ok (disk w) (trace w) →
     ∃ rec w', run_pipeline env p s w = (w', Ok rec) ∧
       ids (queue_file (disk w')) = drop 3 (ids (start_queue (disk w))) ∧
       (∀ e, e ∈ take 3 (start_queue (disk w)) → handled (trace w') (source_id e)) ∧
       (∀ e e', e ∈ take 3 (start_queue (disk w)) → e' ∈ drop 3 (start_queue (disk w)) → last_attempt e ≤ last_attempt e') ∧
       (r_ok rec = true ↔ queue_file (disk w') = [])) ∧
  (∀ l runs, Forall (λ r, healthy (run_env r) ∧ p_sinks (run_p r) ≠ [] ∧ services_work (run_s r)) runs →
     (length (queue_file (disk (history l))) ≤ 3 * length runs)%nat →
     let w := history (l ++ runs) in
     queue_file (disk w) = [] ∧ ∀ id a o, Enqueued id a o ∈ trace w → handled (trace w) id).
Proof.
  split.
  - intros env p s w Henv Hne Hs Hok. destruct (run_drains env p s w Henv Hne Hs Hok) as (rec & w' & E & Hok' & Hids & Hr).
    exists rec, w'. split_and!; [done|done|by eapply drained_handled| |done]. intros e e'. apply sort_by_key_take.
  - intros l runs Hruns Hlen. cbv zeta.
    assert (Hempty : queue_file (disk (history (l ++ runs))) = []).
    { unfold history in *. rewrite foldl_app. pose proof (proj1 (history_ok l)) as Hok. unfold history in Hok.
      revert Hok Hlen. generalize (foldl one_run fresh l) as w. induction Hruns as [|r runs (Henv & Hne & Hs) Hruns IH]; intros w Hok Hlen.
      - cbn in *. apply nil_length_inv. lia.
      - cbn [foldl]. destruct (recorded_drains (run_env r) (run_p r) (run_s r) w Henv Hne Hs Hok) as [Hok' Hlen'].
        apply IH; [exact Hok'|]. unfold one_run. cbn [length] in Hlen. lia. }
    split; [done|]. intros id a o Hin. destruct (ok_kept _ _ (proj1 (history_ok (l ++ runs))) id a o Hin) as [Hq|]; [|done].
    rewrite Hempty in Hq. by apply elem_of_nil in Hq.
Qed.

(** ** Concrete runs *)

Module OutboxSamples.
#[export] Instance toy_digest : SinkDigest :=
  {| sink_digest s := match s with ChatPost r => "chat/" +:+ r | ArticlePublish r => "news/" +:+ r
                              | Webhook url _ _ _ _ _ _ _ => "hook/" +:+ url end |}.

Definition reply_of (ok : bool) : SinkOutcome := {| so_kind := "chat-post"; so_target := "room"; so_ok := ok; so_error := None |}.
Definition input (ok : bool) : Input := {| alive := true; io_ok := true; reply := Some (reply_of ok); time := 5 |}.
Definition good : nat → Input := λ _, input true.
(** The process dies at input [n]. *)
Definition dies_at (n : nat) : nat → Input :=
  λ i, if (i <? n)%nat then input true else {| alive := false; io_ok := false; reply := None; time := 5 |}.
(** The second call to a sink is refused. *)
Definition refuses_at (n : nat) : nat → Input := λ i, input (negb (i =? n)%nat).

Definition story : Article :=
  {| a_id := "a"; a_title := "title"; a_excerpt := ""; a_body := "body"; a_source_links := []; a_author_name := "me"; a_created_at := 1 |}.
Definition p : Pipeline := {| p_id := "news"; p_sinks := [ChatPost "a"; ChatPost "b"] |}.
Definition services (cs : list Candidate) : Services :=
  {| check_transforms_resolve := Ok ();
     poll l := Ok (List.filter (λ c, negb (contains l (c_id c))) cs);
     run_chain _ := Ok {| t_script := None; t_title := None; t_lang := None; t_audio := None |} |}.
Definition one : Services := services [{| c_id := "x"; c_article := Some story |}].

Definition refused : Run := {| run_env := refuses_at 10; run_p := p; run_s := one |}.
Definition recovered : Run := {| run_env := good; run_p := p; run_s := one |}.
(** The process dies when the first sink has acknowledged. *)
Definition killed : Run := {| run_env := dies_at 9; run_p := p; run_s := one |}.

Definition deliveries (w : World) : list (string * bool) :=
  omap (λ e, match e with Delivered _ k _ _ ok => Some (k, ok) | _ => None end) (trace w).
End OutboxSamples.

(** A refused sink is called again, the other one is not. *)
Example retry_skips_acknowledged :
  OutboxSamples.deliveries (history (D := OutboxSamples.toy_digest) [OutboxSamples.refused; OutboxSamples.recovered])
    = [("chat/a:0", true); ("chat/b:0", false); ("chat/b:0", true)].
Proof. vm_compute. reflexivity. Qed.

(** A sink may be called twice when the process dies before its receipt is
    written. *)
Example death_repeats_delivery :
  OutboxSamples.deliveries (history (D := OutboxSamples.toy_digest) [OutboxSamples.killed; OutboxSamples.recovered])
    = [("chat/a:0", true); ("chat/a:0", true); ("chat/b:0", true)].
Proof. vm_compute. reflexivity. Qed.

Lemma outbox_safe_witness :
  let w := history (D := OutboxSamples.toy_digest) [OutboxSamples.refused] in
  "x" ∈ ids (queue_file (disk w)) ∧ acked (trace w) "x" "chat/a:0".
Proof.
  pose proof (outbox_safe (D := OutboxSamples.toy_digest)) as [H _].
  destruct (H [OutboxSamples.refused]) as (Hkept & _ & Hack & _). split.
  - vm_compute. apply list_elem_of_here.
  - set (w := history _) in *. destruct (queue_file (disk w)) as [|e q] eqn:E; [by vm_compute in E|].
    assert (He : source_id e = "x" ∧ is_Some (succeeded e !! "chat/a:0")).
    { vm_compute in E. injection E as <- _. split; [reflexivity|by eexists]. }
    destruct He as [<- [so Hso]]. apply (Hack e "chat/a:0" so); [apply list_elem_of_here|exact Hso].
Defined.

Lemma backlog_drains_witness :
  queue_file (disk (history (D := OutboxSamples.toy_digest) [OutboxSamples.refused; OutboxSamples.recovered])) = [].
Proof.
  pose proof (backlog_drains (D := OutboxSamples.toy_digest)) as [_ H].
  apply (H [OutboxSamples.refused] [OutboxSamples.recovered]).
  - constructor; [|constructor]. split; [|split; [discriminate|]].
    + intros n. split; [reflexivity|]. split; [reflexivity|]. by eexists.
    + by split_and!.
  - vm_compute. repeat constructor.
Defined.
