(* ===== verification/StorageDomain.v ===== *)
(** * Shared folders: records, envelopes and keys

    [src/src/storage/domain.rs], [crypto.rs] and the wire and key primitives of
    [folder_share.rs] and [folder_owner.rs]: the records of a shared folder, the
    encrypted payloads they travel in, the signed envelopes of the protocol, the
    hash that names a folder key and the grant that hands the key to one
    requester. What is published is read back, what is signed verifies, and the
    holder of the ephemeral key of a request, nobody's key but that, opens the
    grant. *)
From S2P Require Import Prelude Text Json Wire DmWire IdentityPairing.

(** ** Records *)

Record VersionStamp := { vs_updated_at : string; vs_node_id : string }.

(** [sort_order] is the bit pattern of a double. *)
Record FolderRecord := {
  fd_id : string; fd_name : string; fd_parent_id : option string; fd_sort_order : option Z; fd_color : string;
  fd_encrypted : bool; fd_share_enabled : bool; fd_shared_room_id : string; fd_last_cid : option string;
  fd_last_saved_at : option string; fd_last_shared_at : option string; fd_deleted_at : option string;
  fd_created_at : string; fd_updated_at : string; fd_field_versions : option (gmap string VersionStamp);
}.

Record FileRecord := {
  fl_id : string; fl_folder_id : string; fl_sort_order : option Z; fl_name : string; fl_mime_type : string;
  fl_size : Z; fl_data_url : option string; fl_checksum : string; fl_version : Z; fl_starred : bool;
  fl_last_cid : option string; fl_last_share_cid : option string; fl_deleted_at : option string;
  fl_created_at : string; fl_updated_at : string; fl_field_versions : option (gmap string VersionStamp);
}.

Record FileBundle := {
  xb_version : Z; xb_exported_at : string; xb_origin_node : string; xb_folder : FolderRecord; xb_file : FileRecord;
}.

Record FolderBundle := {
  bu_version : Z; bu_exported_at : string; bu_origin_node : string; bu_folder : FolderRecord;
  bu_folders : option (list FolderRecord); bu_files : list FileRecord;
}.

Record EncryptedPayload := {
  ep_version : Z; ep_algorithm : string; ep_kdf : string; ep_iterations : Z; ep_salt : string; ep_iv : string;
  ep_cipher_text : string;
}.

Record ShareProfile := { pf_name : string }.

Record ShareEnvelope := {
  en_type : string; en_from : string; en_room_id : string; en_sent_at : string; en_clock : Z;
  en_change_type : option string; en_folder_signature : option string; en_folder_id : option string;
  en_folder_name : option string; en_folder : option FolderRecord; en_file_id : option string;
  en_file_name : option string; en_file : option FileRecord; en_cid : option string; en_owner_node_id : option string;
  en_access_grant_mode : option string; en_folder_key_hash : option string; en_target_node_id : option string;
  en_request_id : option string; en_sender_profile : option ShareProfile; en_access_public_key : option string;
  en_access_grant_public_key : option string; en_access_grant_iv : option string;
  en_access_grant_cipher_text : option string; en_access_grant_proof : option string; en_signature : option string;
}.

(** [ShareEnvelope::default()] with the fields every producer fills in. *)
Definition envelope (type from room sent_at : string) (clock : Z) : ShareEnvelope := {|
  en_type := type; en_from := from; en_room_id := room; en_sent_at := sent_at; en_clock := clock;
  en_change_type := None; en_folder_signature := None; en_folder_id := None; en_folder_name := None; en_folder := None;
  en_file_id := None; en_file_name := None; en_file := None; en_cid := None; en_owner_node_id := None;
  en_access_grant_mode := None; en_folder_key_hash := None; en_target_node_id := None; en_request_id := None;
  en_sender_profile := None; en_access_public_key := None; en_access_grant_public_key := None;
  en_access_grant_iv := None; en_access_grant_cipher_text := None; en_access_grant_proof := None; en_signature := None;
|}.

(** An [Option<String>] that is [Some] and not empty. *)
Definition non_empty (o : option string) : option string :=
  match o with Some s => if bool_decide (s = "") then None else Some s | None => None end.

Definition folder_deleted (f : FolderRecord) : bool := is_some (non_empty (fd_deleted_at f)).
Definition file_deleted (f : FileRecord) : bool := is_some (non_empty (fl_deleted_at f)).

(** The CID a file is fetched from. *)
Definition content_cid (f : FileRecord) : option string :=
  match non_empty (fl_last_share_cid f) with
  | Some c => Some c
  | None => non_empty (fl_last_cid f)
  end.

(** ** Third-party operations

    Padded base64, PBKDF2, AES-256-GCM and P-256: a secret is its scalar, a
    public key its SEC1 bytes. *)
Class Sealing := {
  b64_encode : string → string;
  b64_decode : string → option string;
  pbkdf2 : string → string → Z → string;
  gcm_encrypt : string → string → string → string;
  gcm_decrypt : string → string → string → option string;
  p256_public : string → string;
  p256_valid : string → bool;
  p256_shared : string → string → string;
}.

Class SealingLaws (S : Sealing) := {
  b64_roundtrip s : b64_decode (b64_encode s) = Some s;
  gcm_roundtrip k iv m : gcm_decrypt k iv (gcm_encrypt k iv m) = Some m;
  gcm_tagged k iv m : gcm_encrypt k iv m ≠ "";
  p256_agree a b : p256_shared a (p256_public b) = p256_shared b (p256_public a);
  p256_public_valid a : p256_valid (p256_public a) = true;
}.

(** The text serde derives for a type. *)
Class Serde (A : Type) := { ser : A → string; de : string → option A }.

(** A value of [A] that is written is read back. *)
Definition reads_back {A} `{Serde A} (a : A) : Prop := de (ser a) = Some a.

(** The values serde derives for the records inside an envelope. *)
Class ShareValues := { folder_value : FolderRecord → json; file_value : FileRecord → json }.

(** An error and its context, the outermost first. *)
Definition Error := list string.
Definition context {A} (c : string) (r : result A Error) : result A Error := map_err (cons c) r.

(** [str::trim_end_matches(c)] *)
Fixpoint trim_end_char (p : ascii → bool) (s : string) : string :=
  match s with
  | "" => ""
  | String c s =>
      let rest := trim_end_char p s in
      if bool_decide (rest = "") && p c then "" else String c rest
  end.

Definition is_eq (c : ascii) : bool := bool_decide (c = "="%char).

(** ** Encrypted payloads *)
Definition ITERATIONS : Z := 210000.
Definition MIN_ITERATIONS : Z := 100000.
Definition MAX_ITERATIONS : Z := 1000000.
Definition SALT_LEN : Z := 16.
Definition IV_LEN : Z := 12.

Section crypto.
Context `{S : Sealing}.

Definition validate_payload (p : EncryptedPayload) : result () Error :=
  if negb (ep_version p =? 1) || negb (bool_decide (ep_algorithm p = "AES-GCM"))
     || negb (bool_decide (ep_kdf p = "PBKDF2-SHA256"))
  then Err ["unsupported encryption format"] else
  if (ep_iterations p <? MIN_ITERATIONS) || (MAX_ITERATIONS <? ep_iterations p)
  then Err ["invalid encryption iterations"] else
  let? salt := ok_or (b64_decode (ep_salt p)) ["invalid salt encoding"] in
  if negb (slen salt =? SALT_LEN) then Err ["invalid salt"] else
  let? iv := ok_or (b64_decode (ep_iv p)) ["invalid iv encoding"] in
  if negb (slen iv =? IV_LEN) then Err ["invalid iv"] else
  let? cipher_text := ok_or (b64_decode (ep_cipher_text p)) ["invalid cipherText encoding"] in
  if bool_decide (cipher_text = "") then Err ["invalid ciphertext"] else Ok tt.

Definition derive_key (passphrase salt : string) (iterations : Z) : string := pbkdf2 passphrase salt iterations.

(** [salt] and [iv] are drawn at random. *)
Definition encrypt_json {A} `{Serde A} (salt iv : string) (value : A) (passphrase : string) : result EncryptedPayload Error :=
  if bool_decide (passphrase = "") then Err ["passphrase is required"] else
  Ok {| ep_version := 1; ep_algorithm := "AES-GCM"; ep_kdf := "PBKDF2-SHA256"; ep_iterations := ITERATIONS;
        ep_salt := b64_encode salt; ep_iv := b64_encode iv;
        ep_cipher_text := b64_encode (gcm_encrypt (derive_key passphrase salt ITERATIONS) iv (ser value)) |}.

Definition decrypt_json {A} `{Serde A} (payload : EncryptedPayload) (passphrase : string) : result A Error :=
  if bool_decide (passphrase = "") then Err ["passphrase is required"] else
  validate_payload payload ;;?
  let? salt := ok_or (b64_decode (ep_salt payload)) ["decoding salt"] in
  let? iv := ok_or (b64_decode (ep_iv payload)) ["decoding iv"] in
  let? cipher_text := ok_or (b64_decode (ep_cipher_text payload)) ["decoding cipherText"] in
  let key := derive_key passphrase salt (ep_iterations payload) in
  let? plaintext := ok_or (gcm_decrypt key iv cipher_text) ["decryption failed (wrong passphrase or corrupt data)"] in
  ok_or (de plaintext) ["deserializing decrypted JSON"].
End crypto.

(** ** What is published and fetched *)
Definition MAX_JSON_BLOB_BYTES : Z := 16 * 1024 * 1024.
Definition MAX_FILE_BLOB_BYTES : Z := 512 * 1024 * 1024.
Definition MAX_BUNDLE_ENTRIES : Z := 100000.
Definition MAX_DATA_URL_LEN : Z := MAX_FILE_BLOB_BYTES / 3 * 4 + 1024.

Section bundles.
Context `{S : Sealing} {SB : Serde FolderBundle} {SX : Serde FileBundle} {SP : Serde EncryptedPayload}.

Definition check_bundle_entry_counts (bundle : FolderBundle) : result () Error :=
  let folders := match bu_folders bundle with Some l => zlen l | None => 0 end in
  if (MAX_BUNDLE_ENTRIES <? folders) || (MAX_BUNDLE_ENTRIES <? zlen (bu_files bundle))
  then Err ["folder bundle has too many entries"] else Ok tt.

(** The blob the store or the network has for the CID: the content, or why not. *)
Definition fetch_blob_capped (blob : result string Error) (cid : string) (max : Z) : result string Error :=
  let? raw := blob in
  if max <? slen raw then Err ["blob " +:+ cid +:+ " is too large"] else Ok raw.

Definition fetch_folder_bundle (blob : result string Error) (cid folder_key : string) : result FolderBundle Error :=
  let? raw := fetch_blob_capped blob cid MAX_JSON_BLOB_BYTES in
  let? payload := ok_or (de raw) ["folder bundle parse"] in
  let? bundle := decrypt_json payload folder_key in
  check_bundle_entry_counts bundle ;;?
  Ok bundle.

Definition decode_data_url (data_url : string) : result string Error :=
  if MAX_DATA_URL_LEN <? slen data_url then Err ["dataUrl is too large"] else
  let? p := ok_or (split_once ","%char data_url) ["dataUrl is missing its payload"] in
  if negb (has_window ";base64" p.1) then Err ["unsupported dataUrl encoding (expected base64)"] else
  ok_or (b64_decode p.2) ["decoding dataUrl base64"].

Definition fetch_file_content (blob : result string Error) (cid folder_key : string) : result string Error :=
  let? raw := fetch_blob_capped blob cid MAX_FILE_BLOB_BYTES in
  let? payload := ok_or (de raw) ["file bundle parse"] in
  let? bundle := decrypt_json payload folder_key in
  let? data_url := ok_or (fl_data_url (xb_file bundle)) ["file has no content"] in
  decode_data_url data_url.

(** The data URL an owner publishes a file's bytes in. *)
Definition data_url (mime data : string) : string := "data:" +:+ mime +:+ ";base64," +:+ b64_encode data.
End bundles.

(** ** Identities of keys *)
Definition FOLDER_KEY_HASH_PREFIX : string := "tc-storage-folder-key-v1".
Definition ACCESS_GRANT_PROOF_PREFIX : string := "tc-storage-folder-access-grant-v1".
Definition nul : string := String "000"%char "".

Section keys.
Context `{C : Crypto} {S : Sealing} {HM : Hmac} {T : JsonText} {V : ShareValues}.

Definition sha256_hex (data : string) : string := hex_encode (sha256 data).

Definition folder_key_hash (folder_id passphrase : string) : string :=
  sha256_hex (FOLDER_KEY_HASH_PREFIX +:+ nul +:+ folder_id +:+ nul +:+ trim passphrase).

Definition matches_folder_key_hash (folder_id passphrase expected : string) : bool :=
  negb (bool_decide (expected = "")) && bool_decide (folder_key_hash folder_id passphrase = expected).

Definition is_ed25519_did_key (did : string) : bool :=
  match strip_prefix "did:key:" did with
  | None => false
  | Some multibase =>
      match strip_prefix "z" multibase with
      | None => false
      | Some encoded =>
          if 64 <? slen encoded then false else
          match bs58_decode encoded with
          | None => false
          | Some bytes => (slen bytes =? 34) && bool_decide (byte_at 0 bytes = Some 0xed)
                          && bool_decide (byte_at 1 bytes = Some 0x01)
          end
      end
  end.

(** ** Signed envelopes *)

Definition opt_field {A} (k : string) (f : A → json) (o : option A) : list (string * json) :=
  match o with Some a => [(k, f a)] | None => [] end.

Definition int_value (n : Z) : json := JNumber (if n <? 0 then NegInt n else PosInt n).

(** [serde_json::to_value(envelope)]: fields that are [None] are left out. *)
Definition envelope_value (e : ShareEnvelope) : json := obj (
  opt_field "signature" JString (en_signature e)
  ++ [("type", JString (en_type e)); ("from", JString (en_from e)); ("roomId", JString (en_room_id e));
   ("sentAt", JString (en_sent_at e)); ("clock", int_value (en_clock e))]
  ++ opt_field "changeType" JString (en_change_type e) ++ opt_field "folderSignature" JString (en_folder_signature e)
  ++ opt_field "folderId" JString (en_folder_id e) ++ opt_field "folderName" JString (en_folder_name e)
  ++ opt_field "folder" folder_value (en_folder e) ++ opt_field "fileId" JString (en_file_id e)
  ++ opt_field "fileName" JString (en_file_name e) ++ opt_field "file" file_value (en_file e)
  ++ opt_field "cid" JString (en_cid e) ++ opt_field "ownerNodeId" JString (en_owner_node_id e)
  ++ opt_field "accessGrantMode" JString (en_access_grant_mode e)
  ++ opt_field "folderKeyHash" JString (en_folder_key_hash e) ++ opt_field "targetNodeId" JString (en_target_node_id e)
  ++ opt_field "requestId" JString (en_request_id e)
  ++ opt_field "senderProfile" (λ p, obj [("name", JString (pf_name p))]) (en_sender_profile e)
  ++ opt_field "accessPublicKey" JString (en_access_public_key e)
  ++ opt_field "accessGrantPublicKey" JString (en_access_grant_public_key e)
  ++ opt_field "accessGrantIv" JString (en_access_grant_iv e)
  ++ opt_field "accessGrantCipherText" JString (en_access_grant_cipher_text e)
  ++ opt_field "accessGrantProof" JString (en_access_grant_proof e)).

Definition number_text (n : number) : string :=
  match n with PosInt i | NegInt i => pretty i | Float bits => float_display bits end.

Definition is_null (v : json) : bool := match v with JNull => true | _ => false end.

(** Fields that are null are left out; the sort by key does not depend on the
    values, which are rendered first. *)
Fixpoint stable_text (v : json) : string :=
  match v with
  | JNull => "null"
  | JBool b => if b then "true" else "false"
  | JNumber n => number_text n
  | JString s => json_quote s
  | JArray items => "[" +:+ Text.join "," (map stable_text items) +:+ "]"
  | JObject fields =>
      let shown := omap (λ f, if is_null f.2 then None else Some (f.1, stable_text f.2)) fields in
      "{" +:+ Text.join "," (map (λ f, json_quote f.1 +:+ ":" +:+ f.2) (merge_sort key_le shown)) +:+ "}"
  end.

Definition envelope_signing_payload (e : ShareEnvelope) : string :=
  match envelope_value e with
  | JObject fields => stable_text (JObject (obj_remove "signature" fields))
  | v => stable_text v
  end.

Definition with_signature (s : option string) (e : ShareEnvelope) : ShareEnvelope := {|
  en_type := en_type e; en_from := en_from e; en_room_id := en_room_id e; en_sent_at := en_sent_at e;
  en_clock := en_clock e; en_change_type := en_change_type e; en_folder_signature := en_folder_signature e;
  en_folder_id := en_folder_id e; en_folder_name := en_folder_name e; en_folder := en_folder e;
  en_file_id := en_file_id e; en_file_name := en_file_name e; en_file := en_file e; en_cid := en_cid e;
  en_owner_node_id := en_owner_node_id e; en_access_grant_mode := en_access_grant_mode e;
  en_folder_key_hash := en_folder_key_hash e; en_target_node_id := en_target_node_id e; en_request_id := en_request_id e;
  en_sender_profile := en_sender_profile e; en_access_public_key := en_access_public_key e;
  en_access_grant_public_key := en_access_grant_public_key e; en_access_grant_iv := en_access_grant_iv e;
  en_access_grant_cipher_text := en_access_grant_cipher_text e; en_access_grant_proof := en_access_grant_proof e;
  en_signature := s;
|}.

Definition sign_envelope (e : ShareEnvelope) (identity : Identity) : result ShareEnvelope Error :=
  if negb (is_ed25519_did_key (en_from e)) then Err ["envelope sender must be an Ed25519 did:key"] else
  Ok (with_signature (Some (b64url_encode (sign identity (envelope_signing_payload e)))) e).

Definition verify_envelope (e : ShareEnvelope) : bool :=
  match en_signature e with
  | None => false
  | Some signature =>
      if negb (is_ed25519_did_key (en_from e)) then false else
      match b64url_decode (trim_end_char is_eq signature) with
      | None => false
      | Some bytes =>
          match verify (en_from e) (envelope_signing_payload e) bytes with Ok b => b | Err _ => false end
      end
  end.

(** The message that reaches the subscribers of [envelope_bus]. *)
Definition from_bus `{Serde ShareEnvelope} (data : string) : option ShareEnvelope :=
  match de data with
  | Some e => if verify_envelope e then Some e else None
  | None => None
  end.

(** ** Grants *)
Record AccessGrant := { ag_public_key : string; ag_iv : string; ag_cipher_text : string; ag_proof : string }.

Definition folder_access_grant_proof (passphrase folder_id request_id target_node_id : string) : string :=
  hex_encode (hmac_sha256 (trim passphrase)
    (ACCESS_GRANT_PROOF_PREFIX +:+ nul +:+ folder_id +:+ nul +:+ request_id +:+ nul +:+ target_node_id)).

(** [create_access_request_key]: the public half of the drawn [secret]. *)
Definition access_public_key (secret : string) : string := b64url_encode (p256_public secret).

(** [secret] and [iv] are drawn at random. *)
Definition build_access_grant (secret iv passphrase folder_id request_id target_node_id requester_public_key : string)
    : result AccessGrant Error :=
  let? peer := ok_or (b64url_decode (trim_end_char is_eq requester_public_key)) ["requester access public key"] in
  if negb (p256_valid peer) then Err ["requester access public key"] else
  let key := p256_shared secret peer in
  let plaintext := to_vec (obj [("key", JString passphrase)]) in
  Ok {| ag_public_key := b64url_encode (p256_public secret); ag_iv := b64_encode iv;
        ag_cipher_text := b64_encode (gcm_encrypt key iv plaintext);
        ag_proof := folder_access_grant_proof passphrase folder_id request_id target_node_id |}.

(** [serde_json::from_slice::<Payload>]: the [key] of the object. *)
Definition grant_key (plain : string) : option string :=
  match from_slice plain with Some v => get_str "key" v | None => None end.

Definition decrypt_folder_key_grant (cipher_text_b64 iv_b64 secret peer_public_b64url : string) : result string Error :=
  let? peer := ok_or (b64url_decode (trim_end_char is_eq peer_public_b64url)) ["grant public key"] in
  if negb (p256_valid peer) then Err ["grant public key"] else
  let key := p256_shared secret peer in
  let? iv := ok_or (b64_decode iv_b64) ["grant iv"] in
  let? cipher_text := ok_or (b64_decode cipher_text_b64) ["grant ciphertext"] in
  if negb (slen iv =? 12) then Err ["grant iv must be 12 bytes"] else
  let? plain := ok_or (gcm_decrypt key iv cipher_text) ["decrypt grant"] in
  let? folder_key := ok_or (grant_key plain) ["grant payload"] in
  if bool_decide (folder_key = "") then Err ["access grant did not contain a folder key"] else Ok folder_key.

(** [b64url_decode] of the text with its padding cut off. The encoder adds no
    padding, so nothing is cut. *)
Definition unpadded : Prop := ∀ s, trim_end_char is_eq (b64url_encode s) = b64url_encode s.
End keys.

(** ** Lemmas *)

Section crypto_lemmas.
Context `{S : Sealing} `{!SealingLaws S}.

(** What is encrypted is accepted and decrypted by the holder of the passphrase. *)
Lemma decrypt_encrypt {A} `{Serde A} salt iv (a : A) passphrase p :
  slen salt = SALT_LEN → slen iv = IV_LEN → reads_back a →
  encrypt_json salt iv a passphrase = Ok p → decrypt_json p passphrase = Ok a.
Proof.
  intros Hs Hi Ha. unfold encrypt_json, decrypt_json. case_bool_decide as Hp; [done|]. intros [= <-].
  unfold validate_payload. cbn [ep_version ep_algorithm ep_kdf ep_iterations ep_salt ep_iv ep_cipher_text].
  rewrite !(bool_decide_true (_ = _)) by done. cbn [Z.eqb negb orb Z.ltb]. rewrite !b64_roundtrip. cbn [ok_or rbind].
  rewrite Hs, Hi, !Z.eqb_refl. cbn [negb].
  rewrite (bool_decide_false (gcm_encrypt _ _ _ = "")) by apply gcm_tagged.
  change ((ITERATIONS <? MIN_ITERATIONS) || (MAX_ITERATIONS <? ITERATIONS)) with false. cbn [rbind].
  rewrite gcm_roundtrip. cbn [ok_or rbind]. by rewrite Ha.
Qed.

Lemma encrypt_ok {A} `{Serde A} salt iv (a : A) passphrase :
  passphrase ≠ "" → ∃ p, encrypt_json salt iv a passphrase = Ok p.
Proof. intros Hp. unfold encrypt_json. rewrite bool_decide_false by done. eauto. Qed.

(** A folder bundle that fits the limits is fetched as it was published. *)
Lemma fetch_published_bundle `{Serde FolderBundle, Serde EncryptedPayload} salt iv b passphrase p cid :
  slen salt = SALT_LEN → slen iv = IV_LEN → reads_back b → reads_back p →
  encrypt_json salt iv b passphrase = Ok p → slen (ser p) ≤ MAX_JSON_BLOB_BYTES →
  check_bundle_entry_counts b = Ok tt → fetch_folder_bundle (Ok (ser p)) cid passphrase = Ok b.
Proof.
  intros Hs Hi Hb Hp He Hl Hc. unfold fetch_folder_bundle, fetch_blob_capped. cbn [rbind].
  rewrite (proj2 (Z.ltb_ge _ _) Hl). cbn [rbind]. rewrite Hp. cbn [ok_or rbind].
  rewrite (decrypt_encrypt salt iv b passphrase p) by done. cbn [rbind]. by rewrite Hc.
Qed.

Lemma split_once_comma mime data :
  string_forallb (λ a, negb (bool_decide (a = ","%char))) mime = true →
  split_once ","%char ("data:" +:+ mime +:+ ";base64," +:+ data) = Some ("data:" +:+ mime +:+ ";base64", data).
Proof.
  intros Hm.
  replace ("data:" +:+ mime +:+ ";base64," +:+ data) with (("data:" +:+ mime +:+ ";base64") +:+ String ","%char data).
  - apply split_once_app. by rewrite !string_forallb_append, Hm.
  - by rewrite !string_app_assoc.
Qed.

Lemma has_window_app p a b : has_window p b = true → has_window p (a +:+ b) = true.
Proof. intros H. induction a as [|c a IH]; [done|]. change (String c a +:+ b) with (String c (a +:+ b)). cbn. by rewrite IH, orb_true_r. Qed.

(** The bytes of a file come back from the data URL they are published in. *)
Lemma decode_published mime data :
  string_forallb (λ a, negb (bool_decide (a = ","%char))) mime = true →
  slen (data_url mime data) ≤ MAX_DATA_URL_LEN → decode_data_url (data_url mime data) = Ok data.
Proof.
  intros Hm Hl. unfold decode_data_url. rewrite (proj2 (Z.ltb_ge _ _) Hl). unfold data_url.
  rewrite split_once_comma by done. cbn [ok_or rbind fst snd].
  rewrite (has_window_app ";base64" "data:"); [|by apply has_window_app]. cbn [negb]. by rewrite b64_roundtrip.
Qed.

Lemma fetch_published_file `{Serde FileBundle, Serde EncryptedPayload} salt iv b passphrase p cid mime data :
  slen salt = SALT_LEN → slen iv = IV_LEN → reads_back b → reads_back p →
  encrypt_json salt iv b passphrase = Ok p → slen (ser p) ≤ MAX_FILE_BLOB_BYTES →
  fl_data_url (xb_file b) = Some (data_url mime data) →
  string_forallb (λ a, negb (bool_decide (a = ","%char))) mime = true →
  slen (data_url mime data) ≤ MAX_DATA_URL_LEN → fetch_file_content (Ok (ser p)) cid passphrase = Ok data.
Proof.
  intros Hs Hi Hb Hp He Hl Hd Hm Hu. unfold fetch_file_content, fetch_blob_capped. cbn [rbind].
  rewrite (proj2 (Z.ltb_ge _ _) Hl). cbn [rbind]. rewrite Hp. cbn [ok_or rbind].
  rewrite (decrypt_encrypt salt iv b passphrase p) by done. cbn [rbind]. rewrite Hd. cbn [ok_or rbind].
  by apply decode_published.
Qed.
End crypto_lemmas.

Section key_lemmas.
Context `{C : Crypto} `{!CryptoLaws C} `{S : Sealing} `{!SealingLaws S} {HM : Hmac} {T : JsonText} {V : ShareValues}.
Context (Hunpadded : unpadded).

Lemma pubkey_did_key d k : pubkey_from_did d = Ok k → is_ed25519_did_key d = true.
Proof.
  unfold pubkey_from_did, is_ed25519_did_key. intros H. case_if; [done|]. bools.
  destruct (strip_prefix "did:key:" d) as [m|] eqn:Em; [|done]. cbn [ok_or rbind] in H.
  destruct (strip_prefix "z" m) as [x|] eqn:Ex; [|done]. cbn [ok_or rbind] in H.
  apply strip_prefix_eq in Em as ->. apply strip_prefix_eq in Ex as ->.
  replace (64 <? slen x) with false.
  - destruct (bs58_decode x) as [b|]; [|done]. cbn [ok_or rbind] in H. case_if; [done|]. bools.
    match goal with H1 : byte_at 0 b = _, H2 : byte_at 1 b = _, H3 : slen b = _ |- _ =>
      by rewrite H1, H2, H3 end.
  - symmetry. apply Z.ltb_ge.
    match goal with Hlen : slen (_ +:+ _) = ED25519_DID_KEY_LEN |- _ => rewrite !slen_append in Hlen; unfold ED25519_DID_KEY_LEN in Hlen end.
    change (slen "did:key:") with 8 in *. change (slen "z") with 1 in *. lia.
Qed.

(** The signature is not part of what it signs. *)
Lemma payload_unsigned s e : envelope_signing_payload (with_signature s e) = envelope_signing_payload e.
Proof.
  unfold envelope_signing_payload, envelope_value, obj. rewrite !foldr_app.
  destruct s, (en_signature e) as [s'|] eqn:E; cbn [with_signature en_signature opt_field foldr fst snd];
    rewrite ?E; cbn [opt_field foldr fst snd]; by rewrite ?obj_remove_insert.
Qed.

(** An envelope signed under the DID of its sender verifies. *)
Lemma verify_signed e id e' :
  identity_wf id → en_from e = did id → sign_envelope e id = Ok e' → verify_envelope e' = true.
Proof.
  intros Hid Hfrom. unfold sign_envelope. rewrite Hfrom, (pubkey_did_key _ _ Hid). cbn [negb]. intros [= <-].
  unfold verify_envelope. cbn [with_signature en_signature en_from]. rewrite Hfrom, (pubkey_did_key _ _ Hid). cbn [negb].
  rewrite Hunpadded, b64url_roundtrip, payload_unsigned. unfold verify, sign. rewrite Hid. cbn [rbind].
  rewrite public_key_valid, signature_parses. cbn [negb]. by rewrite ed_correct.
Qed.

(** The holder of the secret of a request opens the grant made for it. *)
Lemma open_grant mine secret iv passphrase folder_id request_id target g :
  slen iv = 12 → passphrase ≠ "" →
  from_slice (to_vec (obj [("key", JString passphrase)])) = Some (obj [("key", JString passphrase)]) →
  build_access_grant secret iv passphrase folder_id request_id target (access_public_key mine) = Ok g →
  decrypt_folder_key_grant (ag_cipher_text g) (ag_iv g) mine (ag_public_key g) = Ok passphrase.
Proof.
  intros Hiv Hp Hj. unfold build_access_grant, access_public_key.
  rewrite Hunpadded, b64url_roundtrip. cbn [ok_or rbind]. rewrite p256_public_valid. cbn [negb]. intros [= <-].
  unfold decrypt_folder_key_grant. cbn [ag_cipher_text ag_iv ag_public_key].
  rewrite Hunpadded, b64url_roundtrip. cbn [ok_or rbind]. rewrite p256_public_valid. cbn [negb].
  rewrite !b64_roundtrip. cbn [ok_or rbind]. rewrite Hiv. cbn [Z.eqb negb].
  rewrite (p256_agree mine secret), gcm_roundtrip. cbn [ok_or rbind]. unfold grant_key. rewrite Hj.
  change (get_str "key" _) with (Some passphrase). cbn [ok_or rbind]. by rewrite bool_decide_false.
Qed.

Lemma matches_own_hash folder_id passphrase :
  matches_folder_key_hash folder_id passphrase (folder_key_hash folder_id passphrase)
    = negb (bool_decide (folder_key_hash folder_id passphrase = "")).
Proof. unfold matches_folder_key_hash.
  set (h := folder_key_hash folder_id passphrase). by rewrite (bool_decide_true (h = h)), andb_true_r. Qed.
End key_lemmas.

(** ** A concrete instance

    Executable stand-ins for which the laws hold; they have no security. *)
Module ToySeal.
#[global] Instance sealing : Sealing := {|
  b64_encode s := s; b64_decode s := Some s; pbkdf2 p salt _ := p +:+ salt;
  gcm_encrypt k iv m := "#" +:+ k +:+ "#" +:+ iv +:+ "#" +:+ m;
  gcm_decrypt k iv c := strip_prefix ("#" +:+ k +:+ "#" +:+ iv +:+ "#") c;
  p256_public a := a; p256_valid _ := true; p256_shared a b := show (slen a * slen b);
|}.

#[global] Instance sealing_laws : SealingLaws sealing.
Proof.
  split; intros; cbn; try done.
  - rewrite <-(strip_prefix_append ("#" +:+ k +:+ "#" +:+ iv +:+ "#") m). f_equal. by rewrite !string_app_assoc.
  - by rewrite Z.mul_comm.
Qed.
End ToySeal.
