(* ===== verification/StoragePaths.v ===== *)
(** * Shared folders: names, paths and the jail

    The names and paths of [src/src/storage/folder_share.rs] and
    [folder_sync.rs], and the jail of [sandbox.rs] over a tree of files: what a
    remote name becomes, which path a file of a shared folder is written to, and
    what a call may touch. Paths are those of Unix, as lists of names; a tree
    has no symbolic links. *)
From S2P Require Import Prelude Text StorageDomain.

(** ** Names *)

Definition ascii_upper (c : ascii) : ascii :=
  if in_range "a"%char "z"%char c then Ascii.ascii_of_N (N_of_ascii c - 32) else c.
Fixpoint to_ascii_uppercase (s : string) : string :=
  match s with "" => "" | String c s => String (ascii_upper c) (to_ascii_uppercase s) end.

(** Windows reserved device names. *)
Definition is_reserved_device_name (stem : string) : bool :=
  let upper := to_ascii_uppercase stem in
  contains ["CON"; "PRN"; "AUX"; "NUL"] upper
  || (starts_with "COM" upper || starts_with "LPT" upper) && (slen upper =? 4)
     && is_some_and (λ c, is_ascii_digit c && negb (bool_decide (c = "0"%char))) (String.get 3 upper).

Definition FORBIDDEN : list ascii := ["/"; "\"; ":"; "<"; ">"; "034"; "|"; "?"; "*"]%char.

(** [char::is_control] of the character with these bytes. *)
Definition is_control (c : string) : bool :=
  match c with
  | String a r =>
      (N_of_ascii a <? 32)%N || (N_of_ascii a =? 127)%N
      || (N_of_ascii a =? 0xC2)%N && match r with
                                     | String b _ => (128 <=? N_of_ascii b)%N && (N_of_ascii b <=? 159)%N
                                     | "" => false
                                     end
  | "" => false
  end.

(** An ASCII character of UTF-8 text is its one byte. *)
Definition replaced (c : string) : string :=
  match c with
  | String a _ => if is_control c || contains FORBIDDEN a then "_" else c
  | "" => ""
  end.

Definition dot_or_space (c : ascii) : bool := contains ["."; " "]%char c.

Definition sanitize_name (name : string) : string :=
  let replaced := String.concat "" (map replaced (chars (trim name))) in
  let trimmed := trim_end_char dot_or_space replaced in
  if bool_decide (trimmed = "") then "_" else
  let stem := trim_end_from 0 (default trimmed (head (split_on "."%char trimmed))) in
  if is_reserved_device_name stem then "_" +:+ trimmed else trimmed.

(** ** Where a file goes *)

(** The loop visits each folder at most once, so one round more than there are
    folders is enough. *)
Fixpoint path_parts_from (fuel : nat) (folders : gmap string FolderRecord) (visited : list string) (current : string)
    (parts : list string) : list string :=
  match fuel with
  | O => parts
  | S fuel =>
      if bool_decide (current = "") || contains visited current then parts else
      match folders !! current with
      | None => parts
      | Some folder =>
          if folder_deleted folder then parts else
          let parts := sanitize_name (fd_name folder) :: parts in
          match non_empty (fd_parent_id folder) with
          | Some parent => path_parts_from fuel folders (current :: visited) parent parts
          | None => parts
          end
      end
  end.

Definition folder_path_parts (folders : gmap string FolderRecord) (folder_id : string) : list string :=
  path_parts_from (S (size folders)) folders [] folder_id [].

Definition file_target_rel (folders : gmap string FolderRecord) (folder_id file_name : string) : option string :=
  match folder_path_parts folders folder_id with
  | [] => None
  | _ :: parts => Some (join "/" (parts ++ [sanitize_name file_name]))
  end.

Definition folder_map_from_records (records : list FolderRecord) : gmap string FolderRecord :=
  foldl (λ m f, if folder_deleted f then m else <[fd_id f := f]> m) ∅ records.

Definition build_folder_map (bundle : FolderBundle) : gmap string FolderRecord :=
  let folders := match bu_folders bundle with Some l => folder_map_from_records l | None => ∅ end in
  let root := bu_folder bundle in
  if negb (bool_decide (fd_id root = "")) && negb (folder_deleted root) then
    match folders !! fd_id root with Some _ => folders | None => <[fd_id root := root]> folders end
  else folders.

(** ** Paths *)
Notation path := (list string).

Inductive Component := RootDir | CurDir | ParentDir | Normal (part : string).

Definition component_of (part : string) : list Component :=
  if bool_decide (part = "") || bool_decide (part = ".") then []
  else if bool_decide (part = "..") then [ParentDir] else [Normal part].

(** [Path::components()] *)
Definition components (name : string) : list Component :=
  match split_on "/"%char name with
  | first :: rest =>
      (if starts_with "/" name then [RootDir] else if bool_decide (first = ".") then [CurDir] else [])
      ++ concat (map component_of (first :: rest))
  | [] => []
  end.

(** The loop of [Sandbox::resolve]. *)
Fixpoint normalized (cs : list Component) : option path :=
  match cs with
  | [] => Some []
  | Normal part :: cs => cons part <$> normalized cs
  | CurDir :: cs => normalized cs
  | ParentDir :: _ | RootDir :: _ => None
  end.

Definition OUTSIDE_SANDBOX : string := "path escapes content sandbox".

(** [p.starts_with(root)] *)
Definition below (root p : path) : bool := bool_decide (root `prefix_of` p).

Definition resolve (root : path) (name : string) : result path Error :=
  if blank name then Err ["sandbox path is required"] else
  if starts_with "/" name then Err [OUTSIDE_SANDBOX] else
  match normalized (components name) with
  | None | Some [] => Err [OUTSIDE_SANDBOX]
  | Some rel =>
      let target := root ++ rel in
      if below root target then Ok target else Err [OUTSIDE_SANDBOX]
  end.

(** [std::path::absolute], which keeps [..]. *)
Definition absolute (cwd : path) (dir : string) : path :=
  let names := omap (λ c, match c with Normal p => Some p | ParentDir => Some ".." | _ => None end) (components dir) in
  if starts_with "/" dir then names else cwd ++ names.

Definition parent (p : path) : path := take (length p - 1) p.

(** ** Files *)
Inductive node := Dir | File (data : string).
#[global] Instance node_eq : EqDecision node.
Proof. solve_decision. Defined.

Notation FS := (gmap path node).

Definition is_dir (fs : FS) (p : path) : bool := bool_decide (p = []) || bool_decide (fs !! p = Some Dir).

(** What became of a call: a call that stops has made the first [n]
    directories, written the first [n] bytes, or removed all but what is kept. *)
Inductive Io := Works | Refuses | Stops (n : nat) (kept : path → bool).

(** The paths from the root to [p], the root not included. *)
Fixpoint prefixes (p : path) : list path :=
  match p with [] => [] | x :: p => [x] :: map (cons x) (prefixes p) end.

Fixpoint make_dirs (l : list path) (fs : FS) : FS * bool :=
  match l with
  | [] => (fs, true)
  | p :: l =>
      match fs !! p with
      | Some Dir => make_dirs l fs
      | None => make_dirs l (<[p := Dir]> fs)
      | Some (File _) => (fs, false)
      end
  end.

Definition create_dir_all (io : Io) (p : path) (fs : FS) : FS * bool :=
  match io with
  | Works => make_dirs (prefixes p) fs
  | Refuses => (fs, false)
  | Stops n _ => ((make_dirs (take n (prefixes p)) fs).1, false)
  end.

Definition write_file (io : Io) (p : path) (data : string) (fs : FS) : FS * bool :=
  if is_dir fs (parent p) && negb (is_dir fs p) then
    match io with
    | Works => (<[p := File data]> fs, true)
    | Refuses => (fs, false)
    | Stops n _ => (<[p := File (string_take n data)]> fs, false)
    end
  else (fs, false).

Definition without (p : path) (kept : path → bool) (fs : FS) : FS :=
  filter (λ e, negb (below p e.1) || kept e.1 = true) fs.

Definition behind_file (p : path) (fs : FS) : bool :=
  existsb (λ q, match fs !! q with Some (File _) => true | _ => false end) (prefixes (parent p)).

(** The body of [Sandbox::remove] for a resolved path: a missing path is
    removed already. *)
Definition remove_path (io : Io) (p : path) (fs : FS) : FS * bool :=
  if behind_file p fs then (fs, false) else
  match fs !! p, io with
  | None, Works => (fs, true)
  | None, _ => (fs, false)
  | Some _, Works => (without p (λ _, false) fs, true)
  | Some _, Refuses => (fs, false)
  | Some Dir, Stops _ kept => (without p kept fs, false)
  | Some (File _), Stops _ _ => (fs, false)
  end.

(** ** Lemmas: names *)

Definition not_slash (a : ascii) : bool := negb (bool_decide (a = "/"%char)).

(** A name that is one component of a path. *)
Definition safe_component (s : string) : bool :=
  negb (bool_decide (s = "")) && negb (bool_decide (s = ".")) && negb (bool_decide (s = "..")) && string_forallb not_slash s.

(** Text that does not begin with white space. *)
Definition solid (s : string) : Prop := s ≠ "" ∧ whitespace_len s = 0%nat.

Lemma solid_not_blank s : solid s → blank s = false.
Proof.
  intros [Hne Hw]. destruct s as [|c s]; [done|]. unfold blank, split_whitespace. apply bool_decide_eq_false.
  rewrite words_from_0, Hw. clear.
  assert (H : ∀ t k cur, cur ≠ "" → words_from k cur t ≠ []).
  { induction t as [|d t IH]; intros [|k] cur Hc.
    1,2: change (emit cur [] ≠ []); unfold emit; by rewrite bool_decide_false.
    - rewrite words_from_0. destruct (whitespace_len (String d t)); [apply IH; by destruct cur|].
      unfold emit. by rewrite bool_decide_false.
    - by apply IH. }
  by apply H.
Qed.

Lemma solid_prefix a t : a ≠ "" → solid (a +:+ t) → solid a.
Proof. intros Ha [_ Hw]. split; [done|by eapply whitespace_len_prefix]. Qed.

Lemma solid_slash a b : solid a → solid (a +:+ String "/"%char b).
Proof.
  intros [Hne Hw]. split; [by destruct a|]. by rewrite whitespace_len_app.
Qed.
Lemma trim_end_char_prefix p s : ∃ t, s = trim_end_char p s +:+ t.
Proof.
  induction s as [|c s [t IH]]; [by exists ""|]. cbn [trim_end_char].
  destruct (_ && _); [by exists (String c s)|]. exists t. change (String c s = String c (trim_end_char p s +:+ t)). by rewrite <-IH.
Qed.

Lemma trim_end_char_idem p s : trim_end_char p (trim_end_char p s) = trim_end_char p s.
Proof.
  induction s as [|c s IH]; [done|]. cbn [trim_end_char].
  destruct (bool_decide (trim_end_char p s = "") && p c) eqn:E; [done|]. cbn [trim_end_char]. by rewrite IH, E.
Qed.

Lemma not_slash_replaced c : string_forallb not_slash (replaced (String c "")) = true.
Proof. destruct c as [[] [] [] [] [] [] [] []]; by vm_compute. Qed.

Lemma continuation_not_slash c : is_continuation c = true → not_slash c = true.
Proof. destruct c as [[] [] [] [] [] [] [] []]; vm_compute; done. Qed.

Lemma take_continuation_all s : string_forallb is_continuation (take_continuation s) = true.
Proof. induction s as [|c s IH]; [done|]. cbn [take_continuation]. destruct (is_continuation c) eqn:E; [|done]. cbn. by rewrite E. Qed.

Lemma replaced_cases c r : replaced (String c r) = "_" ∨ replaced (String c r) = String c r ∧ not_slash c = true.
Proof.
  unfold replaced. destruct (is_control (String c r) || contains FORBIDDEN c) eqn:E; [by left|]. right. split; [done|].
  bools. unfold not_slash. apply negb_true_iff, bool_decide_eq_false. by intros ->.
Qed.

(** What the bytes of a name become: no separator, and a first character that
    is not white space stays one. *)
Lemma concat_cons a l : String.concat "" (a :: l) = a +:+ String.concat "" l.
Proof. destruct l; [by rewrite string_app_nil_r|done]. Qed.

Lemma chars_rest_spec s : match chars (drop_continuation s) with
  | String c _ :: _ => is_continuation c = false | _ => drop_continuation s = "" end.
Proof.
  induction s as [|c s IH]; [done|]. cbn [drop_continuation]. destruct (is_continuation c) eqn:E; [done|].
  by rewrite chars_step.
Qed.

Lemma chars_no_slash s : Forall (λ c, string_forallb not_slash (replaced c) = true) (chars s).
Proof.
  induction s as [|c s IH]; [constructor|]. rewrite chars_step. constructor.
  - destruct (replaced_cases c (take_continuation s)) as [->|[-> Hc]]; [done|]. cbn. rewrite Hc.
    apply (string_forallb_impl is_continuation); [apply continuation_not_slash|apply take_continuation_all].
  - destruct s as [|d s]; [done|]. cbn [drop_continuation]. destruct (is_continuation d); [|done].
    rewrite chars_step in IH. by apply Forall_cons in IH as [_ IH].
Qed.

Lemma replaced_no_slash s : string_forallb not_slash (String.concat "" (map replaced (chars s))) = true.
Proof.
  generalize (chars_no_slash s). generalize (chars s). intros l. induction 1 as [|c l Hc _ IH]; [done|].
  cbn [map]. by rewrite concat_cons, string_forallb_append, Hc, IH.
Qed.

Lemma replaced_solid s : solid s → solid (String.concat "" (map replaced (chars s))).
Proof.
  destruct s as [|c s]; [by intros []|]. intros [_ Hw]. rewrite chars_step. cbn [map]. rewrite concat_cons.
  destruct (replaced_cases c (take_continuation s)) as [->|[-> _]].
  { split; [done|]. by apply whitespace_len_graphic. }
  split; [done|]. set (R := String.concat "" _).
  change (String c (take_continuation s) +:+ R) with (String c (take_continuation s +:+ R)).
  apply whitespace_len_char.
  replace (take_continuation (take_continuation s +:+ R)) with (take_continuation s).
  - assert (Hs : String c s = String c (take_continuation s) +:+ drop_continuation s).
    { clear. change (String c s = String c (take_continuation s +:+ drop_continuation s)). f_equal.
      induction s as [|d s IH]; [done|]. cbn. destruct (is_continuation d); [|done].
      change (String d s = String d (take_continuation s +:+ drop_continuation s)). by rewrite <-IH. }
    rewrite Hs in Hw. by eapply whitespace_len_prefix.
  - assert (HR : take_continuation R = "").
    { unfold R. pose proof (chars_rest_spec s) as Hc. destruct (chars (drop_continuation s)) as [|[|d g] l] eqn:E.
      - done.
      - by rewrite Hc in E.
      - cbn [map]. rewrite concat_cons. destruct (replaced_cases d g) as [->|[-> _]]; [done|].
        change (String d g +:+ ?x) with (String d (g +:+ x)). cbn. by rewrite Hc. }
    clear -HR. clearbody R. induction s as [|d s IH]; [exact (eq_sym HR)|]. cbn [take_continuation].
    destruct (is_continuation d) eqn:E; [|done]. change (String d (take_continuation s) +:+ R) with (String d (take_continuation s +:+ R)).
    cbn [take_continuation]. by rewrite E, <-IH.
Qed.

Lemma safe_underscore s : string_forallb not_slash s = true → safe_component ("_" +:+ s) = true.
Proof. intros H. unfold safe_component. change ("_" +:+ s) with (String "_" s). rewrite !bool_decide_false by done. by cbn. Qed.

(** A sanitized name is one component of a path, and not white space. *)
Lemma sanitize_name_spec name : safe_component (sanitize_name name) = true ∧ solid (sanitize_name name).
Proof.
  unfold sanitize_name. set (r := String.concat "" _). destruct (trim_end_char_prefix dot_or_space r) as [t Ht].
  pose proof (trim_end_char_idem dot_or_space r) as Hi. set (u := trim_end_char dot_or_space r) in *.
  case_bool_decide as Hu; [by vm_compute|].
  assert (Hr : string_forallb not_slash u = true).
  { assert (Hn : string_forallb not_slash r = true) by apply replaced_no_slash.
    rewrite Ht, string_forallb_append in Hn. by apply andb_true_iff in Hn as [? _]. }
  destruct (is_reserved_device_name _); [split; [by apply safe_underscore|split; [done|by apply whitespace_len_graphic]]|].
  split.
  - unfold safe_component. rewrite Hr, (bool_decide_false (u = "")) by done.
    rewrite !bool_decide_false; [done|intros E; rewrite E in Hi; vm_compute in Hi; done..].
  - apply (solid_prefix u t Hu). rewrite <-Ht. apply replaced_solid.
    destruct (decide (trim name = "")) as [E|E]; [exfalso; apply Hu; unfold u, r; by rewrite E|].
    destruct (trim_end_prefix 0 (trim_start name)) as [v Hv]. apply (solid_prefix _ v E). unfold trim. rewrite <-Hv.
    destruct (trim_start_from_spec 0 name) as [H|H]; [|split; [|done]].
    + exfalso. apply E. unfold trim, trim_start. by rewrite H.
    + intros H'. apply E. unfold trim, trim_start in *. by rewrite H'.
Qed.

(** ** Lemmas: where a file goes *)

Lemma path_parts_safe fuel folders visited current parts :
  Forall (λ p, ∃ n, p = sanitize_name n) parts →
  Forall (λ p, ∃ n, p = sanitize_name n) (path_parts_from fuel folders visited current parts).
Proof.
  revert visited current parts. induction fuel as [|fuel IH]; intros visited current parts H; [done|]. cbn [path_parts_from].
  case_if; [done|]. destruct (folders !! current) as [f|]; [|done]. case_if; [done|].
  assert (H' : Forall (λ p, ∃ n, p = sanitize_name n) (sanitize_name (fd_name f) :: parts)) by (constructor; eauto).
  destruct (non_empty _); auto.
Qed.

(** A file of a shared folder goes to a path of sanitized names, its own last. *)
Lemma file_target_rel_spec folders folder_id name rel :
  file_target_rel folders folder_id name = Some rel →
  ∃ parts, rel = join "/" (parts ++ [sanitize_name name]) ∧ Forall (λ p, ∃ n, p = sanitize_name n) parts.
Proof.
  unfold file_target_rel. pose proof (path_parts_safe (S (size folders)) folders [] folder_id [] (Forall_nil_2 _)) as H.
  fold (folder_path_parts folders folder_id) in H. destruct (folder_path_parts folders folder_id) as [|p parts]; [done|].
  intros [= <-]. exists parts. split; [done|]. by apply Forall_cons in H as [_ H].
Qed.

(** More rounds do not change the result: each names another folder. *)
Lemma path_parts_fuel folders n fuel visited current parts :
  NoDup visited → (∀ v, v ∈ visited → is_Some (folders !! v)) →
  (S (size folders) ≤ fuel + length visited)%nat →
  path_parts_from (fuel + n) folders visited current parts = path_parts_from fuel folders visited current parts.
Proof.
  revert visited current parts. induction fuel as [|fuel IH]; intros visited current parts Hnd Hin Hsz.
  - exfalso. assert (Hle : (length visited ≤ size folders)%nat).
    { rewrite <-size_dom, <-(size_list_to_set (C := gset string) visited Hnd). apply subseteq_size.
      intros v Hv%elem_of_list_to_set. by apply elem_of_dom, Hin. }
    simpl in Hsz. lia.
  - cbn [Nat.add path_parts_from]. case_if; [done|]. bools. destruct (folders !! current) as [f|] eqn:E; [|done].
    case_if; [done|]. destruct (non_empty _); [|done]. apply IH.
    + constructor; [|done]. intros Hc. match goal with H : contains _ _ = false |- _ => unfold contains in H; bools; done end.
    + intros v [->|Hv]%elem_of_cons; [by rewrite E|auto].
    + simpl. lia.
Qed.

Theorem folder_path_parts_fuel folders folder_id n :
  path_parts_from (S (size folders) + n) folders [] folder_id [] = folder_path_parts folders folder_id.
Proof. apply path_parts_fuel; [constructor|by intros v Hv%elem_of_nil|simpl; lia]. Qed.

(** ** Lemmas: paths *)

Lemma split_on_no_sep c s w : w ∈ split_on c s → string_forallb (λ a, negb (bool_decide (a = c))) w = true.
Proof.
  revert w. induction s as [|a s IH]; intros w; cbn [split_on]; [by intros ->%list_elem_of_singleton|].
  case_bool_decide as Ha; [intros [->|Hw]%elem_of_cons; auto|].
  destruct (split_on c s) as [|v vs]; [intros ->%list_elem_of_singleton; cbn; by rewrite bool_decide_false|].
  intros [->|Hw]%elem_of_cons; [|apply IH; by right]. cbn. rewrite bool_decide_false by done. apply IH. by left.
Qed.

Lemma normalized_spec cs rel :
  normalized cs = Some rel → ∀ p, p ∈ rel → Normal p ∈ cs.
Proof.
  revert rel. induction cs as [|[| | |q] cs IH]; intros rel; cbn [normalized]; try done.
  - by intros [= <-] p Hp%elem_of_nil.
  - intros H p Hp. right. by eapply IH.
  - destruct (normalized cs) as [r|]; [|done]. intros [= <-] p [->|Hp]%elem_of_cons; [by left|right; by eapply IH].
Qed.

(** Whatever the name, a resolved path lies below the root. *)
Lemma resolve_inside root name t :
  resolve root name = Ok t → ∃ rel, t = root ++ rel ∧ rel ≠ [] ∧ Forall (λ p, safe_component p = true) rel.
Proof.
  unfold resolve. destruct (blank name); [done|]. destruct (starts_with "/" name) eqn:Hs; [done|].
  destruct (normalized (components name)) as [[|x rel]|] eqn:E; [done| |done]. case_if; [|done]. intros [= <-].
  exists (x :: rel). split_and!; [done..|]. apply Forall_forall. intros p Hp.
  pose proof (normalized_spec _ _ E p Hp) as Hc. unfold components in Hc.
  destruct (split_on "/"%char name) as [|first rest] eqn:Hsp; [by apply elem_of_nil in Hc|].
  rewrite Hs in Hc. apply elem_of_app in Hc as [Hc|Hc].
  { destruct (bool_decide (first = ".")); [by apply list_elem_of_singleton in Hc|by apply elem_of_nil in Hc]. }
  apply list_elem_of_In, in_concat in Hc as (l & Hl & Hc). apply in_map_iff in Hl as (q & <- & Hq).
  apply list_elem_of_In in Hq, Hc. unfold component_of in Hc.
  destruct (bool_decide (q = "") || bool_decide (q = ".")) eqn:Hq1; [by apply elem_of_nil in Hc|].
  case_bool_decide as Hq2; [by apply list_elem_of_singleton in Hc|]. apply list_elem_of_singleton in Hc as [= ->].
  bools. unfold safe_component. rewrite !bool_decide_false by done. cbn [negb andb].
  rewrite <-Hsp in Hq. by apply split_on_no_sep in Hq.
Qed.

Lemma solid_join l w : solid w → solid (join "/" (w :: l)).
Proof.
  intros Hw. unfold join. destruct l as [|v l]; [done|].
  change (String.concat "/" (w :: v :: l)) with (w +:+ String "/" (String.concat "/" (v :: l))). by apply solid_slash.
Qed.

Lemma normalized_normal l : normalized (map Normal l) = Some l.
Proof. induction l as [|x l IH]; [done|]. cbn. by rewrite IH. Qed.

(** A path of safe names is resolved to itself below the root. *)
Lemma resolve_join root w l :
  solid w → Forall (λ p, safe_component p = true) (w :: l) → resolve root (join "/" (w :: l)) = Ok (root ++ w :: l).
Proof.
  intros Hw Hl. unfold resolve. rewrite solid_not_blank by (by apply solid_join).
  assert (Hsplit : split_on "/"%char (join "/" (w :: l)) = w :: l).
  { apply split_on_join. eapply Forall_impl; [exact Hl|]. intros p. cbv beta. unfold safe_component. intros H. by bools. }
  pose proof Hl as [Hsafe _]%Forall_cons. unfold safe_component in Hsafe. bools.
  assert (Hs : starts_with "/" (join "/" (w :: l)) = false).
  { unfold join. destruct w as [|c w]; [done|].
    assert (Hc : c ≠ "/"%char).
    { intros ->. match goal with H : string_forallb _ _ = true |- _ => by cbn in H end. }
    assert (H' : ∀ x, starts_with "/" (String c x) = false).
    { intros x. unfold starts_with. cbn [String.prefix]. destruct (Ascii.ascii_dec "/" c); [congruence|done]. }
    destruct l; apply H'. }
  rewrite Hs. unfold components. rewrite Hsplit, Hs, (bool_decide_false (w = ".")) by done. cbn [app].
  replace (concat (map component_of (w :: l))) with (map Normal (w :: l)).
  - rewrite normalized_normal. unfold below. rewrite bool_decide_true by (by apply prefix_app_r). done.
  - revert Hl. clear. generalize (w :: l). intros ps. induction 1 as [|p ps Hp _ IH]; [done|]. cbn [map concat]. rewrite <-IH.
    unfold component_of, safe_component in *. bools. by rewrite !bool_decide_false.
Qed.

Lemma resolve_rel root folders folder_id name rel :
  file_target_rel folders folder_id name = Some rel →
  ∃ parts, resolve root rel = Ok (root ++ parts) ∧ parts ≠ [] ∧ rel = join "/" parts ∧ Forall (λ p, safe_component p = true) parts.
Proof.
  intros (parts & -> & Hp)%file_target_rel_spec. exists (parts ++ [sanitize_name name]).
  assert (Hall : Forall (λ p, ∃ n, p = sanitize_name n) (parts ++ [sanitize_name name])).
  { apply Forall_app. split; [done|]. constructor; eauto. }
  assert (Hsafe : Forall (λ p, safe_component p = true) (parts ++ [sanitize_name name])).
  { eapply Forall_impl; [exact Hall|]. intros ? [n ->]. apply sanitize_name_spec. }
  split_and!; [|by destruct parts|done|done].
  destruct (parts ++ [sanitize_name name]) as [|w l] eqn:E; [by destruct parts|].
  apply resolve_join; [|done]. apply Forall_cons in Hall as [[n ->] _]. apply sanitize_name_spec.
Qed.

(** ** Lemmas: files *)

Definition strictly_below (root p : path) : Prop := root `prefix_of` p ∧ p ≠ root.

Lemma strictly_below_app root rel : rel ≠ [] → strictly_below root (root ++ rel).
Proof. intros Hr. split; [by apply prefix_app_r|]. intros H. apply Hr. by apply (app_inv_head root); rewrite app_nil_r. Qed.

Lemma strictly_below_under root t p : strictly_below root t → t `prefix_of` p → strictly_below root p.
Proof.
  intros [[k ->] Hne] [l ->]. split; [apply prefix_app_r, prefix_app_r; done|]. rewrite <-app_assoc. intros H.
  apply Hne. destruct k; [by rewrite app_nil_r|]. exfalso. apply (f_equal length) in H. rewrite length_app in H. simpl in H. lia.
Qed.

Lemma elem_of_prefixes p q : q ∈ prefixes p ↔ q ≠ [] ∧ q `prefix_of` p.
Proof.
  revert q. induction p as [|x p IH]; intros q; cbn [prefixes].
  - rewrite elem_of_nil. split; [done|]. intros [Hq [k Hk]]. by destruct q.
  - rewrite elem_of_cons. split.
    + intros [->|(r & -> & Hr)%list_elem_of_fmap].
      * split; [done|]. by exists p.
      * apply IH in Hr as [_ Hr]. split; [done|]. by apply prefix_cons.
    + intros [Hq Hp]. destruct q as [|y q]; [done|]. pose proof (prefix_cons_inv_1 _ _ _ _ Hp) as ->.
      apply prefix_cons_inv_2 in Hp. destruct q as [|z q]; [by left|]. right.
      apply (list_elem_of_fmap_2 (cons x)). by apply IH.
Qed.

Lemma make_dirs_frame l fs p :
  (make_dirs l fs).1 !! p = fs !! p ∨ p ∈ l ∧ fs !! p = None ∧ (make_dirs l fs).1 !! p = Some Dir.
Proof.
  revert fs. induction l as [|q l IH]; intros fs; cbn [make_dirs]; [by left|].
  destruct (fs !! q) as [[|d]|] eqn:E; [destruct (IH fs) as [?|(?&?&?)]; [by left|right; set_solver]|by left|].
  destruct (IH (<[q := Dir]> fs)) as [H|(Hl & Hn & H)].
  - rewrite H. destruct (decide (q = p)) as [->|Hne]; [|left; by rewrite lookup_insert_ne].
    right. rewrite lookup_insert_eq. split; [set_solver|done].
  - destruct (decide (q = p)) as [->|Hne]; [by rewrite lookup_insert_eq in Hn|]. rewrite lookup_insert_ne in Hn by done.
    right. set_solver.
Qed.

Lemma make_dirs_ok l fs :
  (∀ q d, q ∈ l → fs !! q ≠ Some (File d)) →
  (make_dirs l fs).2 = true ∧ ∀ q, q ∈ l → (make_dirs l fs).1 !! q = Some Dir.
Proof.
  revert fs. induction l as [|q l IH]; intros fs H; cbn [make_dirs]; [split; [done|set_solver]|].
  assert (Hstep : ∀ fs', fs' !! q = Some Dir → (∀ r d, r ∈ l → fs' !! r ≠ Some (File d)) →
    (make_dirs l fs').2 = true ∧ ∀ r, r ∈ q :: l → (make_dirs l fs').1 !! r = Some Dir).
  { intros fs' Hq Hl. destruct (IH fs' Hl) as [H1 H2]. split; [done|]. intros r [->|Hr]%elem_of_cons; [|by apply H2].
    destruct (make_dirs_frame l fs' q) as [->|(_ & Hn & _)]; [done|congruence]. }
  destruct (fs !! q) as [[|d]|] eqn:E.
  - apply Hstep; [done|]. intros r d Hr. apply H. by right.
  - exfalso. apply (H q d); [by left|done].
  - apply Hstep; [by rewrite lookup_insert_eq|]. intros r d Hr. destruct (decide (q = r)) as [->|Hne].
    + by rewrite lookup_insert_eq.
    + rewrite lookup_insert_ne by done. apply H. by right.
Qed.

Lemma lookup_without t kept fs p :
  without t kept fs !! p = if negb (below t p) || kept p then fs !! p else None.
Proof.
  unfold without. destruct (fs !! p) as [n|] eqn:E.
  - case_if; [apply map_lookup_filter_Some; split; [done|by cbn]|].
    apply map_lookup_filter_None. right. intros n' _ Hn. cbn in Hn. congruence.
  - case_if; apply map_lookup_filter_None; by left.
Qed.

(** What a call on behalf of the jail at [root] may do to the files: change
    what lies below, and make the directories that lead to it. *)
Definition confined (root : path) (fs fs' : FS) : Prop :=
  ∀ p, fs' !! p = fs !! p ∨ strictly_below root p ∨ (p `prefix_of` root ∧ fs !! p = None ∧ fs' !! p = Some Dir).

#[global] Instance confined_preorder root : PreOrder (confined root).
Proof.
  split; [by left|]. intros a b c Hab Hbc p.
  destruct (Hab p) as [H|[H|(Hp & Hn & H)]]; [|by right; left|].
  - rewrite <-H. apply Hbc.
  - destruct (Hbc p) as [H'|[H'|(Hp' & Hn' & H')]]; [|by right; left|congruence].
    right. right. split_and!; [done|done|congruence].
Qed.

Lemma make_dirs_confined root t l fs :
  root `prefix_of` t ∨ t `prefix_of` root → (∀ q, q ∈ l → q ∈ prefixes t) → confined root fs (make_dirs l fs).1.
Proof.
  intros Ht Hl p. destruct (make_dirs_frame l fs p) as [H|(Hp & Hn & H)]; [by left|].
  apply Hl, elem_of_prefixes in Hp as [_ Hp].
  destruct (decide (p `prefix_of` root)) as [Hr|Hr]; [by right; right|]. right. left.
  destruct Ht as [Ht|Ht]; [|exfalso; by apply Hr; trans t].
  destruct (prefix_weak_total p root t Hp Ht) as [?|Hrp]; [done|]. split; [done|]. intros ->. by apply Hr.
Qed.

Lemma take_prefixes n t q : q ∈ take n (prefixes t) → q ∈ prefixes t.
Proof. intros H. rewrite <-(take_drop n (prefixes t)), elem_of_app. by left. Qed.

Lemma create_dir_all_confined root t io fs :
  root `prefix_of` t ∨ t `prefix_of` root → confined root fs (create_dir_all io t fs).1.
Proof.
  intros Ht. destruct io as [| |n kept]; cbn [create_dir_all fst]; [by eapply make_dirs_confined|done|].
  eapply make_dirs_confined; [done|apply take_prefixes].
Qed.

Lemma parent_app root rel : rel ≠ [] → root `prefix_of` parent (root ++ rel).
Proof.
  intros Hr. unfold parent. rewrite length_app. rewrite take_app_ge by (destruct rel; simpl in *; [done|lia]).
  by apply prefix_app_r.
Qed.

Lemma insert_confined root t n fs : strictly_below root t → confined root fs (<[t := n]> fs).
Proof. intros Ht p. destruct (decide (t = p)) as [->|Hne]; [by right; left|left; by rewrite lookup_insert_ne]. Qed.

Lemma write_file_confined root t io data fs : strictly_below root t → confined root fs (write_file io t data fs).1.
Proof.
  intros Ht. unfold write_file. case_if; [|done]. destruct io; cbn; [by apply insert_confined|done|by apply insert_confined].
Qed.

Lemma without_confined root t kept fs : strictly_below root t → confined root fs (without t kept fs).
Proof.
  intros Ht p. rewrite lookup_without. case_if; [by left|]. right. left. bools. unfold below in *. bools.
  by eapply strictly_below_under.
Qed.

Lemma remove_path_confined root t io fs : strictly_below root t → confined root fs (remove_path io t fs).1.
Proof.
  intros Ht. unfold remove_path. case_if; [done|].
  destruct (fs !! t) as [[|d]|], io; cbn [fst]; try done; by apply without_confined.
Qed.
Create HintDb confined.
#[export] Hint Resolve insert_confined write_file_confined remove_path_confined create_dir_all_confined strictly_below_app : confined.
