(* ===== verification/StorageLink.v ===== *)
(** * Shared folders: links

    [src/src/storage/sharelink.rs]: the link a folder's owner hands out and what
    its recipient reads from it. A link that is built is read back, in whatever
    address it is pasted. *)
From S2P Require Import Prelude Text Wire StorageDomain.

Record ShareLinkPayload := {
  lp_v : Z; lp_type : string; lp_room_id : string; lp_clock : option Z; lp_cid : option string; lp_key : option string;
  lp_folder_id : option string; lp_folder_name : option string; lp_file_id : option string; lp_file_name : option string;
  lp_owner_node_id : option string; lp_access_grant_mode : option string; lp_folder_key_hash : option string;
  lp_sender_profile : option ShareProfile;
}.

Record ParsedShare := {
  ps_type : string; ps_room_id : string; ps_clock : option Z; ps_cid : option string; ps_folder_id : option string;
  ps_folder_name : option string; ps_file_id : option string; ps_file_name : option string;
  ps_owner_node_id : option string; ps_access_grant_mode : option string; ps_folder_key_hash : option string;
  ps_sender_profile : option ShareProfile;
}.

Record LinkedShare := { ls_key : option string; ls_share : ParsedShare }.

Definition is_blank (value : option string) : bool := is_none_or (λ s, bool_decide (s = "")) value.

Definition validate (p : ShareLinkPayload) : result () Error :=
  if negb (lp_v p =? 1) then Err ["unsupported share link version"] else
  if negb (bool_decide (lp_type p = "folder-share")) && negb (bool_decide (lp_type p = "file-share"))
  then Err ["unsupported share link type"] else
  if bool_decide (lp_room_id p = "") then Err ["roomId is required"] else
  if bool_decide (lp_type p = "folder-share") then
    if is_blank (lp_owner_node_id p) || is_blank (lp_folder_key_hash p) || negb (is_blank (lp_cid p))
       || negb (is_blank (lp_key p))
    then Err ["invalid folder share link"] else Ok tt
  else if is_blank (lp_cid p) || is_blank (lp_key p) then Err ["invalid file share link"] else Ok tt.

(** ** Text of a link *)

Definition extract_token (raw : string) : string :=
  let token := match split_once "#"%char raw with Some (_, t) => t | None => raw end in
  default token (strip_prefix "#" token).

(** [char::to_digit(16)] of a byte. *)
Definition hex_value (c : ascii) : option N :=
  if is_ascii_digit c then Some (N_of_ascii c - 48)%N
  else if in_range "a"%char "f"%char c then Some (N_of_ascii c - 87)%N
  else if in_range "A"%char "F"%char c then Some (N_of_ascii c - 55)%N else None.

(** [String::from_utf8_lossy]: the bytes of the character or of the longest
    broken one at the front, and which of the two it is. *)
Definition cont_in (lo hi : N) (s : string) : bool :=
  match s with String c _ => (lo <=? N_of_ascii c)%N && (N_of_ascii c <=? hi)%N | "" => false end.

Definition utf8_step (s : string) : nat * bool :=
  match s with
  | "" => (1%nat, true)
  | String c s1 =>
      let b := N_of_ascii c in
      let tail lo hi n :=
        if negb (cont_in lo hi s1) then (1%nat, false) else
        match n with
        | 2%nat => (2%nat, true)
        | 3%nat => if cont_in 128 191 (string_drop 1 s1) then (3%nat, true) else (2%nat, false)
        | _ => if negb (cont_in 128 191 (string_drop 1 s1)) then (2%nat, false)
               else if cont_in 128 191 (string_drop 2 s1) then (4%nat, true) else (3%nat, false)
        end in
      if (b <? 128)%N then (1%nat, true)
      else if (194 <=? b)%N && (b <=? 223)%N then tail 128%N 191%N 2%nat
      else if (b =? 224)%N then tail 160%N 191%N 3%nat
      else if (b =? 237)%N then tail 128%N 159%N 3%nat
      else if (225 <=? b)%N && (b <=? 239)%N then tail 128%N 191%N 3%nat
      else if (b =? 240)%N then tail 144%N 191%N 4%nat
      else if (241 <=? b)%N && (b <=? 243)%N then tail 128%N 191%N 4%nat
      else if (b =? 244)%N then tail 128%N 143%N 4%nat
      else (1%nat, false)
  end.

Definition REPLACEMENT : string := bytes [0xEF; 0xBF; 0xBD]%N.

Fixpoint lossy_from (skip : nat) (keep : bool) (s : string) : string :=
  match s with
  | "" => ""
  | String c s' =>
      match skip with
      | S skip => if keep then String c (lossy_from skip keep s') else lossy_from skip keep s'
      | O =>
          let '(n, valid) := utf8_step s in
          if valid then String c (lossy_from (n - 1) true s') else REPLACEMENT +:+ lossy_from (n - 1) false s'
      end
  end.

(** [skip] bytes of an escape are still to be passed over. *)
Fixpoint percent_bytes (skip : nat) (s : string) : string :=
  match s with
  | "" => ""
  | String c s' =>
      match skip with
      | S skip => percent_bytes skip s'
      | O =>
          if bool_decide (c = "+"%char) then String " " (percent_bytes 0 s') else
          if bool_decide (c = "%"%char) then
            match s' with
            | String h (String l _) =>
                match hex_value h, hex_value l with
                | Some h, Some l => String (Ascii.ascii_of_N (N.lor (N.shiftl h 4) l)) (percent_bytes 2 s')
                | _, _ => String c (percent_bytes 0 s')
                end
            | _ => String c (percent_bytes 0 s')
            end
          else String c (percent_bytes 0 s')
      end
  end.

Definition percent_decode (value : string) : string := lossy_from 0 true (percent_bytes 0 value).

Fixpoint find_pair (pairs : list string) (key : string) : option string :=
  match pairs with
  | [] => None
  | item :: pairs =>
      if bool_decide (item = "") then find_pair pairs key else
      let '(k, v) := default (item, "") (split_once "="%char item) in
      if bool_decide (k = key) then Some (percent_decode v) else find_pair pairs key
  end.

Definition find_query_param (query key : string) : option string := find_pair (split_on "&"%char query) key.

(** ** Links *)
Section link.
Context `{C : Crypto} {SL : Serde ShareLinkPayload}.

Definition folder_payload (room_id folder_id folder_name owner_node_id access_grant_mode folder_key_hash sender_name : string)
    : ShareLinkPayload := {|
  lp_v := 1; lp_type := "folder-share"; lp_room_id := room_id; lp_clock := None; lp_cid := None; lp_key := None;
  lp_folder_id := Some folder_id; lp_folder_name := Some folder_name; lp_file_id := None; lp_file_name := None;
  lp_owner_node_id := Some owner_node_id; lp_access_grant_mode := Some access_grant_mode;
  lp_folder_key_hash := Some folder_key_hash; lp_sender_profile := Some {| pf_name := sender_name |};
|}.

Definition build_folder_share_link (room_id folder_id folder_name owner_node_id access_grant_mode folder_key_hash
    sender_name : string) : result string Error :=
  let payload := folder_payload room_id folder_id folder_name owner_node_id access_grant_mode folder_key_hash sender_name in
  validate payload ;;?
  Ok ("#tc-share=" +:+ b64url_encode (ser payload)).

Definition shared (p : ShareLinkPayload) : LinkedShare := {|
  ls_key := lp_key p;
  ls_share := {|
    ps_type := lp_type p; ps_room_id := lp_room_id p; ps_clock := lp_clock p; ps_cid := lp_cid p;
    ps_folder_id := lp_folder_id p; ps_folder_name := lp_folder_name p; ps_file_id := lp_file_id p;
    ps_file_name := lp_file_name p; ps_owner_node_id := lp_owner_node_id p;
    ps_access_grant_mode := lp_access_grant_mode p; ps_folder_key_hash := lp_folder_key_hash p;
    ps_sender_profile := lp_sender_profile p |};
|}.

Definition parse_share_link (raw : string) : result LinkedShare Error :=
  let? encoded := ok_or (find_query_param (extract_token raw) "tc-share") ["tc-share payload not found"] in
  let? decoded := ok_or (b64url_decode encoded) ["decoding tc-share payload"] in
  let? payload := ok_or (de decoded) ["parsing tc-share payload"] in
  validate payload ;;?
  Ok (shared payload).
End link.

(** ** Lemmas *)

(** The alphabet of unpadded base64url. *)
Definition is_b64url (c : ascii) : bool := is_ascii_digit c || is_ascii_alphabetic c || contains ["-"; "_"]%char c.

Lemma b64url_plain c : is_b64url c = true →
  c ≠ "+"%char ∧ c ≠ "%"%char ∧ c ≠ "="%char ∧ c ≠ "&"%char ∧ c ≠ "#"%char ∧ (N_of_ascii c <? 128)%N = true.
Proof. intros H. split_and!; try by intros ->. revert H. by destruct c as [[] [] [] [] [] [] [] []]. Qed.

Lemma percent_decode_b64url s : string_forallb is_b64url s = true → percent_decode s = s.
Proof.
  unfold percent_decode. intros H. assert (Hp : percent_bytes 0 s = s).
  { induction s as [|c s IH]; [done|]. cbn [string_forallb] in H. bools.
    match goal with Hc : is_b64url c = true |- _ => apply b64url_plain in Hc as (?&?&_) end.
    cbn [percent_bytes]. rewrite !bool_decide_false by done. by rewrite IH. }
  rewrite Hp. clear Hp. induction s as [|c s IH]; [done|]. cbn [string_forallb] in H. bools.
  match goal with Hc : is_b64url c = true |- _ => apply b64url_plain in Hc as (_&_&_&_&_&Hc); rename Hc into Ha end.
  cbn [lossy_from]. unfold utf8_step. rewrite Ha. cbn [Nat.sub]. by rewrite IH.
Qed.

Lemma b64url_not c s : c = "&"%char ∨ c = "="%char → string_forallb is_b64url s = true →
  string_forallb (λ a, negb (bool_decide (a = c))) s = true.
Proof.
  intros Hc. apply string_forallb_impl. intros a (_&_&H1&H2&_)%b64url_plain. apply negb_true_iff, bool_decide_eq_false.
  by destruct Hc as [->| ->].
Qed.

Lemma extract_pasted app token :
  string_forallb (λ a, negb (bool_decide (a = "#"%char))) app = true → strip_prefix "#" token = None →
  extract_token (app +:+ String "#"%char token) = token.
Proof. intros Ha Ht. unfold extract_token. rewrite split_once_app by done. cbv beta iota zeta. by rewrite Ht. Qed.

Lemma find_share_token text :
  string_forallb is_b64url text = true → find_query_param ("tc-share=" +:+ text) "tc-share" = Some text.
Proof.
  intros Ht. unfold find_query_param. rewrite split_on_plain.
  - change ("tc-share=" +:+ text) with ("tc-share" +:+ String "="%char text). unfold find_pair.
    rewrite split_once_app by done. cbn. by rewrite percent_decode_b64url.
  - change ("tc-share=" +:+ text) with ("tc-share" +:+ "=" +:+ text).
    rewrite !string_forallb_append. rewrite (b64url_not "&"%char text) by auto. done.
Qed.

(** ** A link is read back *)
Section roundtrip.
Context `{C : Crypto} `{!CryptoLaws C} {SL : Serde ShareLinkPayload}.

(** A folder link that is built is read back as exactly the share it was
    built for, bare or pasted behind the address of any application. *)
Theorem link_roundtrip app room_id folder_id folder_name owner mode hash sender link :
  let p := folder_payload room_id folder_id folder_name owner mode hash sender in
  build_folder_share_link room_id folder_id folder_name owner mode hash sender = Ok link →
  reads_back p → string_forallb is_b64url (b64url_encode (ser p)) = true →
  string_forallb (λ a, negb (bool_decide (a = "#"%char))) app = true →
  parse_share_link link = Ok (shared p) ∧ parse_share_link (app +:+ link) = Ok (shared p)
  ∧ room_id ≠ "" ∧ owner ≠ "" ∧ hash ≠ "".
Proof.
  intros p Hb Hr Ha Happ. unfold build_folder_share_link in Hb. fold p in Hb. apply rbind_Ok in Hb as ([] & Hv & [= <-]).
  assert (Hall : ∀ a, string_forallb (λ a, negb (bool_decide (a = "#"%char))) a = true →
    parse_share_link (a +:+ "#tc-share=" +:+ b64url_encode (ser p)) = Ok (shared p)).
  { intros a Hal. unfold parse_share_link.
    change ("#tc-share=" +:+ b64url_encode (ser p)) with (String "#"%char ("tc-share=" +:+ b64url_encode (ser p))).
    rewrite extract_pasted by done. rewrite find_share_token by done. cbn [ok_or rbind].
    rewrite b64url_roundtrip. cbn [ok_or rbind]. rewrite Hr. cbn [ok_or rbind]. by rewrite Hv. }
  split; [by apply (Hall "")|]. split; [by apply Hall|]. revert Hv. unfold validate, p, folder_payload.
  cbn -[bool_decide]. repeat case_bool_decide; cbn; try done.
Qed.
End roundtrip.
