(* ===== verification/StorageSync.v ===== *)
(** * Shared folders: the requester's sync

    [src/src/storage/folder_sync.rs] with the requester's side of
    [folder_share.rs]: the table of syncs, the plan that brings a directory in
    line with a bundle, the envelopes of the owner, the handshake for a new sync
    and its retries. Every call to the disk and the network takes an input that
    says what became of it; the process may die in any of them. *)
From S2P Require Import Prelude Effects Text Json Wire DmWire IdentityPairing StorageDomain StoragePaths StorageLink.

(** ** The table *)
Definition STATUS_CONNECTING : string := "connecting".
Definition STATUS_SYNCED : string := "synced".
Definition STATUS_ERROR : string := "error".

Record SyncedFile := { sf_file_id : string; sf_folder_id : string; sf_rel_path : string; sf_checksum : string }.

Record SyncEntry := {
  se_folder_id : string; se_folder_name : string; se_owner_node_id : string; se_room_id : string;
  se_folder_key_hash : string; se_folder_key : string; se_share_url : string; se_local_dir : path;
  se_sandbox_dir : string; se_status : string; se_last_cid : option string; se_last_folder_signature : option string;
  se_started_at : string; se_last_synced_at : option string; se_last_clock : Z; se_last_error : option string;
  se_folders : list FolderRecord; se_files : list SyncedFile;
}.

(** The fields the code assigns to an entry in the table; the others stay. *)
Definition with_state (name key status : string) (cid signature synced_at : option string) (clock : Z)
    (error : option string) (folders : list FolderRecord) (files : list SyncedFile) (e : SyncEntry) : SyncEntry := {|
  se_folder_id := se_folder_id e; se_folder_name := name; se_owner_node_id := se_owner_node_id e;
  se_room_id := se_room_id e; se_folder_key_hash := se_folder_key_hash e; se_folder_key := key;
  se_share_url := se_share_url e; se_local_dir := se_local_dir e; se_sandbox_dir := se_sandbox_dir e;
  se_status := status; se_last_cid := cid; se_last_folder_signature := signature; se_started_at := se_started_at e;
  se_last_synced_at := synced_at; se_last_clock := clock; se_last_error := error; se_folders := folders; se_files := files;
|}.

Definition set_failed (message : string) (e : SyncEntry) : SyncEntry :=
  with_state (se_folder_name e) (se_folder_key e) STATUS_ERROR (se_last_cid e) (se_last_folder_signature e)
    (se_last_synced_at e) (se_last_clock e) (Some message) (se_folders e) (se_files e) e.

Definition set_clock (clock : Z) (e : SyncEntry) : SyncEntry :=
  with_state (se_folder_name e) (se_folder_key e) (se_status e) (se_last_cid e) (se_last_folder_signature e)
    (se_last_synced_at e) (Z.max (se_last_clock e) clock) (se_last_error e) (se_folders e) (se_files e) e.

Definition set_signature (signature : option string) (e : SyncEntry) : SyncEntry :=
  with_state (se_folder_name e) (se_folder_key e) (se_status e) (se_last_cid e) signature
    (se_last_synced_at e) (se_last_clock e) (se_last_error e) (se_folders e) (se_files e) e.

Definition without_file (file_id : string) (files : list SyncedFile) : list SyncedFile :=
  List.filter (λ f, negb (bool_decide (sf_file_id f = file_id))) files.

Definition set_files (files : list SyncedFile) (now : string) (e : SyncEntry) : SyncEntry :=
  with_state (se_folder_name e) (se_folder_key e) STATUS_SYNCED (se_last_cid e) (se_last_folder_signature e)
    (Some now) (se_last_clock e) None (se_folders e) files e.

Definition set_resynced (files : list SyncedFile) (folders : list FolderRecord) (cid : string) (signature : option string)
    (now : string) (e : SyncEntry) : SyncEntry :=
  with_state (se_folder_name e) (se_folder_key e) STATUS_SYNCED (Some cid)
    (match signature with Some s => Some s | None => se_last_folder_signature e end)
    (Some now) (se_last_clock e) None folders files e.

Definition set_granted (name key cid now : string) (folders : list FolderRecord) (files : list SyncedFile) (e : SyncEntry)
    : SyncEntry :=
  with_state name key STATUS_SYNCED (Some cid) (se_last_folder_signature e) (Some now) (se_last_clock e) None folders files e.

Definition is_sync (folder_id : string) (e : SyncEntry) : bool := bool_decide (se_folder_id e = folder_id).
Definition find_sync (folder_id : string) (entries : list SyncEntry) : option SyncEntry := List.find (is_sync folder_id) entries.

Fixpoint update_first (folder_id : string) (f : SyncEntry → SyncEntry) (entries : list SyncEntry) : list SyncEntry :=
  match entries with
  | [] => []
  | e :: entries => if is_sync folder_id e then f e :: entries else e :: update_first folder_id f entries
  end.

Fixpoint remove_first (folder_id : string) (entries : list SyncEntry) : option (SyncEntry * list SyncEntry) :=
  match entries with
  | [] => None
  | e :: entries =>
      if is_sync folder_id e then Some (e, entries) else
      match remove_first folder_id entries with Some (r, rest) => Some (r, e :: rest) | None => None end
  end.

(** ** Directories *)

Fixpoint strip_path (root p : path) : option path :=
  match root, p with
  | [], p => Some p
  | x :: root, y :: p => if bool_decide (x = y) then strip_path root p else None
  | _ :: _, [] => None
  end.

(** [s.replace(from, to)] for single bytes. *)
Fixpoint replace_byte (from to : ascii) (s : string) : string :=
  match s with "" => "" | String c s => String (if bool_decide (c = from) then to else c) (replace_byte from to s) end.

Definition sandbox_relative_dir (local_dir sandbox_root : path) : option string :=
  match strip_path sandbox_root local_dir with
  | None | Some [] => None
  | Some rel => Some (replace_byte "\" "/" (join "/" rel))
  end.

(** What an entry looks like outside this part of the program. *)
Definition redact (sandbox_root : path) (e : SyncEntry) : SyncEntry := {|
  se_folder_id := se_folder_id e; se_folder_name := se_folder_name e; se_owner_node_id := se_owner_node_id e;
  se_room_id := se_room_id e; se_folder_key_hash := se_folder_key_hash e; se_folder_key := "";
  se_share_url := se_share_url e; se_local_dir := se_local_dir e;
  se_sandbox_dir := default "" (sandbox_relative_dir (se_local_dir e) sandbox_root);
  se_status := se_status e; se_last_cid := se_last_cid e; se_last_folder_signature := se_last_folder_signature e;
  se_started_at := se_started_at e; se_last_synced_at := se_last_synced_at e; se_last_clock := se_last_clock e;
  se_last_error := se_last_error e; se_folders := se_folders e; se_files := se_files e;
|}.

Definition COLLISION_SUFFIX_LEN : nat := 8.

Definition sandbox_dir_name_for (folder_name folder_id : string) (existing : list SyncEntry) (sandbox_root : path) : string :=
  let base_name := sanitize_name folder_name in
  let collides := existsb (λ e, negb (is_sync folder_id e)
    && bool_decide (sandbox_relative_dir (se_local_dir e) sandbox_root = Some base_name)) existing in
  if collides then base_name +:+ "-" +:+ String.concat "" (take COLLISION_SUFFIX_LEN (chars folder_id)) else base_name.

(** ** Plans *)
Record FetchItem := { fi_file : FileRecord; fi_rel : string; fi_cid : string }.
Record ResyncPlan := {
  pl_reuse : list SyncedFile; pl_fetch : list FetchItem; pl_skipped : list string; pl_remove_paths : list string;
}.
Definition empty_plan : ResyncPlan := {| pl_reuse := []; pl_fetch := []; pl_skipped := []; pl_remove_paths := [] |}.

Definition find_file (file_id : string) (files : list SyncedFile) : option SyncedFile :=
  List.find (λ f, bool_decide (sf_file_id f = file_id)) files.

(** One round of the first loop of [plan_resync]. *)
Definition plan_file (folders : gmap string FolderRecord) (previous_files : list SyncedFile) (plan : ResyncPlan)
    (file : FileRecord) : ResyncPlan :=
  let skip reason := {| pl_reuse := pl_reuse plan; pl_fetch := pl_fetch plan;
    pl_skipped := pl_skipped plan ++ [fl_name file +:+ reason]; pl_remove_paths := pl_remove_paths plan |} in
  if file_deleted file then plan else
  match file_target_rel folders (fl_folder_id file) (fl_name file) with
  | None => skip (": unresolved folder " +:+ fl_folder_id file)
  | Some rel =>
      match content_cid file with
      | None => skip ": no content cid"
      | Some cid =>
          let fetch removed := {| pl_reuse := pl_reuse plan;
            pl_fetch := pl_fetch plan ++ [{| fi_file := file; fi_rel := rel; fi_cid := cid |}];
            pl_skipped := pl_skipped plan; pl_remove_paths := pl_remove_paths plan ++ removed |} in
          match find_file (fl_id file) previous_files with
          | None => fetch []
          | Some previous =>
              if bool_decide (sf_checksum previous = fl_checksum file) && bool_decide (sf_rel_path previous = rel)
              then {| pl_reuse := pl_reuse plan ++ [previous]; pl_fetch := pl_fetch plan; pl_skipped := pl_skipped plan;
                      pl_remove_paths := pl_remove_paths plan |}
              else fetch (if bool_decide (sf_rel_path previous = rel) then [] else [sf_rel_path previous])
          end
      end
  end.

Definition live_ids (files : list FileRecord) : list string := map fl_id (List.filter (λ f, negb (file_deleted f)) files).

Definition plan_resync (bundle_files : list FileRecord) (folders : gmap string FolderRecord) (previous_files : list SyncedFile)
    : ResyncPlan :=
  let plan := foldl (plan_file folders previous_files) empty_plan bundle_files in
  {| pl_reuse := pl_reuse plan; pl_fetch := pl_fetch plan; pl_skipped := pl_skipped plan;
     pl_remove_paths := pl_remove_paths plan
       ++ map sf_rel_path (List.filter (λ f, negb (contains (live_ids bundle_files) (sf_file_id f))) previous_files) |}.

Definition resync_needed (entry : SyncEntry) (new_cid : string) (new_signature : option string) : bool :=
  if negb (bool_decide (se_last_cid entry = Some new_cid)) then true else
  match se_last_folder_signature entry, new_signature with
  | Some old, Some new => negb (bool_decide (old = new))
  | _, _ => false
  end.

(** Whether the envelope is the owner's, in the folder's room, and not older
    than one already accepted. *)
Definition envelope_from_owner (entry : SyncEntry) (e : ShareEnvelope) : bool :=
  bool_decide (en_from e = se_owner_node_id entry) && bool_decide (en_room_id e = se_room_id entry).
Definition envelope_clock_fresh (entry : SyncEntry) (e : ShareEnvelope) : bool :=
  (en_clock e <=? 0) || (se_last_clock entry <? en_clock e).

(** ** Calls

    What became of a call: whether the process survived it, what the disk did,
    the blob the store or the network has for a CID, the texts of the clock and
    of a failure, whether the network call succeeded, what was drawn at random,
    and the envelopes the bus delivered while the call waited. *)
Record Input := {
  alive : bool; io : Io; blob : string → result string Error; time : string; os : string; online : bool;
  drawn : string; heard : list ShareEnvelope;
}.

Record World := { table : list SyncEntry; fs : FS; pos : nat }.
Definition M (A : Type) : Type := prog World Error A.

Definition set_table (t : list SyncEntry) (w : World) : World := {| table := t; fs := fs w; pos := pos w |}.
Definition set_fs (f : FS) (w : World) : World := {| table := table w; fs := f; pos := pos w |}.

Definition with_context {A} (c : string) (m : M A) : M A := λ w,
  match m w with (w, Err (Failed e)) => (w, Err (Failed (c :: e))) | r => r end.

Section sync.
Context `{C : Crypto} {S : Sealing} {HM : Hmac} {T : JsonText} {V : ShareValues}.
Context {SB : Serde FolderBundle} {SX : Serde FileBundle} {SP : Serde EncryptedPayload} {SL : Serde ShareLinkPayload}.
Context (inputs : nat → Input) (me : Identity) (data_dir cwd : path).

(** The call takes effect also where the process dies in it. *)
Definition call {A} (f : Input → World → World * result A Error) : M A := λ w,
  let i := inputs (pos w) in
  let '(w', r) := f i {| table := table w; fs := fs w; pos := Datatypes.S (pos w) |} in
  (w', if alive i then map_err Failed r else Err Crashed).

Definition input : M Input := call (λ i w, (w, Ok i)).

Definition fs_call (g : Io → FS → FS * bool) : M () :=
  call (λ i w, let '(f, ok) := g (io i) (fs w) in (set_fs f w, if ok then Ok tt else Err [os i])).

Definition net_call : M () := call (λ i w, (w, if online i then Ok tt else Err [os i])).

(** ** The table on disk *)

Definition read_entries : M (list SyncEntry) :=
  call (λ i w, (w, match io i with Works => Ok (table w) | _ => Err ["reading folder-syncs.json"; os i] end)).

Definition save_entries (entries : list SyncEntry) : M () :=
  call (λ i w, match io i with Works => (set_table entries w, Ok tt) | _ => (w, Err [os i]) end).

Definition with_entries {R} (f : list SyncEntry → result (R * list SyncEntry) Error) : M R :=
  let! entries := read_entries in
  match f entries with
  | Err e => fail (Failed e)
  | Ok (r, entries) => save_entries entries ;;! ret r
  end.

Definition find_entry (folder_id : string) : M (option SyncEntry) :=
  let! entries := read_entries in ret (find_sync folder_id entries).

Definition update_entry (folder_id : string) (f : SyncEntry → SyncEntry) : M () :=
  with_entries (λ entries, Ok (tt, update_first folder_id f entries)).

(** ** The jail *)

Definition sandbox_new (root : path) : M () := with_context "creating sandbox root" (fs_call (λ o, create_dir_all o root)).

Definition sandbox_remove (root : path) (name : string) : M () :=
  match resolve root name with
  | Err e => fail (Failed e)
  | Ok p => fs_call (λ o, remove_path o p)
  end.

(** ** Applying a bundle *)

Definition fetch_content (cid folder_key : string) : M string :=
  call (λ i w, (w, fetch_file_content (blob i cid) cid folder_key)).

Definition fetch_bundle (cid folder_key : string) : M FolderBundle :=
  call (λ i w, (w, fetch_folder_bundle (blob i cid) cid folder_key)).

(** The content is refused when the record names another checksum. *)
Definition checksum_differs (file : FileRecord) (data : string) : bool :=
  negb (bool_decide (fl_checksum file = "")) && negb (bool_decide (sha256_hex data = fl_checksum file)).

Definition synced_file (file : FileRecord) (rel : string) : SyncedFile := {|
  sf_file_id := fl_id file; sf_folder_id := fl_folder_id file; sf_rel_path := rel; sf_checksum := fl_checksum file |}.

(** One file of the plan: a failure skips the file. *)
Definition fetch_item (local_dir : path) (folder_key : string) (item : FetchItem) : M (list SyncedFile) :=
  let! data := attempted (fetch_content (fi_cid item) folder_key) in
  match data with
  | Err _ => ret []
  | Ok data =>
      if checksum_differs (fi_file item) data then ret [] else
      match resolve local_dir (fi_rel item) with
      | Err _ => ret []
      | Ok target =>
          let! made := attempted (fs_call (λ o, create_dir_all o (parent target))) in
          match made with
          | Err _ => ret []
          | Ok _ =>
              let! written := attempted (fs_call (λ o, write_file o target data)) in
              match written with
              | Err _ => ret []
              | Ok _ => ret [synced_file (fi_file item) (fi_rel item)]
              end
          end
      end
  end.

Fixpoint collect {A B} (f : A → M (list B)) (l : list A) : M (list B) :=
  match l with
  | [] => ret []
  | x :: l => let! ys := f x in let! zs := collect f l in ret (ys ++ zs)
  end.

Definition remove_stale (local_dir : path) (rel : string) : M (list ()) :=
  attempted (E := Error) (F := Error) (sandbox_remove local_dir rel) ;;! ret [].

Definition sync_bundle (local_dir : path) (folder_key : string) (bundle : FolderBundle) (previous_files : list SyncedFile)
    : M (list SyncedFile * list FolderRecord) :=
  sandbox_new local_dir ;;!
  let folders_map := build_folder_map bundle in
  let plan := plan_resync (bu_files bundle) folders_map previous_files in
  let! fetched := collect (fetch_item local_dir folder_key) (pl_fetch plan) in
  collect (remove_stale local_dir) (pl_remove_paths plan) ;;!
  ret (pl_reuse plan ++ fetched, (map_to_list folders_map).*2).

Definition now : M string := let! i := input in ret (time i).

Definition full_resync (entry : SyncEntry) (cid : string) (signature : option string) : M () :=
  let! bundle := with_context ("fetching folder bundle " +:+ cid) (fetch_bundle cid (se_folder_key entry)) in
  let! synced := sync_bundle (se_local_dir entry) (se_folder_key entry) bundle (se_files entry) in
  let! at_ := now in
  update_entry (se_folder_id entry) (set_resynced synced.1 synced.2 cid signature at_).

(** ** Applying a single change *)

Definition apply_file_delete (entry : SyncEntry) (e : ShareEnvelope) : M () :=
  let file_id := match en_file_id e with Some i => Some i | None => fl_id <$> en_file e end in
  match non_empty file_id with
  | None => ret tt
  | Some file_id =>
      match find_file file_id (se_files entry) with
      | None => ret tt
      | Some previous =>
          sandbox_new (se_local_dir entry) ;;!
          attempted (F := Error) (sandbox_remove (se_local_dir entry) (sf_rel_path previous)) ;;!
          let! at_ := now in
          update_entry (se_folder_id entry) (λ e, set_files (without_file file_id (se_files e)) at_ e)
      end
  end.

Definition apply_file_upsert (entry : SyncEntry) (e : ShareEnvelope) : M () :=
  match en_file e with
  | None => ret tt
  | Some file =>
      if bool_decide (fl_id file = "") then ret tt else
      if file_deleted file then apply_file_delete entry e else
      match file_target_rel (folder_map_from_records (se_folders entry)) (fl_folder_id file) (fl_name file) with
      | None => fail (Failed ["file " +:+ fl_name file +:+ ": unknown folder " +:+ fl_folder_id file +:+ " in local sync tree"])
      | Some rel =>
          match content_cid file with
          | None => fail (Failed ["file " +:+ fl_name file +:+ ": no content cid"])
          | Some cid =>
              let! data := with_context ("fetching " +:+ fl_name file) (fetch_content cid (se_folder_key entry)) in
              if checksum_differs file data then fail (Failed ["file " +:+ fl_name file +:+ ": checksum mismatch"]) else
              sandbox_new (se_local_dir entry) ;;!
              (match find_file (fl_id file) (se_files entry) with
               | Some previous =>
                   if bool_decide (sf_rel_path previous = rel) then ret tt
                   else attempted (F := Error) (sandbox_remove (se_local_dir entry) (sf_rel_path previous)) ;;! ret tt
               | None => ret tt
               end) ;;!
              let! target := with_context ("resolving " +:+ rel) (lift (resolve (se_local_dir entry) rel)) in
              with_context "creating the directory" (fs_call (λ o, create_dir_all o (parent target))) ;;!
              with_context "writing the file" (fs_call (λ o, write_file o target data)) ;;!
              let! at_ := now in
              update_entry (se_folder_id entry)
                (λ e, set_files (without_file (fl_id file) (se_files e) ++ [synced_file file rel]) at_ e)
          end
      end
  end.

Definition handle_folder_change (entry : SyncEntry) (e : ShareEnvelope) : M () :=
  match en_change_type e with
  | Some kind =>
      if bool_decide (kind = "file-upserted") then apply_file_upsert entry e else
      if bool_decide (kind = "file-deleted") then apply_file_delete entry e else
      if bool_decide (kind = "folder-upserted") || bool_decide (kind = "folder-deleted") then
        match non_empty (en_cid e) with
        | Some cid => full_resync entry cid (en_folder_signature e)
        | None => ret tt
        end
      else ret tt
  | None => ret tt
  end.

Definition handle_folder_state (entry : SyncEntry) (e : ShareEnvelope) : M () :=
  match non_empty (en_cid e) with
  | None => ret tt
  | Some cid =>
      let signature := en_folder_signature e in
      if resync_needed entry cid signature then full_resync entry cid signature
      else if negb (is_some (se_last_folder_signature entry)) && is_some signature
      then update_entry (se_folder_id entry) (set_signature signature) else ret tt
  end.

(** ** Envelopes of the bus *)

Definition moves_state (e : ShareEnvelope) : bool :=
  bool_decide (en_type e = "folder-change") || bool_decide (en_type e = "folder-state")
  || bool_decide (en_type e = "folder-share").

Definition apply_envelope (entry : SyncEntry) (e : ShareEnvelope) : M () :=
  if bool_decide (en_type e = "folder-change") then handle_folder_change entry e else
  if bool_decide (en_type e = "folder-state") || bool_decide (en_type e = "folder-share")
  then handle_folder_state entry e else ret tt.

(** A failure is recorded on the entry; its own failure is ignored. *)
Definition record_failure (folder_id : string) (message : Error → string) (m : M ()) : M () :=
  let! result := attempted (F := Error) m in
  match result with
  | Ok _ => ret tt
  | Err error =>
      attempted (F := Error) (update_entry folder_id (set_failed (message error))) ;;!
      fail (Failed error)
  end.

Definition outermost (e : Error) : string := default "" (head e).
Definition chain (e : Error) : string := join ": " e.

Definition handle_envelope (e : ShareEnvelope) : M () :=
  match en_folder_id e with
  | None => ret tt
  | Some folder_id =>
      let! found := find_entry folder_id in
      match found with
      | None => ret tt
      | Some entry =>
          if negb (envelope_from_owner entry e) then ret tt else
          if negb (envelope_clock_fresh entry e) then ret tt else
          (if (0 <? en_clock e) && moves_state e then update_entry folder_id (set_clock (en_clock e)) else ret tt) ;;!
          record_failure folder_id outermost (apply_envelope entry e)
      end
  end.

(** ** The handshake and its retries *)

(** [request_and_await_grant] on the envelopes delivered until the deadline. *)
Fixpoint await_grant (owner request_id folder_id key_hash secret : string) (heard : list ShareEnvelope)
    : result (string * option string) Error :=
  match heard with
  | [] => Err ["timed out waiting for owner approval"]
  | e :: heard =>
      let answers := bool_decide (en_request_id e = Some request_id) in
      if bool_decide (en_type e = "folder-access-denied") && answers && bool_decide (en_from e = owner)
      then Err ["owner denied the access request"] else
      if negb (bool_decide (en_type e = "folder-access-grant")) || negb answers || negb (bool_decide (en_from e = owner))
      then await_grant owner request_id folder_id key_hash secret heard else
      match en_access_grant_public_key e, en_access_grant_iv e, en_access_grant_cipher_text e with
      | Some public_key, Some iv, Some cipher_text =>
          let? key := context "decrypt grant" (decrypt_folder_key_grant cipher_text iv secret public_key) in
          if matches_folder_key_hash folder_id key key_hash then Ok (key, en_cid e)
          else Err ["granted folder key failed hash verification"]
      | _, _, _ => await_grant owner request_id folder_id key_hash secret heard
      end
  end.

Fixpoint await_folder_state_cid (folder_id : string) (heard : list ShareEnvelope) : result string Error :=
  match heard with
  | [] => Err ["timed out waiting for folder-state"]
  | e :: heard =>
      if bool_decide (en_type e = "folder-state") && bool_decide (en_folder_id e = Some folder_id) then
        match non_empty (en_cid e) with
        | Some cid => Ok cid
        | None => await_folder_state_cid folder_id heard
        end
      else await_folder_state_cid folder_id heard
  end.

(** Joins the room and greets it; the greeting may fail. *)
Definition join_room (c : string) : M () := with_context c net_call ;;! attempted (F := Error) net_call ;;! ret tt.

Definition access_request (entry : SyncEntry) (request_id sent_at secret : string) : ShareEnvelope := {|
  en_type := "folder-access-request"; en_from := did me; en_room_id := se_room_id entry; en_sent_at := sent_at;
  en_clock := 0; en_change_type := None; en_folder_signature := None; en_folder_id := Some (se_folder_id entry);
  en_folder_name := Some (se_folder_name entry); en_folder := None; en_file_id := None; en_file_name := None;
  en_file := None; en_cid := None; en_owner_node_id := None; en_access_grant_mode := Some "owner";
  en_folder_key_hash := Some (se_folder_key_hash entry); en_target_node_id := Some (se_owner_node_id entry);
  en_request_id := Some request_id; en_sender_profile := Some {| pf_name := "mistl" |};
  en_access_public_key := Some (access_public_key secret); en_access_grant_public_key := None;
  en_access_grant_iv := None; en_access_grant_cipher_text := None; en_access_grant_proof := None; en_signature := None;
|}.

Definition run_initial_handshake (entry : SyncEntry) : M () :=
  join_room "folder-sync: joining share room" ;;!
  net_call ;;! (* the identity *)
  net_call ;;! (* the owner appears *)
  let! key_input := input in
  let! id_input := input in
  let secret := drawn key_input in
  let request_id := "access-" +:+ time id_input +:+ "-" +:+ drawn id_input in
  let! _ := lift (sign_envelope (access_request entry request_id (time id_input) secret) me) in
  net_call ;;! (* the request is sent *)
  let! waited := input in
  let! grant := lift (await_grant (se_owner_node_id entry) request_id (se_folder_id entry) (se_folder_key_hash entry)
                        secret (heard waited)) in
  let folder_key := grant.1 in
  let! cid := match non_empty grant.2 with
              | Some cid => ret cid
              | None => let! i := input in lift (await_folder_state_cid (se_folder_id entry) (heard i))
              end in
  let! bundle := fetch_bundle cid folder_key in
  let folder_name := default "shared-folder"
    (List.find (λ s, negb (blank s)) [fd_name (bu_folder bundle); se_folder_name entry]) in
  let! synced := sync_bundle (se_local_dir entry) folder_key bundle [] in
  let! at_ := now in
  update_entry (se_folder_id entry) (set_granted folder_name folder_key cid at_ synced.2 synced.1).

Definition run_resync (entry : SyncEntry) : M () :=
  join_room "folder-sync: rejoining share room" ;;!
  let! i := input in
  let! cid := match await_folder_state_cid (se_folder_id entry) (heard i) with
              | Ok cid => ret cid
              | Err e =>
                  match se_last_cid entry with
                  | Some cid => ret cid
                  | None => fail (Failed ["folder-sync: owner did not respond and no known folder state to retry against"])
                  end
              end in
  full_resync entry cid None.

Definition retry_sync_once (folder_id : string) : M () :=
  let! found := find_entry folder_id in
  match found with
  | None => ret tt
  | Some entry =>
      if bool_decide (se_status entry = STATUS_SYNCED) then ret tt else
      record_failure folder_id chain
        (if bool_decide (se_folder_key entry = "") then run_initial_handshake entry else run_resync entry)
  end.

(** ** Commands *)

(** The share a link asks for: owner, folder id, key hash and the share. *)
Definition requested_share (share_url : string) : result (string * string * string * ParsedShare) Error :=
  let? linked := parse_share_link share_url in
  let share := ls_share linked in
  if negb (bool_decide (ps_type share = "folder-share")) then Err ["not a folder-share link"] else
  let? owner := ok_or (non_empty (ps_owner_node_id share)) ["share link missing ownerNodeId"] in
  if negb (is_ed25519_did_key owner) then Err ["share owner is not a valid did:key"] else
  let? folder_id := ok_or (non_empty (ps_folder_id share)) ["share link missing folderId"] in
  let? key_hash := ok_or (non_empty (ps_folder_key_hash share)) ["share link missing folderKeyHash"] in
  if blank (ps_room_id share) then Err ["share link missing roomId"] else
  Ok (owner, folder_id, key_hash, share).

Definition shared_name (share : ParsedShare) : string :=
  match ps_folder_name share with
  | Some n => if blank n then "shared-folder" else n
  | None => "shared-folder"
  end.

Definition sandbox_root : path := data_dir ++ ["sandbox"].

(** The directory of a new sync: the one asked for, or one of its own below
    the sandbox of the daemon ([sandbox_root.join(dir_name)]). *)
Definition sync_dir (share_name folder_id : string) (local_dir : option string) (existing : list SyncEntry) : path :=
  match non_empty (trim <$> local_dir) with
  | Some dir => absolute cwd dir
  | None => absolute sandbox_root (sandbox_dir_name_for share_name folder_id existing sandbox_root)
  end.

Definition new_entry (owner folder_id key_hash share_url name room started_at : string) (dir : path) : SyncEntry := {|
  se_folder_id := folder_id; se_folder_name := name; se_owner_node_id := owner; se_room_id := room;
  se_folder_key_hash := key_hash; se_folder_key := ""; se_share_url := share_url; se_local_dir := dir;
  se_sandbox_dir := ""; se_status := STATUS_CONNECTING; se_last_cid := None; se_last_folder_signature := None;
  se_started_at := started_at; se_last_synced_at := None; se_last_clock := 0; se_last_error := None;
  se_folders := []; se_files := [];
|}.

Definition already_syncing (folder_id : string) : Error := ["already syncing folder " +:+ folder_id].

Definition register_sync (share_url : string) (local_dir : option string) : M SyncEntry :=
  let! requested := lift (requested_share share_url) in
  let '(owner, folder_id, key_hash, share) := requested in
  let! existing := read_entries in
  if is_some (find_sync folder_id existing) then fail (Failed (already_syncing folder_id)) else
  let folder_name := shared_name share in
  let dir := sync_dir folder_name folder_id local_dir existing in
  sandbox_new dir ;;!
  let! at_ := now in
  let entry := new_entry owner folder_id key_hash share_url folder_name (ps_room_id share) at_ dir in
  with_entries (λ entries,
    if is_some (find_sync folder_id entries) then Err (already_syncing folder_id) else Ok (tt, entries ++ [entry])) ;;!
  ret (redact sandbox_root entry).

Definition list_syncs : M (list SyncEntry) :=
  let! entries := read_entries in ret (map (redact sandbox_root) entries).

Definition stop_sync (folder_id : string) : M bool :=
  let! removed := with_entries (λ entries,
    match remove_first folder_id entries with
    | None => Ok (None, entries)
    | Some (e, rest) => Ok (Some e, rest)
    end) in
  match removed with
  | None => ret false
  | Some _ => attempted (F := Error) net_call ;;! ret true
  end.

(** ** Histories

    The operations run one after the other; one that dies is followed by those
    of the next process. *)
Inductive Op :=
| Envelope (e : ShareEnvelope)
| Retry (folder_id : string)
| Register (share_url : string) (local_dir : option string)
| Stop (folder_id : string).

Definition run_op (o : Op) (w : World) : World :=
  match o with
  | Envelope e => (handle_envelope e w).1
  | Retry folder_id => (retry_sync_once folder_id w).1
  | Register share_url local_dir => (register_sync share_url local_dir w).1
  | Stop folder_id => (stop_sync folder_id w).1
  end.

Definition run (ops : list Op) (w : World) : World := foldl (λ w o, run_op o w) w ops.
End sync.

(** ** A concrete instance

    The blob of a CID is a payload whose plaintext is the CID; the content of a
    file is the CID it is fetched from. *)
Module SyncToy.
Export Wire.Toy ToySeal.

#[global] Instance hmac : Hmac := {| hmac_sha256 k m := k +:+ m |}.
#[global] Instance json_text : JsonText := {| to_vec _ := ""; from_slice _ := None |}.
#[global] Instance share_values : ShareValues := {| folder_value _ := JNull; file_value _ := JNull |}.

Definition payload_of (text : string) : EncryptedPayload := {|
  ep_version := 1; ep_algorithm := "AES-GCM"; ep_kdf := "PBKDF2-SHA256"; ep_iterations := ITERATIONS;
  ep_salt := "0123456789abcdef"; ep_iv := "0123456789ab";
  ep_cipher_text := gcm_encrypt (pbkdf2 "key" "0123456789abcdef" ITERATIONS) "0123456789ab" text |}.
#[global] Instance serde_payload : Serde EncryptedPayload := {| ser _ := ""; de s := payload_of <$> strip_prefix "P:" s |}.

Definition folder (id name : string) (parent : option string) : FolderRecord := {|
  fd_id := id; fd_name := name; fd_parent_id := parent; fd_sort_order := None; fd_color := "slate"; fd_encrypted := true;
  fd_share_enabled := true; fd_shared_room_id := "room"; fd_last_cid := None; fd_last_saved_at := None;
  fd_last_shared_at := None; fd_deleted_at := None; fd_created_at := "t"; fd_updated_at := "t"; fd_field_versions := None |}.

Definition file (id folder_id name cid : string) : FileRecord := {|
  fl_id := id; fl_folder_id := folder_id; fl_sort_order := None; fl_name := name; fl_mime_type := "text/plain"; fl_size := 1;
  fl_data_url := Some ("data:text/plain;base64," +:+ cid); fl_checksum := sha256_hex cid; fl_version := 1; fl_starred := false;
  fl_last_cid := Some cid; fl_last_share_cid := None; fl_deleted_at := None; fl_created_at := "t"; fl_updated_at := "t";
  fl_field_versions := None |}.

#[global] Instance serde_file : Serde FileBundle := {| ser _ := ""; de s := Some {|
  xb_version := 1; xb_exported_at := "t"; xb_origin_node := "n"; xb_folder := folder "f" "Docs" None;
  xb_file := file "x" "f" "x" s |} |}.

Definition bundle (files : list FileRecord) : FolderBundle := {|
  bu_version := 1; bu_exported_at := "t"; bu_origin_node := "n"; bu_folder := folder "f" "Docs" None;
  bu_folders := Some [folder "sub" "notes" (Some "f")]; bu_files := files |}.

(** States of the folder: in the second the file [a] is gone, [c] is new, and
    [b] has moved into the folder of notes; in the others a new file has the
    name of [a]. *)
Definition first_bundle : FolderBundle := bundle [file "a" "f" "a.txt" "one"; file "b" "f" "b.txt" "two"].
Definition second_bundle : FolderBundle := bundle [file "c" "f" "c.txt" "three"; file "b" "sub" "b.txt" "two"].
Definition swapped_bundle : FolderBundle := bundle [file "c" "f" "a.txt" "three"; file "b" "f" "b.txt" "two"].
#[global] Instance serde_bundle : Serde FolderBundle := {| ser _ := ""; de s :=
  if bool_decide (s = "first") then Some first_bundle else if bool_decide (s = "second") then Some second_bundle
  else if bool_decide (s = "swapped") || bool_decide (s = "swapped_again") then Some swapped_bundle else None |}.

(** A link to a folder with an id that is a path, under the name of another. *)
Definition evil_payload : ShareLinkPayload :=
  folder_payload "room" "/../../." "Docs" (did alice) "owner" "hash" "mallory".
#[global] Instance serde_link : Serde ShareLinkPayload := {| ser _ := "evil"; de s :=
  if bool_decide (s = "evil") then Some evil_payload else None |}.

(** Everything works. *)
Definition calm (n : nat) : Input := {|
  alive := true; io := Works; blob cid := Ok ("P:" +:+ cid); time := "now"; os := "error"; online := true; drawn := "d"; heard := [] |}.

Definition home_dir : path := ["data"; "sandbox"; "Docs"].
Definition entry : SyncEntry := {|
  se_folder_id := "f"; se_folder_name := "Docs"; se_owner_node_id := did alice; se_room_id := "room";
  se_folder_key_hash := "hash"; se_folder_key := "key"; se_share_url := "url"; se_local_dir := home_dir;
  se_sandbox_dir := ""; se_status := STATUS_SYNCED; se_last_cid := None; se_last_folder_signature := None;
  se_started_at := "t"; se_last_synced_at := None; se_last_clock := 0; se_last_error := None; se_folders := []; se_files := [] |}.

Definition announce (cid : string) (clock : Z) : ShareEnvelope :=
  let e := envelope "folder-state" (did alice) "room" "t" clock in {|
  en_type := en_type e; en_from := en_from e; en_room_id := en_room_id e; en_sent_at := en_sent_at e;
  en_clock := en_clock e; en_change_type := None; en_folder_signature := None; en_folder_id := Some "f";
  en_folder_name := None; en_folder := None; en_file_id := None; en_file_name := None; en_file := None;
  en_cid := Some cid; en_owner_node_id := None; en_access_grant_mode := None; en_folder_key_hash := None;
  en_target_node_id := None; en_request_id := None; en_sender_profile := None; en_access_public_key := None;
  en_access_grant_public_key := None; en_access_grant_iv := None; en_access_grant_cipher_text := None;
  en_access_grant_proof := None; en_signature := None |}.

Definition start : World := {| table := [entry]; fs := ∅; pos := 0 |}.
Definition first_day : list Op := [Envelope (announce "first" 5)].

Definition after (ops : list Op) (w : World) : World := run calm alice ["data"] [] ops w.

Example first_sync :
  fs (after first_day start) !! (home_dir ++ ["a.txt"]) = Some (File "one")
  ∧ fs (after first_day start) !! (home_dir ++ ["b.txt"]) = Some (File "two").
Proof. by vm_compute. Qed.

Example second_sync :
  let w := after (first_day ++ [Envelope (announce "second" 6)]) start in
  fs w !! (home_dir ++ ["a.txt"]) = None ∧ fs w !! (home_dir ++ ["c.txt"]) = Some (File "three")
  ∧ fs w !! (home_dir ++ ["notes"; "b.txt"]) = Some (File "two") ∧ fs w !! (home_dir ++ ["b.txt"]) = None.
Proof. by vm_compute. Qed.
End SyncToy.
