(* ===== verification/StorageSyncSafety.v ===== *)
(** * Shared folders: what a sync may touch and whom it obeys

    Theorems on [StorageSync]: whatever arrives, whatever fails and wherever
    the process dies, only the directory a sync was registered with changes for
    it; and of the envelopes that are handled only the owner's in the room of the
    folder, and among those with a clock only newer ones, move a sync. *)
From S2P Require Import Prelude Effects Text Wire DmWire IdentityPairing StorageDomain StoragePaths StorageLink StorageSync.

(** ** What an operation on one sync keeps *)

(** A later state of the same sync: what it was registered with stays, and the
    clock does not go back. *)
Definition entry_le (e e' : SyncEntry) : Prop :=
  se_folder_id e' = se_folder_id e ∧ se_owner_node_id e' = se_owner_node_id e ∧ se_room_id e' = se_room_id e
  ∧ se_folder_key_hash e' = se_folder_key_hash e ∧ se_local_dir e' = se_local_dir e
  ∧ se_share_url e' = se_share_url e ∧ se_started_at e' = se_started_at e ∧ se_last_clock e ≤ se_last_clock e'.

#[global] Instance entry_le_preorder : PreOrder entry_le.
Proof.
  split; [intros e; split_and!; done|]. intros a b c (?&?&?&?&?&?&?&?) (?&?&?&?&?&?&?&?).
  unfold entry_le. split_and!; try congruence. lia.
Qed.

(** The tables before and after: the same syncs, all but [id] unchanged. *)
Definition entry_moved (id : string) (e e' : SyncEntry) : Prop :=
  entry_le e e' ∧ (se_folder_id e ≠ id → e' = e).
Definition table_moved (id : string) : list SyncEntry → list SyncEntry → Prop := Forall2 (entry_moved id).

#[global] Instance entry_moved_preorder id : PreOrder (entry_moved id).
Proof.
  split; [by intros e|]. intros a b c [Hab Eab] [Hbc Ebc]. split; [by trans b|]. intros H.
  rewrite <-(Eab H). apply Ebc. destruct Hab as [-> _]. done.
Qed.
#[global] Instance table_moved_preorder id : PreOrder (table_moved id).
Proof. unfold table_moved. apply _. Qed.

Lemma find_moved id id' t t' e :
  table_moved id t t' → find_sync id' t = Some e → ∃ e', find_sync id' t' = Some e' ∧ entry_moved id e e'.
Proof.
  unfold find_sync. induction 1 as [|x y t t' Hxy _ IH]; [done|]. cbn [List.find].
  assert (Hid : is_sync id' y = is_sync id' x) by (unfold is_sync; by destruct Hxy as [[-> _] _]). rewrite Hid.
  destruct (is_sync id' x); [intros [= <-]; eauto|done].
Qed.

Lemma find_moved_none id id' t t' : table_moved id t t' → find_sync id' t = None → find_sync id' t' = None.
Proof.
  unfold find_sync. induction 1 as [|x y t t' Hxy _ IH]; [done|]. cbn [List.find].
  assert (Hid : is_sync id' y = is_sync id' x) by (unfold is_sync; by destruct Hxy as [[-> _] _]). rewrite Hid.
  by destruct (is_sync id' x).
Qed.

Lemma find_sync_id id t e : find_sync id t = Some e → e ∈ t ∧ se_folder_id e = id.
Proof. unfold find_sync. intros [H1 H2]%find_elem. split; [done|]. unfold is_sync in H2. by bools. Qed.

Lemma update_first_moved id f t : (∀ e, entry_le e (f e)) → table_moved id t (update_first id f t).
Proof.
  intros Hf. induction t as [|e t IH]; cbn [update_first]; [constructor|].
  destruct (is_sync id e) eqn:E.
  - constructor; [|done]. split; [done|]. unfold is_sync in E. by bools.
  - by constructor.
Qed.

Lemma find_sync_update id f t e : (∀ e, se_folder_id (f e) = se_folder_id e) →
  find_sync id t = Some e → find_sync id (update_first id f t) = Some (f e).
Proof.
  intros Hf. unfold find_sync. induction t as [|x t IH]; [done|]. cbn [List.find update_first].
  destruct (is_sync id x) eqn:E; cbn [List.find].
  - intros [= <-]. unfold is_sync in *. by rewrite Hf, E.
  - rewrite E. apply IH.
Qed.

Lemma with_state_le name key status cid sig at_ clock err folders files e :
  se_last_clock e ≤ clock → entry_le e (with_state name key status cid sig at_ clock err folders files e).
Proof. intros H. split_and!; done. Qed.

Lemma set_le :
  (∀ m e, entry_le e (set_failed m e)) ∧ (∀ c e, entry_le e (set_clock c e)) ∧ (∀ s e, entry_le e (set_signature s e))
  ∧ (∀ fs n e, entry_le e (set_files fs n e)) ∧ (∀ fs ds c s n e, entry_le e (set_resynced fs ds c s n e))
  ∧ (∀ n k c t ds fs e, entry_le e (set_granted n k c t ds fs e)).
Proof. split_and!; intros; apply with_state_le; lia. Qed.

Section safety.
Context `{C : Crypto} {S : Sealing} {HM : Hmac} {T : JsonText} {V : ShareValues}.
Context {SB : Serde FolderBundle} {SX : Serde FileBundle} {SP : Serde EncryptedPayload} {SL : Serde ShareLinkPayload}.
Context (inputs : nat → Input) (me : Identity) (data_dir cwd : path).

(** ** Confinement *)

(** What an operation on the sync [id] in [dir] does. *)
Definition moved (dir : path) (id : string) (w w' : World) : Prop :=
  confined dir (fs w) (fs w') ∧ table_moved id (table w) (table w').

#[global] Instance moved_preorder dir id : PreOrder (moved dir id).
Proof.
  split; [intros w; by split|]. intros a b c [H1 H2] [H3 H4]. split; [by trans (fs b)|by trans (table b)].
Qed.

Section one.
Context (dir : path) (id : string).
Notation keeps := (keeps (E := Error) (moved dir id)).

Lemma keeps_call {A} (f : Input → World → World * result A Error) :
  (∀ i w, moved dir id w (f i w).1) → keeps (call inputs f).
Proof.
  intros Hf w. unfold call. pose proof (Hf (inputs (pos w)) {| table := table w; fs := fs w; pos := Datatypes.S (pos w) |}) as H.
  destruct (f _ _) as [w' r]. exact H.
Qed.

Lemma keeps_pure_call {A} (f : Input → World → result A Error) : keeps (call inputs (λ i w, (w, f i w))).
Proof. apply keeps_call. by intros i w. Qed.

Lemma keeps_fs_call g : (∀ o f, confined dir f (g o f).1) → keeps (fs_call inputs g).
Proof.
  intros Hg. apply keeps_call. intros i w. specialize (Hg (io i) (fs w)). destruct (g (io i) (fs w)) as [f ok].
  split; [exact Hg|cbn; reflexivity].
Qed.

Lemma keeps_context {A} c (m : M A) : keeps m → keeps (with_context c m).
Proof. intros Hm w. specialize (Hm w). unfold with_context. destruct (m w) as [w' [a|[e| |]]]; exact Hm. Qed.

Lemma keeps_input : keeps (input inputs).
Proof. apply keeps_pure_call. Qed.
Lemma keeps_net : keeps (net_call inputs).
Proof. apply keeps_pure_call. Qed.
Lemma keeps_content cid key : keeps (fetch_content inputs cid key).
Proof. apply keeps_pure_call. Qed.
Lemma keeps_bundle cid key : keeps (fetch_bundle inputs cid key).
Proof. apply keeps_pure_call. Qed.
Lemma keeps_read : keeps (read_entries inputs).
Proof. apply keeps_pure_call. Qed.
Lemma keeps_now : keeps (now inputs).
Proof. unfold now. pose proof keeps_input. keeps. Qed.

Lemma keeps_update f : (∀ e, entry_le e (f e)) → keeps (update_entry inputs id f).
Proof.
  intros Hf w. unfold update_entry, with_entries, bind, read_entries, call. cbn.
  destruct (alive (inputs (pos w))); [|by split]. destruct (io (inputs (pos w))); cbn; [|by split..].
  unfold save_entries, call. cbn. destruct (io (inputs (Datatypes.S (pos w)))); cbn.
  - assert (Hm : moved dir id w {| table := update_first id f (table w); fs := fs w; pos := Datatypes.S (Datatypes.S (pos w)) |}).
    { split; [done|]. by apply update_first_moved. }
    by destruct (alive _).
  - by destruct (alive _).
  - by destruct (alive _).
Qed.

Lemma keeps_sandbox_new : keeps (sandbox_new inputs dir).
Proof. apply keeps_context, keeps_fs_call. intros o f. apply create_dir_all_confined. by left. Qed.

Lemma keeps_sandbox_remove name : keeps (sandbox_remove inputs dir name).
Proof.
  unfold sandbox_remove. destruct (resolve dir name) as [p|e] eqn:E; [|keeps].
  apply resolve_inside in E as (rel & -> & Hr & _). apply keeps_fs_call. intros o f. eauto with confined.
Qed.

(** Making the directories of a resolved path and writing there. *)
Lemma keeps_write rel t data :
  resolve dir rel = Ok t →
  keeps (fs_call inputs (λ o, create_dir_all o (parent t))) ∧ keeps (fs_call inputs (λ o, write_file o t data)).
Proof.
  intros (r & -> & Hr & _)%resolve_inside. split; apply keeps_fs_call; intros o f.
  - apply create_dir_all_confined. left. by apply parent_app.
  - eauto with confined.
Qed.

Lemma keeps_collect {A B} (f : A → M (list B)) l : (∀ x, keeps (f x)) → keeps (collect f l).
Proof. intros Hf. induction l as [|x l IH]; cbn [collect]; keeps. Qed.
End one.
#[local] Hint Resolve keeps_input keeps_net keeps_content keeps_bundle keeps_read keeps_now keeps_sandbox_new
  keeps_sandbox_remove keeps_context : keeps.

Lemma keeps_fetch_item dir id key item : keeps (moved dir id) (fetch_item inputs dir key item).
Proof.
  unfold fetch_item. apply keeps_bind; [apply _|keeps|intros [data|e]; [|keeps]].
  destruct (checksum_differs _ _); [keeps|]. destruct (resolve dir (fi_rel item)) as [t|] eqn:E; [|keeps].
  destruct (keeps_write dir id _ _ data E) as [H1 H2]. keeps.
Qed.

Lemma keeps_sync_bundle dir id key bundle previous : keeps (moved dir id) (sync_bundle inputs dir key bundle previous).
Proof.
  unfold sync_bundle, remove_stale. pose proof (keeps_fetch_item dir id). keeps.
  - apply keeps_collect. auto.
  - apply keeps_collect. intros rel. keeps.
Qed.

(** The operations on an entry change its own directory and its own row. *)
Section entry.
Context (entry : SyncEntry).
Notation R := (moved (se_local_dir entry) (se_folder_id entry)).

Lemma keeps_set f : (∀ e, entry_le e (f e)) → keeps R (update_entry inputs (se_folder_id entry) f).
Proof. apply keeps_update. Qed.

Lemma keeps_lifted {A B} c (r : result A Error) (k : A → M B) :
  (∀ a, r = Ok a → keeps R (k a)) → keeps R (bind (with_context c (lift r)) k).
Proof. intros H w. destruct r as [a|e]; [exact (H a eq_refl w)|cbn; reflexivity]. Qed.

Lemma keeps_full_resync cid sig : keeps R (full_resync inputs entry cid sig).
Proof.
  unfold full_resync. pose proof (keeps_sync_bundle (se_local_dir entry) (se_folder_id entry)). keeps.
  apply keeps_set, set_le.
Qed.

Lemma keeps_delete e : keeps R (apply_file_delete inputs entry e).
Proof.
  unfold apply_file_delete. keeps. apply keeps_set. intros x. apply set_le.
Qed.

Lemma keeps_upsert e : keeps R (apply_file_upsert inputs entry e).
Proof.
  unfold apply_file_upsert. pose proof (keeps_delete e).
  destruct (en_file e) as [file|]; [|keeps]. destruct (bool_decide _); [keeps|]. destruct (file_deleted file); [keeps|].
  destruct (file_target_rel _ _ _) as [rel|]; [|keeps]. destruct (content_cid file) as [cid|]; [|keeps].
  apply keeps_bind; [apply _|keeps|intros data]. destruct (checksum_differs _ _); [keeps|].
  apply keeps_bind; [apply _|keeps|intros _]. apply keeps_bind; [apply _|keeps|intros _].
  apply keeps_lifted. intros t E.
  destruct (keeps_write (se_local_dir entry) (se_folder_id entry) _ _ data E) as [H1 H2]. keeps.
  apply keeps_set. intros x. apply set_le.
Qed.

Lemma keeps_apply e : keeps R (apply_envelope inputs entry e).
Proof.
  unfold apply_envelope, handle_folder_change, handle_folder_state.
  pose proof keeps_full_resync. pose proof (keeps_upsert e). pose proof (keeps_delete e).
  keeps. apply keeps_set, set_le.
Qed.

Lemma keeps_recorded message m : keeps R m → keeps R (record_failure inputs (se_folder_id entry) message m).
Proof. intros Hm. unfold record_failure. keeps. apply keeps_set, set_le. Qed.

Lemma keeps_join c : keeps R (join_room inputs c).
Proof. unfold join_room. keeps. Qed.

Lemma keeps_handshake : keeps R (run_initial_handshake inputs me entry).
Proof.
  unfold run_initial_handshake. pose proof keeps_join. pose proof (keeps_sync_bundle (se_local_dir entry) (se_folder_id entry)).
  keeps. apply keeps_set, set_le.
Qed.

Lemma keeps_resync : keeps R (run_resync inputs entry).
Proof. unfold run_resync. pose proof keeps_join. pose proof keeps_full_resync. keeps. Qed.
End entry.

(** ** Whole operations *)

(** What [find_entry] returns is in the table. *)
Lemma find_entry_run id w :
  find_entry inputs id w =
    ({| table := table w; fs := fs w; pos := Datatypes.S (pos w) |},
     if alive (inputs (pos w)) then
       match io (inputs (pos w)) with
       | Works => Ok (find_sync id (table w))
       | _ => Err (Failed ["reading folder-syncs.json"; os (inputs (pos w))])
       end
     else Err Crashed).
Proof. unfold find_entry, bind, read_entries, call. cbn. destruct (alive _); [|done]. by destruct (io _). Qed.

(** An operation that looks up its sync first. *)
Lemma lookup_moved {A} id (k : option SyncEntry → M A) w :
  (∀ w', (k None w').1 = w') →
  (∀ entry, find_sync id (table w) = Some entry → keeps (moved (se_local_dir entry) id) (k (Some entry))) →
  match find_sync id (table w) with
  | Some entry => moved (se_local_dir entry) id w (bind (find_entry inputs id) k w).1
  | None => fs (bind (find_entry inputs id) k w).1 = fs w ∧ table (bind (find_entry inputs id) k w).1 = table w
  end.
Proof.
  intros Hn Hs. unfold bind. rewrite find_entry_run.
  assert (Hrefl : match find_sync id (table w) with
    | Some entry => moved (se_local_dir entry) id w {| table := table w; fs := fs w; pos := Datatypes.S (pos w) |}
    | None => True end) by (by destruct (find_sync id (table w))).
  destruct (alive _); [|by destruct (find_sync id (table w))].
  destruct (io _); [|by destruct (find_sync id (table w))..].
  destruct (find_sync id (table w)) as [entry|]; [|by rewrite Hn].
  exact (Hs entry eq_refl {| table := table w; fs := fs w; pos := Datatypes.S (pos w) |}).
Qed.

Lemma bind_world {A B} (m : M A) (k : A → M B) w :
  (bind m k w).1 = match (m w).2 with Ok a => (k a (m w).1).1 | Err _ => (m w).1 end.
Proof. unfold bind. by destruct (m w) as [w' [a|e]]. Qed.

Lemma envelope_moved e id w : en_folder_id e = Some id →
  match find_sync id (table w) with
  | Some entry => moved (se_local_dir entry) id w (handle_envelope inputs e w).1
  | None => fs (handle_envelope inputs e w).1 = fs w ∧ table (handle_envelope inputs e w).1 = table w
  end.
Proof.
  intros Hid. unfold handle_envelope. rewrite Hid. apply lookup_moved; [done|].
  intros entry [_ <-]%find_sync_id. pose proof (keeps_recorded entry). pose proof (keeps_apply entry).
  keeps. apply keeps_set, set_le.
Qed.

Lemma retry_moved id w :
  match find_sync id (table w) with
  | Some entry => moved (se_local_dir entry) id w (retry_sync_once inputs me id w).1
  | None => fs (retry_sync_once inputs me id w).1 = fs w ∧ table (retry_sync_once inputs me id w).1 = table w
  end.
Proof.
  unfold retry_sync_once. apply lookup_moved; [done|].
  intros entry [_ <-]%find_sync_id. pose proof (keeps_handshake entry). pose proof (keeps_resync entry).
  destruct (bool_decide _); [keeps|]. apply keeps_recorded. keeps.
Qed.

Lemma with_entries_run {R} (f : list SyncEntry → result (R * list SyncEntry) Error) w :
  fs (with_entries inputs f w).1 = fs w
  ∧ (table (with_entries inputs f w).1 = table w
     ∨ ∃ r t, f (table w) = Ok (r, t) ∧ table (with_entries inputs f w).1 = t).
Proof.
  unfold with_entries. rewrite bind_world. unfold read_entries, call. cbn.
  destruct (alive _); cbn; [|eauto]. destruct (io _); cbn; [|eauto..].
  destruct (f (table w)) as [[r t]|e] eqn:E; [|cbn; eauto]. rewrite bind_world. unfold save_entries, call. cbn.
  destruct (io _); cbn; (destruct (alive _); cbn; split; [done|eauto|done|eauto]).
Qed.

Lemma moved_absent id t t' : find_sync id t = None → table_moved id t t' → t' = t.
Proof.
  intros Hf. induction 1 as [|x y t t' [_ Hxy] _ IH]; [done|]. unfold find_sync, is_sync in *. cbn [List.find] in Hf.
  case_bool_decide; [done|]. by rewrite Hxy, IH.
Qed.

(** A registration makes the directory of the new sync and adds its row. *)
Lemma register_moved url local_dir w :
  let w' := (register_sync inputs data_dir cwd url local_dir w).1 in
  (fs w' = fs w ∧ table w' = table w)
  ∨ ∃ owner id hash share, requested_share url = Ok (owner, id, hash, share) ∧ find_sync id (table w) = None ∧
    let dir := sync_dir data_dir cwd (shared_name share) id local_dir (table w) in
    confined dir (fs w) (fs w') ∧
    (table w' = table w ∨ ∃ at_, table w' = table w ++ [new_entry owner id hash url (shared_name share) (ps_room_id share) at_ dir]).
Proof.
  cbv zeta. unfold register_sync. rewrite bind_world.
  destruct (requested_share url) as [[[[owner id] hash] share]|e]; cbn [lift ret fst snd]; [|by left].
  rewrite bind_world. unfold read_entries, call. cbn [fst snd]. destruct (alive _); [|by left].
  destruct (io _); [|by left..]. cbn [map_err fst snd table fs pos].
  destruct (find_sync id (table w)) eqn:Hf; cbn [is_some]; [by (left; cbn; split)|]. right. exists owner, id, hash, share.
  split; [done|]. split; [done|]. set (dir := sync_dir _ _ _ _ _ _). set (w1 := {| table := table w |}).
  assert (Hq : ∀ A (m : M A) w0, keeps (moved dir id) m → table w0 = table w → confined dir (fs w) (fs w0) →
    table (m w0).1 = table w ∧ confined dir (fs w) (fs (m w0).1)).
  { intros A m w0 Hm Ht Hc. destruct (Hm w0) as [H1 H2]. split; [|by trans (fs w0)].
    rewrite Ht in H2. exact (moved_absent id _ _ Hf H2). }
  rewrite bind_world. destruct (Hq _ (sandbox_new inputs dir) w1) as [T1 C1]; [apply keeps_sandbox_new|done|done|].
  destruct (sandbox_new inputs dir w1) as [w2 [[]|]]; cbn [fst snd] in *; [|by split; [|left]].
  rewrite bind_world. destruct (Hq _ (now inputs) w2) as [T2 C2]; [apply keeps_now|done|done|].
  destruct (now inputs w2) as [w3 [at_|]]; cbn [fst snd] in *; [|by split; [|left]].
  rewrite bind_world. set (f := λ entries : list SyncEntry, _). destruct (with_entries_run f w3) as [Hfs Ht].
  assert (Hend : confined dir (fs w) (fs (with_entries inputs f w3).1) ∧
    (table (with_entries inputs f w3).1 = table w ∨ ∃ at_, table (with_entries inputs f w3).1
       = table w ++ [new_entry owner id hash url (shared_name share) (ps_room_id share) at_ dir])).
  { rewrite Hfs. split; [done|]. destruct Ht as [->|(r & t & Hr & ->)]; [by left|]. unfold f in Hr. rewrite T2, Hf in Hr.
    injection Hr as _ <-. right. eauto. }
  by destruct (with_entries inputs f w3) as [w4 [[]|]].
Qed.

Lemma stop_moved id w :
  let w' := (stop_sync inputs id w).1 in
  fs w' = fs w ∧ (table w' = table w ∨ ∃ e rest, remove_first id (table w) = Some (e, rest) ∧ table w' = rest).
Proof.
  cbv zeta. unfold stop_sync. rewrite bind_world. set (f := λ entries : list SyncEntry, _).
  destruct (with_entries_run f w) as [Hfs Ht].
  assert (Hend : fs (with_entries inputs f w).1 = fs w ∧ (table (with_entries inputs f w).1 = table w
    ∨ ∃ e rest, remove_first id (table w) = Some (e, rest) ∧ table (with_entries inputs f w).1 = rest)).
  { split; [done|]. destruct Ht as [->|(r & t & Hr & ->)]; [by left|]. unfold f in Hr.
    destruct (remove_first id (table w)) as [[e rest]|]; injection Hr as _ <-; [right|left]; eauto. }
  destruct (with_entries inputs f w) as [w1 [[e|]|]]; cbn [fst snd] in *; [|done..].
  rewrite bind_world. unfold attempted, net_call, call. cbn. destruct (alive _); [|done]. by destruct (online _).
Qed.

(** ** Histories *)

(** The link names its folder by an id whose first characters are no path. *)
Definition plain_link (url : string) : bool :=
  match requested_share url with
  | Ok (_, id, _, _) => string_forallb not_slash (String.concat "" (take COLLISION_SUFFIX_LEN (chars id)))
  | Err _ => true
  end.

(** The directory an operation works in: that of the sync it is about, or the one
    a registration makes. *)
Definition dir_of (id : string) (t : list SyncEntry) : list path :=
  match find_sync id t with Some entry => [se_local_dir entry] | None => [] end.

Definition op_dirs (o : Op) (w : World) : list path :=
  match o with
  | Envelope e => match en_folder_id e with Some id => dir_of id (table w) | None => [] end
  | Retry id => dir_of id (table w)
  | Register url local_dir =>
      match requested_share url with
      | Ok (_, id, _, share) => [sync_dir data_dir cwd (shared_name share) id local_dir (table w)]
      | Err _ => []
      end
  | Stop _ => []
  end.

(** The directories a history works in. *)
Fixpoint run_dirs (ops : list Op) (w : World) : list path :=
  match ops with
  | [] => []
  | o :: ops => op_dirs o w ++ run_dirs ops (run_op inputs me data_dir cwd o w)
  end.

(** A directory a registration of [ops] chose: the one the user named, or one
    below the sandbox when the link is plain. *)
Definition registered (ops : list Op) (d : path) : Prop :=
  ∃ url local_dir, Register url local_dir ∈ ops ∧
    match non_empty (trim <$> local_dir) with
    | Some named => d = absolute cwd named
    | None => plain_link url = true → strictly_below (sandbox_root data_dir) d
    end.

Definition confined_in (D : path → Prop) (f f' : FS) : Prop :=
  ∀ p, f' !! p = f !! p ∨ (∃ r, D r ∧ strictly_below r p) ∨ (∃ r, D r ∧ p `prefix_of` r ∧ f !! p = None ∧ f' !! p = Some Dir).

Lemma confined_in_one (D : path → Prop) r f f' : D r → confined r f f' → confined_in D f f'.
Proof. intros Hr Hc p. destruct (Hc p) as [?|[?|?]]; eauto. Qed.

Lemma confined_in_mono (D D' : path → Prop) f f' : (∀ r, D r → D' r) → confined_in D f f' → confined_in D' f f'.
Proof. intros Hm Hc p. destruct (Hc p) as [?|[(r & ? & ?)|(r & ? & ?)]]; [by left|right; left|right; right]; exists r; split; auto. Qed.

Lemma confined_in_trans D f g h : confined_in D f g → confined_in D g h → confined_in D f h.
Proof.
  intros Hab Hbc p. destruct (Hab p) as [H|[H|(r & Hr & Hp & Hn & H)]]; [|by right; left|].
  - rewrite <-H. apply Hbc.
  - destruct (Hbc p) as [H'|[H'|(r' & _ & _ & Hn' & _)]]; [|by right; left|congruence].
    right. right. exists r. split_and!; [done|done|done|congruence].
Qed.

Lemma absolute_safe root s : safe_component s = true → absolute root s = root ++ [s].
Proof.
  unfold safe_component. intros H. bools. unfold absolute, components. rewrite split_on_plain by done.
  assert (Hs : starts_with "/" s = false).
  { destruct s as [|c s]; [done|]. unfold starts_with. cbn [String.prefix]. destruct (Ascii.ascii_dec "/" c) as [<-|]; [|done].
    match goal with H : string_forallb _ _ = true |- _ => by cbn in H end. }
  rewrite Hs, bool_decide_false by done. cbn [app map concat]. unfold component_of. by rewrite !bool_decide_false.
Qed.

Lemma dashed b s : b ≠ "" → b +:+ "-" +:+ s ≠ "" ∧ b +:+ "-" +:+ s ≠ "." ∧ b +:+ "-" +:+ s ≠ "..".
Proof. destruct b as [|c [|c' [|c'' b]]]; [done|..]; intros _; split_and!; by intros [=]. Qed.

Lemma dir_name_safe name id existing root :
  string_forallb not_slash (String.concat "" (take COLLISION_SUFFIX_LEN (chars id))) = true →
  safe_component (sandbox_dir_name_for name id existing root) = true.
Proof.
  intros Hid. unfold sandbox_dir_name_for. destruct (sanitize_name_spec name) as [Hs _].
  destruct (existsb _ _); [|done]. set (suffix := String.concat "" _) in *.
  unfold safe_component in *. bools. rewrite !string_forallb_append, Hid.
  match goal with H : string_forallb _ (sanitize_name name) = true |- _ => rewrite H end.
  destruct (dashed (sanitize_name name) suffix) as (?&?&?); [done|]. by rewrite !bool_decide_false.
Qed.

Lemma sync_dir_registered ops url owner id hash share existing local_dir :
  requested_share url = Ok (owner, id, hash, share) → Register url local_dir ∈ ops →
  registered ops (sync_dir data_dir cwd (shared_name share) id local_dir existing).
Proof.
  intros Hu Ho. exists url, local_dir. split; [done|]. unfold sync_dir. destruct (non_empty _) as [d|]; [done|].
  unfold plain_link. rewrite Hu. intros Hp. rewrite absolute_safe by (by apply dir_name_safe). by apply strictly_below_app.
Qed.

Lemma remove_first_sub id t e rest : remove_first id t = Some (e, rest) → ∀ x, x ∈ rest → x ∈ t.
Proof.
  revert e rest. induction t as [|y t IH]; intros e rest; cbn [remove_first]; [done|].
  destruct (is_sync id y); [intros [= <- <-] x Hx; by right|].
  destruct (remove_first id t) as [[r rest']|]; [|done]. intros [= <- <-] x [->|Hx]%elem_of_cons; [by left|].
  right. by eapply IH.
Qed.

(** An operation changes what is in its directory, and makes the way to it. *)
Lemma op_confined o w : confined_in (λ d, d ∈ op_dirs o w) (fs w) (fs (run_op inputs me data_dir cwd o w)).
Proof.
  assert (Hmoved : ∀ id w', match find_sync id (table w) with
    | Some entry => moved (se_local_dir entry) id w w' | None => fs w' = fs w ∧ table w' = table w end →
    confined_in (λ d, d ∈ dir_of id (table w)) (fs w) (fs w')).
  { unfold dir_of. intros id w'. destruct (find_sync id (table w)) as [entry|] eqn:E; [|intros [-> _] p; by left]. intros [Hc _].
    eapply confined_in_one; [|exact Hc]. apply list_elem_of_here. }
  destruct o as [e|id|url local_dir|id]; cbn [run_op op_dirs].
  - destruct (en_folder_id e) as [id|] eqn:E; [apply (Hmoved id), envelope_moved; done|].
    unfold handle_envelope. rewrite E. intros p. by left.
  - apply (Hmoved id), retry_moved.
  - destruct (register_moved url local_dir w) as [[-> _]|(owner & id & hash & share & Hu & _ & Hc & _)]; [intros p; by left|].
    rewrite Hu. eapply confined_in_one; [|exact Hc]. apply list_elem_of_here.
  - destruct (stop_moved id w) as [-> _]. by left.
Qed.

Lemma moved_dirs (P : path → Prop) id t t' :
  table_moved id t t' → Forall (λ e, P (se_local_dir e)) t → Forall (λ e, P (se_local_dir e)) t'.
Proof.
  intros Hm. induction Hm as [|x y t t' Hxy _ IH]; [done|]. intros [Hx Ht]%Forall_cons. constructor; [|by apply IH].
  by destruct Hxy as [(_&_&_&_&->&_) _].
Qed.

(** Every directory of a sync, and every directory an operation works in, was
    there at the start or is one a registration chose. *)
Definition known (start : list SyncEntry) (ops : list Op) (d : path) : Prop := d ∈ map se_local_dir start ∨ registered ops d.

Lemma op_known start all o w :
  Forall (λ e, known start all (se_local_dir e)) (table w) → o ∈ all →
  Forall (known start all) (op_dirs o w) ∧
  Forall (λ e, known start all (se_local_dir e)) (table (run_op inputs me data_dir cwd o w)).
Proof.
  intros Hk Ho.
  assert (Hof : ∀ id, Forall (known start all) (dir_of id (table w))).
  { intros id. unfold dir_of. destruct (find_sync id (table w)) as [entry|] eqn:E; [|done]. apply find_sync_id in E as [Hin _].
    constructor; [|done]. exact (proj1 (Forall_forall _ _) Hk _ Hin). }
  assert (Hmoved : ∀ id w', match find_sync id (table w) with
    | Some entry => moved (se_local_dir entry) id w w' | None => fs w' = fs w ∧ table w' = table w end →
    Forall (λ e, known start all (se_local_dir e)) (table w')).
  { intros id w'. destruct (find_sync id (table w)) as [entry|]; [|by intros [_ ->]]. intros [_ Ht]. by eapply moved_dirs. }
  destruct o as [e|id|url local_dir|id]; cbn [run_op op_dirs].
  - destruct (en_folder_id e) as [id|] eqn:E.
    + split; [apply Hof|]. apply (Hmoved id). by apply envelope_moved.
    + split; [done|]. unfold handle_envelope. by rewrite E.
  - split; [apply Hof|]. apply (Hmoved id), retry_moved.
  - assert (Hreg : ∀ owner id hash share, requested_share url = Ok (owner, id, hash, share) →
      known start all (sync_dir data_dir cwd (shared_name share) id local_dir (table w))).
    { intros owner id hash share Hu. right. by eapply sync_dir_registered. }
    split; [destruct (requested_share url) as [[[[owner id] hash] share]|]; [|done]; constructor; [by eapply Hreg|done]|].
    destruct (register_moved url local_dir w) as [[_ ->]|(owner & id & hash & share & Hu & _ & _ & Ht)]; [done|].
    destruct Ht as [->|[at_ ->]]; [done|]. apply Forall_app. split; [done|]. constructor; [by eapply Hreg|done].
  - split; [done|]. destruct (stop_moved id w) as [_ [->|(e & rest & Hr & ->)]]; [done|]. apply Forall_forall. intros x Hx.
    apply (proj1 (Forall_forall _ _) Hk). by eapply remove_first_sub.
Qed.

Lemma run_confined ops w : confined_in (λ d, d ∈ run_dirs ops w) (fs w) (fs (run inputs me data_dir cwd ops w)).
Proof.
  unfold run. revert w. induction ops as [|o ops IH]; intros w; cbn [foldl run_dirs]; [intros p; by left|].
  eapply confined_in_trans; [eapply confined_in_mono; [|apply op_confined]|eapply confined_in_mono; [|apply IH]];
    intros d Hd; cbn beta in *; apply elem_of_app; auto.
Qed.

Lemma run_known start all ops w :
  Forall (λ e, known start all (se_local_dir e)) (table w) → (∀ o, o ∈ ops → o ∈ all) → Forall (known start all) (run_dirs ops w).
Proof.
  revert w. induction ops as [|o ops IH]; intros w Hk Hall; cbn [run_dirs]; [done|].
  destruct (op_known start all o w Hk) as [Hd Hk']; [apply Hall; by left|]. apply Forall_app. split; [done|].
  apply IH; [done|]. intros o' ?. apply Hall. by right.
Qed.

(** C8: whatever envelopes arrive, whatever the owners publish, whatever the disk
    and the network do and wherever the process dies, every path a history of
    syncs changes lies below the directory of the sync the operation was about,
    or is a directory made on the way to it. These directories are those of the
    syncs there were at the start and those the registrations chose: the one the
    user named, or else one below the sandbox, provided that the folder id in
    the link does not begin as a path ([link_escapes_sandbox] is a link whose
    id does). *)
Theorem sync_confined ops w :
  (∀ p, fs (run inputs me data_dir cwd ops w) !! p = fs w !! p
      ∨ (∃ d, d ∈ run_dirs ops w ∧ strictly_below d p)
      ∨ (∃ d, d ∈ run_dirs ops w ∧ p `prefix_of` d ∧ fs w !! p = None ∧ fs (run inputs me data_dir cwd ops w) !! p = Some Dir))
  ∧ ∀ d, d ∈ run_dirs ops w → d ∈ map se_local_dir (table w) ∨ registered ops d.
Proof.
  split; [apply run_confined|]. apply Forall_forall. apply run_known; [|done].
  apply Forall_forall. intros e He. left. apply list_elem_of_fmap. by exists e.
Qed.

(** ** Whom a sync obeys *)

Lemma remove_first_other id id' t e rest :
  id ≠ id' → remove_first id t = Some (e, rest) → find_sync id' rest = find_sync id' t.
Proof.
  intros Hne. unfold find_sync. revert e rest. induction t as [|y t IH]; intros e rest; cbn [remove_first List.find]; [done|].
  destruct (is_sync id y) eqn:E.
  - intros [= <- <-]. unfold is_sync in *. bools. by rewrite bool_decide_false by congruence.
  - destruct (remove_first id t) as [[r rest']|] eqn:Er; [|done]. intros [= <- <-]. cbn [List.find].
    by rewrite (IH _ _ eq_refl).
Qed.

Lemma find_app id t x e : find_sync id t = Some e → find_sync id (t ++ [x]) = Some e.
Proof.
  unfold find_sync. induction t as [|y t IH]; [done|]. cbn. destruct (is_sync id y); [done|apply IH].
Qed.

Lemma op_keeps_sync id o w entry :
  find_sync id (table w) = Some entry → o ≠ Stop id →
  ∃ entry', find_sync id (table (run_op inputs me data_dir cwd o w)) = Some entry' ∧ entry_le entry entry'.
Proof.
  intros Hf Ho.
  assert (Hsame : ∀ w', table w' = table w → ∃ entry', find_sync id (table w') = Some entry' ∧ entry_le entry entry').
  { intros w' ->. exists entry. by split. }
  assert (Hmoved : ∀ id' w', match find_sync id' (table w) with
    | Some e => moved (se_local_dir e) id' w w' | None => fs w' = fs w ∧ table w' = table w end →
    ∃ entry', find_sync id (table w') = Some entry' ∧ entry_le entry entry').
  { intros id' w'. destruct (find_sync id' (table w)); [|intros []; by apply Hsame]. intros [_ Ht].
    destruct (find_moved _ _ _ _ _ Ht Hf) as (e' & He' & Hle & _). eauto. }
  destruct o as [e|id'|url local_dir|id']; cbn [run_op].
  - destruct (en_folder_id e) as [id'|] eqn:E; [apply (Hmoved id'), envelope_moved; done|].
    apply Hsame. unfold handle_envelope. by rewrite E.
  - apply (Hmoved id'), retry_moved.
  - destruct (register_moved url local_dir w) as [[_ H]|(? & ? & ? & ? & _ & _ & _ & Ht)]; [by apply Hsame|].
    destruct Ht as [H|[at_ ->]]; [by apply Hsame|]. exists entry. split; [by apply find_app|done].
  - destruct (stop_moved id' w) as [_ [H|(e & rest & Hr & ->)]]; [by apply Hsame|]. exists entry. split; [|done].
    rewrite (remove_first_other id' id _ _ _ ltac:(congruence) Hr). done.
Qed.

Lemma run_keeps_sync id ops w entry :
  find_sync id (table w) = Some entry → Stop id ∉ ops →
  ∃ entry', find_sync id (table (run inputs me data_dir cwd ops w)) = Some entry' ∧ entry_le entry entry'.
Proof.
  unfold run. revert w entry. induction ops as [|o ops IH]; intros w entry Hf Ho; cbn [foldl]; [by exists entry|].
  apply not_elem_of_cons in Ho as [Hne Ho].
  destruct (op_keeps_sync id o w entry Hf) as (e1 & H1 & L1); [done|].
  destruct (IH _ _ H1 Ho) as (e2 & H2 & L2). exists e2. split; [done|by trans e1].
Qed.

Definition accepts (entry : SyncEntry) (e : ShareEnvelope) : bool := envelope_from_owner entry e && envelope_clock_fresh entry e.

(** What happens to an envelope after the look-up: it is dropped, or applied
    after its clock is recorded. *)
Lemma handle_cases e id w : en_folder_id e = Some id →
  let w' := (handle_envelope inputs e w).1 in
  (fs w' = fs w ∧ table w' = table w)
  ∨ ∃ entry, find_sync id (table w) = Some entry ∧ accepts entry e = true ∧
    (fs w' = fs w
     ∨ ∃ w1 entry1, w' = (record_failure inputs id outermost (apply_envelope inputs entry e) w1).1 ∧ fs w1 = fs w
         ∧ find_sync id (table w1) = Some entry1 ∧ (0 < en_clock e → moves_state e = true → en_clock e ≤ se_last_clock entry1)).
Proof.
  intros Hid. cbv zeta. unfold handle_envelope. rewrite Hid, bind_world, find_entry_run. cbn [fst snd].
  destruct (alive _); [|by left]. destruct (io _); [|by left..]. cbn [fst snd].
  destruct (find_sync id (table w)) as [entry|] eqn:Hf; [|by left].
  destruct (envelope_from_owner entry e) eqn:Ho; [|by left]. destruct (envelope_clock_fresh entry e) eqn:Hc; [|by left].
  cbn [negb]. right. exists entry. split; [done|]. split; [by unfold accepts; rewrite Ho, Hc|].
  rewrite bind_world. set (w0 := {| table := table w; fs := fs w; pos := _ |}).
  destruct ((0 <? en_clock e) && moves_state e) eqn:Hm.
  - destruct (update_entry inputs id (set_clock (en_clock e)) w0) as [w1 r] eqn:Hu.
    pose proof (with_entries_run (λ entries, Ok (tt, update_first id (set_clock (en_clock e)) entries)) w0) as [Hfs _].
    change (with_entries _ _ w0) with (update_entry inputs id (set_clock (en_clock e)) w0) in Hfs. rewrite Hu in *. cbn [fst snd] in *.
    destruct r as [[]|]; [|by left]. right. exists w1, (set_clock (en_clock e) entry). split_and!; [done|done| |].
    + revert Hu. unfold update_entry, with_entries, bind, read_entries, save_entries, call, w0. cbn.
      destruct (alive _); [|done]. destruct (io _); [|done..]. destruct (io _); (destruct (alive _); [|done]); try done.
      intros [= <-]. cbn [table]. by apply find_sync_update.
    + intros _ _. cbn. lia.
  - right. exists w0, entry. split_and!; [done|done|done|]. intros H1 H2. rewrite H2, andb_true_r in Hm. bools. lia.
Qed.

Lemma still_envelope entry e w : moves_state e = false → apply_envelope inputs entry e w = (w, Ok tt).
Proof.
  unfold moves_state, apply_envelope. intros H. bools.
  repeat match goal with H : bool_decide _ = false |- _ => apply bool_decide_eq_false in H end.
  by rewrite !bool_decide_false by done.
Qed.

(** Handling the envelope changes neither a file nor the table. *)
Definition ignored (e : ShareEnvelope) (w : World) : Prop :=
  fs (handle_envelope inputs e w).1 = fs w ∧ table (handle_envelope inputs e w).1 = table w.

(** An envelope that is not accepted changes nothing. *)
Lemma refused_ignored e id entry w :
  en_folder_id e = Some id → find_sync id (table w) = Some entry → accepts entry e = false → ignored e w.
Proof.
  intros Hid Hf Ha. destruct (handle_cases e id w Hid) as [?|(entry' & Hf' & Ha' & _)]; [done|congruence].
Qed.

(** C35: an envelope that is handled changes files only when its sender is the
    owner of the folder and its room that of the folder. If it carries a clock
    (a clock of 0, which owners without one send, is not checked), the clock is
    past every clock accepted before; and once the envelope has changed a file -
    even where the process died over it -, handling an envelope changes nothing
    any more when it carries a clock no later than this one, or has another
    sender or another room, whatever happens in between, until the sync is
    stopped. This is about envelopes that are handled; the handshake of a retry
    takes its answer from anyone ([stranger_rolls_back] of [StorageMirror]). *)
Theorem sync_obeys_owner e w :
  let w1 := (handle_envelope inputs e w).1 in
  fs w1 ≠ fs w →
  ∃ id entry, en_folder_id e = Some id ∧ find_sync id (table w) = Some entry
    ∧ en_from e = se_owner_node_id entry ∧ en_room_id e = se_room_id entry
    ∧ (0 < en_clock e → se_last_clock entry < en_clock e ∧
       ∀ ops e', Stop id ∉ ops → en_folder_id e' = Some id →
         (0 < en_clock e' ≤ en_clock e ∨ en_from e' ≠ en_from e ∨ en_room_id e' ≠ en_room_id e) →
         ignored e' (run inputs me data_dir cwd ops w1)).
Proof.
  intros w1 Hfs. destruct (en_folder_id e) as [id|] eqn:Hid.
  2: { exfalso. apply Hfs. unfold w1, handle_envelope. by rewrite Hid. }
  destruct (handle_cases e id w Hid) as [[? _]|(entry & Hf & Ha & Hc)]; [done|].
  exists id, entry. unfold accepts, envelope_from_owner, envelope_clock_fresh in Ha. bools. split_and!; [done..|].
  intros Hpos. assert (Hlt : se_last_clock entry < en_clock e).
  { match goal with H : _ ∨ _ |- _ => destruct H end; bools; lia. }
  split; [done|]. intros ops e' Hstop Hid' Hold.
  destruct Hc as [?|(wa & entry1 & Hw & Hfa & Hf1 & Hclk)]; [done|].
  destruct (moves_state e) eqn:Hm.
  2: { exfalso. apply Hfs. unfold w1. rewrite Hw. unfold record_failure. rewrite bind_world. unfold attempted.
    by rewrite still_envelope. }
  assert (He1 : ∃ entry', find_sync id (table w1) = Some entry' ∧ entry_le entry1 entry').
  { apply find_sync_id in Hf as [_ <-].
    destruct (keeps_recorded entry outermost _ (keeps_apply entry e) wa) as [_ Ht].
    fold (fst (record_failure inputs (se_folder_id entry) outermost (apply_envelope inputs entry e) wa)) in Ht. rewrite <-Hw in Ht.
    destruct (find_moved _ _ _ _ _ Ht Hf1) as (x & Hx & Hle & _). eauto. }
  destruct He1 as (e1 & Hf2 & L1). destruct (run_keeps_sync id ops w1 e1 Hf2 Hstop) as (e2 & Hf3 & L2).
  apply (refused_ignored e' id e2); [done|done|].
  assert (Hmv : ∃ e0, find_sync id (table w1) = Some e0 ∧ entry_moved id entry e0).
  { pose proof (envelope_moved e id w Hid) as Hmv. rewrite Hf in Hmv. destruct Hmv as [_ Ht]. by apply (find_moved _ _ _ _ _ Ht). }
  destruct Hmv as (e0 & Hf4 & [L0 _]). rewrite Hf2 in Hf4. injection Hf4 as <-.
  unfold accepts, envelope_from_owner, envelope_clock_fresh.
  destruct L0 as (_&Ow&Rm&_), L1 as (_&_&_&_&_&_&_&Lc1), L2 as (_&Ow2&Rm2&_&_&_&_&Lc2).
  rewrite Ow2, Ow, Rm2, Rm. specialize (Hclk Hpos eq_refl).
  destruct Hold as [Hold|[Hne|Hne]].
  - apply andb_false_iff. right. apply orb_false_iff. split; [apply Z.leb_gt|apply Z.ltb_ge]; lia.
  - rewrite bool_decide_false by congruence. done.
  - rewrite (bool_decide_false (en_room_id e' = _)) by congruence. by rewrite andb_false_r.
Qed.
End safety.

(** ** On concrete histories *)
Module SyncRuns.
Import SyncToy.

Lemma sync_confined_witness :
  fs (after first_day start) ≠ fs start ∧
  ∀ p, fs (after first_day start) !! p = fs start !! p ∨ strictly_below home_dir p ∨ (p `prefix_of` home_dir ∧ fs start !! p = None).
Proof.
  split; [intros E; apply (f_equal (λ f : FS, f !! (home_dir ++ ["a.txt"]))) in E; by vm_compute in E|].
  intros p. destruct (sync_confined calm alice ["data"] [] first_day start) as [H _].
  assert (Hd : run_dirs calm alice ["data"] [] first_day start = [home_dir]) by by vm_compute.
  rewrite Hd in H. destruct (H p) as [E|[(d & ->%list_elem_of_singleton & E)|(d & ->%list_elem_of_singleton & E1 & E2 & _)]]; auto.
Defined.

Lemma changed {A} (f : FS → A) (a b : FS) : f a ≠ f b → a ≠ b.
Proof. congruence. Qed.

Lemma sync_obeys_owner_witness :
  ∃ id entry', en_folder_id (announce "first" 5) = Some id ∧ find_sync id (table start) = Some entry'
    ∧ en_from (announce "first" 5) = se_owner_node_id entry' ∧ en_room_id (announce "first" 5) = se_room_id entry'
    ∧ (0 < 5 → se_last_clock entry' < 5 ∧
       ∀ ops e', Stop id ∉ ops → en_folder_id e' = Some id →
         (0 < en_clock e' ≤ 5 ∨ en_from e' ≠ did alice ∨ en_room_id e' ≠ "room") →
         let w2 := run calm alice ["data"] [] ops (after first_day start) in
         fs (handle_envelope calm e' w2).1 = fs w2 ∧ table (handle_envelope calm e' w2).1 = table w2).
Proof.
  apply (sync_obeys_owner calm alice ["data"] [] (announce "first" 5) start).
  apply (changed (λ f, f !! (home_dir ++ ["a.txt"]))). by vm_compute.
Defined.

Lemma link_roundtrip_witness :
  let p := evil_payload in let link := "#tc-share=" +:+ b64url_encode "evil" in
  build_folder_share_link "room" "/../../." "Docs" (did alice) "owner" "hash" "mallory" = Ok link ∧ reads_back p
  ∧ parse_share_link link = Ok (shared p) ∧ parse_share_link ("https://app.example/" +:+ link) = Ok (shared p)
  ∧ "room" ≠ "" ∧ did alice ≠ "" ∧ "hash" ≠ "".
Proof.
  cbv zeta.
  assert (H : build_folder_share_link "room" "/../../." "Docs" (did alice) "owner" "hash" "mallory"
    = Ok ("#tc-share=" +:+ b64url_encode "evil")) by by vm_compute.
  assert (Hr : reads_back evil_payload) by by vm_compute.
  split; [exact H|]. split; [exact Hr|].
  apply (link_roundtrip "https://app.example/" "room" "/../../." "Docs" (did alice) "owner" "hash" "mallory"
    ("#tc-share=" +:+ b64url_encode "evil") H Hr); by vm_compute.
Defined.

(** Where a path with [..] leads in a tree without symbolic links. *)
Fixpoint clean (done : path) (p : path) : path :=
  match p with
  | [] => done
  | x :: p => clean (if bool_decide (x = "..") then parent done else done ++ [x]) p
  end.

(** The folder id of a link is not a name: under the name of a folder that is
    already synced, its first characters lead out of the sandbox, and the new
    sync is given the directory of the daemon's own files. *)
Example link_escapes_sandbox :
  let w := after [Register ("#tc-share=" +:+ b64url_encode "evil") None] start in
  se_local_dir <$> last (table w) = Some ["data"; "sandbox"; "Docs-"; ".."; ".."]
  ∧ (clean [] ∘ se_local_dir) <$> last (table w) = Some ["data"]
  ∧ plain_link ("#tc-share=" +:+ b64url_encode "evil") = false.
Proof. by vm_compute. Qed.
End SyncRuns.
