(* ===== verification/StorageMirror.v ===== *)
(** * Shared folders: a resync mirrors the folder

    What [StorageSync.sync_bundle] does when every call succeeds: each file of
    the bundle is where the bundle says with its content, what left the bundle
    is gone, and the next plan has nothing to do - provided no path that is
    given up is one that is now used. Where one is, the file just written is
    removed again ([MirrorRuns.recreated_file_lost]). *)
From S2P Require Import Prelude Effects Text Json Wire DmWire IdentityPairing StorageDomain StoragePaths StorageLink.
From S2P Require Import StorageSync StorageSyncSafety.

(** ** Plans, file by file *)

Definition plan_app (a b : ResyncPlan) : ResyncPlan := {|
  pl_reuse := pl_reuse a ++ pl_reuse b; pl_fetch := pl_fetch a ++ pl_fetch b; pl_skipped := pl_skipped a ++ pl_skipped b;
  pl_remove_paths := pl_remove_paths a ++ pl_remove_paths b |}.

Lemma plan_file_app folders previous plan f :
  plan_file folders previous plan f = plan_app plan (plan_file folders previous empty_plan f).
Proof.
  unfold plan_file, plan_app. destruct plan; cbn.
  destruct (file_deleted f); [by rewrite !app_nil_r|].
  destruct (file_target_rel _ _ _); [|by rewrite !app_nil_r]. destruct (content_cid f); [|by rewrite !app_nil_r].
  destruct (find_file _ _); [|by rewrite !app_nil_r]. destruct (_ && _); by rewrite !app_nil_r.
Qed.

Lemma plan_files folders previous files :
  foldl (plan_file folders previous) empty_plan files = {|
    pl_reuse := files ≫= (λ f, pl_reuse (plan_file folders previous empty_plan f));
    pl_fetch := files ≫= (λ f, pl_fetch (plan_file folders previous empty_plan f));
    pl_skipped := files ≫= (λ f, pl_skipped (plan_file folders previous empty_plan f));
    pl_remove_paths := files ≫= (λ f, pl_remove_paths (plan_file folders previous empty_plan f)) |}.
Proof.
  assert (H : ∀ plan, foldl (plan_file folders previous) plan files = plan_app plan {|
    pl_reuse := files ≫= (λ f, pl_reuse (plan_file folders previous empty_plan f));
    pl_fetch := files ≫= (λ f, pl_fetch (plan_file folders previous empty_plan f));
    pl_skipped := files ≫= (λ f, pl_skipped (plan_file folders previous empty_plan f));
    pl_remove_paths := files ≫= (λ f, pl_remove_paths (plan_file folders previous empty_plan f)) |}).
  { induction files as [|f files IH]; intros plan; cbn [foldl mbind list_bind].
    - unfold plan_app. cbn. destruct plan; cbn. by rewrite !app_nil_r.
    - rewrite IH, (plan_file_app _ _ plan). unfold plan_app. cbn. by rewrite <-!app_assoc. }
  rewrite H. done.
Qed.

Definition is_live (f : FileRecord) : bool := negb (file_deleted f).
Definition live (files : list FileRecord) : list FileRecord := List.filter is_live files.

(** The copy the table has of a file is the one the bundle asks for. *)
Definition reusable (previous : list SyncedFile) (f : FileRecord) (rel : string) : option SyncedFile :=
  match find_file (fl_id f) previous with
  | Some p => if bool_decide (sf_checksum p = fl_checksum f) && bool_decide (sf_rel_path p = rel) then Some p else None
  | None => None
  end.

(** ** Places *)

(** Neither path leads to or through the other. *)
Definition apart (a b : path) : Prop := ¬ a `prefix_of` b ∧ ¬ b `prefix_of` a.
#[global] Instance apart_dec : RelDecision apart.
Proof. intros a b. unfold apart. apply _. Defined.

Section mirror.
Context `{C : Crypto} {S : Sealing} {HM : Hmac} {T : JsonText} {V : ShareValues}.
Context {SB : Serde FolderBundle} {SX : Serde FileBundle} {SP : Serde EncryptedPayload}.
Context (inputs : nat → Input) (dir : path) (key : string) (net : string → result string Error).

(** Every call works, and the network serves the same blobs throughout. *)
Definition works (i : Input) : Prop := alive i = true ∧ io i = Works ∧ ∀ cid, blob i cid = net cid.
Context (Hcalm : ∀ n, works (inputs n)).

Definition place (rel : string) : path := match resolve dir rel with Ok t => t | Err _ => [] end.
Definition content (cid : string) : string := match fetch_file_content (net cid) cid key with Ok d => d | Err _ => "" end.

(** Nothing stands where the file or the directories to it go. *)
Definition clear (f : FS) (t : path) : Prop :=
  (∀ q d, q ≠ [] → q `prefix_of` parent t → f !! q ≠ Some (File d)) ∧ f !! t ≠ Some Dir.

Definition fetchable (item : FetchItem) : Prop :=
  resolve dir (fi_rel item) = Ok (place (fi_rel item))
  ∧ fetch_file_content (net (fi_cid item)) (fi_cid item) key = Ok (content (fi_cid item))
  ∧ checksum_differs (fi_file item) (content (fi_cid item)) = false.

Definition written (t : path) (data : string) (f : FS) : FS := <[t := File data]> (make_dirs (prefixes (parent t)) f).1.

Lemma call_calm {A} (f : Input → World → World * result A Error) w :
  call inputs f w = ((f (inputs (pos w)) {| table := table w; fs := fs w; pos := Datatypes.S (pos w) |}).1,
    map_err Failed (f (inputs (pos w)) {| table := table w; fs := fs w; pos := Datatypes.S (pos w) |}).2).
Proof. unfold call. destruct (f _ _) as [w' r]. by rewrite (proj1 (Hcalm (pos w))). Qed.

Definition later (w : World) (f : FS) (w' : World) : Prop := table w' = table w ∧ fs w' = f.

Lemma fs_call_calm g f' w :
  g Works (fs w) = (f', true) → ∃ w', fs_call inputs g w = (w', Ok tt) ∧ later w f' w'.
Proof.
  intros Hg. unfold fs_call. rewrite call_calm. destruct (Hcalm (pos w)) as (_ & -> & _). cbn. rewrite Hg. cbn. by eexists.
Qed.

Lemma prefix_parent (q t : path) : q `prefix_of` t → q ≠ t → q `prefix_of` parent t.
Proof.
  intros [k ->] Hne. unfold parent. destruct k as [|x k _] using rev_ind; [by rewrite app_nil_r in Hne|].
  rewrite app_assoc, length_app. cbn. rewrite Nat.add_sub, take_app_length. by apply prefix_app_r.
Qed.

Lemma parent_prefix t : parent t `prefix_of` t.
Proof. unfold parent. exists (drop (length t - 1) t). by rewrite take_drop. Qed.

Lemma parent_ne t q : t ≠ [] → q `prefix_of` parent t → q ≠ t.
Proof.
  intros Ht Hq ->. apply prefix_length in Hq. unfold parent in Hq. rewrite length_take in Hq.
  destruct t; [done|]. simpl in Hq. lia.
Qed.

(** Writing to a clear place. *)
Lemma write_clear f t data : t ≠ [] → clear f t →
  make_dirs (prefixes (parent t)) f = ((make_dirs (prefixes (parent t)) f).1, true)
  ∧ write_file Works t data (make_dirs (prefixes (parent t)) f).1 = (written t data f, true).
Proof.
  intros Ht [Hc Hd]. destruct (make_dirs_ok (prefixes (parent t)) f) as [H1 H2].
  { intros q d [Hq Hp]%elem_of_prefixes. by apply Hc. }
  split; [by destruct (make_dirs _ _); cbn in *; subst|].
  unfold write_file. destruct (is_dir _ (parent t)) eqn:E1.
  - destruct (is_dir _ t) eqn:E2; [|done]. exfalso. unfold is_dir in E2. bools. destruct E2 as [E2|E2]; bools; [done|].
    destruct (make_dirs_frame (prefixes (parent t)) f t) as [H|(H & _)]; [congruence|].
    apply elem_of_prefixes in H as [_ H]. by eapply parent_ne.
  - exfalso. unfold is_dir in E1. bools.
    repeat match goal with H : bool_decide _ = false |- _ => apply bool_decide_eq_false in H end.
    match goal with H : _ !! _ ≠ Some Dir |- _ => apply H end. apply H2, elem_of_prefixes. by split.
Qed.

Lemma fetch_item_calm item w :
  fetchable item → place (fi_rel item) ≠ [] → clear (fs w) (place (fi_rel item)) →
  ∃ w', fetch_item inputs dir key item w = (w', Ok [synced_file (fi_file item) (fi_rel item)])
    ∧ later w (written (place (fi_rel item)) (content (fi_cid item)) (fs w)) w'.
Proof.
  intros (Hr & Hf & Hck) Hne Hcl. unfold fetch_item, fetch_content. unfold bind at 1, attempted at 1. rewrite call_calm. cbn [fst snd].
  destruct (Hcalm (pos w)) as (_ & _ & Hb). rewrite Hb, Hf. cbn [map_err]. rewrite Hck, Hr.
  set (w1 := {| table := table w |}). destruct (write_clear (fs w) _ (content (fi_cid item)) Hne Hcl) as [Hm Hw].
  destruct (fs_call_calm (λ o, create_dir_all o (parent (place (fi_rel item)))) _ w1 Hm) as (w2 & E2 & T2 & F2).
  unfold bind at 1, attempted at 1. rewrite E2.
  destruct (fs_call_calm (λ o, write_file o (place (fi_rel item)) (content (fi_cid item)))
    (written (place (fi_rel item)) (content (fi_cid item)) (fs w)) w2) as (w3 & E3 & T3 & F3); [by rewrite F2|].
  unfold bind, attempted. rewrite E3. exists w3. split; [done|]. split; [by rewrite T3, T2|done].
Qed.

(** ** Many files *)

Lemma written_frame t data f p :
  p ≠ t → written t data f !! p = f !! p ∨ p `prefix_of` parent t ∧ f !! p = None ∧ written t data f !! p = Some Dir.
Proof.
  intros Hp. unfold written. rewrite lookup_insert_ne by done.
  destruct (make_dirs_frame (prefixes (parent t)) f p) as [?|(H & Hn & Hd)]; [by left|]. right.
  apply elem_of_prefixes in H as [_ H]. done.
Qed.

Lemma clear_written f t u data : apart t u → clear f u → clear (written t data f) u.
Proof.
  intros [H1 H2] [Hc Hd]. split.
  - intros q d Hq Hp. destruct (decide (q = t)) as [->|Hne].
    + exfalso. apply H1. trans (parent u); [done|apply parent_prefix].
    + destruct (written_frame t data f q Hne) as [->|(_ & _ & ->)]; [by apply Hc|done].
  - assert (Hne : u ≠ t) by (intros ->; by apply H1).
    destruct (written_frame t data f u Hne) as [->|(Hp & _ & _)]; [done|].
    exfalso. apply H2. trans (parent t); [done|apply parent_prefix].
Qed.

#[local] Notation at_ item := (place (fi_rel item)).

Lemma collect_fetch items w :
  Forall fetchable items → Forall (λ it, at_ it ≠ [] ∧ clear (fs w) (at_ it)) items →
  ForallOrdPairs apart (map (λ it, at_ it) items) →
  ∃ w', collect (fetch_item inputs dir key) items w = (w', Ok (map (λ it, synced_file (fi_file it) (fi_rel it)) items))
    ∧ table w' = table w
    ∧ (∀ it, it ∈ items → fs w' !! at_ it = Some (File (content (fi_cid it))))
    ∧ (∀ p, (∀ it, it ∈ items → p ≠ at_ it) →
        fs w' !! p = fs w !! p ∨ (∃ it, it ∈ items ∧ p `prefix_of` parent (at_ it)) ∧ fs w !! p = None ∧ fs w' !! p = Some Dir).
Proof.
  revert w. induction items as [|it items IH]; intros w Hf Hc Hd; cbn [collect map].
  { exists w. split_and!; [done|done|by intros it ?%elem_of_nil|by left]. }
  apply Forall_cons in Hf as [Hf1 Hf]. apply Forall_cons in Hc as [[Hn1 Hc1] Hc]. inversion Hd as [|? ? Hd1 Hd2]; subst.
  destruct (fetch_item_calm it w Hf1 Hn1 Hc1) as (w1 & E1 & T1 & F1).
  assert (Hap : ∀ x, x ∈ items → apart (at_ it) (at_ x)).
  { intros x Hx. apply (proj1 (Forall_forall _ _) Hd1). apply (list_elem_of_fmap_2 (λ it, at_ it)). done. }
  destruct (IH w1 Hf) as (w2 & E2 & T2 & W2 & R2); [|done|].
  { apply Forall_forall. intros x Hx. destruct (proj1 (Forall_forall _ _) Hc x Hx) as [Hn Hcx]. split; [done|].
    rewrite F1. by apply clear_written; [apply Hap|]. }
  exists w2. unfold bind at 1. rewrite E1. unfold bind. rewrite E2. split_and!; [done|by rewrite T2, T1| |].
  - intros x [->|Hx]%elem_of_cons; [|by apply W2].
    destruct (R2 (at_ it)) as [->|(_ & Hn & _)].
    + intros y Hy Heq. destruct (Hap y Hy) as [H _]. apply H. by rewrite <-Heq.
    + rewrite F1. unfold written. by rewrite lookup_insert_eq.
    + rewrite F1 in Hn. unfold written in Hn. by rewrite lookup_insert_eq in Hn.
  - intros p Hp. destruct (R2 p) as [->|((x & Hx & Hpx) & Hn & Hdir)]; [by intros y Hy; apply Hp; right|..].
    + rewrite F1. destruct (written_frame (at_ it) (content (fi_cid it)) (fs w) p) as [?|(?&?&?)]; [apply Hp; by left|by left|].
      right. split_and!; [|done|done]. exists it. split; [by left|done].
    + right. rewrite F1 in Hn. destruct (written_frame (at_ it) (content (fi_cid it)) (fs w) p) as [H|(_&_&H)]; [apply Hp; by left|..].
      * rewrite H in Hn. split_and!; [|done|done]. exists x. split; [by right|done].
      * congruence.
Qed.

Lemma collect_remove rels w :
  (∀ rel t, rel ∈ rels → resolve dir rel = Ok t → behind_file t (fs w) = false) →
  ∃ w', collect (remove_stale inputs dir) rels w = (w', Ok []) ∧ table w' = table w
    ∧ (∀ p, fs w' !! p = fs w !! p ∨ fs w' !! p = None)
    ∧ (∀ rel t, rel ∈ rels → resolve dir rel = Ok t → fs w' !! t = None)
    ∧ (∀ p, (∀ rel t, rel ∈ rels → resolve dir rel = Ok t → ¬ t `prefix_of` p) → fs w' !! p = fs w !! p).
Proof.
  revert w. induction rels as [|rel rels IH]; intros w Hb; cbn [collect].
  { exists w. split_and!; [done|done|by left|by intros ? ? ?%elem_of_nil|done]. }
  assert (H1 : ∃ w1, remove_stale inputs dir rel w = (w1, Ok []) ∧ table w1 = table w
    ∧ (∀ p, fs w1 !! p = fs w !! p ∨ fs w1 !! p = None) ∧ (∀ t, resolve dir rel = Ok t → fs w1 !! t = None)
    ∧ (∀ p, (∀ t, resolve dir rel = Ok t → ¬ t `prefix_of` p) → fs w1 !! p = fs w !! p)).
  { unfold remove_stale, sandbox_remove. destruct (resolve dir rel) as [t|e] eqn:Er.
    - assert (Hg : ∃ f', remove_path Works t (fs w) = (f', true) ∧ f' !! t = None ∧ (∀ p, f' !! p = fs w !! p ∨ f' !! p = None)
        ∧ ∀ p, ¬ t `prefix_of` p → f' !! p = fs w !! p).
      { unfold remove_path. rewrite (Hb rel t) by (done || by left). destruct (fs w !! t) as [n|] eqn:Et.
        - exists (without t (λ _, false) (fs w)). split_and!.
          + by destruct n.
          + rewrite lookup_without. unfold below. by rewrite bool_decide_true.
          + intros p. rewrite lookup_without. case_if; auto.
          + intros p Hp. rewrite lookup_without. unfold below. by rewrite bool_decide_false.
        - exists (fs w). split_and!; auto. }
      destruct Hg as (f' & Hg & Hn & Hor & Hfr).
      destruct (fs_call_calm (λ o, remove_path o t) f' w Hg) as (w1 & E1 & T1 & F1).
      exists w1. unfold bind, attempted. rewrite E1, F1. split_and!; [done|done|done|by intros t' [= <-]|].
      intros p Hp. by apply Hfr, Hp.
    - exists w. unfold bind, attempted, fail. split_and!; [done|done|by left|done|done]. }
  destruct H1 as (w1 & E1 & T1 & O1 & N1 & F1).
  destruct (IH w1) as (w2 & E2 & T2 & O2 & N2 & F2).
  { intros r t Hr Ht. assert (Hbt := Hb r t ltac:(by right) Ht). unfold behind_file in *.
    apply existsb_elem_false. intros q Hq. destruct (O1 q) as [->| ->]; [|done]. by apply (proj1 (existsb_elem_false _ _) Hbt). }
  exists w2. unfold bind at 1. rewrite E1. unfold bind. rewrite E2. split_and!; [done|by rewrite T2| | |].
  - intros p. destruct (O2 p) as [->|?]; [apply O1|by right].
  - intros r t [->|Hr]%elem_of_cons Ht; [|by eapply N2]. destruct (O2 t) as [->|?]; [by apply N1|done].
  - intros p Hp. rewrite F2 by (intros r t Hr; apply Hp; by right). apply F1. intros t. apply Hp. by left.
Qed.

(** ** A bundle *)
Section bundle.
Context (bundle : FolderBundle) (previous : list SyncedFile).
Notation folders := (build_folder_map bundle).
Notation files := (bu_files bundle).
Notation plan := (plan_resync files folders previous).

Definition rel_of (x : FileRecord) : string := default "" (file_target_rel folders (fl_folder_id x) (fl_name x)).
Definition cid_of (x : FileRecord) : string := default "" (content_cid x).
Definition spot (x : FileRecord) : path := place (rel_of x).

(** What the theorem below asks of the bundle, the table and the files. *)
Record mirrorable (f : FS) : Prop := {
  mi_files x : x ∈ live files → file_target_rel folders (fl_folder_id x) (fl_name x) = Some (rel_of x)
    ∧ content_cid x = Some (cid_of x) ∧ fetch_file_content (net (cid_of x)) (cid_of x) key = Ok (content (cid_of x))
    ∧ checksum_differs x (content (cid_of x)) = false;
  mi_ids : NoDup (live_ids files);
  mi_apart : ForallOrdPairs apart (map spot (live files));
  mi_clear x : x ∈ live files → clear f (spot x);
  mi_root q d : q ≠ [] → q `prefix_of` dir → f !! q ≠ Some (File d);
  mi_kept x p : x ∈ live files → reusable previous x (rel_of x) = Some p → f !! spot x = Some (File (content (cid_of x)));
  mi_stale rel t : rel ∈ pl_remove_paths plan → resolve dir rel = Ok t →
    behind_file t f = false ∧ ∀ x, x ∈ live files → apart t (spot x);
}.

Definition item_of (x : FileRecord) : FetchItem := {| fi_file := x; fi_rel := rel_of x; fi_cid := cid_of x |}.
Definition fresh (x : FileRecord) : bool := negb (is_some (reusable previous x (rel_of x))).
Definition reuse_of (x : FileRecord) : list SyncedFile := match reusable previous x (rel_of x) with Some p => [p] | None => [] end.

Definition plannable (l : list FileRecord) : Prop := ∀ x, x ∈ live l →
  file_target_rel folders (fl_folder_id x) (fl_name x) = Some (rel_of x) ∧ content_cid x = Some (cid_of x).

Lemma plan_of_live x :
  is_live x = true → file_target_rel folders (fl_folder_id x) (fl_name x) = Some (rel_of x) → content_cid x = Some (cid_of x) →
  pl_reuse (plan_file folders previous empty_plan x) = reuse_of x
  ∧ pl_fetch (plan_file folders previous empty_plan x) = (if fresh x then [item_of x] else [])
  ∧ pl_skipped (plan_file folders previous empty_plan x) = [].
Proof.
  unfold is_live. intros Hl Hr Hc. unfold plan_file, reuse_of, fresh, reusable. apply negb_true_iff in Hl. rewrite Hl, Hr, Hc.
  destruct (find_file _ _); [|done]. destruct (_ && _); done.
Qed.

Lemma plan_lists l : plannable l →
  (l ≫= λ x, pl_reuse (plan_file folders previous empty_plan x)) = live l ≫= reuse_of
  ∧ (l ≫= λ x, pl_fetch (plan_file folders previous empty_plan x)) = map item_of (List.filter fresh (live l))
  ∧ (l ≫= λ x, pl_skipped (plan_file folders previous empty_plan x)) = [].
Proof.
  unfold plannable, live. induction l as [|x l IH]; intros H; [done|]. cbn [List.filter mbind list_bind] in *.
  destruct (is_live x) eqn:El.
  - destruct (H x ltac:(by left)) as [H1 H2]. destruct (plan_of_live x El H1 H2) as (-> & -> & ->).
    destruct IH as (-> & -> & ->); [by intros y Hy; apply H; right|]. cbn [mbind list_bind List.filter].
    destruct (fresh x); done.
  - destruct IH as (-> & -> & ->); [done|].
    assert (Hp : plan_file folders previous empty_plan x = empty_plan).
    { unfold plan_file. unfold is_live in El. apply negb_false_iff in El. by rewrite El. }
    by rewrite Hp.
Qed.

Definition row (s : SyncedFile) : string * string * string := (sf_file_id s, sf_rel_path s, sf_checksum s).
Definition want (x : FileRecord) : string * string * string := (fl_id x, rel_of x, fl_checksum x).

Lemma reusable_row x p : reusable previous x (rel_of x) = Some p → row p = want x.
Proof.
  unfold reusable, find_file. destruct (List.find _ previous) as [q|] eqn:E; [|done]. case_if; [|done]. intros [= ->].
  apply find_elem in E as [_ E]. bools. unfold row, want. congruence.
Qed.

Lemma rows_perm (l : list FileRecord) :
  map row ((l ≫= reuse_of) ++ map (λ x, synced_file x (rel_of x)) (List.filter fresh l)) ≡ₚ map want l.
Proof.
  induction l as [|x l IH]; [done|]. cbn [mbind list_bind List.filter map]. unfold reuse_of at 1, fresh at 1.
  destruct (reusable previous x (rel_of x)) as [p|] eqn:E; cbn [is_some negb app map].
  - rewrite (reusable_row x p E). by constructor.
  - rewrite map_app in *. cbn [map]. rewrite <-IH. change (row (synced_file x (rel_of x))) with (want x).
    by rewrite <-Permutation_middle.
Qed.

Lemma pairs_filter (R : path → path → Prop) (p : FileRecord → bool) l :
  ForallOrdPairs R (map spot l) → ForallOrdPairs R (map spot (List.filter p l)).
Proof.
  induction l as [|x l IH]; [done|]. cbn [map List.filter]. inversion 1 as [|? ? Hx Hl]; subst.
  destruct (p x); [|by apply IH]. cbn [map]. constructor; [|by apply IH].
  apply Forall_forall. intros y (z & -> & Hz)%list_elem_of_fmap. apply (proj1 (Forall_forall _ _) Hx).
  apply (list_elem_of_fmap_2 spot). by apply elem_of_List_filter in Hz as [? _].
Qed.

Lemma spot_below x : x ∈ live files → file_target_rel folders (fl_folder_id x) (fl_name x) = Some (rel_of x) →
  resolve dir (rel_of x) = Ok (spot x) ∧ strictly_below dir (spot x).
Proof.
  intros _ Hr. destruct (resolve_rel dir _ _ _ _ Hr) as (parts & E & Hne & _ & _). unfold spot, place. rewrite E.
  split; [done|by apply strictly_below_app].
Qed.

(** The plan after a table that has every file. *)
Lemma quiet_plan (now_ : list SyncedFile) :
  plannable files → NoDup (live_ids files) → map row now_ ≡ₚ map want (live files) →
  pl_fetch (plan_resync files folders now_) = [] ∧ pl_skipped (plan_resync files folders now_) = []
  ∧ pl_remove_paths (plan_resync files folders now_) = [].
Proof.
  intros Hp Hnd Hperm.
  assert (Hrow : ∀ s, s ∈ now_ → ∃ x, x ∈ live files ∧ row s = want x).
  { intros s Hs. apply (list_elem_of_fmap_2 row) in Hs. change (row <$> now_) with (map row now_) in Hs. rewrite Hperm in Hs.
    apply list_elem_of_fmap in Hs as (x & Hx & Hin). eauto. }
  assert (Hre : ∀ x, x ∈ live files → ∃ s, find_file (fl_id x) now_ = Some s ∧ row s = want x).
  { intros x Hx. destruct (find_file (fl_id x) now_) as [s|] eqn:E.
    - exists s. split; [done|]. unfold find_file in E. apply find_elem in E as [Hs Hid]. cbv beta in Hid. bools.
      destruct (Hrow s Hs) as (y & Hy & Hw). rewrite Hw. f_equal. injection Hw as Hw1 _ _.
      assert (Hids : fl_id y = fl_id x) by congruence.
      revert Hnd Hx Hy Hids. unfold live_ids. fold (live files). clear. intros Hnd Hx Hy Hids.
      apply list_elem_of_lookup in Hx as [i Hi], Hy as [j Hj].
      assert (i = j) as ->.
      { apply (NoDup_lookup _ _ _ (fl_id x) Hnd); change (map ?f ?l) with (f <$> l); rewrite list_lookup_fmap; unfold live, is_live in *.
        - by rewrite Hi.
        - rewrite Hj. cbn. by rewrite Hids. }
      congruence.
    - exfalso. assert (Hin : want x ∈ map row now_) by (rewrite Hperm; by apply (list_elem_of_fmap_2 want)).
      apply list_elem_of_fmap in Hin as (s & Hs & Hin). unfold find_file in E. apply (find_none_elem _ _ E) in Hin.
      cbv beta in Hin. apply bool_decide_eq_false in Hin. injection Hs as Hs _ _. congruence. }
  unfold plan_resync. rewrite plan_files. cbn [pl_fetch pl_skipped pl_remove_paths].
  assert (Hz : ∀ l, (∀ x, x ∈ live l → x ∈ live files) →
    (l ≫= λ f, pl_fetch (plan_file folders now_ empty_plan f)) = [] ∧ (l ≫= λ f, pl_skipped (plan_file folders now_ empty_plan f)) = []
    ∧ (l ≫= λ f, pl_remove_paths (plan_file folders now_ empty_plan f)) = []).
  { unfold live. induction l as [|x l IH]; intros Hl; [done|]. cbn [mbind list_bind List.filter] in *.
    destruct (is_live x) eqn:El.
    - destruct IH as (-> & -> & ->); [by intros y Hy; apply Hl; right|].
      assert (Hx : x ∈ live files) by (apply Hl; by left). destruct (Hre x Hx) as (s & Hs & Hw). destruct (Hp x Hx) as [H1 H2].
      unfold plan_file. unfold is_live in El. apply negb_true_iff in El. rewrite El, H1, H2, Hs. injection Hw as _ Hw1 Hw2.
      rewrite Hw1, Hw2, !bool_decide_true by done. done.
    - destruct IH as (-> & -> & ->); [done|]. unfold plan_file. unfold is_live in El. apply negb_false_iff in El. by rewrite El. }
  destruct (Hz files) as (-> & -> & ->); [done|]. split_and!; [done|done|]. cbn [app].
  rewrite filter_none; [done|]. intros s Hs. apply negb_false_iff, bool_decide_eq_true.
  destruct (Hrow s Hs) as (x & Hx & Hw). injection Hw as -> _ _. unfold live_ids. by apply (list_elem_of_fmap_2 fl_id).
Qed.

Lemma sandbox_new_calm w : (∀ q d, q ≠ [] → q `prefix_of` dir → fs w !! q ≠ Some (File d)) →
  ∃ w', sandbox_new inputs dir w = (w', Ok tt) ∧ later w (make_dirs (prefixes dir) (fs w)).1 w'.
Proof.
  intros H. destruct (make_dirs_ok (prefixes dir) (fs w)) as [H1 _].
  { intros q d [Hq Hp]%elem_of_prefixes. by apply H. }
  destruct (fs_call_calm (λ o, create_dir_all o dir) (make_dirs (prefixes dir) (fs w)).1 w) as (w' & E & L).
  { cbn [create_dir_all]. destruct (make_dirs (prefixes dir) (fs w)). by cbn in *; subst. }
  exists w'. unfold sandbox_new, with_context. by rewrite E.
Qed.

(** The directories of the jail itself are in nobody's way. *)
Lemma root_frame f p : ¬ p `prefix_of` dir → (make_dirs (prefixes dir) f).1 !! p = f !! p.
Proof. intros Hp. destruct (make_dirs_frame (prefixes dir) f p) as [?|([_ H]%elem_of_prefixes & _)]; done. Qed.

Lemma root_clear f t : strictly_below dir t → clear f t → clear (make_dirs (prefixes dir) f).1 t.
Proof.
  intros [Hb Hne] [H1 H2]. split.
  - intros q d Hq Hp. destruct (make_dirs_frame (prefixes dir) f q) as [->|(_&_&->)]; [by apply H1|done].
  - rewrite root_frame; [done|]. intros Hp. apply Hne. by apply (anti_symm prefix).
Qed.

Lemma resync_applied w :
  mirrorable (fs w) →
  ∃ w' synced records, sync_bundle inputs dir key bundle previous w = (w', Ok (synced, records)) ∧ table w' = table w
    ∧ (∀ x, x ∈ live files → fs w' !! spot x = Some (File (content (cid_of x))))
    ∧ (∀ rel t, rel ∈ pl_remove_paths plan → resolve dir rel = Ok t → fs w' !! t = None)
    ∧ (∀ p, ¬ p `prefix_of` dir → (∀ x, x ∈ live files → ¬ p `prefix_of` spot x) →
        (∀ rel t, rel ∈ pl_remove_paths plan → resolve dir rel = Ok t → ¬ t `prefix_of` p) → fs w' !! p = fs w !! p)
    ∧ map row synced ≡ₚ map want (live files)
    ∧ pl_fetch (plan_resync files folders synced) = [] ∧ pl_skipped (plan_resync files folders synced) = []
    ∧ pl_remove_paths (plan_resync files folders synced) = [].
Proof.
  intros [Hfiles Hids Hap Hcl Hroot Hkept Hstale].
  assert (Hplan : plannable files) by (intros x Hx; by destruct (Hfiles x Hx) as (?&?&_)).
  assert (Hspot : ∀ x, x ∈ live files → resolve dir (rel_of x) = Ok (spot x) ∧ strictly_below dir (spot x)).
  { intros x Hx. apply spot_below; [done|by apply Hplan]. }
  destruct (sandbox_new_calm w Hroot) as (w1 & E1 & T1 & F1).
  destruct (plan_lists files Hplan) as (Preuse & Pfetch & _).
  assert (Hpf : pl_fetch plan = map item_of (List.filter fresh (live files))).
  { unfold plan_resync. rewrite plan_files. cbn [pl_fetch]. exact Pfetch. }
  assert (Hpr : pl_reuse plan = live files ≫= reuse_of) by (unfold plan_resync; rewrite plan_files; exact Preuse).
  set (F := List.filter fresh (live files)) in *.
  assert (HF : ∀ x, x ∈ F → x ∈ live files) by (intros x Hx; by apply elem_of_List_filter in Hx as [? _]).
  destruct (collect_fetch (map item_of F) w1) as (w2 & E2 & T2 & W2 & R2).
  { apply Forall_forall. intros it (x & -> & Hx)%list_elem_of_fmap. apply HF in Hx. destruct (Hfiles x Hx) as (_&_&?&?).
    split_and!; [by apply Hspot|done|done]. }
  { apply Forall_forall. intros it (x & -> & Hx)%list_elem_of_fmap. apply HF in Hx. cbn [fi_rel item_of]. fold (spot x).
    destruct (Hspot x Hx) as [_ Hb]. split.
    - intros Hn. rewrite Hn in Hb. destruct Hb as [[k Hk] Hne]. by destruct dir.
    - rewrite F1. apply root_clear; [done|by apply Hcl]. }
  { rewrite map_map. by apply (pairs_filter apart fresh). }
  assert (W2' : ∀ x, x ∈ F → fs w2 !! spot x = Some (File (content (cid_of x)))).
  { intros x Hx. apply (W2 (item_of x)). by apply (list_elem_of_fmap_2 item_of). }
  assert (R2' : ∀ p, (∀ x, x ∈ F → p ≠ spot x) → fs w2 !! p = fs w1 !! p
    ∨ (∃ x, x ∈ F ∧ p `prefix_of` parent (spot x)) ∧ fs w1 !! p = None ∧ fs w2 !! p = Some Dir).
  { intros p Hp. destruct (R2 p) as [?|((it & (x & -> & Hx)%list_elem_of_fmap & Hpx) & Hn & Hd)]; [|by left|right; eauto].
    intros it (x & -> & Hx)%list_elem_of_fmap. by apply Hp. }
  destruct (collect_remove (pl_remove_paths plan) w2) as (w3 & E3 & T3 & _ & N3 & F3).
  { intros rel t Hrel Ht. destruct (Hstale rel t Hrel Ht) as [Hb Hst]. unfold behind_file in *.
    apply existsb_elem_false. intros q Hq. pose proof Hq as [Hqn Hqp]%elem_of_prefixes.
    assert (Hq0 := proj1 (existsb_elem_false _ _) Hb q Hq). cbv beta in Hq0.
    destruct (R2' q) as [->|(_ & _ & ->)]; [|rewrite F1|done].
    - intros x Hx ->. destruct (Hst x (HF x Hx)) as [_ H]. apply H. trans (parent t); [done|apply parent_prefix].
    - destruct (make_dirs_frame (prefixes dir) (fs w) q) as [->|(_&_&->)]; [done|done]. }
  assert (Hlive : ∀ x, x ∈ live files → fs w2 !! spot x = Some (File (content (cid_of x)))).
  { intros x Hx. destruct (fresh x) eqn:Ef; [by apply W2', elem_of_List_filter|].
    unfold fresh in Ef. apply negb_false_iff, is_some_spec in Ef as [p Hp]. pose proof (Hkept x p Hx Hp) as Hk.
    destruct (Hspot x Hx) as [_ [Hb Hbne]].
    assert (Hf1 : fs w1 !! spot x = Some (File (content (cid_of x)))).
    { rewrite F1, root_frame; [done|]. intros H. apply Hbne. by apply (anti_symm prefix). }
    destruct (R2' (spot x)) as [->|(_ & Hn & _)]; [|done|congruence].
    intros y Hy Heq. apply HF in Hy as Hyl.
    assert (x = y) as ->; [|by apply elem_of_List_filter in Hy as [_ Hy]; unfold fresh in Hy; rewrite Hp in Hy].
    clear -Hap Hx Hyl Heq. induction (live files) as [|z l IH]; [by apply elem_of_nil in Hx|]. cbn [map] in Hap.
    inversion Hap as [|? ? Hz Hl]; subst. rewrite Forall_forall in Hz.
    assert (Hbad : ∀ u v, u ∈ l → v = z → spot u ≠ spot v).
    { intros u v Hu -> E. destruct (Hz (spot u)) as [H _]; [by apply (list_elem_of_fmap_2 spot)|]. apply H. by rewrite E. }
    apply elem_of_cons in Hx as [->|Hx], Hyl as [->|Hy]; [done| | |by apply IH].
    - exfalso. by apply (Hbad y z).
    - exfalso. by apply (Hbad x z). }
  exists w3, (pl_reuse plan ++ map (λ x, synced_file x (rel_of x)) F), (map_to_list folders).*2.
  assert (Hrows : map row (pl_reuse plan ++ map (λ x, synced_file x (rel_of x)) F) ≡ₚ map want (live files)).
  { rewrite Hpr. apply rows_perm. }
  split; [|split_and!].
  - unfold sync_bundle. unfold bind at 1. rewrite E1. rewrite Hpf. unfold bind at 1. rewrite E2. unfold bind. rewrite E3.
    unfold ret. rewrite map_map. done.
  - by rewrite T3, T2, T1.
  - intros x Hx. rewrite F3; [by apply Hlive|]. intros rel t Hrel Ht. by apply (Hstale rel t Hrel Ht).
  - apply N3.
  - intros p Hpd Hpx Hpt. rewrite F3 by done. destruct (R2' p) as [->|((x & Hx & Hp) & _)].
    + intros x Hx ->. by apply (Hpx x (HF x Hx)).
    + rewrite F1. by apply root_frame.
    + exfalso. apply (Hpx x (HF x Hx)). trans (parent (spot x)); [done|apply parent_prefix].
  - exact Hrows.
  - by apply quiet_plan.
  - by apply quiet_plan.
  - by apply quiet_plan.
Qed.

End bundle.
End mirror.

Section resync.
Context `{C : Crypto} {S : Sealing} {HM : Hmac} {T : JsonText} {V : ShareValues}.
Context {SB : Serde FolderBundle} {SX : Serde FileBundle} {SP : Serde EncryptedPayload}.
Context (inputs : nat → Input) (net : string → result string Error) (Hcalm : ∀ n, works net (inputs n)).

Lemma update_entry_calm id f w : ∃ w', update_entry inputs id f w = (w', Ok tt) ∧ fs w' = fs w ∧ table w' = update_first id f (table w).
Proof.
  unfold update_entry, with_entries, read_entries, save_entries. unfold bind at 1. rewrite (call_calm inputs net Hcalm). cbn [fst snd].
  rewrite (proj1 (proj2 (Hcalm _))). cbn [map_err]. unfold bind at 1. rewrite (call_calm inputs net Hcalm). cbn [fst snd pos table fs].
  rewrite (proj1 (proj2 (Hcalm _))). by eexists.
Qed.

(** C27. A full resync brings the directory in line with a bundle that can be
    mirrored, and the entry says so. [mirrorable] asks that every live file of
    the bundle has content that can be fetched and a place of its own, apart from
    the other files and from the paths this resync gives up, that nothing stands
    in the way there, and that the rows taken over from the table are still on
    disk; [MirrorRuns.recreated_file_lost] shows that a reused path is one to
    exclude, [MirrorRuns.skipped_file_not_retried] that content that cannot be
    fetched is. When every call succeeds, each file then stands where the bundle
    puts it with its content, every path that was given up is gone, nothing else
    changes but for directories on the way, the row of the sync in the table is
    marked as synced to this CID with one row for each file, no other row
    changes, and the plan from these rows on asks for nothing. *)
Theorem resync_mirrors entry cid signature bundle w row0 :
  fetch_folder_bundle (net cid) cid (se_folder_key entry) = Ok bundle →
  mirrorable (se_local_dir entry) (se_folder_key entry) net bundle (se_files entry) (fs w) →
  find_sync (se_folder_id entry) (table w) = Some row0 →
  let files := bu_files bundle in
  let folders := build_folder_map bundle in
  let plan := plan_resync files folders (se_files entry) in
  let spot := spot (se_local_dir entry) bundle in
  ∃ w' row', full_resync inputs entry cid signature w = (w', Ok tt)
    ∧ (∀ x, x ∈ live files → fs w' !! spot x = Some (File (content (se_folder_key entry) net (cid_of x))))
    ∧ (∀ rel t, rel ∈ pl_remove_paths plan → resolve (se_local_dir entry) rel = Ok t → fs w' !! t = None)
    ∧ (∀ p, ¬ p `prefix_of` se_local_dir entry → (∀ x, x ∈ live files → ¬ p `prefix_of` spot x) →
        (∀ rel t, rel ∈ pl_remove_paths plan → resolve (se_local_dir entry) rel = Ok t → ¬ t `prefix_of` p) → fs w' !! p = fs w !! p)
    ∧ (find_sync (se_folder_id entry) (table w') = Some row' ∧ se_last_cid row' = Some cid ∧ se_status row' = STATUS_SYNCED
       ∧ map row (se_files row') ≡ₚ map (want bundle) (live files)
       ∧ (∀ id, id ≠ se_folder_id entry → find_sync id (table w') = find_sync id (table w)))
    ∧ pl_fetch (plan_resync files folders (se_files row')) = [] ∧ pl_skipped (plan_resync files folders (se_files row')) = []
    ∧ pl_remove_paths (plan_resync files folders (se_files row')) = [].
Proof.
  intros Hfetch Hmir Hrow0 files folders plan spot0. unfold full_resync, fetch_bundle. unfold bind at 1, with_context.
  rewrite (call_calm inputs net Hcalm). cbn [fst snd]. destruct (Hcalm (pos w)) as (_ & _ & ->). rewrite Hfetch. cbn [map_err].
  set (w1 := {| table := table w; fs := fs w; pos := _ |}).
  destruct (resync_applied inputs (se_local_dir entry) (se_folder_key entry) net Hcalm bundle (se_files entry) w1 Hmir)
    as (w2 & synced & records & H1 & H2 & H3 & H4 & H5 & H6 & H7 & H8 & H9).
  unfold bind at 1. rewrite H1. unfold bind at 1, now, input. unfold bind at 1. rewrite (call_calm inputs net Hcalm). cbn [fst snd map_err ret].
  set (f := set_resynced _ _ _ _ _). destruct (update_entry_calm (se_folder_id entry) f
    {| table := table w2; fs := fs w2; pos := Datatypes.S (pos w2) |}) as (w3 & E3 & F3 & T3). cbn [table fs] in F3, T3. unfold ret. rewrite E3.
  exists w3, (f row0). rewrite T3, F3, H2. split_and!; try done.
  - by apply find_sync_update.
  - intros id Hid. change (table w1) with (table w). generalize (table w) as l. induction l as [|x l IH]; [done|].
    cbn [update_first]. unfold find_sync in *. cbn [List.find]. destruct (is_sync (se_folder_id entry) x) eqn:Ex; cbn [List.find].
    + unfold is_sync in *. bools. rewrite !bool_decide_false; [done| |]; cbn; congruence.
    + by rewrite IH.
Qed.
End resync.

(** ** On concrete bundles *)
Module MirrorRuns.
Import SyncToy.

Definition serve (cid : string) : result string Error := Ok ("P:" +:+ cid).
Lemma calm_works n : works serve (calm n).
Proof. done. Qed.

Definition day2 : World := after first_day start.
Definition known : list SyncedFile := match table day2 with e :: _ => se_files e | [] => [] end.

Lemma no_file_above (f : FS) (t : path) :
  forallb (λ q, match f !! q with Some (File _) => false | _ => true end) (prefixes t) = true →
  ∀ q d, q ≠ [] → q `prefix_of` t → f !! q ≠ Some (File d).
Proof.
  intros H q d Hq Hp E. rewrite forallb_elem in H. specialize (H q). rewrite E in H.
  assert (false = true) by (apply H, elem_of_prefixes; done). done.
Qed.

Lemma second_mirrorable : mirrorable home_dir "key" serve second_bundle known (fs day2).
Proof.
  assert (Hlive : live (bu_files second_bundle) = [file "c" "f" "c.txt" "three"; file "b" "sub" "b.txt" "two"]) by done.
  split; try rewrite Hlive.
  - intros x [->|[->|[]%elem_of_nil]%elem_of_cons]%elem_of_cons; by vm_compute.
  - apply (bool_decide_unpack _). by vm_compute.
  - change (map _ _) with [home_dir ++ ["c.txt"]; home_dir ++ ["notes"; "b.txt"]].
    repeat constructor; intros H%(bool_decide_pack _); by vm_compute in H.
  - intros x Hx. split.
    + apply no_file_above. by apply elem_of_cons in Hx as [->|[->|[]%elem_of_nil]%elem_of_cons]; vm_compute.
    + by apply elem_of_cons in Hx as [->|[->|[]%elem_of_nil]%elem_of_cons]; vm_compute.
  - apply no_file_above. by vm_compute.
  - intros x p [->|[->|[]%elem_of_nil]%elem_of_cons]%elem_of_cons; by vm_compute.
  - assert (Hr : pl_remove_paths (plan_resync (bu_files second_bundle) (build_folder_map second_bundle) known)
      = ["b.txt"; "a.txt"]) by (by vm_compute).
    rewrite Hr. intros rel t Hrel Ht.
    assert (Htt : t = home_dir ++ ["b.txt"] ∨ t = home_dir ++ ["a.txt"]).
    { apply elem_of_cons in Hrel as [->|[->|[]%elem_of_nil]%elem_of_cons]; vm_compute in Ht; injection Ht as <-; auto. }
    split; [by destruct Htt as [->| ->]; vm_compute|].
    intros x Hx. apply (bool_decide_unpack _).
    by destruct Htt as [->| ->]; apply elem_of_cons in Hx as [->|[->|[]%elem_of_nil]%elem_of_cons]; vm_compute.
Qed.

Lemma resync_mirrors_witness : ∃ entry w' row',
  find_sync "f" (table day2) = Some entry ∧ full_resync calm entry "second" None day2 = (w', Ok tt) ∧
  (∀ x, x ∈ live (bu_files second_bundle) →
     fs w' !! spot home_dir second_bundle x = Some (File (content "key" serve (cid_of x)))) ∧
  find_sync "f" (table w') = Some row' ∧ se_last_cid row' = Some "second" ∧ se_status row' = STATUS_SYNCED ∧
  map row (se_files row') ≡ₚ map (want second_bundle) (live (bu_files second_bundle)).
Proof.
  destruct (find_sync "f" (table day2)) as [entry|] eqn:E; [|by vm_compute in E].
  assert (He : se_folder_id entry = "f" ∧ se_local_dir entry = home_dir ∧ se_folder_key entry = "key" ∧ se_files entry = known).
  { assert (Hb : match find_sync "f" (table day2) with Some e => bool_decide (se_folder_id e = "f" ∧ se_local_dir e = home_dir ∧ se_folder_key e = "key")
      | None => false end = true) by by vm_compute.
    assert (Hk : match find_sync "f" (table day2) with Some e => se_files e | None => [] end = known) by by vm_compute.
    rewrite E in Hb, Hk. apply bool_decide_eq_true in Hb as (H1 & H2 & H3). exact (conj H1 (conj H2 (conj H3 Hk))). }
  destruct He as (Hid & Hd & Hk & Hf).
  destruct (resync_mirrors calm serve calm_works entry "second" None second_bundle day2 entry) as (w' & row' & H1 & H2 & _ & _ & (H3 & H4 & H5 & H6 & _) & _).
  - rewrite Hk. vm_compute. reflexivity.
  - rewrite Hd, Hk, Hf. apply second_mirrorable.
  - by rewrite Hid.
  - rewrite Hid in H3. rewrite Hd, Hk in H2. exists entry, w', row'. exact (conj eq_refl (conj H1 (conj H2 (conj H3 (conj H4 (conj H5 H6)))))).
Defined.

(** The rows of the first sync, and what the disk has for one of them. *)
Definition rows (w : World) : list (string * string) :=
  match table w with e :: _ => map (λ s, (sf_file_id s, sf_rel_path s)) (se_files e) | [] => [] end.

(** A file that was replaced by a new one of the same name while this sync was
    away: the new file is written, then removed as the old one; the table
    says it is there, so that later states do not bring it back. *)
Example recreated_file_lost :
  let w := after [Envelope (announce "swapped" 6)] day2 in
  rows w = [("b", "b.txt"); ("c", "a.txt")] ∧ fs w !! (home_dir ++ ["a.txt"]) = None
  ∧ let w' := after [Envelope (announce "swapped" 7); Envelope (announce "swapped_again" 8)] w in
    rows w' = [("c", "a.txt"); ("b", "b.txt")] ∧ fs w' !! (home_dir ++ ["a.txt"]) = None.
Proof. by vm_compute. Qed.

(** The content of one file cannot be had while everything else works. *)
Definition flaky (n : nat) : Input := {|
  alive := true; io := Works; blob cid := if bool_decide (cid = "three") then Err ["no peer"] else Ok ("P:" +:+ cid);
  time := "now"; os := "error"; online := true; drawn := "d"; heard := [] |}.

(** The file that could not be fetched is not fetched when the state it belongs
    to is announced again. *)
Example skipped_file_not_retried :
  let w := run flaky alice ["data"] [] [Envelope (announce "second" 6)] day2 in
  se_status <$> head (table w) = Some STATUS_SYNCED ∧ rows w = [("b", "notes/b.txt")]
  ∧ let w' := after [Envelope (announce "second" 7); Envelope (announce "second" 8); Retry "f"] w in
    rows w' = [("b", "notes/b.txt")] ∧ fs w' !! (home_dir ++ ["c.txt"]) = None.
Proof. by vm_compute. Qed.

(** While a sync retries, anyone in any room may name the state it fetches. *)
Definition answered (e : ShareEnvelope) (n : nat) : Input := {|
  alive := true; io := Works; blob cid := serve cid; time := "now"; os := "error"; online := true; drawn := "d"; heard := [e] |}.

Definition from_mallory (cid : string) : ShareEnvelope :=
  let e := announce cid 0 in {|
  en_type := en_type e; en_from := did bob; en_room_id := "another room"; en_sent_at := en_sent_at e;
  en_clock := 0; en_change_type := None; en_folder_signature := None; en_folder_id := Some "f";
  en_folder_name := None; en_folder := None; en_file_id := None; en_file_name := None; en_file := None;
  en_cid := Some cid; en_owner_node_id := None; en_access_grant_mode := None; en_folder_key_hash := None;
  en_target_node_id := None; en_request_id := None; en_sender_profile := None; en_access_public_key := None;
  en_access_grant_public_key := None; en_access_grant_iv := None; en_access_grant_cipher_text := None;
  en_access_grant_proof := None; en_signature := None |}.

(** The owner's next state cannot be fetched; a stranger brings back the old one. *)
Definition no_network (n : nat) : Input := {|
  alive := true; io := Works; blob _ := Err ["no peer"]; time := "now"; os := "error"; online := true; drawn := "d"; heard := [] |}.
Example stranger_rolls_back :
  let w := after [Envelope (announce "second" 6)] day2 in
  let failed := run no_network alice ["data"] [] [Envelope (announce "third" 7)] w in
  let back := run (answered (from_mallory "first")) alice ["data"] [] [Retry "f"] failed in
  se_last_cid <$> head (table w) = Some (Some "second") ∧ se_status <$> head (table failed) = Some STATUS_ERROR
  ∧ se_last_cid <$> head (table back) = Some (Some "first") ∧ se_status <$> head (table back) = Some STATUS_SYNCED
  ∧ fs back !! (home_dir ++ ["a.txt"]) = Some (File "one") ∧ fs back !! (home_dir ++ ["c.txt"]) = None.
Proof. by vm_compute. Qed.
End MirrorRuns.
