(* ===== verification/StorageAccess.v ===== *)
(** * Shared folders: who is given the key

    The owner's side of access in [src/src/storage/folder_owner.rs]: the table of
    shared folders with their allowlists, the queue of requests that wait for
    the owner, the throttles, the tasks that answer requests and the owner's
    commands. A request is answered in a task of its own, with the table as it
    was when the request came in: tasks and commands run in any order. *)
From S2P Require Import Prelude Text Json Wire DmWire IdentityPairing StorageDomain StoragePaths.

(** ** Shared folders *)
Record PathIndex := {
  pi_folder_ids : gmap string string; pi_file_ids : gmap string string; pi_file_stats : gmap string (Z * Z);
}.

Record SharedFolder := {
  sh_folder_id : string; sh_folder_name : string; sh_local_dir : path; sh_room_id : string; sh_passphrase : string;
  sh_folder_key_hash : string; sh_access_grant_mode : string; sh_last_cid : option string;
  sh_last_folder_signature : option string; sh_created_at : string; sh_last_published_at : option string;
  sh_folders : list FolderRecord; sh_files : list FileRecord; sh_path_index : PathIndex; sh_allowed_requesters : list string;
}.

Definition set_allowed (l : list string) (s : SharedFolder) : SharedFolder := {|
  sh_folder_id := sh_folder_id s; sh_folder_name := sh_folder_name s; sh_local_dir := sh_local_dir s;
  sh_room_id := sh_room_id s; sh_passphrase := sh_passphrase s; sh_folder_key_hash := sh_folder_key_hash s;
  sh_access_grant_mode := sh_access_grant_mode s; sh_last_cid := sh_last_cid s;
  sh_last_folder_signature := sh_last_folder_signature s; sh_created_at := sh_created_at s;
  sh_last_published_at := sh_last_published_at s; sh_folders := sh_folders s; sh_files := sh_files s;
  sh_path_index := sh_path_index s; sh_allowed_requesters := l |}.

Definition MAX_ALLOWED_REQUESTERS : Z := 256.
Definition PENDING_MAX_TOTAL : Z := 64.
Definition PENDING_MAX_PER_PEER : Z := 4.
Definition PENDING_TTL : Z := 120 * SECOND.
Definition HELLO_PEER_INTERVAL : Z := 10 * SECOND.
Definition HELLO_GLOBAL_INTERVAL : Z := 2 * SECOND.
Definition HELLO_MAX_TRACKED : Z := 1024.
Definition ACCESS_PEER_INTERVAL : Z := 2 * SECOND.
Definition ACCESS_MAX_INFLIGHT : Z := 8.

Definition is_share (folder_id : string) (s : SharedFolder) : bool := bool_decide (sh_folder_id s = folder_id).
Definition find_share (folder_id : string) (t : list SharedFolder) : option SharedFolder := List.find (is_share folder_id) t.

(** Assigns through [iter_mut().find(..)]. *)
Fixpoint update_share (folder_id : string) (f : SharedFolder → SharedFolder) (t : list SharedFolder) : list SharedFolder :=
  match t with
  | [] => []
  | s :: t => if is_share folder_id s then f s :: t else s :: update_share folder_id f t
  end.

(** [table.remove(pos)] at the first share of the folder. *)
Fixpoint drop_share (folder_id : string) (t : list SharedFolder) : list SharedFolder :=
  match t with
  | [] => []
  | s :: t => if is_share folder_id s then t else s :: drop_share folder_id t
  end.

(** ** Requests that wait *)
Record PendingAccess := {
  pa_id : string; pa_folder_id : string; pa_folder_name : string; pa_requester_did : string; pa_request_id : string;
  pa_access_public_key : string; pa_first_seen : string; pa_last_seen : Z;
}.

Inductive Offer := New | Refreshed | Rejected.

Definition prune (now : Z) (q : list PendingAccess) : list PendingAccess :=
  List.filter (λ e, since now (pa_last_seen e) <? PENDING_TTL) q.

Definition refresh (req : PendingAccess) (now : Z) (e : PendingAccess) : PendingAccess := {|
  pa_id := pa_id e; pa_folder_id := pa_folder_id e; pa_folder_name := pa_folder_name req;
  pa_requester_did := pa_requester_did e; pa_request_id := pa_request_id req;
  pa_access_public_key := pa_access_public_key req; pa_first_seen := pa_first_seen e; pa_last_seen := now |}.

Fixpoint refresh_first (req : PendingAccess) (now : Z) (q : list PendingAccess) : option (list PendingAccess) :=
  match q with
  | [] => None
  | e :: q => if bool_decide (pa_id e = pa_id req) then Some (refresh req now e :: q) else cons e <$> refresh_first req now q
  end.

Definition from_peer (did : string) (q : list PendingAccess) : list PendingAccess :=
  List.filter (λ e, bool_decide (pa_requester_did e = did)) q.

Definition offer (req : PendingAccess) (now : Z) (q : list PendingAccess) : list PendingAccess * Offer :=
  let q := prune now q in
  match refresh_first req now q with
  | Some q' => (q', Refreshed)
  | None =>
      if PENDING_MAX_TOTAL <=? zlen q then (q, Rejected) else
      if PENDING_MAX_PER_PEER <=? zlen (from_peer (pa_requester_did req) q) then (q, Rejected) else
      (q ++ [req], New)
  end.

Definition get_pending (id : string) (q : list PendingAccess) : option PendingAccess :=
  List.find (λ e, bool_decide (pa_id e = id)) q.
Definition remove_pending (id : string) (q : list PendingAccess) : list PendingAccess :=
  List.filter (λ e, negb (bool_decide (pa_id e = id))) q.

(** ** Throttles *)
Record HelloThrottle := { last_global : option Z; last_by_peer : gmap string Z }.

Definition recent (now interval : Z) (t : Z) : bool := since now t <? interval.
Definition keep_recent (now interval : Z) (m : gmap string Z) : gmap string Z := filter (λ e, recent now interval e.2 = true) m.

Definition allow_hello (peer : string) (now : Z) (h : HelloThrottle) : HelloThrottle * bool :=
  if is_some_and (recent now HELLO_GLOBAL_INTERVAL) (last_global h) then (h, false) else
  if is_some_and (recent now HELLO_PEER_INTERVAL) (last_by_peer h !! peer) then (h, false) else
  let by_peer := if HELLO_MAX_TRACKED <=? zsize (last_by_peer h)
                 then keep_recent now HELLO_PEER_INTERVAL (last_by_peer h) else last_by_peer h in
  ({| last_global := Some now; last_by_peer := <[peer := now]> by_peer |}, true).

Definition allow_access (peer : string) (now : Z) (m : gmap string Z) : gmap string Z * bool :=
  let m := if HELLO_MAX_TRACKED <=? zsize m then keep_recent now ACCESS_PEER_INTERVAL m else m in
  if is_some_and (recent now ACCESS_PEER_INTERVAL) (m !! peer) then (m, false) else
  if HELLO_MAX_TRACKED <=? zsize m then (m, false) else (<[peer := now]> m, true).

(** ** Requests *)
Section access.
Context `{C : Crypto} {S : Sealing} {HM : Hmac} {T : JsonText} {V : ShareValues}.
Context (me : Identity).

Definition is_allowed (did : string) (s : SharedFolder) : bool :=
  contains (sh_allowed_requesters s) did || contains (sh_allowed_requesters s) (node_id_for_did did).

(** The first six bytes of the digest in hex. *)
Definition pending_id (requester_did folder_id : string) : string :=
  hex_encode (string_take 6 (sha256 (requester_did +:+ nul +:+ folder_id))).

Definition validate_access_request (entries : list SharedFolder) (e : ShareEnvelope) : option (SharedFolder * string * string) :=
  if is_some_and (λ t, negb (bool_decide (t = did me))) (en_target_node_id e) then None else
  if negb (is_ed25519_did_key (en_from e)) then None else
  match en_folder_id e, en_request_id e, en_access_public_key e with
  | Some folder_id, Some request_id, Some access_public_key =>
      match find_share folder_id entries with
      | None => None
      | Some entry =>
          if matches_folder_key_hash folder_id (sh_passphrase entry) (default "" (en_folder_key_hash e))
          then Some (entry, request_id, access_public_key) else None
      end
  | _, _, _ => None
  end.

(** What is drawn and read from the clock for an envelope. *)
Record Draw := { dr_secret : string; dr_iv : string; dr_sent_at : string; dr_clock : Z }.

Definition grant_envelope (entry : SharedFolder) (request_id requester_did : string) (g : AccessGrant) (d : Draw) : ShareEnvelope := {|
  en_type := "folder-access-grant"; en_from := did me; en_room_id := sh_room_id entry; en_sent_at := dr_sent_at d;
  en_clock := dr_clock d; en_change_type := None; en_folder_signature := None; en_folder_id := Some (sh_folder_id entry);
  en_folder_name := Some (sh_folder_name entry); en_folder := None; en_file_id := None; en_file_name := None;
  en_file := None; en_cid := sh_last_cid entry; en_owner_node_id := None; en_access_grant_mode := None;
  en_folder_key_hash := None; en_target_node_id := Some requester_did; en_request_id := Some request_id;
  en_sender_profile := None; en_access_public_key := None; en_access_grant_public_key := Some (ag_public_key g);
  en_access_grant_iv := Some (ag_iv g); en_access_grant_cipher_text := Some (ag_cipher_text g);
  en_access_grant_proof := Some (ag_proof g); en_signature := None |}.

Definition build_grant_envelope (entry : SharedFolder) (request_id requester_did access_public_key : string) (d : Draw)
    : result ShareEnvelope Error :=
  let? grant := build_access_grant (dr_secret d) (dr_iv d) (sh_passphrase entry) (sh_folder_id entry) request_id
                  requester_did access_public_key in
  sign_envelope (grant_envelope entry request_id requester_did grant d) me.

Definition denied_envelope (req : PendingAccess) (room : string) (d : Draw) : ShareEnvelope := {|
  en_type := "folder-access-denied"; en_from := did me; en_room_id := room; en_sent_at := dr_sent_at d;
  en_clock := dr_clock d; en_change_type := None; en_folder_signature := None; en_folder_id := Some (pa_folder_id req);
  en_folder_name := None; en_folder := None; en_file_id := None; en_file_name := None; en_file := None; en_cid := None;
  en_owner_node_id := None; en_access_grant_mode := None; en_folder_key_hash := None;
  en_target_node_id := Some (pa_requester_did req); en_request_id := Some (pa_request_id req); en_sender_profile := None;
  en_access_public_key := None; en_access_grant_public_key := None; en_access_grant_iv := None;
  en_access_grant_cipher_text := None; en_access_grant_proof := None; en_signature := None |}.

(** ** State and steps *)

(** A request being answered: the table when it came in, and whether keys were
    then granted to anyone who asks. *)
Record Task := { tk_entries : list SharedFolder; tk_envelope : ShareEnvelope; tk_auto_grant : bool }.

Record State := {
  shares : list SharedFolder; pending : list PendingAccess; asked : gmap string Z; hello : HelloThrottle;
  tasks : list Task; sent : list ShareEnvelope;
}.

Definition set_shares (t : list SharedFolder) (s : State) : State :=
  {| shares := t; pending := pending s; asked := asked s; hello := hello s; tasks := tasks s; sent := sent s |}.
Definition set_pending (q : list PendingAccess) (s : State) : State :=
  {| shares := shares s; pending := q; asked := asked s; hello := hello s; tasks := tasks s; sent := sent s |}.
Definition set_asked (m : gmap string Z) (s : State) : State :=
  {| shares := shares s; pending := pending s; asked := m; hello := hello s; tasks := tasks s; sent := sent s |}.
Definition set_hello (h : HelloThrottle) (s : State) : State :=
  {| shares := shares s; pending := pending s; asked := asked s; hello := h; tasks := tasks s; sent := sent s |}.
Definition set_tasks (l : list Task) (s : State) : State :=
  {| shares := shares s; pending := pending s; asked := asked s; hello := hello s; tasks := l; sent := sent s |}.
Definition send (e : ShareEnvelope) (s : State) : State :=
  {| shares := shares s; pending := pending s; asked := asked s; hello := hello s; tasks := tasks s; sent := sent s ++ [e] |}.

(** Whether the calls of a step worked: reading the table, writing it, the
    identity, and the broadcast. *)
Record Calls := { can_read : bool; can_write : bool; has_identity : bool; can_send : bool }.

(** [dispatch_envelope] for a [folder-access-request]: until the task is spawned. *)
Definition dispatch_request (now : Z) (auto_grant : bool) (c : Calls) (e : ShareEnvelope) (s : State) : State :=
  let '(asked', ok) := allow_access (en_from e) now (asked s) in
  let s := set_asked asked' s in
  if negb ok then s else
  if negb (can_read c) then s else
  if ACCESS_MAX_INFLIGHT <=? zlen (tasks s) then s else
  set_tasks (tasks s ++ [{| tk_entries := shares s; tk_envelope := e; tk_auto_grant := auto_grant |}]) s.

Definition send_grant (entry : SharedFolder) (request_id requester_did access_public_key : string) (d : Draw) (c : Calls)
    (s : State) : State * result () Error :=
  match build_grant_envelope entry request_id requester_did access_public_key d with
  | Err e => (s, Err e)
  | Ok g => if can_send c then (send g s, Ok tt) else (s, Err ["broadcast"])
  end.

Definition handle_access_request (t : Task) (now : Z) (first_seen : string) (d : Draw) (c : Calls) (s : State) : State :=
  let e := tk_envelope t in
  match validate_access_request (tk_entries t) e with
  | None => s
  | Some (entry, request_id, access_public_key) =>
      if tk_auto_grant t || is_allowed (en_from e) entry
      then (send_grant entry request_id (en_from e) access_public_key d c s).1
      else set_pending (offer {|
             pa_id := pending_id (en_from e) (sh_folder_id entry); pa_folder_id := sh_folder_id entry;
             pa_folder_name := sh_folder_name entry; pa_requester_did := en_from e; pa_request_id := request_id;
             pa_access_public_key := access_public_key; pa_first_seen := first_seen; pa_last_seen := now |} now (pending s)).1 s
  end.

Definition take_task (n : nat) (l : list Task) : option (Task * list Task) :=
  match l !! n with Some t => Some (t, delete n l) | None => None end.

Definition run_task (n : nat) (now : Z) (first_seen : string) (d : Draw) (c : Calls) (s : State) : State :=
  match take_task n (tasks s) with
  | None => s
  | Some (t, rest) => handle_access_request t now first_seen d c (set_tasks rest s)
  end.

(** ** The owner's commands *)

(** [str_arg]: the argument trimmed, and not empty. *)
Definition arg (a : string) : result string Error := ok_or (non_empty (Some (trim a))) ["missing argument"].

Definition approve (id_arg : string) (remember : bool) (d : Draw) (c : Calls) (s : State) : State * result () Error :=
  match arg id_arg with
  | Err e => (s, Err e)
  | Ok id =>
      match get_pending id (pending s) with
      | None => (s, Err ["no such pending request (expired or already handled)"])
      | Some req =>
          if negb (has_identity c) then (s, Err ["identity"]) else
          if negb (can_read c) then (s, Err ["reading the table"]) else
          match find_share (pa_folder_id req) (shares s) with
          | None => (set_pending (remove_pending id (pending s)) s, Err ["folder is no longer shared"])
          | Some entry =>
              let remembers := remember && negb (is_allowed (pa_requester_did req) entry)
                && (zlen (sh_allowed_requesters entry) <? MAX_ALLOWED_REQUESTERS) in
              let entry' := if remembers then set_allowed (sh_allowed_requesters entry ++ [pa_requester_did req]) entry else entry in
              if remembers && negb (can_write c) then (s, Err ["writing the table"]) else
              let s := if remembers then set_shares (update_share (pa_folder_id req) (λ _, entry') (shares s)) s else s in
              let '(s, r) := send_grant entry' (pa_request_id req) (pa_requester_did req) (pa_access_public_key req) d c s in
              match r with
              | Err e => (s, Err e)
              | Ok _ => (set_pending (remove_pending id (pending s)) s, Ok tt)
              end
          end
      end
  end.

Definition deny (id_arg : string) (d : Draw) (c : Calls) (s : State) : State * result bool Error :=
  match arg id_arg with
  | Err e => (s, Err e)
  | Ok id =>
      match get_pending id (pending s) with
      | None => (s, Ok false)
      | Some req =>
          let s := set_pending (remove_pending id (pending s)) s in
          if negb (can_read c) then (s, Err ["reading the table"]) else
          match find_share (pa_folder_id req) (shares s) with
          | None => (s, Ok true)
          | Some entry =>
              if negb (has_identity c) then (s, Err ["identity"]) else
              match sign_envelope (denied_envelope req (sh_room_id entry) d) me with
              | Ok e => (if can_send c then send e s else s, Ok true)
              | Err _ => (s, Ok true)
              end
          end
      end
  end.

Definition is_node_id (requester : string) : bool := (slen requester =? 16) && string_forallb is_ascii_hexdigit requester.

(** The entry named by a requester, which may be a DID or a node id. *)
Definition target_node (requester : string) : string := if is_node_id requester then requester else node_id_for_did requester.

Definition allow_edit (folder_arg requester_arg : string) (adding : bool) (c : Calls) (s : State) : State * result () Error :=
  match arg folder_arg, arg requester_arg with
  | Err e, _ => (s, Err e)
  | _, Err e => (s, Err e)
  | Ok folder_id, Ok requester =>
      if adding && negb (is_node_id requester) && negb (is_ed25519_did_key requester)
      then (s, Err ["`requester` must be an Ed25519 did:key or a 16-hex node id"]) else
      if negb (can_read c) then (s, Err ["reading the table"]) else
      match find_share folder_id (shares s) with
      | None => (s, Err ["no such shared folder"])
      | Some entry =>
          let allowed := sh_allowed_requesters entry in
          if adding && negb (contains allowed requester) && (MAX_ALLOWED_REQUESTERS <=? zlen allowed)
          then (s, Err ["allowlist is full"]) else
          let allowed' :=
            if adding then (if contains allowed requester then allowed else allowed ++ [requester])
            else List.filter (λ a, negb (bool_decide (a = requester)) && negb (bool_decide (a = target_node requester))
                                   && negb (bool_decide (node_id_for_did a = target_node requester))) allowed in
          if negb (can_write c) then (s, Err ["writing the table"]) else
          (set_shares (update_share folder_id (set_allowed allowed') (shares s)) s, Ok tt)
      end
  end.

Definition unshare (folder_id : string) (c : Calls) (s : State) : State * result bool Error :=
  if negb (can_read c) then (s, Err ["reading the table"]) else
  match find_share folder_id (shares s) with
  | None => (s, Ok false)
  | Some _ =>
      if negb (can_write c) then (s, Err ["writing the table"]) else
      (set_pending (List.filter (λ e, negb (bool_decide (pa_folder_id e = folder_id))) (pending s))
         (set_shares (drop_share folder_id (shares s)) s), Ok true)
  end.

(** The part of [share_folder] that adds the new share to the table. *)
Definition add_share (entry : SharedFolder) (c : Calls) (s : State) : State * result () Error :=
  if negb (can_read c) then (s, Err ["reading the table"]) else
  if existsb (λ e, bool_decide (sh_local_dir e = sh_local_dir entry) || bool_decide (sh_folder_id e = sh_folder_id entry)) (shares s)
  then (s, Err ["already shared"]) else
  if negb (can_write c) then (s, Err ["writing the table"]) else (set_shares (shares s ++ [entry]) s, Ok tt).

(** What the owner's interfaces list. *)
Definition list_shared (s : State) : list SharedFolder := map (λ e, {|
  sh_folder_id := sh_folder_id e; sh_folder_name := sh_folder_name e; sh_local_dir := sh_local_dir e;
  sh_room_id := sh_room_id e; sh_passphrase := ""; sh_folder_key_hash := sh_folder_key_hash e;
  sh_access_grant_mode := sh_access_grant_mode e; sh_last_cid := sh_last_cid e;
  sh_last_folder_signature := sh_last_folder_signature e; sh_created_at := sh_created_at e;
  sh_last_published_at := sh_last_published_at e; sh_folders := sh_folders e; sh_files := sh_files e;
  sh_path_index := sh_path_index e; sh_allowed_requesters := sh_allowed_requesters e |}) (shares s).

(** ** Announcements *)
Definition state_envelope (entry : SharedFolder) (cid signature : string) (d : Draw) : ShareEnvelope := {|
  en_type := "folder-state"; en_from := did me; en_room_id := sh_room_id entry; en_sent_at := dr_sent_at d;
  en_clock := dr_clock d; en_change_type := None; en_folder_signature := Some signature;
  en_folder_id := Some (sh_folder_id entry); en_folder_name := Some (sh_folder_name entry); en_folder := None;
  en_file_id := None; en_file_name := None; en_file := None; en_cid := Some cid; en_owner_node_id := None;
  en_access_grant_mode := None; en_folder_key_hash := None; en_target_node_id := None; en_request_id := None;
  en_sender_profile := None; en_access_public_key := None; en_access_grant_public_key := None;
  en_access_grant_iv := None; en_access_grant_cipher_text := None; en_access_grant_proof := None; en_signature := None |}.

(** The forced announcement of a share; it fails when it cannot be sent. *)
Definition announce_state (entry : SharedFolder) (d : Draw) (c : Calls) (s : State) : State * bool :=
  match sh_last_cid entry with
  | None => (s, true)
  | Some cid =>
      match sign_envelope (state_envelope entry cid (default "" (sh_last_folder_signature entry)) d) me with
      | Err _ => (s, false)
      | Ok e => if can_send c then (send e s, true) else (s, false)
      end
  end.

(** Stops at the first that fails. *)
Fixpoint announce_all (l : list SharedFolder) (d : Draw) (c : Calls) (s : State) : State :=
  match l with
  | [] => s
  | entry :: l => let '(s, ok) := announce_state entry d c s in if ok then announce_all l d c s else s
  end.

(** [dispatch_envelope] for a [hello]. *)
Definition dispatch_hello (now : Z) (d : Draw) (c : Calls) (e : ShareEnvelope) (s : State) : State :=
  let '(h, ok) := allow_hello (en_from e) now (hello s) in
  let s := set_hello h s in
  if negb ok then s else
  if negb (can_read c) then s else
  announce_all (List.filter (λ x, bool_decide (sh_room_id x = en_room_id e)) (shares s)) d c s.

(** ** Histories *)
Inductive Event :=
| Request (now : Z) (auto_grant : bool) (c : Calls) (e : ShareEnvelope)
| Answer (n : nat) (now : Z) (first_seen : string) (d : Draw) (c : Calls)
| Greeting (now : Z) (d : Draw) (c : Calls) (e : ShareEnvelope)
| Approve (id : string) (remember : bool) (d : Draw) (c : Calls)
| Deny (id : string) (d : Draw) (c : Calls)
| AllowEdit (folder_id requester : string) (adding : bool) (c : Calls)
| Share (entry : SharedFolder) (c : Calls)
| Unshare (folder_id : string) (c : Calls)
| Ls (now : Z).

Definition step (ev : Event) (s : State) : State :=
  match ev with
  | Request now auto_grant c e => dispatch_request now auto_grant c e s
  | Answer n now first_seen d c => run_task n now first_seen d c s
  | Greeting now d c e => dispatch_hello now d c e s
  | Approve id remember d c => (approve id remember d c s).1
  | Deny id d c => (deny id d c s).1
  | AllowEdit folder_id requester adding c => (allow_edit folder_id requester adding c s).1
  | Share entry c => (add_share entry c s).1
  | Unshare folder_id c => (unshare folder_id c s).1
  | Ls now => set_pending (prune now (pending s)) s
  end.

Definition history (evs : list Event) (s : State) : State := foldl (λ s ev, step ev s) s evs.

(** A daemon that has just started, with the table it found. *)
Definition started (t : list SharedFolder) : State := {|
  shares := t; pending := []; asked := ∅; hello := {| last_global := None; last_by_peer := ∅ |}; tasks := []; sent := [] |}.
End access.
