(* ===== verification/StorageAccessSafety.v ===== *)
(** * Shared folders: no key without a reason

    Theorems on [StorageAccess]: every grant answers a verified request for a
    folder whose link its sender holds, and was asked for by the allowlist, the
    configuration or the owner, up to a collision of the short names of waiting
    requests; nothing a peer sends grows a table past its
    bound; a revocation takes effect; and the one who asked opens the grant. *)
From S2P Require Import Prelude Effects Text Json Wire DmWire IdentityPairing StorageDomain StoragePaths StorageLink StorageSync.
From S2P Require Import StorageAccess.

Section safety.
Context `{C : Crypto} {S : Sealing} {HM : Hmac} {T : JsonText} {V : ShareValues}.
Context (me : Identity).

(** ** The queue *)

Lemma refresh_first_spec req now q q' :
  refresh_first req now q = Some q' →
  ∃ a e b, q = a ++ e :: b ∧ pa_id e = pa_id req ∧ q' = a ++ refresh req now e :: b.
Proof.
  revert q'. induction q as [|e q IH]; intros q'; cbn [refresh_first]; [done|].
  case_bool_decide as He; [intros [= <-]; by exists [], e, q|].
  destruct (refresh_first req now q) as [q1|]; [|done]. intros [= <-]. destruct (IH _ eq_refl) as (a & x & b & -> & Hx & ->).
  by exists (e :: a), x, b.
Qed.

Lemma refresh_first_none req now q : refresh_first req now q = None → ∀ e, e ∈ q → pa_id e ≠ pa_id req.
Proof.
  induction q as [|x q IH]; cbn [refresh_first]; [by intros _ e He%elem_of_nil|].
  case_bool_decide; [done|]. destruct (refresh_first req now q); [done|]. intros _ e [->|He]%elem_of_cons; [done|by apply IH].
Qed.

Definition queue_ok (q : list PendingAccess) : Prop :=
  zlen q ≤ PENDING_MAX_TOTAL ∧ ∀ did, zlen (from_peer did q) ≤ PENDING_MAX_PER_PEER.

Lemma queue_filter f q : queue_ok q → queue_ok (List.filter f q).
Proof.
  intros [H1 H2]. split.
  - pose proof (filter_zlen f q). lia.
  - intros did. unfold from_peer. rewrite List_filter_comm.
    pose proof (filter_zlen f (List.filter (λ e, bool_decide (pa_requester_did e = did)) q)). specialize (H2 did).
    unfold from_peer in H2. lia.
Qed.

Lemma offer_ok req now q : queue_ok q → queue_ok (offer req now q).1.
Proof.
  intros H. unfold offer. assert (Hp : queue_ok (prune now q)) by by apply queue_filter.
  destruct (refresh_first req now (prune now q)) as [q'|] eqn:E.
  - apply refresh_first_spec in E as (a & e & b & Eq & _ & ->). rewrite Eq in Hp. destruct Hp as [H1 H2]. cbn [fst]. split.
    + rewrite zlen_app, zlen_cons in *. lia.
    + intros did. specialize (H2 did). unfold from_peer in *. rewrite List.filter_app in *. cbn [List.filter] in *.
      cbn [pa_requester_did refresh]. destruct (bool_decide (pa_requester_did e = did)); rewrite zlen_app in *; [rewrite zlen_cons in *|]; lia.
  - destruct (PENDING_MAX_TOTAL <=? _) eqn:Et; [done|]. destruct (PENDING_MAX_PER_PEER <=? _) eqn:Ep; [done|]. bools.
    destruct Hp as [H1 H2]. cbn [fst]. split.
    + rewrite zlen_app, zlen_cons. unfold PENDING_MAX_TOTAL in *. change (zlen []) with 0. lia.
    + intros did. specialize (H2 did). unfold from_peer in *. rewrite List.filter_app, zlen_app. cbn [List.filter].
      case_bool_decide as Hd; [subst|]; change (zlen (@nil PendingAccess)) with 0; [rewrite zlen_cons; change (zlen (@nil PendingAccess)) with 0|]; unfold PENDING_MAX_PER_PEER in *; lia.
Qed.

(** ** The throttles *)

Lemma keep_recent_size now i m : zsize (keep_recent now i m) ≤ zsize m.
Proof. unfold zsize, keep_recent. apply inj_le. rewrite <-!size_dom. apply subseteq_size, dom_filter_subseteq. Qed.

Lemma allow_access_bound peer now m : zsize m ≤ HELLO_MAX_TRACKED → zsize (allow_access peer now m).1 ≤ HELLO_MAX_TRACKED.
Proof.
  intros H. unfold allow_access. set (m' := if _ <=? _ then _ else _).
  assert (Hm : zsize m' ≤ HELLO_MAX_TRACKED) by (unfold m'; case_if; [pose proof (keep_recent_size now ACCESS_PEER_INTERVAL m); lia|done]).
  destruct (is_some_and _ _); [done|]. destruct (HELLO_MAX_TRACKED <=? zsize m') eqn:E; [done|]. bools. cbn [fst].
  pose proof (zsize_insert_le m' peer now). lia.
Qed.

(** The times a [hello] was let through: none past the last, and no two within
    the interval that holds for everyone. *)
Definition hello_ok (h : HelloThrottle) : Prop :=
  zsize (last_by_peer h) ≤ HELLO_MAX_TRACKED
  ∧ (∀ p t, last_by_peer h !! p = Some t → ∃ l, last_global h = Some l ∧ t ≤ l)
  ∧ (∀ p q t u, last_by_peer h !! p = Some t → last_by_peer h !! q = Some u → p ≠ q → HELLO_GLOBAL_INTERVAL ≤ Z.abs (t - u)).

(** At most one time in each interval. *)
Lemma spaced_bound (m : gmap string Z) g lo n :
  0 < g → (∀ p t, m !! p = Some t → lo ≤ t < lo + n * g) →
  (∀ p q t u, m !! p = Some t → m !! q = Some u → p ≠ q → g ≤ Z.abs (t - u)) → 0 ≤ n → zsize m ≤ n.
Proof.
  intros Hg Hr Hs Hn.
  assert (Hinj : ∀ p q t u, m !! p = Some t → m !! q = Some u → (t - lo) / g = (u - lo) / g → p = q).
  { intros p q t u Hp Hq E. destruct (decide (p = q)) as [|Hne]; [done|]. exfalso. specialize (Hs p q t u Hp Hq Hne).
    pose proof (Z.div_mod (t - lo) g ltac:(lia)). pose proof (Z.div_mod (u - lo) g ltac:(lia)).
    pose proof (Z.mod_pos_bound (t - lo) g Hg). pose proof (Z.mod_pos_bound (u - lo) g Hg). rewrite E in *. lia. }
  set (l := map (λ e : string * Z, (e.2 - lo) / g) (map_to_list m)).
  assert (Hlen : length l = base.size m) by (unfold l; by rewrite length_map, length_map_to_list).
  assert (Hnd : NoDup l).
  { unfold l. apply NoDup_fmap_2_strong; [|apply NoDup_map_to_list].
    intros [p t] [q u] Hp%elem_of_map_to_list Hq%elem_of_map_to_list E. cbn in E.
    assert (p = q) as -> by by eapply Hinj. congruence. }
  assert (Hsub : l ⊆ seqZ 0 n).
  { intros z Hz. apply list_elem_of_fmap in Hz as ([p t] & -> & Hp). apply elem_of_map_to_list in Hp. specialize (Hr p t Hp).
    apply elem_of_seqZ. cbn. split; [apply Z.div_pos; lia|]. apply Z.div_lt_upper_bound; lia. }
  unfold zsize. rewrite <-Hlen. pose proof (NoDup_submseteq _ _ Hnd (λ x, Hsub x)) as Hsm. apply submseteq_length in Hsm.
  rewrite length_seqZ in Hsm. lia.
Qed.

Lemma recent_spec now i t : recent now i t = true ↔ now - t < i ∧ 0 < i ∨ now < t ∧ 0 < i.
Proof. unfold recent, since. rewrite Z.ltb_lt. lia. Qed.

Lemma allow_hello_ok peer now h : hello_ok h → hello_ok (allow_hello peer now h).1.
Proof.
  intros (Hsz & Hle & Hgap). unfold allow_hello.
  destruct (is_some_and _ (last_global h)) eqn:Hg; [done|]. destruct (is_some_and _ (last_by_peer h !! peer)) eqn:Hp; [done|].
  cbn [fst]. set (by_peer := if _ <=? _ then _ else _).
  assert (Hsub : ∀ p t, by_peer !! p = Some t → last_by_peer h !! p = Some t).
  { intros p t. unfold by_peer. case_if; [|done]. unfold keep_recent. by intros [? _]%map_lookup_filter_Some. }
  assert (Hold : ∀ p t, last_by_peer h !! p = Some t → t + HELLO_GLOBAL_INTERVAL ≤ now).
  { intros p t Ht. destruct (Hle p t Ht) as (l & Hl & Htl). rewrite Hl in Hg. cbn in Hg. unfold recent, since in Hg.
    apply Z.ltb_ge in Hg. unfold HELLO_GLOBAL_INTERVAL, SECOND in *. lia. }
  assert (Hsmall : zsize by_peer < HELLO_MAX_TRACKED).
  { unfold by_peer. destruct (HELLO_MAX_TRACKED <=? zsize (last_by_peer h)) eqn:E; [|bools; lia].
    apply Z.le_lt_trans with 5; [|done].
    apply (spaced_bound _ HELLO_GLOBAL_INTERVAL (now - HELLO_PEER_INTERVAL)); [done| | |done].
    - intros p t [Ht Hr]%map_lookup_filter_Some. cbn in Hr. pose proof (Hold p t Ht). apply recent_spec in Hr.
      unfold HELLO_GLOBAL_INTERVAL, HELLO_PEER_INTERVAL, SECOND in *. lia.
    - intros p q t u [Ht _]%map_lookup_filter_Some [Hu _]%map_lookup_filter_Some. by apply Hgap. }
  split; [|split].
  - cbn [last_by_peer]. pose proof (zsize_insert_le by_peer peer now). lia.
  - cbn [last_by_peer last_global]. intros p t Ht. exists now. split; [done|].
    apply lookup_insert_Some in Ht as [[_ <-]|[_ Ht]]; [lia|]. apply Hsub, Hold in Ht. unfold HELLO_GLOBAL_INTERVAL, SECOND in *. lia.
  - cbn [last_by_peer]. intros p q t u Ht Hu Hne.
    apply lookup_insert_Some in Ht as [[<- <-]|[_ Ht]], Hu as [[<- <-]|[_ Hu]]; [done| | |].
    + apply Hsub, Hold in Hu. lia.
    + apply Hsub, Hold in Ht. lia.
    + eapply Hgap; [by apply Hsub..|done].
Qed.

(** ** What a step leaves alone *)

Lemma signed_type e e' : sign_envelope e me = Ok e' → en_type e' = en_type e.
Proof. unfold sign_envelope. case_if; [done|]. by intros [= <-]. Qed.

(** An announcement only sends. *)
Definition only_sent (s s' : State) : Prop :=
  shares s' = shares s ∧ pending s' = pending s ∧ asked s' = asked s ∧ hello s' = hello s ∧ tasks s' = tasks s.

#[local] Instance only_sent_pre : PreOrder only_sent.
Proof. split; [done|]. unfold only_sent. intros a b c. naive_solver congruence. Qed.

Lemma announce_sent entry d c s : only_sent s (announce_state me entry d c s).1.
Proof. unfold announce_state. destruct (sh_last_cid entry); [|done]. destruct (sign_envelope _ _); [|done]. by case_if. Qed.

Lemma announce_all_sent l d c s : only_sent s (announce_all me l d c s).
Proof.
  revert s. induction l as [|e l IH]; intros s; cbn [announce_all]; [done|]. pose proof (announce_sent e d c s) as H.
  destruct (announce_state me e d c s) as [s' []]; [|done]. etrans; [exact H|apply IH].
Qed.

Lemma send_grant_sent entry r q k d c s : only_sent s (send_grant me entry r q k d c s).1.
Proof. unfold send_grant. destruct (build_grant_envelope _ _ _ _ _ _); [|done]. by case_if. Qed.

(** ** Bounds *)

Definition short (e : SharedFolder) : Prop := zlen (sh_allowed_requesters e) ≤ MAX_ALLOWED_REQUESTERS.

Lemma update_share_forall (P : SharedFolder → Prop) id f t :
  Forall P t → (∀ e, e ∈ t → P e → P (f e)) → Forall P (update_share id f t).
Proof.
  induction t as [|e t IH]; intros Ht Hf; cbn [update_share]; [done|]. inversion_clear Ht as [|?? He Ht'].
  case_if; constructor; try done; [apply Hf; [left|done]|]. apply IH; [done|]. intros. apply Hf; [by right|done].
Qed.

Lemma drop_share_forall (P : SharedFolder → Prop) id t : Forall P t → Forall P (drop_share id t).
Proof. induction t as [|e t IH]; intros Ht; cbn [drop_share]; [done|]. inversion_clear Ht. case_if; [done|]. constructor; auto. Qed.

Lemma find_share_spec id t e : find_share id t = Some e → e ∈ t ∧ sh_folder_id e = id.
Proof.
  intros H. apply find_some in H as [H1%list_elem_of_In H2]. split; [done|].
  unfold is_share in H2. by apply bool_decide_eq_true in H2.
Qed.

Definition bounded (s : State) : Prop :=
  queue_ok (pending s) ∧ zsize (asked s) ≤ HELLO_MAX_TRACKED ∧ hello_ok (hello s) ∧ zlen (tasks s) ≤ ACCESS_MAX_INFLIGHT
  ∧ Forall short (shares s).

Lemma bounded_sent s s' : only_sent s s' → bounded s → bounded s'.
Proof. unfold only_sent, bounded. by intros (-> & -> & -> & -> & ->). Qed.

Lemma bounded_pending f s : bounded s → bounded (set_pending (List.filter f (pending s)) s).
Proof. intros (H & Hs). split; [by apply queue_filter|done]. Qed.

Lemma bounded_shares t s : Forall short t → bounded s → bounded (set_shares t s).
Proof. intros Ht (H1 & H2 & H3 & H4 & _). by split_and!. Qed.

Lemma request_bounded now a c e s : bounded s → bounded (dispatch_request now a c e s).
Proof.
  intros (H1 & H2 & H3 & H4 & H5). unfold dispatch_request. pose proof (allow_access_bound (en_from e) now (asked s) H2) as Ha.
  destruct (allow_access _ _ _) as [m ok]. cbn [fst] in Ha. assert (Hb : bounded (set_asked m s)) by by split_and!.
  do 2 (case_if; [done|]). case_if; [done|]. bools. destruct Hb as (?&?&?&_&?). split_and!; try done.
  cbn [tasks set_tasks]. rewrite zlen_app. change (zlen [_]) with 1. lia.
Qed.

Lemma task_bounded n now f d c s : bounded s → bounded (run_task me n now f d c s).
Proof.
  intros (H1 & H2 & H3 & H4 & H5). unfold run_task, take_task. destruct (tasks s !! n) as [t|] eqn:E; [|by split_and!].
  assert (Hb : bounded (set_tasks (delete n (tasks s)) s)).
  { split_and!; try done. cbn [tasks set_tasks]. apply lookup_lt_Some in E as Hlt.
    pose proof (length_delete (tasks s) n (mk_is_Some _ _ E)). unfold zlen in *. lia. }
  set (s1 := set_tasks _ _) in *. clearbody s1. unfold handle_access_request. destruct (validate_access_request _ _ _) as [[[en r] k]|]; [|done].
  case_if; [eapply bounded_sent; [apply send_grant_sent|done]|]. destruct Hb as (Hq & Hb). split; [by apply offer_ok|done].
Qed.

Lemma approve_bounded id r d c s : bounded s → bounded (approve me id r d c s).1.
Proof.
  intros Hb. unfold approve. destruct (arg id) as [i|]; [|done]. destruct (get_pending i (pending s)) as [req|]; [|done].
  do 2 (case_if; [done|]). destruct (find_share _ _) as [entry|] eqn:Ef; [|by apply bounded_pending].
  cbv zeta. set (b := r && _ && _). case_if; [done|]. set (s1 := if b then _ else s).
  assert (H1 : bounded s1).
  { unfold s1. destruct b eqn:Eb; [|done]. unfold b in Eb. bools. apply bounded_shares; [|done].
    apply update_share_forall; [apply Hb|]. intros _ _ _. unfold short. cbn [sh_allowed_requesters set_allowed].
    rewrite zlen_app. change (zlen [_]) with 1. lia. }
  pose proof (send_grant_sent (if b then set_allowed (sh_allowed_requesters entry ++ [pa_requester_did req]) entry else entry)
    (pa_request_id req) (pa_requester_did req) (pa_access_public_key req) d c s1) as Hs.
  destruct (send_grant _ _ _ _ _ _ _ _) as [s2 [|]]; cbn [fst] in *; [|by eapply bounded_sent].
  apply bounded_pending. by eapply bounded_sent.
Qed.

Lemma deny_bounded id d c s : bounded s → bounded (deny me id d c s).1.
Proof.
  intros Hb. unfold deny. destruct (arg id) as [i|]; [|done]. destruct (get_pending i (pending s)) as [req|]; [|done].
  cbv zeta. assert (H1 : bounded (set_pending (remove_pending i (pending s)) s)) by by apply bounded_pending.
  case_if; [done|]. destruct (find_share _ _) as [entry|]; [|done]. case_if; [done|].
  destruct (sign_envelope _ _) as [g|]; [|done]. by case_if.
Qed.

Lemma edit_bounded id q a c s : bounded s → bounded (allow_edit id q a c s).1.
Proof.
  intros Hb. unfold allow_edit. destruct (arg id) as [i|]; [|done]. destruct (arg q) as [r|]; [|done].
  do 2 (case_if; [done|]). destruct (find_share i (shares s)) as [entry|] eqn:Ef; [|done]. apply find_share_spec in Ef as [He _].
  cbv zeta. case_if; [done|]. case_if; [done|]. apply bounded_shares; [|done].
  assert (Hs : short entry) by (destruct Hb as (_&_&_&_&Hf); rewrite Forall_forall in Hf; by apply Hf).
  apply update_share_forall; [apply Hb|]. intros e _ _. unfold short in *. cbn [sh_allowed_requesters set_allowed].
  destruct a; [|pose proof (filter_zlen (λ a, negb (bool_decide (a = r)) && negb (bool_decide (a = target_node r))
    && negb (bool_decide (node_id_for_did a = target_node r))) (sh_allowed_requesters entry)); lia].
  destruct (contains (sh_allowed_requesters entry) r); [done|]. cbn [andb negb] in *. bools.
  rewrite zlen_app. change (zlen [_]) with 1. lia.
Qed.

Lemma step_bounded ev s : (∀ e c, ev = Share e c → short e) → bounded s → bounded (step me ev s).
Proof.
  intros He Hb. destruct ev; cbn [step].
  - by apply request_bounded.
  - by apply task_bounded.
  - unfold dispatch_hello. destruct Hb as (H1 & H2 & H3 & H4 & H5). pose proof (allow_hello_ok (en_from e) now (hello s) H3) as Hh.
    destruct (allow_hello _ _ _) as [h ok]. assert (Hb : bounded (set_hello h s)) by by split_and!.
    do 2 (case_if; [done|]). eapply bounded_sent; [apply announce_all_sent|done].
  - by apply approve_bounded.
  - by apply deny_bounded.
  - by apply edit_bounded.
  - unfold add_share. do 3 (case_if; [done|]). apply bounded_shares; [|done]. apply Forall_app. split; [apply Hb|].
    constructor; [by eapply He|done].
  - unfold unshare. case_if; [done|]. destruct (find_share _ _); [|done]. case_if; [done|].
    apply (bounded_pending _ (set_shares _ _)), bounded_shares; [|done]. apply drop_share_forall, Hb.
  - by apply bounded_pending.
Qed.

(** C3: nothing that peers send, in whatever order and at whatever times it is
    handled, makes the owner's tables grow past their bounds: at most 64
    requests wait and at most 4 of them come from one peer, at most 8 are being
    answered, the two throttles remember at most 1024 peers each, and no
    allowlist has more than 256 names. *)
Theorem access_bounded evs t :
  Forall short t → (∀ e c, Share e c ∈ evs → short e) →
  let s := history me evs (started t) in
  zlen (pending s) ≤ 64 ∧ (∀ did, zlen (from_peer did (pending s)) ≤ 4) ∧ zlen (tasks s) ≤ 8
  ∧ zsize (asked s) ≤ 1024 ∧ zsize (last_by_peer (hello s)) ≤ 1024
  ∧ ∀ e, e ∈ shares s → zlen (sh_allowed_requesters e) ≤ 256.
Proof.
  intros Ht He. assert (Hb : bounded (started t)).
  { split; [done|]. split; [done|]. split; [|done]. split; [done|]. cbn. split; intros *; by rewrite lookup_empty. }
  revert He Hb. generalize (started t). unfold history. induction evs as [|ev evs IH]; intros s He Hb.
  - destruct Hb as ((H1 & H2) & H3 & (H4 & _) & H5 & H6). split_and!; try done. by apply Forall_forall.
  - cbn [foldl]. apply IH; [intros e c ?; apply (He e c); by right|]. apply step_bounded; [|done].
    intros e c ->. apply (He e c). by left.
Qed.

(** ** Every grant has a reason *)

Section reasons.
Context (t0 : list SharedFolder).

Definition after (evs : list Event) : State := history me evs (started t0).

(** A request of the history, with the table and the configuration it met. *)
Definition asked_for (evs : list Event) (e : ShareEnvelope) (auto : bool) (table : list SharedFolder) : Prop :=
  ∃ pre now c post, evs = pre ++ Request now auto c e :: post ∧ table = shares (after pre).

(** A request of the history that held the link of a folder. *)
Definition valid_request (evs : list Event) (e : ShareEnvelope) (entry : SharedFolder) : Prop :=
  ∃ auto table q k, asked_for evs e auto table ∧ validate_access_request me table e = Some (entry, q, k).

(** The short name the queue knows a request by: 48 bits of a hash of its sender
    and its folder. *)
Definition short_name (e : ShareEnvelope) (entry : SharedFolder) : string := pending_id (en_from e) (sh_folder_id entry).

(** Two requests of different peers or for different folders share one. *)
Definition collide (e : ShareEnvelope) (entry : SharedFolder) (e0 : ShareEnvelope) (entry0 : SharedFolder) : Prop :=
  short_name e entry = short_name e0 entry0 ∧ (en_from e, sh_folder_id entry) ≠ (en_from e0, sh_folder_id entry0).

(** The owner approved that short name, after both requests had come in, for
    the folder as it was then shared. *)
Definition approved (evs : list Event) (id : string) (entry' : SharedFolder) (e : ShareEnvelope) (entry : SharedFolder)
    (e0 : ShareEnvelope) (entry0 : SharedFolder) : Prop :=
  ∃ pre a r d c post, evs = pre ++ Approve a r d c :: post ∧ trim a = id ∧ valid_request pre e entry ∧ valid_request pre e0 entry0
    ∧ entry' ∈ shares (after (pre ++ [Approve a r d c])).

Definition task_reason (evs : list Event) (t : Task) : Prop := asked_for evs (tk_envelope t) (tk_auto_grant t) (tk_entries t).

(** A row was made by the request [e0], and has the id and the key of [e]. *)
Definition pending_reason (evs : list Event) (p : PendingAccess) : Prop :=
  ∃ e auto table entry e0 entry0, asked_for evs e auto table
    ∧ validate_access_request me table e = Some (entry, pa_request_id p, pa_access_public_key p) ∧ pa_id p = short_name e entry
    ∧ valid_request evs e0 entry0 ∧ pa_id p = short_name e0 entry0 ∧ pa_requester_did p = en_from e0 ∧ pa_folder_id p = sh_folder_id entry0.

(** The grant answers [e]. It was granted at once, or its short name was approved
    and the grant is for the sender and the folder of [e0]: those of [e], unless
    the two collide. *)
Definition grant_reason (evs : list Event) (g : ShareEnvelope) : Prop :=
  ∃ e auto table entry request_id key e0 entry0 entry' d, asked_for evs e auto table
    ∧ validate_access_request me table e = Some (entry, request_id, key)
    ∧ sh_folder_id entry' = sh_folder_id entry0 ∧ build_grant_envelope me entry' request_id (en_from e0) key d = Ok g
    ∧ (e0 = e ∧ entry0 = entry ∧ entry' = entry ∧ (auto = true ∨ is_allowed (en_from e) entry = true)
       ∨ approved evs (short_name e entry) entry' e entry e0 entry0)
    ∧ (en_from e0 = en_from e ∧ sh_folder_id entry0 = sh_folder_id entry ∨ collide e entry e0 entry0).

Definition sent_reason (evs : list Event) (g : ShareEnvelope) : Prop := en_type g = "folder-access-grant" → grant_reason evs g.

Lemma asked_later evs ev e auto table : asked_for evs e auto table → asked_for (evs ++ [ev]) e auto table.
Proof. intros (pre & now & c & post & -> & H). exists pre, now, c, (post ++ [ev]). by rewrite <-app_assoc. Qed.

Lemma valid_later evs ev e entry : valid_request evs e entry → valid_request (evs ++ [ev]) e entry.
Proof. intros (auto & table & q & k & H & Hv). exists auto, table, q, k. split; [by apply asked_later|done]. Qed.

Lemma approved_later evs ev id en e n e0 n0 : approved evs id en e n e0 n0 → approved (evs ++ [ev]) id en e n e0 n0.
Proof. intros (pre & a & r & d & c & post & -> & H). exists pre, a, r, d, c, (post ++ [ev]). by rewrite <-app_assoc. Qed.

Lemma pending_later evs ev p : pending_reason evs p → pending_reason (evs ++ [ev]) p.
Proof.
  intros (e & auto & table & entry & e0 & n0 & H1 & H2 & H3 & H4 & H5). exists e, auto, table, entry, e0, n0.
  split_and!; try done; [by apply asked_later|by apply valid_later|apply H5..].
Qed.

Lemma sent_later evs ev g : sent_reason evs g → sent_reason (evs ++ [ev]) g.
Proof.
  intros H Hg. destruct (H Hg) as (e & auto & table & entry & q & k & e0 & n0 & en & d & H1 & H2 & H3 & H4 & H5 & H6).
  exists e, auto, table, entry, q, k, e0, n0, en, d. split_and!; try done; [by apply asked_later|].
  destruct H5; [by left|right; by apply approved_later].
Qed.

Definition reasons (evs : list Event) (s : State) : Prop :=
  Forall (task_reason evs) (tasks s) ∧ Forall (pending_reason evs) (pending s) ∧ Forall (sent_reason evs) (sent s).

Lemma filter_forall {A} (P : A → Prop) f l : Forall P l → Forall P (List.filter f l).
Proof. rewrite !Forall_forall. intros H x [Hx _]%list_elem_of_In%filter_In. by apply H, list_elem_of_In. Qed.

Lemma offer_reason evs e auto table entry q k p now l :
  asked_for evs e auto table → validate_access_request me table e = Some (entry, q, k) →
  pa_id p = short_name e entry → pa_folder_id p = sh_folder_id entry →
  pa_requester_did p = en_from e → pa_request_id p = q → pa_access_public_key p = k →
  Forall (pending_reason evs) l → Forall (pending_reason evs) (offer p now l).1.
Proof.
  intros Ha Hv Hi Hf Hq <- <- Hl. unfold offer. assert (Hp : Forall (pending_reason evs) (prune now l)) by by apply filter_forall.
  destruct (refresh_first p now (prune now l)) as [l'|] eqn:E.
  - apply refresh_first_spec in E as (a & x & b & Eq & Hx & ->). rewrite Eq in Hp. cbn [fst].
    apply Forall_app in Hp as [Hpa Hpb]. inversion_clear Hpb as [|?? Hpx Hpb']. apply Forall_app. split; [done|].
    constructor; [|done]. destruct Hpx as (e1 & a1 & t1 & n1 & e0 & n0 & B1 & B2 & B3 & B4 & B5 & B6 & B7).
    exists e, auto, table, entry, e0, n0. cbn [pa_id pa_requester_did pa_folder_id pa_request_id pa_access_public_key refresh].
    split_and!; try done; congruence.
  - do 2 (case_if; [done|]). cbn [fst]. apply Forall_app. split; [done|]. constructor; [|done]. exists e, auto, table, entry, e, entry.
    split_and!; try done. by eexists auto, table, _, _.
Qed.

Lemma granted_type entry q r k d g : build_grant_envelope me entry q r k d = Ok g → en_type g = "folder-access-grant".
Proof. unfold build_grant_envelope. intros (x & _ & H)%rbind_Ok. by rewrite (signed_type _ _ H). Qed.

Lemma reasons_sent evs s g : reasons evs s → sent_reason evs g → reasons evs (send g s).
Proof. intros (H1 & H2 & H3) Hg. split_and!; try done. apply Forall_app. split; [done|]. by constructor. Qed.

Lemma task_reasons evs n now f d c s : reasons evs s → reasons evs (run_task me n now f d c s).
Proof.
  intros (H1 & H2 & H3). unfold run_task, take_task. destruct (tasks s !! n) as [t|] eqn:E; [|done].
  assert (Ht : task_reason evs t) by (rewrite Forall_forall in H1; by apply H1, (list_elem_of_lookup_2 _ n)).
  assert (Hs : reasons evs (set_tasks (delete n (tasks s)) s)) by (split; [by apply Forall_delete|done]).
  set (s1 := set_tasks _ _) in *. clearbody s1. unfold handle_access_request.
  destruct (validate_access_request _ _ _) as [[[en q] k]|] eqn:Ev; [|done]. destruct (_ || _) eqn:Eg.
  - unfold send_grant. destruct (build_grant_envelope _ _ _ _ _ _) as [g|] eqn:Eb; [|done]. case_if; [|done].
    apply reasons_sent; [done|]. intros _. exists (tk_envelope t), (tk_auto_grant t), (tk_entries t), en, q, k, (tk_envelope t), en, en, d.
    apply orb_true_iff in Eg. split_and!; try done; by left.
  - destruct Hs as (S1 & S2 & S3). split; [done|]. split; [|done]. by eapply offer_reason.
Qed.

Lemma update_share_in id f t e : find_share id t = Some e → f e ∈ update_share id f t.
Proof.
  induction t as [|x t IH]; [done|]. unfold find_share. cbn [List.find update_share]. destruct (is_share id x).
  - intros [= ->]. by left.
  - intros H. right. by apply IH.
Qed.

Lemma get_pending_spec id l p : get_pending id l = Some p → p ∈ l ∧ pa_id p = id.
Proof.
  intros H. apply find_some in H as [H1%list_elem_of_In H2]. split; [done|]. by apply bool_decide_eq_true in H2.
Qed.

Lemma arg_ok a i : arg a = Ok i → trim a = i.
Proof. unfold arg, non_empty. case_bool_decide; [done|]. by intros [= <-]. Qed.

(** What an approval leaves: some requests fewer, and at most one grant more. *)
Lemma approve_spec a r d c s :
  let s' := (approve me a r d c s).1 in
  tasks s' = tasks s ∧ (∃ f, pending s' = List.filter f (pending s)) ∧
  (sent s' = sent s ∨ ∃ p entry g, get_pending (trim a) (pending s) = Some p ∧ sh_folder_id entry = pa_folder_id p
     ∧ entry ∈ shares s' ∧ sent s' = sent s ++ [g]
     ∧ build_grant_envelope me entry (pa_request_id p) (pa_requester_did p) (pa_access_public_key p) d = Ok g).
Proof.
  assert (Hall : ∃ f : PendingAccess → bool, pending s = List.filter f (pending s)).
  { exists (λ _, true). induction (pending s) as [|x l IH]; [done|]. cbn. by rewrite <-IH. }
  unfold approve. destruct (arg a) as [i|] eqn:Ea; [|by eauto]. apply arg_ok in Ea as ->.
  destruct (get_pending i (pending s)) as [p|] eqn:Ep; [|by eauto]. do 2 (case_if; [by eauto|]).
  destruct (find_share _ _) as [entry|] eqn:Ef; [|cbn; by eauto]. cbv zeta. set (b := r && _ && _). case_if; [by eauto|].
  set (entry' := if b then _ else entry). set (s1 := if b then _ else s).
  assert (H1 : tasks s1 = tasks s ∧ pending s1 = pending s ∧ sent s1 = sent s) by (unfold s1; by destruct b).
  assert (H2 : entry' ∈ shares s1).
  { unfold entry', s1. destruct b; [by apply (update_share_in _ (λ _, _) _ entry)|]. by apply find_share_spec in Ef as [? _]. }
  assert (H3 : sh_folder_id entry' = pa_folder_id p).
  { apply find_share_spec in Ef as [_ <-]. unfold entry'. by destruct b. }
  clearbody s1 entry'. destruct H1 as (T1 & P1 & S1). unfold send_grant.
  destruct (build_grant_envelope _ _ _ _ _ _) as [g|] eqn:Eb; [|cbn; rewrite T1, P1, S1; by eauto].
  case_if; cbn [fst tasks pending sent shares send set_pending]; rewrite T1, P1, S1; split_and!; eauto.
  right. exists p, entry', g. by split_and!.
Qed.

Lemma approve_reasons evs a r d c :
  reasons (evs ++ [Approve a r d c]) (after evs) → Forall (pending_reason evs) (pending (after evs)) →
  reasons (evs ++ [Approve a r d c]) (approve me a r d c (after evs)).1.
Proof.
  intros (H1 & H2 & H3) Hp. destruct (approve_spec a r d c (after evs)) as (Et & (f & Ef) & Es).
  split; [by rewrite Et|]. split; [rewrite Ef; by apply filter_forall|].
  destruct Es as [->|(p & entry & g & Hg & Hf & Hin & -> & Hb)]; [done|]. apply Forall_app. split; [done|].
  constructor; [|done]. intros _. apply get_pending_spec in Hg as [Hl Hi]. rewrite Forall_forall in Hp.
  destruct (Hp p Hl) as (e & auto & table & en & e0 & n0 & B1 & B2 & B3 & B4 & B5 & B6 & B7).
  exists e, auto, table, en, (pa_request_id p), (pa_access_public_key p), e0, n0, entry, d.
  split_and!; [by apply asked_later|done|congruence|by rewrite <-B6| |].
  - right. exists evs, a, r, d, c, []. split_and!; [done|congruence|by eexists auto, table, _, _|done|].
    unfold after, history in *. by rewrite foldl_app.
  - destruct (decide ((en_from e, sh_folder_id en) = (en_from e0, sh_folder_id n0))) as [E|E]; [left; by injection E as -> ->|right].
    split; [congruence|done].
Qed.

Lemma announce_reasons evs l d c s : reasons evs s → reasons evs (announce_all me l d c s).
Proof.
  revert s. induction l as [|e l IH]; intros s H; cbn [announce_all]; [done|].
  assert (Hs : reasons evs (announce_state me e d c s).1).
  { unfold announce_state. destruct (sh_last_cid e) as [cid|]; [|done]. destruct (sign_envelope _ _) as [g|] eqn:Eg; [|done].
    case_if; [|done]. apply reasons_sent; [done|]. intros Ht. rewrite (signed_type _ _ Eg) in Ht. by discriminate Ht. }
  destruct (announce_state me e d c s) as [s' []]; [by apply IH|done].
Qed.

Lemma deny_reasons evs id d c s : reasons evs s → reasons evs (deny me id d c s).1.
Proof.
  intros H. unfold deny. destruct (arg id) as [i|]; [|done]. destruct (get_pending i (pending s)) as [req|]; [|done].
  cbv zeta. assert (H1 : reasons evs (set_pending (remove_pending i (pending s)) s)).
  { destruct H as (?&?&?). split; [done|]. split; [by apply filter_forall|done]. }
  case_if; [done|]. destruct (find_share _ _) as [entry|]; [|done]. case_if; [done|].
  destruct (sign_envelope _ _) as [g|] eqn:Eg; [|done]. case_if; [|done]. apply reasons_sent; [done|].
  intros Ht. rewrite (signed_type _ _ Eg) in Ht. by discriminate Ht.
Qed.

Lemma step_reasons evs ev : reasons evs (after evs) → reasons (evs ++ [ev]) (step me ev (after evs)).
Proof.
  intros H. assert (Hl : reasons (evs ++ [ev]) (after evs)).
  { destruct H as (H1 & H2 & H3). split_and!; eapply Forall_impl; try done; intros; [by apply asked_later|by apply pending_later|by apply sent_later]. }
  destruct ev; cbn [step].
  - destruct Hl as (H1 & H2 & H3). unfold dispatch_request. destruct (allow_access _ _ _) as [m ok].
    do 3 (case_if; [done|]). split; [|done]. apply Forall_app. split; [done|]. constructor; [|done].
    by exists evs, now, c, [].
  - by apply task_reasons.
  - unfold dispatch_hello. destruct (allow_hello _ _ _) as [h ok]. do 2 (case_if; [done|]). by apply announce_reasons.
  - apply approve_reasons; [done|apply H].
  - by apply deny_reasons.
  - unfold allow_edit. destruct (arg folder_id); [|done]. destruct (arg requester); [|done]. do 2 (case_if; [done|]).
    destruct (find_share _ _); [|done]. cbv zeta. by do 2 (case_if; [done|]).
  - unfold add_share. by do 3 (case_if; [done|]).
  - unfold unshare. case_if; [done|]. destruct (find_share _ _); [|done]. case_if; [done|].
    destruct Hl as (H1 & H2 & H3). split; [done|]. split; [by apply filter_forall|done].
  - destruct Hl as (H1 & H2 & H3). split; [done|]. split; [by apply filter_forall|done].
Qed.
End reasons.

(** C31. No folder key leaves the owner without a reason. Every grant ever sent
    answers a request of the history that named the hash of the folder's key
    when it came in, and has that request's id and key. Either the configuration
    or the folder's allowlist granted it then, and it is bound to its sender and
    folder; or the owner later approved the short name of the request, and it is
    bound to the sender and the folder of the request that made the row under that
    name, with the key of the folder as it was shared at the approval. These are
    the answered request's own sender and folder, unless the two requests collide
    in the 48 bits of the name: then the grant joins one request's key to the
    other's sender. *)
Theorem grants_justified t0 evs g :
  g ∈ sent (history me evs (started t0)) → en_type g = "folder-access-grant" → grant_reason t0 evs g.
Proof.
  intros Hg. enough (reasons t0 evs (after t0 evs)) as (_ & _ & H) by (rewrite Forall_forall in H; by apply H).
  clear Hg. induction evs as [|ev evs IH] using rev_ind; [done|].
  unfold after, history. rewrite foldl_app. cbn [foldl]. apply step_reasons. by apply IH.
Qed.
End safety.
