(* ===== verification/Base64.v ===== *)
(** * Unpadded base64url

    A concrete encoder and decoder for the parameter [Crypto] of the wire
    format, for which the laws hold: three bytes become four letters of the
    alphabet [A-Za-z0-9-_], a last group of one or two bytes two or three. *)
From S2P Require Import Prelude Text Wire StorageDomain StorageLink.
From Stdlib Require Import Ascii.

Definition sextet : Type := bool * bool * bool * bool * bool * bool.

Definition sextet_value (s : sextet) : N :=
  let '(a, b, c, d, e, f) := s in
  (32 * N.b2n a + 16 * N.b2n b + 8 * N.b2n c + 4 * N.b2n d + 2 * N.b2n e + N.b2n f)%N.

Definition sextet_of (v : N) : sextet :=
  (N.testbit v 5, N.testbit v 4, N.testbit v 3, N.testbit v 2, N.testbit v 1, N.testbit v 0).

Definition letter (s : sextet) : ascii :=
  let v := sextet_value s in
  ascii_of_N (if (v <? 26)%N then 65 + v else if (v <? 52)%N then 71 + v else if (v <? 62)%N then v - 4
              else if (v =? 62)%N then 45 else 95)%N.

Definition unletter (c : ascii) : option sextet :=
  let v := N_of_ascii c in
  sextet_of <$> (if in_range "A"%char "Z"%char c then Some (v - 65)%N else if in_range "a"%char "z"%char c then Some (v - 71)%N
                 else if is_ascii_digit c then Some (v + 4)%N else if bool_decide (c = "-"%char) then Some 62%N
                 else if bool_decide (c = "_"%char) then Some 63%N else None).

Lemma unletter_letter s : unletter (letter s) = Some s.
Proof. by destruct s as [[[[[[] []] []] []] []] []]. Qed.

Lemma letter_plain s : is_b64url (letter s) = true.
Proof. by destruct s as [[[[[[] []] []] []] []] []]. Qed.

(** A byte has its lowest bit first. *)
Fixpoint encode (s : string) : string :=
  match s with
  | "" => ""
  | String (Ascii a0 a1 a2 a3 a4 a5 a6 a7) "" =>
      String (letter (a7, a6, a5, a4, a3, a2)) (String (letter (a1, a0, false, false, false, false)) "")
  | String (Ascii a0 a1 a2 a3 a4 a5 a6 a7) (String (Ascii b0 b1 b2 b3 b4 b5 b6 b7) "") =>
      String (letter (a7, a6, a5, a4, a3, a2)) (String (letter (a1, a0, b7, b6, b5, b4))
        (String (letter (b3, b2, b1, b0, false, false)) ""))
  | String (Ascii a0 a1 a2 a3 a4 a5 a6 a7) (String (Ascii b0 b1 b2 b3 b4 b5 b6 b7) (String (Ascii c0 c1 c2 c3 c4 c5 c6 c7) s)) =>
      String (letter (a7, a6, a5, a4, a3, a2)) (String (letter (a1, a0, b7, b6, b5, b4))
        (String (letter (b3, b2, b1, b0, c7, c6)) (String (letter (c5, c4, c3, c2, c1, c0)) (encode s))))
  end.

(** The bits a last group leaves over must be zero. *)
Fixpoint decode (s : string) : option string :=
  match s with
  | "" => Some ""
  | String x (String y "") =>
      match unletter x, unletter y with
      | Some (a7, a6, a5, a4, a3, a2), Some (a1, a0, false, false, false, false) =>
          Some (String (Ascii a0 a1 a2 a3 a4 a5 a6 a7) "")
      | _, _ => None
      end
  | String x (String y (String z "")) =>
      match unletter x, unletter y, unletter z with
      | Some (a7, a6, a5, a4, a3, a2), Some (a1, a0, b7, b6, b5, b4), Some (b3, b2, b1, b0, false, false) =>
          Some (String (Ascii a0 a1 a2 a3 a4 a5 a6 a7) (String (Ascii b0 b1 b2 b3 b4 b5 b6 b7) ""))
      | _, _, _ => None
      end
  | String x (String y (String z (String w s))) =>
      match unletter x, unletter y, unletter z, unletter w, decode s with
      | Some (a7, a6, a5, a4, a3, a2), Some (a1, a0, b7, b6, b5, b4), Some (b3, b2, b1, b0, c7, c6),
        Some (c5, c4, c3, c2, c1, c0), Some rest =>
          Some (String (Ascii a0 a1 a2 a3 a4 a5 a6 a7) (String (Ascii b0 b1 b2 b3 b4 b5 b6 b7)
            (String (Ascii c0 c1 c2 c3 c4 c5 c6 c7) rest)))
      | _, _, _, _, _ => None
      end
  | String _ "" => None
  end.

(** Induction by groups of three bytes. *)
Lemma groups (P : string → Prop) :
  P "" → (∀ a, P (String a "")) → (∀ a b, P (String a (String b ""))) →
  (∀ a b c s, P s → P (String a (String b (String c s)))) → ∀ s, P s.
Proof.
  intros H0 H1 H2 H3 s. enough (H : P s ∧ (∀ a, P (String a s)) ∧ ∀ a b, P (String a (String b s))) by apply H.
  induction s as [|c s (IH1 & IH2 & IH3)]; [by split_and!|]. split_and!; [apply IH2|intros; apply IH3|]. intros. by apply H3.
Qed.

Lemma decode_encode s : decode (encode s) = Some s.
Proof.
  induction s as [|[]|[] []|[] [] [] s IH] using groups; cbn [encode decode]; rewrite ?unletter_letter, ?IH; done.
Qed.

Lemma encode_plain s : string_forallb is_b64url (encode s) = true.
Proof.
  induction s as [|[]|[] []|[] [] [] s IH] using groups; cbn [encode string_forallb]; rewrite ?letter_plain, ?IH; done.
Qed.

Lemma encode_length s : (3 * String.length (encode s) = 4 * String.length s + (if decide (String.length s mod 3 = 0) then 0 else if decide (String.length s mod 3 = 1) then 2 else 1))%nat.
Proof.
  induction s as [|[]|[] []|[] [] [] s IH] using groups; try done. cbn [encode String.length].
  replace (S (S (S (String.length s))) mod 3)%nat with (String.length s mod 3)%nat; [lia|].
  generalize (String.length s). intros n. replace (S (S (S n))) with (n + 1 * 3)%nat by lia. by rewrite Nat.Div0.mod_add.
Qed.

(** ** The parameter of the wire format *)
#[export] Instance crypto64 : Crypto := {|
  sha256 := @sha256 Toy.crypto; bs58_decode := @bs58_decode Toy.crypto; b64url_encode := encode; b64url_decode := decode;
  key_from_bytes := @key_from_bytes Toy.crypto; signature_try_from := @signature_try_from Toy.crypto;
  ed_verify := @ed_verify Toy.crypto; ed_sign := @ed_sign Toy.crypto; ed_public := @ed_public Toy.crypto;
  json_quote := @json_quote Toy.crypto; float_display := @float_display Toy.crypto |}.

#[export] Instance laws64 : CryptoLaws crypto64.
Proof.
  split; intros.
  - apply decode_encode.
  - change (Z.of_nat (String.length (encode (Toy.signature sk m))) = 86).
    pose proof (encode_length (Toy.signature sk m)) as H. rewrite Toy.signature_len in H.
    change (3 * String.length (encode (Toy.signature sk m)) = 258)%nat in H. lia.
  - apply (@signature_parses Toy.crypto Toy.laws).
  - apply (@public_key_valid Toy.crypto Toy.laws).
  - apply (@ed_correct Toy.crypto Toy.laws).
Qed.

Lemma trim_end_plain p s : string_forallb (λ c, negb (p c)) s = true → trim_end_char p s = s.
Proof.
  induction s as [|c s IH]; [done|]. cbn [string_forallb trim_end_char]. intros [Hc Hs]%andb_true_iff. rewrite IH by done.
  apply negb_true_iff in Hc. by rewrite Hc, andb_false_r.
Qed.

Lemma unpadded64 : unpadded.
Proof.
  intros s. apply trim_end_plain. cbn. eapply string_forallb_impl; [|apply encode_plain]. intros c Hc.
  apply b64url_plain in Hc as (_&_&H&_). unfold is_eq. by rewrite bool_decide_false.
Qed.
