(* ===== verification/StorageGrant.v ===== *)
(** * Shared folders: from a request to the key, and back

    Theorems that join [StorageAccess], the owner's side, to [StorageSync], the
    requester's: a request that is granted by itself or approved brings the
    requester the folder's key, and a name that is taken off the allowlist
    stays off it. *)
From S2P Require Import Prelude Effects Text Json Wire DmWire IdentityPairing StorageDomain StoragePaths StorageLink StorageSync.
From S2P Require Import StorageAccess StorageAccessSafety Base64.

(** ** The key arrives *)
Section arrival.
Context `{C : Crypto} `{!CryptoLaws C} `{S : Sealing} `{!SealingLaws S} {HM : Hmac} {T : JsonText} {V : ShareValues}.
Context (Hunpadded : unpadded).
Context (owner peer : Identity) (Howner : identity_wf owner) (Hpeer : identity_wf peer).

Definition works : Calls := {| can_read := true; can_write := true; has_identity := true; can_send := true |}.

(** The two sides speak of the same folder. *)
Definition same_folder (sync : SyncEntry) (share : SharedFolder) : Prop :=
  se_folder_id sync = sh_folder_id share ∧ se_owner_node_id sync = did owner
  ∧ se_folder_key_hash sync = folder_key_hash (sh_folder_id share) (sh_passphrase share).

Lemma sign_own (e : ShareEnvelope) (id : Identity) : identity_wf id → en_from e = did id →
  sign_envelope e id = Ok (with_signature (Some (b64url_encode (sign id (envelope_signing_payload e)))) e).
Proof. intros Hid He. unfold sign_envelope. by rewrite He, (pubkey_did_key _ _ Hid). Qed.

Lemma request_validates sync share table request_id sent_at secret q :
  same_folder sync share → find_share (sh_folder_id share) table = Some share →
  folder_key_hash (sh_folder_id share) (sh_passphrase share) ≠ "" →
  sign_envelope (access_request peer sync request_id sent_at secret) peer = Ok q →
  validate_access_request owner table q = Some (share, request_id, access_public_key secret) ∧ en_from q = did peer.
Proof.
  intros (Hf & Ho & Hh) Ht Hne. rewrite sign_own by done. intros [= <-]. split; [|done]. unfold validate_access_request.
  cbn [en_target_node_id en_from en_folder_id en_request_id en_access_public_key en_folder_key_hash with_signature access_request
    is_some_and default]. rewrite Ho, bool_decide_true, (pubkey_did_key _ _ Hpeer), Hf, Ht, Hh by done. cbn [negb].
  unfold matches_folder_key_hash. by rewrite bool_decide_false, bool_decide_true.
Qed.

Definition strangers (request_id : string) (heard : list ShareEnvelope) : Prop :=
  Forall (λ e, en_from e = did owner → en_request_id e ≠ Some request_id) heard.

Lemma await_skips request_id folder_id hash secret heard rest : strangers request_id heard →
  await_grant (did owner) request_id folder_id hash secret (heard ++ rest)
    = await_grant (did owner) request_id folder_id hash secret rest.
Proof.
  induction 1 as [|e l He _ IH]; [done|]. cbn [app await_grant]. rewrite IH.
  destruct (decide (en_from e = did owner)) as [Hf|Hf].
  - rewrite (bool_decide_false (en_request_id e = _)) by auto. rewrite andb_false_r. cbn [andb negb]. by rewrite orb_true_r.
  - rewrite (bool_decide_false (en_from e = _)) by done. rewrite andb_false_r. cbn [negb]. by rewrite orb_true_r.
Qed.

(** The grant for a request opens for the one who holds the request's secret. *)
Lemma grant_opens share request_id target secret d g heard rest :
  folder_key_hash (sh_folder_id share) (sh_passphrase share) ≠ "" → sh_passphrase share ≠ "" → slen (dr_iv d) = 12 →
  from_slice (to_vec (obj [("key", JString (sh_passphrase share))])) = Some (obj [("key", JString (sh_passphrase share))]) →
  build_grant_envelope owner share request_id target (access_public_key secret) d = Ok g → strangers request_id heard →
  await_grant (did owner) request_id (sh_folder_id share) (folder_key_hash (sh_folder_id share) (sh_passphrase share)) secret
    (heard ++ g :: rest) = Ok (sh_passphrase share, sh_last_cid share).
Proof.
  intros Hh Hp Hiv Hj Hg Hs. rewrite await_skips by done. revert Hg. unfold build_grant_envelope.
  intros (grant & Hb & Hsig)%rbind_Ok. rewrite sign_own in Hsig by done. injection Hsig as <-. cbn [await_grant].
  cbn [en_type en_request_id en_from en_access_grant_public_key en_access_grant_iv en_access_grant_cipher_text en_cid
    with_signature grant_envelope]. rewrite (bool_decide_false ("folder-access-grant" = _)) by done. rewrite !bool_decide_true by done.
  cbn [andb orb negb]. rewrite (open_grant Hunpadded secret _ _ _ _ _ _ grant Hiv Hp Hj Hb). cbn [context map_err rbind].
  unfold matches_folder_key_hash. by rewrite bool_decide_false, bool_decide_true.
Qed.

Lemma grant_built share request_id secret d :
  ∃ g, ∀ l, build_grant_envelope owner (set_allowed l share) request_id (did peer) (access_public_key secret) d = Ok g
    ∧ build_grant_envelope owner share request_id (did peer) (access_public_key secret) d = Ok g.
Proof.
  unfold build_grant_envelope, build_access_grant, access_public_key. rewrite Hunpadded, b64url_roundtrip. cbn [ok_or rbind].
  rewrite p256_public_valid. cbn [negb rbind]. rewrite sign_own by done. eexists. intros l. split; [|done].
  by rewrite sign_own.
Qed.

(** The owner is free to take the peer's request. *)
Definition idle (s : State) : Prop := tasks s = [] ∧ asked s !! did peer = None ∧ zsize (asked s) < HELLO_MAX_TRACKED.

Lemma request_taken now auto q s : idle s → en_from q = did peer →
  let s1 := dispatch_request now auto works q s in
  tasks s1 = [{| tk_entries := shares s; tk_envelope := q; tk_auto_grant := auto |}]
  ∧ shares s1 = shares s ∧ pending s1 = pending s ∧ sent s1 = sent s.
Proof.
  intros (Ht & Ha & Hz) Hq. unfold dispatch_request, allow_access. rewrite (proj2 (Z.leb_gt _ _) Hz), Hq, Ha.
  cbn [is_some_and]. rewrite (proj2 (Z.leb_gt _ _) Hz). cbn [negb works can_read]. cbn [tasks set_asked]. by rewrite Ht.
Qed.

Section one.
Context (sync : SyncEntry) (share : SharedFolder) (request_id sent_at secret : string) (d : Draw) (s : State).
Context (Hsame : same_folder sync share) (Hfound : find_share (sh_folder_id share) (shares s) = Some share).
Context (Hhash : folder_key_hash (sh_folder_id share) (sh_passphrase share) ≠ "").
Context (q g : ShareEnvelope) (Hq : sign_envelope (access_request peer sync request_id sent_at secret) peer = Ok q).
Context (Hg : ∀ l, build_grant_envelope owner (set_allowed l share) request_id (did peer) (access_public_key secret) d = Ok g
    ∧ build_grant_envelope owner share request_id (did peer) (access_public_key secret) d = Ok g).
Context (Hidle : idle s) (now : Z) (now' : Z) (first_seen : string).

Definition answered (auto : bool) (d' : Draw) : State := run_task owner 0 now' first_seen d' works (dispatch_request now auto works q s).

Lemma granted_at_once auto : auto = true ∨ is_allowed (did peer) share = true → sent (answered auto d) = sent s ++ [g].
Proof.
  intros Hauto. destruct (request_validates sync share (shares s) request_id sent_at secret q Hsame Hfound Hhash Hq) as [Hv Hfrom].
  destruct (request_taken now auto q s Hidle Hfrom) as (Ht & Hs & Hp & Hsent). unfold answered, run_task, take_task.
  rewrite Ht. cbn [lookup list_lookup delete list_delete]. unfold handle_access_request. cbn [tk_entries tk_envelope tk_auto_grant].
  rewrite Hv, Hfrom, (proj2 (orb_true_iff _ _) Hauto). unfold send_grant. rewrite (proj2 (Hg [])). cbn [can_send works fst sent send].
  cbn [sent set_tasks]. by rewrite Hsent.
Qed.

Lemma granted_on_approval remember d' : pending s = [] → is_allowed (did peer) share = false →
  let id := pending_id (did peer) (sh_folder_id share) in arg id = Ok id →
  sent (approve owner id remember d works (answered false d')).1 = sent s ++ [g].
Proof.
  intros Hempty Hno id Hid. destruct (request_validates sync share (shares s) request_id sent_at secret q Hsame Hfound Hhash Hq) as [Hv Hfrom].
  destruct (request_taken now false q s Hidle Hfrom) as (Ht & Hs & Hp & Hsent). unfold answered, run_task, take_task.
  rewrite Ht. cbn [lookup list_lookup delete list_delete]. unfold handle_access_request. cbn [tk_entries tk_envelope tk_auto_grant].
  rewrite Hv, Hfrom, Hno. cbn [orb]. set (s1 := set_tasks _ _). assert (H1 : pending s1 = [] ∧ shares s1 = shares s ∧ sent s1 = sent s).
  { unfold s1. cbn [pending shares sent set_tasks]. by rewrite Hp, Hs, Hsent. }
  clearbody s1. destruct H1 as (P1 & S1 & T1). rewrite P1. unfold offer. cbn [prune List.filter refresh_first].
  change (PENDING_MAX_TOTAL <=? zlen []) with false. unfold from_peer. cbn [List.filter].
  change (PENDING_MAX_PER_PEER <=? zlen []) with false. cbn [app fst]. unfold approve. rewrite Hid.
  cbn [pending shares set_pending]. unfold get_pending. cbn [List.find pa_id]. fold id. rewrite bool_decide_true by done.
  cbn [has_identity can_read works negb pa_folder_id]. rewrite S1, Hfound. cbv zeta. cbn [pa_requester_did pa_request_id pa_access_public_key can_write].
  rewrite andb_false_r. unfold send_grant.
  destruct (remember && negb (is_allowed (did peer) share) && (zlen (sh_allowed_requesters share) <? MAX_ALLOWED_REQUESTERS));
    rewrite ?(proj1 (Hg _)), ?(proj2 (Hg [])); cbn [can_send works fst sent send set_pending set_shares]; by rewrite T1.
Qed.
End one.

(** C7: the folder's key reaches the one who asks for it. The request a
    recipient of the link sends verifies and is validated; the owner answers it
    with a grant, at once where the allowlist or the configuration says so and
    otherwise when it is approved; the grant verifies, and the recipient reads
    from it the folder's passphrase and last CID, whatever others send first. *)
Theorem grant_reaches_requester sync share request_id sent_at secret d s :
  same_folder sync share → find_share (sh_folder_id share) (shares s) = Some share → idle s →
  folder_key_hash (sh_folder_id share) (sh_passphrase share) ≠ "" → sh_passphrase share ≠ "" → slen (dr_iv d) = 12 →
  from_slice (to_vec (obj [("key", JString (sh_passphrase share))])) = Some (obj [("key", JString (sh_passphrase share))]) →
  ∃ q g, sign_envelope (access_request peer sync request_id sent_at secret) peer = Ok q
    ∧ verify_envelope q = true ∧ verify_envelope g = true
    ∧ (∀ auto now now' seen, auto = true ∨ is_allowed (did peer) share = true →
        sent (answered s q now now' seen auto d) = sent s ++ [g])
    ∧ (let id := pending_id (did peer) (sh_folder_id share) in
       ∀ remember d' now now' seen, pending s = [] → is_allowed (did peer) share = false → arg id = Ok id →
        sent (approve owner id remember d works (answered s q now now' seen false d')).1 = sent s ++ [g])
    ∧ ∀ heard rest, strangers request_id heard →
        await_grant (se_owner_node_id sync) request_id (se_folder_id sync) (se_folder_key_hash sync) secret (heard ++ g :: rest)
          = Ok (sh_passphrase share, sh_last_cid share).
Proof.
  intros Hsame Hfound Hidle Hhash Hpass Hiv Hj. destruct (grant_built share request_id secret d) as (g & Hg).
  pose proof (sign_own (access_request peer sync request_id sent_at secret) peer Hpeer eq_refl) as Hq.
  exists (with_signature (Some (b64url_encode (sign peer (envelope_signing_payload (access_request peer sync request_id sent_at secret)))))
    (access_request peer sync request_id sent_at secret)), g.
  split; [done|]. split; [by refine (verify_signed Hunpadded _ peer _ Hpeer _ Hq)|]. split; [|split; [|split]].
  - pose proof (proj2 (Hg [])) as Hb. unfold build_grant_envelope in Hb. apply rbind_Ok in Hb as (x & _ & Hb).
    by refine (verify_signed Hunpadded _ owner _ Howner _ Hb).
  - intros. by eapply granted_at_once.
  - intros. by eapply granted_on_approval.
  - destruct Hsame as (-> & -> & ->). intros. by eapply grant_opens; [..|apply (proj2 (Hg []))|].
Qed.
End arrival.

(** ** A name that is taken off *)
Section revocation.
Context `{C : Crypto} {S : Sealing} {HM : Hmac} {T : JsonText} {V : ShareValues}.
Context (me : Identity) (folder_id did : string).

(** The peer is not on the allowlist of any share of the folder. *)
Definition shut (t : list SharedFolder) : Prop := Forall (λ e, sh_folder_id e = folder_id → is_allowed did e = false) t.

(** The name stands for the peer: its DID, or the hex of its node id. *)
Definition stands_for (name : string) : Prop := is_node_id name = false ∧ name = did ∨ is_node_id name = true ∧ name = node_id_for_did did.

Lemma is_allowed_spec e : is_allowed did e = false ↔ did ∉ sh_allowed_requesters e ∧ node_id_for_did did ∉ sh_allowed_requesters e.
Proof.
  unfold is_allowed. rewrite orb_false_iff, <-!not_true_iff_false, !contains_true. done.
Qed.

Lemma taken_off e name : stands_for name →
  is_allowed did (set_allowed (List.filter (λ a, negb (bool_decide (a = name)) && negb (bool_decide (a = target_node name))
    && negb (bool_decide (node_id_for_did a = target_node name))) (sh_allowed_requesters e)) e) = false.
Proof.
  intros Hn. apply is_allowed_spec. cbn [sh_allowed_requesters set_allowed]. unfold target_node.
  destruct Hn as [[Hn ->]|[Hn ->]]; rewrite Hn; split; intros [_ Hf]%list_elem_of_In%filter_In;
    cbv beta in Hf; rewrite !andb_true_iff, !negb_true_iff, !bool_decide_eq_false in Hf; naive_solver.
Qed.

Lemma update_share_shut id f t :
  shut t → (∀ e, e ∈ t → sh_folder_id e = folder_id → is_allowed did e = false → is_allowed did (f e) = false) →
  (∀ e, sh_folder_id (f e) = sh_folder_id e) → shut (update_share id f t).
Proof.
  intros Ht Hf Hid. induction t as [|e t IH]; cbn [update_share]; [constructor|]. inversion_clear Ht as [|?? He Ht'].
  destruct (is_share id e).
  - constructor; [|done]. rewrite Hid. intros E. apply Hf; [by left|done|by apply He].
  - constructor; [done|]. apply IH; [done|]. intros x Hx. apply Hf. by right.
Qed.

Lemma update_unique f t : NoDup (map sh_folder_id t) → (∀ e, sh_folder_id (f e) = sh_folder_id e) →
  (∀ e, e ∈ t → is_allowed did (f e) = false) → shut (update_share folder_id f t).
Proof.
  intros Hnd Hid Hf. induction t as [|e t IH]; cbn [update_share]; [constructor|].
  cbn [map] in Hnd. apply NoDup_cons in Hnd as [Hnew Hnd]. unfold is_share. case_bool_decide as He.
  - constructor; [intros _; apply Hf; by left|]. apply Forall_forall. intros x Hx E. exfalso. apply Hnew. rewrite He, <-E.
    apply (list_elem_of_fmap_2 sh_folder_id), Hx.
  - constructor; [done|]. apply IH; [done|]. intros x Hx. apply Hf. by right.
Qed.

(** Nothing of the history puts the peer back. *)
Definition keeps_out (evs : list Event) : Prop :=
  (∀ id d c, Approve id true d c ∉ evs)
  ∧ (∀ f r c, AllowEdit f r true c ∈ evs → trim r ≠ did ∧ trim r ≠ node_id_for_did did)
  ∧ ∀ e c, Share e c ∈ evs → is_allowed did e = false.

Lemma edit_shut f r a c s : (a = true → trim r ≠ did ∧ trim r ≠ node_id_for_did did) →
  shut (shares s) → shut (shares (allow_edit f r a c s).1).
Proof.
  intros Hr Hs. unfold allow_edit. destruct (arg f) as [i|]; [|done]. destruct (arg r) as [x|] eqn:Ex; [|done]. apply arg_ok in Ex.
  do 2 (case_if; [done|]). destruct (find_share i (shares s)) as [entry|] eqn:Ef; [|done]. cbv zeta. do 2 (case_if; [done|]).
  cbn [fst shares set_shares]. unfold find_share in Ef. induction (shares s) as [|e t IH]; [done|]. inversion_clear Hs as [|?? He Ht].
  cbn [List.find update_share] in *. destruct (is_share i e) eqn:Ei; [|constructor; [done|by apply IH]]. injection Ef as ->.
  constructor; [|done]. cbn [sh_folder_id set_allowed]. intros E. specialize (He E). apply is_allowed_spec in He as [H1 H2].
  apply is_allowed_spec. cbn [sh_allowed_requesters set_allowed]. destruct a.
  - destruct (Hr eq_refl) as [H3 H4]. rewrite Ex in H3, H4. destruct (contains _ _); [done|].
    rewrite !elem_of_app, !list_elem_of_singleton. naive_solver.
  - split; intros [? _]%list_elem_of_In%filter_In; [apply H1|apply H2]; by apply list_elem_of_In.
Qed.

Lemma drop_shut id t : shut t → shut (drop_share id t).
Proof. apply drop_share_forall. Qed.

Lemma approve_shut id d c s : shut (shares s) → shut (shares (approve me id false d c s).1).
Proof.
  intros H. unfold approve. destruct (arg id); [|done]. destruct (get_pending _ _) as [p|]; [|done]. do 2 (case_if; [done|]).
  destruct (find_share _ _) as [entry|]; [|done]. cbn [andb]. cbv zeta.
  pose proof (send_grant_sent me entry (pa_request_id p) (pa_requester_did p) (pa_access_public_key p) d c s) as (Hs & _).
  destruct (send_grant _ _ _ _ _ _ _ _) as [s2 [|]]; cbn [fst shares set_pending] in *; by rewrite Hs.
Qed.

Lemma task_shares n now f d c s : shares (run_task me n now f d c s) = shares s.
Proof.
  unfold run_task, take_task. destruct (tasks s !! n) as [t|]; [|done]. unfold handle_access_request.
  destruct (validate_access_request _ _ _) as [[[e q] k]|]; [|done]. case_if; [|done].
  by destruct (send_grant_sent me e q (en_from (tk_envelope t)) k d c (set_tasks (delete n (tasks s)) s)) as (-> & _).
Qed.

Lemma step_shut ev s : keeps_out [ev] → shut (shares s) → shut (shares (step me ev s)).
Proof.
  intros (Hap & Hed & Hsh) H. destruct ev; cbn [step].
  - unfold dispatch_request. destruct (allow_access _ _ _). by do 3 (case_if; [done|]).
  - by rewrite task_shares.
  - unfold dispatch_hello. destruct (allow_hello _ _ _) as [h ok]. do 2 (case_if; [done|]).
    by destruct (announce_all_sent me (List.filter (λ x, bool_decide (sh_room_id x = en_room_id e)) (shares (set_hello h s))) d c (set_hello h s)) as (-> & _).
  - destruct remember; [|by apply approve_shut]. exfalso. apply (Hap id d c). by left.
  - unfold deny. destruct (arg id); [|done]. destruct (get_pending _ _); [|done]. cbv zeta. case_if; [done|].
    destruct (find_share _ _); [|done]. case_if; [done|]. destruct (sign_envelope _ _); [|done]. by case_if.
  - apply edit_shut; [|done]. intros ->. apply (Hed folder_id0 requester c). by left.
  - unfold add_share. do 3 (case_if; [done|]). apply Forall_app. split; [done|]. constructor; [|done]. intros _. apply (Hsh entry c). by left.
  - unfold unshare. case_if; [done|]. destruct (find_share _ _); [|done]. case_if; [done|]. by apply drop_shut.
  - done.
Qed.

(** A revocation holds. Once the owner has taken a peer off a folder's
    allowlist, under its DID or its node id, no share of that folder lists the
    peer, whatever peers send and the owner does, until the owner adds it again,
    has an approval remembered, or shares the folder anew with it. *)
Theorem revocation_holds folder_arg name c s s' evs :
  NoDup (map sh_folder_id (shares s)) → trim folder_arg = folder_id → stands_for (trim name) →
  allow_edit folder_arg name false c s = (s', Ok tt) → keeps_out evs →
  ∀ e, e ∈ shares (history me evs s') → sh_folder_id e = folder_id → is_allowed did e = false.
Proof.
  intros Hnd Hf Hn He Hk. assert (Hs : shut (shares s')).
  { revert He. unfold allow_edit. destruct (arg folder_arg) as [i|] eqn:Ei; [|done]. apply arg_ok in Ei. rewrite Hf in Ei. subst i.
    destruct (arg name) as [x|] eqn:Ex; [|done]. apply arg_ok in Ex. rewrite Ex in Hn. cbn [andb]. case_if; [done|].
    destruct (find_share folder_id (shares s)) as [entry|] eqn:Ef; [|done]. cbv zeta. case_if; [done|]. intros [= <-].
    cbn [shares set_shares]. set (l := List.filter _ _).
    assert (Hl : ∀ e, is_allowed did (set_allowed l e) = false).
    { intros e. pose proof (taken_off entry x Hn) as Ho. unfold is_allowed in *. exact Ho. }
    by apply update_unique. }
  enough (Hh : shut (shares (history me evs s'))) by (intros e Hin Hid; unfold shut in Hh; rewrite Forall_forall in Hh; by apply Hh).
  revert Hk Hs. clear. unfold history. revert s'. induction evs as [|ev evs IH]; intros s (H1 & H2 & H3) Hs; [done|].
  cbn [foldl]. apply IH.
  - split_and!; [intros id d c H; eapply H1; by right|intros f r c H; eapply H2; by right|intros e c H; eapply H3; by right].
  - apply step_shut; [|done]. split_and!; [intros id d c H|intros f r c H|intros e c H]; apply list_elem_of_singleton in H as <-;
      [eapply H1|eapply H2|eapply H3]; by left.
Qed.
End revocation.

(** ** On concrete histories *)
Module AccessRuns.
Import ToySeal Wire.Toy.
#[local] Instance crypto : Crypto | 0 := crypto64.
#[local] Instance laws : CryptoLaws crypto | 0 := laws64.
#[local] Instance mac : Hmac | 0 := SyncToy.hmac.
#[local] Instance values : ShareValues | 0 := SyncToy.share_values.

(** Enough of JSON for the payload of a grant. *)
#[local] Instance json : JsonText | 0 := {| to_vec v := default "" (get_str "key" v); from_slice s := Some (obj [("key", JString s)]) |}.

Lemma bob_wf : identity_wf bob.
Proof. by vm_compute. Qed.
Lemma alice_wf64 : identity_wf alice.
Proof. by vm_compute. Qed.

Definition docs : SharedFolder := {|
  sh_folder_id := "f"; sh_folder_name := "Docs"; sh_local_dir := ["home"; "Docs"]; sh_room_id := "room"; sh_passphrase := "pass";
  sh_folder_key_hash := folder_key_hash "f" "pass"; sh_access_grant_mode := "owner"; sh_last_cid := Some "cid";
  sh_last_folder_signature := None; sh_created_at := "t"; sh_last_published_at := None; sh_folders := []; sh_files := [];
  sh_path_index := {| pi_folder_ids := ∅; pi_file_ids := ∅; pi_file_stats := ∅ |}; sh_allowed_requesters := [] |}.

Definition sync : SyncEntry := {|
  se_folder_id := "f"; se_folder_name := "Docs"; se_owner_node_id := did alice; se_room_id := "room";
  se_folder_key_hash := folder_key_hash "f" "pass"; se_folder_key := ""; se_share_url := "url"; se_local_dir := ["d"];
  se_sandbox_dir := ""; se_status := STATUS_CONNECTING; se_last_cid := None; se_last_folder_signature := None;
  se_started_at := "t"; se_last_synced_at := None; se_last_clock := 0; se_last_error := None; se_folders := []; se_files := [] |}.

Definition draw : Draw := {| dr_secret := "s"; dr_iv := "0123456789ab"; dr_sent_at := "t"; dr_clock := 1 |}.
Definition request : ShareEnvelope := access_request bob sync "access-1" "t" "mine".
Definition bob_waits : string := pending_id (did bob) "f".

Definition day : list Event := [Request 0 false works request; Answer 0 1 "t" draw works; Approve bob_waits true draw works].
Definition granted : ShareEnvelope := default request (last (sent (history alice day (started [docs])))).

Lemma access_bounded_witness :
  Forall short [docs] ∧ (∀ e c, Share e c ∈ day → short e)
  ∧ let s := history alice day (started [docs]) in
    zlen (pending s) ≤ 64 ∧ (∀ did, zlen (from_peer did (pending s)) ≤ 4) ∧ zlen (tasks s) ≤ 8
    ∧ zsize (asked s) ≤ 1024 ∧ zsize (last_by_peer (hello s)) ≤ 1024
    ∧ ∀ e, e ∈ shares s → zlen (sh_allowed_requesters e) ≤ 256.
Proof.
  assert (H1 : Forall short [docs]) by (constructor; [by vm_compute|constructor]).
  assert (H2 : ∀ e c, Share e c ∈ day → short e).
  { intros e c H. unfold day in H. rewrite !elem_of_cons in H. destruct H as [?|[?|[?|[]%elem_of_nil]]]; done. }
  split; [exact H1|]. split; [exact H2|]. exact (access_bounded alice day [docs] H1 H2).
Defined.

Lemma grants_justified_witness :
  granted ∈ sent (history alice day (started [docs])) ∧ en_type granted = "folder-access-grant"
  ∧ grant_reason alice [docs] day granted.
Proof.
  assert (H1 : granted ∈ sent (history alice day (started [docs]))).
  { apply list_elem_of_lookup. exists 0%nat. by vm_compute. }
  assert (H2 : en_type granted = "folder-access-grant") by by vm_compute.
  split; [exact H1|]. split; [exact H2|].
  exact (grants_justified alice [docs] day granted H1 H2).
Defined.

Lemma grant_reaches_requester_witness :
  ∃ q g, sign_envelope (access_request bob sync "access-1" "t" "mine") bob = Ok q
    ∧ verify_envelope q = true ∧ verify_envelope g = true
    ∧ (∀ auto now now' seen, auto = true ∨ is_allowed (did bob) docs = true →
        sent (answered alice (started [docs]) q now now' seen auto draw) = sent (started [docs]) ++ [g])
    ∧ (let id := pending_id (did bob) (sh_folder_id docs) in
       ∀ remember d' now now' seen, pending (started [docs]) = [] → is_allowed (did bob) docs = false → arg id = Ok id →
        sent (approve alice id remember draw works (answered alice (started [docs]) q now now' seen false d')).1
          = sent (started [docs]) ++ [g])
    ∧ ∀ heard rest, strangers alice "access-1" heard →
        await_grant (se_owner_node_id sync) "access-1" (se_folder_id sync) (se_folder_key_hash sync) "mine" (heard ++ g :: rest)
          = Ok (sh_passphrase docs, sh_last_cid docs).
Proof.
  apply (grant_reaches_requester unpadded64 alice bob alice_wf64 bob_wf sync docs "access-1" "t" "mine" draw (started [docs]));
    [split_and!; by vm_compute|by vm_compute|split; [done|split; by vm_compute]|by vm_compute|done|by vm_compute|by vm_compute].
Defined.

(** The approval was remembered, and is then revoked. *)
Definition regrets : list Event := [Request (5 * SECOND) false works request; Answer 0 1 "t" draw works; Approve bob_waits false draw works].
Definition shared_with_bob : State := history alice day (started [docs]).
Definition revoked : State := (allow_edit "f" (did bob) false works shared_with_bob).1.

Lemma revocation_holds_witness :
  is_allowed (did bob) <$> head (shares shared_with_bob) = Some true
  ∧ ∀ e, e ∈ shares (history alice regrets revoked) → sh_folder_id e = "f" → is_allowed (did bob) e = false.
Proof.
  split; [by vm_compute|].
  apply (revocation_holds alice "f" (did bob) "f" (did bob) works shared_with_bob revoked regrets).
  - replace (map sh_folder_id (shares shared_with_bob)) with ["f"] by by vm_compute. by apply NoDup_singleton.
  - by vm_compute.
  - left. split; by vm_compute.
  - apply injective_projections; by vm_compute.
  - unfold keeps_out, regrets. split_and!; intros *; rewrite !elem_of_cons, elem_of_nil; intros [H|[H|[H|[]]]]; by simplify_eq.
Defined.

(** ASCII letters of the hex of a node id in upper case. *)
Definition upper (s : string) : string := String.string_of_list_ascii (map (λ c,
  if in_range "a"%char "f"%char c then Ascii.ascii_of_N (N_of_ascii c - 32) else c) (String.list_ascii_of_string s)).

(** A revocation by the node id in upper case is accepted and does nothing. *)
Example upper_case_revokes_nothing :
  let r := allow_edit "f" (upper (node_id_for_did (did bob))) false works shared_with_bob in
  r.2 = Ok tt ∧ is_allowed (did bob) <$> head (shares r.1) = Some true.
Proof. by vm_compute. Qed.

(** A request is approved long after it has expired, unless the list of
    requests is looked at in between. *)
Example expired_request_approved :
  let s := history alice [Request 0 false works request; Answer 0 1 "t" draw works; Greeting (2 * PENDING_TTL) draw works request]
             (started [docs]) in
  (approve alice bob_waits false draw works s).2 = Ok tt
  ∧ is_ok (approve alice bob_waits false draw works (step alice (Ls (2 * PENDING_TTL)) s)).2 = false.
Proof. by vm_compute. Qed.

(** Two requesters whose names agree in the 48 bits the queue goes by: the second
    takes over the row of the first, and the approval of the first sends the
    second's key to the first. *)
Definition twin : Identity := {|
  signing_key := "00000000000000000000000000000000"; did := "did:key:z00000000000000000000000000000000BOBBOBBOBBOBBOB" |}.
Example colliding_requests_mixed :
  let s := history alice [Request 0 false works request; Answer 0 1 "t" draw works;
             Request (5 * SECOND) false works (access_request twin sync "access-2" "t" "theirs"); Answer 0 (6 * SECOND) "t" draw works;
             Approve bob_waits false draw works] (started [docs]) in
  did twin ≠ did bob ∧ map (λ g, (en_type g, en_request_id g, en_target_node_id g)) (sent s)
    = [("folder-access-grant", Some "access-2", Some (did bob))].
Proof. by vm_compute. Qed.

(** A request that is being answered is granted although the folder is no
    longer shared. *)
Example granted_after_unshare :
  let s := history alice [Request 0 true works request; Unshare "f" works; Answer 0 1 "t" draw works] (started [docs]) in
  shares s = [] ∧ map en_type (sent s) = ["folder-access-grant"].
Proof. by vm_compute. Qed.
End AccessRuns.
