(* ===== verification/StorageScan.v ===== *)
(** * Shared folders: the owner's directory

    The scan of a shared directory in [src/src/storage/folder_owner.rs]: the
    walk over the tree and the update of the records of folders and files, with
    the index that gives each path its identifier. A new path is given a fresh
    identifier, a path that stays keeps its own, one that is gone leaves a
    tombstone. *)
From S2P Require Import Prelude Text Wire StorageDomain StoragePaths StorageLink StorageAccess.

(** ** The tree

    What the calls of the scan find: a directory that can or cannot be read, a
    file with what reading it gives and its size and time of modification, a
    symbolic link, something else, or an entry whose type cannot be read. The
    tree does not change while it is scanned. *)
Inductive tree :=
| TDir (entries : option (list (string * tree)))
| TFile (data : option string) (stat : option (Z * Z))
| TLink
| TOther
| TUnknown.

(** [rel_path], [parent_rel_path], [name] *)
Record WalkedDir := { wd_rel : string; wd_parent : option string; wd_name : string }.
(** What reading [abs_path] gives stands for the path. *)
Record WalkedFile := { wf_rel : string; wf_folder : string; wf_name : string; wf_data : option string; wf_size : Z; wf_mtime : Z }.

Definition to_string_lossy (name : string) : string := lossy_from 0 true name.
Definition child_rel (current_rel name : string) : string :=
  if bool_decide (current_rel = "") then name else current_rel +:+ "/" +:+ name.

Definition by_name {A} (a b : string * A) : Prop := String.le a.1 b.1.
#[global] Instance by_name_dec {A} : RelDecision (@by_name A).
Proof. intros a b. unfold by_name. apply _. Defined.

Definition Walked : Type := list WalkedDir * list WalkedFile.

(** One entry of a directory; [inside] walks it when it is a directory. *)
Definition walk_entry (current_rel file_name : string) (t : tree) (inside : string → result Walked Error) : result Walked Error :=
  let name := to_string_lossy file_name in
  let rel_path := child_rel current_rel name in
  match t with
  | TUnknown => Err ["stat"]
  | TLink | TOther => Ok ([], [])
  | TDir _ =>
      let? w := inside rel_path in
      Ok ({| wd_rel := rel_path; wd_parent := Some current_rel; wd_name := name |} :: w.1, w.2)
  | TFile data stat =>
      let? st := ok_or stat ["stat"] in
      Ok ([], [{| wf_rel := rel_path; wf_folder := current_rel; wf_name := name; wf_data := data; wf_size := st.1; wf_mtime := st.2 |}])
  end.

Fixpoint walk_entries (current_rel : string) (l : list (string * (tree * (string → result Walked Error)))) : result Walked Error :=
  match l with
  | [] => Ok ([], [])
  | (file_name, (t, inside)) :: l =>
      let? w := walk_entry current_rel file_name t inside in
      let? rest := walk_entries current_rel l in
      Ok (w.1 ++ rest.1, w.2 ++ rest.2)
  end.

(** The entries are sorted by name; the sort does not look at what is inside. *)
Fixpoint walk_recursive (t : tree) (current_rel : string) : result Walked Error :=
  match t with
  | TDir (Some entries) => walk_entries current_rel (merge_sort by_name (map (λ e, (e.1, (e.2, walk_recursive e.2))) entries))
  | _ => Err ["reading directory"]
  end.

Definition walk_shared_dir (root : tree) : result Walked Error :=
  let? w := walk_recursive root "" in
  Ok ({| wd_rel := ""; wd_parent := None; wd_name := "" |} :: w.1, w.2).

(** ** Identifiers and types *)

Fixpoint map_byte (n : nat) (f : N → N) (s : string) : string :=
  match s, n with
  | "", _ => ""
  | String c s, O => String (Ascii.ascii_of_N (f (N_of_ascii c))) s
  | String c s, S n => String c (map_byte n f s)
  end.

(** The text of sixteen random bytes. *)
Definition generate_uuid_v4 (bytes : string) : string :=
  let bytes := map_byte 6 (λ b, N.lor (N.land b 0x0f) 0x40) bytes in
  let bytes := map_byte 8 (λ b, N.lor (N.land b 0x3f) 0x80) bytes in
  let part a n := hex_encode (string_take n (string_drop a bytes)) in
  part 0%nat 4%nat +:+ "-" +:+ part 4%nat 2%nat +:+ "-" +:+ part 6%nat 2%nat +:+ "-" +:+ part 8%nat 2%nat +:+ "-" +:+ part 10%nat 6%nat.

(** [Path::extension] of a file name: what follows the last dot that is not the
    first byte. *)
Definition extension (name : string) : string :=
  if bool_decide (name = "..") then "" else
  match rsplit_once "."%char name with
  | Some (stem, ext) => if bool_decide (stem = "") then "" else ext
  | None => ""
  end.

Definition ascii_lower (c : ascii) : ascii := if in_range "A"%char "Z"%char c then Ascii.ascii_of_N (N_of_ascii c + 32) else c.
Fixpoint to_ascii_lowercase (s : string) : string :=
  match s with "" => "" | String c s => String (ascii_lower c) (to_ascii_lowercase s) end.

Definition mime_types : list (list string * string) := [
  (["txt"; "text"; "log"; "md"], "text/plain"); (["json"], "application/json"); (["html"; "htm"], "text/html");
  (["csv"], "text/csv"); (["png"], "image/png"); (["jpg"; "jpeg"], "image/jpeg"); (["gif"], "image/gif");
  (["webp"], "image/webp"); (["svg"], "image/svg+xml"); (["pdf"], "application/pdf"); (["zip"], "application/zip");
  (["mp3"], "audio/mpeg"); (["mp4"], "video/mp4"); (["wasm"], "application/wasm")].

Definition guess_mime (name : string) : string :=
  match List.find (λ e, contains e.1 (to_ascii_lowercase (extension name))) mime_types with
  | Some e => e.2
  | None => "application/octet-stream"
  end.

(** ** Records *)

Definition delete_folder (now : string) (r : FolderRecord) : FolderRecord := {|
  fd_id := fd_id r; fd_name := fd_name r; fd_parent_id := fd_parent_id r; fd_sort_order := fd_sort_order r;
  fd_color := fd_color r; fd_encrypted := fd_encrypted r; fd_share_enabled := fd_share_enabled r;
  fd_shared_room_id := fd_shared_room_id r; fd_last_cid := fd_last_cid r; fd_last_saved_at := fd_last_saved_at r;
  fd_last_shared_at := fd_last_shared_at r; fd_deleted_at := Some now; fd_created_at := fd_created_at r;
  fd_updated_at := now; fd_field_versions := fd_field_versions r |}.

Definition new_folder (id name : string) (parent_id : option string) (now : string) : FolderRecord := {|
  fd_id := id; fd_name := name; fd_parent_id := parent_id; fd_sort_order := None; fd_color := "slate"; fd_encrypted := true;
  fd_share_enabled := false; fd_shared_room_id := ""; fd_last_cid := None; fd_last_saved_at := None;
  fd_last_shared_at := None; fd_deleted_at := None; fd_created_at := now; fd_updated_at := now; fd_field_versions := None |}.

Definition root_folder_record (folder_id folder_name room now : string) : FolderRecord := {|
  fd_id := folder_id; fd_name := folder_name; fd_parent_id := None; fd_sort_order := None; fd_color := "slate";
  fd_encrypted := true; fd_share_enabled := true; fd_shared_room_id := room; fd_last_cid := None; fd_last_saved_at := None;
  fd_last_shared_at := None; fd_deleted_at := None; fd_created_at := now; fd_updated_at := now; fd_field_versions := None |}.

Definition delete_file (now : string) (r : FileRecord) : FileRecord := {|
  fl_id := fl_id r; fl_folder_id := fl_folder_id r; fl_sort_order := fl_sort_order r; fl_name := fl_name r;
  fl_mime_type := fl_mime_type r; fl_size := fl_size r; fl_data_url := fl_data_url r; fl_checksum := fl_checksum r;
  fl_version := fl_version r; fl_starred := fl_starred r; fl_last_cid := fl_last_cid r; fl_last_share_cid := fl_last_share_cid r;
  fl_deleted_at := Some now; fl_created_at := fl_created_at r; fl_updated_at := now; fl_field_versions := fl_field_versions r |}.

(** The version is an [i32]; its overflow wraps as in a release build. *)
Definition next_version (v : Z) : Z := (v + 1 + 2 ^ 31) `mod` 2 ^ 32 - 2 ^ 31.

Definition change_file (folder_id checksum mime_type : string) (size : Z) (now : string) (r : FileRecord) : FileRecord := {|
  fl_id := fl_id r; fl_folder_id := folder_id; fl_sort_order := fl_sort_order r; fl_name := fl_name r;
  fl_mime_type := mime_type; fl_size := size; fl_data_url := fl_data_url r; fl_checksum := checksum;
  fl_version := next_version (fl_version r); fl_starred := fl_starred r; fl_last_cid := fl_last_cid r;
  fl_last_share_cid := fl_last_share_cid r; fl_deleted_at := None; fl_created_at := fl_created_at r; fl_updated_at := now;
  fl_field_versions := fl_field_versions r |}.

Definition new_file (id folder_id name checksum : string) (size : Z) (now : string) : FileRecord := {|
  fl_id := id; fl_folder_id := folder_id; fl_sort_order := None; fl_name := name; fl_mime_type := guess_mime name;
  fl_size := size; fl_data_url := None; fl_checksum := checksum; fl_version := 1; fl_starred := false; fl_last_cid := None;
  fl_last_share_cid := None; fl_deleted_at := None; fl_created_at := now; fl_updated_at := now; fl_field_versions := None |}.

(** Assigns through [iter_mut().find(..)]. *)
Fixpoint update_where {A} (p : A → bool) (f : A → A) (l : list A) : list A :=
  match l with
  | [] => []
  | x :: l => if p x then f x :: l else x :: update_where p f l
  end.

Definition is_folder (id : string) (r : FolderRecord) : bool := bool_decide (fd_id r = id).
Definition is_file (id : string) (r : FileRecord) : bool := bool_decide (fl_id r = id).

Definition with_records (folders : list FolderRecord) (files : list FileRecord) (index : PathIndex) (e : SharedFolder) : SharedFolder := {|
  sh_folder_id := sh_folder_id e; sh_folder_name := sh_folder_name e; sh_local_dir := sh_local_dir e; sh_room_id := sh_room_id e;
  sh_passphrase := sh_passphrase e; sh_folder_key_hash := sh_folder_key_hash e; sh_access_grant_mode := sh_access_grant_mode e;
  sh_last_cid := sh_last_cid e; sh_last_folder_signature := sh_last_folder_signature e; sh_created_at := sh_created_at e;
  sh_last_published_at := sh_last_published_at e; sh_folders := folders; sh_files := files; sh_path_index := index;
  sh_allowed_requesters := sh_allowed_requesters e |}.

(** ** The scan *)

(** [changed], [upserted_file_ids], [deleted_file_ids], [new_file_bytes] *)
Record RescanResult := { rs_changed : bool; rs_upserted : list string; rs_deleted : list string; rs_bytes : gmap string string }.
Definition no_change : RescanResult := {| rs_changed := false; rs_upserted := []; rs_deleted := []; rs_bytes := ∅ |}.

(** The entry and the result as they are being filled, and how many
    identifiers have been drawn. *)
Record Scan := { sc_folders : list FolderRecord; sc_files : list FileRecord; sc_index : PathIndex; sc_result : RescanResult; sc_drawn : nat }.

Section scan.
Context `{C : Crypto}.
Context (drawn : nat → string) (now root_id : string).

Definition add_dir (s : Scan) (d : WalkedDir) : Scan :=
  let ids := pi_folder_ids (sc_index s) in
  match ids !! wd_rel d with
  | Some _ => s
  | None =>
      let id := generate_uuid_v4 (drawn (sc_drawn s)) in
      let parent_id := ids !! default "" (wd_parent d) in {|
        sc_folders := sc_folders s ++ [new_folder id (sanitize_name (wd_name d)) parent_id now];
        sc_files := sc_files s;
        sc_index := {| pi_folder_ids := <[wd_rel d := id]> ids; pi_file_ids := pi_file_ids (sc_index s);
                       pi_file_stats := pi_file_stats (sc_index s) |};
        sc_result := {| rs_changed := true; rs_upserted := rs_upserted (sc_result s); rs_deleted := rs_deleted (sc_result s);
                        rs_bytes := rs_bytes (sc_result s) |};
        sc_drawn := S (sc_drawn s) |}
  end.

Definition drop_dir (s : Scan) (rel : string) : Scan :=
  match pi_folder_ids (sc_index s) !! rel with
  | None => s
  | Some id =>
      let index := {| pi_folder_ids := delete rel (pi_folder_ids (sc_index s)); pi_file_ids := pi_file_ids (sc_index s);
                      pi_file_stats := pi_file_stats (sc_index s) |} in
      match List.find (is_folder id) (sc_folders s) with
      | Some r =>
          if is_some (fd_deleted_at r)
          then {| sc_folders := sc_folders s; sc_files := sc_files s; sc_index := index; sc_result := sc_result s; sc_drawn := sc_drawn s |}
          else {| sc_folders := update_where (is_folder id) (delete_folder now) (sc_folders s); sc_files := sc_files s; sc_index := index;
                  sc_result := {| rs_changed := true; rs_upserted := rs_upserted (sc_result s);
                                  rs_deleted := rs_deleted (sc_result s); rs_bytes := rs_bytes (sc_result s) |};
                  sc_drawn := sc_drawn s |}
      | None => {| sc_folders := sc_folders s; sc_files := sc_files s; sc_index := index; sc_result := sc_result s; sc_drawn := sc_drawn s |}
      end
  end.

(** The size and time on record are those found. *)
Definition seen_before (index : PathIndex) (f : WalkedFile) : bool :=
  match pi_file_stats index !! wf_rel f with
  | Some (mtime, size) => (mtime =? wf_mtime f) && (size =? wf_size f) && is_some (pi_file_ids index !! wf_rel f)
  | None => false
  end.

Definition upserted (id data : string) (r : RescanResult) : RescanResult := {|
  rs_changed := true; rs_upserted := rs_upserted r ++ [id]; rs_deleted := rs_deleted r; rs_bytes := <[id := data]> (rs_bytes r) |}.

(** The content of the file was read: the rest of the round. *)
Definition note_file (s : Scan) (f : WalkedFile) (folder_id data : string) : Scan :=
  let checksum := sha256_hex data in
  let index := {| pi_folder_ids := pi_folder_ids (sc_index s); pi_file_ids := pi_file_ids (sc_index s);
                  pi_file_stats := <[wf_rel f := (wf_mtime f, wf_size f)]> (pi_file_stats (sc_index s)) |} in
  let noted files result := {| sc_folders := sc_folders s; sc_files := files; sc_index := index; sc_result := result; sc_drawn := sc_drawn s |} in
  match pi_file_ids index !! wf_rel f with
  | Some id =>
      match List.find (is_file id) (sc_files s) with
      | None => noted (sc_files s) (sc_result s)
      | Some r =>
          if bool_decide (fl_checksum r = checksum) && negb (is_some (fl_deleted_at r)) then noted (sc_files s) (sc_result s) else
          noted (update_where (is_file id) (change_file folder_id checksum (guess_mime (wf_name f)) (slen data) now) (sc_files s))
            (upserted id data (sc_result s))
      end
  | None =>
      let id := generate_uuid_v4 (drawn (sc_drawn s)) in {|
        sc_folders := sc_folders s; sc_files := sc_files s ++ [new_file id folder_id (wf_name f) checksum (slen data) now];
        sc_index := {| pi_folder_ids := pi_folder_ids index; pi_file_ids := <[wf_rel f := id]> (pi_file_ids index);
                       pi_file_stats := pi_file_stats index |};
        sc_result := upserted id data (sc_result s); sc_drawn := S (sc_drawn s) |}
  end.

(** One file of the walk; [None] when it could not be read. *)
Definition scan_file (s : Scan) (f : WalkedFile) : option Scan :=
  let folder_id := default root_id (pi_folder_ids (sc_index s) !! wf_folder f) in
  if seen_before (sc_index s) f then Some s else
  match wf_data f with
  | None => None
  | Some data => Some (note_file s f folder_id data)
  end.

(** Stops at a file that cannot be read, with what was noted so far. *)
Fixpoint scan_files (s : Scan) (l : list WalkedFile) : Scan * result () Error :=
  match l with
  | [] => (s, Ok tt)
  | f :: l => match scan_file s f with Some s => scan_files s l | None => (s, Err ["reading"; wf_rel f]) end
  end.

Definition drop_file (s : Scan) (rel : string) : Scan :=
  match pi_file_ids (sc_index s) !! rel with
  | None => s
  | Some id =>
      let index := {| pi_folder_ids := pi_folder_ids (sc_index s); pi_file_ids := delete rel (pi_file_ids (sc_index s));
                      pi_file_stats := delete rel (pi_file_stats (sc_index s)) |} in
      let dropped files result := {| sc_folders := sc_folders s; sc_files := files; sc_index := index; sc_result := result; sc_drawn := sc_drawn s |} in
      match List.find (is_file id) (sc_files s) with
      | Some r =>
          if is_some (fl_deleted_at r) then dropped (sc_files s) (sc_result s) else
          dropped (update_where (is_file id) (delete_file now) (sc_files s))
            {| rs_changed := true; rs_upserted := rs_upserted (sc_result s); rs_deleted := rs_deleted (sc_result s) ++ [id];
               rs_bytes := rs_bytes (sc_result s) |}
      | None => dropped (sc_files s) (sc_result s)
      end
  end.

(** The keys of a map that are not among the paths found. *)
Definition vanished {A} (m : gmap string A) (current : list string) : list string :=
  List.filter (λ k, negb (contains current k)) (map_to_list m).*1.

Definition scan_dirs (s : Scan) (dirs : list WalkedDir) : Scan :=
  let subdirs := List.filter (λ d, negb (bool_decide (wd_rel d = ""))) dirs in
  let s := foldl add_dir s subdirs in
  foldl drop_dir s (vanished (pi_folder_ids (sc_index s)) ("" :: map wd_rel subdirs)).

Definition start_scan (e : SharedFolder) : Scan := {|
  sc_folders := sh_folders e; sc_files := sh_files e; sc_index := sh_path_index e; sc_result := no_change; sc_drawn := 0 |}.
Definition scanned (s : Scan) (e : SharedFolder) : SharedFolder := with_records (sc_folders s) (sc_files s) (sc_index s) e.
End scan.

(** [rescan_local_dir]: what became of the entry, and the result. *)
Definition rescan_local_dir `{Crypto} (drawn : nat → string) (now : string) (root : tree) (e : SharedFolder)
    : SharedFolder * result RescanResult Error :=
  match walk_shared_dir root with
  | Err err => (e, Err err)
  | Ok (dirs, files) =>
      let s := scan_dirs drawn now (start_scan e) dirs in
      let '(s, r) := scan_files drawn now (sh_folder_id e) s files in
      match r with
      | Err err => (scanned s e, Err err)
      | Ok _ =>
          let s := foldl (drop_file now) s (vanished (pi_file_ids (sc_index s)) (map wf_rel files)) in
          (scanned s e, Ok (sc_result s))
      end
  end.
