(* ===== verification/StorageWalk.v ===== *)
(** * Shared folders: what the walk finds

    The walk of [StorageScan] against the tree: it lists every directory and
    file once, under the path that leads to it, a directory before what is in
    it. *)
From S2P Require Import Prelude Text StorageDomain StoragePaths StorageLink StorageAccess StorageScan.

(** ** Sorting by name leaves the rest alone *)
Section sorting.
Context {A B} (R : relation A) (Q : relation B) `{!RelDecision R, !RelDecision Q} (f : A → B).
Context (Hf : ∀ x y, Q (f x) (f y) ↔ R x y).

Lemma list_merge_map l1 l2 : list_merge Q (map f l1) (map f l2) = map f (list_merge R l1 l2).
Proof.
  revert l2. induction l1 as [|x l1 IH]; intros l2; [by destruct l2|]. induction l2 as [|y l2 IH2]; [done|].
  cbn [map list_merge]. unfold decide_rel. destruct (decide (R x y)) as [H|H], (decide (Q (f x) (f y))) as [H'|H'];
    try (exfalso; rewrite Hf in H'; done); cbn [map]; f_equal; [apply (IH (y :: l2))|exact IH2].
Qed.

Notation lift_stack := (map (option_map (map f))).

Lemma merge_list_to_stack_map st l : merge_list_to_stack Q (lift_stack st) (map f l) = lift_stack (merge_list_to_stack R st l).
Proof.
  revert l. induction st as [|[l'|] st IH]; intros l; cbn [map option_map merge_list_to_stack]; [done| |done].
  rewrite list_merge_map. f_equal. apply IH.
Qed.

Lemma merge_stack_map st : merge_stack Q (lift_stack st) = map f (merge_stack R st).
Proof. induction st as [|[l|] st IH]; cbn [map option_map merge_stack]; [done| |done]. by rewrite IH, list_merge_map. Qed.

Lemma merge_sort_map l : merge_sort Q (map f l) = map f (merge_sort R l).
Proof.
  unfold merge_sort. enough (H : ∀ st, merge_sort_aux Q (lift_stack st) (map f l) = map f (merge_sort_aux R st l)) by apply (H []).
  induction l as [|x l IH]; intros st; cbn [map merge_sort_aux]; [apply merge_stack_map|].
  rewrite <-IH. f_equal. apply (merge_list_to_stack_map st [x]).
Qed.
End sorting.

(** ** Trees *)

Lemma tree_induction (P : tree → Prop) :
  P (TDir None) → (∀ es, Forall (λ e, P e.2) es → P (TDir (Some es))) → (∀ d s, P (TFile d s)) → P TLink → P TOther → P TUnknown →
  ∀ t, P t.
Proof.
  intros H1 H2 H3 H4 H5 H6. fix IH 1. intros [[es|]|d s| | |]; [|apply H1|apply H3|apply H4|apply H5|apply H6].
  apply H2. induction es as [|[n t] es IHes]; [constructor|]. constructor; [apply IH|exact IHes].
Qed.

(** The node a path leads to. *)
Fixpoint node_at (t : tree) (p : path) : option tree :=
  match p with
  | [] => Some t
  | n :: p =>
      match t with
      | TDir (Some es) => match List.find (λ e, bool_decide (e.1 = n)) es with Some e => node_at e.2 p | None => None end
      | _ => None
      end
  end.

(** A name of a directory entry that is UTF-8. *)
Definition name_ok (n : string) : Prop := n ≠ "" ∧ string_forallb not_slash n = true ∧ to_string_lossy n = n.

Fixpoint tree_ok (t : tree) : Prop :=
  match t with
  | TDir (Some es) =>
      NoDup (map fst es)
      ∧ (fix all (l : list (string * tree)) : Prop := match l with [] => True | e :: l => name_ok e.1 ∧ tree_ok e.2 ∧ all l end) es
  | _ => True
  end.

Lemma tree_ok_dir es : tree_ok (TDir (Some es)) ↔ NoDup (map fst es) ∧ Forall (λ e, name_ok e.1 ∧ tree_ok e.2) es.
Proof.
  cbn [tree_ok]. apply and_iff_compat_l. induction es as [|e es IH]; [by split; constructor|].
  rewrite Forall_cons, IH. tauto.
Qed.

(** Everything below the root, in the order of the walk. *)
Fixpoint nodes (t : tree) : list (path * tree) :=
  match t with
  | TDir (Some es) =>
      concat (map (λ e, ([e.1], e.2.1) :: map (λ x, (e.1 :: x.1, x.2)) e.2.2)
        (merge_sort by_name (map (λ e, (e.1, (e.2, nodes e.2))) es)))
  | _ => []
  end.

Definition branch (e : string * tree) : list (path * tree) := ([e.1], e.2) :: map (λ x, (e.1 :: x.1, x.2)) (nodes e.2).
Notation sorted es := (merge_sort by_name es).

Lemma nodes_dir es : nodes (TDir (Some es)) = concat (map branch (sorted es)).
Proof.
  cbn [nodes]. rewrite (merge_sort_map by_name by_name (λ e : string * tree, (e.1, (e.2, nodes e.2)))) by done.
  by rewrite map_map.
Qed.

Lemma walk_dir es rel : walk_recursive (TDir (Some es)) rel
  = walk_entries rel (map (λ e, (e.1, (e.2, walk_recursive e.2))) (sorted es)).
Proof. cbn [walk_recursive]. by rewrite (merge_sort_map by_name by_name (λ e : string * tree, (e.1, (e.2, walk_recursive e.2)))). Qed.

Lemma sorted_perm (es : list (string * tree)) : sorted es ≡ₚ es.
Proof. apply merge_sort_Permutation. Qed.

Lemma elem_of_nodes es p x :
  (p, x) ∈ nodes (TDir (Some es)) ↔ ∃ n t, (n, t) ∈ es ∧ (p = [n] ∧ x = t ∨ ∃ q, p = n :: q ∧ (q, x) ∈ nodes t).
Proof.
  rewrite nodes_dir, list_elem_of_In, in_concat. split.
  - intros (l & Hl & Hx). apply list_elem_of_In, list_elem_of_fmap in Hl as ([n t] & -> & He). rewrite (sorted_perm es) in He.
    exists n, t. split; [done|]. apply list_elem_of_In in Hx. unfold branch in Hx. cbn [fst snd] in Hx.
    apply elem_of_cons in Hx as [[= -> ->]|Hx]; [by left|]. apply list_elem_of_fmap in Hx as ([q y] & [= -> ->] & Hq). right. eauto.
  - intros (n & t & He & Hx). exists (branch (n, t)). split.
    + apply list_elem_of_In, list_elem_of_fmap_2. by rewrite (sorted_perm es).
    + apply list_elem_of_In. unfold branch. cbn [fst snd]. destruct Hx as [[-> ->]|(q & -> & Hq)]; [by left|].
      right. by apply (list_elem_of_fmap_2 (λ x, (n :: x.1, x.2)) _ (q, x)).
Qed.

Lemma nodes_nonempty t p x : (p, x) ∈ nodes t → p ≠ [].
Proof. destruct t as [[es|]| | | |]; try by intros ?%elem_of_nil. rewrite elem_of_nodes. naive_solver. Qed.

Lemma find_entry_in es n t : NoDup (map fst es) → (n, t) ∈ es → List.find (λ e : string * tree, bool_decide (e.1 = n)) es = Some (n, t).
Proof.
  induction es as [|[m u] es IH]; [by intros _ ?%elem_of_nil|]. cbn [map fst List.find]. intros [Hm Hnd]%NoDup_cons.
  case_bool_decide as E; cbn in E.
  - subst m. intros [[= ->]|H]%elem_of_cons; [done|]. exfalso. apply Hm. by apply (list_elem_of_fmap_2 fst es (n, t)).
  - intros [[= -> ->]|H]%elem_of_cons; [done|]. by apply IH.
Qed.

(** The list is the tree. *)
Lemma node_at_nodes t p x : tree_ok t → p ≠ [] → node_at t p = Some x ↔ (p, x) ∈ nodes t.
Proof.
  revert t x. induction p as [|n p IH]; intros t x Ht; [done|]. intros _.
  destruct t as [[es|]| | | |]; cbn [node_at]; try by split; [done|intros ?%elem_of_nil].
  apply tree_ok_dir in Ht as [Hnd Hall]. rewrite Forall_forall in Hall. rewrite elem_of_nodes. split.
  - destruct (List.find _ es) as [[m t]|] eqn:E; [|done]. apply find_elem in E as [Hin Hm]. cbn in Hm. bools. subst m.
    intros Hx. exists n, t. split; [done|]. destruct p as [|k p]; [left; by injection Hx as ->|].
    right. exists (k :: p). split; [done|]. by apply IH; [apply (Hall _ Hin)|..].
  - intros (m & t & Hin & Hp). destruct Hp as [[[= <- ->] ->]|(q & [= <- ->] & Hq)]; rewrite (find_entry_in es n t) by done; [done|].
    cbn [snd]. apply IH; [apply (Hall _ Hin)|by eapply nodes_nonempty|done].
Qed.

Lemma nodes_ok t p x : tree_ok t → (p, x) ∈ nodes t → Forall name_ok p ∧ tree_ok x.
Proof.
  revert p x. induction t as [|es IH| | | |] using tree_induction; intros p x Ht; try by intros ?%elem_of_nil.
  apply tree_ok_dir in Ht as [_ Hall]. rewrite Forall_forall in IH, Hall. rewrite elem_of_nodes.
  intros (n & t & Hin & Hp). destruct (Hall _ Hin) as [Hn Ht]. cbn in Hn, Ht.
  destruct Hp as [[-> ->]|(q & -> & Hq)]; [split; [by apply Forall_singleton|done]|].
  destruct (IH _ Hin q x Ht Hq) as [Hq1 Hq2]. split; [by constructor|done].
Qed.

Lemma nodes_unique t p x y : tree_ok t → (p, x) ∈ nodes t → (p, y) ∈ nodes t → x = y.
Proof.
  intros Ht Hx Hy. pose proof (nodes_nonempty _ _ _ Hx) as Hp. apply node_at_nodes in Hx; [|done..]. apply node_at_nodes in Hy; [|done..].
  congruence.
Qed.

Lemma NoDup_concat_map {A B} (f : A → list B) l :
  NoDup l → (∀ x, x ∈ l → NoDup (f x)) → (∀ x y z, x ∈ l → y ∈ l → z ∈ f x → z ∈ f y → x = y) → NoDup (concat (map f l)).
Proof.
  induction l as [|x l IH]; intros Hl Hf Hd; [constructor|]. apply NoDup_cons in Hl as [Hx Hl]. cbn [map concat].
  apply NoDup_app. split_and!; [apply Hf; by left| |].
  - intros z Hz Hz'. apply list_elem_of_In, in_concat in Hz' as (k & Hk & Hz'). apply list_elem_of_In, list_elem_of_fmap in Hk as (y & -> & Hy).
    apply list_elem_of_In in Hz'. apply Hx. by rewrite (Hd x y z); [|left|right|..].
  - apply IH; [done|intros; apply Hf; by right|]. intros a b z Ha Hb. apply Hd; by right.
Qed.

Lemma concat_map_fst {A} (l : list (list (path * A))) : map fst (concat l) = concat (map (map fst) l).
Proof. apply concat_map. Qed.

Lemma nodes_NoDup t : tree_ok t → NoDup (map fst (nodes t)).
Proof.
  induction t as [|es IH| | | |] using tree_induction; intros Ht; try constructor.
  apply tree_ok_dir in Ht as [Hnd Hall]. rewrite Forall_forall in IH, Hall. rewrite nodes_dir, concat_map_fst, map_map.
  assert (Hes : NoDup es) by by apply (NoDup_fmap_1 fst).
  apply NoDup_concat_map; [by rewrite (sorted_perm es)| |].
  - intros [n t] Hin. rewrite (sorted_perm es) in Hin. unfold branch. cbn [fst snd map]. rewrite map_map. cbn [fst].
    apply NoDup_cons. split.
    + intros ([q y] & [= Hq] & Hy)%list_elem_of_fmap. cbn in Hq. subst q. by apply nodes_nonempty in Hy.
    + rewrite <-(map_map fst (cons n)). apply (NoDup_fmap_2 (cons n)). apply (IH _ Hin). by apply (Hall _ Hin).
  - intros [n t] [m u] z Hin Hin' Hz Hz'. rewrite (sorted_perm es) in Hin, Hin'. unfold branch in Hz, Hz'. cbn [fst snd map] in Hz, Hz'.
    rewrite !map_map in Hz, Hz'. cbn [fst] in Hz, Hz'.
    assert (Hn : ∀ k (v : tree), z ∈ [k] :: map (λ x : path * tree, k :: x.1) (nodes v) → head z = Some k).
    { intros k v [->|([q y] & -> & _)%list_elem_of_fmap]%elem_of_cons; done. }
    assert (n = m) as -> by (pose proof (Hn _ _ Hz); pose proof (Hn _ _ Hz'); congruence).
    pose proof (find_entry_in es m t Hnd Hin). pose proof (find_entry_in es m u Hnd Hin'). congruence.
Qed.

(** ** A directory comes before what is in it *)
Fixpoint ordered (seen : list path) (l : list path) : Prop :=
  match l with [] => True | p :: l => parent p ∈ seen ∧ ordered (p :: seen) l end.

Lemma ordered_mono seen seen' l : seen ⊆ seen' → ordered seen l → ordered seen' l.
Proof.
  revert seen seen'. induction l as [|p l IH]; intros seen seen' Hs; [done|]. intros [Hp Hl]. split; [by apply Hs|].
  eapply IH; [|exact Hl]. set_solver.
Qed.

Lemma ordered_app seen l k : ordered seen l → ordered seen k → ordered seen (l ++ k).
Proof.
  revert seen. induction l as [|p l IH]; intros seen; [done|]. intros [Hp Hl] Hk. split; [done|].
  apply IH; [done|]. eapply ordered_mono; [|exact Hk]. set_solver.
Qed.

Lemma parent_cons (n : string) (p : path) : p ≠ [] → parent (n :: p) = n :: parent p.
Proof. intros Hp. unfold parent. destruct p as [|m p]; [done|]. cbn. by rewrite Nat.sub_0_r. Qed.

Lemma ordered_cons n seen l : (∀ p, p ∈ l → p ≠ []) → ordered seen l → ordered (map (cons n) seen) (map (cons n) l).
Proof.
  revert seen. induction l as [|p l IH]; intros seen Hne; [done|]. intros [Hp Hl]. cbn [map ordered]. split.
  - rewrite parent_cons by (apply Hne; by left). by apply (list_elem_of_fmap_2 (cons n)).
  - apply (IH (p :: seen)); [|done]. intros q Hq. apply Hne. by right.
Qed.

Lemma nodes_ordered t : ordered [[]] (map fst (nodes t)).
Proof.
  induction t as [|es IH| | | |] using tree_induction; try done.
  rewrite nodes_dir, concat_map_fst, map_map. rewrite Forall_forall in IH.
  assert (H : ∀ l : list (string * tree), l ⊆ es → ordered [[]] (concat (map (λ e, map fst (branch e)) l))).
  { induction l as [|[n t] l IHl]; [done|]. intros Hl. cbn [map concat]. apply ordered_app; [|apply IHl; set_solver].
    unfold branch. cbn [fst snd map ordered]. split; [by left|]. rewrite map_map. cbn [fst]. rewrite <-(map_map fst (cons n)).
    eapply ordered_mono; [|apply (ordered_cons n [[]]); [|apply (IH (n, t)); apply Hl; by left]]; [set_solver|].
    intros p ([q y] & -> & Hy)%list_elem_of_fmap. by eapply nodes_nonempty. }
  apply H. intros x Hx. by rewrite (sorted_perm es) in Hx.
Qed.

(** What is in a directory is below the root or below a directory of the list. *)
Lemma nodes_parent t p x : (p, x) ∈ nodes t → parent p = [] ∨ ∃ es, (parent p, TDir (Some es)) ∈ nodes t.
Proof.
  revert p x. induction t as [|es IH| | | |] using tree_induction; intros p x; try by intros ?%elem_of_nil.
  rewrite Forall_forall in IH. rewrite elem_of_nodes. intros (n & t & Hin & Hp). destruct Hp as [[-> ->]|(q & -> & Hq)]; [by left|].
  right. assert (Hqn : q ≠ []) by by eapply nodes_nonempty. rewrite parent_cons by done. destruct (IH _ Hin q x Hq) as [->|(es' & H)].
  - destruct t as [[es'|]| | | |]; try by apply elem_of_nil in Hq. exists es'. apply elem_of_nodes. exists n, (TDir (Some es')). split; [done|]. by left.
  - exists es'. apply elem_of_nodes. exists n, t. split; [done|]. right. eauto.
Qed.

(** ** Paths as text *)
Definition key (p : path) : string := join "/" p.

Lemma key_nonempty p : p ≠ [] → Forall name_ok p → key p ≠ "".
Proof.
  destruct p as [|n p]; [done|]. intros _ [(Hn & _) _]%Forall_cons. unfold key, join. destruct p as [|m p]; [done|].
  cbn [String.concat]. by destruct n.
Qed.

Lemma key_inj p q : Forall name_ok p → Forall name_ok q → key p = key q → p = q.
Proof.
  assert (Hs : ∀ l : path, Forall name_ok l → Forall (λ w, string_forallb (λ a, negb (bool_decide (a = "/"%char))) w = true) l).
  { intros l Hl. eapply Forall_impl; [exact Hl|]. by intros n (_ & H & _). }
  intros Hp Hq E. destruct p as [|n p], q as [|m q]; [done| | |].
  - exfalso. by apply (key_nonempty (m :: q)).
  - exfalso. by apply (key_nonempty (n :: p)).
  - unfold key in E. rewrite <-(split_on_join "/"%char p n), <-(split_on_join "/"%char q m) by (by apply Hs).
    by change (String "/"%char "") with "/"; rewrite E.
Qed.

Lemma child_key (p : path) n : Forall name_ok p → child_rel (key p) n = key (p ++ [n]).
Proof.
  intros Hp. unfold child_rel. destruct (decide (p = [])) as [->|Hne]; [done|].
  rewrite bool_decide_false by by apply key_nonempty. clear Hp. unfold key, join. induction p as [|x p IH]; [done|].
  destruct p as [|y p]; [done|]. change (String.concat "/" (x :: y :: p)) with (x +:+ "/" +:+ String.concat "/" (y :: p)).
  change (String.concat "/" ((x :: y :: p) ++ [n])) with (x +:+ "/" +:+ String.concat "/" ((y :: p) ++ [n])).
  rewrite <-IH by done. by rewrite !string_app_assoc.
Qed.

(** ** The walk lists the tree *)
Definition dir_of (q : path) (x : path * tree) : option WalkedDir :=
  match x.2 with
  | TDir _ => Some {| wd_rel := key (q ++ x.1); wd_parent := Some (key (q ++ parent x.1)); wd_name := default "" (last x.1) |}
  | _ => None
  end.

Definition file_of (q : path) (x : path * tree) : option WalkedFile :=
  match x.2 with
  | TFile data (Some st) => Some {| wf_rel := key (q ++ x.1); wf_folder := key (q ++ parent x.1); wf_name := default "" (last x.1);
      wf_data := data; wf_size := st.1; wf_mtime := st.2 |}
  | _ => None
  end.

(** Every entry was read. *)
Definition readable (x : path * tree) : Prop := match x.2 with TUnknown | TFile _ None | TDir None => False | _ => True end.

Lemma dir_of_cons q n x : x.1 ≠ [] → dir_of q (n :: x.1, x.2) = dir_of (q ++ [n]) x.
Proof.
  destruct x as [p t]. intros Hp. unfold dir_of. cbn [fst snd] in *. destruct t; try done.
  rewrite parent_cons, <-!app_assoc by done. by destruct p.
Qed.
Lemma file_of_cons q n x : x.1 ≠ [] → file_of q (n :: x.1, x.2) = file_of (q ++ [n]) x.
Proof.
  destruct x as [p t]. intros Hp. unfold file_of. cbn [fst snd] in *. destruct t as [|d [st|]| | |]; try done.
  rewrite parent_cons, <-!app_assoc by done. by destruct p.
Qed.

Lemma omap_map_nodes {B} (f g : path * tree → option B) n t :
  (∀ x, x.1 ≠ [] → f (n :: x.1, x.2) = g x) → omap f (map (λ x, (n :: x.1, x.2)) (nodes t)) = omap g (nodes t).
Proof.
  intros H. assert (Hn : ∀ x, x ∈ nodes t → x.1 ≠ []) by (intros [p x] Hx; by eapply nodes_nonempty).
  induction (nodes t) as [|x l IH]; [done|]. cbn [map omap list_omap]. rewrite H by (apply Hn; by left).
  destruct (g x); [f_equal|]; apply IH; intros y Hy; apply Hn; by right.
Qed.

Definition walk_finds (t : tree) : Prop := ∀ q w, tree_ok t → Forall name_ok q → walk_recursive t (key q) = Ok w →
  w.1 = omap (dir_of q) (nodes t) ∧ w.2 = omap (file_of q) (nodes t) ∧ Forall readable (nodes t).

Lemma walk_entry_finds n t q w : walk_finds t → name_ok n → tree_ok t → Forall name_ok q →
  walk_entry (key q) n t (walk_recursive t) = Ok w →
  w.1 = omap (dir_of q) (branch (n, t)) ∧ w.2 = omap (file_of q) (branch (n, t)) ∧ Forall readable (branch (n, t)).
Proof.
  intros IH Hn Ht Hq. unfold walk_entry. rewrite (proj2 (proj2 Hn)), child_key by done. unfold branch. cbn [fst snd].
  destruct t as [es|d st| | |]; try (cbn [omap list_omap nodes map]; intros [= <-]; split_and!; [done..|by repeat constructor]); [| |done].
  - intros (v & Hv & [= <-])%rbind_Ok. destruct es as [es|]; [|done].
    assert (Hqn : Forall name_ok (q ++ [n])) by (apply Forall_app; split; [done|by apply Forall_singleton]).
    apply IH in Hv as (H1 & H2 & H3); [|done..].
    cbn [fst snd omap list_omap]. unfold dir_of at 1, file_of at 1. cbn [fst snd]. rewrite app_nil_r. cbn [last default].
    rewrite (omap_map_nodes (dir_of q) (dir_of (q ++ [n]))) by apply dir_of_cons.
    rewrite (omap_map_nodes (file_of q) (file_of (q ++ [n]))) by apply file_of_cons. split_and!; [by rewrite H1|done|].
    constructor; [done|]. apply Forall_forall. intros x (y & -> & Hy)%list_elem_of_fmap. rewrite Forall_forall in H3. by apply (H3 y).
  - intros (st' & Hst & [= <-])%rbind_Ok. destruct st as [st|]; [|done]. injection Hst as <-. cbn [fst snd omap list_omap nodes map]. unfold file_of, dir_of. cbn [fst snd].
    rewrite app_nil_r. split_and!; [done|done|by repeat constructor].
Qed.

Lemma walk_spec t : walk_finds t.
Proof.
  induction t as [|es IH| | | |] using tree_induction; intros q w Ht Hq; try done.
  rewrite walk_dir, nodes_dir. apply tree_ok_dir in Ht as [_ Hall].
  assert (Hs : Forall (λ e, walk_finds e.2 ∧ name_ok e.1 ∧ tree_ok e.2) (sorted es)).
  { rewrite (sorted_perm es). rewrite !Forall_forall in *. intros e He. split; [by apply IH|by apply Hall]. }
  clear IH Hall. revert w. induction Hs as [|[n t] l (H1 & H2 & H3) _ IHl]; intros w; cbn [map walk_entries concat].
  { intros [= <-]. split_and!; [done..|constructor]. }
  intros (v & Hv & (r & Hr & [= <-])%rbind_Ok)%rbind_Ok. destruct (IHl r Hr) as (E1 & E2 & E3).
  destruct (walk_entry_finds n t q v H1 H2 H3 Hq Hv) as (F1 & F2 & F3). cbn [fst snd].
  rewrite !omap_app, F1, F2, E1, E2. split_and!; [done..|by apply Forall_app].
Qed.

(** What [walk_shared_dir] returns. *)
Lemma walk_shared_spec t w : tree_ok t → walk_shared_dir t = Ok w →
  List.filter (λ d, negb (bool_decide (wd_rel d = ""))) w.1 = omap (dir_of []) (nodes t)
  ∧ w.2 = omap (file_of []) (nodes t) ∧ Forall readable (nodes t).
Proof.
  intros Ht. unfold walk_shared_dir. intros (v & Hv & [= <-])%rbind_Ok.
  destruct (walk_spec t [] v Ht ltac:(constructor) Hv) as (H1 & H2 & H3). split_and!; [|done|done]. cbn [fst List.filter wd_rel].
  rewrite bool_decide_true by done. cbn [negb]. rewrite H1.
  assert (Hk : ∀ x, x ∈ nodes t → key x.1 ≠ "").
  { intros [p x] Hx. apply key_nonempty; [by eapply nodes_nonempty|by eapply nodes_ok]. }
  clear H1 H2 H3 Hv. induction (nodes t) as [|x l IH]; [done|]. cbn [omap list_omap]. destruct (dir_of [] x) as [d|] eqn:E.
  - cbn [List.filter]. unfold dir_of in E. destruct x.2; try done. injection E as <-. cbn [wd_rel app].
    rewrite bool_decide_false by (apply Hk; by left). cbn [negb]. f_equal. apply IH. intros y Hy. apply Hk. by right.
  - apply IH. intros y Hy. apply Hk. by right.
Qed.

(** A tree whose every entry can be read is walked to the end. *)
Lemma walk_total t rel es : t = TDir (Some es) → Forall readable (nodes t) → ∃ w, walk_recursive t rel = Ok w.
Proof.
  revert rel es. induction t as [|es' IH| | | |] using tree_induction; intros rel es [= <-]; [|done..].
  rewrite nodes_dir, walk_dir. intros Hr.
  assert (Hs : Forall (λ e, ∀ rel, Forall readable (branch e) → ∃ w, walk_entry rel e.1 e.2 (walk_recursive e.2) = Ok w) (sorted es')).
  { rewrite (sorted_perm es'). eapply Forall_impl; [exact IH|]. intros [n t] IHt rel' Hb. cbn [fst snd] in *. unfold branch in Hb.
    apply Forall_cons in Hb as [Hb1 Hb2]. unfold walk_entry. destruct t as [[es0|]|d [st|]| | |]; try done; [|eexists; done..].
    destruct (IHt (child_rel rel' (to_string_lossy n)) es0 eq_refl) as (w & ->).
    { apply Forall_forall. intros x Hx. rewrite Forall_forall in Hb2. apply (Hb2 (n :: x.1, x.2)). by apply (list_elem_of_fmap_2 (λ x, (n :: x.1, x.2))). }
    eexists. done. }
  clear IH. induction Hs as [|[n t] l H1 _ IHl]; cbn [map walk_entries concat] in *; [by eexists|].
  apply Forall_app in Hr as [Hr1 Hr2]. destruct (H1 rel Hr1) as (w & Hw). cbn [fst snd] in *. rewrite Hw. cbn [rbind].
  destruct (IHl Hr2) as (w' & ->). eexists. done.
Qed.
