(* ===== verification/StorageIndex.v ===== *)
(** * Shared folders: the records follow the directory

    The invariant of the owner's index, and what a scan of [StorageScan] leaves:
    one live record for every directory and file of the tree, under the
    identifier its path has had since it was first seen, with the checksum of
    the content; everything else is a tombstone. *)
From S2P Require Import Prelude Text Wire StorageDomain StoragePaths StorageLink StorageAccess StorageScan StorageWalk.

(** ** Lists of records with distinct identifiers *)
Section records.
Context {A : Type} (idf : A → string).

Notation with_id id := (λ r, bool_decide (idf r = id)).

Lemma same_record l r r' : NoDup (map idf l) → r ∈ l → r' ∈ l → idf r = idf r' → r = r'.
Proof.
  induction l as [|x l IH]; [by intros _ ?%elem_of_nil|]. cbn [map]. intros [Hx Hl]%NoDup_cons.
  intros [->|H]%elem_of_cons [->|H']%elem_of_cons E; [done| | |by apply IH].
  - exfalso. apply Hx. rewrite E. by apply list_elem_of_fmap_2.
  - exfalso. apply Hx. rewrite <-E. by apply list_elem_of_fmap_2.
Qed.

Lemma find_record l r : NoDup (map idf l) → r ∈ l → List.find (with_id (idf r)) l = Some r.
Proof.
  intros Hl Hr. destruct (List.find (with_id (idf r)) l) as [x|] eqn:E.
  - apply find_elem in E as [Hx Hi]. cbn in Hi. bools. f_equal. by apply (same_record l).
  - apply (find_none_elem _ _ E) in Hr. cbn in Hr. by rewrite bool_decide_true in Hr.
Qed.

Lemma update_where_ids id f l : (∀ r, idf (f r) = idf r) → map idf (update_where (with_id id) f l) = map idf l.
Proof. intros Hf. induction l as [|x l IH]; [done|]. cbn [update_where map]. case_bool_decide; cbn [map]; [by rewrite Hf|by rewrite IH]. Qed.

Lemma elem_of_update_where id f l r : NoDup (map idf l) →
  r ∈ update_where (with_id id) f l ↔ (r ∈ l ∧ idf r ≠ id) ∨ ∃ x, x ∈ l ∧ idf x = id ∧ r = f x.
Proof.
  induction l as [|x l IH]; cbn [map update_where].
  - intros _. split; [by intros ?%elem_of_nil|]. intros [[?%elem_of_nil _]|(x & ?%elem_of_nil & _)]; done.
  - intros [Hx Hl]%NoDup_cons. case_bool_decide as Hid.
    + split.
      * intros [->|H]%elem_of_cons; [right; exists x; split; [by left|done]|]. left. split; [by right|]. intros E. apply Hx. rewrite Hid, <-E.
        by apply list_elem_of_fmap_2.
      * intros [[[->|H]%elem_of_cons Hne]|(y & [->|Hy]%elem_of_cons & Ey & ->)]; [done|by right|by left|].
        exfalso. apply Hx. rewrite Hid, <-Ey. by apply list_elem_of_fmap_2.
    + rewrite elem_of_cons, IH by done. split.
      * intros [->|[[H Hne]|(y & Hy & E & ->)]]; [left; split; [by left|done]|left; split; [by right|done]|].
        right. exists y. split; [by right|done].
      * intros [[[->|H]%elem_of_cons Hne]|(y & [->|Hy]%elem_of_cons & E & ->)]; [by left|right; by left|done|right; right; eauto].
Qed.

(** ** Paths that are given up *)
Context (gone : A → bool) (kill : A → A).
Context (Hkill : ∀ r, idf (kill r) = idf r ∧ gone (kill r) = true).

Definition drop_one (s : gmap string string * list A) (k : string) : gmap string string * list A :=
  match s.1 !! k with
  | None => s
  | Some id => (delete k s.1, match List.find (with_id id) s.2 with
                              | Some r => if gone r then s.2 else update_where (with_id id) kill s.2
                              | None => s.2
                              end)
  end.

(** The identifiers of these paths are those of tombstones now; other records stay. *)
Record dropped (m : gmap string string) (l : list A) (ks : list string) (m' : gmap string string) (l' : list A) : Prop := {
  dr_index k : m' !! k = if decide (k ∈ ks) then None else m !! k;
  dr_ids : map idf l' = map idf l;
  dr_keeps r : r ∈ l → (∀ k, k ∈ ks → m !! k ≠ Some (idf r)) → r ∈ l';
  dr_live r : r ∈ l' → gone r = false → r ∈ l ∧ ∀ k, k ∈ ks → m !! k ≠ Some (idf r);
}.

Lemma drop_all m l ks : NoDup (map idf l) → dropped m l ks (foldl drop_one (m, l) ks).1 (foldl drop_one (m, l) ks).2.
Proof.
  intros Hl. induction ks as [|k ks IH] using rev_ind.
  { split; cbn [foldl fst snd]; [done|done|done|]. intros r Hr _. split; [done|]. by intros k ?%elem_of_nil. }
  rewrite foldl_app. cbn [foldl]. destruct (foldl drop_one (m, l) ks) as [m1 l1]. cbn [fst snd] in IH. destruct IH as [H1 H2 H3 H4].
  assert (Hnd : NoDup (map idf l1)) by by rewrite H2. unfold drop_one. cbn [fst snd]. pose proof (H1 k) as Hk.
  destruct (m1 !! k) as [id|] eqn:Em; cbn [fst snd].
  - destruct (decide (k ∈ ks)) as [|Hnk]; [done|]. symmetry in Hk. set (l2 := match List.find _ l1 with Some _ => _ | None => _ end).
    assert (Hl2 : map idf l2 = map idf l1 ∧ ∀ r, (r ∈ l2 → gone r = false → r ∈ l1 ∧ idf r ≠ id) ∧ (r ∈ l1 → idf r ≠ id → r ∈ l2)).
    { unfold l2. destruct (List.find _ l1) as [x|] eqn:Ef.
      - apply find_elem in Ef as [Hx Hi]. cbn in Hi. bools. subst id. destruct (gone x) eqn:Eg.
        + split; [done|]. intros r. split; [|done]. intros Hr Hg. split; [done|]. intros E. apply (same_record l1) in E; [congruence|done..].
        + split; [apply update_where_ids; apply Hkill|]. intros r. split.
          * intros Hr Hg. apply elem_of_update_where in Hr as [?|(y & _ & _ & ->)]; [done| |done].
            destruct (Hkill y) as [_ E]. congruence.
          * intros Hr Hne. apply elem_of_update_where; [done|]. by left.
      - split; [done|]. intros r. split; [|done]. intros Hr _. split; [done|]. intros E. apply (find_none_elem _ _ Ef) in Hr. cbn in Hr.
        by rewrite bool_decide_true in Hr. }
    destruct Hl2 as [Hids Hin]. split.
    + intros k'. destruct (decide (k' = k)) as [->|Hne].
      * rewrite lookup_delete_eq, decide_True; [done|]. apply elem_of_app. right. by left.
      * rewrite lookup_delete_ne, H1 by done. apply decide_ext. rewrite elem_of_app, list_elem_of_singleton. naive_solver.
    + by rewrite Hids.
    + intros r Hr Hno. apply Hin; [apply H3; [done|]; intros k' Hk'; apply Hno, elem_of_app; by left|].
      intros E. apply (Hno k); [apply elem_of_app; right; by left|]. by rewrite Hk, E.
    + intros r Hr Hg. apply Hin in Hr as [Hr Hne]; [|done]. destruct (H4 r Hr Hg) as [Hrl Hno]. split; [done|].
      intros k' [Hk'| ->%list_elem_of_singleton]%elem_of_app; [by apply Hno|]. rewrite Hk. congruence.
  - assert (Hmk : k ∈ ks ∨ m !! k = None) by (destruct (decide (k ∈ ks)); [by left|by right]). split.
    + intros k'. rewrite H1. destruct (decide (k' ∈ ks)) as [Hi|Hi]; [rewrite decide_True by (apply elem_of_app; by left); done|].
      destruct (decide (k' = k)) as [->|Hne]; [|rewrite decide_False; [done|]; rewrite elem_of_app, list_elem_of_singleton; naive_solver].
      rewrite decide_True by (apply elem_of_app; right; by left). by destruct Hmk.
    + done.
    + intros r Hr Hno. apply H3; [done|]. intros k' Hk'. apply Hno, elem_of_app. by left.
    + intros r Hr Hg. destruct (H4 r Hr Hg) as [Hrl Hno]. split; [done|]. intros k' [Hk'| ->%list_elem_of_singleton]%elem_of_app; [by apply Hno|].
      destruct Hmk as [Hmk|Hmk]; [by apply Hno|by rewrite Hmk].
Qed.

(** An index that names the live records, each by one path. *)
Record names (m : gmap string string) (l : list A) : Prop := {
  nm_ids : NoDup (map idf l);
  nm_record k id : m !! k = Some id → ∃ r, r ∈ l ∧ idf r = id ∧ gone r = false;
  nm_inj k k' id : m !! k = Some id → m !! k' = Some id → k = k';
  nm_live r : r ∈ l → gone r = false → ∃ k, m !! k = Some (idf r);
}.

Lemma names_dropped m l ks m' l' : names m l → dropped m l ks m' l' → names m' l'.
Proof.
  intros [N1 N2 N3 N4] [D1 D2 D3 D4]. split.
  - by rewrite D2.
  - intros k id Hk. rewrite D1 in Hk. destruct (decide (k ∈ ks)) as [|Hn]; [done|]. destruct (N2 k id Hk) as (r & Hr & <- & Hg).
    exists r. split; [|done]. apply D3; [done|]. intros k' Hk' E. by rewrite (N3 k k' _ Hk E) in Hn.
  - intros k k' id. rewrite !D1. destruct (decide _), (decide _); try done. apply N3.
  - intros r Hr Hg. destruct (D4 r Hr Hg) as [Hrl Hno]. destruct (N4 r Hrl Hg) as (k & Hk). exists k. rewrite D1.
    rewrite decide_False; [done|]. intros Hin. by apply (Hno k).
Qed.

(** A fresh identifier for a new path. *)
Lemma names_insert m l k x : names m l → m !! k = None → idf x ∉ map idf l → gone x = false → names (<[k := idf x]> m) (l ++ [x]).
Proof.
  intros [N1 N2 N3 N4] Hk Hx Hg.
  assert (Hnew : ∀ k', m !! k' ≠ Some (idf x)).
  { intros k' E. destruct (N2 k' _ E) as (r & Hr & Er & _). apply Hx. rewrite <-Er. by apply list_elem_of_fmap_2. } split.
  - rewrite map_app. apply NoDup_app. split_and!; [done| |apply NoDup_singleton]. intros y Hy ->%list_elem_of_singleton. done.
  - intros k' id [[-> <-]|[Hne Hk']]%lookup_insert_Some.
    + exists x. split; [apply elem_of_app; right; by left|done].
    + destruct (N2 k' id Hk') as (r & Hr & ?). exists r. split; [apply elem_of_app; by left|done].
  - intros k1 k2 id [[-> <-]|[H1 E1]]%lookup_insert_Some [[-> E]|[H2 E2]]%lookup_insert_Some; [done|by apply Hnew in E2| |by eapply N3].
    subst id. by apply Hnew in E1.
  - intros r [Hr| ->%list_elem_of_singleton]%elem_of_app Hr'.
    + destruct (N4 r Hr Hr') as (k' & Hk'). exists k'. rewrite lookup_insert_ne; [done|congruence].
    + exists k. by rewrite lookup_insert_eq.
Qed.

(** A record is replaced by one that is live under the same identifier. *)
Lemma names_update m l k r f : names m l → m !! k = Some (idf r) → (∀ x, idf (f x) = idf x ∧ gone (f x) = false) →
  names m (update_where (with_id (idf r)) f l).
Proof.
  intros [N1 N2 N3 N4] Hk Hf. assert (Hids : map idf (update_where (with_id (idf r)) f l) = map idf l) by (apply update_where_ids; apply Hf). split.
  - by rewrite Hids.
  - intros k' id Hk'. destruct (N2 k' id Hk') as (x & Hx & <- & Hg). destruct (decide (idf x = idf r)) as [E|E].
    + exists (f x). destruct (Hf x) as [F1 F2]. split_and!; [|done|done]. apply elem_of_update_where; [done|]. right. eauto.
    + exists x. split_and!; [|done|done]. apply elem_of_update_where; [done|]. by left.
  - done.
  - intros x Hx Hg. apply elem_of_update_where in Hx as [[Hx _]|(y & Hy & Ey & ->)]; [by apply N4| |done].
    exists k. destruct (Hf y) as [-> _]. by rewrite Ey.
Qed.
End records.

(** ** The invariant *)
Definition folder_gone (r : FolderRecord) : bool := is_some (fd_deleted_at r).
Definition file_gone (r : FileRecord) : bool := is_some (fl_deleted_at r).

(** The path of a folder's record: the root, or a name in the folder of its parent. *)
Definition folder_place (m : gmap string string) (k : string) (r : FolderRecord) : Prop :=
  (k = "" ∧ fd_parent_id r = None)
  ∨ ∃ p n par, k = key (p ++ [n]) ∧ Forall name_ok (p ++ [n]) ∧ fd_name r = sanitize_name n ∧ m !! key p = Some par
      ∧ fd_parent_id r = Some par.

Definition file_place (m : gmap string string) (k : string) (r : FileRecord) : Prop :=
  ∃ p n, k = key (p ++ [n]) ∧ Forall name_ok (p ++ [n]) ∧ fl_name r = n ∧ m !! key p = Some (fl_folder_id r).

(** Fields the owner never fills in, and what it fills in the others with. *)
Definition no_comma (s : string) : Prop := string_forallb (λ a, negb (bool_decide (a = ","%char))) s = true.
Definition plain_folder (r : FolderRecord) : Prop := fd_sort_order r = None ∧ fd_field_versions r = None ∧ fd_deleted_at r ≠ Some "".
Definition plain_file (r : FileRecord) : Prop :=
  fl_sort_order r = None ∧ fl_field_versions r = None ∧ fl_data_url r = None ∧ fl_deleted_at r ≠ Some "" ∧ no_comma (fl_mime_type r).

Lemma guess_mime_plain name : no_comma (guess_mime name).
Proof.
  unfold guess_mime. destruct (List.find _ mime_types) as [e|] eqn:E; [|by vm_compute]. apply find_elem in E as [E _].
  assert (H : Forall (λ e : list string * string, no_comma e.2) mime_types) by (unfold mime_types; repeat constructor; by vm_compute).
  rewrite Forall_forall in H. by apply H.
Qed.

Record folders_ok (root_id : string) (m : gmap string string) (l : list FolderRecord) : Prop := {
  fo_names : names fd_id folder_gone m l;
  fo_root : m !! "" = Some root_id;
  fo_ids k id : m !! k = Some id → id ≠ "";
  fo_place k r : m !! k = Some (fd_id r) → r ∈ l → folder_place m k r;
  fo_plain : Forall plain_folder l;
}.

Record files_ok (inside : string → Prop) (m folders : gmap string string) (l : list FileRecord) : Prop := {
  fi_names : names fl_id file_gone m l;
  fi_place k r : inside k → m !! k = Some (fl_id r) → r ∈ l → file_place folders k r;
  fi_plain : Forall plain_file l;
}.

(** The index of an entry and its records. *)
Record index_ok (e : SharedFolder) : Prop := {
  ix_folders : folders_ok (sh_folder_id e) (pi_folder_ids (sh_path_index e)) (sh_folders e);
  ix_files : files_ok (λ _, True) (pi_file_ids (sh_path_index e)) (pi_folder_ids (sh_path_index e)) (sh_files e);
}.

Lemma folder_place_mono m m' k r : m ⊆ m' → folder_place m k r → folder_place m' k r.
Proof. intros Hm [?|(p & n & par & -> & Hn & Hd & Hp & Hr)]; [by left|]. right. exists p, n, par. split_and!; try done. by eapply lookup_weaken. Qed.

Lemma file_place_mono m m' k r : m ⊆ m' → file_place m k r → file_place m' k r.
Proof. intros Hm (p & n & -> & Hn & Hd & Hp). exists p, n. split_and!; try done. by eapply lookup_weaken. Qed.

Section follow.
Context `{C : Crypto} (drawn : nat → string) (now root_id : string) (t : tree) (Ht : tree_ok t).
Notation new_id n := (generate_uuid_v4 (drawn n)).
Context (draws : nat) (Hinj : ∀ i j, (i < draws)%nat → (j < draws)%nat → new_id i = new_id j → i = j) (Hnow : now ≠ "").

Lemma uuid_nonempty b : generate_uuid_v4 b ≠ "".
Proof.
  unfold generate_uuid_v4. intros H. apply (f_equal slen) in H. rewrite !slen_append in H. change (slen "-") with 1 in H. change (slen "") with 0 in H. unfold slen in H. lia.
Qed.

(** Identifiers that are still to be drawn, of the first [draws], are not in use. *)
Definition fresh (s : Scan) : Prop := ∀ n, (sc_drawn s ≤ n)%nat → (n < draws)%nat → new_id n ∉ map fd_id (sc_folders s) ∧ new_id n ∉ map fl_id (sc_files s).

Notation folder_ids s := (pi_folder_ids (sc_index s)).
Notation file_ids s := (pi_file_ids (sc_index s)).
Notation stats s := (pi_file_stats (sc_index s)).

(** ** Directories *)

(** What adding directories keeps and gains. *)
Record grown (s s' : Scan) : Prop := {
  gr_folders : folders_ok root_id (folder_ids s') (sc_folders s');
  gr_sub : folder_ids s ⊆ folder_ids s';
  gr_files : sc_files s' = sc_files s ∧ file_ids s' = file_ids s ∧ stats s' = stats s;
  gr_result : rs_upserted (sc_result s') = rs_upserted (sc_result s) ∧ rs_bytes (sc_result s') = rs_bytes (sc_result s)
    ∧ (rs_changed (sc_result s') = false → rs_changed (sc_result s) = false ∧ sc_folders s' = sc_folders s);
  gr_fresh : fresh s';
}.

Lemma add_dir_grown s p : folders_ok root_id (folder_ids s) (sc_folders s) → fresh s → (sc_drawn s < draws)%nat → p ≠ [] → Forall name_ok p →
  is_Some (folder_ids s !! key (parent p)) →
  let s' := add_dir drawn now s {| wd_rel := key p; wd_parent := Some (key (parent p)); wd_name := default "" (last p) |} in
  grown s s' ∧ is_Some (folder_ids s' !! key p) ∧ (sc_drawn s' ≤ S (sc_drawn s))%nat.
Proof.
  intros Hf Hfr HN Hp Hn [par Hpar]. unfold add_dir. cbn [wd_rel wd_parent wd_name default from_option id]. destruct (folder_ids s !! key p) as [id|] eqn:E.
  { split; [|split; [done|lia]]. by split. }
  cbn [sc_folders sc_files sc_index pi_folder_ids pi_file_ids pi_file_stats sc_result sc_drawn rs_upserted rs_bytes rs_changed].
  rewrite lookup_insert_eq. split; [|split; [done|lia]]. destruct Hf as [F1 F2 F3 F4 F5]. destruct (Hfr (sc_drawn s)) as [Hn1 Hn2]; [lia..|].
  destruct (exists_last Hp) as (q & n & ->). rewrite last_snoc. cbn [default from_option id].
  assert (Hq : parent (q ++ [n]) = q) by (unfold parent; rewrite length_app; cbn; rewrite Nat.add_sub; apply take_app_length).
  rewrite Hq in *. split; cbn [sc_folders sc_files sc_index pi_folder_ids pi_file_ids pi_file_stats sc_result sc_drawn rs_upserted rs_bytes rs_changed]; [split|..].
  - by apply (names_insert fd_id folder_gone (folder_ids s) (sc_folders s) (key (q ++ [n])) (new_folder (new_id (sc_drawn s)) (sanitize_name n) (folder_ids s !! key q) now)).
  - rewrite lookup_insert_ne; [done|]. by apply key_nonempty.
  - intros k id [[<- <-]|[_ Hk]]%lookup_insert_Some; [apply uuid_nonempty|by eapply F3].
  - intros k r Hk [Hr| ->%list_elem_of_singleton]%elem_of_app.
    + apply lookup_insert_Some in Hk as [[<- Hid]|[Hne Hk]].
      * exfalso. apply Hn1. rewrite Hid. by apply (list_elem_of_fmap_2 fd_id).
      * eapply folder_place_mono; [|by apply F4]. by apply insert_subseteq.
    + cbn [fd_id new_folder] in Hk. apply lookup_insert_Some in Hk as [[<- _]|[_ Hk]].
      * right. exists q, n, par. cbn [fd_name new_folder fd_parent_id]. rewrite Hpar. split_and!; try done.
        rewrite lookup_insert_ne; [done|]. intros Eq%key_inj; [|done|by apply Forall_app in Hn as [? _]].
        apply (f_equal length) in Eq. rewrite length_app in Eq. cbn in Eq. lia.
      * exfalso. destruct F1 as [_ N2 _ _]. destruct (N2 k _ Hk) as (r & Hr & Er & _). apply Hn1. rewrite <-Er. by apply (list_elem_of_fmap_2 fd_id).
  - apply Forall_app. split; [done|]. by apply Forall_singleton.
  - by apply insert_subseteq.
  - done.
  - done.
  - intros m Hm HmN. cbn [sc_drawn sc_folders sc_files] in *. destruct (Hfr m) as [Hm1 Hm2]; [lia..|]. split; [|done].
    rewrite map_app, elem_of_app. cbn [map fd_id new_folder]. rewrite list_elem_of_singleton. intros [?|Hm3]; [done|]. apply Hinj in Hm3; lia.
Qed.

Lemma grown_trans a b c : grown a b → grown b c → grown a c.
Proof.
  intros [A1 A2 (A3 & A4 & A5) (A6 & A7 & A8) A9] [B1 B2 (B3 & B4 & B5) (B6 & B7 & B8) B9]. split; [done|by etrans| | |done].
  - split_and!; congruence.
  - split_and!; [congruence..|]. intros H. destruct (B8 H) as [H' ->]. by apply A8.
Qed.

Lemma add_dirs_grown s l seen : folders_ok root_id (folder_ids s) (sc_folders s) → fresh s →
  (sc_drawn s + length (omap (dir_of []) l) ≤ draws)%nat → l ⊆ nodes t → ordered seen (map fst l) →
  (∀ q, q ∈ seen → q = [] ∨ (∃ es, (q, TDir (Some es)) ∈ nodes t) → is_Some (folder_ids s !! key q)) →
  let s' := foldl (add_dir drawn now) s (omap (dir_of []) l) in
  grown s s' ∧ (∀ p es, (p, TDir es) ∈ l → is_Some (folder_ids s' !! key p))
  ∧ (sc_drawn s' ≤ sc_drawn s + length (omap (dir_of []) l))%nat.
Proof.
  revert s seen. induction l as [|[p x] l IH]; intros s seen Hf Hfr HN Hl Ho Hs; cbn [omap list_omap foldl].
  { split; [by split|]. split; [by intros p es ?%elem_of_nil|cbn; lia]. }
  cbn [map fst ordered] in Ho. destruct Ho as [Hp Ho]. assert (Hin : (p, x) ∈ nodes t) by (apply Hl; by left).
  assert (Hpp : is_Some (folder_ids s !! key (parent p))).
  { apply Hs; [done|]. by eapply nodes_parent. }
  assert (Hl' : l ⊆ nodes t) by (intros y Hy; apply Hl; by right).
  assert (Hskip : ∀ q, (∃ es, (q, TDir (Some es)) ∈ nodes t) → (∀ es, x ≠ TDir es) → q ≠ p).
  { intros q (es & Hq) Hx ->. apply (Hx (Some es)). by eapply nodes_unique. }
  destruct (dir_of [] (p, x)) as [d|] eqn:Ed.
  - cbn [omap list_omap] in HN. rewrite Ed in HN. cbn [length] in HN. unfold dir_of in Ed. destruct x as [es'|d'| | |]; try done. cbn [fst snd] in Ed. injection Ed as <-. cbn [app foldl].
    destruct (add_dir_grown s p Hf Hfr) as (G1 & Hk & HD); [lia|by eapply nodes_nonempty|by eapply nodes_ok|done|].
    destruct (IH _ (p :: seen) (gr_folders _ _ G1) (gr_fresh _ _ G1) ltac:(lia) Hl' Ho) as (G2 & H2 & HD2).
    + intros q [->|Hq]%elem_of_cons Hdir; [done|]. destruct (Hs q Hq Hdir) as [id Hid]. exists id. eapply lookup_weaken; [done|apply G1].
    + split; [by eapply grown_trans|]. split; [|cbn [length]; lia]. intros q es [[= -> <-]|Hq]%elem_of_cons; [|by eapply H2].
      destruct Hk as [id Hid]. exists id. eapply lookup_weaken; [done|apply G2].
  - cbn [omap list_omap] in HN. rewrite Ed in HN. destruct (IH s (p :: seen) Hf Hfr HN Hl' Ho) as (G2 & H2 & HD2).
    + intros q [->|Hq]%elem_of_cons Hdir; [|by apply Hs]. destruct Hdir as [->|Hdir]; [by apply nodes_nonempty in Hin|].
      exfalso. apply (Hskip p Hdir); [|done]. intros es ->. done.
    + split; [done|]. split; [|done]. intros q es [[= -> <-]|Hq]%elem_of_cons; [done|by eapply H2].
Qed.

Lemma vanished_spec {A} (m : gmap string A) current k : k ∈ vanished m current ↔ is_Some (m !! k) ∧ k ∉ current.
Proof.
  unfold vanished. rewrite elem_of_List_filter, negb_true_iff, <-not_true_iff_false, contains_true. apply and_iff_compat_r.
  split.
  - intros ([k' a] & -> & H%elem_of_map_to_list)%list_elem_of_fmap. by exists a.
  - intros [a H]. apply (list_elem_of_fmap_2 fst _ (k, a)). by apply elem_of_map_to_list.
Qed.

Lemma drop_dir_spec s k :
  let s' := drop_dir now s k in
  (folder_ids s', sc_folders s') = drop_one fd_id folder_gone (delete_folder now) (folder_ids s, sc_folders s) k
  ∧ sc_files s' = sc_files s ∧ file_ids s' = file_ids s ∧ stats s' = stats s ∧ sc_drawn s' = sc_drawn s
  ∧ rs_upserted (sc_result s') = rs_upserted (sc_result s) ∧ rs_bytes (sc_result s') = rs_bytes (sc_result s)
  ∧ (rs_changed (sc_result s') = false → rs_changed (sc_result s) = false ∧ sc_folders s' = sc_folders s)
  ∧ (Forall plain_folder (sc_folders s) → Forall plain_folder (sc_folders s')).
Proof.
  unfold drop_dir, drop_one. cbn [fst snd]. destruct (folder_ids s !! k) as [id|]; [|by split_and!].
  change (is_folder id) with (λ r, bool_decide (fd_id r = id)). unfold folder_gone.
  destruct (List.find _ (sc_folders s)) as [r|]; [|by split_and!]. destruct (is_some (fd_deleted_at r)); [by split_and!|].
  split_and!; try done. cbn [sc_folders]. intros H. induction H as [|x l Hx Hl IH]; cbn [update_where]; [constructor|].
  case_bool_decide; constructor; try done. unfold plain_folder, plain_file in *. cbn. split_and!; try apply Hx. congruence.
Qed.

Lemma drop_dirs_spec s ks : NoDup (map fd_id (sc_folders s)) →
  let s' := foldl (drop_dir now) s ks in
  dropped fd_id folder_gone (folder_ids s) (sc_folders s) ks (folder_ids s') (sc_folders s')
  ∧ sc_files s' = sc_files s ∧ file_ids s' = file_ids s ∧ stats s' = stats s ∧ sc_drawn s' = sc_drawn s
  ∧ rs_upserted (sc_result s') = rs_upserted (sc_result s) ∧ rs_bytes (sc_result s') = rs_bytes (sc_result s)
  ∧ (rs_changed (sc_result s') = false → rs_changed (sc_result s) = false ∧ sc_folders s' = sc_folders s)
  ∧ (Forall plain_folder (sc_folders s) → Forall plain_folder (sc_folders s')).
Proof.
  intros Hnd s'.
  assert (Hall : (folder_ids s', sc_folders s') = foldl (drop_one fd_id folder_gone (delete_folder now)) (folder_ids s, sc_folders s) ks
    ∧ sc_files s' = sc_files s ∧ file_ids s' = file_ids s ∧ stats s' = stats s ∧ sc_drawn s' = sc_drawn s
    ∧ rs_upserted (sc_result s') = rs_upserted (sc_result s) ∧ rs_bytes (sc_result s') = rs_bytes (sc_result s)
    ∧ (rs_changed (sc_result s') = false → rs_changed (sc_result s) = false ∧ sc_folders s' = sc_folders s)
    ∧ (Forall plain_folder (sc_folders s) → Forall plain_folder (sc_folders s'))).
  { unfold s'. clear s' Hnd. revert s. induction ks as [|k ks IH]; intros s; [by split_and!|]. cbn [foldl].
    destruct (drop_dir_spec s k) as (D1 & D2 & D3 & D4 & D5 & D6 & D7 & D8 & D9). rewrite <-D1.
    destruct (IH (drop_dir now s k)) as (E1 & E2 & E3 & E4 & E5 & E6 & E7 & E8 & E9). split_and!; try congruence; [|by auto].
    intros H. destruct (E8 H) as [H' ->]. by apply D8. }
  destruct Hall as (H1 & Hrest). split; [|done].
  pose proof (drop_all fd_id folder_gone (delete_folder now) (λ r, conj eq_refl eq_refl) (folder_ids s) (sc_folders s) ks Hnd) as Hd.
  by rewrite <-H1 in Hd.
Qed.

(** The path of a directory of the tree, the root included. *)
Definition dir_key (k : string) : Prop := k = "" ∨ ∃ p es, (p, TDir (Some es)) ∈ nodes t ∧ k = key p.

(** After the directories: the index names exactly those of the tree. *)
Record surveyed (s s' : Scan) : Prop := {
  su_folders : folders_ok root_id (folder_ids s') (sc_folders s');
  su_keys k : is_Some (folder_ids s' !! k) ↔ dir_key k;
  su_keeps k id : dir_key k → folder_ids s !! k = Some id → folder_ids s' !! k = Some id;
  su_files : sc_files s' = sc_files s ∧ file_ids s' = file_ids s ∧ stats s' = stats s;
  su_result : rs_upserted (sc_result s') = rs_upserted (sc_result s) ∧ rs_bytes (sc_result s') = rs_bytes (sc_result s)
    ∧ (rs_changed (sc_result s') = false → rs_changed (sc_result s) = false ∧ sc_folders s' = sc_folders s);
  su_fresh : fresh s';
  su_drawn : (sc_drawn s' ≤ sc_drawn s + length (omap (dir_of []) (nodes t)))%nat;
}.

Lemma dir_key_parent p n : dir_key (key (p ++ [n])) → Forall name_ok (p ++ [n]) → dir_key (key p).
Proof.
  intros Hk Hn. assert (Hp : parent (p ++ [n]) = p) by (unfold parent; rewrite length_app; cbn; rewrite Nat.add_sub; apply take_app_length).
  destruct Hk as [E|(q & es & Hq & E)].
  - exfalso. by apply (key_nonempty (p ++ [n])) in E; [|destruct p|].
  - apply key_inj in E as <-; [|done|by eapply nodes_ok]. destruct (nodes_parent t _ _ Hq) as [H|(es' & H)]; rewrite Hp in H; [by left; rewrite H|].
    right. eauto.
Qed.

Lemma kept_folders m l ks m' l' (current : list string) : folders_ok root_id m l → dropped fd_id folder_gone m l ks m' l' → Forall plain_folder l' →
  (∀ k, k ∈ current ↔ dir_key k) → (∀ k, k ∈ ks ↔ is_Some (m !! k) ∧ k ∉ current) → folders_ok root_id m' l'.
Proof.
  intros [F1 F2 F3 F4 F5] Hd Hpl Hcur Hks. pose proof (names_dropped _ _ _ _ _ _ _ F1 Hd) as Hn'. pose proof Hd as [D1 D2 D3 D4].
  assert (Hsub : ∀ k id, m' !! k = Some id → m !! k = Some id ∧ k ∈ current).
  { intros k id Hk. rewrite D1 in Hk. destruct (decide (k ∈ ks)) as [|Hn]; [done|]. split; [done|].
    destruct (decide (k ∈ current)) as [|Hc]; [done|]. exfalso. apply Hn, Hks. by eauto. }
  assert (Hsup : ∀ k id, m !! k = Some id → k ∈ current → m' !! k = Some id).
  { intros k id Hk Hc. rewrite D1, decide_False; [done|]. intros [_ H]%Hks. done. }
  split; try done.
  - apply Hsup; [done|]. apply Hcur. by left.
  - intros k id Hk. apply (F3 k). by apply Hsub.
  - intros k r Hk Hr. destruct (Hsub _ _ Hk) as [Hm Hc].
    assert (Hlive : folder_gone r = false).
    { destruct Hn' as [N1 N2 _ _]. destruct (N2 _ _ Hk) as (x & Hx & Ex & Hg). by rewrite <-(same_record fd_id l' x r N1 Hx Hr Ex). }
    destruct (D4 r Hr Hlive) as [Hrl _]. destruct (F4 k r Hm Hrl) as [?|(p & n & par & -> & Hpn & Hnm & Hp & Hpar)]; [by left|].
    right. exists p, n, par. split_and!; try done. apply Hsup; [done|]. apply Hcur. eapply dir_key_parent; [by apply Hcur|done].
Qed.

(** The walk's directories are the tree's. *)
Lemma walked_dirs k : Forall readable (nodes t) → k ∈ "" :: map wd_rel (omap (dir_of []) (nodes t)) ↔ dir_key k.
Proof.
  intros Hr. unfold dir_key. rewrite elem_of_cons, list_elem_of_fmap. apply or_iff_compat_l. split.
  - intros (d & -> & Hd). apply list_elem_of_omap in Hd as ([p x] & Hx & Ed). unfold dir_of in Ed. cbn [fst snd] in Ed.
    destruct x as [[es|]| | | |]; try done; [injection Ed as <-; by exists p, es|].
    rewrite Forall_forall in Hr. by apply Hr in Hx.
  - intros (p & es & Hp & ->). eexists. split; [|apply list_elem_of_omap; exists (p, TDir (Some es)); split; [done|reflexivity]]. done.
Qed.

Lemma scan_dirs_surveyed s dirs : folders_ok root_id (folder_ids s) (sc_folders s) → fresh s →
  (sc_drawn s + length (omap (dir_of []) (nodes t)) ≤ draws)%nat → Forall readable (nodes t) →
  List.filter (λ d, negb (bool_decide (wd_rel d = ""))) dirs = omap (dir_of []) (nodes t) → surveyed s (scan_dirs drawn now s dirs).
Proof.
  intros Hf Hfr HN Hr Hdirs. unfold scan_dirs. rewrite Hdirs.
  destruct (add_dirs_grown s (nodes t) [[]] Hf Hfr HN ltac:(done) (nodes_ordered t)) as (G & Hall & HD).
  { intros q ->%list_elem_of_singleton _. destruct Hf as [_ F2 _ _ _]. by exists root_id. }
  set (s1 := foldl (add_dir drawn now) s (omap (dir_of []) (nodes t))) in *. destruct G as [G1 G2 (G3 & G4 & G5) (G6 & G7 & G8) G9].
  set (current := "" :: map wd_rel (omap (dir_of []) (nodes t))). assert (Hcur : ∀ k, k ∈ current ↔ dir_key k) by (intros k; by apply walked_dirs).
  set (ks := vanished (folder_ids s1) current). assert (Hks : ∀ k, k ∈ ks ↔ is_Some (folder_ids s1 !! k) ∧ k ∉ current) by (intros k; apply vanished_spec).
  destruct (drop_dirs_spec s1 ks) as (D & D2 & D3 & D4 & D5 & D6 & D7 & D8 & D9); [apply G1|].
  set (s2 := foldl (drop_dir now) s1 ks) in *. assert (Hf2 : folders_ok root_id (folder_ids s2) (sc_folders s2)).
  { eapply kept_folders; [exact G1|exact D|apply D9, G1|exact Hcur|exact Hks]. }
  assert (Hdom : ∀ k, dir_key k → is_Some (folder_ids s1 !! k)).
  { intros k [->|(p & es & Hp & ->)]; [|by eapply Hall]. destruct G1 as [_ R _ _ _]. by exists root_id. }
  split; try done.
  - intros k. rewrite (dr_index _ _ _ _ _ _ _ D). split.
    + intros [id Hk]. apply Hcur. destruct (decide (k ∈ ks)) as [|Hn]; [done|]. destruct (decide (k ∈ current)); [done|].
      exfalso. apply Hn, Hks. by eauto.
    + intros Hk. rewrite decide_False; [by apply Hdom|]. intros [_ H]%Hks. by apply H, Hcur.
  - intros k id Hk Hid. rewrite (dr_index _ _ _ _ _ _ _ D), decide_False; [by eapply lookup_weaken|]. intros [_ H]%Hks. by apply H, Hcur.
  - by rewrite D2, D3, D4.
  - rewrite D6, D7. split_and!; [done..|]. intros H. destruct (D8 H) as [H' ->]. by apply G8.
  - intros n Hn HnN. rewrite D5 in Hn. rewrite D2. destruct D as [_ -> _ _]. by apply G9.
  - by rewrite D5.
Qed.

(** ** Files *)

(** The path of a file of the tree. *)
Definition file_key (k : string) : Prop := ∃ p d st, (p, TFile d (Some st)) ∈ nodes t ∧ k = key p.

(** A file with the size and time on record has the content on record. *)
Definition honest (files : list FileRecord) (index : PathIndex) : Prop := ∀ p d size mtime r,
  (p, TFile (Some d) (Some (size, mtime))) ∈ nodes t → pi_file_stats index !! key p = Some (mtime, size) →
  pi_file_ids index !! key p = Some (fl_id r) → r ∈ files → fl_checksum r = sha256_hex d.

Section files.
Context (s0 : Scan) (Hkeys : ∀ k, dir_key k → is_Some (folder_ids s0 !! k)) (Hhonest : honest (sc_files s0) (sc_index s0)).
Context (Hstart : files_ok file_key (file_ids s0) (folder_ids s0) (sc_files s0)).

(** The files looked at so far. *)
Record noted (seen : list WalkedFile) (s : Scan) : Prop := {
  nt_folders : folder_ids s = folder_ids s0 ∧ sc_folders s = sc_folders s0;
  nt_files : files_ok file_key (file_ids s) (folder_ids s) (sc_files s);
  nt_rest k : k ∉ map wf_rel seen → file_ids s !! k = file_ids s0 !! k ∧ stats s !! k = stats s0 !! k
    ∧ ∀ r, file_ids s0 !! k = Some (fl_id r) → r ∈ sc_files s0 → r ∈ sc_files s;
  nt_seen f : f ∈ seen → ∃ r, r ∈ sc_files s ∧ file_ids s !! wf_rel f = Some (fl_id r)
    ∧ ∀ d, wf_data f = Some d → fl_checksum r = sha256_hex d;
  nt_upserted r : r ∈ sc_files s → file_gone r = false → r ∈ sc_files s0 ∨ fl_id r ∈ rs_upserted (sc_result s);
  nt_bytes id : id ∈ rs_upserted (sc_result s) → ∃ d, rs_bytes (sc_result s) !! id = Some d
    ∧ ∀ r, r ∈ sc_files s → fl_id r = id → fl_checksum r = sha256_hex d;
  nt_changed : rs_changed (sc_result s) = false → rs_changed (sc_result s0) = false ∧ sc_files s = sc_files s0;
  nt_fresh : fresh s;
}.

(** The file of the walk at a path of the tree. *)
Definition found_at (f : WalkedFile) (q : path) (n : string) (d : option string) (size mtime : Z) : Prop :=
  (q ++ [n], TFile d (Some (size, mtime))) ∈ nodes t
  ∧ f = {| wf_rel := key (q ++ [n]); wf_folder := key q; wf_name := n; wf_data := d; wf_size := size; wf_mtime := mtime |}.

Lemma snoc_parent (q : path) n : parent (q ++ [n]) = q.
Proof. unfold parent. rewrite length_app. cbn. rewrite Nat.add_sub. apply take_app_length. Qed.

Lemma file_of_found x f : x ∈ nodes t → file_of [] x = Some f → ∃ q n d size mtime, found_at f q n d size mtime.
Proof.
  destruct x as [p [|d [[size mtime]|]| | |]]; unfold file_of; cbn [fst snd]; try done. intros Hx [= <-].
  destruct (exists_last (nodes_nonempty _ _ _ Hx)) as (q & n & ->). exists q, n, d, size, mtime. split; [done|].
  cbn [app]. by rewrite snoc_parent, last_snoc.
Qed.

Lemma found_folder f q n d size mtime : found_at f q n d size mtime →
  Forall name_ok (q ++ [n]) ∧ file_key (wf_rel f) ∧ ∃ fid, folder_ids s0 !! key q = Some fid.
Proof.
  intros [Hin ->]. cbn [wf_rel]. split; [by eapply nodes_ok|]. split; [by exists (q ++ [n]), d, (size, mtime)|].
  apply Hkeys. destruct (nodes_parent t _ _ Hin) as [E|(es & H)]; rewrite snoc_parent in *; [left; by rewrite E|right; eauto].
Qed.

(** The place of a record at the path of the file. *)
Lemma found_place f q n d size mtime folders fid r : found_at f q n d size mtime → Forall name_ok (q ++ [n]) →
  folders !! key q = Some fid → fl_name r = n → fl_folder_id r = fid → file_place folders (wf_rel f) r.
Proof. intros [_ ->] Hn Hf Hr <-. exists q, n. by split_and!. Qed.

Lemma place_name f q n d size mtime folders r : found_at f q n d size mtime → Forall name_ok (q ++ [n]) →
  file_place folders (wf_rel f) r → fl_name r = n.
Proof.
  intros [_ ->] Hn (q' & n' & E & Hn' & Hr & _). cbn [wf_rel] in E. apply key_inj in E; [|done..]. by apply app_inj_tail in E as [_ <-].
Qed.

Lemma live_record m folders l k id : files_ok file_key m folders l → m !! k = Some id → ∃ r, r ∈ l ∧ fl_id r = id ∧ file_gone r = false ∧ List.find (is_file id) l = Some r.
Proof.
  intros [[N1 N2 N3 N4] _ _] Hk. destruct (N2 k id Hk) as (r & Hr & <- & Hg). exists r. split_and!; try done. by apply (find_record fl_id).
Qed.

Lemma unseen_record seen s k r : noted seen s → k ∉ map wf_rel seen → file_ids s !! k = Some (fl_id r) → r ∈ sc_files s → r ∈ sc_files s0.
Proof.
  intros N Hk Hid Hr. destruct (nt_rest _ _ N k Hk) as (E & _ & Hin). rewrite E in Hid.
  destruct (live_record _ _ _ _ _ Hstart Hid) as (r0 & Hr0 & Er0 & _). rewrite <-Er0 in Hid. apply Hin in Hid as Hr0'; [|done].
  by rewrite (same_record fl_id (sc_files s) r r0 (nm_ids _ _ _ _ (fi_names _ _ _ _ (nt_files _ _ N))) Hr Hr0' (eq_sym Er0)).
Qed.

(** Seen before: nothing changes. *)
Lemma note_seen seen s f q n d size mtime : noted seen s → found_at f q n d size mtime → wf_rel f ∉ map wf_rel seen →
  seen_before (sc_index s) f = true → noted (seen ++ [f]) s.
Proof.
  intros N Hf Hnew Hb. pose proof N as [N1 N2 N3 N4 N5 N6 N7 N8]. split; try done.
  - intros k Hk. apply N3. intros H. apply Hk. rewrite map_app. apply elem_of_app. by left.
  - intros g [Hg| ->%list_elem_of_singleton]%elem_of_app; [by apply N4|]. unfold seen_before in Hb.
    destruct (stats s !! wf_rel f) as [[m z]|] eqn:Es; [|done]. destruct (file_ids s !! wf_rel f) as [id|] eqn:Ei; [|by rewrite andb_false_r in Hb].
    bools. subst m z. destruct (live_record _ _ _ _ _ N2 Ei) as (r & Hr & <- & _). exists r. split_and!; try done.
    intros c Hc. destruct Hf as [Hin ->]. cbn [wf_data wf_rel wf_mtime wf_size] in *. subst d.
    apply (Hhonest (q ++ [n]) c size mtime); [done| | |].
    + by rewrite <-(proj1 (proj2 (N3 _ Hnew))).
    + by rewrite <-(proj1 (N3 _ Hnew)).
    + by eapply unseen_record.
Qed.

Lemma rel_not_in seen f k : k ∉ map wf_rel (seen ++ [f]) → k ∉ map wf_rel seen ∧ k ≠ wf_rel f.
Proof. rewrite map_app, elem_of_app. cbn [map]. rewrite list_elem_of_singleton. tauto. Qed.

(** Another path has another identifier. *)
Lemma other_id s k k' (r r' : FileRecord) : names fl_id file_gone (file_ids s) (sc_files s) →
  file_ids s !! k = Some (fl_id r) → file_ids s !! k' = Some (fl_id r') → k ≠ k' → fl_id r ≠ fl_id r'.
Proof. intros N H H' Hne E. apply Hne. rewrite E in H. by eapply (nm_inj _ _ _ _ N). Qed.

(** Read and found unchanged: only the size and time are recorded. *)
Lemma note_same seen s s' f q n d data size mtime r : noted seen s → found_at f q n d size mtime → wf_rel f ∉ map wf_rel seen →
  wf_data f = Some data → file_ids s !! wf_rel f = Some (fl_id r) → r ∈ sc_files s → fl_checksum r = sha256_hex data →
  s' = {| sc_folders := sc_folders s; sc_files := sc_files s; sc_index := {| pi_folder_ids := folder_ids s; pi_file_ids := file_ids s;
            pi_file_stats := <[wf_rel f := (wf_mtime f, wf_size f)]> (stats s) |}; sc_result := sc_result s; sc_drawn := sc_drawn s |} →
  noted (seen ++ [f]) s'.
Proof.
  intros [N1 N2 N3 N4 N5 N6 N7 N8] Hf Hnew Hd Hid Hr Hsum ->. split; try done;
    cbn [sc_index sc_files sc_folders sc_result pi_folder_ids pi_file_ids pi_file_stats].
  - intros k [Hk Hne]%rel_not_in. rewrite lookup_insert_ne by done. by apply N3.
  - intros g [Hg| ->%list_elem_of_singleton]%elem_of_app; [by apply N4|]. exists r. split_and!; try done. intros c. rewrite Hd. by intros [= <-].
Qed.

Lemma change_file_gone fid c m z r : fl_id (change_file fid c m z now r) = fl_id r ∧ file_gone (change_file fid c m z now r) = false.
Proof. done. Qed.

(** Read and found changed, or never finished: the record is renewed. *)
Lemma note_changed seen s s' f q n d data size mtime fid r : noted seen s → found_at f q n d size mtime → wf_rel f ∉ map wf_rel seen →
  wf_data f = Some data → file_ids s !! wf_rel f = Some (fl_id r) → r ∈ sc_files s → folder_ids s !! key q = Some fid →
  s' = {| sc_folders := sc_folders s;
          sc_files := update_where (is_file (fl_id r)) (change_file fid (sha256_hex data) (guess_mime (wf_name f)) (slen data) now) (sc_files s);
          sc_index := {| pi_folder_ids := folder_ids s; pi_file_ids := file_ids s; pi_file_stats := <[wf_rel f := (wf_mtime f, wf_size f)]> (stats s) |};
          sc_result := upserted (fl_id r) data (sc_result s); sc_drawn := sc_drawn s |} →
  noted (seen ++ [f]) s'.
Proof.
  intros [N1 N2 N3 N4 N5 N6 N7 N8] Hf Hnew Hd Hid Hr Hfid ->. destruct (found_folder _ _ _ _ _ _ Hf) as (Hn & Hfk & _).
  set (ch := change_file fid (sha256_hex data) (guess_mime (wf_name f)) (slen data) now). pose proof N2 as [M1 M2 M3].
  change (is_file (fl_id r)) with (λ x, bool_decide (fl_id x = fl_id r)).
  assert (Hch : ∀ x, fl_id (ch x) = fl_id x ∧ file_gone (ch x) = false) by done.
  assert (Hin : ∀ x, x ∈ update_where (λ x, bool_decide (fl_id x = fl_id r)) ch (sc_files s) ↔
    (x ∈ sc_files s ∧ fl_id x ≠ fl_id r) ∨ x = ch r).
  { intros x. rewrite (elem_of_update_where fl_id) by apply M1. apply or_iff_compat_l. split.
    - intros (y & Hy & Ey & ->). by rewrite (same_record fl_id (sc_files s) y r (nm_ids _ _ _ _ M1) Hy Hr Ey).
    - intros ->. by exists r. }
  split; cbn [sc_index sc_files sc_folders sc_result pi_folder_ids pi_file_ids pi_file_stats rs_upserted rs_bytes rs_changed upserted]; try done.
  - split; [by apply (names_update fl_id file_gone _ _ (wf_rel f))| |].
    + intros k x Hk Hkx [[Hx Hne]| ->]%Hin; [by apply M2|]. assert (k = wf_rel f) as -> by by eapply (nm_inj _ _ _ _ M1).
      eapply found_place; [exact Hf|done|exact Hfid| |done]. exact (place_name _ _ _ _ _ _ _ _ Hf Hn (M2 _ _ Hfk Hid Hr)).
    + apply Forall_forall. rewrite Forall_forall in M3. intros x [[Hx _]| ->]%Hin; [by apply M3|]. destruct (M3 r Hr) as (P1 & P2 & P3 & _).
      split_and!; [done..|apply guess_mime_plain].
  - intros k [Hk Hne]%rel_not_in. rewrite lookup_insert_ne by done. destruct (N3 k Hk) as (E1 & E2 & E3). split_and!; [done..|].
    intros x Hx0 Hx. apply Hin. left. split; [by apply E3|]. rewrite <-E1 in Hx0. by eapply other_id.
  - intros g [Hg| ->%list_elem_of_singleton]%elem_of_app.
    + destruct (N4 g Hg) as (x & Hx & Ex & Hc). exists x. split_and!; try done. apply Hin. left. split; [done|].
      eapply other_id; [done..|]. intros E. apply Hnew. rewrite <-E. by apply (list_elem_of_fmap_2 wf_rel).
    + exists (ch r). split_and!; [apply Hin; by right|done|]. intros c. rewrite Hd. by intros [= <-].
  - intros x [[Hx Hne]| ->]%Hin Hg; [|right; apply elem_of_app; right; by left]. destruct (N5 x Hx Hg) as [?|?]; [by left|].
    right. apply elem_of_app. by left.
  - intros i Hi. destruct (decide (i = fl_id r)) as [->|Hne].
    + exists data. rewrite lookup_insert_eq. split; [done|]. by intros x [[_ Hx]| ->]%Hin E.
    + apply elem_of_app in Hi as [Hi| ->%list_elem_of_singleton]; [|done]. destruct (N6 i Hi) as (c & Hc & Hall). exists c.
      rewrite lookup_insert_ne by done. split; [done|]. intros x [[Hx _]| ->]%Hin E; [by apply Hall|done].
  - intros m Hm. cbn [sc_drawn sc_folders sc_files] in *. rewrite (update_where_ids fl_id) by apply Hch. by apply N8.
Qed.

(** A path seen for the first time. *)
Lemma note_new seen s s' f q n d data size mtime fid : noted seen s → (sc_drawn s < draws)%nat → found_at f q n d size mtime → wf_rel f ∉ map wf_rel seen →
  wf_data f = Some data → file_ids s !! wf_rel f = None → folder_ids s !! key q = Some fid →
  s' = {| sc_folders := sc_folders s; sc_files := sc_files s ++ [new_file (new_id (sc_drawn s)) fid (wf_name f) (sha256_hex data) (slen data) now];
          sc_index := {| pi_folder_ids := folder_ids s; pi_file_ids := <[wf_rel f := new_id (sc_drawn s)]> (file_ids s);
            pi_file_stats := <[wf_rel f := (wf_mtime f, wf_size f)]> (stats s) |};
          sc_result := upserted (new_id (sc_drawn s)) data (sc_result s); sc_drawn := S (sc_drawn s) |} →
  noted (seen ++ [f]) s'.
Proof.
  intros [N1 N2 N3 N4 N5 N6 N7 N8] Hdr Hf Hnew Hd Hid Hfid ->. destruct (found_folder _ _ _ _ _ _ Hf) as (Hn & Hfk & _).
  destruct (N8 (sc_drawn s)) as [Hfr1 Hfr2]; [lia..|]. set (i := new_id (sc_drawn s)) in *.
  set (x := new_file i fid (wf_name f) (sha256_hex data) (slen data) now). pose proof N2 as [M1 M2 M3].
  assert (Hold : ∀ y, y ∈ sc_files s → fl_id y ≠ i) by (intros y Hy E; apply Hfr2; rewrite <-E; by apply (list_elem_of_fmap_2 fl_id)).
  split; cbn [sc_index sc_files sc_folders sc_result pi_folder_ids pi_file_ids pi_file_stats rs_upserted rs_bytes rs_changed upserted]; try done.
  - split; [by apply (names_insert fl_id file_gone (file_ids s) (sc_files s) (wf_rel f) x)| |].
    + intros k y Hk Hky [Hy| ->%list_elem_of_singleton]%elem_of_app.
      * apply lookup_insert_Some in Hky as [[<- E]|[_ Hky]]; [by apply Hold in Hy|by apply M2].
      * apply lookup_insert_Some in Hky as [[<- _]|[_ Hky]].
        -- eapply found_place; [exact Hf|done|exact Hfid| |done]. by destruct Hf as [_ ->].
        -- exfalso. destruct (nm_record _ _ _ _ M1 k _ Hky) as (y & Hy & E & _). by apply (Hold y).
    + apply Forall_app. split; [done|]. apply Forall_singleton. split_and!; [done..|apply guess_mime_plain].
  - intros k [Hk Hne]%rel_not_in. rewrite !lookup_insert_ne by done. destruct (N3 k Hk) as (E1 & E2 & E3). split_and!; [done..|].
    intros y Hy0 Hy. apply elem_of_app. left. by apply E3.
  - intros g [Hg| ->%list_elem_of_singleton]%elem_of_app.
    + destruct (N4 g Hg) as (y & Hy & Ey & Hc). exists y. split_and!; try done; [apply elem_of_app; by left|].
      rewrite lookup_insert_ne; [done|]. intros E. apply Hnew. rewrite E. by apply (list_elem_of_fmap_2 wf_rel).
    + exists x. rewrite lookup_insert_eq. split_and!; [apply elem_of_app; right; by left|done|]. intros c. rewrite Hd. by intros [= <-].
  - intros y [Hy| ->%list_elem_of_singleton]%elem_of_app Hg; [|right; apply elem_of_app; right; by left].
    destruct (N5 y Hy Hg); [by left|]. right. apply elem_of_app. by left.
  - intros j Hj. destruct (decide (j = i)) as [->|Hne].
    + exists data. rewrite lookup_insert_eq. split; [done|]. intros y [Hy| ->%list_elem_of_singleton]%elem_of_app E; [by apply Hold in Hy|done].
    + apply elem_of_app in Hj as [Hj| ->%list_elem_of_singleton]; [|done]. destruct (N6 j Hj) as (c & Hc & Hall). exists c.
      rewrite lookup_insert_ne by done. split; [done|]. intros y [Hy| ->%list_elem_of_singleton]%elem_of_app E; [by apply Hall|done].
  - intros m Hm HmN. cbn [sc_drawn sc_folders sc_files] in *. destruct (N8 m) as [Hm1 Hm2]; [lia..|]. split; [done|].
    rewrite map_app, elem_of_app. cbn [map fl_id new_file x]. rewrite list_elem_of_singleton. intros [?|E]; [done|]. apply Hinj in E; lia.
Qed.

Lemma scan_file_noted seen s s' f q n d size mtime : noted seen s → (sc_drawn s < draws)%nat → found_at f q n d size mtime → wf_rel f ∉ map wf_rel seen →
  scan_file drawn now root_id s f = Some s' → noted (seen ++ [f]) s' ∧ (sc_drawn s' ≤ S (sc_drawn s))%nat.
Proof.
  intros N Hdr Hf Hnew. unfold scan_file. destruct (seen_before (sc_index s) f) eqn:Eb; [intros [= <-]; split; [by eapply note_seen|lia]|].
  destruct (wf_data f) as [data|] eqn:Ed; [|done]. intros [= <-]. destruct (found_folder _ _ _ _ _ _ Hf) as (_ & _ & fid & Hfid).
  rewrite <-(proj1 (nt_folders _ _ N)) in Hfid. replace (wf_folder f) with (key q) by by destruct Hf as [_ ->]. rewrite Hfid. cbn [default from_option id].
  unfold note_file. cbn [pi_file_ids]. destruct (file_ids s !! wf_rel f) as [i|] eqn:Ei; [|split; [by eapply note_new|done]].
  destruct (live_record _ _ _ _ _ (nt_files _ _ N) Ei) as (r & Hr & <- & Hg & ->). destruct (bool_decide _ && _) eqn:Ec.
  - bools. split; [by eapply note_same|cbn; lia].
  - split; [by eapply note_changed|cbn; lia].
Qed.

Lemma file_rels_NoDup : NoDup (map wf_rel (omap (file_of []) (nodes t))).
Proof.
  pose proof (nodes_NoDup t Ht) as Hnd. assert (Hok : ∀ x, x ∈ nodes t → Forall name_ok x.1) by (intros [p x] Hx; by eapply nodes_ok).
  revert Hnd Hok. generalize (nodes t). intros l. induction l as [|[p x] l IH]; [constructor|]. cbn [map fst omap list_omap]. intros [Hp Hl]%NoDup_cons Hok.
  assert (IH' : NoDup (map wf_rel (omap (file_of []) l))) by (apply IH; [done|]; intros y Hy; apply Hok; by right).
  destruct (file_of [] (p, x)) as [f|] eqn:E; [|done]. cbn [map]. apply NoDup_cons. split; [|done].
  intros (g & Eg & Hg)%list_elem_of_fmap. apply list_elem_of_omap in Hg as ([q y] & Hy & Ey).
  assert (Hrel : ∀ (z : path * tree) h, file_of [] z = Some h → wf_rel h = key z.1).
  { intros [z [|d [st|]| | |]] h; unfold file_of; cbn; try done. by intros [= <-]. }
  apply Hrel in E as E1. apply Hrel in Ey as E2. rewrite E1, E2 in Eg. apply key_inj in Eg; [|by apply (Hok (p, x)); left|by apply (Hok (q, y)); right].
  cbn [fst] in Eg. subst q. apply Hp. by apply (list_elem_of_fmap_2 fst _ (p, y)).
Qed.

Lemma scan_files_noted seen s s' l : noted seen s → (sc_drawn s + length l ≤ draws)%nat → NoDup (map wf_rel (seen ++ l)) → (∀ f, f ∈ l → f ∈ omap (file_of []) (nodes t)) →
  scan_files drawn now root_id s l = (s', Ok tt) → noted (seen ++ l) s'.
Proof.
  revert seen s. induction l as [|f l IH]; intros seen s N Hdr Hnd Hl; cbn [scan_files].
  { intros [= <-]. by rewrite app_nil_r. }
  destruct (scan_file drawn now root_id s f) as [s1|] eqn:E; [|done]. intros Hs.
  assert (Hf : f ∈ omap (file_of []) (nodes t)) by (apply Hl; by left). apply list_elem_of_omap in Hf as (x & Hx & Ex).
  destruct (file_of_found x f Hx Ex) as (q & n & d & size & mtime & Hf). rewrite cons_middle, app_assoc in Hnd |- *.
  cbn [length] in Hdr. destruct (scan_file_noted seen s s1 f q n d size mtime) as [N1 Hdr1]; [done|lia|done| |done|apply (IH (seen ++ [f]) s1); [done|lia|done|intros g Hg; apply Hl; by right|done]].
  rewrite !map_app in Hnd. apply NoDup_app in Hnd as (Hnd & _ & _). apply NoDup_app in Hnd as (_ & Hnd & _). intros Hin. apply (Hnd _ Hin). by left.
Qed.

(** ** Files that are gone *)
Lemma drop_file_spec s k :
  let s' := drop_file now s k in
  (file_ids s', sc_files s') = drop_one fl_id file_gone (delete_file now) (file_ids s, sc_files s) k
  ∧ folder_ids s' = folder_ids s ∧ sc_folders s' = sc_folders s
  ∧ rs_upserted (sc_result s') = rs_upserted (sc_result s) ∧ rs_bytes (sc_result s') = rs_bytes (sc_result s)
  ∧ (rs_changed (sc_result s') = false → rs_changed (sc_result s) = false ∧ sc_files s' = sc_files s)
  ∧ (Forall plain_file (sc_files s) → Forall plain_file (sc_files s')).
Proof.
  unfold drop_file, drop_one. cbn [fst snd]. destruct (file_ids s !! k) as [id|]; [|by split_and!].
  change (is_file id) with (λ r, bool_decide (fl_id r = id)). unfold file_gone.
  destruct (List.find _ (sc_files s)) as [r|]; [|by split_and!]. destruct (is_some (fl_deleted_at r)); [by split_and!|].
  split_and!; try done. cbn [sc_files]. intros H. induction H as [|x l Hx Hl IH]; cbn [update_where]; [constructor|].
  case_bool_decide; constructor; try done. unfold plain_folder, plain_file in *. cbn. split_and!; try apply Hx. congruence.
Qed.

Lemma drop_files_spec s ks : NoDup (map fl_id (sc_files s)) →
  let s' := foldl (drop_file now) s ks in
  dropped fl_id file_gone (file_ids s) (sc_files s) ks (file_ids s') (sc_files s')
  ∧ folder_ids s' = folder_ids s ∧ sc_folders s' = sc_folders s
  ∧ rs_upserted (sc_result s') = rs_upserted (sc_result s) ∧ rs_bytes (sc_result s') = rs_bytes (sc_result s)
  ∧ (rs_changed (sc_result s') = false → rs_changed (sc_result s) = false ∧ sc_files s' = sc_files s)
  ∧ (Forall plain_file (sc_files s) → Forall plain_file (sc_files s')).
Proof.
  intros Hnd s'.
  assert (Hall : (file_ids s', sc_files s') = foldl (drop_one fl_id file_gone (delete_file now)) (file_ids s, sc_files s) ks
    ∧ folder_ids s' = folder_ids s ∧ sc_folders s' = sc_folders s
    ∧ rs_upserted (sc_result s') = rs_upserted (sc_result s) ∧ rs_bytes (sc_result s') = rs_bytes (sc_result s)
    ∧ (rs_changed (sc_result s') = false → rs_changed (sc_result s) = false ∧ sc_files s' = sc_files s)
    ∧ (Forall plain_file (sc_files s) → Forall plain_file (sc_files s'))).
  { unfold s'. clear s' Hnd. revert s. induction ks as [|k ks IH]; intros s; [by split_and!|]. cbn [foldl].
    destruct (drop_file_spec s k) as (D1 & D2 & D3 & D4 & D5 & D6 & D7). rewrite <-D1.
    destruct (IH (drop_file now s k)) as (E1 & E2 & E3 & E4 & E5 & E6 & E7). split_and!; try congruence; [|by auto].
    intros H. destruct (E6 H) as [H' ->]. by apply D6. }
  destruct Hall as (H1 & Hrest). split; [|done].
  pose proof (drop_all fl_id file_gone (delete_file now) (λ r, conj eq_refl eq_refl) (file_ids s) (sc_files s) ks Hnd) as Hd.
  by rewrite <-H1 in Hd.
Qed.

(** The walk's files are the tree's. *)
Lemma walked_files k : k ∈ map wf_rel (omap (file_of []) (nodes t)) ↔ file_key k.
Proof.
  unfold file_key. rewrite list_elem_of_fmap. split.
  - intros (f & -> & Hf). apply list_elem_of_omap in Hf as ([p x] & Hx & Ef). unfold file_of in Ef. cbn [fst snd] in Ef.
    destruct x as [|d [st|]| | |]; try done. injection Ef as <-. by exists p, d, st.
  - intros (p & d & st & Hp & ->). eexists. split; [|apply list_elem_of_omap; exists (p, TFile d (Some st)); split; [done|reflexivity]]. done.
Qed.
End files.
End follow.
