(* ===== verification/StorageFollow.v ===== *)
(** * Shared folders: a scan mirrors the directory

    The theorems about [rescan_local_dir] as a whole, from the lemmas of
    [StorageIndex] about its loops. *)
From S2P Require Import Prelude Text Wire StorageDomain StoragePaths StorageLink StorageAccess StorageScan StorageWalk StorageIndex.

Section rescan.
Context `{C : Crypto} (drawn : nat → string) (now : string) (t : tree) (e : SharedFolder) (Hnow : now ≠ "").

Notation ids0 := (pi_folder_ids (sh_path_index e)).
Notation file_ids0 := (pi_file_ids (sh_path_index e)).

(** What a scan that succeeds leaves. *)
Record mirrors (e' : SharedFolder) (r : RescanResult) : Prop := {
  mi_index : index_ok e';
  mi_dirs k : is_Some (pi_folder_ids (sh_path_index e') !! k) ↔ dir_key t k;
  mi_files k : is_Some (pi_file_ids (sh_path_index e') !! k) ↔ file_key t k;
  mi_content p d st : (p, TFile (Some d) st) ∈ nodes t → ∃ f, f ∈ sh_files e' ∧ file_gone f = false
    ∧ pi_file_ids (sh_path_index e') !! key p = Some (fl_id f) ∧ fl_checksum f = sha256_hex d;
  mi_stable_dirs k id : dir_key t k → ids0 !! k = Some id → pi_folder_ids (sh_path_index e') !! k = Some id;
  mi_unchanged : rs_changed r = false → sh_folders e' = sh_folders e ∧ sh_files e' = sh_files e;
  mi_source f : f ∈ sh_files e' → file_gone f = false → f ∈ sh_files e ∨ fl_id f ∈ rs_upserted r;
  mi_bytes f : f ∈ sh_files e' → file_gone f = false → fl_id f ∈ rs_upserted r →
    ∃ d, rs_bytes r !! fl_id f = Some d ∧ fl_checksum f = sha256_hex d;
}.

(** The identifiers the scan may draw are new and differ: at most one for each
    node of the tree. *)
Notation draws := (length (nodes t)).
Definition draws_fresh : Prop :=
  (∀ i j, (i < draws)%nat → (j < draws)%nat → generate_uuid_v4 (drawn i) = generate_uuid_v4 (drawn j) → i = j)
  ∧ ∀ n, (n < draws)%nat → generate_uuid_v4 (drawn n) ∉ map fd_id (sh_folders e) ∧ generate_uuid_v4 (drawn n) ∉ map fl_id (sh_files e).

Lemma walked_count : (length (omap (dir_of []) (nodes t)) + length (omap (file_of []) (nodes t)) ≤ draws)%nat.
Proof.
  induction (nodes t) as [|[p x] l IH]; [done|]. cbn [omap list_omap]. unfold dir_of at 1, file_of at 1. cbn [fst snd].
  destruct x as [es|d [st|]| | |]; cbn [length]; lia.
Qed.

Lemma start_files s : index_ok e → surveyed drawn (sh_folder_id e) t draws (start_scan e) s → tree_ok t →
  files_ok (file_key t) (pi_file_ids (sc_index s)) (pi_folder_ids (sc_index s)) (sc_files s).
Proof.
  intros [_ [F1 F2 F3]] S Ht. destruct (su_files _ _ _ _ _ _ S) as (E1 & E2 & _). rewrite E1, E2. split; try done.
  intros k r (p & d & st & Hp & ->) Hk Hr. destruct (F2 _ r I Hk Hr) as (q & n & E & Hn & Hr' & Hq). exists q, n. split_and!; try done.
  apply (su_keeps _ _ _ _ _ _ S); [|done]. apply key_inj in E as ->; [|by eapply nodes_ok|done].
  destruct (nodes_parent t _ _ Hp) as [H|(es & H)]; rewrite snoc_parent in H; [left; by rewrite H|right; eauto].
Qed.

Lemma finish_scan s s1 (files : list WalkedFile) : tree_ok t → surveyed drawn (sh_folder_id e) t draws (start_scan e) s →
  files_ok (file_key t) (pi_file_ids (sc_index s)) (pi_folder_ids (sc_index s)) (sc_files s) →
  files = omap (file_of []) (nodes t) → Forall readable (nodes t) → noted drawn t draws s files s1 →
  let s2 := foldl (drop_file now) s1 (vanished (pi_file_ids (sc_index s1)) (map wf_rel files)) in
  mirrors (scanned s2 e) (sc_result s2).
Proof.
  intros Ht S Hst -> Hread N s2. set (rels := map wf_rel (omap (file_of []) (nodes t))).
  assert (Hrels : ∀ k, k ∈ rels ↔ file_key t k) by (intros k; apply walked_files).
  set (ks := vanished (pi_file_ids (sc_index s1)) rels).
  assert (Hks : ∀ k, k ∈ ks ↔ is_Some (pi_file_ids (sc_index s1) !! k) ∧ k ∉ rels) by (intros k; apply vanished_spec).
  pose proof (nt_files _ _ _ _ _ _ N) as [M1 M2 M3].
  destruct (drop_files_spec now Hnow s1 ks (nm_ids _ _ _ _ M1)) as (D & E1 & E2 & E3 & E4 & E5 & E6).
  change (foldl (drop_file now) s1 ks) with s2 in *. destruct (nt_folders _ _ _ _ _ _ N) as [N1 N2]. rewrite N1 in E1. rewrite N2 in E2.
  pose proof (names_dropped _ _ _ _ _ _ _ M1 D) as M'.
  assert (Hsub : ∀ k id, pi_file_ids (sc_index s2) !! k = Some id → pi_file_ids (sc_index s1) !! k = Some id ∧ file_key t k).
  { intros k id Hk. rewrite (dr_index _ _ _ _ _ _ _ D) in Hk. destruct (decide (k ∈ ks)) as [|Hn]; [done|]. split; [done|].
    apply Hrels. destruct (decide (k ∈ rels)) as [|Hc]; [done|]. exfalso. apply Hn, Hks. by eauto. }
  assert (Hsup : ∀ k id, pi_file_ids (sc_index s1) !! k = Some id → file_key t k → pi_file_ids (sc_index s2) !! k = Some id).
  { intros k id Hk Hc. rewrite (dr_index _ _ _ _ _ _ _ D), decide_False; [done|]. intros [_ H]%Hks. by apply H, Hrels. }
  assert (Hlive : ∀ k f, pi_file_ids (sc_index s2) !! k = Some (fl_id f) → f ∈ sc_files s2 → file_gone f = false).
  { intros k f Hk Hf. destruct (nm_record _ _ _ _ M' _ _ Hk) as (x & Hx & Ex & Hg).
    by rewrite <-(same_record fl_id _ x f (nm_ids _ _ _ _ M') Hx Hf Ex). }
  assert (Hin : ∀ k f, file_key t k → pi_file_ids (sc_index s1) !! k = Some (fl_id f) → f ∈ sc_files s1 → f ∈ sc_files s2).
  { intros k f Hk Hid Hf. apply (dr_keeps _ _ _ _ _ _ _ D); [done|]. intros k' [_ Hk']%Hks E. apply Hk', Hrels.
    by rewrite (nm_inj _ _ _ _ M1 _ _ _ E Hid). }
  destruct S as [S1 S2 S3 (S4 & S5 & S6) (S7 & S8 & S9) S10 S11].
  split; unfold scanned, with_records; cbn [sh_folder_id sh_path_index sh_folders sh_files].
  - split; cbn [sh_folder_id sh_path_index sh_folders sh_files]; rewrite E1; [by rewrite E2|]. split; [done| |by apply E6].
    intros k f _ Hk Hf. destruct (Hsub _ _ Hk) as [Hk1 Hfk]. rewrite <-N1. apply M2; [done..|].
    apply (dr_live _ _ _ _ _ _ _ D); [done|]. by eapply Hlive.
  - rewrite E1. apply S2.
  - intros k. split.
    + intros [id Hk]. by apply (Hsub k id).
    + intros Hk. apply Hrels in Hk as Hk'. apply list_elem_of_fmap in Hk' as (f & -> & Hf). destruct (nt_seen _ _ _ _ _ _ N f Hf) as (r & _ & Hr & _).
      exists (fl_id r). by apply Hsup.
  - intros p d st Hp. assert (Hst' : ∃ z, st = Some z).
    { rewrite Forall_forall in Hread. apply Hread in Hp. destruct st; [eauto|done]. }
    destruct Hst' as [z ->]. assert (Hf : file_of [] (p, TFile (Some d) (Some z)) = Some {| wf_rel := key p; wf_folder := key (parent p);
      wf_name := default "" (last p); wf_data := Some d; wf_size := z.1; wf_mtime := z.2 |}) by done.
    destruct (nt_seen _ _ _ _ _ _ N _ (proj2 (list_elem_of_omap _ _ _) (ex_intro _ _ (conj Hp Hf)))) as (r & Hr & Hid & Hsum). cbn [wf_rel wf_data] in *.
    assert (Hfk : file_key t (key p)) by (by exists p, (Some d), z). exists r.
    assert (Hr2 : r ∈ sc_files s2) by by eapply Hin. split_and!; [done| |by apply Hsup|by apply Hsum]. eapply Hlive; [by apply Hsup|done].
  - intros k id Hk Hid. rewrite E1. by apply S3.
  - intros H. destruct (E5 H) as [H1 ->]. destruct (nt_changed _ _ _ _ _ _ N H1) as [H2 ->]. destruct (S9 H2) as [_ H3].
    rewrite E2. by rewrite S4, H3.
  - intros f Hf Hg. destruct (dr_live _ _ _ _ _ _ _ D f Hf Hg) as [Hf1 _]. destruct (nt_upserted _ _ _ _ _ _ N f Hf1 Hg) as [H|H]; [left; by rewrite S4 in H|right; by rewrite E3].
  - intros f Hf Hg H. destruct (dr_live _ _ _ _ _ _ _ D f Hf Hg) as [Hf1 _]. rewrite E3 in H. rewrite E4.
    destruct (nt_bytes _ _ _ _ _ _ N _ H) as (d & Hd & Hall). exists d. split; [done|]. by apply Hall.
Qed.

Lemma scan_follows e' r : index_ok e → tree_ok t → draws_fresh → honest t (sh_files e) (sh_path_index e) →
  rescan_local_dir drawn now t e = (e', Ok r) → mirrors e' r.
Proof.
  intros Hix Ht [Hinj Hfresh] Hh. unfold rescan_local_dir. destruct (walk_shared_dir t) as [[dirs files]|] eqn:Ew; [|done].
  destruct (walk_shared_spec _ _ Ht Ew) as (Hd & Hf & Hr). cbn [fst snd] in *.
  pose proof (scan_dirs_surveyed drawn now (sh_folder_id e) t Ht draws Hinj Hnow (start_scan e) dirs (ix_folders _ Hix) (λ n _, Hfresh n) ltac:(cbn [start_scan sc_drawn]; pose proof walked_count; lia) Hr Hd) as S.
  set (s := scan_dirs drawn now (start_scan e) dirs) in *. pose proof (start_files s Hix S Ht) as Hst.
  destruct (su_files _ _ _ _ _ _ S) as (E1 & E2 & E3). destruct (su_result _ _ _ _ _ _ S) as (E4 & _).
  assert (Hh' : honest t (sc_files s) (sc_index s)) by (unfold honest; rewrite E1, E2, E3; exact Hh).
  assert (Hk : ∀ k, dir_key t k → is_Some (pi_folder_ids (sc_index s) !! k)) by (intros k; apply (su_keys _ _ _ _ _ _ S)).
  destruct (scan_files drawn now (sh_folder_id e) s files) as [s1 [[]|]] eqn:Es; [|done]. intros [= <- <-].
  assert (N : noted drawn t draws s ([] ++ files) s1).
  { eapply scan_files_noted; [done|exact Hinj|exact Hk|exact Hh'|exact Hst| | |by rewrite Hf; apply file_rels_NoDup|by rewrite Hf|exact Es].
    2: { rewrite Hf. pose proof (su_drawn _ _ _ _ _ _ S) as Hdr. cbn [start_scan sc_drawn] in Hdr. pose proof walked_count. lia. }
    split; try done; [by intros f ?%elem_of_nil|by left| |apply S]. rewrite E4. by intros id ?%elem_of_nil. }
  exact (finish_scan s s1 files Ht S Hst Hf Hr N).
Qed.

(** A scan of the shared directory that succeeds leaves records that
    mirror it. The index names exactly the directories and the files of the
    tree, each by a record that is not a tombstone, the file's with the
    checksum of its content and in the folder of its parent; a directory that
    stays keeps its identifier; a live file record is an old one or is among
    the changed ones, whose bytes come with it; and a scan that reports no
    change changed no record. *)
Theorem scan_mirrors e' r : index_ok e → tree_ok t → draws_fresh → honest t (sh_files e) (sh_path_index e) →
  rescan_local_dir drawn now t e = (e', Ok r) → mirrors e' r.
Proof. apply scan_follows. Qed.
End rescan.
