(* ===== verification/StorageSignature.v ===== *)
(** * Shared folders: the signature of a folder

    [folder_signature] of [src/src/storage/folder_sync.rs]: the text by which a
    requester sees that the state of a folder has changed. It lists the folders
    that descend from the root and their files, in an order of their own, and
    is compared whole. *)
From S2P Require Import Prelude Text Json Wire StorageDomain.

(** ** Doubles

    A double is its bit pattern. *)
Definition exponent_bits (b : Z) : Z := Z.shiftr b 52 `mod` 2048.
Definition fraction_bits (b : Z) : Z := b `mod` 2 ^ 52.
Definition is_finite (b : Z) : bool := negb (exponent_bits b =? 2047).

(** [n.fract() == 0.0 && n.abs() < 9e15], and then [n as i64]: the value is the
    significand divided by [2 ^ shift], and a negative shift is beyond [9e15]. *)
Definition small_integer (b : Z) : option Z :=
  let significand := if exponent_bits b =? 0 then fraction_bits b else 2 ^ 52 + fraction_bits b in
  let shift := 1075 - Z.max 1 (exponent_bits b) in
  if shift <? 0 then None else
  let v := Z.shiftr significand shift in
  if (Z.shiftl v shift =? significand) && (v <? 9 * 10 ^ 15) then Some (if Z.testbit b 63 then - v else v) else None.

(** Doubles that are finite are ordered like these integers. *)
Definition double_order (b : Z) : Z := let a := b `mod` 2 ^ 63 in if Z.testbit b 63 then - a else a.

(** [.filter(|v| v.is_finite()).unwrap_or(0.0)] *)
Definition or_zero (n : option Z) : Z := match n with Some b => if is_finite b then b else 0 | None => 0 end.

(** ** The fields that count *)
Record FolderSyncFields := {
  fs_id : string; fs_name : string; fs_parent_id : option string; fs_sort_order : json; fs_color : string; fs_encrypted : bool;
  fs_share_enabled : bool; fs_deleted_at : string;
}.
Record FileSyncFields := {
  xs_id : string; xs_folder_id : string; xs_sort_order : json; xs_name : string; xs_mime_type : string; xs_size : Z;
  xs_checksum : string; xs_last_cid : string; xs_version : Z; xs_starred : bool; xs_deleted_at : string;
}.
Record SignaturePayload := { sp_folders : list FolderSyncFields; sp_files : list FileSyncFields }.

(** One round over the folders; an identifier found is seen by those after it. *)
Definition grow_ids (folders : list FolderRecord) (ids : list string) : list string :=
  foldl (λ ids f,
    match fd_parent_id f with
    | Some parent => if contains ids parent && negb (contains ids (fd_id f)) then ids ++ [fd_id f] else ids
    | None => ids
    end) ids folders.

(** Rounds until one finds nothing. *)
Fixpoint descendants (fuel : nat) (folders : list FolderRecord) (ids : list string) : list string :=
  match fuel with
  | O => ids
  | S fuel =>
      let ids' := grow_ids folders ids in
      if (length ids' =? length ids)%nat then ids else descendants fuel folders ids'
  end.

(** A round that finds something finds a folder, so these are enough. *)
Definition descendant_ids (folders : list FolderRecord) (root : string) : list string := descendants (S (length folders)) folders [root].

(** [then_with]: the keys in order, compared as bytes. *)
Fixpoint keys_le (a b : list string) : bool :=
  match a, b with
  | x :: a, y :: b => if bool_decide (x = y) then keys_le a b else bool_decide (String.le x y)
  | _, _ => true
  end.

Section signature.
Context `{C : Crypto} {SG : Serde SignaturePayload}.

Definition js_number_string (n : option Z) : string :=
  match small_integer (or_zero n) with Some i => pretty i | None => float_display (or_zero n) end.
Definition js_number (n : option Z) : json :=
  match small_integer (or_zero n) with Some i => int_value i | None => JNumber (Float (or_zero n)) end.

(** [{:0>12}] of ASCII text *)
Definition zero_padded (s : string) : string := foldr String s (repeat "0"%char (12 - String.length s)).

Definition folder_sort_key (f : FolderRecord) : string :=
  default "" (fd_parent_id f) +:+ "/" +:+ zero_padded (js_number_string (fd_sort_order f)) +:+ "/" +:+ fd_name f.

Definition folder_before (a b : FolderRecord) : Prop := keys_le [folder_sort_key a; fd_id a] [folder_sort_key b; fd_id b] = true.

Definition file_before (a b : FileRecord) : Prop :=
  (if bool_decide (fl_folder_id a = fl_folder_id b) then
     let x := double_order (or_zero (fl_sort_order a)) in
     let y := double_order (or_zero (fl_sort_order b)) in
     if x =? y then keys_le [fl_name a; fl_id a] [fl_name b; fl_id b] else x <? y
   else bool_decide (String.le (fl_folder_id a) (fl_folder_id b))) = true.

#[local] Instance folder_before_dec : RelDecision folder_before.
Proof. intros a b. unfold folder_before. apply _. Defined.
#[local] Instance file_before_dec : RelDecision file_before.
Proof. intros a b. unfold file_before. apply _. Defined.

Definition folder_fields (f : FolderRecord) : FolderSyncFields := {|
  fs_id := fd_id f; fs_name := fd_name f; fs_parent_id := fd_parent_id f; fs_sort_order := js_number (fd_sort_order f);
  fs_color := fd_color f; fs_encrypted := fd_encrypted f; fs_share_enabled := fd_share_enabled f;
  fs_deleted_at := default "" (fd_deleted_at f) |}.

Definition file_fields (f : FileRecord) : FileSyncFields := {|
  xs_id := fl_id f; xs_folder_id := fl_folder_id f; xs_sort_order := js_number (fl_sort_order f); xs_name := fl_name f;
  xs_mime_type := fl_mime_type f; xs_size := fl_size f; xs_checksum := fl_checksum f; xs_last_cid := default "" (fl_last_cid f);
  xs_version := fl_version f; xs_starred := fl_starred f; xs_deleted_at := default "" (fl_deleted_at f) |}.

Definition signature_payload (root_folder_id : string) (folders : list FolderRecord) (files : list FileRecord) : SignaturePayload :=
  let ids := descendant_ids folders root_folder_id in {|
    sp_folders := map folder_fields (merge_sort folder_before (List.filter (λ f, contains ids (fd_id f)) folders));
    sp_files := map file_fields (merge_sort file_before (List.filter (λ f, contains ids (fl_folder_id f)) files)) |}.

Definition folder_signature (root_folder_id : string) (folders : list FolderRecord) (files : list FileRecord) : string :=
  if negb (existsb (λ f, bool_decide (fd_id f = root_folder_id)) folders) then "" else
  ser (signature_payload root_folder_id folders files).

(** ** Lemmas *)

(** The rounds only add, what they add are folders that hang on what was there,
    and no identifier is added twice. *)
Lemma grow_ids_spec folders ids : NoDup ids → ∃ new, grow_ids folders ids = ids ++ new ∧ NoDup (ids ++ new) ∧ new ⊆ map fd_id folders
  ∧ (new = [] → ∀ f p, f ∈ folders → fd_parent_id f = Some p → p ∈ ids → fd_id f ∈ ids).
Proof.
  unfold grow_ids. revert ids. induction folders as [|f folders IH]; intros ids Hnd; cbn [foldl map].
  { exists []. rewrite app_nil_r. split_and!; [done|done|done|]. by intros _ f p ?%elem_of_nil. }
  destruct (fd_parent_id f) as [par|] eqn:Ep; [destruct (contains ids par && negb (contains ids (fd_id f))) eqn:Ec|].
  - apply andb_true_iff in Ec as [Hpar Hc%negb_true_iff]. assert (Hn : fd_id f ∉ ids) by (rewrite <-contains_true; congruence).
    destruct (IH (ids ++ [fd_id f])) as (new & -> & Hnd' & Hsub & _).
    { apply NoDup_app. split_and!; [done| |apply NoDup_singleton]. by intros x Hx ->%list_elem_of_singleton. }
    exists (fd_id f :: new). rewrite <-app_assoc in *. split_and!; [done|done| |done]. intros x [->|Hx]%elem_of_cons; [by left|right; by apply Hsub].
  - destruct (IH ids Hnd) as (new & -> & Hnd' & Hsub & Hcl). exists new. split_and!; [done|done|intros x Hx; right; by apply Hsub|].
    intros Hnil g p [->|Hg]%elem_of_cons Hp Hin; [|by eapply Hcl]. rewrite Ep in Hp. injection Hp as ->. apply contains_true.
    apply contains_true in Hin. rewrite Hin in Ec. by destruct (contains ids (fd_id f)).
  - destruct (IH ids Hnd) as (new & -> & Hnd' & Hsub & Hcl). exists new. split_and!; [done|done|intros x Hx; right; by apply Hsub|].
    intros Hnil g p [->|Hg]%elem_of_cons Hp Hin; [congruence|by eapply Hcl].
Qed.

Lemma descendants_closed folders root fuel ids : NoDup ids → root ∈ ids → ids ⊆ root :: map fd_id folders →
  (S (S (length folders)) ≤ fuel + length ids)%nat → (1 ≤ fuel)%nat →
  let all := descendants fuel folders ids in ids ⊆ all ∧ ∀ f p, f ∈ folders → fd_parent_id f = Some p → p ∈ all → fd_id f ∈ all.
Proof.
  revert ids. induction fuel as [|fuel IH]; intros ids Hnd Hr Hsub Hf H1; [lia|]. cbn [descendants].
  destruct (grow_ids_spec folders ids Hnd) as (new & -> & Hnd' & Hnew & Hcl).
  destruct (length (ids ++ new) =? length ids)%nat eqn:E.
  - split; [done|]. apply Hcl. rewrite length_app in E. apply Nat.eqb_eq in E. destruct new; [done|cbn in E; lia].
  - rewrite length_app in E. apply Nat.eqb_neq in E. assert (Hsub' : ids ++ new ⊆ root :: map fd_id folders).
    { intros x [Hx|Hx]%elem_of_app; [by apply Hsub|right; by apply Hnew]. }
    assert (Hlen : (length (ids ++ new) ≤ S (length folders))%nat).
    { apply NoDup_submseteq in Hsub'; [|done]. apply submseteq_length in Hsub'. cbn in Hsub'. by rewrite length_map in Hsub'. }
    rewrite length_app in Hlen. destruct fuel as [|fuel].
    { exfalso. lia. }
    destruct (IH (ids ++ new) Hnd') as [H2 H3]; [by apply elem_of_app; left|done|rewrite length_app; lia|lia|].
    split; [|done]. intros x Hx. apply H2, elem_of_app. by left.
Qed.

(** The bound on the rounds is enough: what they find is closed, so one more
    round would find nothing. *)
Lemma descendant_ids_closed folders root : root ∈ descendant_ids folders root
  ∧ ∀ f p, f ∈ folders → fd_parent_id f = Some p → p ∈ descendant_ids folders root → fd_id f ∈ descendant_ids folders root.
Proof.
  destruct (descendants_closed folders root (S (length folders)) [root]) as [H1 H2].
  - apply NoDup_singleton.
  - by left.
  - intros x ->%list_elem_of_singleton. by left.
  - cbn. lia.
  - lia.
  - split; [|done]. apply H1. by left.
Qed.
End signature.
