(* ===== verification/StorageOwner.v ===== *)
(** * Shared folders: the owner's rounds

    The rest of [src/src/storage/folder_owner.rs]: after a scan, the files that
    changed and a bundle of all records are encrypted and added to the network,
    and the room is told. A round that fails leaves the entry as far as it got,
    and the table is written all the same. Sharing a directory for the first
    time is a scan and a publication too. *)
From S2P Require Import Prelude Effects Text Json Wire DmWire IdentityPairing StorageDomain StoragePaths StorageLink StorageAccess.
From S2P Require Import StorageScan StorageSignature.

Definition FOLDER_STATE_DEDUP_WINDOW : Z := 15 * SECOND.

(** ** Records that are published *)

Definition with_content (data_url : string) (r : FileRecord) : FileRecord := {|
  fl_id := fl_id r; fl_folder_id := fl_folder_id r; fl_sort_order := fl_sort_order r; fl_name := fl_name r;
  fl_mime_type := fl_mime_type r; fl_size := fl_size r; fl_data_url := Some data_url; fl_checksum := fl_checksum r;
  fl_version := fl_version r; fl_starred := fl_starred r; fl_last_cid := fl_last_cid r; fl_last_share_cid := fl_last_share_cid r;
  fl_deleted_at := fl_deleted_at r; fl_created_at := fl_created_at r; fl_updated_at := fl_updated_at r;
  fl_field_versions := fl_field_versions r |}.

Definition strip_file_content (r : FileRecord) : FileRecord := {|
  fl_id := fl_id r; fl_folder_id := fl_folder_id r; fl_sort_order := fl_sort_order r; fl_name := fl_name r;
  fl_mime_type := fl_mime_type r; fl_size := fl_size r; fl_data_url := None; fl_checksum := fl_checksum r;
  fl_version := fl_version r; fl_starred := fl_starred r; fl_last_cid := fl_last_cid r; fl_last_share_cid := fl_last_share_cid r;
  fl_deleted_at := fl_deleted_at r; fl_created_at := fl_created_at r; fl_updated_at := fl_updated_at r;
  fl_field_versions := fl_field_versions r |}.

Definition with_cids (cid : string) (r : FileRecord) : FileRecord := {|
  fl_id := fl_id r; fl_folder_id := fl_folder_id r; fl_sort_order := fl_sort_order r; fl_name := fl_name r;
  fl_mime_type := fl_mime_type r; fl_size := fl_size r; fl_data_url := fl_data_url r; fl_checksum := fl_checksum r;
  fl_version := fl_version r; fl_starred := fl_starred r; fl_last_cid := Some cid; fl_last_share_cid := Some cid;
  fl_deleted_at := fl_deleted_at r; fl_created_at := fl_created_at r; fl_updated_at := fl_updated_at r;
  fl_field_versions := fl_field_versions r |}.

Definition with_publication (cid signature now : string) (e : SharedFolder) : SharedFolder := {|
  sh_folder_id := sh_folder_id e; sh_folder_name := sh_folder_name e; sh_local_dir := sh_local_dir e; sh_room_id := sh_room_id e;
  sh_passphrase := sh_passphrase e; sh_folder_key_hash := sh_folder_key_hash e; sh_access_grant_mode := sh_access_grant_mode e;
  sh_last_cid := Some cid; sh_last_folder_signature := Some signature; sh_created_at := sh_created_at e;
  sh_last_published_at := Some now; sh_folders := sh_folders e; sh_files := sh_files e; sh_path_index := sh_path_index e;
  sh_allowed_requesters := sh_allowed_requesters e |}.

Definition set_record (id : string) (f : FileRecord → FileRecord) (e : SharedFolder) : SharedFolder :=
  with_records (sh_folders e) (update_where (is_file id) f (sh_files e)) (sh_path_index e) e.

(** ** A round for one share

    What the round meets: the text and the instant of its time, the tree, and
    for its numbered calls the time an envelope is dated, the random bytes, what
    adding a blob gives, and whether a broadcast went out before its deadline. *)
Record Round := {
  rd_now : string; rd_instant : Z; rd_tree : tree; rd_drawn : nat → string; rd_dated : nat → string * Z; rd_salt : nat → string; rd_iv : nat → string;
  rd_add : nat → string → string → result string Error; rd_sends : nat → bool;
}.

(** The entry, what was added to the network and what was sent, the last
    announcements, and how many calls were made. *)
Record Owner := {
  ow_entry : SharedFolder; ow_blobs : list (string * string); ow_sent : list ShareEnvelope;
  ow_announced : gmap string (string * Z); ow_calls : nat;
}.
Definition R (A : Type) : Type := prog Owner Error A.

Definition set_entry (e : SharedFolder) (o : Owner) : Owner := {|
  ow_entry := e; ow_blobs := ow_blobs o; ow_sent := ow_sent o; ow_announced := ow_announced o; ow_calls := ow_calls o |}.
Definition set_announced (m : gmap string (string * Z)) (o : Owner) : Owner := {|
  ow_entry := ow_entry o; ow_blobs := ow_blobs o; ow_sent := ow_sent o; ow_announced := m; ow_calls := ow_calls o |}.

Fixpoint each {A} (f : A → R ()) (l : list A) : R () :=
  match l with
  | [] => ret tt
  | x :: l => f x ;;! each f l
  end.

Definition the_entry : R SharedFolder := let! o := get_state in ret (ow_entry o).

Section owner.
Context `{C : Crypto} {S : Sealing} {HM : Hmac} {T : JsonText} {V : ShareValues}.
Context {SB : Serde FolderBundle} {SX : Serde FileBundle} {SP : Serde EncryptedPayload} {SG : Serde SignaturePayload}.
Context {SL : Serde ShareLinkPayload}.
Context (me : Identity).

Section round.
Context (i : Round).

(** [p2p_storage_add] *)
Definition p2p_storage_add (name bytes : string) : R string := λ o,
  let o' blobs := {| ow_entry := ow_entry o; ow_blobs := blobs; ow_sent := ow_sent o; ow_announced := ow_announced o;
                     ow_calls := Datatypes.S (ow_calls o) |} in
  match rd_add i (ow_calls o) name bytes with
  | Ok cid => (o' (ow_blobs o ++ [(cid, bytes)]), Ok cid)
  | Err e => (o' (ow_blobs o), Err (Failed e))
  end.

(** Encrypts a value and adds it under a name. *)
Definition publish {A} `{Serde A} (name : string) (value : A) (passphrase : string) : R string :=
  let! o := get_state in
  let! payload := lift (encrypt_json (rd_salt i (ow_calls o)) (rd_iv i (ow_calls o)) value passphrase) in
  p2p_storage_add name (ser payload).

Definition file_bundle (root : FolderRecord) (data : string) (record : FileRecord) : FileBundle := {|
  xb_version := 1; xb_exported_at := rd_now i; xb_origin_node := did me; xb_folder := root;
  xb_file := with_content (data_url (fl_mime_type record) data) record |}.

(** One round of the loop over the changed files. *)
Definition publish_file (root : FolderRecord) (result : RescanResult) (file_id : string) : R () :=
  match rs_bytes result !! file_id with
  | None => ret tt
  | Some data =>
      let! entry := the_entry in
      match List.find (is_file file_id) (sh_files entry) with
      | None => ret tt
      | Some record =>
          let! cid := publish (file_id +:+ ".tc-file.enc.json") (file_bundle root data record) (sh_passphrase entry) in
          modify (λ o, set_entry (set_record file_id (with_cids cid) (ow_entry o)) o)
      end
  end.

Definition folder_bundle (root : FolderRecord) (entry : SharedFolder) : FolderBundle := {|
  bu_version := 1; bu_exported_at := rd_now i; bu_origin_node := did me; bu_folder := root;
  bu_folders := Some (sh_folders entry); bu_files := sh_files entry |}.

Definition bundle_name (entry : SharedFolder) : string := sh_folder_id entry +:+ ".tc-folder.enc.json".

Definition republish (result : RescanResult) : R () :=
  let! entry := the_entry in
  let! root := lift (ok_or (List.find (is_folder (sh_folder_id entry)) (sh_folders entry))
    ["shared folder is missing its own root folder record"]) in
  each (publish_file root result) (rs_upserted result) ;;!
  let! entry := the_entry in
  let! cid := publish (bundle_name entry) (folder_bundle root entry) (sh_passphrase entry) in
  modify (λ o, set_entry (with_publication cid (folder_signature (sh_folder_id entry) (sh_folders entry) (sh_files entry))
    (rd_now i) (ow_entry o)) o).

(** Signs and broadcasts, in one call. *)
Definition broadcast (message : Draw → ShareEnvelope) : R () :=
  let! o := get_state in
  let '(sent_at, clock) := rd_dated i (ow_calls o) in
  let! signed := lift (sign_envelope (message {| dr_secret := ""; dr_iv := ""; dr_sent_at := sent_at; dr_clock := clock |}) me) in
  λ o, let o' sent := {| ow_entry := ow_entry o; ow_blobs := ow_blobs o; ow_sent := sent; ow_announced := ow_announced o;
                         ow_calls := Datatypes.S (ow_calls o) |} in
       if rd_sends i (ow_calls o) then (o' (ow_sent o ++ [signed]), Ok tt) else (o' (ow_sent o), Err (Failed ["broadcast"])).

Definition share_envelope (entry : SharedFolder) (cid signature : string) (d : Draw) : ShareEnvelope := {|
  en_type := "folder-share"; en_from := did me; en_room_id := sh_room_id entry; en_sent_at := dr_sent_at d; en_clock := dr_clock d;
  en_change_type := None; en_folder_signature := Some signature; en_folder_id := Some (sh_folder_id entry);
  en_folder_name := Some (sh_folder_name entry); en_folder := None; en_file_id := None; en_file_name := None; en_file := None;
  en_cid := Some cid; en_owner_node_id := None; en_access_grant_mode := None; en_folder_key_hash := None;
  en_target_node_id := None; en_request_id := None; en_sender_profile := None; en_access_public_key := None;
  en_access_grant_public_key := None; en_access_grant_iv := None; en_access_grant_cipher_text := None;
  en_access_grant_proof := None; en_signature := None |}.

Definition change_envelope (entry : SharedFolder) (change_type : string) (file : FileRecord) (d : Draw) : ShareEnvelope := {|
  en_type := "folder-change"; en_from := did me; en_room_id := sh_room_id entry; en_sent_at := dr_sent_at d; en_clock := dr_clock d;
  en_change_type := Some change_type; en_folder_signature := None; en_folder_id := Some (sh_folder_id entry);
  en_folder_name := Some (sh_folder_name entry); en_folder := None; en_file_id := Some (fl_id file);
  en_file_name := Some (fl_name file); en_file := Some (strip_file_content file); en_cid := fl_last_cid file;
  en_owner_node_id := None; en_access_grant_mode := None; en_folder_key_hash := None; en_target_node_id := None;
  en_request_id := None; en_sender_profile := None; en_access_public_key := None; en_access_grant_public_key := None;
  en_access_grant_iv := None; en_access_grant_cipher_text := None; en_access_grant_proof := None; en_signature := None |}.

(** The announcement of this state was made a moment ago. *)
Definition should_skip_folder_state (announced : gmap string (string * Z)) (folder_id signature : string) : bool :=
  match announced !! folder_id with
  | Some (sig, at_) => bool_decide (sig = signature) && (since (rd_instant i) at_ <? FOLDER_STATE_DEDUP_WINDOW)
  | None => false
  end.

Definition note_announced (folder_id signature : string) : R () :=
  modify (λ o, set_announced (<[folder_id := (signature, rd_instant i)]> (ow_announced o)) o).

Definition announce_folder_state (force : bool) : R () :=
  let! o := get_state in
  let entry := ow_entry o in
  match sh_last_cid entry with
  | None => ret tt
  | Some cid =>
      let signature := default "" (sh_last_folder_signature entry) in
      if negb force && should_skip_folder_state (ow_announced o) (sh_folder_id entry) signature then ret tt else
      broadcast (state_envelope me entry cid signature) ;;!
      note_announced (sh_folder_id entry) signature
  end.

Definition announce_publish (entry : SharedFolder) : R () :=
  broadcast (share_envelope entry (default "" (sh_last_cid entry)) (default "" (sh_last_folder_signature entry))).

Definition announce_file_change (entry : SharedFolder) (change_type : string) (file : FileRecord) : R () :=
  broadcast (change_envelope entry change_type file).

Definition records_of (entry : SharedFolder) (ids : list string) : list FileRecord :=
  omap (λ id, List.find (is_file id) (sh_files entry)) ids.

Definition rescan : R RescanResult := λ o,
  let '(e, r) := rescan_local_dir (rd_drawn i) (rd_now i) (rd_tree i) (ow_entry o) in
  (set_entry e o, map_err Failed r).

Definition rescan_and_announce : R () :=
  let! result := rescan in
  if negb (rs_changed result) then announce_folder_state false else
  republish result ;;!
  let! entry := the_entry in
  announce_publish entry ;;!
  note_announced (sh_folder_id entry) (default "" (sh_last_folder_signature entry)) ;;!
  each (announce_file_change entry "file-upserted") (records_of entry (rs_upserted result)) ;;!
  each (announce_file_change entry "file-deleted") (records_of entry (rs_deleted result)).
End round.

(** ** The table *)

(** The table on disk, what is on the network and in the room, and the memory
    of announcements. *)
Record Daemon := {
  dm_table : list SharedFolder; dm_blobs : list (string * string); dm_sent : list ShareEnvelope;
  dm_announced : gmap string (string * Z);
}.

(** One entry of the tick: an error is logged, the entry stays as it became. *)
Definition tick_entry (rounds : string → Round) (d : Daemon) (entry : SharedFolder) : Daemon * SharedFolder :=
  let o := (rescan_and_announce (rounds (sh_folder_id entry)) {| ow_entry := entry; ow_blobs := dm_blobs d; ow_sent := dm_sent d;
    ow_announced := dm_announced d; ow_calls := 0 |}).1 in
  ({| dm_table := dm_table d; dm_blobs := ow_blobs o; dm_sent := ow_sent o; dm_announced := ow_announced o |}, ow_entry o).

Fixpoint tick_entries (rounds : string → Round) (d : Daemon) (l : list SharedFolder) : Daemon * list SharedFolder :=
  match l with
  | [] => (d, [])
  | entry :: l =>
      let '(d, entry) := tick_entry rounds d entry in
      let '(d, l) := tick_entries rounds d l in
      (d, entry :: l)
  end.

(** The ticker's branch of [run_background]. *)
Definition tick (rounds : string → Round) (can_read can_write : bool) (d : Daemon) : Daemon :=
  if negb can_read then d else
  let '(d', entries) := tick_entries rounds d (dm_table d) in {|
    dm_table := if can_write then entries else dm_table d;
    dm_blobs := dm_blobs d'; dm_sent := dm_sent d'; dm_announced := dm_announced d' |}.

(** ** Sharing a directory *)

(** What [share_folder] finds: the canonical path and whether it is a
    directory, the configured rooms, and its calls. *)
Record Sharing := {
  sg_canonical : option path; sg_is_dir : bool; sg_room_ids : list string; sg_joins : bool; sg_identity : bool;
  sg_bytes : string; sg_reads : bool; sg_reads_again : option (list SharedFolder); sg_writes : bool;
}.
Record ShareOutcome := { so_share_url : string; so_folder_id : string; so_room_id : string; so_files_published : nat }.

Definition new_share (folder_id folder_name : string) (dir : path) (room passphrase now : string) : SharedFolder := {|
  sh_folder_id := folder_id; sh_folder_name := folder_name; sh_local_dir := dir; sh_room_id := room; sh_passphrase := passphrase;
  sh_folder_key_hash := folder_key_hash folder_id passphrase; sh_access_grant_mode := "shared"; sh_last_cid := None;
  sh_last_folder_signature := None; sh_created_at := now; sh_last_published_at := None;
  sh_folders := [root_folder_record folder_id folder_name room now]; sh_files := [];
  sh_path_index := {| pi_folder_ids := {[ "" := folder_id ]}; pi_file_ids := ∅; pi_file_stats := ∅ |};
  sh_allowed_requesters := [] |}.

Definition share_name (name : option string) (dir : path) : string :=
  match non_empty (trim <$> name) with
  | Some n => n
  | None => default "shared-folder" (to_string_lossy <$> last dir)
  end.

(** The two looks at the table are apart: others may change it in between. *)
Definition share_folder (i : Round) (c : Sharing) (passphrase : string) (name room : option string) (d : Daemon)
    : Daemon * result ShareOutcome Error :=
  if blank passphrase then (d, Err ["passphrase is required"]) else
  match sg_canonical c with
  | None => (d, Err ["resolving"])
  | Some dir =>
  if negb (sg_is_dir c) then (d, Err ["is not a directory"]) else
  match (match room with Some r => Some r | None => head (sg_room_ids c) end) with
  | None => (d, Err ["folder-share requires --room or a configured storage.room_ids entry"])
  | Some room =>
  if negb (sg_reads c) then (d, Err ["reading the table"]) else
  if existsb (λ e, bool_decide (sh_local_dir e = dir)) (dm_table d) then (d, Err ["is already shared"]) else
  if negb (sg_joins c) then (d, Err ["storage: joining share room"]) else
  if negb (sg_identity c) then (d, Err ["identity"]) else
  let folder_id := generate_uuid_v4 (sg_bytes c) in
  let entry := new_share folder_id (share_name name dir) dir room passphrase (rd_now i) in
  let publishing : R RescanResult := let! result := rescan i in republish i result ;;! ret result in
  let '(o, r) := publishing {| ow_entry := entry; ow_blobs := dm_blobs d; ow_sent := dm_sent d; ow_announced := dm_announced d;
                               ow_calls := 0 |} in
  let d := {| dm_table := default (dm_table d) (sg_reads_again c); dm_blobs := ow_blobs o; dm_sent := ow_sent o;
              dm_announced := ow_announced o |} in
  match r with
  | Err (Failed e) => (d, Err e)
  | Err _ => (d, Err [])
  | Ok result =>
      match sg_reads_again c with
      | None => (d, Err ["reading the table"])
      | Some table =>
          let entry := ow_entry o in
          if existsb (λ e, bool_decide (sh_local_dir e = dir) || bool_decide (sh_folder_id e = folder_id)) table
          then (d, Err ["is already shared"]) else
          if negb (sg_writes c) then (d, Err ["writing the table"]) else
          let o := (announce_publish i entry o).1 in
          let d := {| dm_table := table ++ [entry]; dm_blobs := ow_blobs o; dm_sent := ow_sent o; dm_announced := ow_announced o |} in
          match build_folder_share_link room folder_id (sh_folder_name entry) (did me) "shared" (sh_folder_key_hash entry) "mistl" with
          | Err e => (d, Err e)
          | Ok url => (d, Ok {| so_share_url := url; so_folder_id := folder_id; so_room_id := room;
                                so_files_published := length (rs_upserted result) |})
          end
      end
  end
  end
  end.
End owner.
