(* ===== verification/StoragePublish.v ===== *)
(** * Shared folders: what is published can be fetched

    A publication that succeeds leaves every changed file and the bundle of
    all records on the network, under the CIDs of the records: who holds the
    passphrase fetches the bytes that were read and the records as they are. *)
From S2P Require Import Prelude Effects Text Json Wire DmWire IdentityPairing StorageDomain StoragePaths StorageLink StorageAccess.
From S2P Require Import StorageScan StorageSignature StorageWalk StorageIndex StorageFollow StorageOwner.

Lemma bind_Ok {W E A B} (m : prog W E A) (k : A → prog W E B) w w' b :
  bind m k w = (w', Ok b) → ∃ w1 a, m w = (w1, Ok a) ∧ k a w1 = (w', Ok b).
Proof. unfold bind. destruct (m w) as [w1 [a|]]; [|done]. eauto. Qed.

Lemma lift_Ok {W E A} (r : result A E) (w w' : W) a : lift r w = (w', Ok a) → w' = w ∧ r = Ok a.
Proof. destruct r; [|done]. by intros [= <- <-]. Qed.

Section publish.
Context `{C : Crypto} {S : Sealing} {HM : Hmac} {T : JsonText} {V : ShareValues}.
Context {SB : Serde FolderBundle} {SX : Serde FileBundle} {SP : Serde EncryptedPayload} {SG : Serde SignaturePayload}.
Context `{!SealingLaws S}.
Context (me : Identity) (i : Round) (net : string → result string Error) (e1 : SharedFolder) (result : RescanResult).

(** What is added can be fetched, and is not too large for that. *)
Definition limit (name : string) : Z := if bool_decide (name = bundle_name e1) then MAX_JSON_BLOB_BYTES else MAX_FILE_BLOB_BYTES.
Record network_ok : Prop := {
  no_salt n : slen (rd_salt i n) = SALT_LEN;
  no_iv n : slen (rd_iv i n) = IV_LEN;
  no_serves n name bytes cid : rd_add i n name bytes = Ok cid → net cid = Ok bytes ∧ cid ≠ "" ∧ slen bytes ≤ limit name;
}.

(** Records without a sort order are read back. *)
Record serde_ok : Prop := {
  so_payload (p : EncryptedPayload) : reads_back p;
  so_file (b : FileBundle) : fd_sort_order (xb_folder b) = None → fl_sort_order (xb_file b) = None → reads_back b;
  so_folder (b : FolderBundle) : fd_sort_order (bu_folder b) = None → Forall plain_folder (default [] (bu_folders b)) →
    Forall plain_file (bu_files b) → reads_back b;
}.

Context (Hnet : network_ok) (Hserde : serde_ok).

Lemma publish_spec {A} `{Serde A} name (value : A) pass o o' cid : publish i name value pass o = (o', Ok cid) →
  ow_entry o' = ow_entry o ∧ cid ≠ "" ∧ ∃ salt iv p, slen salt = SALT_LEN ∧ slen iv = IV_LEN ∧ encrypt_json salt iv value pass = Ok p
    ∧ net cid = Ok (ser p) ∧ slen (ser p) ≤ limit name.
Proof.
  unfold publish. intros (o1 & o2 & [= -> ->] & H1)%bind_Ok. apply bind_Ok in H1 as (o3 & p & [-> Hp]%lift_Ok & H2).
  unfold p2p_storage_add in H2. destruct (rd_add i _ name (ser p)) as [c|] eqn:E; [|done]. injection H2 as <- ->.
  destruct Hnet as [N1 N2 N3]. destruct (N3 _ _ _ _ E) as (E1 & E2 & E3). split; [done|]. split; [done|].
  eexists _, _, p. split_and!; [apply N1|apply N2|exact Hp|done|done].
Qed.

(** A changed file whose record names what was read. *)
Definition carried (f : FileRecord) : Prop := ∃ cid d, content_cid f = Some cid ∧ rs_bytes result !! fl_id f = Some d
  ∧ fetch_file_content (net cid) cid (sh_passphrase e1) = Ok d.

Notation core l := (map (with_cids "") l).

(** After these identifiers. *)
Record progress (ids : list string) (e : SharedFolder) : Prop := {
  pg_id : sh_folder_id e = sh_folder_id e1;
  pg_pass : sh_passphrase e = sh_passphrase e1;
  pg_folders : sh_folders e = sh_folders e1;
  pg_index : sh_path_index e = sh_path_index e1;
  pg_core : core (sh_files e) = core (sh_files e1);
  pg_files f : f ∈ sh_files e → (f ∈ sh_files e1 ∧ (fl_id f ∈ ids → rs_bytes result !! fl_id f = None)) ∨ (fl_id f ∈ ids ∧ carried f);
}.

Lemma core_ids l l' : core l = core l' → map fl_id l = map fl_id l'.
Proof. intros H. apply (f_equal (map fl_id)) in H. by rewrite !map_map in H. Qed.

Lemma core_update id f l : (∀ x, with_cids "" (f x) = with_cids "" x) → core (update_where (is_file id) f l) = core l.
Proof. intros Hf. induction l as [|x l IH]; [done|]. cbn [update_where]. destruct (is_file id x); cbn [map]; [by rewrite Hf|by rewrite IH]. Qed.

(** A file's data URL is one a requester accepts. *)
Definition urls_fit : Prop := ∀ f d, f ∈ sh_files e1 → rs_bytes result !! fl_id f = Some d → slen (data_url (fl_mime_type f) d) ≤ MAX_DATA_URL_LEN.

Context (Hids : NoDup (map fl_id (sh_files e1))) (Hplain : Forall plain_file (sh_files e1)) (Hurls : urls_fit).

Lemma core_of e f : core (sh_files e) = core (sh_files e1) → f ∈ sh_files e → ∃ f1, f1 ∈ sh_files e1 ∧ with_cids "" f = with_cids "" f1.
Proof.
  intros H Hf. apply (list_elem_of_fmap_2 (with_cids "")) in Hf. change (with_cids "" <$> sh_files e) with (core (sh_files e)) in Hf.
  rewrite H in Hf. apply list_elem_of_fmap in Hf as (f1 & -> & ?). eauto.
Qed.

Lemma core_fields f g : with_cids "" f = with_cids "" g → fl_id f = fl_id g ∧ fl_folder_id f = fl_folder_id g ∧ fl_name f = fl_name g
  ∧ fl_deleted_at f = fl_deleted_at g ∧ fl_checksum f = fl_checksum g ∧ fl_mime_type f = fl_mime_type g ∧ (plain_file g → plain_file f).
Proof.
  intros H. assert (Hp : plain_file (with_cids "" f) ↔ plain_file (with_cids "" g)) by by rewrite H.
  pose proof (f_equal fl_id H). pose proof (f_equal fl_folder_id H). pose proof (f_equal fl_name H). pose proof (f_equal fl_deleted_at H).
  pose proof (f_equal fl_checksum H). pose proof (f_equal fl_mime_type H). split_and!; [done..|]. apply Hp.
Qed.

Lemma publish_file_progress root ids id o o' : fd_sort_order root = None → progress ids (ow_entry o) →
  publish_file me i root result id o = (o', Ok tt) → progress (ids ++ [id]) (ow_entry o').
Proof.
  intros Hroot [P1 P2 P3 P4 P5 P6]. unfold publish_file. destruct (rs_bytes result !! id) as [data|] eqn:Ed.
  2: { intros [= <-]. split; try done. intros f Hf. destruct (P6 f Hf) as [[H1 H2]|[? ?]]; [left|right; split; [apply elem_of_app; by left|done]]. split; [done|].
       intros [?| ->%list_elem_of_singleton]%elem_of_app; auto. }
  intros (o1 & e & [= <- <-] & H1)%bind_Ok. destruct (List.find (is_file id) (sh_files (ow_entry o))) as [x|] eqn:Ex.
  2: { injection H1 as <-. split; try done. intros f Hf. destruct (P6 f Hf) as [[H1 H2]|[? ?]]; [left|right; split; [apply elem_of_app; by left|done]]. split; [done|].
       intros [?| E%list_elem_of_singleton]%elem_of_app; [auto|]. apply (find_none_elem _ _ Ex) in Hf. unfold is_file in Hf. by rewrite E, bool_decide_true in Hf. }
  apply bind_Ok in H1 as (o2 & cid & Hpub & H2). injection H2 as <-. apply find_elem in Ex as [Hx Hi]. unfold is_file in Hi. bools. subst id.
  apply publish_spec in Hpub as (He & Hcid & salt & iv & p & Hs & Hiv & Hp & Hn & Hl). cbn [set_entry ow_entry]. rewrite He. unfold set_record, with_records.
  destruct (core_of _ _ P5 Hx) as (x1 & Hx1 & Ec). destruct (core_fields _ _ Ec) as (Ei & _ & _ & _ & _ & Em & Hpl).
  rewrite Forall_forall in Hplain. destruct (Hpl (Hplain _ Hx1)) as (Hso & _ & _ & _ & Hmime).
  split; cbn [sh_folder_id sh_passphrase sh_folders sh_path_index sh_files]; try done.
  - by rewrite core_update.
  - change (is_file (fl_id x)) with (λ r, bool_decide (fl_id r = fl_id x)). intros f Hf.
    assert (Hnd : NoDup (map fl_id (sh_files (ow_entry o)))) by (by rewrite (core_ids _ _ P5)).
    apply (elem_of_update_where fl_id) in Hf as [[Hf Hne]|(y & Hy & Ey & ->)]; [| |done].
    + destruct (P6 f Hf) as [[H1 H2]|[? ?]]; [left|right; split; [apply elem_of_app; by left|done]]. split; [done|]. intros [?|E%list_elem_of_singleton]%elem_of_app; [auto|congruence].
    + right. split; [apply elem_of_app; right; cbn [with_cids fl_id]; rewrite Ey; by left|]. apply (same_record fl_id (sh_files (ow_entry o))) in Ey; [|done..]. subst y. exists cid, data. split_and!; [|done|].
      * unfold content_cid, non_empty. cbn [with_cids fl_last_share_cid]. by rewrite bool_decide_false.
      * rewrite Hn, <-P2. apply (fetch_published_file salt iv (file_bundle me i root data x) _ p _ (fl_mime_type x)); try done; [by apply Hserde|by apply Hserde| |].
        -- unfold limit in Hl. unfold MAX_FILE_BLOB_BYTES, MAX_JSON_BLOB_BYTES in *. case_bool_decide; lia.
        -- rewrite Em. apply Hurls; [done|]. by rewrite <-Ei.
Qed.

Lemma publish_files_progress root ids done_ids o o' : fd_sort_order root = None → progress done_ids (ow_entry o) →
  each (publish_file me i root result) ids o = (o', Ok tt) → progress (done_ids ++ ids) (ow_entry o').
Proof.
  intros Hroot. revert done_ids o. induction ids as [|id ids IH]; intros done_ids o P; cbn [each].
  { intros [= <-]. by rewrite app_nil_r. }
  intros (o1 & [] & H1 & H2)%bind_Ok. rewrite cons_middle, app_assoc. by eapply IH; [eapply publish_file_progress|].
Qed.

(** What a publication leaves. *)
Record published_as (e2 : SharedFolder) : Prop := {
  pd_progress : progress (rs_upserted result) e2;
  pd_bundle : ∃ cid root, sh_last_cid e2 = Some cid ∧ List.find (is_folder (sh_folder_id e2)) (sh_folders e2) = Some root
    ∧ (check_bundle_entry_counts (folder_bundle me i root e2) = Ok tt →
       fetch_folder_bundle (net cid) cid (sh_passphrase e2) = Ok (folder_bundle me i root e2));
}.

Lemma republish_spec o o' : ow_entry o = e1 → Forall plain_folder (sh_folders e1) →
  republish me i result o = (o', Ok tt) → published_as (ow_entry o').
Proof.
  intros He Hpf. unfold republish. intros (o1 & e & [= <- <-] & H1)%bind_Ok. rewrite He in *.
  apply bind_Ok in H1 as (o2 & root & [-> Hroot]%lift_Ok & H2). destruct (List.find _ (sh_folders e1)) as [r|] eqn:Ef; [|done]. injection Hroot as ->.
  apply find_elem in Ef as Hr. destruct Hr as [Hr Hrid]. rewrite Forall_forall in Hpf. destruct (Hpf _ Hr) as (Hso & _).
  apply bind_Ok in H2 as (o3 & [] & Hfiles & H3). apply (publish_files_progress root _ []) in Hfiles; [|done|].
  2: { rewrite He. split; try done. intros f Hf. left. split; [done|]. by intros ?%elem_of_nil. }
  apply bind_Ok in H3 as (o4 & e3 & [= <- <-] & H4). apply bind_Ok in H4 as (o5 & cid & Hpub & [= <-]).
  apply publish_spec in Hpub as (E5 & Hcid & salt & iv & p & Hs & Hiv & Hp & Hn & Hl). cbn [set_entry ow_entry]. rewrite E5.
  set (e3 := ow_entry o3) in *. destruct Hfiles as [P1 P2 P3 P4 P5 P6]. cbn [app] in P6.
  set (e2 := with_publication _ _ _ e3). assert (Hb : folder_bundle me i root e2 = folder_bundle me i root e3) by done. split; [by split|].
  exists cid, root. split; [done|]. split; [by cbn; rewrite P1, P3|]. intros Hc. rewrite Hn, Hb. change (sh_passphrase e2) with (sh_passphrase e3).
  apply (fetch_published_bundle salt iv (folder_bundle me i root e3) _ p); [done|done| |apply Hserde|exact Hp| |by rewrite <-Hb].
  - apply Hserde; [done|cbn; rewrite P3; by apply Forall_forall|]. cbn. apply Forall_forall. intros f Hf. destruct (core_of _ _ P5 Hf) as (f1 & H1 & Ec).
    apply (core_fields _ _ Ec). rewrite Forall_forall in Hplain. by apply Hplain.
  - unfold limit, bundle_name in Hl. rewrite P1 in Hl. by rewrite bool_decide_true in Hl.
Qed.
End publish.
