(* ===== verification/StorageReach.v ===== *)
(** * Shared folders: what is shared arrives

    The two sides together: a scan and a publication of the owner, and a
    requester that fetches the bundle they end in and applies it to an empty
    directory, for a share all of whose rounds succeeded. *)
From S2P Require Import Prelude Effects Text Json Wire DmWire IdentityPairing StorageDomain StoragePaths StorageLink StorageSync StorageMirror.
From S2P Require Import StorageAccess StorageScan StorageSignature StorageWalk StorageIndex StorageFollow StorageOwner StoragePublish.

(** ** The records, again *)

Lemma names_same {A} (idf : A → string) gone m l l' :
  map (λ x, (idf x, gone x)) l = map (λ x, (idf x, gone x)) l' → names idf gone m l → names idf gone m l'.
Proof.
  intros E [N1 N2 N3 N4].
  assert (Hto : ∀ x, x ∈ l → ∃ y, y ∈ l' ∧ idf y = idf x ∧ gone y = gone x).
  { intros x Hx. apply (list_elem_of_fmap_2 (λ x, (idf x, gone x))) in Hx. change (_ <$> l) with (map (λ x, (idf x, gone x)) l) in Hx.
    rewrite E in Hx. apply list_elem_of_fmap in Hx as (y & [= -> ->] & Hy). eauto. }
  assert (Hfrom : ∀ y, y ∈ l' → ∃ x, x ∈ l ∧ idf y = idf x ∧ gone y = gone x).
  { intros x Hx. apply (list_elem_of_fmap_2 (λ x, (idf x, gone x))) in Hx. change (_ <$> l') with (map (λ x, (idf x, gone x)) l') in Hx.
    rewrite <-E in Hx. apply list_elem_of_fmap in Hx as (y & [= -> ->] & Hy). eauto. }
  assert (Hids : map idf l = map idf l').
  { apply (f_equal (map fst)) in E. by rewrite !map_map in E. } split.
  - by rewrite <-Hids.
  - intros k id Hk. destruct (N2 k id Hk) as (r & Hr & <- & Hg). destruct (Hto r Hr) as (y & Hy & Ey & Gy). exists y. by rewrite Gy.
  - done.
  - intros y Hy Hg. destruct (Hfrom y Hy) as (x & Hx & Ex & Gx). rewrite Ex. apply N4; [done|congruence].
Qed.

Lemma folder_map_lookup l id r : NoDup (map fd_id l) →
  folder_map_from_records l !! id = Some r ↔ r ∈ l ∧ fd_id r = id ∧ folder_deleted r = false.
Proof.
  unfold folder_map_from_records. induction l as [|x l IH] using rev_ind; intros Hnd.
  { cbn [foldl]. rewrite lookup_empty. split; [done|]. by intros (?%elem_of_nil & _). }
  rewrite foldl_app. cbn [foldl]. rewrite map_app in Hnd. apply NoDup_app in Hnd as (Hl & Hx & _). specialize (IH Hl).
  rewrite elem_of_app, list_elem_of_singleton.
  assert (Hnew : ∀ y, y ∈ l → fd_id y ≠ fd_id x).
  { intros y Hy E. apply (Hx (fd_id x)); [rewrite <-E; by apply (list_elem_of_fmap_2 fd_id)|by left]. }
  destruct (folder_deleted x) eqn:Ed.
  - rewrite IH. split; [naive_solver|]. intros ([?| ->] & ? & ?); [done|congruence].
  - split.
    + intros [[<- ->]|[Hne H]]%lookup_insert_Some; [by split_and!; [right|..]|]. apply IH in H as (? & ? & ?). by split_and!; [left|..].
    + intros ([Hr| ->] & <- & Hd); [|by rewrite lookup_insert_eq]. rewrite lookup_insert_ne; [by apply IH|]. intros E. by apply (Hnew r).
Qed.

Lemma folder_deleted_gone r : plain_folder r → folder_deleted r = folder_gone r.
Proof.
  intros (_ & _ & H). unfold folder_deleted, folder_gone, non_empty. destruct (fd_deleted_at r) as [s|]; [|done].
  by rewrite bool_decide_false by by intros ->.
Qed.
Lemma file_deleted_gone r : plain_file r → file_deleted r = file_gone r.
Proof.
  intros (_ & _ & _ & H & _). unfold file_deleted, file_gone, non_empty. destruct (fl_deleted_at r) as [s|]; [|done].
  by rewrite bool_decide_false by by intros ->.
Qed.

(** ** Places *)

(** Names that mean the same everywhere. *)
Definition portable (p : path) : Prop := Forall (λ n, sanitize_name n = n) p.
Definition portable_tree (t : tree) : Prop := ∀ p x, (p, x) ∈ nodes t → portable p.

Lemma resolve_portable dir p : p ≠ [] → portable p → resolve dir (key p) = Ok (dir ++ p).
Proof.
  intros Hp Hall. destruct p as [|w l]; [done|]. apply (resolve_join dir w l).
  - apply Forall_cons in Hall as [<- _]. apply sanitize_name_spec.
  - eapply Forall_impl; [exact Hall|]. cbn. intros n <-. apply sanitize_name_spec.
Qed.

Lemma not_visited (visited : list string) id : id ∉ visited → contains visited id = false.
Proof. rewrite <-contains_true. by destruct (contains visited id). Qed.

Section places.
Context (e : SharedFolder) (t : tree) (Hix : index_ok e) (Ht : tree_ok t) (Hport : portable_tree t).
Context (Hdirs : ∀ k, is_Some (pi_folder_ids (sh_path_index e) !! k) ↔ dir_key t k).
Context (Hfiles : ∀ k, is_Some (pi_file_ids (sh_path_index e) !! k) ↔ file_key t k).
Notation ids := (pi_folder_ids (sh_path_index e)).
Notation folders := (folder_map_from_records (sh_folders e)).

Lemma live_folder k id : ids !! k = Some id → ∃ r, folders !! id = Some r ∧ fd_id r = id ∧ r ∈ sh_folders e ∧ folder_deleted r = false.
Proof.
  intros Hk. destruct Hix as [[F1 F2 F3 F4 F5] _]. destruct (nm_record _ _ _ _ F1 _ _ Hk) as (r & Hr & <- & Hg). exists r.
  rewrite Forall_forall in F5. assert (Hd : folder_deleted r = false) by (rewrite folder_deleted_gone; auto).
  split_and!; try done. apply folder_map_lookup; [apply F1|done].
Qed.

Lemma dir_names p id : Forall name_ok p → ids !! key p = Some id → portable p.
Proof.
  intros Hp Hid. destruct (proj1 (Hdirs (key p))) as [E|(q & es & Hq & E)]; [by eexists| |].
  - destruct (decide (p = [])) as [->|Hne]; [by constructor|]. by apply key_nonempty in E.
  - apply key_inj in E as ->; [by eapply Hport|done|by eapply nodes_ok].
Qed.

Lemma app_key_ne p n : Forall name_ok (p ++ [n]) → key (p ++ [n]) ≠ key p.
Proof.
  intros Hn E%key_inj; [|done|by apply Forall_app in Hn as [? _]]. apply (f_equal length) in E. rewrite length_app in E. cbn in E. lia.
Qed.

(** The parts of a folder's path are the names on the way to it. *)
Lemma parts_of_folder p fuel visited id parts : Forall name_ok p → ids !! key p = Some id → (length p < fuel)%nat →
  (∀ q j, q `prefix_of` p → ids !! key q = Some j → j ∉ visited) →
  ∃ name, path_parts_from fuel folders visited id parts = name :: p ++ parts.
Proof.
  revert fuel visited id parts. induction p as [|n p IH] using rev_ind; intros fuel visited id parts Hn Hid Hf Hv.
  - destruct fuel as [|fuel]; [cbn in Hf; lia|]. cbn [path_parts_from]. destruct Hix as [[F1 F2 F3 F4 F5] _].
    rewrite bool_decide_false by by eapply F3. rewrite not_visited by (by apply (Hv [])). cbn [orb].
    destruct (live_folder _ _ Hid) as (r & Hr & Er & Hin & Hd). rewrite Hr, Hd.
    destruct (F4 (key []) r) as [[_ ->]|(p' & n' & par & E & Hn' & _)]; [by rewrite Er|done|by exists (sanitize_name (fd_name r))|].
    exfalso. symmetry in E. by apply (key_nonempty (p' ++ [n'])) in E; [|destruct p'|].
  - destruct fuel as [|fuel]; [cbn in Hf; lia|]. cbn [path_parts_from]. destruct Hix as [[F1 F2 F3 F4 F5] _].
    rewrite bool_decide_false by by eapply F3. rewrite not_visited by (by eapply Hv). cbn [orb].
    destruct (live_folder _ _ Hid) as (r & Hr & Er & Hin & Hd). rewrite Hr, Hd. rewrite <-Er in Hid.
    destruct (F4 (key (p ++ [n])) r) as [[E _]|(p' & n' & par & E & Hn' & Hname & Hpar & ->)]; [done|done| |].
    { exfalso. by apply (key_nonempty (p ++ [n])) in E; [|destruct p|]. }
    apply key_inj in E; [|done..]. apply app_inj_tail in E as [<- <-]. cbn [non_empty]. rewrite bool_decide_false by by eapply F3.
    assert (Hpn : portable (p ++ [n])) by by eapply dir_names. apply Forall_app in Hpn as [_ Hpn]. apply (proj1 (Forall_singleton _ _)) in Hpn. cbn in Hpn.
    rewrite Hname, !Hpn. rewrite length_app in Hf. cbn in Hf. destruct (IH fuel (id :: visited) par (n :: parts)) as (name & ->).
    + by apply Forall_app in Hn as [? _].
    + done.
    + lia.
    + intros q j Hq Hj [->|Hj']%elem_of_cons.
      * rewrite Er in Hid. pose proof (nm_inj _ _ _ _ F1 _ _ _ Hid Hj) as E. apply key_inj in E; [|done|].
        -- subst q. apply prefix_length in Hq. rewrite length_app in Hq. cbn in Hq. lia.
        -- destruct Hq as [k ->]. apply Forall_app in Hn as [Hn _]. by apply Forall_app in Hn as [? _].
      * apply (Hv q j); [by apply prefix_app_r|done|done].
    + exists name. by rewrite <-app_assoc.
Qed.

(** Where a requester puts the file of a record. *)
Lemma target_of_file f p d st : (p, TFile d st) ∈ nodes t → pi_file_ids (sh_path_index e) !! key p = Some (fl_id f) → f ∈ sh_files e →
  file_target_rel folders (fl_folder_id f) (fl_name f) = Some (key p).
Proof.
  intros Hp Hid Hf. destruct Hix as [_ [G1 G2 G3]]. destruct (G2 _ f I Hid Hf) as (q & n & E & Hn & -> & Hq).
  apply key_inj in E; [|by eapply nodes_ok|done]. subst p. unfold file_target_rel.
  assert (Hnq : Forall name_ok q) by (by apply Forall_app in Hn as [? _]).
  pose proof (folder_path_parts_fuel folders (fl_folder_id f) (length q)) as Hfuel. rewrite <-Hfuel.
  destruct (parts_of_folder q (S (base.size folders) + length q) [] (fl_folder_id f) [] Hnq Hq) as (name & ->).
  - lia.
  - by intros ? ? _ _ ?%elem_of_nil.
  - rewrite app_nil_r. pose proof (Hport _ _ Hp) as Hpn. apply Forall_app in Hpn as [_ Hpn]. apply (proj1 (Forall_singleton _ _)) in Hpn. cbn in Hpn. by rewrite Hpn.
Qed.

(** The path of a live record. *)
Lemma path_of_live f : f ∈ sh_files e → file_gone f = false →
  ∃ p d st, (p, TFile d (Some st)) ∈ nodes t ∧ pi_file_ids (sh_path_index e) !! key p = Some (fl_id f) ∧ p ≠ [].
Proof.
  intros Hf Hg. destruct Hix as [_ [G1 _ _]]. destruct (nm_live _ _ _ _ G1 f Hf Hg) as (k & Hk).
  destruct (proj1 (Hfiles k)) as (p & d & st & Hp & ->); [by eexists|]. exists p, d, st. split_and!; [done|done|by eapply nodes_nonempty].
Qed.
End places.

(** Files are leaves. *)
Lemma leaf p k d st x t : tree_ok t → (p, TFile d st) ∈ nodes t → (p ++ k, x) ∈ nodes t → k = [].
Proof.
  revert t. induction p as [|n p IH]; intros t Ht Hp Hk; [by apply nodes_nonempty in Hp|].
  destruct t as [[es|]| | | |]; try by apply elem_of_nil in Hp. apply tree_ok_dir in Ht as [Hnd Hall]. rewrite Forall_forall in Hall.
  apply elem_of_nodes in Hp as (m & u & Hu & Hp). apply elem_of_nodes in Hk as (m' & u' & Hu' & Hk).
  assert (m = n ∧ m' = n) as [-> ->] by (destruct Hp as [[[= <- _] _]|(q & [= <- _] & _)], Hk as [[[= <- _] _]|(q' & [= <- _] & _)]; done).
  assert (u' = u) as ->.
  { pose proof (find_entry_in es n u Hnd Hu) as E. pose proof (find_entry_in es n u' Hnd Hu') as E'. congruence. }
  destruct (Hall _ Hu) as [_ Htu]. cbn [snd] in Htu. destruct Hp as [[[= ->] Ef]|(q & [= <-] & Hq)].
  - destruct Hk as [[[= Hk] _]|(q' & [= <-] & Hq')]; [done|]. rewrite <-Ef in Hq'. by apply elem_of_nil in Hq'.
  - destruct Hk as [[[= Hk] _]|(q' & [= <-] & Hq')]; [by apply app_eq_nil in Hk as [_ ->]|]. by eapply IH.
Qed.

(** ** One round of the owner *)
Section reach.
Context `{C : Crypto} {S : Sealing} {HM : Hmac} {T : JsonText} {V : ShareValues}.
Context {SB : Serde FolderBundle} {SX : Serde FileBundle} {SP : Serde EncryptedPayload} {SG : Serde SignaturePayload}.
Context `{!SealingLaws S}.
Context (net : string → result string Error).

(** Every live file has its content on the network. *)
Definition published (e : SharedFolder) : Prop := ∀ f, f ∈ sh_files e → file_gone f = false →
  ∃ cid data, content_cid f = Some cid ∧ fetch_file_content (net cid) cid (sh_passphrase e) = Ok data ∧ sha256_hex data = fl_checksum f.

Lemma progress_index result ids e1 e2 : index_ok e1 → progress net e1 result ids e2 → index_ok e2.
Proof.
  intros [[F1 F2 F3 F4 F5] [G1 G2 G3]] [P1 P2 P3 P4 P5 P6].
  assert (Hcore : ∀ f, f ∈ sh_files e2 → ∃ f1, f1 ∈ sh_files e1 ∧ with_cids "" f = with_cids "" f1) by (intros f; by apply core_of).
  split; rewrite ?P1, ?P3, ?P4; [by split|]. split.
  - eapply names_same; [|exact G1]. apply (f_equal (map (λ x, (fl_id x, file_gone x)))) in P5. by rewrite !map_map in P5.
  - intros k f _ Hk Hf. destruct (Hcore f Hf) as (f1 & Hf1 & E). destruct (core_fields _ _ E) as (Ei & Efo & En & _). rewrite Ei in Hk.
    destruct (G2 k f1 I Hk Hf1) as (p & n & -> & Hn & <- & Hp). exists p, (fl_name f1). by rewrite En, Efo.
  - apply Forall_forall. intros f Hf. destruct (Hcore f Hf) as (f1 & Hf1 & E). apply (core_fields _ _ E).
    rewrite Forall_forall in G3. by apply G3.
Qed.

Lemma progress_published t e e1 e2 r : sh_passphrase e1 = sh_passphrase e → published e → mirrors t e e1 r →
  progress net e1 r (rs_upserted r) e2 → published e2.
Proof.
  intros Hpass Hpub M [P1 P2 P3 P4 P5 P6] f Hf Hg. rewrite P2.
  destruct (core_of _ _ _ P5 Hf) as (f1 & Hf1 & E). destruct (core_fields _ _ E) as (Ei & _ & _ & Ed & Ec & _).
  assert (Hg1 : file_gone f1 = false) by (unfold file_gone; by rewrite <-Ed).
  destruct (P6 f Hf) as [[Hf' Hno]|[Hin (cid & d & H1 & H2 & H3)]].
  - destruct (mi_source _ _ _ _ M f Hf' Hg) as [Hold|Hup].
    + rewrite Hpass. by apply Hpub.
    + destruct (mi_bytes _ _ _ _ M f Hf' Hg Hup) as (d & Hd & _). by rewrite Hno in Hd.
  - exists cid, d. split_and!; [done|done|]. rewrite Ei in Hin, H2. destruct (mi_bytes _ _ _ _ M f1 Hf1 Hg1 Hin) as (d' & Hd' & Hsum).
    rewrite Ec, Hsum. congruence.
Qed.

(** ** The requester *)
Section arrival.
Context (me : Identity) (i : Round) (e : SharedFolder) (root : FolderRecord) (dir : path) (t : tree) (Ht : tree_ok t) (Hport : portable_tree t).
Context (Hix : index_ok e) (Hpub : published e) (Hroot : List.find (is_folder (sh_folder_id e)) (sh_folders e) = Some root).
Context (Hdirs : ∀ k, is_Some (pi_folder_ids (sh_path_index e) !! k) ↔ dir_key t k).
Context (Hfiles : ∀ k, is_Some (pi_file_ids (sh_path_index e) !! k) ↔ file_key t k).

Notation bundle := (folder_bundle me i root e).
Notation pass := (sh_passphrase e).

Lemma bundle_folders : build_folder_map bundle = folder_map_from_records (sh_folders e).
Proof.
  unfold build_folder_map. cbn [folder_bundle bu_folders bu_folder]. apply find_elem in Hroot as [Hr Hid]. unfold is_folder in Hid. bools.
  pose proof Hix as [[F1 F2 F3 F4 F5] _]. destruct (live_folder e Hix _ _ F2) as (r & Hl & Er & Hin & Hd). rewrite Hid, Hl. by case_match.
Qed.

(** A live record, the path of its file, and what the bundle says of it. *)
Record arrives (f : FileRecord) (p : path) : Prop := {
  ar_node : ∃ d st, (p, TFile d (Some st)) ∈ nodes t;
  ar_id : pi_file_ids (sh_path_index e) !! key p = Some (fl_id f);
  ar_rel : file_target_rel (build_folder_map bundle) (fl_folder_id f) (fl_name f) = Some (key p);
  ar_spot : spot dir bundle f = dir ++ p;
  ar_content : content_cid f = Some (cid_of f) ∧ fetch_file_content (net (cid_of f)) (cid_of f) pass = Ok (content pass net (cid_of f))
    ∧ sha256_hex (content pass net (cid_of f)) = fl_checksum f;
}.

Lemma rel_of_arrives f p : file_target_rel (build_folder_map bundle) (fl_folder_id f) (fl_name f) = Some (key p) → rel_of bundle f = key p.
Proof. intros H. unfold rel_of. by rewrite H. Qed.

Lemma live_gone f : f ∈ live (sh_files e) ↔ f ∈ sh_files e ∧ file_gone f = false.
Proof.
  unfold live, is_live. rewrite elem_of_List_filter, negb_true_iff. pose proof Hix as [_ [_ _ G3]]. rewrite Forall_forall in G3.
  split; intros [H1 H2]; (split; [done|]); [rewrite <-file_deleted_gone|rewrite file_deleted_gone]; auto.
Qed.

Lemma live_arrives f : f ∈ live (sh_files e) → ∃ p, arrives f p.
Proof.
  intros [Hf Hg]%live_gone. destruct (path_of_live e t Hix Hfiles f Hf Hg) as (p & d & st & Hp & Hid & Hne). exists p.
  assert (Hrel : file_target_rel (build_folder_map bundle) (fl_folder_id f) (fl_name f) = Some (key p)).
  { rewrite bundle_folders. by eapply target_of_file. } split; [by eauto|done|done| |].
  - unfold spot, place. rewrite (rel_of_arrives f p Hrel), resolve_portable; [done|done|by eapply Hport].
  - destruct (Hpub f Hf Hg) as (cid & data & H1 & H2 & H3). unfold cid_of, content. rewrite H1. cbn [default from_option Datatypes.id]. by rewrite H2.
Qed.

Lemma arrives_apart f g p q : f ∈ live (sh_files e) → g ∈ live (sh_files e) → arrives f p → arrives g q → fl_id f ≠ fl_id g →
  apart (dir ++ p) (dir ++ q).
Proof.
  intros _ _ [(d & st & Hp) Hidp _ _ _] [(d' & st' & Hq) Hidq _ _ _] Hne.
  split; intros [k E]; rewrite <-app_assoc in E; apply app_inv_head in E; subst.
  - assert (k = []) as -> by by eapply (leaf p k d). rewrite app_nil_r in Hidq. congruence.
  - assert (k = []) as -> by by eapply (leaf q k d'). rewrite app_nil_r in Hidp. congruence.
Qed.

(** The directory is empty, and nothing is in the way to it. *)
Definition empty_dir (f : FS) : Prop := (∀ p, strictly_below dir p → f !! p = None) ∧ ∀ q d, q ≠ [] → q `prefix_of` dir → f !! q ≠ Some (File d).

Lemma empty_clear f p : empty_dir f → p ≠ [] → clear f (dir ++ p).
Proof.
  intros [H1 H2] Hp. split.
  - intros q d Hq Hpre E. assert (Hqd : q `prefix_of` dir ++ p) by (trans (parent (dir ++ p)); [done|apply parent_prefix]).
    destruct (prefix_weak_total q dir (dir ++ p)) as [Hd|Hd]; [done|by apply prefix_app_r|by eapply H2|].
    destruct (decide (q = dir)) as [->|Hne]; [by eapply H2|]. rewrite H1 in E; [done|]. by split.
  - rewrite H1; [done|]. by apply strictly_below_app.
Qed.

Lemma arrival_ids : NoDup (live_ids (sh_files e)).
Proof.
  unfold live_ids. change (map fl_id ?l) with (fl_id <$> l). pose proof Hix as [_ [G1 _ _]]. pose proof (nm_ids _ _ _ _ G1) as H.
  revert H. generalize (sh_files e). intros l. induction l as [|x l IH]; [by constructor|]. cbn [map List.filter]. intros [Hx Hl]%NoDup_cons.
  destruct (negb (file_deleted x)); [|by apply IH]. cbn [fmap list_fmap]. apply NoDup_cons. split; [|by apply IH].
  intros (y & Ey & Hy%elem_of_List_filter)%list_elem_of_fmap. apply Hx. rewrite Ey. apply (list_elem_of_fmap_2 fl_id). by destruct Hy.
Qed.

Lemma arrival_pairs (l : list FileRecord) : l ⊆ live (sh_files e) → NoDup (map fl_id l) → ForallOrdPairs apart (map (spot dir bundle) l).
Proof.
  induction l as [|x l IH]; intros Hl Hnd; [constructor|]. cbn [map] in *. apply NoDup_cons in Hnd as [Hx Hnd].
  constructor; [|apply IH; [intros y Hy; apply Hl; by right|done]]. apply Forall_forall. intros s (y & -> & Hy)%list_elem_of_fmap.
  assert (Hxl : x ∈ live (sh_files e)) by (apply Hl; by left). assert (Hyl : y ∈ live (sh_files e)) by (apply Hl; by right).
  destruct (live_arrives x Hxl) as (p & Ap), (live_arrives y Hyl) as (q & Aq). rewrite (ar_spot _ _ Ap), (ar_spot _ _ Aq).
  apply (arrives_apart x y); try done. intros E. apply Hx. rewrite E. by apply (list_elem_of_fmap_2 fl_id).
Qed.

Lemma arrival_mirrorable f : empty_dir f → mirrorable dir pass net bundle [] f.
Proof.
  intros Hempty. split; cbn [folder_bundle bu_files].
  - intros x Hx. destruct (live_arrives x Hx) as (p & [A1 A2 A3 A4 (A5 & A6 & A7)]). rewrite A3, (rel_of_arrives x p A3). split_and!; [done..|].
    unfold checksum_differs. rewrite A7, (bool_decide_true (fl_checksum x = fl_checksum x)) by done. by rewrite andb_false_r.
  - apply arrival_ids.
  - apply arrival_pairs; [done|apply arrival_ids].
  - intros x Hx. destruct (live_arrives x Hx) as (p & A). rewrite (ar_spot _ _ A). apply empty_clear; [done|].
    destruct (ar_node _ _ A) as (d & st & H). by eapply nodes_nonempty.
  - apply Hempty.
  - intros x p _. by unfold reusable.
  - intros rel tt_ Hrel. exfalso. unfold plan_resync in Hrel. rewrite plan_files in Hrel. cbn [pl_remove_paths List.filter map] in Hrel.
    rewrite app_nil_r in Hrel. apply list_elem_of_bind in Hrel as (x & Hrel & _). unfold plan_file in Hrel. cbn [find_file List.find] in Hrel.
    destruct (file_deleted x); [by apply elem_of_nil in Hrel|]. destruct (file_target_rel _ _ _); [|by apply elem_of_nil in Hrel].
    destruct (content_cid x); by apply elem_of_nil in Hrel.
Qed.
End arrival.

(** What a round finds around it: a tree with portable names, the time, new
    identifiers, and modification times that tell a change. *)
Record round_ready (i : Round) (e : SharedFolder) : Prop := {
  ro_tree : tree_ok (rd_tree i);
  ro_portable : portable_tree (rd_tree i);
  ro_now : rd_now i ≠ "";
  ro_fresh : draws_fresh (rd_drawn i) (rd_tree i) e;
  ro_honest : honest (rd_tree i) (sh_files e) (sh_path_index e);
}.

(** A round that succeeds, but for its announcements: the scan, and the
    publication when the scan found a change. *)
Definition round_done (me : Identity) (i : Round) (e e' : SharedFolder) : Prop := ∃ o o1 r o2,
  ow_entry o = e ∧ rescan i o = (o1, Ok r) ∧ network_ok i net (ow_entry o1) ∧ urls_fit (ow_entry o1) r ∧
  (if rs_changed r then republish me i r o1 = (o2, Ok tt) else o2 = o1) ∧ ow_entry o2 = e'.

(** A share is kept up from when it is made by rounds that succeed; grants and
    other edits in between leave its records, its passphrase and its last
    publication alone. *)
Inductive kept_up (me : Identity) : SharedFolder → Prop :=
  | kept_new id name dir room pass now : id ≠ "" → kept_up me (new_share id name dir room pass now)
  | kept_round i e e' : kept_up me e → round_ready i e → round_done me i e e' → kept_up me e'
  | kept_edit e e' : kept_up me e → sh_folder_id e' = sh_folder_id e → sh_passphrase e' = sh_passphrase e →
      sh_folders e' = sh_folders e → sh_files e' = sh_files e → sh_path_index e' = sh_path_index e →
      sh_last_cid e' = sh_last_cid e → kept_up me e'.

(** The announced bundle says what the records say. *)
Definition announced (me : Identity) (e : SharedFolder) (cid : string) (i : Round) (root : FolderRecord) : Prop :=
  List.find (is_folder (sh_folder_id e)) (sh_folders e) = Some root ∧
  (zlen (sh_folders e) ≤ MAX_BUNDLE_ENTRIES → zlen (sh_files e) ≤ MAX_BUNDLE_ENTRIES →
   fetch_folder_bundle (net cid) cid (sh_passphrase e) = Ok (folder_bundle me i root e)).

Record in_order (me : Identity) (e : SharedFolder) : Prop := {
  or_index : index_ok e;
  or_published : published e;
  or_first : sh_last_cid e = None → sh_files e = [];
  or_announced cid : sh_last_cid e = Some cid → ∃ i root, announced me e cid i root;
}.

(** A share that has just been made is in order. *)
Lemma new_share_index id name dir room pass now : id ≠ "" → index_ok (new_share id name dir room pass now).
Proof.
  intros Hid.
  split; [split; [split|..]|split; [split|..]]; cbn [new_share sh_folder_id sh_path_index sh_folders sh_files pi_folder_ids pi_file_ids].
  - apply NoDup_singleton.
  - intros k x [<- <-]%lookup_singleton_Some. eexists. split; [by left|]. by split.
  - intros k k' x [<- _]%lookup_singleton_Some [<- _]%lookup_singleton_Some. done.
  - intros r ->%list_elem_of_singleton _. exists "". apply lookup_singleton_eq.
  - apply lookup_singleton_eq.
  - by intros k x [_ <-]%lookup_singleton_Some.
  - intros k r [<- _]%lookup_singleton_Some ->%list_elem_of_singleton. by left.
  - apply Forall_singleton. by split_and!.
  - apply NoDup_nil_2.
  - by intros k x.
  - by intros k k' x.
  - by intros r ?%elem_of_nil.
  - by intros k r _ ?.
  - apply Forall_nil_2.
Qed.

Lemma rescan_mirrors i e o o1 r : index_ok e → round_ready i e → ow_entry o = e → rescan i o = (o1, Ok r) →
  mirrors (rd_tree i) e (ow_entry o1) r ∧ sh_passphrase (ow_entry o1) = sh_passphrase e ∧
  sh_folder_id (ow_entry o1) = sh_folder_id e ∧ sh_last_cid (ow_entry o1) = sh_last_cid e.
Proof.
  intros R1 [R3 R4 R5 R6 R7] <-. unfold rescan. destruct (rescan_local_dir _ _ _ _) as [e1 [r1|]] eqn:E; [|done]. intros [= <- <-].
  cbn [set_entry ow_entry]. split; [by eapply scan_follows|]. unfold rescan_local_dir in E. destruct (walk_shared_dir _) as [[ds fs]|]; [|done].
  destruct (scan_files _ _ _ _ _) as [s [[]|]]; [|done]. by injection E as <- _.
Qed.

Lemma unchanged_published e e' : sh_passphrase e' = sh_passphrase e → sh_files e' = sh_files e → published e → published e'.
Proof. intros Hp Hf Hpub f. rewrite Hf, Hp. apply Hpub. Qed.

Lemma unchanged_announced me e e' cid i root : sh_folder_id e' = sh_folder_id e → sh_passphrase e' = sh_passphrase e →
  sh_folders e' = sh_folders e → sh_files e' = sh_files e → announced me e cid i root → announced me e' cid i root.
Proof. intros H1 H2 H3 H4 [A B]. unfold announced, folder_bundle in *. by rewrite H1, H2, H3, H4. Qed.

(** The records of the scan, but for the CIDs. *)
Definition follows (i : Round) (e e' : SharedFolder) : Prop := ∃ e1 r, mirrors (rd_tree i) e e1 r ∧
  sh_path_index e' = sh_path_index e1 ∧ map (with_cids "") (sh_files e') = map (with_cids "") (sh_files e1).

Lemma round_in_order me i e e' : serde_ok → in_order me e → round_ready i e → round_done me i e e' →
  in_order me e' ∧ sh_passphrase e' = sh_passphrase e ∧ follows i e e'.
Proof.
  intros Hserde [R1 R2 R3 R4] Hready (o & o1 & r & o2 & Ho & Hscan & Hnet & Hurls & Hrep & <-).
  destruct (rescan_mirrors i e o o1 r R1 Hready Ho Hscan) as (Hmir & Hpass & Hid & Hcid).
  pose proof (mi_index _ _ _ _ Hmir) as Hix1. destruct (rs_changed r) eqn:Hch.
  - pose proof Hix1 as [[_ _ _ _ F5] [G1 _ G3]].
    destruct (republish_spec me i net (ow_entry o1) r Hnet Hserde (nm_ids _ _ _ _ G1) G3 Hurls o1 o2 eq_refl F5 Hrep) as [Hpr (cid & root & Hl & Hroot & Hfetch)].
    split; [split|split; [by rewrite (pg_pass _ _ _ _ _ Hpr)|]].
    + eapply progress_index, Hpr. done.
    + by eapply progress_published.
    + by rewrite Hl.
    + intros cid' Hl'. rewrite Hl in Hl'. injection Hl' as <-. exists i, root. split; [done|]. intros Hc1 Hc2. apply Hfetch.
      unfold check_bundle_entry_counts. cbn [folder_bundle bu_folders bu_files]. by rewrite !(proj2 (Z.ltb_ge _ _)).
    + exists (ow_entry o1), r. split; [done|]. split; apply Hpr.
  - subst o2. destruct (mi_unchanged _ _ _ _ Hmir Hch) as [Hfo Hfi]. split; [split|split; [done|by exists (ow_entry o1), r]].
    + done.
    + by eapply unchanged_published.
    + by rewrite Hcid, Hfi.
    + intros cid Hc. rewrite Hcid in Hc. destruct (R4 cid Hc) as (i0 & root & Ha). exists i0, root. by eapply unchanged_announced.
Qed.

Lemma kept_in_order me e : serde_ok → kept_up me e → in_order me e.
Proof.
  intros Hserde. induction 1 as [id name dir room pass now Hid|i e e' _ IH Hr Hd|e e' _ IH H1 H2 H3 H4 H5 H6].
  - split; [by apply new_share_index|by intros f ?%elem_of_nil|done|done].
  - by eapply round_in_order.
  - destruct IH as [R1 R2 R3 R4]. split.
    + destruct R1 as [[F1 F2 F3 F4 F5] [G1 G2 G3]]. by split; split; rewrite ?H1, ?H3, ?H4, ?H5.
    + by eapply unchanged_published.
    + by rewrite H4, H6.
    + intros cid Hc. rewrite H6 in Hc. destruct (R4 cid Hc) as (i0 & root & Ha). exists i0, root. by eapply unchanged_announced.
Qed.

Section outcome.
Context (me : Identity) (i i0 : Round) (e e1 e2 : SharedFolder) (r : RescanResult) (root : FolderRecord).
Context (Hready : round_ready i e) (Hmir : mirrors (rd_tree i) e e1 r) (Hkept : index_ok e2) (Hpub : published e2).
Context (Hindex : sh_path_index e2 = sh_path_index e1) (Hcore : map (with_cids "") (sh_files e2) = map (with_cids "") (sh_files e1)).
Context (Hroot : List.find (is_folder (sh_folder_id e2)) (sh_folders e2) = Some root).
Context {inputs : nat → Input} (Hcalm : ∀ n, works net (inputs n)) (dir : path) (w : World) (Hempty : empty_dir dir (fs w)).
Notation t := (rd_tree i).
Notation bundle := (folder_bundle me i0 root e2).

Lemma outcome_dirs k : is_Some (pi_folder_ids (sh_path_index e2) !! k) ↔ dir_key t k.
Proof. rewrite Hindex. apply Hmir. Qed.
Lemma outcome_files k : is_Some (pi_file_ids (sh_path_index e2) !! k) ↔ file_key t k.
Proof. rewrite Hindex. apply Hmir. Qed.

(** The record of a path, on the requester's side. *)
Lemma outcome_arrives k : file_key t k → ∃ f p, f ∈ live (sh_files e2) ∧ arrives me i0 e2 root dir t f p ∧ k = key p.
Proof.
  intros Hk. destruct Hready as [R3 R4 R5 R6 R7]. apply outcome_files in Hk as [id Hid].
  pose proof Hkept as [_ [G1 _ _]]. destruct (nm_record _ _ _ _ G1 _ _ Hid) as (f & Hf & <- & Hg).
  assert (Hl : f ∈ live (sh_files e2)) by (by apply live_gone).
  destruct (live_arrives me i0 e2 root dir t R3 R4 Hkept Hpub Hroot outcome_dirs outcome_files f Hl) as (p & A). exists f, p. split_and!; [done|done|].
  eapply (nm_inj _ _ _ _ G1); [exact Hid|apply A].
Qed.

Lemma outcome_sync : ∃ w' synced records, sync_bundle inputs dir (sh_passphrase e2) bundle [] w = (w', Ok (synced, records))
  ∧ (∀ p d st, (p, TFile (Some d) st) ∈ nodes t → ∃ c, fs w' !! (dir ++ p) = Some (File c) ∧ sha256_hex c = sha256_hex d)
  ∧ (∀ k, k ∈ map sf_rel_path synced ↔ file_key t k).
Proof.
  pose proof Hready as [R3 R4 R5 R6 R7].
  pose proof (arrival_mirrorable me i0 e2 root dir t R3 R4 Hkept Hpub Hroot outcome_dirs outcome_files (fs w) Hempty) as Hm.
  destruct (resync_applied inputs dir (sh_passphrase e2) net Hcalm bundle [] w Hm) as (w' & synced & records & H1 & _ & H2 & _ & _ & H3 & _).
  exists w', synced, records. split; [done|]. cbn [folder_bundle bu_files] in H2, H3. split.
  - intros p d st Hp. destruct (mi_content _ _ _ _ Hmir p d st Hp) as (f1 & Hf1 & Hg1 & Hid1 & Hsum).
    destruct (outcome_arrives (key p)) as (f & q & Hl & A & E).
    { apply outcome_files. rewrite Hindex. by eexists. }
    destruct (ar_node _ _ _ _ _ _ _ _ A) as (d' & st' & Hq). apply key_inj in E as <-; [|by eapply nodes_ok..].
    exists (content (sh_passphrase e2) net (cid_of f)). rewrite <-(ar_spot _ _ _ _ _ _ _ _ A). split; [by apply H2|].
    destruct (ar_content _ _ _ _ _ _ _ _ A) as (_ & _ & ->). rewrite <-Hsum. apply live_gone in Hl as [Hl _]; [|done].
    destruct (core_of _ _ _ Hcore Hl) as (f1' & Hf1' & Ec). destruct (core_fields _ _ Ec) as (Ei & _ & _ & _ & -> & _).
    f_equal. destruct (mi_index _ _ _ _ Hmir) as [_ [G1 _ _]]. apply (same_record fl_id (sh_files e1)); [apply G1|done|done|].
    pose proof (ar_id _ _ _ _ _ _ _ _ A) as Hid. rewrite Hindex, Hid1 in Hid. congruence.
  - intros k. assert (Hrel : k ∈ map sf_rel_path synced ↔ ∃ x, x ∈ live (sh_files e2) ∧ k = rel_of bundle x).
    { assert (Hm' : map sf_rel_path synced ≡ₚ map (rel_of bundle) (live (sh_files e2))).
      { apply (Permutation_map (λ x, x.1.2)) in H3. by rewrite !map_map in H3. }
      rewrite Hm', list_elem_of_fmap. naive_solver. }
    rewrite Hrel. split.
    + intros (x & Hx & ->). destruct (live_arrives me i0 e2 root dir t R3 R4 Hkept Hpub Hroot outcome_dirs outcome_files x Hx) as (p & A).
      rewrite (rel_of_arrives me i0 e2 root x p (ar_rel _ _ _ _ _ _ _ _ A)). destruct (ar_node _ _ _ _ _ _ _ _ A) as (d & st & H). by exists p, d, st.
    + intros Hk. destruct (outcome_arrives k Hk) as (f & p & Hf & A & ->). exists f. split; [done|].
      by rewrite (rel_of_arrives me i0 e2 root f p (ar_rel _ _ _ _ _ _ _ _ A)).
Qed.
End outcome.

(** A round of the ticker that returns is a round that is done. *)
Lemma call_round_done me i o o1 o2 r :
  rescan i o = (o1, Ok r) → network_ok i net (ow_entry o1) → urls_fit (ow_entry o1) r →
  rescan_and_announce me i o = (o2, Ok tt) → round_done me i (ow_entry o) (ow_entry o2).
Proof.
  intros Hscan Hnet Hurls. unfold rescan_and_announce. intros (o1' & r' & Hs & H)%bind_Ok. rewrite Hscan in Hs. injection Hs as <- <-.
  assert (Hsend : ∀ m o o' x, broadcast me i m o = (o', x) → ow_entry o' = ow_entry o).
  { intros m oa ob x. unfold broadcast. cbn. destruct (rd_dated i (ow_calls oa)). unfold bind. cbn.
    destruct (sign_envelope _ _); cbn; [|by intros [= <- _]]. destruct (rd_sends i _); by intros [= <- _]. }
  exists o, o1, r. destruct (rs_changed r); cbn [negb] in H.
  - apply bind_Ok in H as (o3 & [] & Hrep & H). exists o3. split_and!; try done. symmetry.
    apply bind_Ok in H as (o4 & e4 & [= <- <-] & H). apply bind_Ok in H as (o5 & [] & H5%Hsend & H).
    apply bind_Ok in H as (o6 & [] & [= <-] & H).
    assert (Heach : ∀ e ty l o o', each (announce_file_change me i e ty) l o = (o', Ok tt) → ow_entry o' = ow_entry o).
    { clear -Hsend. intros e ty l. induction l as [|x l IH]; intros oa ob; [by intros [= <-]|]. cbn [each].
      intros (oc & [] & Hc%Hsend & H)%bind_Ok. apply IH in H. congruence. }
    apply bind_Ok in H as (o7 & [] & H7%Heach & H8%Heach). rewrite H8, H7. done.
  - exists o1. split_and!; try done. unfold announce_folder_state in H. apply bind_Ok in H as (o3 & e3 & [= <- <-] & H).
    destruct (sh_last_cid _); [|by injection H as <-]. case_if; [by injection H as <-|].
    apply bind_Ok in H as (o4 & [] & H4%Hsend & H). injection H as <-. by rewrite <-H4.
Qed.

(** C26: What is shared arrives. A share is made, and kept up by rounds of the
    owner all of which succeeded (but for their announcements), in directories
    with portable names where a change of content shows in the length or the
    time of modification. After such a round, with or without a change, every
    live file is published; and a requester that fetches the bundle under the
    last CID of the share and applies it to an empty directory ends with exactly
    the files of the owner's tree, each at its path with content of the same
    SHA-256. A round that fails may lose a change for good
    ([ShareRuns.failed_publication_lost]). *)
Theorem round_arrives me i e e' inputs dir w :
  serde_ok → kept_up me e → round_ready i e → round_done me i e e' →
  (∀ n, works net (inputs n)) → empty_dir dir (fs w) →
  published e' ∧ ((∃ k, file_key (rd_tree i) k) → is_Some (sh_last_cid e')) ∧
  ∀ cid, sh_last_cid e' = Some cid → zlen (sh_folders e') ≤ MAX_BUNDLE_ENTRIES → zlen (sh_files e') ≤ MAX_BUNDLE_ENTRIES →
    ∃ bundle w' synced records,
      fetch_folder_bundle (net cid) cid (sh_passphrase e') = Ok bundle
      ∧ sync_bundle inputs dir (sh_passphrase e') bundle [] w = (w', Ok (synced, records))
      ∧ (∀ p d st, (p, TFile (Some d) st) ∈ nodes (rd_tree i) → ∃ c, fs w' !! (dir ++ p) = Some (File c) ∧ sha256_hex c = sha256_hex d)
      ∧ (∀ k, k ∈ map sf_rel_path synced ↔ file_key (rd_tree i) k).
Proof.
  intros Hserde Hkept Hready Hdone Hcalm Hempty. pose proof (kept_in_order me e Hserde Hkept) as Hord.
  destruct (round_in_order me i e e' Hserde Hord Hready Hdone) as ([K1 K2 K3 K4] & Hpass & e1 & r & Hmir & Hidx & Hcore).
  split; [done|]. split.
  - intros (k & Hk). destruct (sh_last_cid e') eqn:Hc; [by eexists|]. exfalso. specialize (K3 eq_refl).
    apply (mi_files _ _ _ _ Hmir) in Hk as [id Hid]. rewrite <-Hidx in Hid. destruct K1 as [_ [G1 _ _]].
    destruct (nm_record _ _ _ _ G1 _ _ Hid) as (f & Hf & _). rewrite K3 in Hf. by apply elem_of_nil in Hf.
  - intros cid Hcid Hc1 Hc2. destruct (K4 cid Hcid) as (i0 & root & Hroot & Hfetch).
    destruct (outcome_sync me i i0 e e1 e' r root Hready Hmir K1 K2 Hidx Hcore Hroot Hcalm dir w Hempty) as (w' & synced & records & H1 & H2 & H3).
    exists (folder_bundle me i0 root e'), w', synced, records. split_and!; try done. by apply Hfetch.
Qed.
End reach.
