(* ===== verification/StorageText.v ===== *)
(** * Shared folders: a text for the records

    A concrete instance of [Serde] for the records of a shared folder and the
    payloads they travel in, with the law that what is written is read back: a
    value becomes a list of words, and each word is framed. The theorems about
    publishing assume such a text; the runs below use this one. *)
From S2P Require Import Prelude Text Json StorageDomain StorageSignature StorageIndex StoragePublish.

Module Words.

(** ** Framing *)
Definition frame (w : string) (rest : string) : string := foldr (λ c s, String "."%char (String c s)) (String ";"%char rest) (String.list_ascii_of_string w).
Definition write (ws : list string) : string := foldr frame "" ws.

Fixpoint read (s : string) : list string :=
  match s with
  | String "."%char (String c s) => match read s with w :: ws => String c w :: ws | [] => [] end
  | String _ s => "" :: read s
  | "" => []
  end.

Lemma read_frame w rest : read (frame w rest) = w :: read rest.
Proof.
  unfold frame. induction w as [|c w IH]; [done|]. cbn [String.list_ascii_of_string foldr]. set (t := foldr _ _ _) in *.
  change (match read t with w :: ws => String c w :: ws | [] => [] end = String c w :: read rest). by rewrite IH.
Qed.

Lemma read_write ws : read (write ws) = ws.
Proof. induction ws as [|w ws IH]; [done|]. change (write (w :: ws)) with (frame w (write ws)). by rewrite read_frame, IH. Qed.

(** ** Values as words *)
Class Worded (A : Type) := {
  put : A → list string → list string;
  grab : list string → option (A * list string);
  grab_put a ws : grab (put a ws) = Some (a, ws);
}.

#[export, refine] Instance worded_string : Worded string := {| put s ws := s :: ws; grab ws := match ws with s :: ws => Some (s, ws) | [] => None end |}.
Proof. done. Defined.

Fixpoint bits (p : positive) : string :=
  match p with xH => "" | xO p => String "0"%char (bits p) | xI p => String "1"%char (bits p) end.
Fixpoint unbits (s : string) : positive :=
  match s with "" => xH | String c s => if bool_decide (c = "1"%char) then xI (unbits s) else xO (unbits s) end.
Lemma unbits_bits p : unbits (bits p) = p.
Proof. induction p as [p IH|p IH|]; cbn [bits unbits]; [rewrite bool_decide_true|rewrite bool_decide_false|]; by rewrite ?IH. Qed.

Definition digits (z : Z) : string := match z with Z0 => "" | Zpos p => String "+"%char (bits p) | Zneg p => String "-"%char (bits p) end.
Definition undigits (s : string) : Z :=
  match s with "" => 0 | String c s => if bool_decide (c = "+"%char) then Zpos (unbits s) else Zneg (unbits s) end.
Lemma undigits_digits z : undigits (digits z) = z.
Proof. destruct z; cbn; rewrite ?unbits_bits; done. Qed.

(** Through an embedding. *)
Definition via {A B} `{Worded B} (f : A → B) (g : B → A) (Hgf : ∀ a, g (f a) = a) : Worded A.
Proof.
  refine {| put a ws := put (f a) ws; grab ws := match grab ws with Some (b, ws) => Some (g b, ws) | None => None end |}.
  intros a ws. by rewrite grab_put, Hgf.
Defined.

#[export] Instance worded_Z : Worded Z := via digits undigits undigits_digits.
#[export, refine] Instance worded_bool : Worded bool := via (λ b : bool, if b then 1%Z else 0%Z) (Z.eqb 1) _.
Proof. by intros []. Defined.

#[export, refine] Instance worded_prod {A B} `{Worded A, Worded B} : Worded (A * B) := {|
  put x ws := put x.1 (put x.2 ws);
  grab ws := match grab ws with
             | Some (a, ws) => match grab ws with Some (b, ws) => Some ((a, b), ws) | None => None end
             | None => None
             end |}.
Proof. intros [a b] ws. by rewrite !grab_put. Defined.

#[export, refine] Instance worded_option {A} `{Worded A} : Worded (option A) := {|
  put x ws := match x with Some a => "S" :: put a ws | None => "N" :: ws end;
  grab ws := match ws with
             | "S" :: ws => match grab ws with Some (a, ws) => Some (Some a, ws) | None => None end
             | _ :: ws => Some (None, ws)
             | [] => None
             end |}.
Proof. intros [a|] ws; [by rewrite grab_put|done]. Defined.

Fixpoint grab_n {A} `{Worded A} (n : nat) (ws : list string) : option (list A * list string) :=
  match n with
  | O => Some ([], ws)
  | S n => match grab ws with
           | Some (a, ws) => match grab_n n ws with Some (l, ws) => Some (a :: l, ws) | None => None end
           | None => None
           end
  end.

#[export, refine] Instance worded_list {A} `{Worded A} : Worded (list A) := {|
  put l ws := put (Z.of_nat (length l)) (foldr put ws l);
  grab ws := match grab (A := Z) ws with Some (n, ws) => grab_n (Z.to_nat n) ws | None => None end |}.
Proof.
  intros l ws. rewrite grab_put, Nat2Z.id. induction l as [|a l IH]; [done|]. cbn [length foldr grab_n]. by rewrite grab_put, IH.
Defined.

#[export, refine] Instance worded_map {A} `{Worded A} : Worded (gmap string A) :=
  via (B := list (string * A)) (λ m, map_to_list m) (λ l, list_to_map l) _.
Proof. intros m. apply list_to_map_to_list. Defined.

#[export, refine] Instance worded_stamp : Worded VersionStamp := via (λ v, (vs_updated_at v, vs_node_id v))
  (λ '(a, b), {| vs_updated_at := a; vs_node_id := b |}) _.
Proof. by intros []. Defined.

#[export, refine] Instance worded_folder : Worded FolderRecord := via
  (λ r, (fd_id r, fd_name r, fd_parent_id r, fd_sort_order r, fd_color r, fd_encrypted r, fd_share_enabled r, fd_shared_room_id r,
    fd_last_cid r, fd_last_saved_at r, fd_last_shared_at r, fd_deleted_at r, fd_created_at r, fd_updated_at r, fd_field_versions r))
  (λ '(a, b, c, d, e, f, g, h, i, j, k, l, m, n, o), {| fd_id := a; fd_name := b; fd_parent_id := c; fd_sort_order := d; fd_color := e;
    fd_encrypted := f; fd_share_enabled := g; fd_shared_room_id := h; fd_last_cid := i; fd_last_saved_at := j; fd_last_shared_at := k;
    fd_deleted_at := l; fd_created_at := m; fd_updated_at := n; fd_field_versions := o |}) _.
Proof. by intros []. Defined.

#[export, refine] Instance worded_file : Worded FileRecord := via
  (λ r, (fl_id r, fl_folder_id r, fl_sort_order r, fl_name r, fl_mime_type r, fl_size r, fl_data_url r, fl_checksum r, fl_version r,
    fl_starred r, fl_last_cid r, fl_last_share_cid r, fl_deleted_at r, fl_created_at r, fl_updated_at r, fl_field_versions r))
  (λ '(a, b, c, d, e, f, g, h, i, j, k, l, m, n, o, p), {| fl_id := a; fl_folder_id := b; fl_sort_order := c; fl_name := d;
    fl_mime_type := e; fl_size := f; fl_data_url := g; fl_checksum := h; fl_version := i; fl_starred := j; fl_last_cid := k;
    fl_last_share_cid := l; fl_deleted_at := m; fl_created_at := n; fl_updated_at := o; fl_field_versions := p |}) _.
Proof. by intros []. Defined.

#[export, refine] Instance worded_file_bundle : Worded FileBundle := via
  (λ b, (xb_version b, xb_exported_at b, xb_origin_node b, xb_folder b, xb_file b))
  (λ '(a, b, c, d, e), {| xb_version := a; xb_exported_at := b; xb_origin_node := c; xb_folder := d; xb_file := e |}) _.
Proof. by intros []. Defined.

#[export, refine] Instance worded_bundle : Worded FolderBundle := via
  (λ b, (bu_version b, bu_exported_at b, bu_origin_node b, bu_folder b, bu_folders b, bu_files b))
  (λ '(a, b, c, d, e, f), {| bu_version := a; bu_exported_at := b; bu_origin_node := c; bu_folder := d; bu_folders := e; bu_files := f |}) _.
Proof. by intros []. Defined.

#[export, refine] Instance worded_payload : Worded EncryptedPayload := via
  (λ p, (ep_version p, ep_algorithm p, ep_kdf p, ep_iterations p, ep_salt p, ep_iv p, ep_cipher_text p))
  (λ '(a, b, c, d, e, f, g), {| ep_version := a; ep_algorithm := b; ep_kdf := c; ep_iterations := d; ep_salt := e; ep_iv := f;
    ep_cipher_text := g |}) _.
Proof. by intros []. Defined.

(** ** The text *)
#[export] Instance serde_words {A} `{Worded A} : Serde A := {|
  ser a := write (put a []);
  de s := match grab (read s) with Some (a, []) => Some a | _ => None end |}.

Lemma words_back {A} `{Worded A} (a : A) : reads_back a.
Proof. unfold reads_back. cbn [de ser serde_words]. by rewrite read_write, grab_put. Qed.

Lemma words_ok : serde_ok.
Proof. split; intros; apply words_back. Qed.
End Words.
