(* ===== verification/StorageShareRuns.v ===== *)
(** * Shared folders: rounds of an owner

    The theorems of [StorageFollow] and [StorageReach] on a small tree, and
    rounds that go wrong. *)
From S2P Require Import Prelude Effects Text Json Wire DmWire IdentityPairing StorageDomain StoragePaths StorageLink StorageSync StorageMirror.
From S2P Require Import StorageAccess StorageScan StorageSignature StorageWalk StorageIndex StorageFollow StorageOwner StoragePublish StorageReach.
From S2P Require Import StorageText.

Module ShareRuns.
Export Wire.Toy ToySeal Words.

#[export] Instance words_payload : Serde EncryptedPayload := serde_words.
#[export] Instance words_file : Serde FileBundle := serde_words.
#[export] Instance words_folder : Serde FolderBundle := serde_words.
#[export] Instance hmac : Hmac := {| hmac_sha256 k m := k +:+ m |}.
#[export] Instance json_text : JsonText := {| to_vec _ := ""; from_slice _ := None |}.
#[export] Instance share_values : ShareValues := {| folder_value _ := JNull; file_value _ := JNull |}.
#[export] Instance serde_signature : Serde SignaturePayload := {|
  ser p := write (map (λ f, xs_id f +:+ ":" +:+ xs_checksum f +:+ ":" +:+ xs_folder_id f) (sp_files p)); de _ := None |}.
#[export] Instance serde_link : Serde ShareLinkPayload := {| ser _ := "link"; de _ := None |}.

(** A file with its time of modification. *)
Definition file (data : string) (mtime : Z) : tree := TFile (Some data) (Some (slen data, mtime)).
Definition notes : string * tree := ("notes", TDir (Some [("b.txt", file "two" 1)])).
Definition home : tree := TDir (Some [("a.txt", file "one" 1); notes; ("empty", TDir (Some []))]).

(** The network serves under a CID what it was added as. *)
Definition served (cid : string) : result string Error := ok_or (strip_prefix "cid:" cid) ["not found"].
Definition round (now : string) (t : tree) (online : bool) : Round := {|
  rd_now := now; rd_instant := 0; rd_tree := t; rd_drawn n := now +:+ "-0123456789abc" +:+ pretty (Z.of_nat n);
  rd_dated n := ("t", Z.of_nat n); rd_salt _ := "0123456789abcdef"; rd_iv _ := "0123456789ab";
  rd_add n name bytes := if online && (slen bytes <=? MAX_JSON_BLOB_BYTES) then Ok ("cid:" +:+ bytes) else Err ["offline"];
  rd_sends _ := true |}.

Definition docs : SharedFolder := new_share "root" "Docs" ["home"; "Docs"] "room" "pass" "t".
Definition owner (e : SharedFolder) : Owner := {| ow_entry := e; ow_blobs := []; ow_sent := []; ow_announced := ∅; ow_calls := 0 |}.
Definition day1 : Round := round "1" home true.

Definition scan1 : Owner * result RescanResult (stop Error) := rescan day1 (owner docs).
Definition result1 : RescanResult := match scan1.2 with Ok r => r | Err _ => no_change end.
Definition publish1 : Owner * result () (stop Error) := republish alice day1 result1 scan1.1.

Lemma home_ok : tree_ok home.
Proof.
  assert (H : ∀ n, bool_decide (n ≠ "" ∧ string_forallb not_slash n = true ∧ to_string_lossy n = n) = true → name_ok n) by (intros n H; by apply bool_decide_eq_true in H).
  unfold home. apply tree_ok_dir. split; [by apply (bool_decide_unpack _); vm_compute|].
  repeat (apply Forall_cons; split); cbn [fst snd]; try (split; [by apply H; vm_compute|]); [done| | |by apply Forall_nil].
  - apply tree_ok_dir. split; [by apply (bool_decide_unpack _); vm_compute|]. apply Forall_singleton. split; [by apply H; vm_compute|done].
  - apply tree_ok_dir. split; [by constructor|by constructor].
Qed.

Lemma home_portable : portable_tree home.
Proof.
  intros p x H. assert (Hp : p ∈ map fst (nodes home)) by by apply (list_elem_of_fmap_2 fst _ (p, x)).
  replace (map fst (nodes home)) with [["a.txt"]; ["empty"]; ["notes"]; ["notes"; "b.txt"]] in Hp by by vm_compute.
  rewrite !elem_of_cons, elem_of_nil in Hp. destruct Hp as [->|[->|[->|[->|[]]]]]; apply (bool_decide_unpack _); by vm_compute.
Qed.

Lemma docs_ready : round_ready day1 docs.
Proof.
  split; [apply home_ok|apply home_portable|done| |by intros ? ? ? ? ? _ ?]. split.
  - assert (H : forallb (λ i, forallb (λ j, (i =? j)%nat || negb (bool_decide (generate_uuid_v4 (rd_drawn day1 i) = generate_uuid_v4 (rd_drawn day1 j))))
      (seq 0 4)) (seq 0 4) = true) by by vm_compute.
    change (length (nodes (rd_tree day1))) with (length (nodes home)). replace (length (nodes home)) with 4%nat by by vm_compute.
    intros i j Hi Hj E. rewrite forallb_elem in H. specialize (H i ltac:(apply elem_of_seq; lia)). cbn beta in H. rewrite forallb_elem in H.
    specialize (H j ltac:(apply elem_of_seq; lia)). cbn beta in H. rewrite bool_decide_true, orb_false_r in H by done. by apply Nat.eqb_eq.
  - intros n Hn. split; [|by intros ?%elem_of_nil]. cbn [docs new_share sh_folders map fd_id root_folder_record].
    intros H%list_elem_of_singleton. apply (f_equal slen) in H. unfold generate_uuid_v4 in H. rewrite !slen_append in H.
    change (slen "-") with 1 in H. change (slen "root") with 4 in H.
    replace (length (nodes (rd_tree day1))) with 4%nat in Hn by by vm_compute.
    destruct n as [|[|[|[|n]]]]; [by vm_compute in H..|lia].
Qed.

Lemma day1_network : network_ok day1 served scan1.1.(ow_entry).
Proof.
  split; [done|done|]. intros n name bytes cid. cbn [day1 round rd_add]. destruct (slen bytes <=? _) eqn:E; [|done]. intros [= <-].
  split_and!; [unfold served; by rewrite strip_prefix_append|done|]. apply Z.leb_le in E. unfold limit, MAX_FILE_BLOB_BYTES, MAX_JSON_BLOB_BYTES in *.
  case_bool_decide; lia.
Qed.

Lemma outcome {A B} (x : A * B) b : x.2 = b → x = (x.1, b).
Proof. intros <-. by destruct x. Qed.

Lemma scan1_done : rescan day1 (owner docs) = (scan1.1, Ok result1).
Proof. unfold scan1. apply outcome. by vm_compute. Qed.
Lemma publish1_done : republish alice day1 result1 scan1.1 = (publish1.1, Ok tt).
Proof. unfold publish1. apply outcome. by vm_compute. Qed.

Lemma day1_urls : urls_fit (ow_entry scan1.1) result1.
Proof.
  assert (H : forallb (λ f, match rs_bytes result1 !! fl_id f with Some d => slen (data_url (fl_mime_type f) d) <=? MAX_DATA_URL_LEN | None => true end)
    (sh_files (ow_entry scan1.1)) = true) by by vm_compute.
  intros f d Hf Hd. rewrite forallb_elem in H. specialize (H f Hf). cbn beta in H. rewrite Hd in H. by apply Z.leb_le.
Qed.

(** A requester for whom everything works, with nothing in its directory. *)
Definition calm (n : nat) : Input := {|
  alive := true; io := Works; blob := served; time := "now"; os := "error"; online := true; drawn := "d"; heard := [] |}.
Definition nothing : World := {| table := []; fs := ∅; pos := 0 |}.
Definition to : path := ["data"; "sandbox"; "Docs"].

Lemma docs_kept : kept_up served alice docs.
Proof. by apply kept_new. Qed.

Lemma day1_done : round_done served alice day1 docs (ow_entry publish1.1).
Proof.
  exists (owner docs), scan1.1, result1, publish1.1. split_and!; [done|apply scan1_done|apply day1_network|apply day1_urls| |done].
  replace (rs_changed result1) with true by by vm_compute. apply publish1_done.
Qed.

Lemma day1_pass : sh_passphrase (ow_entry publish1.1) = "pass".
Proof. by vm_compute. Qed.

Lemma round_arrives_witness :
  published served (ow_entry publish1.1) ∧
  ∃ cid bundle w' synced records, sh_last_cid (ow_entry publish1.1) = Some cid
    ∧ fetch_folder_bundle (served cid) cid "pass" = Ok bundle
    ∧ sync_bundle calm to "pass" bundle [] nothing = (w', Ok (synced, records))
    ∧ (∀ p d st, (p, TFile (Some d) st) ∈ nodes home → ∃ c, fs w' !! (to ++ p) = Some (File c) ∧ sha256_hex c = sha256_hex d)
    ∧ (∀ k, k ∈ map sf_rel_path synced ↔ file_key home k).
Proof.
  destruct (round_arrives served alice day1 docs (ow_entry publish1.1) calm to nothing words_ok docs_kept docs_ready day1_done)
    as (Hpub & Hcid & Harr); [done|by split|].
  split; [exact Hpub|]. destruct Hcid as [cid Hcid].
  { exists "a.txt", ["a.txt"], (Some "one"), (3, 1). split; [by left|done]. }
  destruct (Harr cid Hcid) as (bundle & w' & synced & records & H1 & H2 & H3); [vm_compute; discriminate|vm_compute; discriminate|].
  rewrite day1_pass in H1, H2. exists cid, bundle, w', synced, records. exact (conj Hcid (conj H1 (conj H2 H3))).
Defined.

Lemma scan_mirrors_witness : mirrors home docs (ow_entry scan1.1) result1.
Proof.
  apply (scan_mirrors (rd_drawn day1) "1" home docs); [done|by apply new_share_index|apply home_ok|apply (ro_fresh _ _ docs_ready)| |].
  - by intros ? ? ? ? ? _ ?.
  - apply injective_projections; by vm_compute.
Defined.

(** What the network has for the files of an entry, with whether it is what
    the record says. *)
Definition contents (e : SharedFolder) : list (string * result string Error * bool) := map (λ f,
  let r := fetch_file_content (served (default "" (content_cid f))) "" (sh_passphrase e) in
  (fl_name f, r, match r with Ok d => bool_decide (sha256_hex d = fl_checksum f) | Err _ => false end)) (sh_files e).

Definition daemon (e : SharedFolder) : Daemon := {| dm_table := [e]; dm_blobs := []; dm_sent := []; dm_announced := ∅ |}.
Definition ticks (rounds : list Round) : Daemon := foldl (λ d i, tick alice (λ _, i) true true d) (daemon docs) rounds.
Definition entry_of (d : Daemon) : SharedFolder := default docs (head (dm_table d)).

Example first_round : contents (entry_of (ticks [day1])) = [("a.txt", Ok "one", true); ("b.txt", Ok "two", true)].
Proof. by vm_compute. Qed.

(** A file changes while the network is away: the round fails after the scan
    has taken note of the change, so the rounds that follow see none, and the
    new content is never published. *)
Definition changed_home : tree := TDir (Some [("a.txt", file "uno" 2); notes]).
Example failed_publication_lost :
  let d := ticks [day1; round "2" changed_home false; round "3" changed_home true; round "4" changed_home true] in
  contents (entry_of d) = [("a.txt", Ok "one", false); ("b.txt", Ok "two", true)]
  ∧ sh_last_published_at (entry_of d) = Some "1".
Proof. by vm_compute. Qed.

(** The same when another file cannot be read. *)
Definition half_readable : tree := TDir (Some [("a.txt", file "uno" 2); ("n.txt", TFile None (Some (1, 1))); notes]).
Example unreadable_file_hides_changes :
  let d := ticks [day1; round "2" half_readable true; round "3" changed_home true] in
  contents (entry_of d) = [("a.txt", Ok "one", false); ("b.txt", Ok "two", true)].
Proof. by vm_compute. Qed.

(** A folder is away during a scan that fails, and comes back: it is a new
    folder, but its file keeps the identifier of the old one, which is deleted,
    so that a requester finds no place for it. *)
Definition without_notes : tree := TDir (Some [("a.txt", file "one" 1); ("n.txt", TFile None (Some (1, 1)))]).
Definition placed (e : SharedFolder) : list (string * option string) := map (λ f,
  (fl_name f, file_target_rel (folder_map_from_records (sh_folders e)) (fl_folder_id f) (fl_name f))) (sh_files e).
Example returned_folder_empty :
  placed (entry_of (ticks [day1])) = [("a.txt", Some "a.txt"); ("b.txt", Some "notes/b.txt")]
  ∧ placed (entry_of (ticks [day1; round "2" without_notes true; round "3" home true; round "4" home true]))
    = [("a.txt", Some "a.txt"); ("b.txt", None)].
Proof. by vm_compute. Qed.
End ShareRuns.
